(* ===== verification/_CoqProject ===== *)
-Q . S2P
Prelude.v
FreeList.v
FreeListModel.v
FreeListSpec.v
FreeListInv.v
FreeListRefine.v
FreeListClient.v
IntArrayFreeList.v
FreeListTheorems.v
Conversions.v
SpaceDescriptor.v
Memory.v
RawMemoryFreeList.v
SideMetadata.v
SideMetadataBits.v
SideMetadataOps.v
SideMetadataBulk.v
SideMetadataTheorems.v
SideMetadataSpecs.v
SideMetadataSearch.v
SideMetadataFind.v
SideMetadataScan.v
HeaderMetadata.v
ObjectForwarding.v
Regions.v
RefCount.v
ImmixHoles.v
ImmixHolesTheorems.v
ImmixReuse.v
Scheduler.v
SchedulerSteps.v
SchedulerBuckets.v
SchedulerInv.v
SchedulerPreserve.v
SchedulerPark.v
SchedulerReach.v
SchedulerRun.v
SchedulerTheorems.v
BlockTables.v
ChunkMap.v
BlockList.v
BlockListRefine.v
BlockListTheorems.v
SizeClasses.v
BlockCells.v
FreeListAllocator.v
FreeListAllocatorInv.v
FreeListAllocatorTheorems.v
Tracing.v
TracingInv.v
TracingTheorems.v
ScanTracing.v
ScanTheorems.v
Spaces.v
LargeObjects.v
LargeObjectsTheorems.v
SemiSpace.v
SemiSpaceInv.v
SemiSpaceTheorems.v
SemiSpaceExample.v
FreeListUnits.v
Map32.v
Map32Inv.v
Map32Boot.v
PageResource.v
Map32Theorems.v
PageResourceTheorems.v
RustStd.v
Options.v
OptionsTheorems.v
OptionsShow.v
GCTrigger.v
Generational.v
GenInv.v
GenTheorems.v
Barrier.v
BarrierTheorems.v
GenExample.v
Mmapper.v
MmapperTheorems.v
