(* ===== verification/Prelude.v ===== *)
(** * MMTk core: a verification development

    MMTk is a library of garbage collectors for language runtimes.  A plan is built from
    spaces (src/src/policy), which get pages from page resources and free lists
    (src/src/util/heap, src/src/util/freelist.rs), keep their per-object and per-region
    state in side metadata tables or object headers (src/src/util/metadata), and do their
    work in packets that a scheduler runs on worker threads (src/src/scheduler).  This
    library models the parts that carry the logic of the collectors and proves what makes
    them correct.

    ** How code is modelled

    Machine integers are [Z] with wrap-around written out: [+u], [-u], [*u] and [ushl] are
    the operations on [usize], [i32] and [isize] the signed types.  Memory is a function
    from addresses to bytes ([Memory.mem]).  A call that can panic returns [res]: [Val],
    [Panic], or [NoFuel] when a modelled loop ran out of fuel.  Every theorem on a loop
    says that it returns [Val] once the fuel reaches a stated bound, so it includes
    termination.  Shared objects (free lists with a parent) live in an explicit store, and
    concurrent code (the scheduler, forwarding, tracing, barriers) is a step relation whose steps are
    the atomic operations of the source.

    ** Parts and files

    - Free lists: FreeList.v is the trait of src/src/util/freelist.rs over the class
      [FreeList] of its required methods; FreeListModel.v, FreeListSpec.v, FreeListInv.v and
      FreeListRefine.v relate a table of 32-bit entries to a segmentation of the units into
      blocks; FreeListClient.v is about any client.  The interface [FreeListLaws] is
      discharged by IntArrayFreeList.v (int_array_freelist.rs, with parents that share their
      table) and RawMemoryFreeList.v (raw_memory_freelist.rs,
      over memory that is mapped as the list grows).  FreeListTheorems.v: construction,
      allocation by first and best fit, allocation at a unit and freeing refine the
      segmentation, clients never hold overlapping blocks, children share their parent's
      table.
    - Addresses and layout: Conversions.v (address.rs, conversions.rs, constants.rs,
      vm_layout.rs) and SpaceDescriptor.v (space_descriptor.rs): alignment, rounding and
      the round trip of descriptors.
    - Side metadata: Memory.v and SideMetadata.v (global.rs, helpers.rs, ranges.rs,
      constants.rs under metadata/side_metadata); SideMetadataBits.v, SideMetadataOps.v and
      SideMetadataBulk.v view memory as one sequence of bits; SideMetadataSpecs.v checks the
      layout of all tables for every combination of features; SideMetadataTheorems.v: each
      operation changes one value and no other, of its table or of another.
      SideMetadataSearch.v with SideMetadataFind.v and SideMetadataScan.v: the fast searches
      agree with the simple ones.  HeaderMetadata.v: the same for fields in object headers.
    - Forwarding: ObjectForwarding.v (object_forwarding.rs and the
      loop of CopySpace::trace_object): under any interleaving one worker copies an object
      and all return its copy.
    - Reference counting Immix: Regions.v (linear_scan.rs), RefCount.v (rc.rs), ImmixHoles.v, ImmixHolesTheorems.v and ImmixReuse.v
      (policy/immix: block.rs, line.rs, immixspace.rs): counts are exact until they stick,
      and the lines that are reused hold no object with a count.
    - Scheduler: Scheduler.v (worker_goals.rs, worker_monitor.rs, work_bucket.rs,
      scheduler.rs) and SchedulerSteps.v (worker.rs, gc_requester.rs) define a state machine
      of workers and mutators; SchedulerBuckets.v, SchedulerInv.v, SchedulerPreserve.v,
      SchedulerPark.v and SchedulerReach.v prove its invariant by rule induction;
      SchedulerRun.v runs it; SchedulerTheorems.v: no work is lost when workers park, the
      assertions of parking hold, stages open in order, and a collection ends with every
      enabled bucket empty; and runs where this fails, with one worker or with the barriers of
      LXR, or where the second stage opens early.
    - Mark-sweep: BlockTables.v states the interface [BlockMemory] between the metadata of
      blocks and its users and proves it of the side metadata; ChunkMap.v (chunk_map.rs);
      BlockList.v, BlockListRefine.v and BlockListTheorems.v (native_ms/block_list.rs and
      its users): systems of linked lists are disjoint sequences; SizeClasses.v (allocator.rs
      and the bins): an object fits the cell of its bin; BlockCells.v (native_ms/block.rs, free_list_allocator.rs): sweeping and
      allocating hand out exactly the dead cells.  FreeListAllocator.v,
      FreeListAllocatorInv.v and FreeListAllocatorTheorems.v (free_list_allocator.rs, the
      abandoned lists of native_ms/global.rs): whatever mutators allocate, objects are
      aligned and never overlap.
    - Tracing: Tracing.v (PlanProcessEdges of gc_work.rs) runs packets over the class
      [PlanTrace] of what a plan does with an object; TracingInv.v states the laws of a plan,
      [TraceLaws], and TracingTheorems.v: every schedule of any number of workers ends, and
      leaves an isomorphic copy of the reachable graph.  ScanTracing.v and ScanTheorems.v do
      the same for the default packets, which queue and scan objects, and for the packets of
      remembered sets (gc_work.rs, plan/tracing.rs, plan/generational/gc_work.rs).
    - Spaces: Spaces.v (copyspace.rs, immortalspace.rs, mark_bit.rs,
      log_bit.rs, util/copy/mod.rs), LargeObjects.v with LargeObjectsTheorems.v
      (largeobjectspace.rs, treadmill.rs).
    - Plans: SemiSpace.v (plan/semispace/global.rs) discharges the laws in SemiSpaceInv.v;
      SemiSpaceTheorems.v: a whole collection keeps exactly the reachable graph and sweeps the
      rest.  Generational.v (plan/generational: global.rs, copying/global.rs) does so in
      GenInv.v; GenTheorems.v: a nursery collection preserves the graph although it traces
      young objects only, given that references from mature objects to young ones are
      remembered.  Barrier.v and BarrierTheorems.v (plan/barriers.rs,
      generational/barrier.rs): in every interleaving of mutators the object barrier
      remembers them, so that the condition of the one theorem is the conclusion of the
      other.  SemiSpaceExample.v and GenExample.v run concrete heaps.
    - Heap: FreeListUnits.v is what a client of a free list that merges needs; Map32.v with
      Map32Inv.v, Map32Boot.v and Map32Theorems.v (layout/map32.rs): regions of chunks are
      disjoint and their lists are those of the spaces; PageResource.v and
      PageResourceTheorems.v (pageresource.rs, accounting.rs, monotonepageresource.rs):
      pages handed out are disjoint, and accounted for.  Mmapper.v and MmapperTheorems.v
      (layout/mmapper.rs, layout/fragmented_mapper.rs, rust_util/rev_group.rs): the slabs and
      the hash table of the mapper implement one state per chunk, also when a range is
      quarantined in bulk and when the operating system refuses.
    - Options and triggers: RustStd.v is what the options use of the Rust library
      (ASCII strings, numbers, binary64); Options.v, OptionsTheorems.v and
      OptionsShow.v (options.rs): options stay valid whatever is set, and what is printed is
      read back; GCTrigger.v (gc_trigger.rs): the heap size stays
      within its bounds.

    ** Fuel and costs

    The bound of each loop is in the statement that uses it: the units of a free list, the
    bytes of a metadata range, the lines of a block or object, 8192 steps for a mark-sweep
    block (64 KiB looked at in steps of eight bytes), the chunks of a range, the slabs of a
    range and the entries of the slab table, the length of a block list, more than the number of chunks for the chunk map.  The schedules of tracing
    have no fuel: a cost of the state, from the slots and objects that were not visited,
    bounds their length.

    ** Parameters

    What is not code of the repository is a parameter with named hypotheses: whether [mmap]
    succeeds and whether an address is mapped, the copy function and the object sizes of a
    binding, its alignment constants, its mark bits (which lie outside the cells), the
    compile-time features, the packets of a collection and which of them stop the mutators,
    whether mutators add packets while no collection stops them (the LXR barriers do),
    the regular expressions and derived parsers of the options.  The heap of the virtual
    machine is a map from slots to references and from objects to their slots; mutators write
    what they can reach.

    ** Metadata and assertions

    The files on metadata, free lists and mark-sweep are over bytes of memory.  The files on
    tracing, spaces and plans take the values that those tables and headers hold for each
    object.  Debug assertions are panics in the tracing, spaces, plans, heap, scheduler and raw
    memory free list files; reference counts and page resources have a parameter [debug] that
    tells whether they are checked; they are left out elsewhere.  The memory model is sequentially consistent, interleaving at the
    granularity of the atomic operations of the source.

    ** Not modelled

    The LXR plan, the Immix space beyond its hole search, plans other than semi-space and
    generational copying, the bump and Immix allocators, the mapper of 32-bit targets and
    the map of contiguous spaces, reference and finalization processing, statistics, sanity checking and
    the traits of the binding: they are large, call the binding at every step or only report.
    A full-heap collection of the generational plan is modelled, and its tracing keeps the
    laws, but only nursery collections have a theorem from [prepare] to [release].
    PROJECT.json lists the components with the reasons. *)

From Stdlib Require Export ZArith Lia.
From stdpp Require Export base tactics numbers option gmap sorting functions strings.
From stdpp Require Export list.
#[global] Open Scope Z_scope.

(** ** The outcome of Rust code *)

(** A call returns a value, panics (an out-of-range index, a failed [assert!],
    an [unwrap] of [None], a division by zero), or the fuel of a modelled loop
    ran out. *)
Inductive res (A : Type) : Type :=
| Val (a : A)
| Panic
| NoFuel.
Arguments Val {A} a.
Arguments Panic {A}.
Arguments NoFuel {A}.

#[export] Instance res_ret : MRet res := @Val.
#[export] Instance res_bind : MBind res := λ A B f m,
  match m with Val a => f a | Panic => Panic | NoFuel => NoFuel end.
#[export] Instance res_fmap : FMap res := λ A B f m,
  match m with Val a => Val (f a) | Panic => Panic | NoFuel => NoFuel end.

(** Total-correctness weakest precondition: the call returns, and its value
    satisfies [Q]. *)
Definition wp {A} (m : res A) (Q : A → Prop) : Prop :=
  match m with Val a => Q a | _ => False end.

Lemma wp_ret {A} (a : A) (Q : A → Prop) : Q a → wp (mret a) Q.
Proof. done. Qed.

Lemma wp_bind {A B} (m : res A) (f : A → res B) (Q : B → Prop) :
  wp m (λ a, wp (f a) Q) → wp (m ≫= f) Q.
Proof. by destruct m. Qed.

Lemma wp_assoc {A B C} (m : res A) (f : A → res B) (g : B → res C) (Q : C → Prop) :
  wp ((m ≫= f) ≫= g) Q → wp (m ≫= λ a, f a ≫= g) Q.
Proof. by destruct m. Qed.

Lemma wp_mono {A} (m : res A) (P Q : A → Prop) :
  wp m P → (∀ a, P a → Q a) → wp m Q.
Proof. destruct m; naive_solver. Qed.

Lemma wp_elim {A} (m : res A) (Q : A → Prop) : wp m Q → ∃ a, m = Val a ∧ Q a.
Proof. destruct m; naive_solver. Qed.

Lemma wp_intro {A} (m : res A) a (Q : A → Prop) : m = Val a → Q a → wp m Q.
Proof. by intros ->. Qed.

Lemma bind_Val {A B} (m : res A) (f : A → res B) b : m ≫= f = Val b → ∃ a, m = Val a ∧ f a = Val b.
Proof. destruct m; naive_solver. Qed.

(** Step over the first call of a sequence: [tac] proves its specification, and
    its result [a] satisfies [H] in the rest. *)
Tactic Notation "wp_seq" ident(a) ident(H) "by" tactic3(tac) :=
  apply wp_bind; eapply wp_mono; [ solve [tac] | intros a H; cbv beta in H ].

(** An [assert!] of the source. *)
Definition rust_assert (b : bool) : res unit := if b then Val () else Panic.

(** Rust's [Result]. *)
Inductive result (A E : Type) : Type :=
| Ok (a : A)
| Err (e : E).
Arguments Ok {A E} a.
Arguments Err {A E} e.
Definition result_map {A B E F} (f : A → B) (g : E → F) (r : result A E) : result B F :=
  match r with Ok a => Ok (f a) | Err e => Err (g e) end.
Definition is_ok {A E} (r : result A E) : bool := match r with Ok _ => true | Err _ => false end.

(** [unwrap] on an [Option]. *)
Definition unwrap {A} (o : option A) : res A :=
  match o with Some a => Val a | None => Panic end.

(** ** Fixed-width integers, as in the release profile (wrapping) *)

(** The [w]-bit unsigned value of [x]. *)
Definition uwrap (w x : Z) : Z := x mod 2 ^ w.
(** The 32-bit two's-complement value of [x]. *)
Definition i32 (x : Z) : Z := (x + 2 ^ 31) mod 2 ^ 32 - 2 ^ 31.

Definition is_u (w x : Z) : Prop := 0 ≤ x < 2 ^ w.
Definition is_i32 (x : Z) : Prop := - 2 ^ 31 ≤ x < 2 ^ 31.

(** [usize] operations. *)
Definition usize_MAX : Z := 2 ^ 64 - 1.
Definition uadd (x y : Z) : Z := uwrap 64 (x + y).
Definition usub (x y : Z) : Z := uwrap 64 (x - y).
Definition umul (x y : Z) : Z := uwrap 64 (x * y).
Definition ushl (w x n : Z) : Z := uwrap w (Z.shiftl x n).
Definition unot (w x : Z) : Z := uwrap w (Z.lnot x).
Definition saturating_sub (x y : Z) : Z := Z.max 0 (x - y).

Declare Scope mword_scope.
Delimit Scope mword_scope with mw.
Infix "+u" := uadd (at level 50, left associativity) : mword_scope.
Infix "-u" := usub (at level 50, left associativity) : mword_scope.
Infix "*u" := umul (at level 40, left associativity) : mword_scope.
#[global] Open Scope mword_scope.

Lemma uwrap_id w x : 0 ≤ x < 2 ^ w → uwrap w x = x.
Proof. apply Z.mod_small. Qed.

Lemma uwrap_range w x : 0 ≤ w → 0 ≤ uwrap w x < 2 ^ w.
Proof. intros. apply Z.mod_pos_bound. lia. Qed.

Lemma i32_id x : is_i32 x → i32 x = x.
Proof. unfold is_i32, i32. intros. rewrite Z.mod_small; lia. Qed.

Lemma i32_range x : is_i32 (i32 x).
Proof.
  unfold is_i32, i32.
  pose proof (Z.mod_pos_bound (x + 2 ^ 31) (2 ^ 32) ltac:(lia)). lia.
Qed.

(** ** Bits *)

Lemma testbit_pow2 n i : 0 ≤ n → Z.testbit (2 ^ n) i = (n =? i).
Proof. apply Z.pow2_bits_eqb. Qed.

Lemma testbit_uwrap w x i :
  0 ≤ w → 0 ≤ i → Z.testbit (uwrap w x) i = (i <? w) && Z.testbit x i.
Proof.
  intros. unfold uwrap. destruct (Z.ltb_spec i w); simpl.
  - by rewrite Z.mod_pow2_bits_low by lia.
  - by rewrite Z.mod_pow2_bits_high by lia.
Qed.

Lemma testbit_shiftl x n i :
  0 ≤ i → Z.testbit (Z.shiftl x n) i = (n <=? i) && Z.testbit x (i - n).
Proof.
  intros. rewrite Z.shiftl_spec by lia. destruct (Z.leb_spec n i); [done|].
  by rewrite Z.testbit_neg_r by lia.
Qed.

Lemma testbit_small w x i : 0 ≤ x < 2 ^ w → w ≤ i → Z.testbit x i = false.
Proof.
  intros Hx Hi. destruct (decide (x = 0)) as [->|]; [apply Z.bits_0|].
  apply Z.bits_above_log2; [lia|]. apply Z.log2_lt_pow2; [lia|].
  eapply Z.lt_le_trans; [apply Hx|]. apply Z.pow_le_mono_r; lia.
Qed.

Lemma testbit_i32_high x i :
  is_i32 x → 31 ≤ i → Z.testbit x i = (x <? 0).
Proof.
  unfold is_i32. intros Hx Hi.
  assert (2 ^ 31 ≤ 2 ^ i) by (apply Z.pow_le_mono_r; lia).
  destruct (Z.ltb_spec x 0) as [Hneg|Hpos].
  - rewrite Z.testbit_true by lia.
    replace (x / 2 ^ i) with (-1); [done|].
    apply (Z.div_unique _ _ _ (x + 2 ^ i)); lia.
  - apply (testbit_small 31); lia.
Qed.

Lemma is_i32_bits x :
  is_i32 x ↔ ∀ i, 31 ≤ i → Z.testbit x i = Z.testbit x 31.
Proof.
  split.
  - intros Hx i Hi. rewrite !testbit_i32_high by (done || lia). done.
  - intros Hbits. unfold is_i32.
    destruct (Z.testbit x 31) eqn:E.
    + assert (Z.lnot x = uwrap 31 (Z.lnot x)) as Hn.
      { apply Z.bits_inj'. intros i Hi. rewrite testbit_uwrap by lia.
        destruct (Z.ltb_spec i 31); [done|]. simpl.
        rewrite Z.lnot_spec by lia. by rewrite Hbits. }
      pose proof (uwrap_range 31 (Z.lnot x)). unfold Z.lnot in *. lia.
    + assert (x = uwrap 31 x) as Hn.
      { apply Z.bits_inj'. intros i Hi. rewrite testbit_uwrap by lia.
        destruct (Z.ltb_spec i 31); [done|]. simpl. by apply Hbits. }
      pose proof (uwrap_range 31 x). lia.
Qed.

Lemma uwrap_bits_id w x :
  0 ≤ w → (∀ i, w ≤ i → Z.testbit x i = false) → uwrap w x = x.
Proof.
  intros ? Hb. apply Z.bits_inj'. intros i Hi. rewrite testbit_uwrap by lia.
  destruct (Z.ltb_spec i w); [done|]. simpl. symmetry. apply Hb. lia.
Qed.

Lemma is_u_bits w x :
  0 ≤ w → (∀ i, w ≤ i → Z.testbit x i = false) → is_u w x.
Proof. intros ? Hb. rewrite <-(uwrap_bits_id w x) by done. by apply uwrap_range. Qed.

Create Rewrite HintDb bits.
#[export] Hint Rewrite Z.land_spec Z.lor_spec Z.lxor_spec Z.ldiff_spec Z.bits_0 : bits.
#[export] Hint Rewrite Z.lnot_spec Z.shiftr_spec testbit_shiftl testbit_uwrap
  testbit_pow2 Z.testbit_ones_nonneg using lia : bits.

(** Normalise the [testbit]s of a goal and decide the comparisons that remain. *)
Ltac bits_norm := unfold ushl, unot; autorewrite with bits.
Ltac bits_case :=
  repeat (match goal with
    | |- context [ (?a <? ?b)%Z ] => destruct (Z.ltb_spec a b); try lia
    | |- context [ (?a <=? ?b)%Z ] => destruct (Z.leb_spec a b); try lia
    | |- context [ (?a =? ?b)%Z ] => destruct (Z.eqb_spec a b); try lia
    end; cbn [andb orb negb]).
Ltac bits_bool :=
  rewrite ?andb_true_r, ?andb_false_r, ?orb_false_r, ?orb_true_r; try done;
  repeat match goal with
    | |- context [ Z.testbit ?a ?b ] => destruct (Z.testbit a b)
    end; try done.
Ltac bits_at := bits_norm; bits_case; bits_bool.
Ltac bits_eq :=
  apply Z.bits_inj'; let i := fresh "i" in let Hi := fresh "Hi" in intros i Hi; bits_at.

(** ** Loops over a list *)

(** [for a in l { s = f(s, a) }], stopping at the first panic. *)
Fixpoint for_each {S A} (f : S → A → res S) (l : list A) (s : S) : res S :=
  match l with
  | [] => Val s
  | a :: l => s ← f s a; for_each f l s
  end.

Lemma wp_for_each {S A} (f : S → A → res S) (I : list A → S → Prop) l s :
  I [] s →
  (∀ l1 a l2 s, l = l1 ++ a :: l2 → I l1 s → wp (f s a) (I (l1 ++ [a]))) →
  wp (for_each f l s) (I l).
Proof.
  intros H0 Hstep.
  cut (∀ l2 l1 s, l = l1 ++ l2 → I l1 s → wp (for_each f l2 s) (I l)).
  { intros HH. by apply (HH l []). }
  clear H0 s. induction l2 as [|a l2 IH]; intros l1 s -> HI; simpl.
  { by rewrite app_nil_r. }
  apply wp_bind. eapply wp_mono; [by eapply Hstep|]. intros s' Hs'.
  apply (IH (l1 ++ [a])); [by rewrite <-app_assoc|done].
Qed.

(** ** Filters *)

Lemma filter_ext_in {A} (P Q : A → Prop) `{!∀ x, Decision (P x), !∀ x, Decision (Q x)} (l : list A) :
  (∀ x, x ∈ l → P x ↔ Q x) → filter P l = filter Q l.
Proof.
  induction l as [|x l IH]; intros HPQ; [done|].
  rewrite !filter_cons. rewrite IH by (intros; apply HPQ; by constructor).
  specialize (HPQ x ltac:(constructor)). repeat case_decide; naive_solver.
Qed.

Lemma filter_all {A} (P : A → Prop) `{!∀ x, Decision (P x)} (l : list A) :
  (∀ x, x ∈ l → P x) → filter P l = l.
Proof.
  induction l as [|x l IH]; intros HP; [done|].
  rewrite filter_cons_True by (apply HP; constructor). f_equal. apply IH.
  intros; apply HP; by constructor.
Qed.

Lemma filter_fmap {A B} (f : A → B) (P : B → Prop) `{!∀ x, Decision (P x)} (l : list A) :
  filter P (f <$> l) = f <$> filter (λ x, P (f x)) l.
Proof.
  induction l as [|x l IH]; [done|]. rewrite fmap_cons, !filter_cons, IH. by case_decide.
Qed.

Lemma foldl_filter {A B} (f : B → A → B) (P : A → Prop) `{!∀ x, Decision (P x)} (l : list A) b :
  foldl (λ b x, if decide (P x) then f b x else b) b l = foldl f b (filter P l).
Proof. revert b. induction l as [|x l IH]; intros b; [done|]. rewrite filter_cons. simpl. case_decide; apply IH. Qed.

Lemma foldl_fmap_list {A B C} (f : C → B → C) (g : A → B) (l : list A) c :
  foldl f c (g <$> l) = foldl (λ c x, f c (g x)) c l.
Proof. revert c. induction l as [|x l IH]; intros c; simpl; [done|apply IH]. Qed.
