(* ===== verification/FreeList.v ===== *)
(** * The [FreeList] trait (src/src/util/freelist.rs)

    A boundary-tag allocator over units, threaded through a table of 32-bit
    entries, two per unit ([lo] and [hi]).  The trait's required methods are the
    class [FreeList]; the provided methods are the definitions below, over any
    instance, as in the source.  [i32] arithmetic wraps; an entry access out of
    the table is a panic of the instance. *)

From S2P Require Import Prelude.

Definition FAILURE : Z := -1.
Definition MAX_HEADS : Z := 128.
Definition TOTAL_BITS : Z := 32.
Definition UNIT_BITS : Z := TOTAL_BITS - 2.
Definition MAX_UNITS : Z := (Z.shiftl 1 UNIT_BITS - 1) - MAX_HEADS - 1.
Definition NEXT_MASK : Z := Z.shiftl 1 UNIT_BITS - 1.
Definition PREV_MASK : Z := Z.shiftl 1 UNIT_BITS - 1.
Definition FREE_MASK : Z := i32 (Z.shiftl 1 (TOTAL_BITS - 1)).
Definition MULTI_MASK : Z := i32 (Z.shiftl 1 (TOTAL_BITS - 1)).
Definition COALESC_MASK : Z := i32 (Z.shiftl 1 (TOTAL_BITS - 2)).
Definition SIZE_MASK : Z := Z.shiftl 1 UNIT_BITS - 1.
Definition i32_MAX : Z := 2 ^ 31 - 1.

(** The required methods of the trait. *)
Class FreeList (T : Type) : Type := {
  head : T → Z;
  heads : T → Z;
  get_entry : T → Z → res Z;
  set_entry : T → Z → Z → res T
}.

Section ops.
Context {T : Type} `{!FreeList T}.
Implicit Types t : T.

Definition get_lo_entry t (unit : Z) : res Z :=
  get_entry t (i32 (Z.shiftl (i32 (unit + heads t)) 1)).
Definition get_hi_entry t (unit : Z) : res Z :=
  get_entry t (i32 (i32 (Z.shiftl (i32 (unit + heads t)) 1) + 1)).
Definition set_lo_entry t (unit value : Z) : res T :=
  set_entry t (i32 (Z.shiftl (i32 (unit + heads t)) 1)) value.
Definition set_hi_entry t (unit value : Z) : res T :=
  set_entry t (i32 (i32 (Z.shiftl (i32 (unit + heads t)) 1) + 1)) value.

Definition set_sentinel t (unit : Z) : res T :=
  t ← set_lo_entry t unit (Z.land NEXT_MASK unit);
  set_hi_entry t unit (Z.land PREV_MASK unit).

Definition get_size t (unit : Z) : res Z :=
  hi ← get_hi_entry t unit;
  if Z.land hi MULTI_MASK =? MULTI_MASK
  then hi1 ← get_hi_entry t (i32 (unit + 1)); Val (Z.land hi1 SIZE_MASK)
  else Val 1.

Definition set_size t (unit size : Z) : res T :=
  hi ← get_hi_entry t unit;
  if 1 <? size
  then
    t ← set_hi_entry t unit (Z.lor hi MULTI_MASK);
    t ← set_hi_entry t (i32 (unit + 1)) (Z.lor MULTI_MASK size);
    set_hi_entry t (i32 (i32 (unit + size) - 1)) (Z.lor MULTI_MASK size)
  else set_hi_entry t unit (Z.land hi (Z.lnot MULTI_MASK)).

Definition get_free t (unit : Z) : res bool :=
  lo ← get_lo_entry t unit; Val (Z.land lo FREE_MASK =? FREE_MASK).

Definition set_free t (unit : Z) (is_free : bool) : res T :=
  lo ← get_lo_entry t unit;
  if is_free
  then
    t ← set_lo_entry t unit (Z.lor lo FREE_MASK);
    size ← get_size t unit;
    if 1 <? size
    then
      lo ← get_lo_entry t (i32 (i32 (unit + size) - 1));
      set_lo_entry t (i32 (i32 (unit + size) - 1)) (Z.lor lo FREE_MASK)
    else Val t
  else
    t ← set_lo_entry t unit (Z.land lo (Z.lnot FREE_MASK));
    size ← get_size t unit;
    if 1 <? size
    then
      lo ← get_lo_entry t (i32 (i32 (unit + size) - 1));
      set_lo_entry t (i32 (i32 (unit + size) - 1)) (Z.land lo (Z.lnot FREE_MASK))
    else Val t.

Definition get_next t (unit : Z) : res Z :=
  hi ← get_hi_entry t unit;
  let next := Z.land hi NEXT_MASK in
  Val (if next <=? MAX_UNITS then next else head t).

Definition set_next t (unit next : Z) : res T :=
  old_value ← get_hi_entry t unit;
  set_hi_entry t unit (Z.lor (Z.land old_value (Z.lnot NEXT_MASK)) (Z.land next NEXT_MASK)).

Definition get_prev t (unit : Z) : res Z :=
  lo ← get_lo_entry t unit;
  let prev := Z.land lo PREV_MASK in
  Val (if prev <=? MAX_UNITS then prev else head t).

Definition set_prev t (unit prev : Z) : res T :=
  old_value ← get_lo_entry t unit;
  set_lo_entry t unit (Z.lor (Z.land old_value (Z.lnot PREV_MASK)) (Z.land prev PREV_MASK)).

Definition get_left t (unit : Z) : res Z :=
  hi ← get_hi_entry t (i32 (unit - 1));
  if Z.land hi MULTI_MASK =? MULTI_MASK
  then
    hi ← get_hi_entry t (i32 (unit - 1));
    Val (i32 (unit - Z.land hi SIZE_MASK))
  else Val (i32 (unit - 1)).

Definition get_right t (unit : Z) : res Z :=
  size ← get_size t unit; Val (i32 (unit + size)).

Definition is_coalescable t (unit : Z) : res bool :=
  lo ← get_lo_entry t unit; Val (Z.land lo COALESC_MASK =? 0).

Definition clear_uncoalescable t (unit : Z) : res T :=
  lo ← get_lo_entry t unit; set_lo_entry t unit (Z.land lo (Z.lnot COALESC_MASK)).

Definition set_uncoalescable t (unit : Z) : res T :=
  lo ← get_lo_entry t unit; set_lo_entry t unit (Z.lor lo COALESC_MASK).

Definition is_multi t (i : Z) : res bool :=
  hi ← get_hi_entry t i; Val (Z.land hi MULTI_MASK =? MULTI_MASK).

Definition is_free t (i : Z) : res bool :=
  lo ← get_lo_entry t i; Val (Z.land lo FREE_MASK =? FREE_MASK).

Definition size t (unit : Z) : res Z := get_size t unit.

Definition add_to_free t (unit : Z) : res T :=
  t ← set_free t unit true;
  next ← get_next t (head t);
  t ← set_next t unit next;
  t ← set_next t (head t) unit;
  t ← set_prev t unit (head t);
  set_prev t next unit.

Definition __remove_from_free t (unit : Z) : res T :=
  next ← get_next t unit;
  prev ← get_prev t unit;
  t ← set_next t prev next;
  set_prev t next prev.

Definition __split t (unit size : Z) : res T :=
  basesize ← get_size t unit;
  t ← set_size t unit size;
  t ← set_size t (i32 (unit + size)) (i32 (basesize - size));
  add_to_free t (i32 (unit + size)).

Definition __coalesce t (start end_ : Z) : res T :=
  fe ← get_free t end_;
  t ← (if (fe : bool) then __remove_from_free t end_ else Val t);
  fs ← get_free t start;
  t ← (if (fs : bool) then __remove_from_free t start else Val t);
  size ← get_size t end_;
  set_size t start (i32 (i32 (end_ - start) + size)).

Definition __alloc t (size unit unit_size : Z) : res (Z * T) :=
  if size <=? unit_size
  then
    t ← (if size <? unit_size then __split t unit size else Val t);
    t ← __remove_from_free t unit;
    t ← set_free t unit false;
    Val (unit, t)
  else Val (unit, t).

(** The [while] loop of [alloc_first_fit]: one iteration per unit of fuel. *)
Fixpoint first_fit_loop (fuel : nat) t (size unit s : Z) : res (Z * Z) :=
  match fuel with
  | O => NoFuel
  | S fuel =>
    unit ← get_next t unit;
    if unit =? head t then Val (unit, s)
    else
      s ← get_size t unit;
      if s <? size then first_fit_loop fuel t size unit s else Val (unit, s)
  end.

Definition alloc_first_fit (fuel : nat) t (size : Z) : res (Z * T) :=
  '(unit, s) ← first_fit_loop fuel t size (head t) 0;
  if unit =? head t then Val (FAILURE, t) else __alloc t size unit s.

Fixpoint best_fit_loop (fuel : nat) t (size unit best_s best_unit : Z) : res (Z * Z) :=
  match fuel with
  | O => NoFuel
  | S fuel =>
    unit ← get_next t unit;
    if unit =? head t then Val (best_s, best_unit)
    else
      s ← get_size t unit;
      if (size <=? s) && (s <? best_s)
      then
        if s =? size then Val (s, unit)
        else best_fit_loop fuel t size unit s unit
      else best_fit_loop fuel t size unit best_s best_unit
  end.

Definition alloc_best_fit (fuel : nat) t (size : Z) : res (Z * T) :=
  '(best_s, best_unit) ← best_fit_loop fuel t size (head t) i32_MAX i32_MAX;
  if best_s =? i32_MAX then Val (FAILURE, t) else __alloc t size best_unit best_s.

(** [best_fit] is the compile-time feature [freelist_best_fit_alloc]. *)
Definition alloc (best_fit : bool) (fuel : nat) t (size : Z) : res (Z * T) :=
  if best_fit then alloc_best_fit fuel t size else alloc_first_fit fuel t size.

Definition alloc_from_unit t (size unit : Z) : res (Z * T) :=
  f ← get_free t unit;
  if (f : bool)
  then
    s ← get_size t unit;
    if size <=? s then __alloc t size unit s else Val (FAILURE, t)
  else Val (FAILURE, t).

Definition free t (unit : Z) (return_coalesced_size : bool) : res (Z * T) :=
  freed ← get_size t unit;
  left ← get_left t unit;
  cu ← is_coalescable t unit;
  fl ← (if (cu : bool) then get_free t left else Val false);
  let start := if (fl : bool) then left else unit in
  right ← get_right t unit;
  cr ← is_coalescable t right;
  fr ← (if (cr : bool) then get_free t right else Val false);
  let end_ := if (fr : bool) then right else unit in
  t ← (if start =? end_ then Val t else __coalesce t start end_);
  freed ← (if return_coalesced_size then get_size t start else Val freed);
  t ← add_to_free t start;
  Val (freed, t).

(** The [while cursor >= 0] loop of [initialize_heap]. *)
Fixpoint init_loop (fuel : nat) t (cursor grain : Z) : res T :=
  match fuel with
  | O => NoFuel
  | S fuel =>
    if 0 <=? cursor
    then
      t ← set_size t cursor grain;
      t ← add_to_free t cursor;
      init_loop fuel t (i32 (cursor - grain)) grain
    else Val t
  end.

Definition initialize_heap (fuel : nat) t (units grain : Z) : res T :=
  t ← for_each (λ t i, set_sentinel t (- i)) (seqZ 1 (heads t)) t;
  t ← set_sentinel t units;
  if grain =? 0 then Panic
  else
    let offset := Z.rem units grain in
    let cursor := i32 (units - offset) in
    t ← (if 0 <? offset
         then t ← set_size t cursor offset; add_to_free t cursor
         else Val t);
    init_loop fuel t (i32 (cursor - grain)) grain.
End ops.
