(* ===== verification/FreeListModel.v ===== *)
(** * The free list's entries, field by field

    Each 32-bit entry packs a link field and flags.  [links] is the pure view of
    a table: one function per field.  The lemmas below show that every operation
    of the trait, over any instance that satisfies [FreeListLaws], computes on
    [links] what its pure counterpart does, without a panic, as long as the units
    it touches are in the table. *)

From S2P Require Import Prelude FreeList.

(** What an implementation of [FreeList] promises to the trait's provided
    methods: a mutable array of [i32]s. *)
Class FreeListLaws (T : Type) `{!FreeList T} : Type := {
  entries : T → Z;
  fl_wf : T → Prop;
  get_entry_ok t i :
    fl_wf t → 0 ≤ i < entries t → ∃ v, get_entry t i = Val v ∧ is_i32 v;
  set_entry_ok t i v :
    fl_wf t → 0 ≤ i < entries t → is_i32 v →
    ∃ t', set_entry t i v = Val t' ∧ fl_wf t' ∧ head t' = head t ∧
      heads t' = heads t ∧ entries t' = entries t ∧
      ∀ j, 0 ≤ j < entries t →
        get_entry t' j = if decide (j = i) then Val v else get_entry t j
}.

(** ** Fields of an entry *)

Definition low30 (e : Z) : Z := Z.land e (Z.ones 30).
Definition bit31 (e : Z) : bool := Z.testbit e 31.
Definition bit30 (e : Z) : bool := Z.testbit e 30.

Lemma NEXT_MASK_ones : NEXT_MASK = Z.ones 30. Proof. done. Qed.
Lemma FREE_MASK_bits : FREE_MASK = Z.lnot (Z.ones 31). Proof. done. Qed.
Lemma COALESC_MASK_bits : COALESC_MASK = 2 ^ 30. Proof. done. Qed.

Lemma low30_mod e : low30 e = e mod 2 ^ 30.
Proof. apply Z.land_ones. lia. Qed.
Lemma low30_range e : 0 ≤ low30 e < 2 ^ 30.
Proof. rewrite low30_mod. apply Z.mod_pos_bound. lia. Qed.
Lemma low30_id e : 0 ≤ e < 2 ^ 30 → low30 e = e.
Proof. rewrite low30_mod. apply Z.mod_small. Qed.

Lemma test_flag e : is_i32 e → (Z.land e FREE_MASK =? FREE_MASK) = bit31 e.
Proof.
  intros He. rewrite FREE_MASK_bits. unfold bit31.
  assert (Z.land e (Z.lnot (Z.ones 31)) = if Z.testbit e 31 then Z.lnot (Z.ones 31) else 0) as ->.
  { apply Z.bits_inj'. intros i Hi.
    destruct (Z.ltb_spec i 31).
    - destruct (Z.testbit e 31); bits_at.
    - rewrite Z.land_spec, (proj1 (is_i32_bits e) He i) by lia.
      destruct (Z.testbit e 31); bits_at. }
  by destruct (Z.testbit e 31).
Qed.

Lemma test_coalesc e : (Z.land e COALESC_MASK =? 0) = negb (bit30 e).
Proof.
  rewrite COALESC_MASK_bits. unfold bit30.
  assert (Z.land e (2 ^ 30) = if Z.testbit e 30 then 2 ^ 30 else 0) as ->.
  { apply Z.bits_inj'. intros i Hi. rewrite Z.land_spec, testbit_pow2 by lia.
    destruct (Z.eqb_spec 30 i) as [<-|]; [by destruct (Z.testbit e 30)|].
    destruct (Z.testbit e 30); bits_at. }
  by destruct (Z.testbit e 30).
Qed.

(** A word built by the source's bit operations is an [i32] when its bits above
    31 agree; [solve_i32] checks it bit by bit. *)
Ltac solve_i32 :=
  apply is_i32_bits; let i := fresh in let Hi := fresh in intros i Hi;
  bits_norm;
  repeat match goal with
    | H : is_i32 ?e |- context [Z.testbit ?e i] =>
      rewrite (proj1 (is_i32_bits e) H i Hi)
    end; bits_case; bits_bool.

Lemma set_link_spec old n :
  is_i32 old →
  let e := Z.lor (Z.land old (Z.lnot NEXT_MASK)) (Z.land n NEXT_MASK) in
  is_i32 e ∧ low30 e = low30 n ∧ bit31 e = bit31 old ∧ bit30 e = bit30 old.
Proof.
  rewrite NEXT_MASK_ones. intros Ho e; subst e. split; [|split; [|split]].
  - solve_i32.
  - unfold low30. bits_eq.
  - unfold bit31. bits_at.
  - unfold bit30. bits_at.
Qed.

Lemma set_flag_spec e :
  is_i32 e →
  let e' := Z.lor e FREE_MASK in
  is_i32 e' ∧ low30 e' = low30 e ∧ bit31 e' = true ∧ bit30 e' = bit30 e.
Proof.
  rewrite FREE_MASK_bits. intros He e'; subst e'. split; [|split; [|split]].
  - solve_i32.
  - unfold low30. bits_eq.
  - unfold bit31. bits_at.
  - unfold bit30. bits_at.
Qed.

Lemma clear_flag_spec e :
  is_i32 e →
  let e' := Z.land e (Z.lnot FREE_MASK) in
  is_i32 e' ∧ low30 e' = low30 e ∧ bit31 e' = false ∧ bit30 e' = bit30 e.
Proof.
  rewrite FREE_MASK_bits. intros He e'; subst e'. split; [|split; [|split]].
  - solve_i32.
  - unfold low30. bits_eq.
  - unfold bit31. bits_at.
  - unfold bit30. bits_at.
Qed.

Lemma size_entry_spec s :
  0 ≤ s < 2 ^ 30 →
  let e := Z.lor MULTI_MASK s in is_i32 e ∧ low30 e = s ∧ bit31 e = true.
Proof.
  change MULTI_MASK with FREE_MASK. rewrite FREE_MASK_bits.
  intros Hs e; subst e.
  assert (∀ i, 30 ≤ i → Z.testbit s i = false) as Hb
    by (intros; apply (testbit_small 30); lia).
  split; [|split].
  - apply is_i32_bits. intros i Hi. bits_norm. rewrite !Hb by lia. bits_case.
  - unfold low30. apply Z.bits_inj'. intros i Hi. bits_norm.
    bits_case; rewrite ?andb_true_r, ?andb_false_r; try done; by rewrite Hb by lia.
  - unfold bit31. bits_at.
Qed.

Lemma coalesc_spec e :
  is_i32 e →
  (let e' := Z.lor e COALESC_MASK in
   is_i32 e' ∧ low30 e' = low30 e ∧ bit31 e' = bit31 e ∧ bit30 e' = true) ∧
  (let e' := Z.land e (Z.lnot COALESC_MASK) in
   is_i32 e' ∧ low30 e' = low30 e ∧ bit31 e' = bit31 e ∧ bit30 e' = false).
Proof.
  rewrite COALESC_MASK_bits. intros He.
  split; (split; [solve_i32|split; [unfold low30; bits_eq|split]]);
    unfold bit31, bit30; bits_at.
Qed.

Lemma sentinel_spec u :
  let e := Z.land NEXT_MASK u in
  is_i32 e ∧ low30 e = low30 u ∧ bit31 e = false ∧ bit30 e = false.
Proof.
  rewrite NEXT_MASK_ones. intros e; subst e. split; [|split; [|split]].
  - solve_i32.
  - unfold low30. bits_eq.
  - unfold bit31. bits_at.
  - unfold bit30. bits_at.
Qed.

(** ** The pure view of a table *)

Record links : Type := Links {
  nxt : Z → Z;        (* low 30 bits of [hi]: next link, or the size of a block *)
  multi : Z → bool;   (* bit 31 of [hi] *)
  prv : Z → Z;        (* low 30 bits of [lo]: previous link *)
  isfree : Z → bool;  (* bit 31 of [lo] *)
  unco : Z → bool     (* bit 30 of [lo]: not coalescable with its left neighbour *)
}.

Definition upd_nxt (m : links) u v : links :=
  Links (<[u:=v]> (nxt m)) (multi m) (prv m) (isfree m) (unco m).
Definition upd_multi (m : links) u v : links :=
  Links (nxt m) (<[u:=v]> (multi m)) (prv m) (isfree m) (unco m).
Definition upd_prv (m : links) u v : links :=
  Links (nxt m) (multi m) (<[u:=v]> (prv m)) (isfree m) (unco m).
Definition upd_isfree (m : links) u v : links :=
  Links (nxt m) (multi m) (prv m) (<[u:=v]> (isfree m)) (unco m).
Definition upd_unco (m : links) u v : links :=
  Links (nxt m) (multi m) (prv m) (isfree m) (<[u:=v]> (unco m)).

(** *** Pure counterparts of the trait's methods *)

Definition p_next (h : Z) (m : links) u := if nxt m u <=? MAX_UNITS then nxt m u else h.
Definition p_prev (h : Z) (m : links) u := if prv m u <=? MAX_UNITS then prv m u else h.
Definition p_size (m : links) u := if multi m u then nxt m (u + 1) else 1.
Definition p_left (m : links) u :=
  if multi m (u - 1) then u - nxt m (u - 1) else u - 1.

Definition p_set_next (m : links) u v := upd_nxt m u (low30 v).
Definition p_set_prev (m : links) u v := upd_prv m u (low30 v).
Definition p_size_entry (m : links) u s := upd_multi (upd_nxt m u s) u true.
Definition p_set_size (m : links) u s :=
  if 1 <? s
  then p_size_entry (p_size_entry (upd_multi m u true) (u + 1) s) (u + s - 1) s
  else upd_multi m u false.
Definition p_set_free (m : links) u b :=
  let m := upd_isfree m u b in
  if 1 <? p_size m u then upd_isfree m (u + p_size m u - 1) b else m.
Definition p_set_sentinel (m : links) u :=
  upd_multi (upd_nxt (upd_unco (upd_isfree (upd_prv m u (low30 u)) u false) u false)
    u (low30 u)) u false.
Definition p_add_to_free (h : Z) (m : links) u :=
  let m := p_set_free m u true in
  let next := p_next h m h in
  let m := p_set_next m u next in
  let m := p_set_next m h u in
  let m := p_set_prev m u h in
  p_set_prev m next u.
Definition p_remove (h : Z) (m : links) u :=
  let next := p_next h m u in
  let prev := p_prev h m u in
  p_set_prev (p_set_next m prev next) next prev.

Section reps.
Context {T : Type} `{!FreeList T} `{!FreeListLaws T}.
Implicit Types (t : T) (m : links).

(** [lo] and [hi] are the entries of a unit with the fields [m] gives. *)
Definition entry_ok m u (lo hi : Z) : Prop :=
  is_i32 lo ∧ is_i32 hi ∧ low30 hi = nxt m u ∧ bit31 hi = multi m u ∧
  low30 lo = prv m u ∧ bit31 lo = isfree m u ∧ bit30 lo = unco m u.

(** The table of [t], whose head is [h] and which has [H] heads and [n] units
    and the bottom sentinel, has the fields [m]. *)
Record reps (t : T) (h H n : Z) (m : links) : Prop := Reps {
  reps_wf : fl_wf t;
  reps_head : head t = h;
  reps_heads : heads t = H;
  reps_bounds : 1 ≤ H ≤ MAX_HEADS ∧ - H ≤ h ≤ -1 ∧ 0 ≤ n ≤ MAX_UNITS;
  reps_entries : 2 * (n + 1 + H) ≤ entries t;
  reps_units : ∀ u, - H ≤ u ≤ n →
    ∃ lo hi, get_lo_entry t u = Val lo ∧ get_hi_entry t u = Val hi ∧ entry_ok m u lo hi
}.

Lemma bounds_eqs : MAX_HEADS = 128 ∧ MAX_UNITS = 2 ^ 30 - 130.
Proof. done. Qed.

Definition inb (H n u : Z) : Prop := - H ≤ u ≤ n.

Lemma lo_index t h H n m u :
  reps t h H n m → inb H n u →
  i32 (Z.shiftl (i32 (u + heads t)) 1) = 2 * (u + H) ∧ 0 ≤ 2 * (u + H) < entries t - 1.
Proof.
  intros [_ _ HH Hb He _] Hu. unfold inb in *. destruct bounds_eqs as [E1 E2].
  rewrite E1, E2 in Hb. rewrite HH.
  rewrite (i32_id (u + H)) by (unfold is_i32; lia).
  rewrite Z.shiftl_mul_pow2 by lia. rewrite i32_id by (unfold is_i32; lia). lia.
Qed.

Lemma hi_index t h H n m u :
  reps t h H n m → inb H n u →
  i32 (i32 (Z.shiftl (i32 (u + heads t)) 1) + 1) = 2 * (u + H) + 1.
Proof.
  intros Hr Hu. destruct (lo_index _ _ _ _ _ _ Hr Hu) as [-> ?].
  destruct Hr as [_ _ HH Hb He _]. unfold inb in *. destruct bounds_eqs as [E1 E2].
  rewrite E1, E2 in Hb. apply i32_id. unfold is_i32. lia.
Qed.

(** Writing one entry changes the fields of that unit only. *)
Lemma set_lo_reps t h H n m m' u v :
  reps t h H n m → inb H n u → is_i32 v →
  (∀ lo hi, entry_ok m u lo hi → entry_ok m' u v hi) →
  (∀ w lo hi, w ≠ u → entry_ok m w lo hi → entry_ok m' w lo hi) →
  wp (set_lo_entry t u v) (λ t', reps t' h H n m').
Proof.
  intros Hr Hu Hv Hsame Hother.
  destruct (lo_index _ _ _ _ _ _ Hr Hu) as [Hi Hir]. unfold set_lo_entry. rewrite Hi.
  destruct (set_entry_ok t (2 * (u + H)) v) as (t' & -> & Hwf & Hh & HH & Hen & Hget);
    [apply Hr|lia|done|]. simpl.
  destruct Hr as [Hwf0 <- <- Hb He Hunits]. split; rewrite ?Hh, ?HH, ?Hen; try done.
  intros w Hw. destruct (Hunits w Hw) as (lo & hi & Hlo & Hhi & Hok).
  pose proof (Reps _ _ _ _ _ Hwf0 eq_refl eq_refl Hb He Hunits) as Hr.
  unfold get_lo_entry, get_hi_entry in *. rewrite HH.
  rewrite (hi_index _ _ _ _ _ _ Hr Hw) in *.
  destruct (lo_index _ _ _ _ _ _ Hr Hw) as [Hwi Hwr]. rewrite Hwi in *.
  rewrite !Hget by lia. destruct (decide (2 * (w + heads t) + 1 = _)); [lia|].
  destruct (decide (2 * (w + heads t) = _)).
  - assert (w = u) as -> by lia. exists v, hi. eauto.
  - exists lo, hi. split_and!; [done..|]. apply Hother; [|done]. intros ->. lia.
Qed.

Lemma set_hi_reps t h H n m m' u v :
  reps t h H n m → inb H n u → is_i32 v →
  (∀ lo hi, entry_ok m u lo hi → entry_ok m' u lo v) →
  (∀ w lo hi, w ≠ u → entry_ok m w lo hi → entry_ok m' w lo hi) →
  wp (set_hi_entry t u v) (λ t', reps t' h H n m').
Proof.
  intros Hr Hu Hv Hsame Hother.
  destruct (lo_index _ _ _ _ _ _ Hr Hu) as [Hi Hir].
  unfold set_hi_entry. rewrite (hi_index _ _ _ _ _ _ Hr Hu).
  destruct (set_entry_ok t (2 * (u + H) + 1) v) as (t' & -> & Hwf & Hh & HH & Hen & Hget);
    [apply Hr|lia|done|]. simpl.
  destruct Hr as [Hwf0 <- <- Hb He Hunits]. split; rewrite ?Hh, ?HH, ?Hen; try done.
  intros w Hw. destruct (Hunits w Hw) as (lo & hi & Hlo & Hhi & Hok).
  pose proof (Reps _ _ _ _ _ Hwf0 eq_refl eq_refl Hb He Hunits) as Hr.
  unfold get_lo_entry, get_hi_entry in *. rewrite HH.
  rewrite (hi_index _ _ _ _ _ _ Hr Hw) in *.
  destruct (lo_index _ _ _ _ _ _ Hr Hw) as [Hwi Hwr]. rewrite Hwi in *.
  rewrite !Hget by lia. destruct (decide (2 * (w + heads t) = _)); [lia|].
  destruct (decide (2 * (w + heads t) + 1 = _)).
  - assert (w = u) as -> by lia. exists lo, v. eauto.
  - exists lo, hi. split_and!; [done..|]. apply Hother; [|done]. intros ->. lia.
Qed.

Lemma entry_in t h H n m u :
  reps t h H n m → inb H n u →
  ∃ lo hi, get_lo_entry t u = Val lo ∧ get_hi_entry t u = Val hi ∧ entry_ok m u lo hi.
Proof. intros Hr. apply Hr. Qed.

Lemma i32_reps t h H n m x :
  reps t h H n m → - 2 * H - 2 ≤ x ≤ 2 * n + 2 → i32 x = x.
Proof.
  intros Hr Hx. apply i32_id. destruct (reps_bounds _ _ _ _ _ Hr).
  destruct bounds_eqs as [E1 E2]. unfold is_i32. lia.
Qed.

Lemma get_next_ok t h H n m u :
  reps t h H n m → inb H n u → get_next t u = Val (p_next h m u).
Proof.
  intros Hr Hu. destruct (entry_in _ _ _ _ _ _ Hr Hu) as (lo & hi & _ & Hhi & Hok).
  unfold get_next, p_next. rewrite Hhi. simpl. fold (low30 hi).
  rewrite NEXT_MASK_ones. fold (low30 hi).
  destruct Hok as (_ & _ & -> & _). by rewrite (reps_head _ _ _ _ _ Hr).
Qed.

Lemma get_prev_ok t h H n m u :
  reps t h H n m → inb H n u → get_prev t u = Val (p_prev h m u).
Proof.
  intros Hr Hu. destruct (entry_in _ _ _ _ _ _ Hr Hu) as (lo & hi & Hlo & _ & Hok).
  unfold get_prev, p_prev. rewrite Hlo. simpl.
  change PREV_MASK with (Z.ones 30). fold (low30 lo).
  destruct Hok as (_ & _ & _ & _ & -> & _). by rewrite (reps_head _ _ _ _ _ Hr).
Qed.

Lemma get_size_ok t h H n m u :
  reps t h H n m → inb H n u → u < n → get_size t u = Val (p_size m u).
Proof.
  intros Hr Hu Hn. unfold inb in *.
  destruct (entry_in _ _ _ _ _ _ Hr Hu) as (lo & hi & _ & Hhi & Hok).
  destruct (entry_in _ _ _ _ _ (u + 1) Hr) as (lo1 & hi1 & _ & Hhi1 & Hok1);
    [unfold inb; lia|].
  unfold get_size, p_size. rewrite Hhi. simpl. change MULTI_MASK with FREE_MASK.
  rewrite test_flag by apply Hok. destruct Hok as (_ & _ & _ & -> & _).
  destruct (multi m u); [|done].
  pose proof (reps_bounds _ _ _ _ _ Hr).
  rewrite (i32_reps _ _ _ _ _ _ Hr) by lia. rewrite Hhi1. simpl.
  change SIZE_MASK with (Z.ones 30). fold (low30 hi1).
  by destruct Hok1 as (_ & _ & -> & _).
Qed.

Lemma get_left_ok t h H n m u :
  reps t h H n m → 0 ≤ u ≤ n → 0 ≤ nxt m (u - 1) →
  get_left t u = Val (i32 (p_left m u)).
Proof.
  intros Hr Hu Hnn. destruct (entry_in _ _ _ _ _ (u - 1) Hr) as (lo & hi & _ & Hhi & Hok).
  { destruct (reps_bounds _ _ _ _ _ Hr). unfold inb. lia. }
  assert (i32 (u - 1) = u - 1) as E.
  { apply (i32_reps _ _ _ _ _ _ Hr). destruct (reps_bounds _ _ _ _ _ Hr). lia. }
  unfold get_left, p_left. rewrite !E, Hhi. simpl. change MULTI_MASK with FREE_MASK.
  rewrite test_flag by apply Hok. destruct Hok as (_ & _ & Hn & -> & _).
  change SIZE_MASK with (Z.ones 30). fold (low30 hi). rewrite Hn.
  destruct (multi m (u - 1)); [done|]. by rewrite E.
Qed.

Lemma get_free_ok t h H n m u :
  reps t h H n m → inb H n u → get_free t u = Val (isfree m u).
Proof.
  intros Hr Hu. destruct (entry_in _ _ _ _ _ _ Hr Hu) as (lo & hi & Hlo & _ & Hok).
  unfold get_free. rewrite Hlo. simpl. rewrite test_flag by apply Hok.
  by destruct Hok as (_ & _ & _ & _ & _ & -> & _).
Qed.

Lemma is_coalescable_ok t h H n m u :
  reps t h H n m → inb H n u → is_coalescable t u = Val (negb (unco m u)).
Proof.
  intros Hr Hu. destruct (entry_in _ _ _ _ _ _ Hr Hu) as (lo & hi & Hlo & _ & Hok).
  unfold is_coalescable. rewrite Hlo. simpl. rewrite test_coalesc.
  by destruct Hok as (_ & _ & _ & _ & _ & _ & ->).
Qed.

(** Frame rule of the field updates: units other than [u] keep their entries. *)
Ltac frame_entry :=
  let Hne := fresh in
  intros ? ? ? Hne; unfold entry_ok; simpl; by rewrite ?fn_lookup_insert_ne by done.
Ltac same_entry :=
  let Hok := fresh in
  intros ? ? Hok; unfold entry_ok in *; simpl in *;
  rewrite ?fn_lookup_insert in Hok; rewrite ?fn_lookup_insert;
  destruct Hok as (?&?&?&?&?&?&?); split_and?; first [assumption | congruence].

Lemma set_next_ok t h H n m u v :
  reps t h H n m → inb H n u →
  wp (set_next t u v) (λ t', reps t' h H n (p_set_next m u v)).
Proof.
  intros Hr Hu. destruct (entry_in _ _ _ _ _ _ Hr Hu) as (lo & hi & _ & Hhi & Hok).
  unfold set_next. rewrite Hhi. simpl.
  destruct (set_link_spec hi v) as (? & ? & ? & ?); [apply Hok|].
  destruct Hok as (?&?&?&?&?&?&?).
  eapply set_hi_reps; eauto; [same_entry|frame_entry].
Qed.

Lemma set_prev_ok t h H n m u v :
  reps t h H n m → inb H n u →
  wp (set_prev t u v) (λ t', reps t' h H n (p_set_prev m u v)).
Proof.
  intros Hr Hu. destruct (entry_in _ _ _ _ _ _ Hr Hu) as (lo & hi & Hlo & _ & Hok).
  unfold set_prev. rewrite Hlo. simpl. change PREV_MASK with NEXT_MASK.
  destruct (set_link_spec lo v) as (? & ? & ? & ?); [apply Hok|].
  destruct Hok as (?&?&?&?&?&?&?).
  eapply set_lo_reps; eauto; [same_entry|frame_entry].
Qed.

Lemma size_entry_ok t h H n m u s :
  reps t h H n m → inb H n u → 0 ≤ s < 2 ^ 30 →
  wp (set_hi_entry t u (Z.lor MULTI_MASK s)) (λ t', reps t' h H n (p_size_entry m u s)).
Proof.
  intros Hr Hu Hs. destruct (size_entry_spec s Hs) as (? & ? & ?).
  eapply set_hi_reps; eauto; [same_entry|frame_entry].
Qed.

Lemma set_size_ok t h H n m u s :
  reps t h H n m → inb H n u → 1 ≤ s → u + s ≤ n →
  wp (set_size t u s) (λ t', reps t' h H n (p_set_size m u s)).
Proof.
  intros Hr Hu Hs Hn. pose proof (reps_bounds _ _ _ _ _ Hr) as (? & ? & ?).
  destruct bounds_eqs as [E1 E2]. unfold inb in *.
  destruct (entry_in _ _ _ _ _ _ Hr Hu) as (lo & hi & _ & Hhi & Hok).
  unfold set_size, p_set_size. rewrite Hhi. simpl.
  change (Z.lor hi MULTI_MASK) with (Z.lor hi FREE_MASK).
  change (Z.lnot MULTI_MASK) with (Z.lnot FREE_MASK).
  destruct (Z.ltb_spec 1 s).
  - rewrite (i32_reps _ _ _ _ _ (u + s) Hr), (i32_reps _ _ _ _ _ (u + s - 1) Hr),
      (i32_reps _ _ _ _ _ (u + 1) Hr) by lia.
    destruct (set_flag_spec hi) as (? & ? & ? & ?); [apply Hok|].
    destruct Hok as (?&?&?&?&?&?&?).
    wp_seq t1 Hr1 by (eapply (set_hi_reps _ _ _ _ _ (upd_multi m u true)); eauto;
      [same_entry|frame_entry]).
    wp_seq t2 Hr2 by (eapply size_entry_ok; [done|unfold inb; lia|lia]).
    eapply size_entry_ok; [done|unfold inb; lia|lia].
  - destruct (clear_flag_spec hi) as (? & ? & ? & ?); [apply Hok|].
    destruct Hok as (?&?&?&?&?&?&?).
    eapply set_hi_reps; eauto; [same_entry|frame_entry].
Qed.

Lemma set_isfree_entry t h H n m u (b : bool) lo :
  reps t h H n m → inb H n u → get_lo_entry t u = Val lo →
  wp (set_lo_entry t u (if b then Z.lor lo FREE_MASK else Z.land lo (Z.lnot FREE_MASK)))
     (λ t', reps t' h H n (upd_isfree m u b)).
Proof.
  intros Hr Hu Hlo. destruct (entry_in _ _ _ _ _ _ Hr Hu) as (lo' & hi & Hlo' & _ & Hok).
  assert (lo' = lo) as -> by congruence.
  destruct (set_flag_spec lo) as (? & ? & ? & ?); [apply Hok|].
  destruct (clear_flag_spec lo) as (? & ? & ? & ?); [apply Hok|].
  destruct Hok as (?&?&?&?&?&?&?).
  destruct b; (eapply set_lo_reps; eauto; [same_entry|frame_entry]).
Qed.

Lemma set_free_ok t h H n m u b :
  reps t h H n m → 0 ≤ u → 1 ≤ p_size m u → u + p_size m u ≤ n →
  wp (set_free t u b) (λ t', reps t' h H n (p_set_free m u b)).
Proof.
  intros Hr Hu Hs Hn. pose proof (reps_bounds _ _ _ _ _ Hr) as (? & ? & ?).
  assert (inb H n u) as Hin by (unfold inb; lia).
  destruct (entry_in _ _ _ _ _ _ Hr Hin) as (lo & hi & Hlo & _ & _).
  cut (wp (t ← set_lo_entry t u (if b then Z.lor lo FREE_MASK else Z.land lo (Z.lnot FREE_MASK));
           size ← get_size t u;
           if 1 <? size then
             lo ← get_lo_entry t (i32 (i32 (u + size) - 1));
             set_lo_entry t (i32 (i32 (u + size) - 1))
               (if b then Z.lor lo FREE_MASK else Z.land lo (Z.lnot FREE_MASK))
           else Val t) (λ t', reps t' h H n (p_set_free m u b))).
  { unfold set_free. rewrite Hlo. simpl. by destruct b. }
  wp_seq t1 Hr1 by (by apply set_isfree_entry).
  rewrite (get_size_ok _ _ _ _ _ _ Hr1) by (unfold inb in *; lia). simpl.
  unfold p_set_free. change (p_size (upd_isfree m u b) u) with (p_size m u).
  destruct (Z.ltb_spec 1 (p_size m u)); [|done].
  rewrite (i32_reps _ _ _ _ _ (u + p_size m u) Hr1),
    (i32_reps _ _ _ _ _ (u + p_size m u - 1) Hr1) by lia.
  assert (inb H n (u + p_size m u - 1)) as Hin2 by (unfold inb; lia).
  destruct (entry_in _ _ _ _ _ _ Hr1 Hin2) as (lo2 & ? & Hlo2 & _ & _).
  rewrite Hlo2. by apply set_isfree_entry.
Qed.

Lemma set_sentinel_ok t h H n m u :
  reps t h H n m → inb H n u →
  wp (set_sentinel t u) (λ t', reps t' h H n (p_set_sentinel m u)).
Proof.
  intros Hr Hu. unfold set_sentinel, p_set_sentinel.
  destruct (sentinel_spec u) as (? & ? & ? & ?).
  wp_seq t1 Hr1 by (eapply (set_lo_reps _ _ _ _ _
    (upd_unco (upd_isfree (upd_prv m u (low30 u)) u false) u false)); eauto;
    [same_entry|frame_entry]).
  change PREV_MASK with NEXT_MASK.
  eapply set_hi_reps; eauto; [same_entry|frame_entry].
Qed.

Lemma set_uncoalescable_ok t h H n m u :
  reps t h H n m → inb H n u →
  wp (set_uncoalescable t u) (λ t', reps t' h H n (upd_unco m u true)).
Proof.
  intros Hr Hu. destruct (entry_in _ _ _ _ _ _ Hr Hu) as (lo & hi & Hlo & _ & Hok).
  unfold set_uncoalescable. rewrite Hlo. simpl.
  destruct (coalesc_spec lo) as [(?&?&?&?) _]; [apply Hok|].
  destruct Hok as (?&?&?&?&?&?&?). eapply set_lo_reps; eauto; [same_entry|frame_entry].
Qed.

Lemma clear_uncoalescable_ok t h H n m u :
  reps t h H n m → inb H n u →
  wp (clear_uncoalescable t u) (λ t', reps t' h H n (upd_unco m u false)).
Proof.
  intros Hr Hu. destruct (entry_in _ _ _ _ _ _ Hr Hu) as (lo & hi & Hlo & _ & Hok).
  unfold clear_uncoalescable. rewrite Hlo. simpl.
  destruct (coalesc_spec lo) as [_ (?&?&?&?)]; [apply Hok|].
  destruct Hok as (?&?&?&?&?&?&?). eapply set_lo_reps; eauto; [same_entry|frame_entry].
Qed.

Lemma nxt_nonneg t h H n m u : reps t h H n m → inb H n u → 0 ≤ nxt m u < 2 ^ 30.
Proof.
  intros Hr Hu. destruct (entry_in _ _ _ _ _ _ Hr Hu) as (lo & hi & _ & _ & Hok).
  destruct Hok as (_ & _ & <- & _). apply low30_range.
Qed.

Lemma head_inb t h H n m : reps t h H n m → inb H n h.
Proof. intros Hr. destruct (reps_bounds _ _ _ _ _ Hr) as (? & ? & ?). unfold inb. lia. Qed.

Lemma add_to_free_ok t h H n m u :
  reps t h H n m → 0 ≤ u → 1 ≤ p_size m u → u + p_size m u ≤ n → inb H n (p_next h m h) →
  wp (add_to_free t u) (λ t', reps t' h H n (p_add_to_free h m u)).
Proof.
  intros Hr Hu Hs Hn Hnx. unfold add_to_free.
  pose proof (reps_bounds _ _ _ _ _ Hr) as (? & ? & ?).
  pose proof (head_inb _ _ _ _ _ Hr).
  assert (inb H n u) by (unfold inb; lia).
  assert (p_next h (p_set_free m u true) h = p_next h m h) as Enx.
  { unfold p_set_free. by destruct (1 <? _). }
  wp_seq t1 Hr1 by (by apply set_free_ok).
  rewrite (reps_head _ _ _ _ _ Hr1), (get_next_ok _ _ _ _ _ _ Hr1) by done.
  simpl. rewrite Enx.
  wp_seq t2 Hr2 by (by apply set_next_ok). rewrite (reps_head _ _ _ _ _ Hr2).
  wp_seq t3 Hr3 by (by apply set_next_ok). rewrite (reps_head _ _ _ _ _ Hr3).
  wp_seq t4 Hr4 by (by apply set_prev_ok).
  unfold p_add_to_free. rewrite Enx. by apply set_prev_ok.
Qed.

Lemma remove_from_free_ok t h H n m u :
  reps t h H n m → inb H n u → inb H n (p_next h m u) → inb H n (p_prev h m u) →
  wp (__remove_from_free t u) (λ t', reps t' h H n (p_remove h m u)).
Proof.
  intros Hr Hu Hnx Hpv. unfold __remove_from_free.
  rewrite (get_next_ok _ _ _ _ _ _ Hr), (get_prev_ok _ _ _ _ _ _ Hr) by done. simpl.
  wp_seq t1 Hr1 by (by apply set_next_ok). by apply set_prev_ok.
Qed.
End reps.
