(* ===== verification/FreeListSpec.v ===== *)
(** * What a free list promises, and that the trait's methods implement it

    The abstract state of a free list is a segmentation of the units [0, n) into
    allocated and free blocks, and the order of the free blocks in the list.
    [inv] ties it to the fields of the table; each method is shown to refine the
    operation on the abstract state. *)

From S2P Require Import Prelude FreeList FreeListModel.

(** ** The abstract state *)

(** A block of units. *)
Record seg : Type := Seg { s_start : Z; s_size : Z; s_free : bool }.
#[export] Instance seg_eq_dec : EqDecision seg.
Proof. solve_decision. Defined.

(** The blocks are adjacent, non-empty, and cover [[a, b)] exactly. *)
Fixpoint tiles (a b : Z) (ss : list seg) : Prop :=
  match ss with
  | [] => a = b
  | Seg u s _ :: ss => u = a ∧ 1 ≤ s ∧ tiles (a + s) b ss
  end.

Lemma tiles_app a b ss1 ss2 :
  tiles a b (ss1 ++ ss2) ↔ ∃ c, tiles a c ss1 ∧ tiles c b ss2.
Proof.
  revert a. induction ss1 as [|[u s f] ss1 IH]; intros a; simpl.
  - firstorder congruence.
  - rewrite IH. firstorder.
Qed.

Lemma tiles_le a b ss : tiles a b ss → a ≤ b.
Proof.
  revert a. induction ss as [|[u s f] ss IH]; intros a; simpl; [lia|].
  intros (_ & ? & ?%IH). lia.
Qed.

Lemma tiles_elem a b ss x :
  tiles a b ss → x ∈ ss → a ≤ s_start x ∧ 1 ≤ s_size x ∧ s_start x + s_size x ≤ b.
Proof.
  revert a. induction ss as [|[u s f] ss IH]; intros a; simpl; [by intros ? ?%not_elem_of_nil|].
  intros (-> & ? & Ht) [->|Hx]%elem_of_cons; simpl.
  - apply tiles_le in Ht. lia.
  - apply (IH (a + s)) in Hx; [|done]. lia.
Qed.

(** Two blocks of a tiling are equal or disjoint. *)
Lemma tiles_disjoint a b ss x y :
  tiles a b ss → x ∈ ss → y ∈ ss →
  x = y ∨ s_start x + s_size x ≤ s_start y ∨ s_start y + s_size y ≤ s_start x.
Proof.
  revert a. induction ss as [|[u s f] ss IH]; intros a; simpl; [by intros ? ?%not_elem_of_nil|].
  intros (-> & ? & Ht) [->|Hx]%elem_of_cons [->|Hy]%elem_of_cons; simpl; eauto.
  - apply (tiles_elem _ _ _ _ Ht) in Hy. lia.
  - apply (tiles_elem _ _ _ _ Ht) in Hx. lia.
Qed.

Lemma tiles_start_inj a b ss x y :
  tiles a b ss → x ∈ ss → y ∈ ss → s_start x = s_start y → x = y.
Proof.
  intros Ht Hx Hy E. destruct (tiles_disjoint _ _ _ _ _ Ht Hx Hy) as [|]; [done|].
  apply (tiles_elem _ _ _ _ Ht) in Hx. apply (tiles_elem _ _ _ _ Ht) in Hy. lia.
Qed.

(** *** Operations on the segmentation *)

(** Allocate the first [size] units of the block at [u]; what remains of the
    block stays free. *)
Fixpoint carve (ss : list seg) (u size : Z) : list seg :=
  match ss with
  | [] => []
  | Seg v s f :: ss =>
    if v =? u
    then if size <? s
         then Seg u size false :: Seg (u + size) (s - size) true :: ss
         else Seg u s false :: ss
    else Seg v s f :: carve ss u size
  end.

Fixpoint mark_free (ss : list seg) (u : Z) : list seg :=
  match ss with
  | [] => []
  | Seg v s f :: ss => if v =? u then Seg v s true :: ss else Seg v s f :: mark_free ss u
  end.

(** Merge the two blocks that meet at [b] when both are free. *)
Fixpoint join (ss : list seg) (b : Z) : list seg :=
  match ss with
  | Seg u s f :: ss' =>
    match ss' with
    | Seg v t g :: r =>
      if v =? b
      then if f && g then Seg u (s + t) true :: r else ss
      else Seg u s f :: join ss' b
    | [] => [Seg u s f]
    end
  | [] => []
  end.

(** The block that starts at [u], if there is one. *)
Definition find_seg (ss : list seg) (u : Z) : option seg :=
  snd <$> list_find (λ x, s_start x = u) ss.

Definition seg_size_at (ss : list seg) (u : Z) : Z :=
  default 0 (s_size <$> find_seg ss u).

Lemma find_seg_elem a b ss x : tiles a b ss → x ∈ ss → find_seg ss (s_start x) = Some x.
Proof.
  intros Ht Hx. unfold find_seg.
  destruct (list_find _ ss) as [[i y]|] eqn:E; simpl.
  - apply list_find_Some in E as (Ey & Es & _). f_equal.
    eapply tiles_start_inj; [done|by eapply list_elem_of_lookup_2|done|done].
  - apply list_find_None in E. rewrite Forall_forall in E. by apply E in Hx.
Qed.

Lemma seg_size_at_elem a b ss u s f : tiles a b ss → Seg u s f ∈ ss → seg_size_at ss u = s.
Proof.
  intros Ht Hx. unfold seg_size_at. by rewrite (find_seg_elem _ _ _ _ Ht Hx : find_seg ss u = _).
Qed.

Lemma carve_split A B u s f size :
  (∀ x, x ∈ A → s_start x ≠ u) →
  carve (A ++ Seg u s f :: B) u size =
  A ++ (if size <? s then [Seg u size false; Seg (u + size) (s - size) true]
        else [Seg u s false]) ++ B.
Proof.
  induction A as [|[v t g] A IH]; simpl; intros HA.
  - rewrite Z.eqb_refl. by destruct (size <? s).
  - destruct (Z.eqb_spec v u) as [->|].
    + by destruct (HA (Seg u t g)); [constructor|].
    + f_equal. apply IH. intros x Hx. apply HA. by constructor.
Qed.

Lemma mark_free_split A B u s f :
  (∀ x, x ∈ A → s_start x ≠ u) →
  mark_free (A ++ Seg u s f :: B) u = A ++ Seg u s true :: B.
Proof.
  induction A as [|[v t g] A IH]; simpl; intros HA.
  - by rewrite Z.eqb_refl.
  - destruct (Z.eqb_spec v u) as [->|].
    + by destruct (HA (Seg u t g)); [constructor|].
    + f_equal. apply IH. intros x Hx. apply HA. by constructor.
Qed.

Lemma join_cons u s f v t g r b :
  join (Seg u s f :: Seg v t g :: r) b =
  if v =? b then if f && g then Seg u (s + t) true :: r else Seg u s f :: Seg v t g :: r
  else Seg u s f :: join (Seg v t g :: r) b.
Proof. done. Qed.

Lemma join_split A B x t g b :
  (∀ y, y ∈ A ++ [x] → s_start y ≠ b) →
  join (A ++ x :: Seg b t g :: B) b =
  A ++ (if s_free x && g then [Seg (s_start x) (s_size x + t) true]
        else [x; Seg b t g]) ++ B.
Proof.
  induction A as [|[v r f] A IH]; intros HA.
  - destruct x as [u s f]. simpl. rewrite Z.eqb_refl. by destruct (f && g).
  - assert (∀ y, y ∈ A ++ [x] → s_start y ≠ b) as HA'.
    { intros y Hy. apply HA. by constructor. }
    specialize (IH HA'). rewrite <-!app_comm_cons.
    destruct (A ++ x :: Seg b t g :: B) as [|[v' r' f'] L] eqn:E; [by destruct A|].
    assert (v' ≠ b) as Hv'.
    { apply (HA' (Seg v' r' f')). destruct A; simpl in *; simplify_eq; constructor. }
    rewrite join_cons. destruct (Z.eqb_spec v' b) as [|_]; [done|]. by rewrite IH.
Qed.

Lemma join_nop ss b : (∀ y, y ∈ tail ss → s_start y ≠ b) → join ss b = ss.
Proof.
  induction ss as [|[u s f] ss IH]; intros Hss; [done|].
  destruct ss as [|[v t g] r]; [done|]. simpl in Hss.
  rewrite join_cons. destruct (Z.eqb_spec v b) as [->|].
  - by destruct (Hss (Seg b t g)); [constructor|].
  - f_equal. apply IH. intros y Hy. apply Hss. by constructor.
Qed.

(** *** The doubly-linked order *)

Section linked.
Context (h n : Z).

Definition link (m : links) (a b : Z) : Prop := p_next h m a = b ∧ p_prev h m b = a.

Fixpoint linked (m : links) (L : list Z) : Prop :=
  match L with
  | a :: L' => match L' with b :: _ => link m a b ∧ linked m L' | [] => True end
  | [] => True
  end.

Lemma linked_cons m a b L : linked m (a :: b :: L) ↔ link m a b ∧ linked m (b :: L).
Proof. done. Qed.

Lemma linked_app m X p Y :
  linked m (X ++ p :: Y) ↔ linked m (X ++ [p]) ∧ linked m (p :: Y).
Proof.
  induction X as [|a X IH]; [simpl; tauto|].
  rewrite <-!app_comm_cons. destruct X as [|b X].
  - simpl. tauto.
  - rewrite <-!app_comm_cons in *. rewrite !linked_cons, IH. tauto.
Qed.

(** A chain depends on the forward links of all but its last node and the
    backward links of all but its first. *)
Lemma linked_frame m m' X p :
  (∀ a, a ∈ X → nxt m' a = nxt m a) →
  (∀ b, b ∈ tail (X ++ [p]) → prv m' b = prv m b) →
  linked m (X ++ [p]) → linked m' (X ++ [p]).
Proof.
  induction X as [|a X IH]; intros Hn Hp; [done|].
  rewrite <-app_comm_cons in *. simpl in Hp.
  destruct (X ++ [p]) as [|b L] eqn:E; [done|].
  rewrite !linked_cons. unfold link, p_next, p_prev. intros [Hl Hr].
  rewrite (Hn a), (Hp b) by constructor. split; [done|].
  apply IH; [..|done].
  - intros c Hc. apply Hn. by constructor.
  - intros c Hc. apply Hp. by constructor.
Qed.

(** Encoded link targets are read back. *)
Definition target (b : Z) : Prop := b = h ∨ 0 ≤ b ≤ MAX_UNITS.
Context (Hh : - MAX_HEADS ≤ h ≤ -1).

Lemma low30_head : low30 h = 2 ^ 30 + h.
Proof.
  destruct bounds_eqs as [E1 E2]. rewrite low30_mod. symmetry.
  apply (Z.mod_unique _ _ (-1)); lia.
Qed.

Lemma enc_target b : target b → (if low30 b <=? MAX_UNITS then low30 b else h) = b.
Proof.
  destruct bounds_eqs as [E1 E2]. intros [->|Hb].
  - rewrite low30_head. destruct (Z.leb_spec (2 ^ 30 + h) MAX_UNITS); lia.
  - rewrite low30_id by lia. destruct (Z.leb_spec b MAX_UNITS); lia.
Qed.

Lemma set_link m a b :
  target a → target b → link (p_set_prev (p_set_next m a b) b a) a b.
Proof.
  intros Ha Hb. unfold link, p_next, p_prev. simpl.
  rewrite !fn_lookup_insert. by rewrite !enc_target.
Qed.

Lemma linked_ring m m' l :
  (∀ a, a ∈ h :: l → nxt m' a = nxt m a) →
  (∀ b, b ∈ h :: l → prv m' b = prv m b) →
  linked m (h :: l ++ [h]) → linked m' (h :: l ++ [h]).
Proof.
  intros Hn Hp. rewrite app_comm_cons. apply linked_frame; [done|].
  simpl. intros b Hb. apply Hp. set_solver.
Qed.

Lemma push_front m l u :
  linked m (h :: l ++ [h]) → NoDup l → Forall (λ v, 0 ≤ v ≤ MAX_UNITS) (u :: l) → u ∉ l →
  let next := p_next h m h in
  linked (p_set_prev (p_set_prev (p_set_next (p_set_next m u next) h u) u h) next u)
    (h :: u :: l ++ [h]).
Proof.
  intros HL Hnd Hb Hu next. inversion_clear Hb as [|? ? Hub Hlb].
  assert (h ∉ l) as Hhl. { intros Hin. rewrite Forall_forall in Hlb. apply Hlb in Hin. lia. }
  assert (NoDup (l ++ [h])) as Hnd2.
  { apply NoDup_app. split_and!; [done|set_solver|]. apply NoDup_singleton. }
  assert (∀ v, v ∈ l ++ [h] → target v) as Htg.
  { intros v [Hv| ->%list_elem_of_singleton]%elem_of_app; [|by left].
    rewrite Forall_forall in Hlb. apply Hlb in Hv. right; lia. }
  destruct (l ++ [h]) as [|x Y] eqn:E; [by destruct l|].
  rewrite linked_cons in HL. destruct HL as [[Hx _] HL]. unfold next. clear next. rewrite Hx.
  assert (u ≠ h) by lia.
  assert (u ≠ x). { intros ->. assert (x ∈ l ++ [h]) by (rewrite E; constructor). set_solver. }
  assert (u ∉ x :: Y) by (rewrite <-E; set_solver).
  rewrite !linked_cons. split; [|split].
  - unfold link, p_next, p_prev. simpl. rewrite (fn_lookup_insert_ne _ x u) by done.
    rewrite !fn_lookup_insert, !enc_target by (first [by left | right; lia]). done.
  - unfold link, p_next, p_prev. simpl. rewrite fn_lookup_insert, fn_lookup_insert_ne, fn_lookup_insert by done.
    rewrite !enc_target; [done|right; lia|]. apply Htg. constructor.
  - apply NoDup_cons in Hnd2 as [Hx2 _]. rewrite <-E in HL |- *.
    apply (linked_frame m); [..|done]; simpl.
    + intros a Ha. rewrite !fn_lookup_insert_ne; [done|set_solver..].
    + rewrite E. simpl. intros b Hb. rewrite !fn_lookup_insert_ne; [done|set_solver..].
Qed.

Lemma ring_split l1 u l2 :
  ∃ X p q Y, h :: (l1 ++ u :: l2) ++ [h] = X ++ p :: u :: q :: Y ∧
    h :: l1 = X ++ [p] ∧ l2 ++ [h] = q :: Y.
Proof.
  destruct (exists_last (l := h :: l1) ltac:(done)) as (X & p & E1).
  destruct (l2 ++ [h]) as [|q Y] eqn:E2; [by destruct l2|].
  exists X, p, q, Y. split_and!; [|done..].
  change (h :: (l1 ++ u :: l2) ++ [h]) with (((h :: l1) ++ u :: l2) ++ [h]).
  rewrite E1, <-!app_assoc. simpl. by rewrite E2.
Qed.

Lemma unlink m l1 u l2 :
  linked m (h :: (l1 ++ u :: l2) ++ [h]) → NoDup (l1 ++ u :: l2) →
  Forall (λ v, 0 ≤ v ≤ MAX_UNITS) (l1 ++ u :: l2) →
  linked (p_remove h m u) (h :: (l1 ++ l2) ++ [h]).
Proof.
  intros HL Hnd Hb. destruct (ring_split l1 u l2) as (X & p & q & Y & E & E1 & E2).
  rewrite E in HL. apply linked_app in HL as [HX HL].
  rewrite !linked_cons in HL. destruct HL as ([_ Hp] & [Hq _] & HY).
  assert (h ∉ l1 ++ u :: l2) as Hhl.
  { intros Hin. rewrite Forall_forall in Hb. apply Hb in Hin. lia. }
  apply NoDup_app in Hnd as (Hnd1 & Hdis & Hnd2). apply NoDup_cons in Hnd2 as [Hul2 Hnd2].
  assert (NoDup (X ++ [p])) as HndX by (rewrite <-E1; constructor; set_solver).
  assert (NoDup (q :: Y)) as HndY.
  { rewrite <-E2. apply NoDup_app. split_and!; [done|set_solver|apply NoDup_singleton]. }
  assert (∀ v, v ∈ h :: l1 ++ u :: l2 → target v) as Htg.
  { intros v [->|Hv]%elem_of_cons; [by left|]. rewrite Forall_forall in Hb.
    apply Hb in Hv. right; lia. }
  assert (p ∈ h :: l1) as Hpin by (rewrite E1; set_solver).
  assert (q ∈ l2 ++ [h]) as Hqin by (rewrite E2; constructor).
  replace (h :: (l1 ++ l2) ++ [h]) with (X ++ p :: q :: Y).
  2:{ change (h :: (l1 ++ l2) ++ [h]) with (((h :: l1) ++ l2) ++ [h]).
      rewrite E1, <-E2, <-!app_assoc. done. }
  unfold p_remove. rewrite Hp, Hq. apply linked_app. split; [|apply linked_cons; split].
  - apply (linked_frame m); [..|done]; simpl.
    + intros a Ha. apply NoDup_app in HndX as (_ & HX2 & _).
      rewrite fn_lookup_insert_ne; [done|set_solver].
    + rewrite <-E1. simpl. intros b Hb'. rewrite fn_lookup_insert_ne; [done|].
      intros <-. apply elem_of_app in Hqin as [Hq'| ->%list_elem_of_singleton];
        [apply (Hdis q); set_solver|set_solver].
  - apply set_link; apply Htg; set_solver.
  - rewrite <-E2 in *. apply (linked_frame m); [..|done]; simpl.
    + intros a Ha. rewrite fn_lookup_insert_ne; [done|]. intros <-.
      apply elem_of_cons in Hpin as [->|Hp']; [set_solver|].
      apply (Hdis p); [done|]. by constructor.
    + rewrite E2. simpl. intros b Hb'. rewrite E2 in HndY. apply NoDup_cons in HndY as [? _].
      rewrite fn_lookup_insert_ne; [done|set_solver].
Qed.
End linked.
