(* ===== verification/FreeListInv.v ===== *)
(** * The invariant of the table, and its preservation by each list step

    [invX a X h n m ss l]: the fields [m] describe the segmentation [ss] and the
    free-list order [l].  [X] names the block starts whose free flag is stale in
    the middle of an operation; between operations it is empty. *)

From S2P Require Import Prelude FreeList FreeListModel FreeListSpec.

(** The size tags of a block: on its first, second and last unit. *)
Definition seg_ok (m : links) (x : seg) : Prop :=
  multi m (s_start x) = (1 <? s_size x) ∧
  (1 < s_size x →
   nxt m (s_start x + 1) = s_size x ∧
   multi m (s_start x + s_size x - 1) = true ∧
   nxt m (s_start x + s_size x - 1) = s_size x).

Record invX (a : Z) (X : list Z) (h n : Z) (m : links) (ss : list seg) (l : list Z) : Prop := InvX {
  inv_h : - MAX_HEADS ≤ h ≤ -1;
  inv_n : 0 ≤ n ≤ MAX_UNITS;
  inv_base : 0 ≤ a;
  inv_tiles : tiles a n ss;
  inv_segs : ∀ x, x ∈ ss → seg_ok m x;
  inv_flags : ∀ x, x ∈ ss → s_start x ∉ X → isfree m (s_start x) = s_free x;
  inv_linked : linked h m (h :: l ++ [h]);
  inv_nodup : NoDup l;
  inv_free : ∀ u, u ∈ l ↔ ∃ s, Seg u s true ∈ ss;
  inv_top : multi m (-1) = false ∧ isfree m (-1) = false;
  inv_bottom : isfree m n = false
}.
#[global] Arguments InvX {a X h n m ss l}.
#[global] Arguments inv_h {a X h n m ss l} _.
#[global] Arguments inv_n {a X h n m ss l} _.
#[global] Arguments inv_base {a X h n m ss l} _.
#[global] Arguments inv_tiles {a X h n m ss l} _.
#[global] Arguments inv_segs {a X h n m ss l} _.
#[global] Arguments inv_flags {a X h n m ss l} _.
#[global] Arguments inv_linked {a X h n m ss l} _.
#[global] Arguments inv_nodup {a X h n m ss l} _.
#[global] Arguments inv_free {a X h n m ss l} _.
#[global] Arguments inv_top {a X h n m ss l} _.
#[global] Arguments inv_bottom {a X h n m ss l} _.
Abbreviation inv := (invX 0 []).

Lemma p_size_seg m x : seg_ok m x → 1 ≤ s_size x → p_size m (s_start x) = s_size x.
Proof.
  intros [H1 H2] ?. unfold p_size. rewrite H1.
  destruct (Z.ltb_spec 1 (s_size x)); [naive_solver|lia].
Qed.

Section steps.
Context {a : Z} {X : list Z} {h n : Z} {m : links}.
Implicit Types (ss A B : list seg) (l : list Z).

Lemma inv_bound ss l u s f : invX a X h n m ss l → Seg u s f ∈ ss → 0 ≤ u ∧ 1 ≤ s ∧ u + s ≤ n.
Proof.
  intros Hi Hu. apply (tiles_elem _ _ _ _ (inv_tiles Hi)) in Hu. simpl in Hu.
  pose proof (inv_base Hi). lia.
Qed.

Lemma inv_list_bound ss l u : invX a X h n m ss l → u ∈ l → 0 ≤ u < n.
Proof.
  intros Hi Hu. apply (inv_free Hi) in Hu as [s Hs].
  eapply inv_bound in Hs; [|done]. lia.
Qed.

Lemma inv_list_MAX ss l : invX a X h n m ss l → Forall (λ v, 0 ≤ v ≤ MAX_UNITS) l.
Proof.
  intros Hi. apply Forall_forall. intros u Hu.
  eapply inv_list_bound in Hu; [|done]. pose proof (inv_n Hi). lia.
Qed.

Lemma inv_size ss l u s f : invX a X h n m ss l → Seg u s f ∈ ss → p_size m u = s.
Proof.
  intros Hi Hu. apply (p_size_seg m (Seg u s f)).
  - by eapply inv_segs.
  - eapply inv_bound in Hu; [|done]. simpl. lia.
Qed.

(** Blocks before and after a block of the tiling. *)
Lemma inv_middle A B x ss l :
  invX a X h n m ss l → ss = A ++ x :: B →
  (∀ y, y ∈ A → s_start y + s_size y ≤ s_start x) ∧
  (∀ y, y ∈ B → s_start x + s_size x ≤ s_start y).
Proof.
  intros Hi ->. pose proof (inv_tiles Hi) as Ht.
  apply tiles_app in Ht as (c & HA & HB). destruct x as [u s f].
  simpl in HB. destruct HB as (-> & ? & HB). split; intros y Hy; simpl.
  - apply (tiles_elem _ _ _ _ HA) in Hy. lia.
  - apply (tiles_elem _ _ _ _ HB) in Hy. lia.
Qed.

(** Links are stored only at block starts, so relinking keeps the size tags. *)
Lemma seg_ok_relink m' ss x :
  0 ≤ a → tiles a n ss → x ∈ ss →
  (∀ u, multi m' u = multi m u) →
  (∀ u, 0 ≤ u → (∀ y, y ∈ ss → s_start y ≠ u) → nxt m' u = nxt m u) →
  seg_ok m x → seg_ok m' x.
Proof.
  intros Ha Ht Hx Hm Hn [H1 H2]. split; [by rewrite Hm|]. intros Hs.
  destruct (H2 Hs) as (? & ? & ?).
  pose proof (tiles_elem _ _ _ _ Ht Hx).
  rewrite Hm, !Hn; [done|lia| |lia|]; intros y Hy E.
  all: destruct (tiles_disjoint _ _ _ _ _ Ht Hx Hy) as [->|]; [lia|].
  all: pose proof (tiles_elem _ _ _ _ Ht Hy); lia.
Qed.
End steps.

(** Replacing the free flag of one block in the segmentation. *)
Lemma elem_replace_free A B u s f g x :
  x ∈ A ++ Seg u s f :: B → s_start x ≠ u → x ∈ A ++ Seg u s g :: B.
Proof. intros [?|[->|?]%elem_of_cons]%elem_of_app Hne; [set_solver|done|set_solver]. Qed.

Lemma tiles_replace_free a b A B u s f g :
  tiles a b (A ++ Seg u s f :: B) → tiles a b (A ++ Seg u s g :: B).
Proof. rewrite !tiles_app. simpl. naive_solver. Qed.

Section ne_start.
Context {a : Z} {X : list Z} {h n : Z} {m : links}.

Lemma inv_ne_start A B u s f l y :
  invX a X h n m (A ++ Seg u s f :: B) l → y ∈ A ++ B → s_start y ≠ u.
Proof.
  intros Hi Hy. destruct (inv_middle A B (Seg u s f) _ _ Hi eq_refl) as [HA HB].
  pose proof (tiles_elem _ _ _ y (inv_tiles Hi)) as Hb.
  pose proof (tiles_elem _ _ _ (Seg u s f) (inv_tiles Hi)) as Hu.
  specialize (Hb ltac:(set_solver)). specialize (Hu ltac:(set_solver)). simpl in *.
  apply elem_of_app in Hy as [Hy%HA|Hy%HB]; lia.
Qed.

End ne_start.

Section moves.
Context {a : Z} {X : list Z} {h n : Z}.
Implicit Types (m : links) (ss A B : list seg) (l : list Z).

(** [__remove_from_free]: the block leaves the list; its flag is stale. *)
Lemma inv_remove m A B u s l1 l2 :
  invX a X h n m (A ++ Seg u s true :: B) (l1 ++ u :: l2) →
  invX a (u :: X) h n (p_remove h m u) (A ++ Seg u s false :: B) (l1 ++ l2).
Proof.
  intros Hi. pose proof (inv_list_MAX _ _ Hi) as HM.
  pose proof (inv_nodup Hi) as Hnd.
  assert (∀ y, y ∈ A ++ B → s_start y ≠ u) as Hne by (intros; by eapply inv_ne_start).
  assert (p_prev h m u ∈ h :: l1) as Hp.
  { pose proof (inv_linked Hi) as HL.
    destruct (ring_split h l1 u l2) as (X' & p & q & Y & E & E1 & E2).
    rewrite E, E1 in *. apply linked_app in HL as [_ HL]. apply linked_cons in HL as [[_ ->] _].
    set_solver. }
  destruct Hi as [Hh Hn Ha Ht Hs Hf HL _ Hfr Htop Hbot].
  split; simpl; try done.
  - by eapply tiles_replace_free.
  - intros x Hx. apply (seg_ok_relink (a := a) (n := n) (m := m) _ (A ++ Seg u s false :: B)); try done.
    + by eapply tiles_replace_free.
    + simpl. intros v Hv Hns. rewrite fn_lookup_insert_ne; [done|]. intros Ev.
      apply elem_of_cons in Hp as [?|Hp]; [lia|].
      assert (v ∈ l1 ++ u :: l2) as [s' Hs']%Hfr by set_solver.
      destruct (decide (v = u)) as [->|]; [by apply (Hns (Seg u s false)); [set_solver|]|].
      by apply (Hns (Seg v s' true)); [eapply elem_replace_free|].
    + destruct (decide (x = Seg u s false)) as [->|].
      * apply (Hs (Seg u s true)). set_solver.
      * apply Hs. set_solver.
  - intros x Hx Hxu. apply Hf; [|set_solver]. eapply elem_replace_free; [done|set_solver].
  - by apply unlink.
  - apply NoDup_app in Hnd as (? & Hd & [? ?]%NoDup_cons).
    apply NoDup_app. split_and!; [done|set_solver|done].
  - intros v. split.
    + intros Hv. assert (v ≠ u).
      { intros ->. apply NoDup_app in Hnd as (? & Hd & [? ?]%NoDup_cons). set_solver. }
      assert (v ∈ l1 ++ u :: l2) as [s' Hs']%Hfr by set_solver.
      exists s'. by eapply elem_replace_free.
    + intros [s' Hs']. assert (Seg v s' true ∈ A ++ B) as Hs2 by set_solver.
      assert (v ≠ u) by (by apply (Hne (Seg v s' true))).
      assert (v ∈ l1 ++ u :: l2) by (apply Hfr; exists s'; set_solver). set_solver.
Qed.

Lemma p_set_free_fields m u b :
  nxt (p_set_free m u b) = nxt m ∧ multi (p_set_free m u b) = multi m ∧
  prv (p_set_free m u b) = prv m ∧ unco (p_set_free m u b) = unco m.
Proof. unfold p_set_free. by destruct (1 <? _). Qed.

Lemma isfree_set_free Y m ss l u s f b v :
  invX a Y h n m ss l → Seg u s f ∈ ss →
  isfree (p_set_free m u b) v =
  if bool_decide (v = u ∨ 1 < s ∧ v = u + s - 1) then b else isfree m v.
Proof.
  intros Hi Hu. unfold p_set_free.
  change (p_size (upd_isfree m u b) u) with (p_size m u).
  rewrite (inv_size _ _ _ _ _ Hi Hu).
  destruct (Z.ltb_spec 1 s); simpl.
  - case_bool_decide as Hv.
    + destruct (decide (v = u + s - 1)) as [->|]; [apply fn_lookup_insert|].
      assert (v = u) as -> by naive_solver.
      rewrite fn_lookup_insert_ne, fn_lookup_insert by lia. done.
    + rewrite !fn_lookup_insert_ne; naive_solver.
  - case_bool_decide as Hv.
    + assert (v = u) as -> by lia. apply fn_lookup_insert.
    + rewrite fn_lookup_insert_ne; naive_solver.
Qed.

(** [set_free] touches the flags of one block only. *)
Lemma flags_set_free Y m ss l u s f b :
  invX a Y h n m ss l → Seg u s f ∈ ss →
  isfree (p_set_free m u b) u = b ∧
  (∀ x, x ∈ ss → s_start x ≠ u → isfree (p_set_free m u b) (s_start x) = isfree m (s_start x)) ∧
  isfree (p_set_free m u b) (-1) = isfree m (-1) ∧
  isfree (p_set_free m u b) n = isfree m n.
Proof.
  intros Hi Hu. pose proof (inv_bound _ _ _ _ _ Hi Hu) as Hb.
  rewrite !(isfree_set_free _ _ _ _ _ _ _ _ _ Hi Hu).
  split_and!; try (case_bool_decide; naive_solver lia).
  intros x Hx Hne. rewrite (isfree_set_free _ _ _ _ _ _ _ _ _ Hi Hu).
  case_bool_decide as Hv; [|done]. exfalso. pose proof (inv_tiles Hi) as Ht.
  destruct (tiles_disjoint _ _ _ _ _ Ht Hx Hu) as [->|]; [done|].
  pose proof (tiles_elem _ _ _ _ Ht Hx). simpl in *. lia.
Qed.

(** [set_free] makes the flag of a block agree with the segmentation. *)
Lemma inv_set_free m ss l u s f :
  invX a (u :: X) h n m ss l → Seg u s f ∈ ss →
  invX a X h n (p_set_free m u f) ss l.
Proof.
  intros Hi Hu. destruct (p_set_free_fields m u f) as (En & Em & Ep & _).
  destruct (flags_set_free _ _ _ _ _ _ _ f Hi Hu) as (F1 & F2 & F3 & F4).
  destruct Hi as [Hh Hn Ha Ht Hs Hf HL Hnd Hfr Htop Hbot]. split; try done.
  - intros x Hx. destruct (Hs x Hx) as [E1 E2]. unfold seg_ok. rewrite En, Em. done.
  - intros x Hx HX. destruct (decide (s_start x = u)) as [E|Hne].
    + assert (x = Seg u s f) as -> by (by eapply tiles_start_inj). done.
    + rewrite F2 by done. apply Hf; set_solver.
  - apply (linked_ring h Hh m); [by rewrite En|by rewrite Ep|done].
  - rewrite Em, F3. done.
  - rewrite F4. done.
Qed.

(** [add_to_free]: the block enters the list at the front. *)
Lemma inv_push m A B u s l :
  invX a (u :: X) h n m (A ++ Seg u s false :: B) l →
  invX a X h n (p_add_to_free h m u) (A ++ Seg u s true :: B) (u :: l).
Proof.
  intros Hi. pose proof (inv_list_MAX _ _ Hi) as HM.
  assert (Seg u s false ∈ A ++ Seg u s false :: B) as Hu by set_solver.
  assert (∀ y, y ∈ A ++ B → s_start y ≠ u) as Hne by (intros; by eapply inv_ne_start).
  assert (u ∉ l) as Hul.
  { intros [s' Hs']%(inv_free Hi).
    apply (Hne (Seg u s' true)); [set_solver|done]. }
  pose proof (inv_bound _ _ _ _ _ Hi Hu) as Hb.
  destruct (p_set_free_fields m u true) as (En & Em & Ep & _).
  destruct (flags_set_free _ _ _ _ _ _ _ true Hi Hu) as (F1 & F2 & F3 & F4).
  destruct Hi as [Hh Hn Ha Ht Hs Hf HL Hnd Hfr Htop Hbot].
  assert (linked h (p_add_to_free h m u) (h :: u :: l ++ [h])) as HL'.
  { apply push_front; try done; [|constructor; [lia|done]].
    apply (linked_ring h Hh m); [by rewrite En|by rewrite Ep|done]. }
  split; simpl; try done.
  - by eapply tiles_replace_free.
  - intros x Hx. apply (seg_ok_relink (a := a) (n := n) (m := m) _ (A ++ Seg u s true :: B)); try done.
    + by eapply tiles_replace_free.
    + simpl. by rewrite Em.
    + simpl. rewrite En. intros v Hv Hns. rewrite !fn_lookup_insert_ne; [done| |lia].
      intros <-. by apply (Hns (Seg u s true)); [set_solver|].
    + destruct (decide (x = Seg u s true)) as [->|].
      * apply (Hs (Seg u s false)). set_solver.
      * apply Hs. set_solver.
  - intros x Hx HX. destruct (decide (x = Seg u s true)) as [->|]; [done|].
    rewrite F2; [apply Hf|..]; [set_solver..|]. apply Hne. set_solver.
  - by constructor.
  - intros v. rewrite elem_of_cons, Hfr. split.
    + intros [->|[s' Hs']]; [exists s; set_solver|exists s'; set_solver].
    + intros [s' Hs']. destruct (decide (v = u)) as [->|]; [by left|].
      right. exists s'. by eapply elem_replace_free.
  - by rewrite Em, F3.
  - by rewrite F4.
Qed.
End moves.

(** Taking a unit out of the free-list order. *)
Definition drop_unit (u : Z) (l : list Z) : list Z := filter (λ v, v ≠ u) l.

Lemma drop_unit_notin u l : u ∉ l → drop_unit u l = l.
Proof.
  unfold drop_unit. induction l as [|v l IH]; intros Hu; [done|].
  rewrite filter_cons_True by set_solver. f_equal. apply IH. set_solver.
Qed.

Lemma drop_unit_split u l1 l2 : NoDup (l1 ++ u :: l2) → drop_unit u (l1 ++ u :: l2) = l1 ++ l2.
Proof.
  intros (? & Hd & [? ?]%NoDup_cons)%NoDup_app. unfold drop_unit.
  rewrite filter_app, filter_cons_False by naive_solver.
  fold (drop_unit u l1) (drop_unit u l2). rewrite !drop_unit_notin; [done|done|set_solver].
Qed.

Lemma drop_unit_cons u v l : u ≠ v → drop_unit u (v :: l) = v :: drop_unit u l.
Proof. intros. unfold drop_unit. by rewrite filter_cons_True. Qed.

Section sizes.
Context {a h n : Z}.
Implicit Types (X : list Z) (m : links) (ss A B M : list seg) (l : list Z).

Lemma inv_remove_unit X m A B u s l :
  invX a X h n m (A ++ Seg u s true :: B) l →
  invX a (u :: X) h n (p_remove h m u) (A ++ Seg u s false :: B) (drop_unit u l).
Proof.
  intros Hi. assert (u ∈ l) as (l1 & l2 & ->)%list_elem_of_split.
  { apply (inv_free Hi). exists s. set_solver. }
  rewrite drop_unit_split by apply Hi. by apply inv_remove.
Qed.

(** Flags may be declared stale; a start that is no block's is never stale. *)
Lemma inv_stale X Y m ss l :
  (∀ x, x ∈ ss → s_start x ∉ Y → s_start x ∉ X) → invX a X h n m ss l → invX a Y h n m ss l.
Proof. intros HXY []. split; try done. auto. Qed.

Lemma p_set_size_frame m u s v :
  1 ≤ s → v < u ∨ u + s ≤ v →
  nxt (p_set_size m u s) v = nxt m v ∧ multi (p_set_size m u s) v = multi m v.
Proof.
  intros Hs Hv. unfold p_set_size, p_size_entry. destruct (Z.ltb_spec 1 s); simpl.
  all: rewrite ?fn_lookup_insert_ne by lia; done.
Qed.

Lemma p_set_size_nxt_start m u s : nxt (p_set_size m u s) u = nxt m u.
Proof.
  unfold p_set_size, p_size_entry. destruct (Z.ltb_spec 1 s); simpl; [|done].
  by rewrite !fn_lookup_insert_ne by lia.
Qed.

Lemma p_set_size_fields m u s :
  prv (p_set_size m u s) = prv m ∧ isfree (p_set_size m u s) = isfree m ∧
  unco (p_set_size m u s) = unco m.
Proof. unfold p_set_size. by destruct (1 <? s). Qed.

(** [set_size] writes the size tags of a block. *)
Lemma seg_ok_set_size m u s f : 1 ≤ s → seg_ok (p_set_size m u s) (Seg u s f).
Proof.
  intros Hs. unfold seg_ok, p_set_size, p_size_entry. simpl.
  destruct (Z.ltb_spec 1 s); simpl; [|split; [apply fn_lookup_insert|lia]].
  split.
  - rewrite !fn_lookup_insert_ne by lia. apply fn_lookup_insert.
  - intros _. destruct (decide (u + s - 1 = u + 1)) as [->|].
    + by rewrite !fn_lookup_insert.
    + rewrite (fn_lookup_insert_ne _ (u + s - 1) (u + 1)) by lia. by rewrite !fn_lookup_insert.
Qed.

Lemma seg_ok_frame m m' x :
  1 ≤ s_size x →
  (∀ v, s_start x ≤ v < s_start x + s_size x → multi m' v = multi m v) →
  (∀ v, s_start x < v < s_start x + s_size x → nxt m' v = nxt m v) →
  seg_ok m x → seg_ok m' x.
Proof.
  intros Hs Hm Hn [H1 H2]. split; [by rewrite Hm by lia|]. intros Hs1.
  rewrite Hm, !Hn by lia. auto.
Qed.

(** The blocks of [M], adjacent and none of them in the list, become the blocks
    of [M']; the tags outside them are left alone. *)
Lemma inv_resize X Y m m' A M M' B u tot l :
  invX a X h n m (A ++ M ++ B) l →
  tiles u (u + tot) M → tiles u (u + tot) M' → 1 ≤ tot →
  (∀ x, x ∈ M → s_free x = true → s_start x = u ∧ ∃ s, Seg u s true ∈ M') →
  (∀ x, x ∈ M' → s_free x = true → s_start x = u ∧ ∃ s, Seg u s true ∈ M) →
  (∀ v, v < u ∨ u + tot ≤ v → nxt m' v = nxt m v ∧ multi m' v = multi m v) →
  nxt m' u = nxt m u → prv m' = prv m → isfree m' = isfree m →
  (∀ x, x ∈ M' → seg_ok m' x) →
  (∀ x, x ∈ A ++ B → s_start x ∉ Y → s_start x ∉ X) →
  (∀ x, x ∈ M' → s_start x ∉ Y → isfree m (s_start x) = s_free x) →
  invX a Y h n m' (A ++ M' ++ B) l.
Proof.
  intros [Hh Hn Ha Ht Hs Hf HL Hnd Hfr Htop Hbot] HM HM' Htot Hfree Hfree' Hout Hu Hprv Hisf Hok HX HY.
  apply tiles_app in Ht as (c & HA & Ht). apply tiles_app in Ht as (d & Hc & HB).
  assert (c = u ∧ d = u + tot) as [-> ->].
  { assert (M ≠ []) by (intros ->; simpl in HM; lia).
    destruct M as [|[v t g] M]; [done|]. simpl in HM, Hc. destruct HM as (-> & ? & HM).
    destruct Hc as (-> & _ & Hc). split; [done|].
    clear -HM Hc. revert HM Hc. generalize (c + t). induction M as [|[v t' g'] M IH]; simpl; [lia|].
    intros a (_ & _ & H1) (_ & _ & H2). by eapply IH. }
  assert (∀ x, x ∈ A → a ≤ s_start x ∧ 1 ≤ s_size x ∧ s_start x + s_size x ≤ u) as HAb
    by (intros x Hx; by apply (tiles_elem _ _ _ _ HA)).
  assert (∀ x, x ∈ B → u + tot ≤ s_start x ∧ 1 ≤ s_size x ∧ s_start x + s_size x ≤ n) as HBb
    by (intros x Hx; by apply (tiles_elem _ _ _ _ HB)).
  assert (0 ≤ u) by (apply tiles_le in HA; lia).
  assert (u + tot ≤ n) by (by apply tiles_le in HB).
  assert (∀ x, x ∈ A ++ B → seg_ok m' x) as HAB.
  { intros x [Hx|Hx]%elem_of_app.
    - pose proof (HAb x Hx). eapply seg_ok_frame; [lia| | |apply Hs; set_solver]; intros; apply Hout; lia.
    - pose proof (HBb x Hx). eapply seg_ok_frame; [lia| | |apply Hs; set_solver]; intros; apply Hout; lia. }
  assert (∀ v, v ∈ l ↔ ∃ s, Seg v s true ∈ A ++ M' ++ B) as Hfr'.
  { intros v. rewrite Hfr. split; intros [s Hv].
    - assert (Seg v s true ∈ M ∨ Seg v s true ∈ A ++ B) as [Hv'|] by set_solver; [|exists s; set_solver].
      apply Hfree in Hv' as [E [s' ?]]; [|done]. simpl in E. subst v. exists s'. set_solver.
    - assert (Seg v s true ∈ M' ∨ Seg v s true ∈ A ++ B) as [Hv'|] by set_solver; [|exists s; set_solver].
      apply Hfree' in Hv' as [E [s' ?]]; [|done]. simpl in E. subst v. exists s'. set_solver. }
  split; try done.
  - apply tiles_app. exists u. split; [done|]. apply tiles_app. eauto.
  - intros x Hx. assert (x ∈ M' ∨ x ∈ A ++ B) as [?|?] by set_solver; auto.
  - intros x Hx Hst. rewrite Hisf. assert (x ∈ M' ∨ x ∈ A ++ B) as [?|?] by set_solver; [auto|].
    apply Hf; [set_solver|auto].
  - apply (linked_ring h Hh m); [|by rewrite Hprv|done].
    intros b [->|Hb]%elem_of_cons; [apply Hout; lia|].
    apply Hfr in Hb as [s Hb].
    assert (Seg b s true ∈ M ∨ Seg b s true ∈ A ++ B) as [Hv'|Hv'] by set_solver.
    + apply Hfree in Hv' as [E _]; [|done]. simpl in E. by subst.
    + apply elem_of_app in Hv' as [Hv'%HAb|Hv'%HBb]; apply Hout; simpl in *; lia.
  - rewrite Hisf. split; [|apply Htop]. rewrite (proj2 (Hout (-1) ltac:(lia))). apply Htop.
  - by rewrite Hisf.
Qed.

(** The two [set_size]s of [__split]: the head of the block keeps its state, the
    rest becomes a block that is not in the list yet. *)
Lemma inv_split X m A B u s f k l :
  invX a X h n m (A ++ Seg u s f :: B) l → 1 ≤ k < s →
  invX a (u + k :: X) h n (p_set_size (p_set_size m u k) (u + k) (s - k))
    (A ++ Seg u k f :: Seg (u + k) (s - k) false :: B) l.
Proof.
  intros Hi Hk.
  change (Seg u k f :: Seg (u + k) (s - k) false :: B)
    with ([Seg u k f; Seg (u + k) (s - k) false] ++ B).
  set (m1 := p_set_size m u k).
  destruct (p_set_size_fields m u k) as (P1 & P2 & _).
  destruct (p_set_size_fields m1 (u + k) (s - k)) as (Q1 & Q2 & _).
  apply (inv_resize X _ m _ A [Seg u s f] _ B u s); try (by rewrite ?Q1, ?Q2).
  - simpl. lia.
  - simpl. lia.
  - lia.
  - intros x ->%list_elem_of_singleton Hx. simpl in *. subst. split; [done|]. exists k. set_solver.
  - intros x Hx Hxf. assert (x = Seg u k f) as -> by (set_unfold; destruct Hx as [?|[?|[]]]; by subst).
    simpl in *. subst. split; [done|]. exists s. set_solver.
  - intros v Hv. destruct (p_set_size_frame m1 (u + k) (s - k) v) as [-> ->]; [lia..|].
    apply p_set_size_frame; lia.
  - rewrite (proj1 (p_set_size_frame m1 (u + k) (s - k) u ltac:(lia) ltac:(lia))).
    apply p_set_size_nxt_start.
  - intros x Hx. set_unfold. destruct Hx as [->|[->|[]]].
    + apply (seg_ok_frame m1); simpl; [lia| | |apply seg_ok_set_size; lia];
        intros v Hv; apply p_set_size_frame; lia.
    + apply seg_ok_set_size. lia.
  - set_solver.
  - intros x Hx Hst. set_unfold. destruct Hx as [->|[->|[]]]; [|tauto]. simpl in *.
    apply (inv_flags Hi (Seg u s f)); [set_solver|naive_solver].
Qed.

(** The [set_size] of [__coalesce], over blocks that are out of the list. *)
Lemma inv_merge X m A B M u tot l :
  invX a X h n m (A ++ M ++ B) l → tiles u (u + tot) M → 1 ≤ tot →
  (∀ x, x ∈ M → s_free x = false) →
  invX a (u :: X) h n (p_set_size m u tot) (A ++ Seg u tot false :: B) l.
Proof.
  intros Hi HM Htot Hfree.
  change (Seg u tot false :: B) with ([Seg u tot false] ++ B).
  destruct (p_set_size_fields m u tot) as (P1 & P2 & _).
  apply (inv_resize X _ m _ A M _ B u tot); try done.
  - intros x Hx Hxf. rewrite Hfree in Hxf; done.
  - intros x ->%list_elem_of_singleton Hxf. done.
  - intros v Hv. apply p_set_size_frame; lia.
  - apply p_set_size_nxt_start.
  - intros x ->%list_elem_of_singleton. apply seg_ok_set_size. lia.
  - set_solver.
  - intros x ->%list_elem_of_singleton Hst. simpl in Hst. set_solver.
Qed.

(** Every block's first unit is linked to targets in the table. *)
Lemma inv_links_inb X m ss l H :
  invX a X h n m ss l → - H ≤ h → ∀ u, u ∈ h :: l → inb H n (p_next h m u) ∧ inb H n (p_prev h m u).
Proof.
  intros Hi HH u Hu. pose proof (inv_linked Hi) as HL.
  assert (∀ v, v ∈ h :: l ++ [h] → inb H n v) as Hb.
  { pose proof (inv_h Hi). pose proof (inv_n Hi).
    intros v Hv. unfold inb. destruct (decide (v = h)) as [->|]; [lia|].
    assert (v ∈ l) as Hl by set_solver. apply (inv_list_bound _ _ _ Hi) in Hl. lia. }
  apply elem_of_cons in Hu as [->|(l1 & l2 & ->)%list_elem_of_split].
  - split.
    + destruct (l ++ [h]) as [|q Y] eqn:E; [by destruct l|].
      apply linked_cons in HL as [[-> _] _]. apply Hb. set_solver.
    + destruct (exists_last (l := h :: l) ltac:(done)) as (Z' & p & E).
      assert (h :: l ++ [h] = Z' ++ p :: [h]) as E2.
      { rewrite app_comm_cons, E, <-app_assoc. done. }
      rewrite E2 in *. apply linked_app in HL as [_ HL]. apply linked_cons in HL as [[_ ->] _].
      apply Hb. set_solver.
  - destruct (ring_split h l1 u l2) as (Z' & p & q & Y & E & _ & _). rewrite E in *.
    apply linked_app in HL as [_ HL]. rewrite !linked_cons in HL.
    destruct HL as ([_ ->] & [-> _] & _). split; apply Hb; set_solver.
Qed.
(** [initialize_heap] makes blocks downwards: the tags of a new lowest block. *)
Lemma inv_extend m ss l g :
  invX a [] h n m ss l → 1 ≤ g ≤ a →
  invX (a - g) [a - g] h n (p_set_size m (a - g) g) (Seg (a - g) g false :: ss) l.
Proof.
  intros [Hh Hn Ha Ht Hs Hf HL Hnd Hfr Htop Hbot] Hg.
  destruct (p_set_size_fields m (a - g) g) as (P1 & P2 & _).
  assert (a ≤ n) by (by eapply tiles_le).
  assert (∀ v, v < a - g ∨ a ≤ v →
    nxt (p_set_size m (a - g) g) v = nxt m v ∧ multi (p_set_size m (a - g) g) v = multi m v) as Hout.
  { intros v Hv. apply p_set_size_frame; lia. }
  assert (∀ x, x ∈ ss → a ≤ s_start x ∧ 1 ≤ s_size x) as Hb.
  { intros x Hx. apply (tiles_elem _ _ _ _ Ht) in Hx. lia. }
  split; try done; try lia.
  - simpl. split_and!; [done|lia|]. by replace (a - g + g) with a by lia.
  - intros x [->|Hx]%elem_of_cons; [apply seg_ok_set_size; lia|]. pose proof (Hb x Hx).
    eapply seg_ok_frame; [lia| | |by apply Hs]; intros v Hv; apply Hout; lia.
  - intros x [->|Hx]%elem_of_cons Hst; simpl in Hst; [set_solver|].
    rewrite P2. apply Hf; [done|set_solver].
  - apply (linked_ring h Hh m); [|by rewrite P1|done]. intros b [->|Hb']%elem_of_cons.
    + apply Hout. lia.
    + apply Hfr in Hb' as [s Hb']. apply Hb in Hb'. simpl in Hb'. apply Hout. lia.
  - intros u. rewrite Hfr. split; intros [s Hu]; exists s; set_solver.
  - rewrite P2. rewrite (proj2 (Hout (-1) ltac:(lia))). done.
  - by rewrite P2.
Qed.
End sizes.
