(* ===== verification/FreeListRefine.v ===== *)
(** * The trait's methods refine the operations on the segmentation

    [fl_rel t h H n uc ss l]: the table of [t] describes the blocks [ss] of the
    units [0, n), the free blocks are chained in the order [l] from the head [h],
    and [uc] marks the units that may not be merged with what is on their left.
    [alloc] and [alloc_from_unit] carve a free block, [free] gives a block back
    and merges it with its free neighbours, [initialize_heap] builds the initial
    segmentation; all of them return, and keep [fl_rel]. *)

From S2P Require Import Prelude FreeList FreeListModel FreeListSpec FreeListInv.

Section refine.
Context {T : Type} `{!FreeList T} `{!FreeListLaws T}.
Implicit Types (t : T) (X : list Z) (ss A B : list seg) (l : list Z).

(** [X]: the block starts whose free flag is stale. *)
Definition fl_relX (X : list Z) t (h H n : Z) (uc : Z → bool) ss l : Prop :=
  ∃ m, reps t h H n m ∧ invX 0 X h n m ss l ∧ ∀ v, inb H n v → unco m v = uc v.
Definition fl_rel := fl_relX [].

Context (h H n : Z) (uc : Z → bool).
Abbreviation R X t ss l := (fl_relX X t h H n uc ss l).

Lemma rel_bounds X t ss l : R X t ss l → 1 ≤ H ≤ MAX_HEADS ∧ - H ≤ h ≤ -1 ∧ 0 ≤ n ≤ MAX_UNITS.
Proof. intros (m & Hr & _). apply Hr. Qed.

Lemma rel_head X t ss l : R X t ss l → head t = h.
Proof. intros (m & Hr & _). apply Hr. Qed.

Lemma rel_i32 X t ss l x : R X t ss l → - 2 * H - 2 ≤ x ≤ 2 * n + 2 → i32 x = x.
Proof. intros (m & Hr & _). by eapply i32_reps. Qed.

Lemma rel_block X t ss l u s f :
  R X t ss l → Seg u s f ∈ ss → 0 ≤ u ∧ 1 ≤ s ∧ u + s ≤ n ∧ inb H n u.
Proof.
  intros (m & Hr & Hi & _) Hu. eapply inv_bound in Hu as Hb; [|done].
  pose proof (reps_bounds _ _ _ _ _ Hr). unfold inb. lia.
Qed.

Lemma rel_size X t ss l u s f : R X t ss l → Seg u s f ∈ ss → get_size t u = Val s.
Proof.
  intros HR Hu. destruct (rel_block _ _ _ _ _ _ _ HR Hu) as (? & ? & ? & ?).
  destruct HR as (m & Hr & Hi & _). rewrite (get_size_ok _ _ _ _ _ _ Hr) by (done || lia).
  by rewrite (inv_size _ _ _ _ _ Hi Hu).
Qed.

Lemma rel_flag X t ss l u s f : R X t ss l → Seg u s f ∈ ss → u ∉ X → get_free t u = Val f.
Proof.
  intros HR Hu HX. destruct (rel_block _ _ _ _ _ _ _ HR Hu) as (? & ? & ? & ?).
  destruct HR as (m & Hr & Hi & _). rewrite (get_free_ok _ _ _ _ _ _ Hr) by done.
  f_equal. by apply (inv_flags Hi (Seg u s f)).
Qed.

Lemma rel_stale X Y t ss l :
  (∀ x, x ∈ ss → s_start x ∉ Y → s_start x ∉ X) → R X t ss l → R Y t ss l.
Proof. intros HXY (m & ? & Hi & ?). exists m. split_and!; [done|by eapply inv_stale|done]. Qed.

Lemma rel_add X t A B u s l :
  R (u :: X) t (A ++ Seg u s false :: B) l →
  wp (add_to_free t u) (λ t', R X t' (A ++ Seg u s true :: B) (u :: l)).
Proof.
  intros HR. assert (Seg u s false ∈ A ++ Seg u s false :: B) as Hu by set_solver.
  destruct (rel_block _ _ _ _ _ _ _ HR Hu) as (? & ? & ? & ?).
  destruct HR as (m & Hr & Hi & Huc). pose proof (reps_bounds _ _ _ _ _ Hr) as (? & ? & ?).
  pose proof (inv_size _ _ _ _ _ Hi Hu) as Hsz.
  eapply wp_mono; [apply (add_to_free_ok t h H n m)|]; try (done || lia).
  - apply (inv_links_inb _ _ _ _ H Hi); [lia|constructor].
  - intros t' Hr'. exists (p_add_to_free h m u). split_and!; [done|by apply inv_push|].
    simpl. by destruct (p_set_free_fields m u true) as (_ & _ & _ & ->).
Qed.

Lemma rel_remove X t A B u s l :
  R X t (A ++ Seg u s true :: B) l →
  wp (__remove_from_free t u) (λ t', R (u :: X) t' (A ++ Seg u s false :: B) (drop_unit u l)).
Proof.
  intros HR. assert (Seg u s true ∈ A ++ Seg u s true :: B) as Hu by set_solver.
  destruct (rel_block _ _ _ _ _ _ _ HR Hu) as (? & ? & ? & ?).
  destruct HR as (m & Hr & Hi & Huc). pose proof (reps_bounds _ _ _ _ _ Hr) as (? & ? & ?).
  assert (u ∈ h :: l) as Hul by (right; apply (inv_free Hi); eauto).
  destruct (inv_links_inb _ _ _ _ H Hi ltac:(lia) _ Hul).
  eapply wp_mono; [by apply (remove_from_free_ok t h H n m)|].
  intros t' Hr'. exists (p_remove h m u). split_and!; [done|by apply inv_remove_unit|done].
Qed.

Lemma rel_set_free X t ss u s f l :
  R (u :: X) t ss l → Seg u s f ∈ ss → wp (set_free t u f) (λ t', R X t' ss l).
Proof.
  intros HR Hu. destruct (rel_block _ _ _ _ _ _ _ HR Hu) as (? & ? & ? & ?).
  destruct HR as (m & Hr & Hi & Huc). pose proof (inv_size _ _ _ _ _ Hi Hu).
  eapply wp_mono; [apply (set_free_ok t h H n m); (done || lia)|].
  intros t' Hr'. exists (p_set_free m u f). split_and!; [done|by eapply inv_set_free|].
  by destruct (p_set_free_fields m u f) as (_ & _ & _ & ->).
Qed.

(** [__split]: the tail of a free block becomes a free block, at the front. *)
Lemma rel_split X t A B u s k l :
  R X t (A ++ Seg u s true :: B) l → u + k ∉ X → 1 ≤ k < s →
  wp (__split t u k)
    (λ t', R X t' (A ++ Seg u k true :: Seg (u + k) (s - k) true :: B) (u + k :: l)).
Proof.
  intros HR HX Hk. assert (Seg u s true ∈ A ++ Seg u s true :: B) as Hu by set_solver.
  destruct (rel_block _ _ _ _ _ _ _ HR Hu) as (? & ? & ? & ?).
  pose proof (rel_bounds _ _ _ _ HR) as (? & ? & ?).
  unfold __split. rewrite (rel_size _ _ _ _ _ _ _ HR Hu). simpl.
  rewrite (rel_i32 _ _ _ _ (u + k) HR), (rel_i32 _ _ _ _ (s - k) HR) by lia.
  destruct HR as (m & Hr & Hi & Huc).
  wp_seq t1 Hr1 by (apply (set_size_ok t h H n m); (done || lia)).
  wp_seq t2 Hr2 by (apply (set_size_ok _ _ _ _ _ _ _ Hr1); unfold inb; lia).
  pose proof (inv_split _ _ _ _ _ _ _ _ _ Hi Hk) as Hi2.
  set (ss2 := A ++ Seg u k true :: _). change ss2 with (A ++ [Seg u k true] ++ Seg (u + k) (s - k) true :: B) in |- *.
  subst ss2. rewrite app_assoc. apply rel_add. rewrite <-app_assoc. simpl.
  eexists. split_and!; [done|done|].
  destruct (p_set_size_fields (p_set_size m u k) (u + k) (s - k)) as (_ & _ & ->).
  by destruct (p_set_size_fields m u k) as (_ & _ & ->).
Qed.

(** The free-list order after allocating [size] units of the block at [u]. *)
Definition carve_order (u s size : Z) l : list Z :=
  drop_unit u (if size <? s then u + size :: l else l).

Lemma alloc_block t A B u s size l :
  R [] t (A ++ Seg u s true :: B) l → 1 ≤ size ≤ s →
  wp (__alloc t size u s)
    (λ '(r, t'), r = u ∧ R [] t' (carve (A ++ Seg u s true :: B) u size) (carve_order u s size l)).
Proof.
  intros HR Hs. unfold __alloc, carve_order.
  assert (∀ x, x ∈ A → s_start x ≠ u) as HA.
  { intros x Hx. destruct HR as (m & _ & Hi & _). eapply inv_ne_start; [done|set_solver]. }
  rewrite carve_split by done. destruct (Z.leb_spec size s); [|lia].
  apply wp_bind. destruct (Z.ltb_spec size s) as [Hlt|Hge].
  - eapply wp_mono; [apply rel_split; [done|set_solver|lia]|]. intros t1 HR1; cbv beta in HR1.
    wp_seq t2 HR2 by (by eapply rel_remove).
    wp_seq t3 HR3 by (eapply (rel_set_free [] t2 _ u size); [done|set_solver]). done.
  - simpl. wp_seq t2 HR2 by (by eapply rel_remove).
    wp_seq t3 HR3 by (eapply (rel_set_free [] t2 _ u s); [done|set_solver]). done.
Qed.

(** ** Walking the list *)

Lemma rel_next X t ss l l1 a l2 :
  R X t ss l → h :: l = l1 ++ a :: l2 →
  get_next t a = Val (default h (list.head l2)) ∧
  default h (list.head l2) ∈ l2 ++ [h].
Proof.
  intros (m & Hr & Hi & _) E. pose proof (inv_linked Hi) as HL.
  assert (h :: l ++ [h] = l1 ++ a :: l2 ++ [h]) as E2 by (by rewrite app_comm_cons, E, <-app_assoc).
  assert (inb H n a) as Ha.
  { pose proof (head_inb _ _ _ _ _ Hr). assert (a ∈ h :: l) as [->|Ha]%elem_of_cons by (rewrite E; set_solver); [done|].
    pose proof (reps_bounds _ _ _ _ _ Hr). pose proof (inv_list_bound _ _ _ Hi Ha). unfold inb in *. lia. }
  rewrite (get_next_ok _ _ _ _ _ _ Hr Ha). rewrite E2 in HL. apply linked_app in HL as [_ HL].
  destruct l2 as [|b l2]; simpl in *; destruct HL as [[-> _] _]; (split; [done|set_solver]).
Qed.

Lemma rel_listed X t ss l u :
  R X t ss l → u ∈ l → u ≠ h ∧ Seg u (seg_size_at ss u) true ∈ ss.
Proof.
  intros (m & Hr & Hi & _) Hu. pose proof (inv_list_bound _ _ _ Hi Hu).
  pose proof (inv_h Hi). split; [lia|].
  apply (inv_free Hi) in Hu as [s Hs].
  by rewrite (seg_size_at_elem _ _ _ _ _ _ (inv_tiles Hi) Hs).
Qed.

(** The first free block of the list that fits. *)
Definition first_fit ss l (size : Z) : option Z :=
  snd <$> list_find (λ u, size ≤ seg_size_at ss u) l.

Lemma first_fit_cons ss u l size :
  first_fit ss (u :: l) size =
  if decide (size ≤ seg_size_at ss u) then Some u else first_fit ss l size.
Proof.
  unfold first_fit. simpl. case_decide; [done|].
  by destruct (list_find _ l) as [[]|].
Qed.

Lemma first_fit_loop_ok t ss l size s fuel l1 a l2 :
  R [] t ss l → h :: l = l1 ++ a :: l2 → (length l2 < fuel)%nat →
  ∃ s', first_fit_loop fuel t size a s =
    Val (match first_fit ss l2 size with
         | Some u => (u, seg_size_at ss u)
         | None => (h, s')
         end).
Proof.
  intros HR. revert l1 a l2 s. induction fuel as [|fuel IH]; intros l1 a l2 s E Hf; [lia|].
  simpl. destruct (rel_next _ _ _ _ _ _ _ HR E) as [-> _]. simpl.
  rewrite (rel_head _ _ _ _ HR). destruct l2 as [|u l2]; simpl.
  - rewrite Z.eqb_refl. eauto.
  - assert (u ∈ l) as Hu. { assert (u ∈ tail (l1 ++ a :: u :: l2)) by (destruct l1; set_solver).
      rewrite <-E in *. done. }
    destruct (rel_listed _ _ _ _ _ HR Hu) as [Hne Hs].
    destruct (Z.eqb_spec u h); [done|]. rewrite (rel_size _ _ _ _ _ _ _ HR Hs). simpl.
    rewrite first_fit_cons. destruct (Z.ltb_spec (seg_size_at ss u) size); case_decide; try lia.
    + apply (IH (l1 ++ [a])); [by rewrite <-app_assoc|simpl in Hf; lia].
    + by exists 0.
Qed.

(** A block of the list stands somewhere in the segmentation. *)
Lemma rel_listed_split X t ss l u :
  R X t ss l → u ∈ l → ∃ A B, ss = A ++ Seg u (seg_size_at ss u) true :: B.
Proof. intros HR Hu. apply list_elem_of_split. by eapply rel_listed. Qed.

Lemma alloc_listed t ss l u size :
  R [] t ss l → u ∈ l → 1 ≤ size ≤ seg_size_at ss u →
  wp (__alloc t size u (seg_size_at ss u))
    (λ '(r, t'), r = u ∧ R [] t' (carve ss u size) (carve_order u (seg_size_at ss u) size l)).
Proof.
  intros HR Hu Hs. destruct (rel_listed_split _ _ _ _ _ HR Hu) as (A & B & E).
  set (s := seg_size_at ss u) in *. clearbody s. subst ss. by apply alloc_block.
Qed.

(** What an allocation that chose [choice] does to the abstract state. *)
Definition alloc_post ss l (size : Z) (choice : option Z) t (out : Z * T) : Prop :=
  match choice with
  | None => out = (FAILURE, t)
  | Some u => out.1 = u ∧
    R [] out.2 (carve ss u size) (carve_order u (seg_size_at ss u) size l)
  end.

Lemma first_fit_Some ss l size u :
  first_fit ss l size = Some u → u ∈ l ∧ size ≤ seg_size_at ss u.
Proof.
  unfold first_fit. destruct (list_find _ l) as [[i v]|] eqn:E; [|done].
  intros [= <-]. apply list_find_Some in E as (E & ? & _). split; [|done].
  by eapply list_elem_of_lookup_2.
Qed.

Lemma alloc_first_fit_refines t ss l size fuel :
  R [] t ss l → 1 ≤ size → (length l < fuel)%nat →
  wp (alloc_first_fit fuel t size) (alloc_post ss l size (first_fit ss l size) t).
Proof.
  intros HR Hs Hf. unfold alloc_first_fit. rewrite (rel_head _ _ _ _ HR).
  destruct (first_fit_loop_ok t ss l size 0 fuel [] h l HR eq_refl Hf) as [s' ->]. simpl.
  destruct (first_fit ss l size) as [u|] eqn:E; simpl; [|by rewrite Z.eqb_refl].
  apply first_fit_Some in E as [Hu Hfit]. destruct (rel_listed _ _ _ _ _ HR Hu).
  destruct (Z.eqb_spec u h); [done|]. eapply wp_mono; [by apply alloc_listed|]. by intros [r t'] [-> ?].
Qed.

(** ** Best fit *)

Fixpoint best_of ss l (size : Z) (best : Z * Z) : Z * Z :=
  match l with
  | [] => best
  | u :: l =>
    let s := seg_size_at ss u in
    if (size <=? s) && (s <? best.1)
    then if s =? size then (s, u) else best_of ss l size (s, u)
    else best_of ss l size best
  end.

Lemma best_of_spec ss l size best :
  let r := best_of ss l size best in
  r = best ∧ (∀ v, v ∈ l → size ≤ seg_size_at ss v → best.1 ≤ seg_size_at ss v) ∨
  r.2 ∈ l ∧ r.1 = seg_size_at ss r.2 ∧ size ≤ r.1 < best.1 ∧
    ∀ v, v ∈ l → size ≤ seg_size_at ss v → r.1 ≤ seg_size_at ss v.
Proof.
  revert best. induction l as [|u l IH]; intros best; simpl.
  { left. split; [done|]. by intros v ?%not_elem_of_nil. }
  destruct (Z.leb_spec size (seg_size_at ss u)); simpl;
    [destruct (Z.ltb_spec (seg_size_at ss u) best.1)|].
  - destruct (Z.eqb_spec (seg_size_at ss u) size) as [E|].
    + right. simpl. split_and!; [set_solver|done|lia|lia|]. intros v _ ?. lia.
    + right. destruct (IH (seg_size_at ss u, u)) as [[-> Hall]|(? & ? & ? & Hall)].
      * simpl in *. split_and!; [set_solver|done|lia|lia|]. intros v [->|Hv]%elem_of_cons ?; [lia|auto].
      * simpl in *. split_and!; [set_solver|done|lia|lia|]. intros v [->|Hv]%elem_of_cons ?; [lia|auto].
  - destruct (IH best) as [[-> Hall]|(? & ? & ? & Hall)]; [left|right].
    + split; [done|]. intros v [->|Hv]%elem_of_cons ?; [lia|auto].
    + split_and!; [set_solver|done|lia|lia|]. intros v [->|Hv]%elem_of_cons ?; [lia|auto].
  - destruct (IH best) as [[-> Hall]|(? & ? & ? & Hall)]; [left|right].
    + split; [done|]. intros v [->|Hv]%elem_of_cons ?; [lia|auto].
    + split_and!; [set_solver|done|lia|lia|]. intros v [->|Hv]%elem_of_cons ?; [lia|auto].
Qed.

Lemma best_fit_loop_ok t ss l size fuel l1 a l2 best :
  R [] t ss l → h :: l = l1 ++ a :: l2 → (length l2 < fuel)%nat →
  best_fit_loop fuel t size a best.1 best.2 = Val (best_of ss l2 size best).
Proof.
  intros HR. revert l1 a l2 best.
  induction fuel as [|fuel IH]; intros l1 a l2 best E Hf; [lia|].
  simpl. destruct (rel_next _ _ _ _ _ _ _ HR E) as [-> _]. simpl.
  rewrite (rel_head _ _ _ _ HR). destruct l2 as [|u l2]; simpl.
  - rewrite Z.eqb_refl. by destruct best.
  - assert (u ∈ l) as Hu.
    { assert (u ∈ tail (l1 ++ a :: u :: l2)) by (destruct l1; set_solver).
      rewrite <-E in *. done. }
    destruct (rel_listed _ _ _ _ _ HR Hu) as [Hne Hs].
    destruct (Z.eqb_spec u h); [done|]. rewrite (rel_size _ _ _ _ _ _ _ HR Hs). simpl.
    assert (h :: l = (l1 ++ [a]) ++ u :: l2) as E' by (by rewrite <-app_assoc).
    simpl in Hf. destruct (_ && _); [destruct (_ =? _); [done|]|].
    + apply (IH (l1 ++ [a]) u l2 (_, u)); [done|lia].
    + apply (IH (l1 ++ [a])); [done|lia].
Qed.

(** The smallest free block that fits, or none if none fits. *)
Definition best_choice ss l (size : Z) (choice : option Z) : Prop :=
  match choice with
  | None => ∀ v, v ∈ l → seg_size_at ss v < size
  | Some u => u ∈ l ∧ size ≤ seg_size_at ss u ∧
    ∀ v, v ∈ l → size ≤ seg_size_at ss v → seg_size_at ss u ≤ seg_size_at ss v
  end.

Lemma alloc_best_fit_refines t ss l size fuel :
  R [] t ss l → 1 ≤ size → (length l < fuel)%nat →
  wp (alloc_best_fit fuel t size)
    (λ out, ∃ choice, best_choice ss l size choice ∧ alloc_post ss l size choice t out).
Proof.
  intros HR Hs Hf. unfold alloc_best_fit. rewrite (rel_head _ _ _ _ HR).
  pose proof (best_fit_loop_ok t ss l size fuel [] h l (i32_MAX, i32_MAX) HR eq_refl Hf) as Hloop.
  cbn [fst snd] in Hloop. rewrite Hloop. simpl.
  assert (∀ v, v ∈ l → seg_size_at ss v < i32_MAX) as Hmax.
  { intros v Hv. destruct (rel_listed _ _ _ _ _ HR Hv) as [_ Hv'].
    pose proof (rel_block _ _ _ _ _ _ _ HR Hv'). pose proof (rel_bounds _ _ _ _ HR).
    destruct bounds_eqs. unfold i32_MAX. lia. }
  destruct (best_of_spec ss l size (i32_MAX, i32_MAX)) as [[-> Hall]|(Hu & E & Hfit & Hall)];
    simpl in *.
  - exists None. split; [|done]. intros v Hv. specialize (Hall v Hv). specialize (Hmax v Hv). lia.
  - destruct (best_of _ _ _ _) as [s u]. simpl in *. subst s.
    destruct (Z.eqb_spec (seg_size_at ss u) i32_MAX); [lia|].
    eapply wp_mono; [apply alloc_listed; [done|done|lia]|]. intros [r t'] [-> ?].
    exists (Some u). simpl. split_and!; (done || lia).
Qed.

(** [alloc_from_unit], at the start of a block. *)
Lemma alloc_from_unit_refines t A B u s f size l :
  R [] t (A ++ Seg u s f :: B) l → 1 ≤ size →
  wp (alloc_from_unit t size u)
    (alloc_post (A ++ Seg u s f :: B) l size (if f && (size <=? s) then Some u else None) t).
Proof.
  intros HR Hs. assert (Seg u s f ∈ A ++ Seg u s f :: B) as Hu by set_solver.
  unfold alloc_from_unit. rewrite (rel_flag _ _ _ _ _ _ _ HR Hu) by set_solver. simpl.
  destruct f; [|done]. rewrite (rel_size _ _ _ _ _ _ _ HR Hu). simpl.
  destruct (Z.leb_spec size s); [|done].
  assert (seg_size_at (A ++ Seg u s true :: B) u = s) as Es.
  { destruct HR as (m & _ & Hi & _). by apply (seg_size_at_elem _ _ _ _ _ _ (inv_tiles Hi) Hu). }
  simpl. eapply wp_mono; [by apply alloc_block|]. intros [r t'] [-> ?]. simpl. by rewrite Es.
Qed.

(** ** Giving a block back *)

(** The neighbours of a block, as [get_left], [get_right] and the flags see them. *)
Lemma rel_left t A B u s f l :
  R [] t (A ++ Seg u s f :: B) l →
  let v := default (-1) (s_start <$> last A) in
  get_left t u = Val v ∧ get_free t v = Val (default false (s_free <$> last A)).
Proof.
  intros HR v. assert (Seg u s f ∈ A ++ Seg u s f :: B) as Hu by set_solver.
  destruct (rel_block _ _ _ _ _ _ _ HR Hu) as (? & ? & ? & ?).
  pose proof (rel_bounds _ _ _ _ HR) as (? & ? & ?).
  destruct HR as (m & Hr & Hi & Huc).
  assert (inb H n (u - 1)) as Hin1 by (unfold inb; lia).
  pose proof (nxt_nonneg _ _ _ _ _ _ Hr Hin1).
  rewrite (get_left_ok _ _ _ _ _ _ Hr) by lia.
  cut (p_left m u = v ∧ inb H n v ∧ isfree m v = default false (s_free <$> last A)).
  { intros (-> & Hv & <-). rewrite (get_free_ok _ _ _ _ _ _ Hr Hv). split; [|done].
    f_equal. apply (i32_reps _ _ _ _ _ _ Hr). unfold inb in Hv. lia. }
  unfold v. destruct A as [|x A _] using rev_ind.
  - simpl. pose proof (inv_tiles Hi) as [-> _]. unfold p_left. change (0 - 1) with (-1).
    destruct (inv_top Hi) as [-> ->]. split_and!; [done|unfold inb; lia|done].
  - rewrite last_snoc. simpl. pose proof (inv_tiles Hi) as Ht.
    rewrite <-app_assoc in Ht. apply tiles_app in Ht as (c & _ & Ht). destruct x as [v' t' g].
    simpl in Ht. destruct Ht as (-> & ? & -> & _ & _).
    assert (Seg c t' g ∈ (A ++ [Seg c t' g]) ++ Seg (c + t') s f :: B) as Hx by set_solver.
    pose proof (inv_bound _ _ _ _ _ Hi Hx). simpl. split_and!.
    + destruct (inv_segs Hi _ Hx) as [E1 E2]. simpl in *. unfold p_left.
      destruct (Z.ltb_spec 1 t') as [Hlt|].
      * destruct (E2 Hlt) as (_ & -> & ->). lia.
      * assert (t' = 1) as -> by lia. replace (c + 1 - 1) with c by lia. by rewrite E1.
    + unfold inb. lia.
    + apply (inv_flags Hi (Seg c t' g)); [done|set_solver].
Qed.

Lemma rel_right t A B u s f l :
  R [] t (A ++ Seg u s f :: B) l →
  get_right t u = Val (u + s) ∧ inb H n (u + s) ∧
  get_free t (u + s) = Val (default false (s_free <$> list.head B)).
Proof.
  intros HR. assert (Seg u s f ∈ A ++ Seg u s f :: B) as Hu by set_solver.
  destruct (rel_block _ _ _ _ _ _ _ HR Hu) as (? & ? & ? & ?).
  pose proof (rel_bounds _ _ _ _ HR) as (? & ? & ?).
  assert (inb H n (u + s)) as Hin by (unfold inb; lia).
  split; [|split; [done|]].
  { unfold get_right. rewrite (rel_size _ _ _ _ _ _ _ HR Hu). simpl.
    rewrite (rel_i32 _ _ _ _ _ HR) by lia. done. }
  destruct HR as (m & Hr & Hi & Huc). rewrite (get_free_ok _ _ _ _ _ _ Hr Hin). f_equal.
  pose proof (inv_tiles Hi) as Ht. apply tiles_app in Ht as (c & _ & Ht).
  simpl in Ht. destruct Ht as (<- & _ & Ht). destruct B as [|[v t' g] B]; simpl in *.
  - subst n. apply Hi.
  - destruct Ht as (-> & _). apply (inv_flags Hi (Seg (u + s) t' g)); set_solver.
Qed.

Lemma rel_coalescable X t ss l u : R X t ss l → inb H n u → is_coalescable t u = Val (negb (uc u)).
Proof. intros (m & Hr & _ & Huc) Hu. rewrite <-Huc by done. by eapply is_coalescable_ok. Qed.

Lemma rel_remove_if X t A B u s f l :
  R X t (A ++ Seg u s f :: B) l →
  wp (if f : bool then __remove_from_free t u else Val t)
    (λ t', R (u :: X) t' (A ++ Seg u s false :: B) (if f then drop_unit u l else l)).
Proof.
  intros HR. destruct f; [by apply rel_remove|]. simpl.
  eapply rel_stale; [|done]. set_solver.
Qed.

(** [__coalesce] makes one allocated block of all blocks from the one at [v] to
    the one at [w]; those in between are allocated. *)
Lemma rel_coalesce t A B C v sv fv w r fw l :
  R [] t (A ++ Seg v sv fv :: C ++ Seg w r fw :: B) l →
  (∀ x, x ∈ C → s_free x = false) →
  wp (__coalesce t v w)
    (λ t2, R [v] t2 (A ++ Seg v (w + r - v) false :: B)
       ((if fv then drop_unit v else id) ((if fw then drop_unit w else id) l))).
Proof.
  intros HR HC. set (ss := A ++ _) in HR.
  assert (Seg v sv fv ∈ ss) as Hv by set_solver. assert (Seg w r fw ∈ ss) as Hw by set_solver.
  pose proof (rel_block _ _ _ _ _ _ _ HR Hv). pose proof (rel_block _ _ _ _ _ _ _ HR Hw).
  assert (tiles v (w + r) (Seg v sv fv :: C ++ [Seg w r fw])) as Ht.
  { destruct HR as (m & _ & Hi & _). pose proof (inv_tiles Hi) as Ht.
    apply tiles_app in Ht as (c & _ & (<- & ? & Ht)). apply tiles_app in Ht as (d & Ht & (<- & ? & _)).
    simpl. split_and!; [done|lia|]. apply tiles_app. exists w. simpl. lia || naive_solver lia. }
  assert (v < w) as Hvw.
  { destruct Ht as (_ & ? & Ht). apply tiles_app in Ht as (d & Ht%tiles_le & (-> & _)). lia. }
  unfold __coalesce. rewrite (rel_flag _ _ _ _ _ _ _ HR Hw) by set_solver. simpl.
  subst ss. rewrite app_comm_cons, app_assoc in HR.
  wp_seq t1 HR1 by (by apply rel_remove_if).
  rewrite <-app_assoc, <-app_comm_cons in HR1.
  assert (get_free t1 v = Val fv) as ->.
  { eapply (rel_flag _ _ _ _ v sv); [done|set_solver|]. intros ->%list_elem_of_singleton. lia. }
  simpl. wp_seq t2 HR2 by (by apply rel_remove_if).
  assert (get_size t2 w = Val r) as -> by (eapply (rel_size _ _ _ _ w r false); [done|set_solver]). simpl.
  pose proof (rel_bounds _ _ _ _ HR) as (? & ? & ?).
  rewrite (rel_i32 _ _ _ _ (w - v) HR), (rel_i32 _ _ _ _ (w - v + r) HR) by lia.
  replace (w - v + r) with (w + r - v) by lia.
  destruct HR2 as (m & Hr & Hi & Huc).
  eapply wp_mono; [apply (set_size_ok _ _ _ _ _ v (w + r - v) Hr); [naive_solver|lia|lia]|].
  intros t3 Hr3. apply (rel_stale (v :: [v; w])).
  { intros x Hx. simpl in *. assert (s_start x ≠ w); [|set_solver].
    destruct Hi as [_ _ _ Htt _ _ _ _ _ _ _]. intros E.
    apply elem_of_app in Hx as [Hx|[->|Hx]%elem_of_cons]; [|simpl in E; lia|].
    - apply tiles_app in Htt as (c & HA & (<- & _)).
      apply (tiles_elem _ _ _ _ HA) in Hx. lia.
    - apply tiles_app in Htt as (c & _ & (<- & ? & Htt)).
      apply tiles_app in Htt as (d & _ & (<- & _ & Htt)).
      apply (tiles_elem _ _ _ _ Htt) in Hx. lia. }
  eexists. split_and!; [exact Hr3| |].
  - eapply (inv_merge _ _ A B (Seg v sv false :: C ++ [Seg w r false])).
    + rewrite <-app_comm_cons, <-app_assoc. destruct fv, fw; exact Hi.
    + simpl. destruct Ht as (_ & ? & Ht). split_and!; [done|lia|].
      replace (v + (w + r - v)) with (w + r) by lia.
      by apply (tiles_replace_free _ _ C [] w r fw false).
    + lia.
    + intros x. rewrite elem_of_cons, elem_of_app, list_elem_of_singleton. naive_solver.
  - by destruct (p_set_size_fields m v (w + r - v)) as (_ & _ & ->).
Qed.

(** The free-list order once the units of [[a, b)] belong to a block on its own. *)
Definition outside (a b : Z) l : list Z := filter (λ x, ¬ (a ≤ x < b)) l.

Lemma outside_drop t ss l a b D :
  R [] t ss l →
  (∀ x, x ∈ ss → s_free x = true → a ≤ s_start x < b ↔ s_start x ∈ D) →
  outside a b l = foldr drop_unit l D.
Proof.
  intros (m & _ & Hi & _) HD.
  assert (∀ x, x ∈ l → a ≤ x < b ↔ x ∈ D) as HD'.
  { intros x Hx. apply (inv_free Hi) in Hx as [s Hs]. by apply (HD (Seg x s true)). }
  transitivity (filter (λ x, x ∉ D) l).
  { unfold outside. apply filter_ext_in. intros x Hx. rewrite (HD' x Hx). done. }
  clear. induction D as [|d D IH]; simpl.
  - apply filter_all. intros x _. apply not_elem_of_nil.
  - rewrite <-IH. unfold drop_unit. rewrite list_filter_filter. apply filter_ext_in.
    intros x _. rewrite not_elem_of_cons. tauto.
Qed.

(** The [if start != end { __coalesce }] of [free]: the block at [u] and the free
    neighbours chosen for merging become one block. *)
Lemma rel_merge t A Ml Mr B u s l :
  R [] t (A ++ Ml ++ Seg u s false :: Mr ++ B) l →
  (Ml = [] ∨ ∃ v r, Ml = [Seg v r true]) → (Mr = [] ∨ ∃ v r, Mr = [Seg v r true]) →
  let start := default u (s_start <$> list.head Ml) in
  let end_ := default u (s_start <$> list.head Mr) in
  let e := default (u + s) ((λ x, s_start x + s_size x) <$> list.head Mr) in
  wp (if start =? end_ then Val t else __coalesce t start end_)
    (λ t', R [start] t' (A ++ Seg start (e - start) false :: B) (outside start e l)).
Proof.
  intros HR HMl HMr. assert (tiles 0 n (A ++ Ml ++ Seg u s false :: Mr ++ B)) as Ht.
  { destruct HR as (m & _ & Hi & _). apply Hi. }
  assert (∃ c d, tiles 0 c A ∧ tiles c d (Ml ++ Seg u s false :: Mr) ∧ tiles d n B) as (c & d & HA & HM & HB).
  { apply tiles_app in Ht as (c & ? & Ht). rewrite app_comm_cons, app_assoc in Ht.
    apply tiles_app in Ht as (d & ? & ?). eauto. }
  assert (∀ x, x ∈ A → s_start x < c) as HA' by (intros x Hx; apply (tiles_elem _ _ _ _ HA) in Hx; lia).
  assert (∀ x, x ∈ B → d ≤ s_start x) as HB' by (intros x Hx; apply (tiles_elem _ _ _ _ HB) in Hx; lia).
  destruct HMl as [->|(v & p & ->)], HMr as [->|(w & r & ->)]; simpl in *.
  - destruct HM as (-> & ? & <-). rewrite Z.eqb_refl. replace (c + s - c) with s by lia.
    rewrite (outside_drop _ _ _ _ _ [] HR); [by eapply rel_stale; [|done]; set_solver|].
    intros x Hx Hf. set_unfold. destruct Hx as [Hx|[->|Hx]]; [apply HA' in Hx; lia|done|apply HB' in Hx; lia].
  - destruct HM as (-> & ? & -> & ? & <-). destruct (Z.eqb_spec c (c + s)); [lia|].
    rewrite (outside_drop _ _ _ _ _ [c + s] HR); [apply (rel_coalesce t A B [] c s false (c + s) r true l HR); set_solver|].
    intros x Hx Hf. set_unfold. destruct Hx as [Hx|[->|[->|Hx]]]; simpl;
      [apply HA' in Hx; lia|done|lia|apply HB' in Hx; lia].
  - destruct HM as (-> & ? & -> & ? & <-). destruct (Z.eqb_spec c (c + p)); [lia|].
    rewrite (outside_drop _ _ _ _ _ [c] HR); [apply (rel_coalesce t A B [] c p true (c + p) s false l HR); set_solver|].
    intros x Hx Hf. set_unfold. destruct Hx as [Hx|[->|[->|Hx]]]; simpl;
      [apply HA' in Hx; lia|lia|done|apply HB' in Hx; lia].
  - destruct HM as (-> & ? & -> & ? & -> & ? & <-). destruct (Z.eqb_spec c (c + p + s)); [lia|].
    rewrite (outside_drop _ _ _ _ _ [c; c + p + s] HR).
    { apply (rel_coalesce t A B [Seg (c + p) s false] c p true (c + p + s) r true l HR). set_solver. }
    intros x Hx Hf. set_unfold. destruct Hx as [Hx|[->|[->|[->|Hx]]]]; simpl;
      [apply HA' in Hx; lia|lia|done|lia|apply HB' in Hx; lia].
Qed.

(** The blocks after [u] is freed: it is marked free, then merged with a free
    left neighbour and with a free right neighbour, where that is allowed. *)
Definition free_segs ss (u : Z) : list seg :=
  let s := seg_size_at ss u in
  let ss := mark_free ss u in
  let ss := if uc u then ss else join ss u in
  if uc (u + s) then ss else join ss (u + s).

(** Solves the equations between list pieces of the lemma below. *)
Ltac pieces :=
  cbv zeta; repeat match goal with E : ?x = default _ _ |- _ => rewrite <-E; clear E end; simpl; split_and!; rewrite ?app_nil_r, ?orb_true_r; try done; try lia;
  try naive_solver; repeat f_equal; lia.

(** How the neighbours of a block split off those it is merged with. *)
Lemma free_segs_split t A B u s l :
  R [] t (A ++ Seg u s false :: B) l →
  ∃ A' Ml Mr B', A = A' ++ Ml ∧ B = Mr ++ B' ∧
    (Ml = [] ∨ ∃ v r, Ml = [Seg v r true]) ∧ (Mr = [] ∨ ∃ v r, Mr = [Seg v r true]) ∧
    (Ml = [] ↔ uc u || negb (default false (s_free <$> last A))) ∧
    (Mr = [] ↔ uc (u + s) || negb (default false (s_free <$> list.head B))) ∧
    let start := default u (s_start <$> list.head Ml) in
    let e := default (u + s) ((λ x, s_start x + s_size x) <$> list.head Mr) in
    (start ≤ u ∧ u + s ≤ e) ∧
    free_segs (A ++ Seg u s false :: B) u = A' ++ Seg start (e - start) true :: B'.
Proof.
  intros HR. assert (tiles 0 n (A ++ Seg u s false :: B)) as Ht.
  { destruct HR as (m & _ & Hi & _). apply Hi. }
  assert (∀ x, x ∈ A → s_start x < u ∧ s_start x < u + s) as HA.
  { apply tiles_app in Ht as (c & HA & (-> & ? & _)). intros x Hx. apply (tiles_elem _ _ _ _ HA) in Hx. lia. }
  assert (∀ x, x ∈ B → u + s ≤ s_start x) as HB.
  { apply tiles_app in Ht as (c & _ & (-> & ? & HB)). intros x Hx. apply (tiles_elem _ _ _ _ HB) in Hx. lia. }
  assert (1 ≤ s) as Hs by (eapply (tiles_elem _ _ _ (Seg u s false) Ht); set_solver).
  assert (Seg u s false ∈ A ++ Seg u s false :: B) as Hu by set_solver.
  unfold free_segs. rewrite (seg_size_at_elem _ _ _ _ _ _ Ht Hu). clear Hu.
  rewrite mark_free_split by (intros x Hx; apply HA in Hx; lia).
  assert (∃ A' Ml, A = A' ++ Ml ∧ (Ml = [] ∨ ∃ v r, Ml = [Seg v r true]) ∧
    (Ml = [] ↔ uc u || negb (default false (s_free <$> last A))) ∧
    let start := default u (s_start <$> list.head Ml) in start ≤ u ∧
    (if uc u then A ++ Seg u s true :: B else join (A ++ Seg u s true :: B) u) =
      A' ++ Seg start (u + s - start) true :: B) as (A' & Ml & -> & HMl & HMl0 & Hst & ->).
  { destruct (uc u) eqn:Eu.
    { exists A, []. pieces. }
    destruct A as [|[v p g] A _] using rev_ind.
    { exists [], []. rewrite join_nop; [pieces|]. simpl. intros y Hy. apply HB in Hy. lia. }
    rewrite last_snoc. simpl.
    rewrite <-app_assoc in *. simpl in *. apply tiles_app in Ht as (c & _ & (-> & ? & -> & _)).
    rewrite join_split by (intros y Hy; apply HA in Hy; lia). simpl. destruct g; simpl.
    - exists A, [Seg c p true]. pieces.
    - exists (A ++ [Seg c p false]), []. rewrite <-!app_assoc. pieces. }
  remember (default u (s_start <$> list.head Ml)) as start eqn:Est.
  destruct B as [|[w r g] B].
  { assert (∀ b : bool, (if b then A' ++ [Seg start (u + s - start) true] else
        join (A' ++ [Seg start (u + s - start) true]) (u + s)) =
        A' ++ [Seg start (u + s - start) true]) as ->; [|exists A', Ml, [], []; pieces].
    intros []; [done|]. destruct A' as [|y A'].
    - rewrite join_nop; [done|]. by intros ? ?%not_elem_of_nil.
    - rewrite join_nop; [done|]. simpl. intros y' [?| ->%list_elem_of_singleton]%elem_of_app; simpl; [|lia].
      assert (y' ∈ (y :: A') ++ Ml) as Hy by set_solver. apply HA in Hy. lia. }
  assert (w = u + s) as ->.
  { rewrite tiles_app in Ht. destruct Ht as (c & _ & (-> & _ & Ht)). simpl in Ht. naive_solver. }
  simpl. destruct (uc (u + s)) eqn:Eu.
  { exists A', Ml, [], (Seg (u + s) r g :: B). pieces. }
  rewrite join_split.
  2:{ intros y [?| ->%list_elem_of_singleton]%elem_of_app; simpl; [|lia]. assert (y ∈ A' ++ Ml) as Hy by set_solver.
      apply HA in Hy. lia. }
  simpl. destruct g; simpl.
  - assert (1 ≤ r) by (eapply (tiles_elem _ _ _ (Seg (u + s) r true) Ht); set_solver).
    exists A', Ml, [Seg (u + s) r true], B. pieces.
  - exists A', Ml, [], (Seg (u + s) r false :: B). pieces.
Qed.

(** [free]: the block is given back and merged; the merged block goes to the
    front of the list, and [free] returns its size, or the size of the block. *)
Definition free_post ss l (u : Z) (coalesced : bool) (out : Z * T) : Prop :=
  ∃ start tot, Seg start tot true ∈ free_segs ss u ∧
    start ≤ u ∧ u + seg_size_at ss u ≤ start + tot ∧
    out.1 = (if coalesced then tot else seg_size_at ss u) ∧
    R [] out.2 (free_segs ss u) (start :: outside start (start + tot) l).

Lemma free_block t A B u s l b :
  R [] t (A ++ Seg u s false :: B) l →
  wp (free t u b) (free_post (A ++ Seg u s false :: B) l u b).
Proof.
  intros HR. assert (Seg u s false ∈ A ++ Seg u s false :: B) as Hu by set_solver.
  assert (seg_size_at (A ++ Seg u s false :: B) u = s) as Es.
  { destruct HR as (m & _ & Hi & _). by apply (seg_size_at_elem _ _ _ _ _ _ (inv_tiles Hi) Hu). }
  destruct (rel_left _ _ _ _ _ _ _ HR) as [EL EFL].
  destruct (rel_right _ _ _ _ _ _ _ HR) as (ER & Hin & EFR).
  pose proof (rel_block _ _ _ _ _ _ _ HR Hu) as (? & ? & ? & Hinu).
  unfold free. rewrite (rel_size _ _ _ _ _ _ _ HR Hu), EL, (rel_coalescable _ _ _ _ _ HR Hinu), ER.
  simpl. rewrite (rel_coalescable _ _ _ _ _ HR Hin). simpl.
  destruct (free_segs_split _ _ _ _ _ _ HR)
    as (A' & Ml & Mr & B' & EA & EB & HMl & HMr & IMl & IMr & [Hst He] & EF).
  assert (∀ (c f : bool) (x : Z), get_free t x = Val f →
    (if negb c then get_free t x else Val false) = Val (negb (c || negb f))) as Hfl.
  { intros [] f x Ex; [done|]. simpl. by rewrite negb_involutive. }
  rewrite (Hfl _ _ _ EFL), (Hfl _ _ _ EFR). simpl.
  assert ((if negb (uc u || negb (default false (s_free <$> last A)))
    then default (-1) (s_start <$> last A) else u) = default u (s_start <$> list.head Ml)) as ->.
  { destruct HMl as [->|(v & r & ->)].
    - destruct (uc u || _) eqn:E; [done|]. destruct IMl as [IMl _]. by specialize (IMl eq_refl).
    - destruct (uc u || _) eqn:E; [by destruct IMl as [_ IMl]; specialize (IMl I)|].
      simpl. by rewrite EA, last_snoc. }
  assert ((if negb (uc (u + s) || negb (default false (s_free <$> list.head B)))
    then u + s else u) = default u (s_start <$> list.head Mr)) as ->.
  { destruct HMr as [->|(v & r & ->)].
    - destruct (uc (u + s) || _) eqn:E; [done|]. destruct IMr as [IMr _]. by specialize (IMr eq_refl).
    - destruct (uc (u + s) || _) eqn:E; [by destruct IMr as [_ IMr]; specialize (IMr I)|].
      simpl. destruct HR as (m & _ & Hi & _). pose proof (inv_tiles Hi) as Ht.
      rewrite EB in Ht. apply tiles_app in Ht as (c & _ & (-> & _ & (-> & _))). done. }
  unfold free_post. rewrite EF, Es. rewrite EA, EB, <-app_assoc in HR.
  wp_seq t1 HR1 by (by apply rel_merge).
  set (start := default u _) in *. set (e := default (u + s) _) in *. clearbody start e.
  rewrite (rel_size [start] t1 _ _ start (e - start) false HR1) by set_solver. 
  apply wp_bind.
  assert ((if b then Val (e - start) else Val s) = Val (if b then e - start else s)) as ->
    by (by destruct b).
  simpl.
  wp_seq t2 HR2 by (by apply rel_add).
  simpl. exists start, (e - start). replace (start + (e - start)) with e by lia.
  split_and!; [set_solver|done|done|done|done].
Qed.

Lemma free_refines_elem t ss l u s b :
  R [] t ss l → Seg u s false ∈ ss → wp (free t u b) (free_post ss l u b).
Proof. intros HR (A & B & ->)%list_elem_of_split. by apply free_block. Qed.
End refine.

(** ** Building the initial list *)

Section init.
Context {T : Type} `{!FreeList T} `{!FreeListLaws T}.
Implicit Types (t : T).

(** Any table large enough describes some fields. *)
Definition fields_of t : links :=
  let lo u := match get_lo_entry t u with Val v => v | _ => 0 end in
  let hi u := match get_hi_entry t u with Val v => v | _ => 0 end in
  Links (λ u, low30 (hi u)) (λ u, bit31 (hi u)) (λ u, low30 (lo u)) (λ u, bit31 (lo u))
    (λ u, bit30 (lo u)).

Lemma reps_fields_of t n :
  fl_wf t → 1 ≤ heads t ≤ MAX_HEADS → - heads t ≤ head t ≤ -1 → 0 ≤ n ≤ MAX_UNITS →
  2 * (n + 1 + heads t) ≤ entries t → reps t (head t) (heads t) n (fields_of t).
Proof.
  intros Hwf HH Hh Hn He. split; try done. intros u Hu. destruct bounds_eqs as [E1 E2].
  unfold fields_of, entry_ok, get_lo_entry, get_hi_entry. simpl.
  rewrite (i32_id (u + heads t)) by (unfold is_i32; lia).
  rewrite Z.shiftl_mul_pow2 by lia. rewrite (i32_id (_ * _)) by (unfold is_i32; lia).
  rewrite i32_id by (unfold is_i32; lia).
  destruct (get_entry_ok t ((u + heads t) * 2 ^ 1)) as (lo & -> & ?); [done|lia|].
  destruct (get_entry_ok t ((u + heads t) * 2 ^ 1 + 1)) as (hi & -> & ?); [done|lia|].
  exists lo, hi. done.
Qed.

(** The blocks [initialize_heap] makes, in address order: whole grains and what
    is left over at the end. *)
Definition grains (g k : Z) : list seg := (λ i, Seg (i * g) g true) <$> seqZ 0 k.
Definition init_segs (n g : Z) : list seg :=
  grains g (n `div` g) ++
  (if 0 <? n `mod` g then [Seg (n - n `mod` g) (n `mod` g) true] else []).

Context (h H n : Z).

Lemma sentinels_ok t m :
  reps t h H n m →
  wp (for_each (λ t i, set_sentinel t (- i)) (seqZ 1 H) t)
    (λ t', ∃ m', reps t' h H n m' ∧
      (∀ u, - H ≤ u ≤ -1 → nxt m' u = low30 u ∧ prv m' u = low30 u ∧ multi m' u = false ∧
         isfree m' u = false ∧ unco m' u = false) ∧
      ∀ u, 0 ≤ u → unco m' u = unco m u).
Proof.
  intros Hr. pose proof (reps_bounds _ _ _ _ _ Hr) as (? & ? & ?).
  set (I := λ (L : list Z) t', ∃ m', reps t' h H n m' ∧
    (∀ u, - u ∈ L → nxt m' u = low30 u ∧ prv m' u = low30 u ∧ multi m' u = false ∧
       isfree m' u = false ∧ unco m' u = false) ∧
    ∀ u, 0 ≤ u → unco m' u = unco m u).
  apply (wp_mono _ (I (seqZ 1 H))).
  2:{ intros t' (m' & ? & Hs & ?). exists m'. split_and!; [done| |done]. intros u Hu.
      apply Hs. apply elem_of_seqZ. lia. }
  apply (wp_for_each _ I).
  { exists m. split_and!; [done| |done]. by intros u ?%not_elem_of_nil. }
  intros l1 i l2 t1 E (m1 & Hr1 & Hs & Hu1).
  assert (1 ≤ i ≤ H) as Hi. { assert (i ∈ seqZ 1 H) as Hi by (rewrite E; set_solver).
    apply elem_of_seqZ in Hi. lia. }
  eapply wp_mono; [apply (set_sentinel_ok _ _ _ _ _ _ Hr1); unfold inb; lia|]. cbv beta.
  intros t2 Hr2. exists (p_set_sentinel m1 (- i)). split_and!; [done| |].
  - intros u Hu. destruct (decide (u = - i)) as [->|Hne]; simpl.
    + by rewrite !fn_lookup_insert.
    + rewrite !fn_lookup_insert_ne by done. apply Hs. apply elem_of_app in Hu as [?|Hu]; [done|].
      apply list_elem_of_singleton in Hu. lia.
  - intros u Hu. simpl. rewrite fn_lookup_insert_ne by lia. auto.
Qed.

(** The state after the sentinels: no blocks yet, an empty list. *)
Lemma inv_empty m :
  - MAX_HEADS ≤ h ≤ -1 → 0 ≤ n ≤ MAX_UNITS →
  nxt m h = low30 h → prv m h = low30 h → multi m (-1) = false → isfree m (-1) = false →
  isfree m n = false → invX n [] h n m [] [].
Proof.
  intros Hh Hn En Ep ? ? ?. split; try done; try lia.
  - by intros x ?%not_elem_of_nil.
  - by intros x ?%not_elem_of_nil.
  - simpl. split; [|done]. unfold link, p_next, p_prev. rewrite En, Ep.
    rewrite (enc_target h Hh h) by (by left). done.
  - constructor.
  - intros u. split; [by intros ?%not_elem_of_nil|]. by intros [s ?%not_elem_of_nil].
Qed.

(** One step of the loop: a block is made below the others and listed. *)
Lemma init_step t m a g ss l :
  reps t h H n m → invX a [] h n m ss l → 1 ≤ g ≤ a →
  wp (t ← set_size t (a - g) g; add_to_free t (a - g))
    (λ t', ∃ m', reps t' h H n m' ∧
       invX (a - g) [] h n m' (Seg (a - g) g true :: ss) (a - g :: l) ∧ unco m' = unco m).
Proof.
  intros Hr Hi Hg. pose proof (reps_bounds _ _ _ _ _ Hr) as (? & ? & ?).
  pose proof (tiles_le _ _ _ (inv_tiles Hi)).
  wp_seq t1 Hr1 by (apply (set_size_ok _ _ _ _ _ _ _ Hr); [unfold inb; lia|lia|lia]).
  pose proof (inv_extend _ _ _ _ Hi Hg) as Hi1.
  pose proof (inv_size _ _ (a - g) g false Hi1 ltac:(constructor)) as Hsz.
  eapply wp_mono; [apply (add_to_free_ok _ _ _ _ _ (a - g) Hr1)|]; try lia.
  - apply (inv_links_inb _ _ _ _ H Hi1); [lia|constructor].
  - intros t' Hr'. eexists. split_and!; [exact Hr'|by apply (inv_push _ [])|].
    simpl. destruct (p_set_free_fields (p_set_size m (a - g) g) (a - g) true) as (_ & _ & _ & ->).
    by destruct (p_set_size_fields m (a - g) g) as (_ & _ & ->).
Qed.

Lemma grains_S g (k : nat) : grains g (Z.of_nat (S k)) = grains g (Z.of_nat k) ++ [Seg (Z.of_nat k * g) g true].
Proof.
  unfold grains. rewrite Nat2Z.inj_succ. rewrite <-Z.add_1_r, seqZ_app, fmap_app by lia. done.
Qed.

Lemma init_loop_ok t m g ss l (k fuel : nat) :
  reps t h H n m → invX (Z.of_nat k * g) [] h n m ss l → 1 ≤ g < 2 ^ 31 → (k < fuel)%nat →
  wp (init_loop fuel t (Z.of_nat k * g - g) g)
    (λ t', ∃ m', reps t' h H n m' ∧
       invX 0 [] h n m' (grains g (Z.of_nat k) ++ ss) ((s_start <$> grains g (Z.of_nat k)) ++ l) ∧ unco m' = unco m).
Proof.
  intros Hr Hi Hg. revert t m ss l fuel Hr Hi.
  induction k as [|k IH]; intros t m ss l fuel Hr Hi Hf; destruct fuel as [|fuel]; try lia;
    cbn [init_loop].
  - destruct (Z.leb_spec 0 (Z.of_nat 0 * g - g)); [lia|]. by exists m.
  - destruct (Z.leb_spec 0 (Z.of_nat (S k) * g - g)); [|lia].
    apply wp_assoc. 
    wp_seq t1 H1 by (apply (init_step t m (Z.of_nat (S k) * g)); [done|done|lia]).
    destruct H1 as (m1 & Hr1 & Hi1 & Hu1).
    pose proof (reps_bounds _ _ _ _ _ Hr) as (? & ? & ?). destruct bounds_eqs as [E1 E2].
    pose proof (tiles_le _ _ _ (inv_tiles Hi)).
    rewrite i32_id by (unfold is_i32; lia).
    replace (Z.of_nat (S k) * g - g) with (Z.of_nat k * g) in * by lia.
    eapply wp_mono; [by apply (IH t1 m1 _ _ fuel Hr1 Hi1); lia|]. cbv beta.
    intros t2 (m2 & Hr2 & Hi2 & Hu2). exists m2. split_and!; [done| |congruence].
    rewrite grains_S, fmap_app, <-!app_assoc. done.
Qed.

Lemma div_small_eq x y : 0 ≤ x → 1 ≤ y → x = y * (x `div` y) + x `mod` y ∧ 0 ≤ x `mod` y < y ∧ 0 ≤ x `div` y.
Proof.
  intros. pose proof (Z.div_mod x y ltac:(lia)). pose proof (Z.mod_pos_bound x y ltac:(lia)).
  pose proof (Z.div_pos x y). lia.
Qed.

(** [initialize_heap] over any table that is large enough. *)
Lemma initialize_heap_rel t g uc fuel :
  fl_wf t → heads t = H → head t = h → 1 ≤ H ≤ MAX_HEADS → - H ≤ h ≤ -1 →
  0 ≤ n ≤ MAX_UNITS → 2 * (n + 1 + H) ≤ entries t → 1 ≤ g < 2 ^ 31 →
  (∀ u, 0 ≤ u < n → is_coalescable t u = Val (negb (uc u))) →
  (∀ u, uc u = true → 0 ≤ u < n) →
  (Z.to_nat (n `div` g) < fuel)%nat →
  wp (initialize_heap fuel t n g)
    (λ t', fl_rel t' h H n uc (init_segs n g) (s_start <$> init_segs n g)).
Proof.
  intros Hwf EH Eh HH Hh Hn He Hg Huc Huc' Hf. destruct bounds_eqs as [E1 E2].
  assert (reps t h H n (fields_of t)) as Hr by (rewrite <-Eh, <-EH in *; by apply reps_fields_of).
  unfold initialize_heap. rewrite EH.
  wp_seq t1 H1 by (by apply sentinels_ok). destruct H1 as (m1 & Hr1 & Hs1 & Hu1).
  wp_seq t2 Hr2 by (apply (set_sentinel_ok _ _ _ _ _ _ Hr1); unfold inb; lia).
  destruct (Z.eqb_spec g 0); [lia|]. set (m2 := p_set_sentinel m1 n) in *.
  assert (invX n [] h n m2 [] []) as Hi2.
  { apply inv_empty; try lia; subst m2; simpl; rewrite ?fn_lookup_insert, ?fn_lookup_insert_ne by lia;
      try done; apply Hs1; lia. }
  assert (∀ m', unco m' = unco m2 → ∀ v, inb H n v → unco m' v = uc v) as Hun.
  { intros m' -> v Hv. subst m2. simpl. destruct (decide (v = n)) as [->|Hvn].
    - rewrite fn_lookup_insert. destruct (uc n) eqn:E; [apply Huc' in E; lia|done].
    - rewrite fn_lookup_insert_ne by done. unfold inb in Hv. destruct (decide (0 ≤ v)).
      + rewrite Hu1 by lia. assert (inb H n v) as Hv' by (unfold inb; lia).
        specialize (Huc v ltac:(lia)). rewrite (is_coalescable_ok _ _ _ _ _ _ Hr Hv') in Huc.
        injection Huc. by destruct (unco _ v), (uc v).
      + destruct (Hs1 v ltac:(lia)) as (_ & _ & _ & _ & ->).
        destruct (uc v) eqn:E; [apply Huc' in E; lia|done]. }
  rewrite Z.rem_mod_nonneg by lia.
  destruct (div_small_eq n g ltac:(lia) ltac:(lia)) as (En & ? & ?).
  set (q := n `div` g) in *. set (r := n `mod` g) in *.
  rewrite (i32_id (n - r)) by (unfold is_i32; lia).
  rewrite (i32_id (n - r - g)) by (unfold is_i32; lia).
  set (tl := if 0 <? r then [Seg (n - r) r true] else []).
  apply wp_bind. apply (wp_mono _ (λ t', ∃ m', reps t' h H n m' ∧
    invX (n - r) [] h n m' tl (s_start <$> tl) ∧ unco m' = unco m2)).
  { subst tl. destruct (Z.ltb_spec 0 r); simpl.
    - apply (init_step t2 m2 n r [] []); [done|done|lia].
    - exists m2. replace (n - r) with n by lia. done. }
  intros t3 (m3 & Hr3 & Hi3 & Hu3).
  assert (n - r = Z.of_nat (Z.to_nat q) * g) as Ek by lia. rewrite Ek in Hi3 |- *.
  eapply wp_mono; [by apply (init_loop_ok _ _ _ _ _ (Z.to_nat q) fuel Hr3 Hi3)|]. cbv beta.
  intros t4 (m4 & Hr4 & Hi4 & Hu4). exists m4. split_and!; [done| |apply Hun; congruence].
  rewrite Z2Nat.id in Hi4 by lia. unfold init_segs. rewrite fmap_app. done.
Qed.
End init.
