(* ===== verification/FreeListClient.v ===== *)
(** * Clients of a free list

    A client allocates blocks and gives back blocks it was handed.  Over any
    implementation that satisfies [FreeListLaws], no call panics or loops, and
    the blocks the client holds never overlap. *)

From S2P Require Import Prelude FreeList FreeListModel FreeListSpec FreeListInv FreeListRefine.

Lemma tiles_nodup a b ss : tiles a b ss → NoDup ss.
Proof.
  revert a. induction ss as [|[u s f] ss IH]; intros a Ht; [constructor|].
  destruct Ht as (-> & ? & Ht). constructor; [|by eapply IH].
  intros Hx. apply (tiles_elem _ _ _ _ Ht) in Hx. simpl in Hx. lia.
Qed.

Section client.
Context {T : Type} `{!FreeList T} `{!FreeListLaws T}.
Context (h H n : Z) (uc : Z → bool).
Implicit Types (t : T) (ss : list seg) (l : list Z).

Abbreviation R t ss l := (fl_rel t h H n uc ss l).

(** A free list of [n] units has at most [n] nodes. *)
Lemma rel_length t ss l : R t ss l → (length l ≤ Z.to_nat n)%nat.
Proof.
  intros (m & _ & Hi & _).
  assert (length (seqZ 0 n) = Z.to_nat n) as <- by apply length_seqZ.
  apply submseteq_length, NoDup_submseteq; [apply Hi|].
  intros u Hu. apply elem_of_seqZ. eapply inv_list_bound in Hu; [|done]. lia.
Qed.

Lemma rel_tiles t ss l : R t ss l → tiles 0 n ss.
Proof. intros (m & _ & Hi & _). apply Hi. Qed.

(** Allocation leaves the other allocated blocks alone. *)
Lemma carve_keeps t ss l u size x :
  R t ss l → u ∈ l → 1 ≤ size ≤ seg_size_at ss u →
  Seg u size false ∈ carve ss u size ∧ (x ∈ ss → s_free x = false → x ∈ carve ss u size).
Proof.
  intros HR Hu Hs. destruct (rel_listed_split _ _ _ _ _ _ _ _ _ HR Hu) as (A & B & E).
  set (s := seg_size_at ss u) in *. clearbody s. subst ss.
  rewrite carve_split.
  2:{ intros y Hy. destruct HR as (m & _ & Hi & _). eapply inv_ne_start; [done|set_solver]. }
  destruct (Z.ltb_spec size s).
  - split; [set_solver|]. intros Hx Hf. set_unfold. naive_solver.
  - assert (size = s) as -> by lia. split; [set_solver|]. intros Hx Hf. set_unfold. naive_solver.
Qed.

Lemma free_keeps t ss l u s x :
  R t ss l → Seg u s false ∈ ss → x ∈ ss → s_free x = false → s_start x ≠ u →
  x ∈ free_segs uc ss u.
Proof.
  intros HR (A & B & ->)%list_elem_of_split Hx Hf Hne.
  destruct (free_segs_split _ _ _ _ _ _ _ _ _ _ HR)
    as (A' & Ml & Mr & B' & -> & -> & HMl & HMr & _ & _ & _ & ->).
  assert (x ∉ Ml) by (destruct HMl as [->|(?&?&->)]; [set_solver|]; intros ->%list_elem_of_singleton; done).
  assert (x ∉ Mr) by (destruct HMr as [->|(?&?&->)]; [set_solver|]; intros ->%list_elem_of_singleton; done).
  assert (x ≠ Seg u s false) by (intros ->; done). set_solver.
Qed.

(** The blocks a client holds, as (start, size). *)
Definition held ss (live : list (Z * Z)) : Prop :=
  NoDup live ∧ ∀ u s, (u, s) ∈ live → Seg u s false ∈ ss.

(** One call of a client. *)
Inductive call : Type :=
| CAlloc (best_fit : bool) (size : Z)
| CFree (i : nat) (coalesced : bool).

(** [do_call]: the new table and the blocks held afterwards.  [CFree i] gives
    back the [i]-th block held; it does nothing when there is none. *)
Definition do_call (fuel : nat) (c : call) (st : T * list (Z * Z)) : res (T * list (Z * Z)) :=
  let '(t, live) := st in
  match c with
  | CAlloc bf size =>
    '(u, t) ← alloc bf fuel t size;
    Val (t, if u =? FAILURE then live else (u, size) :: live)
  | CFree i b =>
    match live !! i with
    | Some (u, _) => '(_, t) ← free t u b; Val (t, delete i live)
    | None => Val st
    end
  end.

Definition valid_call (c : call) : Prop :=
  match c with CAlloc _ size => 1 ≤ size | CFree _ _ => True end.

Definition state_ok (st : T * list (Z * Z)) : Prop :=
  ∃ ss l, R st.1 ss l ∧ held ss st.2.

Lemma alloc_post_ok t ss l live size choice out :
  R t ss l → held ss live → 1 ≤ size →
  (∀ u, choice = Some u → u ∈ l ∧ size ≤ seg_size_at ss u) →
  alloc_post h H n uc ss l size choice t out →
  state_ok (out.2, if out.1 =? FAILURE then live else (out.1, size) :: live).
Proof.
  intros HR [Hnd Hl] Hs Hc. destruct choice as [u|]; simpl.
  - intros [-> HR']. destruct (Hc u eq_refl) as [Hu Hfit].
    pose proof (rel_listed _ _ _ _ _ _ _ _ _ HR Hu) as [_ Hseg].
    pose proof (tiles_elem _ _ _ _ (rel_tiles _ _ _ HR) Hseg). simpl in *.
    destruct (Z.eqb_spec u FAILURE); [unfold FAILURE in *; lia|].
    eexists _, _. split; [exact HR'|].
    assert (∀ x, _) as Hk by (intros x; apply (carve_keeps t ss l u size x HR Hu); lia).
    split; simpl.
    + constructor; [|done]. intros Hin%Hl.
      pose proof (tiles_start_inj _ _ _ _ _ (rel_tiles _ _ _ HR) Hin Hseg eq_refl). congruence.
    + intros v r [[= -> ->]|Hv]%elem_of_cons; [exact (proj1 (Hk (Seg u size false)))|].
      apply (proj2 (Hk (Seg v r false))); auto.
  - intros ->. simpl. exists ss, l. done.
Qed.

Lemma alloc_state t ss l live bf size fuel :
  R t ss l → held ss live → 1 ≤ size → (Z.to_nat n < fuel)%nat →
  wp (alloc bf fuel t size)
    (λ out, state_ok (out.2, if out.1 =? FAILURE then live else (out.1, size) :: live)).
Proof.
  intros HR Hl Hs Hf. pose proof (rel_length _ _ _ HR). unfold alloc. destruct bf.
  - eapply wp_mono; [apply (alloc_best_fit_refines h H n uc t ss l); [done|done|lia]|].
    intros out (choice & Hc & Hp). eapply alloc_post_ok; [done..| |done].
    intros u ->. destruct Hc as (? & ? & _). done.
  - eapply wp_mono; [apply (alloc_first_fit_refines h H n uc t ss l); [done|done|lia]|].
    intros out Hp. eapply alloc_post_ok; [done..| |done]. intros u. apply first_fit_Some.
Qed.

Lemma do_call_ok fuel c st :
  state_ok st → valid_call c → (Z.to_nat n < fuel)%nat → wp (do_call fuel c st) state_ok.
Proof.
  destruct st as [t live]. intros (ss & l & HR & Hl) Hc Hf. simpl in HR, Hl. destruct c as [bf size|i b]; simpl in *.
  - apply wp_bind. eapply wp_mono; [by apply (alloc_state t ss l live)|]. by intros [u t'].
  - destruct (live !! i) as [[u s]|] eqn:E; [|by exists ss, l].
    destruct Hl as [Hnd Hl]. pose proof (Hl u s (list_elem_of_lookup_2 _ _ _ E)) as Hu.
    apply wp_bind. eapply wp_mono; [by apply (free_refines_elem h H n uc t ss l u s)|].
    intros [freed t'] (start & tot & _ & _ & _ & _ & HR'). simpl in *. eexists _, _. split; [exact HR'|].
    rewrite (delete_take_drop live i).
    rewrite <-(take_drop_middle _ _ _ E) in Hnd. apply NoDup_app in Hnd as (? & Hd & [Hni ?]%NoDup_cons).
    assert (∀ v r, (v, r) ∈ take i live ++ drop (S i) live → (v, r) ∈ live ∧ (v, r) ≠ (u, s)) as Hsub.
    { intros v r Hv. rewrite <-(take_drop_middle _ _ _ E).
      split; [set_solver|]. intros [= -> ->]. apply elem_of_app in Hv as [Hv|Hv]; [|done].
      apply (Hd _ Hv). constructor. }
    split; simpl.
    + apply NoDup_app. split_and!; [done|set_solver|done].
    + intros v r Hv. apply Hsub in Hv as [Hv Hne]. apply (free_keeps t ss l u s); auto.
      simpl. intros ->. pose proof (tiles_start_inj _ _ _ _ _ (rel_tiles _ _ _ HR) (Hl _ _ Hv) Hu eq_refl).
      congruence.
Qed.

Lemma calls_ok fuel cs st :
  state_ok st → Forall valid_call cs → (Z.to_nat n < fuel)%nat →
  wp (for_each (λ st c, do_call fuel c st) cs st) state_ok.
Proof.
  intros Hst Hcs Hf. rewrite Forall_forall in Hcs. apply (wp_for_each _ (λ _, state_ok)); [done|].
  intros cs1 c cs2 st1 -> Hst1. apply do_call_ok; [done| |done]. apply Hcs. set_solver.
Qed.

(** Blocks held at the same time. *)
Definition disjoint_blocks (live : list (Z * Z)) : Prop :=
  ∀ i j u s v r, live !! i = Some (u, s) → live !! j = Some (v, r) → i ≠ j →
    u + s ≤ v ∨ v + r ≤ u.

Lemma state_ok_disjoint st :
  state_ok st → disjoint_blocks st.2 ∧ ∀ u s, (u, s) ∈ st.2 → 0 ≤ u ∧ 1 ≤ s ∧ u + s ≤ n.
Proof.
  destruct st as [t live]. intros (ss & l & HR & Hnd & Hl). simpl in *.
  pose proof (rel_tiles _ _ _ HR) as Ht. split.
  - intros i j u s v r Hi Hj Hij.
    pose proof (Hl _ _ (list_elem_of_lookup_2 _ _ _ Hi)) as Hu.
    pose proof (Hl _ _ (list_elem_of_lookup_2 _ _ _ Hj)) as Hv.
    destruct (tiles_disjoint _ _ _ _ _ Ht Hu Hv) as [E|]; [|simpl in *; lia].
    simplify_eq. destruct Hij. by eapply NoDup_lookup.
  - intros u s Hu%Hl. by apply (tiles_elem _ _ _ _ Ht) in Hu.
Qed.
End client.
