(* ===== verification/IntArrayFreeList.v ===== *)
(** * [IntArrayFreeList] (src/src/util/int_array_freelist.rs)

    A free list over a [Vec<i32>].  A list made by [from_parent] has no table of
    its own: it holds a pointer to its parent, and every access to its table goes
    to the table of the root of the chain.  The objects live in a store, so that
    this sharing is explicit; a value of the type is a reference into the store. *)

From S2P Require Import Prelude FreeList FreeListModel FreeListSpec FreeListInv FreeListRefine FreeListClient.

Record IntArrayFreeList : Type := IAFL {
  iafl_head : Z;
  iafl_heads : Z;
  iafl_table : option (list Z);
  iafl_parent : option positive
}.

(** The objects that exist, and [&self]. *)
Abbreviation store := (gmap positive IntArrayFreeList).
Abbreviation iafl_ref := (gmap positive IntArrayFreeList * positive)%type.

(** [table()] and [table_mut()]: the object that owns the table.  A chain of
    parents visits an object at most once, so one step per object is enough. *)
Fixpoint table_owner (fuel : nat) (σ : store) (p : positive) : res positive :=
  match fuel with
  | O => NoFuel
  | S fuel =>
    match σ !! p with
    | None => Panic
    | Some o => match iafl_parent o with Some q => table_owner fuel σ q | None => Val p end
    end
  end.

Definition table (r : iafl_ref) : res (list Z) :=
  p ← table_owner (S (base.size (dom r.1))) r.1 r.2;
  o ← unwrap (r.1 !! p);
  unwrap (iafl_table o).

Definition set_table (r : iafl_ref) (v : list Z) : res iafl_ref :=
  p ← table_owner (S (base.size (dom r.1))) r.1 r.2;
  o ← unwrap (r.1 !! p);
  _ ← unwrap (iafl_table o);
  Val (<[p := IAFL (iafl_head o) (iafl_heads o) (Some v) (iafl_parent o)]> r.1, r.2).

(** Indexing a [Vec] with [index as usize]. *)
Definition vec_get (v : list Z) (index : Z) : res Z :=
  if 0 <=? index then unwrap (v !! Z.to_nat index) else Panic.
Definition vec_set (v : list Z) (index value : Z) : res (list Z) :=
  if (0 <=? index) && (index <? Z.of_nat (length v))
  then Val (<[Z.to_nat index := value]> v) else Panic.

Definition iafl_get_entry (r : iafl_ref) (index : Z) : res Z :=
  v ← table r; vec_get v index.
Definition iafl_set_entry (r : iafl_ref) (index value : Z) : res iafl_ref :=
  v ← table r; v ← vec_set v index value; set_table r v.

#[export] Instance iafl_FreeList : FreeList iafl_ref := {
  head r := default 0 (iafl_head <$> r.1 !! r.2);
  heads r := default 0 (iafl_heads <$> r.1 !! r.2);
  get_entry := iafl_get_entry;
  set_entry := iafl_set_entry
}.

(** A fresh reference for a new object. *)
Definition alloc_obj (σ : store) (o : IntArrayFreeList) : iafl_ref :=
  let p := fresh (dom σ) in (<[p := o]> σ, p).

Definition table_len (units heads : Z) : Z := ushl 64 (units +u 1 +u heads) 1.

Definition new (fuel : nat) (σ : store) (units grain heads : Z) : res iafl_ref :=
  let r := alloc_obj σ (IAFL (-1) (i32 heads) (Some (replicate (Z.to_nat (table_len units heads)) 0)) None) in
  initialize_heap fuel r (i32 units) grain.

Definition from_parent (r : iafl_ref) (ordinal : Z) : iafl_ref :=
  alloc_obj r.1 (IAFL (i32 (- i32 (1 + ordinal))) (heads r) None (Some r.2)).

Definition get_ordinal (r : iafl_ref) : Z := i32 (i32 (- head r) - 1).

Definition resize_freelist (fuel : nat) (r : iafl_ref) (units grain : Z) : res iafl_ref :=
  r ← set_table r (replicate (Z.to_nat (table_len units (uwrap 64 (heads r)))) 0);
  initialize_heap fuel r (i32 units) grain.

(** ** The laws of [FreeList] hold *)

(** The reference reaches an object that owns a table of [i32]s. *)
Definition iafl_wf (r : iafl_ref) : Prop :=
  ∃ p o v, table_owner (S (base.size (dom r.1))) r.1 r.2 = Val p ∧ r.1 !! p = Some o ∧
    iafl_table o = Some v ∧ iafl_parent o = None ∧ Forall is_i32 v.

Definition iafl_entries (r : iafl_ref) : Z :=
  match table r with Val v => Z.of_nat (length v) | _ => 0 end.

(** Replacing an object by one with the same parent keeps every chain. *)
Lemma table_owner_insert fuel σ p q o o' :
  σ !! q = Some o → iafl_parent o' = iafl_parent o →
  table_owner fuel (<[q := o']> σ) p = table_owner fuel σ p.
Proof.
  intros Hq Hp. revert p. induction fuel as [|fuel IH]; intros p; [done|]. simpl.
  destruct (decide (p = q)) as [->|].
  - rewrite lookup_insert_eq, Hq, Hp. destruct (iafl_parent o); [apply IH|done].
  - rewrite lookup_insert_ne by done. destruct (σ !! p) as [o2|]; [|done].
    destruct (iafl_parent o2); [apply IH|done].
Qed.

Lemma table_wf r : iafl_wf r → ∃ v, table r = Val v ∧ Forall is_i32 v.
Proof.
  intros (p & o & v & Hp & Ho & Hv & _ & Hi). exists v. split; [|done].
  unfold table. rewrite Hp. simpl. rewrite Ho. simpl. by rewrite Hv.
Qed.

Lemma set_table_wf r v :
  iafl_wf r → Forall is_i32 v →
  ∃ r', set_table r v = Val r' ∧ iafl_wf r' ∧ head r' = head r ∧ heads r' = heads r ∧
    table r' = Val v.
Proof.
  intros (p & o & v0 & Hp & Ho & Hv & Hpar & Hi) Hvi. unfold set_table. rewrite Hp. simpl.
  rewrite Ho. simpl. rewrite Hv. simpl. eexists. split; [done|].
  set (o' := IAFL _ _ _ _). set (σ' := <[p := o']> r.1).
  assert (base.size (dom σ') = base.size (dom r.1)) as Es.
  { unfold σ'. rewrite dom_insert_L. f_equal. apply elem_of_dom_2 in Ho. set_solver. }
  assert (table_owner (S (base.size (dom σ'))) σ' r.2 = Val p) as Hp'.
  { rewrite Es. unfold σ'. by erewrite table_owner_insert. }
  assert (σ' !! p = Some o') as Ho' by apply lookup_insert_eq.
  split_and!.
  - exists p, o', v. done.
  - simpl. unfold σ'. destruct (decide (r.2 = p)) as [->|].
    + by rewrite lookup_insert_eq, Ho.
    + by rewrite lookup_insert_ne.
  - simpl. unfold σ'. destruct (decide (r.2 = p)) as [->|].
    + by rewrite lookup_insert_eq, Ho.
    + by rewrite lookup_insert_ne.
  - unfold table. change (σ', r.2).1 with σ'. change (σ', r.2).2 with r.2.
    rewrite Hp'. simpl. by rewrite Ho'.
Qed.

Lemma vec_get_ok v i :
  Forall is_i32 v → 0 ≤ i < Z.of_nat (length v) → ∃ x, vec_get v i = Val x ∧ is_i32 x.
Proof.
  intros Hv Hi. unfold vec_get. destruct (Z.leb_spec 0 i); [|lia].
  destruct (lookup_lt_is_Some_2 v (Z.to_nat i)) as [x Hx]; [lia|]. rewrite Hx.
  exists x. split; [done|]. by eapply Forall_lookup_1.
Qed.

Lemma vec_get_set v i j x :
  0 ≤ i < Z.of_nat (length v) → 0 ≤ j →
  vec_get (<[Z.to_nat i := x]> v) j = if decide (j = i) then Val x else vec_get v j.
Proof.
  intros Hi Hj. unfold vec_get. destruct (Z.leb_spec 0 j); [|lia]. case_decide as E.
  - subst. by rewrite list_lookup_insert_eq by lia.
  - rewrite list_lookup_insert_ne; [done|lia].
Qed.

#[export] Program Instance iafl_Laws : FreeListLaws iafl_ref := {
  entries := iafl_entries;
  fl_wf := iafl_wf
}.
Next Obligation.
  intros r i Hwf Hi. destruct (table_wf r Hwf) as (v & Hv & Hvi).
  unfold iafl_entries in Hi. simpl. unfold iafl_get_entry. rewrite Hv in *. simpl. by apply vec_get_ok.
Qed.
Next Obligation.
  intros r i x Hwf Hi Hx. destruct (table_wf r Hwf) as (v & Hv & Hvi).
  unfold iafl_entries in *. simpl. unfold iafl_set_entry. rewrite Hv in *. simpl in *.
  unfold vec_set. destruct (Z.leb_spec 0 i); [|lia].
  destruct (Z.ltb_spec i (Z.of_nat (length v))); [|lia]. simpl.
  destruct (set_table_wf r (<[Z.to_nat i := x]> v)) as (r' & Hr' & Hwf' & Hh & HH & Ht).
  { done. } { by apply Forall_insert. }
  exists r'. rewrite Hr', Ht. split_and!; [done..|by rewrite length_insert|].
  intros j Hj. unfold iafl_get_entry. rewrite Ht, Hv. simpl. apply vec_get_set; lia.
Qed.

(** ** Construction *)

Lemma alloc_obj_root σ o v :
  iafl_table o = Some v → iafl_parent o = None → Forall is_i32 v →
  let r := alloc_obj σ o in
  iafl_wf r ∧ table r = Val v ∧ head r = iafl_head o ∧ heads r = iafl_heads o.
Proof.
  intros Hv Hp Hi r. assert (r.1 !! r.2 = Some o) as Ho by apply lookup_insert_eq.
  clearbody r.
  assert (table_owner (S (base.size (dom r.1))) r.1 r.2 = Val r.2) as Hown.
  { cbn [table_owner]. by rewrite Ho, Hp. }
  split_and!.
  - exists r.2, o, v. done.
  - unfold table. rewrite Hown. cbn. rewrite Ho. cbn. by rewrite Hv.
  - cbn. by rewrite Ho.
  - cbn. by rewrite Ho.
Qed.

Lemma table_len_ok units heads :
  0 ≤ units ≤ MAX_UNITS → 0 ≤ heads ≤ MAX_HEADS → table_len units heads = 2 * (units + 1 + heads).
Proof.
  destruct bounds_eqs as [-> ->]. intros ? ?. unfold table_len, ushl, uadd.
  rewrite (uwrap_id 64 (units + 1)), (uwrap_id 64 (units + 1 + heads)) by lia. rewrite Z.shiftl_mul_pow2 by lia. rewrite uwrap_id; lia.
Qed.

Lemma Forall_zeros k : Forall is_i32 (replicate k 0).
Proof. apply Forall_replicate. unfold is_i32. lia. Qed.

(** Over a zeroed table of the right length, [initialize_heap] builds the list. *)
Lemma init_zeroed fuel r h H n g :
  iafl_wf r → head r = h → heads r = H →
  table r = Val (replicate (Z.to_nat (2 * (n + 1 + H))) 0) →
  1 ≤ H ≤ MAX_HEADS → - H ≤ h ≤ -1 → 0 ≤ n ≤ MAX_UNITS → 1 ≤ g < 2 ^ 31 →
  (Z.to_nat (n `div` g) < fuel)%nat →
  wp (initialize_heap fuel r n g)
    (λ r', fl_rel r' h H n (λ _, false) (init_segs n g) (s_start <$> init_segs n g)).
Proof.
  intros Hwf Hh HH Ht HHb Hhb Hn Hg Hf.
  assert (iafl_entries r = 2 * (n + 1 + H)) as He.
  { unfold iafl_entries. rewrite Ht, length_replicate. lia. }
  apply initialize_heap_rel; try done.
  { simpl. lia. }
  intros u Hu. unfold is_coalescable, get_lo_entry. destruct bounds_eqs as [E1 E2].
  rewrite HH, (i32_id (u + H)) by (unfold is_i32; lia).
  rewrite Z.shiftl_mul_pow2, i32_id by (unfold is_i32; lia).
  simpl. unfold iafl_get_entry. rewrite Ht. simpl. unfold vec_get.
  destruct (Z.leb_spec 0 ((u + H) * 2 ^ 1)); [|lia].
  rewrite lookup_replicate_2 by lia. done.
Qed.

Lemma new_rel fuel σ units grain H :
  0 ≤ units ≤ MAX_UNITS → 1 ≤ H ≤ MAX_HEADS → 1 ≤ grain < 2 ^ 31 →
  (Z.to_nat (units `div` grain) < fuel)%nat →
  wp (new fuel σ units grain H)
    (λ r, fl_rel r (-1) H units (λ _, false) (init_segs units grain) (s_start <$> init_segs units grain)).
Proof.
  intros Hu HH Hg Hf. destruct bounds_eqs as [E1 E2]. unfold new.
  rewrite table_len_ok, !i32_id by (unfold is_i32; lia).
  set (o := IAFL _ _ _ _). set (v := replicate _ _) in *.
  destruct (alloc_obj_root σ o v) as (? & ? & ? & ?); [done|done|apply Forall_zeros|].
  apply init_zeroed; try done; lia.
Qed.

Lemma resize_rel fuel r h H units grain :
  iafl_wf r → head r = h → heads r = H →
  0 ≤ units ≤ MAX_UNITS → 1 ≤ H ≤ MAX_HEADS → - H ≤ h ≤ -1 → 1 ≤ grain < 2 ^ 31 →
  (Z.to_nat (units `div` grain) < fuel)%nat →
  wp (resize_freelist fuel r units grain)
    (λ r, fl_rel r h H units (λ _, false) (init_segs units grain) (s_start <$> init_segs units grain)).
Proof.
  intros Hwf Hh HH Hu HHb Hhb Hg Hf. destruct bounds_eqs as [E1 E2]. unfold resize_freelist.
  rewrite HH, (uwrap_id 64 H), table_len_ok, i32_id by (unfold is_i32; lia).
  destruct (set_table_wf r (replicate (Z.to_nat (2 * (units + 1 + H))) 0) Hwf (Forall_zeros _))
    as (r' & -> & ? & ? & ? & ?). simpl. apply init_zeroed; congruence || lia.
Qed.

(** ** Sharing *)

Lemma table_owner_mono f1 f2 σ p q :
  table_owner f1 σ p = Val q → (f1 ≤ f2)%nat → table_owner f2 σ p = Val q.
Proof.
  revert f2 p. induction f1 as [|f1 IH]; intros f2 p; [done|].
  destruct f2 as [|f2]; [lia|]. simpl. intros Hp Hf. destruct (σ !! p) as [o|]; [|done].
  destruct (iafl_parent o); [|done]. apply IH; [done|lia].
Qed.

Lemma table_owner_fresh f σ p q x o :
  σ !! x = None → table_owner f σ p = Val q → table_owner f (<[x := o]> σ) p = Val q.
Proof.
  intros Hx. revert p. induction f as [|f IH]; intros p; [done|]. simpl.
  destruct (decide (p = x)) as [->|]; [by rewrite Hx|]. rewrite lookup_insert_ne by done.
  destruct (σ !! p) as [o'|]; [|done]. destruct (iafl_parent o'); [apply IH|done].
Qed.

(** Both references reach the same table owner. *)
Definition shares (σ : store) (p q : positive) : Prop :=
  ∃ o, table_owner (S (base.size (dom σ))) σ p = Val o ∧ table_owner (S (base.size (dom σ))) σ q = Val o.

Lemma from_parent_shares r k :
  iafl_wf r → let c := from_parent r k in
  shares c.1 c.2 r.2 ∧ iafl_wf c ∧ table c = table r.
Proof.
  intros (p & o & v & Hp & Ho & Hv & Hpar & Hi) c.
  set (x := fresh (dom r.1)) in *. assert (r.1 !! x = None) as Hx.
  { apply not_elem_of_dom. apply is_fresh. }
  set (co := IAFL (i32 (- i32 (1 + k))) (heads r) None (Some r.2)).
  assert (c = (<[x := co]> r.1, x)) as -> by done.
  assert (base.size (dom (<[x := co]> r.1)) = S (base.size (dom r.1))) as Es.
  { rewrite dom_insert_L, size_union, size_singleton; [done|]. apply not_elem_of_dom in Hx. set_solver. }
  assert (p ≠ x) by (intros ->; congruence).
  pose proof (table_owner_fresh _ _ _ _ x co Hx Hp) as Hp'.
  assert (table_owner (S (base.size (dom (<[x := co]> r.1)))) (<[x := co]> r.1) x = Val p) as Hc.
  { cbn [table_owner]. rewrite lookup_insert_eq. simpl iafl_parent. cbv iota. by rewrite Es. }
  assert (table_owner (S (base.size (dom (<[x := co]> r.1)))) (<[x := co]> r.1) r.2 = Val p) as Hr.
  { eapply table_owner_mono; [done|lia]. }
  split_and!.
  - by exists p.
  - exists p, o, v. cbn [fst snd]. rewrite lookup_insert_ne by done. done.
  - unfold table. cbn [fst snd]. rewrite Hc, Hp. simpl.
    by rewrite lookup_insert_ne by done.
Qed.

Lemma shares_table σ p q : shares σ p q → table (σ, p) = table (σ, q).
Proof. intros (o & Hp & Hq). unfold table. cbn [fst snd]. by rewrite Hp, Hq. Qed.

(** A write through one reference is a write through every reference that shares. *)
Lemma shares_set_table σ p q v r' :
  shares σ p q → set_table (σ, p) v = Val r' → r'.2 = p ∧ shares r'.1 p q.
Proof.
  intros (o & Hp & Hq). unfold set_table. cbn [fst snd]. rewrite Hp. simpl.
  destruct (σ !! o) as [ob|] eqn:Ho; [|done]. simpl.
  destruct (iafl_table ob); [|done]. simpl. intros [= <-]. simpl. split; [done|].
  set (o' := IAFL _ _ _ _). exists o.
  assert (base.size (dom (<[o := o']> σ)) = base.size (dom σ)) as ->.
  { rewrite dom_insert_L. f_equal. apply elem_of_dom_2 in Ho. set_solver. }
  rewrite !(table_owner_insert _ _ _ _ ob) by done. done.
Qed.

Lemma shares_write c q i v :
  iafl_wf c → shares c.1 c.2 q → 0 ≤ i < iafl_entries c → is_i32 v →
  ∃ c', set_entry c i v = Val c' ∧ get_entry (c'.1, q) i = Val v.
Proof.
  intros Hwf Hsh Hi Hv. destruct (set_entry_ok (FreeListLaws := iafl_Laws) c i v Hwf Hi Hv) as (c' & E & _ & _ & _ & _ & Hget).
  exists c'. split; [done|]. specialize (Hget i Hi). rewrite decide_True in Hget by done.
  rewrite <-Hget. simpl in E. unfold iafl_set_entry in E.
  destruct (table c) as [w| |]; try done. simpl in E.
  destruct (vec_set w i v) as [w'| |]; try done. simpl in E. destruct c as [σ p].
  destruct (shares_set_table σ p q w' c' Hsh E) as [<- Hsh'].
  simpl. unfold iafl_get_entry. rewrite <-(shares_table _ _ _ Hsh'). by destruct c'.
Qed.

Lemma from_parent_fields r k :
  0 ≤ k < 2 ^ 31 - 1 → get_ordinal (from_parent r k) = k ∧ heads (from_parent r k) = heads r.
Proof.
  intros Hk. unfold get_ordinal, from_parent, alloc_obj, head, heads. cbn [fst snd iafl_FreeList].
  rewrite lookup_insert_eq. simpl. split; [|done].
  rewrite (i32_id (1 + k)) by (unfold is_i32; lia).
  rewrite (i32_id (- (1 + k))) by (unfold is_i32; lia).
  rewrite (i32_id (- - (1 + k))) by (unfold is_i32; lia).
  rewrite i32_id; unfold is_i32; lia.
Qed.
