(* ===== verification/FreeListTheorems.v ===== *)
(** * The theorems on free lists

    The statements a user of [FreeList] relies on, over any implementation of the
    trait's required methods, and over [IntArrayFreeList] from its constructor. *)

From S2P Require Import Prelude FreeList FreeListModel FreeListSpec FreeListInv FreeListRefine.
From S2P Require Import FreeListClient IntArrayFreeList.

(** A list of five units in blocks of two, for the witnesses. *)
Definition sample : iafl_ref :=
  match new 10 ∅ 5 2 1 with Val r => r | _ => (∅, 1%positive) end.
Definition sample_segs : list seg := [Seg 0 2 true; Seg 2 2 true; Seg 4 1 true].

Lemma sample_rel : fl_rel sample (-1) 1 5 (λ _, false) sample_segs [0; 2; 4].
Proof.
  destruct (wp_elim _ _ (new_rel 10 ∅ 5 2 1 ltac:(by vm_compute) ltac:(by vm_compute)
    ltac:(lia) ltac:(vm_compute; lia))) as (r & E & HR).
  unfold sample. rewrite E. exact HR.
Qed.

(** The same list after one unit was allocated. *)
Definition sample2 : iafl_ref :=
  match alloc_first_fit 4 sample 1 with Val (_, r) => r | _ => sample end.
Definition sample2_segs : list seg := [Seg 0 1 false; Seg 1 1 true; Seg 2 2 true; Seg 4 1 true].

Lemma sample2_rel : fl_rel sample2 (-1) 1 5 (λ _, false) sample2_segs [1; 2; 4].
Proof.
  destruct (wp_elim _ _ (alloc_first_fit_refines (-1) 1 5 (λ _, false) sample sample_segs
    [0; 2; 4] 1 4 sample_rel ltac:(lia) ltac:(simpl; lia))) as ([u r] & E & _ & HR).
  unfold sample2. rewrite E. exact HR.
Qed.

(** ** From the constructor *)

(** C18: [IntArrayFreeList::new] returns a list whose units are all free, in blocks
    of [grain] units (and one block with what is left over at the end), chained
    in address order. *)
Theorem new_refines (fuel : nat) (σ : store) (units grain nheads : Z) :
  0 ≤ units ≤ MAX_UNITS → 1 ≤ nheads ≤ MAX_HEADS → 1 ≤ grain < 2 ^ 31 →
  (Z.to_nat (units `div` grain) < fuel)%nat →
  ∃ r, new fuel σ units grain nheads = Val r ∧
    fl_rel r (-1) nheads units (λ _, false) (init_segs units grain)
      (s_start <$> init_segs units grain).
Proof. intros ? ? ? ?. by apply wp_elim, new_rel. Qed.

Lemma new_refines_witness :
  ∃ r, new 10 ∅ 5 2 1 = Val r ∧ fl_rel r (-1) 1 5 (λ _, false) sample_segs [0; 2; 4].
Proof. apply (new_refines 10 ∅ 5 2 1); [by vm_compute..|vm_compute; lia]. Defined.

(** C9: whatever sequence of allocations and frees a client makes on a new list,
    every call returns, the blocks it holds are pairwise disjoint, and each lies
    within the list's units. *)
Theorem client_safe (fuel : nat) (σ : store) (units grain nheads : Z) (calls : list call) :
  0 ≤ units ≤ MAX_UNITS → 1 ≤ nheads ≤ MAX_HEADS → 1 ≤ grain < 2 ^ 31 →
  (Z.to_nat units < fuel)%nat → Forall valid_call calls →
  ∃ r r' live, new fuel σ units grain nheads = Val r ∧
    for_each (λ st c, do_call fuel c st) calls (r, []) = Val (r', live) ∧
    disjoint_blocks live ∧ ∀ u s, (u, s) ∈ live → 0 ≤ u ∧ 1 ≤ s ∧ u + s ≤ units.
Proof.
  intros Hu HH Hg Hf Hc.
  assert (Z.to_nat (units `div` grain) < fuel)%nat as Hf'.
  { pose proof (Z.div_le_upper_bound units grain units ltac:(lia) ltac:(nia)). lia. }
  destruct (wp_elim _ _ (new_rel fuel σ units grain nheads Hu HH Hg Hf')) as (r & Er & HR).
  assert (state_ok (-1) nheads units (λ _, false) (r, [])) as Hst.
  { eexists _, _. split; [exact HR|]. split; [constructor|]. by intros ? ? ?%not_elem_of_nil. }
  destruct (wp_elim _ _ (calls_ok _ _ _ _ fuel calls _ Hst Hc Hf)) as ([r' live] & E & Hst').
  exists r, r', live. split; [done|]. split; [done|]. by apply state_ok_disjoint in Hst'.
Qed.

Definition sample_calls : list call :=
  [CAlloc false 1; CAlloc true 2; CFree 0 true; CAlloc false 3; CFree 1 false].

Lemma client_safe_witness :
  ∃ r r' live, new 10 ∅ 5 2 1 = Val r ∧
    for_each (λ st c, do_call 10 c st) sample_calls (r, []) = Val (r', live) ∧
    disjoint_blocks live ∧ ∀ u s, (u, s) ∈ live → 0 ≤ u ∧ 1 ≤ s ∧ u + s ≤ 5.
Proof.
  apply (client_safe 10 ∅ 5 2 1 sample_calls); [by vm_compute..|simpl; lia|].
  repeat first [apply Forall_nil; exact I | apply Forall_cons; split]; simpl; first [exact I | lia].
Defined.

(** A list made by [from_parent] works on its parent's table: it reads the
    same entries, and an entry written through it is the one the parent reads.
    Its ordinal is the one it was made with. *)
Theorem from_parent_aliases (r : iafl_ref) (k i v : Z) :
  iafl_wf r → 0 ≤ k < 2 ^ 31 - 1 → 0 ≤ i < iafl_entries r → is_i32 v →
  let c := from_parent r k in
  table c = table r ∧ get_ordinal c = k ∧ heads c = heads r ∧
  ∃ c', set_entry c i v = Val c' ∧ get_entry (c'.1, r.2) i = Val v.
Proof.
  intros Hwf Hk Hi Hv c. destruct (from_parent_shares r k Hwf) as ((o & Ho1 & Ho2) & Hwfc & Ht).
  destruct (from_parent_fields r k Hk). split_and!; [done..|].
  apply shares_write; [done|by exists o| |done]. unfold iafl_entries in *. subst c. by rewrite Ht.
Qed.

Lemma from_parent_aliases_witness :
  let c := from_parent sample 3 in
  table c = table sample ∧ get_ordinal c = 3 ∧ heads c = heads sample ∧
  ∃ c', set_entry c 2 7 = Val c' ∧ get_entry (c'.1, sample.2) 2 = Val 7.
Proof.
  apply (from_parent_aliases sample 3 2 7); [|lia|vm_compute; done|unfold is_i32; lia].
  destruct sample_rel as (m & [Hwf _ _ _ _ _] & _). exact Hwf.
Defined.

(** ** Over any implementation *)

Section generic.
Context {T : Type} `{!FreeList T} `{!FreeListLaws T}.

(** C19: first-fit allocation takes the first block of the list that is large
    enough and returns its first unit; the block is cut to the requested size and
    what is left of it becomes a free block at the front of the list.  When no
    block is large enough it returns [FAILURE] and changes nothing.  It always
    returns, with fuel for one iteration more than the list has blocks. *)
Theorem first_fit_refines (t : T) (h H n : Z) (uc : Z → bool) (ss : list seg) (l : list Z)
    (size : Z) (fuel : nat) :
  fl_rel t h H n uc ss l → 1 ≤ size → (length l < fuel)%nat →
  ∃ out, alloc_first_fit fuel t size = Val out ∧
    match first_fit ss l size with
    | None => out = (FAILURE, t) ∧ ∀ u, u ∈ l → seg_size_at ss u < size
    | Some u => out.1 = u ∧ u ∈ l ∧ size ≤ seg_size_at ss u ∧
      fl_rel out.2 h H n uc (carve ss u size) (carve_order u (seg_size_at ss u) size l)
    end.
Proof.
  intros HR Hs Hf.
  destruct (wp_elim _ _ (alloc_first_fit_refines _ _ _ _ _ _ _ _ _ HR Hs Hf)) as (out & E & Hp).
  exists out. split; [done|]. unfold alloc_post in Hp.
  destruct (first_fit ss l size) as [u|] eqn:Eu.
  - apply first_fit_Some in Eu. naive_solver.
  - split; [done|]. intros u Hu. unfold first_fit in Eu.
    apply fmap_None, list_find_None in Eu. rewrite Forall_forall in Eu. apply Eu in Hu. lia.
Qed.

(** C20: best-fit allocation takes a smallest block among those large enough. *)
Theorem best_fit_refines (t : T) (h H n : Z) (uc : Z → bool) (ss : list seg) (l : list Z)
    (size : Z) (fuel : nat) :
  fl_rel t h H n uc ss l → 1 ≤ size → (length l < fuel)%nat →
  ∃ choice out, alloc_best_fit fuel t size = Val out ∧ best_choice ss l size choice ∧
    alloc_post h H n uc ss l size choice t out.
Proof.
  intros HR Hs Hf.
  destruct (wp_elim _ _ (alloc_best_fit_refines _ _ _ _ _ _ _ _ _ HR Hs Hf)) as (out & E & c & ? & ?).
  eauto.
Qed.

(** C21: freeing a block marks it free and merges it with its free neighbours on
    both sides, unless the boundary is marked uncoalescable; the merged block is
    put at the front of the list, the blocks it absorbed leave it, and the size
    of the merged block (or of the block itself) is returned. *)
Theorem free_refines (t : T) (h H n : Z) (uc : Z → bool) (ss : list seg) (l : list Z)
    (u s : Z) (coalesced : bool) :
  fl_rel t h H n uc ss l → Seg u s false ∈ ss →
  ∃ out start tot, free t u coalesced = Val out ∧
    Seg start tot true ∈ free_segs uc ss u ∧ start ≤ u ∧ u + s ≤ start + tot ∧
    out.1 = (if coalesced then tot else s) ∧
    fl_rel out.2 h H n uc (free_segs uc ss u) (start :: outside start (start + tot) l).
Proof.
  intros HR Hu.
  assert (seg_size_at ss u = s) as <- by (eapply seg_size_at_elem; [by eapply rel_tiles|done]).
  destruct (wp_elim _ _ (free_refines_elem _ _ _ _ _ _ _ _ _ coalesced HR Hu))
    as (out & E & start & tot & ?). eauto.
Qed.

(** [alloc_from_unit] at the first unit of a block succeeds exactly when the
    block is free and large enough, and then carves it. *)
Theorem alloc_from_unit_ok (t : T) (h H n : Z) (uc : Z → bool) (ss : list seg) (l : list Z)
    (size u s : Z) (f : bool) :
  fl_rel t h H n uc ss l → Seg u s f ∈ ss → 1 ≤ size →
  ∃ out, alloc_from_unit t size u = Val out ∧
    alloc_post h H n uc ss l size (if f && (size <=? s) then Some u else None) t out.
Proof.
  intros HR (A & B & ->)%list_elem_of_split Hs.
  destruct (wp_elim _ _ (alloc_from_unit_refines _ _ _ _ _ _ _ _ _ _ _ _ HR Hs)) as (out & ? & ?). eauto.
Qed.
End generic.

Lemma first_fit_refines_witness :
  ∃ out, alloc_first_fit 4 sample 1 = Val out ∧ out.1 = 0 ∧
    fl_rel out.2 (-1) 1 5 (λ _, false) (carve sample_segs 0 1) [1; 2; 4].
Proof.
  destruct (first_fit_refines sample (-1) 1 5 (λ _, false) sample_segs [0; 2; 4] 1 4 sample_rel)
    as (out & E & Eu & _ & _ & HR); [lia|simpl; lia|]. exists out. exact (conj E (conj Eu HR)).
Defined.

Lemma best_fit_refines_witness :
  ∃ choice out, alloc_best_fit 4 sample 1 = Val out ∧ best_choice sample_segs [0; 2; 4] 1 choice ∧
    alloc_post (-1) 1 5 (λ _, false) sample_segs [0; 2; 4] 1 choice sample out.
Proof.
  apply (best_fit_refines sample (-1) 1 5 (λ _, false) sample_segs [0; 2; 4] 1 4 sample_rel);
    [lia|simpl; lia].
Defined.

Lemma alloc_from_unit_ok_witness :
  ∃ out, alloc_from_unit sample 3 2 = Val out ∧ out = (FAILURE, sample).
Proof.
  apply (alloc_from_unit_ok sample (-1) 1 5 (λ _, false) sample_segs [0; 2; 4] 3 2 2 true sample_rel);
    [by apply (list_elem_of_lookup_2 _ 1)|lia].
Defined.

Lemma free_refines_witness :
  ∃ out start tot, free sample2 0 true = Val out ∧
    Seg start tot true ∈ free_segs (λ _, false) sample2_segs 0 ∧ start ≤ 0 ∧ 0 + 1 ≤ start + tot ∧
    out.1 = tot ∧
    fl_rel out.2 (-1) 1 5 (λ _, false) (free_segs (λ _, false) sample2_segs 0)
      (start :: outside start (start + tot) [1; 2; 4]).
Proof.
  apply (free_refines sample2 (-1) 1 5 (λ _, false) sample2_segs [1; 2; 4] 0 1 true sample2_rel).
  by apply (list_elem_of_lookup_2 _ 0).
Defined.
