(* ===== verification/Conversions.v ===== *)
(** * Addresses, sizes and the virtual memory layout

    src/src/util/constants.rs, src/src/util/address.rs (the arithmetic on [Address]),
    src/src/util/conversions.rs and src/src/util/heap/layout/vm_layout.rs, on a
    64-bit target.  An [Address] is its [usize]; the global [vm_layout()] is an
    argument of the functions that read it. *)

From stdpp Require Import pretty.
From S2P Require Import Prelude.
#[local] Open Scope Z_scope.

(** ** Constants *)

Definition LOG_BITS_IN_BYTE : Z := 3.
Definition BITS_IN_BYTE : Z := Z.shiftl 1 LOG_BITS_IN_BYTE.
Definition LOG_BYTES_IN_INT : Z := 2.
Definition LOG_BITS_IN_INT : Z := LOG_BITS_IN_BYTE + LOG_BYTES_IN_INT.
Definition BITS_IN_INT : Z := Z.shiftl 1 LOG_BITS_IN_INT.
Definition LOG_BYTES_IN_ADDRESS : Z := 3.
Definition BYTES_IN_ADDRESS : Z := Z.shiftl 1 LOG_BYTES_IN_ADDRESS.
Definition LOG_BITS_IN_ADDRESS : Z := LOG_BITS_IN_BYTE + LOG_BYTES_IN_ADDRESS.
Definition BITS_IN_ADDRESS : Z := Z.shiftl 1 LOG_BITS_IN_ADDRESS.
Definition LOG_BYTES_IN_WORD : Z := LOG_BYTES_IN_ADDRESS.
Definition BYTES_IN_WORD : Z := Z.shiftl 1 LOG_BYTES_IN_WORD.
Definition LOG_BITS_IN_WORD : Z := LOG_BITS_IN_BYTE + LOG_BYTES_IN_WORD.
Definition BITS_IN_WORD : Z := Z.shiftl 1 LOG_BITS_IN_WORD.
Definition LOG_BYTES_IN_PAGE : Z := 12.
Definition BYTES_IN_PAGE : Z := Z.shiftl 1 LOG_BYTES_IN_PAGE.
Definition LOG_BITS_IN_PAGE : Z := LOG_BITS_IN_BYTE + LOG_BYTES_IN_PAGE.
Definition LOG_MIN_OBJECT_SIZE : Z := LOG_BYTES_IN_WORD.
Definition MIN_OBJECT_SIZE : Z := Z.shiftl 1 LOG_MIN_OBJECT_SIZE.
Definition LOG_BYTES_IN_CHUNK : Z := 22.
Definition BYTES_IN_CHUNK : Z := Z.shiftl 1 LOG_BYTES_IN_CHUNK.
Definition CHUNK_MASK : Z := Z.shiftl 1 LOG_BYTES_IN_CHUNK - 1.
Definition PAGES_IN_CHUNK : Z := Z.shiftl 1 (LOG_BYTES_IN_CHUNK - LOG_BYTES_IN_PAGE).
Definition LOG_MMAP_CHUNK_BYTES : Z := LOG_BYTES_IN_CHUNK.
Definition MMAP_CHUNK_BYTES : Z := Z.shiftl 1 LOG_MMAP_CHUNK_BYTES.
Definition LOG_MAX_SPACES : Z := 4.

(** ** Alignment *)

Definition raw_align_up (val align : Z) : Z := Z.land (val +u align -u 1) (unot 64 (align -u 1)).
Definition raw_align_down (val align : Z) : Z := Z.land val (unot 64 (align -u 1)).
Definition raw_is_aligned (val align : Z) : bool := Z.land val (align -u 1) =? 0.

Definition align_up (self align : Z) : Z := raw_align_up self align.
Definition align_down (self align : Z) : Z := raw_align_down self align.
Definition is_aligned_to (self align : Z) : bool := raw_is_aligned self align.

(** ** Addresses *)

Definition isize (x : Z) : Z := (x + 2 ^ 63) mod 2 ^ 64 - 2 ^ 63.
Definition addr_add (self offset : Z) : Z := self +u offset.
Definition addr_add_offset (self offset : Z) : Z := uwrap 64 (isize (isize self + offset)).
Definition addr_sub (self offset : Z) : Z := self -u offset.
Definition addr_diff (self other : Z) : Z := self -u other.
Definition get_extent (self other : Z) : Z := self -u other.
Definition get_offset (self other : Z) : Z := isize (isize self - isize other).
Definition addr_offset (self offset : Z) : Z := uwrap 64 (self + offset).
Definition addr_saturating_sub (self size : Z) : Z := saturating_sub self size.
Definition is_zero (self : Z) : bool := self =? 0.

(** ** Conversions *)

Definition is_address_aligned (addr : Z) : bool := is_aligned_to addr BYTES_IN_ADDRESS.
Definition page_align_down (address : Z) : Z := align_down address BYTES_IN_PAGE.
Definition is_page_aligned (address : Z) : bool := is_aligned_to address BYTES_IN_PAGE.
Definition chunk_align_up (addr : Z) : Z := align_up addr BYTES_IN_CHUNK.
Definition chunk_align_down (addr : Z) : Z := align_down addr BYTES_IN_CHUNK.
Definition mmap_chunk_align_up (addr : Z) : Z := align_up addr MMAP_CHUNK_BYTES.
Definition mmap_chunk_align_down (addr : Z) : Z := align_down addr MMAP_CHUNK_BYTES.
Definition bytes_to_chunks_up (bytes : Z) : Z :=
  Z.shiftr (bytes +u BYTES_IN_CHUNK -u 1) LOG_BYTES_IN_CHUNK.
Definition pages_to_bytes (pages : Z) : Z := ushl 64 pages LOG_BYTES_IN_PAGE.
Definition bytes_to_pages_up (bytes : Z) : Z :=
  Z.shiftr (raw_align_up bytes BYTES_IN_PAGE) LOG_BYTES_IN_PAGE.
Definition rshift_align_up (num bits : Z) : Z :=
  Z.shiftr (num +u (ushl 64 1 bits -u 1)) bits.

Definition UNITS : list string := ["B"; "KiB"; "MiB"; "GiB"; "TiB"; "PiB"]%string.

(** The [while] loop over the units: the index and the number that are printed. *)
Fixpoint format_loop (fuel : nat) (i : nat) (num : Z) : nat * Z :=
  match fuel with
  | O => (i, num)
  | S fuel =>
    let new_num := Z.shiftr num 10 in
    if new_num =? 0 then (i, num) else format_loop fuel (S i) new_num
  end.

Definition bytes_to_formatted_string (bytes : Z) : string :=
  let '(i, num) := format_loop (length UNITS - 1) 0 bytes in
  (pretty num +:+ default EmptyString (UNITS !! i))%string.

(** ** The virtual memory layout *)

Record VMLayout : Type := {
  log_address_space : Z;
  heap_start : Z;
  heap_end : Z;
  log_space_extent : Z;
  force_use_contiguous_spaces : bool;
  small_chunk_space_size : option Z
}.

Definition LOG_ARCH_ADDRESS_SPACE : Z := 47.

Section layout.
Context (vm : VMLayout).

Definition max_space_extent : Z := ushl 64 1 (log_space_extent vm).
Definition available_start : Z := heap_start vm.
Definition available_end : Z := heap_end vm.
Definition available_bytes : Z := get_extent available_end available_start.
Definition log_max_chunks : Z := LOG_ARCH_ADDRESS_SPACE -u LOG_BYTES_IN_CHUNK.
Definition max_chunks : Z := ushl 64 1 log_max_chunks.
Definition space_shift_64 : Z := log_space_extent vm.
Definition space_mask_64 : Z := ushl 64 (Z.shiftl 1 LOG_MAX_SPACES - 1) space_shift_64.
Definition space_size_64 : Z := max_space_extent.
Definition log_pages_in_space64 : Z := log_space_extent vm -u LOG_BYTES_IN_PAGE.
Definition pages_in_space64 : Z := ushl 64 1 log_pages_in_space64.
Definition address_mask : Z := ushl 64 31 (log_space_extent vm).

Definition address_to_chunk_index (addr : Z) : Z :=
  Z.shiftr (addr -u heap_start vm) LOG_BYTES_IN_CHUNK.
Definition chunk_index_to_address (chunk : Z) : Z :=
  heap_start vm +u ushl 64 chunk LOG_BYTES_IN_CHUNK.
Definition is_in_mmtk_heap (self : Z) : bool :=
  (heap_start vm <=? self) && (self <? heap_end vm).

Definition validate : res unit :=
  _ ← rust_assert (is_aligned_to (heap_start vm) BYTES_IN_CHUNK);
  _ ← rust_assert (is_aligned_to (heap_end vm) BYTES_IN_CHUNK);
  _ ← rust_assert (heap_start vm <? heap_end vm);
  _ ← rust_assert (log_address_space vm <=? LOG_ARCH_ADDRESS_SPACE);
  _ ← rust_assert (log_space_extent vm <=? log_address_space vm);
  if force_use_contiguous_spaces vm
  then
    _ ← rust_assert (log_space_extent vm <=? log_address_space vm -u LOG_MAX_SPACES);
    rust_assert (is_aligned_to (heap_start vm) max_space_extent)
  else Val ().
End layout.

Definition new_32bit : res VMLayout :=
  let layout32 := {| log_address_space := 32;
    heap_start := chunk_align_down 0x80000000; heap_end := chunk_align_up 0xd0000000;
    log_space_extent := 31; force_use_contiguous_spaces := false;
    small_chunk_space_size := None |} in
  _ ← validate layout32; Val layout32.

Definition new_64bit : res VMLayout :=
  let layout64 := {| log_address_space := 47;
    heap_start := chunk_align_down 0x020000000000; heap_end := chunk_align_up 0x220000000000;
    log_space_extent := 41; force_use_contiguous_spaces := true;
    small_chunk_space_size := None |} in
  _ ← validate layout64; Val layout64.

(** [set_custom_vm_layout]: the layout in use afterwards. *)
Definition set_custom_vm_layout (constants : VMLayout) : res VMLayout :=
  _ ← validate constants; Val constants.

(** ** Alignment is rounding to multiples of a power of two *)

Lemma unot_low k : 0 ≤ k ≤ 64 → unot 64 (2 ^ k -u 1) = Z.ones 64 - Z.ones k.
Proof.
  intros Hk. assert (2 ^ k ≤ 2 ^ 64) by (apply Z.pow_le_mono_r; lia).
  assert (0 < 2 ^ k) by (apply Z.pow_pos_nonneg; lia).
  unfold unot, usub. rewrite (uwrap_id 64 (2 ^ k - 1)) by lia.
  unfold uwrap, Z.lnot. rewrite !Z.ones_equiv. symmetry.
  apply (Z.mod_unique _ _ (-1)); lia.
Qed.

Lemma land_align v k : 0 ≤ k ≤ 64 → is_u 64 v → Z.land v (unot 64 (2 ^ k -u 1)) = v `div` 2 ^ k * 2 ^ k.
Proof.
  intros Hk Hv. transitivity (Z.shiftl (Z.shiftr v k) k).
  2:{ rewrite Z.shiftl_mul_pow2, Z.shiftr_div_pow2 by lia. done. }
  assert (0 < 2 ^ k ≤ 2 ^ 64) by (split; [apply Z.pow_pos_nonneg|apply Z.pow_le_mono_r]; lia).
  unfold unot, usub. rewrite (uwrap_id 64 (2 ^ k - 1)) by lia.
  replace (2 ^ k - 1) with (Z.ones k) by (rewrite Z.ones_equiv; lia).
  apply Z.bits_inj'. intros i Hi. bits_norm.
  destruct (Z.ltb_spec i 64).
  - bits_case; rewrite ?andb_true_r, ?andb_false_r; try done. rewrite Z.shiftr_spec by lia. f_equal. lia.
  - rewrite (testbit_small 64 v) by (done || lia). bits_case; try done.
    rewrite Z.shiftr_spec, (testbit_small 64 v) by (done || lia). done.
Qed.

Lemma is_aligned_mod v k : 0 ≤ k < 64 → raw_is_aligned v (2 ^ k) = (v mod 2 ^ k =? 0).
Proof.
  intros Hk. unfold raw_is_aligned, usub.
  assert (0 < 2 ^ k < 2 ^ 64) by (split; [apply Z.pow_pos_nonneg|apply Z.pow_lt_mono_r]; lia).
  rewrite uwrap_id by lia. replace (2 ^ k - 1) with (Z.ones k) by (rewrite Z.ones_equiv; lia).
  by rewrite Z.land_ones by lia.
Qed.

Lemma align_down_eq v k : 0 ≤ k < 64 → is_u 64 v → raw_align_down v (2 ^ k) = v `div` 2 ^ k * 2 ^ k.
Proof. intros. apply land_align; [lia|done]. Qed.

Lemma align_up_eq v k :
  0 ≤ k < 64 → 0 ≤ v → v + 2 ^ k ≤ 2 ^ 64 →
  raw_align_up v (2 ^ k) = (v + 2 ^ k - 1) `div` 2 ^ k * 2 ^ k.
Proof.
  intros Hk Hv Hle. assert (0 < 2 ^ k) by (apply Z.pow_pos_nonneg; lia).
  unfold raw_align_up. assert (v +u 2 ^ k -u 1 = v + 2 ^ k - 1) as ->.
  { unfold uadd, usub, uwrap. destruct (decide (v + 2 ^ k = 2 ^ 64)) as [->|].
    - done.
    - rewrite (Z.mod_small (v + 2 ^ k)) by lia. apply Z.mod_small. lia. }
  apply land_align; [lia|]. unfold is_u. lia.
Qed.

Lemma div_mul_bounds v d : 0 < d → v - d < v `div` d * d ≤ v.
Proof.
  intros Hd. pose proof (Z.div_mod v d ltac:(lia)). pose proof (Z.mod_pos_bound v d Hd). lia.
Qed.

Lemma div_exact_le a b d : 0 < d → (d | a) → a ≤ b → a ≤ b `div` d * d.
Proof.
  intros Hd [q ->] Hle. assert (q ≤ b `div` d); [|nia]. apply Z.div_le_lower_bound; lia.
Qed.

(** Aligning an address down gives the largest multiple of the alignment that
    is not above it, aligning it up the smallest one that is not below it (as long
    as that is an address), and an address is aligned exactly when it is a
    multiple.  The alignment is a power of two. *)
Theorem alignment_rounds (v k : Z) :
  is_u 64 v → 0 ≤ k < 64 →
  let a := Z.shiftl 1 k in
  ((a | align_down v a) ∧ align_down v a ≤ v ∧ ∀ x, (a | x) → x ≤ v → x ≤ align_down v a) ∧
  (v + a ≤ 2 ^ 64 → (a | align_up v a) ∧ v ≤ align_up v a ∧ ∀ x, (a | x) → v ≤ x → align_up v a ≤ x) ∧
  (is_aligned_to v a = true ↔ (a | v)).
Proof.
  intros Hv Hk a. assert (a = 2 ^ k) as -> by (unfold a; rewrite Z.shiftl_1_l; done).
  assert (0 < 2 ^ k) as Hpos by (apply Z.pow_pos_nonneg; lia).
  unfold align_down, align_up, is_aligned_to. rewrite align_down_eq, is_aligned_mod by done.
  split_and!.
  - by exists (v `div` 2 ^ k).
  - apply div_mul_bounds. lia.
  - intros x Hx Hle. by apply div_exact_le.
  - intros Hle. rewrite align_up_eq by (unfold is_u in Hv; lia).
    pose proof (div_mul_bounds (v + 2 ^ k - 1) (2 ^ k) Hpos). split_and!.
    + by exists ((v + 2 ^ k - 1) `div` 2 ^ k).
    + lia.
    + intros x [q ->] Hx. assert ((v + 2 ^ k - 1) `div` 2 ^ k ≤ q); [|nia].
      assert ((v + 2 ^ k - 1) `div` 2 ^ k < q + 1); [|lia]. apply Z.div_lt_upper_bound; nia.
  - rewrite Z.eqb_eq. apply Z.mod_divide. lia.
Qed.

Lemma alignment_rounds_witness :
  let a := Z.shiftl 1 12 in
  ((a | align_down 5000 a) ∧ align_down 5000 a ≤ 5000 ∧ ∀ x, (a | x) → x ≤ 5000 → x ≤ align_down 5000 a) ∧
  (5000 + a ≤ 2 ^ 64 → (a | align_up 5000 a) ∧ 5000 ≤ align_up 5000 a ∧ ∀ x, (a | x) → 5000 ≤ x → align_up 5000 a ≤ x) ∧
  (is_aligned_to 5000 a = true ↔ (a | 5000)).
Proof. apply (alignment_rounds 5000 12); [unfold is_u; lia|lia]. Defined.

(** ** Units *)

Lemma shiftr_div v k : 0 ≤ k → Z.shiftr v k = v `div` 2 ^ k.
Proof. apply Z.shiftr_div_pow2. Qed.

Lemma ushl_id w v k : 0 ≤ k → 0 ≤ v * 2 ^ k < 2 ^ w → ushl w v k = v * 2 ^ k.
Proof. intros. unfold ushl. rewrite Z.shiftl_mul_pow2 by lia. by apply uwrap_id. Qed.

Lemma uadd_id x y : 0 ≤ x + y < 2 ^ 64 → x +u y = x + y.
Proof. apply uwrap_id. Qed.
Lemma usub_id x y : 0 ≤ x - y < 2 ^ 64 → x -u y = x - y.
Proof. apply uwrap_id. Qed.

Lemma ceil_div_spec v d q : 0 < d → q = (v + d - 1) `div` d → (q - 1) * d < v ≤ q * d.
Proof.
  intros Hd ->. pose proof (Z.div_mod (v + d - 1) d ltac:(lia)).
  pose proof (Z.mod_pos_bound (v + d - 1) d Hd). nia.
Qed.

(** The conversions from sizes to pages, chunks and shifted units round up:
    the result is the smallest number of units that holds the size. *)
Theorem conversions_round_up (bytes bits : Z) :
  0 ≤ bytes → bytes + BYTES_IN_CHUNK ≤ 2 ^ 64 → 0 ≤ bits < 64 → bytes + 2 ^ bits ≤ 2 ^ 64 →
  (∀ q, q = bytes_to_pages_up bytes → (q - 1) * BYTES_IN_PAGE < bytes ≤ q * BYTES_IN_PAGE ∧
     (pages_to_bytes q = q * BYTES_IN_PAGE ∨ q * BYTES_IN_PAGE = 2 ^ 64)) ∧
  (∀ q, q = bytes_to_chunks_up bytes → (q - 1) * BYTES_IN_CHUNK < bytes ≤ q * BYTES_IN_CHUNK) ∧
  (∀ q, q = rshift_align_up bytes bits → (q - 1) * 2 ^ bits < bytes ≤ q * 2 ^ bits).
Proof.
  intros Hb Hc Hbits Hs.
  change BYTES_IN_CHUNK with (2 ^ 22) in *. change BYTES_IN_PAGE with (2 ^ 12).
  assert (0 < 2 ^ bits) by (apply Z.pow_pos_nonneg; lia). split_and!.
  - intros q Hq. unfold bytes_to_pages_up in Hq. change BYTES_IN_PAGE with (2 ^ 12) in Hq.
    rewrite align_up_eq in Hq by lia. rewrite shiftr_div in Hq by (unfold LOG_BYTES_IN_PAGE; lia).
    change LOG_BYTES_IN_PAGE with 12 in Hq. rewrite Z.div_mul in Hq by lia.
    pose proof (ceil_div_spec bytes (2 ^ 12) q ltac:(lia) Hq). split; [done|].
    unfold pages_to_bytes. change LOG_BYTES_IN_PAGE with 12.
    destruct (decide (q * 2 ^ 12 < 2 ^ 64)); [left; apply ushl_id; lia|right; lia].
  - intros q Hq. apply ceil_div_spec; [lia|]. rewrite Hq. unfold bytes_to_chunks_up.
    rewrite shiftr_div by (unfold LOG_BYTES_IN_CHUNK; lia). f_equal.
    change BYTES_IN_CHUNK with (2 ^ 22). unfold uadd, usub, uwrap.
    destruct (decide (bytes + 2 ^ 22 = 2 ^ 64)) as [->|]; [done|].
    rewrite (Z.mod_small (bytes + 2 ^ 22)) by lia. apply Z.mod_small. lia.
  - intros q Hq. apply ceil_div_spec; [lia|]. rewrite Hq. unfold rshift_align_up.
    rewrite shiftr_div by lia. f_equal.
    assert (2 ^ bits < 2 ^ 64) by (apply Z.pow_lt_mono_r; lia).
    rewrite ushl_id by lia. rewrite (usub_id _ 1) by lia. rewrite uadd_id; lia.
Qed.

Lemma conversions_round_up_witness :
  (∀ q, q = bytes_to_pages_up 4097 → (q - 1) * BYTES_IN_PAGE < 4097 ≤ q * BYTES_IN_PAGE ∧
     (pages_to_bytes q = q * BYTES_IN_PAGE ∨ q * BYTES_IN_PAGE = 2 ^ 64)) ∧
  (∀ q, q = bytes_to_chunks_up 4097 → (q - 1) * BYTES_IN_CHUNK < 4097 ≤ q * BYTES_IN_CHUNK) ∧
  (∀ q, q = rshift_align_up 4097 3 → (q - 1) * 2 ^ 3 < 4097 ≤ q * 2 ^ 3).
Proof. apply (conversions_round_up 4097 3); vm_compute; done. Defined.

(** A layout whose heap bounds are chunk aligned, as [validate] requires. *)
Definition layout_ok (vm : VMLayout) : Prop :=
  0 ≤ heap_start vm ∧ heap_start vm < heap_end vm ∧ heap_end vm < 2 ^ 64 ∧
  (BYTES_IN_CHUNK | heap_start vm) ∧ (BYTES_IN_CHUNK | heap_end vm).

(** A chunk index and the address of the chunk determine each other, and the
    chunk of an address in the heap starts at the address rounded down. *)
Theorem chunk_index_roundtrip (vm : VMLayout) (chunk addr : Z) :
  layout_ok vm →
  (0 ≤ chunk → heap_start vm + chunk * BYTES_IN_CHUNK < 2 ^ 64 →
   address_to_chunk_index vm (chunk_index_to_address vm chunk) = chunk) ∧
  (is_in_mmtk_heap vm addr = true →
   chunk_index_to_address vm (address_to_chunk_index vm addr) = chunk_align_down addr ∧
   0 ≤ address_to_chunk_index vm addr * BYTES_IN_CHUNK < available_bytes vm).
Proof.
  intros (Hs & Hlt & He & [a Ha] & [b Hb]).
  unfold address_to_chunk_index, chunk_index_to_address, chunk_align_down, align_down,
    is_in_mmtk_heap, available_bytes, get_extent, available_end, available_start.
  change BYTES_IN_CHUNK with (2 ^ 22) in *. change LOG_BYTES_IN_CHUNK with 22. split.
  - intros Hc Hov. rewrite ushl_id by lia. rewrite uadd_id by lia. rewrite usub_id by lia.
    rewrite shiftr_div by lia. rewrite Z.add_comm, Z.add_simpl_r. apply Z.div_mul. lia.
  - rewrite andb_true_iff, Z.leb_le, Z.ltb_lt. intros [Hl Hh].
    rewrite align_down_eq by (unfold is_u; lia). rewrite !usub_id by lia. rewrite shiftr_div by lia.
    pose proof (div_mul_bounds (addr - heap_start vm) (2 ^ 22) ltac:(lia)).
    assert (0 ≤ (addr - heap_start vm) `div` 2 ^ 22) by (apply Z.div_pos; lia).
    rewrite ushl_id by lia. rewrite uadd_id by lia. split; [|lia].
    replace addr with (addr - heap_start vm + a * 2 ^ 22) at 2 by lia.
    rewrite Z.div_add by lia. lia.
Qed.

Definition sample_layout : VMLayout :=
  {| log_address_space := 47; heap_start := 0x020000000000; heap_end := 0x220000000000;
     log_space_extent := 41; force_use_contiguous_spaces := true; small_chunk_space_size := None |}.

Lemma chunk_index_roundtrip_witness :
  layout_ok sample_layout ∧
  (0 ≤ 3 → heap_start sample_layout + 3 * BYTES_IN_CHUNK < 2 ^ 64 →
   address_to_chunk_index sample_layout (chunk_index_to_address sample_layout 3) = 3) ∧
  (is_in_mmtk_heap sample_layout 0x020000400123 = true →
   chunk_index_to_address sample_layout (address_to_chunk_index sample_layout 0x020000400123)
     = chunk_align_down 0x020000400123 ∧
   0 ≤ address_to_chunk_index sample_layout 0x020000400123 * BYTES_IN_CHUNK < available_bytes sample_layout).
Proof.
  assert (layout_ok sample_layout) as Hok.
  { split_and!; [by vm_compute..| |].
    - exists (heap_start sample_layout / BYTES_IN_CHUNK). by vm_compute.
    - exists (heap_end sample_layout / BYTES_IN_CHUNK). by vm_compute. }
  exact (conj Hok (chunk_index_roundtrip sample_layout 3 0x020000400123 Hok)).
Defined.

(** The layouts the constructors build are the ones the source declares valid. *)
Lemma new_64bit_ok : new_64bit = Val sample_layout.
Proof. by vm_compute. Qed.

(** A layout accepted by [validate] has chunk-aligned, non-empty bounds. *)
Lemma validate_layout_ok vm :
  is_u 64 (heap_start vm) → is_u 64 (heap_end vm) → validate vm = Val () → layout_ok vm.
Proof.
  unfold validate, is_u, is_aligned_to. change BYTES_IN_CHUNK with (2 ^ 22).
  rewrite !is_aligned_mod by lia. intros Hs He. unfold rust_assert.
  destruct (Z.eqb_spec (heap_start vm mod 2 ^ 22) 0) as [E1|]; [|done]. simpl.
  destruct (Z.eqb_spec (heap_end vm mod 2 ^ 22) 0) as [E2|]; [|done]. simpl.
  destruct (Z.ltb_spec (heap_start vm) (heap_end vm)); [|done]. intros _.
  split_and!; [lia..| |]; change BYTES_IN_CHUNK with (2 ^ 22); apply Z.mod_divide; (lia || done).
Qed.

(** ** Printing sizes *)

(** The unit is raised as long as the number stays positive: it ends with a number
    below 1024 or with the last unit. *)
Lemma format_loop_spec fuel i num :
  0 ≤ num →
  let j := (format_loop fuel i num).1 in
  let r := (format_loop fuel i num).2 in
  (i ≤ j ≤ i + fuel)%nat ∧ r = num `div` 2 ^ (10 * (Z.of_nat j - Z.of_nat i)) ∧
  (j = (i + fuel)%nat ∨ r < 2 ^ 10) ∧ (j = i ∨ 0 < r).
Proof.
  revert i num. induction fuel as [|fuel IH]; intros i num Hn; simpl.
  { rewrite Z.sub_diag, Z.mul_0_r, Z.pow_0_r, Z.div_1_r. split_and!; auto; lia. }
  rewrite shiftr_div by lia. destruct (Z.eqb_spec (num `div` 2 ^ 10) 0) as [E|E]; simpl.
  - rewrite Z.sub_diag, Z.mul_0_r, Z.pow_0_r, Z.div_1_r. split_and!; auto; [lia..|].
    right. apply Z.div_small_iff in E; lia.
  - assert (0 < num `div` 2 ^ 10) by (pose proof (Z.div_pos num (2 ^ 10)); lia).
    destruct (IH (S i) (num `div` 2 ^ 10) ltac:(lia)) as (Hj & Hr & Hend & Hpos).
    set (j := (format_loop _ _ _).1) in *. set (r := (format_loop _ _ _).2) in *.
    split_and!; [lia..| | |].
    + rewrite Hr, Z.div_div by (try apply Z.pow_pos_nonneg; lia).
      rewrite <-Z.pow_add_r by lia. f_equal. f_equal. lia.
    + destruct Hend as [->|]; [left; lia|by right].
    + right. destruct Hpos as [Ej|]; [|done]. rewrite Hr, Ej, Z.sub_diag.
      rewrite Z.mul_0_r, Z.pow_0_r, Z.div_1_r. done.
Qed.

Example format_ex :
  bytes_to_formatted_string 1025 = "1KiB"%string ∧
  bytes_to_formatted_string (Z.shiftl 1 63) = "8192PiB"%string.
Proof. by vm_compute. Qed.
