(* ===== verification/SpaceDescriptor.v ===== *)
(** * Space descriptors (src/src/util/heap/space_descriptor.rs)

    A space's address range packed in one word.  On a layout with contiguous
    spaces the word holds the space index; otherwise it holds the start as a
    mantissa and an exponent and the size in chunks.  Discontiguous spaces get
    unique descriptors from a global counter, passed here as state. *)

From S2P Require Import Prelude Conversions.

Definition TYPE_BITS : Z := 2.
Definition TYPE_SHARED : Z := 0.
Definition TYPE_CONTIGUOUS : Z := 1.
Definition TYPE_CONTIGUOUS_HI : Z := 3.
Definition TYPE_MASK : Z := Z.shiftl 1 TYPE_BITS - 1.
Definition SIZE_SHIFT : Z := TYPE_BITS.
Definition SIZE_BITS : Z := 10.
Definition SIZE_MASK : Z := Z.shiftl (Z.shiftl 1 SIZE_BITS - 1) SIZE_SHIFT.
Definition EXPONENT_SHIFT : Z := SIZE_SHIFT + SIZE_BITS.
Definition EXPONENT_BITS : Z := 5.
Definition EXPONENT_MASK : Z := Z.shiftl (Z.shiftl 1 EXPONENT_BITS - 1) EXPONENT_SHIFT.
Definition MANTISSA_SHIFT : Z := EXPONENT_SHIFT + EXPONENT_BITS.
Definition MANTISSA_BITS : Z := 14.
Definition BASE_EXPONENT : Z := BITS_IN_INT - MANTISSA_BITS.
Definition INDEX_MASK : Z := unot 64 TYPE_MASK.
Definition INDEX_SHIFT : Z := TYPE_BITS.
Definition DISCONTIG_INDEX_INCREMENT : Z := Z.shiftl 1 TYPE_BITS.

(** [SpaceDescriptor(usize)]. *)
Definition SpaceDescriptor : Type := Z.
Definition UNINITIALIZED : SpaceDescriptor := 0.

(** The loop that strips the trailing zeros of [tmp]. *)
Fixpoint strip_zeros (fuel : nat) (tmp exponent : Z) : Z * Z :=
  match fuel with
  | O => (tmp, exponent)
  | S fuel =>
    if negb (tmp =? 0) && (Z.land tmp 1 =? 0)
    then strip_zeros fuel (Z.shiftr tmp 1) (exponent +u 1)
    else (tmp, exponent)
  end.

Section descriptor.
Context (vm : VMLayout).

Definition create_descriptor_from_heap_range (start end_ : Z) : SpaceDescriptor :=
  let top := end_ =? heap_end vm in
  if force_use_contiguous_spaces vm
  then
    let space_index :=
      if heap_end vm <? start then usize_MAX else Z.shiftr start (space_shift_64 vm) in
    let flags := if top then TYPE_CONTIGUOUS_HI else TYPE_CONTIGUOUS in
    Z.lor (ushl 64 space_index INDEX_SHIFT) flags
  else
    let chunks := Z.shiftr (end_ -u start) LOG_BYTES_IN_CHUNK in
    let '(mantissa, exponent) := strip_zeros 64 (Z.shiftr start BASE_EXPONENT) 0 in
    Z.lor (Z.lor (Z.lor (ushl 64 mantissa MANTISSA_SHIFT) (ushl 64 exponent EXPONENT_SHIFT))
             (ushl 64 chunks SIZE_SHIFT))
          (if top then TYPE_CONTIGUOUS_HI else TYPE_CONTIGUOUS).

(** The counter is [DISCONTIGUOUS_SPACE_INDEX]; [fetch_add] wraps. *)
Definition create_descriptor (counter : Z) : SpaceDescriptor * Z :=
  (counter, counter +u DISCONTIG_INDEX_INCREMENT).

Definition is_empty (self : SpaceDescriptor) : bool := self =? UNINITIALIZED.
Definition is_contiguous (self : SpaceDescriptor) : bool :=
  Z.land self TYPE_CONTIGUOUS =? TYPE_CONTIGUOUS.
Definition is_contiguous_hi (self : SpaceDescriptor) : bool :=
  Z.land self TYPE_MASK =? TYPE_CONTIGUOUS_HI.

Definition get_start_32 (self : SpaceDescriptor) : Z :=
  let mantissa := Z.shiftr self MANTISSA_SHIFT in
  let exponent := Z.shiftr (Z.land self EXPONENT_MASK) EXPONENT_SHIFT in
  ushl 64 mantissa (BASE_EXPONENT +u exponent).
Definition get_index (self : SpaceDescriptor) : Z := Z.shiftr (Z.land self INDEX_MASK) INDEX_SHIFT.
Definition get_start (self : SpaceDescriptor) : Z :=
  if negb (force_use_contiguous_spaces vm) then get_start_32 self
  else ushl 64 (get_index self) (log_space_extent vm).
Definition get_extent_32 (self : SpaceDescriptor) : Z :=
  let chunks := Z.shiftr (Z.land self SIZE_MASK) SIZE_SHIFT in
  ushl 64 chunks LOG_BYTES_IN_CHUNK.
Definition get_extent (self : SpaceDescriptor) : Z :=
  if negb (force_use_contiguous_spaces vm) then get_extent_32 self else space_size_64 vm.
End descriptor.

(** ** The loop *)

(** [tmp] is the mantissa times a power of two; the mantissa is odd. *)
Lemma strip_zeros_spec fuel tmp e :
  0 < tmp < 2 ^ (Z.of_nat fuel) → 0 ≤ e → e + Z.of_nat fuel < 2 ^ 64 →
  let '(man, ex) := strip_zeros fuel tmp e in
  e ≤ ex < e + Z.of_nat fuel ∧ 0 < man ∧ tmp = man * 2 ^ (ex - e) ∧ Z.odd man = true.
Proof.
  revert tmp e. induction fuel as [|fuel IH]; intros tmp e Ht He Hov.
  { change (2 ^ Z.of_nat 0) with 1 in Ht. lia. }
  simpl strip_zeros. destruct (Z.eqb_spec tmp 0); [lia|].
  assert (Z.land tmp 1 = tmp mod 2) as -> by (change 1 with (Z.ones 1) at 1; by rewrite Z.land_ones by lia).
  rewrite Zmod_odd. destruct (Z.odd tmp) eqn:Eo; simpl.
  { split_and!; [lia..| |done]. rewrite Z.sub_diag. lia. }
  assert (tmp = 2 * Z.div2 tmp) as E2.
  { rewrite (Z.div2_odd tmp) at 1. rewrite Eo. simpl. lia. }
  rewrite <-Z.div2_spec. rewrite Nat2Z.inj_succ, Z.pow_succ_r in Ht by lia.
  rewrite uadd_id by lia.
  specialize (IH (Z.div2 tmp) (e + 1)). destruct (strip_zeros fuel (Z.div2 tmp) (e + 1)) as [man ex].
  destruct IH as (? & ? & E & ?); [lia..|]. split_and!; [lia..| |done].
  rewrite E2, E. replace (ex - e) with (1 + (ex - (e + 1))) by lia. rewrite Z.pow_add_r by lia. lia.
Qed.

(** The fields of the word [man:ex:chunks:type], read back. *)
Lemma packed_fields man ex chunks ty :
  0 ≤ man < 2 ^ 47 → 0 ≤ ex < 2 ^ 5 → 0 ≤ chunks < 2 ^ 10 → 0 ≤ ty < 2 ^ 2 →
  let d := Z.lor (Z.lor (Z.lor (ushl 64 man MANTISSA_SHIFT) (ushl 64 ex EXPONENT_SHIFT))
             (ushl 64 chunks SIZE_SHIFT)) ty in
  Z.shiftr d MANTISSA_SHIFT = man ∧ Z.shiftr (Z.land d EXPONENT_MASK) EXPONENT_SHIFT = ex ∧
  Z.shiftr (Z.land d SIZE_MASK) SIZE_SHIFT = chunks ∧ Z.land d TYPE_MASK = ty.
Proof.
  intros Hm He Hc Ht d.
  change EXPONENT_MASK with (Z.shiftl (Z.ones 5) 12) in *. change SIZE_MASK with (Z.shiftl (Z.ones 10) 2) in *.
  change TYPE_MASK with (Z.ones 2) in *. change MANTISSA_SHIFT with 17 in *.
  change EXPONENT_SHIFT with 12 in *. change SIZE_SHIFT with 2 in *.
  assert (∀ i, 47 ≤ i → Z.testbit man i = false) as Bm by (intros; by apply (testbit_small 47)).
  assert (∀ i, 5 ≤ i → Z.testbit ex i = false) as Be by (intros; by apply (testbit_small 5)).
  assert (∀ i, 10 ≤ i → Z.testbit chunks i = false) as Bc by (intros; by apply (testbit_small 10)).
  assert (∀ i, 2 ≤ i → Z.testbit ty i = false) as Bt by (intros; by apply (testbit_small 2)).
  unfold d. split_and!; apply Z.bits_inj'; intros i Hi; bits_norm;
    rewrite ?Z.add_simpl_r; bits_case;
    repeat match goal with
      | |- context [Z.testbit man ?j] => rewrite (Bm j) by lia
      | |- context [Z.testbit ex ?j] => rewrite (Be j) by lia
      | |- context [Z.testbit chunks ?j] => rewrite (Bc j) by lia
      | |- context [Z.testbit ty ?j] => rewrite (Bt j) by lia
      end;
    rewrite ?andb_true_r, ?andb_false_r, ?orb_false_r, ?orb_true_r; try done.
Qed.

Lemma type_tests d ty :
  Z.land d TYPE_MASK = ty → ty = TYPE_CONTIGUOUS ∨ ty = TYPE_CONTIGUOUS_HI →
  is_empty d = false ∧ is_contiguous d = true ∧ is_contiguous_hi d = (ty =? TYPE_CONTIGUOUS_HI).
Proof.
  intros Hd Hty. unfold is_contiguous, is_contiguous_hi, is_empty. rewrite Hd. split_and!; [| |done].
  - destruct (Z.eqb_spec d UNINITIALIZED) as [->|]; [|done].
    vm_compute in Hd. destruct Hty; subst; done.
  - assert (Z.land d TYPE_CONTIGUOUS = Z.land (Z.land d TYPE_MASK) TYPE_CONTIGUOUS) as ->.
    { rewrite <-Z.land_assoc. done. }
    rewrite Hd. by destruct Hty as [-> | ->].
Qed.

(** On a layout without contiguous spaces the descriptor of a range of less than 1024 chunks
    gives back the range. *)
Lemma descriptor_range (vm : VMLayout) (start end_ : Z) :
  force_use_contiguous_spaces vm = false →
  (BYTES_IN_CHUNK | start) → (BYTES_IN_CHUNK | end_) → 0 < start < end_ → end_ ≤ 2 ^ 47 →
  end_ - start < 1024 * BYTES_IN_CHUNK →
  let d := create_descriptor_from_heap_range vm start end_ in
  get_start vm d = start ∧ get_extent vm d = end_ - start ∧
  is_empty d = false ∧ is_contiguous d = true ∧
  is_contiguous_hi d = (end_ =? heap_end vm).
Proof.
  intros Hf [a Ha] [b Hb] Hse He Hsz d. unfold get_start, get_extent. rewrite Hf.
  unfold d, create_descriptor_from_heap_range. rewrite Hf.
  change BYTES_IN_CHUNK with (2 ^ 22) in *.
  assert (0 < a < 2 ^ 25 ∧ b - a < 1024 ∧ a < b) as (? & ? & ?) by lia.
  assert (Z.shiftr start BASE_EXPONENT = a * 2 ^ 4) as ->.
  { rewrite shiftr_div by (vm_compute; done). change BASE_EXPONENT with 18.
    rewrite Ha. replace (a * 2 ^ 22) with (a * 2 ^ 4 * 2 ^ 18) by lia. apply Z.div_mul. lia. }
  assert (Z.shiftr (end_ -u start) LOG_BYTES_IN_CHUNK = b - a) as ->.
  { rewrite usub_id, shiftr_div by (done || lia). change LOG_BYTES_IN_CHUNK with 22.
    replace (end_ - start) with ((b - a) * 2 ^ 22) by lia. apply Z.div_mul. lia. }
  pose proof (strip_zeros_spec 64 (a * 2 ^ 4) 0) as Hz.
  destruct (strip_zeros 64 (a * 2 ^ 4) 0) as [man ex].
  destruct Hz as (Hex & Hman & E & _); [lia..|]. rewrite Z.sub_0_r in E.
  assert (ex < 29) as Hex29.
  { apply (Z.pow_lt_mono_r_iff 2); [lia..|]. nia. }
  assert (0 < 2 ^ ex) by (apply Z.pow_pos_nonneg; lia).
  assert (0 < man < 2 ^ 29) by nia.
  set (ty := if end_ =? heap_end vm then TYPE_CONTIGUOUS_HI else TYPE_CONTIGUOUS).
  assert (0 ≤ ty < 2 ^ 2) by (unfold ty; case_match; vm_compute; done).
  destruct (packed_fields man ex (b - a) ty) as (F1 & F2 & F3 & F4); [lia..|].
  split_and!.
  - unfold negb, get_start_32. rewrite F1, F2. change BASE_EXPONENT with 18.
    rewrite uadd_id by lia. rewrite ushl_id; rewrite ?Z.pow_add_r by lia; [|lia|]; nia.
  - unfold negb, get_extent_32. rewrite F3. change LOG_BYTES_IN_CHUNK with 22. rewrite ushl_id; lia.
  - apply (type_tests _ _ F4). unfold ty. case_match; auto.
  - apply (type_tests _ _ F4). unfold ty. case_match; auto.
  - etransitivity; [apply (type_tests _ _ F4); unfold ty; case_match; auto|].
    unfold ty. by case_match.
Qed.

(** On a layout with contiguous spaces, the descriptor of a range gives back
    the start of the space the range lies in, whose index is the start shifted by
    the size of a space, and the size of a space. *)
Lemma descriptor_space (vm : VMLayout) (start end_ : Z) :
  force_use_contiguous_spaces vm = true → 0 ≤ log_space_extent vm < 64 → 0 ≤ start ≤ heap_end vm →
  start < 2 ^ 62 →
  let d := create_descriptor_from_heap_range vm start end_ in
  get_index d = start `div` 2 ^ (log_space_extent vm) ∧
  get_start vm d = align_down start (max_space_extent vm) ∧
  get_extent vm d = max_space_extent vm ∧
  is_empty d = false ∧ is_contiguous d = true ∧ is_contiguous_hi d = (end_ =? heap_end vm).
Proof.
  intros Hf Hl Hs Hov d. unfold get_start, get_extent. rewrite Hf.
  set (ty := if end_ =? heap_end vm then TYPE_CONTIGUOUS_HI else TYPE_CONTIGUOUS).
  set (k := log_space_extent vm) in *. assert (0 < 2 ^ k) by (apply Z.pow_pos_nonneg; lia).
  set (idx := start `div` 2 ^ k).
  assert (0 ≤ idx ≤ start) as Hidx.
  { unfold idx. split; [apply Z.div_pos; lia|]. apply Z.div_le_upper_bound; nia. }
  assert (d = Z.lor (Z.shiftl idx 2) ty) as ->.
  { unfold d, create_descriptor_from_heap_range. rewrite Hf.
    destruct (Z.ltb_spec (heap_end vm) start); [lia|]. unfold space_shift_64. fold k ty.
    rewrite shiftr_div by lia. fold idx. unfold ushl. rewrite Z.shiftl_mul_pow2 by done.
    rewrite uwrap_id; change INDEX_SHIFT with 2; [|lia]. by rewrite Z.shiftl_mul_pow2 by lia. }
  assert (0 ≤ ty < 2 ^ 2) as Hty by (unfold ty; case_match; vm_compute; done).
  assert (∀ i, 2 ≤ i → Z.testbit ty i = false) as Bt by (intros; by apply (testbit_small 2)).
  assert (∀ i, 62 ≤ i → Z.testbit idx i = false) as Bi by (intros; apply (testbit_small 62); lia).
  assert (get_index (Z.lor (Z.shiftl idx 2) ty) = idx) as Ei.
  { unfold get_index. change INDEX_MASK with (Z.ldiff (Z.ones 64) (Z.ones 2)). change INDEX_SHIFT with 2.
    apply Z.bits_inj'. intros i Hi. bits_norm. rewrite Z.add_simpl_r. bits_case.
    - rewrite Bt by lia. by rewrite orb_false_r, andb_true_r.
    - rewrite (Bi i) by lia. by rewrite andb_false_r. }
  assert (Z.land (Z.lor (Z.shiftl idx 2) ty) TYPE_MASK = ty) as Et.
  { change TYPE_MASK with (Z.ones 2). apply Z.bits_inj'. intros i Hi. bits_norm. bits_case.
    - by rewrite andb_true_r.
    - rewrite (Bt i) by lia. by rewrite andb_false_r. }
  assert (2 ^ k < 2 ^ 64) by (apply Z.pow_lt_mono_r; lia).
  assert (max_space_extent vm = 2 ^ k) as Em.
  { unfold max_space_extent. fold k. rewrite ushl_id; lia. }
  pose proof (div_mul_bounds start (2 ^ k) ltac:(lia)) as Hb. fold idx in Hb.
  rewrite Ei, Em. split_and!.
  - done.
  - simpl. fold k. unfold align_down. rewrite align_down_eq by (unfold is_u; lia).
    rewrite ushl_id; fold idx; lia.
  - done.
  - apply (type_tests _ _ Et). unfold ty. case_match; auto.
  - apply (type_tests _ _ Et). unfold ty. case_match; auto.
  - etransitivity; [apply (type_tests _ _ Et); unfold ty; case_match; auto|]. unfold ty. by case_match.
Qed.

(** C22: descriptors of heap ranges.  On a layout without contiguous spaces, the descriptor of a
    chunk-aligned range of less than 1024 chunks gives back the start and the size of the range.
    On a layout with contiguous spaces, the descriptor of a range that starts at or below the
    end of the heap gives back the space of its start: its index, its start and the size of a
    space, whatever part of the space the range is.  In both cases the descriptor is contiguous,
    not empty, and marked high exactly when the range ends where the heap does. *)
Theorem descriptor_roundtrip (vm : VMLayout) (start end_ : Z) :
  let d := create_descriptor_from_heap_range vm start end_ in
  (force_use_contiguous_spaces vm = false →
    (BYTES_IN_CHUNK | start) → (BYTES_IN_CHUNK | end_) → 0 < start < end_ → end_ ≤ 2 ^ 47 → end_ - start < 1024 * BYTES_IN_CHUNK →
    get_start vm d = start ∧ get_extent vm d = end_ - start ∧
    is_empty d = false ∧ is_contiguous d = true ∧ is_contiguous_hi d = (end_ =? heap_end vm)) ∧
  (force_use_contiguous_spaces vm = true → 0 ≤ log_space_extent vm < 64 → 0 ≤ start ≤ heap_end vm → start < 2 ^ 62 →
    get_index d = start `div` 2 ^ (log_space_extent vm) ∧
    get_start vm d = align_down start (max_space_extent vm) ∧ get_extent vm d = max_space_extent vm ∧
    is_empty d = false ∧ is_contiguous d = true ∧ is_contiguous_hi d = (end_ =? heap_end vm)).
Proof. split; intros; [by apply descriptor_range|by apply descriptor_space]. Qed.

Definition compressed_layout : VMLayout :=
  {| log_address_space := 35; heap_start := 0x4000000; heap_end := 0x80000000;
     log_space_extent := 31; force_use_contiguous_spaces := false; small_chunk_space_size := None |}.

(** A range of a compressed layout, and the last space of a layout with contiguous spaces. *)
Lemma descriptor_roundtrip_witness :
  (let d := create_descriptor_from_heap_range compressed_layout 0x4000000 0x8000000 in
   get_start compressed_layout d = 0x4000000 ∧ get_extent compressed_layout d = 0x8000000 - 0x4000000 ∧
   is_empty d = false ∧ is_contiguous d = true ∧ is_contiguous_hi d = (0x8000000 =? 0x80000000)) ∧
  let d := create_descriptor_from_heap_range sample_layout 0x060000400000 0x080000000000 in
  get_index d = 0x060000400000 `div` 2 ^ (log_space_extent sample_layout) ∧
  get_start sample_layout d = align_down 0x060000400000 (max_space_extent sample_layout) ∧ get_extent sample_layout d = max_space_extent sample_layout ∧
  is_empty d = false ∧ is_contiguous d = true ∧ is_contiguous_hi d = (0x080000000000 =? heap_end sample_layout).
Proof.
  split; [apply (descriptor_roundtrip compressed_layout 0x4000000 0x8000000)|apply (descriptor_roundtrip sample_layout 0x060000400000 0x080000000000)]; try (vm_compute; done).
  - by exists 16.
  - by exists 32.
Defined.

(** A range of 1024 chunks, which a debug assertion excludes, does not come back: its size runs
    into the exponent. *)
Example large_range_lost : get_extent compressed_layout (create_descriptor_from_heap_range compressed_layout 0x400000 (0x400000 + 1024 * 2 ^ 22)) = 0.
Proof. by vm_compute. Qed.

(** The first [k] descriptors of discontiguous spaces, and the counter after. *)
Fixpoint create_descriptors (k : nat) (counter : Z) : list SpaceDescriptor * Z :=
  match k with
  | O => ([], counter)
  | S k => let '(d, counter) := create_descriptor counter in
    let '(ds, counter) := create_descriptors k counter in (d :: ds, counter)
  end.

Lemma create_descriptors_spec k n :
  0 < n → (n + Z.of_nat k) * 4 < 2 ^ 64 →
  (create_descriptors k (n * 4)).1 = (λ i, i * 4) <$> seqZ n (Z.of_nat k).
Proof.
  revert n. induction k as [|k IH]; intros n Hn Hov; [done|].
  simpl create_descriptors. change DISCONTIG_INDEX_INCREMENT with 4.
  rewrite uadd_id by lia. replace (n * 4 + 4) with ((n + 1) * 4) by lia.
  specialize (IH (n + 1)). destruct (create_descriptors k ((n + 1) * 4)) as [ds c]. simpl in *.
  rewrite IH by lia. rewrite Nat2Z.inj_succ, (seqZ_cons n) by lia. by rewrite Z.pred_succ, <-Z.add_1_r.
Qed.

(** The descriptors of discontiguous spaces are pairwise distinct, never the
    uninitialised one, and never look like a contiguous space. *)
Theorem discontiguous_descriptors (k : nat) :
  (1 + Z.of_nat k) * 4 < 2 ^ 64 →
  let ds := (create_descriptors k DISCONTIG_INDEX_INCREMENT).1 in
  NoDup ds ∧ ∀ d, d ∈ ds → is_empty d = false ∧ is_contiguous d = false ∧ is_contiguous_hi d = false.
Proof.
  intros Hk ds. assert (ds = (λ i, i * 4) <$> seqZ 1 (Z.of_nat k)) as ->.
  { apply (create_descriptors_spec k 1); lia. }
  split.
  - apply NoDup_fmap_2; [intros x y; lia|]. apply NoDup_seqZ.
  - intros d (i & -> & Hi)%list_elem_of_fmap. apply elem_of_seqZ in Hi.
    unfold is_empty, is_contiguous, is_contiguous_hi.
    assert (Z.land (i * 4) TYPE_MASK = 0) as E.
    { change TYPE_MASK with (Z.ones 2). rewrite Z.land_ones by lia. change 4 with (2 ^ 2).
      apply Z.mod_mul. lia. }
    rewrite E. split_and!; [|..|done].
    + destruct (Z.eqb_spec (i * 4) UNINITIALIZED); [unfold UNINITIALIZED in *; lia|done].
    + assert (Z.land (i * 4) TYPE_CONTIGUOUS = Z.land (Z.land (i * 4) TYPE_MASK) TYPE_CONTIGUOUS) as ->.
      { rewrite <-Z.land_assoc. done. }
      by rewrite E.
Qed.

Lemma discontiguous_descriptors_witness :
  let ds := (create_descriptors 5 DISCONTIG_INDEX_INCREMENT).1 in
  NoDup ds ∧ ∀ d, d ∈ ds → is_empty d = false ∧ is_contiguous d = false ∧ is_contiguous_hi d = false.
Proof. apply (discontiguous_descriptors 5). vm_compute. done. Defined.
