(* ===== verification/Memory.v ===== *)
(** * Memory

    Byte-addressed memory as the loads and stores of src/src/util/address.rs and the
    [set]/[zero] of src/src/util/memory.rs see it (little endian), and its view as
    one sequence of bits, in which a side metadata value of any width is a run of
    consecutive bits. *)

From S2P Require Import Prelude.

(** The byte at each address. *)
Abbreviation mem := (Z → Z).
Definition mem_ok (M : mem) : Prop := ∀ a, is_u 8 (M a).

(** [load::<T>] and [store::<T>] for a [T] of [n] bytes. *)
Fixpoint load_bytes (n : nat) (M : mem) (a : Z) : Z :=
  match n with O => 0 | S n => M a + 2 ^ 8 * load_bytes n M (a + 1) end.
Definition store_bytes (n : nat) (M : mem) (a v : Z) : mem :=
  λ x, if (a <=? x) && (x <? a + Z.of_nat n) then uwrap 8 (Z.shiftr v (8 * (x - a))) else M x.

Definition load_u8 (M : mem) (a : Z) : Z := M a.
Definition store_u8 (M : mem) (a v : Z) : mem := <[a := v]> M.

(** [memory::set] and [memory::zero]. *)
Definition mem_set (M : mem) (start val len : Z) : mem :=
  λ x, if (start <=? x) && (x <? start + len) then val else M x.
Definition mem_zero (M : mem) (start len : Z) : mem := mem_set M start 0 len.

(** [ptr::copy]: the bytes are read before any is written. *)
Definition mem_copy (M : mem) (src dst len : Z) : mem :=
  λ x, if (dst <=? x) && (x <? dst + len) then M (src + (x - dst)) else M x.

(** The bit at position [j] of memory. *)
Definition membit (M : mem) (j : Z) : bool := Z.testbit (M (j `div` 8)) (j `mod` 8).

Lemma div8 a i : 0 ≤ i < 8 → (8 * a + i) `div` 8 = a.
Proof. intros. rewrite Z.mul_comm, Z.div_add_l by lia. rewrite Z.div_small; lia. Qed.
Lemma mod8 a i : 0 ≤ i < 8 → (8 * a + i) `mod` 8 = i.
Proof. intros. rewrite Z.add_comm, Z.mul_comm, Z.mod_add by lia. apply Z.mod_small. lia. Qed.
Lemma divmod8 j : j = 8 * (j `div` 8) + j `mod` 8 ∧ 0 ≤ j `mod` 8 < 8.
Proof. pose proof (Z.div_mod j 8). pose proof (Z.mod_pos_bound j 8). lia. Qed.

Lemma membit_at M a i : 0 ≤ i < 8 → membit M (8 * a + i) = Z.testbit (M a) i.
Proof. intros. unfold membit. by rewrite div8, mod8. Qed.

(** Splits a bit position into its byte and the bit in the byte. *)
Ltac split_bit j a i :=
  let E := fresh in let H := fresh in
  pose proof (divmod8 j) as [E H]; set (a := j `div` 8) in *; set (i := j `mod` 8) in *;
  clearbody a i; subst j.

Lemma mem_ext_bits M M' :
  mem_ok M → mem_ok M' → (∀ j, membit M j = membit M' j) → ∀ a, M a = M' a.
Proof.
  intros HM HM' Hb a. apply Z.bits_inj'. intros i Hi. destruct (decide (i < 8)).
  - rewrite <-!membit_at by lia. apply Hb.
  - rewrite !(testbit_small 8) by (first [apply HM | apply HM' | lia]). done.
Qed.

Lemma membit_store_u8 M a v j :
  membit (store_u8 M a v) j = if j `div` 8 =? a then Z.testbit v (j `mod` 8) else membit M j.
Proof.
  unfold membit, store_u8. destruct (Z.eqb_spec (j `div` 8) a) as [->|].
  - by rewrite fn_lookup_insert.
  - by rewrite fn_lookup_insert_ne.
Qed.

Lemma load_bytes_range n M a : mem_ok M → is_u (8 * Z.of_nat n) (load_bytes n M a).
Proof.
  intros HM. revert a. induction n as [|n IH]; intros a; simpl load_bytes.
  { vm_compute. done. }
  specialize (IH (a + 1)). pose proof (HM a). unfold is_u in *.
  rewrite Nat2Z.inj_succ. replace (8 * Z.succ (Z.of_nat n)) with (8 + 8 * Z.of_nat n) by lia.
  rewrite Z.pow_add_r by lia. lia.
Qed.

Lemma testbit_load_bytes n M a i :
  mem_ok M → 0 ≤ i → Z.testbit (load_bytes n M a) i = (i <? 8 * Z.of_nat n) && membit M (8 * a + i).
Proof.
  intros HM. revert a i. induction n as [|n IH]; intros a i Hi; simpl load_bytes.
  { rewrite Z.bits_0. destruct (Z.ltb_spec i (8 * Z.of_nat 0)); [lia|done]. }
  assert (M a + 2 ^ 8 * load_bytes n M (a + 1) = Z.lor (M a) (Z.shiftl (load_bytes n M (a + 1)) 8)) as ->.
  { rewrite Z.mul_comm, <-Z.shiftl_mul_pow2 by lia.
    assert (Z.land (M a) (Z.shiftl (load_bytes n M (a + 1)) 8) = 0) as E0.
    { apply Z.bits_inj'; intros k Hk; rewrite Z.land_spec, testbit_shiftl, Z.bits_0 by lia.
      destruct (Z.leb_spec 8 k); [|by rewrite andb_false_r].
      by rewrite (testbit_small 8 (M a)) by (apply HM || lia). }
    rewrite <-Z.lxor_lor by done. by apply Z.add_nocarry_lxor. }
  rewrite Z.lor_spec, testbit_shiftl by lia. destruct (Z.leb_spec 8 i); simpl.
  - rewrite (testbit_small 8 (M a)) by (apply HM || lia). simpl. rewrite IH by lia.
    replace (8 * (a + 1) + (i - 8)) with (8 * a + i) by lia. f_equal.
    destruct (Z.ltb_spec (i - 8) (8 * Z.of_nat n)), (Z.ltb_spec i (8 * Z.of_nat (S n))); lia || done.
  - rewrite orb_false_r. rewrite membit_at by lia.
    destruct (Z.ltb_spec i (8 * Z.of_nat (S n))); [done|lia].
Qed.

Lemma membit_store_bytes n M a v j :
  membit (store_bytes n M a v) j =
  if (8 * a <=? j) && (j <? 8 * a + 8 * Z.of_nat n) then Z.testbit v (j - 8 * a) else membit M j.
Proof.
  split_bit j x i. rewrite !membit_at by lia. unfold store_bytes.
  destruct (Z.leb_spec a x), (Z.leb_spec (8 * a) (8 * x + i)); simpl; try lia; try done.
  destruct (Z.ltb_spec x (a + Z.of_nat n)), (Z.ltb_spec (8 * x + i) (8 * a + 8 * Z.of_nat n)); try lia; try done.
  rewrite testbit_uwrap by lia. destruct (Z.ltb_spec i 8); [|lia]. simpl.
  rewrite Z.shiftr_spec by lia. f_equal. lia.
Qed.

Lemma membit_set M start val len j :
  membit (mem_set M start val len) j =
  if (8 * start <=? j) && (j <? 8 * (start + len)) then Z.testbit val (j `mod` 8) else membit M j.
Proof.
  unfold membit at 1, mem_set. pose proof (divmod8 j) as [E H].
  set (x := j `div` 8) in *. set (i := j `mod` 8) in *.
  destruct (Z.leb_spec start x), (Z.leb_spec (8 * start) j); simpl; try lia; try done.
  destruct (Z.ltb_spec x (start + len)), (Z.ltb_spec j (8 * (start + len))); try lia; done.
Qed.

Lemma membit_copy M src dst len j :
  membit (mem_copy M src dst len) j =
  if (8 * dst <=? j) && (j <? 8 * (dst + len)) then membit M (j + 8 * (src - dst)) else membit M j.
Proof.
  unfold membit, mem_copy. pose proof (divmod8 j) as [E H].
  set (x := j `div` 8) in *. set (i := j `mod` 8) in *.
  assert ((j + 8 * (src - dst)) `div` 8 = src + (x - dst) ∧ (j + 8 * (src - dst)) `mod` 8 = i) as [-> ->].
  { rewrite E. replace (8 * x + i + 8 * (src - dst)) with (8 * (src + (x - dst)) + i) by lia.
    by rewrite div8, mod8. }
  destruct (Z.leb_spec dst x), (Z.leb_spec (8 * dst) j); simpl; try lia; try done.
  destruct (Z.ltb_spec x (dst + len)), (Z.ltb_spec j (8 * (dst + len))); try lia; done.
Qed.

(** The stores keep bytes in range. *)
Lemma mem_ok_store_u8 M a v : mem_ok M → is_u 8 v → mem_ok (store_u8 M a v).
Proof.
  intros HM Hv x. unfold store_u8. destruct (decide (x = a)) as [->|].
  - by rewrite fn_lookup_insert.
  - by rewrite fn_lookup_insert_ne.
Qed.
Lemma mem_ok_store_bytes n M a v : mem_ok M → mem_ok (store_bytes n M a v).
Proof. intros HM x. unfold store_bytes. case_match; [apply uwrap_range; lia|apply HM]. Qed.
Lemma mem_ok_set M s v l : mem_ok M → is_u 8 v → mem_ok (mem_set M s v l).
Proof. intros HM Hv x. unfold mem_set. case_match; [done|apply HM]. Qed.
Lemma mem_ok_copy M s d l : mem_ok M → mem_ok (mem_copy M s d l).
Proof. intros HM x. unfold mem_copy. case_match; apply HM. Qed.
#[export] Hint Resolve mem_ok_store_u8 mem_ok_store_bytes mem_ok_set mem_ok_copy : core.

(** ** Reading what was written *)

Lemma load_bytes_ext n M M' a a' :
  (∀ i, 0 ≤ i < Z.of_nat n → M (a + i) = M' (a' + i)) → load_bytes n M a = load_bytes n M' a'.
Proof.
  revert a a'. induction n as [|n IH]; intros a a' E; [done|]. simpl. f_equal.
  - specialize (E 0 ltac:(lia)). by rewrite !Z.add_0_r in E.
  - f_equal. apply IH. intros i Hi. specialize (E (i + 1) ltac:(lia)).
    by replace (a + 1 + i) with (a + (i + 1)) by lia; replace (a' + 1 + i) with (a' + (i + 1)) by lia.
Qed.

Lemma load_store_same n M a v : mem_ok M → load_bytes n (store_bytes n M a v) a = uwrap (8 * Z.of_nat n) v.
Proof.
  intros HM. apply Z.bits_inj'. intros i Hi. rewrite testbit_load_bytes by auto.
  rewrite testbit_uwrap, membit_store_bytes by lia. destruct (Z.ltb_spec i (8 * Z.of_nat n)); [simpl|done].
  destruct (Z.leb_spec (8 * a) (8 * a + i)), (Z.ltb_spec (8 * a + i) (8 * a + 8 * Z.of_nat n)); try lia.
  simpl. f_equal. lia.
Qed.

Lemma load_store_other n M a b v :
  a + Z.of_nat n ≤ b ∨ b + Z.of_nat n ≤ a → load_bytes n (store_bytes n M a v) b = load_bytes n M b.
Proof.
  intros Hd. apply load_bytes_ext. intros i Hi. unfold store_bytes.
  destruct (Z.leb_spec a (b + i)), (Z.ltb_spec (b + i) (a + Z.of_nat n)); simpl; lia || done.
Qed.
