(* ===== verification/RawMemoryFreeList.v ===== *)
(** * [RawMemoryFreeList] (src/src/util/raw_memory_freelist.rs)

    A free list whose table is a range of raw memory, mapped block by block as the
    list grows.  The memory is part of the state; an access outside the mapped part
    of the table is a fault.  The [mmap] of the operating system is a parameter that
    says whether a request succeeds: fresh pages are zero. *)

From S2P Require Import Prelude Conversions Memory FreeList FreeListModel FreeListSpec FreeListInv FreeListRefine FreeListClient.

Definition LOG_ENTRY_BITS : Z := LOG_BITS_IN_INT.
Definition LOG_BYTES_IN_ENTRY : Z := LOG_ENTRY_BITS - LOG_BITS_IN_BYTE.
Definition LOG_BYTES_IN_UNIT : Z := LOG_BYTES_IN_ENTRY + 1.

Record RawMemoryFreeList : Type := RMFL {
  rm_head : Z;
  rm_heads : Z;
  rm_base : Z;
  rm_limit : Z;
  rm_high_water : Z;
  rm_max_units : Z;
  rm_grain : Z;
  rm_current_units : Z;
  rm_pages_per_block : Z
}.

(** The list and the memory of the process. *)
Abbreviation raw := (RawMemoryFreeList * (Z → Z))%type.

Definition as_usize (x : Z) : Z := uwrap 64 x.

(** The address of an entry; the index is shifted as an [i32]. *)
Definition entry_address (l : RawMemoryFreeList) (index : Z) : Z :=
  let offset := as_usize (i32 (Z.shiftl index LOG_BYTES_IN_ENTRY)) in
  addr_add (rm_base l) offset.
Definition in_table (l : RawMemoryFreeList) (a : Z) : bool := (rm_base l <=? a) && (a <? rm_high_water l).

Definition rm_get_entry (t : raw) (index : Z) : res Z :=
  let a := entry_address t.1 index in
  if in_table t.1 a then Val (i32 (load_bytes 4 t.2 a)) else Panic.
Definition rm_set_entry (t : raw) (index value : Z) : res raw :=
  let a := entry_address t.1 index in
  if in_table t.1 a then Val (t.1, store_bytes 4 t.2 a value) else Panic.

#[export] Instance raw_FreeList : FreeList raw := {
  head t := rm_head t.1;
  heads t := rm_heads t.1;
  get_entry := rm_get_entry;
  set_entry := rm_set_entry
}.

(** The loop of [alloc] is that of [alloc_first_fit]. *)
Definition rm_alloc (fuel : nat) (t : raw) (size : Z) : res (Z * raw) :=
  if rm_current_units t.1 =? 0 then Val (FAILURE, t)
  else
    '(unit, s) ← first_fit_loop fuel t size (head t) 0;
    if unit =? head t then Val (FAILURE, t) else __alloc t size unit s.

Definition units_per_block (l : RawMemoryFreeList) : Z :=
  i32 (Z.shiftr (pages_to_bytes (as_usize (rm_pages_per_block l))) LOG_BYTES_IN_UNIT).
Definition units_in_first_block (l : RawMemoryFreeList) : Z :=
  i32 (i32 (units_per_block l - rm_heads l) - 1).
Definition size_in_pages (units heads : Z) : Z :=
  let map_size := ushl 64 (as_usize (i32 (i32 (units + heads) + 1))) LOG_BYTES_IN_UNIT in
  i32 (bytes_to_pages_up map_size).
Definition default_block_size (units heads : Z) : Z :=
  i32 (Z.min (as_usize (size_in_pages units heads)) 16).

(** The fields of a new list, and [new] with its assertions. *)
Definition rm_init (base limit pages_per_block units grain heads : Z) : RawMemoryFreeList :=
  {| rm_head := -1; rm_heads := heads; rm_base := base; rm_limit := limit; rm_high_water := base;
     rm_max_units := units; rm_grain := grain; rm_current_units := 0; rm_pages_per_block := pages_per_block |}.
Definition rm_new (base limit pages_per_block units grain heads : Z) : res RawMemoryFreeList :=
  _ ← rust_assert ((units <=? MAX_UNITS) && (heads <=? MAX_HEADS));
  _ ← rust_assert (addr_add base (pages_to_bytes (as_usize (size_in_pages units heads))) <=? limit);
  Val (rm_init base limit pages_per_block units grain heads).

Definition current_capacity (l : RawMemoryFreeList) : res Z :=
  if rm_pages_per_block l =? 0 then Panic
  else
    let list_blocks :=
      Z.quot (i32 (bytes_to_pages_up (addr_diff (rm_high_water l) (rm_base l)))) (rm_pages_per_block l) in
    Val (i32 (units_in_first_block l + i32 (i32 (list_blocks - 1) * units_per_block l))).

Definition set_high_water (l : RawMemoryFreeList) (a : Z) : RawMemoryFreeList :=
  RMFL (rm_head l) (rm_heads l) (rm_base l) (rm_limit l) a (rm_max_units l) (rm_grain l)
    (rm_current_units l) (rm_pages_per_block l).
Definition set_current_units (l : RawMemoryFreeList) (units : Z) : RawMemoryFreeList :=
  RMFL (rm_head l) (rm_heads l) (rm_base l) (rm_limit l) (rm_high_water l) (rm_max_units l) (rm_grain l)
    units (rm_pages_per_block l).

Section growth.
Context (dzmmap_noreplace : Z → Z → bool).

Definition mmap (t : raw) (start bytes : Z) : res raw :=
  _ ← rust_assert (dzmmap_noreplace start bytes);
  Val (t.1, mem_zero t.2 start bytes).

Definition raise_high_water (t : raw) (blocks : Z) : res raw :=
  let l := t.1 in
  let grow_extent := pages_to_bytes (as_usize (i32 (rm_pages_per_block l * blocks))) in
  _ ← rust_assert (negb (rm_high_water l =? rm_limit l));
  let grow_extent :=
    if rm_limit l <? addr_add (rm_high_water l) grow_extent
    then addr_diff (rm_high_water l) (rm_limit l) else grow_extent in
  t ← mmap t (rm_high_water l) grow_extent;
  Val (set_high_water t.1 (addr_add (rm_high_water l) grow_extent), t.2).

(** The [while cursor >= old_max] loop. *)
Fixpoint grow_loop (fuel : nat) (t : raw) (cursor old_max grain : Z) : res raw :=
  match fuel with
  | O => NoFuel
  | S fuel =>
    if old_max <=? cursor
    then
      t ← set_size t cursor grain;
      t ← add_to_free t cursor;
      grow_loop fuel t (i32 (cursor - grain)) old_max grain
    else Val t
  end.

(** The first assertion of [grow_list_by_blocks]; the division panics when the grain is zero. *)
Definition grain_divides (grain new_max : Z) : res bool :=
  if new_max <=? grain then Val true
  else if grain =? 0 then Panic else Val (i32 (Z.quot new_max grain * grain) =? new_max).
Definition grow_list_by_blocks (fuel : nat) (t : raw) (blocks new_max : Z) : res raw :=
  b ← grain_divides (rm_grain t.1) new_max;
  _ ← rust_assert b;
  t ← (if 0 <? blocks then raise_high_water t blocks else Val t);
  let old_max := rm_current_units t.1 in
  capacity ← current_capacity t.1;
  _ ← rust_assert (new_max <=? capacity);
  _ ← rust_assert (new_max <=? rm_max_units t.1);
  let t := (set_current_units t.1 new_max, t.2) in
  t ← (if old_max =? 0 then for_each (λ t i, set_sentinel t (- i)) (seqZ 1 (rm_heads t.1)) t
       else set_size t old_max 1);
  if new_max =? 0 then Val t
  else
    t ← set_sentinel t new_max;
    let grain := Z.min (rm_grain t.1) (i32 (new_max - old_max)) in
    grow_loop fuel t (i32 (new_max - grain)) old_max grain.

Definition grow_freelist (fuel : nat) (t : raw) (units : Z) : res (bool * raw) :=
  let required_units := i32 (units + rm_current_units t.1) in
  if rm_max_units t.1 <? required_units then Val (false, t)
  else
    capacity ← current_capacity t.1;
    blocks ← (if capacity <? required_units then
                let units_requested := i32 (required_units - capacity) in
                if units_per_block t.1 =? 0 then Panic
                else Val (Z.quot (i32 (i32 (units_requested + units_per_block t.1) - 1)) (units_per_block t.1))
              else Val 0);
    t ← grow_list_by_blocks fuel t blocks required_units;
    Val (true, t).
End growth.

(** ** Theorems *)

(** ** Words in memory *)

Lemma i32_uwrap v : is_i32 v → i32 (uwrap 32 v) = v.
Proof.
  unfold is_i32, i32, uwrap. intros Hv.
  rewrite Z.add_mod_idemp_l by lia. rewrite Z.mod_small by lia. lia.
Qed.

(** ** The laws *)

Record raw_wf (t : raw) : Prop := {
  rw_mem : mem_ok t.2;
  rw_base : 0 ≤ rm_base t.1 ≤ rm_high_water t.1;
  rw_high : rm_high_water t.1 < 2 ^ 64;
  rw_small : rm_high_water t.1 - rm_base t.1 ≤ 2 ^ 31
}.
Definition raw_entries (t : raw) : Z := (rm_high_water t.1 - rm_base t.1) `div` 4.

Lemma entry_address_eq t i :
  raw_wf t → 0 ≤ i < raw_entries t →
  entry_address t.1 i = rm_base t.1 + 4 * i ∧ in_table t.1 (rm_base t.1 + 4 * i) = true ∧
  rm_base t.1 + 4 * i + 4 ≤ rm_high_water t.1.
Proof.
  intros [HM Hb Hh Hs] Hi. unfold raw_entries in Hi.
  pose proof (Z.mul_div_le (rm_high_water t.1 - rm_base t.1) 4 ltac:(lia)).
  assert (4 * i + 4 ≤ rm_high_water t.1 - rm_base t.1) by lia.
  unfold entry_address, as_usize, addr_add, in_table. change LOG_BYTES_IN_ENTRY with 2.
  rewrite Z.shiftl_mul_pow2 by lia. change (2 ^ 2) with 4. rewrite i32_id, uwrap_id, uadd_id by (unfold is_i32; lia).
  split_and!; [lia| |lia]. apply andb_true_iff. rewrite Z.leb_le, Z.ltb_lt. lia.
Qed.

(** The object itself does not change when entries are written: the laws hold with
    it fixed. *)
Program Definition raw_Laws (obj : RawMemoryFreeList) : FreeListLaws raw := {|
  entries := raw_entries;
  fl_wf t := raw_wf t ∧ t.1 = obj
|}.
Next Obligation.
  intros obj t i [Hwf _] Hi. destruct (entry_address_eq t i Hwf Hi) as (E & Hin & _). simpl. unfold rm_get_entry.
  rewrite E, Hin. eexists. split; [done|]. apply i32_range.
Qed.
Next Obligation.
  intros obj t i v [Hwf Hobj] Hi Hv. destruct (entry_address_eq t i Hwf Hi) as (E & Hin & Hend).
  cbn [get_entry set_entry head heads raw_FreeList]. unfold rm_set_entry.
  rewrite E, Hin. eexists. split; [done|]. pose proof Hwf as [HM Hb Hh Hs]. split_and!; try done.
  - split; simpl; auto.
  - intros j Hj. destruct (entry_address_eq t j Hwf Hj) as (Ej & Hinj & _). unfold rm_get_entry. cbn [fst snd].
    rewrite Ej, Hinj. case_decide as Eji.
    + subst. rewrite load_store_same by done. change (8 * Z.of_nat 4) with 32. by rewrite i32_uwrap.
    + do 2 f_equal. apply load_store_other. change (Z.of_nat 4) with 4. lia.
Qed.

(** A list over raw memory, and the list of blocks it stands for. *)
Definition raw_rel (t : raw) (h H n : Z) (uc : Z → bool) (ss : list seg) (l : list Z) : Prop :=
  fl_rel (FreeListLaws0 := raw_Laws t.1) t h H n uc ss l.

(** ** Growth *)

Lemma grow_loop_init fuel t cursor grain : grow_loop fuel t cursor 0 grain = init_loop fuel t cursor grain.
Proof.
  revert t cursor. induction fuel as [|fuel IH]; intros t cursor; [done|]. simpl.
  destruct (0 <=? cursor); [|done]. destruct (set_size t cursor grain) as [t1| |]; simpl; [|done..].
  destruct (add_to_free t1 cursor) as [t2| |]; simpl; [apply IH|done..].
Qed.

(** The bytes mapped for a list of [units] in blocks of [ppb] pages: 512 units to a
    page, in whole blocks. *)
Definition table_blocks (ppb units heads : Z) : Z := (units + heads + 1 + 512 * ppb - 1) `div` (512 * ppb).
Definition table_extent (ppb units heads : Z) : Z := table_blocks ppb units heads * ppb * 4096.

(** Fields in the range of their types. *)
Record raw_params (base limit ppb units grain heads : Z) : Prop := {
  rp_base : 0 ≤ base;
  rp_limit : base + table_extent ppb units heads ≤ limit < 2 ^ 64;
  rp_ppb : 1 ≤ ppb;
  rp_units : 1 ≤ units ≤ MAX_UNITS;
  rp_grain : 1 ≤ grain < 2 ^ 31;
  rp_heads : 1 ≤ heads ≤ MAX_HEADS;
  rp_small : table_extent ppb units heads ≤ 2 ^ 31
}.

Section growth.
Context (base limit ppb units grain heads : Z) (HP : raw_params base limit ppb units grain heads).
Abbreviation blocks := (table_blocks ppb units heads).

Lemma blocks_bounds :
  1 ≤ blocks ∧ blocks * ppb * 4096 ≤ 2 ^ 31 ∧ units + heads + 1 ≤ blocks * (512 * ppb) ∧ ppb ≤ 2 ^ 19 ∧
  MAX_UNITS = 2 ^ 30 - 130 ∧ MAX_HEADS = 128.
Proof.
  destruct HP. unfold table_extent, table_blocks in *. set (u := units + heads + 1) in *.
  pose proof (Z.div_mod (u + 512 * ppb - 1) (512 * ppb) ltac:(lia)).
  pose proof (Z.mod_pos_bound (u + 512 * ppb - 1) (512 * ppb) ltac:(lia)).
  set (b := (u + 512 * ppb - 1) `div` (512 * ppb)) in *.
  assert (1 ≤ b) by nia. split_and!; [done|done|nia|nia|done|done].
Qed.

Lemma units_per_block_eq l : rm_pages_per_block l = ppb → units_per_block l = 512 * ppb.
Proof.
  intros E. destruct blocks_bounds as (? & ? & ? & ? & _ & _), HP. unfold units_per_block, pages_to_bytes, as_usize.
  rewrite E, uwrap_id by lia. change LOG_BYTES_IN_PAGE with 12. change LOG_BYTES_IN_UNIT with 3.
  rewrite ushl_id by (change (2 ^ 12) with 4096; lia). rewrite shiftr_div by lia.
  change (2 ^ 12) with 4096. change (2 ^ 3) with 8. replace (ppb * 4096) with (512 * ppb * 8) by lia.
  rewrite Z.div_mul by lia. apply i32_id. unfold is_i32. lia.
Qed.

(** The capacity of a list with [k] blocks mapped. *)
Lemma current_capacity_eq l k :
  rm_pages_per_block l = ppb → rm_heads l = heads → 0 ≤ k ≤ blocks → 0 ≤ rm_base l →
  rm_high_water l = rm_base l + k * ppb * 4096 → rm_high_water l < 2 ^ 64 →
  current_capacity l = Val (k * (512 * ppb) - heads - 1).
Proof.
  intros Ep Eh Hk Hb Ehw Hhw. destruct blocks_bounds as (? & ? & ? & ? & E1 & E2), HP.
  assert (0 ≤ k * ppb ≤ blocks * ppb) as Hkp by nia.
  unfold current_capacity. rewrite Ep. destruct (Z.eqb_spec ppb 0); [lia|].
  unfold addr_diff. rewrite usub_id by lia. rewrite Ehw. replace (rm_base l + _ - _) with (k * ppb * 4096) by lia.
  unfold bytes_to_pages_up. change BYTES_IN_PAGE with (2 ^ 12). change LOG_BYTES_IN_PAGE with 12.
  rewrite align_up_eq, shiftr_div, Z.div_mul by lia. change (2 ^ 12) with 4096.
  assert ((k * ppb * 4096 + 4096 - 1) `div` 4096 = k * ppb) as ->.
  { symmetry. apply Z.div_unique_pos with 4095; lia. }
  rewrite (i32_id (k * ppb)) by (unfold is_i32; lia). rewrite Z.quot_mul by lia.
  unfold units_in_first_block. rewrite !(units_per_block_eq l Ep), Eh.
  assert (0 ≤ k * (512 * ppb) ≤ 2 ^ 28) by lia. f_equal.
  rewrite (i32_id (512 * ppb - heads)), (i32_id (512 * ppb - heads - 1)), (i32_id (k - 1)) by (unfold is_i32; nia).
  rewrite (i32_id (_ * _)) by (unfold is_i32; nia). rewrite i32_id by (unfold is_i32; nia). lia.
Qed.

(** Entries are written to memory: the object does not change. *)
Lemma set_sentinel_obj (t t' : raw) u : set_sentinel t u = Val t' → t'.1 = t.1.
Proof.
  unfold set_sentinel, set_lo_entry, set_hi_entry. cbn [set_entry raw_FreeList]. unfold rm_set_entry.
  case_match; [|done]. cbn [mbind res_bind]. case_match; [|done]. by intros [= <-].
Qed.

Lemma sentinels_obj l (t t' : raw) : for_each (λ t i, set_sentinel t (- i)) l t = Val t' → t'.1 = t.1.
Proof.
  revert t. induction l as [|i l IH]; intros t; simpl; [by intros [= <-]|].
  destruct (set_sentinel t (- i)) as [t1| |] eqn:E; [|done..]. apply set_sentinel_obj in E.
  intros Et%IH. congruence.
Qed.

(** The list after its first block was mapped. *)
Definition grown (M : Z → Z) : raw :=
  (set_current_units (set_high_water (rm_init base limit ppb units grain heads)
     (base + table_extent ppb units heads)) units, mem_zero M base (table_extent ppb units heads)).

Lemma grown_wf M : mem_ok M → raw_wf (grown M).
Proof.
  intros HM. destruct blocks_bounds as (? & ? & ? & ? & E1 & E2), HP.
  assert (0 ≤ table_extent ppb units heads) by (unfold table_extent; nia). split; simpl; try lia.
  unfold mem_zero. apply mem_ok_set; [done|by vm_compute].
Qed.

Lemma grown_entries M : 2 * (units + 1 + heads) ≤ raw_entries (grown M).
Proof.
  destruct blocks_bounds as (? & ? & ? & ? & E1 & E2), HP. unfold raw_entries. simpl.
  replace (base + table_extent ppb units heads - base) with (table_extent ppb units heads) by lia.
  apply Z.div_le_lower_bound; [lia|]. unfold table_extent. nia.
Qed.

Lemma grown_zero M i : mem_ok M → 0 ≤ i < raw_entries (grown M) → get_entry (grown M) i = Val 0.
Proof.
  intros HM Hi. destruct (entry_address_eq (grown M) i (grown_wf M HM) Hi) as (E & Hin & Hend).
  cbn [get_entry raw_FreeList]. unfold rm_get_entry. rewrite E, Hin.
  assert (load_bytes 4 (grown M).2 (rm_base (grown M).1 + 4 * i) = 0) as ->; [|done]. apply Z.bits_inj'. intros j Hj.
  simpl rm_base in *. simpl rm_high_water in *.
  rewrite testbit_load_bytes by (apply (grown_wf M HM) || done). rewrite Z.bits_0. cbn [snd grown].
  unfold mem_zero. rewrite membit_set, Z.bits_0. change (Z.of_nat 4) with 4. change (8 * 4) with 32.
  destruct (Z.ltb_spec j 32); [simpl|done].
  destruct (Z.leb_spec (8 * base) (8 * (base + 4 * i) + j)), (Z.ltb_spec (8 * (base + 4 * i) + j) (8 * (base + table_extent ppb units heads)));
    try lia; done.
Qed.

(** The first growth does what [initialize_heap] does, in blocks of the smaller of
    the grain and the units. *)
Lemma grain_divides_eq : grain_divides grain units = Val (units `mod` Z.min grain units =? 0).
Proof.
  destruct blocks_bounds as (_ & _ & _ & _ & E1 & _), HP. unfold grain_divides. destruct (Z.leb_spec units grain).
  - rewrite Z.min_r, Z.mod_same by lia. done.
  - rewrite Z.min_l by lia. destruct (Z.eqb_spec grain 0); [lia|]. rewrite Z.quot_div_nonneg by lia. pose proof (Z.div_mod units grain ltac:(lia)) as Hd. pose proof (Z.mod_pos_bound units grain ltac:(lia)).
    rewrite i32_id by (unfold is_i32; lia). f_equal. destruct (Z.eqb_spec (units `mod` grain) 0), (Z.eqb_spec (units `div` grain * grain) units); lia.
Qed.
Lemma rm_new_ok : rm_new base limit ppb units grain heads = Val (rm_init base limit ppb units grain heads).
Proof.
  destruct blocks_bounds as (Hb & Hext & Hu & Hp & E1 & E2). pose proof HP as [Hbase Hlim Hppb Hun Hgr Hhd Hsm]. unfold rm_new.
  rewrite (proj2 (Z.leb_le units MAX_UNITS)), (proj2 (Z.leb_le heads MAX_HEADS)) by lia. cbn [andb rust_assert mbind res_bind].
  assert (size_in_pages units heads = (units + heads + 1 + 511) `div` 512) as ->.
  { unfold size_in_pages, as_usize, bytes_to_pages_up. change LOG_BYTES_IN_UNIT with 3. change BYTES_IN_PAGE with (2 ^ 12). change LOG_BYTES_IN_PAGE with 12.
    rewrite (i32_id (units + heads)), (i32_id (_ + 1)), uwrap_id, ushl_id by (unfold is_i32; lia). rewrite align_up_eq, shiftr_div, Z.div_mul by lia.
    replace ((units + heads + 1) * 2 ^ 3 + 2 ^ 12 - 1) with ((units + heads + 1) * 2 ^ 3 + 4095) by lia.
    assert (((units + heads + 1) * 2 ^ 3 + 4095) `div` 2 ^ 12 = (units + heads + 1 + 511) `div` 512) as ->.
    { pose proof (Z.div_mod (units + heads + 1 + 511) 512 ltac:(lia)). pose proof (Z.mod_pos_bound (units + heads + 1 + 511) 512 ltac:(lia)).
      symmetry. apply Z.div_unique_pos with (8 * ((units + heads + 1 + 511) `mod` 512) + 7); lia. }
    apply i32_id. assert (0 ≤ (units + heads + 1 + 511) `div` 512 < 2 ^ 22) by (split; [apply Z.div_pos; lia|apply Z.div_lt_upper_bound; lia]). unfold is_i32. lia. }
  assert ((units + heads + 1 + 511) `div` 512 ≤ blocks * ppb) as Hle by (apply Z.lt_succ_r, Z.div_lt_upper_bound; lia).
  assert (0 ≤ (units + heads + 1 + 511) `div` 512) by (apply Z.div_pos; lia). set (k := (units + heads + 1 + 511) `div` 512) in *. unfold table_extent in *.
  unfold as_usize, pages_to_bytes, addr_add. change LOG_BYTES_IN_PAGE with 12. rewrite uwrap_id, ushl_id, uadd_id by lia. by rewrite (proj2 (Z.leb_le (base + k * 2 ^ 12) limit)) by lia.
Qed.
Lemma first_growth mmap_ok fuel M :
  mem_ok M →
  grow_freelist mmap_ok fuel (rm_init base limit ppb units grain heads, M) units =
  if (units `mod` Z.min grain units =? 0) && mmap_ok base (table_extent ppb units heads)
  then (λ t, (true, t)) <$> initialize_heap fuel (grown M) units (Z.min grain units) else Panic.
Proof.
  intros HM. destruct blocks_bounds as (Hb & Hext & Hu & Hp & E1 & E2). pose proof HP as [Hbase Hlim Hppb Hun Hgr Hhd Hsm].
  set (t0 := (rm_init base limit ppb units grain heads, M)).
  assert (0 ≤ table_extent ppb units heads) as Hext0 by (unfold table_extent; nia).
  assert (1 ≤ ppb * blocks ≤ 2 ^ 19) as Hpb by nia.
  unfold grow_freelist. simpl rm_current_units. rewrite Z.add_0_r, i32_id by (unfold is_i32; lia).
  simpl rm_max_units. rewrite Z.ltb_irrefl.
  rewrite (current_capacity_eq t0.1 0) by (simpl; done || lia). simpl mbind. cbv beta iota.
  rewrite Z.mul_0_l. destruct (Z.ltb_spec (0 - heads - 1) units); [|lia].
  rewrite !units_per_block_eq by done. destruct (Z.eqb_spec (512 * ppb) 0); [lia|].
  rewrite (i32_id (units - (0 - heads - 1))) by (unfold is_i32; lia).
  rewrite (i32_id (_ + 512 * ppb)) by (unfold is_i32; nia). rewrite i32_id by (unfold is_i32; nia).
  rewrite Z.quot_div_nonneg by lia.
  replace (units - (0 - heads - 1) + 512 * ppb - 1) with (units + heads + 1 + 512 * ppb - 1) by lia.
  fold blocks. simpl mbind. cbv beta iota. unfold grow_list_by_blocks. change (rm_grain t0.1) with grain. rewrite grain_divides_eq. cbn [mbind res_bind].
  destruct (Z.eqb_spec (units `mod` Z.min grain units) 0) as [Hmod|]; [|done]. cbn [rust_assert mbind res_bind andb]. destruct (Z.ltb_spec 0 blocks); [|lia].
  unfold raise_high_water, mmap. simpl rm_pages_per_block. simpl rm_high_water. simpl rm_limit.
  rewrite (i32_id (ppb * blocks)) by (unfold is_i32; lia). unfold as_usize, pages_to_bytes, addr_add, addr_diff.
  change LOG_BYTES_IN_PAGE with 12. rewrite uwrap_id, ushl_id by (change (2 ^ 12) with 4096; lia).
  replace (ppb * blocks * 2 ^ 12) with (table_extent ppb units heads) by (unfold table_extent; change (2 ^ 12) with 4096; ring).
  assert (base ≠ limit) by (unfold table_extent in *; nia). destruct (Z.eqb_spec base limit); [done|].
  simpl rust_assert. cbn [mbind res_bind negb]. rewrite !(uadd_id base (table_extent ppb units heads)) by lia.
  destruct (Z.ltb_spec limit (base + table_extent ppb units heads)); [lia|]. rewrite (uadd_id base (table_extent ppb units heads)) by lia.
  destruct (mmap_ok base (table_extent ppb units heads)) eqn:Hmm; [|done]. cbn [mbind res_bind rust_assert fst snd].
  rewrite (current_capacity_eq _ blocks) by (simpl; unfold table_extent in *; done || lia). cbn [mbind res_bind].
  simpl rm_max_units. simpl rm_current_units. simpl rm_heads. rewrite Z.leb_refl.
  destruct (Z.leb_spec units (blocks * (512 * ppb) - heads - 1)); [|lia]. cbn [mbind res_bind rust_assert].
  change (set_current_units _ units, _) with (grown M). unfold initialize_heap. change (FreeList.heads (grown M)) with heads.
  change (rm_heads (grown M).1) with heads. change (0 =? 0) with true. cbv iota.
  destruct (for_each _ (seqZ 1 heads) (grown M)) as [t1| |] eqn:Ef; cbn [mbind res_bind fmap res_fmap]; [|done..].
  destruct (Z.eqb_spec units 0); [lia|].
  destruct (set_sentinel t1 units) as [t2| |] eqn:Es; cbn [mbind res_bind]; [|done..].
  assert (rm_grain t2.1 = grain) as -> by (by rewrite (set_sentinel_obj _ _ _ Es), (sentinels_obj _ _ _ Ef)).
  rewrite Z.sub_0_r, (i32_id units) by (unfold is_i32; lia). set (g := Z.min grain units) in *.
  destruct (Z.eqb_spec g 0); [lia|]. rewrite Z.rem_mod_nonneg, Hmod, Z.sub_0_r by lia.
  rewrite (i32_id units) by (unfold is_i32; lia). rewrite (grow_loop_init fuel). cbn. 
  by destruct (init_loop fuel t2 (i32 (units - g)) g).
Qed.

Lemma first_growth_rel mmap_ok fuel M :
  mmap_ok base (table_extent ppb units heads) = true → mem_ok M → units `mod` Z.min grain units = 0 →
  (Z.to_nat (units `div` Z.min grain units) < fuel)%nat →
  wp (grow_freelist mmap_ok fuel (rm_init base limit ppb units grain heads, M) units)
    (λ '(b, t), b = true ∧ t.1 = (grown M).1 ∧
       raw_rel t (-1) heads units (λ _, false) (init_segs units (Z.min grain units))
         (s_start <$> init_segs units (Z.min grain units))).
Proof.
  intros Hmm HM Hmod Hf. rewrite first_growth, Hmod, Hmm by done. cbn [Z.eqb andb]. destruct bounds_eqs as [E1 E2].
  pose proof HP as [Hbase Hlim Hppb Hun Hgr Hhd Hsm]. set (obj := (grown M).1).
  assert (wp (initialize_heap fuel (grown M) units (Z.min grain units))
    (λ t, fl_rel (FreeListLaws0 := raw_Laws obj) t (-1) heads units (λ _, false) (init_segs units (Z.min grain units))
       (s_start <$> init_segs units (Z.min grain units)))) as Hinit.
  { apply initialize_heap_rel; try done; try lia.
    - split; [by apply grown_wf|done].
    - apply grown_entries.
    - intros u Hu. unfold is_coalescable, get_lo_entry. change (FreeList.heads (grown M)) with heads.
      pose proof (grown_entries M).
      rewrite (i32_id (u + heads)) by (unfold is_i32; lia).
      rewrite Z.shiftl_mul_pow2, i32_id by (unfold is_i32; lia).
      rewrite grown_zero by (done || lia). done. }
  destruct (wp_elim _ _ Hinit) as (t & -> & HR). simpl. split; [done|].
  assert (t.1 = obj) as Eobj. { destruct HR as (m & [[_ Ht] _ _ _ _ _] & _). exact Ht. }
  split; [done|]. unfold raw_rel. by rewrite Eobj.
Qed.
End growth.

(** ** The theorems *)

(** C27: a list over raw memory.  For a list of at most [MAX_UNITS] units and [MAX_HEADS] heads
    whose table, in whole blocks, fits between base and limit and has at most 2^31 bytes, [new]
    returns.  Growing the new list to its units panics if the units are more than the grain and
    not a multiple of it, or if the memory of the table can not be mapped; otherwise it returns
    a list whose units are all free, in blocks of the grain (or in one block if there are fewer
    units than that), chained in address order, and allocation on it is first-fit allocation.
    (Where whole blocks do not fit, or the table is larger, the offsets wrap:
    [raise_high_water_wraps] and [raw_entry_offset_wraps].) *)
Theorem raw_growth_refines (base limit ppb units grain heads : Z) (mmap_ok : Z → Z → bool) (fuel : nat) (M : Z → Z) :
  raw_params base limit ppb units grain heads → mem_ok M → (Z.to_nat units < fuel)%nat →
  let ss := init_segs units (Z.min grain units) in
  let fits := grain < units → (grain | units) in
  ∃ l, rm_new base limit ppb units grain heads = Val l ∧
    (¬ fits ∨ mmap_ok base (table_extent ppb units heads) = false → grow_freelist mmap_ok fuel (l, M) units = Panic) ∧
    (fits → mmap_ok base (table_extent ppb units heads) = true →
      ∃ t, grow_freelist mmap_ok fuel (l, M) units = Val (true, t) ∧
        raw_rel t (-1) heads units (λ _, false) ss (s_start <$> ss) ∧
        ∀ size, 1 ≤ size → ∃ out, rm_alloc fuel t size = Val out ∧
          alloc_post (FreeListLaws0 := raw_Laws t.1) (-1) heads units (λ _, false) ss (s_start <$> ss) size
            (first_fit ss (s_start <$> ss) size) t out).
Proof.
  intros HP HM Hf ss fits. pose proof (rp_units _ _ _ _ _ _ HP). pose proof (rp_grain _ _ _ _ _ _ HP).
  assert (fits ↔ units `mod` Z.min grain units = 0) as Hfit.
  { unfold fits. destruct (decide (grain < units)); [rewrite Z.min_l, <-Z.mod_divide by lia; tauto|]. rewrite Z.min_r, Z.mod_same by lia. tauto. }
  rewrite (rm_new_ok _ _ _ _ _ _ HP). eexists. split; [done|]. split.
  { rewrite Hfit. intros Hno. rewrite (first_growth _ _ _ _ _ _ HP) by done. destruct (Z.eqb_spec (units `mod` Z.min grain units) 0); [|done]. by destruct Hno as [?| ->]. }
  intros Hmod%Hfit Hmm.
  assert (Z.to_nat (units `div` Z.min grain units) < fuel)%nat as Hf'.
  { pose proof (Z.div_le_upper_bound units (Z.min grain units) units ltac:(lia) ltac:(nia)). lia. }
  destruct (wp_elim _ _ (first_growth_rel base limit ppb units grain heads HP mmap_ok fuel M Hmm HM Hmod Hf'))
    as ([b t] & Et & -> & Eobj & HR).
  exists t. split_and!; [done..|]. intros size Hsize. apply wp_elim. unfold rm_alloc.
  assert (rm_current_units t.1 = units) as -> by (by rewrite Eobj). destruct (Z.eqb_spec units 0); [lia|].
  apply (alloc_first_fit_refines (FreeListLaws0 := raw_Laws t.1)); [done|done|].
  apply Nat.le_lt_trans with (Z.to_nat units); [|done].
  exact (rel_length (FreeListLaws0 := raw_Laws t.1) _ _ _ _ _ _ _ HR).
Qed.

Lemma sample_raw_params : raw_params 0x10000 0x12000 1 6 2 1.
Proof. split; vm_compute; (done || split; congruence). Qed.

Lemma raw_growth_refines_witness :
  let ss := [Seg 0 2 true; Seg 2 2 true; Seg 4 2 true] in
  ∃ l t, rm_new 0x10000 0x12000 1 6 2 1 = Val l ∧ grow_freelist (λ _ _, true) 10 (l, λ _, 0) 6 = Val (true, t) ∧
    raw_rel t (-1) 1 6 (λ _, false) ss [0; 2; 4] ∧
    ∀ size, 1 ≤ size → ∃ out, rm_alloc 10 t size = Val out ∧
      alloc_post (FreeListLaws0 := raw_Laws t.1) (-1) 1 6 (λ _, false) ss [0; 2; 4] size
        (first_fit ss [0; 2; 4] size) t out.
Proof.
  destruct (raw_growth_refines 0x10000 0x12000 1 6 2 1 (λ _ _, true) 10 (λ _, 0) sample_raw_params) as (l & El & _ & Hg); [by intros a|simpl; lia|].
  destruct Hg as (t & Et & HR & Ha); [intros _; by exists 3|done|]. exists l, t. split; [exact El|]. split; [exact Et|]. split; [exact HR|exact Ha].
Defined.

(** When the blocks asked for would pass the limit, [raise_high_water] does not
    map the rest of the range: it asks for [high_water - limit] bytes, which wraps
    to almost the whole address space, and if that succeeded the high-water mark
    would move down. *)
Theorem raise_high_water_wraps (mmap_ok : Z → Z → bool) (l : RawMemoryFreeList) (M : Z → Z) (blocks : Z) :
  let hw := rm_high_water l in let limit := rm_limit l in
  0 ≤ hw < limit → limit - hw ≤ hw → 0 ≤ rm_pages_per_block l * blocks < 2 ^ 31 →
  limit < hw + rm_pages_per_block l * blocks * 4096 < 2 ^ 64 →
  raise_high_water mmap_ok (l, M) blocks =
    if mmap_ok hw (2 ^ 64 - (limit - hw))
    then Val (set_high_water l (hw - (limit - hw)), mem_zero M hw (2 ^ 64 - (limit - hw))) else Panic.
Proof.
  intros hw limit Hhw Hle Hb Hext. unfold raise_high_water, mmap. cbn [fst snd]. fold hw limit.
  rewrite i32_id by (unfold is_i32; lia). unfold as_usize, pages_to_bytes. change LOG_BYTES_IN_PAGE with 12.
  rewrite uwrap_id, ushl_id by (change (2 ^ 12) with 4096; lia). change (2 ^ 12) with 4096.
  destruct (Z.eqb_spec hw limit); [lia|]. cbn [negb rust_assert mbind res_bind]. unfold addr_add, addr_diff.
  rewrite (uadd_id hw (_ * _)) by lia. destruct (Z.ltb_spec limit (hw + rm_pages_per_block l * blocks * 4096)); [|lia].
  assert (hw -u limit = 2 ^ 64 - (limit - hw)) as ->.
  { unfold usub, uwrap. symmetry. apply Z.mod_unique_pos with (-1); lia. }
  destruct (mmap_ok hw _); [|done]. cbn [rust_assert mbind res_bind fst snd]. do 3 f_equal.
  unfold uadd, uwrap. symmetry. apply Z.mod_unique_pos with 1; lia.
Qed.

(** A list of 17 pages of units in blocks of 16 pages. *)
Definition sample_near_limit : RawMemoryFreeList :=
  set_high_water (rm_init 0x10000 (0x10000 + 17 * 4096) 16 8702 1 1) (0x10000 + 16 * 4096).

Lemma raise_high_water_wraps_witness :
  raise_high_water (λ _ _, true) (sample_near_limit, λ _, 0) 1 =
    Val (set_high_water sample_near_limit (0x10000 + 15 * 4096),
         mem_zero (λ _, 0) (0x10000 + 16 * 4096) (2 ^ 64 - 4096)).
Proof.
  apply (raise_high_water_wraps (λ _ _, true) sample_near_limit (λ _, 0) 1);
    vm_compute; (done || split; congruence).
Defined.

(** The offset of an entry is computed as an [i32]: from unit [2 ^ 28] on (less
    the heads) it is negative, the entry's address lies below the table, and no such
    unit can be used, although a list may have almost [2 ^ 30] units. *)
Theorem raw_entry_offset_wraps (t : raw) (unit : Z) :
  2 ^ 31 ≤ rm_base t.1 → rm_base t.1 < 2 ^ 64 → 0 ≤ rm_heads t.1 →
  2 ^ 28 ≤ unit + rm_heads t.1 < 2 ^ 29 →
  entry_address t.1 (2 * (unit + rm_heads t.1)) = rm_base t.1 + 8 * (unit + rm_heads t.1) - 2 ^ 32 ∧
  entry_address t.1 (2 * (unit + rm_heads t.1)) < rm_base t.1 ∧
  get_lo_entry t unit = Panic.
Proof.
  intros Hb Hb' Hh Hu. set (v := unit + rm_heads t.1) in *.
  assert (entry_address t.1 (2 * v) = rm_base t.1 + 8 * v - 2 ^ 32) as E.
  { unfold entry_address, as_usize, addr_add. change LOG_BYTES_IN_ENTRY with 2.
    rewrite Z.shiftl_mul_pow2 by lia. change (2 ^ 2) with 4.
    assert (i32 (2 * v * 4) = 8 * v - 2 ^ 32) as ->.
    { unfold i32. rewrite <-(Z.mod_unique_pos (2 * v * 4 + 2 ^ 31) (2 ^ 32) 1 (8 * v - 2 ^ 31)) by lia. lia. }
    assert (uwrap 64 (8 * v - 2 ^ 32) = 2 ^ 64 + 8 * v - 2 ^ 32) as ->.
    { unfold uwrap. symmetry. apply Z.mod_unique_pos with (-1); lia. }
    unfold uadd, uwrap. symmetry. apply Z.mod_unique_pos with 1; lia. }
  split_and!; [done|lia|]. unfold get_lo_entry. cbn [heads get_entry raw_FreeList]. fold v.
  rewrite (i32_id v), Z.shiftl_mul_pow2, i32_id by (unfold is_i32; lia). change (2 ^ 1) with 2.
  rewrite (Z.mul_comm v 2). unfold rm_get_entry, in_table. rewrite E.
  destruct (Z.leb_spec (rm_base t.1) (rm_base t.1 + 8 * v - 2 ^ 32)); [lia|done].
Qed.

Definition sample_large : raw :=
  (set_high_water (rm_init (2 ^ 40) (2 ^ 42) 16 (2 ^ 29) 1 1) (2 ^ 41), λ _, 0).

Lemma raw_entry_offset_wraps_witness :
  entry_address sample_large.1 (2 * (2 ^ 28 + 1)) = 2 ^ 40 + 8 * (2 ^ 28 + 1) - 2 ^ 32 ∧
  entry_address sample_large.1 (2 * (2 ^ 28 + 1)) < 2 ^ 40 ∧ get_lo_entry sample_large (2 ^ 28) = Panic.
Proof.
  apply (raw_entry_offset_wraps sample_large (2 ^ 28)); vm_compute; (done || split; congruence).
Defined.
