(* ===== verification/SideMetadata.v ===== *)
(** * Side metadata (src/src/util/metadata/side_metadata/)

    A side metadata spec gives every region of [2 ^ log_bytes_in_region] bytes a
    value of [2 ^ log_num_of_bits] bits in a table at [offset].  The definitions
    follow helpers.rs, ranges.rs, global.rs and constants.rs on a 64-bit target,
    where every spec is contiguous.  A value of at least a byte has the integer
    type of its width, which is what [assert_value_type] requires.  An atomic
    operation is one step on memory, except [compare_exchange_atomic] on less than
    a byte, which is a load and then a compare-and-swap: what other threads do in
    between is an argument. *)

From S2P Require Import Prelude Conversions Memory.

Record SideMetadataSpec : Type := {
  sm_name : string;
  is_global : bool;
  sm_offset : Z;
  log_num_of_bits : Z;
  log_bytes_in_region : Z
}.

(** ** ranges.rs *)

Inductive BitByteRange : Type :=
| Bytes (start end_ : Z)
| BitsInByte (addr bit_start bit_end : Z).

(** [visitor] threads a state and says whether to stop. *)
Definition break_bit_range {S} (start_addr start_bit end_addr end_bit : Z) (forwards : bool)
    (visitor : S → BitByteRange → S * bool) (s : S) : S * bool :=
  if (start_addr =? end_addr) && (start_bit =? end_bit) then (s, false)
  else if (start_bit =? 0) && (end_bit =? 0) then visitor s (Bytes start_addr end_addr)
  else if start_addr =? end_addr then visitor s (BitsInByte start_addr start_bit end_bit)
  else if (start_addr +u 1 =? end_addr) && (end_bit =? 0)
  then visitor s (BitsInByte start_addr start_bit 8)
  else
    let start_aligned := start_bit =? 0 in
    let end_aligned := end_bit =? 0 in
    let visit_start s :=
      if negb start_aligned then visitor s (BitsInByte start_addr start_bit 8) else (s, false) in
    let visit_middle s :=
      let start := if start_aligned then start_addr else start_addr +u 1 in
      let end_ := end_addr in
      if start <? end_ then visitor s (Bytes start end_) else (s, false) in
    let visit_end s :=
      if negb end_aligned then visitor s (BitsInByte end_addr 0 end_bit) else (s, false) in
    let or_else (r : S * bool) (k : S → S * bool) := if r.2 then r else k r.1 in
    if forwards
    then or_else (or_else (visit_start s) visit_middle) visit_end
    else or_else (or_else (visit_end s) visit_middle) visit_start.

(** ** helpers.rs: address translation *)

Section spec.
Context (self : SideMetadataSpec).

Definition uses_contiguous_side_metadata : bool := is_global self || true.
Definition is_absolute_offset : bool := uses_contiguous_side_metadata.
Definition is_rel_offset : bool := negb is_absolute_offset.
Definition get_absolute_offset : Z := sm_offset self.

Definition address_to_contiguous_meta_address (data_addr : Z) : Z :=
  let shift := LOG_BITS_IN_BYTE - log_num_of_bits self in
  if 0 <=? shift
  then get_absolute_offset +u Z.shiftr (Z.shiftr data_addr (log_bytes_in_region self)) shift
  else get_absolute_offset +u ushl 64 (Z.shiftr data_addr (log_bytes_in_region self)) (- shift).

Definition contiguous_meta_address_to_address (metadata_addr bit : Z) : Z :=
  let shift := LOG_BITS_IN_BYTE - log_num_of_bits self in
  let relative_meta_addr := metadata_addr -u get_absolute_offset in
  let data_addr_intermediate :=
    if 0 <=? shift then ushl 64 relative_meta_addr shift else Z.shiftr relative_meta_addr (- shift) in
  let data_addr_bit_shift :=
    if 0 <=? shift then log_bytes_in_region self -u log_num_of_bits self
    else log_bytes_in_region self in
  ushl 64 data_addr_intermediate (log_bytes_in_region self) +u ushl 64 bit data_addr_bit_shift.

Definition align_metadata_address (metadata_addr bit : Z) : Z * Z :=
  if LOG_BITS_IN_BYTE <=? log_num_of_bits self
  then (align_down metadata_addr (ushl 64 1 (log_num_of_bits self - LOG_BITS_IN_BYTE)), 0)
  else (metadata_addr, uwrap 8 (raw_align_down bit (ushl 64 1 (log_num_of_bits self)))).

Definition address_to_meta_address (data_addr : Z) : Z :=
  address_to_contiguous_meta_address data_addr.

Definition log_data_meta_ratio : Z :=
  LOG_BITS_IN_BYTE +u log_bytes_in_region self -u log_num_of_bits self.
Definition data_to_meta_size_round_up (data_size : Z) : Z :=
  rshift_align_up data_size log_data_meta_ratio.
Definition meta_to_data_size (meta_size : Z) : Z := ushl 64 meta_size log_data_meta_ratio.
Definition metadata_address_range_size : Z :=
  ushl 64 1 (LOG_ARCH_ADDRESS_SPACE -u log_data_meta_ratio).

Definition upper_bound_offset : Z := sm_offset self +u metadata_address_range_size.
Definition upper_bound_address_for_contiguous : Z := upper_bound_offset.
Definition layout_after : Z := align_up upper_bound_offset BYTES_IN_WORD.

Definition meta_byte_lshift (data_addr : Z) : Z :=
  let bits_num_log := log_num_of_bits self in
  if 3 <=? bits_num_log then 0
  else
    let rem_shift := BITS_IN_WORD - (LOG_BITS_IN_BYTE - bits_num_log) in
    uwrap 8 (ushl 64
      (Z.shiftr (ushl 64 (Z.shiftr data_addr (log_bytes_in_region self)) rem_shift) rem_shift)
      bits_num_log).

Definition meta_byte_mask : Z :=
  uwrap 8 (ushl 64 1 (ushl 64 1 (log_num_of_bits self)) -u 1).

(** ** global.rs: bulk updates *)

Definition checked_shl_u8 (x n : Z) : Z := if n <? 8 then ushl 8 x n else 0.

Definition zero_meta_bits (M : mem) (meta_start_addr meta_start_bit meta_end_addr meta_end_bit : Z) : mem :=
  (break_bit_range meta_start_addr meta_start_bit meta_end_addr meta_end_bit true
    (λ M range,
      match range with
      | Bytes start end_ => (mem_zero M start (end_ -u start), false)
      | BitsInByte addr bit_start bit_end =>
        let mask := Z.lor (checked_shl_u8 255 bit_end) (unot 8 (ushl 8 255 bit_start)) in
        (store_u8 M addr (Z.land (load_u8 M addr) mask), false)
      end) M).1.

Definition set_meta_bits (M : mem) (meta_start_addr meta_start_bit meta_end_addr meta_end_bit : Z) : mem :=
  (break_bit_range meta_start_addr meta_start_bit meta_end_addr meta_end_bit true
    (λ M range,
      match range with
      | Bytes start end_ => (mem_set M start 255 (end_ -u start), false)
      | BitsInByte addr bit_start bit_end =>
        let mask := Z.land (unot 8 (checked_shl_u8 255 bit_end)) (ushl 8 255 bit_start) in
        (store_u8 M addr (Z.lor (load_u8 M addr) mask), false)
      end) M).1.

(** [update_contiguous] of [bulk_update_metadata], the branch of a 64-bit target. *)
Definition bulk_update_metadata (M : mem) (start size : Z)
    (update_meta_bits : mem → Z → Z → Z → Z → mem) : mem :=
  if size =? 0 then M
  else
    update_meta_bits M (address_to_meta_address start) (meta_byte_lshift start)
      (address_to_meta_address (start +u size)) (meta_byte_lshift (start +u size)).

Definition bzero_metadata (M : mem) (start size : Z) : mem :=
  bulk_update_metadata M start size zero_meta_bits.
Definition bset_metadata (M : mem) (start size : Z) : mem :=
  bulk_update_metadata M start size set_meta_bits.

(** ** global.rs: single values *)

Definition value_bytes : nat := Z.to_nat (2 ^ (log_num_of_bits self - 3)).

Definition load (M : mem) (data_addr : Z) : Z :=
  let meta_addr := address_to_meta_address data_addr in
  if log_num_of_bits self <? 3
  then
    let lshift := meta_byte_lshift data_addr in
    let mask := ushl 8 meta_byte_mask lshift in
    let byte_val := load_u8 M meta_addr in
    Z.shiftr (Z.land byte_val mask) lshift
  else load_bytes value_bytes M meta_addr.

Definition store (M : mem) (data_addr metadata : Z) : mem :=
  let meta_addr := address_to_meta_address data_addr in
  if log_num_of_bits self <? 3
  then
    let lshift := meta_byte_lshift data_addr in
    let mask := ushl 8 meta_byte_mask lshift in
    let old_val := load_u8 M meta_addr in
    let new_val := Z.lor (Z.land old_val (unot 8 mask)) (ushl 8 metadata lshift) in
    store_u8 M meta_addr new_val
  else store_bytes value_bytes M meta_addr metadata.

Definition load_byte (M : mem) (data_addr : Z) : Z := load_u8 M (address_to_meta_address data_addr).

Definition load_atomic (M : mem) (data_addr : Z) : Z :=
  let meta_addr := address_to_meta_address data_addr in
  if log_num_of_bits self <? 3
  then
    let lshift := meta_byte_lshift data_addr in
    let mask := ushl 8 meta_byte_mask lshift in
    let byte_val := load_u8 M meta_addr in
    Z.shiftr (Z.land byte_val mask) lshift
  else load_bytes value_bytes M meta_addr.

(** [fetch_update] of an atomic integer of [n] bytes, as one step. *)
Definition fetch_update_bytes (n : nat) (M : mem) (a : Z) (f : Z → option Z) : result Z Z * mem :=
  let old := load_bytes n M a in
  match f old with
  | Some new => (Ok old, store_bytes n M a new)
  | None => (Err old, M)
  end.
Definition fetch_update_u8 (M : mem) (a : Z) (f : Z → option Z) : result Z Z * mem :=
  let old := load_u8 M a in
  match f old with
  | Some new => (Ok old, store_u8 M a new)
  | None => (Err old, M)
  end.

Definition store_atomic (M : mem) (data_addr metadata : Z) : mem :=
  let meta_addr := address_to_meta_address data_addr in
  if log_num_of_bits self <? 3
  then
    let lshift := meta_byte_lshift data_addr in
    let mask := ushl 8 meta_byte_mask lshift in
    (fetch_update_u8 M meta_addr
      (λ v, Some (Z.lor (Z.land v (unot 8 mask)) (ushl 8 metadata lshift)))).2
  else store_bytes value_bytes M meta_addr metadata.

Definition set_zero (M : mem) (data_addr : Z) : res mem :=
  if (0 <=? log_num_of_bits self) && (log_num_of_bits self <=? 6)
  then Val (store M data_addr 0) else Panic.
Definition set_zero_atomic (M : mem) (data_addr : Z) : res mem :=
  if (0 <=? log_num_of_bits self) && (log_num_of_bits self <=? 6)
  then Val (store_atomic M data_addr 0) else Panic.

Definition set_raw_byte_atomic (M : mem) (data_addr : Z) : mem :=
  store_u8 M (address_to_meta_address data_addr) 255.
Definition load_raw_byte (M : mem) (data_addr : Z) : Z :=
  load_u8 M (address_to_meta_address data_addr).
Definition load_raw_word (M : mem) (data_addr : Z) : Z :=
  load_bytes 8 M (align_down (address_to_meta_address data_addr) BYTES_IN_ADDRESS).

(** [compare_exchange] of an atomic integer. *)
Definition cas_u8 (M : mem) (a old new : Z) : result Z Z * mem :=
  let x := load_u8 M a in if x =? old then (Ok x, store_u8 M a new) else (Err x, M).
Definition cas_bytes (n : nat) (M : mem) (a old new : Z) : result Z Z * mem :=
  let x := load_bytes n M a in if x =? old then (Ok x, store_bytes n M a new) else (Err x, M).

(** [others]: what other threads do between the load and the compare-and-swap. *)
Definition compare_exchange_atomic (others : mem → mem) (M : mem)
    (data_addr old_metadata new_metadata : Z) : result Z Z * mem :=
  let meta_addr := address_to_meta_address data_addr in
  if log_num_of_bits self <? 3
  then
    let lshift := meta_byte_lshift data_addr in
    let mask := ushl 8 meta_byte_mask lshift in
    let real_old_byte := load_u8 M meta_addr in
    let expected_old_byte := Z.lor (Z.land real_old_byte (unot 8 mask)) (ushl 8 old_metadata lshift) in
    let expected_new_byte := Z.lor (Z.land expected_old_byte (unot 8 mask)) (ushl 8 new_metadata lshift) in
    let '(r, M) := cas_u8 (others M) meta_addr expected_old_byte expected_new_byte in
    (result_map (λ x, Z.shiftr (Z.land x mask) lshift) (λ x, Z.shiftr (Z.land x mask) lshift) r, M)
  else cas_bytes value_bytes (others M) meta_addr old_metadata new_metadata.

Definition fetch_ops_on_bits (M : mem) (data_addr meta_addr : Z) (update : Z → Z) : Z * mem :=
  let lshift := meta_byte_lshift data_addr in
  let mask := ushl 8 meta_byte_mask lshift in
  let '(r, M') := fetch_update_u8 M meta_addr (λ raw_byte,
    let old_val := Z.shiftr (Z.land raw_byte mask) lshift in
    let new_val := update old_val in
    Some (Z.lor (Z.land raw_byte (unot 8 mask)) (Z.land (ushl 8 new_val lshift) mask))) in
  (Z.shiftr (Z.land (load_u8 M meta_addr) mask) lshift, M').

(** A fetch-and-modify of an atomic integer of [n] bytes. *)
Definition fetch_op_bytes (n : nat) (M : mem) (a : Z) (op : Z → Z) : Z * mem :=
  let old := load_bytes n M a in (old, store_bytes n M a (op old)).

Definition value_width : Z := 2 ^ log_num_of_bits self.

Definition fetch_add_atomic (M : mem) (data_addr val : Z) : Z * mem :=
  let meta_addr := address_to_meta_address data_addr in
  if log_num_of_bits self <? 3
  then fetch_ops_on_bits M data_addr meta_addr (λ x, uwrap 8 (x + val))
  else fetch_op_bytes value_bytes M meta_addr (λ x, uwrap value_width (x + val)).

Definition fetch_sub_atomic (M : mem) (data_addr val : Z) : Z * mem :=
  let meta_addr := address_to_meta_address data_addr in
  if log_num_of_bits self <? 3
  then fetch_ops_on_bits M data_addr meta_addr (λ x, uwrap 8 (x - val))
  else fetch_op_bytes value_bytes M meta_addr (λ x, uwrap value_width (x - val)).

Definition fetch_and_atomic (M : mem) (data_addr val : Z) : Z * mem :=
  let meta_addr := address_to_meta_address data_addr in
  if log_num_of_bits self <? 3
  then
    let lshift := meta_byte_lshift data_addr in
    let mask := ushl 8 meta_byte_mask lshift in
    let rhs := Z.lor (ushl 8 val lshift) (unot 8 mask) in
    let old_raw_byte := load_u8 M meta_addr in
    (Z.shiftr (Z.land old_raw_byte mask) lshift, store_u8 M meta_addr (Z.land old_raw_byte rhs))
  else fetch_op_bytes value_bytes M meta_addr (λ x, Z.land x val).

Definition fetch_or_atomic (M : mem) (data_addr val : Z) : Z * mem :=
  let meta_addr := address_to_meta_address data_addr in
  if log_num_of_bits self <? 3
  then
    let lshift := meta_byte_lshift data_addr in
    let mask := ushl 8 meta_byte_mask lshift in
    let rhs := Z.land (ushl 8 val lshift) mask in
    let old_raw_byte := load_u8 M meta_addr in
    (Z.shiftr (Z.land old_raw_byte mask) lshift, store_u8 M meta_addr (Z.lor old_raw_byte rhs))
  else fetch_op_bytes value_bytes M meta_addr (λ x, Z.lor x val).

Definition fetch_update_atomic (M : mem) (data_addr : Z) (f : Z → option Z) : result Z Z * mem :=
  let meta_addr := address_to_meta_address data_addr in
  if log_num_of_bits self <? 3
  then
    let lshift := meta_byte_lshift data_addr in
    let mask := ushl 8 meta_byte_mask lshift in
    let '(r, M) := fetch_update_u8 M meta_addr (λ raw_byte,
      let old_val := Z.shiftr (Z.land raw_byte mask) lshift in
      (λ new_val, Z.lor (Z.land raw_byte (unot 8 mask)) (Z.land (ushl 8 new_val lshift) mask))
        <$> f old_val) in
    (result_map (λ x, Z.shiftr (Z.land x mask) lshift) (λ x, Z.shiftr (Z.land x mask) lshift) r, M)
  else fetch_update_bytes value_bytes M meta_addr f.
End spec.

(** [bcopy_metadata_contiguous]: [self] is copied from [other]. *)
Definition bcopy_metadata_contiguous (self other : SideMetadataSpec) (M : mem) (start size : Z) : mem :=
  let dst_meta_start_addr := address_to_meta_address self start in
  let dst_meta_start_bit := meta_byte_lshift self start in
  let dst_meta_end_addr := address_to_meta_address self (start +u size) in
  let dst_meta_end_bit := meta_byte_lshift self (start +u size) in
  let src_meta_start_addr := address_to_meta_address other start in
  (break_bit_range dst_meta_start_addr dst_meta_start_bit dst_meta_end_addr dst_meta_end_bit true
    (λ M range,
      match range with
      | Bytes dst_start dst_end =>
        let byte_offset := dst_start -u dst_meta_start_addr in
        let src_start := src_meta_start_addr +u byte_offset in
        (mem_copy M src_start dst_start (dst_end -u dst_start), false)
      | BitsInByte dst bit_start bit_end =>
        let byte_offset := dst -u dst_meta_start_addr in
        let src := src_meta_start_addr +u byte_offset in
        let mask := Z.land (unot 8 (checked_shl_u8 255 bit_end)) (ushl 8 255 bit_start) in
        let old_src := load_u8 M src in
        let old_dst := load_u8 M dst in
        let new := Z.lor (Z.land old_src mask) (Z.land old_dst (unot 8 mask)) in
        (store_u8 M dst new, false)
      end) M).1.

(** [SideMetadataContext::calculate_reserved_pages]. *)
Record SideMetadataContext : Type := {
  ctx_global : list SideMetadataSpec;
  ctx_local : list SideMetadataSpec
}.
Definition calculate_reserved_pages (self : SideMetadataContext) (data_pages : Z) : Z :=
  let total := foldl (λ total spec, total +u data_to_meta_size_round_up spec data_pages) 0 (ctx_global self) in
  foldl (λ total spec, total +u data_to_meta_size_round_up spec data_pages) total (ctx_local self).
