(* ===== verification/SideMetadataBits.v ===== *)
(** * Side metadata as runs of bits

    The value of the region of an address is the run of [2 ^ log_num_of_bits] bits
    at [base] in memory, whatever the width: every operation of SideMetadata.v is
    described by what it reads and writes of [membit]. *)

From S2P Require Import Prelude Conversions Memory SideMetadata.

(** ** Ranges *)

(** The pieces [break_bit_range] visits, in address order. *)
Definition ranges_of (start_addr start_bit end_addr end_bit : Z) : list BitByteRange :=
  if (start_addr =? end_addr) && (start_bit =? end_bit) then []
  else if (start_bit =? 0) && (end_bit =? 0) then [Bytes start_addr end_addr]
  else if start_addr =? end_addr then [BitsInByte start_addr start_bit end_bit]
  else if (start_addr +u 1 =? end_addr) && (end_bit =? 0) then [BitsInByte start_addr start_bit 8]
  else
    let first := if start_bit =? 0 then start_addr else start_addr +u 1 in
    (if start_bit =? 0 then [] else [BitsInByte start_addr start_bit 8]) ++
    (if first <? end_addr then [Bytes first end_addr] else []) ++
    (if end_bit =? 0 then [] else [BitsInByte end_addr 0 end_bit]).

(** Visit a list of pieces until the visitor stops. *)
Fixpoint visit_all {S} (visitor : S → BitByteRange → S * bool) (s : S) (l : list BitByteRange) : S * bool :=
  match l with
  | [] => (s, false)
  | r :: l => let '(s, stop) := visitor s r in if stop : bool then (s, true) else visit_all visitor s l
  end.

Lemma break_bit_range_eq {S} sa sb ea eb forwards (visitor : S → BitByteRange → S * bool) s :
  break_bit_range sa sb ea eb forwards visitor s =
  visit_all visitor s ((if forwards : bool then id else reverse) (ranges_of sa sb ea eb)).
Proof.
  unfold break_bit_range, ranges_of.
  destruct ((sa =? ea) && (sb =? eb)); [by destruct forwards|].
  assert (∀ r, visitor s r = visit_all visitor s ((if forwards then id else reverse) [r])) as Hone.
  { intros r. replace ((if forwards then id else reverse) [r]) with [r] by (by destruct forwards).
    simpl. by destruct (visitor s r) as [s' []]. }
  destruct ((sb =? 0) && (eb =? 0)); [apply Hone|]. destruct (sa =? ea); [apply Hone|].
  destruct ((sa +u 1 =? ea) && (eb =? 0)); [apply Hone|].
  assert (∀ s r l, visit_all visitor s (r :: l) =
    (if (visitor s r).2 then visitor s r else visit_all visitor (visitor s r).1 l)) as Hcons.
  { intros s' r l. simpl. by destruct (visitor s' r) as [s1 []]. }
  destruct (sb =? 0), (eb =? 0); simpl negb;
    try (destruct (sa +u 1 <? ea)); try (destruct (sa <? ea)); destruct forwards;
    unfold reverse; cbn -[visit_all]; rewrite ?Hcons; simpl visit_all; simpl;
    repeat match goal with |- context [visitor ?s ?r] => destruct (visitor s r) as [? []]; simpl end;
    done.
Qed.

(** The bits of a piece. *)
Definition range_lo (r : BitByteRange) : Z :=
  match r with Bytes s _ => 8 * s | BitsInByte a b _ => 8 * a + b end.
Definition range_hi (r : BitByteRange) : Z :=
  match r with Bytes _ e => 8 * e | BitsInByte a _ e => 8 * a + e end.
Definition range_ok (r : BitByteRange) : Prop :=
  range_lo r < range_hi r ∧
  match r with Bytes s e => True | BitsInByte a b e => 0 ≤ b ∧ e ≤ 8 end.

(** Consecutive pieces that cover [[lo, hi)]. *)
Fixpoint chain (lo hi : Z) (l : list BitByteRange) : Prop :=
  match l with
  | [] => lo = hi
  | r :: l => range_lo r = lo ∧ range_ok r ∧ chain (range_hi r) hi l
  end.

Ltac solve_chain := unfold range_ok; simpl; repeat split; unfold range_lo, range_hi; lia.

Lemma ranges_of_chain sa sb ea eb :
  0 ≤ sa → ea < 2 ^ 64 → 0 ≤ sb < 8 → 0 ≤ eb < 8 → 8 * sa + sb ≤ 8 * ea + eb →
  chain (8 * sa + sb) (8 * ea + eb) (ranges_of sa sb ea eb).
Proof.
  intros Hsa Hea Hsb Heb Hle. unfold ranges_of.
  destruct (Z.eqb_spec sa ea); simpl.
  - destruct (Z.eqb_spec sb eb); [subst; simpl; lia|].
    destruct (Z.eqb_spec sb 0), (Z.eqb_spec eb 0); solve_chain.
  - rewrite uadd_id by lia.
    destruct (Z.eqb_spec sb 0), (Z.eqb_spec eb 0); simpl.
    + solve_chain.
    + destruct (Z.eqb_spec (sa + 1) ea); simpl;
      (destruct (Z.ltb_spec sa ea); [|lia]); solve_chain.
    + destruct (Z.eqb_spec (sa + 1) ea); simpl; [solve_chain|].
      destruct (Z.ltb_spec (sa + 1) ea); [|lia]. solve_chain.
    + destruct (Z.eqb_spec (sa + 1) ea); simpl;
      (destruct (Z.ltb_spec (sa + 1) ea); solve_chain).
Qed.

(** A visitor that rewrites the bits of a piece and nothing else, applied to every
    piece, rewrites the bits of the whole range and nothing else. *)
Lemma visit_bits (visitor : mem → BitByteRange → mem * bool) (new : mem → Z → bool) lo hi l M0 M :
  (∀ M r, range_ok r → (visitor M r).2 = false) →
  (∀ M r, range_ok r → mem_ok M → lo ≤ range_lo r → range_hi r ≤ hi →
     (∀ j, range_lo r ≤ j < range_hi r ∨ ¬ (lo ≤ j < hi) → membit M j = membit M0 j) →
     mem_ok (visitor M r).1 ∧
     ∀ j, membit (visitor M r).1 j = if (range_lo r <=? j) && (j <? range_hi r) then new M0 j else membit M j) →
  mem_ok M →
  ∀ a, lo ≤ a → chain a hi l →
  (∀ j, a ≤ j < hi ∨ ¬ (lo ≤ j < hi) → membit M j = membit M0 j) →
  (visit_all visitor M l).2 = false ∧ mem_ok (visit_all visitor M l).1 ∧
  ∀ j, membit (visit_all visitor M l).1 j = if (a <=? j) && (j <? hi) then new M0 j else membit M j.
Proof.
  intros Hstop Hstep. revert M. induction l as [|r l IH]; intros M HM a Ha Hc Hsame.
  { simpl in *. subst. split_and!; [done..|]. intros j.
    destruct (Z.leb_spec hi j), (Z.ltb_spec j hi); lia || done. }
  destruct Hc as (Hlo & Hr & Hc). simpl. specialize (Hstop M r Hr) as Hs. specialize (Hstep M r Hr HM) as Hv.
  assert (range_hi r ≤ hi) as Hhi.
  { clear -Hc. revert Hc. generalize (range_hi r). induction l as [|r' l IH]; intros x Hc; simpl in Hc; [lia|].
    destruct Hc as (<- & [? _] & Hc). apply IH in Hc. lia. }
  destruct Hr as [Hlt _].
  destruct (visitor M r) as [M1 b]. simpl in Hs, Hv. subst b.
  destruct Hv as [HM1 Hb]; [lia..| |]. { intros j Hj. apply Hsame. lia. }
  destruct (IH M1 HM1 (range_hi r)) as (E1 & E2 & E3); [lia|done| |].
  { intros j Hj. rewrite Hb. destruct (Z.leb_spec (range_lo r) j), (Z.ltb_spec j (range_hi r)); simpl; try lia;
      apply Hsame; lia. }
  split_and!; [done..|]. intros j. rewrite E3, Hb.
  destruct (Z.leb_spec a j), (Z.ltb_spec j hi), (Z.leb_spec (range_hi r) j), (Z.leb_spec (range_lo r) j),
    (Z.ltb_spec j (range_hi r)); simpl; try lia; done.
Qed.

(** ** Masks *)

Lemma testbit_mask n s j :
  0 ≤ n → 0 ≤ s → 0 ≤ j → Z.testbit (ushl 8 (Z.ones n) s) j = (j <? 8) && (s <=? j) && (j <? s + n).
Proof.
  intros Hn Hs Hj. unfold ushl. rewrite testbit_uwrap, testbit_shiftl by lia.
  rewrite <-andb_assoc. f_equal. destruct (Z.leb_spec s j); [|done]. simpl.
  rewrite Z.testbit_ones_nonneg by lia.
  destruct (Z.ltb_spec (j - s) n), (Z.ltb_spec j (s + n)); lia || done.
Qed.

Lemma testbit_unot8 x j : 0 ≤ j → Z.testbit (unot 8 x) j = (j <? 8) && negb (Z.testbit x j).
Proof. intros. unfold unot. rewrite testbit_uwrap, Z.lnot_spec by lia. done. Qed.

Lemma testbit_ushl8 x s j :
  0 ≤ s → 0 ≤ j → Z.testbit (ushl 8 x s) j = (j <? 8) && ((s <=? j) && Z.testbit x (j - s)).
Proof. intros. unfold ushl. by rewrite testbit_uwrap, testbit_shiftl by lia. Qed.

Lemma testbit_checked_shl e j :
  0 ≤ e ≤ 8 → 0 ≤ j → Z.testbit (checked_shl_u8 255 e) j = (j <? 8) && (e <=? j).
Proof.
  intros He Hj. unfold checked_shl_u8. change 255 with (Z.ones 8). destruct (Z.ltb_spec e 8).
  - rewrite testbit_mask by lia. destruct (Z.ltb_spec j 8), (Z.leb_spec e j), (Z.ltb_spec j (e + 8)); lia || done.
  - rewrite Z.bits_0. destruct (Z.ltb_spec j 8), (Z.leb_spec e j); lia || done.
Qed.

Lemma is_u8_land x y : is_u 8 x → is_u 8 (Z.land x y).
Proof. intros Hx. apply is_u_bits; [lia|]. intros i Hi. by rewrite Z.land_spec, (testbit_small 8 x) by done. Qed.
Lemma is_u8_lor x y : is_u 8 x → is_u 8 y → is_u 8 (Z.lor x y).
Proof.
  intros Hx Hy. apply is_u_bits; [lia|]. intros i Hi.
  by rewrite Z.lor_spec, (testbit_small 8 x), (testbit_small 8 y) by done.
Qed.
Lemma is_u8_wrap x : is_u 8 (uwrap 8 x).
Proof. apply uwrap_range. lia. Qed.
Lemma is_u8_unot x : is_u 8 (unot 8 x). Proof. apply is_u8_wrap. Qed.
Lemma is_u8_ushl x s : is_u 8 (ushl 8 x s). Proof. apply is_u8_wrap. Qed.
Lemma is_u8_checked x s : is_u 8 (checked_shl_u8 x s).
Proof. unfold checked_shl_u8. case_match; [apply is_u8_wrap|vm_compute; done]. Qed.
#[export] Hint Resolve is_u8_land is_u8_lor is_u8_wrap is_u8_unot is_u8_ushl is_u8_checked : core.

(** ** Where a value is *)

(** A spec as the layout of the tables makes them: a value of 1 to 64 bits, no more
    metadata than data, and a table that ends below the top of the address space. *)
Record spec_ok (s : SideMetadataSpec) : Prop := SpecOk {
  sp_bits : 0 ≤ log_num_of_bits s ≤ 6;
  sp_region : 0 ≤ log_bytes_in_region s ≤ 47;
  sp_ratio : 0 ≤ log_bytes_in_region s + 3 - log_num_of_bits s ≤ 47;
  sp_offset : 0 ≤ sm_offset s;
  sp_end : sm_offset s + 2 ^ (47 - (log_bytes_in_region s + 3 - log_num_of_bits s)) + 8 ≤ 2 ^ 64
}.

(** Addresses, and the end of the address space. *)
Definition addr_ok (a : Z) : Prop := 0 ≤ a ≤ 2 ^ 47.

Section base.
Context (s : SideMetadataSpec).
Abbreviation k := (log_num_of_bits s).
Abbreviation lr := (log_bytes_in_region s).
Abbreviation off := (sm_offset s).

Definition region (a : Z) : Z := a `div` 2 ^ lr.
Definition width : Z := 2 ^ k.
Definition base (a : Z) : Z := 8 * off + region a * width.

Context (Hs : spec_ok s).

Lemma width_pos : 0 < width ∧ 1 ≤ width ≤ 64.
Proof.
  destruct Hs. unfold width. assert (2 ^ 0 ≤ 2 ^ k ≤ 2 ^ 6) by (split; apply Z.pow_le_mono_r; lia). lia.
Qed.

Lemma width_small : k < 3 → (k = 0 ∧ width = 1) ∨ (k = 1 ∧ width = 2) ∨ (k = 2 ∧ width = 4).
Proof.
  destruct Hs. intros Hk. assert (k = 0 ∨ k = 1 ∨ k = 2) as [E|[E|E]] by lia; unfold width; rewrite E; auto.
Qed.

Lemma region_nonneg a : 0 ≤ a → 0 ≤ region a.
Proof. intros. unfold region. apply Z.div_pos; [lia|]. apply Z.pow_pos_nonneg; destruct Hs; lia. Qed.

Lemma region_le a : region a * 2 ^ lr ≤ a.
Proof.
  unfold region. rewrite Z.mul_comm. apply Z.mul_div_le. apply Z.pow_pos_nonneg; destruct Hs; lia.
Qed.

Definition table_bytes : Z := 2 ^ (47 - (lr + 3 - k)).

Lemma table_eq : 8 * table_bytes * 2 ^ lr = 2 ^ 47 * width.
Proof.
  destruct Hs. unfold table_bytes, width. change 8 with (2 ^ 3). rewrite <-!Z.pow_add_r by lia.
  f_equal. lia.
Qed.

Lemma region_bound a : 0 ≤ a → (a ≤ 2 ^ 47 → region a * width ≤ 8 * table_bytes) ∧
  (a < 2 ^ 47 → region a * width < 8 * table_bytes).
Proof.
  intros Ha. pose proof table_eq as E. pose proof (region_le a) as Hle. pose proof width_pos as [Hw _].
  assert (0 < 2 ^ lr) by (apply Z.pow_pos_nonneg; destruct Hs; lia).
  assert (region a * width * 2 ^ lr ≤ a * width) by nia.
  split; intros Hb; nia.
Qed.

Lemma log_data_meta_ratio_eq : log_data_meta_ratio s = lr + 3 - k.
Proof.
  destruct Hs. unfold log_data_meta_ratio. change LOG_BITS_IN_BYTE with 3.
  rewrite uadd_id by lia. rewrite usub_id by lia. lia.
Qed.

Lemma metadata_address_range_size_eq : metadata_address_range_size s = table_bytes.
Proof.
  destruct Hs. unfold metadata_address_range_size. rewrite log_data_meta_ratio_eq.
  change LOG_ARCH_ADDRESS_SPACE with 47. rewrite usub_id by lia.
  assert (2 ^ (47 - (lr + 3 - k)) < 2 ^ 64) by (apply Z.pow_lt_mono_r; lia).
  assert (0 < 2 ^ (47 - (lr + 3 - k))) by (apply Z.pow_pos_nonneg; lia).
  rewrite ushl_id by lia. unfold table_bytes. lia.
Qed.

Lemma upper_bound_eq : upper_bound_address_for_contiguous s = off + table_bytes.
Proof.
  destruct Hs. unfold upper_bound_address_for_contiguous, upper_bound_offset.
  rewrite metadata_address_range_size_eq. fold table_bytes in *.
  assert (0 < table_bytes) by (apply Z.pow_pos_nonneg; lia). apply uadd_id. lia.
Qed.

Lemma meta_address_eq a :
  addr_ok a → address_to_meta_address s a = off + (region a * width) `div` 8.
Proof.
  intros Ha. unfold addr_ok in Ha. pose proof (region_nonneg a ltac:(lia)) as Hr.
  destruct (region_bound a ltac:(lia)) as [Hb _]. specialize (Hb ltac:(lia)).
  pose proof (sp_end s Hs) as Hend. pose proof (sp_offset s Hs). pose proof (sp_bits s Hs).
  fold table_bytes in Hend. pose proof width_pos as [Hw _].
  unfold address_to_meta_address, address_to_contiguous_meta_address, get_absolute_offset.
  change LOG_BITS_IN_BYTE with 3. rewrite (shiftr_div a) by (destruct Hs; lia). fold (region a).
  destruct (Z.leb_spec 0 (3 - k)).
  - rewrite shiftr_div by lia. assert (2 ^ (3 - k) * width = 8) as E8.
    { unfold width. rewrite <-Z.pow_add_r by lia. replace (3 - k + k) with 3 by lia. done. }
    assert (0 < 2 ^ (3 - k)) by (apply Z.pow_pos_nonneg; lia).
    assert ((region a * width) `div` 8 = region a `div` 2 ^ (3 - k)) as ->.
    { rewrite <-E8. apply Z.div_mul_cancel_r; lia. }
    assert (0 ≤ region a `div` 2 ^ (3 - k)) by (apply Z.div_pos; lia).
    pose proof (Z.mul_div_le (region a) (2 ^ (3 - k)) ltac:(lia)).
    apply uadd_id. nia.
  - assert (width = 8 * 2 ^ (k - 3)) as Ew.
    { unfold width. change 8 with (2 ^ 3). rewrite <-Z.pow_add_r by lia. f_equal. lia. }
    replace (- (3 - k)) with (k - 3) by lia.
    assert (0 < 2 ^ (k - 3)) by (apply Z.pow_pos_nonneg; lia).
    assert ((region a * width) `div` 8 = region a * 2 ^ (k - 3)) as ->.
    { rewrite Ew. replace (region a * (8 * 2 ^ (k - 3))) with (region a * 2 ^ (k - 3) * 8) by lia.
      apply Z.div_mul. lia. }
    rewrite ushl_id by nia. apply uadd_id. nia.
Qed.

Lemma lshift_eq a : addr_ok a → k < 3 → meta_byte_lshift s a = (region a * width) `mod` 8.
Proof.
  intros Ha Hk. unfold addr_ok in Ha. pose proof (region_nonneg a ltac:(lia)) as Hr.
  unfold meta_byte_lshift. destruct (Z.leb_spec 3 k); [lia|].
  change BITS_IN_WORD with 64. change LOG_BITS_IN_BYTE with 3.
  rewrite (shiftr_div a) by (destruct Hs; lia). fold (region a).
  assert (∀ e, 0 ≤ e ≤ 3 → Z.shiftr (ushl 64 (region a) (64 - e)) (64 - e) = region a `mod` 2 ^ e) as Hm.
  { intros e He. assert (0 < 2 ^ (64 - e)) by (apply Z.pow_pos_nonneg; lia).
    rewrite shiftr_div by lia. unfold ushl, uwrap. rewrite Z.shiftl_mul_pow2 by lia.
    replace (2 ^ 64) with (2 ^ e * 2 ^ (64 - e)) by (rewrite <-Z.pow_add_r by lia; f_equal; lia).
    rewrite Z.mul_mod_distr_r by (try apply Z.pow_nonzero; lia). apply Z.div_mul. lia. }
  pose proof (sp_bits s Hs). rewrite Hm by lia.
  pose proof (Z.mod_pos_bound (region a) (2 ^ (3 - k)) ltac:(apply Z.pow_pos_nonneg; lia)) as Hb.
  destruct (width_small Hk) as [[E Ew]|[[E Ew]|[E Ew]]]; rewrite E, Ew in *;
    [change (2 ^ (3 - 0)) with 8 in *|change (2 ^ (3 - 1)) with 4 in *|change (2 ^ (3 - 2)) with 2 in *].
  - rewrite ushl_id by lia. rewrite uwrap_id by lia. rewrite !Z.mul_1_r. lia.
  - rewrite ushl_id by lia. rewrite uwrap_id by lia. replace 8 with (4 * 2) by lia.
    rewrite Z.mul_mod_distr_r by lia. lia.
  - rewrite ushl_id by lia. rewrite uwrap_id by lia. replace 8 with (2 * 4) by lia.
    rewrite Z.mul_mod_distr_r by lia. lia.
Qed.

(** The byte and the bit in it at which the value of [a] starts. *)
Lemma base_split a :
  addr_ok a →
  base a = 8 * address_to_meta_address s a + meta_byte_lshift s a ∧
  0 ≤ meta_byte_lshift s a < 8 ∧
  (if decide (k < 3) then meta_byte_lshift s a + width ≤ 8 else meta_byte_lshift s a = 0) ∧
  off ≤ address_to_meta_address s a ≤ off + table_bytes.
Proof.
  intros Ha. rewrite meta_address_eq by done. unfold base.
  pose proof (divmod8 (region a * width)) as [E Hm].
  unfold addr_ok in Ha. pose proof (region_nonneg a ltac:(lia)) as Hr. pose proof width_pos as [Hw _].
  destruct (region_bound a ltac:(lia)) as [Hb _]. specialize (Hb ltac:(lia)).
  assert (0 ≤ (region a * width) `div` 8) by (apply Z.div_pos; nia).
  case_decide as Hk.
  - rewrite lshift_eq by done. split_and!; [lia..| |lia|lia].
    destruct (width_small Hk) as [[_ Ew]|[[_ Ew]|[_ Ew]]]; rewrite Ew in *; lia.
  - assert (meta_byte_lshift s a = 0) as ->.
    { unfold meta_byte_lshift. destruct (Z.leb_spec 3 k); [done|lia]. }
    assert ((region a * width) `mod` 8 = 0).
    { assert (width = 8 * 2 ^ (k - 3)) as ->.
      { unfold width. destruct Hs. change 8 with (2 ^ 3). rewrite <-Z.pow_add_r by lia. f_equal. lia. }
      replace (region a * (8 * 2 ^ (k - 3))) with (region a * 2 ^ (k - 3) * 8) by lia. apply Z.mod_mul. lia. }
    split_and!; lia.
Qed.

(** Values of different regions are disjoint runs of bits. *)
Lemma base_disjoint a b :
  region a < region b → base a + width ≤ base b.
Proof. pose proof width_pos. unfold base. nia. Qed.
End base.
