(* ===== verification/SideMetadataOps.v ===== *)
(** * What the side metadata operations do to the values

    [updates s M M' a v]: memory [M'] is [M] with the value of the region of [a]
    replaced by [v].  Every operation is an [updates] with the value its Rust
    counterpart on an integer of that width would store, so it leaves the values
    of all other regions and of all other tables alone. *)

From S2P Require Import Prelude Conversions Memory SideMetadata SideMetadataBits.

Section ops.
Context (s : SideMetadataSpec).
Context (Hs : spec_ok s).
Abbreviation k := (log_num_of_bits s).
Abbreviation w := (width s).

(** ** Values of less than a byte *)

Lemma meta_byte_mask_eq : k < 3 → meta_byte_mask s = Z.ones w.
Proof.
  intros Hk. unfold meta_byte_mask.
  destruct (width_small s Hs Hk) as [[-> ->]|[[-> ->]|[-> ->]]]; by vm_compute.
Qed.

Lemma field_read x ls i :
  k < 3 → 0 ≤ ls → ls + w ≤ 8 → 0 ≤ i →
  Z.testbit (Z.shiftr (Z.land x (ushl 8 (meta_byte_mask s) ls)) ls) i = (i <? w) && Z.testbit x (ls + i).
Proof.
  intros Hk Hls Hw Hi. rewrite meta_byte_mask_eq by done. pose proof (width_pos s Hs).
  rewrite Z.shiftr_spec, Z.land_spec, testbit_mask by lia. rewrite (Z.add_comm i ls).
  destruct (Z.ltb_spec (ls + i) 8), (Z.leb_spec ls (ls + i)), (Z.ltb_spec (ls + i) (ls + w)), (Z.ltb_spec i w);
    simpl; try lia; by rewrite ?andb_true_r, ?andb_false_r.
Qed.

Lemma field_read_u x ls : k < 3 → 0 ≤ ls → ls + w ≤ 8 →
  is_u w (Z.shiftr (Z.land x (ushl 8 (meta_byte_mask s) ls)) ls).
Proof.
  intros Hk Hls Hw. pose proof (width_pos s Hs). apply is_u_bits; [lia|]. intros i Hi.
  rewrite field_read by lia. destruct (Z.ltb_spec i w); [lia|done].
Qed.

Lemma field_write x v ls j :
  k < 3 → 0 ≤ ls → ls + w ≤ 8 → is_u w v → 0 ≤ j < 8 →
  Z.testbit (Z.lor (Z.land x (unot 8 (ushl 8 (meta_byte_mask s) ls))) (ushl 8 v ls)) j =
  if (ls <=? j) && (j <? ls + w) then Z.testbit v (j - ls) else Z.testbit x j.
Proof.
  intros Hk Hls Hw Hv Hj. rewrite meta_byte_mask_eq by done. pose proof (width_pos s Hs).
  rewrite Z.lor_spec, Z.land_spec, testbit_unot8, testbit_mask, testbit_ushl8 by lia.
  destruct (Z.ltb_spec j 8); [|lia]. destruct (Z.leb_spec ls j); simpl.
  - destruct (Z.ltb_spec j (ls + w)); simpl.
    + by rewrite andb_false_r.
    + rewrite (testbit_small w v) by (done || lia). by rewrite andb_true_r, orb_false_r.
  - by rewrite andb_true_r, orb_false_r.
Qed.

(** Masking the new value first makes any value fit. *)
Lemma field_mask v ls :
  k < 3 → 0 ≤ ls → ls + w ≤ 8 →
  Z.land (ushl 8 v ls) (ushl 8 (meta_byte_mask s) ls) = ushl 8 (uwrap w v) ls.
Proof.
  intros Hk Hls Hw. rewrite meta_byte_mask_eq by done. pose proof (width_pos s Hs).
  apply Z.bits_inj'. intros j Hj. rewrite Z.land_spec, testbit_mask, !testbit_ushl8 by lia.
  destruct (Z.ltb_spec j 8); [|done]. destruct (Z.leb_spec ls j); simpl; [|done].
  rewrite testbit_uwrap by lia.
  destruct (Z.ltb_spec j (ls + w)), (Z.ltb_spec (j - ls) w); try lia; by rewrite ?andb_true_r, ?andb_false_r.
Qed.

(** ** Reading *)

Lemma value_bits : 3 ≤ k → 8 * Z.of_nat (value_bytes s) = w.
Proof.
  intros Hk. destruct Hs. unfold value_bytes, width.
  rewrite Z2Nat.id by (apply Z.pow_nonneg; lia). change 8 with (2 ^ 3). rewrite <-Z.pow_add_r by lia.
  f_equal. lia.
Qed.

Lemma testbit_load M a i :
  mem_ok M → addr_ok a → 0 ≤ i → Z.testbit (load s M a) i = (i <? w) && membit M (base s a + i).
Proof.
  intros HM Ha Hi. destruct (base_split s Hs a Ha) as (-> & Hls & Hw & _). unfold load, load_u8.
  destruct (Z.ltb_spec k 3) as [Hk|Hk].
  - rewrite decide_True in Hw by done. rewrite field_read by lia.
    destruct (Z.ltb_spec i w); [|done]. simpl. rewrite <-Z.add_assoc, membit_at by lia. done.
  - rewrite decide_False in Hw by lia. rewrite Hw, testbit_load_bytes, value_bits by done.
    by rewrite Z.add_0_r.
Qed.

Lemma load_u M a : mem_ok M → addr_ok a → is_u w (load s M a).
Proof.
  intros HM Ha. pose proof (width_pos s Hs). apply is_u_bits; [lia|]. intros i Hi.
  rewrite testbit_load by (done || lia). destruct (Z.ltb_spec i w); [lia|done].
Qed.

(** A value depends on its own bits only. *)
Lemma load_ext M M' a b :
  mem_ok M → mem_ok M' → addr_ok a → addr_ok b →
  (∀ i, 0 ≤ i < w → membit M (base s a + i) = membit M' (base s b + i)) → load s M a = load s M' b.
Proof.
  intros HM HM' Ha Hb Heq. apply Z.bits_inj'. intros i Hi. rewrite !testbit_load by done.
  destruct (Z.ltb_spec i w); [|done]. simpl. apply Heq. lia.
Qed.

Lemma load_region M a b :
  mem_ok M → addr_ok a → addr_ok b → region s a = region s b → load s M a = load s M b.
Proof. intros HM Ha Hb E. apply load_ext; try done. intros i Hi. unfold base. by rewrite E. Qed.

(** ** Writing *)

Definition updates (M M' : mem) (a v : Z) : Prop :=
  mem_ok M' ∧ ∀ j, membit M' j =
    if (base s a <=? j) && (j <? base s a + w) then Z.testbit v (j - base s a) else membit M j.

Lemma updates_same M M' a v : updates M M' a v → addr_ok a → is_u w v → load s M' a = v.
Proof.
  intros [HM' Hb] Ha Hv. apply Z.bits_inj'. intros i Hi. rewrite testbit_load, Hb by done.
  destruct (Z.ltb_spec i w); simpl.
  - destruct (Z.leb_spec (base s a) (base s a + i)), (Z.ltb_spec (base s a + i) (base s a + w)); simpl; try lia.
    f_equal. lia.
  - symmetry. by apply (testbit_small w).
Qed.

Lemma updates_region M M' a b v :
  updates M M' a v → mem_ok M → addr_ok a → addr_ok b → region s a ≠ region s b → load s M' b = load s M b.
Proof.
  intros [HM' Hb] HM Ha Hb' Hne. apply load_ext; try done. intros i Hi. rewrite Hb.
  assert (base s a + w ≤ base s b ∨ base s b + w ≤ base s a) as Hd.
  { destruct (decide (region s a < region s b)); [left|right]; apply base_disjoint; (done || lia). }
  destruct (Z.leb_spec (base s a) (base s b + i)), (Z.ltb_spec (base s b + i) (base s a + w)); simpl; lia || done.
Qed.

Lemma updates_byte M a ls v x y :
  mem_ok M → base s a = 8 * x + ls → 0 ≤ ls → ls + w ≤ 8 → is_u 8 y →
  (∀ j, 0 ≤ j < 8 → Z.testbit y j =
    if (ls <=? j) && (j <? ls + w) then Z.testbit v (j - ls) else Z.testbit (M x) j) →
  updates M (store_u8 M x y) a v.
Proof.
  intros HM Hb Hls Hw Hy Hbits. split; [auto|]. intros j. rewrite membit_store_u8, Hb.
  pose proof (width_pos s Hs). pose proof (divmod8 j) as [Ej Hj].
  destruct (Z.eqb_spec (j `div` 8) x) as [Ex|Ex].
  - rewrite Hbits by lia.
    destruct (Z.leb_spec ls (j `mod` 8)), (Z.leb_spec (8 * x + ls) j); simpl; try lia.
    + destruct (Z.ltb_spec (j `mod` 8) (ls + w)), (Z.ltb_spec j (8 * x + ls + w)); try lia.
      * f_equal. lia.
      * unfold membit. by rewrite Ex.
    + unfold membit. by rewrite Ex.
  - destruct (Z.leb_spec (8 * x + ls) j), (Z.ltb_spec j (8 * x + ls + w)); simpl; lia || done.
Qed.

Lemma updates_bytes M a v :
  mem_ok M → addr_ok a → 3 ≤ k →
  updates M (store_bytes (value_bytes s) M (address_to_meta_address s a) v) a v.
Proof.
  intros HM Ha Hk. destruct (base_split s Hs a Ha) as (Eb & _ & Hw & _).
  rewrite decide_False in Hw by lia. split; [auto|]. intros j.
  rewrite membit_store_bytes, value_bits, Eb, Hw, Z.add_0_r by done. done.
Qed.

Lemma store_updates M a v : mem_ok M → addr_ok a → is_u w v → updates M (store s M a v) a v.
Proof.
  intros HM Ha Hv. unfold store, load_u8. destruct (Z.ltb_spec k 3) as [Hk|Hk].
  - destruct (base_split s Hs a Ha) as (Eb & Hls & Hw & _). rewrite decide_True in Hw by done.
    eapply updates_byte; [done|done|lia|done|..].
    + apply is_u8_lor; [apply is_u8_land; apply HM|apply is_u8_ushl].
    + intros j Hj. apply field_write; (done || lia).
  - by apply updates_bytes.
Qed.

Lemma load_atomic_eq M a : load_atomic s M a = load s M a.
Proof. done. Qed.
Lemma store_atomic_eq M a v : store_atomic s M a v = store s M a v.
Proof. done. Qed.

Lemma load_field M a :
  k < 3 → Z.shiftr (Z.land (M (address_to_meta_address s a)) (ushl 8 (meta_byte_mask s) (meta_byte_lshift s a)))
    (meta_byte_lshift s a) = load s M a.
Proof. intros Hk. unfold load, load_u8. by destruct (Z.ltb_spec k 3); [|lia]. Qed.

Lemma uwrap_u v : is_u w (uwrap w v).
Proof. pose proof (width_pos s Hs). apply uwrap_range. lia. Qed.

Lemma uwrap_wrap8 v : k < 3 → uwrap w (uwrap 8 v) = uwrap w v.
Proof.
  intros Hk. pose proof (width_pos s Hs).
  assert (w ≤ 8) by (destruct (width_small s Hs Hk) as [[_ ->]|[[_ ->]|[_ ->]]]; lia).
  apply Z.bits_inj'. intros i Hi. rewrite !testbit_uwrap by lia.
  destruct (Z.ltb_spec i w), (Z.ltb_spec i 8); simpl; lia || done.
Qed.

(** The new byte of a masked update. *)
Lemma masked_updates M a v :
  mem_ok M → addr_ok a → k < 3 →
  let x := M (address_to_meta_address s a) in
  let mask := ushl 8 (meta_byte_mask s) (meta_byte_lshift s a) in
  updates M (store_u8 M (address_to_meta_address s a)
    (Z.lor (Z.land x (unot 8 mask)) (Z.land (ushl 8 v (meta_byte_lshift s a)) mask))) a (uwrap w v).
Proof.
  intros HM Ha Hk x mask. destruct (base_split s Hs a Ha) as (Eb & Hls & Hw & _).
  rewrite decide_True in Hw by done. unfold mask. rewrite field_mask by lia.
  eapply updates_byte; [done|done|lia|done| |].
  - apply is_u8_lor; [apply is_u8_land; apply HM|apply is_u8_ushl].
  - intros j Hj. apply field_write; [done|lia|done|apply uwrap_u|lia].
Qed.

Lemma fetch_ops_updates M a f :
  mem_ok M → addr_ok a → k < 3 →
  let '(old, M') := fetch_ops_on_bits s M a (address_to_meta_address s a) f in
  old = load s M a ∧ updates M M' a (uwrap w (f (load s M a))).
Proof.
  intros HM Ha Hk. unfold fetch_ops_on_bits, fetch_update_u8, load_u8. rewrite !load_field by done.
  split; [done|]. by apply masked_updates.
Qed.

Lemma fetch_op_bytes_updates M a f :
  mem_ok M → addr_ok a → 3 ≤ k →
  let '(old, M') := fetch_op_bytes (value_bytes s) M (address_to_meta_address s a) f in
  old = load s M a ∧ updates M M' a (f (load s M a)).
Proof.
  intros HM Ha Hk. unfold fetch_op_bytes, load. destruct (Z.ltb_spec k 3); [lia|].
  split; [done|]. by apply updates_bytes.
Qed.

Lemma fetch_add_updates M a v :
  mem_ok M → addr_ok a →
  let '(old, M') := fetch_add_atomic s M a v in
  old = load s M a ∧ updates M M' a (uwrap w (load s M a + v)).
Proof.
  intros HM Ha. unfold fetch_add_atomic, value_width. destruct (Z.ltb_spec k 3) as [Hk|Hk].
  - pose proof (fetch_ops_updates M a (λ x, uwrap 8 (x + v)) HM Ha Hk) as Hf.
    destruct (fetch_ops_on_bits _ _ _ _ _) as [old M']. by rewrite uwrap_wrap8 in Hf.
  - by apply fetch_op_bytes_updates.
Qed.

Lemma fetch_sub_updates M a v :
  mem_ok M → addr_ok a →
  let '(old, M') := fetch_sub_atomic s M a v in
  old = load s M a ∧ updates M M' a (uwrap w (load s M a - v)).
Proof.
  intros HM Ha. unfold fetch_sub_atomic, value_width. destruct (Z.ltb_spec k 3) as [Hk|Hk].
  - pose proof (fetch_ops_updates M a (λ x, uwrap 8 (x - v)) HM Ha Hk) as Hf.
    destruct (fetch_ops_on_bits _ _ _ _ _) as [old M']. by rewrite uwrap_wrap8 in Hf.
  - by apply fetch_op_bytes_updates.
Qed.

Lemma fetch_and_updates M a v :
  mem_ok M → addr_ok a →
  let '(old, M') := fetch_and_atomic s M a v in
  old = load s M a ∧ updates M M' a (Z.land (load s M a) v).
Proof.
  intros HM Ha. unfold fetch_and_atomic. destruct (Z.ltb_spec k 3) as [Hk|Hk].
  2:{ by apply (fetch_op_bytes_updates M a (λ x, Z.land x v)). }
  unfold load_u8. rewrite load_field by done. split; [done|].
  destruct (base_split s Hs a Ha) as (Eb & Hls & Hw & _). rewrite decide_True in Hw by done.
  pose proof (width_pos s Hs).
  eapply updates_byte; [done|done|lia|done|apply is_u8_land; apply HM|].
  intros j Hj. rewrite meta_byte_mask_eq by done.
  rewrite Z.land_spec, Z.lor_spec, testbit_unot8, testbit_mask, testbit_ushl8 by lia.
  destruct (Z.ltb_spec j 8); [|lia]. destruct (Z.leb_spec (meta_byte_lshift s a) j); simpl.
  - destruct (Z.ltb_spec j (meta_byte_lshift s a + w)); simpl.
    + rewrite orb_false_r, Z.land_spec, testbit_load by (done || lia).
      destruct (Z.ltb_spec (j - meta_byte_lshift s a) w); [|lia]. simpl. f_equal.
      rewrite Eb. replace (8 * address_to_meta_address s a + meta_byte_lshift s a + (j - meta_byte_lshift s a))
        with (8 * address_to_meta_address s a + j) by lia. by rewrite membit_at by lia.
    + by rewrite orb_true_r, andb_true_r.
  - by rewrite andb_true_r.
Qed.

Lemma fetch_or_updates M a v :
  mem_ok M → addr_ok a →
  let '(old, M') := fetch_or_atomic s M a v in
  old = load s M a ∧ updates M M' a (Z.lor (load s M a) (if k <? 3 then uwrap w v else v)).
Proof.
  intros HM Ha. unfold fetch_or_atomic. destruct (Z.ltb_spec k 3) as [Hk|Hk].
  2:{ by apply (fetch_op_bytes_updates M a (λ x, Z.lor x v)). }
  unfold load_u8. rewrite load_field by done. split; [done|].
  destruct (base_split s Hs a Ha) as (Eb & Hls & Hw & _). rewrite decide_True in Hw by done.
  pose proof (width_pos s Hs). rewrite field_mask by lia.
  eapply updates_byte; [done|done|lia|done|apply is_u8_lor; [apply HM|apply is_u8_ushl]|].
  intros j Hj. rewrite Z.lor_spec, testbit_ushl8 by lia.
  destruct (Z.ltb_spec j 8); [|lia]. destruct (Z.leb_spec (meta_byte_lshift s a) j); simpl.
  - rewrite testbit_uwrap by lia. destruct (Z.ltb_spec j (meta_byte_lshift s a + w)); simpl.
    + rewrite Z.lor_spec, testbit_load, testbit_uwrap by (done || lia).
      destruct (Z.ltb_spec (j - meta_byte_lshift s a) w); [|lia]. simpl. f_equal.
      rewrite Eb. replace (8 * address_to_meta_address s a + meta_byte_lshift s a + (j - meta_byte_lshift s a))
        with (8 * address_to_meta_address s a + j) by lia. by rewrite membit_at by lia.
    + destruct (Z.ltb_spec (j - meta_byte_lshift s a) w); [lia|]. by rewrite orb_false_r.
  - by rewrite orb_false_r.
Qed.

Lemma fetch_update_updates M a f :
  mem_ok M → addr_ok a → (∀ x y, is_u w x → f x = Some y → is_u w y) →
  let '(r, M') := fetch_update_atomic s M a f in
  match f (load s M a) with
  | Some v => r = Ok (load s M a) ∧ updates M M' a v
  | None => r = Err (load s M a) ∧ M' = M
  end.
Proof.
  intros HM Ha Hf. specialize (Hf (load s M a)). pose proof (load_u M a HM Ha) as Hu.
  unfold fetch_update_atomic. destruct (Z.ltb_spec k 3) as [Hk|Hk].
  - unfold fetch_update_u8, load_u8. rewrite load_field by done.
    destruct (f (load s M a)) as [v|]; simpl; rewrite load_field by done; [|done].
    split; [done|]. specialize (Hf v Hu eq_refl). pose proof (masked_updates M a v HM Ha Hk) as Hm.
    rewrite (uwrap_id w v) in Hm by done. exact Hm.
  - unfold fetch_update_bytes, load in *. destruct (Z.ltb_spec k 3); [lia|].
    destruct (f _) as [v|]; [|done]. split; [done|]. by apply updates_bytes.
Qed.

(** ** Compare and exchange *)

(** The byte with the field replaced, and its field. *)
Lemma field_of_write x v ls :
  k < 3 → 0 ≤ ls → ls + w ≤ 8 → is_u w v →
  let mask := ushl 8 (meta_byte_mask s) ls in
  Z.shiftr (Z.land (Z.lor (Z.land x (unot 8 mask)) (ushl 8 v ls)) mask) ls = v.
Proof.
  intros Hk Hls Hw Hv mask. apply Z.bits_inj'. intros i Hi. pose proof (width_pos s Hs).
  unfold mask. rewrite field_read by lia. destruct (Z.ltb_spec i w); simpl.
  - rewrite field_write by (done || lia).
    destruct (Z.leb_spec ls (ls + i)), (Z.ltb_spec (ls + i) (ls + w)); simpl; try lia. f_equal. lia.
  - symmetry. by apply (testbit_small w).
Qed.

Lemma write_own_field x v ls :
  k < 3 → 0 ≤ ls → ls + w ≤ 8 → is_u 8 x →
  let mask := ushl 8 (meta_byte_mask s) ls in
  Z.shiftr (Z.land x mask) ls = v → Z.lor (Z.land x (unot 8 mask)) (ushl 8 v ls) = x.
Proof.
  intros Hk Hls Hw Hx mask E. assert (is_u w v) as Hv by (subst v; by apply field_read_u).
  apply Z.bits_inj'. intros j Hj. destruct (decide (j < 8)).
  - unfold mask. rewrite field_write by (done || lia).
    destruct (Z.leb_spec ls j); simpl; [|done]. destruct (Z.ltb_spec j (ls + w)); [|done].
    rewrite <-E. unfold mask. rewrite field_read by lia. destruct (Z.ltb_spec (j - ls) w); [|lia].
    simpl. f_equal. lia.
  - rewrite (testbit_small 8 x) by (done || lia). apply (testbit_small 8); [|lia].
    apply is_u8_lor; [by apply is_u8_land|apply is_u8_ushl].
Qed.

(** Other threads may change memory between the load and the compare-and-swap.
    Success is always a genuine exchange of the expected value; failure reports
    the value found and changes nothing, but on less than a byte it may be due to
    the other bits of the byte. *)
Lemma compare_exchange_spec others M a old new :
  mem_ok M → mem_ok (others M) → addr_ok a → is_u w old → is_u w new →
  let M2 := others M in
  let '(r, M') := compare_exchange_atomic s others M a old new in
  match r with
  | Ok v => v = old ∧ load s M2 a = old ∧ updates M2 M' a new
  | Err v => v = load s M2 a ∧ M' = M2 ∧
    (load s M2 a ≠ old ∨ k < 3 ∧ M2 (address_to_meta_address s a) ≠ M (address_to_meta_address s a))
  end.
Proof.
  intros HM HM2 Ha Ho Hn M2. unfold compare_exchange_atomic. fold M2.
  destruct (Z.ltb_spec k 3) as [Hk|Hk].
  2:{ unfold cas_bytes. pose proof (updates_bytes M2 a new HM2 Ha Hk) as Hup.
      unfold load. destruct (Z.ltb_spec k 3); [lia|].
      destruct (Z.eqb_spec (load_bytes (value_bytes s) M2 (address_to_meta_address s a)) old); [done|].
      split_and!; [done..|by left]. }
  destruct (base_split s Hs a Ha) as (Eb & Hls & Hw & _). rewrite decide_True in Hw by done.
  unfold cas_u8, load_u8. rewrite <-(load_field M2 a Hk).
  set (ls := meta_byte_lshift s a) in *. set (mask := ushl 8 (meta_byte_mask s) ls).
  set (x := M (address_to_meta_address s a)). set (x2 := M2 (address_to_meta_address s a)).
  destruct (Z.eqb_spec x2 (Z.lor (Z.land x (unot 8 mask)) (ushl 8 old ls))) as [E|E]; simpl.
  - assert (Z.shiftr (Z.land x2 mask) ls = old) as Eo.
    { rewrite E. apply field_of_write; (done || lia). }
    split_and!; [done..|]. rewrite <-E. eapply updates_byte; [done|done|lia|done| |].
    + apply is_u8_lor; [apply is_u8_land; apply HM2|apply is_u8_ushl].
    + intros j Hj. apply field_write; (done || lia).
  - split_and!; [done..|]. destruct (decide (x2 = x)) as [Ex|]; [|by right]. left. intros Eo.
    apply E. rewrite <-Ex. symmetry. apply write_own_field; [done|lia|done|apply HM2|done].
Qed.
End ops.
