(* ===== verification/SideMetadataBulk.v ===== *)
(** * Bulk operations on side metadata

    [bzero_metadata], [bset_metadata] and [bcopy_metadata_contiguous] rewrite exactly
    the bits between the value of the first region and the value of the region at the
    end of the range. *)

From S2P Require Import Prelude Conversions Memory SideMetadata SideMetadataBits SideMetadataOps.

(** Rewriting some bits of one byte. *)
Lemma membit_store_bits M a b e y (nb : Z → bool) j :
  0 ≤ b → e ≤ 8 →
  (∀ i, 0 ≤ i < 8 → Z.testbit y i = if (b <=? i) && (i <? e) then nb (8 * a + i) else Z.testbit (M a) i) →
  membit (store_u8 M a y) j = if (8 * a + b <=? j) && (j <? 8 * a + e) then nb j else membit M j.
Proof.
  intros Hb He Hy. rewrite membit_store_u8. pose proof (divmod8 j) as [Ej Hj].
  destruct (Z.eqb_spec (j `div` 8) a) as [Ea|Ea].
  - rewrite Hy by lia. rewrite Ea in Ej.
    assert (membit M j = Z.testbit (M a) (j `mod` 8)) as -> by (unfold membit; by rewrite Ea).
    rewrite <-Ej.
    destruct (Z.leb_spec b (j `mod` 8)), (Z.leb_spec (8 * a + b) j); simpl; try lia; [|done].
    destruct (Z.ltb_spec (j `mod` 8) e), (Z.ltb_spec j (8 * a + e)); lia || done.
  - destruct (Z.leb_spec (8 * a + b) j), (Z.ltb_spec j (8 * a + e)); simpl; lia || done.
Qed.

Ltac bool_cases :=
  repeat match goal with
    | |- context [ (?a <? ?b)%Z ] => destruct (Z.ltb_spec a b); try lia
    | |- context [ (?a <=? ?b)%Z ] => destruct (Z.leb_spec a b); try lia
    end; simpl; rewrite ?andb_true_r, ?andb_false_r, ?orb_true_r, ?orb_false_r; try done.

Section bulk.
Context (s : SideMetadataSpec) (Hs : spec_ok s).

(** The bounds of a bulk operation over [[start, start + size)]. *)
Lemma bulk_bounds start size :
  addr_ok start → addr_ok (start + size) → 0 ≤ size →
  start +u size = start + size ∧
  base s start = 8 * address_to_meta_address s start + meta_byte_lshift s start ∧
  base s (start + size) = 8 * address_to_meta_address s (start + size) + meta_byte_lshift s (start + size) ∧
  0 ≤ address_to_meta_address s start ∧ address_to_meta_address s (start + size) < 2 ^ 64 ∧
  0 ≤ meta_byte_lshift s start < 8 ∧ 0 ≤ meta_byte_lshift s (start + size) < 8 ∧
  base s start ≤ base s (start + size).
Proof.
  intros H1 H2 Hsz. destruct (base_split s Hs _ H1) as (-> & ? & _ & ?).
  destruct (base_split s Hs _ H2) as (E2 & ? & _ & ?).
  pose proof (sp_offset s Hs). pose proof (sp_end s Hs) as He. fold (table_bytes s) in He.
  split_and!; try lia.
  - unfold addr_ok in *. apply uadd_id. lia.
  - destruct (base_split s Hs _ H1) as (<- & _). unfold base.
    assert (region s start ≤ region s (start + size)) as Hr.
    { unfold region. apply Z.div_le_mono; [apply Z.pow_pos_nonneg; destruct Hs; lia|lia]. }
    pose proof (width_pos s Hs). nia.
Qed.

(** A visitor that rewrites the bits of each piece rewrites the bits of the range. *)
Lemma bulk_bits (visitor : mem → BitByteRange → mem * bool) (new : mem → Z → bool) M sa sb ea eb :
  mem_ok M → 0 ≤ sa → ea < 2 ^ 64 → 0 ≤ sb < 8 → 0 ≤ eb < 8 → 8 * sa + sb ≤ 8 * ea + eb →
  (∀ M r, (visitor M r).2 = false) →
  (∀ M' r, range_ok r → mem_ok M' → 8 * sa + sb ≤ range_lo r → range_hi r ≤ 8 * ea + eb →
     (∀ j, range_lo r ≤ j < range_hi r ∨ ¬ (8 * sa + sb ≤ j < 8 * ea + eb) → membit M' j = membit M j) →
     mem_ok (visitor M' r).1 ∧
     ∀ j, membit (visitor M' r).1 j = if (range_lo r <=? j) && (j <? range_hi r) then new M j else membit M' j) →
  let M' := (break_bit_range sa sb ea eb true visitor M).1 in
  mem_ok M' ∧ ∀ j, membit M' j = if (8 * sa + sb <=? j) && (j <? 8 * ea + eb) then new M j else membit M j.
Proof.
  intros HM Hsa Hea Hsb Heb Hle Hstop Hstep M'. unfold M'. rewrite break_bit_range_eq. simpl.
  destruct (visit_bits visitor new (8 * sa + sb) (8 * ea + eb) (ranges_of sa sb ea eb) M M
    (λ M r _, Hstop M r) Hstep HM (8 * sa + sb)) as (_ & ? & ?); try done.
  by apply ranges_of_chain.
Qed.

Lemma bzero_bits M start size :
  mem_ok M → addr_ok start → addr_ok (start + size) → 0 ≤ size →
  mem_ok (bzero_metadata s M start size) ∧
  ∀ j, membit (bzero_metadata s M start size) j =
    if (base s start <=? j) && (j <? base s (start + size)) then false else membit M j.
Proof.
  intros HM H1 H2 Hsz. destruct (bulk_bounds start size H1 H2 Hsz) as (Ea & -> & -> & ? & ? & ? & ? & ?).
  unfold bzero_metadata, bulk_update_metadata. rewrite Ea. destruct (Z.eqb_spec size 0) as [->|].
  { rewrite !Z.add_0_r. split; [done|]. intros j. bool_cases. }
  unfold zero_meta_bits. apply (bulk_bits _ (λ _ _, false)); try done.
  { by intros M' []. }
  intros M' r [Hlt Hr] HM' Hlo Hhi _. destruct r as [a b|a b e]; unfold range_lo, range_hi in *; simpl fst.
  - rewrite usub_id by lia. unfold mem_zero. split; [apply mem_ok_set; [done|vm_compute; done]|].
    intros j. rewrite membit_set. replace (a + (b - a)) with b by lia. by rewrite Z.bits_0.
  - split; [apply mem_ok_store_u8; [done|]; apply is_u8_land; apply HM'|].
    intros j. apply (membit_store_bits _ _ _ _ _ (λ _, false)); [lia..|]. intros i Hi. unfold load_u8.
    change 255 with (Z.ones 8). change (Z.ones 8) with 255 at 1.
    rewrite Z.land_spec, Z.lor_spec, testbit_checked_shl, testbit_unot8, testbit_mask by lia. bool_cases.
Qed.

Lemma bset_bits M start size :
  mem_ok M → addr_ok start → addr_ok (start + size) → 0 ≤ size →
  mem_ok (bset_metadata s M start size) ∧
  ∀ j, membit (bset_metadata s M start size) j =
    if (base s start <=? j) && (j <? base s (start + size)) then true else membit M j.
Proof.
  intros HM H1 H2 Hsz. destruct (bulk_bounds start size H1 H2 Hsz) as (Ea & -> & -> & ? & ? & ? & ? & ?).
  unfold bset_metadata, bulk_update_metadata. rewrite Ea. destruct (Z.eqb_spec size 0) as [->|].
  { rewrite !Z.add_0_r. split; [done|]. intros j. bool_cases. }
  unfold set_meta_bits. apply (bulk_bits _ (λ _ _, true)); try done.
  { by intros M' []. }
  intros M' r [Hlt Hr] HM' Hlo Hhi _. destruct r as [a b|a b e]; unfold range_lo, range_hi in *; simpl fst.
  - rewrite usub_id by lia. split; [apply mem_ok_set; [done|vm_compute; done]|].
    intros j. rewrite membit_set. replace (a + (b - a)) with b by lia.
    change 255 with (Z.ones 8). pose proof (divmod8 j). rewrite Z.testbit_ones_nonneg by lia. bool_cases.
  - split.
    { apply mem_ok_store_u8; [done|]. apply is_u8_lor; [apply HM'|]. apply is_u8_land, is_u8_unot. }
    intros j. apply (membit_store_bits _ _ _ _ _ (λ _, true)); [lia..|]. intros i Hi. unfold load_u8.
    rewrite Z.lor_spec, Z.land_spec, testbit_unot8, testbit_checked_shl by lia.
    change 255 with (Z.ones 8). rewrite testbit_mask by lia. bool_cases.
Qed.
End bulk.

(** Copying from the table of another spec of the same shape. *)
Section copy.
Context (s o : SideMetadataSpec) (Hs : spec_ok s) (Ho : spec_ok o).
Context (Ek : log_num_of_bits o = log_num_of_bits s) (Er : log_bytes_in_region o = log_bytes_in_region s).
Context (Hdisj : sm_offset s + table_bytes s ≤ sm_offset o ∨ sm_offset o + table_bytes o ≤ sm_offset s).

Lemma copy_shape a :
  addr_ok a → address_to_meta_address o a = address_to_meta_address s a + (sm_offset o - sm_offset s) ∧
  meta_byte_lshift o a = meta_byte_lshift s a ∧ table_bytes o = table_bytes s ∧
  base o a = base s a + 8 * (sm_offset o - sm_offset s) ∧ width o = width s.
Proof.
  intros Ha. rewrite !meta_address_eq by done. unfold meta_byte_lshift, base, table_bytes, width, region.
  rewrite Ek, Er. split_and!; (done || lia).
Qed.

Lemma bcopy_bits M start size :
  mem_ok M → addr_ok start → addr_ok (start + size) → 0 ≤ size →
  let M' := bcopy_metadata_contiguous s o M start size in
  mem_ok M' ∧ ∀ j, membit M' j =
    if (base s start <=? j) && (j <? base s (start + size))
    then membit M (j + 8 * (sm_offset o - sm_offset s)) else membit M j.
Proof.
  intros HM H1 H2 Hsz M'. destruct (bulk_bounds s Hs start size H1 H2 Hsz) as (Ea & E1 & E2 & ? & ? & ? & ? & ?).
  destruct (base_split s Hs _ H1) as (_ & _ & _ & Hb1). destruct (base_split s Hs _ H2) as (_ & _ & _ & Hb2).
  destruct (copy_shape start H1) as (Esrc & _ & Et & _).
  pose proof (sp_offset s Hs). pose proof (sp_offset o Ho).
  pose proof (sp_end s Hs) as He1. fold (table_bytes s) in He1.
  pose proof (sp_end o Ho) as He2. fold (table_bytes o) in He2. rewrite Et in *.
  rewrite E1, E2. unfold M', bcopy_metadata_contiguous. rewrite Ea, Esrc.
  set (δ := sm_offset o - sm_offset s) in *.
  assert (∀ j, 8 * address_to_meta_address s start + meta_byte_lshift s start ≤ j <
     8 * address_to_meta_address s (start + size) + meta_byte_lshift s (start + size) →
     ¬ (8 * address_to_meta_address s start + meta_byte_lshift s start ≤ j + 8 * δ <
     8 * address_to_meta_address s (start + size) + meta_byte_lshift s (start + size))) as Hsrc.
  { intros j Hj. rewrite <-E1, <-E2 in *.
    assert (8 * sm_offset s ≤ base s start ∧ base s (start + size) ≤ 8 * (sm_offset s + table_bytes s)).
    { destruct (region_bound s Hs (start + size) ltac:(unfold addr_ok in *; lia)) as [Hb _].
      specialize (Hb ltac:(unfold addr_ok in *; lia)). unfold base in *.
      pose proof (region_nonneg s Hs start ltac:(unfold addr_ok in *; lia)). pose proof (width_pos s Hs). nia. }
    lia. }
  apply (bulk_bits _ (λ M j, membit M (j + 8 * δ))); try done; [lia| |].
  { by intros M1 []. }
  intros M1 r [Hlt Hr] HM1 Hlo Hhi Hsame. destruct r as [a b|a b e]; unfold range_lo, range_hi in *; simpl fst.
  - rewrite !usub_id by lia. rewrite uadd_id by lia. split; [auto|].
    intros j. rewrite membit_copy. replace (a + (b - a)) with b by lia.
    destruct ((8 * a <=? j) && (j <? 8 * b)) eqn:Ej; [|done].
    apply andb_true_iff in Ej as [?%Z.leb_le ?%Z.ltb_lt]. rewrite Hsame; [f_equal; lia|].
    right. replace (j + 8 * (address_to_meta_address s start + δ + (a - address_to_meta_address s start) - a))
      with (j + 8 * δ) by lia. apply Hsrc. lia.
  - rewrite usub_id by lia. rewrite uadd_id by lia.
    replace (address_to_meta_address s start + δ + (a - address_to_meta_address s start)) with (a + δ) by lia.
    split.
    { apply mem_ok_store_u8; [done|]. apply is_u8_lor; apply is_u8_land; apply HM1. }
    intros j. apply (membit_store_bits _ _ _ _ _ (λ j, membit M (j + 8 * δ))); [lia..|].
    intros i Hi. unfold load_u8.
    rewrite Z.lor_spec, !Z.land_spec, (testbit_unot8 (Z.land _ _)), Z.land_spec, testbit_unot8, testbit_checked_shl by lia.
    change 255 with (Z.ones 8). rewrite testbit_mask by lia.
    destruct (Z.leb_spec b i), (Z.ltb_spec i e); bool_cases.
    rewrite <-(Hsame (8 * a + i + 8 * δ)) by (right; apply Hsrc; lia).
    replace (8 * a + i + 8 * δ) with (8 * (a + δ) + i) by lia. by rewrite membit_at by lia.
Qed.
End copy.
