(* ===== verification/SideMetadataTheorems.v ===== *)
(** * The theorems on side metadata *)

From S2P Require Import Prelude Conversions Memory SideMetadata SideMetadataBits SideMetadataOps SideMetadataBulk.

(** ** Tables *)

Lemma region_lt s a : spec_ok s → 0 ≤ a < 2 ^ 47 → (region s a + 1) * width s ≤ 8 * table_bytes s.
Proof.
  intros Hs Ha. pose proof (table_eq s Hs) as E. pose proof (region_le s Hs a) as Hle.
  pose proof (width_pos s Hs) as [Hw _]. destruct Hs as [_ Hr _ _ _].
  assert (0 < 2 ^ log_bytes_in_region s) by (apply Z.pow_pos_nonneg; lia).
  assert (2 ^ 47 = 2 ^ (47 - log_bytes_in_region s) * 2 ^ log_bytes_in_region s) as E47.
  { rewrite <-Z.pow_add_r by lia. f_equal. lia. }
  set (P := 2 ^ log_bytes_in_region s) in *. set (Q := 2 ^ (47 - log_bytes_in_region s)) in *.
  assert (region s a < Q) by (apply (Z.mul_lt_mono_pos_r P); lia).
  assert (8 * table_bytes s = Q * width s) as -> by (apply (Z.mul_cancel_r _ _ P); [lia|]; rewrite E, E47; ring). nia.
Qed.

Lemma base_in_table s a :
  spec_ok s → 0 ≤ a < 2 ^ 47 →
  8 * sm_offset s ≤ base s a ∧ base s a + width s ≤ 8 * (sm_offset s + table_bytes s).
Proof.
  intros Hs Ha. pose proof (region_lt s a Hs Ha). pose proof (region_nonneg s Hs a ltac:(lia)).
  pose proof (width_pos s Hs). unfold base. nia.
Qed.

Definition tables_disjoint (s o : SideMetadataSpec) : Prop :=
  upper_bound_address_for_contiguous s ≤ sm_offset o ∨ upper_bound_address_for_contiguous o ≤ sm_offset s.

Lemma updates_table s o M M' a b v :
  spec_ok s → spec_ok o → tables_disjoint s o → updates s M M' a v → mem_ok M →
  0 ≤ a < 2 ^ 47 → 0 ≤ b < 2 ^ 47 → load o M' b = load o M b.
Proof.
  intros Hs Ho Hd [HM' Hb] HM Ha Hb'. unfold tables_disjoint in Hd. rewrite !upper_bound_eq in Hd by done.
  pose proof (base_in_table s a Hs Ha). pose proof (base_in_table o b Ho Hb').
  apply load_ext; try done; try (unfold addr_ok; lia). intros i Hi. rewrite Hb.
  destruct (Z.leb_spec (base s a) (base o b + i)), (Z.ltb_spec (base o b + i) (base s a + width s)); simpl; lia || done.
Qed.

(** Regions as addresses. *)
Lemma region_aligned_le s x b :
  spec_ok s → (2 ^ log_bytes_in_region s | x) → region s x ≤ region s b ↔ x ≤ b.
Proof.
  intros Hs [q ->]. assert (0 < 2 ^ log_bytes_in_region s) by (apply Z.pow_pos_nonneg; destruct Hs; lia).
  unfold region. rewrite Z.div_mul by lia. split; intros Hle.
  - pose proof (Z.mul_div_le b (2 ^ log_bytes_in_region s) ltac:(lia)). nia.
  - apply Z.div_le_lower_bound; lia.
Qed.

(** Where the value of a region lies with respect to a range of whole regions. *)
Lemma range_region s start size b :
  spec_ok s → (2 ^ log_bytes_in_region s | start) → (2 ^ log_bytes_in_region s | size) →
  if decide (start ≤ b < start + size)
  then base s start ≤ base s b ∧ base s b + width s ≤ base s (start + size)
  else base s b + width s ≤ base s start ∨ base s (start + size) ≤ base s b.
Proof.
  intros Hs H1 H2. pose proof (width_pos s Hs). pose proof (region_aligned_le s start b Hs H1) as I1.
  assert (2 ^ log_bytes_in_region s | start + size) as H3 by (by apply Z.divide_add_r).
  pose proof (region_aligned_le s (start + size) b Hs H3) as I2.
  unfold base. case_decide; [assert (region s start ≤ region s b < region s (start + size)) by lia; nia|].
  assert (region s b < region s start ∨ region s (start + size) ≤ region s b) as [|] by lia; nia.
Qed.

(** ** Samples for the witnesses *)

Definition spec2 : SideMetadataSpec :=
  {| sm_name := "TWO_BITS"; is_global := true; sm_offset := 0x0c0000000000;
     log_num_of_bits := 1; log_bytes_in_region := 4 |}.
Definition spec32 : SideMetadataSpec :=
  {| sm_name := "WORD"; is_global := true; sm_offset := 0x2c0000000000;
     log_num_of_bits := 5; log_bytes_in_region := 15 |}.
Definition spec2b : SideMetadataSpec :=
  {| sm_name := "TWO_BITS_COPY"; is_global := true; sm_offset := 0x4c0000000000;
     log_num_of_bits := 1; log_bytes_in_region := 4 |}.

Lemma spec2_ok : spec_ok spec2. Proof. by split. Qed.
Lemma spec32_ok : spec_ok spec32. Proof. by split. Qed.
Lemma spec2b_ok : spec_ok spec2b. Proof. by split. Qed.
Lemma mem0_ok : mem_ok (λ _, 0). Proof. by intros a. Qed.

(** ** Address translation *)

Lemma meta_address_lt s a :
  spec_ok s → 0 ≤ a < 2 ^ 47 → sm_offset s ≤ address_to_meta_address s a < sm_offset s + table_bytes s.
Proof.
  intros Hs Ha. destruct (base_split s Hs a) as (E & Hls & _ & ?); [unfold addr_ok; lia|].
  pose proof (base_in_table s a Hs Ha). pose proof (width_pos s Hs). lia.
Qed.

(** The metadata of a data address lies in the table of its spec: at or above
    the table's start, below its upper bound, where the next table is laid out. *)
Theorem meta_address_bounds (s : SideMetadataSpec) (a : Z) :
  spec_ok s → 0 ≤ a < 2 ^ 47 →
  sm_offset s ≤ address_to_meta_address s a < upper_bound_address_for_contiguous s ∧
  upper_bound_address_for_contiguous s ≤ layout_after s.
Proof.
  intros Hs Ha. pose proof (meta_address_lt s a Hs Ha). rewrite upper_bound_eq by done.
  split; [lia|]. unfold layout_after, align_up. fold (upper_bound_address_for_contiguous s).
  rewrite upper_bound_eq by done. pose proof (sp_end s Hs) as He. fold (table_bytes s) in He.
  pose proof (sp_offset s Hs). change BYTES_IN_WORD with (2 ^ 3).
  assert (0 < table_bytes s) by (apply Z.pow_pos_nonneg; destruct Hs; lia).
  rewrite align_up_eq by lia.
  pose proof (div_mul_bounds (sm_offset s + table_bytes s + 2 ^ 3 - 1) (2 ^ 3)). lia.
Qed.

Lemma meta_address_bounds_witness :
  sm_offset spec2 ≤ address_to_meta_address spec2 0x20000001234 < upper_bound_address_for_contiguous spec2 ∧
  upper_bound_address_for_contiguous spec2 ≤ layout_after spec2.
Proof. apply (meta_address_bounds spec2 0x20000001234 spec2_ok). lia. Defined.

(** The relative metadata position of a region: [P] regions share a byte. *)
Lemma small_position s a :
  spec_ok s → addr_ok a → log_num_of_bits s ≤ 3 →
  let P := 2 ^ (3 - log_num_of_bits s) in
  0 < P ∧ width s * P = 8 ∧ address_to_meta_address s a = sm_offset s + region s a `div` P ∧
  meta_byte_lshift s a = width s * (region s a `mod` P).
Proof.
  intros Hs Ha Hk P. pose proof (sp_bits s Hs). assert (0 < P) by (apply Z.pow_pos_nonneg; lia).
  assert (width s * P = 8) as E8.
  { unfold width, P. rewrite <-Z.pow_add_r by lia. replace (log_num_of_bits s + (3 - log_num_of_bits s)) with 3 by lia. done. }
  pose proof (width_pos s Hs). split_and!; [done..| |].
  - rewrite meta_address_eq by done. f_equal. rewrite <-E8, (Z.mul_comm (width s)).
    apply Z.div_mul_cancel_r; lia.
  - destruct (decide (log_num_of_bits s = 3)) as [E3|].
    + unfold meta_byte_lshift. rewrite E3. simpl. unfold P. rewrite E3.
      change (2 ^ (3 - 3)) with 1. rewrite Z.mod_1_r. lia.
    + rewrite lshift_eq by (done || lia). rewrite <-E8, (Z.mul_comm (width s) P).
      rewrite Z.mul_mod_distr_r by lia. lia.
Qed.

Lemma large_position s a :
  spec_ok s → addr_ok a → 3 ≤ log_num_of_bits s →
  address_to_meta_address s a = sm_offset s + region s a * 2 ^ (log_num_of_bits s - 3).
Proof.
  intros Hs Ha Hk. rewrite meta_address_eq by done. f_equal. unfold width.
  replace (log_num_of_bits s) with (log_num_of_bits s - 3 + 3) at 1 by lia.
  rewrite Z.pow_add_r, Z.mul_assoc by lia. apply Z.div_mul. lia.
Qed.

Lemma align_down_id x e : 0 ≤ e < 64 → is_u 64 x → (2 ^ e | x) → raw_align_down x (2 ^ e) = x.
Proof.
  intros He Hx [q ->]. rewrite align_down_eq by done.
  rewrite Z.div_mul by (apply Z.pow_nonzero; lia). done.
Qed.

(** Translating back the byte and the bit where a value starts. *)
Lemma meta_address_inverse (s : SideMetadataSpec) (a : Z) :
  spec_ok s → (8 | sm_offset s) →
  (log_num_of_bits s ≤ 3 → log_num_of_bits s ≤ log_bytes_in_region s) → 0 ≤ a < 2 ^ 47 →
  contiguous_meta_address_to_address s (address_to_meta_address s a) (meta_byte_lshift s a) =
    align_down a (Z.shiftl 1 (log_bytes_in_region s)).
Proof.
  intros Hs Hoff Hk Ha. assert (addr_ok a) as Ha' by (unfold addr_ok; lia).
  pose proof (meta_address_lt s a Hs Ha) as Hmb.
  pose proof (sp_end s Hs) as He. fold (table_bytes s) in He. pose proof (sp_offset s Hs).
  pose proof (sp_bits s Hs). pose proof (sp_region s Hs).
  pose proof (region_nonneg s Hs a ltac:(lia)) as Hr. pose proof (region_le s Hs a) as Hle.
  set (lr := log_bytes_in_region s) in *. assert (0 < 2 ^ lr) by (apply Z.pow_pos_nonneg; lia).
  rewrite Z.shiftl_1_l. unfold align_down. rewrite align_down_eq by (unfold is_u; lia).
  change (a `div` 2 ^ lr) with (region s a).
  unfold contiguous_meta_address_to_address, get_absolute_offset.
  change LOG_BITS_IN_BYTE with 3. rewrite (usub_id (address_to_meta_address s a)) by lia.
  destruct (decide (log_num_of_bits s ≤ 3)) as [Hk3|Hk3].
  - destruct (small_position s a Hs Ha' Hk3) as (HP & E8 & Ema & Els). specialize (Hk Hk3).
    set (P := 2 ^ (3 - log_num_of_bits s)) in *. pose proof (width_pos s Hs).
    pose proof (Z.div_mod (region s a) P ltac:(lia)) as Ed.
    pose proof (Z.mod_pos_bound (region s a) P HP). assert (0 ≤ region s a `div` P) by (apply Z.div_pos; lia).
    destruct (Z.leb_spec 0 (3 - log_num_of_bits s)); [|lia].
    rewrite Ema, Els. replace (sm_offset s + region s a `div` P - sm_offset s) with (region s a `div` P) by lia.
    set (q := region s a `div` P) in *. set (t := region s a `mod` P) in *.
    rewrite (usub_id (log_bytes_in_region s)) by lia. fold lr.
    assert (width s * t * 2 ^ (lr - log_num_of_bits s) = t * 2 ^ lr) as Et.
    { unfold width. replace lr with (lr - log_num_of_bits s + log_num_of_bits s) at 2 by lia.
      rewrite Z.pow_add_r by lia. ring. }
    assert (q * P * 2 ^ lr + t * 2 ^ lr ≤ a) as Hsum by (rewrite Ed in Hle; nia).
    assert (0 ≤ q * P * 2 ^ lr ∧ 0 ≤ t * 2 ^ lr) as [? ?] by nia.
    assert (0 ≤ q * P ≤ q * P * 2 ^ lr) by nia.
    rewrite (ushl_id 64 q) by (fold P; lia). fold P. rewrite (ushl_id 64 (q * P)) by lia.
    rewrite (ushl_id 64 (width s * t)) by lia. rewrite Et, uadd_id by lia. rewrite Ed. ring.
  - rewrite (large_position s a Hs Ha' ltac:(lia)).
    assert (meta_byte_lshift s a = 0) as ->.
    { unfold meta_byte_lshift. destruct (Z.leb_spec 3 (log_num_of_bits s)); [done|lia]. }
    assert (0 < 2 ^ (log_num_of_bits s - 3)) by (apply Z.pow_pos_nonneg; lia).
    destruct (Z.leb_spec 0 (3 - log_num_of_bits s)); [lia|].
    replace (sm_offset s + region s a * 2 ^ (log_num_of_bits s - 3) - sm_offset s)
      with (region s a * 2 ^ (log_num_of_bits s - 3)) by lia.
    replace (- (3 - log_num_of_bits s)) with (log_num_of_bits s - 3) by lia.
    rewrite shiftr_div, Z.div_mul by lia. fold lr. rewrite !ushl_id by lia. rewrite uadd_id; lia.
Qed.

(** Any bit of a value leads to the byte and the bit where the value starts. *)
Lemma align_metadata_address_start (s : SideMetadataSpec) (a j : Z) :
  spec_ok s → (8 | sm_offset s) → 0 ≤ a < 2 ^ 47 → base s a ≤ j < base s a + width s →
  align_metadata_address s (j `div` 8) (j `mod` 8) = (address_to_meta_address s a, meta_byte_lshift s a).
Proof.
  intros Hs Hoff Ha Hj. assert (addr_ok a) as Ha' by (unfold addr_ok; lia).
  pose proof (meta_address_lt s a Hs Ha) as Hmb. pose proof (sp_end s Hs) as He. fold (table_bytes s) in He.
  pose proof (sp_offset s Hs). pose proof (sp_bits s Hs). pose proof (divmod8 j) as [Ej Hj8].
  destruct (base_split s Hs a Ha') as (Eb & Hls & Hlw & _).
  unfold align_metadata_address. change LOG_BITS_IN_BYTE with 3.
  destruct (Z.leb_spec 3 (log_num_of_bits s)).
  - destruct (decide (log_num_of_bits s < 3)); [lia|]. rewrite Hlw in *. f_equal.
    assert (0 < 2 ^ (log_num_of_bits s - 3)) by (apply Z.pow_pos_nonneg; lia).
    assert (2 ^ (log_num_of_bits s - 3) ≤ 2 ^ 3) by (apply Z.pow_le_mono_r; lia).
    assert (width s = 8 * 2 ^ (log_num_of_bits s - 3)) as Ew.
    { unfold width. change 8 with (2 ^ 3). rewrite <-Z.pow_add_r by lia. f_equal. lia. }
    rewrite ushl_id, Z.mul_1_l by lia. unfold align_down. rewrite align_down_eq by (unfold is_u; lia).
    assert (2 ^ (log_num_of_bits s - 3) | address_to_meta_address s a) as [q Eq].
    { rewrite (large_position s a Hs Ha') by lia. apply Z.divide_add_r; [|apply Z.divide_factor_r].
      apply Z.divide_trans with 8; [|done]. exists (2 ^ (6 - log_num_of_bits s)).
      rewrite <-Z.pow_add_r by lia. replace (6 - log_num_of_bits s + (log_num_of_bits s - 3)) with 3 by lia. done. }
    rewrite Eq in *. f_equal. symmetry. apply Z.div_unique_pos with (j `div` 8 - q * 2 ^ (log_num_of_bits s - 3)); lia.
  - destruct (decide (log_num_of_bits s < 3)); [|lia]. assert (j `div` 8 = address_to_meta_address s a) as -> by lia.
    f_equal. destruct (small_position s a Hs Ha' ltac:(lia)) as (HP & E8 & _ & Els).
    pose proof (width_pos s Hs). unfold width in *.
    rewrite ushl_id, Z.mul_1_l by lia. rewrite align_down_eq by (unfold is_u; lia).
    assert ((j `mod` 8) `div` 2 ^ log_num_of_bits s = region s a `mod` 2 ^ (3 - log_num_of_bits s)) as ->.
    { symmetry. apply Z.div_unique_pos with (j `mod` 8 - meta_byte_lshift s a); lia. }
    rewrite uwrap_id; lia.
Qed.

(** Translating a data address to its metadata byte and bit and back gives the
    first address of its region, and so does every bit of the value once aligned to
    the start of the value. *)
Theorem meta_address_roundtrip (s : SideMetadataSpec) (a j : Z) :
  spec_ok s → (8 | sm_offset s) →
  (log_num_of_bits s ≤ 3 → log_num_of_bits s ≤ log_bytes_in_region s) → 0 ≤ a < 2 ^ 47 →
  base s a ≤ j < base s a + width s →
  contiguous_meta_address_to_address s (address_to_meta_address s a) (meta_byte_lshift s a) =
    align_down a (Z.shiftl 1 (log_bytes_in_region s)) ∧
  align_metadata_address s (j `div` 8) (j `mod` 8) = (address_to_meta_address s a, meta_byte_lshift s a).
Proof.
  intros Hs Hoff Hk Ha Hj. split; [by apply meta_address_inverse|by apply align_metadata_address_start].
Qed.

Lemma meta_address_roundtrip_witness :
  contiguous_meta_address_to_address spec2 (address_to_meta_address spec2 0x20000001234) (meta_byte_lshift spec2 0x20000001234) =
    align_down 0x20000001234 (Z.shiftl 1 4) ∧
  align_metadata_address spec2 ((base spec2 0x20000001234 + 1) `div` 8) ((base spec2 0x20000001234 + 1) `mod` 8) =
    (address_to_meta_address spec2 0x20000001234, meta_byte_lshift spec2 0x20000001234).
Proof.
  apply (meta_address_roundtrip spec2 0x20000001234 _ spec2_ok); [|simpl; lia|lia|].
  - by exists (0x0c0000000000 / 8).
  - change (width spec2) with 2. lia.
Defined.

(** ** Single values *)

(** [M'] differs from [M] in one value at most: the value of the region of [a] in
    the table of [s] is [v], every other value of every table is what it was. *)
Definition only_changes (s : SideMetadataSpec) (M M' : mem) (a v : Z) : Prop :=
  mem_ok M' ∧ load s M' a = v ∧
  (∀ b, 0 ≤ b < 2 ^ 47 → region s b ≠ region s a → load s M' b = load s M b) ∧
  (∀ o b, spec_ok o → tables_disjoint s o → 0 ≤ b < 2 ^ 47 → load o M' b = load o M b).

Lemma updates_only_changes s M M' a v :
  spec_ok s → mem_ok M → 0 ≤ a < 2 ^ 47 → is_u (width s) v → updates s M M' a v → only_changes s M M' a v.
Proof.
  intros Hs HM Ha Hv Hu. assert (addr_ok a) as Ha' by (unfold addr_ok; lia). split_and!.
  - apply Hu.
  - by eapply updates_same.
  - intros b Hb Hne. eapply updates_region; eauto. unfold addr_ok. lia.
  - intros o b Ho Hd Hb. by apply (updates_table s o M M' a b v).
Qed.

(** C23: a value stored (plainly or atomically) for an address is the value loaded
    for any address of the same region, and no other value of this table or of a
    disjoint table changes. *)
Theorem store_then_load (s : SideMetadataSpec) (M : mem) (a v : Z) :
  spec_ok s → mem_ok M → 0 ≤ a < 2 ^ 47 → is_u (width s) v →
  only_changes s M (store s M a v) a v ∧ store_atomic s M a v = store s M a v ∧
  ∀ b, 0 ≤ b < 2 ^ 47 → region s b = region s a →
    load s (store s M a v) b = v ∧ load_atomic s (store s M a v) b = v.
Proof.
  intros Hs HM Ha Hv. assert (addr_ok a) as Ha' by (unfold addr_ok; lia).
  pose proof (store_updates s Hs M a v HM Ha' Hv) as Hu.
  pose proof (updates_only_changes s M _ a v Hs HM Ha Hv Hu) as Ho. split_and!; [done..|].
  intros b Hb E. assert (load s (store s M a v) b = v) as El; [|exact (conj El El)].
  rewrite (load_region s Hs _ b a); [|apply Ho|unfold addr_ok; lia|done|done]. apply Ho.
Qed.

Lemma store_then_load_witness :
  only_changes spec2 (λ _, 0) (store spec2 (λ _, 0) 0x1234 3) 0x1234 3 ∧
  store_atomic spec2 (λ _, 0) 0x1234 3 = store spec2 (λ _, 0) 0x1234 3 ∧
  ∀ b, 0 ≤ b < 2 ^ 47 → region spec2 b = region spec2 0x1234 →
    load spec2 (store spec2 (λ _, 0) 0x1234 3) b = 3 ∧ load_atomic spec2 (store spec2 (λ _, 0) 0x1234 3) b = 3.
Proof. apply (store_then_load spec2 (λ _, 0) 0x1234 3 spec2_ok mem0_ok); [lia|by vm_compute]. Defined.

(** The read-modify-write operations and what they compute on an integer as wide as
    the value. *)
Definition rmw_ops (s : SideMetadataSpec) (v : Z) : list ((mem → Z → Z → Z * mem) * (Z → Z)) :=
  [(fetch_add_atomic s, λ x, uwrap (width s) (x + v));
   (fetch_sub_atomic s, λ x, uwrap (width s) (x - v));
   (fetch_and_atomic s, λ x, Z.land x v);
   (fetch_or_atomic s, λ x, Z.lor x v)].

Lemma is_u_land w x y : 0 ≤ w → is_u w x → is_u w (Z.land x y).
Proof. intros Hw Hx. apply is_u_bits; [done|]. intros i Hi. by rewrite Z.land_spec, (testbit_small w x) by done. Qed.
Lemma is_u_lor w x y : 0 ≤ w → is_u w x → is_u w y → is_u w (Z.lor x y).
Proof.
  intros Hw Hx Hy. apply is_u_bits; [done|]. intros i Hi.
  by rewrite Z.lor_spec, (testbit_small w x), (testbit_small w y) by done.
Qed.

(** [fetch_add], [fetch_sub], [fetch_and] and [fetch_or] return the value found
    and store the wrapped sum or difference, the conjunction or the disjunction, as
    on an integer of the value's width; all other values are unchanged. *)
Theorem rmw_values (s : SideMetadataSpec) (M : mem) (a v : Z) :
  spec_ok s → mem_ok M → 0 ≤ a < 2 ^ 47 → is_u (width s) v →
  Forall (λ '(op, f), (op M a v).1 = load s M a ∧
    only_changes s M (op M a v).2 a (f (load s M a))) (rmw_ops s v).
Proof.
  intros Hs HM Ha Hv. assert (addr_ok a) as Ha' by (unfold addr_ok; lia).
  pose proof (load_u s Hs M a HM Ha') as Hl. pose proof (width_pos s Hs).
  repeat (apply Forall_cons; split); [..|apply Forall_nil; exact I].
  - pose proof (fetch_add_updates s Hs M a v HM Ha') as Hf. destruct (fetch_add_atomic _ _ _ _) as [old M'].
    destruct Hf as [-> Hu]. split; [done|]. apply updates_only_changes; try done. by apply uwrap_u.
  - pose proof (fetch_sub_updates s Hs M a v HM Ha') as Hf. destruct (fetch_sub_atomic _ _ _ _) as [old M'].
    destruct Hf as [-> Hu]. split; [done|]. apply updates_only_changes; try done. by apply uwrap_u.
  - pose proof (fetch_and_updates s Hs M a v HM Ha') as Hf. destruct (fetch_and_atomic _ _ _ _) as [old M'].
    destruct Hf as [-> Hu]. split; [done|]. apply updates_only_changes; try done. apply is_u_land; (lia || done).
  - pose proof (fetch_or_updates s Hs M a v HM Ha') as Hf. destruct (fetch_or_atomic _ _ _ _) as [old M'].
    destruct Hf as [-> Hu]. split; [done|].
    replace (if log_num_of_bits s <? 3 then uwrap (width s) v else v) with v in Hu
      by (case_match; [by rewrite uwrap_id|done]).
    apply updates_only_changes; try done. apply is_u_lor; (lia || done).
Qed.

Lemma rmw_values_witness :
  Forall (λ '(op, f), (op (λ _, 0) 0x1234 3).1 = load spec2 (λ _, 0) 0x1234 ∧
    only_changes spec2 (λ _, 0) (op (λ _, 0) 0x1234 3).2 0x1234 (f (load spec2 (λ _, 0) 0x1234))) (rmw_ops spec2 3).
Proof. apply (rmw_values spec2 (λ _, 0) 0x1234 3 spec2_ok mem0_ok); [lia|by vm_compute]. Defined.

(** A compare-and-exchange that reports success found the expected value, and
    replaced it and nothing else.  One that reports failure gives the value found
    and changed nothing; if the byte was not changed by another thread after it was
    read, the value found differs from the expected one. *)
Theorem compare_exchange_values (s : SideMetadataSpec) (others : mem → mem) (M : mem) (a old new : Z) :
  spec_ok s → mem_ok M → mem_ok (others M) → 0 ≤ a < 2 ^ 47 → is_u (width s) old → is_u (width s) new →
  match compare_exchange_atomic s others M a old new with
  | (Ok v, M') => v = old ∧ load s (others M) a = old ∧ only_changes s (others M) M' a new
  | (Err v, M') => v = load s (others M) a ∧ M' = others M ∧
    (others M (address_to_meta_address s a) = M (address_to_meta_address s a) → v ≠ old)
  end.
Proof.
  intros Hs HM HM2 Ha Ho Hn. assert (addr_ok a) as Ha' by (unfold addr_ok; lia).
  pose proof (compare_exchange_spec s Hs others M a old new HM HM2 Ha' Ho Hn) as Hc. cbv zeta in Hc.
  destruct (compare_exchange_atomic s others M a old new) as [[v|v] M'].
  - destruct Hc as (-> & El & Hu). split_and!; [done..|]. by apply updates_only_changes.
  - destruct Hc as (-> & -> & Hc). split_and!; [done..|]. intros E. destruct Hc as [|[_ Hc]]; [done|]. by rewrite E in Hc.
Qed.

Lemma compare_exchange_values_witness :
  match compare_exchange_atomic spec2 id (λ _, 0) 0x1234 0 3 with
  | (Ok v, M') => v = 0 ∧ load spec2 (λ _, 0) 0x1234 = 0 ∧ only_changes spec2 (λ _, 0) M' 0x1234 3
  | (Err v, M') => v = load spec2 (λ _, 0) 0x1234 ∧ M' = (λ _, 0) ∧ (0 = 0 → v ≠ 0)
  end.
Proof. apply (compare_exchange_values spec2 id (λ _, 0) 0x1234 0 3 spec2_ok mem0_ok mem0_ok); [lia|by vm_compute..]. Defined.

(** On less than a byte, a compare-and-exchange can fail although the value it
    finds is the expected one, when another thread changes a neighbouring value in
    the same byte between its two steps. *)
Theorem compare_exchange_spurious :
  ∃ (s : SideMetadataSpec) (others : mem → mem) (M : mem) (a b old new : Z),
    spec_ok s ∧ mem_ok M ∧ others M = store s M b 1 ∧ region s b ≠ region s a ∧
    (compare_exchange_atomic s others M a old new).1 = Err old.
Proof.
  exists spec2, (λ M, store spec2 M 0x10 1), (λ _, 0), 0x20, 0x10, 0, 3.
  split_and!; [apply spec2_ok|apply mem0_ok|done|by vm_compute|by vm_compute].
Qed.

(** ** Ranges *)

(** The pieces into which a bit range is broken are non-empty, adjacent, each
    within a byte or of whole bytes, and cover exactly the range; forwards they are
    visited in address order, backwards in the reverse order, and the visit ends at
    the first piece on which the visitor stops. *)
Theorem break_bit_range_covers {S} (start_addr start_bit end_addr end_bit : Z) (forwards : bool)
    (visitor : S → BitByteRange → S * bool) (st : S) :
  0 ≤ start_addr → end_addr < 2 ^ 64 → 0 ≤ start_bit < 8 → 0 ≤ end_bit < 8 →
  8 * start_addr + start_bit ≤ 8 * end_addr + end_bit →
  ∃ pieces, chain (8 * start_addr + start_bit) (8 * end_addr + end_bit) pieces ∧
    break_bit_range start_addr start_bit end_addr end_bit forwards visitor st =
    visit_all visitor st (if forwards then pieces else reverse pieces).
Proof.
  intros ? ? ? ? ?. exists (ranges_of start_addr start_bit end_addr end_bit). split.
  - by apply ranges_of_chain.
  - rewrite break_bit_range_eq. by destruct forwards.
Qed.

Lemma break_bit_range_covers_witness :
  ∃ pieces, chain (8 * 100 + 3) (8 * 105 + 6) pieces ∧
    break_bit_range 100 3 105 6 false (λ (l : list BitByteRange) r, (r :: l, false)) [] =
    visit_all (λ l r, (r :: l, false)) [] (reverse pieces).
Proof. apply (break_bit_range_covers 100 3 105 6 false (λ (l : list BitByteRange) r, (r :: l, false)) []); lia. Defined.

(** [break_bit_range] returns whether the visitor stopped it, so it returns
    [false] when every bit was visited. *)
Theorem break_bit_range_result {S} (start_addr start_bit end_addr end_bit : Z) (forwards : bool)
    (visitor : S → BitByteRange → S * bool) (st : S) :
  (∀ st r, (visitor st r).2 = false) →
  (break_bit_range start_addr start_bit end_addr end_bit forwards visitor st).2 = false.
Proof.
  intros Hv. rewrite break_bit_range_eq. generalize st.
  induction ((if forwards then id else reverse) (ranges_of start_addr start_bit end_addr end_bit)) as [|r l IH];
    intros st'; simpl; [done|]. specialize (Hv st' r). destruct (visitor st' r) as [st2 b]. simpl in Hv. subst. apply IH.
Qed.

Lemma break_bit_range_result_witness :
  (break_bit_range 100 3 105 6 false (λ (l : list BitByteRange) r, (r :: l, false)) []).2 = false.
Proof. apply (break_bit_range_result 100 3 105 6 false (λ (l : list BitByteRange) r, (r :: l, false)) []). done. Defined.

(** ** Bulk operations *)

Lemma bulk_value s M M' start size b (f : bool) :
  spec_ok s → mem_ok M → mem_ok M' →
  (2 ^ log_bytes_in_region s | start) → (2 ^ log_bytes_in_region s | size) → 0 ≤ b < 2 ^ 47 →
  (∀ j, membit M' j = if (base s start <=? j) && (j <? base s (start + size)) then f else membit M j) →
  load s M' b = if decide (start ≤ b < start + size) then (if f then Z.ones (width s) else 0) else load s M b.
Proof.
  intros Hs HM HM' H1 H2 Hb Hbits. pose proof (range_region s start size b Hs H1 H2) as Hr.
  pose proof (width_pos s Hs). assert (addr_ok b) as Hb' by (unfold addr_ok; lia).
  case_decide.
  - apply Z.bits_inj'. intros i Hi. rewrite testbit_load, Hbits by done.
    assert (Z.testbit (if f then Z.ones (width s) else 0) i = (i <? width s) && f) as ->.
    { destruct f; [by rewrite Z.testbit_ones_nonneg, andb_true_r by lia|]. by rewrite Z.bits_0, andb_false_r. }
    destruct (Z.ltb_spec i (width s)); simpl; [|done].
    destruct (Z.leb_spec (base s start) (base s b + i)), (Z.ltb_spec (base s b + i) (base s (start + size)));
      simpl; lia || done.
  - apply load_ext; try done. intros i Hi. rewrite Hbits.
    destruct (Z.leb_spec (base s start) (base s b + i)), (Z.ltb_spec (base s b + i) (base s (start + size)));
      simpl; lia || done.
Qed.

(** C24: bulk zeroing (setting) the metadata of a range of whole regions makes the
    value of every region in the range zero (all ones), and changes no other value
    of the table or of a disjoint table. *)
Theorem bulk_zero_set (s : SideMetadataSpec) (M : mem) (start size b : Z) :
  spec_ok s → mem_ok M → 0 ≤ start → 0 ≤ size → start + size ≤ 2 ^ 47 →
  (2 ^ log_bytes_in_region s | start) → (2 ^ log_bytes_in_region s | size) → 0 ≤ b < 2 ^ 47 →
  let inside := decide (start ≤ b < start + size) in
  load s (bzero_metadata s M start size) b = (if inside then 0 else load s M b) ∧
  load s (bset_metadata s M start size) b = (if inside then Z.ones (width s) else load s M b) ∧
  ∀ o, spec_ok o → tables_disjoint s o →
    load o (bzero_metadata s M start size) b = load o M b ∧
    load o (bset_metadata s M start size) b = load o M b.
Proof.
  intros Hs HM H0 H1 H2 Hd1 Hd2 Hb inside.
  assert (addr_ok start ∧ addr_ok (start + size)) as [Ha1 Ha2] by (unfold addr_ok; lia).
  destruct (bzero_bits s Hs M start size HM Ha1 Ha2 H1) as [Hz1 Hz2].
  destruct (bset_bits s Hs M start size HM Ha1 Ha2 H1) as [Hs1 Hs2].
  split_and!.
  - rewrite (bulk_value s M _ start size b false) by done. done.
  - rewrite (bulk_value s M _ start size b true) by done. done.
  - intros o Ho Hdis. unfold tables_disjoint in Hdis. rewrite !upper_bound_eq in Hdis by done.
    pose proof (base_in_table o b Ho Hb).
    assert (8 * sm_offset s ≤ base s start ∧ base s (start + size) ≤ 8 * (sm_offset s + table_bytes s)).
    { destruct (region_bound s Hs (start + size) ltac:(lia)) as [Hrb _]. specialize (Hrb H2).
      pose proof (region_nonneg s Hs start H0). pose proof (width_pos s Hs). unfold base. nia. }
    assert (addr_ok b) by (unfold addr_ok; lia).
    split; apply load_ext; try done; intros i Hi; rewrite ?Hz2, ?Hs2;
      destruct (Z.leb_spec (base s start) (base o b + i)), (Z.ltb_spec (base o b + i) (base s (start + size)));
      simpl; lia || done.
Qed.

Lemma bulk_zero_set_witness :
  let inside := decide (0x100 ≤ 0x130 < 0x100 + 0x50) in
  load spec2 (bzero_metadata spec2 (λ _, 255) 0x100 0x50) 0x130 = (if inside then 0 else load spec2 (λ _, 255) 0x130) ∧
  load spec2 (bset_metadata spec2 (λ _, 255) 0x100 0x50) 0x130 = (if inside then Z.ones (width spec2) else load spec2 (λ _, 255) 0x130) ∧
  ∀ o, spec_ok o → tables_disjoint spec2 o →
    load o (bzero_metadata spec2 (λ _, 255) 0x100 0x50) 0x130 = load o (λ _, 255) 0x130 ∧
    load o (bset_metadata spec2 (λ _, 255) 0x100 0x50) 0x130 = load o (λ _, 255) 0x130.
Proof.
  apply (bulk_zero_set spec2 (λ _, 255) 0x100 0x50 0x130 spec2_ok); try lia; [by intros a|by exists 16|by exists 5].
Defined.

(** Bulk copying makes the value of every region in the range that of the other
    table, and keeps the other values. *)
Theorem bulk_copy (s o : SideMetadataSpec) (M : mem) (start size b : Z) :
  spec_ok s → spec_ok o → log_num_of_bits o = log_num_of_bits s →
  log_bytes_in_region o = log_bytes_in_region s → tables_disjoint s o → mem_ok M →
  0 ≤ start → 0 ≤ size → start + size ≤ 2 ^ 47 →
  (2 ^ log_bytes_in_region s | start) → (2 ^ log_bytes_in_region s | size) → 0 ≤ b < 2 ^ 47 →
  load s (bcopy_metadata_contiguous s o M start size) b =
  if decide (start ≤ b < start + size) then load o M b else load s M b.
Proof.
  intros Hs Ho Ek Er Hdis HM H0 H1 H2 Hd1 Hd2 Hb.
  unfold tables_disjoint in Hdis. rewrite !upper_bound_eq in Hdis by done.
  assert (addr_ok start ∧ addr_ok (start + size) ∧ addr_ok b) as (Ha1 & Ha2 & Hb') by (unfold addr_ok; lia).
  destruct (bcopy_bits s o Hs Ho Ek Er Hdis M start size HM Ha1 Ha2 H1) as [HM' Hbits].
  destruct (copy_shape s o Hs Ho Ek Er b Hb') as (_ & _ & _ & Eb & Ew).
  pose proof (range_region s start size b Hs Hd1 Hd2) as Hr.
  apply Z.bits_inj'. intros i Hi. rewrite testbit_load, Hbits by done.
  case_decide.
  - rewrite testbit_load, Ew, Eb by done. destruct (Z.ltb_spec i (width s)); simpl; [|done].
    destruct (Z.leb_spec (base s start) (base s b + i)), (Z.ltb_spec (base s b + i) (base s (start + size)));
      simpl; try lia. f_equal. lia.
  - rewrite testbit_load by done. destruct (Z.ltb_spec i (width s)); simpl; [|done].
    destruct (Z.leb_spec (base s start) (base s b + i)), (Z.ltb_spec (base s b + i) (base s (start + size)));
      simpl; lia || done.
Qed.

Lemma bulk_copy_witness :
  load spec2 (bcopy_metadata_contiguous spec2 spec2b (λ _, 255) 0x100 0x50) 0x130 =
  if decide (0x100 ≤ 0x130 < 0x100 + 0x50) then load spec2b (λ _, 255) 0x130 else load spec2 (λ _, 255) 0x130.
Proof.
  apply (bulk_copy spec2 spec2b (λ _, 255) 0x100 0x50 0x130 spec2_ok spec2b_ok eq_refl eq_refl); try lia;
    [left; by vm_compute|by intros a|by exists 16|by exists 5].
Defined.
