(* ===== verification/SideMetadataSpecs.v ===== *)
(** * The side metadata tables of the collector
    (src/src/util/metadata/side_metadata/constants.rs and spec_defs.rs)

    The specs are laid out one after another by a macro, from a base address each
    for the global and the local ones.  Their shapes depend on compile-time features:
    the theorem is about every combination of them. *)

From S2P Require Import Prelude Conversions Memory SideMetadata SideMetadataBits SideMetadataTheorems.

(** constants.rs *)
Definition GLOBAL_SIDE_METADATA_BASE_ADDRESS (asan : bool) : Z :=
  if asan then 0x3c0000000000 else 0x0c0000000000.
Definition LOG_GLOBAL_SIDE_METADATA_WORST_CASE_RATIO : Z := 1.
Definition LOG_MAX_GLOBAL_SIDE_METADATA_SIZE : Z :=
  LOG_ARCH_ADDRESS_SPACE - LOG_GLOBAL_SIDE_METADATA_WORST_CASE_RATIO.
Definition LOCAL_SIDE_METADATA_BASE_ADDRESS (asan : bool) : Z :=
  GLOBAL_SIDE_METADATA_BASE_ADDRESS asan +u Z.shiftl 1 LOG_MAX_GLOBAL_SIDE_METADATA_SIZE.

(** The shapes chosen by features: bits of a reference count ([lxr_rc_bits_*]),
    bytes per lock bit ([lxr_lock_*]), Immix block size ([lxr_block_*],
    [immix_smaller_block]) and line size ([lxr_line_*]), all as logarithms. *)
Record features : Type := {
  f_rc_bits : Z; f_lock : Z; f_block : Z; f_line : Z
}.
Definition LOG_STRONG_REF_COUNT_BITS : Z := 2.
Definition MS_LOG_BYTES : Z := 16.
Definition LOG_BYTES_IN_MALLOC_PAGE : Z := LOG_BYTES_IN_PAGE.

(** [define_side_metadata_specs!]: the first spec at the base, each next one after
    its predecessor. *)
Definition spec_shape : Type := string * Z * Z.
Fixpoint define_side_metadata_specs (global : bool) (offset : Z) (l : list spec_shape) : list SideMetadataSpec :=
  match l with
  | [] => []
  | (name, bits, bytes) :: l =>
    let spec := {| sm_name := name; is_global := global; sm_offset := offset;
                   log_num_of_bits := bits; log_bytes_in_region := bytes |} in
    spec :: define_side_metadata_specs global (layout_after spec) l
  end.

Definition global_shapes (f : features) : list spec_shape := [
  ("VO_BIT", 0, LOG_MIN_OBJECT_SIZE);
  ("MS_ACTIVE_CHUNK", 3, LOG_BYTES_IN_CHUNK);
  ("SFT_DENSE_CHUNK_MAP_INDEX", 3, LOG_BYTES_IN_CHUNK);
  ("RC_TABLE", f_rc_bits f, LOG_MIN_OBJECT_SIZE);
  ("RC_LOCK_BITS", 0, f_lock f);
  ("IX_BLOCK_DEFRAG", 3, f_block f);
  ("SANITY_MARK_BITS", 3, LOG_MIN_OBJECT_SIZE);
  ("OBJ_COLOR_TABLE", 1, LOG_MIN_OBJECT_SIZE);
  ("IN_STACK_TABLE", 0, LOG_MIN_OBJECT_SIZE);
  ("STRONG_RC_TABLE", LOG_STRONG_REF_COUNT_BITS, LOG_MIN_OBJECT_SIZE)]%string.

Definition local_shapes (f : features) : list spec_shape := [
  ("MALLOC_MS_ACTIVE_PAGE", 3, LOG_BYTES_IN_MALLOC_PAGE);
  ("MS_OFFSET_MALLOC", 0, LOG_MIN_OBJECT_SIZE);
  ("IX_LINE_MARK", 3, f_line f);
  ("IX_BLOCK_MARK", 3, f_block f);
  ("RC_STRADDLE_LINES", 3, f_line f);
  ("IX_BLOCK_LOG", 0, f_block f);
  ("NURSERY_PROMOTION_STATE", 3, f_block f);
  ("PHASE_EPOCH", 3, f_block f);
  ("IX_BLOCK_DEAD_WORDS", 5, f_block f);
  ("CHUNK_MARK", 3, LOG_BYTES_IN_CHUNK);
  ("CHUNK_BIN", 3, LOG_BYTES_IN_CHUNK);
  ("CHUNK_LIVE_BLOCKS", 4, LOG_BYTES_IN_CHUNK);
  ("CHUNK_PREV", 6, LOG_BYTES_IN_CHUNK);
  ("CHUNK_NEXT", 6, LOG_BYTES_IN_CHUNK);
  ("BLOCK_OWNER", 6, f_block f);
  ("BLOCK_IN_USE", 3, f_block f);
  ("IX_BLOCK_ALLOC_BITS", 3, f_block f);
  ("MS_BLOCK_MARK", 3, MS_LOG_BYTES);
  ("MS_BLOCK_NEXT", LOG_BITS_IN_ADDRESS, MS_LOG_BYTES);
  ("MS_BLOCK_PREV", LOG_BITS_IN_ADDRESS, MS_LOG_BYTES);
  ("MS_BLOCK_LIST", LOG_BITS_IN_ADDRESS, MS_LOG_BYTES);
  ("MS_BLOCK_SIZE", LOG_BITS_IN_ADDRESS, MS_LOG_BYTES);
  ("MS_BLOCK_TLS", LOG_BITS_IN_ADDRESS, MS_LOG_BYTES);
  ("MS_FREE", LOG_BITS_IN_ADDRESS, MS_LOG_BYTES);
  ("MS_LOCAL_FREE", LOG_BITS_IN_ADDRESS, MS_LOG_BYTES);
  ("MS_THREAD_FREE", LOG_BITS_IN_ADDRESS, MS_LOG_BYTES)]%string.

#[export] Instance SideMetadataSpec_inhabited : Inhabited SideMetadataSpec :=
  populate {| sm_name := EmptyString; is_global := true; sm_offset := 0; log_num_of_bits := 0; log_bytes_in_region := 3 |}.
Definition global_specs (f : features) (asan : bool) : list SideMetadataSpec :=
  define_side_metadata_specs true (GLOBAL_SIDE_METADATA_BASE_ADDRESS asan) (global_shapes f).
Definition local_specs (f : features) (asan : bool) : list SideMetadataSpec :=
  define_side_metadata_specs false (LOCAL_SIDE_METADATA_BASE_ADDRESS asan) (local_shapes f).

(** Every combination of the features. *)
Definition rc_bits_choices : list Z := [1; 2; 3].
Definition lock_choices : list Z := [3; 4; 5; 6; 7; 8; 9].
Definition block_choices : list Z := [13; 14; 15; 16; 17; 18; 19; 20].
Definition line_choices : list Z := [8; 9; 10].
Definition all_features : list features :=
  rc ← rc_bits_choices; lock ← lock_choices; block ← block_choices; line ← line_choices;
  mret {| f_rc_bits := rc; f_lock := lock; f_block := block; f_line := line |}.

(** ** Checking a layout *)

Definition spec_ok_b (s : SideMetadataSpec) : bool :=
  let k := log_num_of_bits s in let r := log_bytes_in_region s in
  (0 <=? k) && (k <=? 6) && (0 <=? r) && (r <=? 47) && (0 <=? r + 3 - k) && (r + 3 - k <=? 47) &&
  (0 <=? sm_offset s) && (sm_offset s + 2 ^ (47 - (r + 3 - k)) + 8 <=? 2 ^ 64) &&
  (sm_offset s mod 8 =? 0) && ((3 <? k) || (k <=? r)).

Lemma spec_ok_b_spec s :
  spec_ok_b s = true → spec_ok s ∧ (8 | sm_offset s) ∧
  (log_num_of_bits s ≤ 3 → log_num_of_bits s ≤ log_bytes_in_region s).
Proof.
  unfold spec_ok_b. rewrite !andb_true_iff, orb_true_iff, !Z.leb_le, Z.ltb_lt, Z.eqb_eq.
  intros [[[[[[[[[? ?] ?] ?] ?] ?] ?] ?] Hm] ?].
  split_and!; [by split|by apply Z.mod_divide|lia].
Qed.

(** Every table starts at or above [lo] and ends at or below the start of the next;
    the last one ends at or below [hi]. *)
Fixpoint stacked_b (lo hi : Z) (l : list SideMetadataSpec) : bool :=
  match l with
  | [] => lo <=? hi
  | s :: l => spec_ok_b s && (lo <=? sm_offset s) && stacked_b (upper_bound_address_for_contiguous s) hi l
  end.

Lemma stacked_bounds lo hi l s :
  stacked_b lo hi l = true → s ∈ l →
  spec_ok_b s = true ∧ lo ≤ sm_offset s ∧ upper_bound_address_for_contiguous s ≤ hi.
Proof.
  revert lo. induction l as [|x l IH]; intros lo; simpl; [by intros _ ?%not_elem_of_nil|].
  rewrite !andb_true_iff. intros [[Hx Hlo%Z.leb_le] Hl] Hs.
  assert (spec_ok x) as Hox by (by apply spec_ok_b_spec).
  assert (0 < table_bytes x) by (apply Z.pow_pos_nonneg; destruct Hox; lia).
  assert (∀ y, stacked_b y hi l = true → y ≤ hi) as Hhi.
  { clear -l. induction l as [|z l IH]; intros y; simpl; [apply Z.leb_le|].
    rewrite !andb_true_iff. intros [[Hz Hy%Z.leb_le] Hl]. apply IH in Hl.
    assert (spec_ok z) as Hoz by (by apply spec_ok_b_spec).
    assert (0 < table_bytes z) by (apply Z.pow_pos_nonneg; destruct Hoz; lia).
    rewrite upper_bound_eq in Hl by done. lia. }
  apply elem_of_cons in Hs as [->|Hs].
  - split_and!; [done..|]. by apply Hhi.
  - destruct (IH _ Hl Hs) as (? & Hb & ?). rewrite upper_bound_eq in Hb by done. split_and!; [done|lia|done].
Qed.

Lemma stacked_disjoint lo hi l i j s o :
  stacked_b lo hi l = true → (i < j)%nat → l !! i = Some s → l !! j = Some o →
  upper_bound_address_for_contiguous s ≤ sm_offset o.
Proof.
  revert lo i j. induction l as [|x l IH]; intros lo i j; simpl; [done|].
  rewrite !andb_true_iff. intros [[Hx Hlo] Hl] Hij Hi Hj.
  destruct j as [|j]; [lia|]. destruct i as [|i]; simpl in *.
  - injection Hi as ->. apply list_elem_of_lookup_2 in Hj. by apply (stacked_bounds _ _ _ _ Hl) in Hj as (_ & ? & _).
  - apply (IH _ i j Hl); [lia|done..].
Qed.

(** The global tables do not depend on the size of a line, and the local ones neither
    on the bits of a count nor on the bytes per lock bit: the choices that matter to
    each are few enough to be checked one by one. *)
Definition global_check (asan : bool) (rc lock block : Z) : bool :=
  stacked_b (GLOBAL_SIDE_METADATA_BASE_ADDRESS asan) (LOCAL_SIDE_METADATA_BASE_ADDRESS asan)
    (global_specs {| f_rc_bits := rc; f_lock := lock; f_block := block; f_line := 8 |} asan).
Definition local_check (asan : bool) (block line : Z) : bool :=
  stacked_b (LOCAL_SIDE_METADATA_BASE_ADDRESS asan) (2 ^ 47)
    (local_specs {| f_rc_bits := 1; f_lock := 3; f_block := block; f_line := line |} asan).

Lemma globals_checked asan :
  forallb (λ rc, forallb (λ lock, forallb (global_check asan rc lock) block_choices) lock_choices) rc_bits_choices = true.
Proof. destruct asan; vm_compute; reflexivity. Qed.

Lemma locals_checked asan : forallb (λ block, forallb (local_check asan block) line_choices) block_choices = true.
Proof. destruct asan; vm_compute; reflexivity. Qed.

Lemma forallb_elem {A} (p : A → bool) (l : list A) x : forallb p l = true → x ∈ l → p x = true.
Proof. rewrite forallb_forall, list_elem_of_In. auto. Qed.

Lemma features_checked f asan :
  f ∈ all_features →
  global_check asan (f_rc_bits f) (f_lock f) (f_block f) = true ∧ local_check asan (f_block f) (f_line f) = true.
Proof.
  unfold all_features. intros (rc & (lock & (block & (line & ->%list_elem_of_ret & Hline)
    %list_elem_of_bind & Hblock)%list_elem_of_bind & Hlock)%list_elem_of_bind & Hrc)%list_elem_of_bind.
  cbn [f_rc_bits f_lock f_block f_line]. split.
  - pose proof (forallb_elem _ _ _ (globals_checked asan) Hrc) as H1. cbv beta in H1.
    pose proof (forallb_elem _ _ _ H1 Hlock) as H2. cbv beta in H2. exact (forallb_elem _ _ _ H2 Hblock).
  - pose proof (forallb_elem _ _ _ (locals_checked asan) Hblock) as H1. cbv beta in H1.
    exact (forallb_elem _ _ _ H1 Hline).
Qed.

(** C17: whatever features are chosen, each side metadata table of the collector has
    a shape the operations support, starts at a word boundary, and lies between the
    global base and the end of the address space; no two tables overlap. *)
Theorem tables_laid_out (f : features) (asan : bool) (i j : nat) (s o : SideMetadataSpec) :
  f ∈ all_features →
  let specs := global_specs f asan ++ local_specs f asan in
  specs !! i = Some s → specs !! j = Some o → i ≠ j →
  spec_ok s ∧ (8 | sm_offset s) ∧
  (log_num_of_bits s ≤ 3 → log_num_of_bits s ≤ log_bytes_in_region s) ∧
  GLOBAL_SIDE_METADATA_BASE_ADDRESS asan ≤ sm_offset s ∧ upper_bound_address_for_contiguous s ≤ 2 ^ 47 ∧
  tables_disjoint s o.
Proof.
  intros Hf specs Hi Hj Hij.
  destruct (features_checked f asan Hf) as [Hg Hl]. unfold global_check in Hg. unfold local_check in Hl.
  change (global_specs _ asan) with (global_specs f asan) in Hg.
  change (local_specs _ asan) with (local_specs f asan) in Hl.
  assert (GLOBAL_SIDE_METADATA_BASE_ADDRESS asan ≤ LOCAL_SIDE_METADATA_BASE_ADDRESS asan ≤ 2 ^ 47) as Hb
    by (destruct asan; vm_compute; split; discriminate).
  assert (∀ x, x ∈ specs → spec_ok_b x = true ∧
    GLOBAL_SIDE_METADATA_BASE_ADDRESS asan ≤ sm_offset x ∧ upper_bound_address_for_contiguous x ≤ 2 ^ 47) as Hx.
  { intros x [Hx|Hx]%elem_of_app; [apply (stacked_bounds _ _ _ _ Hg) in Hx|apply (stacked_bounds _ _ _ _ Hl) in Hx];
      destruct Hx as (? & ? & ?); split_and!; (done || lia). }
  destruct (Hx s) as (Hs & ? & ?); [by eapply list_elem_of_lookup_2|].
  apply spec_ok_b_spec in Hs as (? & ? & ?). split_and!; try done.
  assert (∀ i j s o, (i < j)%nat → specs !! i = Some s → specs !! j = Some o →
    upper_bound_address_for_contiguous s ≤ sm_offset o) as Hord.
  { clear -Hg Hl. intros i j s o Hij Hi Hj.
    apply lookup_app_Some in Hi as [Hi|[Hni Hi]], Hj as [Hj|[Hnj Hj]].
    - exact (stacked_disjoint _ _ _ _ _ _ _ Hg Hij Hi Hj).
    - apply list_elem_of_lookup_2 in Hi, Hj. apply (stacked_bounds _ _ _ _ Hg) in Hi as (_ & _ & ?).
      apply (stacked_bounds _ _ _ _ Hl) in Hj as (_ & ? & _). lia.
    - apply lookup_lt_Some in Hj. lia.
    - eapply (stacked_disjoint _ _ _ _ _ _ _ Hl); [|done..]. lia. }
  destruct (decide (i < j)%nat); [left; apply (Hord i j)|right; apply (Hord j i)]; (assumption || lia).
Qed.

(** The features of the default build. *)
Definition default_features : features :=
  {| f_rc_bits := 3; f_lock := 9; f_block := 15; f_line := 8 |}.

Lemma tables_laid_out_witness :
  ∃ s o, let specs := global_specs default_features false ++ local_specs default_features false in
  specs !! 3%nat = Some s ∧ specs !! 9%nat = Some o ∧ tables_disjoint s o.
Proof.
  eexists _, _. split; [vm_compute; reflexivity|]. split; [vm_compute; reflexivity|].
  apply (tables_laid_out default_features false 3 9); [|vm_compute; reflexivity|vm_compute; reflexivity|done].
  apply (list_elem_of_lookup_2 _ 486). vm_compute. done.
Defined.
