(* ===== verification/SideMetadataSearch.v ===== *)
(** * Searching side metadata (src/src/util/metadata/side_metadata/global.rs and helpers.rs)

    The backward search for the last non-zero value before an address and the scan of
    all the non-zero values of a range, each in the simple version, which looks at one
    region at a time, and in the fast one, which looks at bytes and words of metadata.
    Whether an address is mapped is a parameter: it is the answer of the mmapper. *)

From S2P Require Import Prelude Conversions Memory SideMetadata SideMetadataBits SideMetadataOps.

(** ** Bits of machine words *)

Definition leading_zeros (w x : Z) : Z := if x =? 0 then w else w - 1 - Z.log2 x.
Definition trailing_zeros (w x : Z) : Z := if x =? 0 then w else Z.log2 (Z.land x (- x)).

Inductive FindMetaBitResult : Type :=
| Found (addr bit : Z)
| NotFound
| UnmappedMetadata.

(** On a [w]-bit type. *)
Definition find_last_non_zero_bit (w value start end_ : Z) : option Z :=
  let mask :=
    if uwrap 8 (end_ - start) <? w then ushl w (uwrap w (Z.shiftl 1 (uwrap 8 (end_ - start)) - 1)) start
    else ushl w (2 ^ w - 1) start in
  let masked := Z.land value mask in
  if masked =? 0 then None
  else Some (uwrap 8 (uwrap 8 w - uwrap 8 (leading_zeros w masked) - 1)).

Section search.
Context (is_mapped_address : Z → bool).

Definition is_mapped (self : Z) : bool := if self =? 0 then false else is_mapped_address self.

(** helpers.rs *)
Fixpoint find_last_loop (fuel : nat) (M : mem) (meta_start cur mapped_chunk : Z) : res FindMetaBitResult :=
  if meta_start <? cur then
    match fuel with
    | O => NoFuel
    | S fuel =>
      let step :=
        if is_aligned_to cur BYTES_IN_ADDRESS && (meta_start <=? cur -u BYTES_IN_ADDRESS)
        then BYTES_IN_ADDRESS else 1 in
      let cur := cur -u step in
      if (cur <? mapped_chunk) && negb (is_mapped cur) then Val UnmappedMetadata
      else
        let mapped_chunk := if cur <? mapped_chunk then align_down cur MMAP_CHUNK_BYTES else mapped_chunk in
        if step =? BYTES_IN_ADDRESS then
          let value := load_bytes 8 M cur in
          if negb (value =? 0) then
            bit ← unwrap (find_last_non_zero_bit 64 value 0 64);
            let byte_offset := Z.shiftr bit LOG_BITS_IN_BYTE in
            let bit_offset := uwrap 8 (bit - ushl 8 byte_offset LOG_BITS_IN_BYTE) in
            mret (Found (cur +u byte_offset) bit_offset)
          else find_last_loop fuel M meta_start cur mapped_chunk
        else
          let value := load_u8 M cur in
          match find_last_non_zero_bit 8 value 0 8 with
          | Some bit => Val (Found cur bit)
          | None => find_last_loop fuel M meta_start cur mapped_chunk
          end
    end
  else Val NotFound.

Definition find_last_non_zero_bit_in_metadata_bytes (M : mem) (meta_start meta_end : Z) : res FindMetaBitResult :=
  find_last_loop (Z.to_nat (meta_end - meta_start)) M meta_start meta_end usize_MAX.

Definition find_last_non_zero_bit_in_metadata_bits (M : mem) (addr start_bit end_bit : Z) : FindMetaBitResult :=
  if negb (is_mapped addr) then UnmappedMetadata
  else
    let byte := load_u8 M addr in
    match find_last_non_zero_bit 8 byte start_bit end_bit with
    | Some bit => Found addr bit
    | None => NotFound
    end.

(** global.rs: the backward search *)
Section spec.
Context (self : SideMetadataSpec) (M : mem).

Fixpoint find_prev_loop (fuel : nat) (region_bytes end_addr cursor : Z) : res (option Z) :=
  if end_addr <=? cursor then
    match fuel with
    | O => NoFuel
    | S fuel =>
      if negb (is_mapped cursor) then Val None
      else if negb (is_zero (load self M cursor)) then Val (Some cursor)
      else find_prev_loop fuel region_bytes end_addr (cursor -u region_bytes)
    end
  else Val None.

Definition find_prev_non_zero_value_simple (data_addr search_limit_bytes : Z) : res (option Z) :=
  let region_bytes := ushl 64 1 (log_bytes_in_region self) in
  let start_addr := align_down data_addr region_bytes in
  let end_addr := addr_saturating_sub data_addr search_limit_bytes +u 1 in
  find_prev_loop (Z.to_nat (data_addr `div` region_bytes + 1)) region_bytes end_addr start_addr.

(** The closure of the fast version: it sets [res] and says whether to stop. *)
Definition find_prev_visitor (res : res (option Z)) (range : BitByteRange) : Prelude.res (option Z) * bool :=
  let found :=
    match range with
    | Bytes start end_ => find_last_non_zero_bit_in_metadata_bytes M start end_
    | BitsInByte addr bit_start bit_end => Val (find_last_non_zero_bit_in_metadata_bits M addr bit_start bit_end)
    end in
  match found with
  | Val (Found addr bit) =>
    let '(addr, bit) := align_metadata_address self addr bit in
    (Val (Some (contiguous_meta_address_to_address self addr bit)), true)
  | Val UnmappedMetadata => (res, true)
  | Val NotFound => (res, false)
  | Panic => (Panic, true)
  | NoFuel => (NoFuel, true)
  end.

Definition find_prev_non_zero_value_fast (data_addr search_limit_bytes : Z) : res (option Z) :=
  if negb (is_mapped data_addr) then Val None
  else if negb (is_zero (load self M data_addr))
  then Val (Some (align_down data_addr (ushl 64 1 (log_bytes_in_region self))))
  else
    let start_addr := addr_saturating_sub data_addr search_limit_bytes +u 1 in
    let end_addr := data_addr in
    let start_meta_addr := address_to_contiguous_meta_address self start_addr in
    let start_meta_shift := meta_byte_lshift self start_addr in
    let end_meta_addr := address_to_contiguous_meta_address self end_addr in
    let end_meta_shift := meta_byte_lshift self end_addr in
    let '(res, _) := break_bit_range start_meta_addr start_meta_shift end_meta_addr end_meta_shift false
                       find_prev_visitor (Val None) in
    res ← res;
    mret (addr ← res;
          let addr := align_down addr (ushl 64 1 (log_bytes_in_region self)) in
          if (start_addr <=? addr) && (addr <? end_addr) then Some addr else None).

Definition find_prev_non_zero_value (data_addr search_limit_bytes : Z) : res (option Z) :=
  if uses_contiguous_side_metadata self
  then find_prev_non_zero_value_fast data_addr search_limit_bytes
  else find_prev_non_zero_value_simple data_addr search_limit_bytes.
End spec.
End search.

(** ** The scan *)

Section scan.
Context {S : Type}.

Fixpoint scan_word_loop (fuel : nat) (meta_addr word : Z) (visit_bit : S → Z → Z → S) (s : S) : res S :=
  if word =? 0 then Val s
  else
    match fuel with
    | O => NoFuel
    | Datatypes.S fuel =>
      let bit := trailing_zeros 64 word in
      scan_word_loop fuel meta_addr (Z.land word (word -u 1)) visit_bit (visit_bit s meta_addr (uwrap 8 bit))
    end.

(** Each step clears a bit of the word. *)
Definition scan_non_zero_bits_in_metadata_word : Z → Z → (S → Z → Z → S) → S → res S := scan_word_loop 64.

(** The three loops over [cursor] differ in their condition, step and load. *)
Fixpoint scan_loop (fuel : nat) (cond : Z → bool) (step : Z) (load : Z → Z) (visit_bit : S → Z → Z → S)
    (cursor : Z) (s : S) : res (Z * S) :=
  if cond cursor then
    match fuel with
    | O => NoFuel
    | Datatypes.S fuel =>
      s ← scan_non_zero_bits_in_metadata_word cursor (load cursor) visit_bit s;
      scan_loop fuel cond step load visit_bit (cursor +u step) s
    end
  else Val (cursor, s).

Definition scan_non_zero_bits_in_metadata_bytes (M : mem) (meta_start meta_end : Z)
    (visit_bit : S → Z → Z → S) (s : S) : res S :=
  let fuel := Z.to_nat (meta_end - meta_start) in
  '(cursor, s) ← scan_loop fuel (λ cursor, (cursor <? meta_end) && negb (is_aligned_to cursor BYTES_IN_ADDRESS))
                   1 (load_u8 M) visit_bit meta_start s;
  '(cursor, s) ← scan_loop fuel (λ cursor, cursor +u BYTES_IN_ADDRESS <? meta_end)
                   BYTES_IN_ADDRESS (load_bytes 8 M) visit_bit cursor s;
  '(_, s) ← scan_loop fuel (λ cursor, cursor <? meta_end) 1 (load_u8 M) visit_bit cursor s;
  mret s.

Definition scan_non_zero_bits_in_metadata_bits (M : mem) (meta_addr bit_start bit_end : Z)
    (visit_bit : S → Z → Z → S) (s : S) : S :=
  let byte := load_u8 M meta_addr in
  foldl (λ s bit, if negb (Z.land byte (ushl 8 1 bit) =? 0) then visit_bit s meta_addr bit else s)
    s (seqZ bit_start (bit_end - bit_start)).

Section spec.
Context (self : SideMetadataSpec) (M : mem).

Fixpoint scan_simple_loop (fuel : nat) (region_bytes data_end_addr cursor : Z) (visit_data : S → Z → S) (s : S) : res S :=
  if cursor <? data_end_addr then
    match fuel with
    | O => NoFuel
    | Datatypes.S fuel =>
      let s := if negb (is_zero (load self M cursor)) then visit_data s cursor else s in
      scan_simple_loop fuel region_bytes data_end_addr (cursor +u region_bytes) visit_data s
    end
  else Val s.

Definition scan_non_zero_values_simple (data_start_addr data_end_addr : Z) (visit_data : S → Z → S) (s : S) : res S :=
  let region_bytes := ushl 64 1 (log_bytes_in_region self) in
  scan_simple_loop (Z.to_nat ((data_end_addr - data_start_addr) `div` region_bytes + 1))
    region_bytes data_end_addr data_start_addr visit_data s.

Definition scan_visitor (visit_data : S → Z → S) (s : res S) (range : BitByteRange) : res S * bool :=
  let visit_bit s addr bit := visit_data s (contiguous_meta_address_to_address self addr bit) in
  match range with
  | Bytes start end_ => (s ≫= scan_non_zero_bits_in_metadata_bytes M start end_ visit_bit, false)
  | BitsInByte addr bit_start bit_end =>
    (scan_non_zero_bits_in_metadata_bits M addr bit_start bit_end visit_bit <$> s, false)
  end.

Definition scan_non_zero_values_fast (data_start_addr data_end_addr : Z) (visit_data : S → Z → S) (s : S) : res S :=
  let start_meta_addr := address_to_contiguous_meta_address self data_start_addr in
  let start_meta_shift := meta_byte_lshift self data_start_addr in
  let end_meta_addr := address_to_contiguous_meta_address self data_end_addr in
  let end_meta_shift := meta_byte_lshift self data_end_addr in
  (break_bit_range start_meta_addr start_meta_shift end_meta_addr end_meta_shift false
     (scan_visitor visit_data) (Val s)).1.

Definition scan_non_zero_values (data_start_addr data_end_addr : Z) (visit_data : S → Z → S) (s : S) : res S :=
  if uses_contiguous_side_metadata self && (log_num_of_bits self =? 0)
  then scan_non_zero_values_fast data_start_addr data_end_addr visit_data s
  else scan_non_zero_values_simple data_start_addr data_end_addr visit_data s.
End spec.
End scan.
