(* ===== verification/SideMetadataFind.v ===== *)
(** * The backward search finds the last non-zero value

    The fast search of SideMetadataSearch.v finds the last set bit of a range of
    metadata, byte by byte and word by word; with the position of values in
    SideMetadataBits.v that is the last region with a non-zero value. *)

From S2P Require Import Prelude Conversions Memory SideMetadata SideMetadataBits SideMetadataOps.
From S2P Require Import SideMetadataTheorems SideMetadataSearch.

(** ** The last set bit of a word *)

(** [o] is the last position in [[lo, hi)] where [p] holds. *)
Definition last_such (p : Z → bool) (lo hi : Z) (o : option Z) : Prop :=
  match o with
  | Some j => lo ≤ j < hi ∧ p j = true ∧ ∀ i, j < i < hi → p i = false
  | None => ∀ i, lo ≤ i < hi → p i = false
  end.

Lemma find_last_non_zero_bit_spec w value start end_ :
  1 ≤ w ≤ 64 → is_u w value → 0 ≤ start < end_ → end_ ≤ w →
  last_such (Z.testbit value) start end_ (find_last_non_zero_bit w value start end_).
Proof.
  intros Hw Hv Hs He. unfold find_last_non_zero_bit. rewrite (uwrap_id 8 (end_ - start)) by lia.
  set (mask := if _ <? w then _ else _).
  assert (∀ i, 0 ≤ i → Z.testbit mask i = (start <=? i) && (i <? end_)) as Hmask.
  { intros i Hi. unfold mask. destruct (Z.ltb_spec (end_ - start) w).
    - replace (Z.shiftl 1 (end_ - start) - 1) with (Z.ones (end_ - start)) by (rewrite Z.ones_equiv, Z.shiftl_1_l; lia).
      rewrite (uwrap_bits_id w); [|lia|].
      + bits_norm. destruct (Z.leb_spec start i); rewrite ?Z.testbit_ones_nonneg by lia; bits_case; bits_bool.
      + intros j Hj. rewrite Z.testbit_ones_nonneg by lia. bits_case; done.
    - replace (2 ^ w - 1) with (Z.ones w) by (rewrite Z.ones_equiv; lia).
      bits_norm. destruct (Z.leb_spec start i); rewrite ?Z.testbit_ones_nonneg by lia; bits_case; bits_bool. }
  clearbody mask. set (masked := Z.land value mask).
  assert (∀ i, 0 ≤ i → Z.testbit masked i = Z.testbit value i && ((start <=? i) && (i <? end_))) as Hm.
  { intros i Hi. unfold masked. by rewrite Z.land_spec, Hmask. }
  destruct (Z.eqb_spec masked 0) as [E0|Hnz]; simpl.
  { intros i Hi. specialize (Hm i ltac:(lia)). rewrite E0, Z.bits_0 in Hm. revert Hm. bits_case.
    by rewrite andb_true_r. }
  assert (is_u w masked) as Hmu.
  { apply is_u_bits; [lia|]. intros i Hi. rewrite Hm by lia. by rewrite (testbit_small w) by (done || lia). }
  assert (0 < masked) as Hpos by (destruct Hmu; lia).
  pose proof (Z.log2_nonneg masked) as Hl0. pose proof (proj1 (Z.log2_lt_pow2 masked w Hpos) ltac:(apply Hmu)) as Hlw.
  unfold leading_zeros. destruct (Z.eqb_spec masked 0); [done|].
  rewrite (uwrap_id 8 w), (uwrap_id 8 (w - 1 - Z.log2 masked)), uwrap_id by lia.
  replace (w - (w - 1 - Z.log2 masked) - 1) with (Z.log2 masked) by lia.
  pose proof (Z.bit_log2 masked Hpos) as Hb. rewrite Hm in Hb by done.
  apply andb_true_iff in Hb as [Hb Hr]. revert Hr. bits_case; [|done..]. intros _.
  split_and!; [lia|lia|done|]. intros i Hi. assert (Z.testbit masked i = false) as Hz.
  { apply Z.bits_above_log2; lia. }
  rewrite Hm in Hz by lia. revert Hz. bits_case. by rewrite andb_true_r.
Qed.

(** Searching a longer range that ends in one without such a position. *)
Lemma last_such_extend p lo mid hi o :
  mid ≤ hi → last_such p mid hi None → last_such p lo mid o → last_such p lo hi o.
Proof.
  intros Hle Hn. destruct o as [j|]; simpl in *.
  - intros (Hj & Hp & Hlast). split_and!; [lia..|done|]. intros i Hi. destruct (decide (i < mid)); [apply Hlast|apply Hn]; lia.
  - intros Hlast i Hi. destruct (decide (i < mid)); [apply Hlast|apply Hn]; lia.
Qed.

Lemma last_such_weaken p lo mid hi j : lo ≤ mid → last_such p mid hi (Some j) → last_such p lo hi (Some j).
Proof. simpl. intros ? (? & ? & ?). split_and!; (done || lia). Qed.

Lemma last_such_shift p lo hi o d :
  last_such (λ i, p (d + i)) lo hi o → last_such p (d + lo) (d + hi) ((λ j, d + j) <$> o).
Proof.
  destruct o as [j|]; simpl.
  - intros (Hj & Hp & Hl). split_and!; [lia..|done|]. intros i Hi. specialize (Hl (i - d) ltac:(lia)).
    simpl in Hl. by replace (d + (i - d)) with i in Hl by lia.
  - intros Hl i Hi. specialize (Hl (i - d) ltac:(lia)). simpl in Hl. by replace (d + (i - d)) with i in Hl by lia.
Qed.

Lemma last_such_ext p q lo hi o :
  (∀ i, lo ≤ i < hi → p i = q i) → last_such p lo hi o → last_such q lo hi o.
Proof.
  intros E. destruct o as [j|]; simpl.
  - intros (Hj & Hp & Hl). split_and!; [lia..|by rewrite <-E by lia|]. intros i Hi. rewrite <-E by lia. by apply Hl.
  - intros Hl i Hi. rewrite <-E by lia. by apply Hl.
Qed.

Lemma last_such_unique p lo hi o o' : last_such p lo hi o → last_such p lo hi o' → o = o'.
Proof.
  destruct o as [j|], o' as [j'|]; simpl; intros H1 H2; [| | |done].
  - destruct H1 as (? & Hp & Hl), H2 as (? & Hp' & Hl'). f_equal.
    destruct (Z.lt_trichotomy j j') as [|[|]]; [|done|].
    + rewrite Hl in Hp' by lia. done.
    + rewrite Hl' in Hp by lia. done.
  - destruct H1 as (? & Hp & _). rewrite H2 in Hp by lia. done.
  - destruct H2 as (? & Hp & _). rewrite H1 in Hp by lia. done.
Qed.

(** ** The last set bit of a range of bytes *)

Definition found_pos (r : FindMetaBitResult) : option Z :=
  match r with Found addr bit => Some (8 * addr + bit) | _ => None end.

(** [r] answers where the last set bit of [[lo, hi)] is, as a byte and a bit in it. *)
Definition finds (M : mem) (lo hi : Z) (r : FindMetaBitResult) : Prop :=
  last_such (membit M) lo hi (found_pos r) ∧
  match r with Found addr bit => 0 ≤ bit < 8 | NotFound => True | UnmappedMetadata => False end.

Section mapped.
Context (is_mapped_address : Z → bool) (M : mem) (HM : mem_ok M).

Lemma last_in_byte addr b e :
  0 ≤ b < e → e ≤ 8 →
  last_such (membit M) (8 * addr + b) (8 * addr + e) ((λ j, 8 * addr + j) <$> find_last_non_zero_bit 8 (M addr) b e).
Proof.
  intros Hb He. apply last_such_shift. eapply last_such_ext; [|apply find_last_non_zero_bit_spec; [lia|apply HM|lia..]].
  intros i Hi. simpl. by rewrite membit_at by lia.
Qed.

Lemma last_in_word addr :
  last_such (membit M) (8 * addr) (8 * addr + 64) ((λ j, 8 * addr + j) <$> find_last_non_zero_bit 64 (load_bytes 8 M addr) 0 64).
Proof.
  replace (8 * addr) with (8 * addr + 0) at 1 by lia. apply last_such_shift.
  eapply last_such_ext; [|apply find_last_non_zero_bit_spec; [lia| |lia..]].
  - intros i Hi. cbv beta. rewrite testbit_load_bytes by (done || lia). destruct (Z.ltb_spec i (8 * Z.of_nat 8)); [done|lia].
  - apply (load_bytes_range 8 M addr HM).
Qed.

Lemma bits_finds addr b e :
  0 ≤ b < e → e ≤ 8 → is_mapped is_mapped_address addr = true →
  finds M (8 * addr + b) (8 * addr + e) (find_last_non_zero_bit_in_metadata_bits is_mapped_address M addr b e).
Proof.
  intros Hb He Hmap. unfold find_last_non_zero_bit_in_metadata_bits. rewrite Hmap. simpl. unfold load_u8.
  pose proof (last_in_byte addr b e Hb He) as Hl.
  destruct (find_last_non_zero_bit 8 (M addr) b e) as [j|]; simpl in Hl |- *; split; try done. lia.
Qed.

Lemma find_last_loop_finds fuel meta_start cur mapped_chunk :
  0 ≤ meta_start ≤ cur → cur < 2 ^ 64 → (Z.to_nat (cur - meta_start) ≤ fuel)%nat →
  (∀ a, meta_start ≤ a < cur → is_mapped is_mapped_address a = true) →
  wp (find_last_loop is_mapped_address fuel M meta_start cur mapped_chunk) (finds M (8 * meta_start) (8 * cur)).
Proof.
  revert cur mapped_chunk. induction fuel as [|fuel IH]; intros cur mc Hlo Hhi Hfuel Hmap; cbn [find_last_loop].
  { destruct (Z.ltb_spec meta_start cur); [lia|]. split; [|done]. intros i Hi. lia. }
  destruct (Z.ltb_spec meta_start cur); [|split; [intros i Hi; lia|done]].
  change BYTES_IN_ADDRESS with (2 ^ 3). unfold is_aligned_to. rewrite is_aligned_mod by lia.
  set (step := if _ && _ then 2 ^ 3 else 1).
  assert ((step = 2 ^ 3 ∧ meta_start ≤ cur - 8) ∨ step = 1) as Hstep.
  { unfold step. destruct (Z.eqb_spec (cur mod 2 ^ 3) 0) as [E|]; simpl; [|by right].
    destruct (Z.leb_spec meta_start (cur -u 2 ^ 3)); [left|by right].
    pose proof (Z.div_mod cur (2 ^ 3) ltac:(lia)). rewrite usub_id in * by lia. lia. }
  clearbody step. assert (1 ≤ step ≤ 8 ∧ meta_start ≤ cur - step) as [Hs1 Hs2] by lia.
  rewrite (usub_id cur step) by lia. rewrite (Hmap (cur - step)) by lia. rewrite andb_false_r.
  set (mc' := if _ <? mc then _ else _).
  assert (wp (find_last_loop is_mapped_address fuel M meta_start (cur - step) mc')
    (finds M (8 * meta_start) (8 * (cur - step)))) as Hrec.
  { apply IH; [lia..|]. intros a Ha. apply Hmap. lia. }
  assert (last_such (membit M) (8 * (cur - step)) (8 * cur) None →
    wp (find_last_loop is_mapped_address fuel M meta_start (cur - step) mc') (finds M (8 * meta_start) (8 * cur))) as Hnext.
  { intros Hn. eapply wp_mono; [exact Hrec|]. intros r [Hl Hr]. split; [|done].
    by eapply last_such_extend; [|done..]; lia. }
  clear Hrec. destruct Hstep as [[-> Hge]| ->].
  - change (2 ^ 3 =? 2 ^ 3) with true. cbv iota. pose proof (last_in_word (cur - 2 ^ 3)) as Hw. replace (8 * (cur - 2 ^ 3) + 64) with (8 * cur) in Hw by lia.
    destruct (Z.eqb_spec (load_bytes 8 M (cur - 2 ^ 3)) 0) as [E0|Hnz]; cbn [negb].
    + apply Hnext. rewrite E0 in Hw. exact Hw.
    + destruct (find_last_non_zero_bit 64 _ 0 64) as [bit|] eqn:Ef; simpl in Hw.
      * apply wp_bind. simpl unwrap. apply wp_ret. destruct Hw as (Hb & Hp & Hl).
        change LOG_BITS_IN_BYTE with 3. rewrite shiftr_div by lia. change (2 ^ 3) with 8 in *.
        pose proof (divmod8 bit) as [Eb Hm8].
        assert (0 ≤ bit `div` 8 < 8) by lia.
        rewrite ushl_id by (change (2 ^ 3) with 8; lia). change (2 ^ 3) with 8. rewrite uwrap_id, uadd_id by lia.
        split; [|simpl; lia]. simpl.
        replace (8 * (cur - 8 + bit `div` 8) + (bit - bit `div` 8 * 8)) with (8 * (cur - 8) + bit) by lia.
        split_and!; [lia..|done|done].
      * exfalso. apply Hnz. apply Z.bits_inj'. intros i Hi. rewrite Z.bits_0.
        pose proof (testbit_load_bytes 8 M (cur - 2 ^ 3) i HM Hi) as Et. rewrite Et.
        destruct (Z.ltb_spec i (8 * Z.of_nat 8)); [simpl|done]. apply Hw. lia.
  - change (1 =? 2 ^ 3) with false. cbv iota. pose proof (last_in_byte (cur - 1) 0 8 ltac:(lia) ltac:(lia)) as Hb. rewrite Z.add_0_r in Hb.
    replace (8 * (cur - 1) + 8) with (8 * cur) in Hb by lia. unfold load_u8.
    destruct (find_last_non_zero_bit 8 (M (cur - 1)) 0 8) as [bit|]; simpl in Hb.
    + destruct Hb as (Hr & Hp & Hl). split; [|lia]. simpl. split_and!; [lia..|done|done].
    + by apply Hnext.
Qed.

Lemma bytes_finds meta_start meta_end :
  0 ≤ meta_start ≤ meta_end → meta_end < 2 ^ 64 →
  (∀ a, meta_start ≤ a < meta_end → is_mapped is_mapped_address a = true) →
  wp (find_last_non_zero_bit_in_metadata_bytes is_mapped_address M meta_start meta_end)
    (finds M (8 * meta_start) (8 * meta_end)).
Proof. intros. apply find_last_loop_finds; (done || lia). Qed.
End mapped.

(** ** The visitor over the pieces of a range *)

Lemma chain_le lo hi l : chain lo hi l → lo ≤ hi.
Proof.
  revert lo. induction l as [|r l IH]; intros lo; simpl; [lia|].
  intros (<- & [? _] & Hc%IH). lia.
Qed.

Lemma visit_all_app {S} (v : S → BitByteRange → S * bool) s l1 l2 :
  visit_all v s (l1 ++ l2) =
  if (visit_all v s l1).2 then visit_all v s l1 else visit_all v (visit_all v s l1).1 l2.
Proof.
  revert s. induction l1 as [|r l1 IH]; intros s; simpl; [done|].
  destruct (v s r) as [s' []]; simpl; [done|apply IH].
Qed.

Section search.
Context (is_mapped_address : Z → bool) (s : SideMetadataSpec) (M : mem).
Context (Hs : spec_ok s) (HM : mem_ok M) (Hoff : (8 | sm_offset s)).
Context (Hk : log_num_of_bits s ≤ 3 → log_num_of_bits s ≤ log_bytes_in_region s).
Abbreviation mapped := (is_mapped is_mapped_address).
Abbreviation R := (2 ^ log_bytes_in_region s).

(** The data address a set metadata bit stands for. *)
Definition data_of_bit (j : Z) : Z :=
  let '(addr, bit) := align_metadata_address s (j `div` 8) (j `mod` 8) in
  contiguous_meta_address_to_address s addr bit.

Lemma visitor_finds o r :
  range_ok r → 0 ≤ range_lo r → range_hi r < 8 * 2 ^ 64 →
  (∀ a, range_lo r < 8 * a + 8 → 8 * a < range_hi r → mapped a = true) →
  ∃ p, last_such (membit M) (range_lo r) (range_hi r) p ∧
    find_prev_visitor is_mapped_address s M (Val o) r =
      match p with Some j => (Val (Some (data_of_bit j)), true) | None => (Val o, false) end.
Proof.
  intros [Hlt Hok] H0 H1 Hmap.
  assert (∃ f, match r with
      | Bytes start end_ => find_last_non_zero_bit_in_metadata_bytes is_mapped_address M start end_
      | BitsInByte addr b e => Val (find_last_non_zero_bit_in_metadata_bits is_mapped_address M addr b e)
      end = Val f ∧ finds M (range_lo r) (range_hi r) f) as (f & Ef & Hf & Hbit).
  { destruct r as [a e|a b e]; simpl in *.
    - apply wp_elim, bytes_finds; [done|lia..|]. intros x Hx. apply Hmap; lia.
    - eexists. split; [done|]. apply bits_finds; [done|lia..|]. apply Hmap; lia. }
  exists (found_pos f). split; [done|]. unfold find_prev_visitor. rewrite Ef.
  destruct f as [addr bit| |]; simpl; [|done..]. unfold data_of_bit. rewrite div8, mod8 by lia.
  by destruct (align_metadata_address s addr bit).
Qed.

Lemma visit_finds lo hi l :
  chain lo hi l → 0 ≤ lo → hi < 8 * 2 ^ 64 →
  (∀ a, lo < 8 * a + 8 → 8 * a < hi → mapped a = true) →
  ∃ p, last_such (membit M) lo hi p ∧
    visit_all (find_prev_visitor is_mapped_address s M) (Val None) (reverse l) =
      match p with Some j => (Val (Some (data_of_bit j)), true) | None => (Val None, false) end.
Proof.
  revert lo. induction l as [|r l IH]; intros lo Hc H0 H1 Hmap; simpl in Hc.
  { exists None. split; [|done]. intros i Hi. lia. }
  destruct Hc as (Elo & Hr & Hc). pose proof (chain_le _ _ _ Hc) as Hle. pose proof Hr as [Hlt _].
  destruct (IH (range_hi r) Hc) as (p & Hp & Ep); [lia..|intros; apply Hmap; lia|].
  rewrite reverse_cons, visit_all_app, Ep. destruct p as [j|]; simpl.
  { exists (Some j). split; [|done]. eapply last_such_weaken; [|done]. lia. }
  destruct (visitor_finds None r Hr) as (p & Hp' & Ev); [lia..|intros; apply Hmap; lia|].
  exists p. split; [rewrite <-Elo; eapply last_such_extend; [|done..]; lia|].
  rewrite Ev. by destruct p.
Qed.

(** ** Regions *)

Lemma R_pos : 0 < R.
Proof. apply Z.pow_pos_nonneg; destruct Hs; lia. Qed.

Lemma load_zero_bits a :
  addr_ok a → load s M a = 0 ↔ ∀ j, base s a ≤ j < base s a + width s → membit M j = false.
Proof.
  intros Ha. split.
  - intros E j Hj. pose proof (testbit_load s Hs M a (j - base s a) HM Ha ltac:(lia)) as Ht.
    rewrite E, Z.bits_0 in Ht. destruct (Z.ltb_spec (j - base s a) (width s)); [|lia]. simpl in Ht.
    by replace (base s a + (j - base s a)) with j in Ht by lia.
  - intros Hz. apply Z.bits_inj'. intros i Hi. rewrite testbit_load, Z.bits_0 by done.
    destruct (Z.ltb_spec i (width s)); [simpl|done]. apply Hz. lia.
Qed.

(** A bit of the table belongs to the value of one region, and stands for its start. *)
Lemma bit_region a1 a2 j :
  0 ≤ a1 → a2 < 2 ^ 47 → base s a1 ≤ j < base s a2 →
  ∃ b, (R | b) ∧ 0 ≤ b < 2 ^ 47 ∧ region s a1 ≤ region s b < region s a2 ∧
    base s b ≤ j < base s b + width s ∧ data_of_bit j = b.
Proof.
  intros H1 H2 Hj. pose proof (width_pos s Hs) as [Hw _]. pose proof R_pos as HR.
  pose proof (region_nonneg s Hs a1 H1) as Hr1. pose proof (region_le s Hs a2) as Hr2.
  set (r := (j - 8 * sm_offset s) `div` width s). unfold base in Hj.
  pose proof (Z.div_mod (j - 8 * sm_offset s) (width s) ltac:(lia)) as Ed.
  pose proof (Z.mod_pos_bound (j - 8 * sm_offset s) (width s) ltac:(lia)). fold r in Ed.
  assert (region s a1 ≤ r < region s a2) as Hr by nia.
  assert (region s (r * R) = r) as Er by (unfold region; by rewrite Z.div_mul by lia).
  assert (0 ≤ r * R < 2 ^ 47) as Hb by nia.
  assert (base s (r * R) ≤ j < base s (r * R) + width s) as Hbj by (unfold base; rewrite Er; nia).
  exists (r * R). rewrite Er. split; [apply Z.divide_factor_r|]. split; [done|]. split; [done|]. split; [done|].
  unfold data_of_bit. rewrite (align_metadata_address_start s (r * R) j) by done.
  rewrite meta_address_inverse by done. rewrite Z.shiftl_1_l. pose proof (sp_region s Hs).
  apply align_down_id; [lia|unfold is_u; lia|apply Z.divide_factor_r].
Qed.

(** [o] is the start of the last region in [[lo, d]] whose value is not zero. *)
Definition last_nonzero (lo d : Z) (o : option Z) : Prop :=
  match o with
  | Some a => (R | a) ∧ lo ≤ a ≤ d ∧ load s M a ≠ 0 ∧ ∀ b, (R | b) → a < b ≤ d → load s M b = 0
  | None => ∀ b, (R | b) → lo ≤ b ≤ d → load s M b = 0
  end.

Lemma last_nonzero_unique lo d o o' : last_nonzero lo d o → last_nonzero lo d o' → o = o'.
Proof.
  destruct o as [a|], o' as [a'|]; simpl; intros H1 H2; [| | |done].
  - destruct H1 as (Hd & ? & Hz & Hl), H2 as (Hd' & ? & Hz' & Hl'). f_equal.
    destruct (Z.lt_trichotomy a a') as [|[|]]; [|done|].
    + destruct Hz'. apply Hl; (done || lia).
    + destruct Hz. apply Hl'; (done || lia).
  - destruct H1 as (Hd & ? & Hz & _). destruct Hz. by apply H2.
  - destruct H2 as (Hd & ? & Hz & _). destruct Hz. by apply H1.
Qed.

Lemma divide_gap a b : (R | a) → (R | b) → a < b → a + R ≤ b.
Proof. pose proof R_pos. intros [x ->] [y ->] Hlt%Z.mul_lt_mono_pos_r; [|done]. nia. Qed.

Lemma find_prev_loop_spec fuel lo cursor :
  1 ≤ lo → 0 ≤ cursor < 2 ^ 47 → (R | cursor) → (Z.to_nat (cursor `div` R + 1) ≤ fuel)%nat →
  (∀ b, (R | b) → lo ≤ b ≤ cursor → mapped b = true) →
  wp (find_prev_loop is_mapped_address s M fuel R lo cursor) (last_nonzero lo cursor).
Proof.
  pose proof R_pos as HR. revert cursor. induction fuel as [|fuel IH]; intros c Hlo Hc Hd Hfuel Hmap; cbn [find_prev_loop].
  { assert (0 ≤ c `div` R) by (apply Z.div_pos; lia). lia. }
  destruct (Z.leb_spec lo c); [|intros b ? ?; lia]. rewrite Hmap by (done || lia). simpl negb.
  unfold is_zero. destruct (Z.eqb_spec (load s M c) 0) as [Ez|Hnz]; cbn [negb].
  - pose proof Hd as [q Eq]. assert (c `div` R = q) as Ed by (rewrite Eq; apply Z.div_mul; lia).
    assert (1 ≤ q) by nia. rewrite usub_id by nia.
    eapply wp_mono; [apply IH; [lia|nia|..]|].
    + apply Z.divide_sub_r; [done|apply Z.divide_refl].
    + replace (c - R) with ((q - 1) * R) by lia. rewrite Z.div_mul by lia. lia.
    + intros b Hb ?. apply Hmap; [done|lia].
    + assert (∀ b, (R | b) → b ≤ c → b = c ∨ b ≤ c - R) as Hgap.
      { intros b Hb ?. destruct (decide (b = c)); [by left|right]. pose proof (divide_gap b c Hb Hd). lia. }
      intros [a|]; simpl.
      * intros (Ha & Hr & Hz & Hl). split_and!; [done|lia..|done|]. intros b Hb ?.
        destruct (Hgap b Hb) as [->|]; [lia|done|]. apply Hl; (done || lia).
      * intros Hl b Hb ?. destruct (Hgap b Hb) as [->|]; [lia|done|]. apply Hl; (done || lia).
  - simpl. split_and!; [done|lia..|done|]. intros b ? ?. lia.
Qed.

Lemma last_nonzero_align lo d o :
  0 ≤ d → last_nonzero lo (region s d * R) o → last_nonzero lo d o.
Proof.
  intros Hd. pose proof R_pos. assert (∀ b, (R | b) → b ≤ d → b ≤ region s d * R) as Hle.
  { intros b Hb ?. by apply div_exact_le. }
  pose proof (region_le s Hs d). destruct o as [a|]; simpl.
  - intros (? & ? & ? & Hl). split_and!; [done|lia..|done|]. intros b Hb ?. apply Hl; [done|]. split; [lia|]. apply Hle; (done || lia).
  - intros Hl b Hb ?. apply Hl; [done|]. split; [lia|]. apply Hle; (done || lia).
Qed.

Lemma start_align a : 0 ≤ a < 2 ^ 47 → align_down a (ushl 64 1 (log_bytes_in_region s)) = region s a * R.
Proof.
  intros Ha. pose proof (sp_region s Hs). assert (R < 2 ^ 64) by (apply Z.pow_lt_mono_r; lia).
  pose proof R_pos. rewrite ushl_id, Z.mul_1_l by lia. unfold align_down.
  apply align_down_eq; [lia|unfold is_u; lia].
Qed.

Abbreviation lo d limit := (Z.max 0 (d - limit) + 1).

Lemma limit_eq d limit : 0 ≤ d < 2 ^ 47 → 1 ≤ limit → addr_saturating_sub d limit +u 1 = lo d limit.
Proof. intros. unfold addr_saturating_sub, saturating_sub. apply uadd_id. lia. Qed.

Lemma simple_spec d limit :
  0 ≤ d < 2 ^ 47 → 1 ≤ limit →
  (∀ b, (R | b) → lo d limit ≤ b ≤ d → mapped b = true) →
  wp (find_prev_non_zero_value_simple is_mapped_address s M d limit) (last_nonzero (lo d limit) d).
Proof.
  intros Hd Hlim Hmap. pose proof R_pos. unfold find_prev_non_zero_value_simple. cbv zeta.
  rewrite start_align by done. rewrite limit_eq by done. pose proof (sp_region s Hs).
  assert (R < 2 ^ 64) by (apply Z.pow_lt_mono_r; lia). rewrite ushl_id, Z.mul_1_l by lia.
  pose proof (region_le s Hs d). pose proof (region_nonneg s Hs d ltac:(lia)).
  eapply wp_mono; [apply find_prev_loop_spec|].
  - lia.
  - nia.
  - apply Z.divide_factor_r.
  - rewrite Z.div_mul by lia. done.
  - intros b Hb ?. apply Hmap; [done|lia].
  - intros o Ho. apply last_nonzero_align; (done || lia).
Qed.

(** The regions whose bits lie between those of [a1] and of [a2]. *)
Lemma region_between a1 a2 b :
  0 ≤ b < 2 ^ 47 → region s a1 ≤ region s b < region s a2 →
  ∀ j, base s b ≤ j < base s b + width s → base s a1 ≤ j < base s a2.
Proof. intros Hb Hr j Hj. pose proof (width_pos s Hs). unfold base in *. nia. Qed.

Lemma aligned_region b : (R | b) → b = region s b * R.
Proof. pose proof R_pos. intros [q ->]. unfold region. by rewrite Z.div_mul by lia. Qed.

Lemma bits_last_nonzero l d p :
  1 ≤ l ≤ d → d < 2 ^ 47 → load s M d = 0 → last_such (membit M) (base s l) (base s d) p →
  last_nonzero l d (addr ← p; let a := data_of_bit addr in if (l <=? a) && (a <? d) then Some a else None).
Proof.
  intros Hl Hd Hz Hp. pose proof R_pos as HR. assert (∀ x, 0 ≤ x < 2 ^ 47 → addr_ok x) as Hok by (unfold addr_ok; lia).
  assert (∀ x, (R | x) → l ≤ x ≤ d → region s l ≤ region s x ∧ (region s x < region s d ∨ load s M x = 0)) as Hreg.
  { intros x Hx ?. split; [apply Z.div_le_mono; lia|].
    assert (region s x ≤ region s d) by (apply Z.div_le_mono; lia).
    destruct (decide (region s x = region s d)) as [E|]; [right|left; lia].
    rewrite <-Hz. apply (load_region s Hs M); try done; apply Hok; lia. }
  destruct p as [j|]; simpl.
  - destruct Hp as (Hj & Hbit & Hlast).
    destruct (bit_region l d j ltac:(lia) Hd Hj) as (b & Hdb & Hb & Hrb & Hjb & ->).
    pose proof (aligned_region b Hdb) as Eb. pose proof (region_le s Hs d).
    assert (b < d) by nia. destruct (Z.ltb_spec b d); [|lia]. rewrite andb_true_r.
    assert (∀ x, (R | x) → b < x → l ≤ x ≤ d → load s M x = 0) as Hafter.
    { intros x Hx Hbx Hr. destruct (Hreg x Hx Hr) as [? [Hlt|?]]; [|done].
      pose proof (aligned_region x Hx). assert (region s b < region s x) by nia.
      apply load_zero_bits; [apply Hok; lia|]. intros i Hi. apply Hlast.
      pose proof (base_disjoint s Hs b x ltac:(lia)). pose proof (region_between l d x ltac:(lia) ltac:(lia) i Hi). lia. }
    destruct (Z.leb_spec l b); simpl.
    + split_and!; [done|lia..| |].
      * rewrite load_zero_bits by (by apply Hok). intros Hzero. rewrite Hzero in Hbit by done. done.
      * intros x Hx ?. apply Hafter; (done || lia).
    + intros x Hx ?. apply Hafter; (done || lia).
  - intros x Hx Hr. destruct (Hreg x Hx Hr) as [? [Hlt|?]]; [|done].
    apply load_zero_bits; [apply Hok; lia|]. intros i Hi. apply Hp. apply (region_between l d x); (done || lia).
Qed.

Lemma fast_spec d limit :
  1 ≤ d < 2 ^ 47 → 1 ≤ limit → lo d limit ≤ region s d * R → mapped d = true →
  (∀ a, address_to_meta_address s (lo d limit) ≤ a ≤ address_to_meta_address s d → mapped a = true) →
  wp (find_prev_non_zero_value_fast is_mapped_address s M d limit) (last_nonzero (lo d limit) d).
Proof.
  intros Hd Hlim Hmod Hm Hmap. pose proof R_pos. assert (addr_ok d) as Hdok by (unfold addr_ok; lia).
  unfold find_prev_non_zero_value_fast. rewrite Hm. simpl negb. cbv iota. rewrite !limit_eq by lia.
  assert (load s M (region s d * R) = load s M d) as Elast.
  { pose proof (region_le s Hs d). pose proof (region_nonneg s Hs d ltac:(lia)).
    assert (0 ≤ region s d * R) by (apply Z.mul_nonneg_nonneg; lia).
    apply (load_region s Hs M); try done; [unfold addr_ok; lia|]. unfold region. by rewrite Z.div_mul by lia. }
  pose proof (Z.div_mod d R ltac:(lia)) as Ed. fold (region s d) in Ed.
  pose proof (Z.mod_pos_bound d R ltac:(lia)).
  unfold is_zero. destruct (Z.eqb_spec (load s M d) 0) as [Ez|Hnz]; cbn [negb].
  - set (l := lo d limit) in *. assert (addr_ok l) as Hlok by (unfold addr_ok, l; lia).
    destruct (base_split s Hs l Hlok) as (El & Hll & _ & Hal). destruct (base_split s Hs d Hdok) as (Ebd & Hld & _ & Had).
    unfold address_to_meta_address in *. pose proof (sp_offset s Hs). pose proof (sp_end s Hs) as He. fold (table_bytes s) in He.
    assert (base s l ≤ base s d).
    { unfold base. pose proof (width_pos s Hs). assert (region s l ≤ region s d) by (apply Z.div_le_mono; lia). nia. }
    rewrite break_bit_range_eq.
    destruct (visit_finds (base s l) (base s d) (ranges_of (address_to_contiguous_meta_address s l) (meta_byte_lshift s l)
      (address_to_contiguous_meta_address s d) (meta_byte_lshift s d))) as (p & Hp & ->).
    { rewrite El, Ebd. apply ranges_of_chain; lia. } { lia. } { lia. } { intros a ? ?. apply Hmap. lia. }
    assert (1 ≤ l ≤ d) as Hlr by lia.
    pose proof (bits_last_nonzero l d p Hlr ltac:(lia) Ez Hp) as Hfin.
    destruct p as [j|]; simpl in Hfin |- *; [|done]. simpl in Hp.
    destruct (bit_region l d j ltac:(lia) ltac:(lia) ltac:(tauto)) as (b & Hdb & Hb & _ & _ & Edb). rewrite Edb in *.
    rewrite start_align, <-aligned_region by done. exact Hfin.
  - rewrite start_align by lia. simpl. split_and!; [apply Z.divide_factor_r|lia..|by rewrite Elast|].
    intros b Hb ?. pose proof (divide_gap (region s d * R) b (Z.divide_factor_r _ _) Hb). lia.
Qed.
End search.

(** C25: on a range whose data and metadata are mapped, and which reaches down to the start of the
    region that the search begins in, the fast backward search, the simple one and the function
    that chooses between them return, agree, and give the start of the last region in range
    whose value is not zero, or none if every value is zero.  (Where the range ends inside that
    region the two versions differ: [find_prev_versions_differ].) *)
Theorem find_prev_last_nonzero (is_mapped_address : Z → bool) (s : SideMetadataSpec) (M : mem) (d limit : Z) :
  spec_ok s → mem_ok M → (8 | sm_offset s) →
  (log_num_of_bits s ≤ 3 → log_num_of_bits s ≤ log_bytes_in_region s) →
  1 ≤ d < 2 ^ 47 → 1 ≤ limit → let lo := Z.max 0 (d - limit) + 1 in
  lo ≤ region s d * 2 ^ log_bytes_in_region s →
  (∀ b, lo ≤ b ≤ d → is_mapped is_mapped_address b = true) →
  (∀ a, address_to_meta_address s lo ≤ a ≤ address_to_meta_address s d → is_mapped is_mapped_address a = true) →
  ∃ o, find_prev_non_zero_value is_mapped_address s M d limit = Val o ∧
    find_prev_non_zero_value_fast is_mapped_address s M d limit = Val o ∧
    find_prev_non_zero_value_simple is_mapped_address s M d limit = Val o ∧
    last_nonzero s M lo d o.
Proof.
  intros Hs HM Hoff Hk Hd Hlim lo Hmod Hdata Hmeta.
  destruct (wp_elim _ _ (fast_spec is_mapped_address s M Hs HM Hoff Hk d limit Hd Hlim Hmod
    (Hdata d ltac:(lia)) Hmeta)) as (o & Ef & Ho).
  destruct (wp_elim _ _ (simple_spec is_mapped_address s M Hs d limit ltac:(lia) Hlim
    ltac:(intros; apply Hdata; lia))) as (o' & Es & Ho').
  rewrite (last_nonzero_unique s M _ _ _ _ Ho' Ho) in Es. exists o. split_and!; try done.
  unfold find_prev_non_zero_value, uses_contiguous_side_metadata. by rewrite orb_true_r.
Qed.

(** A table of one bit per 8 bytes, as the VO bits, with the bit of the word at
    0x2000 set. *)
Definition vo_spec : SideMetadataSpec :=
  {| sm_name := "VO_BIT"; is_global := true; sm_offset := 0x0c0000000000;
     log_num_of_bits := 0; log_bytes_in_region := 3 |}.
Lemma vo_spec_ok : spec_ok vo_spec. Proof. by split. Qed.
Definition vo_memory : mem := store vo_spec (λ _, 0) 0x2000 1.
Lemma vo_memory_ok : mem_ok vo_memory.
Proof. apply (store_updates vo_spec vo_spec_ok); [apply mem0_ok|unfold addr_ok; lia|vm_compute; split; congruence]. Qed.

Lemma find_prev_last_nonzero_witness :
  ∃ o, find_prev_non_zero_value (λ _, true) vo_spec vo_memory 0x20f4 0x200 = Val o ∧
    find_prev_non_zero_value_fast (λ _, true) vo_spec vo_memory 0x20f4 0x200 = Val o ∧
    find_prev_non_zero_value_simple (λ _, true) vo_spec vo_memory 0x20f4 0x200 = Val o ∧
    last_nonzero vo_spec vo_memory (Z.max 0 (0x20f4 - 0x200) + 1) 0x20f4 o.
Proof.
  assert (∀ a, 0 < a → is_mapped (λ _, true) a = true) as Hmap.
  { intros a Ha. unfold is_mapped. destruct (Z.eqb_spec a 0); [lia|done]. }
  apply (find_prev_last_nonzero (λ _, true) vo_spec vo_memory 0x20f4 0x200 vo_spec_ok vo_memory_ok).
  - by exists (0x0c0000000000 / 8).
  - simpl. lia.
  - lia.
  - lia.
  - vm_compute. congruence.
  - intros b Hb. apply Hmap. lia.
  - intros a [Ha _]. apply Hmap. eapply Z.lt_le_trans; [|exact Ha]. vm_compute. done.
Defined.

(** A table of one bit per block of 32 KiB. *)
Definition block_spec : SideMetadataSpec :=
  {| sm_name := "BLOCK_BIT"; is_global := false; sm_offset := 0x4c0000000000;
     log_num_of_bits := 0; log_bytes_in_region := 15 |}.

(** When the limit ends inside the region of the address, the two versions
    disagree: the fast one returns the start of the region although it is below the
    limit, the simple one does not; nor do they agree when an unmapped chunk lies
    between the address and the value found. *)
Theorem find_prev_versions_differ :
  find_prev_non_zero_value_fast (λ _, true) vo_spec vo_memory 0x2004 2 = Val (Some 0x2000) ∧
  find_prev_non_zero_value_simple (λ _, true) vo_spec vo_memory 0x2004 2 = Val None ∧
  let hole a := negb ((BYTES_IN_CHUNK <=? a) && (a <? 2 * BYTES_IN_CHUNK)) in
  let M := store block_spec (λ _, 0) (BYTES_IN_CHUNK - 2 ^ 15) 1 in
  find_prev_non_zero_value_fast hole block_spec M (2 * BYTES_IN_CHUNK) (2 * BYTES_IN_CHUNK) =
    Val (Some (BYTES_IN_CHUNK - 2 ^ 15)) ∧
  find_prev_non_zero_value_simple hole block_spec M (2 * BYTES_IN_CHUNK) (2 * BYTES_IN_CHUNK) = Val None.
Proof. vm_compute. split_and!; reflexivity. Qed.
