(* ===== verification/SideMetadataScan.v ===== *)
(** * The scan visits the non-zero values

    The scan of SideMetadataSearch.v as a fold of the visitor over a list of region
    starts: in address order for the simple version, in some order for the fast one,
    which goes through the set bits of bytes and words. *)

From S2P Require Import Prelude Conversions Memory SideMetadata SideMetadataBits SideMetadataOps.
From S2P Require Import SideMetadataTheorems SideMetadataSearch SideMetadataFind.

(** ** The set bits of a word *)

(** The positions in [[lo, lo + n)] where [p] holds, in order. *)
Definition positions (p : Z → bool) (lo n : Z) : list Z := filter (λ j, p j = true) (seqZ lo n).

Lemma positions_app p lo n m : 0 ≤ n → 0 ≤ m → positions p lo (n + m) = positions p lo n ++ positions p (lo + n) m.
Proof. intros. unfold positions. rewrite <-filter_app. f_equal. by apply seqZ_app. Qed.

Lemma positions_ext p q lo n : (∀ j, lo ≤ j < lo + n → p j = q j) → positions p lo n = positions q lo n.
Proof. intros E. apply filter_ext_in. intros j Hj%elem_of_seqZ. by rewrite E. Qed.

Lemma positions_shift p lo n d : positions (λ i, p (d + i)) lo n = (λ j, j - d) <$> positions p (d + lo) n.
Proof.
  unfold positions. rewrite <-(fmap_add_seqZ d lo n), filter_fmap, <-list_fmap_compose.
  rewrite <-list_fmap_id at 1. apply list_fmap_ext. intros ? x _. simpl. lia.
Qed.

(** A positive number is an odd one shifted. *)
Lemma odd_part x : 0 < x → ∃ b y, 0 ≤ b ∧ 0 ≤ y ∧ x = 2 ^ b * (2 * y + 1).
Proof.
  destruct x as [|p|p]; [lia| |lia]. intros _. induction p as [p IH|p IH|].
  - exists 0, (Z.pos p). split_and!; lia.
  - destruct IH as (b & y & ? & ? & E). exists (b + 1), y. split_and!; [lia..|].
    rewrite Z.pow_add_r by lia. lia.
  - exists 0, 0. split_and!; lia.
Qed.

Lemma testbit_shifted b z i : 0 ≤ b → 0 ≤ i → Z.testbit (2 ^ b * z) i = (b <=? i) && Z.testbit z (i - b).
Proof. intros. rewrite Z.mul_comm, <-Z.shiftl_mul_pow2 by done. by apply testbit_shiftl. Qed.

Lemma testbit_pred_shifted b z i :
  0 ≤ b → 0 ≤ i → Z.testbit (2 ^ b * (2 * z + 1) - 1) i = (i <? b) || ((b <? i) && Z.testbit (2 * z) (i - b)).
Proof.
  intros Hb Hi. replace (2 ^ b * (2 * z + 1) - 1) with (2 ^ b * (2 * z) + Z.ones b) by (rewrite Z.ones_equiv; lia).
  assert (2 ^ b * (2 * z) + Z.ones b = Z.lor (2 ^ b * (2 * z)) (Z.ones b)) as ->.
  { assert (Z.land (2 ^ b * (2 * z)) (Z.ones b) = 0) as E0.
    { apply Z.bits_inj'. intros j Hj. rewrite Z.land_spec, testbit_shifted, Z.testbit_ones_nonneg, Z.bits_0 by lia.
      bits_case; bits_bool. }
    rewrite <-Z.lxor_lor by done. by apply Z.add_nocarry_lxor. }
  rewrite Z.lor_spec, testbit_shifted, Z.testbit_ones_nonneg by lia. bits_case; rewrite ?orb_false_r; try done.
  replace (i - b) with 0 by lia. by rewrite Z.testbit_even_0.
Qed.

(** The loop takes the lowest set bit, and leaves the word without it. *)
Lemma lowest_bit w word :
  0 < word < 2 ^ w → 0 ≤ w →
  let b := trailing_zeros w word in
  0 ≤ b < w ∧ Z.testbit word b = true ∧ (∀ i, 0 ≤ i < b → Z.testbit word i = false) ∧
  ∀ i, 0 ≤ i → Z.testbit (Z.land word (word - 1)) i = Z.testbit word i && negb (i =? b).
Proof.
  intros Hw Hw0. destruct (odd_part word) as (b & y & Hb & Hy & E); [lia|].
  assert (trailing_zeros w word = b) as ->.
  { unfold trailing_zeros. destruct (Z.eqb_spec word 0); [lia|].
    replace (Z.land word (- word)) with (2 ^ b); [by apply Z.log2_pow2|].
    replace (- word) with (Z.lnot (word - 1)) by (unfold Z.lnot; lia).
    apply Z.bits_inj'. intros i Hi. rewrite Z.land_spec, Z.lnot_spec, E, testbit_pred_shifted, testbit_shifted, testbit_pow2 by lia.
    bits_case; simpl; rewrite ?andb_false_r; try done.
    - replace (i - b) with (Z.succ (i - b - 1)) by lia.
      rewrite Z.testbit_odd_succ, Z.testbit_even_succ by lia. by destruct (Z.testbit y (i - b - 1)).
    - replace (i - b) with 0 by lia. by rewrite Z.testbit_odd_0. }
  assert (∀ i, 0 ≤ i → Z.testbit word i = (b <=? i) && Z.testbit (2 * y + 1) (i - b)) as Hword.
  { intros i Hi. rewrite E. by apply testbit_shifted. }
  assert (Z.testbit word b = true) as Hbit.
  { rewrite Hword by done. rewrite Z.sub_diag, Z.testbit_odd_0. bits_case; done. }
  assert (b < w) as Hbw.
  { destruct (Z.lt_ge_cases b w); [done|]. rewrite (testbit_small w word b) in Hbit by (done || lia). done. }
  split_and!; [done..| |].
  - intros i Hi. rewrite Hword by lia. bits_case; done.
  - intros i Hi. rewrite Z.land_spec, Hword by done. rewrite E, testbit_pred_shifted by done.
    bits_case; simpl; rewrite ?andb_false_r, ?andb_true_r; try done.
    replace (i - b) with (Z.succ (i - b - 1)) by lia.
    rewrite Z.testbit_odd_succ, Z.testbit_even_succ by lia. by destruct (Z.testbit y (i - b - 1)).
Qed.

Lemma positions_lowest w word :
  0 < word < 2 ^ w → 0 ≤ w →
  positions (Z.testbit word) 0 w =
  trailing_zeros w word :: positions (Z.testbit (Z.land word (word - 1))) 0 w.
Proof.
  intros Hw Hw0. destruct (lowest_bit w word Hw Hw0) as (Hb & Hbit & Hlow & Hrest).
  set (b := trailing_zeros w word) in *.
  assert (∀ p, positions p 0 w = positions p 0 b ++ (if p b then [b] else []) ++ positions p (b + 1) (w - b - 1)) as Hsplit.
  { intros p. replace w with (b + (1 + (w - b - 1))) at 1 by lia. rewrite !positions_app, Z.add_0_l by lia.
    assert (positions p b 1 = if p b then [b] else []) as ->; [|done].
    unfold positions. replace (seqZ b 1) with [b] by (unfold seqZ; simpl; f_equal; lia).
    rewrite filter_cons, filter_nil. case_decide as Hd; destruct (p b); done. }
  assert (∀ p, (∀ i, 0 ≤ i < b → p i = false) → positions p 0 b = []) as Hnil.
  { intros p Hp. rewrite (positions_ext p (λ _, false)) by (intros; apply Hp; lia).
    unfold positions. induction (seqZ 0 b) as [|x l IH]; [done|]. by rewrite filter_cons, decide_False. }
  rewrite !Hsplit, Hbit, Hrest, Hbit by lia. rewrite !Hnil; [|intros i Hi; rewrite Hrest, Hlow by lia; done|done].
  destruct (Z.eqb_spec b b); [|done]. simpl. f_equal. apply positions_ext.
  intros j Hj. rewrite Hrest by lia. destruct (Z.eqb_spec j b); [lia|]. by rewrite andb_true_r.
Qed.

Section scan.
Context {S : Type}.

Lemma scan_word_fold (addr word : Z) (visit_bit : S → Z → Z → S) s :
  is_u 64 word →
  scan_non_zero_bits_in_metadata_word addr word visit_bit s =
  Val (foldl (λ s b, visit_bit s addr b) s (positions (Z.testbit word) 0 64)).
Proof.
  intros Hw. unfold scan_non_zero_bits_in_metadata_word.
  assert (length (positions (Z.testbit word) 0 64) ≤ 64)%nat as Hlen.
  { unfold positions. etrans; [apply length_filter|]. rewrite length_seqZ. done. }
  revert word s Hw Hlen. generalize 64%nat. induction n as [|n IH]; intros word s Hw Hlen; simpl scan_word_loop.
  - destruct (Z.eqb_spec word 0) as [->|Hnz]; [by vm_compute|].
    rewrite (positions_lowest 64 word) in Hlen by (unfold is_u in *; lia). simpl in Hlen. lia.
  - destruct (Z.eqb_spec word 0) as [->|Hnz]; [by vm_compute|].
    assert (0 < word < 2 ^ 64) as Hw' by (unfold is_u in *; lia).
    rewrite positions_lowest in Hlen |- * by (done || lia). simpl in Hlen |- *.
    destruct (lowest_bit 64 word Hw' ltac:(lia)) as (Hb & _).
    rewrite usub_id, (uwrap_id 8 (trailing_zeros 64 word)) by lia. rewrite IH; [done| |lia].
    apply is_u_bits; [lia|]. intros i Hi. rewrite Z.land_spec. by rewrite (testbit_small 64 word) by (done || lia).
Qed.

(** ** The set bits of a range of bytes *)

Context (s : SideMetadataSpec) (M : mem) (Hs : spec_ok s) (HM : mem_ok M) (Hk : log_num_of_bits s = 0).
Context (visit_data : S → Z → S).
Abbreviation R := (2 ^ log_bytes_in_region s).
Abbreviation visit_bit := (λ s' addr bit, visit_data s' (contiguous_meta_address_to_address s addr bit)).

(** The region start a bit of the table stands for, one bit to a region. *)
Definition start_of_bit (j : Z) : Z := (j - 8 * sm_offset s) * R.

(** The address translation takes any position from a byte of the table. *)
Lemma bit_to_address addr bit :
  sm_offset s ≤ addr < 2 ^ 64 → 0 ≤ bit → start_of_bit (8 * addr + bit) < 2 ^ 47 →
  contiguous_meta_address_to_address s addr bit = start_of_bit (8 * addr + bit).
Proof.
  intros Ha Hb Hlt. unfold contiguous_meta_address_to_address, start_of_bit, get_absolute_offset in *.
  change LOG_BITS_IN_BYTE with 3. rewrite Hk in *. pose proof (sp_region s Hs). pose proof (sp_offset s Hs).
  change (0 <=? 3 - 0) with true. cbv iota. rewrite !usub_id by lia. rewrite !Z.sub_0_r.
  assert (0 < R) by (apply Z.pow_pos_nonneg; lia).
  assert (0 ≤ (addr - sm_offset s) * 8 ∧ 0 ≤ (addr - sm_offset s) * 8 * R ∧ 0 ≤ bit * R) as (? & ? & ?) by nia.
  assert ((addr - sm_offset s) * 8 ≤ (addr - sm_offset s) * 8 * R) by nia.
  replace ((8 * addr + bit - 8 * sm_offset s) * R) with ((addr - sm_offset s) * 8 * R + bit * R) in * by lia.
  rewrite (ushl_id 64 (addr - sm_offset s) 3) by (change (2 ^ 3) with 8; lia). change (2 ^ 3) with 8.
  rewrite !ushl_id by lia. rewrite uadd_id by lia. lia.
Qed.

Abbreviation visited lo n st := (foldl (λ v j, visit_data v (start_of_bit j)) st (positions (membit M) lo n)).

Lemma visited_app lo n m st : 0 ≤ n → 0 ≤ m → visited lo (n + m) st = visited (lo + n) m (visited lo n st).
Proof. intros. by rewrite positions_app, foldl_app by done. Qed.

(** The positions of a word, as positions of memory. *)
Lemma scan_word_visits addr n word st :
  1 ≤ n ≤ 8 → sm_offset s ≤ addr → addr + n ≤ 2 ^ 64 → start_of_bit (8 * (addr + n)) ≤ 2 ^ 47 →
  (∀ i, 0 ≤ i → Z.testbit word i = (i <? 8 * n) && membit M (8 * addr + i)) →
  scan_non_zero_bits_in_metadata_word addr word visit_bit st = Val (visited (8 * addr) (8 * n) st).
Proof.
  intros Hn Ha Hmax Hend Hbits. rewrite scan_word_fold.
  2:{ apply is_u_bits; [lia|]. intros i Hi. rewrite Hbits by lia. destruct (Z.ltb_spec i (8 * n)); [lia|done]. }
  f_equal. replace 64 with (8 * n + (64 - 8 * n)) by lia. rewrite positions_app by lia.
  assert (positions (Z.testbit word) (0 + 8 * n) (64 - 8 * n) = []) as ->.
  { rewrite (positions_ext _ (λ _, false)).
    - unfold positions. induction (seqZ _ _) as [|x l IH]; [done|]. by rewrite filter_cons, decide_False.
    - intros j Hj. rewrite Hbits by lia. destruct (Z.ltb_spec j (8 * n)); [lia|done]. }
  rewrite app_nil_r. rewrite (positions_ext _ (λ i, membit M (8 * addr + i))).
  2:{ intros j Hj. rewrite Hbits by lia. destruct (Z.ltb_spec j (8 * n)); [done|lia]. }
  rewrite positions_shift, Z.add_0_r, foldl_fmap_list.
  assert (0 < R) by (apply Z.pow_pos_nonneg; destruct Hs; lia).
  assert (∀ j, j ∈ positions (membit M) (8 * addr) (8 * n) → 8 * addr ≤ j < 8 * addr + 8 * n) as Hin.
  { intros j [_ Hj%elem_of_seqZ]%list_elem_of_filter. lia. }
  revert st Hin. generalize (positions (membit M) (8 * addr) (8 * n)). induction l as [|j l IH]; intros st Hin; [done|].
  simpl. specialize (Hin j ltac:(constructor)) as Hj. unfold start_of_bit in Hend.
  rewrite bit_to_address; [|lia|lia|].
  - replace (8 * addr + (j - 8 * addr)) with j by lia. apply IH. intros. apply Hin. by constructor.
  - unfold start_of_bit. nia.
Qed.

Lemma scan_loop_visits fuel cond n (load : Z → Z) end_ cursor st :
  1 ≤ n ≤ 8 → (∀ c, cursor ≤ c ≤ end_ → cond c = true → c + n ≤ end_) →
  (∀ c i, 0 ≤ i → Z.testbit (load c) i = (i <? 8 * n) && membit M (8 * c + i)) →
  sm_offset s ≤ cursor ≤ end_ → end_ < 2 ^ 64 → start_of_bit (8 * end_) ≤ 2 ^ 47 →
  (Z.to_nat (end_ - cursor) ≤ fuel)%nat →
  wp (scan_loop fuel cond n load visit_bit cursor st)
    (λ '(c, st'), cursor ≤ c ≤ end_ ∧ cond c = false ∧ st' = visited (8 * cursor) (8 * (c - cursor)) st).
Proof.
  intros Hn Hcond Hload. revert cursor st Hcond. induction fuel as [|fuel IH]; intros c st Hcond Hc Hmax Hend Hfuel; simpl.
  - destruct (cond c) eqn:E; [apply Hcond in E; lia|]. split_and!; [lia..|done|]. by rewrite Z.sub_diag.
  - destruct (cond c) eqn:E; [|split_and!; [lia..|done|]; by rewrite Z.sub_diag].
    apply Hcond in E; [|lia]. assert (0 < R) by (apply Z.pow_pos_nonneg; destruct Hs; lia).
    rewrite (scan_word_visits c n); [|done|lia..| |by intros; apply Hload].
    2:{ unfold start_of_bit in *. nia. }
    simpl. rewrite uadd_id by (pose proof (sp_offset s Hs); lia).
    eapply wp_mono; [apply IH; try lia; intros; apply Hcond; (done || lia)|]. intros [c' st'] (Hc' & Hstop & ->). split_and!; [lia..|done|].
    replace (8 * (c' - c)) with (8 * n + 8 * (c' - (c + n))) by lia. rewrite visited_app by lia.
    by replace (8 * c + 8 * n) with (8 * (c + n)) by lia.
Qed.

Lemma load_u8_bits c i : 0 ≤ i → Z.testbit (load_u8 M c) i = (i <? 8 * 1) && membit M (8 * c + i).
Proof.
  intros Hi. unfold load_u8. destruct (Z.ltb_spec i (8 * 1)); simpl.
  - by rewrite membit_at by lia.
  - by rewrite (testbit_small 8) by (apply HM || lia).
Qed.

Lemma scan_bytes_visits start end_ st :
  sm_offset s ≤ start ≤ end_ → end_ + 8 < 2 ^ 64 → start_of_bit (8 * end_) ≤ 2 ^ 47 →
  scan_non_zero_bits_in_metadata_bytes M start end_ visit_bit st = Val (visited (8 * start) (8 * (end_ - start)) st).
Proof.
  intros Hse Hmax Hend. pose proof (sp_offset s Hs). change BYTES_IN_ADDRESS with 8.
  cut (wp (scan_non_zero_bits_in_metadata_bytes M start end_ visit_bit st)
    (λ st', st' = visited (8 * start) (8 * (end_ - start)) st)).
  { intros (st' & -> & ->)%wp_elim. done. }
  unfold scan_non_zero_bits_in_metadata_bytes. cbv zeta. apply wp_bind. eapply wp_mono.
  { apply (scan_loop_visits _ _ 1 _ end_); try lia; apply load_u8_bits. }
  intros [c1 st1] (Hc1 & _ & ->). apply wp_bind. change BYTES_IN_ADDRESS with 8. eapply wp_mono.
  { apply (scan_loop_visits _ _ 8 _ end_); try lia.
    - intros c Hc Hu%Z.ltb_lt. rewrite uadd_id in Hu by lia. lia.
    - intros c i Hi. by rewrite testbit_load_bytes. }
  intros [c2 st2] (Hc2 & _ & ->). apply wp_bind. eapply wp_mono.
  { apply (scan_loop_visits _ _ 1 _ end_); try lia; apply load_u8_bits. }
  intros [c3 st3] (Hc3 & Hstop%Z.ltb_ge & ->). simpl. assert (c3 = end_) as -> by lia.
  replace (8 * (end_ - start)) with (8 * (c1 - start) + (8 * (c2 - c1) + 8 * (end_ - c2))) by lia.
  rewrite !visited_app by lia. repeat f_equal; lia.
Qed.

Lemma scan_bits_visits addr b e st :
  0 ≤ b < e → e ≤ 8 → sm_offset s ≤ addr < 2 ^ 64 → start_of_bit (8 * addr + e) ≤ 2 ^ 47 →
  scan_non_zero_bits_in_metadata_bits M addr b e visit_bit st = visited (8 * addr + b) (e - b) st.
Proof.
  intros Hb He Ha Hend. unfold scan_non_zero_bits_in_metadata_bits, positions, load_u8.
  rewrite <-(fmap_add_seqZ (8 * addr)), filter_fmap, foldl_fmap_list, <-foldl_filter.
  assert (∀ j, j ∈ seqZ b (e - b) → b ≤ j < e) as Hin by (intros j Hj%elem_of_seqZ; lia).
  assert (0 < R) by (apply Z.pow_pos_nonneg; destruct Hs; lia).
  revert st Hin. generalize (seqZ b (e - b)). induction l as [|j l IH]; intros st Hin; [done|]. simpl.
  specialize (Hin j ltac:(constructor)) as Hj. rewrite IH by (intros; apply Hin; by constructor). f_equal.
  assert (Z.land (M addr) (ushl 8 1 j) = 0 ↔ membit M (8 * addr + j) = false) as Hbit.
  { rewrite membit_at by lia. rewrite ushl_id; [|lia|].
    2:{ assert (2 ^ j < 2 ^ 8) by (apply Z.pow_lt_mono_r; lia). assert (0 < 2 ^ j) by (apply Z.pow_pos_nonneg; lia). lia. }
    rewrite Z.mul_1_l. split.
    - intros E. apply (f_equal (λ x, Z.testbit x j)) in E. rewrite Z.land_spec, testbit_pow2, Z.bits_0 in E by lia.
      rewrite Z.eqb_refl, andb_true_r in E. done.
    - intros E. apply Z.bits_inj'. intros i Hi. rewrite Z.land_spec, testbit_pow2, Z.bits_0 by lia.
      destruct (Z.eqb_spec j i) as [<-|]; [by rewrite E|by rewrite andb_false_r]. }
  rewrite bit_to_address; [|lia|lia|unfold start_of_bit in *; nia].
  destruct (Z.eqb_spec (Z.land (M addr) (ushl 8 1 j)) 0) as [E|E]; case_decide as Hd; simpl; try done.
  - apply Hbit in E. congruence.
  - destruct E. apply Hbit. by destruct (membit M (8 * addr + j)).
Qed.

(** ** The pieces of a range *)

Lemma scan_visitor_visits r st :
  range_ok r → 8 * sm_offset s ≤ range_lo r → range_hi r + 64 < 8 * 2 ^ 64 → start_of_bit (range_hi r) ≤ 2 ^ 47 →
  scan_visitor s M visit_data (Val st) r = (Val (visited (range_lo r) (range_hi r - range_lo r) st), false).
Proof.
  intros [Hlt Hok] Hlo Hhi Hend. destruct r as [a e|a b e]; simpl in *; f_equal.
  - rewrite scan_bytes_visits by (done || lia). do 3 f_equal. lia.
  - f_equal. rewrite scan_bits_visits by (done || lia). do 2 f_equal. lia.
Qed.

Lemma visit_scans lo hi l st :
  chain lo hi l → 8 * sm_offset s ≤ lo → hi + 64 < 8 * 2 ^ 64 → start_of_bit hi ≤ 2 ^ 47 →
  ∃ L, L ≡ₚ positions (membit M) lo (hi - lo) ∧
    visit_all (scan_visitor s M visit_data) (Val st) (reverse l) =
      (Val (foldl (λ v j, visit_data v (start_of_bit j)) st L), false).
Proof.
  assert (0 < R) by (apply Z.pow_pos_nonneg; destruct Hs; lia).
  revert lo. induction l as [|r l IH]; intros lo Hc H0 H1 Hend; simpl in Hc.
  { subst. exists []. rewrite Z.sub_diag. done. }
  destruct Hc as (Elo & Hr & Hc). pose proof (chain_le _ _ _ Hc) as Hle. pose proof Hr as [Hlt _].
  destruct (IH (range_hi r) Hc) as (L & HL & EL); [lia..|].
  rewrite reverse_cons, visit_all_app, EL. simpl visit_all. cbv iota.
  rewrite scan_visitor_visits; [|done|lia..|unfold start_of_bit in *; nia].
  exists (L ++ positions (membit M) (range_lo r) (range_hi r - range_lo r)). split.
  - replace (hi - lo) with (range_hi r - range_lo r + (hi - range_hi r)) by lia. rewrite <-Elo, positions_app by lia.
    replace (range_lo r + (range_hi r - range_lo r)) with (range_hi r) by lia. rewrite HL. apply Permutation_app_comm.
  - by rewrite foldl_app.
Qed.
End scan.

(** ** The two versions *)

(** The starts of the regions of [[start, end_)] whose values are not zero, in
    address order. *)
Definition nonzero_regions (s : SideMetadataSpec) (M : mem) (start end_ : Z) : list Z :=
  filter (λ b, load s M b ≠ 0)
    ((λ i, start + i * 2 ^ log_bytes_in_region s) <$> seqZ 0 ((end_ - start) `div` 2 ^ log_bytes_in_region s)).

Section versions.
Context (s : SideMetadataSpec) (M : mem) (Hs : spec_ok s) (HM : mem_ok M).
Context {S : Type} (visit_data : S → Z → S).
Abbreviation R := (2 ^ log_bytes_in_region s).

Lemma scan_simple_visits n fuel cursor st :
  0 ≤ cursor → cursor + Z.of_nat n * R ≤ 2 ^ 47 → (n ≤ fuel)%nat →
  scan_simple_loop s M fuel R (cursor + Z.of_nat n * R) cursor visit_data st =
  Val (foldl visit_data st (filter (λ b, load s M b ≠ 0) ((λ i, cursor + i * R) <$> seqZ 0 (Z.of_nat n)))).
Proof.
  assert (0 < R) by (apply Z.pow_pos_nonneg; destruct Hs; lia).
  revert n cursor st. induction fuel as [|fuel IH]; intros n cursor st Hc Hend Hn; cbn [scan_simple_loop].
  - assert (n = 0%nat) as -> by lia. replace (cursor + Z.of_nat 0 * R) with cursor by lia. by rewrite Z.ltb_irrefl.
  - destruct n as [|n].
    { replace (cursor + Z.of_nat 0 * R) with cursor by lia. by rewrite Z.ltb_irrefl. }
    destruct (Z.ltb_spec cursor (cursor + Z.of_nat (Datatypes.S n) * R)); [|nia].
    assert (cursor + R ≤ 2 ^ 47) by nia. rewrite uadd_id by lia.
    replace (cursor + Z.of_nat (Datatypes.S n) * R) with (cursor + R + Z.of_nat n * R) by lia.
    rewrite IH by lia. f_equal.
    replace (Z.of_nat (Datatypes.S n)) with (1 + Z.of_nat n) by lia.
    rewrite (seqZ_app 0 1), <-(fmap_add_seqZ 1 0) by lia. rewrite fmap_app, filter_app, foldl_app, <-list_fmap_compose.
    replace ((λ i, cursor + i * R) <$> seqZ 0 1) with [cursor] by (simpl; f_equal; lia).
    rewrite filter_cons, filter_nil. unfold is_zero.
    assert (((λ i, cursor + i * R) ∘ Z.add 1) <$> seqZ 0 (Z.of_nat n) = (λ i, cursor + R + i * R) <$> seqZ 0 (Z.of_nat n))
      as -> by (apply list_fmap_ext; intros; simpl; lia).
    destruct (Z.eqb_spec (load s M cursor) 0); case_decide; done.
Qed.

Lemma simple_visits start end_ st :
  0 ≤ start ≤ end_ → end_ ≤ 2 ^ 47 → (R | end_ - start) →
  scan_non_zero_values_simple s M start end_ visit_data st =
  Val (foldl visit_data st (nonzero_regions s M start end_)).
Proof.
  intros Hse Hend [q Eq]. pose proof (sp_region s Hs). assert (0 < R) by (apply Z.pow_pos_nonneg; lia).
  assert (R < 2 ^ 64) by (apply Z.pow_lt_mono_r; lia).
  unfold scan_non_zero_values_simple, nonzero_regions. cbv zeta. rewrite ushl_id, Z.mul_1_l by lia.
  rewrite Eq, Z.div_mul by lia. assert (0 ≤ q) by nia.
  replace end_ with (start + Z.of_nat (Z.to_nat q) * R) by lia. rewrite scan_simple_visits by lia.
  by rewrite Z2Nat.id by lia.
Qed.

Lemma fast_visits start end_ st :
  log_num_of_bits s = 0 → upper_bound_address_for_contiguous s + 8 < 2 ^ 64 →
  0 ≤ start ≤ end_ → end_ ≤ 2 ^ 47 → (R | start) → (R | end_) →
  ∃ l, l ≡ₚ nonzero_regions s M start end_ ∧
    scan_non_zero_values_fast s M start end_ visit_data st = Val (foldl visit_data st l).
Proof.
  intros Hk Hub Hse Hend Hd1 Hd2. assert (0 < R) by (apply Z.pow_pos_nonneg; destruct Hs; lia).
  rewrite upper_bound_eq in Hub by done. assert (width s = 1) as Ew by (unfold width; by rewrite Hk).
  destruct (base_split s Hs start) as (E1 & Hl1 & _ & Ha1); [unfold addr_ok; lia|].
  destruct (base_split s Hs end_) as (E2 & Hl2 & _ & Ha2); [unfold addr_ok; lia|].
  assert (∀ b, base s b = 8 * sm_offset s + region s b) as Eb by (intros; unfold base; rewrite Ew; lia).
  assert (region s start * R = start ∧ region s end_ * R = end_) as [Er1 Er2].
  { destruct Hd1 as [q1 ->], Hd2 as [q2 ->]. unfold region. by rewrite !Z.div_mul by lia. }
  assert (0 ≤ region s start ≤ region s end_) as Hr by nia.
  unfold scan_non_zero_values_fast. rewrite break_bit_range_eq. unfold address_to_meta_address in *.
  pose proof (sp_offset s Hs).
  destruct (visit_scans s M Hs HM Hk visit_data (base s start) (base s end_)
    (ranges_of (address_to_contiguous_meta_address s start) (meta_byte_lshift s start)
      (address_to_contiguous_meta_address s end_) (meta_byte_lshift s end_)) st) as (L & HL & EL).
  { rewrite E1, E2. apply ranges_of_chain; rewrite ?Eb in *; lia. }
  { rewrite Eb. lia. } { lia. } { unfold start_of_bit. rewrite Eb. replace (_ + _ - _) with (region s end_) by lia. lia. }
  exists (start_of_bit s <$> L). split.
  2:{ rewrite foldl_fmap_list. etrans; [|exact (f_equal fst EL)]. done. }
  rewrite HL, !Eb. unfold nonzero_regions, positions.
  assert ((end_ - start) `div` R = region s end_ - region s start) as ->.
  { rewrite <-Er1, <-Er2, <-Z.mul_sub_distr_r, Z.div_mul by lia. rewrite Er1, Er2. lia. }
  replace (8 * sm_offset s + region s end_ - (8 * sm_offset s + region s start)) with (region s end_ - region s start) by lia.
  rewrite filter_fmap. replace (8 * sm_offset s + region s start) with (8 * sm_offset s + region s start + 0) by lia.
  rewrite <-(fmap_add_seqZ (8 * sm_offset s + region s start)), filter_fmap, <-list_fmap_compose.
  rewrite (filter_ext_in _ (λ i, load s M (start + i * R) ≠ 0)).
  - match goal with |- ?x ≡ₚ ?y => assert (x = y) as ->; [|done] end. apply list_fmap_ext. intros ? i _. unfold start_of_bit. simpl. nia.
  - intros i Hi%elem_of_seqZ. assert (0 ≤ start + i * R < 2 ^ 47) by nia.
    rewrite (load_zero_bits s M Hs HM) by (unfold addr_ok; lia). rewrite Ew, Eb.
    assert (region s (start + i * R) = region s start + i) as ->.
    { rewrite <-Er1 at 1. rewrite <-Z.mul_add_distr_r. unfold region at 1. by rewrite Z.div_mul by lia. }
    split.
    + intros Hb Hz. rewrite Hz in Hb by lia. done.
    + intros Hb. destruct (membit M _) eqn:E; [done|]. destruct Hb. intros j Hj. rewrite <-E. f_equal. lia.
Qed.
End versions.

(** C26: on a range of whole regions the scan visits the start of each region whose
    value is not zero exactly once and nothing else: in address order for the simple
    version, in some order for the fast version. *)
Theorem scan_visits_nonzero {S} (s : SideMetadataSpec) (M : mem) (start end_ : Z) (visit_data : S → Z → S) (st : S) :
  spec_ok s → mem_ok M → upper_bound_address_for_contiguous s + 8 < 2 ^ 64 →
  0 ≤ start ≤ end_ → end_ ≤ 2 ^ 47 →
  (2 ^ log_bytes_in_region s | start) → (2 ^ log_bytes_in_region s | end_) →
  scan_non_zero_values_simple s M start end_ visit_data st =
    Val (foldl visit_data st (nonzero_regions s M start end_)) ∧
  ∃ l, l ≡ₚ nonzero_regions s M start end_ ∧
    scan_non_zero_values s M start end_ visit_data st = Val (foldl visit_data st l).
Proof.
  intros Hs HM Hub Hse Hend Hd1 Hd2.
  assert (scan_non_zero_values_simple s M start end_ visit_data st =
    Val (foldl visit_data st (nonzero_regions s M start end_))) as Hsimple.
  { apply simple_visits; try done. by apply Z.divide_sub_r. }
  split; [done|]. unfold scan_non_zero_values, uses_contiguous_side_metadata. rewrite orb_true_r. simpl.
  destruct (Z.eqb_spec (log_num_of_bits s) 0).
  - by apply fast_visits.
  - by exists (nonzero_regions s M start end_).
Qed.

Lemma scan_visits_nonzero_witness :
  scan_non_zero_values_simple vo_spec vo_memory 0x1f00 0x2100 (λ l a, a :: l) [] = Val [0x2000] ∧
  ∃ l, l ≡ₚ [0x2000] ∧
    scan_non_zero_values vo_spec vo_memory 0x1f00 0x2100 (λ l a, a :: l) [] = Val (foldl (λ l a, a :: l) [] l).
Proof.
  apply (scan_visits_nonzero vo_spec vo_memory 0x1f00 0x2100 (λ l a, a :: l) [] vo_spec_ok vo_memory_ok);
    [vm_compute; reflexivity|lia|lia|by exists (0x1f00 / 8)|by exists (0x2100 / 8)].
Defined.
