(* ===== verification/HeaderMetadata.v ===== *)
(** * Metadata in object headers (src/src/util/metadata/header_metadata.rs)

    A field of 1 to 7 bits within a byte, or an integer of 8 to 64 bits, at a bit
    offset from the header of an object.  [n] is the number of bytes of the type the
    field is accessed with; a field of less than a byte is accessed by its byte. *)

From S2P Require Import Prelude Conversions Memory SideMetadata SideMetadataBits.

Record HeaderMetadataSpec : Type := {
  bit_offset : Z;
  num_of_bits : Z
}.

Section spec.
Context (self : HeaderMetadataSpec) (n : nat).

Definition byte_offset : Z := Z.shiftr (bit_offset self) LOG_BITS_IN_BYTE.
Definition meta_addr (header : Z) : Z := addr_add_offset header byte_offset.

Definition get_shift_and_mask_for_bits : Z * Z :=
  let bit_shift := bit_offset self - Z.shiftl byte_offset LOG_BITS_IN_BYTE in
  let mask := ushl 8 (uwrap 8 (ushl 8 1 (num_of_bits self) - 1)) bit_shift in
  (bit_shift, mask).

Definition get_bits_from_u8 (raw_byte : Z) : Z :=
  let '(bit_shift, mask) := get_shift_and_mask_for_bits in
  Z.shiftr (Z.land raw_byte mask) bit_shift.

Definition set_bits_to_u8 (raw_byte set_val : Z) : Z :=
  let '(bit_shift, mask) := get_shift_and_mask_for_bits in
  Z.lor (Z.land raw_byte (unot 8 mask)) (ushl 8 set_val bit_shift).

Definition truncate_bits_in_u8 (val : Z) : Z := Z.land val (uwrap 8 (ushl 8 1 (num_of_bits self) - 1)).

(** [!mask] at the width of the type. *)
Definition mask_inv (mask : Z) : Z := unot (8 * Z.of_nat n) mask.

Definition header_load (M : mem) (header : Z) (optional_mask : option Z) : Z :=
  let res :=
    if num_of_bits self <? 8 then get_bits_from_u8 (load_u8 M (meta_addr header))
    else load_bytes n M (meta_addr header) in
  match optional_mask with Some mask => Z.land res mask | None => res end.

Definition header_store (atomic : bool) (M : mem) (header val : Z) (optional_mask : option Z) : mem :=
  if num_of_bits self <? 8 then
    let byte_addr := meta_addr header in
    if atomic then (fetch_update_u8 M byte_addr (λ old_val, Some (set_bits_to_u8 old_val val))).2
    else
      let old_byte_val := load_u8 M byte_addr in
      let new_byte_val := set_bits_to_u8 old_byte_val val in
      store_u8 M byte_addr new_byte_val
  else
    let addr := meta_addr header in
    if atomic then
      match optional_mask with
      | Some mask =>
        (fetch_update_bytes n M addr (λ old_val, Some (Z.lor (Z.land old_val (mask_inv mask)) (Z.land val mask)))).2
      | None => store_bytes n M addr val
      end
    else
      let val :=
        match optional_mask with
        | Some mask =>
          let old_val := load_bytes n M addr in
          Z.lor (Z.land old_val (mask_inv mask)) (Z.land val mask)
        | None => val
        end in
      store_bytes n M addr val.

(** [others]: what other threads do between the load and the compare-and-swap. *)
Definition header_compare_exchange (others : mem → mem) (M : mem) (header old_metadata new_metadata : Z)
    (optional_mask : option Z) : result Z Z * mem :=
  if num_of_bits self <? 8 then
    let byte_addr := meta_addr header in
    let real_old_byte := load_u8 M byte_addr in
    let expected_old_byte := set_bits_to_u8 real_old_byte old_metadata in
    let expected_new_byte := set_bits_to_u8 expected_old_byte new_metadata in
    cas_u8 (others M) byte_addr expected_old_byte expected_new_byte
  else
    let addr := meta_addr header in
    let '(old_metadata, new_metadata) :=
      match optional_mask with
      | Some mask =>
        let old_byte := load_bytes n M addr in
        let expected_new_byte := Z.lor (Z.land old_byte (mask_inv mask)) new_metadata in
        let expected_old_byte := Z.lor (Z.land old_byte (mask_inv mask)) old_metadata in
        (expected_old_byte, expected_new_byte)
      | None => (old_metadata, new_metadata)
      end in
    cas_bytes n (others M) addr old_metadata new_metadata.

Definition header_fetch_ops_on_bits (M : mem) (header : Z) (update : Z → Z) : Z * mem :=
  let byte_addr := meta_addr header in
  let '(_, M') := fetch_update_u8 M byte_addr (λ raw_byte,
    let old_metadata := get_bits_from_u8 raw_byte in
    let new_metadata := truncate_bits_in_u8 (update old_metadata) in
    let new_byte := set_bits_to_u8 raw_byte new_metadata in
    Some new_byte) in
  (get_bits_from_u8 (load_u8 M byte_addr), M').

Definition header_fetch_add (M : mem) (header val : Z) : Z * mem :=
  if num_of_bits self <? 8 then header_fetch_ops_on_bits M header (λ x, uwrap 8 (x + val))
  else fetch_op_bytes n M (meta_addr header) (λ x, uwrap (8 * Z.of_nat n) (x + val)).

Definition header_fetch_sub (M : mem) (header val : Z) : Z * mem :=
  if num_of_bits self <? 8 then header_fetch_ops_on_bits M header (λ x, uwrap 8 (x - val))
  else fetch_op_bytes n M (meta_addr header) (λ x, uwrap (8 * Z.of_nat n) (x - val)).

Definition header_fetch_and (M : mem) (header val : Z) : Z * mem :=
  if num_of_bits self <? 8 then
    let '(lshift, mask) := get_shift_and_mask_for_bits in
    let new_val := Z.lor (ushl 8 val lshift) (unot 8 mask) in
    let old_raw_byte := load_u8 M (meta_addr header) in
    (get_bits_from_u8 old_raw_byte, store_u8 M (meta_addr header) (Z.land old_raw_byte new_val))
  else fetch_op_bytes n M (meta_addr header) (λ x, Z.land x val).

Definition header_fetch_or (M : mem) (header val : Z) : Z * mem :=
  if num_of_bits self <? 8 then
    let '(lshift, mask) := get_shift_and_mask_for_bits in
    let new_val := Z.land (ushl 8 val lshift) mask in
    let old_raw_byte := load_u8 M (meta_addr header) in
    (get_bits_from_u8 old_raw_byte, store_u8 M (meta_addr header) (Z.lor old_raw_byte new_val))
  else fetch_op_bytes n M (meta_addr header) (λ x, Z.lor x val).

Definition header_fetch_update (M : mem) (header : Z) (f : Z → option Z) : result Z Z * mem :=
  if num_of_bits self <? 8 then
    let byte_addr := meta_addr header in
    let '(r, M) := fetch_update_u8 M byte_addr (λ raw_byte,
      let old_metadata := get_bits_from_u8 raw_byte in
      (λ new_val, set_bits_to_u8 raw_byte (truncate_bits_in_u8 new_val)) <$> f old_metadata) in
    (result_map get_bits_from_u8 get_bits_from_u8 r, M)
  else fetch_update_bytes n M (meta_addr header) f.
End spec.

(** ** Fields of memory *)

(** The value of the [w] bits of memory from position [lo] on. *)
Fixpoint field (w : nat) (M : mem) (lo : Z) : Z :=
  match w with O => 0 | S w => Z.b2z (membit M lo) + 2 * field w M (lo + 1) end.

Lemma testbit_field w M lo i : 0 ≤ i → Z.testbit (field w M lo) i = (i <? Z.of_nat w) && membit M (lo + i).
Proof.
  revert lo i. induction w as [|w IH]; intros lo i Hi; cbn [field].
  { rewrite Z.bits_0. destruct (Z.ltb_spec i (Z.of_nat 0)); [lia|done]. }
  rewrite Z.add_comm. destruct (decide (i = 0)) as [->|].
  - rewrite Z.testbit_0_r, Z.add_0_r. destruct (Z.ltb_spec 0 (Z.of_nat (S w))); [done|lia].
  - replace i with (Z.succ (i - 1)) at 1 by lia. rewrite Z.testbit_succ_r, IH by lia.
    replace (lo + 1 + (i - 1)) with (lo + i) by lia. f_equal.
    destruct (Z.ltb_spec (i - 1) (Z.of_nat w)), (Z.ltb_spec i (Z.of_nat (S w))); lia || done.
Qed.

(** [M'] is [M] with the [w] bits from [lo] on replaced by those of [v]. *)
Definition sets_field (M M' : mem) (lo w v : Z) : Prop :=
  mem_ok M' ∧ ∀ j, membit M' j =
    if (lo <=? j) && (j <? lo + w) then Z.testbit v (j - lo) else membit M j.

Lemma sets_field_bytes n M a v : mem_ok M → sets_field M (store_bytes n M a v) (8 * a) (8 * Z.of_nat n) v.
Proof. intros HM. split; [auto|]. intros j. by rewrite membit_store_bytes. Qed.

Lemma load_bytes_field n M a : mem_ok M → load_bytes n M a = field (8 * n) M (8 * a).
Proof.
  intros HM. apply Z.bits_inj'. intros i Hi. rewrite testbit_load_bytes, testbit_field by done.
  by replace (Z.of_nat (8 * n)) with (8 * Z.of_nat n) by lia.
Qed.

Lemma sets_field_ext M M' lo w v v' :
  (∀ i, 0 ≤ i < w → Z.testbit v i = Z.testbit v' i) → sets_field M M' lo w v → sets_field M M' lo w v'.
Proof.
  intros E [HM' Hb]. split; [done|]. intros j. rewrite Hb.
  destruct (Z.leb_spec lo j), (Z.ltb_spec j (lo + w)); simpl; try done. apply E. lia.
Qed.

(** A spec and the type it is accessed with: a field within a byte, or one of the
    width of the type at a whole byte; the header and the field lie in the lower half
    of the address space. *)
Record header_ok (s : HeaderMetadataSpec) (n : nat) (header : Z) : Prop := {
  ho_bits : 1 ≤ num_of_bits s;
  ho_small : num_of_bits s < 8 → bit_offset s `mod` 8 + num_of_bits s ≤ 8;
  ho_large : 8 ≤ num_of_bits s → bit_offset s `mod` 8 = 0 ∧ num_of_bits s = 8 * Z.of_nat n;
  ho_header : 0 ≤ header < 2 ^ 63;
  ho_field : 0 ≤ header + bit_offset s `div` 8 < 2 ^ 63
}.

Section header.
Context (s : HeaderMetadataSpec) (n : nat) (header : Z) (Hh : header_ok s n header).
Abbreviation w := (num_of_bits s).
Abbreviation lo := (8 * header + bit_offset s).
Abbreviation sh := (bit_offset s `mod` 8).

Lemma meta_addr_eq : meta_addr s header = header + bit_offset s `div` 8 ∧ lo = 8 * (header + bit_offset s `div` 8) + sh ∧ 0 ≤ sh < 8.
Proof.
  destruct Hh. unfold meta_addr, byte_offset, addr_add_offset. change LOG_BITS_IN_BYTE with 3.
  rewrite shiftr_div by lia. change (2 ^ 3) with 8. pose proof (divmod8 (bit_offset s)).
  assert (∀ x, 0 ≤ x < 2 ^ 63 → isize x = x) as Hi by (intros x Hx; unfold isize; rewrite Z.mod_small; lia).
  rewrite !Hi by (try rewrite Hi; done). rewrite uwrap_id by lia. lia.
Qed.

Lemma shift_mask_eq : w < 8 → get_shift_and_mask_for_bits s = (sh, ushl 8 (Z.ones w) sh).
Proof.
  intros Hw. destruct Hh. unfold get_shift_and_mask_for_bits, byte_offset. change LOG_BITS_IN_BYTE with 3.
  rewrite shiftr_div, Z.shiftl_mul_pow2 by lia. change (2 ^ 3) with 8. pose proof (divmod8 (bit_offset s)).
  replace (bit_offset s - bit_offset s `div` 8 * 8) with sh by lia. do 2 f_equal.
  assert (2 ^ w < 2 ^ 8) by (apply Z.pow_lt_mono_r; lia). assert (0 < 2 ^ w) by (apply Z.pow_pos_nonneg; lia).
  rewrite ushl_id, Z.mul_1_l, uwrap_id by lia. rewrite Z.ones_equiv. lia.
Qed.

Lemma get_bits_field M : w < 8 → mem_ok M → get_bits_from_u8 s (M (meta_addr s header)) = field (Z.to_nat w) M lo.
Proof.
  intros Hw HM. destruct meta_addr_eq as (-> & El & Hsh). unfold get_bits_from_u8. rewrite shift_mask_eq by done.
  pose proof (ho_small _ _ _ Hh Hw). pose proof (ho_bits _ _ _ Hh). apply Z.bits_inj'. intros i Hi.
  rewrite testbit_field, Z2Nat.id, El, Z.shiftr_spec, Z.land_spec, testbit_mask by lia.
  destruct (Z.ltb_spec i w); simpl.
  - rewrite <-Z.add_assoc, membit_at by lia. rewrite (Z.add_comm i sh). bits_case. by rewrite andb_true_r.
  - bits_case; by rewrite andb_false_r.
Qed.

Lemma set_byte_field M y v :
  w < 8 → mem_ok M → is_u 8 y →
  (∀ j, 0 ≤ j < 8 → Z.testbit y j =
     if (sh <=? j) && (j <? sh + w) then Z.testbit v (j - sh) else Z.testbit (M (meta_addr s header)) j) →
  sets_field M (store_u8 M (meta_addr s header) y) lo w v.
Proof.
  intros Hw HM Hy Hbits. destruct meta_addr_eq as (Ea & El & Hsh). split; [auto|]. intros j.
  pose proof (ho_small _ _ _ Hh Hw). rewrite membit_store_u8, El. rewrite Ea in *.
  set (x := header + bit_offset s `div` 8) in *. pose proof (divmod8 j) as [Ej Hj].
  destruct (Z.eqb_spec (j `div` 8) x) as [Ex|Ex].
  - rewrite Hbits by lia. unfold membit. rewrite Ex.
    destruct (Z.leb_spec sh (j `mod` 8)), (Z.leb_spec (8 * x + sh) j); simpl; try lia; try done.
    destruct (Z.ltb_spec (j `mod` 8) (sh + w)), (Z.ltb_spec j (8 * x + sh + w)); try lia; [|done]. f_equal. lia.
  - destruct (Z.leb_spec (8 * x + sh) j), (Z.ltb_spec j (8 * x + sh + w)); simpl; lia || done.
Qed.

Lemma is_u8_set_bits x v : is_u 8 x → is_u 8 (set_bits_to_u8 s x v).
Proof. intros. unfold set_bits_to_u8. destruct (get_shift_and_mask_for_bits s). auto. Qed.

Lemma testbit_set_bits x v j :
  w < 8 → is_u w v → 0 ≤ j < 8 →
  Z.testbit (set_bits_to_u8 s x v) j = if (sh <=? j) && (j <? sh + w) then Z.testbit v (j - sh) else Z.testbit x j.
Proof.
  intros Hw Hv Hj. unfold set_bits_to_u8. rewrite shift_mask_eq by done. destruct meta_addr_eq as (_ & _ & Hsh).
  pose proof (ho_small _ _ _ Hh Hw). pose proof (ho_bits _ _ _ Hh).
  rewrite Z.lor_spec, Z.land_spec, testbit_unot8, testbit_mask, testbit_ushl8 by lia.
  destruct (Z.ltb_spec j 8); [|lia]. destruct (Z.leb_spec sh j); simpl; [|by rewrite andb_true_r, orb_false_r].
  destruct (Z.ltb_spec j (sh + w)); simpl; [by rewrite andb_false_r|].
  rewrite (testbit_small w v) by (done || lia). by rewrite andb_true_r, orb_false_r.
Qed.

Lemma set_bits_field M v :
  w < 8 → mem_ok M → is_u w v →
  sets_field M (store_u8 M (meta_addr s header) (set_bits_to_u8 s (M (meta_addr s header)) v)) lo w v.
Proof.
  intros Hw HM Hv. apply set_byte_field; [done|done|apply is_u8_set_bits, HM|]. intros j Hj. by apply testbit_set_bits.
Qed.

Lemma truncate_eq v : w < 8 → truncate_bits_in_u8 s v = uwrap w v.
Proof.
  intros Hw. pose proof (ho_bits _ _ _ Hh). unfold truncate_bits_in_u8.
  assert (2 ^ w < 2 ^ 8) by (apply Z.pow_lt_mono_r; lia). assert (0 < 2 ^ w) by (apply Z.pow_pos_nonneg; lia).
  rewrite ushl_id, Z.mul_1_l, uwrap_id by lia. replace (2 ^ w - 1) with (Z.ones w) by (rewrite Z.ones_equiv; lia).
  apply Z.land_ones. lia.
Qed.

(** The two widths of access at once. *)
Lemma wide_addr : 8 ≤ w → 8 * meta_addr s header = lo ∧ w = 8 * Z.of_nat n ∧ Z.to_nat w = (8 * n)%nat.
Proof. intros Hw. destruct meta_addr_eq as (-> & El & _). destruct (ho_large _ _ _ Hh Hw). lia. Qed.

Lemma header_load_field M : mem_ok M → header_load s n M header None = field (Z.to_nat w) M lo.
Proof.
  intros HM. unfold header_load, load_u8. destruct (Z.ltb_spec w 8).
  - by apply get_bits_field.
  - destruct wide_addr as (<- & _ & ->); [done|]. by apply load_bytes_field.
Qed.

Lemma uwrap_narrow v : w < 8 → uwrap w (uwrap 8 v) = uwrap w v.
Proof.
  intros Hw. pose proof (ho_bits _ _ _ Hh). apply Z.bits_inj'. intros i Hi. rewrite !testbit_uwrap by lia.
  destruct (Z.ltb_spec i w); [|done]. destruct (Z.ltb_spec i 8); [done|lia].
Qed.

Lemma is_u_uwrap_w v : is_u w (uwrap w v).
Proof. apply uwrap_range. pose proof (ho_bits _ _ _ Hh). lia. Qed.

(** A read-modify-write with a modification that depends on the field alone. *)
Lemma fetch_ops_field M f :
  w < 8 → mem_ok M →
  let old := field (Z.to_nat w) M lo in
  let r := header_fetch_ops_on_bits s M header f in
  r.1 = old ∧ sets_field M r.2 lo w (uwrap w (f old)).
Proof.
  intros Hw HM. unfold header_fetch_ops_on_bits, fetch_update_u8, load_u8. simpl.
  rewrite get_bits_field by done. split; [done|]. rewrite truncate_eq by done.
  apply set_bits_field; [done|done|apply is_u_uwrap_w].
Qed.

Lemma fetch_bytes_field M f :
  8 ≤ w → mem_ok M →
  let old := field (Z.to_nat w) M lo in
  let r := fetch_op_bytes n M (meta_addr s header) f in
  r.1 = old ∧ sets_field M r.2 lo w (f old).
Proof.
  intros Hw HM. destruct wide_addr as (<- & Ew & ->); [done|]. unfold fetch_op_bytes. cbv zeta. cbn [fst snd].
  rewrite <-load_bytes_field by done. split; [done|]. rewrite Ew. by apply sets_field_bytes.
Qed.

Lemma header_store_field M atomic v :
  mem_ok M → is_u w v → sets_field M (header_store s n atomic M header v None) lo w v.
Proof.
  intros HM Hv. unfold header_store, fetch_update_u8, load_u8. destruct (Z.ltb_spec w 8).
  - destruct atomic; by apply set_bits_field.
  - destruct wide_addr as (<- & -> & _); [done|]. destruct atomic; by apply sets_field_bytes.
Qed.

(** Fetch-and and fetch-or on the byte of a narrow field. *)
Lemma narrow_and_or M v (or : bool) :
  w < 8 → mem_ok M → is_u w v →
  let old := field (Z.to_nat w) M lo in
  let r := (if or then header_fetch_or s n else header_fetch_and s n) M header v in
  r.1 = old ∧ sets_field M r.2 lo w (if or then Z.lor old v else Z.land old v).
Proof.
  intros Hw HM Hv old r. pose proof (get_bits_field M Hw HM) as Eold. fold old in Eold.
  unfold r, header_fetch_or, header_fetch_and, load_u8. destruct (Z.ltb_spec w 8); [|lia].
  rewrite shift_mask_eq by done. destruct meta_addr_eq as (_ & _ & Hsh).
  pose proof (ho_small _ _ _ Hh Hw). pose proof (ho_bits _ _ _ Hh).
  assert (∀ j, sh ≤ j < sh + w → Z.testbit old (j - sh) = Z.testbit (M (meta_addr s header)) j) as Hold.
  { intros j Hj. unfold old. rewrite testbit_field, Z2Nat.id by lia. destruct (Z.ltb_spec (j - sh) w); [simpl|lia].
    destruct meta_addr_eq as (-> & -> & _). replace (_ + sh + (j - sh)) with (8 * (header + bit_offset s `div` 8) + j) by lia.
    by rewrite membit_at by lia. }
  destruct or; (split; [exact Eold|]); apply set_byte_field; auto; intros j Hj;
    rewrite ?Z.land_spec, ?Z.lor_spec, ?Z.land_spec, ?testbit_unot8, ?testbit_mask, ?testbit_ushl8 by lia;
    (destruct (Z.ltb_spec j 8); [|lia]);
    (destruct (Z.leb_spec sh j); simpl; [|by rewrite ?andb_false_r, ?orb_false_r, ?orb_true_r, ?andb_true_r]);
    (destruct (Z.ltb_spec j (sh + w)); simpl; [|by rewrite ?andb_false_r, ?orb_false_r, ?orb_true_r, ?andb_true_r]);
    rewrite ?Z.land_spec, ?Z.lor_spec, Hold by lia; by rewrite ?andb_true_r, ?orb_false_r.
Qed.
End header.

(** The old value is returned and the field set to [f old]; nothing else changes. *)
Definition rmw (s : HeaderMetadataSpec) (header : Z) (M : mem) (r : Z * mem) (f : Z → Z) : Prop :=
  let lo := 8 * header + bit_offset s in
  let old := field (Z.to_nat (num_of_bits s)) M lo in
  r.1 = old ∧ sets_field M r.2 lo (num_of_bits s) (f old).

(** C28: loads and stores of a header field, plain or atomic, read and write exactly
    its bits; the fetch operations return the old value of the field and set it to
    the new one, at the width of the field. *)
Theorem header_field_ops (s : HeaderMetadataSpec) (n : nat) (header : Z) (M : mem) (atomic : bool) (v : Z) :
  header_ok s n header → mem_ok M → is_u (num_of_bits s) v →
  let w := num_of_bits s in let lo := 8 * header + bit_offset s in
  header_load s n M header None = field (Z.to_nat w) M lo ∧
  sets_field M (header_store s n atomic M header v None) lo w v ∧
  header_load s n (header_store s n atomic M header v None) header None = v ∧
  rmw s header M (header_fetch_add s n M header v) (λ x, uwrap w (x + v)) ∧
  rmw s header M (header_fetch_sub s n M header v) (λ x, uwrap w (x - v)) ∧
  rmw s header M (header_fetch_and s n M header v) (λ x, Z.land x v) ∧
  rmw s header M (header_fetch_or s n M header v) (λ x, Z.lor x v).
Proof.
  intros Hh HM Hv w lo. pose proof (ho_bits _ _ _ Hh).
  pose proof (header_store_field s n header Hh M atomic v HM Hv) as Hst.
  split; [by apply header_load_field|]. split; [done|]. split.
  { destruct Hst as [HM' Hb]. rewrite (header_load_field s n header Hh) by done. apply Z.bits_inj'. intros i Hi.
    rewrite testbit_field, Z2Nat.id, Hb by lia. fold w lo. destruct (Z.ltb_spec i w); simpl.
    - destruct (Z.leb_spec lo (lo + i)), (Z.ltb_spec (lo + i) (lo + w)); try lia. simpl. f_equal. lia.
    - symmetry. by apply (testbit_small w). }
  unfold rmw, header_fetch_add, header_fetch_sub. fold w lo. destruct (decide (w < 8)) as [Hw|Hw].
  - pose proof (narrow_and_or s n header Hh M v false Hw HM Hv) as Hand.
    pose proof (narrow_and_or s n header Hh M v true Hw HM Hv) as Hor. cbv iota in Hand, Hor.
    destruct (Z.ltb_spec w 8); [|lia].
    pose proof (fetch_ops_field s n header Hh M (λ x, uwrap 8 (x + v)) Hw HM) as [Ha1 Ha2].
    pose proof (fetch_ops_field s n header Hh M (λ x, uwrap 8 (x - v)) Hw HM) as [Hb1 Hb2].
    cbv beta in Ha2, Hb2. rewrite (uwrap_narrow s n header Hh) in Ha2, Hb2 by done. done.
  - unfold header_fetch_and, header_fetch_or. fold w. destruct (Z.ltb_spec w 8); [lia|].
    destruct (wide_addr s n header Hh ltac:(unfold w in *; lia)) as (_ & Ew & _). fold w in Ew. rewrite <-Ew.
    split_and!; apply fetch_bytes_field; (done || unfold w in *; lia).
Qed.

(** Two bits from bit 2 of the header on, as the forwarding bits of a binding. *)
Definition sample_bits : HeaderMetadataSpec := {| bit_offset := 2; num_of_bits := 2 |}.
Definition sample_header_mem : mem := store_u8 (λ _, 0) 0x1000 0xf4.
Lemma sample_header_ok : header_ok sample_bits 1 0x1000.
Proof. split; simpl; lia || done. Qed.
Lemma sample_header_mem_ok : mem_ok sample_header_mem.
Proof. apply mem_ok_store_u8; [by intros a|by vm_compute]. Qed.

Lemma header_field_ops_witness :
  header_load sample_bits 1 sample_header_mem 0x1000 None = 1 ∧
  header_load sample_bits 1 (header_store sample_bits 1 true sample_header_mem 0x1000 3 None) 0x1000 None = 3 ∧
  rmw sample_bits 0x1000 sample_header_mem (header_fetch_add sample_bits 1 sample_header_mem 0x1000 3) (λ x, uwrap 2 (x + 3)).
Proof.
  destruct (header_field_ops sample_bits 1 0x1000 sample_header_mem true 3 sample_header_ok sample_header_mem_ok)
    as (E1 & _ & E2 & E3 & _); [by vm_compute|]. exact (conj E1 (conj E2 E3)).
Defined.

(** Without interference, a compare-and-exchange on a field of less than a byte
    succeeds exactly when the field has the expected value, and then sets it; but in
    both cases what it returns is the whole byte that holds the field, which is the
    value of the field only if the field starts the byte and the rest of it is zero. *)
Theorem header_compare_exchange_raw (s : HeaderMetadataSpec) (n : nat) (header : Z) (M : mem) (old new : Z) :
  header_ok s n header → mem_ok M → num_of_bits s < 8 → is_u (num_of_bits s) old → is_u (num_of_bits s) new →
  let w := num_of_bits s in let lo := 8 * header + bit_offset s in
  let byte := M (meta_addr s header) in
  let r := header_compare_exchange s n id M header old new None in
  if field (Z.to_nat w) M lo =? old
  then r.1 = Ok byte ∧ sets_field M r.2 lo w new
  else r.1 = Err byte ∧ r.2 = M.
Proof.
  intros Hh HM Hw Ho Hn w lo byte r. pose proof (ho_bits _ _ _ Hh). pose proof (ho_small _ _ _ Hh Hw).
  destruct (meta_addr_eq s n header Hh) as (Ea & El & Hsh).
  assert (set_bits_to_u8 s byte old = byte ↔ field (Z.to_nat w) M lo = old) as Hiff.
  { assert (∀ j, bit_offset s `mod` 8 ≤ j < bit_offset s `mod` 8 + w →
      Z.testbit (field (Z.to_nat w) M lo) (j - bit_offset s `mod` 8) = Z.testbit byte j) as Hold.
    { intros j Hj. rewrite testbit_field, Z2Nat.id by lia. destruct (Z.ltb_spec (j - bit_offset s `mod` 8) w); [simpl|lia].
      unfold lo, byte. rewrite Ea, El. replace (_ + _ `mod` 8 + (j - _)) with (8 * (header + bit_offset s `div` 8) + j) by lia.
      by rewrite membit_at by (unfold w in *; lia). }
    split.
    - intros E. apply Z.bits_inj'. intros i Hi. destruct (decide (i < w)).
      + replace i with (i + bit_offset s `mod` 8 - bit_offset s `mod` 8) by lia. rewrite Hold by lia. rewrite <-E.
        rewrite (testbit_set_bits s n header Hh) by (unfold w in *; done || lia).
        unfold w in *. bits_case; done.
      + rewrite testbit_field by done. rewrite (testbit_small w old) by (done || lia). bits_case; done.
    - intros E. apply Z.bits_inj'. intros j Hj. destruct (decide (j < 8)).
      + rewrite (testbit_set_bits s n header Hh) by (done || lia). bits_case; try done. simpl. rewrite <-E. apply Hold. unfold w; lia.
      + rewrite !(testbit_small 8); [done|apply HM|lia|apply is_u8_set_bits, HM|lia]. }
  unfold r, header_compare_exchange, cas_u8, load_u8. destruct (Z.ltb_spec (num_of_bits s) 8); [|lia].
  unfold id. fold byte. destruct (Z.eqb_spec byte (set_bits_to_u8 s byte old)) as [E|E];
    destruct (Z.eqb_spec (field (Z.to_nat w) M lo) old) as [E'|E']; simpl; try (split; done).
  - split; [done|]. rewrite <-E. by apply (set_bits_field s n header Hh).
  - destruct E'. apply Hiff. done.
  - destruct E. symmetry. by apply Hiff.
Qed.

Lemma header_compare_exchange_raw_witness :
  let r := header_compare_exchange sample_bits 1 id sample_header_mem 0x1000 1 2 None in
  r.1 = Ok 0xf4 ∧ sets_field sample_header_mem r.2 (8 * 0x1000 + 2) 2 2.
Proof.
  apply (header_compare_exchange_raw sample_bits 1 0x1000 sample_header_mem 1 2 sample_header_ok sample_header_mem_ok);
    by vm_compute.
Defined.
