(* ===== verification/ObjectForwarding.v ===== *)
(** * Object forwarding (src/src/util/object_forwarding.rs)

    Several workers reach the same object; one of them copies it, the others wait for
    the new address.  The object's state is two forwarding bits and a forwarding
    pointer, which may share a word.  The functions on that state come first; the
    code of a worker, as [CopySpace::trace_object] puts it together, is a step
    relation in which each atomic access is one step. *)

From stdpp Require Import relations.
From S2P Require Import Prelude Conversions Memory SideMetadata HeaderMetadata.

Definition FORWARDING_NOT_TRIGGERED_YET : Z := 0.
Definition BEING_FORWARDED : Z := 2.
Definition FORWARDED : Z := 3.
Definition FORWARDING_MASK : Z := 3.
Definition FORWARDING_POINTER_MASK : Z := 0x00fffffffffffff8.

Inductive MetadataSpec : Type :=
| InHeader (spec : HeaderMetadataSpec)
| OnSide (spec : SideMetadataSpec).

Definition forwarding_bits_offset_in_forwarding_pointer (pointer_spec bits_spec : MetadataSpec) : option Z :=
  match pointer_spec, bits_spec with
  | InHeader fp, InHeader fb =>
    let maybe_shift := isize (bit_offset fb - bit_offset fp) in
    if (0 <=? maybe_shift) && (maybe_shift <? BITS_IN_WORD) then Some maybe_shift else None
  | _, _ => None
  end.

(** The word of the forwarding pointer, and the forwarding bits when they are not in
    that word. *)
Record object_word : Type := OW { fp_word : Z; fb_field : Z }.

Section object.
(** The shift of the bits in the word, if they are in it. *)
Context (shift : option Z).

Definition get_forwarding_status (o : object_word) : Z :=
  match shift with
  | Some sh => Z.land (Z.shiftr (fp_word o) sh) FORWARDING_MASK
  | None => fb_field o
  end.
Definition set_forwarding_status (o : object_word) (v : Z) : object_word :=
  match shift with
  | Some sh => OW (Z.lor (Z.ldiff (fp_word o) (Z.shiftl FORWARDING_MASK sh)) (Z.shiftl v sh)) (fb_field o)
  | None => OW (fp_word o) v
  end.

Definition is_forwarded (o : object_word) : bool := get_forwarding_status o =? FORWARDED.
Definition is_being_forwarded (o : object_word) : bool := get_forwarding_status o =? BEING_FORWARDED.
Definition is_forwarded_or_being_forwarded (o : object_word) : bool :=
  negb (get_forwarding_status o =? FORWARDING_NOT_TRIGGERED_YET).
Definition state_is_forwarded_or_being_forwarded (forwarding_bits : Z) : bool :=
  negb (forwarding_bits =? FORWARDING_NOT_TRIGGERED_YET).
Definition state_is_being_forwarded (forwarding_bits : Z) : bool := forwarding_bits =? BEING_FORWARDED.
Definition clear_forwarding_bits (o : object_word) : object_word := set_forwarding_status o 0.

Definition read_forwarding_pointer (o : object_word) : Z := Z.land (fp_word o) FORWARDING_POINTER_MASK.
Definition write_forwarding_pointer (o : object_word) (new_object : Z) : object_word :=
  OW (Z.lor (Z.ldiff (fp_word o) FORWARDING_POINTER_MASK) (Z.land new_object FORWARDING_POINTER_MASK)) (fb_field o).

(** The store of pointer and bits together. *)
Definition store_forwarding_word (sh : Z) (o : object_word) (new_object : Z) : object_word :=
  OW (Z.lor new_object (Z.shiftl FORWARDED sh)) (fb_field o).

(** [forward_object] and [try_forward_object] of a worker that runs alone; [copied]
    is what the object model's copy returned. *)
Definition forward_object (o : object_word) (copied : Z) : Z * object_word :=
  match shift with
  | Some sh => (copied, store_forwarding_word sh o copied)
  | None => (copied, set_forwarding_status (write_forwarding_pointer o copied) FORWARDED)
  end.
Definition try_forward_object (o : object_word) (copied : option Z) : option Z * object_word :=
  match copied with
  | None => (None, o)
  | Some new_object => let '(r, o) := forward_object o new_object in (Some r, o)
  end.

(** ** The code of a worker *)

(** Where a worker is in [trace_object]. *)
Inductive pc : Type :=
| Attempt                        (* in attempt_to_forward, before the load of the bits *)
| AttemptCAS                     (* the bits were NOT_TRIGGERED_YET, before the compare-exchange *)
| Spin (forwarding_bits : Z)     (* in spin_and_get_forwarded_object *)
| ReadPointer                    (* the bits were FORWARDED, before the load of the pointer *)
| Copying                        (* in forward_object, before the copy *)
| Copied (new_object : Z)        (* before the store of the pointer *)
| PointerWritten (new_object : Z)(* before the store of the bits *)
| Enqueue (new_object : Z)       (* forward_object returned *)
| Returned (object : Z).

(** The object, the workers, the workers that copied it, and what was enqueued. *)
Record state : Type := State {
  st_object : object_word;
  st_workers : list pc;
  st_copies : list nat;
  st_queue : list Z
}.

Context (object : Z) (copy : nat → Z).

(** One access of worker [i]; the compare-exchange may fail although the bits are the
    expected ones. *)
Inductive worker_step (i : nat) : pc → object_word → pc → object_word → list nat → list Z → Prop :=
| attempt_load o :
  worker_step i Attempt o
    (if state_is_forwarded_or_being_forwarded (get_forwarding_status o)
     then Spin (get_forwarding_status o) else AttemptCAS) o [] []
| attempt_cas_ok o :
  get_forwarding_status o = FORWARDING_NOT_TRIGGERED_YET →
  worker_step i AttemptCAS o Copying (set_forwarding_status o BEING_FORWARDED) [] []
| attempt_cas_fail o : worker_step i AttemptCAS o Attempt o [] []
| spin_again o : worker_step i (Spin BEING_FORWARDED) o (Spin (get_forwarding_status o)) o [] []
| spin_done o bits :
  bits ≠ BEING_FORWARDED →
  worker_step i (Spin bits) o (if bits =? FORWARDED then ReadPointer else Returned object) o [] []
| read_pointer o : worker_step i ReadPointer o (Returned (read_forwarding_pointer o)) o [] []
| do_copy o : worker_step i Copying o (Copied (copy i)) o [i] []
| store_word o new sh :
  shift = Some sh → worker_step i (Copied new) o (Enqueue new) (store_forwarding_word sh o new) [] []
| store_pointer o new :
  shift = None → worker_step i (Copied new) o (PointerWritten new) (write_forwarding_pointer o new) [] []
| store_bits o new :
  worker_step i (PointerWritten new) o (Enqueue new) (set_forwarding_status o FORWARDED) [] []
| enqueue o new : worker_step i (Enqueue new) o (Returned new) o [] [new].

Inductive step : state → state → Prop :=
| step_worker i st p p' o' copies queue :
  st_workers st !! i = Some p →
  worker_step i p (st_object st) p' o' copies queue →
  step st (State o' (<[i := p']> (st_workers st)) (copies ++ st_copies st) (queue ++ st_queue st)).
End object.

(** ** Theorems *)

#[local] Open Scope Z_scope.

Section forwarding.
Context (shift : option Z) (object : Z) (copy : nat → Z).

(** The bits are outside the pointer, and copies are at addresses the pointer holds. *)
Definition shift_ok : Prop :=
  match shift with Some sh => 0 ≤ sh ∧ Z.land (Z.shiftl 3 sh) FORWARDING_POINTER_MASK = 0 | None => True end.
Definition copy_ok : Prop := ∀ i, Z.land (copy i) FORWARDING_POINTER_MASK = copy i.
Context (Hsh : shift_ok) (Hcopy : copy_ok).

Abbreviation status := (get_forwarding_status shift).
Abbreviation step := (ObjectForwarding.step shift object copy).

(** ** The word *)

Lemma status_set o v : 0 ≤ v < 4 → status (set_forwarding_status shift o v) = v.
Proof.
  intros Hv. unfold get_forwarding_status, set_forwarding_status, shift_ok in *. destruct shift as [sh|]; [|done].
  destruct Hsh as [Hs _]. cbn [fp_word]. change FORWARDING_MASK with (Z.ones 2). apply Z.bits_inj'. intros i Hi.
  rewrite Z.land_spec, Z.shiftr_spec, Z.lor_spec, Z.ldiff_spec, !testbit_shiftl, !Z.testbit_ones_nonneg by lia.
  replace (i + sh - sh) with i by lia. destruct (Z.leb_spec sh (i + sh)); [|lia]. simpl.
  destruct (Z.ltb_spec i 2); simpl.
  - by rewrite andb_false_r, andb_true_r.
  - rewrite andb_false_r. symmetry. apply (testbit_small 2); lia.
Qed.

Lemma status_store_word sh o new : shift = Some sh → status (store_forwarding_word sh o new) = FORWARDED.
Proof.
  intros E. unfold get_forwarding_status, store_forwarding_word, shift_ok in *. rewrite E in *. destruct Hsh as [Hs _].
  cbn [fp_word]. change FORWARDING_MASK with (Z.ones 2). change FORWARDED with (Z.ones 2). apply Z.bits_inj'. intros i Hi.
  rewrite Z.land_spec, Z.shiftr_spec, Z.lor_spec, testbit_shiftl, !Z.testbit_ones_nonneg by lia.
  replace (i + sh - sh) with i by lia. destruct (Z.leb_spec sh (i + sh)); [|lia].
  destruct (Z.ltb_spec i 2); simpl; by rewrite ?orb_true_r, ?andb_false_r.
Qed.

Lemma pointer_store_word sh o i :
  shift = Some sh → read_forwarding_pointer (store_forwarding_word sh o (copy i)) = copy i.
Proof.
  intros E. unfold read_forwarding_pointer, store_forwarding_word, shift_ok in *. rewrite E in *. destruct Hsh as [_ Hm].
  cbn [fp_word]. change FORWARDED with 3. by rewrite Z.land_lor_distr_l, Hm, Z.lor_0_r, Hcopy.
Qed.

Lemma pointer_write o i : read_forwarding_pointer (write_forwarding_pointer o (copy i)) = copy i.
Proof.
  unfold read_forwarding_pointer, write_forwarding_pointer. cbn [fp_word].
  rewrite Z.land_lor_distr_l. rewrite Hcopy, Hcopy. replace (Z.land (Z.ldiff _ _) _) with 0; [done|].
  symmetry. apply Z.bits_inj'. intros j Hj. rewrite Z.land_spec, Z.ldiff_spec, Z.bits_0.
  by destruct (Z.testbit (fp_word o) j), (Z.testbit FORWARDING_POINTER_MASK j).
Qed.

(** ** The invariant *)

Definition waiting (p : pc) : Prop := p = Attempt ∨ p = AttemptCAS ∨ p = Spin BEING_FORWARDED.
Definition finishing (new : Z) (p : pc) : Prop :=
  waiting p ∨ p = Spin FORWARDED ∨ p = ReadPointer ∨ p = Returned new.

(** The winner [w] while it copies, with the pointer and the copies made so far. *)
Inductive copying (w : nat) (o : object_word) : pc → list nat → Prop :=
| copying_before : copying w o Copying []
| copying_after : copying w o (Copied (copy w)) [w]
| copying_pointer :
  shift = None → read_forwarding_pointer o = copy w → copying w o (PointerWritten (copy w)) [w].

Inductive winner_done (w : nat) : pc → list Z → Prop :=
| winner_enqueue : winner_done w (Enqueue (copy w)) []
| winner_returned : winner_done w (Returned (copy w)) [copy w].

Inductive phase (st : state) : Prop :=
| Untouched :
  status (st_object st) = FORWARDING_NOT_TRIGGERED_YET →
  (∀ i p, st_workers st !! i = Some p → p = Attempt ∨ p = AttemptCAS) →
  st_copies st = [] → st_queue st = [] → phase st
| InCopy w p :
  status (st_object st) = BEING_FORWARDED → st_workers st !! w = Some p →
  copying w (st_object st) p (st_copies st) → st_queue st = [] →
  (∀ i q, i ≠ w → st_workers st !! i = Some q → waiting q) → phase st
| Complete w p :
  status (st_object st) = FORWARDED → read_forwarding_pointer (st_object st) = copy w →
  st_workers st !! w = Some p → winner_done w p (st_queue st) → st_copies st = [w] →
  (∀ i q, i ≠ w → st_workers st !! i = Some q → finishing (copy w) q) → phase st.

(** The other workers, when worker [i] moves. *)
Lemma others_insert (P : pc → Prop) (l : list pc) i w p' :
  (i ≠ w → P p') → (∀ j q, j ≠ w → l !! j = Some q → P q) →
  ∀ j q, j ≠ w → <[i := p']> l !! j = Some q → P q.
Proof.
  intros Hp Hl j q Hj Hq. destruct (decide (j = i)) as [->|Hne].
  - apply list_lookup_insert_Some in Hq as [(_ & <- & _)|(? & _)]; [auto|done].
  - rewrite list_lookup_insert_ne in Hq by done. eauto.
Qed.

Lemma all_insert (P : pc → Prop) (l : list pc) i p' :
  P p' → (∀ j q, l !! j = Some q → P q) → ∀ j q, <[i := p']> l !! j = Some q → P q.
Proof. intros Hp Hl j q [(_ & <- & _)|(_ & ?)]%list_lookup_insert_Some; eauto. Qed.

Lemma waiting_finishing new p : waiting p → finishing new p.
Proof. by left. Qed.

(** A step of a worker that is not the winner leaves the object as it is. *)
Lemma waiting_step i p o p' o' cs qs :
  worker_step shift object copy i p o p' o' cs qs → waiting p → status o = BEING_FORWARDED →
  o' = o ∧ cs = [] ∧ qs = [] ∧ waiting p'.
Proof.
  unfold waiting. intros Hstep Hp Hs.
  destruct Hstep; try (by destruct Hp as [?|[?|?]]); split_and!; try done; rewrite ?Hs in *; try done; auto.
  all: destruct Hp as [?|[?|[= ->]]]; done.
Qed.

Lemma finishing_step i p o p' o' cs qs new :
  worker_step shift object copy i p o p' o' cs qs → finishing new p → status o = FORWARDED →
  read_forwarding_pointer o = new → o' = o ∧ cs = [] ∧ qs = [] ∧ finishing new p'.
Proof.
  unfold finishing, waiting. intros Hstep Hp Hs Hr.
  destruct Hstep; try (by destruct Hp as [[?|[?|?]]|[?|[?|?]]]); split_and!; try done; rewrite ?Hs in *; try done; auto.
  - destruct Hp as [[?|[?|[= ->]]]|[[= ->]|[?|?]]]; try done. auto.
  - rewrite Hr. auto.
Qed.

Lemma phase_step st st' : step st st' → phase st → phase st'.
Proof.
  destruct 1 as [i st p p' o' cs qs Hi Hstep]. pose proof (lookup_lt_Some _ _ _ Hi) as Hlt.
  destruct st as [o l copies queue]. simpl in *. intros [Hs Hw Hc Hq|w pw Hs Hw Hcp Hq Ho|w pw Hs Hr Hw Hd Hc Ho]; simpl in *.
  - destruct (Hw i p Hi) as [-> | ->]; inversion Hstep; subst; clear Hstep; try done.
    + rewrite Hs. apply Untouched; simpl; try done. apply all_insert; auto.
    + eapply (InCopy _ i Copying); simpl; try done.
      * apply status_set. by vm_compute.
      * by rewrite list_lookup_insert_eq.
      * constructor.
      * apply others_insert; [done|]. intros j q _ Hj. destruct (Hw j q Hj) as [-> | ->]; unfold waiting; auto.
    + apply Untouched; simpl; try done. apply all_insert; auto.
  - destruct (decide (i = w)) as [->|Hne].
    + rewrite Hw in Hi. injection Hi as ->.
      destruct Hcp; inversion Hstep; subst; clear Hstep; rewrite ?app_nil_r.
      * eapply (InCopy _ w); simpl; [done|by rewrite list_lookup_insert_eq|constructor|done|by apply others_insert].
      * eapply (Complete _ w); simpl; [by apply status_store_word|by apply pointer_store_word|
          by rewrite list_lookup_insert_eq|constructor|done|].
        apply others_insert; [done|]. intros j q Hj Hl. eapply waiting_finishing, Ho; done.
      * eapply (InCopy _ w); simpl; [|by rewrite list_lookup_insert_eq|constructor; [done|apply pointer_write]|done|by apply others_insert].
        unfold get_forwarding_status, write_forwarding_pointer in *. destruct shift; done.
      * eapply (Complete _ w); simpl; [apply status_set; by vm_compute| |by rewrite list_lookup_insert_eq|constructor|done|].
        -- unfold set_forwarding_status. destruct shift; [done|]. done.
        -- apply others_insert; [done|]. intros j q Hj Hl. eapply waiting_finishing, Ho; done.
    + destruct (waiting_step _ _ _ _ _ _ _ Hstep (Ho i p Hne Hi) Hs) as (-> & -> & -> & Hp').
      eapply (InCopy _ w pw); simpl; try done; [by rewrite list_lookup_insert_ne|by apply others_insert].
  - destruct (decide (i = w)) as [->|Hne].
    + rewrite Hw in Hi. injection Hi as ->. destruct Hd; inversion Hstep; subst; clear Hstep.
      eapply (Complete _ w); simpl; [done|done|by rewrite list_lookup_insert_eq|constructor|done|by apply others_insert].
    + destruct (finishing_step _ _ _ _ _ _ _ _ Hstep (Ho i p Hne Hi) Hs Hr) as (-> & -> & -> & Hp').
      eapply (Complete _ w pw); simpl; try done; [by rewrite list_lookup_insert_ne|by apply others_insert].
Qed.

(** The object is not forwarded yet, and [n] workers reach it. *)
Definition initial (n : nat) (st : state) : Prop :=
  status (st_object st) = FORWARDING_NOT_TRIGGERED_YET ∧ st_workers st = replicate n Attempt ∧
  st_copies st = [] ∧ st_queue st = [].

Lemma initial_phase n st : initial n st → phase st.
Proof.
  intros (Hs & Hw & Hc & Hq). apply Untouched; try done. rewrite Hw.
  intros i p [-> _]%lookup_replicate. by left.
Qed.

Lemma reachable_phase st0 st : rtc step st0 st → phase st0 → phase st.
Proof. induction 1 as [|st0 st1 st2 Hs _ IH]; [done|]. intros H. apply IH. by eapply phase_step. Qed.

Lemma reachable_length st st' : rtc step st st' → length (st_workers st') = length (st_workers st).
Proof. induction 1 as [|s1 s2 s3 [] _ IH]; [done|]. rewrite IH. simpl. by rewrite length_insert. Qed.

(** ** Progress *)

Abbreviation reaches st Q := (∃ st', rtc step st st' ∧ Q st').

Lemma reaches_step (Q : state → Prop) st i p p' o' cs qs :
  st_workers st !! i = Some p → worker_step shift object copy i p (st_object st) p' o' cs qs →
  reaches (State o' (<[i := p']> (st_workers st)) (cs ++ st_copies st) (qs ++ st_queue st)) Q → reaches st Q.
Proof.
  intros Hi Hs (st' & Hr & HQ). exists st'. split; [|done]. eapply rtc_l; [|done]. by econstructor.
Qed.

Lemma reaches_trans (P Q : state → Prop) st : reaches st P → (∀ st', rtc step st st' → P st' → reaches st' Q) → reaches st Q.
Proof. intros (st1 & H1 & HP) HPQ. destruct (HPQ st1 H1 HP) as (st2 & H2 & HQ). exists st2. split; [by etrans|done]. Qed.

Lemma insert_lookup (l : list pc) i p p' : l !! i = Some p → <[i := p']> l !! i = Some p'.
Proof. intros H%lookup_lt_Some. by apply list_lookup_insert_eq. Qed.

(** Some worker wins. *)
Lemma reaches_being st i p :
  status (st_object st) = FORWARDING_NOT_TRIGGERED_YET → st_workers st !! i = Some p → p = Attempt ∨ p = AttemptCAS →
  reaches st (λ st', status (st_object st') = BEING_FORWARDED).
Proof.
  assert (∀ st, status (st_object st) = FORWARDING_NOT_TRIGGERED_YET → st_workers st !! i = Some AttemptCAS →
    reaches st (λ st', status (st_object st') = BEING_FORWARDED)) as Hcas.
  { intros st1 Hs Hi. eapply reaches_step; [done|by apply attempt_cas_ok|]. eexists. split; [done|].
    apply status_set. by vm_compute. }
  intros Hs Hi [-> | ->]; [|by apply Hcas].
  eapply reaches_step; [done|apply attempt_load|]. rewrite Hs. apply Hcas; [done|]. simpl. by eapply insert_lookup.
Qed.

(** The winner finishes. *)
Lemma reaches_forwarded st w p cs :
  st_workers st !! w = Some p → copying w (st_object st) p cs →
  reaches st (λ st', status (st_object st') = FORWARDED).
Proof.
  intros Hw Hc.
  assert (∀ st new, st_workers st !! w = Some (PointerWritten new) →
    reaches st (λ st', status (st_object st') = FORWARDED)) as Hptr.
  { intros st1 new H1. eapply reaches_step; [done|apply store_bits|]. eexists. split; [done|].
    apply status_set. by vm_compute. }
  assert (∀ st new, st_workers st !! w = Some (Copied new) →
    reaches st (λ st', status (st_object st') = FORWARDED)) as Hcopied.
  { intros st1 new H1. assert ((∃ sh, shift = Some sh) ∨ shift = None) as [[sh E]|E] by (destruct shift; eauto).
    - eapply reaches_step; [done|by apply (store_word _ _ _ _ _ _ sh)|]. eexists. split; [done|].
      by apply status_store_word.
    - eapply reaches_step; [done|by apply store_pointer|]. eapply Hptr. simpl. by eapply insert_lookup. }
  destruct Hc; [|by eapply Hcopied|by eapply Hptr].
  eapply reaches_step; [done|apply do_copy|]. eapply Hcopied. simpl. by eapply insert_lookup.
Qed.

(** Accesses a worker still needs once the object is forwarded. *)
Definition to_go (p : pc) : nat :=
  match p with
  | Returned _ => 0 | ReadPointer | Enqueue _ => 1 | Spin bits => if bits =? FORWARDED then 2 else 3
  | Attempt => 3 | AttemptCAS => 4 | _ => 5
  end.
Definition is_returned (p : pc) : bool := match p with Returned _ => true | _ => false end.

Lemma to_go_insert l i p p' :
  l !! i = Some p → (to_go p' < to_go p)%nat → (sum_list_with to_go (<[i := p']> l) < sum_list_with to_go l)%nat.
Proof.
  revert i. induction l as [|q l IH]; intros [|i]; simpl; try done.
  - intros [= ->] Hlt. lia.
  - intros Hi Hlt. specialize (IH i Hi Hlt). lia.
Qed.

Lemma reaches_all_returned st :
  phase st → status (st_object st) = FORWARDED →
  reaches st (λ st', Forall (λ p, is_returned p = true) (st_workers st')).
Proof.
  remember (sum_list_with to_go (st_workers st)) as k eqn:Ek. revert st Ek.
  induction (lt_wf k) as [k _ IH]. intros st Ek Hph Hs.
  destruct (decide (Forall (λ p, is_returned p = true) (st_workers st))) as [Hall|Hnot]; [by exists st|].
  apply not_Forall_Exists in Hnot; [|intros p; apply _]. apply Exists_exists in Hnot as (p & [i Hi]%list_elem_of_lookup & Hp).
  assert (∃ p' o' cs qs, worker_step shift object copy i p (st_object st) p' o' cs qs ∧
    status o' = FORWARDED ∧ (to_go p' < to_go p)%nat) as (p' & o' & cs & qs & Hstep & Hs' & Hlt).
  { destruct Hph as [Hs1 _|w pw Hs1|w pw _ Hr Hw Hd Hc Ho]; [by rewrite Hs in Hs1..|].
    destruct (decide (i = w)) as [->|Hne].
    - rewrite Hw in Hi. injection Hi as ->. destruct Hd; [|by destruct Hp]. do 4 eexists. split; [apply enqueue|]. simpl. split; [done|lia].
    - destruct (Ho i p Hne Hi) as [[-> | [-> | ->]]|[-> | [-> | ->]]]; [| | | | |by destruct Hp].
      + do 4 eexists. split; [apply attempt_load|]. rewrite Hs. simpl. split; [done|lia].
      + do 4 eexists. split; [apply attempt_cas_fail|]. simpl. split; [done|lia].
      + do 4 eexists. split; [apply spin_again|]. rewrite Hs. simpl. split; [done|lia].
      + do 4 eexists. split; [by apply spin_done|]. simpl. split; [done|lia].
      + do 4 eexists. split; [apply read_pointer|]. simpl. split; [done|lia]. }
  eapply reaches_step; [done..|]. eapply (IH (sum_list_with to_go (<[i := p']> (st_workers st)))); simpl; try done.
  - subst k. by eapply to_go_insert.
  - eapply phase_step; [|done]. by econstructor.
Qed.
End forwarding.

(** C10: whatever steps the workers take from an object that was not forwarded yet,
    at most one of them copies it and the copy is enqueued at most once; a worker
    that has returned, returned the address of that copy, and all of them the same. *)
Theorem one_copy (shift : option Z) (object : Z) (copy : nat → Z) (n : nat) (st0 st : state) :
  shift_ok shift → copy_ok copy → initial shift n st0 → rtc (step shift object copy) st0 st →
  (length (st_copies st) ≤ 1)%nat ∧ (length (st_queue st) ≤ 1)%nat ∧
  ∀ i a, st_workers st !! i = Some (Returned a) →
    ∃ w, st_copies st = [w] ∧ a = copy w ∧ is_forwarded shift (st_object st) = true ∧
      read_forwarding_pointer (st_object st) = a.
Proof.
  intros Hsh Hcopy Hinit Hr.
  pose proof (reachable_phase shift object copy Hsh Hcopy _ _ Hr (initial_phase shift copy n st0 Hinit)) as Hph.
  destruct Hph as [Hs Hw Hc Hq|w p Hs Hw Hcp Hq Ho|w p Hs Hp Hw Hd Hc Ho].
  - rewrite Hc, Hq. simpl. split_and!; [lia..|]. intros i a Hi. by destruct (Hw i _ Hi).
  - rewrite Hq. split_and!; [destruct Hcp; simpl; lia|simpl; lia|]. intros i a Hi.
    destruct (decide (i = w)) as [->|Hne]; [rewrite Hw in Hi; injection Hi as ->; inversion Hcp|].
    by destruct (Ho i _ Hne Hi) as [?|[?|?]].
  - rewrite Hc. split_and!; [simpl; lia|destruct Hd; simpl; lia|]. intros i a Hi.
    assert (a = copy w) as ->.
    { destruct (decide (i = w)) as [->|Hne]; [rewrite Hw in Hi; injection Hi as ->; by inversion Hd|].
      destruct (Ho i _ Hne Hi) as [[?|[?|?]]|[?|[?|[= ->]]]]; done. }
    exists w. split_and!; try done. unfold is_forwarded. by rewrite Hs.
Qed.

(** A word whose bits are in its top byte; two workers, of which one finished. *)
Definition sample_shift : option Z := Some 56.
Definition sample_copy (i : nat) : Z := 0x200000001000 + 0x1000 * Z.of_nat (i mod 2).
Definition sample_start : state := State (OW 0 0) [Attempt; Attempt] [] [].
Definition sample_end : state :=
  State (OW (Z.lor 0x200000001000 (Z.shiftl 3 56)) 0) [Returned 0x200000001000; Attempt] [0%nat] [0x200000001000].

Lemma sample_copy_ok : copy_ok sample_copy.
Proof.
  intros i. unfold sample_copy. assert (i mod 2 = 0 ∨ i mod 2 = 1)%nat as [-> | ->]; [|by vm_compute..].
  pose proof (Nat.mod_upper_bound i 2). lia.
Qed.
Lemma sample_shift_ok : shift_ok sample_shift. Proof. by split. Qed.
Lemma sample_initial : initial sample_shift 2 sample_start. Proof. by vm_compute. Qed.

Lemma sample_run : rtc (step sample_shift 0x100000001000 sample_copy) sample_start sample_end.
Proof.
  eapply rtc_l; [by eapply (step_worker _ _ _ 0); [done|apply attempt_load]|]. simpl.
  eapply rtc_l; [by eapply (step_worker _ _ _ 0); [done|by apply attempt_cas_ok]|]. simpl.
  eapply rtc_l; [by eapply (step_worker _ _ _ 0); [done|apply do_copy]|]. simpl.
  eapply rtc_l; [by eapply (step_worker _ _ _ 0); [done|by apply (store_word _ _ _ _ _ _ 56)]|]. simpl.
  eapply rtc_l; [by eapply (step_worker _ _ _ 0); [done|apply enqueue]|]. simpl.
  apply rtc_refl.
Qed.

Lemma one_copy_witness :
  (length (st_copies sample_end) ≤ 1)%nat ∧ (length (st_queue sample_end) ≤ 1)%nat ∧
  ∀ i a, st_workers sample_end !! i = Some (Returned a) →
    ∃ w, st_copies sample_end = [w] ∧ a = sample_copy w ∧ is_forwarded sample_shift (st_object sample_end) = true ∧
      read_forwarding_pointer (st_object sample_end) = a.
Proof.
  apply (one_copy sample_shift 0x100000001000 sample_copy 2 sample_start sample_end sample_shift_ok sample_copy_ok
    sample_initial sample_run).
Defined.

(** C29: no worker is ever stuck: from every state the workers can get into there are
    steps after which all of them have returned, and the copy has been enqueued. *)
Theorem forwarding_completes (shift : option Z) (object : Z) (copy : nat → Z) (n : nat) (st0 st : state) :
  shift_ok shift → copy_ok copy → initial shift (S n) st0 → rtc (step shift object copy) st0 st →
  ∃ st' w, rtc (step shift object copy) st st' ∧ st_queue st' = [copy w] ∧
    ∀ i, (i < S n)%nat → st_workers st' !! i = Some (Returned (copy w)).
Proof.
  intros Hsh Hcopy Hinit Hr.
  assert (∀ st', rtc (step shift object copy) st st' → phase shift copy st' ∧ length (st_workers st') = S n) as Hall.
  { intros st' Hr'. assert (rtc (step shift object copy) st0 st') as Hr0 by (by etrans). split.
    - eapply reachable_phase; [done..|by eapply initial_phase].
    - rewrite (reachable_length _ _ _ _ _ Hr0). destruct Hinit as (_ & -> & _). apply length_replicate. }
  assert (∃ st', rtc (step shift object copy) st st' ∧ get_forwarding_status shift (st_object st') = FORWARDED) as Hfw.
  { apply (reaches_trans shift object copy (λ st', get_forwarding_status shift (st_object st') = FORWARDED ∨
      ∃ w p cs, st_workers st' !! w = Some p ∧ copying shift copy w (st_object st') p cs)
      (λ st', get_forwarding_status shift (st_object st') = FORWARDED)).
    - destruct (Hall st (rtc_refl _ _)) as [[Hs Hw Hc Hq|w p Hs Hw Hcp Hq Ho|w p Hs Hp Hw Hd Hc Ho] Hlen].
      + destruct (lookup_lt_is_Some_2 (st_workers st) 0) as [p Hi]; [lia|].
        apply (reaches_trans shift object copy (λ st', get_forwarding_status shift (st_object st') = BEING_FORWARDED)
          (λ st', _ ∨ _)).
        { by eapply reaches_being; [done|..]; eauto. }
        intros st1 Hr1 Hs1. exists st1. split; [done|].
        destruct (Hall st1 Hr1) as [[Hs' _|w1 p1 _ Hw1 Hcp1|w1 p1 Hs' _] _]; [by rewrite Hs1 in Hs'|eauto 10|by rewrite Hs1 in Hs'].
      + exists st. split; [done|]. eauto 10.
      + exists st. split; [done|]. by left.
    - intros st1 Hr1 [Hs1|(w & p & cs & Hw & Hc)]; [by exists st1|]. by eapply reaches_forwarded. }
  destruct Hfw as (st1 & Hr1 & Hs1).
  destruct (reaches_all_returned shift object copy Hsh Hcopy st1 (proj1 (Hall st1 Hr1)) Hs1) as (st2 & Hr2 & Hret).
  assert (rtc (step shift object copy) st st2) as Hr02 by (by etrans).
  destruct (Hall st2 Hr02) as [Hph Hlen]. rewrite Forall_lookup in Hret.
  destruct Hph as [_ Hw Hc Hq|w p _ Hw Hcp _ _|w p Hs Hp Hw Hd Hc Ho].
  - destruct (lookup_lt_is_Some_2 (st_workers st2) 0) as [p Hi]; [lia|].
    specialize (Hret 0%nat p Hi). by destruct (Hw 0%nat p Hi) as [-> | ->].
  - specialize (Hret w p Hw). by destruct Hcp.
  - exists st2, w. split; [done|]. pose proof (Hret w p Hw) as Hwr. destruct Hd; [done|]. split; [done|].
    intros i Hi. destruct (lookup_lt_is_Some_2 (st_workers st2) i) as [q Hq]; [lia|].
    pose proof (Hret i q Hq) as Hqr. destruct (decide (i = w)) as [->|Hne]; [done|].
    destruct (Ho i q Hne Hq) as [[-> | [-> | ->]]|[-> | [-> | ->]]]; done.
Qed.

Lemma forwarding_completes_witness :
  ∃ st' w, rtc (step sample_shift 0x100000001000 sample_copy) sample_end st' ∧ st_queue st' = [sample_copy w] ∧
    ∀ i, (i < 2)%nat → st_workers st' !! i = Some (Returned (sample_copy w)).
Proof.
  apply (forwarding_completes sample_shift 0x100000001000 sample_copy 1 sample_start sample_end sample_shift_ok
    sample_copy_ok sample_initial sample_run).
Defined.
