(* ===== verification/Regions.v ===== *)
(** * Regions (src/src/util/linear_scan.rs)

    The [Region] trait: a region of [2 ^ LOG_BYTES] bytes is named by its aligned
    start address.  Immix blocks and lines are regions; the definitions take
    [LOG_BYTES] as an argument. *)

From S2P Require Import Prelude Conversions.

Section region.
Context (LOG_BYTES : Z).

Definition BYTES : Z := ushl 64 1 LOG_BYTES.

Definition region_align (address : Z) : Z := align_down address BYTES.
Definition region_is_aligned (address : Z) : bool := is_aligned_to address BYTES.
Definition from_unaligned_address (address : Z) : Z := region_align address.
Definition region_end (self : Z) : Z := self +u BYTES.
Definition next_nth (self n : Z) : Z := self +u ushl 64 n LOG_BYTES.
Definition next (self : Z) : Z := next_nth self 1.
Definition steps_between (start end_ : Z) : option Z :=
  if end_ <? start then None else Some (Z.shiftr (end_ -u start) LOG_BYTES).
Definition includes_address (self addr : Z) : bool := region_align addr =? self.

Context (Hlog : 0 ≤ LOG_BYTES < 47).

Lemma BYTES_eq : BYTES = 2 ^ LOG_BYTES.
Proof.
  unfold BYTES. assert (2 ^ LOG_BYTES < 2 ^ 47) by (apply Z.pow_lt_mono_r; lia).
  assert (0 < 2 ^ LOG_BYTES) by (apply Z.pow_pos_nonneg; lia). rewrite ushl_id; lia.
Qed.

Lemma BYTES_pos : 0 < 2 ^ LOG_BYTES < 2 ^ 47.
Proof. split; [apply Z.pow_pos_nonneg; lia|apply Z.pow_lt_mono_r; lia]. Qed.

Lemma region_align_eq a : is_u 64 a → region_align a = a `div` 2 ^ LOG_BYTES * 2 ^ LOG_BYTES.
Proof. intros. unfold region_align. rewrite BYTES_eq. apply align_down_eq; [lia|done]. Qed.

Lemma region_align_spec a : is_u 64 a →
  (2 ^ LOG_BYTES | region_align a) ∧ region_align a ≤ a < region_align a + 2 ^ LOG_BYTES.
Proof.
  intros. rewrite region_align_eq by done. pose proof BYTES_pos.
  pose proof (div_mul_bounds a (2 ^ LOG_BYTES)). split; [by eexists|lia].
Qed.

Lemma region_align_unique r a : (2 ^ LOG_BYTES | r) → 0 ≤ r → is_u 64 a →
  r ≤ a < r + 2 ^ LOG_BYTES → region_align a = r.
Proof.
  intros [q ->] Hr Ha Hb. rewrite region_align_eq by done. f_equal.
  pose proof BYTES_pos. symmetry. apply (Z.div_unique_pos _ _ _ (a - q * 2 ^ LOG_BYTES)); lia.
Qed.

Lemma next_nth_eq r n : 0 ≤ r → 0 ≤ n → r + n * 2 ^ LOG_BYTES < 2 ^ 64 →
  next_nth r n = r + n * 2 ^ LOG_BYTES.
Proof.
  intros Hr Hn Hb. pose proof BYTES_pos. unfold next_nth. rewrite ushl_id by nia. apply uadd_id. nia.
Qed.

Lemma next_eq r : 0 ≤ r → r + 2 ^ LOG_BYTES < 2 ^ 64 → next r = r + 2 ^ LOG_BYTES.
Proof. intros. unfold next. rewrite next_nth_eq; lia. Qed.

Lemma steps_between_eq r n : 0 ≤ r → 0 ≤ n → r + n * 2 ^ LOG_BYTES < 2 ^ 64 →
  steps_between r (r + n * 2 ^ LOG_BYTES) = Some n.
Proof.
  intros Hr Hn Hb. pose proof BYTES_pos. unfold steps_between.
  destruct (Z.ltb_spec (r + n * 2 ^ LOG_BYTES) r); [nia|]. rewrite usub_id by nia.
  replace (r + n * 2 ^ LOG_BYTES - r) with (n * 2 ^ LOG_BYTES) by lia.
  rewrite shiftr_div, Z.div_mul by lia. done.
Qed.

End region.
