(* ===== verification/RefCount.v ===== *)
(** * Reference counts (src/src/util/rc.rs)

    [RefCountHelper]: one count of 2, 4 or 8 bits for every word, in the side table
    RC_TABLE.  A count that reaches its maximum is stuck.  Objects that span lines
    also give a count to the start of each line they cover entirely, so that no such
    line looks free, and set its byte in RC_STRADDLE_LINES.

    The atomic operations are single steps on memory.  [debug] tells whether debug
    assertions are checked, which the closures of the operations make on the value that
    they are called with.  [ref_to_object_start] is the binding's, and a parameter. *)

From S2P Require Import Prelude Conversions Memory SideMetadata SideMetadataBits SideMetadataOps SideMetadataTheorems SideMetadataSpecs Regions.

Section rc.
Context (f : features) (asan : bool).

(** The tables, by their place in spec_defs.rs. *)
Definition RC_TABLE : SideMetadataSpec := global_specs f asan !!! 3%nat.
Definition RC_STRADDLE_LINES : SideMetadataSpec := local_specs f asan !!! 4%nat.
Definition STRONG_RC_TABLE : SideMetadataSpec := global_specs f asan !!! 9%nat.

Definition REF_COUNT_BITS : Z := ushl 8 1 (f_rc_bits f).
Definition REF_COUNT_MASK : Z := uwrap 8 (Z.land (uwrap 16 (ushl 16 1 REF_COUNT_BITS - 1)) 255).
Definition MAX_REF_COUNT : Z := REF_COUNT_MASK.
Definition STRONG_REF_COUNT_BITS : Z := ushl 8 1 LOG_STRONG_REF_COUNT_BITS.
Definition STRONG_REF_COUNT_MASK : Z := uwrap 8 (Z.land (uwrap 16 (ushl 16 1 STRONG_REF_COUNT_BITS - 1)) 255).
Definition MAX_STRONG_REF_COUNT : Z := STRONG_REF_COUNT_MASK.

Definition count (M : mem) (o : Z) : Z := load_atomic RC_TABLE M o.
Definition fetch_update (M : mem) (o : Z) (g : Z → option Z) : result Z Z * mem :=
  fetch_update_atomic RC_TABLE M o g.
Definition is_stuck (M : mem) (o : Z) : bool := count M o =? MAX_REF_COUNT.
Definition debug_assert (debug b : bool) : res () := rust_assert (negb debug || b).
Definition stick (debug : bool) (M : mem) (o : Z) : res (result Z Z * mem) :=
  _ ← debug_assert debug (count M o <=? MAX_REF_COUNT);
  Val $ fetch_update M o (λ x, if x =? MAX_REF_COUNT then None else Some MAX_REF_COUNT).
Definition inc (debug : bool) (M : mem) (o : Z) : res (result Z Z * mem) :=
  _ ← debug_assert debug (count M o <=? MAX_REF_COUNT);
  _ ← debug_assert debug (count M o <? MAX_REF_COUNT - 1);
  Val $ fetch_update M o (λ x, if x =? MAX_REF_COUNT then None else Some (uwrap 8 (x + 1))).
Definition dec (debug : bool) (M : mem) (o : Z) : res (result Z Z * mem) :=
  _ ← debug_assert debug (count M o <=? MAX_REF_COUNT);
  Val $ fetch_update M o (λ x, if (x =? 0) || (x =? MAX_REF_COUNT) then None else Some (uwrap 8 (x - 1))).
Definition set (M : mem) (o count : Z) : mem := store_atomic RC_TABLE M o count.
Definition set_relaxed (M : mem) (o count : Z) : mem := store RC_TABLE M o count.
Definition object_or_line_is_dead (M : mem) (o : Z) : bool := load_atomic RC_TABLE M o =? 0.
Definition is_dead (M : mem) (o : Z) : bool := load_atomic RC_TABLE M o =? 0.
Definition is_dead_or_stuck (M : mem) (o : Z) : bool :=
  let v := load_atomic RC_TABLE M o in (v =? 0) || (v =? MAX_REF_COUNT).

Definition strong_rc_inc (M : mem) (o : Z) : result Z Z * mem :=
  fetch_update_atomic STRONG_RC_TABLE M o
    (λ x, if x =? MAX_STRONG_REF_COUNT then None else Some (uwrap 8 (x + 1))).
Definition strong_rc_dec (M : mem) (o : Z) : result Z Z * mem :=
  fetch_update_atomic STRONG_RC_TABLE M o (λ x, if x =? 0 then None else Some (uwrap 8 (x - 1))).

(** ** Objects that straddle lines *)

Abbreviation Line_BYTES := (BYTES (f_line f)).
Abbreviation Line_next := (next (f_line f)).
Definition Line_align (address : Z) : Z := align_down address Line_BYTES.

Definition is_straddle_line (M : mem) (line : Z) : bool := negb (load RC_STRADDLE_LINES M line =? 0).
Definition address_is_in_straddle_line (M : mem) (a : Z) : bool :=
  negb (count M a =? 0) && is_straddle_line M (Line_align a).

(** The [while line != end_line] loops. *)
Fixpoint mark_lines (fuel : nat) (M : mem) (line end_line : Z) : res mem :=
  match fuel with
  | O => NoFuel
  | S fuel =>
    if line =? end_line then Val M
    else
      let M := store RC_STRADDLE_LINES M line 1 in
      let M := set_relaxed M line 1 in
      mark_lines fuel M (Line_next line) end_line
  end.
Fixpoint unmark_lines (fuel : nat) (M : mem) (line end_line : Z) : res mem :=
  match fuel with
  | O => NoFuel
  | S fuel =>
    if line =? end_line then Val M
    else
      let M := set_relaxed M line 0 in
      let M := store RC_STRADDLE_LINES M line 0 in
      unmark_lines fuel M (Line_next line) end_line
  end.

Context (ref_to_object_start : Z → Z).
Definition Line_containing (object : Z) : Z := align_down (ref_to_object_start object) Line_BYTES.

Definition mark_straddle_object_with_size (fuel : nat) (M : mem) (o size : Z) : res mem :=
  let start_line := Line_next (Line_containing o) in
  let end_line := Line_align (o +u size) in
  mark_lines fuel M start_line end_line.
(** [size] is what [get_current_size] or [get_size] of the binding return. *)
Definition mark_straddle_object (fuel : nat) (M : mem) (o size : Z) : res mem :=
  mark_straddle_object_with_size fuel M o size.
Definition unmark_straddle_object (fuel : nat) (M : mem) (o size : Z) : res mem :=
  if Line_BYTES <? size
  then
    let start_line := Line_next (Line_containing o) in
    let end_line := Line_align (o +u size) in
    unmark_lines fuel M start_line end_line
  else Val M.
Definition promote_with_size (fuel : nat) (M : mem) (o size : Z) : res mem :=
  if Line_BYTES <? size then mark_straddle_object_with_size fuel M o size else Val M.
End rc.

(** ** Theorems *)

(** The operations on counts, as a sequence of atomic steps of any threads. *)
Inductive RcOp : Type := RcInc (o : Z) | RcDec (o : Z) | RcStick (o : Z).
Definition op_object (op : RcOp) : Z := match op with RcInc o | RcDec o | RcStick o => o end.

Section counts.
Context (f : features) (asan : bool).
Context (Hf : f ∈ all_features).

Definition rc_step (debug : bool) (M : mem) (op : RcOp) : res (result Z Z * mem) :=
  match op with
  | RcInc o => inc f asan debug M o
  | RcDec o => dec f asan debug M o
  | RcStick o => stick f asan debug M o
  end.
Fixpoint rc_run (debug : bool) (M : mem) (ops : list RcOp) : res (list (result Z Z) * mem) :=
  match ops with
  | [] => Val ([], M)
  | op :: ops => '(r, M) ← rc_step debug M op; '(rs, M) ← rc_run debug M ops; Val (r :: rs, M)
  end.
(** An increment that makes a count stick, or finds it stuck. *)
Definition sticks (p : RcOp * result Z Z) : bool :=
  match p with (RcInc _, Ok x) | (RcInc _, Err x) => MAX_REF_COUNT f - 1 <=? x | _ => false end.

(** What an operation with result [r] adds to the count of the word of [o]. *)
Definition op_delta (o : Z) (op : RcOp) (r : result Z Z) : Z :=
  if negb (op_object op `div` 8 =? o `div` 8) then 0
  else match op, r with RcInc _, Ok _ => 1 | RcDec _, Ok _ => -1 | _, _ => 0 end.
Fixpoint run_delta (o : Z) (ops : list RcOp) (rs : list (result Z Z)) : Z :=
  match ops, rs with
  | op :: ops, r :: rs => op_delta o op r + run_delta o ops rs
  | _, _ => 0
  end.

(** ** The tables *)

Lemma features_range :
  1 ≤ f_rc_bits f ≤ 3 ∧ 13 ≤ f_block f ≤ 20 ∧ 8 ≤ f_line f ≤ 10.
Proof.
  revert Hf. unfold all_features. intros (rc & (lock & (block & (line & ->%list_elem_of_ret & Hline)
    %list_elem_of_bind & Hblock)%list_elem_of_bind & Hlock)%list_elem_of_bind & Hrc)%list_elem_of_bind.
  cbn [f_rc_bits f_block f_line]. unfold rc_bits_choices, block_choices, line_choices in *.
  rewrite !elem_of_cons in Hrc. rewrite !elem_of_cons in Hblock. rewrite !elem_of_cons in Hline.
  rewrite elem_of_nil in *. lia.
Qed.

Lemma stacked_specs :
  (∀ s, s ∈ global_specs f asan → spec_ok s ∧ upper_bound_address_for_contiguous s ≤ LOCAL_SIDE_METADATA_BASE_ADDRESS asan) ∧
  (∀ s, s ∈ local_specs f asan → spec_ok s ∧ LOCAL_SIDE_METADATA_BASE_ADDRESS asan ≤ sm_offset s).
Proof.
  destruct (features_checked f asan Hf) as [Hg Hl]. unfold global_check in Hg. unfold local_check in Hl.
  change (global_specs _ asan) with (global_specs f asan) in Hg.
  change (local_specs _ asan) with (local_specs f asan) in Hl.
  split; intros s Hs.
  - destruct (stacked_bounds _ _ _ _ Hg Hs) as ([? _]%spec_ok_b_spec & _ & ?). by split.
  - destruct (stacked_bounds _ _ _ _ Hl Hs) as ([? _]%spec_ok_b_spec & ? & _). by split.
Qed.

Lemma rc_table_in : RC_TABLE f asan ∈ global_specs f asan.
Proof. apply (list_elem_of_lookup_2 _ 3). done. Qed.
Lemma straddle_table_in : RC_STRADDLE_LINES f asan ∈ local_specs f asan.
Proof. apply (list_elem_of_lookup_2 _ 4). done. Qed.

Lemma rc_table_ok : spec_ok (RC_TABLE f asan).
Proof. exact (proj1 (proj1 stacked_specs _ rc_table_in)). Qed.
Lemma straddle_table_ok : spec_ok (RC_STRADDLE_LINES f asan).
Proof. exact (proj1 (proj2 stacked_specs _ straddle_table_in)). Qed.
Lemma rc_straddle_disjoint : tables_disjoint (RC_STRADDLE_LINES f asan) (RC_TABLE f asan).
Proof.
  right. destruct stacked_specs as [Hg Hl]. destruct (Hg _ rc_table_in), (Hl _ straddle_table_in). lia.
Qed.

Abbreviation rcw := (width (RC_TABLE f asan)).
Lemma rc_width : rcw = 2 ^ f_rc_bits f. Proof. done. Qed.
Lemma rc_region a : region (RC_TABLE f asan) a = a `div` 8. Proof. done. Qed.

Lemma MAX_REF_COUNT_eq : MAX_REF_COUNT f = 2 ^ rcw - 1 ∧ 3 ≤ MAX_REF_COUNT f ≤ 255.
Proof.
  rewrite rc_width. pose proof features_range as [Hr _]. unfold MAX_REF_COUNT, REF_COUNT_MASK, REF_COUNT_BITS.
  assert (f_rc_bits f = 1 ∨ f_rc_bits f = 2 ∨ f_rc_bits f = 3) as [-> |[-> | ->]] by lia; by vm_compute.
Qed.

Lemma count_range M o : mem_ok M → 0 ≤ o < 2 ^ 47 → 0 ≤ count f asan M o ≤ MAX_REF_COUNT f.
Proof.
  intros HM Ho. destruct MAX_REF_COUNT_eq as [-> _].
  pose proof (load_u _ rc_table_ok M o HM ltac:(unfold addr_ok; lia)) as H. unfold is_u in H.
  change (load _ M o) with (count f asan M o) in H. lia.
Qed.

(** ** One operation *)

(** The count an operation leaves behind, [None] when it fails. *)
Definition op_new (op : RcOp) (x : Z) : option Z :=
  match op with
  | RcInc _ => if x =? MAX_REF_COUNT f then None else Some (x + 1)
  | RcDec _ => if (x =? 0) || (x =? MAX_REF_COUNT f) then None else Some (x - 1)
  | RcStick _ => if x =? MAX_REF_COUNT f then None else Some (MAX_REF_COUNT f)
  end.

Lemma op_new_Some op x v :
  op_new op x = Some v → x ≠ MAX_REF_COUNT f ∧
  match op with RcInc _ => v = x + 1 | RcDec _ => v = x - 1 | RcStick _ => v = MAX_REF_COUNT f end.
Proof.
  unfold op_new. destruct (Z.eqb_spec x (MAX_REF_COUNT f)); [rewrite orb_true_r; by destruct op|].
  destruct op; try (intros [= <-]; done). destruct (Z.eqb_spec x 0); cbn [orb]; [done|intros [= <-]; done].
Qed.

Lemma op_new_None op x :
  op_new op x = None → x = MAX_REF_COUNT f ∨ x = 0 ∧ ∃ o, op = RcDec o.
Proof.
  unfold op_new. destruct (Z.eqb_spec x (MAX_REF_COUNT f)); [auto|].
  destruct op; try done. destruct (Z.eqb_spec x 0); cbn [orb]; [eauto|done].
Qed.

Lemma updates_count M M' o v b :
  updates (RC_TABLE f asan) M M' o v → mem_ok M → is_u rcw v → 0 ≤ o < 2 ^ 47 → 0 ≤ b < 2 ^ 47 →
  count f asan M' b = if b `div` 8 =? o `div` 8 then v else count f asan M b.
Proof.
  intros Hu HM Hv Ho Hb. pose proof rc_table_ok as Hok. pose proof Hu as [HM' _].
  change (count f asan M' b) with (load (RC_TABLE f asan) M' b).
  destruct (Z.eqb_spec (b `div` 8) (o `div` 8)) as [E|E].
  - rewrite (load_region _ Hok M' b o); try done; try (unfold addr_ok; lia).
    apply (updates_same _ Hok M M'); try done; unfold addr_ok; lia.
  - apply (updates_region _ Hok M M' o b v); try done; unfold addr_ok; (done || lia || (rewrite !rc_region; lia)).
Qed.

Lemma rc_step_spec M op r M' :
  mem_ok M → 0 ≤ op_object op < 2 ^ 47 → rc_step false M op = Val (r, M') →
  let x := count f asan M (op_object op) in
  mem_ok M' ∧
  match op_new op x with
  | Some v => r = Ok x ∧ ∀ b, 0 ≤ b < 2 ^ 47 →
      count f asan M' b = if b `div` 8 =? op_object op `div` 8 then v else count f asan M b
  | None => r = Err x ∧ M' = M
  end.
Proof.
  intros HM Ho E x. destruct MAX_REF_COUNT_eq as [Em Hmax].
  pose (g := λ x, match op with
    | RcInc _ => if x =? MAX_REF_COUNT f then None else Some (uwrap 8 (x + 1))
    | RcDec _ => if (x =? 0) || (x =? MAX_REF_COUNT f) then None else Some (uwrap 8 (x - 1))
    | RcStick _ => if x =? MAX_REF_COUNT f then None else Some (MAX_REF_COUNT f) end).
  assert (fetch_update_atomic (RC_TABLE f asan) M (op_object op) g = (r, M')) as E'
    by (destruct op; injection E as E; exact E). clear E.
  assert (∀ y, is_u rcw y → g y = op_new op y ∧ ∀ z, g y = Some z → is_u rcw z) as Hg.
  { intros y Hy. unfold is_u in Hy. unfold g, op_new.
    destruct op; destruct (Z.eqb_spec y (MAX_REF_COUNT f)); rewrite ?orb_true_r; try done; try destruct (Z.eqb_spec y 0);
      cbn [orb]; try done; rewrite ?uwrap_id by lia; (split; [done|intros z [= <-]; unfold is_u; lia]). }
  pose proof (fetch_update_updates _ rc_table_ok M (op_object op) g HM ltac:(unfold addr_ok; lia)
    ltac:(intros y z Hy; apply (Hg y Hy))) as Hfu.
  rewrite E' in Hfu. change (load (RC_TABLE f asan) M (op_object op)) with x in Hfu.
  assert (is_u rcw x) as Hx by (apply load_u; [apply rc_table_ok|done|unfold addr_ok; lia]).
  destruct (Hg x Hx) as [Eg Hz]. rewrite Eg in Hfu.
  destruct (op_new op x) as [v|]; destruct Hfu as [-> Hu]; [|by subst].
  specialize (Hz v Eg). split; [apply Hu|]. split; [done|]. intros b Hb. by apply updates_count.
Qed.

Lemma rc_step_total M op : ∃ r M', rc_step false M op = Val (r, M').
Proof. destruct op; cbn [rc_step]; unfold inc, dec, stick; cbn; destruct (fetch_update _ _ _ _ _); eauto. Qed.
(** With debug assertions an operation panics or does the same. *)
Lemma rc_step_debug M op r M' :
  mem_ok M → 0 ≤ op_object op < 2 ^ 47 → rc_step false M op = Val (r, M') →
  rc_step true M op = if sticks (op, r) then Panic else Val (r, M').
Proof.
  intros HM Ho E. pose proof (count_range M _ HM Ho) as Hr. destruct (rc_step_spec M op r M' HM Ho E) as [_ Hs]. cbv zeta in Hs.
  assert (sticks (op, r) = match op with RcInc _ => MAX_REF_COUNT f - 1 <=? count f asan M (op_object op) | _ => false end) as ->.
  { destruct (op_new op _) as [v|]; destruct Hs as [-> _]; by destruct op. }
  unfold rc_step, inc, dec, stick, debug_assert in *. destruct op; cbn [op_object negb orb rust_assert mbind res_bind] in *; rewrite (proj2 (Z.leb_le _ _)) by lia; try done.
  cbn [rust_assert mbind res_bind]. destruct (Z.ltb_spec (count f asan M o) (MAX_REF_COUNT f - 1)), (Z.leb_spec (MAX_REF_COUNT f - 1) (count f asan M o)); try lia; done.
Qed.

(** C14: over any sequence of increments, decrements and sticks, of any objects, the
    count of a word never leaves its range; once it is at its maximum it stays there;
    and while it has not stuck it has moved by exactly the successful increments less
    the successful decrements of that word, whatever happened to the words that share
    a byte with it.  An increment fails only on a stuck count, a decrement only on a
    stuck count or on zero.  No operation panics without debug assertions; with them the
    sequence panics exactly if an increment would make a count stick or finds it stuck,
    and otherwise does the same. *)
Theorem rc_counts_exact (M : mem) (ops : list RcOp) :
  mem_ok M → (∀ op, op ∈ ops → 0 ≤ op_object op < 2 ^ 47) →
  ∃ rs M', rc_run false M ops = Val (rs, M') ∧
  rc_run true M ops = (if existsb sticks (zip ops rs) then Panic else Val (rs, M')) ∧
  length rs = length ops ∧
  (∀ o, 0 ≤ o < 2 ^ 47 →
    0 ≤ count f asan M' o ≤ MAX_REF_COUNT f ∧
    (is_stuck f asan M o = true → is_stuck f asan M' o = true) ∧
    (is_stuck f asan M' o = false → count f asan M' o = count f asan M o + run_delta o ops rs)) ∧
  (∀ i op x, ops !! i = Some op → rs !! i = Some (Err x) →
    x = MAX_REF_COUNT f ∨ x = 0 ∧ ∃ o, op = RcDec o).
Proof.
  revert M. induction ops as [|op ops IH]; intros M HM Hops; cbn [rc_run].
  { exists [], M. split_and!; [done|done|done| |by intros i op x Hi]. intros o Ho. split_and!; try apply count_range; try done.
    intros _. cbn. lia. }
  destruct (rc_step_total M op) as (r & M1 & E).
  assert (0 ≤ op_object op < 2 ^ 47) as Hop by (apply Hops; left).
  destruct (rc_step_spec M op r M1 HM Hop E) as [HM1 Hs]. cbv zeta in Hs.
  destruct (IH M1 HM1 ltac:(intros; apply Hops; by right)) as (rs & M' & Erun & Edbg & Hl & Hc & He). exists (r :: rs), M'.
  rewrite (rc_step_debug M op r M1 HM Hop E), E. cbn [mbind res_bind]. rewrite Erun. destruct MAX_REF_COUNT_eq as [_ Hmax].
  split; [done|]. split; [cbn [zip existsb]; destruct (sticks (op, r)); [done|]; cbn [orb mbind res_bind]; rewrite Edbg; cbn [zip zip_with existsb]; by destruct (existsb _ _)|]. split_and!; [cbn; lia| |].
  - intros o Ho. destruct (Hc o Ho) as (Hr & Hst & Hex). split; [done|].
    pose proof (count_range M o HM Ho) as Hr0. pose proof (count_range M _ HM Hop) as Hrop.
    assert (o `div` 8 = op_object op `div` 8 → count f asan M o = count f asan M (op_object op)) as Hsame.
    { intros Ew. apply (load_region _ rc_table_ok); try done; unfold addr_ok; lia. }
    cbn [run_delta]. unfold op_delta. unfold is_stuck in *. rewrite (Z.eqb_sym (op_object op `div` 8)).
    destruct (op_new op _) as [v|] eqn:En; destruct Hs as [-> Hs].
    + specialize (Hs o Ho). destruct (Z.eqb_spec (o `div` 8) (op_object op `div` 8)) as [Ew|]; cbn [negb];
        [|rewrite Hs in *; split; [done|intros ?; rewrite Hex by done; lia]].
      specialize (Hsame Ew). apply op_new_Some in En as [Hne Hv]. rewrite Hs in *. split; [lia|].
      intros Hn. assert (v ≠ MAX_REF_COUNT f) by (intros ->; rewrite Hst in Hn by lia; done).
      rewrite Hex by done. clear Hst Hex Hn. destruct op; lia.
    + subst M1. split; [done|]. intros Hn. rewrite Hex by done. clear Edbg. destruct op; case_match; lia.
  - intros [|i] op' x Hi Hri; cbn in Hi, Hri; [|by eapply He]. injection Hi as <-. injection Hri as ->.
    destruct (op_new op _) as [v|] eqn:En; destruct Hs as [Er _]; [done|]. injection Er as ->.
    by apply op_new_None.
Qed.

(** ** Straddling objects *)

Abbreviation L := (2 ^ f_line f).
Abbreviation straddle M a := (load (RC_STRADDLE_LINES f asan) M a).

(** From [M] to [M'], the first word of every line of [lo, hi) got the count [v] and the
    line the straddle byte [v]; no other count and no other straddle byte changed. *)
Definition marked (v lo hi : Z) (M M' : mem) : Prop :=
  mem_ok M' ∧ ∀ a, 0 ≤ a < 2 ^ 47 →
    count f asan M' a =
      (if (lo <=? a) && (a <? hi) && ((a `div` 8 * 8) mod L =? 0) then v else count f asan M a) ∧
    straddle M' a = if (lo <=? a) && (a <? hi) then v else straddle M a.

Lemma line_bytes : L = 8 * 2 ^ (f_line f - 3) ∧ 32 ≤ 2 ^ (f_line f - 3) ∧ 256 ≤ L ≤ 1024.
Proof.
  pose proof features_range as (_ & _ & H).
  assert (f_line f = 8 ∨ f_line f = 9 ∨ f_line f = 10) as [-> |[-> | ->]] by lia; by vm_compute.
Qed.

(** The words that share the count of the start of a line are the first of the line. *)
Lemma line_word line a :
  (L | line) → 0 ≤ a →
  (a `div` 8 =? line `div` 8) = (line <=? a) && (a <? line + L) && ((a `div` 8 * 8) mod L =? 0).
Proof.
  intros [q ->] Ha. pose proof line_bytes as (E & Hk & _). set (K := 2 ^ (f_line f - 3)) in *.
  assert ((q * L) `div` 8 = q * K) as ->.
  { rewrite E. replace (q * (8 * K)) with (q * K * 8) by lia. apply Z.div_mul. lia. }
  assert ((a `div` 8 * 8) mod L = a `div` 8 mod K * 8) as ->.
  { rewrite E, (Z.mul_comm 8 K). apply Z.mul_mod_distr_r; lia. }
  pose proof (Z.div_mod a 8 ltac:(lia)). pose proof (Z.mod_pos_bound a 8 ltac:(lia)).
  pose proof (Z.div_mod (a `div` 8) K ltac:(lia)). pose proof (Z.mod_pos_bound (a `div` 8) K ltac:(lia)).
  rewrite E. set (w := a `div` 8) in *. set (m := w mod K) in *. set (d := w `div` K) in *.
  destruct (Z.eqb_spec w (q * K)) as [Ew|Ew].
  - assert (m = 0) as -> by (unfold m; rewrite Ew; apply Z.mod_mul; lia).
    destruct (Z.leb_spec (q * (8 * K)) a), (Z.ltb_spec a (q * (8 * K) + 8 * K)); (done || lia).
  - destruct (Z.leb_spec (q * (8 * K)) a), (Z.ltb_spec a (q * (8 * K) + 8 * K)); try done.
    destruct (Z.eqb_spec (m * 8) 0); [exfalso|done]. assert (m = 0) as -> by lia.
    assert (q * K ≤ w < q * K + K) by lia. assert (d = q) by nia. subst d. lia.
Qed.

Lemma straddle_byte_updates M M' line v b :
  updates (RC_STRADDLE_LINES f asan) M M' line v → mem_ok M → is_u 8 v → (L | line) → 0 ≤ line < 2 ^ 47 → 0 ≤ b < 2 ^ 47 →
  straddle M' b = if (line <=? b) && (b <? line + L) then v else straddle M b.
Proof.
  intros Hu HM Hv Hl Hline Hb. pose proof straddle_table_ok as Hok. pose proof Hu as [HM' _].
  pose proof (region_aligned_le _ line b Hok Hl) as H1.
  assert (L | line + L) as Hl' by (apply Z.divide_add_r; [done|apply Z.divide_refl]).
  pose proof (region_aligned_le _ (line + L) b Hok Hl') as H2.
  assert (region (RC_STRADDLE_LINES f asan) (line + L) = region (RC_STRADDLE_LINES f asan) line + 1) as E.
  { destruct Hl as [q ->]. unfold region. change (log_bytes_in_region _) with (f_line f).
    pose proof line_bytes. replace (q * L + L) with ((q + 1) * L) by lia. by rewrite !Z.div_mul by lia. }
  destruct (Z.leb_spec line b); simpl.
  - destruct (Z.ltb_spec b (line + L)); simpl.
    + rewrite (load_region _ Hok M' b line); try done; try (unfold addr_ok; lia).
      apply (updates_same _ Hok M M'); try done; unfold addr_ok; lia.
    + apply (updates_region _ Hok M M' line b v); try done; unfold addr_ok; lia.
  - apply (updates_region _ Hok M M' line b v); try done; unfold addr_ok; lia.
Qed.

(** The two stores of the loops, in either order. *)
Lemma mark_step M line v :
  mem_ok M → (L | line) → 0 ≤ line < 2 ^ 47 → 0 ≤ v ≤ 1 →
  marked v line (line + L) M (set_relaxed f asan (store (RC_STRADDLE_LINES f asan) M line v) line v) ∧
  marked v line (line + L) M (store (RC_STRADDLE_LINES f asan) (set_relaxed f asan M line v) line v).
Proof.
  intros HM Hl Hline Hv. pose proof rc_table_ok as Hr. pose proof straddle_table_ok as Ht.
  pose proof rc_straddle_disjoint as Hd. assert (addr_ok line) as Ha by (unfold addr_ok; lia).
  assert (tables_disjoint (RC_TABLE f asan) (RC_STRADDLE_LINES f asan)) as Hd' by (destruct Hd; [by right|by left]).
  assert (is_u 8 v) as H8 by (unfold is_u; lia).
  assert (is_u rcw v) as Hw.
  { destruct MAX_REF_COUNT_eq as [Em Hm]. unfold is_u. rewrite Em in Hm. lia. }
  assert (∀ N, mem_ok N → updates (RC_STRADDLE_LINES f asan) N (store (RC_STRADDLE_LINES f asan) N line v) line v) as U1
    by (intros N HN; by apply store_updates).
  assert (∀ N, mem_ok N → updates (RC_TABLE f asan) N (set_relaxed f asan N line v) line v) as U2
    by (intros N HN; by apply store_updates).
  split; (split; [first [apply U1|apply U2]; first [apply U1|apply U2]; done|]); intros a Hb;
    rewrite <-(line_word line a) by (done || lia); split.
  - rewrite (updates_count _ _ line v a (U2 _ (proj1 (U1 M HM)))) by (done || apply U1; done).
    case_match; [done|]. by apply (updates_table _ _ M _ line a v Ht Hr Hd (U1 M HM)).
  - rewrite (updates_table _ _ _ _ line a v Hr Ht Hd' (U2 _ (proj1 (U1 M HM)))) by (done || apply U1; done).
    by apply (straddle_byte_updates M _ line v a (U1 M HM)).
  - change (count f asan (store (RC_STRADDLE_LINES f asan) (set_relaxed f asan M line v) line v) a)
      with (load (RC_TABLE f asan) (store (RC_STRADDLE_LINES f asan) (set_relaxed f asan M line v) line v) a).
    rewrite (updates_table _ _ _ _ line a v Ht Hr Hd (U1 _ (proj1 (U2 M HM)))) by (done || apply U2; done).
    by apply (updates_count M _ line v a (U2 M HM)).
  - rewrite (straddle_byte_updates _ _ line v a (U1 _ (proj1 (U2 M HM)))) by (done || apply U2; done).
    case_match; [done|]. by apply (updates_table _ _ M _ line a v Hr Ht Hd' (U2 M HM)).
Qed.

Lemma marked_trans v lo mid hi M1 M2 M3 :
  lo ≤ mid ≤ hi → marked v lo mid M1 M2 → marked v mid hi M2 M3 → marked v lo hi M1 M3.
Proof.
  intros Hle [_ H1] [HM H2]. split; [done|]. intros a Ha. destruct (H1 a Ha) as [C1 S1], (H2 a Ha) as [C2 S2].
  rewrite C2, C1, S2, S1. clear -Hle.
  destruct (Z.leb_spec lo a), (Z.leb_spec mid a), (Z.ltb_spec a mid), (Z.ltb_spec a hi); simpl; try lia; try done;
    split; try done; by case_match.
Qed.

(** A loop that steps through the lines up to [end_line]. *)
Lemma line_loop (loop : nat → mem → Z → Z → res mem) (body : mem → Z → mem) v :
  (∀ fuel M l e, loop (S fuel) M l e = if l =? e then Val M else loop fuel (body M l) (next (f_line f) l) e) →
  (∀ M l, mem_ok M → (L | l) → 0 ≤ l < 2 ^ 47 → marked v l (l + L) M (body M l)) →
  ∀ n fuel M l, mem_ok M → (L | l) → 0 ≤ l → l + Z.of_nat n * L ≤ 2 ^ 47 → (n < fuel)%nat →
  wp (loop fuel M l (l + Z.of_nat n * L)) (marked v l (l + Z.of_nat n * L) M).
Proof.
  intros Hloop Hbody n. pose proof line_bytes as (_ & _ & HL). pose proof features_range as (_ & _ & Hfl).
  induction n as [|n IH]; intros fuel M l HM Hl H0 Hb Hn; destruct fuel as [|fuel]; try lia; rewrite Hloop.
  - replace (l + Z.of_nat 0 * L) with l by lia. rewrite Z.eqb_refl. split; [done|]. intros a Ha.
    destruct (Z.leb_spec l a), (Z.ltb_spec a l); simpl; (done || lia).
  - destruct (Z.eqb_spec l (l + Z.of_nat (S n) * L)); [nia|]. rewrite next_eq by lia.
    replace (l + Z.of_nat (S n) * L) with (l + L + Z.of_nat n * L) by lia.
    assert (marked v l (l + L) M (body M l)) as Hm by (apply Hbody; (done || lia)).
    eapply wp_mono; [apply IH; try lia; [apply Hm|]|].
    + apply Z.divide_add_r; [done|apply Z.divide_refl].
    + intros M' HM'. eapply marked_trans; [|exact Hm|exact HM']. lia.
Qed.

Section straddle.
(** The documentation of the object model requires that the raw address of a reference is at
    least the start of the object plus [OBJECT_REF_OFFSET_LOWER_BOUND]. *)
Context (ref_to_object_start : Z → Z) (OBJECT_REF_OFFSET_LOWER_BOUND : Z).

(** The lines, by number, after the one where an object starts and before the one of the
    address [o + size], when [size] is more than a line; the first word of a line. *)
Definition covered (o size a : Z) : bool :=
  (L <? size) && ((ref_to_object_start o `div` L <? a `div` L) && (a `div` L <? (o + size) `div` L)).
Definition first_word (a : Z) : bool := (a `div` 8 * 8) mod L =? 0.

Lemma line_base a : is_u 64 a → Line_align f a = a `div` L * L.
Proof. pose proof features_range as (_ & _ & ?). apply region_align_eq. lia. Qed.

(** The range of lines of both loops. *)
Lemma straddle_range o size :
  0 ≤ ref_to_object_start o → ref_to_object_start o + L ≤ o + size → 0 ≤ o → o + size < 2 ^ 47 → L < size →
  ∃ n : nat, let lo := Line_containing f ref_to_object_start o + L in
  (L | lo) ∧ 0 ≤ lo ∧ next (f_line f) (Line_containing f ref_to_object_start o) = lo ∧
  Line_align f (o +u size) = lo + Z.of_nat n * L ∧ lo + Z.of_nat n * L ≤ 2 ^ 47 ∧
  Z.of_nat n ≤ (o + size - ref_to_object_start o) `div` L.
Proof.
  intros Hr0 Hr Ho Hb Hs. pose proof line_bytes as (_ & _ & HL). pose proof features_range as (_ & _ & Hfl).
  set (st := ref_to_object_start o) in *.
  assert (Line_containing f ref_to_object_start o = st `div` L * L) as E1 by (apply line_base; unfold is_u; lia).
  rewrite E1, uadd_id, line_base by (unfold is_u; lia).
  pose proof (div_mul_bounds st L ltac:(lia)). pose proof (div_mul_bounds (o + size) L ltac:(lia)).
  assert (0 ≤ st `div` L) by (apply Z.div_pos; lia).
  assert (st `div` L + 1 ≤ (o + size) `div` L) as Hle by (apply Z.div_le_lower_bound; lia).
  exists (Z.to_nat ((o + size) `div` L - st `div` L - 1)). rewrite Z2Nat.id by lia.
  split_and!; try lia; [exists (st `div` L + 1); lia|rewrite next_eq; lia|].
  apply Z.div_le_lower_bound; lia.
Qed.

(** The addresses of the covered lines. *)
Lemma covered_eq o size a :
  0 ≤ ref_to_object_start o → 0 ≤ o → L < size → o + size < 2 ^ 47 → ref_to_object_start o < 2 ^ 47 →
  covered o size a = (Line_containing f ref_to_object_start o + L <=? a) && (a <? Line_align f (o +u size)).
Proof.
  intros Hr Ho Hs Hb Hr'. pose proof line_bytes as (_ & _ & HL). unfold covered. rewrite (proj2 (Z.ltb_lt L size)) by done. cbn [andb].
  assert (Line_containing f ref_to_object_start o = ref_to_object_start o `div` L * L) as -> by (apply line_base; unfold is_u; lia).
  rewrite uadd_id, line_base by (unfold is_u; lia). pose proof (div_mul_bounds a L ltac:(lia)).
  f_equal; [destruct (Z.ltb_spec (ref_to_object_start o `div` L) (a `div` L)), (Z.leb_spec (ref_to_object_start o `div` L * L + L) a)|
    destruct (Z.ltb_spec (a `div` L) ((o + size) `div` L)), (Z.ltb_spec a ((o + size) `div` L * L))]; try done; nia.
Qed.

(** What promotion and its inverse do. *)
Lemma promote_marks (fuel : nat) (M : mem) (o size : Z) :
  mem_ok M → 0 ≤ ref_to_object_start o → 0 ≤ o → 0 < size → o + size < 2 ^ 47 → (L < size → ref_to_object_start o + L ≤ o + size) →
  (o + size - ref_to_object_start o) `div` L < Z.of_nat fuel →
  wp (promote_with_size f asan ref_to_object_start fuel M o size) (λ M', mem_ok M' ∧
    (∀ a, 0 ≤ a < 2 ^ 47 →
      count f asan M' a = (if covered o size a && first_word a then 1 else count f asan M a) ∧
      is_straddle_line f asan M' a = covered o size a || is_straddle_line f asan M a) ∧
    wp (unmark_straddle_object f asan ref_to_object_start fuel M' o size) (λ M'', mem_ok M'' ∧
      ∀ a, 0 ≤ a < 2 ^ 47 →
      count f asan M'' a = (if covered o size a && first_word a then 0 else count f asan M a) ∧
      is_straddle_line f asan M'' a = negb (covered o size a) && is_straddle_line f asan M a)).
Proof.
  intros HM Hr0 Ho Hs Hb Hr Hfuel. pose proof features_range as (_ & _ & Hfl).
  unfold promote_with_size, unmark_straddle_object, mark_straddle_object_with_size, is_straddle_line.
  rewrite (BYTES_eq (f_line f)) by lia. destruct (Z.ltb_spec L size) as [Hl|Hl].
  2:{ cbn [wp]. assert (∀ a, covered o size a = false) as Hc by (intros a; unfold covered; by rewrite (proj2 (Z.ltb_ge L size))).
      split; [done|]. split; [intros a Ha; by rewrite Hc|]. split; [done|]. intros a Ha. by rewrite Hc. }
  assert (∀ a, covered o size a = (Line_containing f ref_to_object_start o + L <=? a) && (a <? Line_align f (o +u size))) as Hcov.
  { intros a. specialize (Hr Hl). pose proof line_bytes as (_ & _ & HL). by apply covered_eq; lia. }
  unfold first_word.
  destruct (straddle_range o size Hr0 (Hr Hl) Ho Hb Hl) as (n & Hd & H0 & Hn & He & Htop & Hle). cbv zeta in *. rewrite Hn, He in *.
  set (lo := Line_containing f ref_to_object_start o + L) in *. set (hi := lo + Z.of_nat n * L) in *.
  eapply wp_mono.
  { apply (line_loop (mark_lines f asan) (λ M l, set_relaxed f asan (store (RC_STRADDLE_LINES f asan) M l 1) l 1) 1);
      try done; try lia. intros N l ???. by apply mark_step. }
  intros M' [HM' H']. split; [done|]. split.
  { intros a Ha. rewrite Hcov. destruct (H' a Ha) as [-> ->]. split; [done|]. fold hi. by destruct ((lo <=? a) && (a <? hi)). }
  eapply wp_mono.
  { apply (line_loop (unmark_lines f asan) (λ M l, store (RC_STRADDLE_LINES f asan) (set_relaxed f asan M l 0) l 0) 0);
      try done; try lia. intros N l ???. by apply mark_step. }
  intros M'' [HM'' H'']. split; [done|]. intros a Ha. rewrite Hcov. destruct (H'' a Ha) as [-> ->], (H' a Ha) as [-> ->].
  fold hi. destruct ((lo <=? a) && (a <? hi)); cbn [andb negb]; split; (done || by case_match).
Qed.

(** C30: in a build with lines (not [ix_block_only]), promoting an object larger than a line gives
    count 1 to the first word of each line after the one where the object starts and before the
    one of the address [o + size], marks these lines as straddled, and changes no other count
    and no other line; a smaller object changes nothing.  Both loops stop after at most as many
    rounds as there are lines between the start of the object and that address, and unmarking
    the object clears exactly those lines again.  The object ends below 2^47, and its reference
    is at least its start plus the documented lower bound, which for an object larger than a
    line is not below [L - size]. *)
Theorem straddle_lines_marked (fuel : nat) (M : mem) (o size : Z) :
  mem_ok M → 0 ≤ ref_to_object_start o → 0 ≤ o → 0 < size → o + size < 2 ^ 47 →
  ref_to_object_start o + OBJECT_REF_OFFSET_LOWER_BOUND ≤ o → (L < size → L ≤ size + OBJECT_REF_OFFSET_LOWER_BOUND) →
  (o + size - ref_to_object_start o) `div` L < Z.of_nat fuel →
  wp (promote_with_size f asan ref_to_object_start fuel M o size) (λ M', mem_ok M' ∧
    (∀ a, 0 ≤ a < 2 ^ 47 →
      count f asan M' a = (if covered o size a && first_word a then 1 else count f asan M a) ∧
      is_straddle_line f asan M' a = covered o size a || is_straddle_line f asan M a) ∧
    wp (unmark_straddle_object f asan ref_to_object_start fuel M' o size) (λ M'', mem_ok M'' ∧
      ∀ a, 0 ≤ a < 2 ^ 47 →
      count f asan M'' a = (if covered o size a && first_word a then 0 else count f asan M a) ∧
      is_straddle_line f asan M'' a = negb (covered o size a) && is_straddle_line f asan M a)).
Proof. intros HM Hr0 Ho Hs Hb Hr Hlb Hfuel. apply promote_marks; try done. intros Hl. specialize (Hlb Hl). lia. Qed.
End straddle.
End counts.

(** An object of 1000 bytes, 200 bytes into a line. *)
Lemma default_features_in : default_features ∈ all_features.
Proof. apply (list_elem_of_lookup_2 _ 486). vm_compute. done. Qed.

Lemma rc_counts_exact_witness :
  let ops := [RcInc 0x20000000000; RcInc 0x20000000004; RcDec 0x20000000000] in
  ∃ M', rc_run default_features false false (λ _, 0) ops = Val ([Ok 0; Ok 1; Ok 2], M') ∧
    rc_run default_features false true (λ _, 0) ops = Val ([Ok 0; Ok 1; Ok 2], M') ∧ count default_features false M' 0x20000000000 = 1.
Proof.
  cbv zeta. destruct (rc_counts_exact default_features false default_features_in (λ _, 0)
    [RcInc 0x20000000000; RcInc 0x20000000004; RcDec 0x20000000000] mem0_ok
    ltac:(intros op; rewrite !elem_of_cons, elem_of_nil; intros [-> |[-> |[-> |[]]]]; cbn; lia)) as (rs & M' & E & Ed & _ & Hc & _).
  assert (rs = [Ok 0; Ok 1; Ok 2] ∧ is_stuck default_features false M' 0x20000000000 = false) as [-> Es].
  { assert (match rc_run default_features false false (λ _, 0) [RcInc 0x20000000000; RcInc 0x20000000004; RcDec 0x20000000000] with
      Val (rs, M') => (rs, is_stuck default_features false M' 0x20000000000) | _ => ([], true) end = ([Ok 0; Ok 1; Ok 2], false)) as X by (vm_compute; reflexivity).
    rewrite E in X. injection X as X1 X2. split; [exact X1|exact X2]. }
  exists M'. split; [exact E|]. split; [rewrite Ed; vm_compute existsb; reflexivity|].
  destruct (Hc 0x20000000000 ltac:(lia)) as (_ & _ & Hx). rewrite (Hx Es). vm_compute. reflexivity.
Defined.
(** The assertion of [inc]: the third increment of a count of two bits panics. *)
Example debug_inc_panics :
  let f := {| f_rc_bits := 1; f_lock := f_lock default_features; f_block := f_block default_features; f_line := f_line default_features |} in
  rc_run f false true (λ _, 0) [RcInc 0x20000000000; RcInc 0x20000000000; RcInc 0x20000000000] = Panic.
Proof. vm_compute. reflexivity. Qed.

Lemma straddle_lines_marked_witness :
  wp (promote_with_size default_features false id 5 (λ _, 0) 0x200000000c8 1000)
    (λ M', count default_features false M' 0x20000000200 = 1 ∧ count default_features false M' 0x20000000400 = 0).
Proof.
  eapply wp_mono; [apply (straddle_lines_marked default_features false default_features_in id 0 5 (λ _, 0) 0x200000000c8 1000);
    [exact mem0_ok|unfold id; lia|lia|lia|lia|unfold id; lia|vm_compute; discriminate|vm_compute; reflexivity]|].
  intros M' (_ & H & _). destruct (H 0x20000000200 ltac:(lia)) as [-> _], (H 0x20000000400 ltac:(lia)) as [-> _].
  split; vm_compute; reflexivity.
Defined.
