(* ===== verification/ImmixHoles.v ===== *)
(** * Holes in Immix blocks (src/src/policy/immix/: block.rs, line.rs, immixspace.rs)

    A block of the reference-counting Immix space is reused by its holes: runs of
    lines in which no word has a count.  A live line may hold the start of an object
    that ends in the next line without giving it a count, so the first free line after
    a live one is not used, unless it is the first line of the block.

    The definitions follow [RCArray], [Block::calc_dead_lines], [has_holes],
    [iter_holes], [calc_holes], [rc_dead] and [ImmixSpace::rc_get_next_available_lines].
    Indices of [RCArray] are below [Block::LINES] in every loop, so the bounds check of
    its array never fails.  What the space and the binding configure is in [ImmixEnv]. *)

From S2P Require Import Prelude Conversions Memory SideMetadata SideMetadataSpecs Regions RefCount.

Section immix.
Context (f : features) (asan : bool).

Abbreviation Block_LOG_BYTES := (f_block f).
Abbreviation Line_LOG_BYTES := (f_line f).
Definition LOG_LINES : Z := Block_LOG_BYTES -u Line_LOG_BYTES.
Definition LINES : Z := ushl 64 1 LOG_LINES.

Definition Block_align (address : Z) : Z := align_down address (BYTES Block_LOG_BYTES).
Definition block_of_line (line : Z) : Z := from_unaligned_address Block_LOG_BYTES line.
Definition end_line (block : Z) : Z := block +u BYTES Block_LOG_BYTES.
Definition get_index_within_block (line : Z) : Z :=
  Z.shiftr (get_extent line (Block_align line)) Line_LOG_BYTES.

(** ** RCArray *)

Definition LOG_BITS_PER_LINE : Z := Line_LOG_BYTES -u LOG_MIN_OBJECT_SIZE +u f_rc_bits f.
Definition BITS_PER_LINE : Z := ushl 64 1 LOG_BITS_PER_LINE.
Definition rc_table_start (block : Z) : Z := address_to_meta_address (RC_TABLE f asan) block.

(** [table[i]] is [BITS_PER_LINE] bits, an integer or an array of bytes; it is zero
    when all its bytes are. *)
Definition rc_is_dead (M : mem) (block i : Z) : bool :=
  load_bytes (Z.to_nat (BITS_PER_LINE `div` 8)) M (rc_table_start block + i * (BITS_PER_LINE `div` 8)) =? 0.

(** [rc_dead]: the whole table of the block, as a slice of [u128]. *)
Definition rc_dead (M : mem) (block : Z) : bool :=
  let start := address_to_meta_address (RC_TABLE f asan) block in
  let limit := address_to_meta_address (RC_TABLE f asan) (end_line block) in
  forallb (λ k, load_bytes 16 M (start + k * 16) =? 0) (seqZ 0 ((limit - start) `div` 16)).

(** ** The scans *)

Section scan.
Context (is_dead : Z → bool).

(** The [for i in start_cursor..limit] loop that finds where a hole starts; [n] is
    the number of lines left. *)
Fixpoint find_start (n : nat) (i : Z) (find_free_line : bool) : option Z :=
  match n with
  | O => None
  | S n =>
    if is_dead i
    then if i =? 0 then Some i
         else if negb find_free_line then find_start n (i + 1) true
         else Some i
    else find_start n (i + 1) false
  end.

(** The [while cursor < limit] loop that finds where it ends. *)
Fixpoint find_limit (n : nat) (cursor : Z) : Z :=
  match n with
  | O => cursor
  | S n => if negb (is_dead cursor) then cursor else find_limit n (cursor + 1)
  end.

Fixpoint count_dead (n : nat) (i dead_lines : Z) : Z :=
  match n with
  | O => dead_lines
  | S n => count_dead n (i + 1) (if is_dead i then dead_lines + 1 else dead_lines)
  end.

Fixpoint has_holes_loop (min_reuse_lines : Z) (n : nat) (i : Z) (found_free_line : bool) (free_lines : Z) : bool :=
  match n with
  | O => false
  | S n =>
    if is_dead i
    then
      let '(free_lines, found_free_line) :=
        if (i =? 0) || found_free_line then (free_lines + 1, found_free_line) else (free_lines, true) in
      if min_reuse_lines <=? free_lines then true
      else has_holes_loop min_reuse_lines n (i + 1) found_free_line free_lines
    else has_holes_loop min_reuse_lines n (i + 1) false 0
  end.

(** The calls of [f] by [iter_holes], in order. *)
Fixpoint iter_holes_loop (fuel : nat) (i : Z) : res (list Z) :=
  match fuel with
  | O => NoFuel
  | S fuel =>
    if i <? LINES
    then if is_dead i
         then
           let j := find_limit (Z.to_nat (LINES - (i + 1))) (i + 1) in
           rest ← iter_holes_loop fuel j; Val ((j - i) :: rest)
         else iter_holes_loop fuel (i + 1)
    else Val []
  end.

(** The closure of [calc_holes]: only the end of the hole is returned. *)
Definition search_next_hole (start : Z) : option Z :=
  first_free_cursor ← find_start (Z.to_nat (LINES - start)) start false;
  Some (find_limit (Z.to_nat (LINES - (first_free_cursor + 1))) (first_free_cursor + 1)).
Fixpoint calc_holes_loop (min_reuse_lines : Z) (fuel : nat) (cursor holes : Z) : res Z :=
  match fuel with
  | O => NoFuel
  | S fuel =>
    match search_next_hole cursor with
    | Some end_ =>
      let cursor := end_ in
      let holes := if min_reuse_lines <=? end_ -u cursor then holes + 1 else holes in
      calc_holes_loop min_reuse_lines fuel cursor holes
    | None => Val holes
    end
  end.
End scan.

Definition calc_dead_lines (M : mem) (block : Z) : Z :=
  count_dead (rc_is_dead M block) (Z.to_nat LINES) 0 0.
Definition has_holes (min_reuse_lines : Z) (M : mem) (block : Z) : bool :=
  has_holes_loop (rc_is_dead M block) min_reuse_lines (Z.to_nat LINES) 0 false 0.
Definition iter_holes (fuel : nat) (M : mem) (block : Z) : res (list Z) :=
  iter_holes_loop (rc_is_dead M block) fuel 0.
Definition calc_holes (min_reuse_lines : Z) (fuel : nat) (M : mem) (block : Z) : res Z :=
  calc_holes_loop (rc_is_dead M block) min_reuse_lines fuel 0 0.

(** ** Line metadata of a run of lines *)

(** The binding's tables, the arguments and the state the search reads. *)
Record ImmixEnv : Type := {
  min_reuse_lines : Z;
  needs_log_bit : bool;
  cm_in_progress_or_final_mark : bool;
  GLOBAL_FIELD_UNLOG_BIT_SPEC : SideMetadataSpec;
  LOCAL_MARK_BIT_SPEC : SideMetadataSpec;
  COMPRESSED_PTR_ENABLED : bool
}.
Context (env : ImmixEnv).

Definition unlog_meta_bytes (start end_ : Z) : res Z :=
  let log_meta_bits_per_line :=
    Line_LOG_BYTES -u LOG_BYTES_IN_WORD +u (if negb (COMPRESSED_PTR_ENABLED env) then 0 else 1) in
  let log_meta_bytes_per_line := log_meta_bits_per_line -u LOG_BITS_IN_BYTE in
  steps ← unwrap (steps_between Line_LOG_BYTES start end_);
  Val (ushl 64 steps log_meta_bytes_per_line).
Definition clear_field_unlog_table (M : mem) (start end_ : Z) : res mem :=
  let meta_start := address_to_meta_address (GLOBAL_FIELD_UNLOG_BIT_SPEC env) start in
  meta_bytes ← unlog_meta_bytes start end_;
  Val (mem_zero M meta_start meta_bytes).
Definition initialize_field_unlog_table_as_unlogged (M : mem) (start end_ : Z) : res mem :=
  let meta_start := address_to_meta_address (GLOBAL_FIELD_UNLOG_BIT_SPEC env) start in
  meta_bytes ← unlog_meta_bytes start end_;
  Val (mem_set M meta_start 255 meta_bytes).
Definition initialize_mark_table_as_marked (M : mem) (start end_ : Z) : mem :=
  let meta_start := address_to_meta_address (LOCAL_MARK_BIT_SPEC env) start in
  let limit := address_to_meta_address (LOCAL_MARK_BIT_SPEC env) end_ in
  mem_set M meta_start 255 (limit - meta_start).

(** ** Searching for a hole *)

Record ImmixState : Type := { im_mem : mem; reused_lines_consumed : Z }.

(** What is done with the lines that are handed out. *)
Definition log_lines (M : mem) (copy : bool) (start end_ : Z) : res mem :=
  if needs_log_bit env
  then if negb copy then clear_field_unlog_table M start end_
       else initialize_field_unlog_table_as_unlogged M start end_
  else Val M.
Definition acquire_lines (st : ImmixState) (copy : bool) (start end_ : Z) : res ImmixState :=
  M ← log_lines (im_mem st) copy start end_;
  num_lines ← unwrap (steps_between Line_LOG_BYTES start end_);
  let consumed :=
    if negb copy then reused_lines_consumed st +u num_lines else reused_lines_consumed st in
  let M := if cm_in_progress_or_final_mark env then initialize_mark_table_as_marked M start end_ else M in
  Val {| im_mem := M; reused_lines_consumed := consumed |}.

Fixpoint rc_get_next_available_lines (fuel : nat) (st : ImmixState) (copy : bool) (search_start : Z)
    : res (option (Z * Z) * ImmixState) :=
  match fuel with
  | O => NoFuel
  | S fuel =>
    let block := block_of_line search_start in
    let is_dead := rc_is_dead (im_mem st) block in
    let limit := LINES in
    let start_cursor := get_index_within_block search_start in
    match find_start is_dead (Z.to_nat (limit - start_cursor)) start_cursor false with
    | None => Val (None, st)
    | Some start =>
      let end_ := find_limit is_dead (Z.to_nat (limit - (start + 1))) (start + 1) in
      let start := block +u ushl 64 start Line_LOG_BYTES in
      let end_ := block +u ushl 64 end_ Line_LOG_BYTES in
      steps ← unwrap (steps_between Line_LOG_BYTES start end_);
      if steps <? min_reuse_lines env
      then if end_ =? end_line block then Val (None, st)
           else rc_get_next_available_lines fuel st copy end_
      else
        st ← acquire_lines st copy start end_;
        Val (Some (start, end_), st)
    end
  end.
End immix.
