(* ===== verification/ImmixHolesTheorems.v ===== *)
(** * The lines that are handed out are free

    The search of [rc_get_next_available_lines] ends, returns the first hole of the
    block that is large enough, and never a line that an object with a count occupies.
    The statistics of a block agree with it, except [calc_holes]. *)

From S2P Require Import Prelude Conversions Memory SideMetadata SideMetadataBits SideMetadataOps SideMetadataTheorems.
From S2P Require Import SideMetadataSpecs Regions RefCount ImmixHoles.

(** ** Runs of free lines *)

Section runs.
Context (dead : Z → bool) (N : Z).

(** A search from line [s] can start a hole at line [a]: [a] is free, and it is the
    first line of the block or the second of a run of free lines as seen from [s]. *)
Definition start_ok (s a : Z) : Prop :=
  s ≤ a ∧ dead a = true ∧
  (a = 0 ∨ 2 ≤ a ∧ s < a ∧ dead (a - 1) = true ∧ (a - 1 = s ∨ dead (a - 2) = false)).
(** The hole [a, e): free lines up to a live one or the end of the block. *)
Definition usable_run (s a e : Z) : Prop :=
  start_ok s a ∧ a < e ≤ N ∧ (∀ i, a ≤ i < e → dead i = true) ∧ (e = N ∨ dead e = false).

(** The answer of a search from [s] for a hole of at least [m] lines. *)
Definition hole_answer (m s : Z) (r : option (Z * Z)) : Prop :=
  match r with
  | Some (a, e) => usable_run s a e ∧ m ≤ e - a ∧ ∀ a' e', usable_run s a' e' → m ≤ e' - a' → a ≤ a'
  | None => ∀ a' e', usable_run s a' e' → e' - a' < m
  end.

Lemma find_start_spec n s i flag :
  0 ≤ s ≤ i → i + Z.of_nat n = N →
  (if flag : bool then 2 ≤ i ∧ s < i ∧ dead (i - 1) = true ∧ (i - 1 = s ∨ dead (i - 2) = false)
   else i = s ∨ dead (i - 1) = false) →
  match find_start dead n i flag with
  | Some a => i ≤ a < N ∧ start_ok s a ∧ ∀ a', start_ok s a' → i ≤ a' → a ≤ a'
  | None => ∀ a', start_ok s a' → i ≤ a' → N ≤ a'
  end.
Proof.
  revert i flag. induction n as [|n IH]; intros i flag Hs Hn Hflag; simpl; [intros; lia|].
  assert (∀ r, ¬ start_ok s i → match r with
    | Some a => i + 1 ≤ a < N ∧ start_ok s a ∧ ∀ a', start_ok s a' → i + 1 ≤ a' → a ≤ a'
    | None => ∀ a', start_ok s a' → i + 1 ≤ a' → N ≤ a' end → match r with
    | Some a => i ≤ a < N ∧ start_ok s a ∧ ∀ a', start_ok s a' → i ≤ a' → a ≤ a'
    | None => ∀ a', start_ok s a' → i ≤ a' → N ≤ a' end) as Hskip.
  { intros r Hni. assert (∀ a', start_ok s a' → i ≤ a' → i + 1 ≤ a') as Hlt
      by (intros a' Ha' Hle; destruct (decide (a' = i)) as [-> |]; [done|lia]).
    destruct r as [a|]; [|auto]. intros (? & ? & Hmin). split_and!; [lia..|done|auto]. }
  destruct (dead i) eqn:Hd.
  - destruct (Z.eqb_spec i 0) as [-> |Hi0].
    { unfold start_ok. split_and!; auto; intros; lia. }
    destruct flag; simpl.
    + unfold start_ok. split_and!; auto; intros; lia.
    + apply Hskip; [|apply IH; [lia|lia|]].
      * intros (_ & _ & [?|(? & ? & Hdp & _)]); [lia|]. destruct Hflag; [lia|congruence].
      * replace (i + 1 - 1) with i by lia. replace (i + 1 - 2) with (i - 1) by lia.
        split_and!; auto; try lia; destruct Hflag; auto.
  - apply Hskip; [|apply IH; [lia|lia|]].
    + intros (_ & ? & _). congruence.
    + right. by replace (i + 1 - 1) with i by lia.
Qed.

Lemma find_limit_spec n i :
  i + Z.of_nat n = N → let e := find_limit dead n i in
  i ≤ e ≤ N ∧ (∀ j, i ≤ j < e → dead j = true) ∧ (e = N ∨ dead e = false).
Proof.
  revert i. induction n as [|n IH]; intros i Hn; simpl; [split_and!; [lia..|lia|left; lia]|].
  destruct (dead i) eqn:Hd; simpl; [|split_and!; [lia..|lia|by right]].
  destruct (IH (i + 1) ltac:(lia)) as (? & Hall & ?). split_and!; [lia..| |done].
  intros j Hj. destruct (decide (j = i)) as [-> |]; [done|apply Hall; lia].
Qed.

Lemma usable_run_end s a e e' : usable_run s a e → usable_run s a e' → e = e'.
Proof.
  intros (_ & H1 & D1 & E1) (_ & H2 & D2 & E2).
  destruct (decide (e < e')); [destruct E1; [lia|]; rewrite D2 in * by lia; done|].
  destruct (decide (e' < e)); [destruct E2; [lia|]; rewrite D1 in * by lia; done|lia].
Qed.

(** A hole that is too small is skipped: the search goes on from the live line after it. *)
Lemma hole_answer_skip m s a e r :
  0 ≤ s → usable_run s a e → (∀ a', start_ok s a' → s ≤ a' → a ≤ a') → e - a < m → e < N →
  hole_answer m e r → hole_answer m s r.
Proof.
  intros Hs Hr Hmin Hm HeN. pose proof Hr as ((Hsa & Hda & Hst) & Hae & Hall & He).
  assert (dead e = false) as Hde by (destruct He; [lia|done]).
  assert (∀ a' e', usable_run e a' e' → usable_run s a' e') as Hup.
  { intros a' e' ((? & ? & Hc) & ? & ? & ?). split_and!; auto; [|lia..].
    split_and!; [lia|done|]. destruct Hc as [-> |(? & ? & Hp & Hq)]; [lia|]. right.
    destruct Hq as [Hq|Hq]; [rewrite Hq in Hp; congruence|]. split_and!; auto; lia. }
  assert (∀ a' e', usable_run s a' e' → m ≤ e' - a' → usable_run e a' e') as Hdown.
  { intros a' e' Hr' Hlen. pose proof Hr' as (Hs' & ? & ? & ?). pose proof Hs' as (Hsa' & Hda' & Hc).
    specialize (Hmin a' Hs' Hsa').
    destruct (decide (a' = a)) as [-> |]; [rewrite (usable_run_end s a e' e) in Hlen by done; lia|].
    destruct (decide (a' = e)) as [-> |]; [congruence|].
    destruct Hc as [-> |(? & ? & Hp & Hq)]; [lia|].
    destruct (decide (a' < e)).
    { exfalso. destruct Hq as [Hq|Hq]; [destruct Hst as [-> |(? & ? & ? & ?)]; lia|].
      destruct (decide (a ≤ a' - 2)); [rewrite Hall in Hq by lia; done|].
      assert (a' = a + 1) as -> by lia. destruct Hst as [-> |(? & ? & Hap & ?)]; [lia|].
      replace (a + 1 - 2) with (a - 1) in Hq by lia. congruence. }
    split_and!; auto; try lia. split_and!; [lia|done|]. right.
    destruct (decide (a' - 1 = e)) as [E|]; [rewrite E in Hp; congruence|]. split_and!; auto; try lia.
    destruct Hq as [Hq|Hq]; [lia|by right]. }
  destruct r as [[a1 e1]|]; simpl.
  - intros (H1 & H2 & H3). split_and!; auto. intros a' e' Hr' Hl'. eauto.
  - intros H1 a' e' Hr'. destruct (decide (m ≤ e' - a')); [|lia]. eauto.
Qed.
End runs.

(** ** Zero values *)

Lemma load_zero s : spec_ok s → ∀ M a, mem_ok M → addr_ok a →
  load s M a = 0 ↔ ∀ j, base s a ≤ j < base s a + width s → membit M j = false.
Proof.
  intros Hok M a HM Ha. split.
  - intros E j Hj. pose proof (testbit_load _ Hok M a (j - base s a) HM Ha ltac:(lia)) as Ht.
    rewrite E, Z.bits_0 in Ht. destruct (Z.ltb_spec (j - base s a) (width s)); [|lia]. cbn [andb] in Ht.
    rewrite Ht. f_equal. lia.
  - intros Hb. apply Z.bits_inj'. intros i Hi. rewrite testbit_load, Z.bits_0 by done.
    destruct (Z.ltb_spec i (width s)); cbn [andb]; [|done]. apply Hb. lia.
Qed.

Lemma load_bytes_zero n M x :
  mem_ok M → load_bytes n M x = 0 ↔ ∀ j, 8 * x ≤ j < 8 * x + 8 * Z.of_nat n → membit M j = false.
Proof.
  intros HM. split.
  - intros E j Hj. pose proof (testbit_load_bytes n M x (j - 8 * x) HM ltac:(lia)) as Ht.
    rewrite E, Z.bits_0 in Ht. destruct (Z.ltb_spec (j - 8 * x) (8 * Z.of_nat n)); [|lia]. simpl in Ht.
    rewrite Ht. f_equal. lia.
  - intros Hb. apply Z.bits_inj'. intros i Hi. rewrite testbit_load_bytes, Z.bits_0 by done.
    destruct (Z.ltb_spec i (8 * Z.of_nat n)); simpl; [|done]. apply Hb. lia.
Qed.

(** A run of bytes that holds the values of consecutive words. *)
Lemma words_zero s : spec_ok s → (∀ a, region s a = a `div` 8) →
  ∀ M block i L K nb x, mem_ok M → 0 ≤ block → 0 ≤ i → 0 < K → L = 8 * K → (8 | block) →
  block + (i + 1) * L ≤ 2 ^ 47 →
  8 * Z.of_nat nb = K * width s → 8 * x = base s block + i * (K * width s) →
  load_bytes nb M x = 0 ↔ ∀ a, block + i * L ≤ a < block + (i + 1) * L → load s M a = 0.
Proof.
  intros Hok Hreg M block i L K nb x HM Hb0 Hi HK EL [q Hq] Hb1 E1 E2. pose proof (width_pos s Hok) as [Hw _].
  assert (∀ a, base s a = 8 * sm_offset s + a `div` 8 * width s) as Hbase by (intros a; unfold base; by rewrite Hreg).
  assert (block `div` 8 = q) as Eq by (rewrite Hq; apply Z.div_mul; lia).
  rewrite load_bytes_zero by done. rewrite E1, E2. rewrite !Hbase, Eq. remember (width s) as w eqn:Ew. split.
  - intros Hz a Ha. apply (load_zero s Hok); [done|unfold addr_ok; nia|]. rewrite <-Ew. intros j Hj. apply Hz. rewrite Hbase in Hj.
    assert (q + i * K ≤ a `div` 8 < q + (i + 1) * K) as [H1 H2].
    { split; [apply Z.div_le_lower_bound; lia|apply Z.div_lt_upper_bound; lia]. }
    pose proof (Z.mul_le_mono_nonneg_r _ _ w ltac:(lia) H1).
    pose proof (Z.mul_le_mono_nonneg_r (a `div` 8 + 1) (q + (i + 1) * K) w ltac:(lia) ltac:(lia)).
    lia.
  - intros Hz j Hj. remember (j - (8 * sm_offset s + q * w)) as d eqn:Ed.
    pose proof (Z.div_mod d w ltac:(lia)). pose proof (Z.mod_pos_bound d w ltac:(lia)).
    remember (d `div` w) as wd eqn:Ewd.
    assert (i * K ≤ wd < (i + 1) * K) as [H1 H2].
    { rewrite Ewd. split; [apply Z.div_le_lower_bound; lia|apply Z.div_lt_upper_bound; lia]. }
    specialize (Hz (block + wd * 8) ltac:(lia)). rewrite (load_zero s Hok) in Hz by (done || unfold addr_ok; nia).
    apply Hz. rewrite <-Ew, Hbase, Z.div_add, Eq by lia. lia.
Qed.

(** The bytes of a table of bits between two positions that are byte boundaries. *)
Lemma bit_table_bytes s x : spec_ok s → log_num_of_bits s = 0 → (2 ^ (log_bytes_in_region s + 3) | x) → addr_ok x →
  8 * address_to_meta_address s x = base s x ∧
  address_to_meta_address s x = sm_offset s + x `div` 2 ^ (log_bytes_in_region s + 3).
Proof.
  intros Hok Hk [q Hq] Hx. pose proof (sp_region s Hok).
  assert (region s x = 8 * q) as Er.
  { unfold region. rewrite Hq, Z.pow_add_r by lia. change (2 ^ 3) with 8.
    replace (q * (2 ^ log_bytes_in_region s * 8)) with (8 * q * 2 ^ log_bytes_in_region s) by lia.
    apply Z.div_mul. apply Z.pow_nonzero; lia. }
  assert (x `div` 2 ^ (log_bytes_in_region s + 3) = q) as -> by (rewrite Hq; apply Z.div_mul, Z.pow_nonzero; lia).
  rewrite meta_address_eq by done. unfold base, width. rewrite Er, Hk. change (2 ^ 0) with 1.
  replace (8 * q * 1) with (q * 8) by lia. rewrite Z.div_mul by lia. lia.
Qed.

Lemma set_bit_table s M x y (v : bool) :
  spec_ok s → log_num_of_bits s = 0 → mem_ok M → 0 ≤ x ≤ y → y ≤ 2 ^ 47 →
  (2 ^ (log_bytes_in_region s + 3) | x) → (2 ^ (log_bytes_in_region s + 3) | y) →
  let M' := mem_set M (address_to_meta_address s x) (if v then 255 else 0)
              (address_to_meta_address s y - address_to_meta_address s x) in
  mem_ok M' ∧
  (∀ b, 0 ≤ b < 2 ^ 47 → load s M' b = if decide (x ≤ b < y) then Z.b2z v else load s M b) ∧
  (∀ o b, spec_ok o → tables_disjoint s o → 0 ≤ b < 2 ^ 47 → load o M' b = load o M b).
Proof.
  intros Hok Hk HM Hxy Hy Hdx Hdy M'. pose proof (sp_region s Hok).
  destruct (bit_table_bytes s x Hok Hk Hdx ltac:(unfold addr_ok; lia)) as [Ex _].
  destruct (bit_table_bytes s y Hok Hk Hdy ltac:(unfold addr_ok; lia)) as [Ey _].
  assert (∀ z, (2 ^ (log_bytes_in_region s + 3) | z) → (2 ^ log_bytes_in_region s | z)) as Hdiv.
  { intros z [q ->]. exists (q * 8). rewrite Z.pow_add_r by lia. change (2 ^ 3) with 8. lia. }
  assert (mem_ok M') as HM' by (apply mem_ok_set; [done|by destruct v]).
  assert (∀ j, membit M' j = if (base s x <=? j) && (j <? base s y) then v else membit M j) as Hbits.
  { intros j. unfold M'. rewrite membit_set, Ex.
    replace (8 * (address_to_meta_address s x + _)) with (base s y) by lia.
    destruct (_ && _); [|done]. destruct v; [|apply Z.bits_0].
    change 255 with (Z.ones 8). pose proof (Z.mod_pos_bound j 8 ltac:(lia)).
    rewrite Z.testbit_ones_nonneg by lia. lia. }
  split_and!; [done| |].
  - intros b Hb. replace y with (x + (y - x)) in * by lia.
    rewrite (bulk_value s M M' x (y - x) b v); try done; [|by apply Hdiv|].
    + case_decide; [|done]. unfold width. rewrite Hk. by destruct v.
    + apply Hdiv. replace (y - x) with (x + (y - x) - x) by lia. by apply Z.divide_sub_r.
  - intros o b Ho Hdis Hb. unfold tables_disjoint in Hdis. rewrite !upper_bound_eq in Hdis by done.
    pose proof (base_in_table o b Ho Hb).
    assert (8 * sm_offset s ≤ base s x ∧ base s y ≤ 8 * (sm_offset s + table_bytes s)).
    { destruct (region_bound s Hok y ltac:(lia)) as [Hrb _]. specialize (Hrb Hy).
      pose proof (region_nonneg s Hok x ltac:(lia)). pose proof (width_pos s Hok). unfold base. nia. }
    apply load_ext; try done; try (unfold addr_ok; lia). intros i Hi. rewrite Hbits.
    destruct (Z.leb_spec (base s x) (base o b + i)), (Z.ltb_spec (base o b + i) (base s y)); simpl; lia || done.
Qed.

(** ** Blocks and lines *)

Section blocks.
Context (f : features) (asan : bool).
Context (Hf : f ∈ all_features).
Context (block : Z).
(** An aligned block inside the address space. *)
Definition block_ok : Prop := 0 ≤ block ∧ (2 ^ f_block f | block) ∧ block + 2 ^ f_block f ≤ 2 ^ 47.
Context (Hblock : block_ok).

Abbreviation L := (2 ^ f_line f).
Abbreviation N := (2 ^ (f_block f - f_line f)).

Lemma LINES_eq : LINES f = N ∧ N * L = 2 ^ f_block f ∧ 8 ≤ N ≤ 4096 ∧ 2 ^ f_block f ≤ 2 ^ 20.
Proof.
  pose proof (features_range f Hf) as (_ & Hb & Hl). unfold LINES, LOG_LINES. rewrite usub_id by lia.
  assert (2 ^ 3 ≤ N ≤ 2 ^ 12) as HN by (split; apply Z.pow_le_mono_r; lia).
  change (2 ^ 3) with 8 in HN. change (2 ^ 12) with 4096 in HN.
  split_and!; try lia; [rewrite ushl_id by lia; lia| |apply Z.pow_le_mono_r; lia].
  rewrite <-Z.pow_add_r by lia. f_equal. lia.
Qed.

Lemma L_range : 256 ≤ L ≤ 1024.
Proof. by pose proof (line_bytes f Hf) as (_ & _ & ?). Qed.

(** The lines of the block, and the block and index of a line. *)
Lemma line_address i : 0 ≤ i ≤ N → block +u ushl 64 i (f_line f) = block + i * L.
Proof.
  intros Hi. pose proof LINES_eq as (_ & E & ? & ?). pose proof L_range. destruct Hblock as (? & _ & ?).
  pose proof (features_range f Hf) as (_ & _ & ?).
  assert (0 ≤ i * L ≤ N * L) by nia. rewrite ushl_id by lia. apply uadd_id. lia.
Qed.

Lemma line_in_block i : 0 ≤ i < N → block ≤ block + i * L ∧ block + i * L + L ≤ block + 2 ^ f_block f.
Proof. intros Hi. pose proof LINES_eq as (_ & E & _). pose proof L_range. nia. Qed.

Lemma block_of_line_eq i : 0 ≤ i < N → block_of_line f (block + i * L) = block.
Proof.
  intros Hi. pose proof (line_in_block i Hi). pose proof L_range. destruct Hblock as (? & Hd & ?).
  pose proof (features_range f Hf) as (_ & ? & _).
  apply region_align_unique; try done; try lia. unfold is_u. lia.
Qed.

Lemma get_index_within_block_eq i : 0 ≤ i < N → get_index_within_block f (block + i * L) = i.
Proof.
  intros Hi. pose proof (block_of_line_eq i Hi) as E. unfold get_index_within_block, get_extent.
  change (Block_align f (block + i * L)) with (block_of_line f (block + i * L)). rewrite E.
  pose proof (line_in_block i Hi). pose proof L_range. destruct Hblock as (? & _ & ?).
  pose proof (features_range f Hf) as (_ & _ & ?).
  rewrite usub_id by lia. replace (block + i * L - block) with (i * L) by lia.
  rewrite shiftr_div, Z.div_mul by lia. done.
Qed.

Lemma end_line_eq : end_line f block = block + N * L.
Proof.
  unfold end_line. pose proof (features_range f Hf) as (_ & ? & _). pose proof LINES_eq as (_ & E & ? & ?).
  destruct Hblock as (? & _ & ?). rewrite BYTES_eq by lia. rewrite E. apply uadd_id. lia.
Qed.

(** ** A free line has no count *)

Abbreviation rcw := (width (RC_TABLE f asan)).
Abbreviation rcbase := (base (RC_TABLE f asan)).

Lemma count_zero M a :
  mem_ok M → 0 ≤ a < 2 ^ 47 →
  count f asan M a = 0 ↔ ∀ j, rcbase a ≤ j < rcbase a + rcw → membit M j = false.
Proof. intros HM Ha. apply (load_zero _ (rc_table_ok f asan Hf) M a HM). unfold addr_ok. lia. Qed.

(** The bits of line [i] are those of its words. *)
Lemma line_bits i : 0 ≤ i < N →
  8 * Z.of_nat (Z.to_nat (BITS_PER_LINE f `div` 8)) = L `div` 8 * rcw ∧
  8 * (rc_table_start f asan block + i * (BITS_PER_LINE f `div` 8)) = rcbase block + i * (L `div` 8 * rcw).
Proof.
  intros Hi. pose proof (line_bytes f Hf) as (EL & HK & _). set (K := 2 ^ (f_line f - 3)) in *.
  pose proof (features_range f Hf) as (Hrc & Hb & Hl). pose proof (rc_table_ok f asan Hf) as Hok.
  assert (L `div` 8 = K) as -> by (rewrite EL, Z.mul_comm; apply Z.div_mul; lia).
  assert (BITS_PER_LINE f = K * rcw) as EB.
  { unfold BITS_PER_LINE, LOG_BITS_PER_LINE. change LOG_MIN_OBJECT_SIZE with 3.
    rewrite (usub_id (f_line f)) by lia. rewrite uadd_id by lia. rewrite rc_width by done.
    unfold K. rewrite <-Z.pow_add_r by lia.
    assert (2 ^ (f_line f - 3 + f_rc_bits f) ≤ 2 ^ 10) by (apply Z.pow_le_mono_r; lia).
    rewrite ushl_id by lia. lia. }
  assert (exists c, K = 8 * c) as [c Ec].
  { exists (2 ^ (f_line f - 6)). unfold K. change 8 with (2 ^ 3). rewrite <-Z.pow_add_r by lia. f_equal. lia. }
  pose proof (width_pos _ Hok) as Hw.
  assert (BITS_PER_LINE f `div` 8 = c * rcw) as E8.
  { rewrite EB, Ec. replace (8 * c * rcw) with (c * rcw * 8) by lia. apply Z.div_mul. lia. }
  rewrite E8. split; [rewrite Z2Nat.id by nia; nia|].
  assert (8 * rc_table_start f asan block = rcbase block) as <-; [|nia].
  destruct Hblock as (? & [q Hq] & ?). unfold rc_table_start. rewrite meta_address_eq by (done || unfold addr_ok; lia).
  unfold base. rewrite rc_region.
  assert (block `div` 8 = 8 * (q * 2 ^ (f_block f - 6))) as ->.
  { replace (f_block f) with (f_block f - 6 + 6) in Hq by lia. rewrite Z.pow_add_r in Hq by lia.
    change (2 ^ 6) with (8 * 8) in Hq. rewrite Hq.
    replace (q * (2 ^ (f_block f - 6) * (8 * 8))) with (8 * (q * 2 ^ (f_block f - 6)) * 8) by lia.
    apply Z.div_mul. lia. }
  replace (8 * (q * 2 ^ (f_block f - 6)) * rcw) with (q * 2 ^ (f_block f - 6) * rcw * 8) by lia.
  rewrite Z.div_mul by lia. lia.
Qed.

Lemma rc_is_dead_spec M i :
  mem_ok M → 0 ≤ i < N →
  rc_is_dead f asan M block i = true ↔ ∀ a, block + i * L ≤ a < block + (i + 1) * L → count f asan M a = 0.
Proof.
  intros HM Hi. pose proof (line_in_block i Hi) as Hin. pose proof L_range. destruct Hblock as (Hb0 & [q Hq] & Hb1).
  unfold rc_is_dead. rewrite Z.eqb_eq. pose proof (line_bytes f Hf) as (EL & _). destruct (line_bits i Hi) as [E1 E2].
  replace (L `div` 8) with (2 ^ (f_line f - 3)) in E1, E2 by (rewrite EL, Z.mul_comm, Z.div_mul; lia).
  apply (words_zero _ (rc_table_ok f asan Hf) (rc_region f asan) M block i L (2 ^ (f_line f - 3))); try done; try lia.
  pose proof (features_range f Hf) as (_ & ? & _). exists (q * 2 ^ (f_block f - 3)). rewrite Hq.
  replace (f_block f) with (f_block f - 3 + 3) at 1 by lia. rewrite Z.pow_add_r by lia. change (2 ^ 3) with 8. lia.
Qed.

(** ** The search *)

Context (env : ImmixEnv).
Abbreviation dead M := (rc_is_dead f asan M block).

Lemma steps_eq a e : 0 ≤ a ≤ e → e ≤ N → steps_between (f_line f) (block + a * L) (block + e * L) = Some (e - a).
Proof.
  intros Ha He. pose proof (features_range f Hf) as (_ & _ & ?). pose proof LINES_eq as (_ & E & ? & ?).
  pose proof L_range. destruct Hblock as (? & _ & ?).
  replace (block + e * L) with (block + a * L + (e - a) * L) by lia. apply steps_between_eq; nia.
Qed.

Lemma acquire_lines_total st copy a e : 0 ≤ a ≤ e → e ≤ N →
  ∃ st', acquire_lines f env st copy (block + a * L) (block + e * L) = Val st'.
Proof.
  intros Ha He. unfold acquire_lines, log_lines, clear_field_unlog_table, initialize_field_unlog_table_as_unlogged, unlog_meta_bytes.
  rewrite steps_eq by done. destruct (needs_log_bit env), copy; eexists; reflexivity.
Qed.

(** The search ends, and hands out the first hole that is large enough. *)
Lemma rc_search st copy : ∀ fuel s, 0 ≤ s < N → N - s < Z.of_nat fuel →
  wp (rc_get_next_available_lines f asan env fuel st copy (block + s * L)) (λ '(r, st'),
    match r with
    | Some (x, y) => ∃ a e, x = block + a * L ∧ y = block + e * L ∧
        hole_answer (dead (im_mem st)) N (min_reuse_lines env) s (Some (a, e)) ∧
        acquire_lines f env st copy x y = Val st'
    | None => hole_answer (dead (im_mem st)) N (min_reuse_lines env) s None ∧ st' = st
    end).
Proof.
  pose proof LINES_eq as (EN & EB & HN & _). pose proof L_range as HL.
  induction fuel as [|fuel IH]; intros s Hs Hfuel; [lia|]. cbn [rc_get_next_available_lines].
  rewrite block_of_line_eq, get_index_within_block_eq, EN by done.
  pose proof (find_start_spec (dead (im_mem st)) N (Z.to_nat (N - s)) s s false ltac:(lia) ltac:(lia) ltac:(by left)) as Hst.
  destruct (find_start _ _ _ _) as [a|].
  2:{ split; [|done]. intros a' e' (Ha' & ? & _). specialize (Hst a' Ha' ltac:(apply Ha')). lia. }
  destruct Hst as (Ha & Hok & Hmin).
  pose proof (find_limit_spec (dead (im_mem st)) N (Z.to_nat (N - (a + 1))) (a + 1) ltac:(lia)) as Hlim. cbv zeta in Hlim.
  set (e := find_limit _ _ _) in *. clearbody e. destruct Hlim as (He & Hall & Hend).
  assert (usable_run (dead (im_mem st)) N s a e) as Hrun.
  { split_and!; try done; try lia. intros i Hi. destruct (decide (i = a)) as [-> |]; [apply Hok|apply Hall; lia]. }
  rewrite !line_address by lia. rewrite steps_eq by lia. change (unwrap (Some (e - a))) with (Val (e - a)).
  cbn [mbind res_bind]. destruct (Z.ltb_spec (e - a) (min_reuse_lines env)) as [Hm|Hm].
  - rewrite end_line_eq. destruct (Z.eqb_spec (block + e * L) (block + N * L)) as [Ee|Ee].
    + assert (e = N) as -> by nia. split; [|done]. intros a' e' (Hs' & ? & _).
      pose proof (Hmin a' Hs' ltac:(apply Hs')). lia.
    + assert (e < N) by (destruct (decide (e = N)) as [-> |]; [done|lia]).
      eapply wp_mono; [apply IH; lia|]. intros [[[x y]|] st'].
      * intros (a1 & e1 & -> & -> & Hans & Hacq). exists a1, e1. split_and!; try done.
        apply (hole_answer_skip _ _ _ _ a e); (done || lia).
      * intros [Hans ->]. split; [|done].
        apply (hole_answer_skip _ _ _ _ a e); (done || lia).
  - destruct (acquire_lines_total st copy a e ltac:(lia) ltac:(lia)) as [st' Est]. rewrite Est. cbn [mbind res_bind wp].
    exists a, e. do 2 (split; [done|]). split; [|done]. do 2 (split; [done|]).
    intros a' e' (Hs' & _) _. apply Hmin; [done|apply Hs'].
Qed.

(** ** What is done to the lines handed out *)

(** One unlog bit per field and one mark bit per word, in tables of their own. *)
Record env_ok : Prop := {
  env_unlog : spec_ok (GLOBAL_FIELD_UNLOG_BIT_SPEC env) ∧ log_num_of_bits (GLOBAL_FIELD_UNLOG_BIT_SPEC env) = 0 ∧
    log_bytes_in_region (GLOBAL_FIELD_UNLOG_BIT_SPEC env) = if COMPRESSED_PTR_ENABLED env then 2 else 3;
  env_mark : spec_ok (LOCAL_MARK_BIT_SPEC env) ∧ log_num_of_bits (LOCAL_MARK_BIT_SPEC env) = 0 ∧
    log_bytes_in_region (LOCAL_MARK_BIT_SPEC env) = 3;
  env_disjoint : tables_disjoint (GLOBAL_FIELD_UNLOG_BIT_SPEC env) (LOCAL_MARK_BIT_SPEC env) ∧
    tables_disjoint (GLOBAL_FIELD_UNLOG_BIT_SPEC env) (RC_TABLE f asan) ∧
    tables_disjoint (LOCAL_MARK_BIT_SPEC env) (RC_TABLE f asan)
}.
Context (Henv : env_ok).

(** The fields of the lines [x, y) are logged for a mutator and unlogged for a copy, and
    during concurrent marking the words are marked; nothing else changes. *)
Definition acquired (copy : bool) (x y : Z) (st st' : ImmixState) : Prop :=
  mem_ok (im_mem st') ∧
  reused_lines_consumed st' =
    (if copy then reused_lines_consumed st else reused_lines_consumed st +u (y - x) `div` L) ∧
  ∀ b, 0 ≤ b < 2 ^ 47 →
    count f asan (im_mem st') b = count f asan (im_mem st) b ∧
    load (GLOBAL_FIELD_UNLOG_BIT_SPEC env) (im_mem st') b =
      (if needs_log_bit env && bool_decide (x ≤ b < y) then Z.b2z copy
       else load (GLOBAL_FIELD_UNLOG_BIT_SPEC env) (im_mem st) b) ∧
    load (LOCAL_MARK_BIT_SPEC env) (im_mem st') b =
      (if cm_in_progress_or_final_mark env && bool_decide (x ≤ b < y) then 1
       else load (LOCAL_MARK_BIT_SPEC env) (im_mem st) b).

Lemma line_divides i k : 0 ≤ k ≤ 6 → 0 ≤ i → (2 ^ k | block + i * L).
Proof.
  intros Hk Hi. pose proof (features_range f Hf) as (_ & ? & ?). destruct Hblock as (_ & [q ->] & _).
  replace (2 ^ f_block f) with (2 ^ (f_block f - k) * 2 ^ k) by (rewrite <-Z.pow_add_r by lia; f_equal; lia).
  replace L with (2 ^ (f_line f - k) * 2 ^ k) by (rewrite <-Z.pow_add_r by lia; f_equal; lia).
  exists (q * 2 ^ (f_block f - k) + i * 2 ^ (f_line f - k)). lia.
Qed.

Lemma unlog_meta_bytes_eq a e : 0 ≤ a ≤ e → e ≤ N →
  unlog_meta_bytes f env (block + a * L) (block + e * L) =
  Val (address_to_meta_address (GLOBAL_FIELD_UNLOG_BIT_SPEC env) (block + e * L) -
       address_to_meta_address (GLOBAL_FIELD_UNLOG_BIT_SPEC env) (block + a * L)).
Proof.
  intros Ha He. destruct (env_unlog Henv) as (Hok & Hk & Hr). pose proof LINES_eq as (_ & EB & HN & _).
  pose proof L_range as HL. destruct Hblock as (Hb0 & _ & Hb1). pose proof (features_range f Hf) as (_ & _ & Hl).
  set (r := log_bytes_in_region (GLOBAL_FIELD_UNLOG_BIT_SPEC env)) in *.
  assert (2 ≤ r ≤ 3 ∧ (if negb (COMPRESSED_PTR_ENABLED env) then 0 else 1) = 3 - r) as [Hr3 Hc]
    by (rewrite Hr; destruct (COMPRESSED_PTR_ENABLED env); (split; [lia|done])).
  assert (∀ i, 0 ≤ i ≤ N → address_to_meta_address (GLOBAL_FIELD_UNLOG_BIT_SPEC env) (block + i * L) =
    sm_offset (GLOBAL_FIELD_UNLOG_BIT_SPEC env) + block `div` 2 ^ (r + 3) + i * 2 ^ (f_line f - (r + 3))) as Hmeta.
  { intros i Hi. assert (0 ≤ i * L ≤ N * L) by nia.
    destruct (bit_table_bytes _ (block + i * L) Hok Hk) as [_ ->]; [apply line_divides; lia|unfold addr_ok; lia|].
    fold r. replace L with (2 ^ (f_line f - (r + 3)) * 2 ^ (r + 3)) by (rewrite <-Z.pow_add_r by lia; f_equal; lia).
    rewrite Z.mul_assoc, Z.div_add by (apply Z.pow_nonzero; lia). lia. }
  unfold unlog_meta_bytes. rewrite Hc, steps_eq, !Hmeta by lia. cbn [unwrap mbind res_bind]. f_equal.
  change LOG_BYTES_IN_WORD with 3. change LOG_BITS_IN_BYTE with 3.
  rewrite (usub_id (f_line f)) by lia. rewrite uadd_id by lia. rewrite usub_id by lia.
  replace (f_line f - 3 + (3 - r) - 3) with (f_line f - (r + 3)) by lia.
  assert (0 < 2 ^ (f_line f - (r + 3)) ≤ 2 ^ 5) by (split; [apply Z.pow_pos_nonneg; lia|apply Z.pow_le_mono_r; lia]).
  rewrite ushl_id by nia. lia.
Qed.

Abbreviation unlog := (GLOBAL_FIELD_UNLOG_BIT_SPEC env).
Abbreviation markbit := (LOCAL_MARK_BIT_SPEC env).

Lemma log_lines_spec M copy a e M' :
  mem_ok M → 0 ≤ a ≤ e → e ≤ N →
  let x := block + a * L in let y := block + e * L in
  log_lines f env M copy x y = Val M' →
  mem_ok M' ∧
  (∀ b, 0 ≤ b < 2 ^ 47 →
    load unlog M' b = if needs_log_bit env && bool_decide (x ≤ b < y) then Z.b2z copy else load unlog M b) ∧
  (∀ o b, spec_ok o → tables_disjoint unlog o → 0 ≤ b < 2 ^ 47 → load o M' b = load o M b).
Proof.
  intros HM Ha He x y. pose proof LINES_eq as (_ & EB & HN & _). pose proof L_range as HL.
  destruct Hblock as (Hb0 & _ & Hb1). destruct (env_unlog Henv) as (Hok & Hk & Hr).
  assert (0 ≤ x ≤ y ∧ y ≤ 2 ^ 47) as [Hxy Hy] by (unfold x, y; nia).
  unfold log_lines. destruct (needs_log_bit env); [|by intros [= <-]].
  assert (3 ≤ log_bytes_in_region unlog + 3 ≤ 6) by (rewrite Hr; destruct (COMPRESSED_PTR_ENABLED env); lia).
  destruct (set_bit_table unlog M x y copy Hok Hk HM Hxy Hy ltac:(apply line_divides; lia) ltac:(apply line_divides; lia))
    as (HM' & HU & HO).
  unfold clear_field_unlog_table, initialize_field_unlog_table_as_unlogged, x, y. rewrite unlog_meta_bytes_eq by lia.
  destruct copy; cbn [negb mbind res_bind]; intros [= <-]; (split; [exact HM'|split; [|exact HO]]);
    intros b Hb; specialize (HU b Hb); cbn [andb]; rewrite <-decide_bool_decide; exact HU.
Qed.

Lemma acquire_lines_spec st copy a e st' :
  mem_ok (im_mem st) → 0 ≤ a ≤ e → e ≤ N →
  acquire_lines f env st copy (block + a * L) (block + e * L) = Val st' →
  acquired copy (block + a * L) (block + e * L) st st'.
Proof.
  intros HM Ha He. pose proof LINES_eq as (_ & EB & HN & _). pose proof L_range as HL.
  destruct Hblock as (Hb0 & _ & Hb1). destruct (env_unlog Henv) as (Hok & _ & _).
  destruct (env_mark Henv) as (Hmok & Hmk & Hmr). destruct (env_disjoint Henv) as (Hd1 & Hd2 & Hd3).
  assert (tables_disjoint markbit unlog) as Hd1' by (destruct Hd1; [by right|by left]).
  pose proof (rc_table_ok f asan Hf) as Hrok.
  assert (0 ≤ block + a * L ≤ block + e * L ∧ block + e * L ≤ 2 ^ 47) as [Hxy Hy] by nia.
  assert ((block + e * L - (block + a * L)) `div` L = e - a) as Hdiv.
  { replace (block + e * L - (block + a * L)) with ((e - a) * L) by lia. apply Z.div_mul. lia. }
  unfold acquire_lines. pose proof (log_lines_spec (im_mem st) copy a e) as Hlog. cbv zeta in Hlog.
  destruct (log_lines _ _ _ _ _) as [M1| |]; [|done..]. destruct (Hlog M1 HM Ha He eq_refl) as (HM1 & HU1 & HO1).
  rewrite steps_eq by lia. cbn [unwrap mbind res_bind]. intros [= <-]. unfold acquired. cbn [im_mem reused_lines_consumed].
  rewrite Hdiv. destruct (set_bit_table markbit M1 (block + a * L) (block + e * L) true Hmok Hmk HM1 Hxy Hy)
    as (HM2 & HU2 & HO2); [apply line_divides; lia..|]. cbv iota in HM2, HU2, HO2.
  unfold initialize_mark_table_as_marked. destruct (cm_in_progress_or_final_mark env); cbn [andb];
    (split; [done|]); (split; [by destruct copy|]); intros b Hb.
  - rewrite HU2, HO2, decide_bool_decide by done. split_and!; [|by apply HU1|by rewrite HO1].
    change (load (RC_TABLE f asan) (mem_set M1 (address_to_meta_address markbit (block + a * L)) 255
      (address_to_meta_address markbit (block + e * L) - address_to_meta_address markbit (block + a * L))) b =
      load (RC_TABLE f asan) (im_mem st) b). rewrite HO2, HO1; done.
  - split_and!; [by apply HO1|by apply HU1|by apply HO1].
Qed.
End blocks.
