(* ===== verification/ImmixReuse.v ===== *)
(** * Reusing the holes of a block

    The theorems on [rc_get_next_available_lines] and on the statistics of a block. *)

From S2P Require Import Prelude Conversions Memory SideMetadata SideMetadataBits SideMetadataOps SideMetadataTheorems.
From S2P Require Import SideMetadataSpecs Regions RefCount ImmixHoles ImmixHolesTheorems.

(** C31: a search for a hole from line [s] of a block ends, and returns the first hole of
    at least [min_reuse_lines] lines, if there is one: a run of lines without counts, up
    to a line with counts or the end of the block, that starts at line 0 or at the second
    free line of its run.  The lines handed out have their fields logged for a mutator
    and unlogged for a copy, and are marked while concurrent marking runs; no count and
    no bit of another line changes. *)
Theorem hole_search_exact (f : features) (asan : bool) (block : Z) (env : ImmixEnv) (fuel : nat)
    (st : ImmixState) (copy : bool) (s : Z) :
  f ∈ all_features → block_ok f block → env_ok f asan env → mem_ok (im_mem st) →
  0 ≤ s < LINES f → LINES f - s < Z.of_nat fuel →
  let line i := block + i * 2 ^ f_line f in
  wp (rc_get_next_available_lines f asan env fuel st copy (line s)) (λ '(r, st'),
    ∃ hole, hole_answer (rc_is_dead f asan (im_mem st) block) (LINES f) (min_reuse_lines env) s hole ∧
    match hole with
    | Some (a, e) => r = Some (line a, line e) ∧ acquired f asan env copy (line a) (line e) st st'
    | None => r = None ∧ st' = st
    end).
Proof.
  intros Hf Hb He HM Hs Hfuel line. destruct (LINES_eq f Hf) as (EN & _). rewrite EN in *.
  eapply wp_mono; [apply rc_search; done|]. intros [[[x y]|] st'].
  - intros (a & e & -> & -> & Hans & Hacq). exists (Some (a, e)). split; [done|]. split; [done|].
    destruct Hans as (((? & _) & ? & _) & _). apply acquire_lines_spec; (done || lia).
  - intros [Hans ->]. by exists None.
Qed.

(** ** Objects *)

(** An object in the block whose first word has a count, as has the first word of each
    line that the object covers entirely after its first one. *)
Record counted_object (f : features) (asan : bool) (M : mem) (block o size : Z) : Prop := {
  obj_in : block ≤ o ∧ 0 < size ∧ o + size ≤ block + 2 ^ f_block f;
  obj_count : count f asan M o ≠ 0;
  obj_lines : ∀ line, (2 ^ f_line f | line) → Line_align f o < line < Line_align f (o + size) → count f asan M line ≠ 0
}.

(** The lines of a counted object are not free, except that the last may look free after
    a line that does not. *)
Lemma counted_lines f asan M block o size k :
  f ∈ all_features → block_ok f block → mem_ok M → counted_object f asan M block o size →
  let L := 2 ^ f_line f in
  (o - block) `div` L ≤ k ≤ (o + size - 1 - block) `div` L →
  rc_is_dead f asan M block k = true →
  0 < k ∧ rc_is_dead f asan M block (k - 1) = false ∧ (o - block) `div` L < k.
Proof.
  intros Hf Hb HM Ho L Hk Hdead. pose proof (L_range f Hf) as HL. fold L in HL.
  destruct (LINES_eq f Hf) as (_ & EB & HN & _). fold L in EB. destruct (obj_in _ _ _ _ _ _ Ho) as (Ho1 & Ho2 & Ho3).
  pose proof Hb as (Hb0 & Hbd & Hb1). set (n := 2 ^ (f_block f - f_line f)) in *.
  pose proof (div_mul_bounds (o - block) L ltac:(lia)) as Hi. pose proof (div_mul_bounds (o + size - 1 - block) L ltac:(lia)) as Hj.
  set (i := (o - block) `div` L) in *. set (j := (o + size - 1 - block) `div` L) in *.
  assert (0 ≤ i) by (apply Z.div_pos; lia). assert (j < n) by (apply Z.div_lt_upper_bound; lia).
  assert (L | block) as HLb.
  { destruct Hbd as [q ->]. exists (q * n). rewrite <-Z.mul_assoc. f_equal. done. }
  assert (∀ l a, 0 ≤ l < n → rc_is_dead f asan M block l = true → block + l * L ≤ a < block + (l + 1) * L → count f asan M a = 0) as Hz.
  { intros l a Hl Hd. apply (rc_is_dead_spec f asan Hf block Hb M l HM Hl). done. }
  assert (∀ l, i ≤ l < j → rc_is_dead f asan M block l = false) as Hlive.
  { intros l Hl. destruct (rc_is_dead f asan M block l) eqn:E; [exfalso|done].
    destruct (decide (l = i)) as [-> |].
    - apply (obj_count _ _ _ _ _ _ Ho). apply (Hz i); (done || lia).
    - apply (obj_lines _ _ _ _ _ _ Ho (block + l * L)).
      + apply Z.divide_add_r; [done|apply Z.divide_factor_r].
      + assert (∀ z, 0 ≤ z < 2 ^ 64 → Line_align f z = z `div` L * L) as HLa by (intros; by apply line_base).
        rewrite !HLa by lia. destruct HLb as [q Hq].
        pose proof (Z.mul_le_mono_nonneg_r (i + 1) l L ltac:(lia) ltac:(lia)).
        pose proof (Z.mul_le_mono_nonneg_r (l + 1) j L ltac:(lia) ltac:(lia)).
        assert (o `div` L < q + l) as Hlo by (apply Z.div_lt_upper_bound; lia).
        assert (q + l + 1 ≤ (o + size) `div` L) as Hhi by (apply Z.div_le_lower_bound; lia).
        pose proof (Z.mul_le_mono_nonneg_r (o `div` L + 1) (q + l) L ltac:(lia) ltac:(lia)).
        pose proof (Z.mul_le_mono_nonneg_r _ _ L ltac:(lia) Hhi). lia.
      + apply (Hz l); (done || lia). }
  assert (i < k).
  { destruct (decide (k = i)) as [-> |]; [exfalso|lia]. apply (obj_count _ _ _ _ _ _ Ho). apply (Hz i); (done || lia). }
  split_and!; [lia|apply Hlive; lia|done].
Qed.

(** The lines of a hole do not overlap a counted object. *)
Lemma hole_avoids (f : features) (asan : bool) (block : Z) (env : ImmixEnv) (fuel : nat)
    (st st' : ImmixState) (copy : bool) (s x y o size : Z) :
  f ∈ all_features → block_ok f block → mem_ok (im_mem st) → 0 ≤ s < LINES f → LINES f - s < Z.of_nat fuel →
  counted_object f asan (im_mem st) block o size →
  rc_get_next_available_lines f asan env fuel st copy (block + s * 2 ^ f_line f) = Val (Some (x, y), st') →
  y ≤ o ∨ o + size ≤ x.
Proof.
  intros Hf Hb HM Hs Hfuel Ho E. destruct (LINES_eq f Hf) as (EN & EB & HN & _). rewrite EN in *.
  pose proof (rc_search f asan Hf block Hb env st copy fuel s Hs Hfuel) as Hw. rewrite E in Hw.
  destruct Hw as (a & e & -> & -> & (Hrun & _) & _). destruct Hrun as ((_ & _ & Hst) & Hae & Hall & _).
  pose proof (L_range f Hf) as HL. destruct (obj_in _ _ _ _ _ _ Ho) as (Ho1 & Ho2 & Ho3).
  set (L := 2 ^ f_line f) in *. destruct (decide (block + e * L ≤ o)) as [|H1]; [by left|].
  destruct (decide (o + size ≤ block + a * L)) as [|H2]; [by right|exfalso].
  assert ((o - block) `div` L < e) by (apply Z.div_lt_upper_bound; lia).
  assert (a ≤ (o + size - 1 - block) `div` L) by (apply Z.div_le_lower_bound; lia).
  assert ((o - block) `div` L ≤ (o + size - 1 - block) `div` L) by (apply Z.div_le_mono; lia).
  destruct (counted_lines f asan (im_mem st) block o size (Z.max a ((o - block) `div` L)) Hf Hb HM Ho ltac:(fold L; lia)
    ltac:(apply Hall; lia)) as (Hk0 & Hk1 & Hk2). fold L in Hk2.
  assert (Z.max a ((o - block) `div` L) = a) as Ek by lia. rewrite Ek in *.
  destruct Hst as [-> |(_ & _ & Hp & _)]; [lia|congruence].
Qed.

(** Promotion counts the lines of an object. *)
Lemma promote_counted (f : features) (asan : bool) (rts : Z → Z) (block o size : Z) (fuel : nat) (M : mem) :
  f ∈ all_features → block_ok f block → block ≤ o → 0 < size → o + size ≤ block + 2 ^ f_block f → o + size < 2 ^ 47 → 0 ≤ rts o ≤ o →
  mem_ok M → count f asan M o ≠ 0 → (o + size - rts o) `div` 2 ^ f_line f < Z.of_nat fuel →
  wp (promote_with_size f asan rts fuel M o size) (λ M', mem_ok M' ∧ counted_object f asan M' block o size).
Proof.
  intros Hf Hb Ho Hs He Ht Hr HM Hc Hfuel. pose proof (L_range f Hf) as HL. pose proof Hb as (Hb0 & _ & Hb1). destruct (LINES_eq f Hf) as (_ & _ & _ & Hbb).
  eapply wp_mono; [apply (promote_marks f asan Hf rts fuel M o size HM); lia|]. intros M' (HM' & H & _). split; [done|]. split.
  - split_and!; lia.
  - destruct (H o ltac:(lia)) as [-> _]. by case_match.
  - intros line Hline Hl. rewrite !(line_base f Hf) in Hl by (unfold is_u; lia). destruct Hline as [q ->]. set (L := 2 ^ f_line f) in *.
    assert (o `div` L < q < (o + size) `div` L) as Hq by nia. pose proof (div_mul_bounds (o + size) L ltac:(lia)) as Hd. pose proof (div_mul_bounds o L ltac:(lia)) as Hd2.
    assert (0 ≤ o `div` L) by (apply Z.div_pos; lia). destruct (H (q * L) ltac:(nia)) as [-> _].
    assert ((o `div` L + 2) * L ≤ (o + size) `div` L * L) by (apply Z.mul_le_mono_nonneg_r; lia). assert (L < size) as Hls by lia. assert (rts o `div` L ≤ o `div` L) as Hmono by (apply Z.div_le_mono; lia).
    unfold covered, first_word. fold L. rewrite Z.div_mul by lia. rewrite (proj2 (Z.ltb_lt L size)), (proj2 (Z.ltb_lt (rts o `div` L) q)), (proj2 (Z.ltb_lt q _)) by lia. cbn [andb].
    assert ((q * L) `div` 8 * 8 = q * L) as ->.
    { pose proof (line_bytes f Hf) as (E & _). fold L in E. rewrite E. replace (q * (8 * 2 ^ (f_line f - 3))) with (q * 2 ^ (f_line f - 3) * 8) by lia. by rewrite Z.div_mul by lia. }
    rewrite Z.mod_mul by lia. done.
Qed.

(** C15: lines handed out and objects, in a build with lines (not [ix_block_only]), for an object
    inside one block below 2^47.  The lines that a search hands out never overlap an object
    whose first word has a count and which has a count at every line start between its first
    line and the line of its end; the rest of its last line is protected by skipping the first
    free line after a live one.  Promoting an object that has a count gives it all these counts,
    whatever its size, if its reference is not below its start. *)
Theorem holes_avoid_objects (f : features) (asan : bool) (rts : Z → Z) (block o size : Z) :
  f ∈ all_features → block_ok f block → block ≤ o → 0 < size → o + size ≤ block + 2 ^ f_block f → o + size < 2 ^ 47 → 0 ≤ rts o ≤ o →
  (∀ fuel M, mem_ok M → count f asan M o ≠ 0 → (o + size - rts o) `div` 2 ^ f_line f < Z.of_nat fuel →
    wp (promote_with_size f asan rts fuel M o size) (λ M', mem_ok M' ∧ counted_object f asan M' block o size)) ∧
  (∀ env fuel st st' copy s x y, mem_ok (im_mem st) → 0 ≤ s < LINES f → LINES f - s < Z.of_nat fuel →
    counted_object f asan (im_mem st) block o size →
    rc_get_next_available_lines f asan env fuel st copy (block + s * 2 ^ f_line f) = Val (Some (x, y), st') →
    y ≤ o ∨ o + size ≤ x).
Proof. intros. split; intros; [by apply promote_counted|by eapply hole_avoids]. Qed.

(** ** The statistics of a block *)

Section statistics.
Context (f : features) (dead : Z → bool).
Abbreviation N := (LINES f).

Lemma has_holes_find_start n i flag :
  has_holes_loop dead 1 n i flag 0 = true ↔ is_Some (find_start dead n i flag).
Proof.
  revert i flag. induction n as [|n IH]; intros i flag; simpl; [split; [done|by intros []]|].
  destruct (dead i); [|apply IH]. destruct (i =? 0); simpl; [split; [by eexists|done]|].
  destruct flag; simpl; [split; [by eexists|done]|apply IH].
Qed.

Lemma count_dead_acc n i d : count_dead dead n i d = d + count_dead dead n i 0.
Proof.
  revert i d. induction n as [|n IH]; intros i d; simpl; [lia|]. destruct (dead i); rewrite IH; [rewrite (IH _ (0 + 1))|]; lia.
Qed.

Lemma count_dead_filter n i :
  count_dead dead n i 0 = Z.of_nat (length (filter (λ j, dead j = true) (seqZ i (Z.of_nat n)))).
Proof.
  revert i. induction n as [|n IH]; intros i; [done|]. rewrite (seqZ_cons i) by lia.
  replace (Z.pred (Z.of_nat (S n))) with (Z.of_nat n) by lia. rewrite filter_cons. simpl count_dead.
  destruct (decide (dead i = true)) as [E|E].
  - rewrite E, count_dead_acc, IH. simpl length. change (Z.succ i) with (i + 1). lia.
  - apply not_true_is_false in E. rewrite E, IH. done.
Qed.

(** The lines up to the end of a run are all free. *)
Lemma count_dead_run n i :
  let j := find_limit dead n i in
  i ≤ j ≤ i + Z.of_nat n ∧ count_dead dead n i 0 = j - i + count_dead dead (Z.to_nat (i + Z.of_nat n - j)) j 0.
Proof.
  revert i. induction n as [|n IH]; intros i; simpl find_limit; cbv zeta.
  { replace (Z.to_nat _) with O by lia. simpl. lia. }
  destruct (dead i) eqn:E; cbn [negb].
  - destruct (IH (i + 1)) as [H1 H2]. cbv zeta in *. set (j := find_limit dead n (i + 1)) in *. split; [lia|].
    simpl count_dead. rewrite E, count_dead_acc, H2.
    replace (i + 1 + Z.of_nat n - j) with (i + Z.of_nat (S n) - j) by lia. lia.
  - split; [lia|]. replace (Z.to_nat (i + Z.of_nat (S n) - i)) with (S n) by lia. lia.
Qed.

Lemma iter_holes_sum fuel i :
  0 ≤ i ≤ N → N - i < Z.of_nat fuel →
  wp (iter_holes_loop f dead fuel i) (λ l,
    Forall (Z.lt 0) l ∧ foldr Z.add 0 l = count_dead dead (Z.to_nat (N - i)) i 0).
Proof.
  revert i. induction fuel as [|fuel IH]; intros i Hi Hf; [lia|]. cbn [iter_holes_loop].
  destruct (Z.ltb_spec i N) as [Hlt|].
  2:{ replace (Z.to_nat (N - i)) with O by lia. by split. }
  replace (Z.to_nat (N - i)) with (S (Z.to_nat (N - (i + 1)))) by lia. simpl count_dead. destruct (dead i) eqn:E.
  - destruct (count_dead_run (Z.to_nat (N - (i + 1))) (i + 1)) as [Hj Hc]. cbv zeta in *.
    set (j := find_limit _ _ _) in *. apply wp_bind. eapply wp_mono; [apply IH; lia|]. intros l [Hl Hs]. cbn [wp].
    split; [constructor; [lia|done]|]. cbn [foldr]. rewrite Hs, (count_dead_acc (Z.to_nat (N - (i + 1)))), Hc.
    replace (i + 1 + Z.of_nat (Z.to_nat (N - (i + 1))) - j) with (N - j) by lia. lia.
  - apply IH; lia.
Qed.

(** [calc_holes] measures each hole after moving its cursor to the hole's end. *)
Lemma calc_holes_loop_zero m fuel cursor :
  1 ≤ m → 0 ≤ cursor ≤ N → N - cursor < Z.of_nat fuel → calc_holes_loop f dead m fuel cursor 0 = Val 0.
Proof.
  intros Hm. revert cursor. induction fuel as [|fuel IH]; intros c Hc Hf; [lia|]. cbn [calc_holes_loop].
  unfold search_next_hole.
  destruct (decide (c = N)) as [-> |]; [by replace (Z.to_nat (N - N)) with O by lia|].
  pose proof (find_start_spec dead N (Z.to_nat (N - c)) c c false ltac:(lia) ltac:(lia) ltac:(by left)) as Hst.
  destruct (find_start _ _ _ _) as [a|]; [|done]. destruct Hst as (Ha & _).
  pose proof (find_limit_spec dead N (Z.to_nat (N - (a + 1))) (a + 1) ltac:(lia)) as Hl. cbv zeta in Hl.
  cbn [mbind option_bind]. set (e := find_limit _ _ _) in *. destruct Hl as (He & _).
  rewrite usub_id by lia. destruct (Z.leb_spec m (e - e)); [lia|]. apply IH; lia.
Qed.
End statistics.

(** With the default [min_reuse_lines] of one, [has_holes] says whether the search
    finds a hole in the block; [calc_dead_lines] is the number of free lines, and the
    runs that [iter_holes] reports are not empty and add up to it. *)
Theorem block_statistics (f : features) (asan : bool) (block : Z) (env : ImmixEnv) (fuel : nat)
    (st : ImmixState) (copy : bool) :
  f ∈ all_features → block_ok f block → min_reuse_lines env = 1 → LINES f < Z.of_nat fuel →
  let dead := rc_is_dead f asan (im_mem st) block in
  (has_holes f asan 1 (im_mem st) block = true ↔
    ∃ x y st', rc_get_next_available_lines f asan env fuel st copy block = Val (Some (x, y), st')) ∧
  calc_dead_lines f asan (im_mem st) block = Z.of_nat (length (filter (λ i, dead i = true) (seqZ 0 (LINES f)))) ∧
  wp (iter_holes f asan fuel (im_mem st) block) (λ l,
    Forall (Z.lt 0) l ∧ foldr Z.add 0 l = calc_dead_lines f asan (im_mem st) block).
Proof.
  intros Hf Hb Hm Hfuel dead. destruct (LINES_eq f Hf) as (EN & _ & HN & _).
  pose proof (rc_search f asan Hf block Hb env st copy fuel 0 ltac:(lia) ltac:(lia)) as Hw.
  replace (block + 0 * 2 ^ f_line f) with block in Hw by lia. rewrite <-EN, Hm in Hw. fold dead in Hw.
  pose proof (find_start_spec dead (LINES f) (Z.to_nat (LINES f)) 0 0 false ltac:(lia) ltac:(lia) ltac:(by left)) as Hst.
  split_and!.
  - unfold has_holes. rewrite has_holes_find_start. fold dead.
    destruct (rc_get_next_available_lines _ _ _ _ _ _ _) as [[[[x y]|] st']| |]; try done.
    + split; [by eauto|intros _]. destruct Hw as (a & e & _ & _ & (((? & Hs) & ? & _) & _) & _).
      destruct (find_start _ _ _ _); [by eexists|]. specialize (Hst a (conj H Hs) H). lia.
    + split; [|intros (? & ? & ? & ?); done]. destruct Hw as [Hno _]. intros [a Ea]. rewrite Ea in Hst.
      destruct Hst as (Ha & Hok & _).
      destruct (find_limit_spec dead (LINES f) (Z.to_nat (LINES f - (a + 1))) (a + 1) ltac:(lia)) as (He & Hall & Hend).
      assert (usable_run dead (LINES f) 0 a (find_limit dead (Z.to_nat (LINES f - (a + 1))) (a + 1))) as Hrun.
      { split_and!; try done; try lia. intros i Hi. destruct (decide (i = a)) as [-> |]; [apply Hok|apply Hall; lia]. }
      specialize (Hno _ _ Hrun). lia.
  - unfold calc_dead_lines. rewrite count_dead_filter, Z2Nat.id by lia. done.
  - eapply wp_mono; [apply iter_holes_sum; lia|]. intros l [? ->]. split; [done|].
    unfold calc_dead_lines. by rewrite Z.sub_0_r.
Qed.

(** [calc_holes] is always zero when [min_reuse_lines] is at least one. *)
Theorem calc_holes_zero (f : features) (asan : bool) (m : Z) (fuel : nat) (M : mem) (block : Z) :
  f ∈ all_features → 1 ≤ m → LINES f < Z.of_nat fuel → calc_holes f asan m fuel M block = Val 0.
Proof. intros Hf Hm Hfuel. destruct (LINES_eq f Hf) as (EN & _ & HN & _). apply calc_holes_loop_zero; lia. Qed.

(** With [min_reuse_lines] two, [has_holes] does not count the second line of a hole at the
    start of the block, which the search does find. *)
Example has_holes_misses :
  let dead i := (i <? 2) in
  has_holes_loop dead 2 128 0 false 0 = false ∧ find_start dead 128 0 false = Some 0 ∧ find_limit dead 127 1 = 2.
Proof. done. Qed.

(** ** Samples for the witnesses *)

Definition sample_block : Z := 0x20000000000.
Definition sample_env (log : bool) : ImmixEnv := {|
  min_reuse_lines := 1; needs_log_bit := log; cm_in_progress_or_final_mark := log;
  GLOBAL_FIELD_UNLOG_BIT_SPEC := {| sm_name := "UNLOG"; is_global := true; sm_offset := 2 ^ 50;
    log_num_of_bits := 0; log_bytes_in_region := 3 |};
  LOCAL_MARK_BIT_SPEC := {| sm_name := "MARK"; is_global := false; sm_offset := 2 ^ 51;
    log_num_of_bits := 0; log_bytes_in_region := 3 |};
  COMPRESSED_PTR_ENABLED := false |}.
(** One object, 16 bytes into the block. *)
Definition sample_mem : mem := set default_features false (λ _, 0) (sample_block + 16) 1.
Definition sample_state (M : mem) : ImmixState := {| im_mem := M; reused_lines_consumed := 0 |}.

Lemma sample_block_ok : block_ok default_features sample_block.
Proof. split_and!; [done|by exists 0x4000000|done]. Qed.
Lemma sample_env_ok log : env_ok default_features false (sample_env log).
Proof. split; split_and!; try done; try (split; done); (by left) || (right; vm_compute; discriminate). Qed.
Lemma sample_mem_ok : mem_ok sample_mem.
Proof. apply mem_ok_store_bytes. by intros a. Qed.
Lemma hole_search_exact_witness :
  wp (rc_get_next_available_lines default_features false (sample_env true) 200 (sample_state (λ _, 0)) true (sample_block + 3 * 2 ^ 8))
    (λ '(r, _), ∃ hole, hole_answer (rc_is_dead default_features false (λ _, 0) sample_block) 128 1 3 hole ∧
      r = (λ '(a, e), (sample_block + a * 2 ^ 8, sample_block + e * 2 ^ 8)) <$> hole).
Proof.
  eapply wp_mono; [apply (hole_search_exact default_features false sample_block (sample_env true) 200
    (sample_state (λ _, 0)) true 3 default_features_in sample_block_ok (sample_env_ok true) mem0_ok);
    vm_compute; (split; (done || discriminate)) || done|].
  intros [r st'] (hole & Hans & H). exists hole. split; [exact Hans|]. by destruct hole as [[a e]|], H as [-> _].
Defined.

Lemma run_found (p : res mem) (g : mem → res (option (Z * Z) * ImmixState)) :
  match p ≫= g with Val (Some _, _) => true | _ => false end = true → ∃ M' x y st', p = Val M' ∧ g M' = Val (Some (x, y), st').
Proof. destruct p as [M'| |]; cbn; try done. destruct (g M') as [[[[x y]|] st']| |] eqn:E; try done. intros _. by exists M', x, y, st'. Qed.
(** An object of 1000 bytes, promoted: the search from the first line finds the lines after it. *)
Lemma holes_avoid_objects_witness :
  ∃ M' x y st', promote_with_size default_features false id 10 sample_mem (sample_block + 16) 1000 = Val M' ∧
    rc_get_next_available_lines default_features false (sample_env false) 200 (sample_state M') true (sample_block + 0 * 2 ^ f_line default_features) = Val (Some (x, y), st') ∧
    (y ≤ sample_block + 16 ∨ sample_block + 16 + 1000 ≤ x).
Proof.
  destruct (holes_avoid_objects default_features false id sample_block (sample_block + 16) 1000 default_features_in sample_block_ok) as [Hp Hh];
    [lia|lia|vm_compute; discriminate|vm_compute; reflexivity|vm_compute; split; discriminate|].
  destruct (run_found (promote_with_size default_features false id 10 sample_mem (sample_block + 16) 1000)
    (λ M', rc_get_next_available_lines default_features false (sample_env false) 200 (sample_state M') true (sample_block + 0 * 2 ^ f_line default_features)))
    as (M' & x & y & st' & Em & E); [vm_compute; reflexivity|].
  exists M', x, y, st'. split; [exact Em|]. split; [exact E|].
  assert (wp (Val M') (λ M', mem_ok M' ∧ counted_object default_features false M' sample_block (sample_block + 16) 1000)) as [HM Hc].
  { rewrite <-Em. apply Hp; [exact sample_mem_ok|vm_compute; discriminate|vm_compute; reflexivity]. }
  refine (Hh (sample_env false) 200%nat (sample_state M') st' true 0 x y HM _ _ Hc E); [vm_compute; split; [discriminate|reflexivity]|vm_compute; reflexivity].
Defined.

Lemma block_statistics_witness :
  has_holes default_features false 1 sample_mem sample_block = true ∧
  ∃ x y st', rc_get_next_available_lines default_features false (sample_env false) 200 (sample_state sample_mem) true sample_block
    = Val (Some (x, y), st').
Proof.
  destruct (block_statistics default_features false sample_block (sample_env false) 200 (sample_state sample_mem) true
    default_features_in sample_block_ok) as (H & _); [done|vm_compute; done|].
  assert (has_holes default_features false 1 sample_mem sample_block = true) as E by (vm_compute; reflexivity).
  split; [exact E|]. apply H. exact E.
Defined.
