(* ===== verification/Scheduler.v ===== *)
(** * The work-packet scheduler (src/src/scheduler/)

    worker_goals.rs, worker_monitor.rs, work_bucket.rs, the parts of scheduler.rs and
    worker.rs that decide which packet runs when, and plan/gc_requester.rs.

    Buckets are indexed by their stage, in the order of [WorkBucketStage].  A work
    packet is of any type [W].  The queues of the crossbeam crate are lists: pushing
    appends, and stealing takes some packet and may move others to the local buffer of
    the thief.  The open condition of a bucket, a closure over
    [are_buckets_drained(&cur_stages)], is the list [cur_stages]. *)

From S2P Require Import Prelude.
#[local] Open Scope nat_scope.

(** ** worker_goals.rs *)

Inductive WorkerGoal : Type := Gc | StopForFork.
#[export] Instance WorkerGoal_eq_dec : EqDecision WorkerGoal.
Proof. solve_decision. Defined.
Definition all_goals : list WorkerGoal := [Gc; StopForFork].

Record WorkerGoals : Type := { current : option WorkerGoal; requests : WorkerGoal → bool }.
Definition WorkerGoals_default : WorkerGoals := {| current := None; requests := λ _, false |}.

Definition set_request (goal : WorkerGoal) (self : WorkerGoals) : bool * WorkerGoals :=
  if negb (requests self goal)
  then (true, {| current := current self; requests := <[goal := true]> (requests self) |})
  else (false, self).
Fixpoint poll_goals (goals : list WorkerGoal) (self : WorkerGoals) : option WorkerGoal * WorkerGoals :=
  match goals with
  | [] => (None, self)
  | goal :: goals =>
    if requests self goal
    then (Some goal, {| current := Some goal; requests := <[goal := false]> (requests self) |})
    else poll_goals goals self
  end.
Definition poll_next_goal (self : WorkerGoals) : option WorkerGoal * WorkerGoals := poll_goals all_goals self.
Definition on_current_goal_completed (self : WorkerGoals) : WorkerGoals :=
  {| current := None; requests := requests self |}.
Definition debug_is_requested (self : WorkerGoals) (goal : WorkerGoal) : bool := requests self goal.

(** ** worker_monitor.rs: the counter of parked workers *)

Inductive LastParkedResult : Type := ParkSelf | WakeSelf | WakeAll.
Record WorkerParker : Type := { worker_count : nat; parked_workers : nat }.
Definition inc_parked_workers (self : WorkerParker) : res (bool * WorkerParker) :=
  _ ← rust_assert (parked_workers self <? worker_count self);
  let new := S (parked_workers self) in
  Val (new =? worker_count self, {| worker_count := worker_count self; parked_workers := new |}).
Definition dec_parked_workers (self : WorkerParker) : res WorkerParker :=
  _ ← rust_assert (parked_workers self <=? worker_count self);
  _ ← rust_assert (0 <? parked_workers self);
  Val {| worker_count := worker_count self; parked_workers := parked_workers self - 1 |}.

(** ** work_bucket.rs *)

(** The stages without the [vo_bit] feature. *)
Inductive WorkBucketStage : Type :=
| Unconstrained | FinishConcurrentWork | Initial | Prepare | TPinningClosure | PinningRootsTrace | Closure
| SoftRefClosure | WeakRefClosure | FinalRefClosure | PhantomRefClosure | VMRefClosure | CalculateForwarding
| SecondRoots | RefForwarding | FinalizableForwarding | VMRefForwarding | Compact | Release
| STWRCDecsAndSweep | CycleCollection | Final.
#[export] Instance WorkBucketStage_eq_dec : EqDecision WorkBucketStage.
Proof. solve_decision. Defined.
Definition all_stages : list WorkBucketStage :=
  [Unconstrained; FinishConcurrentWork; Initial; Prepare; TPinningClosure; PinningRootsTrace; Closure;
   SoftRefClosure; WeakRefClosure; FinalRefClosure; PhantomRefClosure; VMRefClosure; CalculateForwarding;
   SecondRoots; RefForwarding; FinalizableForwarding; VMRefForwarding; Compact; Release;
   STWRCDecsAndSweep; CycleCollection; Final].
Definition LENGTH : nat := length all_stages.
Definition from_usize (i : nat) : WorkBucketStage := default Unconstrained (all_stages !! i).
Definition first_stw_stage : nat := 1.

Section scheduler.
Context {W : Type} (ScheduleCollection : W).

Record WorkBucket : Type := {
  disable : bool;
  active : bool;
  queue : list W;
  prioritized_queue : option (list W);
  can_open : option (list nat);
  sentinel : option W
}.
#[export] Instance WorkBucket_inhabited : Inhabited WorkBucket :=
  populate {| disable := false; active := false; queue := []; prioritized_queue := None; can_open := None; sentinel := None |}.

Definition bucket_new (is_active : bool) : WorkBucket :=
  {| disable := false; active := is_active; queue := []; prioritized_queue := None; can_open := None; sentinel := None |}.
Definition with_active (v : bool) (b : WorkBucket) : WorkBucket :=
  {| disable := disable b; active := v; queue := queue b; prioritized_queue := prioritized_queue b;
     can_open := can_open b; sentinel := sentinel b |}.
Definition with_disable (v : bool) (b : WorkBucket) : WorkBucket :=
  {| disable := v; active := active b; queue := queue b; prioritized_queue := prioritized_queue b;
     can_open := can_open b; sentinel := sentinel b |}.
Definition with_queue (q : list W) (b : WorkBucket) : WorkBucket :=
  {| disable := disable b; active := active b; queue := q; prioritized_queue := prioritized_queue b;
     can_open := can_open b; sentinel := sentinel b |}.
Definition with_prioritized (q : option (list W)) (b : WorkBucket) : WorkBucket :=
  {| disable := disable b; active := active b; queue := queue b; prioritized_queue := q;
     can_open := can_open b; sentinel := sentinel b |}.
Definition with_can_open (c : option (list nat)) (b : WorkBucket) : WorkBucket :=
  {| disable := disable b; active := active b; queue := queue b; prioritized_queue := prioritized_queue b;
     can_open := c; sentinel := sentinel b |}.
Definition with_sentinel (w : option W) (b : WorkBucket) : WorkBucket :=
  {| disable := disable b; active := active b; queue := queue b; prioritized_queue := prioritized_queue b;
     can_open := can_open b; sentinel := w |}.

Definition list_is_empty {A} (l : list A) : bool := match l with [] => true | _ => false end.
Definition is_activated (b : WorkBucket) : bool := active b.
Definition disabled (b : WorkBucket) : bool := disable b.
Definition activate (b : WorkBucket) : WorkBucket := with_active true b.
Definition bucket_is_empty (b : WorkBucket) : bool :=
  if disabled b then true
  else list_is_empty (queue b) && default true (list_is_empty <$> prioritized_queue b).
Definition is_drained (b : WorkBucket) : bool := is_activated b && bucket_is_empty b.
Definition deactivate (b : WorkBucket) : res WorkBucket := _ ← rust_assert (bucket_is_empty b); Val (with_active false b).
(** [add_no_notify] and [add_boxed_no_notify]; [add] and [add_boxed] notify afterwards. *)
Definition add_no_notify (w : W) (b : WorkBucket) : WorkBucket := with_queue (queue b ++ [w]) b.
(** [prioritized_queue.as_ref().unwrap()]. *)
Definition add_prioritized (w : W) (b : WorkBucket) : res WorkBucket :=
  q ← unwrap (prioritized_queue b); Val (with_prioritized (Some (q ++ [w])) b).
Definition enable_prioritized_queue (b : WorkBucket) : WorkBucket := with_prioritized (Some []) b.
Definition bucket_set_sentinel (w : W) (b : WorkBucket) : WorkBucket := with_sentinel (Some w) b.
(** Its callers have tested the debug assertion that the bucket is active. *)
Definition maybe_schedule_sentinel (b : WorkBucket) : bool * WorkBucket :=
  match sentinel b with
  | Some w => (true, add_no_notify w (with_sentinel None b))
  | None => (false, with_sentinel None b)
  end.

(** ** scheduler.rs *)

Record GCWorkScheduler : Type := {
  work_buckets : list WorkBucket;
  designated_work : list (list W);
  bucket_update_progress : nat;
  postponed_concurrent_work : list W;
  postponed_concurrent_work_prioritized : list W
}.
Definition with_buckets (bs : list WorkBucket) (s : GCWorkScheduler) : GCWorkScheduler :=
  {| work_buckets := bs; designated_work := designated_work s; bucket_update_progress := bucket_update_progress s;
     postponed_concurrent_work := postponed_concurrent_work s;
     postponed_concurrent_work_prioritized := postponed_concurrent_work_prioritized s |}.
Definition with_progress (p : nat) (s : GCWorkScheduler) : GCWorkScheduler :=
  {| work_buckets := work_buckets s; designated_work := designated_work s; bucket_update_progress := p;
     postponed_concurrent_work := postponed_concurrent_work s;
     postponed_concurrent_work_prioritized := postponed_concurrent_work_prioritized s |}.
Definition with_designated (d : list (list W)) (s : GCWorkScheduler) : GCWorkScheduler :=
  {| work_buckets := work_buckets s; designated_work := d; bucket_update_progress := bucket_update_progress s;
     postponed_concurrent_work := postponed_concurrent_work s;
     postponed_concurrent_work_prioritized := postponed_concurrent_work_prioritized s |}.
Definition with_postponed (q p : list W) (s : GCWorkScheduler) : GCWorkScheduler :=
  {| work_buckets := work_buckets s; designated_work := designated_work s;
     bucket_update_progress := bucket_update_progress s;
     postponed_concurrent_work := q; postponed_concurrent_work_prioritized := p |}.

(** [work_buckets[i]], and its update. *)
Definition bucket (s : GCWorkScheduler) (i : nat) : WorkBucket := work_buckets s !!! i.
Definition update_bucket (i : nat) (f : WorkBucket → WorkBucket) (s : GCWorkScheduler) : GCWorkScheduler :=
  with_buckets (alter f i (work_buckets s)) s.

Definition scheduler_new (num_workers : nat) : GCWorkScheduler :=
  let mk stage :=
    let b := bucket_new (bool_decide (stage = 0)) in
    let b := if bool_decide (stage = 0) then enable_prioritized_queue b else b in
    if bool_decide (stage ≠ 0 ∧ stage ≠ first_stw_stage)
    then with_can_open (Some (seq first_stw_stage (stage - first_stw_stage))) b else b in
  {| work_buckets := mk <$> seq 0 LENGTH; designated_work := replicate num_workers [];
     bucket_update_progress := 0; postponed_concurrent_work := []; postponed_concurrent_work_prioritized := [] |}.

Definition are_buckets_drained (s : GCWorkScheduler) (stages : list nat) : bool :=
  forallb (λ b, is_drained (bucket s b) || disabled (bucket s b)) stages.
Definition all_buckets_empty (s : GCWorkScheduler) : bool := forallb bucket_is_empty (work_buckets s).

(** [WorkBucket::update]. *)
Definition bucket_update (s : GCWorkScheduler) (i : nat) : bool * GCWorkScheduler :=
  match can_open (bucket s i) with
  | Some stages =>
    if negb (is_activated (bucket s i)) && are_buckets_drained s stages
    then (true, update_bucket i activate s) else (false, s)
  | None => (false, s)
  end.

Fixpoint sentinels_loop (stages : list nat) (s : GCWorkScheduler) (new_packets : bool) : bool * GCWorkScheduler :=
  match stages with
  | [] => (new_packets, s)
  | i :: stages =>
    if is_activated (bucket s i)
    then
      let '(scheduled, b) := maybe_schedule_sentinel (bucket s i) in
      sentinels_loop stages (update_bucket i (λ _, b) s) (if scheduled then true else new_packets)
    else sentinels_loop stages s new_packets
  end.
Definition schedule_sentinels (s : GCWorkScheduler) : bool * GCWorkScheduler :=
  sentinels_loop (seq 0 LENGTH) s false.

(** The loop of [update_buckets]: [buckets_updated], [new_packets] and [new_progress]. *)
Fixpoint update_buckets_loop (stages : list nat) (s : GCWorkScheduler) (buckets_updated new_packets : bool)
    : bool * bool * nat * GCWorkScheduler :=
  match stages with
  | [] => (buckets_updated, new_packets, LENGTH, s)
  | i :: stages =>
    if i =? 0 then update_buckets_loop stages s buckets_updated new_packets
    else if disabled (bucket s i) || is_activated (bucket s i)
    then update_buckets_loop stages s buckets_updated new_packets
    else
      let '(bucket_opened, s) := bucket_update s i in
      let buckets_updated := buckets_updated || bucket_opened in
      if bucket_opened
      then
        let new_packets := new_packets || negb (is_drained (bucket s i)) in
        let '(new_packets, s) :=
          if new_packets then (new_packets, s)
          else let '(scheduled, b) := maybe_schedule_sentinel (bucket s i) in
               (scheduled, update_bucket i (λ _, b) s) in
        if new_packets then (buckets_updated, new_packets, i, s)
        else update_buckets_loop stages s buckets_updated new_packets
      else update_buckets_loop stages s buckets_updated new_packets
  end.
Definition update_buckets (s : GCWorkScheduler) : bool * GCWorkScheduler :=
  let start_index := bucket_update_progress s + 1 in
  let '(buckets_updated, new_packets, new_progress, s) :=
    update_buckets_loop (seq start_index (LENGTH - start_index)) s false false in
  (buckets_updated && new_packets,
   with_progress (if buckets_updated && new_packets then new_progress else 0) s).

Fixpoint deactivate_buckets (id : nat) (bkts : list WorkBucket) : res (list WorkBucket) :=
  match bkts with
  | [] => Val []
  | bkt :: bkts =>
    bkt ← (if id =? 0 then Val bkt else bkt ← deactivate bkt; Val (with_disable false bkt));
    bkts ← deactivate_buckets (S id) bkts;
    Val (bkt :: bkts)
  end.
Definition deactivate_all (s : GCWorkScheduler) : res GCWorkScheduler :=
  bkts ← deactivate_buckets 0 (work_buckets s); Val (with_progress 0 (with_buckets bkts s)).
Definition debug_assert_all_buckets_deactivated (s : GCWorkScheduler) : res () :=
  rust_assert (forallb (λ id, (id =? 0) || negb (is_activated (bucket s id))) (seq 0 LENGTH)).

(** [process_lazy_decrement_packets]: the postponed prioritized packets that are not
    concurrent marking go to the bucket of STWRCDecsAndSweep. *)
Definition stw_rc_decs : nat := 19.
Definition process_lazy_decrement_packets (is_concurrent_marking_work : W → bool) (s : GCWorkScheduler) : GCWorkScheduler :=
  let all := postponed_concurrent_work_prioritized s in
  let no_postpone := List.filter (λ w, negb (is_concurrent_marking_work w)) all in
  let cm_packets := List.filter is_concurrent_marking_work all in
  let s := with_postponed (postponed_concurrent_work s) cm_packets s in
  update_bucket stw_rc_decs (λ b, with_queue (queue b ++ no_postpone) b) s.

Definition has_designated_work (s : GCWorkScheduler) : bool :=
  existsb (λ q, negb (list_is_empty q)) (designated_work s).

Definition find_more_work_for_workers (s : GCWorkScheduler) : bool * GCWorkScheduler :=
  if has_designated_work s then (true, s)
  else
    let '(scheduled, s) := schedule_sentinels s in
    if scheduled then (true, s) else update_buckets s.
End scheduler.
