(* ===== verification/SchedulerSteps.v ===== *)
(** * Workers, mutators and the scheduler as a state machine

    Each worker runs [GCWorker::run]: it polls its sources of packets one after another,
    executes the packet it finds, and parks when it finds none.  [park_and_wait] holds
    the mutex of the monitor from the counting of the worker to the wait on the
    condition variable, so it is one step, which includes [on_last_parked].  Polling is
    not atomic: other workers run between the checks of two queues.

    What a packet does is not modelled: while a worker executes one it may perform any
    sequence of the scheduler's operations.  Of packets one thing is assumed: those of a
    class [stops_mutators], which holds ScheduleCollection and StopMutators, are done only
    when the mutators are stopped or another packet of the class has been added to the
    Unconstrained bucket.  [on_gc_finished] is modelled in its effect on the scheduler and
    on the start time of the collection; its calls into the plan and the binding are not.  It
    resumes the mutators before the worker gives the mutex back, so the step of parking also
    has the packets that they add in between.

    [notify_mutators_paused] does not hold the mutex: it is a sequence of steps, its activations
    and its loads, that interleave with those of the other workers ([st_pausing]).

    With [mutators_add], mutators that run may add packets to the Unconstrained bucket and
    postpone others, as the barriers of LXR do while it marks concurrently. *)

From S2P Require Import Prelude Scheduler.
#[local] Open Scope nat_scope.

(** Where a worker looks for a packet.  [SBucket k] is the test of [WorkBucket::poll],
    [SPrio k] and [SQueue k] are its two steals. *)
Inductive source : Type :=
| SDesignated | SLocal | SBucket (k : nat) | SPrio (k : nat) | SQueue (k : nat) | SSteal (j : nat).
#[export] Instance source_eq_dec : EqDecision source.
Proof. solve_decision. Defined.

(** The next action of [notify_mutators_paused] after the first stop-the-world bucket has been
    activated. *)
Inductive pause_pc : Type := TestEmpty | LoadParked | TestDrained | ActivateSecond | NotifyAll.

Section steps.
Context {W : Type} (ScheduleCollection : W) (stops_mutators : W → bool) (mutators_add : bool).

(** [Scanning todo slow]: the sources still to be checked, in [poll] or in [poll_slow]. *)
Inductive worker_pc : Type :=
| Executing (w : W) | Scanning (todo : list source) (slow : bool) | Waiting | Notified | Exited.

Record sched_state : Type := {
  st_sched : GCWorkScheduler (W := W);
  st_goals : WorkerGoals;
  st_parker : WorkerParker;
  st_gc_started : bool;
  st_request_flag : bool;
  st_requesting : bool;
  st_paused : bool;
  (** The worker in [notify_mutators_paused], and where it is. *)
  st_pausing : option (nat * pause_pc);
  st_workers : list worker_pc;
  st_local : list (list W)
}.
Definition set_sched s (st : sched_state) : sched_state :=
  {| st_sched := s; st_goals := st_goals st; st_parker := st_parker st; st_gc_started := st_gc_started st;
     st_request_flag := st_request_flag st; st_requesting := st_requesting st; st_paused := st_paused st; st_pausing := st_pausing st;
     st_workers := st_workers st; st_local := st_local st |}.
Definition set_workers ws (st : sched_state) : sched_state :=
  {| st_sched := st_sched st; st_goals := st_goals st; st_parker := st_parker st; st_gc_started := st_gc_started st;
     st_request_flag := st_request_flag st; st_requesting := st_requesting st; st_paused := st_paused st; st_pausing := st_pausing st;
     st_workers := ws; st_local := st_local st |}.
Definition set_local l (st : sched_state) : sched_state :=
  {| st_sched := st_sched st; st_goals := st_goals st; st_parker := st_parker st; st_gc_started := st_gc_started st;
     st_request_flag := st_request_flag st; st_requesting := st_requesting st; st_paused := st_paused st; st_pausing := st_pausing st;
     st_workers := st_workers st; st_local := l |}.
Definition set_goals g (st : sched_state) : sched_state :=
  {| st_sched := st_sched st; st_goals := g; st_parker := st_parker st; st_gc_started := st_gc_started st;
     st_request_flag := st_request_flag st; st_requesting := st_requesting st; st_paused := st_paused st; st_pausing := st_pausing st;
     st_workers := st_workers st; st_local := st_local st |}.
Definition set_parker p (st : sched_state) : sched_state :=
  {| st_sched := st_sched st; st_goals := st_goals st; st_parker := p; st_gc_started := st_gc_started st;
     st_request_flag := st_request_flag st; st_requesting := st_requesting st; st_paused := st_paused st; st_pausing := st_pausing st;
     st_workers := st_workers st; st_local := st_local st |}.
Definition set_mutators flag requesting paused (st : sched_state) : sched_state :=
  {| st_sched := st_sched st; st_goals := st_goals st; st_parker := st_parker st; st_gc_started := st_gc_started st;
     st_request_flag := flag; st_requesting := requesting; st_paused := paused; st_pausing := st_pausing st;
     st_workers := st_workers st; st_local := st_local st |}.
Definition set_pausing pausing (st : sched_state) : sched_state :=
  {| st_sched := st_sched st; st_goals := st_goals st; st_parker := st_parker st; st_gc_started := st_gc_started st;
     st_request_flag := st_request_flag st; st_requesting := st_requesting st; st_paused := st_paused st; st_pausing := pausing;
     st_workers := st_workers st; st_local := st_local st |}.
Definition set_worker i pc (st : sched_state) : sched_state := set_workers (<[i := pc]> (st_workers st)) st.

(** ** Notification *)

Definition wake (pc : worker_pc) : worker_pc := match pc with Waiting => Notified | _ => pc end.
Definition notify_all (ws : list worker_pc) : list worker_pc := wake <$> ws.
(** [notify_one] wakes a waiting worker, if there is one. *)
Definition notify_one (ws ws' : list worker_pc) : Prop :=
  (∃ j, ws !! j = Some Waiting ∧ ws' = <[j := Notified]> ws) ∨ (ws' = ws ∧ Waiting ∉ ws).

(** ** scheduler.rs: the last parked worker *)

Record last_parked : Type := {
  lp_result : LastParkedResult;
  lp_sched : GCWorkScheduler (W := W);
  lp_goals : WorkerGoals;
  lp_gc_started : bool;
  lp_paused : bool;
  lp_notify_all : bool
}.

Definition respond_to_requests (s : GCWorkScheduler) (goals : WorkerGoals) (gc_started paused notified : bool)
    : res last_parked :=
  _ ← rust_assert (bool_decide (current goals = None));
  let '(goal, goals) := poll_next_goal goals in
  match goal with
  | None => Val {| lp_result := ParkSelf; lp_sched := s; lp_goals := goals; lp_gc_started := gc_started;
                   lp_paused := paused; lp_notify_all := notified |}
  | Some Gc =>
    _ ← rust_assert (negb gc_started);
    Val {| lp_result := WakeSelf; lp_sched := update_bucket 0 (add_no_notify ScheduleCollection) s; lp_goals := goals;
           lp_gc_started := true; lp_paused := paused; lp_notify_all := notified |}
  | Some StopForFork =>
    Val {| lp_result := WakeAll; lp_sched := s; lp_goals := goals; lp_gc_started := gc_started;
           lp_paused := paused; lp_notify_all := notified |}
  end.

(** [schedule_concurrent_packets]: the queues of the Unconstrained bucket are replaced, and
    were empty; the result says whether the workers are notified. *)
Definition schedule_concurrent_packets (q pq : list W) (s : GCWorkScheduler) : res (bool * GCWorkScheduler) :=
  s ← (if list_is_empty q then Val s
       else _ ← rust_assert (list_is_empty (queue (bucket s 0))); Val (update_bucket 0 (with_queue q) s));
  s ← (if list_is_empty pq then Val s
       else old_queue ← unwrap (prioritized_queue (bucket s 0));
            _ ← rust_assert (list_is_empty old_queue); Val (update_bucket 0 (with_prioritized (Some pq)) s));
  Val (negb (list_is_empty q) || negb (list_is_empty pq), s).

(** [on_gc_finished].  The mutators are resumed before [schedule_concurrent_packets]; [added]
    are the packets that they add to the Unconstrained bucket in between. *)
Definition on_gc_finished (added : list W) (s : GCWorkScheduler) (gc_started : bool) : res (bool * GCWorkScheduler) :=
  _ ← rust_assert (negb (has_designated_work s));
  _ ← rust_assert (all_buckets_empty s);
  s ← deactivate_all s;
  _ ← debug_assert_all_buckets_deactivated s;
  let q := postponed_concurrent_work s in
  let pq := postponed_concurrent_work_prioritized s in
  let s := with_postponed [] [] s in
  _ ← rust_assert gc_started;
  let s := update_bucket 0 (λ b, with_queue (queue b ++ added) b) s in
  '(notify, s) ← schedule_concurrent_packets q pq s;
  _ ← debug_assert_all_buckets_deactivated s;
  Val (notify, s).

Definition on_last_parked (added : list W) (s : GCWorkScheduler) (goals : WorkerGoals) (gc_started paused : bool) : res last_parked :=
  match current goals with
  | None => respond_to_requests s goals gc_started paused false
  | Some Gc =>
    _ ← rust_assert (negb (debug_is_requested goals Gc));
    let '(found_more_work, s) := find_more_work_for_workers s in
    if found_more_work
    then Val {| lp_result := WakeAll; lp_sched := s; lp_goals := goals; lp_gc_started := gc_started;
                lp_paused := paused; lp_notify_all := false |}
    else
      '(notified, s) ← on_gc_finished added s gc_started;
      let goals := on_current_goal_completed goals in
      respond_to_requests s goals false false notified
  | Some StopForFork => Panic
  end.

(** ** worker.rs: polling *)

Definition sched_sources (n i : nat) : list source :=
  SDesignated :: (SBucket <$> seq 0 LENGTH) ++ (SSteal <$> filter (λ j, j ≠ i) (seq 0 n)).
Definition poll_sources (n i : nat) : list source := [SDesignated; SLocal] ++ sched_sources n i.

(** The sources whose stealing may return [Steal::Retry]; then the worker goes on with the
    other sources and starts again after them. *)
Definition can_retry (x : source) : bool :=
  match x with SPrio _ | SQueue _ | SSteal _ => true | _ => false end.

(** Worker [i] obtains [w] from a source. *)
Inductive takes (i : nat) (w : W) : source → sched_state → sched_state → Prop :=
| take_designated st q :
    designated_work (st_sched st) !! i = Some (w :: q) →
    takes i w SDesignated st (set_sched (with_designated (<[i := q]> (designated_work (st_sched st))) (st_sched st)) st)
| take_local st l l' :
    st_local st !! i = Some l → l ≡ₚ w :: l' →
    takes i w SLocal st (set_local (<[i := l']> (st_local st)) st)
| take_steal st j l l' :
    st_local st !! j = Some l → l ≡ₚ w :: l' →
    takes i w (SSteal j) st (set_local (<[j := l']> (st_local st)) st)
| take_prio st k q batch q' :
    prioritized_queue (bucket (st_sched st) k) = Some q → q ≡ₚ w :: batch ++ q' →
    takes i w (SPrio k) st (set_local (alter (λ l, l ++ batch) i (st_local st))
      (set_sched (update_bucket k (with_prioritized (Some q')) (st_sched st)) st))
| take_queue st k batch q' :
    queue (bucket (st_sched st) k) ≡ₚ w :: batch ++ q' →
    takes i w (SQueue k) st (set_local (alter (λ l, l ++ batch) i (st_local st))
      (set_sched (update_bucket k (with_queue q') (st_sched st)) st)).

(** The source has no packet. *)
Definition source_empty (i : nat) (st : sched_state) (x : source) : Prop :=
  match x with
  | SDesignated => designated_work (st_sched st) !!! i = []
  | SLocal => st_local st !!! i = []
  | SSteal j => st_local st !!! j = []
  | SBucket k => let b := bucket (st_sched st) k in disabled b || negb (is_activated b) || bucket_is_empty b = true
  | SPrio k => default [] (prioritized_queue (bucket (st_sched st) k)) = []
  | SQueue k => queue (bucket (st_sched st) k) = []
  end.

(** ** worker_monitor.rs: park_and_wait *)

Definition unpark (i : nat) (st : sched_state) : res sched_state :=
  parker ← dec_parked_workers (st_parker st);
  let st := set_parker parker st in
  Val (set_worker i (if bool_decide (current (st_goals st) = Some StopForFork) then Exited
                     else Scanning (sched_sources (worker_count (st_parker st)) i) true) st).

(** What [park_and_wait] does with the result of [on_last_parked]. *)
Definition apply_last_parked (i : nat) (lp : last_parked) (st : sched_state) : res sched_state :=
  let st := {| st_sched := lp_sched lp; st_goals := lp_goals lp; st_parker := st_parker st;
               st_gc_started := lp_gc_started lp; st_request_flag := st_request_flag st;
               st_requesting := st_requesting st; st_paused := lp_paused lp; st_pausing := st_pausing st;
               st_workers := if lp_notify_all lp then notify_all (st_workers st) else st_workers st;
               st_local := st_local st |} in
  match lp_result lp with
  | ParkSelf => Val (set_worker i Waiting st)
  | WakeSelf => unpark i st
  | WakeAll => unpark i (set_workers (notify_all (st_workers st)) st)
  end.

Definition park_and_wait (i : nat) (added : list W) (st : sched_state) : res sched_state :=
  '(all_parked, parker) ← inc_parked_workers (st_parker st);
  let st := set_parker parker st in
  if (all_parked : bool)
  then
    lp ← on_last_parked added (st_sched st) (st_goals st) (st_gc_started st) (st_paused st);
    apply_last_parked i lp st
  else Val (set_worker i Waiting st).

(** [make_request]; the notification is a step of its own kind. *)
Definition make_request (goal : WorkerGoal) (st st' : sched_state) : Prop :=
  let '(newly, goals) := set_request goal (st_goals st) in
  ∃ ws, (if newly then notify_one (st_workers st) ws else ws = st_workers st) ∧
    st' = set_workers ws (set_goals goals st).

(** [notify_mutators_paused], when the mutators have stopped: the request is cleared and the
    first bucket is activated, in one step because no worker reads the request. *)
Definition notify_mutators_paused (i : nat) (st : sched_state) : sched_state :=
  set_pausing (Some (i, TestEmpty))
    (set_mutators false (st_requesting st) true (set_sched (update_bucket first_stw_stage activate (st_sched st)) st)).
(** The rest, one access at a time.  [drained] is [concurrent_marking_packets_drained] and
    [LazySweepingJobs::all_finished]; the counter [parked] is that of the monitor, which is
    loaded without the mutex. *)
Definition pause_action (i : nat) (drained : bool) (ph : pause_pc) (st : sched_state) : sched_state :=
  let next b ph := set_pausing (Some (i, if (b : bool) then ph else NotifyAll)) st in
  match ph with
  | TestEmpty => next (bucket_is_empty (bucket (st_sched st) first_stw_stage)) LoadParked
  | LoadParked => next (parked_workers (st_parker st) + 1 =? worker_count (st_parker st)) TestDrained
  | TestDrained => next drained ActivateSecond
  | ActivateSecond => set_pausing (Some (i, NotifyAll)) (set_sched (update_bucket 2 activate (st_sched st)) st)
  | NotifyAll => set_pausing None (set_workers (notify_all (st_workers st)) st)
  end.

(** ** The steps

    Mutators add packets only while they run, through their barriers.  Those of all plans go
    to the buckets of stop-the-world stages, or to the postponed packets; if [mutators_add], as
    with LXR during concurrent marking, they also go to the Unconstrained bucket. *)

(** What a worker may do while it executes a packet. *)
Inductive packet_step (i : nat) : sched_state → sched_state → Prop :=
| do_add st k w ws :
    k < LENGTH → disabled (bucket (st_sched st) k) = false →
    (if is_activated (bucket (st_sched st) k) then notify_one (st_workers st) ws else ws = st_workers st) →
    packet_step i st (set_workers ws (set_sched (update_bucket k (add_no_notify w) (st_sched st)) st))
| do_add_prioritized st k w b ws :
    k < LENGTH → disabled (bucket (st_sched st) k) = false →
    add_prioritized w (bucket (st_sched st) k) = Val b →
    (if is_activated (bucket (st_sched st) k) then notify_one (st_workers st) ws else ws = st_workers st) →
    packet_step i st (set_workers ws (set_sched (update_bucket k (λ _, b) (st_sched st)) st))
| do_add_local st k w :
    is_activated (bucket (st_sched st) k) = true → length (st_local st !!! i) < 16 →
    packet_step i st (set_local (alter (λ l, l ++ [w]) i (st_local st)) st)
| do_set_sentinel st k w :
    k < LENGTH → packet_step i st (set_sched (update_bucket k (bucket_set_sentinel w) (st_sched st)) st)
| do_designate st j w :
    length (designated_work (st_sched st) !!! j) < 16 →
    packet_step i st (set_sched (with_designated (alter (λ q, q ++ [w]) j (designated_work (st_sched st))) (st_sched st)) st)
| do_postpone st w :
    packet_step i st (set_sched (with_postponed (postponed_concurrent_work (st_sched st) ++ [w])
      (postponed_concurrent_work_prioritized (st_sched st)) (st_sched st)) st)
| do_postpone_prioritized st w :
    packet_step i st (set_sched (with_postponed (postponed_concurrent_work (st_sched st))
      (postponed_concurrent_work_prioritized (st_sched st) ++ [w]) (st_sched st)) st)
| do_disable st k :
    0 < k < LENGTH → packet_step i st (set_sched (update_bucket k (with_disable true) (st_sched st)) st)
| do_process_lazy st is_concurrent_marking_work ws :
    disabled (bucket (st_sched st) stw_rc_decs) = false →
    (ws = st_workers st ∨ is_activated (bucket (st_sched st) stw_rc_decs) = true ∧
      (notify_one (st_workers st) ws ∨ ws = notify_all (st_workers st))) →
    packet_step i st (set_workers ws (set_sched (process_lazy_decrement_packets is_concurrent_marking_work (st_sched st)) st))
| do_pause st :
    current (st_goals st) = Some Gc → st_paused st = false →
    packet_step i st (notify_mutators_paused i st).

Inductive step : sched_state → sched_state → Prop :=
(* polling *)
| step_take st i w x todo slow st' :
    st_workers st !! i = Some (Scanning (x :: todo) slow) → takes i w x st st' →
    step st (set_worker i (Executing w) st')
| step_open st i k todo slow :
    st_workers st !! i = Some (Scanning (SBucket k :: todo) slow) → ¬ source_empty i st (SBucket k) →
    step st (set_worker i (Scanning (SPrio k :: SQueue k :: todo) slow) st)
| step_skip st i x todo slow :
    st_workers st !! i = Some (Scanning (x :: todo) slow) → source_empty i st x →
    step st (set_worker i (Scanning todo slow) st)
| step_retry st i x todo slow :
    st_workers st !! i = Some (Scanning (x :: todo) slow) → can_retry x = true →
    step st (set_worker i (Scanning (todo ++ sched_sources (worker_count (st_parker st)) i) slow) st)
| step_slow st i :
    st_workers st !! i = Some (Scanning [] false) →
    step st (set_worker i (Scanning (sched_sources (worker_count (st_parker st)) i) true) st)
(* executing *)
| step_packet st i w st' :
    st_workers st !! i = Some (Executing w) → (∀ ph, st_pausing st ≠ Some (i, ph)) → packet_step i st st' → step st st'
| step_pausing st i ph drained :
    st_pausing st = Some (i, ph) → step st (pause_action i drained ph st)
| step_done st i w :
    st_workers st !! i = Some (Executing w) → (∀ ph, st_pausing st ≠ Some (i, ph)) →
    (stops_mutators w = true → current (st_goals st) = Some Gc → st_paused st = false →
      ∃ w', stops_mutators w' = true ∧ w' ∈ queue (bucket (st_sched st) 0)) →
    step st (set_worker i (Scanning (poll_sources (worker_count (st_parker st)) i) false) st)
(* parking *)
| step_park st i added ws st' :
    st_workers st !! i = Some (Scanning [] true) → added = [] ∨ mutators_add = true →
    nsteps notify_one (length added) (st_workers st) ws → park_and_wait i added (set_workers ws st) = Val st' → step st st'
| step_spurious st i : st_workers st !! i = Some Waiting → step st (set_worker i Notified st)
| step_resume st i st' : st_workers st !! i = Some Notified → unpark i st = Val st' → step st st'
(* mutators *)
| step_request_flag st :
    st_paused st = false → st_request_flag st = false → step st (set_mutators true true false st)
| step_request st st' :
    st_requesting st = true → make_request Gc st st' →
    step st (set_mutators (st_request_flag st') false (st_paused st') st')
| step_barrier st k w ws :
    st_paused st = false → 0 < k < LENGTH → disabled (bucket (st_sched st) k) = false →
    (if is_activated (bucket (st_sched st) k) then notify_one (st_workers st) ws else ws = st_workers st) →
    step st (set_workers ws (set_sched (update_bucket k (add_no_notify w) (st_sched st)) st))
| step_barrier_unconstrained st w ws :
    mutators_add = true → st_paused st = false → notify_one (st_workers st) ws →
    step st (set_workers ws (set_sched (update_bucket 0 (add_no_notify w) (st_sched st)) st))
| step_barrier_postpone st w :
    st_paused st = false →
    step st (set_sched (with_postponed (postponed_concurrent_work (st_sched st))
      (postponed_concurrent_work_prioritized (st_sched st) ++ [w]) (st_sched st)) st)
(* forking *)
| step_fork st st' : make_request StopForFork st st' → step st st'
| step_all_exited st :
    (∀ pc, pc ∈ st_workers st → pc = Exited) → step st (set_goals (on_current_goal_completed (st_goals st)) st)
| step_respawn st :
    (∀ pc, pc ∈ st_workers st → pc = Exited) → current (st_goals st) = None →
    step st (set_workers (imap (λ i _, Scanning (poll_sources (worker_count (st_parker st)) i) false) (st_workers st)) st).

(** All workers have been spawned. *)
Definition initial_state (n : nat) : sched_state := {|
  st_sched := scheduler_new n; st_goals := WorkerGoals_default;
  st_parker := {| worker_count := n; parked_workers := 0 |};
  st_gc_started := false; st_request_flag := false; st_requesting := false; st_paused := false; st_pausing := None;
  st_workers := imap (λ i _, Scanning (poll_sources n i) false) (replicate n ());
  st_local := replicate n [] |}.
End steps.
