(* ===== verification/SchedulerBuckets.v ===== *)
(** * Opening the stages of a collection

    What [schedule_sentinels], [update_buckets] and [find_more_work_for_workers] do when
    every open bucket is empty, which is when the last worker parks. *)

From S2P Require Import Prelude Scheduler.
#[local] Open Scope nat_scope.

Section buckets.
Context {W : Type}.
Implicit Types (s : GCWorkScheduler (W := W)) (b : WorkBucket (W := W)) (f : WorkBucket (W := W) → WorkBucket (W := W)).

(** ** Lookup *)

Lemma bucket_update_eq s k f j :
  bucket (update_bucket k f s) j =
  if decide (j = k ∧ k < length (work_buckets s)) then f (bucket s k) else bucket s j.
Proof.
  unfold bucket, update_bucket. cbn [work_buckets with_buckets]. rewrite !list_lookup_total_alt.
  case_decide as Hd.
  - destruct Hd as [-> Hk]. rewrite list_lookup_alter_eq. destruct (lookup_lt_is_Some_2 _ _ Hk) as [b ->]. done.
  - destruct (decide (j = k)) as [-> |].
    + rewrite list_lookup_alter_eq. destruct (work_buckets s !! k) eqn:E; [|done].
      apply lookup_lt_Some in E. naive_solver.
    + by rewrite list_lookup_alter_ne by done.
Qed.

Lemma length_update_bucket s k f : length (work_buckets (update_bucket k f s)) = length (work_buckets s).
Proof. apply length_alter. Qed.

Lemma bucket_outside s k : length (work_buckets s) ≤ k → bucket s k = inhabitant.
Proof. intros H. unfold bucket. rewrite list_lookup_total_alt, lookup_ge_None_2 by done. done. Qed.

(** ** Well-formed schedulers *)

(** The stage is open or skipped. *)
Definition passed b : Prop := is_activated b = true ∨ disabled b = true.
(** The stage has no packet that a worker could get. *)
Definition no_packets b : Prop := is_activated b = true → bucket_is_empty b = true.

Record sched_ok s : Prop := {
  ok_length : length (work_buckets s) = LENGTH;
  ok_can_open : ∀ k, k < LENGTH → can_open (bucket s k) =
    if decide (2 ≤ k) then Some (seq first_stw_stage (k - first_stw_stage)) else None;
  ok_first : is_activated (bucket s 0) = true ∧ disabled (bucket s 0) = false ∧ is_Some (prioritized_queue (bucket s 0));
  ok_progress : ∀ k, 1 ≤ k ≤ bucket_update_progress s → k < LENGTH → passed (bucket s k);
  ok_order : ∀ j k, 1 ≤ j < k → is_activated (bucket s k) = true → passed (bucket s j)
}.

(** A change to the packets of a bucket only. *)
Definition same_shape b b' : Prop :=
  disable b' = disable b ∧ active b' = active b ∧ can_open b' = can_open b ∧
  (is_Some (prioritized_queue b) → is_Some (prioritized_queue b')).

Lemma sched_ok_same s s' :
  sched_ok s → length (work_buckets s') = LENGTH → bucket_update_progress s' = bucket_update_progress s →
  (∀ k, same_shape (bucket s k) (bucket s' k)) → sched_ok s'.
Proof.
  intros [Hl Hc (Ha & Hd & Hp) Hpr Ho] Hl' Ep Hs. unfold passed, is_activated, disabled in *. split; [done| | | |].
  - intros k Hk. destruct (Hs k) as (_ & _ & -> & _). by apply Hc.
  - destruct (Hs 0) as (E1 & E2 & _ & E3). unfold is_activated, disabled. rewrite E1, E2. auto.
  - intros k Hk Hk'. rewrite Ep in Hk. destruct (Hs k) as (E1 & E2 & _). unfold passed, is_activated, disabled.
    rewrite E1, E2. by apply Hpr.
  - intros j k Hjk. destruct (Hs k) as (_ & E2 & _), (Hs j) as (F1 & F2 & _). unfold passed, is_activated, disabled.
    rewrite E2, F1, F2. by apply Ho.
Qed.

Lemma sched_ok_update s k f :
  sched_ok s → same_shape (bucket s k) (f (bucket s k)) → sched_ok (update_bucket k f s).
Proof.
  intros Hok Hf. apply (sched_ok_same s); [done|rewrite length_update_bucket; apply Hok|done|].
  intros j. rewrite bucket_update_eq. case_decide as Hd; [destruct Hd as [-> _]; done|by repeat split].
Qed.

Lemma new_ok n : sched_ok (scheduler_new n).
Proof.
  split; [done| |by repeat split; eexists| |].
  - intros k Hk. do 22 (destruct k as [|k]; [done|]). change LENGTH with 22 in Hk. lia.
  - intros k Hk. cbn [bucket_update_progress scheduler_new] in Hk. lia.
  - intros j k Hjk Ha. exfalso. destruct (decide (k < LENGTH)) as [Hk|Hk].
    + do 22 (destruct k as [|k]; [first [lia|done]|]). change LENGTH with 22 in Hk. lia.
    + rewrite bucket_outside in Ha by (change (length _) with LENGTH; lia). done.
Qed.

(** ** Sentinels *)

Lemma sentinel_shape b : same_shape b (maybe_schedule_sentinel b).2.
Proof. unfold maybe_schedule_sentinel. destruct (sentinel b); by repeat split. Qed.

Lemma with_sentinel_id b : sentinel b = None → with_sentinel None b = b.
Proof. destruct b; cbn. by intros ->. Qed.

Lemma update_bucket_id s k f : f (bucket s k) = bucket s k → update_bucket k f s = s.
Proof.
  intros Hf. destruct s as [bs d p q pq]. unfold update_bucket, bucket, with_buckets in *. cbn in *. f_equal.
  rewrite (list_alter_ext f id bs bs k); [by apply list_alter_id| |done].
  intros b Hb. by rewrite (list_lookup_total_correct _ _ _ Hb) in Hf.
Qed.

(** The scan for sentinels changes no shape; when it schedules none there was none. *)
Lemma sentinels_loop_spec stages s new :
  sched_ok s →
  let '(r, s') := sentinels_loop stages s new in
  sched_ok s' ∧ designated_work s' = designated_work s ∧ (∀ k, same_shape (bucket s k) (bucket s' k)) ∧
  (r = false → new = false ∧ s' = s ∧ ∀ k, k ∈ stages → is_activated (bucket s k) = true → sentinel (bucket s k) = None).
Proof.
  revert s new. induction stages as [|i stages IH]; intros s new Hok; cbn [sentinels_loop].
  { split; [done|]. split; [done|]. split; [by intros k; repeat split|]. intros ->. split; [done|]. split; [done|]. intros k Hk. by apply elem_of_nil in Hk. }
  destruct (is_activated (bucket s i)) eqn:Ea.
  - pose proof (sentinel_shape (bucket s i)) as Hsh. destruct (maybe_schedule_sentinel (bucket s i)) as [sch b] eqn:Em.
    cbn [snd] in Hsh. specialize (IH (update_bucket i (λ _, b) s) (if sch then true else new) ltac:(by apply sched_ok_update)).
    destruct (sentinels_loop _ _ _) as [r s']. destruct IH as (H1 & H2 & H3 & H4).
    assert (∀ k, same_shape (bucket s k) (bucket (update_bucket i (λ _, b) s) k)) as H5.
    { intros k. rewrite bucket_update_eq. case_decide as Hd; [by destruct Hd as [-> _]|by repeat split]. }
    split_and!; try done.
    + intros k. destruct (H5 k) as (A1 & A2 & A3 & A4), (H3 k) as (B1 & B2 & B3 & B4).
      split_and!; try congruence. auto.
    + intros Hr. destruct (H4 Hr) as (Hn & -> & Hs). destruct sch; [done|].
      unfold maybe_schedule_sentinel in Em. destruct (sentinel (bucket s i)) as [w|] eqn:Esn; [done|].
      injection Em as <-. rewrite (update_bucket_id s i) in * by (by rewrite with_sentinel_id).
      split_and!; try done. intros k [-> |Hk]%elem_of_cons; [done|by apply Hs].
  - specialize (IH s new Hok). destruct (sentinels_loop _ _ _) as [r s']. destruct IH as (H1 & H2 & H3 & H4).
    split_and!; try done. intros Hr. destruct (H4 Hr) as (? & ? & Hs). split_and!; try done.
    intros k [-> |Hk]%elem_of_cons; [congruence|by apply Hs].
Qed.

(** ** Opening buckets *)

(** All open buckets are empty. *)
Definition all_drained s : Prop := ∀ k, no_packets (bucket s k).

Lemma drained_condition s k :
  sched_ok s → 2 ≤ k < LENGTH → all_drained s → (∀ j, 1 ≤ j < k → passed (bucket s j)) →
  can_open (bucket s k) = Some (seq first_stw_stage (k - first_stw_stage)) ∧
  are_buckets_drained s (seq first_stw_stage (k - first_stw_stage)) = true.
Proof.
  intros Hok Hk Hd Hp. split; [rewrite (ok_can_open _ Hok) by lia; by rewrite decide_True by lia|].
  unfold are_buckets_drained. apply forallb_forall. intros j Hj%list_elem_of_In%elem_of_seq.
  unfold first_stw_stage in *. destruct (Hp j ltac:(lia)) as [Ha|Hdis]; [|by rewrite Hdis, orb_true_r].
  unfold is_drained. by rewrite Ha, (Hd j Ha).
Qed.

(** What holds of stage [k] when the loop of [update_buckets] stops there with packets:
    it is open and has a packet, and the stages before are open and empty, or skipped. *)
Record opened s s' k : Prop := {
  op_new : 1 ≤ k < LENGTH ∧ is_activated (bucket s k) = false ∧ is_activated (bucket s' k) = true;
  op_packets : bucket_is_empty (bucket s' k) = false;
  op_before : ∀ j, 1 ≤ j < k → passed (bucket s' j) ∧ no_packets (bucket s' j);
  op_after : ∀ j, k < j → bucket s' j = bucket s j
}.

Lemma activate_ok s k :
  sched_ok s → 1 ≤ k → (∀ j, 1 ≤ j < k → passed (bucket s j)) → sched_ok (update_bucket k activate s).
Proof.
  intros Hok Hk Hp. assert (∀ j, passed (bucket s j) → passed (bucket (update_bucket k activate s) j)) as Hm.
  { intros j Hj. rewrite bucket_update_eq. case_decide; [by left|done]. }
  destruct Hok as [Hl Hc Hf Hpr Ho]. split.
  - by rewrite length_update_bucket.
  - intros j Hj. rewrite bucket_update_eq. case_decide as Hd; [destruct Hd as [-> _]|]; by apply Hc.
  - rewrite bucket_update_eq. rewrite decide_False by lia. done.
  - intros j Hj Hj'. apply Hm, Hpr; done.
  - intros j i Hji Ha. apply Hm. rewrite bucket_update_eq in Ha. case_decide as Hd; [destruct Hd as [-> _]; apply Hp; lia|].
    by apply (Ho j i).
Qed.

(** No open stage has a sentinel. *)
Definition no_sentinels s : Prop := ∀ k, is_activated (bucket s k) = true → sentinel (bucket s k) = None.

Record quiet s : Prop := { q_ok : sched_ok s; q_drained : all_drained s; q_sentinels : no_sentinels s }.

Lemma update_buckets_loop_spec n i s updated :
  i + n = LENGTH → 1 ≤ i → quiet s → passed (bucket s 1) → (∀ j, 1 ≤ j < i → passed (bucket s j)) →
  let '(u, np, prog, s') := update_buckets_loop (seq i n) s updated false in
  designated_work s' = designated_work s ∧ bucket s' 0 = bucket s 0 ∧
  bucket_update_progress s' = bucket_update_progress s ∧
  postponed_concurrent_work s' = postponed_concurrent_work s ∧
  postponed_concurrent_work_prioritized s' = postponed_concurrent_work_prioritized s ∧ sched_ok s' ∧
  if np : bool then u = true ∧ i ≤ prog ∧ opened s s' prog
  else quiet s' ∧ ∀ j, 1 ≤ j < LENGTH → passed (bucket s' j).
Proof.
  revert i s updated. induction n as [|n IH]; intros i s updated Hn Hi Hq H1 Hp; cbn [seq update_buckets_loop].
  { destruct Hq. split_and!; try done. intros j Hj. apply Hp. lia. }
  destruct (Nat.eqb_spec i 0); [lia|]. pose proof (q_ok _ Hq) as Hok.
  destruct (disabled (bucket s i) || is_activated (bucket s i)) eqn:Ed.
  { assert (∀ j, 1 ≤ j < S i → passed (bucket s j)) as Hp'.
    { intros j Hj. destruct (decide (j = i)) as [-> |]; [|apply Hp; lia].
      apply orb_true_iff in Ed as [?|?]; [by right|by left]. }
    specialize (IH (S i) s updated ltac:(lia) ltac:(lia) Hq H1 Hp').
    destruct (update_buckets_loop _ _ _ _) as [[[u np] prog] s']. destruct IH as (? & ? & ? & ? & ? & ? & R).
    split_and!; try done. destruct np; [|done]. destruct R as (? & ? & ?). split_and!; (done || lia). }
  apply orb_false_iff in Ed as [Hdis Hact].
  assert (2 ≤ i < LENGTH) as Hi2.
  { split; [|lia]. destruct (decide (i = 1)) as [-> |]; [|lia]. destruct H1; congruence. }
  destruct (drained_condition s i Hok Hi2 (q_drained _ Hq) Hp) as [Hc Hdr].
  unfold bucket_update. rewrite Hc, Hact, Hdr. cbn [negb andb]. rewrite orb_true_r.
  set (s1 := update_bucket i activate s).
  assert (length (work_buckets s) = LENGTH) as Hlen by apply Hok.
  assert (bucket s1 i = activate (bucket s i)) as Ei by (unfold s1; rewrite bucket_update_eq, decide_True; [done|lia]).
  assert (∀ j, j ≠ i → bucket s1 j = bucket s j) as Ej by (intros j Hj; unfold s1; rewrite bucket_update_eq, decide_False; [done|lia]).
  assert (sched_ok s1) as Hok1 by (apply activate_ok; [done|lia|done]).
  assert (∀ j, 1 ≤ j < i → passed (bucket s1 j)) as Hp1 by (intros j Hj; rewrite Ej by lia; by apply Hp).
  unfold is_drained. replace (is_activated (bucket s1 i)) with true by (by rewrite Ei). cbn [andb orb].
  destruct (bucket_is_empty (bucket s1 i)) eqn:Ee; cbn [negb].
  2:{ split_and!; try done; [apply Ej; lia|]. split; [split_and!; (done || lia || by rewrite Ei)|done| |].
      - intros j Hj. split; [by apply Hp1|]. rewrite Ej by lia. apply Hq.
      - intros j Hj. apply Ej. lia. }
  destruct (maybe_schedule_sentinel (bucket s1 i)) as [sch b] eqn:Em.
  pose proof (sentinel_shape (bucket s1 i)) as Hsh. rewrite Em in Hsh. cbn [snd] in Hsh.
  unfold maybe_schedule_sentinel in Em. destruct (sentinel (bucket s1 i)) as [w|] eqn:Esn; injection Em as <- <-.
  - set (s2 := update_bucket i _ s1).
    assert (length (work_buckets s1) = LENGTH) as Hlen1 by apply Hok1.
    assert (bucket s2 i = add_no_notify w (with_sentinel None (bucket s1 i))) as E2
      by (unfold s2; rewrite bucket_update_eq, decide_True; [done|lia]).
    assert (∀ j, j ≠ i → bucket s2 j = bucket s j) as Ej2.
    { intros j Hj. unfold s2. rewrite bucket_update_eq, decide_False by lia. by apply Ej. }
    assert (sched_ok s2) by (by apply sched_ok_update).
    split_and!; try done; [apply Ej2; lia|]. split; [split_and!; try lia; [done|by rewrite E2, Ei]| | |].
    + rewrite E2, Ei. unfold bucket_is_empty. cbn. unfold disabled in Hdis. rewrite Hdis. by destruct (queue (bucket s i)).
    + intros j Hj. rewrite Ej2 by lia. split; [by apply Hp|apply Hq].
    + intros j Hj. apply Ej2. lia.
  - rewrite (update_bucket_id s1 i) by (by rewrite with_sentinel_id).
    assert (quiet s1) as Hq1.
    { split; [done| |].
      - intros j Ha. destruct (decide (j = i)) as [-> |]; [done|]. rewrite Ej in * by done. by apply (q_drained _ Hq).
      - intros j Ha. destruct (decide (j = i)) as [-> |]; [done|]. rewrite Ej in * by done. by apply (q_sentinels _ Hq). }
    specialize (IH (S i) s1 true ltac:(lia) ltac:(lia) Hq1 ltac:(apply Hp1; lia)).
    specialize (IH ltac:(intros j Hj; destruct (decide (j = i)) as [-> |]; [left; by rewrite Ei|apply Hp1; lia])).
    destruct (update_buckets_loop _ _ _ _) as [[[u np] prog] s']. destruct IH as (D & B0 & P & Q1 & Q2 & Ok' & R).
    split_and!; try done; [rewrite B0; apply Ej; lia|]. destruct np; [|done]. destruct R as (-> & Hle & [A B C D']).
    split; [done|]. split; [lia|].
    split; [rewrite <-(Ej prog) by lia; done|done|done|]. intros j Hj. rewrite D' by done. apply Ej. lia.
Qed.

(** A stage that becomes open between [s] and [s'] does so when the stages before it are
    open and empty, or skipped. *)
Definition opens_in_order s s' : Prop :=
  ∀ k, 1 ≤ k → is_activated (bucket s k) = false → is_activated (bucket s' k) = true →
  ∀ j, 1 ≤ j < k → passed (bucket s' j) ∧ no_packets (bucket s' j).

Lemma with_progress_ok s p :
  sched_ok s → (∀ k, 1 ≤ k ≤ p → k < LENGTH → passed (bucket s k)) → sched_ok (with_progress p s).
Proof. intros [] Hp. by split. Qed.

Lemma update_buckets_spec s :
  quiet s → passed (bucket s 1) →
  let '(r, s') := update_buckets s in
  designated_work s' = designated_work s ∧ bucket s' 0 = bucket s 0 ∧
  postponed_concurrent_work s' = postponed_concurrent_work s ∧
  postponed_concurrent_work_prioritized s' = postponed_concurrent_work_prioritized s ∧
  sched_ok s' ∧ opens_in_order s s' ∧
  if r : bool then ∃ k, opened s s' k else quiet s' ∧ ∀ j, 1 ≤ j < LENGTH → passed (bucket s' j).
Proof.
  intros Hq H1. pose proof (q_ok _ Hq) as Hok. unfold update_buckets.
  destruct (decide (bucket_update_progress s + 1 ≤ LENGTH)) as [Hle|Hgt].
  - pose proof (update_buckets_loop_spec (LENGTH - (bucket_update_progress s + 1)) (bucket_update_progress s + 1) s false
      ltac:(lia) ltac:(lia) Hq H1 ltac:(intros j Hj; apply (ok_progress _ Hok); lia)) as Hs.
    destruct (update_buckets_loop _ _ _ _) as [[[u np] prog] s']. destruct Hs as (D & B0 & P & Q1 & Q2 & Ok' & R).
    destruct np.
    + destruct R as (-> & _ & Hop). cbn [andb]. pose proof Hop as [(A1 & A2 & A3) B C D'].
      split_and!; try done.
      * apply with_progress_ok; [done|]. intros k Hk Hk'. destruct (decide (k = prog)) as [-> |]; [by left|apply C; lia].
      * intros k Hk Hin Hac j Hj. change (bucket (with_progress prog s') ?x) with (bucket s' x) in *.
        destruct (decide (prog < k)); [rewrite D' in Hac by done; congruence|]. apply C. lia.
      * exists prog. split; [exact (conj A1 (conj A2 A3))|exact B|exact C|exact D'].
    + rewrite andb_false_r. destruct R as [Hq' Hall].
      split_and!; try done; [apply with_progress_ok; [done|lia]| |].
      * intros k Hk Hin Hac j Hj. change (bucket (with_progress 0 s') ?x) with (bucket s' x) in *.
        split; [|apply (q_drained _ Hq')]. apply (ok_order _ Ok' j k); done.
      * destruct Hq' as [Hx Hd Hn]. split; [apply with_progress_ok; [done|lia]|exact Hd|exact Hn].
  - replace (LENGTH - (bucket_update_progress s + 1)) with 0 by lia. cbn [seq update_buckets_loop andb].
    assert (∀ j, 1 ≤ j < LENGTH → passed (bucket s j)) as Hall by (intros j Hj; apply (ok_progress _ Hok); lia).
    split_and!; try done; [apply with_progress_ok; [done|lia]| |].
    + intros k Hk Hin Hac. change (bucket (with_progress 0 s) ?x) with (bucket s x) in *. congruence.
    + destruct Hq as [Hx Hd Hn]. split; [apply with_progress_ok; [done|lia]|exact Hd|exact Hn].
Qed.

Lemma find_more_work_spec s :
  sched_ok s → all_drained s → passed (bucket s 1) →
  let '(r, s') := find_more_work_for_workers s in
  designated_work s' = designated_work s ∧ sched_ok s' ∧ opens_in_order s s' ∧
  (r = false → quiet s' ∧ bucket s' 0 = bucket s 0 ∧ has_designated_work s' = false ∧
    (∀ j, 1 ≤ j < LENGTH → passed (bucket s' j)) ∧
    postponed_concurrent_work s' = postponed_concurrent_work s ∧
    postponed_concurrent_work_prioritized s' = postponed_concurrent_work_prioritized s).
Proof.
  intros Hok Hd H1. unfold find_more_work_for_workers.
  destruct (has_designated_work s) eqn:Edw.
  { split_and!; try done. intros k Hk Hin Hac. congruence. }
  unfold schedule_sentinels. pose proof (sentinels_loop_spec (seq 0 LENGTH) s false Hok) as Hs.
  destruct (sentinels_loop _ _ _) as [r s1]. destruct Hs as (Ok1 & D1 & Sh & Hno). destruct r.
  { split_and!; try done. intros k Hk Hin Hac. destruct (Sh k) as (_ & E & _). unfold is_activated in *. congruence. }
  destruct (Hno eq_refl) as (_ & -> & Hsn). clear Hno Sh.
  assert (quiet s) as Hq.
  { split; [done..|]. intros k Ha. apply Hsn; [|done]. apply elem_of_seq. split; [lia|].
    destruct (decide (k < LENGTH)); [done|]. rewrite bucket_outside in Ha by (rewrite (ok_length _ Hok); lia). done. }
  pose proof (update_buckets_spec s Hq H1) as Hu. destruct (update_buckets s) as [r s'].
  destruct Hu as (D & B0 & Q1 & Q2 & Ok' & Ord & R). split_and!; try done. intros ->. destruct R as [Hq' Hall].
  split_and!; try done. unfold has_designated_work in *. by rewrite D.
Qed.
End buckets.
