(* ===== verification/SchedulerInv.v ===== *)
(** * The invariant of the scheduler

    In every state that workers and mutators can reach, a packet in an open bucket is
    seen by some worker that has not parked, unless all are parked and one has been woken;
    the counter of the monitor is the number of parked workers; and the requests, the
    current goal and the flags of the mutators agree. *)

From S2P Require Import Prelude Scheduler SchedulerSteps SchedulerBuckets.
#[local] Open Scope nat_scope.

Section workers.
Context {W : Type}.
Abbreviation pc_t := (worker_pc (W := W)).

Definition is_active (pc : pc_t) : bool := match pc with Executing _ | Scanning _ _ => true | _ => false end.
Definition is_parked (pc : pc_t) : bool := match pc with Waiting | Notified => true | _ => false end.

(** A queue of a bucket: [(true, k)] is the prioritized one of stage [k]. *)
Definition chan_items (s : GCWorkScheduler (W := W)) (c : bool * nat) : list W :=
  if c.1 then default [] (prioritized_queue (bucket s c.2)) else queue (bucket s c.2).
Definition chan_live (s : GCWorkScheduler (W := W)) (c : bool * nat) : Prop :=
  is_activated (bucket s c.2) = true ∧ disabled (bucket s c.2) = false ∧ chan_items s c ≠ [].

(** The worker will look at the queue before it parks. *)
Definition sees (c : bool * nat) (pc : pc_t) : Prop :=
  match pc with
  | Executing _ => True
  | Scanning todo slow => slow = false ∨ SBucket c.2 ∈ todo ∨ (if c.1 then SPrio c.2 else SQueue c.2) ∈ todo
  | _ => False
  end.
Definition sees_local (pc : pc_t) : Prop :=
  match pc with Executing _ => True | Scanning todo _ => SLocal ∈ todo | _ => False end.
Definition covered (c : bool * nat) (ws : list pc_t) : Prop :=
  (∃ j pc, ws !! j = Some pc ∧ sees c pc) ∨
  (∀ j pc, ws !! j = Some pc → is_active pc = false) ∧ ∃ j, ws !! j = Some Notified ∨ ws !! j = Some Exited.

(** ** Waking workers *)

(** Some waiting workers have been notified. *)
Definition woken (ws ws' : list pc_t) : Prop :=
  Forall2 (λ a b, b = a ∨ a = Waiting ∧ b = Notified) ws ws'.

Lemma woken_refl ws : woken ws ws.
Proof. apply Forall2_same_length_lookup_2; [done|]. intros j a b Ha Hb. left. congruence. Qed.
Lemma woken_all ws : woken ws (notify_all ws).
Proof. unfold woken, notify_all. apply Forall2_fmap_r, Forall_Forall2_diag, Forall_true. intros []; auto. Qed.
Lemma woken_one ws ws' : notify_one ws ws' → woken ws ws'.
Proof.
  intros [(j & Hj & ->)|[-> _]]; [|apply woken_refl].
  apply Forall2_same_length_lookup_2; [by rewrite length_insert|]. intros i a b Ha Hb.
  apply list_lookup_insert_Some in Hb as [(-> & <- & _)|[_ Hb]]; [right|left]; naive_solver.
Qed.
Lemma woken_if (b : bool) ws ws' : (if b then notify_one ws ws' else ws' = ws) → woken ws ws'.
Proof. destruct b; [apply woken_one|intros ->; apply woken_refl]. Qed.

Lemma woken_length ws ws' : woken ws ws' → length ws' = length ws.
Proof. intros H. symmetry. eapply Forall2_length. exact H. Qed.
Lemma woken_lookup ws ws' j pc' :
  woken ws ws' → ws' !! j = Some pc' → ∃ pc, ws !! j = Some pc ∧ (pc' = pc ∨ pc = Waiting ∧ pc' = Notified).
Proof. intros H Hj. destruct (Forall2_lookup_r _ _ _ _ _ H Hj) as (pc & ? & ?). eauto. Qed.
Lemma woken_lookup_l ws ws' j pc :
  woken ws ws' → ws !! j = Some pc → ∃ pc', ws' !! j = Some pc' ∧ (pc' = pc ∨ pc = Waiting ∧ pc' = Notified).
Proof. intros H Hj. destruct (Forall2_lookup_l _ _ _ _ _ H Hj) as (pc' & ? & ?). eauto. Qed.
Lemma woken_keep ws ws' j pc : woken ws ws' → ws !! j = Some pc → pc ≠ Waiting → ws' !! j = Some pc.
Proof. intros H Hj Hne. destruct (woken_lookup_l _ _ _ _ H Hj) as (pc' & Hj' & [-> |[-> _]]); done. Qed.

Lemma woken_parked ws ws' :
  woken ws ws' → length (filter (λ pc, is_parked pc = true) ws') = length (filter (λ pc, is_parked pc = true) ws).
Proof.
  induction 1 as [|a b ws ws' Hab _ IH]; [done|]. rewrite !filter_cons.
  assert (is_parked b = is_parked a) as -> by (destruct Hab as [-> |[-> ->]]; done).
  case_decide; simpl; by rewrite IH.
Qed.

Lemma woken_covered c ws ws' : woken ws ws' → covered c ws → covered c ws'.
Proof.
  intros H [(j & pc & Hj & Hs)|[Hn (j & Hj)]].
  - left. exists j, pc. split; [|done]. eapply woken_keep; [done..|by intros ->].
  - right. split.
    + intros i pc' Hi. destruct (woken_lookup _ _ _ _ H Hi) as (pc & Hi' & [-> |[-> ->]]); [by eapply Hn|done].
    + exists j. destruct Hj as [Hj|Hj]; [left|right]; by eapply woken_keep.
Qed.

(** ** Counting parked workers *)

Lemma parked_insert ws i pc pc' :
  ws !! i = Some pc →
  length (filter (λ pc, is_parked pc = true) (<[i := pc']> ws)) + (if is_parked pc then 1 else 0) =
  length (filter (λ pc, is_parked pc = true) ws) + (if is_parked pc' then 1 else 0).
Proof.
  intros Hi. rewrite <-(take_drop_middle ws i pc Hi) at 2. rewrite (insert_take_drop ws i pc') by (by apply lookup_lt_Some in Hi).
  rewrite !filter_app, !filter_cons, !length_app. repeat case_decide; destruct (is_parked pc), (is_parked pc'); simpl; (done || lia).
Qed.

Lemma parked_le ws : length (filter (λ pc, is_parked pc = true) ws) ≤ length ws.
Proof. apply length_filter. Qed.

Lemma parked_all ws :
  (∀ j pc, ws !! j = Some pc → is_parked pc = true) → length (filter (λ pc, is_parked pc = true) ws) = length ws.
Proof.
  induction ws as [|pc ws IH]; intros H; [done|]. rewrite filter_cons_True by (by apply (H 0)). cbn. f_equal.
  apply IH. intros j. apply (H (S j)).
Qed.

Lemma parked_none ws :
  (∀ j pc, ws !! j = Some pc → is_parked pc = false) → length (filter (λ pc, is_parked pc = true) ws) = 0.
Proof.
  induction ws as [|pc ws IH]; intros H; [done|]. rewrite filter_cons_False by (by rewrite (H 0 pc)).
  apply IH. intros j. apply (H (S j)).
Qed.

(** When all but [i] are parked. *)
Lemma parked_others ws i pc :
  ws !! i = Some pc → is_parked pc = false →
  length (filter (λ pc, is_parked pc = true) ws) + 1 = length ws →
  ∀ j pc', ws !! j = Some pc' → j ≠ i → is_parked pc' = true.
Proof.
  intros Hi Hp Hlen j pc' Hj Hne. destruct (is_parked pc') eqn:E; [done|exfalso].
  pose proof (parked_insert ws i pc Waiting Hi) as H1. rewrite Hp in H1.
  assert (<[i := Waiting]> ws !! j = Some pc') as Hj' by (by rewrite list_lookup_insert_ne).
  pose proof (parked_insert _ j pc' Waiting Hj') as H2. rewrite E in H2. cbn [is_parked] in *.
  pose proof (parked_le (<[j := Waiting]> (<[i := Waiting]> ws))) as H3. rewrite !length_insert in H3. lia.
Qed.

End workers.

(** ** The invariant *)

Section inv.
Context {W : Type} (stops_mutators : W → bool) (n : nat).
Abbreviation st_t := (sched_state (W := W)).

(** Some packet that stops the mutators is being executed or can be. *)
Definition stopper (st : st_t) : Prop :=
  (∃ j w, st_workers st !! j = Some (Executing w) ∧ stops_mutators w = true) ∨
  (∃ w, stops_mutators w = true ∧
    (w ∈ chan_items (st_sched st) (false, 0) ∨ w ∈ chan_items (st_sched st) (true, 0) ∨
     ∃ j l, st_local st !! j = Some l ∧ w ∈ l)).

(** The goals, the flags and the stop-the-world stages agree; in particular no
    stop-the-world stage is open while the mutators run. *)
Record flags_ok (st : st_t) : Prop := {
  fl_gc : current (st_goals st) = Some Gc →
    st_gc_started st = true ∧ requests (st_goals st) Gc = false ∧ st_requesting st = false ∧
    st_request_flag st = negb (st_paused st);
  fl_no_gc : current (st_goals st) ≠ Some Gc →
    st_gc_started st = false ∧ st_paused st = false ∧
    st_request_flag st = st_requesting st || requests (st_goals st) Gc ∧
    (st_requesting st = true → requests (st_goals st) Gc = false);
  fl_paused : st_paused st = true → is_activated (bucket (st_sched st) 1) = true;
  fl_stw : st_paused st = false → ∀ k, 1 ≤ k → is_activated (bucket (st_sched st) k) = false
}.

(** The worker in [notify_mutators_paused] executes a packet, and the mutators are stopped. *)
Definition pausing_ok (st : st_t) : Prop :=
  ∀ i ph, st_pausing st = Some (i, ph) → current (st_goals st) = Some Gc ∧ st_paused st = true ∧ ∃ w, st_workers st !! i = Some (Executing w).

Record inv (st : st_t) : Prop := {
  i_sched : sched_ok (st_sched st);
  i_workers : length (st_workers st) = n;
  i_local : length (st_local st) = n;
  i_count : worker_count (st_parker st) = n;
  i_parked : parked_workers (st_parker st) = length (filter (λ pc, is_parked pc = true) (st_workers st));
  i_chan : ∀ c, chan_live (st_sched st) c → covered c (st_workers st);
  i_localq : ∀ j l, st_local st !! j = Some l → l ≠ [] → ∃ pc, st_workers st !! j = Some pc ∧ sees_local pc;
  i_flags : flags_ok st;
  i_stop : current (st_goals st) = Some Gc → st_paused st = false → stopper st;
  i_fork : current (st_goals st) = Some StopForFork → ∀ j pc, st_workers st !! j = Some pc → pc = Notified ∨ pc = Exited;
  i_exited : ∀ j, st_workers st !! j = Some Exited →
    current (st_goals st) = Some StopForFork ∨
    current (st_goals st) = None ∧ ∀ i pc, st_workers st !! i = Some pc → pc = Exited;
  i_idle : (∀ j pc, st_workers st !! j = Some pc → pc = Waiting) →
    current (st_goals st) = None ∧ ∀ g, requests (st_goals st) g = false;
  i_pausing : pausing_ok st
}.

(** ** A step of a busy worker *)

(** Woken workers and a worker that does not stop executing keep [pausing_ok]. *)
Lemma pausing_woken (st st' : st_t) ws :
  pausing_ok st → st_pausing st' = st_pausing st → current (st_goals st') = current (st_goals st) → st_paused st' = st_paused st →
  woken (st_workers st) ws → (∀ i w ph, st_pausing st = Some (i, ph) → ws !! i = Some (Executing w) → ∃ w', st_workers st' !! i = Some (Executing w')) → pausing_ok st'.
Proof.
  intros Hp E Eg Epa Hw Hws i ph Hi. rewrite E in Hi. destruct (Hp i ph Hi) as (Hg & Hpa & w & Hx). rewrite Eg, Epa. split; [done|]. split; [done|].
  eapply Hws; [done|]. by eapply woken_keep.
Qed.

Lemma busy_facts st i pc :
  inv st → st_workers st !! i = Some pc → is_active pc = true →
  current (st_goals st) ≠ Some StopForFork ∧ ∀ j, st_workers st !! j ≠ Some Exited.
Proof.
  intros Hinv Hi Ha. assert (current (st_goals st) ≠ Some StopForFork) as Hc.
  { intros Hc. destruct (i_fork _ Hinv Hc i pc Hi) as [-> | ->]; done. }
  split; [done|]. intros j Hj. destruct (i_exited _ Hinv j Hj) as [?|[_ Hall]]; [done|].
  specialize (Hall i pc Hi). by subst.
Qed.

(** Worker [i] goes from one busy state to another, and may have woken others. *)
Lemma inv_busy st st' i pc pc' ws :
  inv st → st_workers st !! i = Some pc → is_active pc = true → is_active pc' = true →
  woken (st_workers st) ws → st_workers st' = <[i := pc']> ws → st_goals st' = st_goals st → st_parker st' = st_parker st →
  length (st_local st') = n → sched_ok (st_sched st') → flags_ok st' →
  (∀ c, chan_live (st_sched st') c → covered c (st_workers st')) →
  (∀ j l, st_local st' !! j = Some l → l ≠ [] → ∃ pc, st_workers st' !! j = Some pc ∧ sees_local pc) →
  (current (st_goals st') = Some Gc → st_paused st' = false → stopper st') → pausing_ok st' →
  inv st'.
Proof.
  intros Hinv Hi Ha Ha' Hw Ews Eg Ep Hl Hok Hfl Hch Hlq Hst Hpz.
  destruct (busy_facts st i pc Hinv Hi Ha) as [Hc Hne].
  assert (ws !! i = Some pc) as Hi' by (eapply woken_keep; [done..|by intros ->]).
  assert (i < length ws) as Hlt by (by apply lookup_lt_Some in Hi').
  assert (is_parked pc = false ∧ is_parked pc' = false) as [Hp Hp'] by (by destruct pc, pc').
  split; try done.
  - rewrite Ews, length_insert, (woken_length _ _ Hw). apply Hinv.
  - rewrite Ep. apply Hinv.
  - rewrite Ep, (i_parked _ Hinv), Ews, <-(woken_parked _ _ Hw).
    pose proof (parked_insert ws i pc pc' Hi') as H. rewrite Hp, Hp' in H. lia.
  - rewrite Eg. done.
  - intros j Hj. exfalso. rewrite Ews in Hj. apply list_lookup_insert_Some in Hj as [(_ & -> & _)|[_ Hj]]; [done|].
    destruct (woken_lookup _ _ _ _ Hw Hj) as (p & Hj' & [<- |[-> ?]]); [by apply (Hne j)|done].
  - intros Hall. exfalso. specialize (Hall i pc'). rewrite Ews, list_lookup_insert_eq in Hall by done.
    rewrite Hall in Ha'; done.
Qed.
End inv.
