(* ===== verification/SchedulerPreserve.v ===== *)
(** * Every step of a worker that is not parking keeps the invariant *)

From S2P Require Import Prelude Scheduler SchedulerSteps SchedulerBuckets SchedulerInv.
#[local] Open Scope nat_scope.

Section preserve.
Context {W : Type} (stops_mutators : W → bool) (n : nat).
Abbreviation st_t := (sched_state (W := W)).
Abbreviation pc_t := (worker_pc (W := W)).
Abbreviation inv := (inv stops_mutators n).
Abbreviation stopper := (stopper stops_mutators).

(** ** Queues *)

Lemma live_stage (s : GCWorkScheduler (W := W)) c : sched_ok s → chan_live s c → c.2 < LENGTH.
Proof.
  intros Hok [Ha _]. destruct (decide (c.2 < LENGTH)); [done|].
  rewrite bucket_outside in Ha by (rewrite (ok_length _ Hok); lia). done.
Qed.

Lemma sees_all c m i slow : c.2 < LENGTH → sees (W := W) c (Scanning (sched_sources m i) slow).
Proof.
  intros Hk. right. left. apply elem_of_cons. right. apply elem_of_app. left.
  apply list_elem_of_fmap. exists c.2. split; [done|]. apply elem_of_seq. lia.
Qed.

Lemma covered_by c (ws : list pc_t) i pc : ws !! i = Some pc → sees c pc → covered c ws.
Proof. intros. left. eauto. Qed.
Lemma covered_insert c (ws : list pc_t) i pc pc' :
  ws !! i = Some pc → is_active pc = true → covered c ws → (sees c pc → sees c pc') → covered c (<[i := pc']> ws).
Proof.
  intros Hi Ha [(j & p & Hj & Hs)|[Hn _]] Hm; [|by rewrite (Hn _ _ Hi) in Ha].
  destruct (decide (j = i)) as [-> |].
  - simplify_eq. apply (covered_by _ _ i pc'); [|by apply Hm]. apply list_lookup_insert_eq. by apply lookup_lt_Some in Hi.
  - apply (covered_by _ _ j p); [|done]. by rewrite list_lookup_insert_ne.
Qed.

(** ** Flags *)

Lemma flags_ok_same (st st' : st_t) :
  flags_ok st → st_goals st' = st_goals st → st_gc_started st' = st_gc_started st →
  st_request_flag st' = st_request_flag st → st_requesting st' = st_requesting st → st_paused st' = st_paused st →
  (∀ k, is_activated (bucket (st_sched st') k) = is_activated (bucket (st_sched st) k)) → flags_ok st'.
Proof.
  intros [H1 H2 H3 H4] E1 E2 E3 E4 E5 Ha. split; rewrite ?E1, ?E2, ?E3, ?E4, ?E5; [done..| |].
  - rewrite Ha. done.
  - intros Hp k Hk. rewrite Ha. by apply H4.
Qed.

Lemma shape_active b b' : same_shape (W := W) b b' → is_activated b' = is_activated b.
Proof. by intros (_ & ? & _). Qed.
Lemma update_active (s : GCWorkScheduler (W := W)) k f j :
  same_shape (bucket s k) (f (bucket s k)) → is_activated (bucket (update_bucket k f s) j) = is_activated (bucket s j).
Proof. intros Hf. rewrite bucket_update_eq. case_decide as Hd; [|done]. destruct Hd as [-> _]. by apply shape_active. Qed.

Lemma disable_ok (s : GCWorkScheduler (W := W)) k :
  sched_ok s → 0 < k → sched_ok (update_bucket k (with_disable true) s).
Proof.
  intros [Hl Hc Hf Hp Ho] Hk.
  assert (∀ j, passed (bucket s j) → passed (bucket (update_bucket k (with_disable true) s) j)) as Hm.
  { intros j Hj. rewrite bucket_update_eq. case_decide; [by right|done]. }
  split; [by rewrite length_update_bucket| | | |].
  - intros j Hj. rewrite bucket_update_eq. case_decide as Hd; [destruct Hd as [-> _]|]; by apply Hc.
  - rewrite bucket_update_eq, decide_False by lia. done.
  - intros j Hj Hj'. by apply Hm, Hp.
  - intros j j' Hjj Ha. apply Hm, (Ho j j'); [done|]. rewrite bucket_update_eq in Ha.
    case_decide as Hd; [destruct Hd as [-> _]|]; done.
Qed.

(** ** Polling *)

(** The worker looks at other sources; nothing else changes. *)
Lemma inv_scan st i todo slow todo' slow' :
  inv st → st_workers st !! i = Some (Scanning todo slow) →
  (∀ c, chan_live (st_sched st) c → sees c (Scanning (W := W) todo slow) → sees c (Scanning (W := W) todo' slow')) →
  (st_local st !!! i ≠ [] → SLocal ∈ todo → SLocal ∈ todo') →
  inv (set_worker i (Scanning todo' slow') st).
Proof.
  intros Hinv Hi Hc Hl. eapply (inv_busy _ _ st _ i _ (Scanning todo' slow') (st_workers st)); try done.
  - apply woken_refl.
  - apply Hinv.
  - apply Hinv.
  - eapply flags_ok_same; [apply Hinv|done..].
  - intros c Hlive. eapply covered_insert; [done|done|by apply (i_chan _ _ _ Hinv)|]. by apply Hc.
  - cbn. intros j l Hj Hne. destruct (i_localq _ _ _ Hinv j l Hj Hne) as (p & Hp & Hs).
    destruct (decide (j = i)) as [-> |]; [|exists p; by rewrite list_lookup_insert_ne].
    simplify_eq. exists (Scanning todo' slow'). split; [apply list_lookup_insert_eq; by apply lookup_lt_Some in Hi|].
    apply Hl; [|done]. by rewrite (list_lookup_total_correct _ _ _ Hj).
  - cbn. intros Hg Hp. destruct (i_stop _ _ _ Hinv Hg Hp) as [(j & w & Hj & Hw)|?]; [left|by right].
    exists j, w. split; [|done]. cbn. rewrite list_lookup_insert_ne; [done|]. intros ->. congruence.
  - eapply (pausing_woken st _ (st_workers st)); [apply Hinv|done..|apply woken_refl|]. cbn. intros j w ph _ Hj. exists w.
    rewrite list_lookup_insert_ne; [done|]. intros ->. congruence.
Qed.

Lemma inv_open st i k todo slow :
  inv st → st_workers st !! i = Some (Scanning (SBucket k :: todo) slow) →
  inv (set_worker i (Scanning (SPrio k :: SQueue k :: todo) slow) st).
Proof.
  intros Hinv Hi. eapply inv_scan; [done..| |].
  - intros [b k'] _ [?|[H|H]]; [by left| |].
    + right. apply elem_of_cons in H as [H|H]; [right; simplify_eq/=; destruct b; set_solver|left; set_solver].
    + right. right. cbn in *. destruct b; set_solver.
  - set_solver.
Qed.

Lemma inv_skip st i x todo slow :
  inv st → st_workers st !! i = Some (Scanning (x :: todo) slow) → source_empty i st x →
  inv (set_worker i (Scanning todo slow) st).
Proof.
  intros Hinv Hi He. eapply inv_scan; [done..| |].
  - intros [b k] (Ha & Hd & Hne) [?|[H|H]]; [by left| |]; apply elem_of_cons in H as [H|H].
    + exfalso. cbn [snd] in *. subst x. unfold source_empty, bucket_is_empty in He. rewrite Ha, Hd in He. cbn [orb negb] in He.
      apply andb_true_iff in He as [He1 He2]. unfold chan_items in Hne. destruct b; cbn in Hne.
      * destruct (prioritized_queue _) as [[|]|]; done.
      * by destruct (queue _).
    + right. by left.
    + exfalso. unfold chan_items in Hne. destruct b; cbn in *; subst x; done.
    + right. by right.
  - intros Hl [<- |?]%elem_of_cons; [|done]. done.
Qed.

Lemma inv_retry st i x todo slow m :
  inv st → st_workers st !! i = Some (Scanning (x :: todo) slow) → can_retry x = true →
  inv (set_worker i (Scanning (todo ++ sched_sources m i) slow) st).
Proof.
  intros Hinv Hi Hx. eapply inv_scan; [done..| |].
  - intros c Hlive _. assert (c.2 < LENGTH) as Hk by (eapply live_stage; [apply Hinv|done]).
    destruct (sees_all c m i true Hk) as [?|[H|H]]; [done|right; left|right; right]; set_solver.
  - intros _ [<- |?]%elem_of_cons; [done|set_solver].
Qed.

Lemma inv_rescan st i todo slow slow' m :
  inv st → st_workers st !! i = Some (Scanning todo slow) → SLocal ∉ todo →
  inv (set_worker i (Scanning (sched_sources m i) slow') st).
Proof.
  intros Hinv Hi Hl. eapply inv_scan; [done..| |done].
  intros c Hlive _. apply sees_all. eapply live_stage; [apply Hinv|done].
Qed.
(** ** Executing *)

(** The worker executes a packet afterwards, and has changed queues and woken others. *)
Lemma inv_exec st st' i pc w ws :
  inv st → st_workers st !! i = Some pc → is_active pc = true →
  woken (st_workers st) ws → st_workers st' = <[i := Executing w]> ws →
  st_goals st' = st_goals st → st_parker st' = st_parker st →
  length (st_local st') = n → sched_ok (st_sched st') → flags_ok st' →
  (∀ j l, j ≠ i → st_local st' !! j = Some l → l ≠ [] → ∃ l', st_local st !! j = Some l' ∧ l' ≠ []) →
  (current (st_goals st) = Some Gc → st_paused st' = false → stopper st') →
  (st_pausing st' = st_pausing st ∧ st_paused st' = st_paused st) ∨ pausing_ok st' → inv st'.
Proof.
  intros Hinv Hi Ha Hw Ews Eg Ep Hl Hok Hfl Hlq Hst Hpz.
  assert (st_workers st' !! i = Some (Executing w)) as Hi'.
  { rewrite Ews. apply list_lookup_insert_eq. rewrite (woken_length _ _ Hw). by apply lookup_lt_Some in Hi. }
  eapply (inv_busy _ _ st _ i _ (Executing w) ws); try done.
  - intros c _. by eapply covered_by.
  - intros j l Hj Hne. destruct (decide (j = i)) as [-> |Hji]; [by exists (Executing w)|].
    destruct (Hlq j l Hji Hj Hne) as (l' & Hl' & Hne'). destruct (i_localq _ _ _ Hinv j l' Hl' Hne') as (p & Hp & Hs).
    exists p. split; [|done]. rewrite Ews, list_lookup_insert_ne by done.
    eapply woken_keep; [done..|by intros ->].
  - by rewrite Eg.
  - destruct Hpz as [[E1 E2]|?]; [|done]. eapply (pausing_woken st _ ws); [apply Hinv|done|by rewrite Eg|done|done|]. intros j w' ph _ Hj. rewrite Ews.
    destruct (decide (j = i)) as [-> |]; [exists w; apply list_lookup_insert_eq; by apply lookup_lt_Some in Hj|exists w'; by rewrite list_lookup_insert_ne].
Qed.

(** The places of [stopper]. *)
Definition held (st : st_t) (w : W) : Prop :=
  w ∈ chan_items (st_sched st) (false, 0) ∨ w ∈ chan_items (st_sched st) (true, 0) ∨
  ∃ j l, st_local st !! j = Some l ∧ w ∈ l.

Lemma stopper_keep st st' i pc w ws :
  stopper st → st_workers st !! i = Some pc → is_active pc = true → woken (st_workers st) ws →
  st_workers st' = <[i := Executing w]> ws →
  (∀ w', pc = Executing w' → w' = w) → (∀ w', held st w' → w' = w ∨ held st' w') → stopper st'.
Proof.
  intros Hst Hi Ha Hw Ews Hpc Hh.
  assert (i < length ws) as Hlt by (rewrite (woken_length _ _ Hw); by apply lookup_lt_Some in Hi).
  destruct Hst as [(j & w' & Hj & Hs)|(w' & Hs & Hheld)].
  - left. destruct (decide (j = i)) as [-> |].
    + simplify_eq. rewrite (Hpc w' eq_refl) in *. exists i, w. rewrite Ews, list_lookup_insert_eq; done.
    + exists j, w'. rewrite Ews, list_lookup_insert_ne by done. split; [|done]. by eapply woken_keep.
  - destruct (Hh w' Hheld) as [-> |Hh']; [|right; eauto]. left. exists i, w. by rewrite Ews, list_lookup_insert_eq.
Qed.

Lemma with_designated_ok (s : GCWorkScheduler (W := W)) d : sched_ok s → sched_ok (with_designated d s).
Proof. intros Hok. apply (sched_ok_same s); [done|apply Hok|done|]. by repeat split. Qed.
Lemma with_postponed_ok (s : GCWorkScheduler (W := W)) q p : sched_ok s → sched_ok (with_postponed q p s).
Proof. intros Hok. apply (sched_ok_same s); [done|apply Hok|done|]. by repeat split. Qed.

(** Replacing the packets of one queue. *)
Definition with_chan (p : bool) (q : list W) (b : WorkBucket) : WorkBucket :=
  if p then with_prioritized (Some q) b else with_queue q b.
Lemma with_chan_shape p q b : same_shape b (with_chan p q b).
Proof. by destruct p; repeat split. Qed.
Lemma chan_update (s : GCWorkScheduler (W := W)) p k q c :
  sched_ok s → k < LENGTH →
  chan_items (update_bucket k (with_chan p q) s) c = if decide (c = (p, k)) then q else chan_items s c.
Proof.
  intros Hok Hk. unfold chan_items. destruct c as [p' k']. cbn [fst snd]. rewrite bucket_update_eq, (ok_length _ Hok).
  destruct (decide (k' = k)) as [-> |]; [rewrite decide_True by done|rewrite !decide_False by naive_solver; done].
  destruct p, p'; case_decide; simplify_eq; done.
Qed.
Lemma chan_stage (s : GCWorkScheduler (W := W)) c : sched_ok s → chan_items s c ≠ [] → c.2 < LENGTH.
Proof.
  intros Hok Hne. destruct (decide (c.2 < LENGTH)); [done|]. unfold chan_items in Hne.
  rewrite bucket_outside in Hne by (rewrite (ok_length _ Hok); lia). by destruct c as [[] ?].
Qed.

(** What a worker gets from a source leaves it, and nothing is lost. *)
Record takes_ok (i : nat) (w : W) (st st' : st_t) : Prop := {
  tk_same : st_workers st' = st_workers st ∧ st_goals st' = st_goals st ∧ st_parker st' = st_parker st ∧
    st_gc_started st' = st_gc_started st ∧ st_request_flag st' = st_request_flag st ∧
    st_requesting st' = st_requesting st ∧ st_paused st' = st_paused st ∧ st_pausing st' = st_pausing st;
  tk_local : length (st_local st') = length (st_local st);
  tk_sched : sched_ok (st_sched st');
  tk_active : ∀ k, is_activated (bucket (st_sched st') k) = is_activated (bucket (st_sched st) k);
  tk_others : ∀ j l, j ≠ i → st_local st' !! j = Some l → l ≠ [] → ∃ l', st_local st !! j = Some l' ∧ l' ≠ [];
  tk_held : ∀ w', held st w' → w' = w ∨ held st' w'
}.

Lemma take_local_ok i w st j l l' :
  sched_ok (st_sched st) → st_local st !! j = Some l → l ≡ₚ w :: l' →
  takes_ok i w st (set_local (<[j := l']> (st_local st)) st).
Proof.
  intros Hok Hl Hp. split; try done; [apply length_insert| |].
  - intros j0 l0 _ Hj0 Hne. apply list_lookup_insert_Some in Hj0 as [(-> & <- & _)|[_ Hj0]]; [|eauto].
    exists l. split; [done|]. intros ->. by apply Permutation_nil_cons in Hp.
  - intros w' [H|[H|(j0 & l0 & Hj & H)]]; [right; by left|right; by right; left|].
    destruct (decide (j0 = j)) as [-> |]; [|right; right; right; exists j0, l0; cbn; by rewrite list_lookup_insert_ne].
    simplify_eq. rewrite Hp in H. apply elem_of_cons in H as [-> |H]; [by left|].
    right. right. right. exists j, l'. cbn. rewrite list_lookup_insert_eq; [done|]. by apply lookup_lt_Some in Hl.
Qed.

Lemma take_chan_ok i w st p k batch q' :
  sched_ok (st_sched st) → i < length (st_local st) → chan_items (st_sched st) (p, k) ≡ₚ w :: batch ++ q' →
  takes_ok i w st (set_local (alter (λ l, l ++ batch) i (st_local st))
    (set_sched (update_bucket k (with_chan p q') (st_sched st)) st)).
Proof.
  intros Hok Hi Hp. destruct (lookup_lt_is_Some_2 _ _ Hi) as [li Hli].
  assert (k < LENGTH) as Hk.
  { apply (chan_stage (st_sched st) (p, k) Hok). intros E. rewrite E in Hp. by apply Permutation_nil_cons in Hp. }
  assert (∀ w' j l, st_local st !! j = Some l → w' ∈ l →
    ∃ j l, alter (λ l, l ++ batch) i (st_local st) !! j = Some l ∧ w' ∈ l) as Hloc.
  { intros w' j l Hj Hw. destruct (decide (j = i)) as [-> |]; [exists i, (l ++ batch)|exists j, l].
    - rewrite list_lookup_alter_eq, Hj. set_solver.
    - by rewrite list_lookup_alter_ne. }
  assert (∀ c w', w' ∈ chan_items (st_sched st) c → c.2 = 0 → w' = w ∨
    w' ∈ chan_items (update_bucket k (with_chan p q') (st_sched st)) c ∨
    ∃ j l, alter (λ l, l ++ batch) i (st_local st) !! j = Some l ∧ w' ∈ l) as Hch.
  { intros c w' Hin _. rewrite chan_update by done. case_decide as Hc; [subst c|auto].
    rewrite Hp in Hin. apply elem_of_cons in Hin as [-> |[Hin|Hin]%elem_of_app]; [by left|right; right|by right; left].
    exists i, (li ++ batch). rewrite list_lookup_alter_eq, Hli. set_solver. }
  split; try done.
  - apply length_alter.
  - apply sched_ok_update; [done|apply with_chan_shape].
  - intros j. apply update_active, with_chan_shape.
  - intros j l Hne. cbn. rewrite list_lookup_alter_ne by done. eauto.
  - intros w' [H|[H|(j & l & Hj & H)]].
    + destruct (Hch _ w' H eq_refl) as [|[|]]; [by left|right; by left|right; by right; right].
    + destruct (Hch _ w' H eq_refl) as [|[|]]; [by left|right; by right; left|right; by right; right].
    + right. right. right. by eapply Hloc.
Qed.

Lemma takes_facts i w x st st' :
  takes i w x st st' → sched_ok (st_sched st) → i < length (st_local st) → takes_ok i w st st'.
Proof.
  intros [] Hok Hi.
  - split; try done; [by apply with_designated_ok|eauto|auto].
  - by eapply take_local_ok.
  - by eapply take_local_ok.
  - apply (take_chan_ok i w _ true k); [done..|]. unfold chan_items. cbn [fst snd]. by rewrite H.
  - by apply (take_chan_ok i w _ false k).
Qed.

Lemma inv_take st i w x todo slow st' :
  inv st → st_workers st !! i = Some (Scanning (x :: todo) slow) → takes i w x st st' →
  inv (set_worker i (Executing w) st').
Proof.
  intros Hinv Hi Ht. assert (i < length (st_local st)) as Hlt.
  { rewrite (i_local _ _ _ Hinv), <-(i_workers _ _ _ Hinv). by apply lookup_lt_Some in Hi. }
  destruct (takes_facts _ _ _ _ _ Ht (i_sched _ _ _ Hinv) Hlt) as [(E1 & E2 & E3 & E4 & E5 & E6 & E7 & E8) Hl Hok Ha Ho Hh].
  eapply (inv_exec st _ i _ w (st_workers st)); try done.
  - apply woken_refl.
  - cbn. by rewrite E1.
  - cbn. rewrite Hl. apply Hinv.
  - eapply flags_ok_same; [apply Hinv|done..].
  - cbn. intros Hg Hp. rewrite E7 in Hp. eapply (stopper_keep st _ i _ w (st_workers st)); try done.
    + by apply (i_stop _ _ _ Hinv).
    + apply woken_refl.
    + cbn. by rewrite E1.
  - by left.
Qed.

(** ** Finishing a packet *)

Lemma inv_done st i w :
  inv st → st_workers st !! i = Some (Executing w) → (∀ ph, st_pausing st ≠ Some (i, ph)) →
  (stops_mutators w = true → current (st_goals st) = Some Gc → st_paused st = false →
    ∃ w', stops_mutators w' = true ∧ w' ∈ queue (bucket (st_sched st) 0)) →
  inv (set_worker i (Scanning (poll_sources (worker_count (st_parker st)) i) false) st).
Proof.
  intros Hinv Hi Hnp Hw. assert (i < length (st_workers st)) as Hlt by (by apply lookup_lt_Some in Hi).
  eapply (inv_busy _ _ st _ i _ (Scanning (poll_sources (worker_count (st_parker st)) i) false) (st_workers st)); try done.
  - apply woken_refl.
  - apply Hinv.
  - apply Hinv.
  - eapply flags_ok_same; [apply Hinv|done..].
  - intros c _. eapply (covered_by _ _ i); [by apply list_lookup_insert_eq|by left].
  - cbn. intros j l Hj Hne. destruct (decide (j = i)) as [-> |].
    + eexists. split; [by apply list_lookup_insert_eq|]. cbn. set_solver.
    + rewrite list_lookup_insert_ne by done. by apply (i_localq _ _ _ Hinv j l).
  - cbn. intros Hg Hp. destruct (i_stop _ _ _ Hinv Hg Hp) as [(j & w' & Hj & Hs)|?]; [|by right].
    destruct (decide (j = i)) as [-> |].
    + simplify_eq. destruct (Hw Hs Hg Hp) as (w' & Hs' & Hin). right. exists w'. split; [done|]. by left.
    + left. exists j, w'. cbn. by rewrite list_lookup_insert_ne.
  - eapply (pausing_woken st _ (st_workers st)); [apply Hinv|done..|apply woken_refl|]. cbn. intros j w' ph Hj Hw'. exists w'.
    rewrite list_lookup_insert_ne; [done|]. intros ->. by apply (Hnp ph).
Qed.
(** ** While a packet is executed *)

Lemma inv_work_pausing st st' i w :
  inv st → st_workers st !! i = Some (Executing w) → woken (st_workers st) (st_workers st') →
  st_goals st' = st_goals st → st_parker st' = st_parker st →
  length (st_local st') = n → (∀ j, j ≠ i → st_local st' !! j = st_local st !! j) →
  sched_ok (st_sched st') → flags_ok st' → (∀ w', st_paused st' = false → held st w' → st_paused st = false ∧ held st' w') →
  (st_paused st' = false → st_paused st = false) → (st_pausing st' = st_pausing st ∧ st_paused st' = st_paused st) ∨ pausing_ok st' → inv st'.
Proof.
  intros Hinv Hi Hw Eg Ep Hl Hlo Hok Hf Hh Hpa Hpz.
  assert (st_workers st' = <[i := Executing w]> (st_workers st')) as Ews.
  { symmetry. apply list_insert_id. eapply woken_keep; [done..|by intros]. }
  eapply (inv_exec st _ i _ w); try done.
  - intros j l Hne. rewrite Hlo by done. eauto.
  - intros Hg Hp. eapply (stopper_keep st _ i _ w); try done; [apply (i_stop _ _ _ Hinv Hg); auto|naive_solver|].
    intros w' Hw'. right. by apply Hh.
Qed.

Lemma inv_work st st' i w :
  inv st → st_workers st !! i = Some (Executing w) → woken (st_workers st) (st_workers st') →
  st_goals st' = st_goals st → st_parker st' = st_parker st →
  length (st_local st') = n → (∀ j, j ≠ i → st_local st' !! j = st_local st !! j) →
  sched_ok (st_sched st') → flags_ok st' → (∀ w', st_paused st' = false → held st w' → st_paused st = false ∧ held st' w') →
  st_paused st' = st_paused st → st_pausing st' = st_pausing st → inv st'.
Proof. intros. eapply (inv_work_pausing st _ i w); try done; [congruence|by left]. Qed.

(** A change to the packets of one bucket. *)
Lemma inv_work_bucket st i w k f ws :
  inv st → st_workers st !! i = Some (Executing w) → woken (st_workers st) ws →
  same_shape (bucket (st_sched st) k) (f (bucket (st_sched st) k)) →
  (∀ p w', w' ∈ chan_items (st_sched st) (p, k) → w' ∈ chan_items (update_bucket k f (st_sched st)) (p, k)) →
  inv (set_workers ws (set_sched (update_bucket k f (st_sched st)) st)).
Proof.
  intros Hinv Hi Hw Hsh Hch.
  assert (∀ p w', w' ∈ chan_items (st_sched st) (p, 0) → w' ∈ chan_items (update_bucket k f (st_sched st)) (p, 0)) as Hch'.
  { intros p w' Hin. destruct (decide (k = 0)) as [-> |]; [by apply Hch|]. unfold chan_items in *. cbn [fst snd] in *.
    rewrite bucket_update_eq, decide_False by lia. done. }
  eapply (inv_work st _ i w); try done.
  - apply Hinv.
  - apply sched_ok_update; [apply Hinv|done].
  - eapply flags_ok_same; [apply Hinv|try done..]. intros j. by apply update_active.
  - intros w' Hp [H|[H|H]]; (split; [done|]); [left; by apply Hch'|right; left; by apply Hch'|by right; right].
Qed.

Lemma chan_push (s : GCWorkScheduler (W := W)) p k q q' :
  sched_ok s → k < LENGTH → q = chan_items s (p, k) →
  ∀ p' w', w' ∈ chan_items s (p', k) → w' ∈ chan_items (update_bucket k (with_chan p (q ++ q')) s) (p', k).
Proof. intros Hok Hk -> p' w' Hw. rewrite chan_update by done. case_decide; [simplify_eq; set_solver|done]. Qed.

Lemma update_bucket_ext (s : GCWorkScheduler (W := W)) k f g :
  f (bucket s k) = g (bucket s k) → update_bucket k f s = update_bucket k g s.
Proof.
  intros H. unfold update_bucket. f_equal. apply list_alter_ext; [|done]. intros b Hb.
  unfold bucket in H. by rewrite (list_lookup_total_correct _ _ _ Hb) in H.
Qed.

Lemma inv_push_chan st i w k p q' f ws :
  inv st → st_workers st !! i = Some (Executing w) → woken (st_workers st) ws → k < LENGTH →
  f (bucket (st_sched st) k) = with_chan p (chan_items (st_sched st) (p, k) ++ q') (bucket (st_sched st) k) →
  inv (set_workers ws (set_sched (update_bucket k f (st_sched st)) st)).
Proof.
  intros Hinv Hi Hw Hk Hf. rewrite (update_bucket_ext _ _ _ _ Hf). eapply inv_work_bucket; [done..|apply with_chan_shape|].
  apply chan_push; [apply Hinv|done|done].
Qed.

Lemma inv_notify_paused st i w :
  inv st → st_workers st !! i = Some (Executing w) → current (st_goals st) = Some Gc → inv (notify_mutators_paused i st).
Proof.
  intros Hinv Hi Hg. pose proof (i_sched _ _ _ Hinv) as Hok. unfold notify_mutators_paused. set (s1 := update_bucket first_stw_stage activate (st_sched st)).
  assert (sched_ok s1) as Hok1 by (apply activate_ok; [done|done|unfold first_stw_stage; lia]).
  assert (is_activated (bucket s1 1) = true) as H1.
  { unfold s1. rewrite bucket_update_eq, decide_True; [done|]. rewrite (ok_length _ Hok). split; [done|unfold first_stw_stage, LENGTH; cbn; lia]. }
  eapply (inv_work_pausing st _ i w); try done; cbn.
  - apply woken_refl.
  - apply Hinv.
  - destruct (fl_gc _ (i_flags _ _ _ Hinv) Hg) as (? & ? & ? & _). split; cbn; [done| |done|done]. by rewrite Hg.
  - right. intros j ph [= <- <-]. cbn. eauto.
Qed.

(** The rest of [notify_mutators_paused]. *)
Lemma inv_pausing st i ph drained : inv st → st_pausing st = Some (i, ph) → inv (pause_action i drained ph st).
Proof.
  intros Hinv Hz. destruct (i_pausing _ _ _ Hinv i ph Hz) as (Hg & Hpa & w & Hi). pose proof (i_sched _ _ _ Hinv) as Hok.
  assert (∀ z, z = None ∨ (∃ ph', z = Some (i, ph')) → ∀ st', st_workers st' !! i = Some (Executing w) → current (st_goals st') = Some Gc →
    st_paused st' = true → pausing_ok (set_pausing z st')) as Hpz.
  { intros z Hz' st' Hi' Hg' Hp' j ph' Ej. cbn in *. destruct Hz' as [-> |[ph2 ->]]; [done|]. injection Ej as <- <-. eauto. }
  assert (∀ ph', inv (set_pausing (Some (i, ph')) st)) as Hsame.
  { intros ph'. eapply (inv_work_pausing st _ i w); try done; [apply woken_refl|apply Hinv|eapply flags_ok_same; [apply Hinv|done..]|right; apply Hpz; eauto]. }
  destruct ph; cbn [pause_action]; [apply Hsame..| |].
  - eapply (inv_work_pausing st _ i w); try done; cbn [set_pausing set_sched st_workers st_sched st_paused st_local]; [apply woken_refl|apply Hinv| | |congruence|right; apply Hpz; eauto].
    + apply activate_ok; [done|lia|]. intros j Hj. left. replace j with 1 by lia. by apply (fl_paused _ (i_flags _ _ _ Hinv)).
    + destruct (i_flags _ _ _ Hinv) as [Fg Fn Fp Fs]. split; cbn [set_pausing set_sched st_sched st_paused st_goals st_gc_started st_requesting st_request_flag]; [done|done| |congruence]. intros _. rewrite bucket_update_eq, decide_False by lia. by apply Fp.
  - eapply (inv_work_pausing st _ i w); try done; cbn; [apply woken_all|apply Hinv|eapply flags_ok_same; [apply Hinv|done..]|].
    right. apply Hpz; [by left|cbn; by apply (woken_keep _ _ _ _ (woken_all _) Hi)|done..].
Qed.

Lemma inv_packet st i w st' :
  inv st → st_workers st !! i = Some (Executing w) → packet_step i st st' → inv st'.
Proof.
  intros Hinv Hi Hp. pose proof (i_sched _ _ _ Hinv) as Hok.
  destruct Hp as [st k w' ws Hk _ Hws|st k w' b ws Hk _ Hb Hws|st k w' _ _|st k w' Hk|st j w' _|st w'|st w'|st k Hk|
    st cm ws _ Hws|st Hg _].
  - apply woken_if in Hws. by apply (inv_push_chan st i w k false [w']).
  - apply woken_if in Hws. unfold add_prioritized in Hb. destruct (prioritized_queue _) as [q|] eqn:Eq; [|done].
    injection Hb as <-.
    apply (inv_push_chan st i w k true [w']); [done..|]. unfold chan_items. cbn [fst snd]. by rewrite Eq.
  - eapply (inv_work st _ i w); try done; [apply woken_refl| | | |].
    + cbn. rewrite length_alter. apply Hinv.
    + intros j Hne. cbn. by rewrite list_lookup_alter_ne.
    + eapply flags_ok_same; [apply Hinv|done..].
    + intros w0 Hpa [H|[H|(j & l & Hj & H)]]; (split; [done|]); [by left|by right; left|right; right].
      destruct (decide (j = i)) as [-> |]; [exists i, (l ++ [w'])|exists j, l]; cbn.
      * rewrite list_lookup_alter_eq, Hj. set_solver.
      * by rewrite list_lookup_alter_ne.
  - apply (inv_work_bucket st i w k (bucket_set_sentinel w') (st_workers st)); [done..|apply woken_refl|by repeat split|].
    intros p w0. unfold chan_items. cbn [fst snd]. rewrite bucket_update_eq. by case_decide.
  - eapply (inv_work st _ i w); try done; [apply woken_refl|apply Hinv|by apply with_designated_ok| ].
    eapply flags_ok_same; [apply Hinv|done..].
  - eapply (inv_work st _ i w); try done; [apply woken_refl|apply Hinv|by apply with_postponed_ok| ].
    eapply flags_ok_same; [apply Hinv|done..].
  - eapply (inv_work st _ i w); try done; [apply woken_refl|apply Hinv|by apply with_postponed_ok| ].
    eapply flags_ok_same; [apply Hinv|done..].
  - eapply (inv_work st _ i w); try done; [apply woken_refl|apply Hinv|apply disable_ok; [done|lia]| | ].
    + eapply flags_ok_same; [apply Hinv|try done..]. intros j. cbn [set_sched st_sched]. rewrite bucket_update_eq.
      case_decide as Hd; [destruct Hd as [-> _]|]; done.
    + intros w0 Hpa H. split; [done|]. unfold held, chan_items in *. cbn [fst snd set_sched st_sched st_local] in *.
      rewrite bucket_update_eq, decide_False by lia. done.
  - assert (woken (st_workers st) ws) as Hw.
    { destruct Hws as [-> |[_ [H| ->]]]; [apply woken_refl|by apply woken_one|apply woken_all]. }
    set (s1 := with_postponed (postponed_concurrent_work (st_sched st))
      (List.filter cm (postponed_concurrent_work_prioritized (st_sched st))) (st_sched st)).
    assert (inv (set_sched s1 st)) as Hinv1.
    { eapply (inv_work st _ i w); try done; [apply woken_refl|apply Hinv|by apply with_postponed_ok| ].
      eapply flags_ok_same; [apply Hinv|done..]. }
    eapply (inv_push_chan (set_sched s1 st) i w stw_rc_decs false _ _ ws Hinv1); [done..| |done].
    unfold stw_rc_decs, LENGTH. cbn. lia.
  - by eapply inv_notify_paused.
Qed.
End preserve.
