(* ===== verification/SchedulerPark.v ===== *)
(** * Parking and waking keep the invariant

    When the last worker parks, every open queue and every local buffer is empty, so the
    decisions of [on_last_parked] are taken in a quiescent state. *)

From S2P Require Import Prelude Scheduler SchedulerSteps SchedulerBuckets SchedulerInv SchedulerPreserve.
#[local] Open Scope nat_scope.

(** ** Opening buckets never closes one *)

Section mono.
Context {W : Type}.
Implicit Types s : GCWorkScheduler (W := W).

Definition opens_only s s' : Prop := ∀ k, is_activated (bucket s k) = true → is_activated (bucket s' k) = true.
#[local] Instance opens_only_trans : PreOrder opens_only.
Proof. split; [by intros s k|]. intros a b c H1 H2 k Hk. auto. Qed.

Lemma opens_only_update s k f :
  (is_activated (bucket s k) = true → is_activated (f (bucket s k)) = true) → opens_only s (update_bucket k f s).
Proof. intros Hf j Hj. rewrite bucket_update_eq. case_decide as Hd; [destruct Hd as [-> _]; auto|done]. Qed.
Lemma opens_only_sentinel s k b : (maybe_schedule_sentinel (bucket s k)).2 = b → opens_only s (update_bucket k (λ _, b) s).
Proof. intros <-. apply opens_only_update. destruct (sentinel_shape (bucket s k)) as (_ & E & _). unfold is_activated. by rewrite E. Qed.

Lemma sentinels_opens_only stages s new : opens_only s (sentinels_loop stages s new).2.
Proof.
  revert s new. induction stages as [|i stages IH]; intros s new; cbn [sentinels_loop]; [done|].
  destruct (is_activated _); [|done]. destruct (maybe_schedule_sentinel _) as [sch b] eqn:E.
  etrans; [|apply IH]. apply opens_only_sentinel. by rewrite E.
Qed.

Lemma bucket_update_opens_only s i : opens_only s (bucket_update s i).2.
Proof. unfold bucket_update. destruct (can_open _); [|done]. destruct (_ && _); [|done]. by apply opens_only_update. Qed.

Lemma update_loop_opens_only stages s u np : opens_only s (update_buckets_loop stages s u np).2.
Proof.
  revert s u np. induction stages as [|i stages IH]; intros s u np; cbn [update_buckets_loop]; [done|].
  destruct (i =? 0); [done|]. destruct (_ || _); [done|].
  pose proof (bucket_update_opens_only s i) as H1. destruct (bucket_update s i) as [op s1]. cbn [snd] in H1.
  destruct op; [|by etrans]. destruct (np || _); [done|].
  destruct (maybe_schedule_sentinel _) as [sch b] eqn:E.
  assert (opens_only s (update_bucket i (λ _, b) s1)) as H2 by (etrans; [done|]; apply opens_only_sentinel; by rewrite E).
  destruct sch; [done|by etrans].
Qed.

Lemma find_more_opens_only s : opens_only s (find_more_work_for_workers s).2.
Proof.
  unfold find_more_work_for_workers, schedule_sentinels, update_buckets. destruct (has_designated_work s); [done|].
  pose proof (sentinels_opens_only (seq 0 LENGTH) s false) as H1. destruct (sentinels_loop _ _ _) as [r s1]. cbn [snd] in H1.
  destruct r; [done|]. pose proof (update_loop_opens_only (seq (bucket_update_progress s1 + 1)
    (LENGTH - (bucket_update_progress s1 + 1))) s1 false false) as H2.
  destruct (update_buckets_loop _ _ _ _) as [[[u np] prog] s2]. cbn [snd] in *. etrans; [exact H1|exact H2].
Qed.

(** What [deactivate_all] leaves. *)
Definition all_closed s : GCWorkScheduler :=
  with_progress 0 (with_buckets (imap (λ i b, if bool_decide (i ≠ 0) then with_disable false (with_active false b) else b) (work_buckets s)) s).
Lemma deactivate_buckets_eq i (bs : list (WorkBucket (W := W))) :
  forallb bucket_is_empty bs = true →
  deactivate_buckets i bs = Val (imap (λ j b, if bool_decide (i + j ≠ 0) then with_disable false (with_active false b) else b) bs).
Proof.
  revert i. induction bs as [|b bs IH]; intros i H; [done|]. cbn [forallb] in H. apply andb_true_iff in H as [Hb H]. cbn [deactivate_buckets]. unfold deactivate. rewrite Hb.
  cbn [rust_assert mbind res_bind]. rewrite (IH (S i) H). cbn [imap]. rewrite Nat.add_0_r.
  replace (imap ((λ j b0, if bool_decide (i + j ≠ 0) then with_disable false (with_active false b0) else b0) ∘ S) bs)
    with (imap (λ j b0, if bool_decide (S i + j ≠ 0) then with_disable false (with_active false b0) else b0) bs) by (apply imap_ext; intros j b0 _; cbn; by rewrite Nat.add_succ_r).
  destruct i; done.
Qed.
Lemma deactivate_all_eq s : all_buckets_empty s = true → deactivate_all s = Val (all_closed s).
Proof. intros H. unfold deactivate_all. by rewrite deactivate_buckets_eq. Qed.
Lemma all_deactivated s : (∀ k, 1 ≤ k → is_activated (bucket s k) = false) → debug_assert_all_buckets_deactivated s = Val ().
Proof.
  intros H. unfold debug_assert_all_buckets_deactivated. replace (forallb _ _) with true; [done|]. symmetry. apply forallb_forall. intros k _.
  destruct (Nat.eqb_spec k 0); [done|]. rewrite H by lia. done.
Qed.
Lemma all_closed_bucket s k :
  bucket (all_closed s) k = if decide (k = 0) then bucket s k else with_disable false (with_active false (bucket s k)).
Proof.
  unfold bucket, all_closed. cbn [with_progress with_buckets work_buckets]. rewrite !list_lookup_total_alt, list_lookup_imap.
  destruct (work_buckets s !! k); cbn; repeat case_decide; rewrite ?bool_decide_true, ?bool_decide_false by done; done.
Qed.

Lemma all_closed_ok s : sched_ok s → sched_ok (all_closed s).
Proof.
  intros [Hl Hc Hf Hp Ho]. split.
  - unfold all_closed. cbn. by rewrite length_imap.
  - intros k Hk. rewrite all_closed_bucket. case_decide; by apply Hc.
  - by rewrite all_closed_bucket.
  - cbn. lia.
  - intros j k Hjk. rewrite (all_closed_bucket s k), decide_False by lia. done.
Qed.

Lemma drained_all_empty s : quiet s → (∀ j, 1 ≤ j < LENGTH → passed (bucket s j)) → all_buckets_empty s = true.
Proof.
  intros [Hok Hd _] Hp. unfold all_buckets_empty. apply forallb_forall. intros b Hb%list_elem_of_In.
  apply list_elem_of_lookup in Hb as [k Hb]. assert (bucket s k = b) as <- by (by apply list_lookup_total_correct).
  apply lookup_lt_Some in Hb. rewrite (ok_length _ Hok) in Hb.
  destruct (decide (k = 0)) as [-> |]; [apply Hd, (ok_first _ Hok)|].
  destruct (Hp k ltac:(lia)) as [Ha|Hdis]; [by apply Hd|]. unfold bucket_is_empty. by rewrite Hdis.
Qed.
End mono.

Section park.
Context {W : Type} (ScheduleCollection : W) (stops_mutators : W → bool).
Context (Hsc : stops_mutators ScheduleCollection = true).
Context (n : nat) (Hn : 2 ≤ n).
Abbreviation st_t := (sched_state (W := W)).
Abbreviation pc_t := (worker_pc (W := W)).
Abbreviation inv := (inv stops_mutators n).
Abbreviation stopper := (stopper stops_mutators).

(** ** Parking while others work *)

Lemma inv_park_self st i :
  inv st → st_workers st !! i = Some (Scanning [] true) → S (parked_workers (st_parker st)) ≠ n →
  inv (set_worker i Waiting (set_parker {| worker_count := worker_count (st_parker st);
    parked_workers := S (parked_workers (st_parker st)) |} st)).
Proof.
  intros Hinv Hi Hne. pose proof (busy_facts _ _ _ _ _ Hinv Hi eq_refl) as [Hnf Hnx].
  assert (i < length (st_workers st)) as Hlt by (by apply lookup_lt_Some in Hi).
  pose proof (parked_insert (st_workers st) i _ Waiting Hi) as Hcnt. cbn [is_parked] in Hcnt.
  pose proof (i_parked _ _ _ Hinv) as Hpk.
  split; cbn [set_worker set_workers set_parker st_sched st_workers st_local st_parker st_goals worker_count parked_workers].
  - apply Hinv.
  - rewrite length_insert. apply Hinv.
  - apply Hinv.
  - apply Hinv.
  - lia.
  - intros c Hlive. eapply covered_insert; [done|done|by apply (i_chan _ _ _ Hinv)|].
    intros [?|[H|H]]; [done|by apply elem_of_nil in H..].
  - intros j l Hj Hl. destruct (i_localq _ _ _ Hinv j l Hj Hl) as (pc & Hpc & Hs).
    destruct (decide (j = i)) as [-> |]; [simplify_eq; by apply elem_of_nil in Hs|].
    exists pc. by rewrite list_lookup_insert_ne.
  - eapply flags_ok_same; [apply Hinv|done..].
  - intros Hg Hp. destruct (i_stop _ _ _ Hinv Hg Hp) as [(j & w & Hj & Hs)|?]; [left|by right].
    exists j, w. cbn. rewrite list_lookup_insert_ne; [done|]. intros ->. congruence.
  - done.
  - intros j Hj. apply list_lookup_insert_Some in Hj as [(_ & ? & _)|[_ Hj]]; [done|by apply Hnx in Hj].
  - intros Hall. exfalso. apply Hne. rewrite Hpk.
    assert (length (filter (λ pc : pc_t, is_parked pc = true) (<[i:=Waiting]> (st_workers st))) = n); [|lia].
    rewrite parked_all; [by rewrite length_insert, (i_workers _ _ _ Hinv)|].
    intros j pc Hj. by rewrite (Hall j pc Hj).
  - eapply (pausing_woken st _ (st_workers st)); [apply Hinv|done..|apply woken_refl|]. cbn. intros j w ph _ Hj. exists w.
    rewrite list_lookup_insert_ne; [done|]. intros ->. congruence.
Qed.

(** ** The last parked worker *)

Record last_facts (st : st_t) (i : nat) : Prop := {
  lf_others : ∀ j pc, st_workers st !! j = Some pc → j ≠ i → is_parked pc = true;
  lf_chan : ∀ c, ¬ chan_live (st_sched st) c;
  lf_local : ∀ j l, st_local st !! j = Some l → l = []
}.

Lemma last_facts_hold st i :
  inv st → st_workers st !! i = Some (Scanning [] true) → S (parked_workers (st_parker st)) = n → last_facts st i.
Proof.
  intros Hinv Hi Hlast.
  assert (∀ j pc, st_workers st !! j = Some pc → j ≠ i → is_parked pc = true) as Ho.
  { apply (parked_others (st_workers st) i (Scanning [] true)); [done..|].
    rewrite <-(i_parked _ _ _ Hinv), (i_workers _ _ _ Hinv). lia. }
  split; [done| |].
  - intros c Hlive. destruct (i_chan _ _ _ Hinv c Hlive) as [(j & pc & Hj & Hs)|[Hna _]]; [|by specialize (Hna _ _ Hi)].
    destruct (decide (j = i)) as [-> |Hne].
    + simplify_eq. destruct Hs as [?|[H|H]]; [done|by apply elem_of_nil in H..].
    + specialize (Ho j pc Hj Hne). by destruct pc.
  - intros j l Hj. destruct l as [|x l]; [done|exfalso].
    destruct (i_localq _ _ _ Hinv j _ Hj ltac:(done)) as (pc & Hpc & Hs). destruct (decide (j = i)) as [-> |Hne].
    + simplify_eq. by apply elem_of_nil in Hs.
    + specialize (Ho j pc Hpc Hne). by destruct pc.
Qed.

Lemma no_live_drained (s : GCWorkScheduler (W := W)) : (∀ c, ¬ chan_live s c) ↔ all_drained s.
Proof.
  split.
  - intros H k Ha. unfold bucket_is_empty. destruct (disabled (bucket s k)) eqn:Ed; [done|].
    pose proof (H (false, k)) as Hq. pose proof (H (true, k)) as Hp. unfold chan_live, chan_items in *. cbn [fst snd] in *.
    destruct (queue (bucket s k)); [|naive_solver]. destruct (prioritized_queue (bucket s k)) as [[|]|]; naive_solver.
  - intros H [p k] (Ha & Hd & Hne). unfold chan_items in *. cbn [fst snd] in *. specialize (H k Ha). unfold bucket_is_empty in H.
    rewrite Hd in H. apply andb_true_iff in H as [H1 H2].
    destruct p; [destruct (prioritized_queue (bucket s k)) as [[|]|]|destruct (queue (bucket s k))]; done.
Qed.

Lemma last_paused st i :
  inv st → st_workers st !! i = Some (Scanning [] true) → last_facts st i →
  current (st_goals st) = Some Gc → st_paused st = true.
Proof.
  intros Hinv Hi [Ho Hch Hl] Hg. destruct (st_paused st) eqn:Hp; [done|exfalso].
  destruct (ok_first _ (i_sched _ _ _ Hinv)) as (Ha & Hd & _).
  destruct (i_stop _ _ _ Hinv Hg Hp) as [(j & w & Hj & _)|(w & _ & [H|[H|(j & l & Hj & H)]])].
  - destruct (decide (j = i)) as [-> |Hne]; [congruence|]. specialize (Ho _ _ Hj Hne). done.
  - apply (Hch (false, 0)). split; [done|]. split; [done|]. intros E. rewrite E in H. by apply elem_of_nil in H.
  - apply (Hch (true, 0)). split; [done|]. split; [done|]. intros E. rewrite E in H. by apply elem_of_nil in H.
  - rewrite (Hl j l Hj) in H. by apply elem_of_nil in H.
Qed.

(** The state after the last worker has parked or gone on. *)
Lemma inv_last st st' i pc' ws :
  inv st → st_workers st !! i = Some (Scanning [] true) → S (parked_workers (st_parker st)) = n → last_facts st i →
  woken (st_workers st) ws → st_workers st' = <[i := pc']> ws → st_local st' = st_local st →
  worker_count (st_parker st') = n → parked_workers (st_parker st') = n - 1 + (if is_parked pc' then 1 else 0) →
  sched_ok (st_sched st') → flags_ok st' →
  (∀ c, chan_live (st_sched st') c → covered c (st_workers st')) →
  (current (st_goals st') = Some Gc → st_paused st' = false → stopper st') →
  (current (st_goals st') = Some StopForFork → pc' = Exited ∧ ws = notify_all (st_workers st)) →
  (pc' = Exited → current (st_goals st') = Some StopForFork) →
  (pc' = Waiting → current (st_goals st') = None ∧ ∀ g, requests (st_goals st') g = false) → st_pausing st' = st_pausing st → inv st'.
Proof.
  intros Hinv Hi Hlast [Ho Hch Hl] Hw Ews El Ec Ep Hok Hf Hc Hst Hfork Hex Hidle Epz.
  pose proof (busy_facts _ _ _ _ _ Hinv Hi eq_refl) as [Hnf Hnx].
  assert (i < length ws) as Hlt by (rewrite (woken_length _ _ Hw); by apply lookup_lt_Some in Hi).
  assert (ws !! i = Some (Scanning [] true)) as Hi' by (by eapply woken_keep).
  split; try done.
  - rewrite Ews, length_insert, (woken_length _ _ Hw). apply Hinv.
  - rewrite El. apply Hinv.
  - pose proof (parked_insert ws i _ pc' Hi') as Hcnt. cbn [is_parked] in Hcnt.
    rewrite (woken_parked _ _ Hw), <-(i_parked _ _ _ Hinv), <-Ews in Hcnt. destruct (is_parked pc'); lia.
  - intros j l Hj Hne. rewrite El in Hj. by rewrite (Hl j l Hj) in Hne.
  - intros Hg j pc Hj. destruct (Hfork Hg) as [-> ->]. rewrite Ews in Hj.
    apply list_lookup_insert_Some in Hj as [(_ & <- & _)|[Hne Hj]]; [by right|left].
    unfold notify_all in Hj. rewrite list_lookup_fmap_Some in Hj. destruct Hj as (p & -> & Hj).
    specialize (Ho j p Hj (not_eq_sym Hne)). by destruct p.
  - intros j Hj. rewrite Ews in Hj. apply list_lookup_insert_Some in Hj as [(_ & -> & _)|[Hne Hj]]; [left; by apply Hex|].
    destruct (woken_lookup _ _ _ _ Hw Hj) as (p & Hj' & [<- |[-> ?]]); [by apply Hnx in Hj'|done].
  - intros Hall. apply Hidle. apply (Hall i). rewrite Ews. by apply list_lookup_insert_eq.
  - intros j ph Hz. exfalso. rewrite Epz in Hz. destruct (i_pausing _ _ _ Hinv j ph Hz) as (_ & _ & w & Hj).
    destruct (decide (j = i)) as [-> |Hne]; [congruence|]. by specialize (Ho j _ Hj Hne).
Qed.
Lemma dec_full : dec_parked_workers {| worker_count := n; parked_workers := n |} = Val {| worker_count := n; parked_workers := n - 1 |}.
Proof. unfold dec_parked_workers. cbn [worker_count parked_workers]. rewrite Nat.leb_refl, (proj2 (Nat.ltb_lt 0 n)) by lia. done. Qed.
(** ** Responding to requests *)

Lemma poll_next_goal_cases g :
  poll_next_goal g = (None, g) ∧ (∀ goal, requests g goal = false) ∨
  poll_next_goal g = (Some Gc, {| current := Some Gc; requests := <[Gc := false]> (requests g) |}) ∧ requests g Gc = true ∨
  poll_next_goal g = (Some StopForFork, {| current := Some StopForFork; requests := <[StopForFork := false]> (requests g) |}) ∧
    requests g Gc = false ∧ requests g StopForFork = true.
Proof.
  unfold poll_next_goal. cbn. destruct (requests g Gc) eqn:E1; [right; by left|].
  destruct (requests g StopForFork) eqn:E2; [by right; right|]. left. split; [done|]. by intros [].
Qed.

Lemma other_notified st i :
  inv st → i < n → (∀ j pc, st_workers st !! j = Some pc → j ≠ i → is_parked pc = true) →
  ∃ j, j ≠ i ∧ notify_all (st_workers st) !! j = Some Notified.
Proof.
  intros Hinv Hi Ho. set (j := if decide (i = 0) then 1 else 0).
  assert (j ≠ i ∧ j < n) as [Hne Hj] by (unfold j; case_decide; lia).
  rewrite <-(i_workers _ _ _ Hinv) in Hj. destruct (lookup_lt_is_Some_2 _ _ Hj) as [pc Hpc].
  exists j. split; [done|]. unfold notify_all. rewrite list_lookup_fmap, Hpc. cbn. specialize (Ho j pc Hpc Hne). by destruct pc.
Qed.

Lemma notify_all_idem (ws : list pc_t) : notify_all (notify_all ws) = notify_all ws.
Proof. unfold notify_all. rewrite <-list_fmap_compose. apply list_fmap_ext. by intros ? [] _. Qed.
Lemma notify_all_parked (ws : list pc_t) i :
  (∀ j pc, ws !! j = Some pc → j ≠ i → is_parked pc = true) →
  ∀ j pc, notify_all ws !! j = Some pc → i ≠ j → is_active pc = false.
Proof.
  intros Ho j pc Hj Hne. unfold notify_all in Hj. rewrite list_lookup_fmap_Some in Hj. destruct Hj as (p & -> & Hj).
  specialize (Ho j p Hj (not_eq_sym Hne)). by destruct p.
Qed.

(** [respond_to_requests], when no goal is current: of the packets only those of the
    Unconstrained bucket can be executed, and then the others have been notified. *)
Lemma inv_respond st i s goals notified parker :
  inv st → st_workers st !! i = Some (Scanning [] true) → S (parked_workers (st_parker st)) = n → last_facts st i →
  parker = {| worker_count := n; parked_workers := n |} → sched_ok s →
  (∀ k, 1 ≤ k → is_activated (bucket s k) = false) → (notified = false → ∀ c, ¬ chan_live s c) →
  current goals = None → st_request_flag st = st_requesting st || requests goals Gc →
  (st_requesting st = true → requests goals Gc = false) →
  ∃ lp st', respond_to_requests ScheduleCollection s goals false false notified = Val lp ∧
    apply_last_parked i lp (set_parker parker st) = Val st' ∧ inv st'.
Proof.
  intros Hinv Hi Hlast Hlf -> Hok Hstw Hnot Hcur Hreq Hreq'. pose proof Hlf as [Ho Hch Hl].
  assert (i < n) as Hin by (rewrite <-(i_workers _ _ _ Hinv); by apply lookup_lt_Some in Hi).
  assert (∀ b : bool, woken (st_workers st) (if b then notify_all (st_workers st) else st_workers st)) as Hwk
    by (intros []; [apply woken_all|apply woken_refl]).
  unfold respond_to_requests. rewrite bool_decide_true by done. cbn [rust_assert].
  destruct (poll_next_goal_cases goals) as [[-> Hno]|[[-> Hg]|(-> & Hg & Hs)]]; cbn [rust_assert negb];
    (eexists _, _; split; [reflexivity|]); unfold apply_last_parked, unpark;
    cbn [lp_result lp_sched lp_goals lp_gc_started lp_paused lp_notify_all st_parker set_parker set_workers]; rewrite ?dec_full; (split; [reflexivity|]).
  - eapply (inv_last st _ i Waiting (if notified then notify_all (st_workers st) else st_workers st)); try done; cbn.
    + lia.
    + split; cbn; [by rewrite Hcur|by intros _|done|done].
    + intros c Hlive. destruct notified; [right|by destruct (Hnot eq_refl c)].
      destruct (other_notified st i Hinv Hin Ho) as (j & Hne & Hj). split.
      * intros k pc Hk. apply list_lookup_insert_Some in Hk as [(_ & <- & _)|[Hne' Hk]]; [done|].
        by apply (notify_all_parked _ _ Ho k).
      * exists j. left. by rewrite list_lookup_insert_ne.
    + by rewrite Hcur.
    + by rewrite Hcur.
  - eapply (inv_last st _ i (Scanning (sched_sources n i) true) (if notified then notify_all (st_workers st) else st_workers st));
      try done; cbn.
    + by apply sched_ok_update.
    + rewrite Hg, orb_true_r in Hreq. split; cbn; [|done|done|].
      * intros _. rewrite fn_lookup_insert. destruct (st_requesting st); [naive_solver|done].
      * intros _ k Hk. rewrite update_active by (by repeat split). by apply Hstw.
    + intros c Hlive. eapply (covered_by _ _ i).
      { apply list_lookup_insert_eq. rewrite (woken_length _ _ (Hwk _)). by apply lookup_lt_Some in Hi. }
      apply sees_all. eapply live_stage; [|done]. by apply sched_ok_update.
    + intros _ _. right. exists ScheduleCollection. split; [done|]. left. unfold chan_items.
      cbn [fst snd st_sched unpark set_worker set_workers set_parker].
      rewrite bucket_update_eq, decide_True; [cbn; set_solver|]. rewrite (ok_length _ Hok). unfold LENGTH. cbn. lia.
  - assert (notify_all (if notified then notify_all (st_workers st) else st_workers st) = notify_all (st_workers st)) as Enot
      by (destruct notified; [apply notify_all_idem|done]).
    cbn [st_workers set_workers set_parker set_worker st_parker st_goals current].
    rewrite Enot, bool_decide_true by done.
    eapply (inv_last st _ i Exited (notify_all (st_workers st))); try done.
    + apply woken_all.
    + intros c _. right. split.
      * intros k pc Hk. apply list_lookup_insert_Some in Hk as [(_ & <- & _)|[Hne' Hk]]; [done|].
        by apply (notify_all_parked _ _ Ho k).
      * exists i. right. apply list_lookup_insert_eq. cbn [st_workers set_workers set_parker]. rewrite (woken_length (st_workers st)) by apply woken_all.
        by apply lookup_lt_Some in Hi.
Qed.
(** ** The end of a collection *)

Lemma schedule_concurrent_spec (q pq : list W) (s : GCWorkScheduler (W := W)) :
  sched_ok s → bucket_is_empty (bucket s 0) = true → ∃ b s', schedule_concurrent_packets q pq s = Val (b, s') ∧ sched_ok s' ∧
    (∀ k, is_activated (bucket s' k) = is_activated (bucket s k)) ∧ (b = false → s' = s).
Proof.
  intros Hok He. destruct (ok_first _ Hok) as (_ & Hdis & [p Hp]). unfold bucket_is_empty in He. rewrite Hdis, Hp in He. cbn in He. apply andb_true_iff in He as [Hq Hpq].
  unfold schedule_concurrent_packets. rewrite Hq.
  set (s1 := if list_is_empty q then s else update_bucket 0 (with_queue q) s).
  assert ((if list_is_empty q then Val s else x ← rust_assert true; Val (update_bucket 0 (with_queue q) s)) = Val s1) as -> by (unfold s1; by destruct (list_is_empty q)).
  assert (sched_ok s1 ∧ (∀ k, is_activated (bucket s1 k) = is_activated (bucket s k)) ∧ prioritized_queue (bucket s1 0) = Some p) as (Hok1 & Ha1 & Hp1).
  { unfold s1. destruct (list_is_empty q); [done|]. split; [by apply sched_ok_update|]. split; [intros k; by apply update_active|]. rewrite bucket_update_eq. case_decide; [|done]. done. }
  cbn [mbind res_bind]. rewrite Hp1. cbn [unwrap mbind res_bind]. rewrite Hpq. destruct (list_is_empty pq) eqn:E.
  - do 2 eexists. split; [reflexivity|]. split_and!; try done. unfold s1. by destruct (list_is_empty q).
  - do 2 eexists. split; [reflexivity|]. split; [by apply sched_ok_update|]. split.
    + intros k. rewrite <-Ha1. by apply update_active.
    + by rewrite orb_true_r.
Qed.

(** Without packets that the mutators add. *)
Lemma on_gc_finished_spec (s : GCWorkScheduler (W := W)) :
  quiet s → (∀ j, 1 ≤ j < LENGTH → passed (bucket s j)) → has_designated_work s = false →
  ∃ b s', on_gc_finished [] s true = Val (b, s') ∧ sched_ok s' ∧
    (∀ k, 1 ≤ k → is_activated (bucket s' k) = false) ∧ (b = false → ∀ c, ¬ chan_live s' c).
Proof.
  intros Hqt Hpassed Hdw. pose proof Hqt as [Hok Hd _]. pose proof (drained_all_empty s Hqt Hpassed) as Hae. unfold on_gc_finished.
  rewrite Hdw, Hae, (deactivate_all_eq s Hae). cbn [rust_assert negb mbind res_bind].
  set (s1 := update_bucket 0 _ _). assert (∀ k, bucket s1 k = if decide (k = 0) then bucket s k else with_disable false (with_active false (bucket s k))) as Hb1.
  { intros k. unfold s1. rewrite bucket_update_eq. change (bucket (with_postponed _ _ ?x) ?k) with (bucket x k). rewrite !all_closed_bucket, (decide_True (P := 0 = 0)) by done.
    destruct (decide (k = 0)) as [-> |Hk]; [|by rewrite decide_False by tauto]. case_decide; [|done]. rewrite app_nil_r. by destruct (bucket s 0). }
  assert (∀ k, 1 ≤ k → is_activated (bucket s1 k) = false) as Hstw by (intros k Hk; by rewrite Hb1, decide_False by lia).
  rewrite (all_deactivated (all_closed s)) by (intros k Hk; by rewrite all_closed_bucket, decide_False by lia). cbn [mbind res_bind].
  assert (sched_ok s1) as Hok1 by (apply sched_ok_update; [by apply with_postponed_ok, all_closed_ok|by repeat split]).
  destruct (schedule_concurrent_spec (postponed_concurrent_work (all_closed s)) (postponed_concurrent_work_prioritized (all_closed s)) s1 Hok1)
    as (b & s' & E & Hok' & Ha & Hb); [rewrite Hb1; apply Hd, (ok_first _ Hok)|].
  rewrite E. cbn [mbind res_bind]. rewrite (all_deactivated s') by (intros k Hk; rewrite Ha; by apply Hstw). cbn [mbind res_bind].
  exists b, s'. split; [done|]. split; [done|]. split; [intros k Hk; rewrite Ha; by apply Hstw|].
  intros Hbf. rewrite (Hb Hbf). apply no_live_drained. intros k. rewrite Hb1. case_decide; [apply Hd|done].
Qed.

Lemma inv_on_last_parked st i parker :
  inv st → st_workers st !! i = Some (Scanning [] true) → S (parked_workers (st_parker st)) = n →
  parker = {| worker_count := n; parked_workers := n |} →
  ∃ lp st', on_last_parked ScheduleCollection [] (st_sched st) (st_goals st) (st_gc_started st) (st_paused st) = Val lp ∧
    apply_last_parked i lp (set_parker parker st) = Val st' ∧ inv st'.
Proof.
  intros Hinv Hi Hlast Hpk. pose proof (last_facts_hold st i Hinv Hi Hlast) as Hlf. pose proof Hlf as [Ho Hch Hl].
  pose proof (i_sched _ _ _ Hinv) as Hok. pose proof (i_flags _ _ _ Hinv) as [Fg Fn Fp Fs].
  pose proof (busy_facts _ _ _ _ _ Hinv Hi eq_refl) as [Hnf _].
  unfold on_last_parked. destruct (current (st_goals st)) as [[]|] eqn:Hcur; [| done |].
  - pose proof (last_paused st i Hinv Hi Hlf Hcur) as Hpa. destruct (Fg eq_refl) as (Hgs & Hrq & Hrqing & Hflag).
    unfold debug_is_requested. rewrite Hrq. cbn [negb rust_assert].
    pose proof (find_more_work_spec (st_sched st) Hok (proj1 (no_live_drained _) Hch) (or_introl (Fp Hpa))) as Hs.
    pose proof (find_more_opens_only (st_sched st)) as Hoo.
    destruct (find_more_work_for_workers (st_sched st)) as [r s']. destruct Hs as (_ & Hok' & _ & Hfin). destruct r.
    + eexists _, _. split; [reflexivity|]. unfold apply_last_parked, unpark. subst parker.
      cbn [lp_result lp_sched lp_goals lp_gc_started lp_paused lp_notify_all st_parker set_parker set_workers]. rewrite dec_full. split; [reflexivity|].
      cbn [lp_result lp_sched lp_goals lp_gc_started lp_paused lp_notify_all st_workers set_workers set_parker set_worker st_parker st_goals worker_count].
      rewrite bool_decide_false by congruence.
      eapply (inv_last st _ i _ (notify_all (st_workers st))); try done; cbn [st_workers set_workers set_parker set_worker].
      * apply woken_all.
      * split; cbn; [by intros _| |intros _; apply (Hoo 1); auto|congruence]. by rewrite Hcur.
      * intros c Hlive. eapply (covered_by _ _ i).
        { apply list_lookup_insert_eq. rewrite (woken_length (st_workers st)) by apply woken_all. by apply lookup_lt_Some in Hi. }
        apply sees_all. by eapply live_stage.
      * cbn. congruence.
      * cbn. congruence.
    + destruct (Hfin eq_refl) as (Hqt & _ & Hdw & Hpassed & _).
      destruct (on_gc_finished_spec s' Hqt Hpassed Hdw) as (b & s2 & E & Hok2 & Hstw & Hb). rewrite Hgs, E. cbn [mbind res_bind].
      apply inv_respond; try done; cbn; rewrite Hrqing, ?Hrq, ?Hflag, ?Hpa; done.
  - destruct (Fn ltac:(congruence)) as (Hgs & Hpa & Hflag & Hrq). rewrite Hgs, Hpa.
    apply inv_respond; try done. intros k Hk. by apply Fs.
Qed.

Lemma inv_park st i :
  inv st → st_workers st !! i = Some (Scanning [] true) →
  ∃ st', park_and_wait ScheduleCollection i [] st = Val st' ∧ inv st'.
Proof.
  intros Hinv Hi. unfold park_and_wait, inc_parked_workers. pose proof (i_count _ _ _ Hinv) as Hc.
  assert (parked_workers (st_parker st) < worker_count (st_parker st)) as Hlt.
  { rewrite Hc, (i_parked _ _ _ Hinv), <-(i_workers _ _ _ Hinv). pose proof (parked_insert (st_workers st) i _ Waiting Hi) as H. cbn [is_parked] in H.
    pose proof (parked_le (<[i := Waiting]> (st_workers st))) as H2. rewrite length_insert in H2. lia. }
  rewrite (proj2 (Nat.ltb_lt _ _) Hlt). cbn [rust_assert mbind res_bind].
  destruct (Nat.eqb_spec (S (parked_workers (st_parker st))) (worker_count (st_parker st))) as [E|E].
  - rewrite Hc in E. rewrite Hc, E.
    destruct (inv_on_last_parked st i {| worker_count := n; parked_workers := n |} Hinv Hi E eq_refl) as (lp & st' & H1 & H2 & H3).
    cbn [set_parker st_sched st_goals st_gc_started st_paused]. rewrite H1. cbn [mbind res_bind]. eauto.
  - rewrite Hc in E. eexists. split; [reflexivity|]. by apply inv_park_self.
Qed.
End park.
