(* ===== verification/SchedulerReach.v ===== *)
(** * The states the scheduler can reach

    The steps of mutators and of forking keep the invariant too, so it holds in every
    state that can be reached. *)

From S2P Require Import Prelude Scheduler SchedulerSteps SchedulerBuckets SchedulerInv SchedulerPreserve SchedulerPark.
#[local] Open Scope nat_scope.

Section theorems.
Context {W : Type} (ScheduleCollection : W) (stops_mutators : W → bool).
Context (Hsc : stops_mutators ScheduleCollection = true).
Context (n : nat) (Hn : 2 ≤ n).
Abbreviation st_t := (sched_state (W := W)).
Abbreviation pc_t := (worker_pc (W := W)).
Abbreviation inv := (inv stops_mutators n).
Abbreviation stopper := (stopper stops_mutators).

(** ** Waking *)

(** Some waiting workers are notified, and nothing else happens to workers and queues
    but for the requests and packets in closed buckets. *)
Lemma inv_woken st st' :
  inv st → woken (st_workers st) (st_workers st') → st_local st' = st_local st → st_parker st' = st_parker st →
  sched_ok (st_sched st') → flags_ok st' → (∀ c, chan_live (st_sched st') c → chan_live (st_sched st) c) →
  current (st_goals st') = current (st_goals st) → st_paused st' = st_paused st →
  (∀ p, chan_items (st_sched st') (p, 0) = chan_items (st_sched st) (p, 0)) →
  ((∀ j pc, st_workers st' !! j = Some pc → pc = Waiting) → ∀ g, requests (st_goals st') g = false) → st_pausing st' = st_pausing st → inv st'.
Proof.
  intros Hinv Hw El Ep Hok Hf Hc Ecur Epa Hit Hidle Epz. destruct Hinv as [_ Iw Il Ic Ipk Ich Ilq _ Ist Ifk Iex Iid Ipz].
  split; try done.
  - by rewrite (woken_length _ _ Hw).
  - by rewrite El.
  - by rewrite Ep.
  - by rewrite Ep, (woken_parked _ _ Hw).
  - intros c Hlive. eapply woken_covered; [done|]. by apply Ich, Hc.
  - intros j l Hj Hne. rewrite El in Hj. destruct (Ilq j l Hj Hne) as (pc & Hpc & Hs). exists pc. split; [|done].
    eapply woken_keep; [done..|by intros ->].
  - rewrite Ecur, Epa. intros Hg Hp. unfold SchedulerInv.stopper. rewrite !Hit, El.
    destruct (Ist Hg Hp) as [(j & w & Hj & Hs)|?]; [left|by right]. exists j, w. split; [|done]. by eapply woken_keep.
  - rewrite Ecur. intros Hg j pc Hj. destruct (woken_lookup _ _ _ _ Hw Hj) as (p & Hp & [-> |[-> ->]]); [by apply (Ifk Hg j)|by left].
  - rewrite Ecur. intros j Hj. destruct (woken_lookup _ _ _ _ Hw Hj) as (p & Hp & [<- |[-> ?]]); [|done].
    destruct (Iex j Hp) as [?|[? Hall]]; [by left|right]. split; [done|]. intros i pc Hi.
    destruct (woken_lookup _ _ _ _ Hw Hi) as (p' & Hp' & [-> |[-> ->]]); [by apply (Hall i)|]. by specialize (Hall i _ Hp').
  - intros Hall. split; [|by apply Hidle]. rewrite Ecur. apply Iid. intros j pc Hj.
    destruct (woken_lookup_l _ _ _ _ Hw Hj) as (p & Hp & [-> |[-> _]]); [by apply (Hall j)|done].
  - eapply (pausing_woken st _ (st_workers st')); [done..|]. eauto.
Qed.

Lemma inv_spurious st i : inv st → st_workers st !! i = Some Waiting → inv (set_worker i Notified st).
Proof.
  intros Hinv Hi. eapply (inv_woken st); try done.
  - apply woken_one. left. by exists i.
  - apply Hinv.
  - eapply flags_ok_same; [apply Hinv|done..].
  - intros Hall. specialize (Hall i Notified). cbn in Hall. rewrite list_lookup_insert_eq in Hall; [naive_solver|].
    by apply lookup_lt_Some in Hi.
Qed.

Lemma inv_resume st i : inv st → st_workers st !! i = Some Notified → ∃ st', unpark i st = Val st' ∧ inv st'.
Proof.
  intros Hinv Hi. assert (i < length (st_workers st)) as Hlt by (by apply lookup_lt_Some in Hi).
  pose proof (parked_insert (st_workers st) i _ Exited Hi) as Hpos. cbn [is_parked] in Hpos. rewrite <-(i_parked _ _ _ Hinv) in Hpos.
  assert (parked_workers (st_parker st) ≤ worker_count (st_parker st)) as Hle by (rewrite (i_parked _ _ _ Hinv), (i_count _ _ _ Hinv), <-(i_workers _ _ _ Hinv); apply parked_le).
  unfold unpark, dec_parked_workers. rewrite (proj2 (Nat.leb_le _ _) Hle), (proj2 (Nat.ltb_lt 0 _)) by lia. cbn [rust_assert mbind res_bind].
  eexists. split; [reflexivity|]. set (st' := set_worker _ _ _).
  set (pc' := if bool_decide (current (st_goals st) = Some StopForFork) then Exited
              else Scanning (sched_sources n i) true : pc_t).
  assert (st_workers st' = <[i := pc']> (st_workers st)) as Ews by (unfold st', pc'; cbn; by rewrite (i_count _ _ _ Hinv)).
  assert (pc' ≠ Waiting ∧ is_parked pc' = false) as [Hpw Hpp] by (unfold pc'; by case_bool_decide).
  pose proof (parked_insert (st_workers st) i _ pc' Hi) as Hcnt. rewrite Hpp in Hcnt. cbn [is_parked] in Hcnt.
  assert (∀ c, c.2 < LENGTH → covered c (st_workers st) → covered c (<[i := pc']> (st_workers st))) as Hcov.
  { intros c Hk [(j & pc & Hj & Hs)|[Hna Hex]].
    - left. exists j, pc. split; [|done]. rewrite list_lookup_insert_ne; [done|]. intros ->. by simplify_eq.
    - unfold pc'. case_bool_decide as Hg.
      + right. split; [|exists i; right; by apply list_lookup_insert_eq].
        intros j pc Hj. apply list_lookup_insert_Some in Hj as [(_ & <- & _)|[_ Hj]]; [done|by apply (Hna j)].
      + left. exists i, (Scanning (sched_sources n i) true). split; [by apply list_lookup_insert_eq|by apply sees_all]. }
  split; rewrite ?Ews; try apply Hinv.
  - rewrite length_insert. apply Hinv.
  - cbn. rewrite (i_parked _ _ _ Hinv). lia.
  - intros c Hlive. apply Hcov; [eapply live_stage; [apply Hinv|done]|by apply (i_chan _ _ _ Hinv)].
  - intros j l Hj Hne. destruct (i_localq _ _ _ Hinv j l Hj Hne) as (pc & Hpc & Hs). exists pc.
    rewrite list_lookup_insert_ne; [done|]. intros ->. by simplify_eq.
  - eapply flags_ok_same; [apply Hinv|done..].
  - intros Hg Hp. destruct (i_stop _ _ _ Hinv Hg Hp) as [(j & w & Hj & Hs)|?]; [left|by right].
    exists j, w. rewrite Ews, list_lookup_insert_ne; [done|]. intros ->. congruence.
  - intros Hg j pc Hj. apply list_lookup_insert_Some in Hj as [(_ & <- & _)|[_ Hj]]; [|by apply (i_fork _ _ _ Hinv Hg j)].
    right. unfold pc'. by rewrite bool_decide_true.
  - intros j Hj. apply list_lookup_insert_Some in Hj as [(_ & Hpc & _)|[_ Hj]].
    + left. unfold pc' in Hpc. by case_bool_decide.
    + destruct (i_exited _ _ _ Hinv j Hj) as [?|[_ Hall]]; [by left|]. by specialize (Hall i _ Hi).
  - intros Hall. exfalso. apply Hpw, (Hall i). by apply list_lookup_insert_eq.
  - eapply (pausing_woken st _ (st_workers st)); [apply Hinv|done..|apply woken_refl|]. rewrite Ews. intros j w ph _ Hj. exists w.
    rewrite list_lookup_insert_ne; [done|]. intros ->. congruence.
Qed.

(** ** Mutators *)

Lemma inv_request_flag st :
  inv st → st_paused st = false → st_request_flag st = false → inv (set_mutators true true false st).
Proof.
  intros Hinv Hp Hr. pose proof (i_flags _ _ _ Hinv) as [Fg Fn Fp Fs].
  assert (current (st_goals st) ≠ Some Gc) as Hng by (intros Hg; destruct (Fg Hg) as (_ & _ & _ & E); rewrite Hr, Hp in E; done).
  destruct (Fn Hng) as (G1 & G2 & G3 & G4). rewrite Hr in G3. symmetry in G3. apply orb_false_iff in G3 as [G3 G5].
  eapply (inv_woken st); try done; [apply woken_refl|apply Hinv| |by intros Hall; apply (i_idle _ _ _ Hinv)].
  split; cbn; auto; done.
Qed.

Lemma make_request_inv st st' goal f :
  inv st → make_request goal st st' →
  (requests (st_goals st) goal = false → flags_ok (f (set_goals {| current := current (st_goals st);
    requests := <[goal := true]> (requests (st_goals st)) |} st))) → (requests (st_goals st) goal = true → flags_ok (f st)) →
  (f = id ∨ ∃ fl rq, f = set_mutators fl rq (st_paused st)) → inv (f st').
Proof.
  intros Hinv Hm Hf1 Hf2 Hf. unfold make_request, set_request in Hm. destruct (requests (st_goals st) goal) eqn:E; cbn [negb] in Hm.
  - destruct Hm as (ws & -> & ->). specialize (Hf2 eq_refl).
    eapply (inv_woken st); destruct Hf as [-> |(fl & rq & ->)]; try done; try apply woken_refl; try apply Hinv;
      try (by apply (i_idle _ _ _ Hinv)).
    all: eapply flags_ok_same; [exact Hf2|done..].
  - destruct Hm as (ws & Hw & ->). specialize (Hf1 eq_refl).
    assert (∀ P : Prop, (∀ j pc, ws !! j = Some pc → pc = Waiting) → P) as Hno.
    { intros P Hall. exfalso. assert (0 < length ws) as Hl by (rewrite (woken_length (st_workers st)) by (by apply woken_one); rewrite (i_workers _ _ _ Hinv); lia).
      destruct (lookup_lt_is_Some_2 _ _ Hl) as [pc Hpc]. destruct Hw as [(j & Hj & ->)|[-> Hnw]].
      - specialize (Hall j Notified). rewrite list_lookup_insert_eq in Hall; [naive_solver|]. by apply lookup_lt_Some in Hj.
      - apply Hnw. rewrite (Hall 0 pc Hpc) in Hpc. by eapply list_elem_of_lookup_2. }
    apply woken_one in Hw.
    eapply (inv_woken st); destruct Hf as [-> |(fl & rq & ->)]; try done; try apply Hinv; try (by intros; eapply Hno).
    all: eapply flags_ok_same; [exact Hf1|done..].
Qed.

Lemma inv_request st st' :
  inv st → st_requesting st = true → make_request Gc st st' →
  inv (set_mutators (st_request_flag st') false (st_paused st') st').
Proof.
  intros Hinv Hr Hm. pose proof (i_flags _ _ _ Hinv) as [Fg Fn Fp Fs].
  assert (current (st_goals st) ≠ Some Gc) as Hng by (intros Hg; destruct (Fg Hg) as (_ & _ & E & _); congruence).
  destruct (Fn Hng) as (G1 & G2 & G3 & G4). specialize (G4 Hr).
  assert (st_request_flag st' = st_request_flag st ∧ st_paused st' = st_paused st) as [-> ->].
  { unfold make_request in Hm. destruct (set_request _ _). by destruct Hm as (ws & _ & ->). }
  apply (make_request_inv st st' Gc (set_mutators (st_request_flag st) false (st_paused st))); [done..| | |eauto].
  - intros _. split; cbn; [done| |done|done]. intros _. rewrite fn_lookup_insert, G3, Hr. done.
  - congruence.
Qed.

Lemma inv_barrier st k w ws :
  inv st → st_paused st = false → 0 < k < LENGTH →
  (if is_activated (bucket (st_sched st) k) then notify_one (st_workers st) ws else ws = st_workers st) →
  inv (set_workers ws (set_sched (update_bucket k (add_no_notify w) (st_sched st)) st)).
Proof.
  intros Hinv Hp Hk Hw. pose proof (fl_stw _ (i_flags _ _ _ Hinv) Hp k ltac:(lia)) as Hin. rewrite Hin in Hw. subst ws.
  eapply (inv_woken st); try done.
  - apply woken_refl.
  - apply sched_ok_update; [apply Hinv|by repeat split].
  - eapply flags_ok_same; [apply Hinv|try done..]. intros j. by apply update_active.
  - intros [p j] Hl. unfold chan_live, chan_items in *. cbn [fst snd st_sched set_workers set_sched] in *.
    rewrite bucket_update_eq in Hl. case_decide as Hd; [|done]. destruct Hd as [-> _]. destruct Hl as [Ha _]. cbn in Ha.
    unfold is_activated in Hin. congruence.
  - intros p. unfold chan_items. cbn [fst snd st_sched set_workers set_sched]. by rewrite bucket_update_eq, decide_False by lia.
  - intros Hall. by apply (i_idle _ _ _ Hinv).
Qed.
Lemma inv_barrier_postpone st w :
  inv st → inv (set_sched (with_postponed (postponed_concurrent_work (st_sched st)) (postponed_concurrent_work_prioritized (st_sched st) ++ [w]) (st_sched st)) st).
Proof.
  intros Hinv. eapply (inv_woken st); try done; [apply woken_refl|apply with_postponed_ok, Hinv|eapply flags_ok_same; [apply Hinv|done..]|].
  intros Hall. by apply (i_idle _ _ _ Hinv).
Qed.
(** ** Forking *)

Lemma inv_fork st st' : inv st → make_request StopForFork st st' → inv st'.
Proof.
  intros Hinv Hm. pose proof (i_flags _ _ _ Hinv) as Hf.
  apply (make_request_inv st st' StopForFork id); [done..| |done|by left].
  intros _. destruct Hf as [Fg Fn Fp Fs]. split; cbn; [| |done|done]; rewrite fn_lookup_insert_ne by done; done.
Qed.

Lemma all_exited_current st :
  inv st → (∀ pc, pc ∈ st_workers st → pc = Exited) →
  st_workers st !! 0 = Some Exited ∧ current (st_goals st) ≠ Some Gc.
Proof.
  intros Hinv Hall. assert (0 < length (st_workers st)) as Hl by (rewrite (i_workers _ _ _ Hinv); lia).
  destruct (lookup_lt_is_Some_2 _ _ Hl) as [pc Hpc]. rewrite (Hall pc) in Hpc by (by eapply list_elem_of_lookup_2).
  split; [done|]. destruct (i_exited _ _ _ Hinv 0 Hpc) as [-> |[-> _]]; done.
Qed.

Lemma inv_all_exited st :
  inv st → (∀ pc, pc ∈ st_workers st → pc = Exited) → inv (set_goals (on_current_goal_completed (st_goals st)) st).
Proof.
  intros Hinv Hall. destruct (all_exited_current st Hinv Hall) as [H0 Hng].
  pose proof (i_flags _ _ _ Hinv) as [Fg Fn Fp Fs]. split; try apply Hinv; try done.
  - split; cbn; [done| |done|done]. intros _. by apply Fn.
  - intros j Hj. right. split; [done|]. intros i pc Hi. by apply Hall, (list_elem_of_lookup_2 _ i).
  - intros Hw. by specialize (Hw 0 _ H0).
  - intros i ph Hz. exfalso. destruct (i_pausing _ _ _ Hinv i ph Hz) as (Hg & _). done.
Qed.

Lemma respawn_lookup {A} (ws : list A) j pc :
  imap (λ i _, Scanning (W := W) (poll_sources n i) false) ws !! j = Some pc → pc = Scanning (poll_sources n j) false.
Proof. rewrite list_lookup_imap_Some. naive_solver. Qed.
Lemma inv_spawned {A} st (ws : list A) :
  sched_ok (st_sched st) → length (st_local st) = n → worker_count (st_parker st) = n → parked_workers (st_parker st) = 0 →
  length ws = n → flags_ok st → current (st_goals st) = None → pausing_ok st →
  inv (set_workers (imap (λ i _, Scanning (poll_sources n i) false) ws) st).
Proof.
  intros Hok Hl Hc Hp Hws Hf Hcur Hpz.
  assert (∀ j, j < n → imap (λ i _, Scanning (W := W) (poll_sources n i) false) ws !! j = Some (Scanning (poll_sources n j) false)) as Hlk.
  { intros j Hj. rewrite list_lookup_imap. rewrite <-Hws in Hj. destruct (lookup_lt_is_Some_2 _ _ Hj) as [pc ->]. done. }
  split; cbn [set_workers st_sched st_workers st_local st_parker st_goals]; try done.
  - by rewrite length_imap.
  - rewrite Hp. symmetry. apply parked_none. by intros j pc ->%respawn_lookup.
  - intros c _. apply (covered_by _ _ 0 (Scanning (poll_sources n 0) false)); [apply Hlk; lia|by left].
  - intros j l Hj _. exists (Scanning (poll_sources n j) false). split; [|cbn; set_solver].
    apply Hlk. rewrite <-Hl. by apply lookup_lt_Some in Hj.
  - eapply flags_ok_same; [exact Hf|done..].
  - congruence.
  - congruence.
  - intros j Hj. by apply respawn_lookup in Hj.
  - intros Hall. by specialize (Hall 0 _ (Hlk 0 ltac:(lia))).
  - intros i ph Hz. exfalso. destruct (Hpz i ph Hz) as (Hg & _). congruence.
Qed.
Lemma inv_respawn st :
  inv st → (∀ pc, pc ∈ st_workers st → pc = Exited) → current (st_goals st) = None →
  inv (set_workers (imap (λ i _, Scanning (poll_sources (worker_count (st_parker st)) i) false) (st_workers st)) st).
Proof.
  intros Hinv Hall Hcur. rewrite (i_count _ _ _ Hinv). apply inv_spawned; try done; [apply Hinv..| |apply Hinv|apply Hinv|apply Hinv].
  rewrite (i_parked _ _ _ Hinv). apply parked_none. intros j pc Hj. by rewrite (Hall pc (list_elem_of_lookup_2 _ _ _ Hj)).
Qed.

(** ** Reachable states *)

Lemma inv_initial : inv (initial_state n).
Proof.
  change (initial_state n) with (set_workers (st_workers (W := W) (initial_state n)) (initial_state n)).
  apply (inv_spawned (initial_state n) (replicate n ())); cbn; try done; try apply new_ok; try (by rewrite length_replicate).
  split; cbn; try done. intros _ k Hk. unfold bucket, scheduler_new. cbn [work_buckets].
  rewrite list_lookup_total_alt, list_lookup_fmap. destruct (seq 0 LENGTH !! k) as [k'|] eqn:E; [|done].
  apply lookup_seq in E as [-> _]. destruct k as [|[|k]]; [lia|done|done].
Qed.

Lemma set_workers_same (st : st_t) : set_workers (st_workers st) st = st.
Proof. by destruct st. Qed.
Lemma inv_step st st' : inv st → step ScheduleCollection stops_mutators false st st' → inv st'.
Proof.
  intros Hinv Hs. destruct Hs as [st i w x todo slow st' Hi Ht|st i k todo slow Hi _|st i x todo slow Hi He|st i x todo slow Hi Hl|
    st i Hi|st i w st' Hi Hz Hp|st i ph drained Hz|st i w Hi Hz Hw|st i added ws st' Hi Ha Hw Hp|st i Hi|st i st' Hi Hu|st Hp Hr|st st' Hr Hm|st k w ws Hp Hk _ Hw|
    st w ws Hma|st w Hp|st st' Hm|st Hall|st Hall Hc].
  - by eapply inv_take.
  - by eapply inv_open.
  - by eapply inv_skip.
  - by eapply inv_retry.
  - eapply inv_rescan; [done..|]. apply not_elem_of_nil.
  - by eapply inv_packet.
  - by apply inv_pausing.
  - by eapply inv_done.
  - destruct Ha as [-> |]; [|done]. assert (ws = st_workers st) as -> by (by inversion Hw). rewrite set_workers_same in Hp.
    destruct (inv_park ScheduleCollection stops_mutators Hsc n Hn _ _ Hinv Hi) as (st1 & E & H1). rewrite E in Hp. by injection Hp as <-.
  - by apply inv_spurious.
  - destruct (inv_resume _ _ Hinv Hi) as (st1 & E & H1). rewrite E in Hu. by injection Hu as <-.
  - by apply inv_request_flag.
  - by apply (inv_request st).
  - by apply inv_barrier.
  - done.
  - by apply inv_barrier_postpone.
  - by eapply inv_fork.
  - by apply inv_all_exited.
  - by apply inv_respawn.
Qed.

Definition reachable (mutators_add : bool) (st : st_t) : Prop := rtc (step ScheduleCollection stops_mutators mutators_add) (initial_state n) st.
Lemma reachable_inv st : reachable false st → inv st.
Proof.
  unfold reachable. intros H. pose proof inv_initial as Hi. revert Hi.
  induction H as [|x y z Hs _ IH]; [done|]. intros Hx. apply IH. by eapply inv_step.
Qed.
End theorems.
