(* ===== verification/SchedulerRun.v ===== *)
(** * Running the scheduler

    An executable driver: a command names a step and the worker that takes it, and
    [run] performs a list of commands if each is enabled.  What it performs is a sequence
    of steps, so states of interest are shown to be reachable by evaluation. *)

From S2P Require Import Prelude Scheduler SchedulerSteps SchedulerReach.
#[local] Open Scope nat_scope.

Section run.
Context {W : Type} (ScheduleCollection : W) (stops_mutators : W → bool) (mutators_add : bool).
Abbreviation st_t := (sched_state (W := W)).
Abbreviation steps := (rtc (step ScheduleCollection stops_mutators mutators_add)).

Inductive cmd : Type :=
| CSkip (i : nat) | COpen (i : nat) | CTake (i : nat) | CSlow (i : nat) | CPark (i : nat) | CResume (i : nat)
| CDone (i : nat) | CPause (i : nat) | CPausing (drained : bool) | CAdd (i k : nat) (w : W) | CPostpone (i : nat) (w : W)
| CRequest
(** A packet for an open bucket, and the worker that is woken, if one waits. *)
| CAddOpen (i k : nat) (w : W) (j : nat)
(** A packet that a mutator adds while no worker waits. *)
| CBarrier (w : W).

Definition source_emptyb (i : nat) (st : st_t) (x : source) : bool :=
  match x with
  | SDesignated => list_is_empty (designated_work (st_sched st) !!! i)
  | SLocal => list_is_empty (st_local st !!! i)
  | SSteal j => list_is_empty (st_local st !!! j)
  | SBucket k => let b := bucket (st_sched st) k in disabled b || negb (is_activated b) || bucket_is_empty b
  | SPrio k => list_is_empty (default [] (prioritized_queue (bucket (st_sched st) k)))
  | SQueue k => list_is_empty (queue (bucket (st_sched st) k))
  end.
Fixpoint drop_empty (i : nat) (st : st_t) (todo : list source) : list source :=
  match todo with
  | [] => []
  | x :: todo' => if source_emptyb i st x then drop_empty i st todo' else todo
  end.
Definition is_pausing (i : nat) (st : st_t) : bool := match st_pausing st with Some (j, _) => i =? j | None => false end.
Definition is_waiting (pc : worker_pc (W := W)) : bool := match pc with Waiting => true | _ => false end.

Definition run_cmd (c : cmd) (st : st_t) : option st_t :=
  match c with
  | CSkip i =>
    match st_workers st !! i with
    | Some (Scanning todo slow) => Some (set_worker i (Scanning (drop_empty i st todo) slow) st)
    | _ => None
    end
  | COpen i =>
    match st_workers st !! i with
    | Some (Scanning (SBucket k :: todo) slow) =>
      if source_emptyb i st (SBucket k) then None
      else Some (set_worker i (Scanning (SPrio k :: SQueue k :: todo) slow) st)
    | _ => None
    end
  | CTake i =>
    match st_workers st !! i with
    | Some (Scanning (SQueue k :: todo) slow) =>
      match queue (bucket (st_sched st) k) with
      | [] => None
      | w :: q => Some (set_worker i (Executing w) (set_local (alter (λ l, l ++ []) i (st_local st))
          (set_sched (update_bucket k (with_queue q) (st_sched st)) st)))
      end
    | _ => None
    end
  | CSlow i =>
    match st_workers st !! i with
    | Some (Scanning [] false) => Some (set_worker i (Scanning (sched_sources (worker_count (st_parker st)) i) true) st)
    | _ => None
    end
  | CPark i =>
    match st_workers st !! i with
    | Some (Scanning [] true) =>
      match park_and_wait ScheduleCollection i [] st with Val st' => Some st' | _ => None end
    | _ => None
    end
  | CResume i =>
    match st_workers st !! i with
    | Some Notified => match unpark i st with Val st' => Some st' | _ => None end
    | _ => None
    end
  | CDone i =>
    match st_workers st !! i with
    | Some (Executing w) =>
      if (negb (stops_mutators w) || st_paused st) && negb (is_pausing i st)
      then Some (set_worker i (Scanning (poll_sources (worker_count (st_parker st)) i) false) st) else None
    | _ => None
    end
  | CPause i =>
    match st_workers st !! i with
    | Some (Executing _) =>
      if bool_decide (current (st_goals st) = Some Gc) && negb (st_paused st) && negb (is_pausing i st)
      then Some (notify_mutators_paused i st) else None
    | _ => None
    end
  | CPausing drained => match st_pausing st with Some (i, ph) => Some (pause_action i drained ph st) | None => None end
  | CAddOpen i k w j =>
    match st_workers st !! i with
    | Some (Executing _) =>
      let ws := if existsb is_waiting (st_workers st) then <[j := Notified]> (st_workers st) else st_workers st in
      if (k <? LENGTH) && negb (disabled (bucket (st_sched st) k)) && is_activated (bucket (st_sched st) k) && negb (is_pausing i st) &&
         (negb (existsb is_waiting (st_workers st)) || from_option is_waiting false (st_workers st !! j))
      then Some (set_workers ws (set_sched (update_bucket k (add_no_notify w) (st_sched st)) st)) else None
    | _ => None
    end
  | CBarrier w =>
    if mutators_add && negb (st_paused st) && negb (existsb is_waiting (st_workers st))
    then Some (set_workers (st_workers st) (set_sched (update_bucket 0 (add_no_notify w) (st_sched st)) st)) else None
  | CAdd i k w =>
    match st_workers st !! i with
    | Some (Executing _) =>
      if (k <? LENGTH) && negb (disabled (bucket (st_sched st) k)) && negb (is_activated (bucket (st_sched st) k)) && negb (is_pausing i st)
      then Some (set_workers (st_workers st) (set_sched (update_bucket k (add_no_notify w) (st_sched st)) st)) else None
    | _ => None
    end
  | CPostpone i w =>
    match st_workers st !! i with
    | Some (Executing _) =>
      if is_pausing i st then None
      else Some (set_sched (with_postponed (postponed_concurrent_work (st_sched st) ++ [w])
        (postponed_concurrent_work_prioritized (st_sched st)) (st_sched st)) st)
    | _ => None
    end
  | CRequest =>
    if negb (st_paused st) && negb (st_request_flag st) && negb (existsb is_waiting (st_workers st)) &&
       negb (requests (st_goals st) Gc)
    then Some (set_mutators true false false (set_workers (st_workers st) (set_goals (set_request Gc (st_goals st)).2
      (set_mutators true true false st)))) else None
  end.
Fixpoint run (cs : list cmd) (st : st_t) : option st_t :=
  match cs with [] => Some st | c :: cs => st' ← run_cmd c st; run cs st' end.

(** ** Every command is a sequence of steps *)

Lemma list_is_empty_nil {A} (l : list A) : list_is_empty l = true ↔ l = [].
Proof. by destruct l. Qed.
Lemma source_emptyb_spec i st x : source_emptyb i st x = true ↔ source_empty i st x.
Proof. destruct x; cbn [source_emptyb source_empty]; try apply list_is_empty_nil. done. Qed.

Lemma set_worker_twice i pc pc' (st : st_t) : set_worker i pc' (set_worker i pc st) = set_worker i pc' st.
Proof. unfold set_worker, set_workers. cbn. by rewrite list_insert_insert_eq. Qed.
Lemma set_worker_id i pc (st : st_t) : st_workers st !! i = Some pc → set_worker i pc st = st.
Proof. intros H. destruct st. unfold set_worker, set_workers. cbn in *. by rewrite list_insert_id. Qed.

Lemma skip_steps i st todo slow :
  st_workers st !! i = Some (Scanning todo slow) → steps st (set_worker i (Scanning (drop_empty i st todo) slow) st).
Proof.
  revert st. induction todo as [|x todo IH]; intros st Hi; cbn [drop_empty].
  { by rewrite set_worker_id. }
  destruct (source_emptyb i st x) eqn:E; [|by rewrite set_worker_id].
  apply source_emptyb_spec in E. eapply rtc_l; [by eapply step_skip|].
  specialize (IH (set_worker i (Scanning todo slow) st)).
  assert (drop_empty i (set_worker i (Scanning todo slow) st) todo = drop_empty i st todo) as Ed.
  { clear. generalize (Scanning (W := W) todo slow). intros pc. induction todo as [|x todo IH]; [done|]. cbn [drop_empty]. by rewrite IH. }
  rewrite Ed, set_worker_twice in IH. apply IH. cbn. apply list_lookup_insert_eq. by apply lookup_lt_Some in Hi.
Qed.

Lemma none_waiting (ws : list (worker_pc (W := W))) : existsb is_waiting ws = false → Waiting ∉ ws.
Proof. intros H Hin%list_elem_of_In. assert (existsb is_waiting ws = true); [|congruence]. apply existsb_exists. eauto. Qed.
Lemma is_pausing_not i st : is_pausing i st = false → ∀ ph, st_pausing st ≠ Some (i, ph).
Proof. unfold is_pausing. intros H ph E. rewrite E in H. by apply Nat.eqb_neq in H. Qed.
Lemma request_steps st :
  st_paused st = false → st_request_flag st = false → existsb is_waiting (st_workers st) = false →
  requests (st_goals st) Gc = false →
  steps st (set_mutators true false false (set_workers (st_workers st) (set_goals (set_request Gc (st_goals st)).2
    (set_mutators true true false st)))).
Proof.
  intros Hp Hf Hw Hr. eapply rtc_l; [by apply step_request_flag|]. apply rtc_once.
  eapply (step_request _ _ _ (set_mutators true true false st) (set_workers (st_workers st)
    (set_goals (set_request Gc (st_goals st)).2 (set_mutators true true false st)))); [done|].
  unfold make_request, set_request. cbn. rewrite Hr. cbn. eexists. split; [|reflexivity]. right. split; [done|by apply none_waiting].
Qed.

Lemma run_cmd_steps c st st' : run_cmd c st = Some st' → steps st st'.
Proof.
  destruct c as [i|i|i|i|i|i|i|i|drained|i k w|i w| |i k w j|w]; cbn [run_cmd]; intros H; try (destruct (st_workers st !! i) as [[w0|todo slow| | |]|] eqn:Hi; try done).
  - injection H as <-. by apply skip_steps.
  - destruct todo as [|[]]; try done. destruct (source_emptyb _ _ _) eqn:E; [done|]. injection H as <-.
    apply rtc_once, step_open; [done|]. intros He%source_emptyb_spec. congruence.
  - destruct todo as [|[]]; try done. destruct (queue _) as [|w q] eqn:E; [done|]. injection H as <-.
    apply rtc_once. eapply step_take; [done|]. apply (take_queue i w st k [] q). by rewrite E.
  - destruct todo, slow; try done. injection H as <-. by apply rtc_once, step_slow.
  - destruct todo, slow; try done. destruct (park_and_wait _ _ _ _) eqn:E; try done. injection H as <-.
    apply rtc_once, (step_park _ _ _ st i [] (st_workers st)); [done|by left|constructor|]. by rewrite set_workers_same.
  - destruct (unpark i st) eqn:E; try done. injection H as <-. by apply rtc_once, (step_resume _ _ _ st i).
  - destruct (_ && _) eqn:E; [|done]. injection H as <-. apply andb_true_iff in E as [E E2%negb_true_iff].
    apply rtc_once. eapply step_done; [done|by apply is_pausing_not|]. intros H1 _ H2. rewrite H1, H2 in E. done.
  - destruct (_ && _) eqn:E; [|done]. injection H as <-. apply andb_true_iff in E as [[E1%bool_decide_eq_true E2%negb_true_iff]%andb_true_iff E3%negb_true_iff].
    apply rtc_once. eapply step_packet; [done|by apply is_pausing_not|]. by apply do_pause.
  - destruct (st_pausing st) as [[i ph]|] eqn:E; [|done]. injection H as <-. by apply rtc_once, step_pausing.
  - destruct (_ && _) eqn:E; [|done]. injection H as <-. apply andb_true_iff in E as [[[E1%Nat.ltb_lt E2%negb_true_iff]%andb_true_iff E3%negb_true_iff]%andb_true_iff E4%negb_true_iff].
    apply rtc_once. eapply step_packet; [done|by apply is_pausing_not|]. apply do_add; [done..|]. by rewrite E3.
  - destruct (is_pausing i st) eqn:E; [done|]. injection H as <-. apply rtc_once. eapply step_packet; [done|by apply is_pausing_not|]. apply do_postpone.
  - destruct (_ && _) eqn:E; [|done]. injection H as <-.
    apply andb_true_iff in E as [[[E1 E2]%andb_true_iff E3]%andb_true_iff E4].
    apply request_steps; by apply negb_true_iff.
  - destruct (_ && _) eqn:E; [|done]. injection H as <-.
    apply andb_true_iff in E as [[[[E1%Nat.ltb_lt E2%negb_true_iff]%andb_true_iff E3]%andb_true_iff E4%negb_true_iff]%andb_true_iff E5].
    apply rtc_once. eapply step_packet; [done|by apply is_pausing_not|]. apply do_add; [done..|]. rewrite E3. destruct (existsb is_waiting (st_workers st)) eqn:Ew.
    + left. exists j. split; [|done]. destruct (st_workers st !! j) as [[]|]; done.
    + right. split; [done|by apply none_waiting].
  - destruct (_ && _) eqn:E; [|done]. injection H as <-. apply andb_true_iff in E as [[E1 E2%negb_true_iff]%andb_true_iff E3%negb_true_iff].
    apply rtc_once. apply step_barrier_unconstrained; [done..|]. right. split; [done|by apply none_waiting].
Qed.

Lemma run_steps cs st st' : run cs st = Some st' → steps st st'.
Proof.
  revert st. induction cs as [|c cs IH]; intros st H; cbn in H; [by injection H as <-|].
  apply bind_Some in H as (st1 & H1 & H2). etrans; [by eapply run_cmd_steps|by apply IH].
Qed.
Lemma run_reachable n cs st : run cs (initial_state n) = Some st → reachable ScheduleCollection stops_mutators n mutators_add st.
Proof. apply run_steps. Qed.
End run.
