(* ===== verification/SchedulerTheorems.v ===== *)
(** * What the scheduler guarantees

    Every statement is about all interleavings of at least two workers and the mutators,
    and about any packets whose class [stops_mutators] holds ScheduleCollection. *)

From S2P Require Import Prelude Scheduler SchedulerSteps SchedulerBuckets SchedulerInv SchedulerPreserve SchedulerPark SchedulerReach SchedulerRun.
#[local] Open Scope nat_scope.

Section facts.
Context {W : Type} (ScheduleCollection : W) (stops_mutators : W → bool).
Context (Hsc : stops_mutators ScheduleCollection = true).
Context (n : nat) (Hn : 2 ≤ n).
Abbreviation st_t := (sched_state (W := W)).
Abbreviation inv := (inv stops_mutators n).

(** ** Which steps open buckets *)

Lemma respond_active s goals gc paused notified lp k :
  respond_to_requests ScheduleCollection s goals gc paused notified = Val lp →
  is_activated (bucket (lp_sched lp) k) = is_activated (bucket s k).
Proof.
  unfold respond_to_requests. intros H. apply bind_Val in H as (? & _ & H).
  destruct (poll_next_goal goals) as [[[]|] g].
  - apply bind_Val in H as (? & _ & H). injection H as <-. by apply update_active.
  - by injection H as <-.
  - by injection H as <-.
Qed.

Lemma inc_parked_Val p all_parked p' :
  inc_parked_workers p = Val (all_parked, p') →
  all_parked = (S (parked_workers p) =? worker_count p) ∧ p' = {| worker_count := worker_count p; parked_workers := S (parked_workers p) |}.
Proof. unfold inc_parked_workers. intros H. apply bind_Val in H as (? & _ & H). by injection H. Qed.
Lemma apply_last_fields i lp (st st' : st_t) :
  apply_last_parked i lp st = Val st' → st_sched st' = lp_sched lp ∧ st_paused st' = lp_paused lp ∧ st_goals st' = lp_goals lp.
Proof.
  unfold apply_last_parked, unpark. destruct (lp_result lp); intros E; [by injection E as <-|..]; apply bind_Val in E as (? & _ & E); by injection E as <-.
Qed.

(** The last parked worker opens stages only during a collection, and as
    [find_more_work_for_workers] does. *)
Lemma park_opens st i st' k :
  inv st → st_workers st !! i = Some (Scanning [] true) → park_and_wait ScheduleCollection i [] st = Val st' →
  1 ≤ k → is_activated (bucket (st_sched st) k) = false → is_activated (bucket (st_sched st') k) = true →
  last_facts st i ∧ current (st_goals st) = Some Gc ∧ st_paused st = true ∧ st_paused st' = true ∧
  find_more_work_for_workers (st_sched st) = (true, st_sched st').
Proof.
  intros Hinv Hi Hp Hk H1 H2. unfold park_and_wait in Hp. apply bind_Val in Hp as ([all_parked parker] & Hinc & Hp).
  apply inc_parked_Val in Hinc as [-> ->].
  destruct (Nat.eqb_spec (S (parked_workers (st_parker st))) (worker_count (st_parker st))) as [E|E].
  2:{ injection Hp as <-. cbn in *. congruence. }
  rewrite (i_count _ _ _ Hinv) in E. assert (last_facts st i) as Hlf by (by eapply last_facts_hold).
  apply bind_Val in Hp as (lp & Hlp & Hp). cbn [st_sched st_goals st_gc_started st_paused set_parker] in Hlp.
  destruct (apply_last_fields _ _ _ _ Hp) as (Es & Ep & _). rewrite Es, Ep in *. unfold on_last_parked in Hlp.
  destruct (current (st_goals st)) as [[]|] eqn:Hcur; [|done|].
  - assert (st_paused st = true) as Hpa by (by eapply last_paused). apply bind_Val in Hlp as (? & _ & Hlp).
    pose proof (find_more_work_spec (st_sched st) (i_sched _ _ _ Hinv) (proj1 (no_live_drained _) (lf_chan _ _ Hlf))
      (or_introl (fl_paused _ (i_flags _ _ _ Hinv) Hpa))) as Hs.
    destruct (find_more_work_for_workers (st_sched st)) as [[] s'].
    + injection Hlp as <-. cbn in *. done.
    + destruct Hs as (_ & Hok & _ & Hfin). destruct (Hfin eq_refl) as (Hqt & _ & Hdw & Hpassed & _).
      apply bind_Val in Hlp as ([b s2] & Hfi & Hlp). exfalso.
      destruct (fl_gc _ (i_flags _ _ _ Hinv) Hcur) as (Hgs & _). rewrite Hgs in Hfi.
      destruct (on_gc_finished_spec n Hn s' Hqt Hpassed Hdw) as (b' & s2' & E' & _ & Hstw & _). rewrite E' in Hfi. injection Hfi as -> ->.
      rewrite (respond_active _ _ _ _ _ _ k Hlp), Hstw in H2; done.
  - rewrite (respond_active _ _ _ _ _ _ k Hlp) in H2. congruence.
Qed.
(** What it means that stage [k] may be opened: the stages before it are finished, the
    mutators are stopped, and all workers but one are parked. *)
Definition opens_safely (st st' : st_t) (k : nat) : Prop :=
  (∀ j, 1 ≤ j < k → passed (bucket (st_sched st') j) ∧ no_packets (bucket (st_sched st') j)) ∧ st_paused st' = true ∧
  ∃ i, ∀ j pc, st_workers st !! j = Some pc → j ≠ i → is_parked pc = true.

Lemma packet_active i (st st' : st_t) k :
  packet_step i st st' → 2 ≤ k → is_activated (bucket (st_sched st') k) = is_activated (bucket (st_sched st) k).
Proof.
  intros Hp Hk. destruct Hp; cbn [set_workers set_sched set_local st_sched]; try done; try by apply update_active.
  - unfold add_prioritized in *. destruct (prioritized_queue _); [|done]. simplify_eq/=. by apply update_active.
  - rewrite bucket_update_eq. case_decide as Hd; [destruct Hd as [-> _]|]; done.
  - unfold process_lazy_decrement_packets. rewrite update_active by (by repeat split). done.
  - unfold notify_mutators_paused. cbn [set_pausing set_mutators set_sched st_sched]. rewrite bucket_update_eq, decide_False; [done|]. unfold first_stw_stage. lia.
Qed.

(** The worker that stopped the mutators opens the second stage. *)
Definition opens_second (st : st_t) : Prop :=
  ∃ i w, st_pausing st = Some (i, ActivateSecond) ∧ st_workers st !! i = Some (Executing w) ∧ st_paused st = true ∧ is_activated (bucket (st_sched st) 1) = true.
Lemma pausing_opens st i ph drained k :
  inv st → st_pausing st = Some (i, ph) → 2 ≤ k → is_activated (bucket (st_sched st) k) = false →
  is_activated (bucket (st_sched (pause_action i drained ph st)) k) = true → k = 2 ∧ opens_second st.
Proof.
  intros Hinv Hz Hk H1 H2. destruct (i_pausing _ _ _ Hinv i ph Hz) as (_ & Hpa & w & Hi).
  destruct ph; cbn [pause_action set_pausing set_workers set_sched st_sched] in H2; try congruence.
  rewrite bucket_update_eq in H2. case_decide as Hd; [|congruence]. destruct Hd as [-> _]. split; [done|]. exists i, w. split_and!; try done.
  by apply (fl_paused _ (i_flags _ _ _ Hinv)).
Qed.

Lemma step_opens st st' k :
  inv st → step ScheduleCollection stops_mutators false st st' → 2 ≤ k →
  is_activated (bucket (st_sched st) k) = false → is_activated (bucket (st_sched st') k) = true → opens_safely st st' k ∨ k = 2 ∧ opens_second st.
Proof.
  intros Hinv Hs Hk H1 H2. destruct Hs as [st i w x todo slow st' Hi Ht|st i j todo slow Hi _|st i x todo slow Hi He|
    st i x todo slow Hi Hl|st i Hi|st i w st' Hi Hz Hp|st i ph drained Hz|st i w Hi Hz Hw|st i added ws st' Hi Ha Hw Hp|st i Hi|st i st' Hi Hu|st Hp Hr|st st' Hr Hm|
    st j w ws Hp Hj _ Hw|st w ws Hma|st w Hp|st st' Hm|st Hall|st Hall Hc]; try (cbn in *; congruence).
  - assert (i < length (st_local st)) as Hlt.
    { rewrite (i_local _ _ _ Hinv), <-(i_workers _ _ _ Hinv). by apply lookup_lt_Some in Hi. }
    destruct (takes_facts stops_mutators _ _ _ _ _ Ht (i_sched _ _ _ Hinv) Hlt) as [_ _ _ Ha _ _]. cbn [set_worker set_workers st_sched] in H2.
    rewrite Ha in H2. congruence.
  - rewrite (packet_active i st st' k Hp Hk) in H2. congruence.
  - right. by eapply pausing_opens.
  - left. destruct Ha as [-> |]; [|done]. assert (ws = st_workers st) as -> by (by inversion Hw). rewrite set_workers_same in Hp.
    destruct (park_opens st i st' k Hinv Hi Hp ltac:(lia) H1 H2) as (Hlf & Hcur & Hpa & Hpa' & Hf).
    pose proof (find_more_work_spec (st_sched st) (i_sched _ _ _ Hinv) (proj1 (no_live_drained _) (lf_chan _ _ Hlf))
      (or_introl (fl_paused _ (i_flags _ _ _ Hinv) Hpa))) as Hs. rewrite Hf in Hs. destruct Hs as (_ & _ & Hord & _).
    split; [by apply (Hord k); [lia|..]|]. split; [done|]. exists i. apply Hlf.
  - exfalso. unfold unpark in Hu. apply bind_Val in Hu as (? & _ & Hu). injection Hu as <-. cbn in *. congruence.
  - exfalso. unfold make_request in Hm. destruct (set_request _ _). destruct Hm as (ws & _ & ->). cbn in *. congruence.
  - exfalso. cbn [set_workers set_sched st_sched] in H2. rewrite update_active in H2 by (by repeat split). congruence.
  - exfalso. change (is_activated (bucket (st_sched st) k) = true) in H2. congruence.
  - exfalso. unfold make_request in Hm. destruct (set_request _ _). destruct Hm as (ws & _ & ->). cbn in *. congruence.
Qed.

(** ** The end of a collection *)


End facts.

(** ** Theorems *)

Section theorems.
Context {W : Type} (ScheduleCollection : W) (stops_mutators : W → bool) (n : nat).
Abbreviation reachable := (reachable ScheduleCollection stops_mutators n false).
Abbreviation step := (step ScheduleCollection stops_mutators false).

(** C12: No packet and no request is lost.  With at least two workers, and mutators that add
    packets only to stop-the-world buckets, when all workers wait on the condition variable no
    goal is being worked on, no request is pending, and no packet is left in the local buffer of
    a worker or in an open bucket.  ([Runs.single_worker_stalls] is the case of one worker;
    [Runs.barrier_wakeup_lost] that of a write barrier that adds to Unconstrained.) *)
Theorem no_lost_work st :
  stops_mutators ScheduleCollection = true → 2 ≤ n → reachable st →
  (∀ j pc, st_workers st !! j = Some pc → pc = Waiting) →
  current (st_goals st) = None ∧ (∀ goal, requests (st_goals st) goal = false) ∧
  (∀ j l, st_local st !! j = Some l → l = []) ∧
  ∀ k, is_activated (bucket (st_sched st) k) = true → bucket_is_empty (bucket (st_sched st) k) = true.
Proof.
  intros Hsc Hn Hr Hall. pose proof (reachable_inv _ _ Hsc n Hn st Hr) as Hinv.
  destruct (i_idle _ _ _ Hinv Hall) as [Hc Hg]. split; [done|]. split; [done|]. split.
  - intros j l Hj. destruct l as [|x l]; [done|exfalso].
    destruct (i_localq _ _ _ Hinv j _ Hj ltac:(done)) as (pc & Hpc & Hs). by rewrite (Hall j pc Hpc) in Hs.
  - apply no_live_drained. intros c Hlive. destruct (i_chan _ _ _ Hinv c Hlive) as [(j & pc & Hj & Hs)|[_ (j & [Hj|Hj])]].
    + by rewrite (Hall j pc Hj) in Hs.
    + by specialize (Hall j _ Hj).
    + by specialize (Hall j _ Hj).
Qed.

(** C32: The last parked worker never panics.  With at least two workers, and mutators that add
    packets only to stop-the-world buckets, [park_and_wait] with [on_last_parked] and the
    unparking of a notified worker return in every reachable state: no assertion fails on the
    counts of parked workers, the current goal, the requests, the start time of the collection,
    the buckets that are deactivated at its end and the queues that are swapped for the
    postponed packets.  ([Runs.resumed_mutator_panics] is the case of a mutator that adds to
    Unconstrained as soon as it is resumed.) *)
Theorem park_never_panics st i :
  stops_mutators ScheduleCollection = true → 2 ≤ n → reachable st →
  (st_workers st !! i = Some (Scanning [] true) → ∃ st', park_and_wait ScheduleCollection i [] st = Val st') ∧
  (st_workers st !! i = Some Notified → ∃ st', unpark i st = Val st').
Proof.
  intros Hsc Hn Hr. pose proof (reachable_inv _ _ Hsc n Hn st Hr) as Hinv. split; intros Hi.
  - destruct (inv_park _ _ Hsc n Hn st i Hinv Hi) as (st' & ? & _). eauto.
  - destruct (inv_resume stops_mutators n Hn st i Hinv Hi) as (st' & ? & _). eauto.
Qed.

(** C13: Stages are executed in order.  With at least two workers, and mutators that add packets
    only to stop-the-world buckets: while the mutators run no stop-the-world stage is open; a
    step that opens a stage other than the first is one of the last parked worker, when all
    stages before it are open and without packets, or disabled, the mutators are stopped and all
    other workers are parked; or it opens the second stage and is one of the worker that
    notifies that the mutators are paused, which has opened the first stage and saw it empty and
    all other workers parked, by loads that may be stale ([Runs.second_stage_races]). *)
Theorem stages_in_order st st' :
  stops_mutators ScheduleCollection = true → 2 ≤ n → reachable st → step st st' →
  (st_paused st = false → ∀ k, 1 ≤ k → is_activated (bucket (st_sched st) k) = false) ∧
  ∀ k, 2 ≤ k → is_activated (bucket (st_sched st) k) = false → is_activated (bucket (st_sched st') k) = true →
    opens_safely st st' k ∨ k = 2 ∧ opens_second st.
Proof.
  intros Hsc Hn Hr Hs. pose proof (reachable_inv _ _ Hsc n Hn st Hr) as Hinv.
  split; [apply (fl_stw _ (i_flags _ _ _ Hinv))|]. intros k. by eapply step_opens.
Qed.

End theorems.

(** ** Example runs

    Packets are numbers, and 0 is ScheduleCollection and the packet that stops mutators. *)

Module Runs.
Definition stops (w : nat) : bool := w =? 0.
Abbreviation run_from adds n cs := (run 0 stops adds cs (initial_state n)).
Definition after (adds : bool) (n : nat) (cs : list cmd) : sched_state := default (initial_state n) (run_from adds n cs).
Definition state_after (n : nat) (cs : list cmd) : sched_state := after false n cs.

Definition enabled (adds : bool) (n : nat) (cs : list cmd) : bool := match run_from adds n cs with Some _ => true | None => false end.

Lemma after_reachable adds n cs : enabled adds n cs = true → reachable 0 stops n adds (after adds n cs).
Proof.
  unfold after, enabled. destruct (run _ _ _ _ _) as [st|] eqn:E; [|done]. intros _. by eapply run_reachable.
Qed.

(** A worker polls, finds nothing and is about to park. *)
Definition poll_all (i : nat) : list (cmd (W := nat)) := [CSkip i; CSlow i; CSkip i].
Definition take_next (i : nat) : list (cmd (W := nat)) := [CSkip i; COpen i; CSkip i; CTake i].
(** The mutators are stopped, and the second stage stays closed. *)
Definition pause (i : nat) : list (cmd (W := nat)) := [CPause i; CPausing false; CPausing false; CPausing false; CPausing false].

Definition all_idle : list cmd := poll_all 0 ++ [CPark 0] ++ poll_all 1 ++ [CPark 1].
(** A collection is requested; worker 1 stops the mutators and adds a packet to Prepare. *)
Definition collecting : list cmd :=
  [CRequest] ++ all_idle ++ take_next 1 ++ [CAdd 1 3 7] ++ pause 1 ++ [CDone 1] ++ poll_all 1 ++
  [CResume 0; CSkip 0; CPark 0].
(** Worker 1 opens Prepare, executes the packet, and is the last to park again. *)
Definition last_stage : list cmd :=
  collecting ++ [CPark 1] ++ take_next 1 ++ [CDone 1] ++ poll_all 1 ++ [CResume 0; CSkip 0; CPark 0].

Lemma no_lost_work_witness :
  current (st_goals (state_after 2 all_idle)) = None ∧ (∀ goal, requests (st_goals (state_after 2 all_idle)) goal = false) ∧
  (∀ j l, st_local (state_after 2 all_idle) !! j = Some l → l = []) ∧
  ∀ k, is_activated (bucket (st_sched (state_after 2 all_idle)) k) = true →
    bucket_is_empty (bucket (st_sched (state_after 2 all_idle)) k) = true.
Proof.
  apply (no_lost_work 0 stops 2); [reflexivity|lia|apply after_reachable; vm_compute; reflexivity|].
  assert (st_workers (state_after 2 all_idle) = [Waiting; Waiting]) as -> by (vm_compute; reflexivity).
  intros j pc Hj. apply list_elem_of_lookup_2 in Hj. set_solver.
Defined.

Lemma park_never_panics_witness : ∃ st', park_and_wait 0 1 [] (state_after 2 last_stage) = Val st'.
Proof.
  destruct (park_never_panics 0 stops 2 (state_after 2 last_stage) 1) as [H _]; [reflexivity|lia|apply after_reachable; vm_compute; reflexivity|].
  apply H. vm_compute. reflexivity.
Defined.

Lemma prepare_opens : step 0 stops false (state_after 2 collecting) (state_after 2 (collecting ++ [CPark 1])).
Proof. apply (step_park _ _ _ _ 1 [] (st_workers (state_after 2 collecting))); [vm_compute; reflexivity|by left|constructor|vm_compute; reflexivity]. Qed.
Lemma stages_in_order_witness :
  is_activated (bucket (st_sched (state_after 2 collecting)) 3) = false ∧
  opens_safely (state_after 2 collecting) (state_after 2 (collecting ++ [CPark 1])) 3.
Proof.
  split; [vm_compute; reflexivity|].
  destruct (stages_in_order 0 stops 2 (state_after 2 collecting) (state_after 2 (collecting ++ [CPark 1]))) as [_ H];
    [reflexivity|lia|apply after_reachable; vm_compute; reflexivity|apply prepare_opens|].
  destruct (H 3) as [H3|[H3 _]]; [lia|vm_compute; reflexivity..|exact H3|discriminate H3].
Defined.


(** With a single worker the packets postponed to after the collection are moved to the
    Unconstrained bucket by a worker that then waits, and nobody executes them: the
    notification of [wakeup_all_conc_workers] reaches no one. *)
Definition single : list cmd :=
  [CRequest] ++ poll_all 0 ++ [CPark 0] ++ take_next 0 ++ [CPostpone 0 7] ++ pause 0 ++ [CDone 0] ++ poll_all 0 ++ [CPark 0].
Lemma single_worker_stalls :
  reachable 0 stops 1 false (state_after 1 single) ∧ st_workers (state_after 1 single) = [Waiting] ∧
  queue (bucket (st_sched (state_after 1 single)) 0) = [7].
Proof.
  split; [apply after_reachable; vm_compute; reflexivity|]. vm_compute. split; reflexivity.
Qed.

(** The second stage is opened after loads that are out of date.  Worker 1 adds a packet to the
    Unconstrained bucket, which wakes worker 0, and stops the mutators; worker 0 is still
    counted as parked when the counter is loaded.  Then worker 0 resumes, takes the packet and
    adds another to the first stage, and the second stage is opened all the same. *)
Definition second_opens : list cmd :=
  [CRequest] ++ all_idle ++ take_next 1 ++ [CAddOpen 1 0 5 0; CPause 1; CPausing true; CPausing true; CPausing true] ++
  [CResume 0] ++ take_next 0 ++ [CAddOpen 0 1 7 0].
Lemma second_stage_races :
  let st := state_after 2 second_opens in
  reachable 0 stops 2 false st ∧ st_pausing st = Some (1, ActivateSecond) ∧
  st_workers st = [Executing 5; Executing 0] ∧ queue (bucket (st_sched st) 1) = [7] ∧
  let st' := pause_action 1 true ActivateSecond st in
  step 0 stops false st st' ∧ is_activated (bucket (st_sched st) 2) = false ∧ is_activated (bucket (st_sched st') 2) = true.
Proof.
  split; [apply after_reachable; vm_compute; reflexivity|]. split; [vm_compute; reflexivity|]. split; [vm_compute; reflexivity|]. split; [vm_compute; reflexivity|].
  split; [apply step_pausing; vm_compute; reflexivity|]. split; vm_compute; reflexivity.
Qed.

(** A packet that a mutator adds to the Unconstrained bucket may be left there: both workers
    have found no packet when it is added, and its notification reaches no one. *)
Definition barrier_run : list cmd := poll_all 0 ++ poll_all 1 ++ [CBarrier 7; CPark 0; CPark 1].
Lemma barrier_wakeup_lost :
  reachable 0 stops 2 true (after true 2 barrier_run) ∧ st_workers (after true 2 barrier_run) = [Waiting; Waiting] ∧
  queue (bucket (st_sched (after true 2 barrier_run)) 0) = [7].
Proof.
  split; [apply after_reachable; vm_compute; reflexivity|]. vm_compute. split; reflexivity.
Qed.

(** The mutators are resumed before the postponed packets are scheduled: a packet that a
    mutator adds in between makes the assertion fail that the queue it replaces is empty. *)
Definition resumed_run : list cmd :=
  [CRequest] ++ all_idle ++ take_next 1 ++ [CPostpone 1 7] ++ pause 1 ++ [CDone 1] ++ poll_all 1 ++ [CResume 0; CSkip 0; CPark 0].
Lemma resumed_mutator_panics :
  reachable 0 stops 2 true (after true 2 resumed_run) ∧ st_workers (after true 2 resumed_run) !! 1 = Some (Scanning [] true) ∧
  park_and_wait 0 1 [9] (after true 2 resumed_run) = Panic ∧ ∃ st', park_and_wait 0 1 [] (after true 2 resumed_run) = Val st'.
Proof.
  split; [apply after_reachable; vm_compute; reflexivity|]. split; [vm_compute; reflexivity|]. split; [vm_compute; reflexivity|].
  eexists. vm_compute. reflexivity.
Qed.
End Runs.
