(* ===== verification/BlockTables.v ===== *)
(** * The metadata of mark-sweep blocks
    (src/src/policy/marksweepspace/native_ms/block.rs)

    Each block has a word in every table of a fixed set: its neighbours in the list it
    is on, that list, the size of its cells and the head of its free cells.  Lists of blocks
    and free cells are modelled against the interface [BlockMemory]; its laws are proved of
    the side metadata tables and the heap memory. *)

From S2P Require Import Prelude Conversions Memory SideMetadata SideMetadataBits SideMetadataOps SideMetadataTheorems.
From S2P Require Import SideMetadataSpecs.

(** [Block::LOG_BYTES] and [Block::BYTES]. *)
Definition Block_LOG_BYTES : Z := 16.
Definition Block_BYTES : Z := Z.shiftl 1 Block_LOG_BYTES.

(** The tables of [Block::METADATA_SPECS]. *)
Inductive ms_table : Type :=
| MARK_TABLE | NEXT_BLOCK_TABLE | PREV_BLOCK_TABLE | BLOCK_LIST_TABLE | SIZE_TABLE | TLS_TABLE | FREE_LIST_TABLE.
#[export] Instance ms_table_eq_dec : EqDecision ms_table.
Proof. solve_decision. Defined.
Definition table_width (t : ms_table) : Z := match t with MARK_TABLE => 8 | _ => 64 end.

(** ** The interface *)

(** The value of a block in a table, the words of the heap, and the byte of a chunk in
    [ChunkMap::ALLOC_TABLE]. *)
Class BlockMemory (S : Type) := {
  bm_ok : S → Prop;
  block_ok : Z → Prop;
  tload : ms_table → S → Z → Z;
  tstore : ms_table → S → Z → Z → S;
  wload : S → Z → Z;
  wstore : S → Z → Z → S;
  wzero : S → Z → Z → S;
  chunk_ok : Z → Prop;
  cload : S → Z → Z;
  cstore : S → Z → Z → S
}.

(** The words from [a] to [a + len] are in one block. *)
Definition in_block {S} `{BlockMemory S} (a len : Z) : Prop :=
  ∃ b, block_ok b ∧ b ≤ a ∧ 0 ≤ len ∧ a + len ≤ b + Block_BYTES.

Class BlockMemoryLaws (S : Type) `{BlockMemory S} := {
  block_range b : block_ok b → 0 < b ∧ (Block_BYTES | b) ∧ b + Block_BYTES < 2 ^ 47;
  tstore_ok t s b v : bm_ok s → block_ok b → is_u (table_width t) v → bm_ok (tstore t s b v);
  wstore_ok s a v : bm_ok s → bm_ok (wstore s a v);
  wzero_ok s a len : bm_ok s → bm_ok (wzero s a len);
  tload_range t s b : bm_ok s → block_ok b → is_u (table_width t) (tload t s b);
  tload_tstore t t' s b b' v : bm_ok s → block_ok b → block_ok b' → is_u (table_width t) v →
    tload t' (tstore t s b v) b' = if decide (t = t' ∧ b = b') then v else tload t' s b';
  tload_wstore t s a v b : bm_ok s → block_ok b → in_block a 8 → tload t (wstore s a v) b = tload t s b;
  tload_wzero t s a len b : bm_ok s → block_ok b → in_block a len → tload t (wzero s a len) b = tload t s b;
  wload_range s a : bm_ok s → is_u 64 (wload s a);
  wload_tstore t s b v a : bm_ok s → block_ok b → is_u (table_width t) v → in_block a 8 →
    wload (tstore t s b v) a = wload s a;
  wload_wstore s a v : bm_ok s → is_u 64 v → wload (wstore s a v) a = v;
  wload_wstore_ne s a v a' : a + 8 ≤ a' ∨ a' + 8 ≤ a → wload (wstore s a v) a' = wload s a';
  wload_wzero s a len a' : a ≤ a' → a' + 8 ≤ a + len → wload (wzero s a len) a' = 0;
  wload_wzero_ne s a len a' : a + len ≤ a' ∨ a' + 8 ≤ a → wload (wzero s a len) a' = wload s a';
  chunk_range c : chunk_ok c → 0 < c ∧ (BYTES_IN_CHUNK | c) ∧ c + BYTES_IN_CHUNK < 2 ^ 47;
  chunk_between c1 c2 c : chunk_ok c1 → chunk_ok c2 → (BYTES_IN_CHUNK | c) → c1 ≤ c ≤ c2 → chunk_ok c;
  cstore_ok s c v : bm_ok s → chunk_ok c → is_u 8 v → bm_ok (cstore s c v);
  cload_cstore s c c' v : bm_ok s → chunk_ok c → chunk_ok c' → is_u 8 v →
    cload (cstore s c v) c' = if decide (c = c') then v else cload s c';
  tload_cstore t s c v b : bm_ok s → chunk_ok c → is_u 8 v → block_ok b → tload t (cstore s c v) b = tload t s b;
  wload_cstore s c v a : bm_ok s → chunk_ok c → is_u 8 v → in_block a 8 → wload (cstore s c v) a = wload s a;
  cload_tstore t s b v c : bm_ok s → block_ok b → is_u (table_width t) v → chunk_ok c → cload (tstore t s b v) c = cload s c;
  cload_wstore s a v c : bm_ok s → in_block a 8 → chunk_ok c → cload (wstore s a v) c = cload s c;
  cload_wzero s a len c : bm_ok s → in_block a len → chunk_ok c → cload (wzero s a len) c = cload s c
}.

(** A state that comes from another by stores of the collector. *)
Inductive stores {S} `{BlockMemory S} : S → S → Prop :=
| stores_refl s : stores s s
| stores_tstore t s s1 b v : stores s s1 → bm_ok s1 → block_ok b → is_u (table_width t) v → stores s (tstore t s1 b v)
| stores_wstore s s1 a v : stores s s1 → bm_ok s1 → in_block a 8 → stores s (wstore s1 a v)
| stores_wzero s s1 a len : stores s s1 → bm_ok s1 → in_block a len → stores s (wzero s1 a len)
| stores_cstore s s1 c v : stores s s1 → bm_ok s1 → chunk_ok c → is_u 8 v → stores s (cstore s1 c v).
Lemma stores_trans {S} `{BlockMemory S} (s1 s2 s3 : S) : stores s1 s2 → stores s2 s3 → stores s1 s3.
Proof. intros H1 H2. revert s1 H1. induction H2; intros s0 Hs; [done|constructor; auto..]. Qed.

(** ** The side metadata and the heap *)

Section instance.
Context (f : features) (asan : bool).

(** The specs of spec_defs.rs that [Block] names. *)
Definition ms_index (t : ms_table) : nat :=
  match t with
  | MARK_TABLE => 17 | NEXT_BLOCK_TABLE => 18 | PREV_BLOCK_TABLE => 19 | BLOCK_LIST_TABLE => 20
  | SIZE_TABLE => 21 | TLS_TABLE => 22 | FREE_LIST_TABLE => 23
  end.
Definition chunk_index : nat := 9.
Definition lspec (i : nat) : SideMetadataSpec := local_specs f asan !!! i.
Definition ms_spec (t : ms_table) : SideMetadataSpec := lspec (ms_index t).
Definition chunk_spec : SideMetadataSpec := lspec chunk_index.

(** A block is aligned and lies below the tables of local metadata. *)
Definition heap_block (b : Z) : Prop := 0 < b ∧ (Block_BYTES | b) ∧ b + Block_BYTES ≤ LOCAL_SIDE_METADATA_BASE_ADDRESS asan.
Definition heap_chunk (c : Z) : Prop := 0 < c ∧ (BYTES_IN_CHUNK | c) ∧ c + BYTES_IN_CHUNK ≤ LOCAL_SIDE_METADATA_BASE_ADDRESS asan.

#[local] Instance mem_blocks : BlockMemory mem := {|
  bm_ok := mem_ok; block_ok := heap_block;
  tload t M b := load (ms_spec t) M b; tstore t M b v := store (ms_spec t) M b v;
  wload M a := load_bytes 8 M a; wstore M a v := store_bytes 8 M a v; wzero M a len := mem_zero M a len;
  chunk_ok := heap_chunk; cload M c := load chunk_spec M c; cstore M c v := store chunk_spec M c v
|}.

Context (Hf : f ∈ all_features).

Lemma lspec_lookup i : (i < 24)%nat → local_specs f asan !! i = Some (lspec i).
Proof. intros Hi. unfold lspec. do 24 (destruct i as [|i]; [done|]). lia. Qed.
Lemma ms_index_inj t t' : ms_index t = ms_index t' → t = t'.
Proof. by destruct t, t'. Qed.
Lemma ms_index_lt t : (ms_index t < 24)%nat ∧ ms_index t ≠ chunk_index.
Proof. destruct t; unfold chunk_index; cbn; lia. Qed.
Lemma chunk_shape : log_bytes_in_region chunk_spec = 22 ∧ width chunk_spec = 8.
Proof. done. Qed.
Lemma ms_shape t : log_bytes_in_region (ms_spec t) = 16 ∧ width (ms_spec t) = table_width t.
Proof. by destruct t. Qed.

Lemma locals_stacked : stacked_b (LOCAL_SIDE_METADATA_BASE_ADDRESS asan) (2 ^ 47) (local_specs f asan) = true.
Proof.
  destruct (features_checked f asan Hf) as [_ Hl]. unfold local_check in Hl.
  change (local_specs _ asan) with (local_specs f asan) in Hl. exact Hl.
Qed.
Lemma lspec_ok i : (i < 24)%nat → spec_ok (lspec i) ∧ LOCAL_SIDE_METADATA_BASE_ADDRESS asan ≤ sm_offset (lspec i).
Proof.
  intros Hi. destruct (stacked_bounds _ _ _ _ locals_stacked (list_elem_of_lookup_2 _ _ _ (lspec_lookup i Hi))) as ([? _]%spec_ok_b_spec & ? & _).
  by split.
Qed.
Lemma lspec_disjoint i j : (i < 24)%nat → (j < 24)%nat → i ≠ j → tables_disjoint (lspec i) (lspec j).
Proof.
  intros Hi Hj Hne. destruct (decide (i < j)%nat) as [Hlt|Hge].
  - left. exact (stacked_disjoint _ _ _ _ _ _ _ locals_stacked Hlt (lspec_lookup i Hi) (lspec_lookup j Hj)).
  - right. eapply (stacked_disjoint _ _ _ _ _ _ _ locals_stacked); [|by apply lspec_lookup..]. lia.
Qed.
Lemma ms_spec_ok t : spec_ok (ms_spec t).
Proof. apply lspec_ok, ms_index_lt. Qed.
Lemma chunk_spec_ok : spec_ok chunk_spec.
Proof. apply lspec_ok. unfold chunk_index. lia. Qed.
Lemma local_base_range : LOCAL_SIDE_METADATA_BASE_ADDRESS asan < 2 ^ 47.
Proof. destruct asan; by vm_compute. Qed.

(** Heap bytes below the tables are no part of any value. *)
Lemma load_below i M M' b hi :
  (i < 24)%nat → mem_ok M → mem_ok M' → 0 ≤ b < 2 ^ 47 → hi ≤ LOCAL_SIDE_METADATA_BASE_ADDRESS asan →
  (∀ x, hi ≤ x → M x = M' x) → load (lspec i) M b = load (lspec i) M' b.
Proof.
  intros Hi HM HM' Hb Hhi Heq. destruct (lspec_ok i Hi) as [Hs Hoff].
  apply load_ext; try done; [unfold addr_ok; lia..|]. intros j Hj.
  destruct (base_in_table (lspec i) b Hs Hb) as [H1 _]. unfold membit. rewrite Heq; [done|].
  apply Z.div_le_lower_bound; lia.
Qed.

Lemma heap_block_range b : heap_block b → 0 ≤ b < 2 ^ 47 ∧ addr_ok b.
Proof. intros (? & _ & ?). pose proof local_base_range. change Block_BYTES with 65536 in *. unfold addr_ok. lia. Qed.
Lemma heap_chunk_range c : heap_chunk c → 0 ≤ c < 2 ^ 47 ∧ addr_ok c.
Proof. intros (? & _ & ?). pose proof local_base_range. change BYTES_IN_CHUNK with 4194304 in *. unfold addr_ok. lia. Qed.

Lemma store_below i M b v a :
  (i < 24)%nat → mem_ok M → 0 ≤ b < 2 ^ 47 → is_u (width (lspec i)) v → a < LOCAL_SIDE_METADATA_BASE_ADDRESS asan →
  store (lspec i) M b v a = M a.
Proof.
  intros Hi HM Hb Hv Ha. destruct (lspec_ok i Hi) as [Hs Hoff]. assert (addr_ok b) as Hb2 by (unfold addr_ok; lia).
  destruct (store_updates (lspec i) Hs M b v HM Hb2 Hv) as [HM' Hu].
  apply Z.bits_inj'. intros j Hj. destruct (decide (j < 8)).
  - rewrite <-!membit_at, Hu by lia. destruct (base_in_table (lspec i) b Hs Hb) as [H1 _].
    destruct (Z.leb_spec (base (lspec i) b) (8 * a + j)); [lia|done].
  - rewrite !(testbit_small 8) by (first [apply HM'|apply HM|lia]). done.
Qed.

(** A store to one table and a load from another. *)
Lemma load_store_table i j M a v b :
  (i < 24)%nat → (j < 24)%nat → i ≠ j → mem_ok M → 0 ≤ a < 2 ^ 47 → is_u (width (lspec i)) v → 0 ≤ b < 2 ^ 47 →
  load (lspec j) (store (lspec i) M a v) b = load (lspec j) M b.
Proof.
  intros Hi Hj Hne HM Ha Hv Hb. destruct (lspec_ok i Hi) as [Hs _], (lspec_ok j Hj) as [Hs' _].
  apply (updates_table (lspec i) (lspec j) M _ a b v Hs Hs' (lspec_disjoint i j Hi Hj Hne)); try done.
  apply store_updates; try done. unfold addr_ok. lia.
Qed.
Lemma load_store_region i M a v b :
  (i < 24)%nat → mem_ok M → 0 ≤ a < 2 ^ 47 → is_u (width (lspec i)) v → 0 ≤ b < 2 ^ 47 →
  (2 ^ log_bytes_in_region (lspec i) | a) → (2 ^ log_bytes_in_region (lspec i) | b) →
  load (lspec i) (store (lspec i) M a v) b = if decide (a = b) then v else load (lspec i) M b.
Proof.
  intros Hi HM Ha Hv Hb Hda Hdb. destruct (lspec_ok i Hi) as [Hs _].
  assert (addr_ok a ∧ addr_ok b) as [Ha2 Hb2] by (unfold addr_ok; lia).
  pose proof (store_updates (lspec i) Hs M a v HM Ha2 Hv) as Hu.
  case_decide as Hd; [subst; by eapply updates_same|]. eapply (updates_region (lspec i) Hs M); try done.
  assert (0 < 2 ^ log_bytes_in_region (lspec i)) by (apply Z.pow_pos_nonneg; destruct Hs; lia).
  unfold region. destruct Hda as [q ->], Hdb as [q' ->]. rewrite !Z.div_mul by lia. intros ->. naive_solver.
Qed.

Lemma wide_in_heap a len : @in_block mem mem_blocks a len → a + len ≤ LOCAL_SIDE_METADATA_BASE_ADDRESS asan.
Proof. intros (b & (_ & _ & ?) & ? & ? & ?). lia. Qed.

#[local] Instance mem_blocks_laws : BlockMemoryLaws mem.
Proof.
  assert (∀ t, is_u (width (ms_spec t)) = is_u (table_width t)) as Hw by (intros t; by destruct (ms_shape t) as [_ ->]).
  assert (chunk_index < 24)%nat as Hci by (unfold chunk_index; lia).
  split; cbn [bm_ok block_ok tload tstore wload wstore wzero chunk_ok cload cstore mem_blocks].
  - intros b (? & ? & ?). pose proof local_base_range. split_and!; (done || lia).
  - intros t M b v HM Hb Hv. destruct (heap_block_range b Hb) as [_ Hb2].
    apply (store_updates (ms_spec t) (ms_spec_ok t) M b v HM Hb2). by rewrite Hw.
  - intros M a v HM. by apply mem_ok_store_bytes.
  - intros M a len HM. apply mem_ok_set; [done|]. done.
  - intros t M b HM Hb. destruct (heap_block_range b Hb) as [_ Hb2]. rewrite <-Hw. apply load_u; [apply ms_spec_ok|done..].
  - intros t t' M b b' v HM Hb Hb' Hv. destruct (heap_block_range b Hb) as [Hb1 _], (heap_block_range b' Hb') as [Hb1' _]. rewrite <-Hw in Hv.
    destruct (ms_index_lt t) as [Ht _], (ms_index_lt t') as [Ht' _].
    destruct (decide (t = t')) as [<- |Hne].
    + unfold ms_spec. rewrite load_store_region; try done; try (fold (ms_spec t); destruct (ms_shape t) as [-> _]; first [apply Hb|apply Hb']).
      destruct (decide (b = b')) as [-> |]; [by rewrite decide_True|]. rewrite decide_False; [done|naive_solver].
    + rewrite decide_False by naive_solver. apply load_store_table; try done. by intros ?%ms_index_inj.
  - intros t M a v b HM Hb Hin. apply wide_in_heap in Hin. destruct (ms_index_lt t) as [Ht _].
    apply (load_below (ms_index t) _ _ b (a + 8)); [done|by apply mem_ok_store_bytes|done|by apply heap_block_range|done|].
    intros x Hx. unfold store_bytes. destruct (Z.ltb_spec x (a + Z.of_nat 8)); [lia|]. by rewrite andb_false_r.
  - intros t M a len b HM Hb Hin. apply wide_in_heap in Hin. destruct (ms_index_lt t) as [Ht _].
    apply (load_below (ms_index t) _ _ b (a + len)); [done|by apply mem_ok_set|done|by apply heap_block_range|done|].
    intros x Hx. unfold mem_zero, mem_set. destruct (Z.ltb_spec x (a + len)); [lia|]. by rewrite andb_false_r.
  - intros M a HM. by apply (load_bytes_range 8).
  - intros t M b v a HM Hb Hv Hin%wide_in_heap. apply load_bytes_ext. intros i Hi. rewrite <-Hw in Hv.
    apply store_below; [apply ms_index_lt|done|by apply heap_block_range|done|lia].
  - intros M a v HM Hv. rewrite load_store_same by done. by apply uwrap_id.
  - intros M a v a' Hd. by apply load_store_other.
  - intros M a len a' H1 H2. transitivity (load_bytes 8 (λ _, 0) a'); [|done]. apply load_bytes_ext. intros i Hi.
    unfold mem_zero, mem_set. destruct (Z.leb_spec a (a' + i)), (Z.ltb_spec (a' + i) (a + len)); simpl; (done || lia).
  - intros M a len a' Hd. apply load_bytes_ext. intros i Hi. unfold mem_zero, mem_set.
    destruct (Z.leb_spec a (a' + i)), (Z.ltb_spec (a' + i) (a + len)); simpl; (done || lia).
  - intros c (? & ? & ?). pose proof local_base_range. split_and!; (done || lia).
  - intros c1 c2 c (? & ? & ?) (? & ? & ?) ? ?. split_and!; (done || lia).
  - intros M c v HM Hc Hv. destruct (heap_chunk_range c Hc) as [_ Hc2]. by apply (store_updates chunk_spec chunk_spec_ok M c v HM Hc2).
  - intros M c c' v HM Hc Hc' Hv. apply load_store_region; try done; first [by apply heap_chunk_range|apply Hc|apply Hc'].
  - intros t M c v b HM Hc Hv Hb. destruct (ms_index_lt t) as [Ht Hne]. apply load_store_table; try done; first [by apply heap_chunk_range|by apply heap_block_range].
  - intros M c v a HM Hc Hv Hin%wide_in_heap. apply load_bytes_ext. intros i Hi.
    apply store_below; [done|done|by apply heap_chunk_range|done|lia].
  - intros t M b v c HM Hb Hv Hc. destruct (ms_index_lt t) as [Ht Hne]. rewrite <-Hw in Hv.
    apply load_store_table; try done; first [by apply heap_chunk_range|by apply heap_block_range].
  - intros M a v c HM Hin Hc. apply wide_in_heap in Hin.
    apply (load_below chunk_index _ _ c (a + 8)); [done|by apply mem_ok_store_bytes|done|by apply heap_chunk_range|done|].
    intros x Hx. unfold store_bytes. destruct (Z.ltb_spec x (a + Z.of_nat 8)); [lia|]. by rewrite andb_false_r.
  - intros M a len c HM Hin Hc. apply wide_in_heap in Hin.
    apply (load_below chunk_index _ _ c (a + len)); [done|by apply mem_ok_set|done|by apply heap_chunk_range|done|].
    intros x Hx. unfold mem_zero, mem_set. destruct (Z.ltb_spec x (a + len)); [lia|]. by rewrite andb_false_r.
Qed.
End instance.
