(* ===== verification/ChunkMap.v ===== *)
(** * The chunk map (src/src/util/heap/chunk_map.rs)

    A byte of side metadata says whether a chunk is in use; the map itself keeps a range
    that covers the chunks in use.  [RegionIterator] is that of src/src/util/linear_scan.rs.
    The state of a chunk is in a table that all maps share; this file has one map. *)

From S2P Require Import Prelude Conversions Memory SideMetadata SideMetadataBits SideMetadataOps SideMetadataSpecs Regions BlockTables.

(** ** linear_scan.rs: iterating *)

Section iterator.
Context (LOG_BYTES : Z).

(** [RegionIterator::next]: the region and the iterator after it. *)
Definition iterator_next (current end_ : Z) : option (Z * Z) :=
  if current <? end_ then Some (current, next LOG_BYTES current) else None.
Fixpoint iterate (fuel : nat) (current end_ : Z) : res (list Z) :=
  match iterator_next current end_ with
  | None => Val []
  | Some (ret, current) =>
    match fuel with
    | O => NoFuel
    | S fuel => l ← iterate fuel current end_; Val (ret :: l)
    end
  end.
(** [Region::iter_region] of a region of [LOG_SELF]. *)
Definition iter_region (fuel : nat) (LOG_SELF self : Z) : res (list Z) := iterate fuel self (region_end LOG_SELF self).
End iterator.

(** ** The map *)

Inductive ChunkState : Type := Free | Allocated.
#[export] Instance ChunkState_eq_dec : EqDecision ChunkState.
Proof. solve_decision. Defined.
Definition ChunkState_as_u8 (state : ChunkState) : Z := match state with Free => 0 | Allocated => 1 end.

Section chunk_map.
Context {S : Type} `{BlockMemory S}.

(** [chunk_range]: its start and its end; [Chunk::ZERO] is the empty range. *)
Definition ChunkMap : Type := Z * Z.
Definition Chunk_ZERO : Z := 0.
Definition ChunkMap_new : ChunkMap := (Chunk_ZERO, Chunk_ZERO).
Definition Chunk_next : Z → Z := next LOG_BYTES_IN_CHUNK.

Definition ChunkMap_get (s : S) (chunk : Z) : res ChunkState :=
  let byte := cload s chunk in
  if byte =? 0 then Val Free else if byte =? 1 then Val Allocated else Panic.

Definition ChunkMap_set (chunk_range : ChunkMap) (s : S) (chunk : Z) (state : ChunkState) : res (ChunkMap * S) :=
  old ← ChunkMap_get s chunk;
  if decide (old = state) then Val (chunk_range, s)
  else
    let s := cstore s chunk (ChunkState_as_u8 state) in
    if decide (state = Allocated)
    then
      let '(start, end_) := chunk_range in
      let chunk_range :=
        if start =? Chunk_ZERO then (chunk, Chunk_next chunk)
        else if chunk <? start then (chunk, end_)
        else if end_ <=? chunk then (start, Chunk_next chunk)
        else chunk_range in
      Val (chunk_range, s)
    else Val (chunk_range, s).

Definition all_chunks (fuel : nat) (chunk_range : ChunkMap) : res (list Z) :=
  iterate LOG_BYTES_IN_CHUNK fuel chunk_range.1 chunk_range.2.

(** The loop over the chunks that are allocated. *)
Fixpoint push_tasks {T} (func : Z → T) (s : S) (chunks : list Z) : res (list T) :=
  match chunks with
  | [] => Val []
  | chunk :: chunks =>
    state ← ChunkMap_get s chunk;
    work_packets ← push_tasks func s chunks;
    Val (if decide (state = Allocated) then func chunk :: work_packets else work_packets)
  end.
Definition generate_tasks {T} (fuel : nat) (chunk_range : ChunkMap) (s : S) (func : Z → T) : res (list T) :=
  chunks ← all_chunks fuel chunk_range;
  push_tasks func s chunks.

(** The loop over [(0..chunks).step_by(bin_size)]; a step of zero panics. *)
Fixpoint push_batches {T} (fuel : nat) (func : Z * Z → T) (start end_ bin_size i chunks : Z) : res (list T) :=
  if i <? chunks
  then
    match fuel with
    | O => NoFuel
    | Datatypes.S fuel =>
      let s := next_nth LOG_BYTES_IN_CHUNK start i in
      let e := next_nth LOG_BYTES_IN_CHUNK start (i +u bin_size) in
      let e := if end_ <? e then end_ else e in
      l ← push_batches fuel func start end_ bin_size (i +u bin_size) chunks;
      Val (func (s, e) :: l)
    end
  else Val [].
Definition generate_tasks_batched {T} (fuel : nat) (num_workers : Z) (chunk_range : ChunkMap) (func : Z * Z → T) : res (list T) :=
  let chunks := Z.shiftr (chunk_range.2 -u chunk_range.1) LOG_BYTES_IN_CHUNK in
  let num_bins := num_workers *u 8 in
  if num_bins =? 0 then Panic
  else
    let bin_size := (chunks +u num_bins -u 1) `div` num_bins in
    if bin_size =? 0 then Panic else push_batches fuel func chunk_range.1 chunk_range.2 bin_size 0 chunks.

(** Setting the states of chunks one after another. *)
Fixpoint set_all (ops : list (Z * ChunkState)) (chunk_range : ChunkMap) (s : S) : res (ChunkMap * S) :=
  match ops with
  | [] => Val (chunk_range, s)
  | (chunk, state) :: ops => '(chunk_range, s) ← ChunkMap_set chunk_range s chunk state; set_all ops chunk_range s
  end.
End chunk_map.

(** ** The chunks of a range *)

Definition chunk_list (start end_ : Z) : list Z :=
  (λ i : nat, start + Z.of_nat i * BYTES_IN_CHUNK) <$> seq 0 (Z.to_nat ((end_ - start) `div` BYTES_IN_CHUNK)).

Lemma chunk_list_n start n : chunk_list start (start + Z.of_nat n * BYTES_IN_CHUNK) = (λ i : nat, start + Z.of_nat i * BYTES_IN_CHUNK) <$> seq 0 n.
Proof.
  unfold chunk_list. do 2 f_equal. replace (start + _ - start) with (Z.of_nat n * BYTES_IN_CHUNK) by lia.
  rewrite Z.div_mul by done. lia.
Qed.
Lemma chunk_list_cons start n :
  chunk_list start (start + Z.of_nat (S n) * BYTES_IN_CHUNK) = start :: chunk_list (start + BYTES_IN_CHUNK) (start + BYTES_IN_CHUNK + Z.of_nat n * BYTES_IN_CHUNK).
Proof.
  rewrite !chunk_list_n. cbn [seq fmap list_fmap]. f_equal; [lia|]. rewrite <-seq_shift, <-list_fmap_compose.
  apply list_fmap_ext. intros i x _. unfold compose. lia.
Qed.
Lemma chunk_list_app start n m :
  chunk_list start (start + Z.of_nat (n + m) * BYTES_IN_CHUNK) =
  chunk_list start (start + Z.of_nat n * BYTES_IN_CHUNK) ++
  chunk_list (start + Z.of_nat n * BYTES_IN_CHUNK) (start + Z.of_nat n * BYTES_IN_CHUNK + Z.of_nat m * BYTES_IN_CHUNK).
Proof.
  rewrite !chunk_list_n, seq_app, fmap_app. f_equal. rewrite Nat.add_0_l, <-(Nat.add_0_r n) at 1. rewrite <-fmap_add_seq, <-list_fmap_compose.
  apply list_fmap_ext. intros i x _. unfold compose. lia.
Qed.
Lemma chunk_list_elem start n c :
  c ∈ chunk_list start (start + Z.of_nat n * BYTES_IN_CHUNK) ↔ ∃ i, (i < n)%nat ∧ c = start + Z.of_nat i * BYTES_IN_CHUNK.
Proof. rewrite chunk_list_n, list_elem_of_fmap. setoid_rewrite elem_of_seq. split; intros (i & ? & ?); exists i; split; (done || lia). Qed.
Lemma chunk_list_sorted start n : StronglySorted Z.lt (chunk_list start (start + Z.of_nat n * BYTES_IN_CHUNK)).
Proof.
  revert start. induction n as [|n IH]; intros start; [rewrite chunk_list_n; constructor|]. rewrite chunk_list_cons.
  constructor; [apply IH|]. apply Forall_forall. intros c (i & _ & ->)%chunk_list_elem. change BYTES_IN_CHUNK with 4194304. lia.
Qed.

Lemma Chunk_next_eq c : 0 ≤ c < 2 ^ 47 → Chunk_next c = c + BYTES_IN_CHUNK.
Proof. intros Hc. unfold Chunk_next. rewrite next_eq; [done|unfold LOG_BYTES_IN_CHUNK; lia..]. Qed.

Lemma iterate_chunks fuel start n :
  0 ≤ start → start + Z.of_nat n * BYTES_IN_CHUNK < 2 ^ 47 → (n ≤ fuel)%nat →
  iterate LOG_BYTES_IN_CHUNK fuel start (start + Z.of_nat n * BYTES_IN_CHUNK) = Val (chunk_list start (start + Z.of_nat n * BYTES_IN_CHUNK)).
Proof.
  change BYTES_IN_CHUNK with 4194304. revert fuel start. induction n as [|n IH]; intros fuel start H0 H1 Hf.
  - rewrite chunk_list_n. destruct fuel; cbn [iterate]; unfold iterator_next; rewrite (proj2 (Z.ltb_ge _ _)) by lia; done.
  - destruct fuel as [|fuel]; [lia|]. rewrite chunk_list_cons. cbn [iterate]. unfold iterator_next.
    rewrite (proj2 (Z.ltb_lt _ _)) by lia. change (next LOG_BYTES_IN_CHUNK start) with (Chunk_next start). rewrite Chunk_next_eq by lia.
    change BYTES_IN_CHUNK with 4194304 in *.
    replace (start + Z.of_nat (S n) * 4194304) with (start + 4194304 + Z.of_nat n * 4194304) by lia.
    rewrite (IH fuel) by lia. done.
Qed.

(** ** The range covers the chunks in use *)

Section specs.
Context {S : Type} `{BlockMemoryLaws S}.
Implicit Types s : S.

(** The range of the map: empty, or from one chunk to after another. *)
Definition range_ok (st : Z → ChunkState) (r : ChunkMap) : Prop :=
  (r = ChunkMap_new ∧ ∀ c, chunk_ok c → st c = Free) ∨
  (∃ c n, chunk_ok c ∧ chunk_ok (c + Z.of_nat n * BYTES_IN_CHUNK) ∧ r = (c, c + Z.of_nat (Datatypes.S n) * BYTES_IN_CHUNK) ∧
     ∀ c', chunk_ok c' → st c' = Allocated → c ≤ c' ≤ c + Z.of_nat n * BYTES_IN_CHUNK).
Record cm_inv (st : Z → ChunkState) (r : ChunkMap) s : Prop := {
  cm_ok : bm_ok s;
  cm_bytes : ∀ c, chunk_ok c → cload s c = ChunkState_as_u8 (st c);
  cm_range : range_ok st r
}.

Lemma get_spec st r s c : cm_inv st r s → chunk_ok c → ChunkMap_get s c = Val (st c).
Proof. intros HI Hc. unfold ChunkMap_get. rewrite (cm_bytes _ _ _ HI c Hc). by destruct (st c). Qed.

Lemma chunk_ok_mult c1 c2 : chunk_ok c1 → chunk_ok c2 → c1 ≤ c2 → ∃ n : nat, c2 = c1 + Z.of_nat n * BYTES_IN_CHUNK.
Proof.
  intros H1 H2 Hle. destruct (chunk_range c1 H1) as (_ & [q1 ->] & _), (chunk_range c2 H2) as (_ & [q2 ->] & _).
  change BYTES_IN_CHUNK with 4194304 in *. exists (Z.to_nat (q2 - q1)). lia.
Qed.

(** The range after a chunk is put to use. *)
Lemma range_grows st r c :
  range_ok st r → chunk_ok c →
  range_ok (<[c := Allocated]> st)
    (let '(start, end_) := r in
     if start =? Chunk_ZERO then (c, Chunk_next c) else if c <? start then (c, end_)
     else if end_ <=? c then (start, Chunk_next c) else r).
Proof.
  intros Hr Hc. destruct (chunk_range c Hc) as (C1 & _ & C2). rewrite Chunk_next_eq by (change BYTES_IN_CHUNK with 4194304 in *; lia).
  assert (∀ c', chunk_ok c' → (<[c := Allocated]> st) c' = Allocated → c' = c ∨ st c' = Allocated) as Hst.
  { intros c' _. destruct (decide (c' = c)) as [-> |]; [by left|]. rewrite fn_lookup_insert_ne by done. by right. }
  destruct Hr as [[-> Hr]|(c0 & n & Hc0 & Hcn & -> & Hr)]; right.
  - exists c, 0%nat. replace (c + Z.of_nat 0 * BYTES_IN_CHUNK) with c by lia. split_and!; [done..|cbn; f_equal; lia|].
    intros c' Hc' [-> |E]%Hst; [lia|by rewrite Hr in E|done].
  - destruct (chunk_range c0 Hc0) as (D1 & _ & _). destruct (Z.eqb_spec c0 Chunk_ZERO); [unfold Chunk_ZERO in *; lia|].
    destruct (Z.ltb_spec c c0) as [Hlt|Hge]; [|destruct (Z.leb_spec (c0 + Z.of_nat (Datatypes.S n) * BYTES_IN_CHUNK) c) as [Hle|Hin]].
    + destruct (chunk_ok_mult c c0 Hc Hc0 ltac:(lia)) as [k Ek]. exists c, (k + n)%nat.
      change BYTES_IN_CHUNK with 4194304 in *. replace (c + Z.of_nat (k + n) * 4194304) with (c0 + Z.of_nat n * 4194304) by lia.
      split_and!; [done..|f_equal; lia|]. intros c' Hc' [-> |E]%Hst; [lia| |done]. pose proof (Hr c' Hc' E). lia.
    + destruct (chunk_ok_mult c0 c Hc0 Hc ltac:(lia)) as [k Ek]. exists c0, k. change BYTES_IN_CHUNK with 4194304 in *. rewrite <-Ek.
      split_and!; [done..|f_equal; lia|]. intros c' Hc' [-> |E]%Hst; [lia| |done]. pose proof (Hr c' Hc' E). lia.
    + exists c0, n. split_and!; [done..|]. intros c' Hc' [-> |E]%Hst; [|by apply Hr|done].
      split; [done|]. destruct (decide (c ≤ c0 + Z.of_nat n * BYTES_IN_CHUNK)) as [|Hgt]; [done|].
      destruct (chunk_ok_mult (c0 + Z.of_nat n * BYTES_IN_CHUNK) c Hcn Hc ltac:(lia)) as [k Ek].
      change BYTES_IN_CHUNK with 4194304 in *. lia.
Qed.

(** What a store to the map keeps. *)
Record outside_map s s' : Prop := {
  om_tables : ∀ t b, block_ok b → tload t s' b = tload t s b;
  om_words : ∀ x, in_block x 8 → wload s' x = wload s x;
  om_stores : stores s s'
}.

Lemma set_spec st r s c state :
  cm_inv st r s → chunk_ok c →
  ∃ r' s', ChunkMap_set r s c state = Val (r', s') ∧ cm_inv (<[c := state]> st) r' s' ∧ outside_map s s'.
Proof.
  intros HI Hc. unfold ChunkMap_set. rewrite (get_spec st r s c HI Hc). cbn [mbind res_bind]. case_decide as Hs.
  - exists r, s. split; [done|]. split; [|by split; [| |constructor]].
    assert (∀ c', (<[c := state]> st) c' = st c') as E.
    { intros c'. destruct (decide (c' = c)) as [-> |]; [by rewrite fn_lookup_insert|by rewrite fn_lookup_insert_ne]. }
    destruct HI as [I1 I2 I3]. split; [done|intros; rewrite E; by apply I2|].
    destruct I3 as [[-> I3]|(c0 & n & ? & ? & ? & I3)]; [left|right; exists c0, n; split_and!; [done..|]].
    + split; [done|]. intros. rewrite E. by apply I3.
    + intros c'. rewrite E. apply I3.
  - assert (is_u 8 (ChunkState_as_u8 state)) as Hu by (destruct state; by vm_compute). destruct HI as [I1 I2 I3].
    assert (outside_map s (cstore s c (ChunkState_as_u8 state))) as Hout.
    { split; [intros; by apply tload_cstore|intros; by apply wload_cstore|constructor; [constructor|done..]]. }
    assert (∀ c', chunk_ok c' → cload (cstore s c (ChunkState_as_u8 state)) c' = ChunkState_as_u8 ((<[c := state]> st) c')) as Hb.
    { intros c' Hc'. rewrite cload_cstore by done. case_decide as Hd; [subst; by rewrite fn_lookup_insert|].
      rewrite fn_lookup_insert_ne by done. by apply I2. }
    case_decide as Ha.
    + subst state. pose proof (range_grows st r c I3 Hc) as Hr. destruct r as [start end_].
      eexists _, _. split; [reflexivity|]. split; [|done]. split; [by apply cstore_ok|done|exact Hr].
    + exists r, (cstore s c (ChunkState_as_u8 state)). split; [done|]. split; [|done]. split; [by apply cstore_ok|done|].
      assert (∀ c', (<[c := state]> st) c' = Allocated → st c' = Allocated) as E.
      { intros c'. destruct (decide (c' = c)) as [-> |]; [rewrite fn_lookup_insert; naive_solver|by rewrite fn_lookup_insert_ne]. }
      destruct I3 as [[-> I3]|(c0 & n & ? & ? & ? & I3)]; [left|right; exists c0, n; split_and!; [done..|]; naive_solver].
      split; [done|]. intros c' Hc'. destruct (decide (c' = c)) as [-> |]; [rewrite fn_lookup_insert; by destruct state|].
      rewrite fn_lookup_insert_ne by done. by apply I3.
Qed.

(** The states after some operations. *)
Definition states_after (ops : list (Z * ChunkState)) (st : Z → ChunkState) : Z → ChunkState :=
  fold_left (λ st op, <[op.1 := op.2]> st) ops st.

Lemma set_all_spec ops st r s :
  cm_inv st r s → Forall (λ op, chunk_ok op.1) ops →
  ∃ r' s', set_all ops r s = Val (r', s') ∧ cm_inv (states_after ops st) r' s' ∧ outside_map s s'.
Proof.
  revert st r s. induction ops as [|[c state] ops IH]; intros st r s HI Ho; [exists r, s; split; [done|]; split; [done|]; by split; [| |constructor]|].
  apply Forall_cons in Ho as [Hc Ho]. cbn [set_all]. destruct (set_spec st r s c state HI Hc) as (r1 & s1 & -> & HI1 & [F1 F2 F3]).
  cbn [mbind res_bind]. destruct (IH _ r1 s1 HI1 Ho) as (r2 & s2 & -> & HI2 & [G1 G2 G3]). exists r2, s2.
  split; [done|]. split; [done|]. split; [intros; rewrite G1 by done; by apply F1|intros; rewrite G2 by done; by apply F2|by eapply stores_trans].
Qed.

Lemma push_tasks_spec {T} (func : Z → T) st r s l :
  cm_inv st r s → Forall chunk_ok l →
  push_tasks func s l = Val (func <$> List.filter (λ c, bool_decide (st c = Allocated)) l).
Proof.
  intros HI. induction l as [|c l IH]; intros Hl; [done|]. apply Forall_cons in Hl as [Hc Hl]. cbn [push_tasks List.filter].
  rewrite (get_spec st r s c HI Hc). cbn [mbind res_bind]. rewrite (IH Hl). cbn [mbind res_bind].
  rewrite bool_decide_decide. by case_decide.
Qed.

Lemma filter_sorted (p : Z → bool) l : StronglySorted Z.lt l → StronglySorted Z.lt (List.filter p l).
Proof.
  induction 1 as [|x l Hl IH Hx]; [constructor|]. cbn [List.filter]. destruct (p x); [|done]. constructor; [done|].
  rewrite Forall_forall in *. intros y [Hy _]%list_elem_of_In%filter_In. by apply Hx, list_elem_of_In.
Qed.

(** The number of chunks of the range. *)
Definition chunks_of (r : ChunkMap) : Z := (r.2 - r.1) `div` BYTES_IN_CHUNK.

Lemma generate_spec {T} (func : Z → T) fuel st r s :
  cm_inv st r s → chunks_of r ≤ Z.of_nat fuel →
  ∃ l, generate_tasks fuel r s func = Val (func <$> l) ∧ StronglySorted Z.lt l ∧ ∀ c, c ∈ l ↔ chunk_ok c ∧ st c = Allocated.
Proof.
  intros HI Hf. unfold generate_tasks, all_chunks. destruct (cm_range _ _ _ HI) as [[-> Hr]|(c0 & n & Hc0 & Hcn & -> & Hr)].
  - exists []. split; [by destruct fuel|]. split; [constructor|]. intros c. split; [by intros ?%not_elem_of_nil|].
    intros [Hc E]. by rewrite Hr in E.
  - destruct (chunk_range c0 Hc0) as (D1 & D2 & _), (chunk_range _ Hcn) as (_ & _ & D3).
    unfold chunks_of in Hf. cbn [fst snd] in *.
    replace (c0 + Z.of_nat (Datatypes.S n) * BYTES_IN_CHUNK - c0) with (Z.of_nat (Datatypes.S n) * BYTES_IN_CHUNK) in Hf by lia.
    rewrite Z.div_mul in Hf by done.
    rewrite iterate_chunks by (first [change BYTES_IN_CHUNK with 4194304 in *; lia]). cbn [mbind res_bind].
    set (l := chunk_list _ _).
    assert (∀ c, c ∈ l ↔ ∃ i, (i < Datatypes.S n)%nat ∧ c = c0 + Z.of_nat i * BYTES_IN_CHUNK) as El by (intros; apply chunk_list_elem).
    assert (Forall chunk_ok l) as Hl.
    { apply Forall_forall. intros c (i & Hi & ->)%El. apply (chunk_between c0 (c0 + Z.of_nat n * BYTES_IN_CHUNK)); [done..| |].
      - apply Z.divide_add_r; [done|by exists (Z.of_nat i)].
      - change BYTES_IN_CHUNK with 4194304. lia. }
    rewrite (push_tasks_spec func st _ s l HI Hl). eexists. split; [reflexivity|]. split; [apply filter_sorted, chunk_list_sorted|].
    intros c. rewrite list_elem_of_In, filter_In, <-list_elem_of_In, bool_decide_eq_true. rewrite Forall_forall in Hl.
    split; [intros [? ?]; split; [by apply Hl|done]|]. intros [Hc E]. split; [|done]. apply El.
    pose proof (Hr c Hc E) as Hb. destruct (chunk_ok_mult c0 c Hc0 Hc ltac:(lia)) as [i ->]. exists i.
    change BYTES_IN_CHUNK with 4194304 in *. split; [lia|done].
Qed.

(** The batches: consecutive ranges of whole chunks. *)
Lemma push_batches_spec {T} (func : Z * Z → T) start n bin fuel (i : nat) :
  0 ≤ start → start + Z.of_nat n * BYTES_IN_CHUNK < 2 ^ 47 → 0 < bin < 2 ^ 32 → (i ≤ n)%nat → (n - i ≤ fuel)%nat →
  ∃ l, push_batches fuel func start (start + Z.of_nat n * BYTES_IN_CHUNK) bin (Z.of_nat i) (Z.of_nat n) = Val (func <$> l) ∧
    Forall (λ '(s, e), s < e) l ∧ (Z.of_nat (length l) - 1) * bin < Z.of_nat (n - i) ∧
    concat ((λ '(s, e), chunk_list s e) <$> l) =
      chunk_list (start + Z.of_nat i * BYTES_IN_CHUNK) (start + Z.of_nat i * BYTES_IN_CHUNK + Z.of_nat (n - i) * BYTES_IN_CHUNK).
Proof.
  intros Hlo Hhi Hbin. revert i. induction fuel as [|fuel IH]; intros i Hi Hf; cbn [push_batches];
    (destruct (Z.ltb_spec (Z.of_nat i) (Z.of_nat n)) as [Hlt|Hge];
     [|exists []; replace (n - i)%nat with 0%nat by lia; rewrite chunk_list_n; split_and!; [done|done|cbn; lia|done]]); [lia|].
  change BYTES_IN_CHUNK with (2 ^ 22) in *. change LOG_BYTES_IN_CHUNK with 22.
  rewrite uadd_id by lia. rewrite !next_nth_eq by lia.
  set (e := if start + Z.of_nat n * 2 ^ 22 <? start + (Z.of_nat i + bin) * 2 ^ 22 then start + Z.of_nat n * 2 ^ 22 else start + (Z.of_nat i + bin) * 2 ^ 22).
  set (j := Nat.min n (i + Z.to_nat bin)). assert (e = start + Z.of_nat j * 2 ^ 22) as He.
  { unfold e, j. destruct (Z.ltb_spec (start + Z.of_nat n * 2 ^ 22) (start + (Z.of_nat i + bin) * 2 ^ 22)); lia. }
  assert (∃ l, push_batches fuel func start (start + Z.of_nat n * 2 ^ 22) bin (Z.of_nat i + bin) (Z.of_nat n) = Val (func <$> l) ∧
    Forall (λ '(s, e), s < e) l ∧ (Z.of_nat (length l) - 1) * bin < Z.of_nat (n - j) ∧
    concat ((λ '(s, e), chunk_list s e) <$> l) =
      chunk_list (start + Z.of_nat j * 2 ^ 22) (start + Z.of_nat j * 2 ^ 22 + Z.of_nat (n - j) * 2 ^ 22)) as (l & -> & L1 & L2 & L3).
  { destruct (decide (Z.of_nat i + bin ≤ Z.of_nat n)).
    - replace (Z.of_nat i + bin) with (Z.of_nat j) by lia. apply IH; lia.
    - exists []. replace (n - j)%nat with 0%nat by lia. split_and!; [|done|cbn; lia|by rewrite (chunk_list_n _ 0)].
      destruct fuel; cbn [push_batches]; by rewrite (proj2 (Z.ltb_ge _ _)) by lia. }
  exists ((start + Z.of_nat i * 2 ^ 22, e) :: l). split; [done|]. split; [constructor; [lia|done]|]. split.
  - cbn [length]. destruct l as [|x l]; [cbn [length] in *; lia|]. assert (j = (i + Z.to_nat bin)%nat) by (destruct (decide (n < i + Z.to_nat bin)%nat); [|lia]; cbn [length] in L2; nia).
    nia.
  - cbn [fmap list_fmap concat]. rewrite L3, He. replace (n - i)%nat with ((j - i) + (n - j))%nat by lia.
    change (2 ^ 22) with BYTES_IN_CHUNK. rewrite chunk_list_app.
    replace (start + Z.of_nat i * BYTES_IN_CHUNK + Z.of_nat (j - i) * BYTES_IN_CHUNK) with (start + Z.of_nat j * BYTES_IN_CHUNK) by lia. done.
Qed.

(** A whole range in batches for some workers. *)
Definition batches (r : ChunkMap) (workers : Z) (l : list (Z * Z)) : Prop :=
  Forall (λ '(s, e), s < e) l ∧ Z.of_nat (length l) ≤ workers * 8 ∧
  concat ((λ '(s, e), chunk_list s e) <$> l) = chunk_list r.1 r.2.

Lemma batched_spec {T} (func : Z * Z → T) fuel workers st r s :
  cm_inv st r s → r ≠ ChunkMap_new → chunks_of r ≤ Z.of_nat fuel → 0 < workers < 2 ^ 20 →
  ∃ l, generate_tasks_batched fuel workers r func = Val (func <$> l) ∧ batches r workers l.
Proof.
  intros HI Hne Hf Hw. destruct (cm_range _ _ _ HI) as [[-> _]|(c0 & n & Hc0 & Hcn & -> & _)]; [done|].
  destruct (chunk_range c0 Hc0) as (D1 & D2 & _), (chunk_range _ Hcn) as (_ & _ & D3).
  unfold generate_tasks_batched, batches, chunks_of in *. cbn [fst snd] in *.
  replace (c0 + Z.of_nat (Datatypes.S n) * BYTES_IN_CHUNK - c0) with (Z.of_nat (Datatypes.S n) * BYTES_IN_CHUNK) in Hf by lia.
  rewrite Z.div_mul in Hf by done. set (k := Datatypes.S n) in *.
  assert (0 < Z.of_nat k < 2 ^ 25) as Hk by (change BYTES_IN_CHUNK with (2 ^ 22) in *; lia).
  assert (Z.shiftr ((c0 + Z.of_nat k * BYTES_IN_CHUNK) -u c0) LOG_BYTES_IN_CHUNK = Z.of_nat k) as ->.
  { rewrite usub_id by (change BYTES_IN_CHUNK with (2 ^ 22); lia). rewrite shiftr_div by done.
    replace (c0 + Z.of_nat k * BYTES_IN_CHUNK - c0) with (Z.of_nat k * 2 ^ 22) by (change BYTES_IN_CHUNK with (2 ^ 22); lia). by apply Z.div_mul. }
  unfold umul. rewrite uwrap_id by lia. destruct (Z.eqb_spec (workers * 8) 0); [lia|].
  rewrite uadd_id, usub_id by lia. set (bin := (Z.of_nat k + workers * 8 - 1) `div` (workers * 8)).
  assert (0 < bin ∧ bin ≤ Z.of_nat k ∧ Z.of_nat k ≤ bin * (workers * 8)) as (B1 & B2 & B3).
  { unfold bin. pose proof (Z.mul_div_le (Z.of_nat k + workers * 8 - 1) (workers * 8) ltac:(lia)).
    pose proof (Z.mul_succ_div_gt (Z.of_nat k + workers * 8 - 1) (workers * 8) ltac:(lia)).
    split_and!; [apply Z.div_str_pos; lia|apply Z.div_le_upper_bound; nia|nia]. }
  destruct (Z.eqb_spec bin 0); [lia|].
  destruct (push_batches_spec func c0 k bin fuel 0) as (l & E & L1 & L2 & L3); [lia|change BYTES_IN_CHUNK with (2 ^ 22) in *; lia|lia..|].
  exists l. split; [exact E|]. split; [done|]. split.
  - rewrite Nat.sub_0_r in L2. nia.
  - rewrite L3, Nat.sub_0_r. by replace (c0 + Z.of_nat 0 * BYTES_IN_CHUNK) with c0 by lia.
Qed.
(** A map that never held a chunk cannot be split into batches: the step of the loop is
    zero. *)
Lemma empty_map_batches {T} fuel workers (func : Z * Z → T) :
  0 < workers < 2 ^ 20 → generate_tasks_batched fuel workers ChunkMap_new func = Panic.
Proof.
  intros Hw. unfold generate_tasks_batched. cbn [fst snd ChunkMap_new]. change (Z.shiftr (Chunk_ZERO -u Chunk_ZERO) LOG_BYTES_IN_CHUNK) with 0.
  unfold umul. rewrite uwrap_id by lia. destruct (Z.eqb_spec (workers * 8) 0); [lia|].
  rewrite uadd_id, usub_id by lia. by rewrite Z.div_small by lia.
Qed.

(** The range stays empty exactly while no chunk is put to use. *)
Lemma set_new st r s c state r1 s1 : cm_inv st r s → chunk_ok c → ChunkMap_set r s c state = Val (r1, s1) →
  r1 = ChunkMap_new ↔ r = ChunkMap_new ∧ state ≠ Allocated.
Proof.
  intros HI Hc. destruct (chunk_range c Hc) as (Hpos & _). unfold ChunkMap_set. rewrite (get_spec st r s c HI Hc). cbn [mbind res_bind]. case_decide as Hold.
  - intros [= <- _]. split; [|by intros [? _]]. intros ->. split; [done|]. intros Ha. destruct (cm_range _ _ _ HI) as [[_ Hfree]|(c0 & n & Hc0 & _ & E & _)].
    + specialize (Hfree c Hc). congruence.
    + destruct (chunk_range c0 Hc0) as (? & _). injection E as E _. change Chunk_ZERO with 0 in *. lia.
  - case_decide as Ha; [|by intros [= <- _]; naive_solver]. destruct r as [start end_]. intros [= <- _]. split; [|by intros [_ ?]]. unfold ChunkMap_new. change Chunk_ZERO with 0.
    destruct (Z.eqb_spec start 0); [intros [= ? ?]; lia|]. destruct (c <? start); [intros [= ? ?]; lia|]. destruct (end_ <=? c); intros [= ? ?]; lia.
Qed.
Lemma set_all_new ops st r s r' s' : cm_inv st r s → Forall (λ op, chunk_ok op.1) ops → set_all ops r s = Val (r', s') →
  r' = ChunkMap_new ↔ r = ChunkMap_new ∧ Forall (λ op, op.2 ≠ Allocated) ops.
Proof.
  revert st r s. induction ops as [|[c state] ops IH]; intros st r s HI Ho E; [injection E as <- _; naive_solver|].
  apply Forall_cons in Ho as [Hc Ho]. cbn [set_all] in E. destruct (set_spec st r s c state HI Hc) as (r1 & s1 & E1 & HI1 & _). rewrite E1 in E. cbn [mbind res_bind] in E.
  rewrite (IH _ _ _ HI1 Ho E), (set_new _ _ _ _ _ _ _ HI Hc E1), Forall_cons. tauto.
Qed.
End specs.

Section theorems.
Context (f : features) (asan : bool).
#[local] Instance cm_memory : BlockMemory mem := mem_blocks f asan.

(** What the map tells after its states were set to [st]. *)
Record tracks (st : Z → ChunkState) (r : ChunkMap) (M : mem) : Prop := {
  tr_get : ∀ c, heap_chunk asan c → ChunkMap_get M c = Val (st c);
  tr_tasks : ∀ T (func : Z → T) fuel, chunks_of r ≤ Z.of_nat fuel →
    ∃ l, generate_tasks fuel r M func = Val (func <$> l) ∧ StronglySorted Z.lt l ∧
      ∀ c, c ∈ l ↔ heap_chunk asan c ∧ st c = Allocated;
  tr_batches : ∀ T (func : Z * Z → T) fuel workers, chunks_of r ≤ Z.of_nat fuel → 0 < workers < 2 ^ 20 → r ≠ ChunkMap_new →
    ∃ l, generate_tasks_batched fuel workers r func = Val (func <$> l) ∧ batches r workers l;
  tr_empty : ∀ T (func : Z * Z → T) fuel workers, 0 < workers < 2 ^ 20 → r = ChunkMap_new → generate_tasks_batched fuel workers r func = Panic
}.

(** C35: the chunk map tracks the chunks in use.  From a new map over a table of zeros, any
    sequence of [set] on chunks of the heap succeeds; then [get] returns the last state that was
    set, and [generate_tasks] makes exactly one task for each chunk whose last state is
    allocated, in address order.  If some chunk was ever set to allocated, the batches split the
    range of the map into consecutive non-empty ranges, at most eight for each worker; if none
    was, making batches panics. *)
Theorem chunk_map_tracks (ops : list (Z * ChunkState)) (M : mem) :
  f ∈ all_features → mem_ok M → (∀ c, heap_chunk asan c → load (chunk_spec f asan) M c = 0) →
  Forall (λ op, heap_chunk asan op.1) ops →
  ∃ r M', set_all ops ChunkMap_new M = Val (r, M') ∧ tracks (states_after ops (λ _, Free)) r M' ∧ (r = ChunkMap_new ↔ Forall (λ op, op.2 ≠ Allocated) ops).
Proof.
  intros Hf HM HZ Ho. pose proof (mem_blocks_laws f asan Hf) as HL.
  assert (cm_inv (λ _, Free) ChunkMap_new M) as HI by (split; [done|done|by left]).
  destruct (set_all_spec ops _ _ _ HI Ho) as (r & M' & E & HI' & _). exists r, M'. split; [done|].
  split; [|rewrite (set_all_new _ _ _ _ _ _ HI Ho E); naive_solver]. split.
  - intros c Hc. by apply (get_spec _ r).
  - intros T func fuel Hfu. exact (generate_spec func fuel _ r M' HI' Hfu).
  - intros T func fuel workers Hfu Hw Hne. by eapply batched_spec.
  - intros T func fuel workers Hw ->. by apply empty_map_batches.
Qed.
End theorems.

(** The table of the initial memory. *)
Lemma zero_chunks c : heap_chunk false c → load (chunk_spec default_features false) (λ _, 0) c = 0.
Proof.
  intros Hc. apply Z.bits_inj'. intros i Hi.
  rewrite testbit_load; [|apply chunk_spec_ok, (list_elem_of_lookup_2 _ 486); by vm_compute|intros a; unfold is_u; lia|by apply (heap_chunk_range false)|done].
  unfold membit. by rewrite !Z.bits_0, andb_false_r.
Qed.

(** Three chunks are put to use, and the middle one is released. *)
Definition sample_sets : list (Z * ChunkState) :=
  [(0x20000800000, Allocated); (0x20000400000, Allocated); (0x20001000000, Allocated); (0x20000800000, Free)].
Lemma sample_chunk k : 0 < k < 0x90000 → heap_chunk false (4194304 * k).
Proof.
  intros Hk. split; [lia|]. split; [exists k; change BYTES_IN_CHUNK with 4194304; lia|].
  transitivity (4194304 * 0x90001); [change BYTES_IN_CHUNK with 4194304; lia|by vm_compute].
Qed.
Lemma chunk_map_tracks_witness :
  ∃ r M', @set_all mem (mem_blocks default_features false) sample_sets ChunkMap_new (λ _, 0) = Val (r, M') ∧
    tracks default_features false (states_after sample_sets (λ _, Free)) r M' ∧ (r = ChunkMap_new ↔ Forall (λ op, op.2 ≠ Allocated) sample_sets).
Proof.
  apply (chunk_map_tracks default_features false).
  - apply (list_elem_of_lookup_2 _ 486). by vm_compute.
  - intros a. unfold is_u. lia.
  - apply zero_chunks.
  - apply Forall_cons_2; [by apply (sample_chunk 0x80002)|]. apply Forall_cons_2; [by apply (sample_chunk 0x80001)|].
    apply Forall_cons_2; [by apply (sample_chunk 0x80004)|]. apply Forall_cons_2; [by apply (sample_chunk 0x80002)|]. apply Forall_nil_2.
Defined.
