(* ===== verification/BlockList.v ===== *)
(** * Lists of mark-sweep blocks
    (src/src/policy/marksweepspace/native_ms/block_list.rs and the list operations of
    block.rs, global.rs and src/src/util/alloc/free_list_allocator.rs)

    A [BlockList] holds the first and the last block of a doubly linked list whose links
    are in the metadata of the blocks.  The lists live at addresses, which the blocks
    record too.  The debug assertions are left out. *)

From S2P Require Import Prelude BlockTables.

(** ** block.rs: the links of a block *)

Section links.
Context {S : Type} `{BlockMemory S}.

(** [NonZeroUsize::new]. *)
Definition NonZero_new (v : Z) : option Z := if v =? 0 then None else Some v.

Definition load_prev_block (s : S) (b : Z) : option Z := NonZero_new (tload PREV_BLOCK_TABLE s b).
Definition load_next_block (s : S) (b : Z) : option Z := NonZero_new (tload NEXT_BLOCK_TABLE s b).
Definition store_next_block (s : S) (b next : Z) : S := tstore NEXT_BLOCK_TABLE s b next.
Definition clear_next_block (s : S) (b : Z) : S := tstore NEXT_BLOCK_TABLE s b 0.
Definition store_prev_block (s : S) (b prev : Z) : S := tstore PREV_BLOCK_TABLE s b prev.
Definition clear_prev_block (s : S) (b : Z) : S := tstore PREV_BLOCK_TABLE s b 0.
Definition store_block_list (s : S) (b block_list : Z) : S := tstore BLOCK_LIST_TABLE s b block_list.
Definition load_block_list (s : S) (b : Z) : Z := tload BLOCK_LIST_TABLE s b.
Definition load_free_list (s : S) (b : Z) : Z := tload FREE_LIST_TABLE s b.
Definition store_free_list (s : S) (b free_list : Z) : S := tstore FREE_LIST_TABLE s b free_list.
Definition has_free_cells (s : S) (b : Z) : bool := negb (load_free_list s b =? 0).

(** ** block_list.rs *)

Record BlockList : Type := { first : option Z; last_block : option Z; bl_size : Z; bl_lock : bool }.
Definition with_ends (f l : option Z) (bl : BlockList) : BlockList :=
  {| first := f; last_block := l; bl_size := bl_size bl; bl_lock := bl_lock bl |}.

Definition BlockList_new (size : Z) : BlockList := {| first := None; last_block := None; bl_size := size; bl_lock := false |}.
Definition bl_is_empty (self : BlockList) : bool := match first self with None => true | Some _ => false end.

(** [self] is the address of the list. *)
Definition bl_remove (self block : Z) (bl : BlockList) (s : S) : BlockList * S :=
  match load_prev_block s block, load_next_block s block with
  | None, None => (with_ends None None bl, s)
  | None, Some next =>
    let s := clear_prev_block s next in
    let s := store_block_list s next self in
    (with_ends (Some next) (last_block bl) bl, s)
  | Some prev, None =>
    let s := clear_next_block s prev in
    let s := store_block_list s prev self in
    (with_ends (first bl) (Some prev) bl, s)
  | Some prev, Some next =>
    let s := store_next_block s prev next in
    let s := store_prev_block s next prev in
    (bl, s)
  end.

Definition bl_pop (self : Z) (bl : BlockList) (s : S) : option Z * BlockList * S :=
  match first bl with
  | Some head =>
    let '(bl, s) :=
      match load_next_block s head with
      | Some next =>
        let s := clear_prev_block s next in
        let s := store_block_list s next self in
        (with_ends (Some next) (last_block bl) bl, s)
      | None => (with_ends None None bl, s)
      end in
    let s := clear_next_block s head in
    let s := clear_prev_block s head in
    (Some head, bl, s)
  | None => (None, bl, s)
  end.

Definition bl_push (self block : Z) (bl : BlockList) (s : S) : BlockList * S :=
  let '(bl, s) :=
    match first bl with
    | None =>
      let s := clear_next_block s block in
      let s := clear_prev_block s block in
      (with_ends (Some block) (Some block) bl, s)
    | Some self_head =>
      let s := store_next_block s block self_head in
      let s := store_prev_block s self_head block in
      let s := clear_prev_block s block in
      (with_ends (Some block) (last_block bl) bl, s)
    end in
  (bl, store_block_list s block self).

Definition bl_reset (bl : BlockList) : BlockList := with_ends None None bl.

(** The loop that records the new list in the blocks of the other list. *)
Fixpoint store_lists (fuel : nat) (self : Z) (cursor : option Z) (s : S) : res S :=
  match cursor with
  | None => Val s
  | Some block =>
    match fuel with
    | O => NoFuel
    | Datatypes.S fuel =>
      let s := store_block_list s block self in
      store_lists fuel self (load_next_block s block) s
    end
  end.

Definition bl_append (fuel : nat) (self : Z) (bl other : BlockList) (s : S) : res (BlockList * BlockList * S) :=
  match first other with
  | None => Val (bl, other, s)
  | Some other_head =>
    '(bl, s) ←
      match first bl with
      | None => Val (with_ends (first other) (last_block other) bl, s)
      | Some _ =>
        self_tail ← unwrap (last_block bl);
        let s := store_next_block s self_tail other_head in
        let s := store_prev_block s other_head self_tail in
        Val (with_ends (first bl) (last_block other) bl, s)
      end;
    s ← store_lists fuel self (first other) s;
    Val (bl, bl_reset other, s)
  end.

(** [BlockListIterator::next]: the block, and the cursor after it. *)
Definition bl_iter (bl : BlockList) : option Z := first bl.
Definition iter_next (s : S) (cursor : option Z) : option Z * option Z :=
  (cursor, match cursor with Some cur => load_next_block s cur | None => cursor end).

(** ** global.rs and free_list_allocator.rs: walking lists *)

(** [AbandonedBlockLists::recycle_blocks] for one bin. *)
Fixpoint recycle_loop (fuel : nat) (consumed_at available_at : Z) (cursor : option Z) (consumed available : BlockList) (s : S)
    : res (BlockList * BlockList * S) :=
  let '(block, cursor) := iter_next s cursor in
  match block with
  | None => Val (consumed, available, s)
  | Some block =>
    match fuel with
    | O => NoFuel
    | Datatypes.S fuel =>
      if has_free_cells s block
      then
        let '(consumed, s) := bl_remove consumed_at block consumed s in
        let '(available, s) := bl_push available_at block available s in
        recycle_loop fuel consumed_at available_at cursor consumed available s
      else recycle_loop fuel consumed_at available_at cursor consumed available s
    end
  end.
Definition recycle_blocks (fuel : nat) (consumed_at available_at : Z) (consumed available : BlockList) (s : S) :=
  recycle_loop fuel consumed_at available_at (bl_iter consumed) consumed available s.

(** [find_free_block_with] for one bin: blocks without free cells move to [consumed]. *)
Fixpoint find_free_block_with (fuel : nat) (available_at consumed_at : Z) (available consumed : BlockList) (s : S)
    : res (option Z * BlockList * BlockList * S) :=
  match first available with
  | None => Val (None, available, consumed, s)
  | Some block =>
    if has_free_cells s block then Val (Some block, available, consumed, s)
    else
      match fuel with
      | O => NoFuel
      | Datatypes.S fuel =>
        let '(_, available, s) := bl_pop available_at available s in
        let '(consumed, s) := bl_push consumed_at block consumed s in
        find_free_block_with fuel available_at consumed_at available consumed s
      end
  end.
End links.
