(* ===== verification/BlockListRefine.v ===== *)
(** * Block lists are sequences

    The doubly linked lists of blocks behave as sequences: [push] adds at the front,
    [pop] takes the front, [remove] takes out one block, [append] concatenates, and
    operations on one list leave the others alone. *)

From S2P Require Import Prelude BlockTables BlockList.

Section refine.
Context {S : Type} `{BlockMemoryLaws S}.
Implicit Types (s : S) (bl : BlockList) (l : list Z) (b : Z).

Lemma block_word b : block_ok b → is_u 64 b ∧ b ≠ 0.
Proof. intros (? & _ & ?)%block_range. change Block_BYTES with 65536 in *. unfold is_u. lia. Qed.
Lemma zero_word : is_u 64 0.
Proof. unfold is_u. lia. Qed.
Lemma NonZero_block b : block_ok b → NonZero_new b = Some b.
Proof. intros [_ Hb]%block_word. unfold NonZero_new. by destruct (Z.eqb_spec b 0). Qed.

(** Solves the side conditions of the laws of the tables. *)
Ltac side :=
  lazymatch goal with
  | |- bm_ok (tstore _ _ _ _) => apply tstore_ok; side
  | |- is_u _ 0 => exact zero_word
  | |- is_u _ _ => first [eassumption | eapply block_word; eassumption]
  | |- _ => eassumption
  end.
Ltac unfold_links :=
  unfold load_prev_block, load_next_block, store_next_block, clear_next_block, store_prev_block, clear_prev_block,
    store_block_list, load_block_list in *.
Ltac table_simpl :=
  repeat (rewrite tload_tstore by side);
  repeat first [rewrite decide_True by (split; congruence) | rewrite decide_False by (intros [? ?]; congruence)].

(** ** Chains *)

(** The blocks of [l] are linked, the first after [p] and the last before [q]. *)
Definition or_else (o q : option Z) : option Z := match o with Some _ => o | None => q end.
Fixpoint chain s (p : option Z) l (q : option Z) : Prop :=
  match l with
  | [] => True
  | b :: l => load_prev_block s b = p ∧ load_next_block s b = or_else (head l) q ∧ chain s (Some b) l q
  end.

Lemma chain_cons s p b l q :
  load_prev_block s b = p → load_next_block s b = or_else (head l) q → chain s (Some b) l q → chain s p (b :: l) q.
Proof. done. Qed.
Lemma chain_app s p l1 l2 q :
  chain s p (l1 ++ l2) q ↔ chain s p l1 (or_else (head l2) q) ∧ chain s (or_else (last l1) p) l2 q.
Proof.
  revert p. induction l1 as [|b l1 IH]; intros p; cbn [app chain]; [naive_solver|].
  rewrite IH. assert (or_else (head (l1 ++ l2)) q = or_else (head l1) (or_else (head l2) q)) as ->
    by (destruct l1; [by destruct l2|done]).
  assert (or_else (last l1) (Some b) = or_else (last (b :: l1)) p) as -> by (rewrite last_cons; by destruct (last l1)).
  naive_solver.
Qed.

Lemma chain_same s s' p q l :
  chain s p l q → NoDup l → (∀ b, b ∈ l → load_prev_block s' b = load_prev_block s b ∧ load_next_block s' b = load_next_block s b) →
  chain s' p l q.
Proof.
  revert p. induction l as [|b l IH]; intros p Hc Hnd Hs; cbn [chain] in *; [done|].
  destruct Hc as (Hpb & Hnb & Hc). apply NoDup_cons in Hnd as [Hni Hnd].
  destruct (Hs b ltac:(set_solver)) as [-> ->]. split_and!; [done..|]. apply IH; [done..|]. set_solver.
Qed.

(** The chain survives a change of its outer links. *)
Lemma chain_reprev s s' p q p' l :
  chain s p l q → NoDup l →
  (∀ b, b ∈ l → load_prev_block s' b = if decide (head l = Some b) then p' else load_prev_block s b) →
  (∀ b, b ∈ l → load_next_block s' b = load_next_block s b) → chain s' p' l q.
Proof.
  destruct l as [|b l]; intros Hc Hnd Hp Hn; cbn [chain] in *; [done|].
  destruct Hc as (Hpb & Hnb & Hc). apply NoDup_cons in Hnd as [Hni Hnd].
  rewrite Hp, Hn, decide_True by set_solver. split_and!; [done..|]. apply (chain_same s); [done..|].
  intros c Hcin. rewrite Hp, Hn, decide_False by set_solver. done.
Qed.
Lemma chain_renext s s' p q q' l :
  chain s p l q → NoDup l →
  (∀ b, b ∈ l → load_prev_block s' b = load_prev_block s b) →
  (∀ b, b ∈ l → load_next_block s' b = if decide (last l = Some b) then q' else load_next_block s b) → chain s' p l q'.
Proof.
  revert p. induction l as [|b l IH]; intros p Hc Hnd Hp Hn; cbn [chain] in *; [done|].
  destruct Hc as (Hpb & Hnb & Hc). apply NoDup_cons in Hnd as [Hni Hnd].
  split; [by rewrite Hp by set_solver|]. split.
  - rewrite Hn by set_solver. destruct l as [|c l]; [by rewrite decide_True|]. rewrite decide_False; [done|].
    intros E. apply Hni. rewrite last_cons_cons in E. by apply last_Some_elem_of in E.
  - apply IH; [done|done|set_solver|].
    intros c Hc'. rewrite Hn by set_solver. destruct l as [|c' l]; [by apply elem_of_nil in Hc'|done].
Qed.

(** ** What a list holds *)

Record list_rep s (a : Z) bl l : Prop := {
  lr_first : first bl = head l;
  lr_last : last_block bl = last l;
  lr_chain : chain s None l None;
  lr_nodup : NoDup l;
  lr_blocks : ∀ b, b ∈ l → block_ok b;
  lr_list : ∀ b, b ∈ l → load_block_list s b = a
}.

(** Only the links of the blocks of [l] change. *)
Record only_links s s' l : Prop := {
  ol_ok : bm_ok s';
  ol_other : ∀ t b, block_ok b → b ∉ l → tload t s' b = tload t s b;
  ol_tables : ∀ t b, block_ok b → t ∉ [NEXT_BLOCK_TABLE; PREV_BLOCK_TABLE; BLOCK_LIST_TABLE] → tload t s' b = tload t s b;
  ol_heap : ∀ x, in_block x 8 → wload s' x = wload s x;
  ol_chunks : ∀ c, chunk_ok c → cload s' c = cload s c;
  ol_stores : stores s s'
}.

Lemma only_links_refl s l : bm_ok s → only_links s s l.
Proof. split; try done. constructor. Qed.
Lemma only_links_trans s1 s2 s3 l : only_links s1 s2 l → only_links s2 s3 l → only_links s1 s3 l.
Proof.
  intros [A1 A2 A3 A4 A5 A6] [B1 B2 B3 B4 B5 B6]. split; [done| | | | |by eapply stores_trans].
  - intros t b Hb Hni. by rewrite B2, A2.
  - intros t b Hb Ht. by rewrite B3, A3.
  - intros x Hx. by rewrite B4, A4.
  - intros c Hc. by rewrite B5, A5.
Qed.
Lemma only_links_mono s s' l l' : only_links s s' l → (∀ b, b ∈ l → b ∈ l') → only_links s s' l'.
Proof. intros [A1 A2 A3 A4 A5 A6] Hl. split; try done. intros t b Hb Hni. apply A2; [done|]. intros Hin. by apply Hni, Hl. Qed.
Lemma only_links_store t s b v l :
  bm_ok s → block_ok b → is_u 64 v → b ∈ l → t ∈ [NEXT_BLOCK_TABLE; PREV_BLOCK_TABLE; BLOCK_LIST_TABLE] →
  only_links s (tstore t s b v) l.
Proof.
  intros Hs Hb Hv Hl Ht. assert (is_u (table_width t) v) as Hv' by (destruct t; [set_solver|done..]). split.
  - by apply tstore_ok.
  - intros t' b' Hb' Hni. rewrite tload_tstore, decide_False by (done || set_solver). done.
  - intros t' b' Hb' Ht'. rewrite tload_tstore, decide_False by (done || set_solver). done.
  - intros x Hx. by apply wload_tstore.
  - intros c Hc. by apply cload_tstore.
  - constructor; [constructor|done..].
Qed.

Lemma list_rep_same s s' a bl l (touched : list Z) :
  list_rep s a bl l → only_links s s' touched → (∀ b, b ∈ l → b ∉ touched) → list_rep s' a bl l.
Proof.
  intros [R1 R2 R3 R4 R5 R6] [_ Ho _ _ _ _] Hd. split; try done.
  - eapply chain_same; [done..|]. intros b Hb. unfold_links. rewrite !Ho by auto. done.
  - intros b Hb. rewrite <-(R6 b Hb). unfold_links. by rewrite Ho by auto.
Qed.
Lemma empty_rep s a bl : first bl = None → last_block bl = None → list_rep s a bl [].
Proof. intros E1 E2. split; cbn; try done; [apply NoDup_nil_2|set_solver..]. Qed.
(** There are at most [2 ^ 31] blocks. *)
Lemma blocks_length l : NoDup l → (∀ b, b ∈ l → block_ok b) → Z.of_nat (length l) ≤ 2 ^ 31.
Proof.
  intros Hnd Hb. set (g := λ b, Z.to_nat (b `div` Block_BYTES)).
  assert (∀ b, b ∈ l → ∃ q, b = q * Block_BYTES ∧ 0 < q < 2 ^ 31 ∧ g b = Z.to_nat q) as Hq.
  { intros b (? & [q ->] & ?)%Hb%block_range. exists q. unfold g. rewrite Z.div_mul by done. change Block_BYTES with 65536 in *. split_and!; (done || lia). }
  assert (length (g <$> l) ≤ length (seq 0 (Z.to_nat (2 ^ 31))))%nat as Hle.
  { apply NoDup_incl_length.
    - apply NoDup_ListNoDup. clear Hb. induction l as [|b l IH]; [constructor|]. apply NoDup_cons in Hnd as [Hni Hnd]. cbn [fmap list_fmap]. constructor.
      + intros (b' & E & Hb')%list_elem_of_fmap. destruct (Hq b) as (q & -> & ? & E1), (Hq b') as (q' & -> & ? & E2); [set_solver..|].
        rewrite E1, E2 in E. apply Hni. replace q with q' by lia. done.
      + apply IH; [done|set_solver].
    - intros x Hx%list_elem_of_In. apply list_elem_of_fmap in Hx as (b & -> & Hbl). destruct (Hq b Hbl) as (q & _ & ? & ->).
      apply list_elem_of_In, elem_of_seq. lia. }
  rewrite length_fmap, length_seq in Hle. lia.
Qed.
Lemma rep_length s a bl l : list_rep s a bl l → Z.of_nat (length l) ≤ 2 ^ 31.
Proof. intros [_ _ _ R4 R5 _]. by apply blocks_length. Qed.

Lemma only_links_step t s0 s b v l :
  only_links s0 s l → block_ok b → is_u 64 v → b ∈ l → t ∈ [NEXT_BLOCK_TABLE; PREV_BLOCK_TABLE; BLOCK_LIST_TABLE] →
  only_links s0 (tstore t s b v) l.
Proof. intros Hl Hb Hv Hin Ht. eapply only_links_trans; [done|]. apply only_links_store; [apply Hl|done..]. Qed.
Ltac links :=
  unfold_links; repeat (apply only_links_step; [|side|side|set_solver|set_solver]); apply only_links_refl; side.

(** ** One operation on one list *)

Lemma push_spec s a bl l b :
  bm_ok s → is_u 64 a → list_rep s a bl l → block_ok b → b ∉ l →
  let '(bl', s') := bl_push a b bl s in list_rep s' a bl' (b :: l) ∧ only_links s s' (b :: l).
Proof.
  intros Hs Ha [R1 R2 R3 R4 R5 R6] Hb Hni. unfold bl_push. rewrite R1. destruct l as [|h l]; cbn [head].
  - split; [|links]. split; cbn [first last_block with_ends]; try done.
    + cbn [chain]. unfold_links. table_simpl. done.
    + apply NoDup_singleton.
    + intros x ->%list_elem_of_singleton. done.
    + intros x ->%list_elem_of_singleton. unfold_links. table_simpl. done.
  - assert (block_ok h) as Hh by (apply R5; set_solver). assert (b ≠ h) as Hne by set_solver.
    split; [|links]. split; cbn [first last_block with_ends]; try done.
    + apply chain_cons.
      * unfold_links. table_simpl. done.
      * unfold_links. table_simpl. by apply NonZero_block.
      * apply (chain_reprev s _ None); [done|done| |].
        -- intros x Hx. assert (block_ok x) by (by apply R5). assert (x ≠ b) by set_solver. unfold_links.
           case_decide as Hd; [injection Hd as <-|assert (h ≠ x) by naive_solver]; table_simpl; [by apply NonZero_block|done].
        -- intros x Hx. assert (block_ok x) by (by apply R5). assert (x ≠ b) by set_solver. unfold_links. table_simpl. done.
    + by apply NoDup_cons.
    + set_solver.
    + intros x Hx. assert (block_ok x) by set_solver. unfold_links.
      destruct (decide (b = x)) as [<- |]; table_simpl; [done|]. apply R6. set_solver.
Qed.

Lemma pop_spec s a bl l :
  bm_ok s → is_u 64 a → list_rep s a bl l →
  let '(r, bl', s') := bl_pop a bl s in r = head l ∧ list_rep s' a bl' (tail l) ∧ only_links s s' l.
Proof.
  intros Hs Ha HR. pose proof HR as [R1 R2 R3 R4 R5 R6]. unfold bl_pop. rewrite R1. destruct l as [|h l]; cbn [head tail].
  { split_and!; [done|done|by apply only_links_refl]. }
  destruct R3 as (Hp & Hn & Hc). apply NoDup_cons in R4 as [Hni Hnd]. rewrite Hn.
  assert (block_ok h) as Hh by (apply R5; set_solver). destruct l as [|c l]; cbn [head or_else].
  - split; [done|]. split; [|links]. split; cbn; try done; set_solver.
  - assert (block_ok c) as Hcb by (apply R5; set_solver). assert (h ≠ c) by set_solver.
    split; [done|]. split; [|links]. split; cbn [first last_block with_ends]; try done.
    + apply (chain_reprev s _ (Some h)); [done|done| |].
      * intros x Hx. assert (block_ok x) by (apply R5; set_solver). assert (x ≠ h) by set_solver. unfold_links.
        case_decide as Hd; [injection Hd as <-|assert (c ≠ x) by naive_solver]; table_simpl; done.
      * intros x Hx. assert (block_ok x) by (apply R5; set_solver). assert (x ≠ h) by set_solver. unfold_links. table_simpl. done.
    + set_solver.
    + intros x Hx. assert (block_ok x) by (apply R5; set_solver). assert (x ≠ h) by set_solver. unfold_links.
      destruct (decide (c = x)) as [<- |]; table_simpl; [done|]. apply R6. set_solver.
Qed.
(** Joining what is before and after a block. *)
Lemma rep_join s s' a bl bl' l1 b l2 :
  list_rep s a bl (l1 ++ b :: l2) → first bl' = head (l1 ++ l2) → last_block bl' = last (l1 ++ l2) →
  (∀ x, x ∈ l1 → load_prev_block s' x = load_prev_block s x ∧
    load_next_block s' x = if decide (last l1 = Some x) then head l2 else load_next_block s x) →
  (∀ x, x ∈ l2 → load_next_block s' x = load_next_block s x ∧
    load_prev_block s' x = if decide (head l2 = Some x) then last l1 else load_prev_block s x) →
  (∀ x, x ∈ l1 ++ l2 → load_block_list s' x = load_block_list s x ∨ load_block_list s' x = a) →
  list_rep s' a bl' (l1 ++ l2).
Proof.
  intros [R1 R2 R3 R4 R5 R6] E1 E2 H1 H2 Hl.
  apply chain_app in R3 as [C1 [_ [_ C2]]]. apply NoDup_app in R4 as (N1 & N2 & N3). apply NoDup_cons in N3 as [N4 N5].
  split; [done..| | | |].
  - apply chain_app. split.
    + replace (or_else (head l2) None) with (head l2) by (by destruct l2).
      eapply (chain_renext s s' None _ (head l2)); [exact C1|done|apply H1|apply H1].
    + replace (or_else (last l1) None) with (last l1) by (by destruct (last l1)).
      apply (chain_reprev s s' (Some b)); [done|done|apply H2|apply H2].
  - apply NoDup_app. set_solver.
  - set_solver.
  - intros x Hx. destruct (Hl x Hx) as [-> | ->]; [|done]. apply R6. set_solver.
Qed.

Lemma remove_spec s a bl l1 b l2 :
  bm_ok s → is_u 64 a → list_rep s a bl (l1 ++ b :: l2) →
  let '(bl', s') := bl_remove a b bl s in list_rep s' a bl' (l1 ++ l2) ∧ only_links s s' (l1 ++ b :: l2).
Proof.
  intros Hs Ha HR. pose proof HR as [R1 R2 R3 R4 R5 _].
  apply chain_app in R3 as [_ (Hp & Hn & _)]. apply NoDup_app in R4 as (N1 & N2 & N3). apply NoDup_cons in N3 as [N4 N5].
  replace (or_else (last l1) None) with (last l1) in Hp by (by destruct (last l1)).
  replace (or_else (head l2) None) with (head l2) in Hn by (by destruct l2).
  unfold bl_remove. rewrite Hp, Hn.
  assert (∀ x, x ∈ l1 ++ l2 → block_ok x) as Hbk by set_solver.
  assert (∀ p, last l1 = Some p → p ∈ l1) as Hlast by (intros p; apply last_Some_elem_of).
  destruct (last l1) as [p|] eqn:El1, l2 as [|c l2]; cbn [head].
  - assert (block_ok p) by (apply Hbk; set_solver). split; [|links]. apply (rep_join s _ a bl _ l1 b []); [done|..].
    + rewrite app_nil_r. cbn. rewrite R1. by destruct l1.
    + rewrite app_nil_r. by cbn.
    + intros x Hx. assert (block_ok x) by (apply Hbk; set_solver). rewrite El1. unfold_links.
      case_decide as Hd; [injection Hd as <-|assert (p ≠ x) by naive_solver]; table_simpl; done.
    + set_solver.
    + intros x Hx. assert (block_ok x) by (apply Hbk; set_solver). unfold_links.
      destruct (decide (p = x)) as [<- |]; table_simpl; auto.
  - assert (block_ok p) by (apply Hbk; set_solver). assert (block_ok c) by (apply Hbk; set_solver).
    assert (p ≠ c) by set_solver.
    split; [|links]. apply (rep_join s _ a bl _ l1 b (c :: l2)); [done|..].
    + rewrite R1. by destruct l1.
    + rewrite R2, !last_app. by rewrite last_cons_cons.
    + intros x Hx. assert (block_ok x) by (apply Hbk; set_solver). assert (x ≠ c) by set_solver. rewrite El1. unfold_links.
      case_decide as Hd; [injection Hd as <-|assert (p ≠ x) by naive_solver]; table_simpl; [|done].
      split; [done|by apply NonZero_block].
    + intros x Hx. assert (block_ok x) by (apply Hbk; set_solver). assert (x ≠ p) by set_solver. rewrite El1. cbn [head]. unfold_links.
      case_decide as Hd; [injection Hd as <-|assert (c ≠ x) by naive_solver]; table_simpl; [|done].
      split; [done|by apply NonZero_block].
    + intros x Hx. assert (block_ok x) by (apply Hbk; set_solver). unfold_links. left. table_simpl. done.
  - apply last_None in El1 as ->. split; [|links]. apply (rep_join s _ a bl _ [] b []); try done; set_solver.
  - apply last_None in El1 as ->. assert (block_ok c) by (apply Hbk; set_solver). split; [|links].
    apply (rep_join s _ a bl _ [] b (c :: l2)); [done|done| |set_solver|..].
    + cbn [last_block with_ends]. rewrite R2. cbn [app]. by rewrite last_cons_cons.
    + intros x Hx. assert (block_ok x) by (apply Hbk; set_solver). cbn [head last]. unfold_links.
      case_decide as Hd; [injection Hd as <-|assert (c ≠ x) by naive_solver]; table_simpl; done.
    + intros x Hx. assert (block_ok x) by (apply Hbk; set_solver). unfold_links.
      destruct (decide (c = x)) as [<- |]; table_simpl; auto.
Qed.
Lemma store_lists_spec fuel a s p l :
  (length l ≤ fuel)%nat → bm_ok s → is_u 64 a → chain s p l None → NoDup l → (∀ b, b ∈ l → block_ok b) →
  ∃ s', store_lists fuel a (head l) s = Val s' ∧ only_links s s' l ∧
    (∀ b, block_ok b → load_prev_block s' b = load_prev_block s b ∧ load_next_block s' b = load_next_block s b) ∧
    ∀ b, b ∈ l → load_block_list s' b = a.
Proof.
  revert s p fuel. induction l as [|b l IH]; intros s p fuel Hfu Hs Ha Hc Hnd Hbk.
  { exists s. destruct fuel; cbn; (split; [done|]); (split; [by apply only_links_refl|]); set_solver. }
  destruct fuel as [|fuel]; [cbn in Hfu; lia|]. destruct Hc as (Hp & Hn & Hc). apply NoDup_cons in Hnd as [Hni Hnd].
  assert (block_ok b) as Hb by (apply Hbk; set_solver). cbn [head store_lists].
  set (s1 := store_block_list s b a).
  assert (bm_ok s1) as Hs1 by (unfold s1, store_block_list; side).
  assert (∀ x, block_ok x → load_prev_block s1 x = load_prev_block s x ∧ load_next_block s1 x = load_next_block s x) as Hlk.
  { intros x Hx. unfold s1. unfold_links. table_simpl. done. }
  assert (load_next_block s1 b = head l) as -> by (rewrite (proj2 (Hlk b Hb)), Hn; by destruct l).
  destruct (IH s1 (Some b) fuel) as (s' & E & Ho & Hlk' & Hl'); try done.
  { cbn in Hfu. lia. }
  { apply (chain_same s); [done..|]. intros x Hx. apply Hlk. set_solver. }
  { set_solver. }
  exists s'. split; [done|]. split_and!.
  - eapply only_links_trans; [|eapply only_links_mono; [exact Ho|set_solver]]. unfold s1. links.
  - intros x Hx. destruct (Hlk' x Hx) as [-> ->]. by apply Hlk.
  - intros x [-> |Hx]%elem_of_cons; [|by apply Hl'].
    assert (load_block_list s' b = load_block_list s1 b) as -> by (apply (ol_other _ _ _ Ho); done).
    unfold s1. unfold_links. table_simpl. done.
Qed.

Lemma append_spec fuel s a a2 bl other l1 l2 :
  (length l2 ≤ fuel)%nat → bm_ok s → is_u 64 a → list_rep s a bl l1 → list_rep s a2 other l2 → (∀ b, b ∈ l1 → b ∉ l2) →
  ∃ bl' other' s', bl_append fuel a bl other s = Val (bl', other', s') ∧
    list_rep s' a bl' (l1 ++ l2) ∧ list_rep s' a2 other' [] ∧ only_links s s' (l1 ++ l2).
Proof.
  intros Hfu Hs Ha HR1 HR2 Hdis. pose proof HR1 as [R1 R2 R3 R4 R5 R6]. pose proof HR2 as [Q1 Q2 Q3 Q4 Q5 Q6].
  unfold bl_append. rewrite Q1. destruct l2 as [|c l2]; cbn [head].
  { exists bl, other, s. rewrite app_nil_r. split_and!; [done..|by apply only_links_refl]. }
  assert (block_ok c) as Hc by (apply Q5; set_solver). rewrite R1.
  assert (NoDup (l1 ++ c :: l2)) as Hnd by (apply NoDup_app; naive_solver).
  destruct l1 as [|h l1]; cbn [head].
  - destruct (store_lists_spec fuel a s None (c :: l2)) as (s' & E & Ho & Hlk & Hl'); try done. cbn [head] in E. cbn [mbind res_bind].
    rewrite E. do 3 eexists. split; [reflexivity|]. split_and!; [|by apply (empty_rep s')|done].
    split; cbn [first last_block with_ends app]; try done. apply (chain_same s); [done..|]. intros x Hx. by apply Hlk, Q5.
  - destruct (last (h :: l1)) as [t|] eqn:Et; [|by apply last_None in Et]. rewrite R2. cbn [unwrap mbind res_bind].
    assert (t ∈ h :: l1) as Ht by (by apply last_Some_elem_of). assert (block_ok t) by (by apply R5).
    assert (t ≠ c) by set_solver.
    set (s1 := store_prev_block (store_next_block s t c) c t).
    assert (only_links s s1 ((h :: l1) ++ c :: l2)) as Ho1 by (unfold s1; links).
    assert (chain s1 (or_else (last (h :: l1)) None) (c :: l2) None) as C2.
    { rewrite Et. apply (chain_reprev s _ None); [done|done| |].
      - intros x Hx. assert (block_ok x) by (by apply Q5). assert (x ≠ t) by set_solver. unfold s1. cbn [head]. unfold_links.
        case_decide as Hd; [injection Hd as <-|assert (c ≠ x) by naive_solver]; table_simpl; [by apply NonZero_block|done].
      - intros x Hx. assert (block_ok x) by (by apply Q5). assert (x ≠ t) by set_solver. unfold s1. unfold_links. table_simpl. done. }
    assert (chain s1 None (h :: l1) (Some c)) as C1.
    { apply (chain_renext s _ None None (Some c)); [done|done| |].
      - intros x Hx. assert (block_ok x) by (by apply R5). assert (x ≠ c) by set_solver. unfold s1. unfold_links. table_simpl. done.
      - intros x Hx. assert (block_ok x) by (by apply R5). assert (x ≠ c) by set_solver. unfold s1. rewrite Et. unfold_links.
        case_decide as Hd; [injection Hd as <-|assert (t ≠ x) by naive_solver]; table_simpl; [by apply NonZero_block|done]. }
    destruct (store_lists_spec fuel a s1 _ (c :: l2) Hfu ltac:(apply Ho1) Ha C2 Q4 Q5) as (s' & E & Ho & Hlk & Hl').
    cbn [head] in E. fold s1. rewrite E. do 3 eexists. split; [reflexivity|]. split_and!; [|by apply (empty_rep s')|].
    + split; cbn [first last_block with_ends]; try done.
      * rewrite Q2, last_app. destruct (last (c :: l2)) eqn:El; [done|by apply last_None in El].
      * apply (chain_same s1); [by apply chain_app|done|]. intros x Hx. apply Hlk. set_solver.
      * set_solver.
      * intros x [Hx|Hx]%elem_of_app; [|by apply Hl'].
        assert (load_block_list s' x = load_block_list s x) as ->; [|by apply R6].
        assert (block_ok x) by (by apply R5).
        transitivity (load_block_list s1 x); [apply (ol_other _ _ _ Ho); [done|set_solver]|]. unfold s1. unfold_links. table_simpl. done.
    + eapply only_links_trans; [done|]. eapply only_links_mono; [done|set_solver].
Qed.
(** ** Walks over a list *)

Lemma has_free_same s s' l b : only_links s s' l → block_ok b → has_free_cells s' b = has_free_cells s b.
Proof. intros Ho Hb. unfold has_free_cells, load_free_list. by rewrite (ol_tables _ _ _ Ho) by set_solver. Qed.

Lemma rep_next s a bl l1 b l2 : list_rep s a bl (l1 ++ b :: l2) → load_next_block s b = head l2.
Proof. intros [_ _ C _ _ _]. apply chain_app in C as [_ (_ & -> & _)]. by destruct l2. Qed.

Lemma recycle_spec fuel hf s ac aa consumed available kept rest la :
  (length rest ≤ fuel)%nat → bm_ok s → is_u 64 ac → is_u 64 aa →
  list_rep s ac consumed (kept ++ rest) → list_rep s aa available la → (∀ b, b ∈ kept ++ rest → b ∉ la) →
  (∀ b, block_ok b → has_free_cells s b = hf b) →
  ∃ consumed' available' s',
    recycle_loop fuel ac aa (head rest) consumed available s = Val (consumed', available', s') ∧
    list_rep s' ac consumed' (kept ++ List.filter (λ b, negb (hf b)) rest) ∧
    list_rep s' aa available' (rev (List.filter hf rest) ++ la) ∧ only_links s s' (kept ++ rest ++ la).
Proof.
  revert s consumed available kept la fuel. induction rest as [|b rest IH]; intros s consumed available kept la fuel Hfu Hs Hac Haa R1 R2 Hdis Hhf.
  { exists consumed, available, s. destruct fuel; (split; [done|]); (split_and!; [done|done|by apply only_links_refl]). }
  destruct fuel as [|fuel]; [cbn in Hfu; lia|]. cbn in Hfu.
  assert (block_ok b) as Hb by (apply (lr_blocks _ _ _ _ R1); set_solver).
  cbn [head recycle_loop iter_next]. rewrite (rep_next _ _ _ _ _ _ R1), Hhf by done. cbn [List.filter]. destruct (hf b) eqn:Ef; cbn [negb].
  - pose proof (remove_spec s ac consumed kept b rest Hs Hac R1) as Hr.
    destruct (bl_remove ac b consumed s) as [consumed1 s1]. destruct Hr as [R1' Ho1].
    assert (list_rep s1 aa available la) as R2' by (eapply list_rep_same; [done..|set_solver]).
    pose proof (push_spec s1 aa available la b (ol_ok _ _ _ Ho1) Haa R2' Hb ltac:(set_solver)) as Hp.
    destruct (bl_push aa b available s1) as [available1 s2]. destruct Hp as [R2'' Ho2].
    pose proof (lr_nodup _ _ _ _ R1) as Hnd. apply NoDup_app in Hnd as (N1 & N2 & [N3 N4]%NoDup_cons).
    assert (list_rep s2 ac consumed1 (kept ++ rest)) as R1'' by (eapply list_rep_same; [done..|set_solver]).
    destruct (IH s2 consumed1 available1 kept (b :: la) fuel) as (c' & a' & s' & E & Q1 & Q2 & Ho3);
      [lia|apply Ho2|done|done|done|done|set_solver| |].
    { intros x Hx. rewrite <-Hhf, (has_free_same _ _ _ _ Ho2), (has_free_same _ _ _ _ Ho1) by done. done. }
    exists c', a', s'. split; [done|]. split; [done|]. split; [cbn [rev]; by rewrite <-app_assoc|].
    eapply only_links_trans; [|eapply only_links_trans].
    + eapply only_links_mono; [exact Ho1|set_solver].
    + eapply only_links_mono; [exact Ho2|set_solver].
    + eapply only_links_mono; [exact Ho3|set_solver].
  - destruct (IH s consumed available (kept ++ [b]) la fuel) as (c' & a' & s' & E & Q1 & Q2 & Ho3);
      [lia|done|done|done|by rewrite <-app_assoc|done|set_solver|done|].
    exists c', a', s'. split; [done|]. split; [by rewrite <-app_assoc in Q1|]. split; [done|].
    eapply only_links_mono; [exact Ho3|set_solver].
Qed.

Lemma find_free_spec fuel hf s aa ac available consumed full rest lc :
  (length full ≤ fuel)%nat → bm_ok s → is_u 64 aa → is_u 64 ac →
  list_rep s aa available (full ++ rest) → list_rep s ac consumed lc → (∀ b, b ∈ full ++ rest → b ∉ lc) →
  (∀ b, block_ok b → has_free_cells s b = hf b) →
  (∀ b, b ∈ full → hf b = false) → (∀ b, head rest = Some b → hf b = true) →
  ∃ available' consumed' s',
    find_free_block_with fuel aa ac available consumed s = Val (head rest, available', consumed', s') ∧
    list_rep s' aa available' rest ∧ list_rep s' ac consumed' (rev full ++ lc) ∧ only_links s s' (full ++ rest ++ lc).
Proof.
  revert s available consumed lc fuel. induction full as [|b full IH]; intros s available consumed lc fuel Hfu Hs Haa Hac R1 R2 Hdis Hhf Hfull Hrest.
  - exists available, consumed, s. cbn [app rev] in *. split_and!; [|done|done|by apply only_links_refl].
    destruct fuel; cbn [find_free_block_with]; rewrite (lr_first _ _ _ _ R1); (destruct rest as [|c rest]; [done|]; cbn [head];
      rewrite Hhf by (apply (lr_blocks _ _ _ _ R1); set_solver); by rewrite (Hrest c eq_refl)).
  - destruct fuel as [|fuel]; [cbn in Hfu; lia|]. cbn in Hfu. cbn [find_free_block_with].
    assert (block_ok b) as Hb by (apply (lr_blocks _ _ _ _ R1); set_solver).
    rewrite (lr_first _ _ _ _ R1). cbn [head app]. rewrite Hhf, (Hfull b) by (done || set_solver).
    pose proof (pop_spec s aa available _ Hs Haa R1) as Hp. destruct (bl_pop aa available s) as [[r available1] s1].
    destruct Hp as (_ & R1' & Ho1). cbn [app tail] in *.
    assert (list_rep s1 ac consumed lc) as R2' by (eapply list_rep_same; [done..|set_solver]).
    pose proof (push_spec s1 ac consumed lc b (ol_ok _ _ _ Ho1) Hac R2' Hb ltac:(set_solver)) as Hq.
    destruct (bl_push ac b consumed s1) as [consumed1 s2]. destruct Hq as [R2'' Ho2].
    pose proof (lr_nodup _ _ _ _ R1) as Hnd. apply NoDup_cons in Hnd as [N1 N2].
    assert (list_rep s2 aa available1 (full ++ rest)) as R1'' by (eapply list_rep_same; [done..|set_solver]).
    destruct (IH s2 available1 consumed1 (b :: lc) fuel) as (a' & c' & s' & E & Q1 & Q2 & Ho3);
      [lia|apply Ho2|done|done|done|done|set_solver| |set_solver|done|].
    { intros x Hx. rewrite <-Hhf, (has_free_same _ _ _ _ Ho2), (has_free_same _ _ _ _ Ho1) by done. done. }
    exists a', c', s'. split; [done|]. split; [done|]. split; [cbn [rev]; by rewrite <-app_assoc|].
    eapply only_links_trans; [|eapply only_links_trans].
    + eapply only_links_mono; [exact Ho1|set_solver].
    + eapply only_links_mono; [exact Ho2|set_solver].
    + eapply only_links_mono; [exact Ho3|set_solver].
Qed.
End refine.
