(* ===== verification/BlockListTheorems.v ===== *)
(** * Systems of block lists

    Any number of lists at different addresses, over the metadata of the same blocks:
    any sequence of operations on them is a sequence of operations on disjoint sequences. *)

From stdpp Require Import gmap.
From S2P Require Import Prelude Conversions Memory SideMetadataSpecs BlockTables BlockList BlockListRefine.

(** The operations of allocators and of the space on lists at given addresses;
    [OpRemove] finds the list in the metadata of the block. *)
Inductive list_op : Type :=
| OpPush (a b : Z) | OpPop (a : Z) | OpRemove (b : Z) | OpAppend (a other : Z)
| OpRecycle (consumed available : Z) | OpFindFree (available consumed : Z).

(** ** The sequences *)

Section spec.
Context (block_ok : Z → Prop) (hf : Z → bool).
Abbreviation lists := (gmap Z (list Z)).

Inductive spec_step : list_op → lists → option Z → lists → Prop :=
| spec_push L a b l :
    L !! a = Some l → block_ok b → (∀ a' l', L !! a' = Some l' → b ∉ l') →
    spec_step (OpPush a b) L None (<[a := b :: l]> L)
| spec_pop L a l : L !! a = Some l → spec_step (OpPop a) L (head l) (<[a := tail l]> L)
| spec_remove L a l1 b l2 :
    L !! a = Some (l1 ++ b :: l2) → spec_step (OpRemove b) L None (<[a := l1 ++ l2]> L)
| spec_append L a other l1 l2 :
    L !! a = Some l1 → L !! other = Some l2 → a ≠ other →
    spec_step (OpAppend a other) L None (<[a := l1 ++ l2]> (<[other := []]> L))
| spec_recycle L c a lc la :
    L !! c = Some lc → L !! a = Some la → c ≠ a →
    spec_step (OpRecycle c a) L None
      (<[c := List.filter (λ b, negb (hf b)) lc]> (<[a := rev (List.filter hf lc) ++ la]> L))
| spec_find L a c full rest lc :
    L !! a = Some (full ++ rest) → L !! c = Some lc → a ≠ c →
    (∀ b, b ∈ full → hf b = false) → (∀ b, head rest = Some b → hf b = true) →
    spec_step (OpFindFree a c) L (head rest) (<[a := rest]> (<[c := rev full ++ lc]> L)).

Inductive spec_run : list list_op → lists → list (option Z) → lists → Prop :=
| spec_run_nil L : spec_run [] L [] L
| spec_run_cons op ops L r L1 rs L2 :
    spec_step op L r L1 → spec_run ops L1 rs L2 → spec_run (op :: ops) L (r :: rs) L2.
End spec.

(** ** The lists in memory *)

Section system.
Context {S : Type} `{BlockMemoryLaws S}.
Abbreviation state := (gmap Z BlockList * S)%type.

Definition run_op (fuel : nat) (op : list_op) (st : state) : res (option Z * state) :=
  let '(m, s) := st in
  match op with
  | OpPush a b =>
    bl ← unwrap (m !! a);
    let '(bl, s) := bl_push a b bl s in Val (None, (<[a := bl]> m, s))
  | OpPop a =>
    bl ← unwrap (m !! a);
    let '(r, bl, s) := bl_pop a bl s in Val (r, (<[a := bl]> m, s))
  | OpRemove b =>
    let a := load_block_list s b in
    bl ← unwrap (m !! a);
    let '(bl, s) := bl_remove a b bl s in Val (None, (<[a := bl]> m, s))
  | OpAppend a other =>
    bl ← unwrap (m !! a); bo ← unwrap (m !! other);
    '(bl, bo, s) ← bl_append fuel a bl bo s;
    Val (None, (<[a := bl]> (<[other := bo]> m), s))
  | OpRecycle c a =>
    bc ← unwrap (m !! c); ba ← unwrap (m !! a);
    '(bc, ba, s) ← recycle_blocks fuel c a bc ba s;
    Val (None, (<[c := bc]> (<[a := ba]> m), s))
  | OpFindFree a c =>
    ba ← unwrap (m !! a); bc ← unwrap (m !! c);
    '(r, ba, bc, s) ← find_free_block_with fuel a c ba bc s;
    Val (r, (<[a := ba]> (<[c := bc]> m), s))
  end.
Fixpoint run_ops (fuel : nat) (ops : list list_op) (st : state) : res (list (option Z) * state) :=
  match ops with
  | [] => Val ([], st)
  | op :: ops => '(r, st) ← run_op fuel op st; '(rs, st) ← run_ops fuel ops st; Val (r :: rs, st)
  end.

(** The lists represent disjoint sequences, and [hf] tells which blocks have free cells. *)
Record rel (hf : Z → bool) (st : state) (L : gmap Z (list Z)) : Prop := {
  rel_ok : bm_ok st.2;
  rel_free : ∀ b, block_ok b → has_free_cells st.2 b = hf b;
  rel_lists : ∀ a, match st.1 !! a, L !! a with
                   | Some bl, Some l => is_u 64 a ∧ list_rep st.2 a bl l
                   | None, None => True
                   | _, _ => False
                   end;
  rel_disjoint : ∀ a a' l l', L !! a = Some l → L !! a' = Some l' → a ≠ a' → ∀ b, b ∈ l → b ∉ l'
}.

Lemma rel_lookup hf st L a l : rel hf st L → L !! a = Some l →
  ∃ bl, st.1 !! a = Some bl ∧ is_u 64 a ∧ list_rep st.2 a bl l.
Proof. intros [_ _ Hl _] Ha. specialize (Hl a). rewrite Ha in Hl. destruct (st.1 !! a) as [bl|]; [|done]. naive_solver. Qed.

(** The state after an operation that changed the links of the blocks of [touched] only,
    where the lists [L'] differ from [L] at the addresses [as]. *)
Lemma rel_update hf m s L m' s' L' (touched as' : list Z) :
  rel hf (m, s) L → only_links s s' touched →
  (∀ a, a ∉ as' → m' !! a = m !! a ∧ L' !! a = L !! a) →
  (∀ a, a ∈ as' → ∃ bl l, m' !! a = Some bl ∧ L' !! a = Some l ∧ is_u 64 a ∧ list_rep s' a bl l) →
  (∀ a l, a ∉ as' → L !! a = Some l → ∀ b, b ∈ l → b ∉ touched) →
  (∀ a l, a ∈ as' → L' !! a = Some l → ∀ b, b ∈ l → b ∈ touched) →
  (∀ a a' l l', a ∈ as' → a' ∈ as' → L' !! a = Some l → L' !! a' = Some l' → a ≠ a' → ∀ b, b ∈ l → b ∉ l') →
  rel hf (m', s') L'.
Proof.
  intros [R1 R2 R3 R4] Ho Hsame Hnew Hold Htouch Hdis. split; cbn [fst snd].
  - apply Ho.
  - intros b Hb. rewrite (has_free_same _ _ _ _ Ho) by done. by apply R2.
  - intros a. destruct (decide (a ∈ as')) as [Hin|Hni].
    + destruct (Hnew a Hin) as (bl & l & -> & -> & ? & ?). done.
    + destruct (Hsame a Hni) as [-> ->]. specialize (R3 a). cbn [fst snd] in R3.
      destruct (m !! a) as [bl|], (L !! a) as [l|] eqn:E; try done. destruct R3 as [? ?]. split; [done|].
      eapply list_rep_same; [done..|]. by apply (Hold a).
  - intros a a' l l' Ha Ha' Hne b Hb.
    destruct (decide (a ∈ as')) as [Hin|Hni], (decide (a' ∈ as')) as [Hin'|Hni'].
    + by apply (Hdis a a' l l').
    + rewrite (proj2 (Hsame a' Hni')) in Ha'. intros Hb'. by apply (Hold a' l' Hni' Ha' b Hb'), (Htouch a l).
    + rewrite (proj2 (Hsame a Hni)) in Ha. intros Hb'. by apply (Hold a l Hni Ha b Hb), (Htouch a' l').
    + rewrite (proj2 (Hsame a Hni)) in Ha. rewrite (proj2 (Hsame a' Hni')) in Ha'. by apply (R4 a a' l l').
Qed.
Lemma rel_update1 hf m s L s' a bl l touched :
  rel hf (m, s) L → is_u 64 a → only_links s s' touched → list_rep s' a bl l →
  (∀ b, b ∈ l → b ∈ touched) → (∀ a' l', a' ≠ a → L !! a' = Some l' → ∀ b, b ∈ l' → b ∉ touched) →
  rel hf (<[a := bl]> m, s') (<[a := l]> L).
Proof.
  intros HR Ha Ho Hrep Hin Hout. apply (rel_update hf m s L _ _ _ touched [a]); try done.
  - intros a' Hne. rewrite !lookup_insert_ne by set_solver. done.
  - intros a' ->%list_elem_of_singleton. exists bl, l. by rewrite !lookup_insert_eq.
  - intros a' l' Hne. apply Hout. set_solver.
  - intros a' l' ->%list_elem_of_singleton. rewrite lookup_insert_eq. by intros [= ->].
  - intros a1 a2 l1 l2 ->%list_elem_of_singleton ->%list_elem_of_singleton. done.
Qed.

Lemma rel_update2 hf m s L s' a a' bl bl' l l' touched :
  rel hf (m, s) L → a ≠ a' → is_u 64 a → is_u 64 a' → only_links s s' touched →
  list_rep s' a bl l → list_rep s' a' bl' l' →
  (∀ b, b ∈ l ++ l' → b ∈ touched) → (∀ b, b ∈ l → b ∉ l') →
  (∀ x lx, x ≠ a → x ≠ a' → L !! x = Some lx → ∀ b, b ∈ lx → b ∉ touched) →
  rel hf (<[a := bl]> (<[a' := bl']> m), s') (<[a := l]> (<[a' := l']> L)).
Proof.
  intros HR Hne Ha Ha' Ho Hrep Hrep' Hin Hdis Hout. apply (rel_update hf m s L _ _ _ touched [a; a']); try done.
  - intros x Hx. rewrite !lookup_insert_ne by set_solver. done.
  - intros x [-> |[-> |?%elem_of_nil]%elem_of_cons]%elem_of_cons; [| |done].
    + exists bl, l. by rewrite !lookup_insert_eq.
    + exists bl', l'. rewrite !(lookup_insert_ne _ a a') by done. rewrite !lookup_insert_eq. done.
  - intros x lx Hx. apply Hout; set_solver.
  - intros x lx [-> |[-> |?%elem_of_nil]%elem_of_cons]%elem_of_cons; [| |done].
    + rewrite lookup_insert_eq. intros [= <-]. set_solver.
    + rewrite lookup_insert_ne, lookup_insert_eq by done. intros [= <-]. set_solver.
  - assert (∀ x lx, x ∈ [a; a'] → <[a := l]> (<[a' := l']> L) !! x = Some lx → x = a ∧ lx = l ∨ x = a' ∧ lx = l') as Hx.
    { intros x lx [-> |[-> |?%elem_of_nil]%elem_of_cons]%elem_of_cons; [| |done].
      + rewrite lookup_insert_eq. naive_solver.
      + rewrite lookup_insert_ne, lookup_insert_eq by done. naive_solver. }
    intros x y lx ly Hx1 Hy1 E1 E2. destruct (Hx x lx Hx1 E1) as [[-> ->]|[-> ->]], (Hx y ly Hy1 E2) as [[-> ->]|[-> ->]]; set_solver.
Qed.

(** ** Operations *)

(** One operation, with fuel for the longest list. *)
Definition op_ok (hf : Z → bool) (op : list_op) (st : state) (r : option Z) (L' : gmap Z (list Z)) : Prop :=
  ∃ fuel st', Z.of_nat fuel ≤ 2 ^ 31 ∧ run_op fuel op st = Val (r, st') ∧ rel hf st' L' ∧ ∃ touched, only_links st.2 st'.2 touched.

Ltac op_fuel :=
  first [lia | eapply rep_length; eassumption
        | lazymatch goal with HR : list_rep _ _ _ (?l ++ _) |- Z.of_nat (length ?l) ≤ _ =>
            apply rep_length in HR; rewrite length_app in HR; lia end].
Lemma push_ok hf m s L a b l :
  rel hf (m, s) L → L !! a = Some l → block_ok b → (∀ a' l', L !! a' = Some l' → b ∉ l') → op_ok hf (OpPush a b) (m, s) (None) (<[a := b :: l]> L).
Proof.
  intros HR Ha Hb Hni. pose proof (rel_ok _ _ _ HR) as Hok. cbn [snd] in Hok. unfold op_ok. cbn [run_op].
  destruct (rel_lookup _ _ _ _ _ HR Ha) as (bl & E & Hau & Hrep). cbn [fst snd] in *. exists 0%nat. rewrite E. cbn [unwrap mbind res_bind].
  pose proof (push_spec s a bl l b Hok Hau Hrep Hb (Hni a l Ha)) as Hp. destruct (bl_push a b bl s) as [bl' s'].
  destruct Hp as [Hrep' Hol]. eexists. split; [op_fuel|]. split; [reflexivity|]. split; [|by eexists]. eapply rel_update1; [done..|].
  intros a' l' Hne Hl' x Hx Hin. apply elem_of_cons in Hin as [-> |Hin]; [by apply (Hni a' l')|].
  by apply (rel_disjoint _ _ _ HR a' a l' l Hl' Ha Hne x).
Qed.

Lemma pop_ok hf m s L a l :
  rel hf (m, s) L → L !! a = Some l → op_ok hf (OpPop a) (m, s) (head l) (<[a := tail l]> L).
Proof.
  intros HR Ha. pose proof (rel_ok _ _ _ HR) as Hok. cbn [snd] in Hok. unfold op_ok. cbn [run_op].
  destruct (rel_lookup _ _ _ _ _ HR Ha) as (bl & E & Hau & Hrep). cbn [fst snd] in *. exists 0%nat. rewrite E. cbn [unwrap mbind res_bind].
  pose proof (pop_spec s a bl l Hok Hau Hrep) as Hp. destruct (bl_pop a bl s) as [[r bl'] s'].
  destruct Hp as (-> & Hrep' & Hol). eexists. split; [op_fuel|]. split; [reflexivity|]. split; [|by eexists]. eapply rel_update1; [done..| |].
  - destruct l; set_solver.
  - intros a' l' Hne Hl' x Hx. by apply (rel_disjoint _ _ _ HR a' a l' l Hl' Ha Hne x).
Qed.

Lemma remove_ok hf m s L a l1 b l2 :
  rel hf (m, s) L → L !! a = Some (l1 ++ b :: l2) → op_ok hf (OpRemove b) (m, s) (None) (<[a := l1 ++ l2]> L).
Proof.
  intros HR Ha. pose proof (rel_ok _ _ _ HR) as Hok. cbn [snd] in Hok. unfold op_ok. cbn [run_op].
  destruct (rel_lookup _ _ _ _ _ HR Ha) as (bl & E & Hau & Hrep). cbn [fst snd] in *. exists 0%nat.
  rewrite (lr_list _ _ _ _ Hrep b) by set_solver. rewrite E. cbn [unwrap mbind res_bind].
  pose proof (remove_spec s a bl l1 b l2 Hok Hau Hrep) as Hp. destruct (bl_remove a b bl s) as [bl' s'].
  destruct Hp as (Hrep' & Hol). eexists. split; [op_fuel|]. split; [reflexivity|]. split; [|by eexists]. eapply rel_update1; [done..|set_solver|].
  intros a' l' Hne' Hl' x Hx. by apply (rel_disjoint _ _ _ HR a' a l' _ Hl' Ha Hne' x).
Qed.

Lemma append_ok hf m s L a o l1 l2 :
  rel hf (m, s) L → L !! a = Some l1 → L !! o = Some l2 → a ≠ o → op_ok hf (OpAppend a o) (m, s) (None) (<[a := l1 ++ l2]> (<[o := []]> L)).
Proof.
  intros HR Ha Ho Hne. pose proof (rel_ok _ _ _ HR) as Hok. cbn [snd] in Hok. unfold op_ok. cbn [run_op].
  destruct (rel_lookup _ _ _ _ _ HR Ha) as (bl & E & Hau & Hrep), (rel_lookup _ _ _ _ _ HR Ho) as (bo & Eo & Hou & Hrepo).
  cbn [fst snd] in *.
  destruct (append_spec (length l2) s a o bl bo l1 l2) as (bl' & bo' & s' & Er & Q1 & Q2 & Hol); try done.
  { apply (rel_disjoint _ _ _ HR a o l1 l2 Ha Ho Hne). }
  exists (length l2). rewrite E, Eo. cbn [unwrap mbind res_bind]. rewrite Er. eexists. split; [op_fuel|]. split; [reflexivity|]. split; [|by eexists].
  eapply (rel_update2 _ _ _ _ _ _ _ _ _ _ _ (l1 ++ l2)); try done; [set_solver|set_solver|].
  intros x lx H1 H2 Hx y Hy [Hin|Hin]%elem_of_app.
  - by apply (rel_disjoint _ _ _ HR x a lx l1 Hx Ha H1 y).
  - by apply (rel_disjoint _ _ _ HR x o lx l2 Hx Ho H2 y).
Qed.

Lemma recycle_ok hf m s L c a lc la :
  rel hf (m, s) L → L !! c = Some lc → L !! a = Some la → c ≠ a → op_ok hf (OpRecycle c a) (m, s) (None) (<[c := List.filter (λ b, negb (hf b)) lc]> (<[a := rev (List.filter hf lc) ++ la]> L)).
Proof.
  intros HR Hc Ha Hne. pose proof (rel_ok _ _ _ HR) as Hok. cbn [snd] in Hok. unfold op_ok. cbn [run_op].
  destruct (rel_lookup _ _ _ _ _ HR Hc) as (bc & Ec & Hcu & Hrepc), (rel_lookup _ _ _ _ _ HR Ha) as (ba & Ea & Hau & Hrepa).
  cbn [fst snd] in *. pose proof (rel_disjoint _ _ _ HR c a lc la Hc Ha Hne) as Hd.
  destruct (recycle_spec (length lc) hf s c a bc ba [] lc la) as (bc' & ba' & s' & Er & Q1 & Q2 & Hol); try done.
  { apply (rel_free _ _ _ HR). }
  exists (length lc). rewrite Ec, Ea. cbn [unwrap mbind res_bind]. unfold recycle_blocks, bl_iter.
  rewrite (lr_first _ _ _ _ Hrepc), Er. eexists. split; [op_fuel|]. split; [reflexivity|]. split; [|by eexists]. cbn [app] in *.
  eapply (rel_update2 _ _ _ _ _ _ _ _ _ _ _ (lc ++ la)); try done.
  - intros b Hb. rewrite elem_of_app, list_elem_of_In, filter_In, elem_of_app, list_elem_of_In, <-in_rev, filter_In in Hb.
    rewrite <-!list_elem_of_In in Hb. set_solver.
  - intros b Hb. rewrite list_elem_of_In, filter_In, <-list_elem_of_In in Hb.
    rewrite elem_of_app, list_elem_of_In, <-in_rev, filter_In. destruct Hb as [? Hb]. intros [[_ Hb']|?]; [by rewrite Hb' in Hb|set_solver].
  - intros x lx H1 H2 Hx y Hy [Hin|Hin]%elem_of_app.
    + by apply (rel_disjoint _ _ _ HR x c lx lc Hx Hc H1 y).
    + by apply (rel_disjoint _ _ _ HR x a lx la Hx Ha H2 y).
Qed.

Lemma find_ok hf m s L a c full rest lc :
  rel hf (m, s) L → L !! a = Some (full ++ rest) → L !! c = Some lc → a ≠ c →
  (∀ b, b ∈ full → hf b = false) → (∀ b, head rest = Some b → hf b = true) → op_ok hf (OpFindFree a c) (m, s) (head rest) (<[a := rest]> (<[c := rev full ++ lc]> L)).
Proof.
  intros HR Ha Hc Hne Hfull Hrest. pose proof (rel_ok _ _ _ HR) as Hok. cbn [snd] in Hok. unfold op_ok. cbn [run_op].
  destruct (rel_lookup _ _ _ _ _ HR Ha) as (ba & Ea & Hau & Hrepa), (rel_lookup _ _ _ _ _ HR Hc) as (bc & Ec & Hcu & Hrepc).
  cbn [fst snd] in *. pose proof (rel_disjoint _ _ _ HR a c _ lc Ha Hc Hne) as Hd.
  destruct (find_free_spec (length full) hf s a c ba bc full rest lc) as (ba' & bc' & s' & Er & Q1 & Q2 & Hol); try done.
  { apply (rel_free _ _ _ HR). }
  exists (length full). rewrite Ea, Ec. cbn [unwrap mbind res_bind]. rewrite Er. eexists. split; [op_fuel|]. split; [reflexivity|]. split; [|by eexists].
  pose proof (lr_nodup _ _ _ _ Hrepa) as (_ & N2 & _)%NoDup_app.
  eapply (rel_update2 _ _ _ _ _ _ _ _ _ _ _ (full ++ rest ++ lc)); try done.
  - intros b. rewrite !elem_of_app, (list_elem_of_In (rev full)), <-in_rev, <-list_elem_of_In. tauto.
  - intros b Hb. rewrite elem_of_app, (list_elem_of_In (rev full)), <-in_rev, <-list_elem_of_In. set_solver.
  - intros x lx H1 H2 Hx y Hy Hin. rewrite app_assoc in Hin. apply elem_of_app in Hin as [Hin|Hin].
    + by apply (rel_disjoint _ _ _ HR x a lx _ Hx Ha H1 y).
    + by apply (rel_disjoint _ _ _ HR x c lx lc Hx Hc H2 y).
Qed.

Lemma run_op_ok hf op st L r L' : rel hf st L → spec_step block_ok hf op L r L' → op_ok hf op st r L'.
Proof.
  destruct st as [m s]. intros HR Hs. destruct Hs.
  - by apply push_ok.
  - by apply pop_ok.
  - by apply remove_ok.
  - by apply append_ok.
  - by apply recycle_ok.
  - by apply find_ok.
Qed.

(** More fuel does not change the result. *)
Lemma store_lists_fuel fuel fuel' a c (s s' : S) :
  store_lists fuel a c s = Val s' → (fuel ≤ fuel')%nat → store_lists fuel' a c s = Val s'.
Proof.
  revert fuel' c s. induction fuel as [|fuel IH]; intros [|fuel'] [b|] s E Hle; cbn in *; try done; try lia. apply (IH _ _ _ E). lia.
Qed.
Lemma recycle_fuel fuel fuel' ac aa c bc ba (s : S) x :
  recycle_loop fuel ac aa c bc ba s = Val x → (fuel ≤ fuel')%nat → recycle_loop fuel' ac aa c bc ba s = Val x.
Proof.
  revert fuel' c bc ba s. induction fuel as [|fuel IH]; intros [|fuel'] [b|] bc ba s E Hle; cbn in *; try done; try lia.
  destruct (has_free_cells s b); [|apply (IH _ _ _ _ _ E); lia].
  destruct (bl_remove _ _ _ _) as [? ?], (bl_push _ _ _ _) as [? ?]. apply (IH _ _ _ _ _ E). lia.
Qed.
Lemma find_fuel fuel fuel' aa ac ba bc (s : S) x :
  find_free_block_with fuel aa ac ba bc s = Val x → (fuel ≤ fuel')%nat → find_free_block_with fuel' aa ac ba bc s = Val x.
Proof.
  revert fuel' ba bc s. induction fuel as [|fuel IH]; intros [|fuel'] ba bc s E Hle; cbn in *; try done; try lia.
  - by destruct (first ba) as [b|]; [destruct (has_free_cells s b)|].
  - destruct (first ba) as [b|]; [|done]. destruct (has_free_cells s b); [done|].
    destruct (bl_pop _ _ _) as [[? ?] ?], (bl_push _ _ _ _) as [? ?]. apply (IH _ _ _ _ E). lia.
Qed.
Lemma run_op_fuel fuel fuel' op (st : state) x : run_op fuel op st = Val x → (fuel ≤ fuel')%nat → run_op fuel' op st = Val x.
Proof.
  destruct st as [m s]. intros E Hle. destruct op; cbn [run_op] in *; try done.
  - apply bind_Val in E as (bl & -> & E). apply bind_Val in E as (bo & -> & E). cbn [mbind res_bind]. unfold bl_append in *.
    destruct (first bo); [|done]. apply bind_Val in E as (y & E & E2). apply bind_Val in E as ([bl' s1] & E & E3). rewrite E. cbn [mbind res_bind].
    apply bind_Val in E3 as (s2 & E3 & E4). rewrite (store_lists_fuel _ fuel' _ _ _ _ E3) by done.
    by injection E4 as <-.
  - apply bind_Val in E as (bl & -> & E). apply bind_Val in E as (bo & -> & E). cbn [mbind res_bind].
    apply bind_Val in E as (y & E & E2). unfold recycle_blocks in *. by rewrite (recycle_fuel _ fuel' _ _ _ _ _ _ _ E).
  - apply bind_Val in E as (bl & -> & E). apply bind_Val in E as (bo & -> & E). cbn [mbind res_bind].
    apply bind_Val in E as (y & E & E2). by rewrite (find_fuel _ fuel' _ _ _ _ _ _ E).
Qed.

Lemma run_ops_ok hf ops st L rs L' :
  rel hf st L → spec_run block_ok hf ops L rs L' →
  ∃ st', (∀ fuel, 2 ^ 31 ≤ Z.of_nat fuel → run_ops fuel ops st = Val (rs, st')) ∧ rel hf st' L'.
Proof.
  intros HR Hs. revert st HR. induction Hs as [L|op ops L r L1 rs L2 Hst _ IH]; intros st HR; [by exists st|].
  destruct (run_op_ok hf op st L r L1 HR Hst) as (f1 & st1 & Hf & E1 & R1 & _). destruct (IH st1 R1) as (st2 & E2 & R2).
  exists st2. split; [|done]. intros fuel Hfu. cbn [run_ops].
  rewrite (run_op_fuel f1 fuel op st _ E1) by lia. cbn [mbind res_bind]. by rewrite E2 by lia.
Qed.
(** New lists, as [new_empty_block_lists] makes them, are empty. *)
Lemma new_lists_rel (m : gmap Z BlockList) (s : S) :
  bm_ok s → (∀ a bl, m !! a = Some bl → is_u 64 a ∧ first bl = None ∧ last_block bl = None) →
  rel (has_free_cells s) (m, s) ((λ _, []) <$> m).
Proof.
  intros Hs Hm. split; cbn [fst snd]; [done|done| |].
  - intros a. rewrite lookup_fmap. destruct (m !! a) as [bl|] eqn:E; [|done]. cbn. destruct (Hm a bl E) as (? & ? & ?).
    split; [done|]. by apply empty_rep.
  - intros a a' l l' Ha _ _ b Hb. rewrite lookup_fmap_Some in Ha. destruct Ha as (? & <- & _). by apply elem_of_nil in Hb.
Qed.
End system.

Section theorems.
Context (f : features) (asan : bool).
#[local] Instance ms_memory : BlockMemory mem := mem_blocks f asan.

(** C16: block lists are sequences.  On the side metadata of the collector, with any
    choice of features, any sequence of operations on lists that represent disjoint
    sequences of blocks returns what the operations on the sequences return, ends (for
    any fuel of at least the number of blocks in the address space), and leaves lists that represent the
    resulting disjoint sequences. *)
Theorem block_lists_refine (hf : Z → bool) (m : gmap Z BlockList) (M : mem) (L : gmap Z (list Z))
    (ops : list list_op) (rs : list (option Z)) (L' : gmap Z (list Z)) :
  f ∈ all_features → rel hf (m, M) L → spec_run (heap_block asan) hf ops L rs L' →
  ∃ m' M', (∀ fuel, 2 ^ 31 ≤ Z.of_nat fuel → run_ops fuel ops (m, M) = Val (rs, (m', M'))) ∧ rel hf (m', M') L'.
Proof.
  intros Hf HR Hs. pose proof (mem_blocks_laws f asan Hf) as HL.
  destruct (run_ops_ok hf ops (m, M) L rs L' HR Hs) as ([m' M'] & E & R). by exists m', M'.
Qed.
End theorems.

(** Two lists; two blocks are pushed, the first is taken out, and the lists are joined. *)
Definition sample_lists : gmap Z BlockList := {[ 0x1000 := BlockList_new 8; 0x2000 := BlockList_new 8 ]}.
Definition sample_blocks : list list_op :=
  [OpPush 0x1000 0x10000; OpPush 0x1000 0x20000; OpRemove 0x10000; OpPush 0x2000 0x30000; OpAppend 0x2000 0x1000; OpPop 0x2000].
Definition sample_mem : mem := λ _, 0.

Lemma sample_features_in : default_features ∈ all_features.
Proof. apply (list_elem_of_lookup_2 _ 486). by vm_compute. Qed.
Lemma sample_mem_word : mem_ok sample_mem.
Proof. intros a. unfold sample_mem, is_u. lia. Qed.
Lemma sample_block k : 0 < k < 100 → heap_block false (0x10000 * k).
Proof.
  intros Hk. split; [lia|]. split; [exists k; change Block_BYTES with 0x10000; lia|].
  transitivity (0x10000 * 101); [change Block_BYTES with 0x10000; lia|by vm_compute].
Qed.
Lemma absent_elsewhere (L : gmap Z (list Z)) b :
  bool_decide (map_Forall (λ _ l, b ∉ l) L) = true → ∀ a l, L !! a = Some l → b ∉ l.
Proof. intros E. by apply bool_decide_eq_true in E. Qed.

Lemma sample_blocks_run hf :
  spec_run (heap_block false) hf sample_blocks ((λ _, []) <$> sample_lists)
    [None; None; None; None; None; Some 0x30000] {[ 0x1000 := []; 0x2000 := [0x20000] ]}.
Proof.
  eapply spec_run_cons; [apply (spec_push _ _ _ 0x1000 0x10000 []); [reflexivity|by apply (sample_block 1)|by apply absent_elsewhere]|].
  eapply spec_run_cons; [apply (spec_push _ _ _ 0x1000 0x20000 [0x10000]); [reflexivity|by apply (sample_block 2)|by apply absent_elsewhere]|].
  eapply spec_run_cons; [apply (spec_remove _ _ _ 0x1000 [0x20000] 0x10000 []); reflexivity|].
  eapply spec_run_cons; [apply (spec_push _ _ _ 0x2000 0x30000 []); [reflexivity|by apply (sample_block 3)|by apply absent_elsewhere]|].
  eapply spec_run_cons; [apply (spec_append _ _ _ 0x2000 0x1000 [0x30000] [0x20000]); [reflexivity|reflexivity|done]|].
  eapply spec_run_cons; [apply (spec_pop _ _ _ 0x2000 [0x30000; 0x20000]); reflexivity|].
  replace {[0x1000 := []; 0x2000 := [0x20000] ]} with
    (<[0x2000 := tail [0x30000; 0x20000] ]> (<[0x2000 := [0x30000] ++ [0x20000] ]> (<[0x1000 := [] ]> (<[0x2000 := [0x30000] ]>
      (<[0x1000 := [0x20000] ++ [] ]> (<[0x1000 := [0x20000; 0x10000] ]> (<[0x1000 := [0x10000] ]> ((λ _, []) <$> sample_lists))))))))
    by reflexivity.
  apply spec_run_nil.
Qed.

Lemma block_lists_refine_witness :
  ∃ m' M', (∀ fuel, 2 ^ 31 ≤ Z.of_nat fuel → @run_ops mem (mem_blocks default_features false) fuel sample_blocks (sample_lists, sample_mem) =
    Val ([None; None; None; None; None; Some 0x30000], (m', M'))) ∧
  @rel mem (mem_blocks default_features false) (@has_free_cells mem (mem_blocks default_features false) sample_mem) (m', M')
    {[ 0x1000 := []; 0x2000 := [0x20000] ]}.
Proof.
  apply (block_lists_refine default_features false _ _ _ ((λ _, []) <$> sample_lists)); [apply sample_features_in| |apply sample_blocks_run].
  apply (@new_lists_rel mem _ (mem_blocks_laws default_features false sample_features_in)); [apply sample_mem_word|].
  intros a bl Ha. unfold sample_lists in Ha.
  apply lookup_insert_Some in Ha as [[<- <-]|[_ Ha]]; [|apply lookup_singleton_Some in Ha as [<- <-]]; (split; [unfold is_u; lia|done]).
Defined.
