(* ===== verification/SizeClasses.v ===== *)
(** * Size classes and aligned allocation
    (src/src/util/alloc/allocator.rs and the bins of
    src/src/policy/marksweepspace/native_ms/block_list.rs)

    The free-list allocator takes a cell from the bin of the request and aligns the
    object within the cell.  The alignment constants are the binding's. *)

From S2P Require Import Prelude Conversions Memory SideMetadataSearch BlockTables.

Definition BYTES_IN_INT : Z := Z.shiftl 1 LOG_BYTES_IN_INT.

(** ** allocator.rs *)

(** The constants of a binding that allocation uses. *)
Record VMBinding : Type := { MIN_ALIGNMENT : Z; MAX_ALIGNMENT : Z; ALIGNMENT_VALUE : Z; USE_ALLOCATION_OFFSET : bool }.
(** The defaults of the trait. *)
Definition default_binding : VMBinding := {| MIN_ALIGNMENT := 4; MAX_ALIGNMENT := 8; ALIGNMENT_VALUE := 0xdeadbeef; USE_ALLOCATION_OFFSET := true |}.

Section allocator.
Context (VM : VMBinding).

(** The stores are of a [usize]. *)
Fixpoint fill_loop (fuel : nat) (M : mem) (start end_ : Z) : res mem :=
  if start <? end_
  then match fuel with
       | O => NoFuel
       | S fuel => fill_loop fuel (store_bytes 8 M start (ALIGNMENT_VALUE VM)) (start +u BYTES_IN_INT) end_
       end
  else Val M.
Definition fill_alignment_gap (fuel : nat) (M : mem) (immut_start end_ : Z) : res mem :=
  if MAX_ALIGNMENT VM -u MIN_ALIGNMENT VM =? BYTES_IN_INT
  then Val (if end_ -u immut_start =? 0 then M else store_bytes 8 M immut_start (ALIGNMENT_VALUE VM))
  else fill_loop fuel M immut_start end_.

Definition align_allocation_inner (fuel : nat) (M : mem) (region alignment offset known_alignment : Z) (fillalignmentgap : bool)
    : res (Z * mem) :=
  if (alignment <=? known_alignment) || (MAX_ALIGNMENT VM <=? MIN_ALIGNMENT VM) then Val (region, M)
  else
    let region_isize := isize region in
    let mask := isize (alignment -u 1) in
    let neg_off := isize (- isize offset) in
    let delta := Z.land (isize (neg_off - region_isize)) mask in
    M ← (if fillalignmentgap && negb (ALIGNMENT_VALUE VM =? 0)
         then fill_alignment_gap fuel M region (addr_add_offset region delta) else Val M);
    Val (addr_add_offset region delta, M).
Definition align_allocation_no_fill (fuel : nat) (M : mem) (region alignment offset : Z) :=
  align_allocation_inner fuel M region alignment offset (MIN_ALIGNMENT VM) false.
Definition align_allocation (fuel : nat) (M : mem) (region alignment offset : Z) :=
  align_allocation_inner fuel M region alignment offset (MIN_ALIGNMENT VM) true.

Definition get_maximum_aligned_size_inner (size alignment known_alignment : Z) : Z :=
  if (MAX_ALIGNMENT VM <=? MIN_ALIGNMENT VM) || (alignment <=? known_alignment) then size
  else size +u alignment -u known_alignment.
Definition get_maximum_aligned_size (size alignment : Z) : Z :=
  get_maximum_aligned_size_inner size alignment (MIN_ALIGNMENT VM).
End allocator.

(** ** block_list.rs: the bins *)

Definition MI_INTPTR_SHIFT : Z := LOG_BYTES_IN_ADDRESS.
Definition MI_INTPTR_SIZE : Z := Z.shiftl 1 MI_INTPTR_SHIFT.
Definition MI_INTPTR_BITS : Z := MI_INTPTR_SIZE * 8.
Definition MAX_BIN : Z := 48.
Definition MI_BIN_FULL : Z := MAX_BIN + 1.
Definition MAX_BIN_SIZE : Z := 8192 * MI_INTPTR_SIZE.
Definition MI_LARGE_OBJ_SIZE_MAX : Z := Z.min Block_BYTES MAX_BIN_SIZE.

(** The sizes in [new_empty_block_lists]. *)
Definition block_list_sizes : list Z := (λ w, w * MI_INTPTR_SIZE) <$>
  [1; 1; 2; 3; 4; 5; 6; 7; 8; 10; 12; 14; 16; 20; 24; 28; 32; 40; 48; 56; 64; 80; 96; 112; 128; 160; 192; 224; 256;
   320; 384; 448; 512; 640; 768; 896; 1024; 1280; 1536; 1792; 2048; 2560; 3072; 3584; 4096; 5120; 6144; 7168; 8192].
(** [lists[bin].size], which panics out of bounds. *)
Definition bin_size (bin : Z) : res Z :=
  if bin <? 0 then Panic else unwrap (block_list_sizes !! Z.to_nat bin).

Definition mi_wsize_from_size (size : Z) : Z := (size + (MI_INTPTR_SIZE - 1)) `div` MI_INTPTR_SIZE.
Definition mi_bin_from_size (size : Z) : Z :=
  let wsize := mi_wsize_from_size size in
  if wsize <=? 1 then 1
  else if wsize <=? 8 then uwrap 8 wsize
  else
    let wsize := wsize -u 1 in
    let b := uwrap 8 (MI_INTPTR_BITS -u 1 -u leading_zeros 64 wsize) in
    uwrap 8 (uwrap 8 (ushl 8 b 2 + uwrap 8 (Z.land (Z.shiftr wsize (uwrap 8 (b - 2))) 3)) - 3).
Definition mi_bin (VM : VMBinding) (size align : Z) : Z := mi_bin_from_size (get_maximum_aligned_size VM size align).

(** ** Aligning *)

Lemma isize_cong x : ∃ q, isize x = x + q * 2 ^ 64.
Proof. exists (- ((x + 2 ^ 63) `div` 2 ^ 64)). unfold isize. rewrite Z.mod_eq by lia. lia. Qed.
Lemma isize_small x : 0 ≤ x < 2 ^ 63 → isize x = x.
Proof. intros Hx. unfold isize. rewrite Z.mod_small; lia. Qed.

(** The distance to the next address [a] with [a + offset] a multiple of [2 ^ k]. *)
Lemma delta_eq region offset k :
  0 ≤ k < 63 →
  Z.land (isize (isize (- isize offset) - isize region)) (isize (2 ^ k -u 1)) = (- (region + offset)) `mod` 2 ^ k.
Proof.
  intros Hk. assert (2 ^ k ≤ 2 ^ 62) by (apply Z.pow_le_mono_r; lia).
  unfold usub. rewrite uwrap_id, (isize_small (2 ^ k - 1)) by lia.
  replace (2 ^ k - 1) with (Z.ones k) by (rewrite Z.ones_equiv; lia). rewrite Z.land_ones by lia.
  destruct (isize_cong offset) as [q1 E1], (isize_cong (- isize offset)) as [q2 E2], (isize_cong region) as [q3 E3],
    (isize_cong (isize (- isize offset) - isize region)) as [q4 E4].
  rewrite E4, E2, E1, E3. assert (2 ^ 64 = 2 ^ (64 - k) * 2 ^ k) as E64 by (rewrite <-Z.pow_add_r by lia; f_equal; lia).
  rewrite E64. rewrite <-(Z.mod_add (- (region + offset)) ((- q1 + q2 - q3 + q4) * 2 ^ (64 - k))) by lia. f_equal. lia.
Qed.

(** The alignments of a binding: powers of two, with at least an int as the smallest. *)
Record binding_ok (VM : VMBinding) : Prop := {
  vm_min : ∃ k, 2 ≤ k ∧ MIN_ALIGNMENT VM = 2 ^ k;
  vm_max : ∃ k, 2 ≤ k < 32 ∧ MAX_ALIGNMENT VM = 2 ^ k;
  vm_value : is_u 64 (ALIGNMENT_VALUE VM)
}.

(** A request: [align] is between the two and a power of two, and [offset] keeps the
    smallest alignment. *)
Record request_ok (VM : VMBinding) (align offset : Z) : Prop := {
  rq_align : ∃ k, align = 2 ^ k ∧ 2 ≤ k ∧ MIN_ALIGNMENT VM ≤ align ≤ MAX_ALIGNMENT VM;
  rq_offset : 0 ≤ offset < 2 ^ 47 ∧ (MIN_ALIGNMENT VM | offset)
}.

(** The address where the object goes. *)
Definition aligned (region align offset : Z) : Z := region + (- (region + offset)) `mod` align.

Lemma aligned_spec VM region align offset :
  binding_ok VM → request_ok VM align offset → 0 ≤ region < 2 ^ 47 → (MIN_ALIGNMENT VM | region) →
  region ≤ aligned region align offset ≤ region + align - MIN_ALIGNMENT VM ∧ (align | aligned region align offset + offset).
Proof.
  intros [[k1 [H1 Em]] _ _] [(k & -> & H2 & Hr) [_ Ho]] Hreg Hd. rewrite Em in *. unfold aligned.
  assert (k1 ≤ k) as Hle. { destruct (decide (k1 ≤ k)); [done|]. assert (2 ^ k < 2 ^ k1) by (apply Z.pow_lt_mono_r; lia). lia. }
  assert (0 < 2 ^ k1) by (apply Z.pow_pos_nonneg; lia). assert (0 < 2 ^ k) by lia.
  assert (2 ^ k = 2 ^ (k - k1) * 2 ^ k1) as Ek by (rewrite <-Z.pow_add_r by lia; f_equal; lia).
  set (d := (- (region + offset)) `mod` 2 ^ k). pose proof (Z.mod_pos_bound (- (region + offset)) (2 ^ k) ltac:(lia)) as Hb. fold d in Hb.
  assert (- (region + offset) = 2 ^ k * ((- (region + offset)) `div` 2 ^ k) + d) as Ed by (apply Z.div_mod; lia).
  set (q := (- (region + offset)) `div` 2 ^ k) in *. split; [|exists (- q); lia].
  destruct Hd as [r Er], Ho as [o Eo].
  assert (d = (- (r + o) - 2 ^ (k - k1) * q) * 2 ^ k1) as Edm by (rewrite Er, Eo, Ek in Ed; lia).
  split; [lia|]. assert (d ≤ 2 ^ k - 2 ^ k1); [|lia].
  set (e := - (r + o) - 2 ^ (k - k1) * q) in *. assert (e < 2 ^ (k - k1)) by (apply (Z.mul_lt_mono_pos_r (2 ^ k1)); lia).
  rewrite Edm, Ek. assert (e * 2 ^ k1 ≤ (2 ^ (k - k1) - 1) * 2 ^ k1) by (apply Z.mul_le_mono_nonneg_r; lia). lia.
Qed.

(** ** Filling the gap *)

(** Byte [j] of the alignment value. *)
Definition value_byte (VM : VMBinding) (j : Z) : Z := uwrap 8 (Z.shiftr (ALIGNMENT_VALUE VM) (8 * j)).
(** The gap from [start] to [end_] holds the low half of the value over and over; the
    last store also writes the high half after the gap. *)
Definition gap_filled (VM : VMBinding) (M M' : mem) (start end_ : Z) : Prop :=
  ∀ x, M' x = if (start <=? x) && (x <? end_) then value_byte VM ((x - start) `mod` 4)
              else if (start <? end_) && (end_ <=? x) && (x <? end_ + 4) then value_byte VM (4 + (x - end_))
              else M x.

Lemma fill_loop_spec VM fuel M start n :
  (n ≤ fuel)%nat → 0 ≤ start → start + 4 * Z.of_nat n + 4 < 2 ^ 64 →
  ∃ M', fill_loop VM fuel M start (start + 4 * Z.of_nat n) = Val M' ∧ gap_filled VM M M' start (start + 4 * Z.of_nat n).
Proof.
  revert M start fuel. induction n as [|n IH]; intros M start fuel Hfu Hst Hend.
  - exists M. split; [destruct fuel; cbn [fill_loop]; by rewrite (proj2 (Z.ltb_ge start _)) by lia|].
    intros x. destruct (Z.leb_spec start x), (Z.ltb_spec x (start + 4 * Z.of_nat 0)); try lia; cbn [andb];
      rewrite ?(proj2 (Z.ltb_ge start _)) by lia; done.
  - destruct fuel as [|fuel]; [lia|]. cbn [fill_loop]. rewrite (proj2 (Z.ltb_lt start _)) by lia.
    unfold uadd. change BYTES_IN_INT with 4. rewrite uwrap_id by lia.
    destruct (IH (store_bytes 8 M start (ALIGNMENT_VALUE VM)) (start + 4) fuel) as (M' & E & Hg); [lia..|].
    exists M'. replace (start + 4 * Z.of_nat (S n)) with (start + 4 + 4 * Z.of_nat n) by lia. split; [done|].
    intros x. rewrite Hg. unfold store_bytes. change (Z.of_nat 8) with 8.
    destruct (Z.leb_spec start x), (Z.ltb_spec x (start + 4 + 4 * Z.of_nat n)), (Z.leb_spec (start + 4) x),
      (Z.ltb_spec start (start + 4 + 4 * Z.of_nat n)), (Z.ltb_spec (start + 4) (start + 4 + 4 * Z.of_nat n)),
      (Z.leb_spec (start + 4 + 4 * Z.of_nat n) x), (Z.ltb_spec x (start + 4 + 4 * Z.of_nat n + 4)), (Z.ltb_spec x (start + 8));
      try lia; cbn [andb]; try done; unfold value_byte.
    + do 3 f_equal. replace (x - start) with (x - (start + 4) + 1 * 4) by lia. by rewrite Z.mod_add by lia.
    + do 3 f_equal. replace (x - start) with (x - (start + 4) + 1 * 4) by lia. by rewrite Z.mod_add by lia.
    + do 3 f_equal. rewrite Z.mod_small; lia.
    + do 3 f_equal. rewrite Z.mod_small; lia.
    + do 3 f_equal. lia.
Qed.

Lemma fill_gap_spec VM fuel M start delta :
  binding_ok VM → (MIN_ALIGNMENT VM | delta) → 0 ≤ delta ≤ MAX_ALIGNMENT VM - MIN_ALIGNMENT VM → delta ≤ 4 * Z.of_nat fuel →
  0 ≤ start < 2 ^ 47 →
  ∃ M', fill_alignment_gap VM fuel M start (start + delta) = Val M' ∧ gap_filled VM M M' start (start + delta).
Proof.
  intros [[k1 [H1 Em]] [k2 [H2 EM]] _] [q Eq] Hd Hfu Hst. unfold fill_alignment_gap.
  assert (2 ^ k2 < 2 ^ 32) by (apply Z.pow_lt_mono_r; lia). assert (0 < 2 ^ k1) by (apply Z.pow_pos_nonneg; lia).
  unfold usub. rewrite !uwrap_id by lia. change BYTES_IN_INT with 4.
  assert (2 ^ k1 = 4 * 2 ^ (k1 - 2)) as E4 by (change 4 with (2 ^ 2); rewrite <-Z.pow_add_r by lia; f_equal; lia).
  destruct (Z.eqb_spec (MAX_ALIGNMENT VM - MIN_ALIGNMENT VM) 4) as [E|E].
  - eexists. split; [reflexivity|]. replace (start + delta - start) with delta by lia. intros x. unfold store_bytes.
    change (Z.of_nat 8) with 8. destruct (Z.eqb_spec delta 0) as [-> |Hne].
    + rewrite (proj2 (Z.ltb_ge start _)) by lia. destruct (Z.leb_spec start x), (Z.ltb_spec x (start + 0)); try lia; done.
    + assert (delta = 4) as -> by nia.
      destruct (Z.leb_spec start x), (Z.ltb_spec x (start + 4)), (Z.ltb_spec x (start + 8)), (Z.ltb_spec start (start + 4)),
        (Z.leb_spec (start + 4) x), (Z.ltb_spec x (start + 4 + 4)); try lia; cbn [andb]; try done; unfold value_byte; do 3 f_equal.
      * rewrite Z.mod_small; lia.
      * lia.
  - set (n := Z.to_nat (delta `div` 4)). assert (delta = 4 * Z.of_nat n) as En.
    { unfold n. rewrite Z2Nat.id by (apply Z.div_pos; lia). replace delta with (q * 2 ^ (k1 - 2) * 4) by (rewrite Eq, Em, E4; lia).
      rewrite Z.div_mul; lia. }
    rewrite En. apply fill_loop_spec; lia.
Qed.

(** ** Bins *)

(** [mi_bin_from_size] on every number of words up to the largest. *)
Definition bin_checks (w : Z) : bool :=
  let bin := mi_bin_from_size (w * 8) in
  (1 <=? bin) && (bin <=? MAX_BIN) &&
  match bin_size bin, bin_size (bin - 1) with
  | Val s, Val s' => (w * 8 <=? s) && ((bin <=? 1) || (s' <=? (w - 1) * 8))
  | _, _ => false
  end.
Lemma bins_checked : forallb bin_checks (Z.of_nat <$> seq 0 (Z.to_nat 8193)) = true.
Proof. by vm_compute. Qed.

Lemma wsize_words size : 0 ≤ size → mi_wsize_from_size (mi_wsize_from_size size * 8) = mi_wsize_from_size size.
Proof.
  intros Hs. unfold mi_wsize_from_size. change MI_INTPTR_SIZE with 8. set (w := (size + (8 - 1)) `div` 8).
  symmetry. apply (Z.div_unique _ _ _ 7); lia.
Qed.
Lemma wsize_bounds size : 0 ≤ size → 8 * (mi_wsize_from_size size - 1) < size ≤ 8 * mi_wsize_from_size size ∨ size = 0 ∧ mi_wsize_from_size size = 0.
Proof.
  intros Hs. unfold mi_wsize_from_size. change MI_INTPTR_SIZE with 8.
  pose proof (Z.div_mod (size + (8 - 1)) 8 ltac:(lia)). pose proof (Z.mod_pos_bound (size + (8 - 1)) 8 ltac:(lia)).
  destruct (decide (size = 0)) as [-> |]; [by right|left; lia].
Qed.

Lemma bin_spec size :
  0 ≤ size ≤ MAX_BIN_SIZE →
  let bin := mi_bin_from_size size in
  1 ≤ bin ≤ MAX_BIN ∧ ∃ s s', bin_size bin = Val s ∧ bin_size (bin - 1) = Val s' ∧ size ≤ s ∧ (1 < bin → s' < size).
Proof.
  intros Hs. set (w := mi_wsize_from_size size).
  assert (0 ≤ w ≤ 8192) as Hw.
  { unfold w, mi_wsize_from_size. change MI_INTPTR_SIZE with 8. change MAX_BIN_SIZE with 65536 in Hs.
    split; [apply Z.div_pos; lia|]. apply Z.lt_succ_r, Z.div_lt_upper_bound; lia. }
  assert (mi_bin_from_size (w * 8) = mi_bin_from_size size) as Eb.
  { unfold mi_bin_from_size. unfold w. by rewrite wsize_words by lia. }
  pose proof bins_checked as Hall. rewrite forallb_forall in Hall.
  specialize (Hall w). assert (bin_checks w = true) as Hc.
  { apply Hall, list_elem_of_In, list_elem_of_fmap. exists (Z.to_nat w). rewrite elem_of_seq. lia. }
  clear Hall. unfold bin_checks in Hc. rewrite Eb in Hc. cbv zeta. set (bin := mi_bin_from_size size) in *.
  destruct (bin_size bin) as [s| |]; [|by rewrite andb_false_r in Hc..].
  destruct (bin_size (bin - 1)) as [s'| |]; [|by rewrite andb_false_r in Hc..].
  rewrite !andb_true_iff, orb_true_iff, !Z.leb_le in Hc. destruct Hc as [[? ?] [? ?]].
  pose proof (wsize_bounds size ltac:(lia)) as Hwb. fold w in Hwb.
  split; [lia|]. exists s, s'. split_and!; [done..| |].
  - lia.
  - intros Hb. destruct Hwb as [?|[-> Hw0]]; [lia|]. exfalso. revert Hb. unfold bin. by vm_compute.
Qed.

(** ** An object in a cell *)

Lemma align_allocation_spec VM fuel M region align offset :
  binding_ok VM → request_ok VM align offset → 0 < region < 2 ^ 47 → (MIN_ALIGNMENT VM | region) → align ≤ 4 * Z.of_nat fuel →
  ∃ M', align_allocation VM fuel M region align offset = Val (aligned region align offset, M') ∧
    (M' = M ∨ gap_filled VM M M' region (aligned region align offset)).
Proof.
  intros HV HR Hreg Hd Hfu. destruct (aligned_spec VM region align offset HV HR ltac:(lia) Hd) as [Hal Hdiv].
  pose proof HV as [[k1 [H1 Em]] [k2 [H2 EM]] _]. pose proof HR as [(k & Ek & H3 & Hr) [Ho1 Ho2]].
  unfold align_allocation, align_allocation_inner.
  destruct ((align <=? MIN_ALIGNMENT VM) || (MAX_ALIGNMENT VM <=? MIN_ALIGNMENT VM)) eqn:E.
  { exists M. apply orb_true_iff in E. rewrite !Z.leb_le in E. assert (align = MIN_ALIGNMENT VM) by lia.
    split; [|by left]. do 2 f_equal. lia. }
  assert (k < 63) as Hk. { apply (Z.pow_lt_mono_r_iff 2); [lia..|]. assert (2 ^ k2 < 2 ^ 63) by (apply Z.pow_lt_mono_r; lia). lia. }
  rewrite Ek, delta_eq by lia. rewrite <-Ek. set (delta := (- (region + offset)) `mod` align).
  assert (aligned region align offset = region + delta) as Ea by done. rewrite Ea in *.
  assert (align < 2 ^ 32) as Hal32. { rewrite Ek, EM in *. assert (2 ^ k2 < 2 ^ 32) by (apply Z.pow_lt_mono_r; lia). lia. }
  assert (addr_add_offset region delta = region + delta) as ->.
  { unfold addr_add_offset. rewrite (isize_small region), isize_small, uwrap_id by lia. done. }
  destruct (true && negb (ALIGNMENT_VALUE VM =? 0)); cbn [mbind res_bind]; [|exists M; split; [done|by left]].
  destruct (fill_gap_spec VM fuel M region delta) as (M' & -> & Hg); try done; try lia.
  - destruct Hdiv as [a Ha]. assert (MIN_ALIGNMENT VM | align) as Hma.
    { rewrite Em, Ek. exists (2 ^ (k - k1)). assert (k1 ≤ k) by (apply (Z.pow_le_mono_r_iff 2); lia). rewrite <-Z.pow_add_r by lia. f_equal. lia. }
    replace delta with (a * align - region - offset) by lia.
    apply Z.divide_sub_r; [apply Z.divide_sub_r; [by apply Z.divide_mul_r|done]|done].
  - exists M'. split; [done|by right].
Qed.

(** What allocation in a cell of the bin of the request guarantees. *)
Record allocates (VM : VMBinding) (fuel : nat) (M : mem) (size align offset cell : Z) : Prop := {
  al_bin : 1 ≤ mi_bin VM size align ≤ MAX_BIN;
  al_cell : ∃ cell_size r M', bin_size (mi_bin VM size align) = Val cell_size ∧
    align_allocation VM fuel M cell align offset = Val (r, M') ∧
    (align | r + offset) ∧ cell ≤ r ∧ r + size ≤ cell + cell_size ∧
    (∀ x, x < cell ∨ r + 4 ≤ x → M' x = M x) ∧
    (ALIGNMENT_VALUE VM < 2 ^ 32 → ∀ x, r ≤ x → M' x = M x ∨ M' x = 0);
  al_tight : 1 < mi_bin VM size align → ∃ smaller, bin_size (mi_bin VM size align - 1) = Val smaller ∧
    smaller < get_maximum_aligned_size VM size align
}.

Lemma allocates_ok (VM : VMBinding) (fuel : nat) (M : mem) (size align offset cell : Z) :
  binding_ok VM → MIN_ALIGNMENT VM ≤ 8 → request_ok VM align offset → 0 < size ≤ MAX_BIN_SIZE →
  get_maximum_aligned_size VM size align ≤ MAX_BIN_SIZE →
  0 < cell < 2 ^ 47 → (8 | cell) → align ≤ 4 * Z.of_nat fuel → allocates VM fuel M size align offset cell.
Proof.
  intros HV H8 HR Hsz Hmax Hcell Hc8 Hfu. pose proof HV as [[k1 [H1 Em]] [k2 [H2 EM]] _]. pose proof HR as [(k & Ek & H3 & Hr) _].
  assert (MIN_ALIGNMENT VM | cell) as Hmc.
  { etrans; [|exact Hc8]. rewrite Em in *. exists (2 ^ (3 - k1)). assert (k1 ≤ 3) by (apply (Z.pow_le_mono_r_iff 2); lia).
    rewrite <-Z.pow_add_r by lia. replace (3 - k1 + k1) with 3 by lia. done. }
  destruct (aligned_spec VM cell align offset HV HR ltac:(lia) Hmc) as [Hal Hdiv].
  destruct (align_allocation_spec VM fuel M cell align offset HV HR Hcell Hmc Hfu) as (M' & Ea & Hg).
  assert (0 ≤ get_maximum_aligned_size VM size align ∧ size + (align - MIN_ALIGNMENT VM) ≤ get_maximum_aligned_size VM size align) as [Hpos Hpad].
  { unfold get_maximum_aligned_size, get_maximum_aligned_size_inner. change MAX_BIN_SIZE with 65536 in *.
    assert (2 ^ k2 < 2 ^ 32) by (apply Z.pow_lt_mono_r; lia). destruct (_ || _) eqn:E.
    - apply orb_true_iff in E. rewrite !Z.leb_le in E. lia.
    - unfold uadd, usub. rewrite (uwrap_id 64 (size + align)), uwrap_id by lia. lia. }
  destruct (bin_spec (get_maximum_aligned_size VM size align) ltac:(lia)) as (Hb & s & s' & E1 & E2 & Hs & Hs').
  fold (mi_bin VM size align) in *. split; [done| |intros Hb1; exists s'; auto].
  exists s, (aligned cell align offset), M'. split; [done|]. split; [done|]. split; [done|]. split; [lia|]. split; [lia|].
  split.
  - intros x Hx. destruct Hg as [-> |Hg]; [done|]. rewrite Hg.
    destruct (Z.leb_spec cell x), (Z.ltb_spec x (aligned cell align offset)); try lia; cbn [andb]; try done;
      rewrite ?(proj2 (Z.ltb_ge x _)) by lia; by rewrite ?andb_false_r, ?(proj2 (Z.leb_gt _ x)), ?andb_false_r by lia.
  - intros Hv x Hx. destruct Hg as [-> |Hg]; [by left|]. rewrite Hg. rewrite (proj2 (Z.ltb_ge x _)) by lia. rewrite andb_false_r.
    destruct (_ && _ && _) eqn:E; [|by left]. right. apply andb_true_iff in E as [[E3 E4]%andb_true_iff E5]. apply Z.leb_le in E4. apply Z.ltb_lt in E5.
    unfold value_byte. rewrite Z.shiftr_div_pow2, Z.div_small; [done| |lia].
    pose proof (vm_value _ HV) as [? _]. split; [done|].
    assert (2 ^ 32 ≤ 2 ^ (8 * (4 + (x - aligned cell align offset)))) by (apply Z.pow_le_mono_r; lia). lia.
Qed.

(** C33: an aligned object fits its cell.  A request whose size with padding is at most
    the largest bin is given a bin; the cells of that bin are the smallest that hold the
    request at any alignment; the object is placed at the requested alignment within any
    cell; and the gap before it is filled without changing memory outside the cell, and
    leaving zeroed memory of the object zeroed. *)
Theorem object_fits_cell (VM : VMBinding) (fuel : nat) (M : mem) (size align offset cell : Z) :
  binding_ok VM → MIN_ALIGNMENT VM ≤ 8 → request_ok VM align offset → 0 < size ≤ MAX_BIN_SIZE →
  get_maximum_aligned_size VM size align ≤ MAX_BIN_SIZE →
  0 < cell < 2 ^ 47 → (8 | cell) → align ≤ 4 * Z.of_nat fuel → allocates VM fuel M size align offset cell.
Proof. apply allocates_ok. Qed.

(** The default binding, and an object of 24 bytes at an alignment of 8. *)
Lemma default_binding_ok : binding_ok default_binding.
Proof. split; [by exists 2|by exists 3|by vm_compute]. Qed.
Lemma object_fits_cell_witness : allocates default_binding 2 (λ _, 0) 24 8 4 0x20000010008.
Proof.
  apply (object_fits_cell default_binding 2); [apply default_binding_ok|by vm_compute| |by vm_compute..|lia| |by vm_compute].
  - split; [exists 3; cbn; lia|split; [lia|by exists 1]].
  - by exists (0x20000010008 / 8).
Defined.

(** A request of the largest size with an alignment above the smallest is given bin 49,
    which does not exist: the access to the lists panics. *)
Lemma largest_size_overflows :
  let VM := {| MIN_ALIGNMENT := 8; MAX_ALIGNMENT := 16; ALIGNMENT_VALUE := 0; USE_ALLOCATION_OFFSET := true |} in
  mi_bin VM MI_LARGE_OBJ_SIZE_MAX 16 = 49 ∧ bin_size (mi_bin VM MI_LARGE_OBJ_SIZE_MAX 16) = Panic.
Proof. by vm_compute. Qed.
(** The gap is filled by stores of eight bytes every four bytes, so the last one writes
    four bytes after the gap. *)
Lemma fill_overruns :
  let VM := {| MIN_ALIGNMENT := 4; MAX_ALIGNMENT := 8; ALIGNMENT_VALUE := 0xdeadbeefcafe0001; USE_ALLOCATION_OFFSET := true |} in
  ∃ M', fill_alignment_gap VM 1 (λ _, 0) 0x1000 0x1004 = Val M' ∧ M' 0x1004 = 0xef.
Proof. eexists. split; [reflexivity|by vm_compute]. Qed.
