(* ===== verification/BlockCells.v ===== *)
(** * The cells of a mark-sweep block
    (the sweeps of src/src/policy/marksweepspace/native_ms/block.rs, and [init_block]
    and [block_alloc] of src/src/util/alloc/free_list_allocator.rs)

    A block is divided into cells of one size.  The free cells are linked through their
    first words.  Sweeping rebuilds the list from the mark bits, which are side metadata of
    the binding: a parameter, which stores to cells do not change.  The features are without
    [vo_bit] and [malloc_native_mimalloc]. *)

From S2P Require Import Prelude Conversions Memory SideMetadataSpecs Regions BlockTables ChunkMap BlockList BlockListRefine SizeClasses.

(** [BlockState]: the byte in the table of marks. *)
Inductive BlockState : Type := Unallocated | Unmarked | Marked.
#[export] Instance BlockState_eq_dec : EqDecision BlockState.
Proof. solve_decision. Defined.
Definition BlockState_from_u8 (state : Z) : res BlockState :=
  if state =? 0 then Val Unallocated else if state =? 255 then Val Unmarked else if state =? 254 then Val Marked else Panic.
Definition u8_from_BlockState (state : BlockState) : Z := match state with Unallocated => 0 | Unmarked => 255 | Marked => 254 end.

Section cells.
Context {S : Type} `{BlockMemory S}.
Context (is_marked : S → Z → bool).
(** [OBJECT_REF_OFFSET_LOWER_BOUND] of the binding. *)
Context (ref_offset : Z).

Definition load_block_cell_size (s : S) (b : Z) : Z := tload SIZE_TABLE s b.
Definition store_block_cell_size (s : S) (b size : Z) : S := tstore SIZE_TABLE s b size.

Fixpoint simple_sweep_loop (fuel : nat) (block cell_size : Z) (s : S) (cell last : Z) : res (S * Z) :=
  if cell +u cell_size <=? block +u Block_BYTES
  then
    match fuel with
    | O => NoFuel
    | Datatypes.S fuel =>
      if negb (is_marked s cell)
      then simple_sweep_loop fuel block cell_size (wstore s cell last) (cell +u cell_size) cell
      else simple_sweep_loop fuel block cell_size s (cell +u cell_size) last
    end
  else Val (s, last).
Definition simple_sweep (fuel : nat) (s : S) (self : Z) : res S :=
  let cell_size := load_block_cell_size s self in
  '(s, last) ← simple_sweep_loop fuel self cell_size s self 0;
  Val (store_free_list s self last).

Fixpoint naive_sweep_loop (fuel : nat) (block cell_size : Z) (s : S) (cell last cursor : Z) : res (S * Z) :=
  if cell +u cell_size <=? block +u Block_BYTES
  then
    match fuel with
    | O => NoFuel
    | Datatypes.S fuel =>
      let potential_object_ref := addr_add_offset cursor ref_offset in
      if is_marked s potential_object_ref
      then let cell := cell +u cell_size in naive_sweep_loop fuel block cell_size s cell last cell
      else
        let cursor := cursor +u MIN_OBJECT_SIZE in
        if cell +u cell_size <=? cursor
        then naive_sweep_loop fuel block cell_size (wstore s cell last) (cell +u cell_size) cell cursor
        else naive_sweep_loop fuel block cell_size s cell last cursor
    end
  else Val (s, last).
Definition naive_brute_force_sweep (fuel : nat) (s : S) (self : Z) : res S :=
  let cell_size := load_block_cell_size s self in
  '(s, last) ← naive_sweep_loop fuel self cell_size s self 0 self;
  Val (store_free_list s self last).

(** [UNIFIED_OBJECT_REFERENCE_ADDRESS] of the binding is [unified]. *)
Definition sweep (VM : VMBinding) (unified : bool) (fuel : nat) (s : S) (self : Z) : res S :=
  if negb (USE_ALLOCATION_OFFSET VM) && (MAX_ALIGNMENT VM =? MIN_ALIGNMENT VM)
     && raw_is_aligned (load_block_cell_size s self) (MAX_ALIGNMENT VM) && unified
  then simple_sweep fuel s self
  else naive_brute_force_sweep fuel s self.

Definition get_state (s : S) (b : Z) : res BlockState := BlockState_from_u8 (tload MARK_TABLE s b).
Definition set_state (s : S) (b : Z) (state : BlockState) : S := tstore MARK_TABLE s b (u8_from_BlockState state).
Definition Block_init (s : S) (b : Z) : S := set_state s b Unmarked.
Definition Block_deinit (s : S) (b : Z) : S := set_state s b Unallocated.
Definition Block_chunk (b : Z) : Z := from_unaligned_address LOG_BYTES_IN_CHUNK b.
Definition record_new_block (chunk_map : ChunkMap) (s : S) (block : Z) : res (ChunkMap * S) :=
  ChunkMap_set chunk_map (Block_init s block) (Block_chunk block) Allocated.

Fixpoint init_block_loop (fuel : nat) (block_end cell_size : Z) (s : S) (old_cell new_cell : Z) : res (S * Z) :=
  match fuel with
  | O => NoFuel
  | Datatypes.S fuel =>
    let s := wstore s new_cell old_cell in
    let old_cell := new_cell in
    let new_cell := new_cell +u cell_size in
    if block_end <? new_cell +u cell_size then Val (s, old_cell)
    else init_block_loop fuel block_end cell_size s old_cell new_cell
  end.
Definition init_block (fuel : nat) (chunk_map : ChunkMap) (s : S) (block cell_size tls : Z) : res (ChunkMap * S) :=
  '(chunk_map, s) ← record_new_block chunk_map s block;
  '(s, final_cell) ← init_block_loop fuel (block +u Block_BYTES) cell_size s 0 block;
  let s := store_free_list s block final_cell in
  let s := store_block_cell_size s block cell_size in
  Val (chunk_map, tstore TLS_TABLE s block tls).

Definition block_alloc (s : S) (block : Z) : Z * S :=
  let cell := load_free_list s block in
  if cell =? 0 then (cell, s)
  else
    let next_cell := wload s cell in
    let s := wstore s cell 0 in
    let s := store_free_list s block next_cell in
    let cell_size := load_block_cell_size s block in
    (cell, wzero s cell cell_size).

(** Allocations one after another. *)
Fixpoint block_allocs (n : nat) (s : S) (block : Z) : list Z * S :=
  match n with
  | O => ([], s)
  | Datatypes.S n => let '(c, s) := block_alloc s block in let '(cs, s) := block_allocs n s block in (c :: cs, s)
  end.
End cells.

(** ** The free list *)

Section specs.
Context {S : Type} `{BlockMemoryLaws S}.
Implicit Types s : S.

(** The cells of the block. *)
Definition n_cells (cs : Z) : nat := Z.to_nat (Block_BYTES `div` cs).
Definition cell_at (b cs : Z) (i : nat) : Z := b + Z.of_nat i * cs.
Definition cells (b cs : Z) : list Z := cell_at b cs <$> seq 0 (n_cells cs).
Definition size_ok (cs : Z) : Prop := 8 ≤ cs ≤ Block_BYTES ∧ (8 | cs).

(** The cells of [l] are linked from [c]. *)
Fixpoint free_chain s (c : Z) (l : list Z) : Prop :=
  match l with
  | [] => c = 0
  | x :: l => c = x ∧ free_chain s (wload s x) l
  end.

Record free_cells s (b cs : Z) (l : list Z) : Prop := {
  fc_ok : bm_ok s;
  fc_size : load_block_cell_size s b = cs;
  fc_chain : free_chain s (load_free_list s b) l;
  fc_nodup : NoDup l;
  fc_cells : ∀ c, c ∈ l → c ∈ cells b cs
}.

Lemma n_cells_bound cs i : size_ok cs → (i < n_cells cs)%nat → Z.of_nat i * cs + cs ≤ Block_BYTES.
Proof.
  intros [Hc _] Hi. unfold n_cells in Hi. assert (Z.of_nat i + 1 ≤ Block_BYTES `div` cs) as Hle by lia.
  pose proof (Z.mul_div_le Block_BYTES cs ltac:(lia)). nia.
Qed.
Lemma n_cells_end cs : size_ok cs → Block_BYTES < Z.of_nat (n_cells cs) * cs + cs.
Proof.
  intros [Hc _]. unfold n_cells. rewrite Z2Nat.id by (apply Z.div_pos; change Block_BYTES with 65536; lia).
  pose proof (Z.mul_succ_div_gt Block_BYTES cs ltac:(lia)). lia.
Qed.
Lemma cells_elem b cs c : c ∈ cells b cs ↔ ∃ i, (i < n_cells cs)%nat ∧ c = cell_at b cs i.
Proof. unfold cells. rewrite list_elem_of_fmap. setoid_rewrite elem_of_seq. split; intros (i & ? & ?); exists i; (split; [done || lia|done || lia]). Qed.

Lemma cells_apart b cs c c' : size_ok cs → c ∈ cells b cs → c' ∈ cells b cs → c ≠ c' → c + cs ≤ c' ∨ c' + cs ≤ c.
Proof.
  intros [Hc _] (i & _ & ->)%cells_elem (j & _ & ->)%cells_elem Hne. unfold cell_at in *.
  destruct (decide (i < j)%nat); [left|right; destruct (decide (i = j)); [by subst|]]; nia.
Qed.
Lemma cells_in b cs c : block_ok b → size_ok cs → c ∈ cells b cs → b ≤ c ∧ c + cs ≤ b + Block_BYTES ∧ 0 < c < 2 ^ 47 ∧ in_block c cs ∧ in_block c 8.
Proof.
  intros Hb Hc (i & Hi & ->)%cells_elem. pose proof (n_cells_bound cs i Hc Hi). destruct (block_range b Hb) as (Hlo & _ & Hhi).
  destruct Hc as [Hc _]. unfold cell_at. split_and!; try nia; exists b; (split; [done|nia]).
Qed.

Lemma free_chain_same s s' c l : (∀ x, x ∈ l → wload s' x = wload s x) → free_chain s c l → free_chain s' c l.
Proof.
  revert c. induction l as [|x l IH]; intros c Hs Hc; cbn [free_chain] in *; [done|]. destruct Hc as [-> Hc].
  split; [done|]. rewrite Hs by set_solver. apply IH; [set_solver|done].
Qed.

(** ** Allocating *)

Lemma block_alloc_spec s b cs l :
  block_ok b → size_ok cs → free_cells s b cs l →
  let '(c, s') := block_alloc s b in
  c = default 0 (head l) ∧ free_cells s' b cs (tail l) ∧
  (∀ x, in_block x 8 → (∀ c, head l = Some c → x + 8 ≤ c ∨ c + cs ≤ x) → wload s' x = wload s x) ∧
  (∀ c x, head l = Some c → c ≤ x → x + 8 ≤ c + cs → wload s' x = 0).
Proof.
  intros Hb Hc HF. pose proof HF as [F1 F2 F3 F4 F5]. unfold block_alloc. destruct l as [|c l]; cbn [free_chain head tail default] in *.
  - rewrite F3. cbn. split_and!; [done|done|done|done].
  - destruct F3 as [E F3]. rewrite E. destruct (cells_in b cs c Hb Hc (F5 c ltac:(set_solver))) as (C1 & C2 & C3 & C4 & C5).
    destruct (Z.eqb_spec c 0); [lia|]. apply NoDup_cons in F4 as [N1 N2].
    set (s1 := wstore s c 0). assert (bm_ok s1) as O1 by (by apply wstore_ok).
    pose proof (wload_range s c F1) as Hw.
    set (s2 := store_free_list s1 b (wload s c)). assert (bm_ok s2) as O2 by (by apply tstore_ok).
    assert (load_block_cell_size s2 b = cs) as Es.
    { unfold load_block_cell_size, s2, store_free_list. rewrite tload_tstore, decide_False by (done || naive_solver).
      unfold s1. by rewrite tload_wstore. }
    rewrite Es. set (s3 := wzero s2 c cs).
    assert (∀ x, in_block x 8 → x + 8 ≤ c ∨ c + cs ≤ x → wload s3 x = wload s x) as Hout.
    { intros x Hx Hd. destruct Hc as [Hc _]. unfold s3. rewrite wload_wzero_ne by lia. unfold s2, store_free_list. rewrite wload_tstore by done.
      unfold s1. apply wload_wstore_ne. lia. }
    split; [done|]. split; [|split].
    + split.
      * by apply wzero_ok.
      * unfold load_block_cell_size, s3. by rewrite tload_wzero.
      * unfold load_free_list, s3. rewrite tload_wzero by done. unfold s2, store_free_list. rewrite tload_tstore, decide_True by done.
        apply (free_chain_same s); [|done]. intros x Hx.
        assert (x ∈ cells b cs) as Hxc by (apply F5; set_solver). assert (x ≠ c) by (by intros ->).
        destruct (cells_in b cs x Hb Hc Hxc) as (? & ? & ? & ? & ?). pose proof (cells_apart b cs x c Hc Hxc (F5 c ltac:(set_solver)) ltac:(done)).
        destruct Hc as [Hc _]. apply Hout; [done|lia].
      * done.
      * set_solver.
    + intros x Hx Hd. apply Hout; [done|]. by apply Hd.
    + intros c' x [= <-] H1 H2. unfold s3. by apply wload_wzero.
Qed.
(** ** Building the list *)

(** Cells with index below [i] have been linked from [last] to [l]. *)
Record linking s0 s (b cs : Z) (i : nat) (last : Z) (l : list Z) : Prop := {
  lk_ok : bm_ok s;
  lk_tables : ∀ t b', block_ok b' → tload t s b' = tload t s0 b';
  lk_chunks : ∀ c, chunk_ok c → cload s c = cload s0 c;
  lk_stores : stores s0 s;
  lk_chain : free_chain s last l;
  lk_nodup : NoDup l;
  lk_cells : ∀ c, c ∈ l → ∃ j, (j < i)%nat ∧ (j < n_cells cs)%nat ∧ c = cell_at b cs j;
  lk_heap : ∀ x, in_block x 8 → (∀ c, c ∈ l → x + 8 ≤ c ∨ c + 8 ≤ x) → wload s x = wload s0 x
}.

Lemma linking_start s b cs : bm_ok s → linking s s b cs 0 0 [].
Proof. intros Hs. split; try done; [constructor|apply NoDup_nil_2|set_solver]. Qed.
Lemma linking_skip s0 s b cs i last l : linking s0 s b cs i last l → linking s0 s b cs (Datatypes.S i) last l.
Proof. intros [A1 A2 A2' A2'' A3 A4 A5 A6]. split; try done. intros c Hc. destruct (A5 c Hc) as (j & ? & ? & ?). exists j. split_and!; (done || lia). Qed.
Lemma linking_last s0 s b cs i last l : block_ok b → size_ok cs → linking s0 s b cs i last l → is_u 64 last.
Proof.
  intros Hb Hc [_ _ _ _ A3 _ A5 _]. destruct l as [|c l]; cbn in A3; [subst; unfold is_u; lia|]. destruct A3 as [-> _].
  destruct (A5 c ltac:(set_solver)) as (j & _ & Hj & ->).
  destruct (cells_in b cs (cell_at b cs j) Hb Hc) as (_ & _ & ? & _); [apply cells_elem; eauto|]. unfold is_u. lia.
Qed.
Lemma linking_add s0 s b cs i last l :
  block_ok b → size_ok cs → (i < n_cells cs)%nat → linking s0 s b cs i last l →
  linking s0 (wstore s (cell_at b cs i) last) b cs (Datatypes.S i) (cell_at b cs i) (cell_at b cs i :: l).
Proof.
  intros Hb Hc Hi HL. pose proof HL as [A1 A2 A2' A2'' A3 A4 A5 A6]. pose proof (linking_last _ _ _ _ _ _ _ Hb Hc HL) as Hlast.
  set (c := cell_at b cs i). assert (c ∈ cells b cs) as Hcc by (apply cells_elem; eauto).
  destruct (cells_in b cs c Hb Hc Hcc) as (C1 & C2 & C3 & C4 & C5).
  assert (∀ x, x ∈ l → x + cs ≤ c) as Hbefore.
  { intros x Hx. destruct (A5 x Hx) as (j & Hj & _ & ->). unfold c, cell_at. destruct Hc as [Hc _]. nia. }
  assert (8 ≤ cs) as H8 by (destruct Hc; lia). split.
  - by apply wstore_ok.
  - intros t b' Hb'. rewrite tload_wstore by done. by apply A2.
  - intros c' Hc'. rewrite cload_wstore by done. by apply A2'.
  - by constructor.
  - cbn [free_chain]. split; [done|]. rewrite wload_wstore by done. apply (free_chain_same s); [|done].
    intros x Hx. apply wload_wstore_ne. specialize (Hbefore x Hx). lia.
  - apply NoDup_cons. split; [|done]. intros Hin. specialize (Hbefore c Hin). lia.
  - intros x [-> |Hx]%elem_of_cons; [exists i; split_and!; (done || lia)|].
    destruct (A5 x Hx) as (j & ? & ? & ?). exists j. split_and!; (done || lia).
  - intros x Hx Hd. rewrite wload_wstore_ne; [apply A6; [done|]; intros y Hy; apply Hd; set_solver|].
    destruct (Hd c ltac:(set_solver)); lia.
Qed.

(** The list is put into the table of the block. *)
Lemma linking_finish s0 s s' b cs i last l :
  block_ok b → size_ok cs → linking s0 s b cs i last l →
  bm_ok s' → load_free_list s' b = last → load_block_cell_size s' b = cs → (∀ x, in_block x 8 → wload s' x = wload s x) →
  free_cells s' b cs l ∧ ∀ x, in_block x 8 → (∀ c, c ∈ l → x + 8 ≤ c ∨ c + 8 ≤ x) → wload s' x = wload s0 x.
Proof.
  intros Hb Hc [A1 A2 A2' A2'' A3 A4 A5 A6] Hs' Hfl Hsz Hw.
  assert (∀ x, x ∈ l → x ∈ cells b cs) as Hin.
  { intros x Hx. destruct (A5 x Hx) as (j & _ & ? & ->). apply cells_elem. eauto. }
  split; [split; try done|].
  - rewrite Hfl. apply (free_chain_same s); [|done]. intros x Hx. apply Hw. by apply (cells_in b cs x Hb Hc), Hin.
  - intros x Hx Hd. rewrite Hw by done. by apply A6.
Qed.
(** ** Sweeping *)

Context (is_marked : S → Z → bool) (ref_offset : Z).
Context (Hmark : ∀ s a v x, bm_ok s → in_block a 8 → is_marked (wstore s a v) x = is_marked s x).

(** The dead cells from index [i] on, last first. *)
Definition dead_from (live : Z → bool) (b cs : Z) (i n : nat) : list Z :=
  rev (List.filter (λ c, negb (live c)) (cell_at b cs <$> seq i n)).

Lemma cell_next b cs i : block_ok b → size_ok cs → (i < n_cells cs)%nat →
  cell_at b cs i +u cs = cell_at b cs (Datatypes.S i) ∧ (cell_at b cs i +u cs <=? b +u Block_BYTES) = true.
Proof.
  intros Hb Hc Hi. pose proof (n_cells_bound cs i Hc Hi). destruct (block_range b Hb) as (Hlo & _ & Hhi). destruct Hc as [Hc _].
  unfold uadd, cell_at. rewrite !uwrap_id by nia. split; [lia|]. apply Z.leb_le. nia.
Qed.
Lemma cells_done b cs : block_ok b → size_ok cs → (cell_at b cs (n_cells cs) +u cs <=? b +u Block_BYTES) = false.
Proof.
  intros Hb Hc. pose proof (n_cells_end cs Hc). destruct (block_range b Hb) as (Hlo & _ & Hhi).
  assert (Z.of_nat (n_cells cs) * cs ≤ Block_BYTES) as Hle.
  { destruct Hc as [Hc _]. unfold n_cells. rewrite Z2Nat.id by (apply Z.div_pos; change Block_BYTES with 65536; lia).
    pose proof (Z.mul_div_le Block_BYTES cs ltac:(lia)). lia. }
  destruct Hc as [Hc _]. unfold uadd, cell_at. rewrite !uwrap_id by (change Block_BYTES with 65536 in *; lia). apply Z.leb_gt. lia.
Qed.

Lemma simple_loop_spec live s0 b cs n fuel i s last l :
  block_ok b → size_ok cs → (i + n = n_cells cs)%nat → (n ≤ fuel)%nat →
  linking s0 s b cs i last l → (∀ x, is_marked s x = live x) →
  ∃ s' last', simple_sweep_loop is_marked fuel b cs s (cell_at b cs i) last = Val (s', last') ∧
    linking s0 s' b cs (n_cells cs) last' (dead_from live b cs i n ++ l).
Proof.
  intros Hb Hc. revert fuel i s last l. induction n as [|n IH]; intros fuel i s last l Hin Hfu HL Hlive.
  - replace i with (n_cells cs) by lia. exists s, last. split; [destruct fuel; cbn [simple_sweep_loop]; by rewrite cells_done|].
    by replace i with (n_cells cs) in HL by lia.
  - destruct fuel as [|fuel]; [lia|]. cbn [simple_sweep_loop].
    destruct (cell_next b cs i Hb Hc ltac:(lia)) as [E1 E2]. rewrite E2, E1, Hlive. unfold dead_from. cbn [seq fmap list_fmap List.filter].
    destruct (live (cell_at b cs i)) eqn:El; cbn [negb].
    + apply IH; [lia..|by apply linking_skip|done].
    + destruct (IH fuel (Datatypes.S i) (wstore s (cell_at b cs i) last) (cell_at b cs i) (cell_at b cs i :: l)) as (s' & last' & E & HL');
        [lia..|apply linking_add; (done || lia)| |].
      * intros x. rewrite Hmark; [done|apply HL|]. apply (cells_in b cs _ Hb Hc). apply cells_elem. exists i. split; [lia|done].
      * exists s', last'. split; [done|]. cbn [rev]. by rewrite <-app_assoc.
Qed.

(** A reference into the cell is marked: the references are at every eight bytes. *)
Definition refs_in (cs c : Z) : list Z :=
  (λ m : nat, addr_add_offset (c + Z.of_nat m * MIN_OBJECT_SIZE) ref_offset) <$> seq 0 (Z.to_nat (cs `div` 8)).

Lemma naive_step b cs i j : block_ok b → size_ok cs → (i < n_cells cs)%nat → (j < Z.to_nat (cs `div` 8))%nat →
  (cell_at b cs i + Z.of_nat j * MIN_OBJECT_SIZE) +u MIN_OBJECT_SIZE = cell_at b cs i + Z.of_nat (Datatypes.S j) * MIN_OBJECT_SIZE ∧
  (cell_at b cs i +u cs <=? (cell_at b cs i + Z.of_nat j * MIN_OBJECT_SIZE) +u MIN_OBJECT_SIZE) =
    bool_decide (Datatypes.S j = Z.to_nat (cs `div` 8)).
Proof.
  intros Hb Hc Hi Hj. pose proof (n_cells_bound cs i Hc Hi) as Hbd. destruct (block_range b Hb) as (Hlo & _ & Hhi).
  destruct Hc as [Hc [q ->]]. rewrite Z.div_mul in * by lia. change MIN_OBJECT_SIZE with 8. unfold cell_at in *.
  unfold uadd. rewrite !uwrap_id by nia. split; [lia|]. rewrite bool_decide_decide. case_decide.
  - apply Z.leb_le. lia.
  - apply Z.leb_gt. lia.
Qed.

Lemma cell_end b cs i k : size_ok cs → k = Z.to_nat (cs `div` 8) →
  cell_at b cs i + Z.of_nat k * MIN_OBJECT_SIZE = cell_at b cs (Datatypes.S i).
Proof.
  intros [? [q ->]] ->. rewrite Z.div_mul by lia. rewrite Z2Nat.id by lia. unfold cell_at. change MIN_OBJECT_SIZE with 8. lia.
Qed.

Lemma naive_loop_spec (marked : Z → bool) s0 b cs fuel i j s last l :
  block_ok b → size_ok cs → (i ≤ n_cells cs)%nat → (j < Z.to_nat (cs `div` 8))%nat → (i = n_cells cs → j = 0%nat) →
  ((n_cells cs - i) * Z.to_nat (cs `div` 8) ≤ fuel + j)%nat →
  linking s0 s b cs i last l → (∀ x, is_marked s x = marked x) →
  (∀ m, (m < j)%nat → marked (addr_add_offset (cell_at b cs i + Z.of_nat m * MIN_OBJECT_SIZE) ref_offset) = false) →
  let live c := existsb marked (refs_in cs c) in
  ∃ s' last', naive_sweep_loop is_marked ref_offset fuel b cs s (cell_at b cs i) last (cell_at b cs i + Z.of_nat j * MIN_OBJECT_SIZE) = Val (s', last') ∧
    linking s0 s' b cs (n_cells cs) last' (dead_from live b cs i (n_cells cs - i) ++ l).
Proof.
  intros Hb Hc. revert i j s last l. induction fuel as [|fuel IH]; intros i j s last l Hi Hj Hij Hfu HL Hlive Hbefore live;
    (destruct (decide (i = n_cells cs)) as [-> |Hne];
      [exists s, last; rewrite Nat.sub_diag; split; [cbn [naive_sweep_loop]; by rewrite cells_done|done]|]).
  { exfalso. assert (1 ≤ n_cells cs - i)%nat by lia. nia. }
  cbn [naive_sweep_loop]. destruct (cell_next b cs i Hb Hc ltac:(lia)) as [E1 E2]. rewrite E2, Hlive.
  destruct (naive_step b cs i j Hb Hc ltac:(lia) Hj) as [E3 E4]. rewrite E4, E3, E1. clear E4.
  assert (∀ m, (m < Z.to_nat (cs `div` 8))%nat → addr_add_offset (cell_at b cs i + Z.of_nat m * MIN_OBJECT_SIZE) ref_offset ∈ refs_in cs (cell_at b cs i)) as Hin.
  { intros m Hm. unfold refs_in. apply list_elem_of_fmap. exists m. split; [done|]. apply elem_of_seq. lia. }
  replace (n_cells cs - i)%nat with (Datatypes.S (n_cells cs - Datatypes.S i)) in * by lia.
  unfold dead_from. cbn [seq fmap list_fmap List.filter].
  assert (∀ b', cell_at b cs b' = cell_at b cs b' + Z.of_nat 0 * MIN_OBJECT_SIZE) as E0 by (intros; lia).
  destruct (marked (addr_add_offset (cell_at b cs i + Z.of_nat j * MIN_OBJECT_SIZE) ref_offset)) eqn:Em.
  - assert (live (cell_at b cs i) = true) as ->.
    { apply existsb_exists. eexists. split; [apply list_elem_of_In, (Hin j Hj)|done]. }
    cbn [negb]. destruct (IH (Datatypes.S i) 0%nat s last l) as (s' & last' & E & HL'); [lia..|by apply linking_skip|done|lia|].
    rewrite <-E0 in E. by exists s', last'.
  - rewrite bool_decide_decide. case_decide as Hend.
    + assert (live (cell_at b cs i) = false) as ->.
      { destruct (live (cell_at b cs i)) eqn:El; [|done]. apply existsb_exists in El as (x & Hx%list_elem_of_In & Hxm).
        apply list_elem_of_fmap in Hx as (m & -> & Hm%elem_of_seq).
        destruct (decide (m = j)) as [-> |]; [congruence|]. rewrite Hbefore in Hxm by lia. done. }
      cbn [negb]. destruct (IH (Datatypes.S i) 0%nat (wstore s (cell_at b cs i) last) (cell_at b cs i) (cell_at b cs i :: l)) as (s' & last' & E & HL');
        [lia..|apply linking_add; (done || lia)| |lia|].
      * intros x. rewrite Hmark; [done|apply HL|]. apply (cells_in b cs _ Hb Hc). apply cells_elem. exists i. split; [lia|done].
      * exists s', last'. split; [|cbn [rev]; by rewrite <-app_assoc].
        rewrite <-E0 in E. by rewrite (cell_end b cs i (Datatypes.S j) Hc Hend).
    + destruct (IH i (Datatypes.S j) s last l) as (s' & last' & E & HL'); try done; [lia..| | |].
      * replace (n_cells cs - i)%nat with (Datatypes.S (n_cells cs - Datatypes.S i)) by lia. lia.
      * intros m Hm. destruct (decide (m = j)) as [-> |]; [done|]. apply Hbefore. lia.
      * exists s', last'. split; [done|].
        replace (n_cells cs - i)%nat with (Datatypes.S (n_cells cs - Datatypes.S i)) in HL' by lia.
        exact HL'.
Qed.

(** What a sweep or the set-up of a block leaves: the cells that are not live are free,
    other words and the links of blocks are as before. *)
Record swept s s' (b cs : Z) (live : Z → bool) : Prop := {
  sw_free : free_cells s' b cs (dead_from live b cs 0 (n_cells cs));
  sw_words : ∀ x, in_block x 8 → (∀ c, c ∈ dead_from live b cs 0 (n_cells cs) → x + 8 ≤ c ∨ c + 8 ≤ x) → wload s' x = wload s x;
  sw_tables : ∀ t b', block_ok b' → (b' = b → t ∈ [NEXT_BLOCK_TABLE; PREV_BLOCK_TABLE; BLOCK_LIST_TABLE]) → tload t s' b' = tload t s b';
  sw_stores : stores s s'
}.
(** A sweep changes one entry of the tables. *)
Definition sweeps s s' (b cs : Z) (live : Z → bool) : Prop :=
  swept s s' b cs live ∧ (∀ t b', block_ok b' → (b' = b → t ≠ FREE_LIST_TABLE) → tload t s' b' = tload t s b') ∧
  ∀ c, chunk_ok c → cload s' c = cload s c.

Lemma linking_store s0 s b cs last live :
  block_ok b → size_ok cs → linking s0 s b cs (n_cells cs) last (dead_from live b cs 0 (n_cells cs)) → load_block_cell_size s0 b = cs →
  sweeps s0 (store_free_list s b last) b cs live.
Proof.
  intros Hb Hc HL Hsz. pose proof (linking_last _ _ _ _ _ _ _ Hb Hc HL) as Hlast. pose proof (lk_ok _ _ _ _ _ _ _ HL) as Hs.
  unfold store_free_list. set (s' := tstore FREE_LIST_TABLE s b last).
  assert (∀ t b', block_ok b' → (b' = b → t ≠ FREE_LIST_TABLE) → tload t s' b' = tload t s0 b') as Ht.
  { intros t b' Hb' Hne. unfold s'. rewrite tload_tstore, decide_False by (done || naive_solver). by rewrite (lk_tables _ _ _ _ _ _ _ HL). }
  destruct (linking_finish s0 s s' b cs _ last _ Hb Hc HL) as [HF HW]; unfold load_free_list, load_block_cell_size.
  - by apply tstore_ok.
  - unfold s'. by rewrite tload_tstore, decide_True.
  - by rewrite Ht.
  - intros x Hx. by apply wload_tstore.
  - split; [split; try done|split; [done|]].
    + intros t b' Hb' Hin. apply Ht; [done|]. intros E. specialize (Hin E). set_solver.
    + constructor; [apply HL|done..].
    + intros c Hcc. unfold s'. rewrite cload_tstore by done. by apply HL.
Qed.

Lemma simple_sweep_spec s b cs fuel :
  bm_ok s → block_ok b → load_block_cell_size s b = cs → size_ok cs → (n_cells cs ≤ fuel)%nat →
  ∃ s', simple_sweep is_marked fuel s b = Val s' ∧ sweeps s s' b cs (is_marked s).
Proof.
  intros Hs Hb Es Hc Hf. unfold simple_sweep. rewrite Es.
  destruct (simple_loop_spec (is_marked s) s b cs (n_cells cs) fuel 0 s 0 [] Hb Hc ltac:(lia) Hf (linking_start s b cs Hs) ltac:(done)) as (s' & last & E & HL).
  replace (cell_at b cs 0) with b in E by (unfold cell_at; lia). rewrite E. cbn [mbind res_bind]. eexists. split; [done|].
  rewrite app_nil_r in HL. by eapply linking_store.
Qed.
Lemma naive_sweep_spec s b cs fuel :
  bm_ok s → block_ok b → load_block_cell_size s b = cs → size_ok cs → (n_cells cs * Z.to_nat (cs `div` 8) ≤ fuel)%nat →
  ∃ s', naive_brute_force_sweep is_marked ref_offset fuel s b = Val s' ∧ sweeps s s' b cs (λ c, existsb (is_marked s) (refs_in cs c)).
Proof.
  intros Hs Hb Es Hc Hf. unfold naive_brute_force_sweep. rewrite Es.
  assert (1 ≤ cs `div` 8) by (apply Z.div_le_lower_bound; destruct Hc; lia).
  destruct (naive_loop_spec (is_marked s) s b cs fuel 0 0 s 0 [] Hb Hc ltac:(lia) ltac:(lia) ltac:(lia) ltac:(lia) (linking_start s b cs Hs) ltac:(done) ltac:(lia))
    as (s' & last & E & HL).
  replace (cell_at b cs 0) with b in E by (unfold cell_at; lia). replace (b + Z.of_nat 0 * MIN_OBJECT_SIZE) with b in E by lia.
  rewrite E. cbn [mbind res_bind]. eexists. split; [done|].
  rewrite app_nil_r, Nat.sub_0_r in HL. by eapply linking_store.
Qed.

(** [sweep] takes the first cell address or every reference of the cell. *)
Definition sweep_refs (VM : VMBinding) (unified : bool) (cs c : Z) : list Z :=
  if negb (USE_ALLOCATION_OFFSET VM) && (MAX_ALIGNMENT VM =? MIN_ALIGNMENT VM) && raw_is_aligned cs (MAX_ALIGNMENT VM) && unified
  then [c] else refs_in cs c.
Lemma sweep_spec VM unified s b cs fuel :
  bm_ok s → block_ok b → load_block_cell_size s b = cs → size_ok cs → 8192 ≤ Z.of_nat fuel →
  ∃ s', sweep is_marked ref_offset VM unified fuel s b = Val s' ∧ sweeps s s' b cs (λ c, existsb (is_marked s) (sweep_refs VM unified cs c)).
Proof.
  intros Hs Hb Es Hc Hf. unfold sweep, sweep_refs. rewrite Es.
  assert (Z.of_nat (n_cells cs * Z.to_nat (cs `div` 8)) ≤ 8192 ∧ Z.of_nat (n_cells cs) ≤ 8192) as [Hn Hn'].
  { unfold n_cells. destruct Hc as [Hc [q ->]]. rewrite Z.div_mul by lia. pose proof (Z.mul_div_le Block_BYTES (q * 8) ltac:(lia)) as Hd.
    assert (0 ≤ Block_BYTES `div` (q * 8)) by (apply Z.div_pos; change Block_BYTES with 65536; lia).
    change Block_BYTES with 65536 in *. set (d := 65536 `div` (q * 8)) in *. rewrite Nat2Z.inj_mul, !Z2Nat.id by lia. split; nia. }
  destruct (_ && _); [|by apply naive_sweep_spec; try done; lia].
  destruct (simple_sweep_spec s b cs fuel Hs Hb Es Hc ltac:(lia)) as (s' & E & Hsw). exists s'. split; [done|].
  destruct Hsw as [[W1 W2 W3 W4] Hsw].
  assert (dead_from (λ c, existsb (is_marked s) [c]) b cs 0 (n_cells cs) = dead_from (is_marked s) b cs 0 (n_cells cs)) as Ed.
  { unfold dead_from. f_equal. apply filter_ext. intros c. cbn [existsb]. by rewrite orb_false_r. }
  split; [|done]. split; rewrite ?Ed; done.
Qed.

(** ** A new block *)

Lemma init_block_loop_spec s0 b cs n fuel i s old l :
  block_ok b → size_ok cs → (i + Datatypes.S n = n_cells cs)%nat → (n < fuel)%nat → linking s0 s b cs i old l →
  ∃ s' last, init_block_loop fuel (b +u Block_BYTES) cs s old (cell_at b cs i) = Val (s', last) ∧
    linking s0 s' b cs (n_cells cs) last (dead_from (λ _, false) b cs i (Datatypes.S n) ++ l).
Proof.
  intros Hb Hc. revert fuel i s old l. induction n as [|n IH]; intros fuel i s old l Hi Hfu HL; (destruct fuel as [|fuel]; [lia|]);
    cbn [init_block_loop]; destruct (cell_next b cs i Hb Hc ltac:(lia)) as [E1 E2]; rewrite E1;
    pose proof (linking_add s0 s b cs i old l Hb Hc ltac:(lia) HL) as HL2.
  - assert (n_cells cs = Datatypes.S i) as En by lia. pose proof (cells_done b cs Hb Hc) as Hd.
    rewrite En, Z.leb_antisym in *. apply negb_false_iff in Hd. rewrite Hd.
    eexists _, _. split; [reflexivity|]. exact HL2.
  - destruct (cell_next b cs (Datatypes.S i) Hb Hc ltac:(lia)) as [E3 E4]. rewrite Z.leb_antisym in E4. apply negb_true_iff in E4. rewrite E4.
    destruct (IH fuel (Datatypes.S i) _ _ _ ltac:(lia) ltac:(lia) HL2) as (s' & last & E & HL3). exists s', last. split; [done|].
    unfold dead_from in *. cbn [seq] in *. cbn [fmap list_fmap List.filter negb rev] in *. by rewrite <-app_assoc.
Qed.
End specs.

(** ** Theorems *)

Section specs.
Context {S : Type} `{BlockMemoryLaws S}.
Implicit Types s : S.

(** Taking the cells of [l] changes these cells only, and leaves them zero. *)
Record taken s s' (cs : Z) (l : list Z) : Prop := {
  tk_zero : ∀ c x, c ∈ l → c ≤ x → x + 8 ≤ c + cs → wload s' x = 0;
  tk_same : ∀ x, in_block x 8 → (∀ c, c ∈ l → x + 8 ≤ c ∨ c + cs ≤ x) → wload s' x = wload s x
}.

(** The words of a cell, and of the others. *)
Lemma word_in_cell b cs c x : block_ok b → size_ok cs → c ∈ cells b cs → c ≤ x → x + 8 ≤ c + cs → in_block x 8.
Proof. intros Hb Hc Hin H1 H2. destruct (cells_in b cs c Hb Hc Hin) as (? & ? & _). exists b. split; [done|]. lia. Qed.

Lemma block_allocs_spec s b cs l k :
  block_ok b → size_ok cs → free_cells s b cs l →
  let '(cs', s') := block_allocs (length l + k) s b in
  cs' = l ++ replicate k 0 ∧ free_cells s' b cs [] ∧ taken s s' cs l.
Proof.
  intros Hb Hc. revert s. induction l as [|c l IH]; intros s HF.
  - cbn [length Nat.add]. induction k as [|k IHk]; cbn [block_allocs]; [split; [done|]; split; [done|]; split; [set_solver|done]|].
    pose proof (block_alloc_spec s b cs [] Hb Hc HF) as HA. unfold block_alloc in *. rewrite (fc_chain _ _ _ _ HF : load_free_list s b = 0) in *.
    cbn [Z.eqb] in *. destruct (block_allocs k s b) as [cs' s']. destruct IHk as (-> & ? & ?). done.
  - cbn [length Nat.add block_allocs]. pose proof (block_alloc_spec s b cs (c :: l) Hb Hc HF) as HA.
    destruct (block_alloc s b) as [c' s1]. cbn [head tail default] in HA. destruct HA as (-> & HF1 & HS & HZ).
    specialize (IH s1 HF1). destruct (block_allocs (length l + k) s1 b) as [cs' s']. destruct IH as (-> & HF' & [TZ TS]).
    pose proof (fc_nodup _ _ _ _ HF) as [Hni _]%NoDup_cons. pose proof (fc_cells _ _ _ _ HF) as Hcells.
    split; [done|]. split; [done|]. split.
    + intros c' x [-> |Hin]%elem_of_cons Hx1 Hx2; [|by eapply TZ].
      rewrite TS; [by apply (HZ c)|apply (word_in_cell b cs c); try done; apply Hcells; set_solver|].
      intros c2 Hc2. assert (c ≠ c2) by (by intros ->).
      destruct (cells_apart b cs c c2 Hc) as [?|?]; [apply Hcells; set_solver..|done|lia|lia].
    + intros x Hx Hd. rewrite TS; [|done|intros; apply Hd; set_solver]. apply HS; [done|]. intros c2 [= <-]. apply Hd. set_solver.
Qed.

(** From a sweep or a new block to the allocations. *)
Lemma swept_allocs s s1 b cs live k :
  block_ok b → size_ok cs → swept s s1 b cs live →
  let dead := dead_from live b cs 0 (n_cells cs) in
  let '(cs', s') := block_allocs (length dead + k) s1 b in
  cs' = dead ++ replicate k 0 ∧ taken s s' cs dead.
Proof.
  intros Hb Hc [HF HS _ _]. pose proof (block_allocs_spec s1 b cs _ k Hb Hc HF) as HA. cbn zeta.
  destruct (block_allocs _ s1 b) as [cs' s']. destruct HA as (-> & _ & [TZ TS]). split; [done|]. split; [done|].
  intros x Hx Hd. rewrite TS by done. apply HS; [done|]. intros c Hcc. destruct Hc as [Hc _]. pose proof (Hd c Hcc). lia.
Qed.

Lemma init_block_spec st r s b cs tls fuel :
  cm_inv st r s → block_ok b → chunk_ok (Block_chunk b) → size_ok cs → is_u 64 tls → (n_cells cs ≤ fuel)%nat →
  ∃ r' s', init_block fuel r s b cs tls = Val (r', s') ∧ cm_inv (<[Block_chunk b := Allocated]> st) r' s' ∧
    get_state s' b = Val Unmarked ∧ swept s s' b cs (λ _, false).
Proof.
  intros HI Hb Hch Hc Htls Hf. assert (is_u 64 cs) as Hcs by (destruct Hc as [Hc _]; change Block_BYTES with 65536 in Hc; unfold is_u; lia).
  unfold init_block, record_new_block, Block_init, set_state. cbn [u8_from_BlockState].
  assert (is_u (table_width MARK_TABLE) 255) as H255 by (by vm_compute).
  set (s1 := tstore MARK_TABLE s b 255). pose proof (cm_ok _ _ _ HI) as Hs.
  assert (bm_ok s1) as Hs1 by (by apply tstore_ok).
  assert (cm_inv st r s1) as HI1.
  { split; [done| |apply HI]. intros c Hcc. unfold s1. rewrite cload_tstore by done. by apply HI. }
  destruct (set_spec st r s1 (Block_chunk b) Allocated HI1 Hch) as (r' & s2 & -> & HI2 & [F1 F2 F3]). cbn [mbind res_bind].
  pose proof (cm_ok _ _ _ HI2) as Hs2. destruct (n_cells cs) as [|n] eqn:En.
  { exfalso. unfold n_cells in En. assert (1 ≤ Block_BYTES `div` cs) by (destruct Hc as [Hc _]; apply Z.div_le_lower_bound; lia). lia. }
  destruct (init_block_loop_spec s2 b cs n fuel 0 s2 0 [] Hb Hc ltac:(lia) ltac:(lia) (linking_start s2 b cs Hs2)) as (s3 & last & E & HL).
  replace (cell_at b cs 0) with b in E by (unfold cell_at; lia). rewrite E. cbn [mbind res_bind]. rewrite app_nil_r in HL.
  pose proof (linking_last _ _ _ _ _ _ _ Hb Hc HL) as Hlast. pose proof (lk_ok _ _ _ _ _ _ _ HL) as Hs3.
  unfold store_free_list, store_block_cell_size. set (s4 := tstore FREE_LIST_TABLE s3 b last). assert (bm_ok s4) as Hs4 by (by apply tstore_ok).
  set (s5 := tstore SIZE_TABLE s4 b cs). assert (bm_ok s5) as Hs5 by (by apply tstore_ok).
  set (s6 := tstore TLS_TABLE s5 b tls). assert (bm_ok s6) as Hs6 by (by apply tstore_ok).
  assert (∀ t, tload t s6 b = match t with TLS_TABLE => tls | SIZE_TABLE => cs | FREE_LIST_TABLE => last | _ => tload t s2 b end) as Htab.
  { intros t. unfold s6, s5, s4. rewrite !tload_tstore by done. rewrite (lk_tables _ _ _ _ _ _ _ HL) by done.
    destruct t; repeat first [rewrite decide_True by done|rewrite decide_False by naive_solver]; done. }
  assert (∀ x, in_block x 8 → wload s6 x = wload s3 x) as Hw by (intros x Hx; unfold s6, s5, s4; by rewrite !wload_tstore).
  exists r', s6. split; [done|]. split; [|split].
  - split; [done| |apply HI2]. intros c Hcc. unfold s6, s5, s4. rewrite !cload_tstore by done.
    rewrite (lk_chunks _ _ _ _ _ _ _ HL) by done. by apply HI2.
  - unfold get_state. rewrite Htab, F1 by done. unfold s1. by rewrite tload_tstore, decide_True.
  - destruct (linking_finish s2 s3 s6 b cs _ last _ Hb Hc HL Hs6 (Htab FREE_LIST_TABLE) (Htab SIZE_TABLE) Hw) as [HF HS].
    split; rewrite ?En in *; [done| | |].
    + intros x Hx Hd. rewrite HS by done. rewrite F2 by done. unfold s1. by apply wload_tstore.
    + intros t b' Hb' Hin. unfold s6, s5, s4. rewrite !tload_tstore by done. rewrite (lk_tables _ _ _ _ _ _ _ HL), F1 by done. unfold s1.
      rewrite tload_tstore by done. repeat (rewrite decide_False by set_solver). done.
    + do 3 (constructor; [|done..]). eapply stores_trans; [|apply HL]. eapply stores_trans; [|exact F3]. constructor; [constructor|done..].
Qed.
End specs.

Section theorems.
Context (f : features) (asan : bool).
#[local] Instance cells_memory : BlockMemory mem := mem_blocks f asan.

(** The allocations from a block return the cells of [l] and then zero, as often as asked. *)
Definition hands_out (M M1 : mem) (b cs : Z) (l : list Z) (k : nat) : Prop :=
  let '(found, M2) := block_allocs (length l + k) M1 b in found = l ++ replicate k 0 ∧ taken M M2 cs l.

(** The mark bits are not in the cells. *)
Definition marks_outside (is_marked : mem → Z → bool) : Prop :=
  ∀ M a v x, mem_ok M → in_block a 8 → is_marked (store_bytes 8 M a v) x = is_marked M x.

(** C34: sweeping finds the dead cells.  For any size of cells and any binding, [sweep] of a
    block ends, and the allocations that follow return the cells none of whose references
    is marked, each once, from the last to the first, and then zero.  They hand out zeroed
    cells, and every word of the heap outside these cells is as before the sweep. *)
Theorem sweep_then_allocate (is_marked : mem → Z → bool) (ref_offset : Z) (VM : VMBinding) (unified : bool)
    (M : mem) (b cs : Z) (k fuel : nat) :
  f ∈ all_features → marks_outside is_marked → mem_ok M → heap_block asan b →
  load_block_cell_size M b = cs → size_ok cs → 8192 ≤ Z.of_nat fuel →
  let dead := dead_from (λ c, existsb (is_marked M) (sweep_refs ref_offset VM unified cs c)) b cs 0 (n_cells cs) in
  ∃ M1, sweep is_marked ref_offset VM unified fuel M b = Val M1 ∧ hands_out M M1 b cs dead k.
Proof.
  intros Hf Hmark HM Hb Es Hc Hfu dead. pose proof (mem_blocks_laws f asan Hf) as HL.
  destruct (@sweep_spec mem _ HL is_marked ref_offset Hmark VM unified M b cs fuel HM Hb Es Hc Hfu) as (M1 & E & Hsw & _).
  exists M1. split; [done|]. exact (swept_allocs M M1 b cs _ k Hb Hc Hsw).
Qed.

(** A new block is ready.  [init_block] ends, marks the block as allocated and its
    chunk in the chunk map, which goes on tracking the chunks, and the allocations that
    follow return every cell of the block once, from the last to the first, zeroed, and
    change no other word of the heap. *)
Theorem new_block_ready (st : Z → ChunkState) (r : ChunkMap) (M : mem) (b cs tls : Z) (k fuel : nat) :
  f ∈ all_features → cm_inv st r M → heap_block asan b → heap_chunk asan (Block_chunk b) → size_ok cs → is_u 64 tls →
  8192 ≤ Z.of_nat fuel →
  ∃ r' M1, init_block fuel r M b cs tls = Val (r', M1) ∧ cm_inv (<[Block_chunk b := Allocated]> st) r' M1 ∧
    get_state M1 b = Val Unmarked ∧ hands_out M M1 b cs (rev (cells b cs)) k.
Proof.
  intros Hf HI Hb Hch Hc Htls Hfu. pose proof (mem_blocks_laws f asan Hf) as HL.
  destruct (init_block_spec st r M b cs tls fuel HI Hb Hch Hc Htls) as (r' & M1 & E & HI' & Hst & Hsw).
  { unfold n_cells. assert (Block_BYTES `div` cs ≤ 8192) by (apply Z.div_le_upper_bound; destruct Hc as [Hc _]; change Block_BYTES with 65536 in *; lia). lia. }
  exists r', M1. split; [done|]. split; [done|]. split; [done|].
  pose proof (swept_allocs M M1 b cs _ k Hb Hc Hsw) as HA. cbn zeta in HA.
  assert (dead_from (λ _, false) b cs 0 (n_cells cs) = rev (cells b cs)) as Ed.
  { unfold dead_from, cells. f_equal. generalize (cell_at b cs <$> seq 0 (n_cells cs)). intros l. induction l as [|x l IH]; [done|]. cbn. f_equal. exact IH. }
  unfold hands_out. rewrite <-Ed. exact HA.
Qed.
End theorems.

(** ** Examples *)

(** A block of cells of 1024 bytes at 0x20000000000, of which every third is marked. *)
Definition sample_at : Z := 0x20000000000.
Definition sample_heap : mem := @tstore mem (mem_blocks default_features false) SIZE_TABLE (λ _, 0) sample_at 1024.
Definition sample_marks (M : mem) (x : Z) : bool := (x `mod` 3072 =? 512).
Lemma sample_at_ok : heap_block false sample_at ∧ heap_chunk false sample_at.
Proof.
  split; (split; [done|]; split; [|by vm_compute]); [by exists (sample_at / 65536)|by exists (sample_at / 4194304)].
Qed.
Lemma sample_features : default_features ∈ all_features.
Proof. apply (list_elem_of_lookup_2 _ 486). by vm_compute. Qed.
Lemma zero_mem_ok : mem_ok (λ _, 0).
Proof. intros a. unfold is_u. lia. Qed.

Definition sample_dead : list Z :=
  dead_from (λ c, existsb (sample_marks sample_heap) (sweep_refs 0 default_binding false 1024 c)) sample_at 1024 0 (n_cells 1024).
Lemma sweep_then_allocate_witness :
  length sample_dead = 43%nat ∧
  ∃ M1, @sweep mem (mem_blocks default_features false) sample_marks 0 default_binding false (Z.to_nat 8192) sample_heap sample_at = Val M1 ∧
    hands_out default_features false sample_heap M1 sample_at 1024 sample_dead 2.
Proof.
  pose proof (mem_blocks_laws default_features false sample_features) as HL. pose proof sample_at_ok as [Hb _].
  split; [by vm_compute|].
  apply (sweep_then_allocate default_features false sample_marks 0 default_binding false sample_heap sample_at 1024 2 (Z.to_nat 8192) sample_features).
  - by intros M a v x _ _.
  - by apply (@tstore_ok mem _ HL); [apply zero_mem_ok|done|].
  - done.
  - unfold load_block_cell_size, sample_heap. rewrite (@tload_tstore mem _ HL); [|apply zero_mem_ok|done..]. done.
  - split; [done|by exists 128].
  - done.
Defined.

Lemma new_block_ready_witness :
  ∃ r' M1, @init_block mem (mem_blocks default_features false) (Z.to_nat 8192) ChunkMap_new (λ _, 0) sample_at 48 7 = Val (r', M1) ∧
    @cm_inv mem (mem_blocks default_features false) (<[Block_chunk sample_at := Allocated]> (λ _, Free)) r' M1 ∧
    @get_state mem (mem_blocks default_features false) M1 sample_at = Val Unmarked ∧
    hands_out default_features false (λ _, 0) M1 sample_at 48 (rev (cells sample_at 48)) 1.
Proof.
  pose proof sample_at_ok as [Hb Hch].
  apply (new_block_ready default_features false (λ _, Free) ChunkMap_new (λ _, 0) sample_at 48 7 1 (Z.to_nat 8192) sample_features).
  - split; [apply zero_mem_ok| |by left]. intros c Hc. cbn [cload mem_blocks]. by apply zero_chunks.
  - done.
  - exact Hch.
  - split; [done|by exists 6].
  - done.
  - done.
Defined.
