(* ===== verification/FreeListAllocator.v ===== *)
(** * The free-list allocator
    (src/src/util/alloc/free_list_allocator.rs, and the abandoned lists and
    [acquire_block] of src/src/policy/marksweepspace/native_ms/global.rs)

    A mutator allocates from its own block lists, one of each kind for every bin; it sweeps
    blocks as it needs them, and gets others from the lists that were abandoned or from the
    pages of the space.  The lists live at addresses: an array of lists is its base address.
    The features are without [malloc_native_mimalloc]; the lock of the abandoned lists makes
    each of their uses one step. *)

From stdpp Require Import gmap.
From S2P Require Import Prelude Conversions Memory SideMetadataSpecs Regions BlockTables ChunkMap BlockList BlockListRefine BlockListTheorems SizeClasses BlockCells.

(** ** Arrays of lists *)

(** The size of a [BlockList]: two blocks, the size and the lock. *)
Definition BlockList_BYTES : Z := 32.
(** The address of a list of an array; the index is checked. *)
Definition bin_at (lists bin : Z) : res Z :=
  if (0 <=? bin) && (bin <=? MAX_BIN) then Val (lists + bin * BlockList_BYTES) else Panic.

Record AbandonedBlockLists : Type := { ab_available : Z; ab_unswept : Z; ab_consumed : Z }.
Record FreeListAllocator : Type := {
  tls : Z; available_blocks : Z; available_blocks_stress : Z; unswept_blocks : Z; consumed_blocks : Z
}.

(** The lists, the memory, the chunk map, and the blocks that the pages of the space can
    still provide. *)
Record ms_state (S : Type) : Type := {
  ms_lists : gmap Z BlockList; ms_mem : S; ms_chunks : ChunkMap; ms_pages : list Z
}.
Arguments ms_lists {S} _.
Arguments ms_mem {S} _.
Arguments ms_chunks {S} _.
Arguments ms_pages {S} _.
Definition with_mem {S} (s : S) (st : ms_state S) : ms_state S :=
  {| ms_lists := ms_lists st; ms_mem := s; ms_chunks := ms_chunks st; ms_pages := ms_pages st |}.

(** The largest number of steps of a sweep. *)
Definition SWEEP_FUEL : nat := Z.to_nat 8192.

Section allocator.
Context {S : Type} `{BlockMemory S}.
Context (is_marked : S → Z → bool) (ref_offset : Z) (VM : VMBinding) (unified : bool).
(** The feature [eager_sweeping] and the option [is_stress_test_gc_enabled]. *)
Context (eager stress_enabled : bool).
Abbreviation state := (ms_state S).

Definition on_lists (fuel : nat) (op : list_op) (st : state) : res (option Z * state) :=
  '(r, (m, s)) ← run_op fuel op (ms_lists st, ms_mem st);
  Val (r, {| ms_lists := m; ms_mem := s; ms_chunks := ms_chunks st; ms_pages := ms_pages st |}).
Definition sweep_block (b : Z) (st : state) : res state :=
  s ← sweep is_marked ref_offset VM unified SWEEP_FUEL (ms_mem st) b; Val (with_mem s st).
Definition list_at (a : Z) (st : state) : res BlockList := unwrap (ms_lists st !! a).

(** ** The blocks of the space *)

Inductive BlockAcquireResult : Type :=
| Exhausted | Fresh (b : Z) | AbandonedAvailable (b : Z) | AbandonedUnswept (b : Z).

(** [acquire] of the space gives one of its blocks as long as there are any. *)
Definition acquire_block (abandoned : AbandonedBlockLists) (size align : Z) (st : state) : res (BlockAcquireResult * state) :=
  let bin := mi_bin VM size align in
  a ← bin_at (ab_available abandoned) bin;
  available ← list_at a st;
  if negb (bl_is_empty available)
  then '(b, st) ← on_lists 0 (OpPop a) st; b ← unwrap b; Val (AbandonedAvailable b, st)
  else
    u ← bin_at (ab_unswept abandoned) bin;
    unswept ← list_at u st;
    if negb (bl_is_empty unswept)
    then '(b, st) ← on_lists 0 (OpPop u) st; b ← unwrap b; Val (AbandonedUnswept b, st)
    else
      match ms_pages st with
      | [] => Val (Exhausted, st)
      | b :: pages => Val (Fresh b, {| ms_lists := ms_lists st; ms_mem := ms_mem st; ms_chunks := ms_chunks st; ms_pages := pages |})
      end.

(** ** Finding a block *)

Context (self : FreeListAllocator).

Definition find_free_block_in (fuel : nat) (available consumed : Z) (size align : Z) (st : state) : res (option Z * state) :=
  let bin := mi_bin VM size align in
  a ← bin_at available bin;
  c ← bin_at consumed bin;
  on_lists fuel (OpFindFree a c) st.

Definition add_to_available_blocks (bin block : Z) (stress : bool) (st : state) : res state :=
  a ← bin_at (if stress then available_blocks_stress self else available_blocks self) bin;
  '(_, st) ← on_lists 0 (OpPush a block) st; Val st.
Definition add_to_consumed_blocks (bin block : Z) (st : state) : res state :=
  c ← bin_at (consumed_blocks self) bin;
  '(_, st) ← on_lists 0 (OpPush c block) st; Val st.

(** The block is usable if it has free cells; otherwise it is consumed. *)
Definition keep_block (bin block : Z) (stress : bool) (st : state) : res (option Z * state) :=
  if has_free_cells (ms_mem st) block
  then st ← add_to_available_blocks bin block stress st; Val (Some block, st)
  else st ← add_to_consumed_blocks bin block st; Val (None, st).

Fixpoint recycle_local_loop (fuel : nat) (bin : Z) (st : state) : res (option Z * state) :=
  u ← bin_at (unswept_blocks self) bin;
  '(block, st) ← on_lists 0 (OpPop u) st;
  match block with
  | None => Val (None, st)
  | Some block =>
    match fuel with
    | O => NoFuel
    | Datatypes.S fuel =>
      st ← sweep_block block st;
      '(found, st) ← keep_block bin block stress_enabled st;
      match found with
      | Some block => Val (Some block, st)
      | None => recycle_local_loop fuel bin st
      end
    end
  end.
Definition recycle_local_blocks (fuel : nat) (size align : Z) (st : state) : res (option Z * state) :=
  if eager then Val (None, st) else recycle_local_loop fuel (mi_bin VM size align) st.

Definition store_tls (block : Z) (st : state) : state := with_mem (tstore TLS_TABLE (ms_mem st) block (tls self)) st.

Fixpoint acquire_global_loop (fuel : nat) (abandoned : AbandonedBlockLists) (size align bin : Z) (stress : bool) (st : state)
    : res (option Z * state) :=
  '(r, st) ← acquire_block abandoned size align st;
  match r with
  | Exhausted => Val (None, st)
  | Fresh block =>
    st ← add_to_available_blocks bin block stress st;
    a ← bin_at (available_blocks self) bin;
    available ← list_at a st;
    '(chunks, s) ← init_block SWEEP_FUEL (ms_chunks st) (ms_mem st) block (bl_size available) (tls self);
    Val (Some block, {| ms_lists := ms_lists st; ms_mem := s; ms_chunks := chunks; ms_pages := ms_pages st |})
  | AbandonedAvailable block =>
    '(found, st) ← keep_block bin block stress (store_tls block st);
    match found, fuel with
    | Some block, _ => Val (Some block, st)
    | None, O => NoFuel
    | None, Datatypes.S fuel => acquire_global_loop fuel abandoned size align bin stress st
    end
  | AbandonedUnswept block =>
    st ← sweep_block block (store_tls block st);
    '(found, st) ← keep_block bin block stress st;
    match found, fuel with
    | Some block, _ => Val (Some block, st)
    | None, O => NoFuel
    | None, Datatypes.S fuel => acquire_global_loop fuel abandoned size align bin stress st
    end
  end.
Definition acquire_global_block (fuel : nat) (abandoned : AbandonedBlockLists) (size align : Z) (stress : bool) (st : state) :=
  acquire_global_loop fuel abandoned size align (mi_bin VM size align) stress st.

(** [Option::or_else] on searches. *)
Definition or_search (m : res (option Z * state)) (k : state → res (option Z * state)) : res (option Z * state) :=
  '(found, st) ← m; match found with Some b => Val (Some b, st) | None => k st end.

Definition find_free_block_local (fuel : nat) (size align : Z) (st : state) : res (option Z * state) :=
  or_search (find_free_block_in fuel (available_blocks self) (consumed_blocks self) size align st)
            (recycle_local_blocks fuel size align).
Definition find_free_block_stress (fuel : nat) (abandoned : AbandonedBlockLists) (size align : Z) (st : state) : res (option Z * state) :=
  or_search (or_search (find_free_block_in fuel (available_blocks_stress self) (consumed_blocks self) size align st)
                       (recycle_local_blocks fuel size align))
            (acquire_global_block fuel abandoned size align true).
End allocator.

(** ** Allocating *)

Section alloc.
Context (f : features) (asan : bool).
#[local] Hint Extern 0 (BlockMemory _) => exact (mem_blocks f asan) : typeclass_instances.
Context (is_marked : mem → Z → bool) (ref_offset : Z) (VM : VMBinding) (unified : bool) (eager stress_enabled : bool).
Context (self : FreeListAllocator) (abandoned : AbandonedBlockLists).

(** The cell of a block, and the object in it. *)
Definition alloc_in (fuel : nat) (block : Z) (align offset : Z) (st : ms_state mem) : res (Z * ms_state mem) :=
  let '(cell, M) := block_alloc (ms_mem st) block in
  '(r, M) ← align_allocation VM fuel M cell align offset; Val (r, with_mem M st).

(** [alloc] up to the call of the slow path, which is [None]. *)
Definition alloc_fast (fuel : nat) (size align offset : Z) (st : ms_state mem) : res (option Z * ms_state mem) :=
  '(found, st) ← find_free_block_local is_marked ref_offset VM unified eager stress_enabled self fuel size align st;
  match found with
  | None => Val (None, st)
  | Some block =>
    let '(cell, M) := block_alloc (ms_mem st) block in
    if negb (cell =? 0)
    then '(r, M) ← align_allocation VM fuel M cell align offset; Val (Some r, with_mem M st)
    else Val (None, with_mem M st)
  end.

Definition alloc_slow_once (fuel : nat) (size align offset : Z) (st : ms_state mem) : res (Z * ms_state mem) :=
  '(found, st) ← acquire_global_block is_marked ref_offset VM unified self fuel abandoned size align false st;
  match found with
  | Some block => alloc_in fuel block align offset st
  | None => Val (0, st)
  end.

Definition alloc_slow_once_precise_stress (fuel : nat) (size align offset : Z) (need_poll : bool) (st : ms_state mem)
    : res (Z * ms_state mem) :=
  st ← (if need_poll
        then '(_, st) ← acquire_global_block is_marked ref_offset VM unified self fuel abandoned 0 0 true st; Val st
        else Val st);
  '(found, st) ← find_free_block_stress is_marked ref_offset VM unified eager stress_enabled self fuel abandoned size align st;
  match found with
  | Some block => alloc_in fuel block align offset st
  | None => Val (0, st)
  end.
End alloc.
