(* ===== verification/FreeListAllocatorInv.v ===== *)
(** * The invariant of the mark-sweep space

    Every block is on one list, whose array gives it a bin and says whether it has been
    swept; the cells in use are not among the free cells of their block, or are marked if the
    block is not swept.  [used] maps the address of a cell in use to its size. *)

From stdpp Require Import gmap.
From S2P Require Import Prelude Conversions Memory SideMetadataSpecs Regions BlockTables ChunkMap BlockList BlockListRefine BlockListTheorems SizeClasses BlockCells.
From S2P Require Import BlockCells FreeListAllocator.

(** The size of the cells of a bin. *)
Definition cell_size (bin : Z) : Z := default 0 (block_list_sizes !! Z.to_nat bin).
Lemma cell_sizes_checked :
  forallb (λ cs, (8 <=? cs) && (cs <=? 65536) && (cs `mod` 8 =? 0)) block_list_sizes = true ∧ length block_list_sizes = 49%nat.
Proof. by vm_compute. Qed.
Lemma cell_size_ok bin : 0 ≤ bin ≤ MAX_BIN → size_ok (cell_size bin) ∧ bin_size bin = Val (cell_size bin).
Proof.
  intros Hb. change MAX_BIN with 48 in Hb. destruct cell_sizes_checked as [Hc Hl]. unfold cell_size, bin_size.
  destruct (Z.ltb_spec bin 0); [lia|]. destruct (lookup_lt_is_Some_2 block_list_sizes (Z.to_nat bin)) as [cs E]; [rewrite Hl; lia|].
  rewrite E. change (default 0 (Some cs)) with cs. split; [|done]. rewrite forallb_forall in Hc.
  specialize (Hc cs). rewrite !andb_true_iff, !Z.leb_le, Z.eqb_eq in Hc.
  destruct Hc as [[? ?] ?]; [apply list_elem_of_In; by eapply list_elem_of_lookup_2|].
  split; [change Block_BYTES with 65536; lia|by apply Z.mod_divide].
Qed.

Section inv.
Context {S : Type} `{BlockMemoryLaws S}.
Context (is_marked : S → Z → bool) (ref_offset : Z) (VM : VMBinding) (unified : bool).
(** The stores of the collector to cells and tables do not change the mark bits. *)
Definition marks_kept : Prop := ∀ s s' x, stores s s' → is_marked s' x = is_marked s x.
Context (Hmarks : marks_kept).
(** The bin of each list, and whether its blocks wait to be swept. *)
Context (roles : gmap Z (Z * bool)).
Implicit Types (s : S) (used : gmap Z Z) (L : gmap Z (list Z)) (hand : option (Z * (Z * bool))).

Definition is_live s (cs c : Z) : bool := existsb (is_marked s) (sweep_refs ref_offset VM unified cs c).

Definition block_inv used s (b cs : Z) (unswept : bool) : Prop :=
  load_block_cell_size s b = cs ∧
  if unswept then ∀ c, c ∈ cells b cs → is_Some (used !! c) → is_live s cs c = true
  else ∃ l, free_cells s b cs l ∧ ∀ c, c ∈ l → used !! c = None.

(** The block is on a list or in the hands of an allocator. *)
Definition owns L hand (b bin : Z) (u : bool) : Prop :=
  (∃ a l, L !! a = Some l ∧ b ∈ l ∧ roles !! a = Some (bin, u)) ∨ hand = Some (b, (bin, u)).

(** The block [skip], if any, is not ready yet. *)
Record ms_inv_but (skip : option Z) used hand (st : ms_state S) L : Prop := {
  mi_rel : rel (has_free_cells (ms_mem st)) (ms_lists st, ms_mem st) L;
  mi_dom : ∀ a, is_Some (ms_lists st !! a) ↔ is_Some (roles !! a);
  mi_sizes : ∀ a bl bin u, ms_lists st !! a = Some bl → roles !! a = Some (bin, u) → 0 ≤ bin ≤ MAX_BIN ∧ bl_size bl = cell_size bin;
  mi_hand : ∀ b bin u, hand = Some (b, (bin, u)) → block_ok b ∧ 0 ≤ bin ≤ MAX_BIN ∧ ∀ a l, L !! a = Some l → b ∉ l;
  mi_blocks : ∀ b bin u, skip ≠ Some b → owns L hand b bin u → block_inv used (ms_mem st) b (cell_size bin) u;
  mi_used : ∀ c cs, used !! c = Some cs → ∃ b bin u, owns L hand b bin u ∧ cs = cell_size bin ∧ c ∈ cells b cs;
  mi_chunks : ∃ cst, cm_inv cst (ms_chunks st) (ms_mem st);
  mi_pages : NoDup (ms_pages st) ∧ ∀ b, b ∈ ms_pages st → block_ok b ∧ chunk_ok (Block_chunk b) ∧ ∀ bin u, ¬ owns L hand b bin u
}.

Abbreviation ms_inv := (ms_inv_but None).

(** ** Consequences *)

Lemma inv_ok skip used hand st L : ms_inv_but skip used hand st L → bm_ok (ms_mem st).
Proof. intros HI. apply (rel_ok _ _ _ (mi_rel _ _ _ _ _ HI)). Qed.
Lemma inv_role skip used hand st L a l : ms_inv_but skip used hand st L → L !! a = Some l → ∃ bin u, roles !! a = Some (bin, u) ∧ 0 ≤ bin ≤ MAX_BIN.
Proof.
  intros HI Ha. destruct (rel_lookup _ _ _ _ _ (mi_rel _ _ _ _ _ HI) Ha) as (bl & E & _). cbn [fst] in E.
  destruct (proj1 (mi_dom _ _ _ _ _ HI a)) as [[bin u] Er]; [by rewrite E|]. exists bin, u. split; [done|].
  apply (mi_sizes _ _ _ _ _ HI a bl bin u E Er).
Qed.
Lemma inv_list skip used hand st L a r : ms_inv_but skip used hand st L → roles !! a = Some r → ∃ l, L !! a = Some l.
Proof.
  intros HI Hr. destruct (proj2 (mi_dom _ _ _ _ _ HI a)) as [bl E]; [by rewrite Hr|].
  pose proof (rel_lists _ _ _ (mi_rel _ _ _ _ _ HI) a) as Hl. cbn [fst snd] in Hl. rewrite E in Hl. destruct (L !! a); [by eexists|done].
Qed.
Lemma owns_ok skip used hand st L b bin u : ms_inv_but skip used hand st L → owns L hand b bin u → block_ok b ∧ 0 ≤ bin ≤ MAX_BIN.
Proof.
  intros HI [(a & l & Ha & Hb & Hr)|Hh].
  - destruct (inv_role _ _ _ _ _ a l HI Ha) as (bin' & u' & Hr' & Hbin). rewrite Hr' in Hr. injection Hr as -> ->.
    split; [|done]. destruct (rel_lookup _ _ _ _ _ (mi_rel _ _ _ _ _ HI) Ha) as (bl & _ & _ & Hrep). by apply (lr_blocks _ _ _ _ Hrep).
  - destruct (mi_hand _ _ _ _ _ HI b bin u Hh) as (? & ? & _). done.
Qed.
Lemma owns_unique skip used hand st L b bin u bin' u' :
  ms_inv_but skip used hand st L → owns L hand b bin u → owns L hand b bin' u' → bin = bin' ∧ u = u'.
Proof.
  intros HI [(a & l & Ha & Hb & Hr)|Hh] [(a' & l' & Ha' & Hb' & Hr')|Hh'].
  - destruct (decide (a = a')) as [-> |Hne]; [split; congruence|].
    by pose proof (rel_disjoint _ _ _ (mi_rel _ _ _ _ _ HI) a a' l l' Ha Ha' Hne b Hb).
  - destruct (mi_hand _ _ _ _ _ HI b _ _ Hh') as (_ & _ & Hni). by pose proof (Hni a l Ha).
  - destruct (mi_hand _ _ _ _ _ HI b _ _ Hh) as (_ & _ & Hni). by pose proof (Hni a' l' Ha').
  - split; congruence.
Qed.

(** Blocks do not overlap. *)
Lemma blocks_apart b b' : block_ok b → block_ok b' → b ≠ b' → b + Block_BYTES ≤ b' ∨ b' + Block_BYTES ≤ b.
Proof.
  intros Hb Hb' Hne. destruct (block_range b Hb) as (_ & [q ->] & _), (block_range b' Hb') as (_ & [q' ->] & _).
  change Block_BYTES with 65536 in *. lia.
Qed.

(** Cells in use do not overlap, nor a cell of an owned block that is not in use. *)
Lemma used_apart skip used hand st L b bin u c c' cs' :
  ms_inv_but skip used hand st L → owns L hand b bin u → c ∈ cells b (cell_size bin) → used !! c' = Some cs' → c ≠ c' →
  c + cell_size bin ≤ c' ∨ c' + cs' ≤ c.
Proof.
  intros HI Ho Hc Hu' Hne. destruct (mi_used _ _ _ _ _ HI c' cs' Hu') as (b' & bin' & u' & Ho' & -> & Hc').
  destruct (owns_ok _ _ _ _ _ _ _ _ HI Ho) as [Hb Hbin], (owns_ok _ _ _ _ _ _ _ _ HI Ho') as [Hb' Hbin'].
  destruct (cell_size_ok bin Hbin) as [Hs _], (cell_size_ok bin' Hbin') as [Hs' _].
  destruct (decide (b = b')) as [<- |Hbb].
  - destruct (owns_unique _ _ _ _ _ _ _ _ _ _ HI Ho Ho') as [<- _]. by apply (cells_apart b).
  - destruct (cells_in b _ c Hb Hs Hc) as (? & ? & _), (cells_in b' _ c' Hb' Hs' Hc') as (? & ? & _).
    destruct (blocks_apart b b' Hb Hb' Hbb); lia.
Qed.
Lemma used_disjoint skip used hand st L c cs c' cs' :
  ms_inv_but skip used hand st L → used !! c = Some cs → used !! c' = Some cs' → c ≠ c' → c + cs ≤ c' ∨ c' + cs' ≤ c.
Proof.
  intros HI Hu Hu' Hne. destruct (mi_used _ _ _ _ _ HI c cs Hu) as (b & bin & u & Ho & -> & Hc). by eapply used_apart.
Qed.
Lemma used_word skip used hand st L c cs x :
  ms_inv_but skip used hand st L → used !! c = Some cs → c ≤ x → x + 8 ≤ c + cs → in_block x 8.
Proof.
  intros HI Hu H1 H2. destruct (mi_used _ _ _ _ _ HI c cs Hu) as (b & bin & u & Ho & -> & Hc).
  destruct (owns_ok _ _ _ _ _ _ _ _ HI Ho) as [Hb Hbin]. destruct (cell_size_ok bin Hbin) as [Hs _]. by apply (word_in_cell b (cell_size bin) c).
Qed.

(** A cell in use belongs to the owner of the block it is in. *)
Lemma used_owner skip used hand st L b c cs :
  ms_inv_but skip used hand st L → block_ok b → used !! c = Some cs → b ≤ c < b + Block_BYTES →
  ∃ bin u, owns L hand b bin u ∧ cs = cell_size bin ∧ c ∈ cells b cs.
Proof.
  intros HI Hb Hu Hin. destruct (mi_used _ _ _ _ _ HI c cs Hu) as (b' & bin & u & Ho & -> & Hc).
  destruct (owns_ok _ _ _ _ _ _ _ _ HI Ho) as [Hb' Hbin]. destruct (cell_size_ok bin Hbin) as [Hcs _].
  destruct (cells_in b' _ c Hb' Hcs Hc) as (? & ? & _). destruct (decide (b' = b)) as [-> |Hne]; [by exists bin, u|].
  destruct Hcs as [? _]. destruct (blocks_apart b' b Hb' Hb Hne); lia.
Qed.

(** ** Frames *)

Lemma free_cells_same s s' b cs l :
  free_cells s b cs l → block_ok b → size_ok cs → bm_ok s' → load_block_cell_size s' b = load_block_cell_size s b →
  load_free_list s' b = load_free_list s b → (∀ x, b ≤ x → x + 8 ≤ b + Block_BYTES → wload s' x = wload s x) → free_cells s' b cs l.
Proof.
  intros [F1 F2 F3 F4 F5] Hb Hc Hs' E1 E2 Hw. split; [done|by rewrite E1|rewrite E2|done|done].
  apply (free_chain_same s); [|done]. intros x Hx. destruct (cells_in b cs x Hb Hc (F5 x Hx)) as (? & ? & _).
  destruct Hc as [Hc _]. apply Hw; lia.
Qed.
Lemma is_live_same s s' cs c : stores s s' → is_live s' cs c = is_live s cs c.
Proof.
  intros Hst. unfold is_live. induction (sweep_refs ref_offset VM unified cs c) as [|x l IH]; [done|]. cbn [existsb].
  by rewrite IH, (Hmarks s s').
Qed.
Lemma block_inv_same used s s' b bin u :
  block_inv used s b (cell_size bin) u → 0 ≤ bin ≤ MAX_BIN → block_ok b → bm_ok s' → stores s s' →
  load_block_cell_size s' b = load_block_cell_size s b → load_free_list s' b = load_free_list s b →
  (∀ x, b ≤ x → x + 8 ≤ b + Block_BYTES → wload s' x = wload s x) → block_inv used s' b (cell_size bin) u.
Proof.
  intros [E Hu] Hbin Hb Hs' Hst E1 E2 Hw. destruct (cell_size_ok bin Hbin) as [Hc _]. split; [by rewrite E1|]. destruct u.
  - intros c Hcc Huc. rewrite (is_live_same s) by done. by apply Hu.
  - destruct Hu as (l & HF & Hl). exists l. split; [|done]. by apply (free_cells_same s).
Qed.
Lemma rel_any_free hf (st : gmap Z BlockList * S) L : rel hf st L → rel (has_free_cells st.2) st L.
Proof. intros [R1 R2 R3 R4]. by split. Qed.
Lemma list_rep_links s s' a bl l :
  list_rep s a bl l → (∀ t b, block_ok b → t ∈ [NEXT_BLOCK_TABLE; PREV_BLOCK_TABLE; BLOCK_LIST_TABLE] → tload t s' b = tload t s b) → list_rep s' a bl l.
Proof.
  intros [R1 R2 R3 R4 R5 R6] Ht. split; try done.
  - apply (chain_same s); [done..|]. intros b Hb. unfold load_prev_block, load_next_block. rewrite !Ht by (by apply R5 || set_solver). done.
  - intros b Hb. unfold load_block_list. rewrite Ht by (by apply R5 || set_solver). by apply R6.
Qed.
Lemma rel_links hf m s s' L :
  rel hf (m, s) L → bm_ok s' → (∀ t b, block_ok b → t ∈ [NEXT_BLOCK_TABLE; PREV_BLOCK_TABLE; BLOCK_LIST_TABLE] → tload t s' b = tload t s b) →
  rel (has_free_cells s') (m, s') L.
Proof.
  intros [R1 R2 R3 R4] Hs' Ht. split; cbn [fst snd] in *; try done. intros a. specialize (R3 a).
  destruct (m !! a), (L !! a); try done. destruct R3 as [? ?]. split; [done|]. by apply (list_rep_links s).
Qed.
Lemma cm_inv_same cst r s s' : cm_inv cst r s → bm_ok s' → (∀ c, chunk_ok c → cload s' c = cload s c) → cm_inv cst r s'.
Proof. intros [I1 I2 I3] Hs' Hc. split; [done| |done]. intros c Hcc. rewrite Hc by done. by apply I2. Qed.

(** The words of the cells in use are kept. *)
Definition kept used (st st' : ms_state S) : Prop :=
  ∀ c cs x, used !! c = Some cs → c ≤ x → x + 8 ≤ c + cs → wload (ms_mem st') x = wload (ms_mem st) x.
Lemma kept_refl used st : kept used st st.
Proof. done. Qed.
Lemma kept_trans used st1 st2 st3 : kept used st1 st2 → kept used st2 st3 → kept used st1 st3.
Proof. intros K1 K2 c cs x Hu Hl Hr. rewrite (K2 c cs x) by done. by apply (K1 c cs x). Qed.

(** ** Operations on lists *)

(** The sizes of the lists stay. *)
Definition same_sizes (m m' : gmap Z BlockList) : Prop := ∀ a, bl_size <$> m' !! a = bl_size <$> m !! a.
Lemma same_sizes_insert m a bl bl' : m !! a = Some bl → bl_size bl' = bl_size bl → same_sizes m (<[a := bl']> m).
Proof. intros E Es a'. destruct (decide (a = a')) as [<- |]; [rewrite lookup_insert_eq, E; cbn; by rewrite Es|by rewrite lookup_insert_ne]. Qed.
Lemma same_sizes_insert2 m a a' bl bl' bo bo' :
  m !! a = Some bl → m !! a' = Some bo → bl_size bl' = bl_size bl → bl_size bo' = bl_size bo → same_sizes m (<[a := bl']> (<[a' := bo']> m)).
Proof.
  intros E E' Es Es' x. destruct (decide (a = x)) as [<- |]; [rewrite lookup_insert_eq, E; cbn; by rewrite Es|].
  rewrite lookup_insert_ne by done. by apply (same_sizes_insert m a' bo bo').
Qed.

Lemma push_size a b bl s : bl_size (bl_push a b bl s).1 = bl_size bl.
Proof. unfold bl_push. by destruct (first bl). Qed.
Lemma pop_size a bl s : bl_size (bl_pop a bl s).1.2 = bl_size bl.
Proof. unfold bl_pop. destruct (first bl) as [h|]; [|done]. by destruct (load_next_block s h). Qed.
Lemma remove_size a b bl s : bl_size (bl_remove a b bl s).1 = bl_size bl.
Proof. unfold bl_remove. by destruct (load_prev_block s b), (load_next_block s b). Qed.
Lemma append_size fuel a bl bo s bl' bo' s' :
  bl_append fuel a bl bo s = Val (bl', bo', s') → bl_size bl' = bl_size bl ∧ bl_size bo' = bl_size bo.
Proof.
  unfold bl_append. destruct (first bo); [|by intros [= <- <- _]]. intros E. apply bind_Val in E as ([bl1 s1] & E1 & E).
  apply bind_Val in E as (s2 & _ & [= <- <- _]). split; [|done]. destruct (first bl).
  - apply bind_Val in E1 as (x & _ & E1). injection E1 as <- _. done.
  - injection E1 as <- _. done.
Qed.
Lemma recycle_size fuel ac aa c bc ba s bc' ba' s' :
  recycle_loop fuel ac aa c bc ba s = Val (bc', ba', s') → bl_size bc' = bl_size bc ∧ bl_size ba' = bl_size ba.
Proof.
  revert c bc ba s. induction fuel as [|fuel IH]; intros [b|] bc ba s; cbn; try done; try (by intros [= <- <- _]).
  destruct (has_free_cells s b); [|apply IH]. pose proof (remove_size ac b bc s) as E1. destruct (bl_remove ac b bc s) as [bc1 s1].
  pose proof (push_size aa b ba s1) as E2. destruct (bl_push aa b ba s1) as [ba1 s2]. intros [-> ->]%IH. done.
Qed.
Lemma find_size fuel aa ac ba bc s r ba' bc' s' :
  find_free_block_with fuel aa ac ba bc s = Val (r, ba', bc', s') → bl_size ba' = bl_size ba ∧ bl_size bc' = bl_size bc.
Proof.
  revert ba bc s. induction fuel as [|fuel IH]; intros ba bc s; cbn; (destruct (first ba) as [b|]; [|by intros [= _ <- <- _]]);
    (destruct (has_free_cells s b); [by intros [= _ <- <- _]|]); [done|].
  pose proof (pop_size aa ba s) as E1. destruct (bl_pop aa ba s) as [[r1 ba1] s1].
  pose proof (push_size ac b bc s1) as E2. destruct (bl_push ac b bc s1) as [bc1 s2]. intros [-> ->]%IH. done.
Qed.
Lemma run_op_sizes fuel op m s r m' s' : run_op fuel op (m, s) = Val (r, (m', s')) → same_sizes m m'.
Proof.
  destruct op as [a b|a|b|a o|c a|a c]; cbn [run_op]; intros E.
  1-3: apply bind_Val in E as (bl & E1 & E); (destruct (m !! _) as [bl0|] eqn:El; [injection E1 as ->|done]).
  - pose proof (push_size a b bl s) as Es. destruct (bl_push a b bl s). injection E as _ <- _. by eapply same_sizes_insert.
  - pose proof (pop_size a bl s) as Es. destruct (bl_pop a bl s) as [[? ?] ?]. injection E as _ <- _. by eapply same_sizes_insert.
  - pose proof (remove_size (load_block_list s b) b bl s) as Es. destruct (bl_remove _ b bl s). injection E as _ <- _. by eapply same_sizes_insert.
  - apply bind_Val in E as (bl & E1 & E). apply bind_Val in E as (bo & E2 & E). apply bind_Val in E as ([[bl' bo'] s1] & Ea & [= _ <- _]).
    apply append_size in Ea as [? ?]. destruct (m !! a) eqn:?; [injection E1 as ->|done]. destruct (m !! o) eqn:?; [injection E2 as ->|done].
    by eapply same_sizes_insert2.
  - apply bind_Val in E as (bl & E1 & E). apply bind_Val in E as (bo & E2 & E). apply bind_Val in E as ([[bl' bo'] s1] & Ea & [= _ <- _]).
    apply recycle_size in Ea as [? ?]. destruct (m !! c) eqn:?; [injection E1 as ->|done]. destruct (m !! a) eqn:?; [injection E2 as ->|done].
    by eapply same_sizes_insert2.
  - apply bind_Val in E as (bl & E1 & E). apply bind_Val in E as (bo & E2 & E). apply bind_Val in E as ([[[r' bl'] bo'] s1] & Ea & [= _ <- _]).
    apply find_size in Ea as [? ?]. destruct (m !! a) eqn:?; [injection E1 as ->|done]. destruct (m !! c) eqn:?; [injection E2 as ->|done].
    by eapply same_sizes_insert2.
Qed.
Lemma same_sizes_inv m m' a bl' : same_sizes m m' → m' !! a = Some bl' → ∃ bl, m !! a = Some bl ∧ bl_size bl' = bl_size bl.
Proof. intros Hs E. specialize (Hs a). rewrite E in Hs. destruct (m !! a) as [bl|]; [|done]. injection Hs as ->. by exists bl. Qed.

(** What an operation on lists leaves alone. *)
Record list_effect used (st st' : ms_state S) : Prop := {
  le_kept : kept used st st';
  le_pages : ms_pages st' = ms_pages st;
  le_free : ∀ b, block_ok b → has_free_cells (ms_mem st') b = has_free_cells (ms_mem st) b
}.

Lemma list_op_inv skip used hand hand' st op r L L' :
  ms_inv_but skip used hand st L → spec_step block_ok (has_free_cells (ms_mem st)) op L r L' →
  (∀ b bin u, owns L' hand' b bin u ↔ owns L hand b bin u) →
  (∀ b bin u, hand' = Some (b, (bin, u)) → ∀ a l, L' !! a = Some l → b ∉ l) →
  ∃ st', (∀ fuel, 2 ^ 31 ≤ Z.of_nat fuel → on_lists fuel op st = Val (r, st')) ∧ ms_inv_but skip used hand' st' L' ∧ list_effect used st st'.
Proof.
  intros HI Hstep Hown Hhand. pose proof HI as [I1 I2 I3 I4 I5 I6 [cst I7] [I8 I9]]. pose proof (inv_ok _ _ _ _ _ HI) as Hs.
  destruct (run_op_ok _ _ _ _ _ _ I1 Hstep) as (fuel & [m' s'] & Hfu & E & HR & touched & Hol). cbn [fst snd] in *.
  pose proof (run_op_sizes _ _ _ _ _ _ _ E) as Hsz.
  set (st' := {| ms_lists := m'; ms_mem := s'; ms_chunks := ms_chunks st; ms_pages := ms_pages st |}).
  exists st'. split; [|split].
  - intros fuel' Hle. unfold on_lists. by rewrite (run_op_fuel _ fuel' _ _ _ E) by lia.
  - split; cbn [ms_lists ms_mem ms_chunks ms_pages st'].
    + exact (rel_any_free _ _ _ HR).
    + intros a. rewrite <-I2. specialize (Hsz a). destruct (m' !! a), (ms_lists st !! a); try done; split; intros []; by eexists.
    + intros a bl bin u Ha Hr. destruct (same_sizes_inv _ _ _ _ Hsz Ha) as (bl0 & E0 & ->). by apply (I3 a bl0 bin u).
    + intros b bin u Hh. assert (owns L hand b bin u) as Ho by (apply Hown; by right).
      destruct (owns_ok _ _ _ _ _ _ _ _ HI Ho) as [? ?]. split; [done|]. split; [done|]. by apply (Hhand b bin u).
    + intros b bin u Hsk Ho%Hown. destruct (owns_ok _ _ _ _ _ _ _ _ HI Ho) as [Hb Hbin]. apply (block_inv_same used (ms_mem st)); try done.
      * by apply I5.
      * apply Hol.
      * apply Hol.
      * unfold load_block_cell_size. apply (ol_tables _ _ _ Hol); [done|set_solver].
      * unfold load_free_list. apply (ol_tables _ _ _ Hol); [done|set_solver].
      * intros x ? ?. apply (ol_heap _ _ _ Hol). exists b. split_and!; (done || lia).
    + intros c cs Hc. destruct (I6 c cs Hc) as (b & bin & u & Ho & ? & ?). exists b, bin, u. split_and!; try done. by apply Hown.
    + exists cst. apply (cm_inv_same cst _ (ms_mem st)); [done|apply Hol|apply Hol].
    + split; [done|]. intros b Hb. destruct (I9 b Hb) as (? & ? & Hno). split_and!; [done..|]. intros bin u Ho%Hown. by eapply Hno.
  - split; cbn [ms_lists ms_mem ms_chunks ms_pages st']; [|done|].
    + intros c cs x Hu Hl Hr. cbn. apply (ol_heap _ _ _ Hol). by eapply used_word.
    + intros b Hb. by apply (has_free_same _ _ _ _ Hol).
Qed.

(** *** Taking a block from a list and putting it on one *)

Lemma pop_inv used st L a l bin u :
  ms_inv used None st L → L !! a = Some l → roles !! a = Some (bin, u) →
  ∃ st', (∀ fuel, on_lists fuel (OpPop a) st = Val (head l, st')) ∧ list_effect used st st' ∧
    ms_inv used ((λ b, (b, (bin, u))) <$> head l) st' (<[a := tail l]> L).
Proof.
  intros HI Ha Hr. destruct (rel_lookup _ _ _ _ _ (mi_rel _ _ _ _ _ HI) Ha) as (bl & _ & _ & Hrep). pose proof (lr_nodup _ _ _ _ Hrep) as Hnd.
  destruct (list_op_inv None used None ((λ b, (b, (bin, u))) <$> head l) st (OpPop a) (head l) L (<[a := tail l]> L) HI) as (st' & E & HI' & He).
  - by apply spec_pop.
  - intros b bin' u'. unfold owns. split.
    + intros [(a' & l' & Ha' & Hb & Hr')|Hh].
      * left. destruct (decide (a = a')) as [<- |Hne]; [|rewrite lookup_insert_ne in Ha' by done; by exists a', l'].
        rewrite lookup_insert_eq in Ha'. injection Ha' as <-. exists a, l. split_and!; try done. destruct l; [done|]. cbn in Hb. set_solver.
      * left. destruct l as [|b0 l]; [done|]. injection Hh as <- <- <-. exists a, (b0 :: l). split_and!; try done. set_solver.
    + intros [(a' & l' & Ha' & Hb & Hr')|?]; [|done]. destruct (decide (a = a')) as [<- |Hne].
      * rewrite Ha in Ha'. injection Ha' as <-. rewrite Hr in Hr'. injection Hr' as <- <-. destruct l as [|b0 l]; [by apply elem_of_nil in Hb|].
        apply elem_of_cons in Hb as [-> |Hb]; [by right|]. left. exists a, l. rewrite lookup_insert_eq. done.
      * left. exists a', l'. by rewrite lookup_insert_ne.
  - intros b bin' u' Hh a' l' Ha' Hb. destruct l as [|b0 l]; [done|]. cbn in Hh. injection Hh as <- <- <-.
    destruct (decide (a = a')) as [<- |Hne].
    + rewrite lookup_insert_eq in Ha'. injection Ha' as <-. apply NoDup_cons in Hnd as [? _]. done.
    + rewrite lookup_insert_ne in Ha' by done. apply (rel_disjoint _ _ _ (mi_rel _ _ _ _ _ HI) a a' (b0 :: l) l' Ha Ha' Hne b0); [set_solver|done].
  - exists st'. split; [|done]. intros fuel. specialize (E (Z.to_nat (2 ^ 31)) ltac:(lia)). exact E.
Qed.

Lemma push_inv skip used st L a l b bin u :
  ms_inv_but skip used (Some (b, (bin, u))) st L → L !! a = Some l → roles !! a = Some (bin, u) →
  ∃ st', (∀ fuel, on_lists fuel (OpPush a b) st = Val (None, st')) ∧ list_effect used st st' ∧ ms_inv_but skip used None st' (<[a := b :: l]> L).
Proof.
  intros HI Ha Hr. destruct (mi_hand _ _ _ _ _ HI b bin u eq_refl) as (Hb & Hbin & Hni).
  destruct (list_op_inv skip used (Some (b, (bin, u))) None st (OpPush a b) None L (<[a := b :: l]> L) HI) as (st' & E & HI' & He).
  - by apply spec_push.
  - intros b' bin' u'. unfold owns. split.
    + intros [(a' & l' & Ha' & Hb' & Hr')|?]; [|done]. destruct (decide (a = a')) as [<- |Hne].
      * rewrite lookup_insert_eq in Ha'. injection Ha' as <-. rewrite Hr in Hr'. injection Hr' as <- <-.
        apply elem_of_cons in Hb' as [-> |Hb']; [by right|left; by exists a, l].
      * rewrite lookup_insert_ne in Ha' by done. left. by exists a', l'.
    + intros [(a' & l' & Ha' & Hb' & Hr')|[= <- <- <-]]; left.
      * destruct (decide (a = a')) as [<- |Hne]; [|exists a', l'; by rewrite lookup_insert_ne].
        exists a, (b :: l). rewrite lookup_insert_eq. rewrite Ha in Ha'. injection Ha' as <-. split_and!; [done|set_solver|done].
      * exists a, (b :: l). rewrite lookup_insert_eq. split_and!; [done|set_solver|done].
  - done.
  - exists st'. split; [|done]. intros fuel. specialize (E (Z.to_nat (2 ^ 31)) ltac:(lia)). exact E.
Qed.

(** ** Changes within a block *)

(** The memory changes in block [b] and in its entries of the tables only. *)
Record changes_block s s' (b : Z) : Prop := {
  cb_ok : bm_ok s';
  cb_stores : stores s s';
  cb_links : ∀ t b', block_ok b' → t ∈ [NEXT_BLOCK_TABLE; PREV_BLOCK_TABLE; BLOCK_LIST_TABLE] → tload t s' b' = tload t s b';
  cb_tables : ∀ t b', block_ok b' → b' ≠ b → tload t s' b' = tload t s b';
  cb_words : ∀ x, in_block x 8 → x + 8 ≤ b ∨ b + Block_BYTES ≤ x → wload s' x = wload s x
}.

Lemma block_inv_used used used' s b bin u :
  (∀ c, c ∈ cells b (cell_size bin) → used' !! c = used !! c) → block_inv used s b (cell_size bin) u → block_inv used' s b (cell_size bin) u.
Proof.
  intros Hu [E HB]. split; [done|]. destruct u.
  - intros c Hc. rewrite Hu by done. by apply HB.
  - destruct HB as (l & HF & Hl). exists l. split; [done|]. intros c Hc. rewrite Hu; [by apply Hl|]. by apply HF.
Qed.

Lemma mem_inv skip used used' hand hand' st st' L b :
  ms_inv_but skip used hand st L → block_ok b → changes_block (ms_mem st) (ms_mem st') b →
  ms_lists st' = ms_lists st → ms_pages st' = ms_pages st → (∃ cst, cm_inv cst (ms_chunks st') (ms_mem st')) →
  (∀ b' r, b' ≠ b → hand' = Some (b', r) ↔ hand = Some (b', r)) →
  (∀ bin u, hand' = Some (b, (bin, u)) → 0 ≤ bin ≤ MAX_BIN ∧ ∀ a l, L !! a = Some l → b ∉ l) →
  (∀ c, c < b ∨ b + Block_BYTES ≤ c → used' !! c = used !! c) →
  (∀ bin u, owns L hand' b bin u → block_inv used' (ms_mem st') b (cell_size bin) u ∧ (∃ bin' u', owns L hand b bin' u')) →
  (∀ c cs, used' !! c = Some cs → b ≤ c < b + Block_BYTES → ∃ bin u, owns L hand' b bin u ∧ cs = cell_size bin ∧ c ∈ cells b cs) →
  (skip = None ∨ skip = Some b) → ms_inv used' hand' st' L.
Proof.
  intros HI Hb [C1 C2 C3 C4 C5] Hl Hp Hch Hh1 Hh Hu Hbi Hub Hsk. pose proof HI as [I1 I2 I3 I4 I5 I6 _ [I8 I9]].
  assert (∀ b' bin u, b' ≠ b → owns L hand' b' bin u ↔ owns L hand b' bin u) as Ho by (intros b' bin u Hne; unfold owns; by rewrite Hh1).
  assert (∀ b', block_ok b' → b' ≠ b → ∀ bin c, 0 ≤ bin ≤ MAX_BIN → c ∈ cells b' (cell_size bin) → used' !! c = used !! c) as Hu'.
  { intros b' Hb' Hne bin c Hbin Hc. apply Hu. destruct (cell_size_ok bin Hbin) as [Hcs _].
    destruct (cells_in b' _ c Hb' Hcs Hc) as (? & ? & _). destruct Hcs as [? _]. destruct (blocks_apart b b' Hb Hb' ltac:(done)); lia. }
  split; rewrite ?Hl, ?Hp.
  - eapply rel_links; [exact I1|done..].
  - done.
  - done.
  - intros b' bin u E. destruct (decide (b' = b)) as [-> |Hne]; [split; [done|by eapply Hh]|].
    apply Hh1 in E; [|done]. by apply (I4 b' bin u).
  - intros b' bin u _ Hw. destruct (decide (b' = b)) as [-> |Hne]; [by apply Hbi|].
    pose proof (proj1 (Ho b' bin u Hne) Hw) as Ho'. destruct (owns_ok _ _ _ _ _ _ _ _ HI Ho') as [Hb' Hbin].
    apply (block_inv_used used); [intros c Hc; by apply (Hu' b' Hb' Hne bin)|].
    apply (block_inv_same used (ms_mem st)); try done.
    + apply I5; [|done]. destruct Hsk as [-> | ->]; [done|]. by intros [= ->].
    + by apply C4.
    + by apply C4.
    + intros x ? ?. apply C5; [exists b'; split_and!; (done || lia)|]. destruct (blocks_apart b b' Hb Hb' ltac:(done)); lia.
  - intros c cs Hc. destruct (decide (b ≤ c < b + Block_BYTES)) as [Hin|Hout].
    + destruct (Hub c cs Hc Hin) as (bin & u & ? & ? & ?). by exists b, bin, u.
    + rewrite Hu in Hc by lia. destruct (I6 c cs Hc) as (b' & bin & u & Hw & -> & Hcc).
      exists b', bin, u. split_and!; try done. apply Ho; [|done]. intros ->.
      destruct (owns_ok _ _ _ _ _ _ _ _ HI Hw) as [_ Hbin]. destruct (cell_size_ok bin Hbin) as [Hcs _].
      destruct (cells_in b _ c Hb Hcs Hcc) as (? & ? & _). destruct Hcs as [? _]. lia.
  - done.
  - split; [done|]. intros b' Hb'. destruct (I9 b' Hb') as (? & ? & Hno). split_and!; [done..|]. intros bin u Hw.
    destruct (decide (b' = b)) as [-> |Hne]; [destruct (Hbi bin u Hw) as (_ & bin' & u' & Ho'); by eapply Hno|].
    by apply (Hno bin u), Ho.
Qed.

Lemma dead_elem live b cs c : c ∈ dead_from live b cs 0 (n_cells cs) ↔ c ∈ cells b cs ∧ live c = false.
Proof.
  unfold dead_from. rewrite list_elem_of_In, <-in_rev, filter_In, <-list_elem_of_In. change (cell_at b cs <$> seq 0 (n_cells cs)) with (cells b cs).
  by rewrite negb_true_iff.
Qed.

(** A sweep or the set-up of a block. *)
Lemma swept_changes s s' b cs live : block_ok b → size_ok cs → swept s s' b cs live → changes_block s s' b.
Proof.
  intros Hb Hc [W1 W2 W3 W4]. split; [apply W1|done|by intros; apply W3|intros t b' ? ?; by apply W3|].
  intros x Hx Hd. apply W2; [done|]. intros c [Hcc _]%dead_elem. destruct (cells_in b cs c Hb Hc Hcc) as (? & ? & _). destruct Hc as [Hc _]. lia.
Qed.
Lemma swept_inv used s s' b bin live :
  block_ok b → 0 ≤ bin ≤ MAX_BIN → swept s s' b (cell_size bin) live →
  (∀ c, c ∈ cells b (cell_size bin) → is_Some (used !! c) → live c = true) → block_inv used s' b (cell_size bin) false.
Proof.
  intros Hb Hbin [W1 _ _ _] Hl. split; [apply W1|]. eexists. split; [exact W1|]. intros c [Hc Hd]%dead_elem.
  destruct (used !! c) eqn:E; [|done]. specialize (Hl c Hc ltac:(done)). congruence.
Qed.
Lemma swept_kept skip used hand st L s' b bin u live :
  ms_inv_but skip used hand st L → owns L hand b bin u → swept (ms_mem st) s' b (cell_size bin) live →
  (∀ c, c ∈ cells b (cell_size bin) → is_Some (used !! c) → live c = true) →
  ∀ c cs x, used !! c = Some cs → c ≤ x → x + 8 ≤ c + cs → wload s' x = wload (ms_mem st) x.
Proof.
  intros HI Ho [_ W2 _ _] Hl c cs x Hu H1 H2. apply W2; [by eapply used_word|]. intros d [Hd Hdl]%dead_elem.
  assert (d ≠ c). { intros ->. rewrite Hl in Hdl; [done..|by rewrite Hu]. }
  destruct (owns_ok _ _ _ _ _ _ _ _ HI Ho) as [_ Hbin]. destruct (cell_size_ok bin Hbin) as [[? _] _].
  destruct (used_apart _ _ _ _ _ _ _ _ d c cs HI Ho Hd Hu ltac:(done)); lia.
Qed.

Lemma sweep_inv used st L b bin :
  ms_inv used (Some (b, (bin, true))) st L →
  ∃ st', sweep_block is_marked ref_offset VM unified b st = Val st' ∧ ms_inv used (Some (b, (bin, false))) st' L ∧
    kept used st st' ∧ ms_pages st' = ms_pages st.
Proof.
  intros HI. assert (owns L (Some (b, (bin, true))) b bin true) as Ho by (by right).
  destruct (owns_ok _ _ _ _ _ _ _ _ HI Ho) as [Hb Hbin]. destruct (cell_size_ok bin Hbin) as [Hc _].
  destruct (mi_blocks _ _ _ _ _ HI b bin true ltac:(done) Ho) as [Es Hlive].
  destruct (sweep_spec is_marked ref_offset ltac:(intros; apply Hmarks; constructor; [constructor|done..]) VM unified (ms_mem st) b (cell_size bin) SWEEP_FUEL)
    as (s' & E & Hsw & Ht & Hch); [by eapply inv_ok|done..|].
  exists (with_mem s' st). unfold sweep_block. rewrite E. split; [done|]. split; [|split; [|done]].
  - destruct (mi_chunks _ _ _ _ _ HI) as [cst Hcm].
    apply (mem_inv None used used (Some (b, (bin, true))) (Some (b, (bin, false))) st (with_mem s' st) L b); try done.
    + by eapply swept_changes.
    + exists cst. apply (cm_inv_same cst _ (ms_mem st)); [done|apply Hsw|done].
    + intros b' r Hne. naive_solver.
    + intros bin' u' [= <- <-]. split; [done|]. apply (mi_hand _ _ _ _ _ HI b bin true eq_refl).
    + intros bin' u' [(a & l & Ha & Hbl & _)|[= <- <-]].
      * destruct (mi_hand _ _ _ _ _ HI b bin true eq_refl) as (_ & _ & Hni). by pose proof (Hni a l Ha).
      * split; [|by exists bin, true]. by eapply swept_inv.
    + intros c cs Hu Hin. destruct (used_owner _ _ _ _ _ b c cs HI Hb Hu Hin) as (bin' & u' & Ho' & -> & Hcc).
      destruct (owns_unique _ _ _ _ _ _ _ _ _ _ HI Ho Ho') as [<- _]. exists bin, false. split_and!; [by right|done..].
    + by left.
  - exact (swept_kept None used _ st L s' b bin true _ HI Ho Hsw Hlive).
Qed.

Lemma tls_inv used st L b bin u self :
  ms_inv used (Some (b, (bin, u))) st L → is_u 64 (tls self) →
  ms_inv used (Some (b, (bin, u))) (store_tls self b st) L ∧ kept used st (store_tls self b st).
Proof.
  intros HI Hv. assert (owns L (Some (b, (bin, u))) b bin u) as Ho by (by right).
  destruct (owns_ok _ _ _ _ _ _ _ _ HI Ho) as [Hb Hbin]. pose proof (inv_ok _ _ _ _ _ HI) as Hs.
  set (s' := tstore TLS_TABLE (ms_mem st) b (tls self)).
  assert (bm_ok s') as Hs' by (by apply tstore_ok). assert (stores (ms_mem st) s') as Hst by (constructor; [constructor|done..]).
  assert (∀ t b', block_ok b' → t ≠ TLS_TABLE → tload t s' b' = tload t (ms_mem st) b') as Ht.
  { intros t b' Hb' Hne. unfold s'. rewrite tload_tstore, decide_False by (done || naive_solver). done. }
  assert (∀ x, in_block x 8 → wload s' x = wload (ms_mem st) x) as Hw by (intros x Hx; by apply wload_tstore).
  split; [|intros c cs x Hu ? ?; apply Hw; by eapply used_word].
  destruct (mi_chunks _ _ _ _ _ HI) as [cst Hcm].
  apply (mem_inv None used used (Some (b, (bin, u))) (Some (b, (bin, u))) st (store_tls self b st) L b); try done.
  - split; try done.
    + intros t b' Hb' Hin. apply Ht; [done|set_solver].
    + intros t b' Hb' Hne. unfold store_tls, with_mem. cbn [ms_mem]. rewrite tload_tstore, decide_False by (done || naive_solver). done.
    + intros x Hx _. by apply Hw.
  - exists cst. apply (cm_inv_same cst _ (ms_mem st)); [done..|]. intros c Hcc. by apply cload_tstore.
  - intros bin' u' [= <- <-]. split; [done|]. apply (mi_hand _ _ _ _ _ HI b bin u eq_refl).
  - intros bin' u' Ho'. split; [|by exists bin', u']. destruct (owns_unique _ _ _ _ _ _ _ _ _ _ HI Ho Ho') as [<- <-].
    apply (block_inv_same used (ms_mem st)); try done; [by apply (mi_blocks _ _ _ _ _ HI)|by apply Ht..|].
    intros x ? ?. apply Hw. exists b. split_and!; (done || lia).
  - intros c cs Hu Hin. by eapply used_owner.
  - by left.
Qed.

(** ** Allocating a cell *)

Lemma block_alloc_changes s b cs l :
  block_ok b → size_ok cs → free_cells s b cs l →
  changes_block s (block_alloc s b).2 b ∧ ∀ c, chunk_ok c → cload (block_alloc s b).2 c = cload s c.
Proof.
  intros Hb Hc [F1 F2 F3 F4 F5]. unfold block_alloc. destruct l as [|c l]; cbn [free_chain] in F3.
  - rewrite F3. cbn. split; [|done]. split; try done. constructor.
  - destruct F3 as [E F3]. rewrite E. destruct (cells_in b cs c Hb Hc (F5 c ltac:(set_solver))) as (C1 & C2 & C3 & C4 & C5).
    destruct (Z.eqb_spec c 0); [lia|]. pose proof (wload_range s c F1) as Hw.
    set (s1 := wstore s c 0). assert (bm_ok s1) as O1 by (by apply wstore_ok).
    set (s2 := store_free_list s1 b (wload s c)). assert (bm_ok s2) as O2 by (by apply tstore_ok).
    assert (load_block_cell_size s2 b = cs) as Es.
    { unfold load_block_cell_size, s2, store_free_list. rewrite tload_tstore, decide_False by (done || naive_solver).
      unfold s1. by rewrite tload_wstore. }
    rewrite Es. cbn [snd]. assert (8 ≤ cs) as H8 by (destruct Hc; lia). split; [split|].
    + by apply wzero_ok.
    + do 3 (constructor; [|done..]). constructor.
    + intros t b' Hb' Hin. rewrite tload_wzero by done. unfold s2, store_free_list. rewrite tload_tstore, decide_False by (done || set_solver).
      by apply tload_wstore.
    + intros t b' Hb' Hne. rewrite tload_wzero by done. unfold s2, store_free_list. rewrite tload_tstore, decide_False by (done || naive_solver).
      by apply tload_wstore.
    + intros x Hx Hd. rewrite wload_wzero_ne by lia. unfold s2, store_free_list. rewrite wload_tstore by done. apply wload_wstore_ne. lia.
    + intros k Hk. rewrite cload_wzero by done. unfold s2, store_free_list. rewrite cload_tstore by done. by apply cload_wstore.
Qed.

(** The cell is not in use, and it is zero. *)
Lemma block_alloc_inv used st L b bin :
  ms_inv used None st L → owns L None b bin false → has_free_cells (ms_mem st) b = true →
  let '(c, s') := block_alloc (ms_mem st) b in
  used !! c = None ∧ c ≠ 0 ∧ c ∈ cells b (cell_size bin) ∧ ms_inv (<[c := cell_size bin]> used) None (with_mem s' st) L ∧
  kept used st (with_mem s' st) ∧ ∀ x, c ≤ x → x + 8 ≤ c + cell_size bin → wload s' x = 0.
Proof.
  intros HI Ho Hf. destruct (owns_ok _ _ _ _ _ _ _ _ HI Ho) as [Hb Hbin]. destruct (cell_size_ok bin Hbin) as [Hc _].
  destruct (mi_blocks _ _ _ _ _ HI b bin false ltac:(done) Ho) as [Es (l & HF & Hl)].
  pose proof (block_alloc_spec (ms_mem st) b _ l Hb Hc HF) as HA. pose proof (block_alloc_changes (ms_mem st) b _ l Hb Hc HF) as [HC Hch].
  destruct (block_alloc (ms_mem st) b) as [c s']. cbn [snd] in *. destruct HA as (E & HF' & HS & HZ).
  destruct l as [|c0 l].
  { exfalso. unfold has_free_cells in Hf. rewrite (fc_chain _ _ _ _ HF : load_free_list _ b = 0) in Hf. done. }
  change (default 0 (head (c0 :: l))) with c0 in E. subst c0. cbn [head tail] in *.
  assert (c ∈ cells b (cell_size bin)) as Hcc by (apply (fc_cells _ _ _ _ HF); set_solver).
  assert (used !! c = None) as Hu by (apply Hl; set_solver). destruct (cells_in b _ c Hb Hc Hcc) as (C1 & C2 & C3 & _).
  pose proof (fc_nodup _ _ _ _ HF) as [Hni _]%NoDup_cons.
  split; [done|]. split; [lia|]. split; [done|]. split; [|split].
  - destruct (mi_chunks _ _ _ _ _ HI) as [cst Hcm]. assert (8 ≤ cell_size bin) by (destruct Hc; lia).
    apply (mem_inv None used (<[c := cell_size bin]> used) None None st (with_mem s' st) L b); try done.
    + exists cst. apply (cm_inv_same cst _ (ms_mem st)); [done|apply HC|done].
    + intros c' Hc'. apply lookup_insert_ne. lia.
    + intros bin' u' Ho'. split; [|by exists bin', u']. destruct (owns_unique _ _ _ _ _ _ _ _ _ _ HI Ho Ho') as [<- <-].
      split; [apply HF'|]. exists l. split; [done|]. intros c' Hc'. rewrite lookup_insert_ne by (by intros ->). apply Hl. set_solver.
    + intros c' cs' Hu' Hin. destruct (decide (c = c')) as [<- |Hne].
      * rewrite lookup_insert_eq in Hu'. injection Hu' as <-. by exists bin, false.
      * rewrite lookup_insert_ne in Hu' by done. by eapply used_owner.
    + by left.
  - intros c' cs' x Hu' H1 H2. apply HS; [by eapply used_word|]. intros c2 [= <-].
    assert (c ≠ c') by (intros ->; congruence). destruct (used_apart _ _ _ _ _ _ _ _ c c' cs' HI Ho Hcc Hu' ltac:(done)); lia.
  - intros x. by apply HZ.
Qed.

(** Stores to a cell in use. *)
Lemma fill_inv used st L b bin c s' :
  ms_inv used None st L → owns L None b bin false → used !! c = Some (cell_size bin) → c ∈ cells b (cell_size bin) →
  bm_ok s' → stores (ms_mem st) s' → (∀ t b', block_ok b' → tload t s' b' = tload t (ms_mem st) b') →
  (∀ k, chunk_ok k → cload s' k = cload (ms_mem st) k) →
  (∀ x, in_block x 8 → x + 8 ≤ c ∨ c + cell_size bin ≤ x → wload s' x = wload (ms_mem st) x) →
  ms_inv used None (with_mem s' st) L.
Proof.
  intros HI Ho Hu Hcc Hs' Hst Ht Hch Hw. destruct (owns_ok _ _ _ _ _ _ _ _ HI Ho) as [Hb Hbin]. destruct (cell_size_ok bin Hbin) as [Hc _].
  destruct (mi_chunks _ _ _ _ _ HI) as [cst Hcm]. destruct (cells_in b _ c Hb Hc Hcc) as (C1 & C2 & _).
  apply (mem_inv None used used None None st (with_mem s' st) L b); try done.
  - split; try done; [intros; by apply Ht..|]. intros x Hx Hd. apply Hw; [done|lia].
  - exists cst. by apply (cm_inv_same cst _ (ms_mem st)).
  - intros bin' u' Ho'. split; [|by exists bin', u']. destruct (owns_unique _ _ _ _ _ _ _ _ _ _ HI Ho Ho') as [<- <-].
    destruct (mi_blocks _ _ _ _ _ HI b bin false ltac:(done) Ho) as [Es (l & [F1 F2 F3 F4 F5] & Hl)]. split; [unfold load_block_cell_size; by rewrite Ht|].
    exists l. split; [|done]. split; try done.
    + unfold load_block_cell_size. by rewrite Ht.
    + unfold load_free_list. rewrite Ht by done. apply (free_chain_same (ms_mem st)); [|done]. intros d Hd.
      assert (d ≠ c) by (intros ->; rewrite Hl in Hu by done; done). destruct (cells_in b _ d Hb Hc (F5 d Hd)) as (_ & _ & _ & _ & Hd8).
      apply Hw; [done|]. destruct Hc as [Hc8 Hcd]. destruct (cells_apart b (cell_size bin) d c (conj Hc8 Hcd) (F5 d Hd) Hcc ltac:(done)); lia.
  - intros d cs Hd Hin. by eapply used_owner.
  - by left.
Qed.

(** ** Finding a block *)

Lemma split_free (hf : Z → bool) l :
  ∃ full rest, l = full ++ rest ∧ (∀ b, b ∈ full → hf b = false) ∧ (∀ b, head rest = Some b → hf b = true).
Proof.
  induction l as [|b l (full & rest & -> & Hf & Hr)]; [exists [], []; split_and!; [done|set_solver|done]|].
  destruct (hf b) eqn:E.
  - exists [], (b :: full ++ rest). split_and!; [done|set_solver|]. by intros b' [= <-].
  - exists (b :: full), rest. split_and!; [done| |done]. set_solver.
Qed.

Lemma find_inv used st L a c bin :
  ms_inv used None st L → roles !! a = Some (bin, false) → roles !! c = Some (bin, false) → a ≠ c →
  ∃ r st' L', (∀ fuel, 2 ^ 31 ≤ Z.of_nat fuel → on_lists fuel (OpFindFree a c) st = Val (r, st')) ∧ ms_inv used None st' L' ∧
    list_effect used st st' ∧ (∀ x, x ≠ a → x ≠ c → L' !! x = L !! x) ∧
    (∀ b, r = Some b → owns L' None b bin false ∧ has_free_cells (ms_mem st') b = true).
Proof.
  intros HI Hra Hrc Hne. destruct (inv_list _ _ _ _ _ a _ HI Hra) as [la Ha], (inv_list _ _ _ _ _ c _ HI Hrc) as [lc Hc].
  destruct (split_free (has_free_cells (ms_mem st)) la) as (full & rest & -> & Hfull & Hrest).
  set (L' := <[a := rest]> (<[c := rev full ++ lc]> L)).
  assert (∀ x, x ≠ a → x ≠ c → L' !! x = L !! x) as Hother by (intros x ? ?; unfold L'; by rewrite !lookup_insert_ne).
  assert (L' !! a = Some rest ∧ L' !! c = Some (rev full ++ lc)) as [Ea Ec].
  { unfold L'. split; [by rewrite lookup_insert_eq|]. by rewrite lookup_insert_ne, lookup_insert_eq. }
  destruct (list_op_inv None used None None st (OpFindFree a c) (head rest) L L' HI) as (st' & E & HI' & He).
  - by apply spec_find.
  - intros b bin' u'. unfold owns. split; (intros [(x & l & Hx & Hb & Hr)|?]; [left|done]).
    + destruct (decide (x = a)) as [-> |]; [|destruct (decide (x = c)) as [-> |]].
      * rewrite Ea in Hx. injection Hx as <-. exists a, (full ++ rest). set_solver.
      * rewrite Ec in Hx. injection Hx as <-. rewrite Hrc in Hr. injection Hr as <- <-.
        rewrite elem_of_app, (list_elem_of_In (rev full)), <-in_rev, <-list_elem_of_In in Hb.
        destruct Hb as [Hb|Hb]; [exists a, (full ++ rest)|exists c, lc]; set_solver.
      * rewrite Hother in Hx by done. by exists x, l.
    + destruct (decide (x = a)) as [-> |]; [|destruct (decide (x = c)) as [-> |]].
      * rewrite Ha in Hx. injection Hx as <-. rewrite Hra in Hr. injection Hr as <- <-. apply elem_of_app in Hb as [Hb|Hb]; [|by exists a, rest].
        exists c, (rev full ++ lc). split_and!; [done| |done]. rewrite elem_of_app, (list_elem_of_In (rev full)), <-in_rev, <-list_elem_of_In. by left.
      * rewrite Hc in Hx. injection Hx as <-. exists c, (rev full ++ lc). set_solver.
      * exists x, l. rewrite Hother by done. done.
  - done.
  - exists (head rest), st', L'. split_and!; try done. intros b Hb. destruct rest as [|b0 rest]; [done|]. injection Hb as ->.
    assert (owns L' None b bin false) as Ho by (left; exists a, (b :: rest); split_and!; [done|set_solver|done]). split; [done|].
    rewrite (le_free _ _ _ He); [by apply Hrest|]. by destruct (owns_ok _ _ _ _ _ _ _ _ HI' Ho).
Qed.

(** The arrays of an allocator and of the space. *)
Context (self : FreeListAllocator) (ab : AbandonedBlockLists).
Record allocator_ok : Prop := {
  ao_tls : is_u 64 (tls self);
  ao_roles : ∀ bin, 0 ≤ bin ≤ MAX_BIN →
    roles !! (available_blocks self + bin * BlockList_BYTES) = Some (bin, false) ∧
    roles !! (available_blocks_stress self + bin * BlockList_BYTES) = Some (bin, false) ∧
    roles !! (consumed_blocks self + bin * BlockList_BYTES) = Some (bin, false) ∧
    roles !! (unswept_blocks self + bin * BlockList_BYTES) = Some (bin, true) ∧
    roles !! (ab_available ab + bin * BlockList_BYTES) = Some (bin, false) ∧
    roles !! (ab_unswept ab + bin * BlockList_BYTES) = Some (bin, true);
  ao_apart : NoDup [available_blocks self; available_blocks_stress self; consumed_blocks self; ab_available ab]
}.
Context (Hself : allocator_ok).

Lemma bin_at_ok base bin : 0 ≤ bin ≤ MAX_BIN → bin_at base bin = Val (base + bin * BlockList_BYTES).
Proof. intros Hb. unfold bin_at. by rewrite (proj2 (Z.leb_le 0 bin)), (proj2 (Z.leb_le bin MAX_BIN)) by lia. Qed.

(** The lists that waiting blocks are on, which putting a block away leaves alone. *)
Definition waiting (bin : Z) (L : gmap Z (list Z)) : nat :=
  length (default [] (L !! (ab_available ab + bin * BlockList_BYTES))) + length (default [] (L !! (ab_unswept ab + bin * BlockList_BYTES))).
Definition unswept_at (bin : Z) (L : gmap Z (list Z)) : nat := length (default [] (L !! (unswept_blocks self + bin * BlockList_BYTES))).

(** Putting a swept block on one of the lists of the allocator. *)
Lemma put_inv skip used st L b bin base :
  ms_inv_but skip used (Some (b, (bin, false))) st L → 0 ≤ bin ≤ MAX_BIN →
  base ∈ [available_blocks self; available_blocks_stress self; consumed_blocks self] →
  ∃ st' L', (∀ fuel, on_lists fuel (OpPush (base + bin * BlockList_BYTES) b) st = Val (None, st')) ∧ ms_inv_but skip used None st' L' ∧ list_effect used st st' ∧
    waiting bin L' = waiting bin L ∧ unswept_at bin L' = unswept_at bin L ∧ owns L' None b bin false.
Proof.
  intros HI Hbin Hbase. destruct (ao_roles Hself bin Hbin) as (R1 & R2 & R3 & R4 & R5 & R6).
  pose proof (ao_apart Hself) as Hnd.
  assert (roles !! (base + bin * BlockList_BYTES) = Some (bin, false)) as Hr by (set_unfold in Hbase; naive_solver).
  destruct (inv_list _ _ _ _ _ _ _ HI Hr) as [l Hl]. destruct (push_inv _ used st L _ l b bin false HI Hl Hr) as (st' & E & He & HI').
  eexists st', _. split; [exact E|]. split; [exact HI'|]. split; [done|].
  assert (∀ x, roles !! x = Some (bin, true) → (base + bin * BlockList_BYTES) ≠ x) as Hne by (intros x Hx <-; congruence).
  assert (base ≠ ab_available ab) as Hna.
  { rewrite !NoDup_cons in Hnd. set_unfold in Hbase. set_unfold in Hnd. intros ->. naive_solver. }
  unfold waiting, unswept_at. rewrite !lookup_insert_ne by (first [by apply Hne|change BlockList_BYTES with 32; lia]).
  split; [done|]. split; [done|]. left. eexists _, _. split; [apply lookup_insert_eq|]. split; [set_solver|done].
Qed.

Lemma keep_inv used st L b bin stress :
  ms_inv used (Some (b, (bin, false))) st L → 0 ≤ bin ≤ MAX_BIN →
  ∃ r st' L', keep_block self bin b stress st = Val (r, st') ∧ ms_inv used None st' L' ∧ kept used st st' ∧ ms_pages st' = ms_pages st ∧
    waiting bin L' = waiting bin L ∧ unswept_at bin L' = unswept_at bin L ∧
    (∀ b', r = Some b' → owns L' None b' bin false ∧ has_free_cells (ms_mem st') b' = true).
Proof.
  intros HI Hbin. unfold keep_block, add_to_available_blocks, add_to_consumed_blocks. rewrite !bin_at_ok by done. cbn [mbind res_bind].
  destruct (mi_hand _ _ _ _ _ HI b bin false eq_refl) as (Hb & _).
  destruct (has_free_cells (ms_mem st) b) eqn:Ef.
  - set (base := if stress then available_blocks_stress self else available_blocks self).
    destruct (put_inv None used st L b bin base HI Hbin) as (st' & L' & E & HI' & [K1 K2 K3] & W1 & W2 & Ho); [unfold base; destruct stress; set_solver|].
    rewrite E. cbn [mbind res_bind]. exists (Some b), st', L'. split_and!; try done. intros b' [= <-]. split; [done|]. by rewrite K3.
  - destruct (put_inv None used st L b bin (consumed_blocks self) HI Hbin) as (st' & L' & E & HI' & [K1 K2 K3] & W1 & W2 & Ho); [set_solver|].
    rewrite E. cbn [mbind res_bind]. exists None, st', L'. split_and!; done.
Qed.

(** ** The searches *)

(** A search ends; a block that it finds is on a list of the bin and has a free cell. *)
Definition finds used st (bin : Z) (m : res (option Z * ms_state S)) : Prop :=
  ∃ r st' L', m = Val (r, st') ∧ ms_inv used None st' L' ∧ kept used st st' ∧
    ∀ b, r = Some b → owns L' None b bin false ∧ has_free_cells (ms_mem st') b = true.

Lemma finds_trans used st st' bin m : kept used st st' → finds used st' bin m → finds used st bin m.
Proof. intros K (r & st2 & L2 & E & HI & K2 & Hr). exists r, st2, L2. split_and!; try done. by eapply kept_trans. Qed.

Lemma recycle_local_inv used stress_enabled fuel st L bin :
  ms_inv used None st L → 0 ≤ bin ≤ MAX_BIN → (unswept_at bin L ≤ fuel)%nat →
  finds used st bin (recycle_local_loop is_marked ref_offset VM unified stress_enabled self fuel bin st).
Proof.
  intros HI Hbin. revert st L HI. induction fuel as [|fuel IH]; intros st L HI Hf; cbn [recycle_local_loop]; rewrite bin_at_ok by done; cbn [mbind res_bind];
    destruct (ao_roles Hself bin Hbin) as (_ & _ & _ & Hr & _); destruct (inv_list _ _ _ _ _ _ _ HI Hr) as [l Hl];
    destruct (pop_inv used st L _ l bin true HI Hl Hr) as (st1 & -> & [K1 _ _] & HI1); cbn [mbind res_bind];
    (destruct l as [|b l]; cbn [head fmap option_fmap option_map tail] in *; [by exists None, st1, (<[unswept_blocks self + bin * BlockList_BYTES := [] ]> L)|]).
  { exfalso. unfold unswept_at in Hf. rewrite Hl in Hf. cbn in Hf. lia. }
  destruct (sweep_inv used st1 _ b bin HI1) as (st2 & -> & HI2 & K2 & _). cbn [mbind res_bind].
  destruct (keep_inv used st2 _ b bin stress_enabled HI2 Hbin) as (r & st3 & L3 & -> & HI3 & K3 & _ & _ & W & Hr3). cbn [mbind res_bind].
  assert (kept used st st3) as K by (eapply kept_trans; [done|]; by eapply kept_trans).
  destruct r as [b'|]; [by exists (Some b'), st3, L3|]. apply (finds_trans used st st3 bin _ K), (IH st3 L3 HI3).
  rewrite W. unfold unswept_at in *. rewrite Hl in Hf. rewrite lookup_insert_eq. cbn in *. lia.
Qed.

Lemma find_in_inv used fuel st L size align bin available :
  ms_inv used None st L → mi_bin VM size align = bin → 0 ≤ bin ≤ MAX_BIN → 2 ^ 31 ≤ Z.of_nat fuel →
  available ∈ [available_blocks self; available_blocks_stress self] →
  finds used st bin (find_free_block_in VM fuel available (consumed_blocks self) size align st).
Proof.
  intros HI Eb Hbin Hf Hav. destruct (ao_roles Hself bin Hbin) as (R1 & R2 & R3 & _). pose proof (ao_apart Hself) as Hnd.
  assert (available ≠ consumed_blocks self) as Hne by (rewrite !NoDup_cons in Hnd; set_unfold in Hav; set_unfold in Hnd; intros ->; naive_solver).
  assert (roles !! (available + bin * BlockList_BYTES) = Some (bin, false)) as Ra by (set_unfold in Hav; naive_solver).
  destruct (find_inv used st L (available + bin * BlockList_BYTES) (consumed_blocks self + bin * BlockList_BYTES) bin HI Ra R3)
    as (r & st' & L' & E & HI' & [K _ _] & Hx & Hr); [change BlockList_BYTES with 32; lia|].
  unfold find_free_block_in. rewrite Eb, !bin_at_ok by done. cbn [mbind res_bind]. rewrite E by done. by exists r, st', L'.
Qed.

(** The lists of a bin are no longer than the number of blocks. *)
Lemma list_bound used st L a : ms_inv used None st L → Z.of_nat (length (default [] (L !! a))) ≤ 2 ^ 31.
Proof.
  intros HI. destruct (L !! a) as [l|] eqn:E; [|cbn; lia].
  destruct (rel_lookup _ _ _ _ _ (mi_rel _ _ _ _ _ HI) E) as (bl & _ & _ & Hrep). by apply rep_length in Hrep.
Qed.

(** *** Blocks of the space *)

Lemma has_free_cons s b cs c l : block_ok b → size_ok cs → free_cells s b cs (c :: l) → has_free_cells s b = true.
Proof.
  intros Hb Hc HF. unfold has_free_cells. destruct (fc_chain _ _ _ _ HF) as [-> _].
  destruct (cells_in b cs c Hb Hc) as (_ & _ & ? & _); [apply (fc_cells _ _ _ _ HF); set_solver|]. destruct (Z.eqb_spec c 0); [lia|done].
Qed.

Lemma acquire_inv used st L size align bin :
  ms_inv used None st L → mi_bin VM size align = bin → 0 ≤ bin ≤ MAX_BIN →
  ∃ r st', acquire_block VM ab size align st = Val (r, st') ∧
    match r with
    | Exhausted => st' = st
    | Fresh b => ms_pages st = b :: ms_pages st' ∧ st' = {| ms_lists := ms_lists st; ms_mem := ms_mem st; ms_chunks := ms_chunks st; ms_pages := ms_pages st' |}
    | AbandonedAvailable b => ∃ L', ms_inv used (Some (b, (bin, false))) st' L' ∧ kept used st st' ∧ (waiting bin L' < waiting bin L)%nat
    | AbandonedUnswept b => ∃ L', ms_inv used (Some (b, (bin, true))) st' L' ∧ kept used st st' ∧ (waiting bin L' < waiting bin L)%nat
    end.
Proof.
  intros HI Eb Hbin. unfold acquire_block. rewrite Eb, !bin_at_ok by done. cbn [mbind res_bind].
  destruct (ao_roles Hself bin Hbin) as (_ & _ & _ & _ & Ra & Ru).
  destruct (inv_list _ _ _ _ _ _ _ HI Ra) as [la Ha], (inv_list _ _ _ _ _ _ _ HI Ru) as [lu Hu].
  set (a := ab_available ab + bin * BlockList_BYTES) in *. set (u := ab_unswept ab + bin * BlockList_BYTES) in *.
  destruct (rel_lookup _ _ _ _ _ (mi_rel _ _ _ _ _ HI) Ha) as (ba & Ea & _ & Hrepa), (rel_lookup _ _ _ _ _ (mi_rel _ _ _ _ _ HI) Hu) as (bu & Eu & _ & Hrepu).
  cbn [fst] in *. assert (a ≠ u) as Hne by (intros E; rewrite E in Ra; congruence).
  unfold list_at. rewrite Ea. cbn [unwrap mbind res_bind]. unfold bl_is_empty at 1. rewrite (lr_first _ _ _ _ Hrepa).
  destruct la as [|b la]; cbn [head negb].
  - rewrite Eu. cbn [unwrap mbind res_bind]. unfold bl_is_empty. rewrite (lr_first _ _ _ _ Hrepu). destruct lu as [|b lu]; cbn [head negb].
    + destruct (ms_pages st) as [|b pages] eqn:Ep; [by exists Exhausted, st|]. eexists (Fresh b), _. split; [reflexivity|]. done.
    + destruct (pop_inv used st L u _ bin true HI Hu Ru) as (st1 & -> & [K1 _ _] & HI1). cbn [head mbind res_bind unwrap].
      eexists (AbandonedUnswept b), st1. split; [done|]. eexists. split; [exact HI1|]. split; [done|].
      unfold waiting. fold a u. rewrite lookup_insert_eq, lookup_insert_ne, Hu by done. cbn. lia.
  - destruct (pop_inv used st L a _ bin false HI Ha Ra) as (st1 & -> & [K1 _ _] & HI1). cbn [head mbind res_bind unwrap].
    eexists (AbandonedAvailable b), st1. split; [done|]. eexists. split; [exact HI1|]. split; [done|].
    unfold waiting. fold a u. rewrite lookup_insert_eq, lookup_insert_ne, Ha by done. cbn. lia.
Qed.

(** A new block comes into the hands of the allocator. *)
Lemma take_page_inv used st L b pages bin :
  ms_inv used None st L → ms_pages st = b :: pages → 0 ≤ bin ≤ MAX_BIN →
  let st1 := {| ms_lists := ms_lists st; ms_mem := ms_mem st; ms_chunks := ms_chunks st; ms_pages := pages |} in
  ms_inv_but (Some b) used (Some (b, (bin, false))) st1 L ∧ (∀ c, b ≤ c < b + Block_BYTES → used !! c = None) ∧ block_ok b ∧ chunk_ok (Block_chunk b).
Proof.
  intros HI Ep Hbin st1. pose proof HI as [I1 I2 I3 I4 I5 I6 I7 [I8 I9]]. rewrite Ep in *.
  destruct (I9 b ltac:(set_solver)) as (Hb & Hch & Hno). apply NoDup_cons in I8 as [Hni I8].
  assert (∀ a l, L !! a = Some l → b ∉ l) as Hnl.
  { intros a l Ha Hin. destruct (inv_role _ _ _ _ _ a l HI Ha) as (bin' & u' & Hr & _). apply (Hno bin' u'). left. by exists a, l. }
  split_and!; [|intros c Hc; destruct (used !! c) as [cs|] eqn:Hu; [|done]|done..].
  - split; cbn [ms_lists ms_mem ms_chunks ms_pages st1]; try done.
    + by intros b' bin' u' [= <- <- <-].
    + intros b' bin' u' Hsk [Ho|[= <- <- <-]]; [|done]. apply I5; [done|by left].
    + intros c cs Hu. destruct (I6 c cs Hu) as (b' & bin' & u' & [Ho|?] & ? & ?); [|done]. exists b', bin', u'. split_and!; try done. by left.
    + split; [done|]. intros b' Hb'. destruct (I9 b' ltac:(set_solver)) as (? & ? & Hno'). split_and!; [done..|].
      intros bin' u' [Ho|[= -> <- <-]]; [|done]. apply (Hno' bin' u'). by left.
  - exfalso. destruct (used_owner _ _ _ _ _ b c cs HI Hb Hu Hc) as (bin' & u' & Ho & _). by apply (Hno bin' u').
Qed.

Lemma fresh_inv used st L b pages bin stress :
  ms_inv used None st L → ms_pages st = b :: pages → 0 ≤ bin ≤ MAX_BIN →
  let st1 := {| ms_lists := ms_lists st; ms_mem := ms_mem st; ms_chunks := ms_chunks st; ms_pages := pages |} in
  finds used st bin (
    st ← add_to_available_blocks self bin b stress st1;
    a ← bin_at (available_blocks self) bin;
    available ← list_at a st;
    '(chunks, s) ← init_block SWEEP_FUEL (ms_chunks st) (ms_mem st) b (bl_size available) (tls self);
    Val (Some b, {| ms_lists := ms_lists st; ms_mem := s; ms_chunks := chunks; ms_pages := ms_pages st |})).
Proof.
  intros HI Ep Hbin st1. destruct (take_page_inv used st L b pages bin HI Ep Hbin) as (HI1 & Hfresh & Hb & Hch). fold st1 in HI1.
  destruct (cell_size_ok bin Hbin) as [Hc _]. unfold add_to_available_blocks. rewrite !bin_at_ok by done. cbn [mbind res_bind].
  set (base := if stress then available_blocks_stress self else available_blocks self).
  destruct (put_inv (Some b) used st1 L b bin base HI1 Hbin) as (st2 & L2 & -> & HI2 & [K1 _ _] & _ & _ & Ho); [unfold base; destruct stress; set_solver|].
  cbn [mbind res_bind]. destruct (ao_roles Hself bin Hbin) as (Ra & _).
  destruct (proj2 (mi_dom _ _ _ _ _ HI2 (available_blocks self + bin * BlockList_BYTES))) as [bl Ebl]; [by rewrite Ra|]. unfold list_at. rewrite Ebl. cbn [unwrap mbind res_bind].
  destruct (mi_sizes _ _ _ _ _ HI2 _ bl bin false Ebl Ra) as [_ ->]. destruct (mi_chunks _ _ _ _ _ HI2) as [cst Hcm].
  destruct (init_block_spec cst (ms_chunks st2) (ms_mem st2) b (cell_size bin) (tls self) SWEEP_FUEL Hcm Hb Hch Hc (ao_tls Hself)) as (r' & s' & -> & Hcm' & _ & Hsw).
  { unfold n_cells, SWEEP_FUEL. assert (Block_BYTES `div` cell_size bin ≤ 8192) by (apply Z.div_le_upper_bound; destruct Hc as [Hc _]; change Block_BYTES with 65536 in *; lia). lia. }
  cbn [mbind res_bind]. set (st3 := {| ms_lists := _ |}).
  assert (∀ c, c ∈ cells b (cell_size bin) → is_Some (used !! c) → (λ _ : Z, false) c = true) as Hnone.
  { intros c Hcc [cs Hu]. destruct (cells_in b _ c Hb Hc Hcc) as (? & ? & _). rewrite Hfresh in Hu; [done|]. destruct Hc as [Hc _]. lia. }
  exists (Some b), st3, L2. split; [done|]. split; [|split].
  - apply (mem_inv (Some b) used used None None st2 st3 L2 b); try done.
    + by eapply swept_changes.
    + by eexists.
    + intros bin' u' Ho'. split; [|by exists bin', u']. destruct (owns_unique _ _ _ _ _ _ _ _ _ _ HI2 Ho Ho') as [<- <-]. by eapply swept_inv.
    + intros c cs Hu Hin. by rewrite Hfresh in Hu.
    + by right.
  - eapply kept_trans; [exact K1|]. exact (swept_kept (Some b) used None st2 L2 s' b bin false _ HI2 Ho Hsw Hnone).
  - intros b' [= <-]. split; [done|]. pose proof (sw_free _ _ _ _ _ Hsw) as HF.
    destruct (dead_from _ _ _ _ _) as [|c l] eqn:Ed; [|by eapply has_free_cons].
    exfalso. assert (b ∈ dead_from (λ _, false) b (cell_size bin) 0 (n_cells (cell_size bin))) as Hin; [|rewrite Ed in Hin; by apply elem_of_nil in Hin].
    apply dead_elem. split; [|done]. apply cells_elem. exists 0%nat. split; [|unfold cell_at; lia]. unfold n_cells.
    assert (1 ≤ Block_BYTES `div` cell_size bin) by (destruct Hc as [Hc _]; apply Z.div_le_lower_bound; lia). lia.
Qed.

Lemma acquire_global_inv used fuel st L size align stress bin :
  ms_inv used None st L → mi_bin VM size align = bin → 0 ≤ bin ≤ MAX_BIN → (waiting bin L ≤ fuel)%nat →
  finds used st bin (acquire_global_loop is_marked ref_offset VM unified self fuel ab size align bin stress st).
Proof.
  intros HI Eb Hbin. revert st L HI. induction fuel as [|fuel IH]; intros st L HI Hf; cbn [acquire_global_loop];
    destruct (acquire_inv used st L size align bin HI Eb Hbin) as (r & st1 & -> & Hr); cbn [mbind res_bind];
    (destruct r as [|b|b|b]; [subst st1; exists None, st, L; split_and!; done
                             |destruct Hr as [Ep ->]; by apply (fresh_inv used st L b _ bin stress HI Ep Hbin)
                             |destruct Hr as (L1 & HI1 & K1 & W)..]).
  1,2: lia.
  - destruct (tls_inv used st1 L1 b bin false self HI1 (ao_tls Hself)) as [HI2 K2].
    destruct (keep_inv used _ L1 b bin stress HI2 Hbin) as (r & st3 & L3 & -> & HI3 & K3 & _ & W3 & _ & Hr3). cbn [mbind res_bind].
    assert (kept used st st3) as K by (eapply kept_trans; [done|]; by eapply kept_trans).
    destruct r as [b'|]; [by exists (Some b'), st3, L3|]. apply (finds_trans used st st3 bin _ K), (IH st3 L3 HI3). lia.
  - destruct (tls_inv used st1 L1 b bin true self HI1 (ao_tls Hself)) as [HI2 K2].
    destruct (sweep_inv used _ L1 b bin HI2) as (st3 & -> & HI3 & K3 & _). cbn [mbind res_bind].
    destruct (keep_inv used st3 L1 b bin stress HI3 Hbin) as (r & st4 & L4 & -> & HI4 & K4 & _ & W4 & _ & Hr4). cbn [mbind res_bind].
    assert (kept used st st4) as K by (eapply kept_trans; [exact K1|]; eapply kept_trans; [exact K2|]; by eapply kept_trans).
    destruct r as [b'|]; [by exists (Some b'), st4, L4|]. apply (finds_trans used st st4 bin _ K), (IH st4 L4 HI4). lia.
Qed.

Lemma or_search_inv used st bin m k :
  finds used st bin m → (∀ st' L', ms_inv used None st' L' → finds used st' bin (k st')) → finds used st bin (or_search m k).
Proof.
  intros (r & st' & L' & -> & HI & K & Hr) Hk. unfold or_search. cbn [mbind res_bind]. destruct r as [b|]; [by exists (Some b), st', L'|].
  by eapply finds_trans, Hk.
Qed.

Context (eager stress_enabled : bool).

Lemma recycle_inv used fuel st L size align bin :
  ms_inv used None st L → mi_bin VM size align = bin → 0 ≤ bin ≤ MAX_BIN → 2 ^ 31 ≤ Z.of_nat fuel →
  finds used st bin (recycle_local_blocks is_marked ref_offset VM unified eager stress_enabled self fuel size align st).
Proof.
  intros HI Eb Hbin Hf. unfold recycle_local_blocks. rewrite Eb. destruct eager; [by exists None, st, L|].
  apply (recycle_local_inv used stress_enabled fuel st L bin HI Hbin). pose proof (list_bound used st L (unswept_blocks self + bin * BlockList_BYTES) HI).
  unfold unswept_at. lia.
Qed.
Lemma find_local_inv used fuel st L size align bin :
  ms_inv used None st L → mi_bin VM size align = bin → 0 ≤ bin ≤ MAX_BIN → 2 ^ 31 ≤ Z.of_nat fuel →
  finds used st bin (find_free_block_local is_marked ref_offset VM unified eager stress_enabled self fuel size align st).
Proof.
  intros HI Eb Hbin Hf. apply or_search_inv; [apply (find_in_inv used fuel st L); try done; set_solver|].
  intros st' L' HI'. by apply (recycle_inv used fuel st' L').
Qed.
Lemma acquire_global_finds used fuel st L size align bin stress :
  ms_inv used None st L → mi_bin VM size align = bin → 0 ≤ bin ≤ MAX_BIN → 2 ^ 32 ≤ Z.of_nat fuel →
  finds used st bin (acquire_global_block is_marked ref_offset VM unified self fuel ab size align stress st).
Proof.
  intros HI Eb Hbin Hf. unfold acquire_global_block. rewrite Eb. apply (acquire_global_inv used fuel st L); try done.
  pose proof (list_bound used st L (ab_available ab + bin * BlockList_BYTES) HI).
  pose proof (list_bound used st L (ab_unswept ab + bin * BlockList_BYTES) HI). unfold waiting. lia.
Qed.
Lemma find_stress_inv used fuel st L size align bin :
  ms_inv used None st L → mi_bin VM size align = bin → 0 ≤ bin ≤ MAX_BIN → 2 ^ 32 ≤ Z.of_nat fuel →
  finds used st bin (find_free_block_stress is_marked ref_offset VM unified eager stress_enabled self fuel ab size align st).
Proof.
  intros HI Eb Hbin Hf. apply or_search_inv; [apply or_search_inv; [apply (find_in_inv used fuel st L); try done; [lia|set_solver]|]|].
  - intros st' L' HI'. apply (recycle_inv used fuel st' L'); (done || lia).
  - intros st' L' HI'. by apply (acquire_global_finds used fuel st' L').
Qed.
End inv.
