(* ===== verification/FreeListAllocatorTheorems.v ===== *)
(** * Allocated objects do not overlap

    The theorem on the free-list allocators of a mark-sweep space, over the side metadata and
    the heap: lists, cells, bins and the chunk map together. *)

From stdpp Require Import gmap.
From S2P Require Import Prelude Conversions Memory SideMetadata SideMetadataSpecs Regions BlockTables ChunkMap BlockList BlockListRefine BlockListTheorems SizeClasses.
From S2P Require Import BlockCells FreeListAllocator FreeListAllocatorInv.

(** A request that the bins can serve. *)
Record serves (VM : VMBinding) (size align offset : Z) : Prop := {
  sv_binding : binding_ok VM;
  sv_min : MIN_ALIGNMENT VM ≤ 8;
  sv_request : request_ok VM align offset;
  sv_size : 4 ≤ size ≤ MAX_BIN_SIZE;
  sv_padded : get_maximum_aligned_size VM size align ≤ MAX_BIN_SIZE
}.

(** The calls of a mutator: [alloc] up to the slow path, one attempt of the slow path, and
    one under the precise stress test. *)
Inductive alloc_call : Type := AllocFast | AllocSlow | AllocStress (need_poll : bool).
Record alloc_request : Type := {
  ar_self : FreeListAllocator; ar_call : alloc_call; ar_size : Z; ar_align : Z; ar_offset : Z
}.

Section alloc.
Context (f : features) (asan : bool) (Hf : f ∈ all_features).
#[local] Hint Extern 0 (BlockMemory _) => exact (mem_blocks f asan) : typeclass_instances.
#[local] Hint Extern 0 (BlockMemoryLaws mem) => exact (mem_blocks_laws f asan Hf) : typeclass_instances.
Context (is_marked : mem → Z → bool) (ref_offset : Z) (VM : VMBinding) (unified : bool).
Context (Hmarks : marks_kept is_marked).
Context (roles : gmap Z (Z * bool)).
Abbreviation inv := (ms_inv_but is_marked ref_offset VM unified roles None).

(** ** The gap before an object *)

Lemma store_stores M a v : mem_ok M → in_block a 8 → stores M (store_bytes 8 M a v).
Proof. intros HM Ha. exact (stores_wstore M M a v (stores_refl M) HM Ha). Qed.
Lemma fill_loop_stores fuel M start end_ M' b :
  fill_loop VM fuel M start end_ = Val M' → mem_ok M → heap_block asan b → b ≤ start → end_ + 4 ≤ b + Block_BYTES → (4 | end_ - start) →
  stores M M' ∧ mem_ok M'.
Proof.
  intros E HM Hb. revert M start E HM. destruct (heap_block_range asan b Hb) as [? _]. change Block_BYTES with 65536.
  induction fuel as [|fuel IH]; intros M start E HM H1 H2 Hd; cbn [fill_loop] in E;
    (destruct (Z.ltb_spec start end_) as [Hlt|]; [|injection E as <-; split; [constructor|done]]); [done|].
  destruct Hd as [q Hq]. unfold uadd in E. change BYTES_IN_INT with 4 in E. rewrite uwrap_id in E by lia.
  destruct (IH _ _ E) as [Hst HM']; [by apply mem_ok_store_bytes|lia..|exists (q - 1); lia|]. split; [|done].
  eapply stores_trans; [|exact Hst]. apply store_stores; [done|]. exists b. change Block_BYTES with 65536. split; [done|lia].
Qed.
Lemma fill_gap_stores fuel M start end_ M' b :
  fill_alignment_gap VM fuel M start end_ = Val M' → mem_ok M → heap_block asan b → b ≤ start ≤ end_ → end_ + 4 ≤ b + Block_BYTES → (4 | end_ - start) →
  stores M M' ∧ mem_ok M'.
Proof.
  intros E HM Hb H1 H2 Hd. unfold fill_alignment_gap in E. destruct (_ =? BYTES_IN_INT); [|by eapply fill_loop_stores; try done; lia].
  injection E as <-. destruct (heap_block_range asan b Hb) as [? _]. change Block_BYTES with 65536 in *. unfold usub. rewrite uwrap_id by lia.
  destruct (Z.eqb_spec (end_ - start) 0); [split; [constructor|done]|]. split; [|by apply mem_ok_store_bytes].
  apply store_stores; [done|]. destruct Hd as [q Hq]. exists b. change Block_BYTES with 65536. split; [done|lia].
Qed.
Lemma align_stores fuel M cell align offset r M' b :
  align_allocation VM fuel M cell align offset = Val (r, M') → aligned cell align offset = r → binding_ok VM → MIN_ALIGNMENT VM ≤ 8 → request_ok VM align offset →
  mem_ok M → heap_block asan b → b ≤ cell < b + Block_BYTES → (8 | cell) → r + 4 ≤ b + Block_BYTES → stores M M' ∧ mem_ok M'.
Proof.
  intros E Er HV Hmin HR HM Hb Hcell H8 Hend. destruct (heap_block_range asan b Hb) as [Hb1 _].
  assert (b + Block_BYTES < 2 ^ 47) as Hb2 by (destruct Hb as (_ & _ & ?); pose proof (local_base_range asan); lia).
  assert (MIN_ALIGNMENT VM | cell) as Hmc.
  { pose proof (vm_min _ HV) as (k & Hk & Ek). apply (Z.divide_trans _ 8); [|done]. rewrite Ek in *. change 8 with (2 ^ 3).
    assert (k ≤ 3) by (apply (Z.pow_le_mono_r_iff 2); lia). exists (2 ^ (3 - k)). rewrite <-Z.pow_add_r by lia. f_equal. lia. }
  change Block_BYTES with 65536 in *. destruct (aligned_spec VM cell align offset HV HR ltac:(lia) Hmc) as [Hal Hdiv]. rewrite Er in *.
  unfold align_allocation, align_allocation_inner in E. destruct (_ || _); [injection E as <- <-; split; [constructor|done]|].
  pose proof (rq_align _ _ _ HR) as (k & Ek & Hk & Hka). pose proof (vm_max _ HV) as (k2 & Hk2 & Ek2).
  assert (k < 63) as Hk63. { apply (Z.pow_lt_mono_r_iff 2); [lia..|]. assert (2 ^ k2 < 2 ^ 63) by (apply Z.pow_lt_mono_r; lia). lia. }
  rewrite Ek, delta_eq in E by lia. rewrite <-Ek in E.
  assert (cell + (- (cell + offset)) `mod` align = r) as Er' by done. apply bind_Val in E as (M1 & E1 & E2). injection E2 as E2 <-.
  assert (addr_add_offset cell ((- (cell + offset)) `mod` align) = r) as Ea by done. rewrite Ea in E1.
  destruct (true && _); [|injection E1 as <-; split; [constructor|done]].
  apply (fill_gap_stores fuel M cell r M1 b); try done; [lia| ].
  destruct Hdiv as [q Hq]. pose proof (rq_offset _ _ _ HR) as [_ [qo Hqo]]. pose proof (vm_min _ HV) as (k1 & Hk1 & Ek1).
  assert (4 | MIN_ALIGNMENT VM) as Hm4 by (rewrite Ek1; exists (2 ^ (k1 - 2)); change 4 with (2 ^ 2); rewrite <-Z.pow_add_r by lia; f_equal; lia).
  assert (4 | align) as Ha4 by (rewrite Ek; exists (2 ^ (k - 2)); change 4 with (2 ^ 2); rewrite <-Z.pow_add_r by lia; f_equal; lia).
  replace (r - cell) with (q * align - offset - cell) by lia.
  apply Z.divide_sub_r; [apply Z.divide_sub_r|]; [by apply Z.divide_mul_r|rewrite Hqo; by apply Z.divide_mul_r|].
  apply (Z.divide_trans _ (MIN_ALIGNMENT VM)); done.
Qed.

(** ** One allocation *)

(** The object at [r] has a cell that was not in use, and cells in use keep their contents. *)
Definition allocated (used : gmap Z Z) (st : ms_state mem) (size align offset r : Z) (st' : ms_state mem) : Prop :=
  ∃ c cs L', used !! c = None ∧ c ≤ r ∧ r + size ≤ c + cs ∧ (align | r + offset) ∧ inv (<[c := cs]> used) None st' L' ∧ kept used st st'.

Lemma cells_divide b cs c : heap_block asan b → size_ok cs → c ∈ cells b cs → (8 | c).
Proof.
  intros (_ & Hb & _) [_ Hc] (i & _ & ->)%cells_elem. unfold cell_at. apply Z.divide_add_r; [|by apply Z.divide_mul_r].
  apply (Z.divide_trans _ Block_BYTES); [by exists 8192|done].
Qed.

Lemma alloc_cell used fuel st L b size align offset :
  inv used None st L → serves VM size align offset → align ≤ 4 * Z.of_nat fuel →
  owns roles L None b (mi_bin VM size align) false → has_free_cells (ms_mem st) b = true →
  let '(cell, M) := block_alloc (ms_mem st) b in
  cell ≠ 0 ∧ ∃ r M', align_allocation VM fuel M cell align offset = Val (r, M') ∧ allocated used st size align offset r (with_mem M' st).
Proof.
  intros HI Hsv Hfu Ho Hfree. pose proof (owns_ok _ _ _ _ _ _ _ _ _ _ _ _ _ HI Ho) as [Hb Hbin]. destruct (cell_size_ok _ Hbin) as [Hc Ebs].
  pose proof (block_alloc_inv is_marked ref_offset VM unified Hmarks roles used st L b _ HI Ho Hfree) as HA.
  destruct (block_alloc (ms_mem st) b) as [cell M]. destruct HA as (Hu & Hnz & Hcc & HI1 & K1 & _). split; [done|].
  destruct (cells_in b _ cell Hb Hc Hcc) as (C1 & C2 & C3 & _). pose proof (cells_divide b _ cell Hb Hc Hcc) as C8.
  pose proof Hsv as [HV Hmin HR Hsz Hpad].
  destruct (allocates_ok VM fuel M size align offset cell HV Hmin HR ltac:(lia) Hpad ltac:(lia) C8 Hfu) as [_ (cs & r & M' & Ecs & E & Hal & Hr1 & Hr2 & Hout & _) _].
  rewrite Ebs in Ecs. injection Ecs as <-. set (cs := cell_size (mi_bin VM size align)) in *. exists r, M'. split; [done|].
  assert (mem_ok M) as HM by (exact (inv_ok _ _ _ _ _ _ _ _ _ _ HI1)).
  assert (aligned cell align offset = r) as Er.
  { pose proof (vm_min _ HV) as (k & Hk & Ek). destruct (align_allocation_spec VM fuel M cell align offset HV HR ltac:(lia)) as (M2 & E2 & _); [|done|congruence].
    apply (Z.divide_trans _ 8); [|done]. rewrite Ek in *. assert (k ≤ 3) by (apply (Z.pow_le_mono_r_iff 2); lia).
    exists (2 ^ (3 - k)). change 8 with (2 ^ 3). rewrite <-Z.pow_add_r by lia. f_equal. lia. }
  destruct (align_stores fuel M cell align offset r M' b E Er) as [Hst HM']; try done; [destruct Hc as [? _]; lia|lia|].
  assert (r + 4 ≤ LOCAL_SIDE_METADATA_BASE_ADDRESS asan) as Hlo by (destruct Hb as (_ & _ & ?); lia).
  assert (∀ x, r + 4 ≤ x → M' x = M x) as Hhi by (intros x Hx; apply Hout; lia).
  assert (∀ x, x + 8 ≤ cell ∨ cell + cs ≤ x → load_bytes 8 M' x = load_bytes 8 M x) as Hw.
  { intros x Hx. apply load_bytes_ext. intros i Hi. apply Hout. lia. }
  exists cell, cs, L. split; [done|]. split; [done|]. split; [done|]. split; [done|]. split.
  - change (with_mem M' st) with (with_mem M' (with_mem M st)).
    apply (fill_inv is_marked ref_offset VM unified Hmarks roles _ (with_mem M st) L b (mi_bin VM size align) cell M' HI1); try done.
    + apply lookup_insert_eq.
    + intros t b' Hb'. apply (load_below f asan Hf (ms_index t) M' M b' (r + 4)); try done; [apply ms_index_lt|by apply (heap_block_range asan)].
    + intros k Hk. apply (load_below f asan Hf chunk_index M' M k (r + 4)); try done; [unfold chunk_index; lia|by apply (heap_chunk_range asan)].
    + intros x Hx Hd. by apply Hw.
  - intros c' cs' x Hu' Hl Hrr. transitivity (load_bytes 8 M x); [|by apply (K1 c' cs' x)]. apply Hw.
    assert (cell ≠ c') by (intros ->; congruence). destruct (used_apart _ _ _ _ _ _ _ _ _ _ _ _ _ cell c' cs' HI Ho Hcc Hu' ltac:(done)); unfold cs in *; lia.
Qed.

(** ** Calls *)

Context (ab : AbandonedBlockLists) (eager stress_enabled : bool).

Definition non_zero (r : Z) : option Z := if r =? 0 then None else Some r.
Definition run_request (fuel : nat) (q : alloc_request) (st : ms_state mem) : res (option Z * ms_state mem) :=
  let '{| ar_self := self; ar_call := call; ar_size := size; ar_align := align; ar_offset := offset |} := q in
  match call with
  | AllocFast => alloc_fast f asan is_marked ref_offset VM unified eager stress_enabled self fuel size align offset st
  | AllocSlow => '(r, st) ← alloc_slow_once f asan is_marked ref_offset VM unified self ab fuel size align offset st; Val (non_zero r, st)
  | AllocStress need_poll =>
    '(r, st) ← alloc_slow_once_precise_stress f asan is_marked ref_offset VM unified eager stress_enabled self ab fuel size align offset need_poll st;
    Val (non_zero r, st)
  end.
Fixpoint run_requests (fuel : nat) (qs : list alloc_request) (st : ms_state mem) : res (list (option Z) * ms_state mem) :=
  match qs with
  | [] => Val ([], st)
  | q :: qs => '(r, st) ← run_request fuel q st; '(rs, st) ← run_requests fuel qs st; Val (r :: rs, st)
  end.

Definition request_served (q : alloc_request) : Prop :=
  serves VM (ar_size q) (ar_align q) (ar_offset q) ∧ allocator_ok roles (ar_self q) ab.

(** The object, or nothing but moved blocks. *)
Definition answered (used : gmap Z Z) (st : ms_state mem) (size align offset : Z) (r : option Z) (st' : ms_state mem) : Prop :=
  match r with
  | Some r => allocated used st size align offset r st'
  | None => ∃ L', inv used None st' L' ∧ kept used st st'
  end.

Lemma bin_served size align offset : serves VM size align offset → 0 ≤ mi_bin VM size align ≤ MAX_BIN.
Proof.
  intros [HV Hmin HR Hsz Hpad]. unfold mi_bin. assert (0 ≤ get_maximum_aligned_size VM size align) as H0.
  { unfold get_maximum_aligned_size, get_maximum_aligned_size_inner. destruct (_ || _); [lia|]. apply uwrap_range. lia. }
  destruct (bin_spec (get_maximum_aligned_size VM size align) ltac:(lia)) as [? _]. lia.
Qed.
Lemma poll_bin : binding_ok VM → mi_bin VM 0 0 = 1.
Proof.
  intros HV. unfold mi_bin, get_maximum_aligned_size, get_maximum_aligned_size_inner. pose proof (vm_min _ HV) as (k & Hk & Ek).
  assert (0 < 2 ^ k) by (apply Z.pow_pos_nonneg; lia). rewrite (proj2 (Z.leb_le 0 (MIN_ALIGNMENT VM))) by lia. rewrite orb_true_r. by vm_compute.
Qed.
Lemma align_fuel size align offset fuel : serves VM size align offset → 2 ^ 32 ≤ Z.of_nat fuel → align ≤ 4 * Z.of_nat fuel.
Proof.
  intros [HV _ HR _ _] Hf2. pose proof (vm_max _ HV) as (k & Hk & Ek). pose proof (rq_align _ _ _ HR) as (_ & _ & _ & ?).
  assert (2 ^ k < 2 ^ 32) by (apply Z.pow_lt_mono_r; lia). lia.
Qed.

Lemma allocated_kept used st st1 size align offset r st2 :
  kept used st st1 → allocated used st1 size align offset r st2 → allocated used st size align offset r st2.
Proof. intros K (c & cs & L' & ? & ? & ? & ? & ? & ?). exists c, cs, L'. split_and!; try done. by eapply kept_trans. Qed.
Lemma allocated_pos used st size align offset r st' : allocated used st size align offset r st' → r ≠ 0.
Proof.
  intros (c & cs & L' & _ & Hr & _ & _ & HI & _). destruct (mi_used _ _ _ _ _ _ _ _ _ _ HI c cs (lookup_insert_eq _ _ _)) as (b & bin & u & Ho & -> & Hc).
  destruct (owns_ok _ _ _ _ _ _ _ _ _ _ _ _ _ HI Ho) as [Hb Hbin]. destruct (cell_size_ok bin Hbin) as [Hs _].
  destruct (cells_in b _ c Hb Hs Hc) as (_ & _ & ? & _). lia.
Qed.

(** What the search for a block leads to. *)
Lemma found_answer used fuel st size align offset m :
  serves VM size align offset → 2 ^ 32 ≤ Z.of_nat fuel →
  finds is_marked ref_offset VM unified roles used st (mi_bin VM size align) m →
  ∃ r st', ('(found, st) ← m; match found with Some b => alloc_in f asan VM fuel b align offset st | None => Val (0, st) end) = Val (r, st') ∧
    answered used st size align offset (non_zero r) st'.
Proof.
  intros Hsv Hfu (r & st1 & L1 & -> & HI1 & K1 & Hr). cbn [mbind res_bind]. destruct r as [b|].
  - destruct (Hr b eq_refl) as [Ho Hfree]. pose proof (alloc_cell used fuel st1 L1 b size align offset HI1 Hsv (align_fuel _ _ _ _ Hsv Hfu) Ho Hfree) as HA.
    unfold alloc_in. change (block_alloc (ms_mem st1) b) with (@block_alloc mem (mem_blocks f asan) (ms_mem st1) b) in HA.
    destruct (@block_alloc mem _ (ms_mem st1) b) as [cell M]. destruct HA as (_ & r & M' & -> & Hal).
    cbn [mbind res_bind]. eexists _, _. split; [reflexivity|]. unfold non_zero.
    destruct (Z.eqb_spec r 0) as [-> |]; [by apply allocated_pos in Hal|]. by eapply allocated_kept.
  - exists 0, st1. split; [done|]. by exists L1.
Qed.

Lemma request_answer used fuel st L q :
  inv used None st L → request_served q → 2 ^ 32 ≤ Z.of_nat fuel →
  ∃ r st', run_request fuel q st = Val (r, st') ∧ answered used st (ar_size q) (ar_align q) (ar_offset q) r st'.
Proof.
  intros HI [Hsv Hself] Hfu. destruct q as [self call size align offset]. cbn [ar_self ar_size ar_align ar_offset run_request] in *.
  pose proof (bin_served _ _ _ Hsv) as Hbin. destruct call as [| |need_poll].
  - unfold alloc_fast.
    destruct (find_local_inv is_marked ref_offset VM unified Hmarks roles self ab Hself eager stress_enabled used fuel st L size align _ HI eq_refl Hbin ltac:(lia))
      as (r & st1 & L1 & E & HI1 & K1 & Hr). rewrite E. cbn [mbind res_bind]. destruct r as [b|]; [|by exists None, st1; split; [|exists L1]].
    destruct (Hr b eq_refl) as [Ho Hfree]. pose proof (alloc_cell used fuel st1 L1 b size align offset HI1 Hsv (align_fuel _ _ _ _ Hsv Hfu) Ho Hfree) as HA.
    change (block_alloc (ms_mem st1) b) with (@block_alloc mem (mem_blocks f asan) (ms_mem st1) b) in HA.
    destruct (@block_alloc mem _ (ms_mem st1) b) as [cell M]. destruct HA as (Hnz & r & M' & -> & Hal). destruct (Z.eqb_spec cell 0); [done|].
    cbn [negb mbind res_bind]. eexists (Some r), _. split; [reflexivity|]. by eapply allocated_kept.
  - unfold alloc_slow_once.
    destruct (found_answer used fuel st size align offset _ Hsv Hfu
      (acquire_global_finds is_marked ref_offset VM unified Hmarks roles self ab Hself used fuel st L size align _ false HI eq_refl Hbin Hfu)) as (r & st' & -> & HA).
    by exists (non_zero r), st'.
  - unfold alloc_slow_once_precise_stress.
    assert (∃ st1 L1, (if need_poll then '(_, st) ← acquire_global_block is_marked ref_offset VM unified self fuel ab 0 0 true st; Val st else Val st) = Val st1 ∧
      inv used None st1 L1 ∧ kept used st st1) as (st1 & L1 & -> & HI1 & K1).
    { destruct need_poll; [|by exists st, L].
      destruct (acquire_global_finds is_marked ref_offset VM unified Hmarks roles self ab Hself used fuel st L 0 0 1 true HI (poll_bin (sv_binding _ _ _ _ Hsv)) ltac:(done) Hfu)
        as (r & st1 & L1 & -> & HI1 & K1 & _). by exists st1, L1. }
    cbn [mbind res_bind].
    destruct (found_answer used fuel st1 size align offset _ Hsv Hfu
      (find_stress_inv is_marked ref_offset VM unified Hmarks roles self ab Hself eager stress_enabled used fuel st1 L1 size align _ HI1 eq_refl Hbin Hfu)) as (r & st' & -> & HA).
    exists (non_zero r), st'. split; [done|]. destruct (non_zero r); [by eapply allocated_kept|].
    destruct HA as (L' & ? & ?). exists L'. split; [done|]. by eapply kept_trans.
Qed.

(** ** Sequences of calls *)

(** The objects: the addresses returned with the sizes requested. *)
Fixpoint objects (qs : list alloc_request) (rs : list (option Z)) : list (Z * Z) :=
  match qs, rs with
  | q :: qs, Some r :: rs => (r, ar_size q) :: objects qs rs
  | _ :: qs, None :: rs => objects qs rs
  | _, _ => []
  end.
Definition apart (o o' : Z * Z) : Prop := o.1 + o.2 ≤ o'.1 ∨ o'.1 + o'.2 ≤ o.1.
Definition within (o c : Z * Z) : Prop := c.1 ≤ o.1 ∧ o.1 + o.2 ≤ c.1 + c.2.

Lemma kept_mono (used used' : gmap Z Z) (st st' : ms_state mem) : used ⊆ used' → kept used' st st' → kept used st st'.
Proof. intros Hsub K c cs x Hu. apply (K c cs x). by eapply lookup_weaken. Qed.

Lemma requests_cells fuel qs used st L :
  inv used None st L → Forall request_served qs → 2 ^ 32 ≤ Z.of_nat fuel →
  ∃ rs st' used' L' cl, run_requests fuel qs st = Val (rs, st') ∧ inv used' None st' L' ∧ used ⊆ used' ∧ kept used st st' ∧
    Forall2 within (objects qs rs) cl ∧ NoDup cl.*1 ∧ (∀ c, c ∈ cl → used !! c.1 = None ∧ used' !! c.1 = Some c.2) ∧
    Forall2 (λ q r, ∀ a, r = Some a → (ar_align q | a + ar_offset q)) qs rs.
Proof.
  intros HI Hqs Hfu. revert used st L HI. induction Hqs as [|q qs Hq _ IH]; intros used st L HI.
  { exists [], st, used, L, []. split; [done|]. split; [done|]. split; [done|]. split; [done|]. split; [constructor|]. split; [apply NoDup_nil_2|].
    split; [by intros c Hc%elem_of_nil|constructor]. }
  destruct (request_answer used fuel st L q HI Hq Hfu) as (r & st1 & E1 & HA). cbn [run_requests]. rewrite E1. cbn [mbind res_bind].
  destruct r as [r|].
  - destruct HA as (c & cs & L1 & Hu & Hw1 & Hw2 & Hal & HI1 & K1).
    destruct (IH _ st1 L1 HI1) as (rs & st2 & used2 & L2 & cl & -> & HI2 & Hsub & K2 & F1 & F2 & F3 & F4). cbn [mbind res_bind].
    assert (used ⊆ <[c := cs]> used) as Hs1 by (by apply insert_subseteq).
    assert (used2 !! c = Some cs) as Hc2 by (eapply lookup_weaken; [apply lookup_insert_eq|done]).
    exists (Some r :: rs), st2, used2, L2, ((c, cs) :: cl). split; [done|]. split; [done|]. split; [by etransitivity|].
    split; [eapply kept_trans; [done|]; by eapply kept_mono|]. split; [constructor; [by split|done]|].
    assert (∀ c', c' ∈ cl → c'.1 ≠ c) as Hne.
    { intros c' Hc' E. destruct (F3 c' Hc') as [Hn _]. rewrite E, lookup_insert_eq in Hn. done. }
    split; [cbn [fmap list_fmap fst]; apply NoDup_cons; split; [|done]; intros (c' & -> & Hc')%list_elem_of_fmap; by apply (Hne c')|].
    split; [|constructor; [by intros a [= <-]|done]].
    intros c' [-> |Hc']%elem_of_cons; [done|]. destruct (F3 c' Hc') as [Hn ?]. split; [|done]. by rewrite lookup_insert_ne in Hn by (by apply not_eq_sym, Hne).
  - destruct HA as (L1 & HI1 & K1). destruct (IH _ st1 L1 HI1) as (rs & st2 & used2 & L2 & cl & -> & HI2 & Hsub & K2 & F1 & F2 & F3 & F4). cbn [mbind res_bind].
    exists (None :: rs), st2, used2, L2, cl. split_and!; try done; [by eapply kept_trans|by constructor].
Qed.

(** What a sequence of calls guarantees. *)
Record objects_ok (qs : list alloc_request) (used : gmap Z Z) (st : ms_state mem) (rs : list (option Z)) (st' : ms_state mem) : Prop := {
  oo_aligned : Forall2 (λ q r, ∀ a, r = Some a → (ar_align q | a + ar_offset q)) qs rs;
  oo_apart : ∀ i j o o', i ≠ j → objects qs rs !! i = Some o → objects qs rs !! j = Some o' → apart o o';
  oo_used : ∀ o c cs, o ∈ objects qs rs → used !! c = Some cs → apart o (c, cs);
  oo_kept : kept used st st';
  oo_again : ∃ used' L', inv used' None st' L' ∧ used ⊆ used' ∧ ∀ o, o ∈ objects qs rs → ∃ c cs, used' !! c = Some cs ∧ within o (c, cs)
}.

(** C8: allocated objects do not overlap.  In a mark-sweep space whose blocks are on lists of
    mutators and on abandoned lists, swept or not, any sequence of calls of any of the
    allocators ends without a panic, debug assertions left out, if each asks for at least 4 bytes with an alignment of the
    binding and the size, padded for that alignment, is at most that of the largest bin.  The
    objects it returns are aligned as requested, are apart from each other and from every cell
    in use before, cells in use keep their contents, and the state can serve any further calls,
    with the new objects in use.  (A size that only fits the largest bin without its padding
    panics: [largest_size_overflows].) *)
Theorem allocations_disjoint (qs : list alloc_request) (used : gmap Z Z) (st : ms_state mem) (L : gmap Z (list Z)) (fuel : nat) :
  inv used None st L → Forall request_served qs → 2 ^ 32 ≤ Z.of_nat fuel →
  ∃ rs st', run_requests fuel qs st = Val (rs, st') ∧ objects_ok qs used st rs st'.
Proof.
  intros HI Hqs Hfu. destruct (requests_cells fuel qs used st L HI Hqs Hfu) as (rs & st' & used' & L' & cl & E & HI' & Hsub & K & F1 & F2 & F3 & F4).
  exists rs, st'. split; [done|]. split; try done.
  - intros i j o o' Hij Ho Ho'. destruct (Forall2_lookup_l _ _ _ _ _ F1 Ho) as ([c cs] & Hc & W1 & W2), (Forall2_lookup_l _ _ _ _ _ F1 Ho') as ([c' cs'] & Hc' & W1' & W2').
    cbn [fst snd] in *. destruct (F3 _ (list_elem_of_lookup_2 _ _ _ Hc)) as [_ Hu], (F3 _ (list_elem_of_lookup_2 _ _ _ Hc')) as [_ Hu']. cbn [fst snd] in *.
    assert (c ≠ c'). { intros ->. apply Hij. eapply (NoDup_lookup cl.*1); [done|rewrite list_lookup_fmap, Hc; done|rewrite list_lookup_fmap, Hc'; done]. }
    unfold apart. destruct (used_disjoint _ _ _ _ _ _ _ _ _ _ _ _ _ _ HI' Hu Hu' ltac:(done)); lia.
  - intros o c cs [i Ho]%list_elem_of_lookup_1 Hu. destruct (Forall2_lookup_l _ _ _ _ _ F1 Ho) as ([c' cs'] & Hc' & W1 & W2). cbn [fst snd] in *.
    destruct (F3 _ (list_elem_of_lookup_2 _ _ _ Hc')) as [Hn Hu']. cbn [fst snd] in *. assert (c' ≠ c) by (intros ->; congruence).
    assert (used' !! c = Some cs) as Hu2 by (by eapply lookup_weaken).
    unfold apart. cbn [fst snd]. destruct (used_disjoint _ _ _ _ _ _ _ _ _ _ _ _ _ _ HI' Hu' Hu2 ltac:(done)); lia.
  - exists used', L'. split; [done|]. split; [done|]. intros o [i Ho]%list_elem_of_lookup_1.
    destruct (Forall2_lookup_l _ _ _ _ _ F1 Ho) as ([c cs] & Hc & W). exists c, cs. split; [|done].
    by destruct (F3 _ (list_elem_of_lookup_2 _ _ _ Hc)).
Qed.
End alloc.

(** ** A new space *)

(** Nothing on the lists, no cells in use, and blocks that the space can provide. *)
Lemma initial_inv (f : features) (asan : bool) (Hf : f ∈ all_features) is_marked ref_offset VM unified roles M pages :
  mem_ok M → (∀ c, heap_chunk asan c → load (chunk_spec f asan) M c = 0) →
  (∀ a bin u, roles !! a = Some (bin, u) → is_u 64 a ∧ 0 ≤ bin ≤ MAX_BIN) →
  NoDup pages → (∀ b, b ∈ pages → heap_block asan b ∧ heap_chunk asan (Block_chunk b)) →
  @ms_inv_but mem (mem_blocks f asan) is_marked ref_offset VM unified roles None ∅ None
    {| ms_lists := (λ r : Z * bool, BlockList_new (cell_size r.1)) <$> roles; ms_mem := M; ms_chunks := ChunkMap_new; ms_pages := pages |}
    ((λ _, []) <$> ((λ r : Z * bool, BlockList_new (cell_size r.1)) <$> roles)).
Proof.
  intros HM Hch Hroles Hnd Hpages. set (L := (λ _ : BlockList, @nil Z) <$> _).
  assert (∀ b bin u, ¬ owns roles L None b bin u) as Hno.
  { intros b bin u [(a & l & Ha & Hb & _)|Hh]; [|done]. unfold L in Ha. rewrite lookup_fmap_Some in Ha. destruct Ha as (? & <- & _). by apply elem_of_nil in Hb. }
  split; cbn [ms_lists ms_mem ms_chunks ms_pages].
  - apply (@new_lists_rel mem _ (mem_blocks_laws f asan Hf)); [exact HM|]. intros a bl Ha. rewrite lookup_fmap_Some in Ha.
    destruct Ha as ([bin u] & <- & Hr). by destruct (Hroles a bin u Hr).
  - intros a. rewrite lookup_fmap. by rewrite fmap_is_Some.
  - intros a bl bin u Ha Hr. rewrite lookup_fmap, Hr in Ha. injection Ha as <-. by destruct (Hroles a bin u Hr).
  - done.
  - intros b bin u _ Ho. by apply Hno in Ho.
  - intros c cs Hu. by rewrite lookup_empty in Hu.
  - exists (λ _, Free). split; [exact HM| |by left]. intros c Hc. cbn [cload mem_blocks]. by apply Hch.
  - split; [done|]. intros b Hb. destruct (Hpages b Hb). split; [done|]. split; [done|]. intros bin u. apply Hno.
Qed.

(** One mutator and the lists of the space; a chunk with one block. *)
Definition sample_mutator : FreeListAllocator :=
  {| tls := 7; available_blocks := 0x10000; available_blocks_stress := 0x20000; unswept_blocks := 0x30000; consumed_blocks := 0x40000 |}.
Definition sample_abandoned : AbandonedBlockLists := {| ab_available := 0x50000; ab_unswept := 0x60000; ab_consumed := 0x70000 |}.
Definition sample_roles : gmap Z (Z * bool) :=
  list_to_map ('(base, u) ← [(0x10000, false); (0x20000, false); (0x30000, true); (0x40000, false); (0x50000, false); (0x60000, true); (0x70000, false)];
               (λ bin, (base + bin * BlockList_BYTES, (bin, u))) <$> seqZ 0 49).
Definition sample_space : ms_state mem :=
  {| ms_lists := (λ r : Z * bool, BlockList_new (cell_size r.1)) <$> sample_roles; ms_mem := (λ _, 0); ms_chunks := ChunkMap_new; ms_pages := [sample_at] |}.
Definition sample_requests : list alloc_request :=
  [{| ar_self := sample_mutator; ar_call := AllocFast; ar_size := 24; ar_align := 8; ar_offset := 4 |};
   {| ar_self := sample_mutator; ar_call := AllocSlow; ar_size := 24; ar_align := 8; ar_offset := 4 |};
   {| ar_self := sample_mutator; ar_call := AllocFast; ar_size := 24; ar_align := 8; ar_offset := 0 |};
   {| ar_self := sample_mutator; ar_call := AllocStress true; ar_size := 40; ar_align := 4; ar_offset := 0 |}].

Lemma sample_roles_ok a bin u : sample_roles !! a = Some (bin, u) → is_u 64 a ∧ 0 ≤ bin ≤ MAX_BIN.
Proof.
  intros Hr. assert (map_Forall (λ a r, is_u 64 a ∧ 0 ≤ r.1 ≤ MAX_BIN) sample_roles) as HF; [|by apply (HF a (bin, u))].
  apply (bool_decide_unpack _). by vm_compute.
Qed.
Lemma sample_allocator_ok : allocator_ok sample_roles sample_mutator sample_abandoned.
Proof.
  split; [done| |apply (bool_decide_unpack _); by vm_compute].
  intros bin Hb. cbn [available_blocks available_blocks_stress consumed_blocks unswept_blocks ab_available ab_unswept sample_mutator sample_abandoned].
  assert (Forall (λ bin, sample_roles !! (0x10000 + bin * BlockList_BYTES) = Some (bin, false) ∧ sample_roles !! (0x20000 + bin * BlockList_BYTES) = Some (bin, false) ∧
    sample_roles !! (0x40000 + bin * BlockList_BYTES) = Some (bin, false) ∧ sample_roles !! (0x30000 + bin * BlockList_BYTES) = Some (bin, true) ∧
    sample_roles !! (0x50000 + bin * BlockList_BYTES) = Some (bin, false) ∧ sample_roles !! (0x60000 + bin * BlockList_BYTES) = Some (bin, true)) (seqZ 0 49)) as HF.
  { apply (bool_decide_unpack _). by vm_compute. }
  rewrite Forall_forall in HF. apply HF, elem_of_seqZ. change MAX_BIN with 48 in Hb. lia.
Qed.
Lemma sample_served : Forall (request_served default_binding sample_roles sample_abandoned) sample_requests.
Proof.
  apply Forall_forall. intros q Hq. split; [|unfold sample_requests in Hq; rewrite !elem_of_cons in Hq;
    destruct Hq as [-> |[-> |[-> |[-> |Hq%elem_of_nil]]]]; [apply sample_allocator_ok..|done]].
  unfold sample_requests in Hq. rewrite !elem_of_cons in Hq.
  destruct Hq as [-> |[-> |[-> |[-> |Hq%elem_of_nil]]]]; [..|done]; cbn [ar_size ar_align ar_offset]; (split; [apply default_binding_ok|done| |done|by vm_compute]).
  1-3: split; [exists 3; cbn; lia|split; [lia|first [by exists 1|by exists 0]]].
  split; [exists 2; cbn; lia|split; [lia|by exists 0]].
Qed.
Lemma allocations_disjoint_witness :
  ∃ rs st', run_requests default_features false sample_marks 0 default_binding false sample_abandoned false false (Z.to_nat (2 ^ 32)) sample_requests sample_space = Val (rs, st') ∧
    objects_ok default_features false sample_marks 0 default_binding false sample_roles sample_requests ∅ sample_space rs st'.
Proof.
  destruct sample_at_ok as [Hb Hch].
  apply (allocations_disjoint default_features false sample_features sample_marks 0 default_binding false (λ _ _ _ _, eq_refl) sample_roles sample_abandoned false false
    sample_requests ∅ sample_space ((λ _, []) <$> ms_lists sample_space)).
  - apply initial_inv; [apply sample_features|apply zero_mem_ok|apply zero_chunks|apply sample_roles_ok|apply NoDup_singleton|].
    intros b Hb'%list_elem_of_singleton. subst b. by split.
  - apply sample_served.
  - lia.
Defined.
