(* ===== verification/Tracing.v ===== *)
(** * Tracing the object graph
    ([PlanProcessEdges] of src/src/scheduler/gc_work.rs)

    A packet processes slots: it traces the object that a slot holds and stores the new
    address back; an object that is traced for the first time adds its own slots to the
    packet, and full buffers become new packets.  Workers run packets in parallel; one slot is
    one step, as the forwarding protocol makes the copy of an object appear at once.  What a
    plan does with an object is an interface, [PlanTrace], with its laws, [TraceLaws]. *)

From stdpp Require Import gmap.
From S2P Require Import Prelude.

(** ** Buffers and roots *)

Record buffer_features : Type := { lxr_buf_2048 : bool; lxr_buf_1024 : bool; lxr_buf_512 : bool; lxr_buf_256 : bool }.
Definition BUFFER_SIZE (f : buffer_features) : Z :=
  if lxr_buf_2048 f then 2048 else if lxr_buf_1024 f then 1024 else if lxr_buf_512 f then 512 else if lxr_buf_256 f then 256 else 1024.

Inductive RootKind : Type :=
| Strong | StrongCLDRoots | YoungStrongCLDRoots | YoungWeakCLDRoots | YoungCodeCacheRoots | YoungWeakHandleRoots | Weak.
#[export] Instance RootKind_eq_dec : EqDecision RootKind.
Proof. solve_decision. Defined.

(** ** The heap of the virtual machine *)

(** A slot holds a reference or nothing; an object has the slots that scanning it visits. *)
Record heap : Type := { h_slots : gmap Z (option Z); h_fields : gmap Z (list Z) }.
Definition slot_load (h : heap) (s : Z) : option Z := mjoin (h_slots h !! s).
Definition slot_store (h : heap) (s o : Z) : heap := {| h_slots := <[s := Some o]> (h_slots h); h_fields := h_fields h |}.
Definition fields (h : heap) (o : Z) : list Z := default [] (h_fields h !! o).

(** What a plan does with an object: [trace_object] gives its address after the collection
    and the object to enqueue when this was the first visit. *)
Class PlanTrace (P : Type) : Type := {
  trace_object : heap → P → Z → res (heap * P * Z * option Z);
  post_scan_object : P → Z → P;
  may_move_objects : bool
}.

(** ** Packets *)

Record packet : Type := { pe_slots : list Z; pe_roots : bool; pe_root_kind : option RootKind }.
(** The packet that a full buffer becomes. *)
Definition new_packet (slots : list Z) : packet := {| pe_slots := slots; pe_roots := false; pe_root_kind := None |}.

(** A packet that a worker runs: the slots to process, each with the flag [WEAK_ROOT], and
    [next_slots]. *)
Record running : Type := { ru_todo : list (bool * Z); ru_next : list Z }.
(** The slots are processed, and then processed again. *)
Definition start_packet (pk : packet) : running :=
  let weak := pe_roots pk && bool_decide (pe_root_kind pk = Some Weak) in
  {| ru_todo := (pair weak <$> pe_slots pk) ++ (pair false <$> pe_slots pk); ru_next := [] |}.

Section tracing.
Context {P : Type} `{PlanTrace P}.
Context (buf : buffer_features).
(** Whether the plan is Immix, and the objects in blocks that are being defragmented. *)
Context (ix : bool) (is_defrag_source : P → Z → bool).

(** The slots of an object that hold something are pushed; a full buffer is flushed. *)
Fixpoint enqueue_slots (h : heap) (slots next : list Z) (flushed : list packet) : list Z * list packet :=
  match slots with
  | [] => (next, flushed)
  | s :: slots =>
    match slot_load h s with
    | None => enqueue_slots h slots next flushed
    | Some _ =>
      let next := next ++ [s] in
      if BUFFER_SIZE buf <=? Z.of_nat (length next)
      then enqueue_slots h slots [] (flushed ++ [new_packet next])
      else enqueue_slots h slots next flushed
    end
  end.

(** The object of a slot is traced, its slots are enqueued on the first visit, and its new
    address is stored. *)
Definition process_object (s object : Z) (h : heap) (p : P) (next : list Z) : res (heap * P * list Z * list packet) :=
  '(h, p, new_object, queued) ← trace_object h p object;
  let '(p, (next, flushed)) :=
    match queued with
    | None => (p, (next, []))
    | Some o => (post_scan_object p o, enqueue_slots h (fields h o) next [])
    end in
  let h := if may_move_objects && negb (new_object =? object) then slot_store h s new_object else h in
  Val (h, p, next, flushed).
Definition process_slot (weak : bool) (s : Z) (h : heap) (p : P) (next : list Z) : res (heap * P * list Z * list packet) :=
  match slot_load h s with
  | None => Val (h, p, next, [])
  | Some object =>
    if ix && weak && negb (is_defrag_source p object) then Val (h, p, next, []) else process_object s object h p next
  end.

(** ** One worker *)

(** [process_slots]: the buffers that were flushed are added to the packets of the pool. *)
Fixpoint run_packet (fuel : nat) (r : running) (h : heap) (p : P) (pool : list packet) : res (heap * P * list packet) :=
  match ru_todo r, ru_next r with
  | [], [] => Val (h, p, pool)
  | [], next =>
    match fuel with
    | O => NoFuel
    | S fuel => run_packet fuel {| ru_todo := pair false <$> next; ru_next := [] |} h p pool
    end
  | (weak, s) :: todo, next =>
    match fuel with
    | O => NoFuel
    | S fuel =>
      '(h, p, next, flushed) ← process_slot weak s h p next;
      run_packet fuel {| ru_todo := todo; ru_next := next |} h p (pool ++ flushed)
    end
  end.
(** One worker runs packets until there are none. *)
Fixpoint run_pool (fuel : nat) (h : heap) (p : P) (pool : list packet) : res (heap * P) :=
  match pool with
  | [] => Val (h, p)
  | pk :: pool =>
    match fuel with
    | O => NoFuel
    | S fuel => '(h, p, pool) ← run_packet fuel (start_packet pk) h p pool; run_pool fuel h p pool
    end
  end.

(** ** Several workers *)

Record trace_state : Type := { ts_heap : heap; ts_plan : P; ts_pool : list packet; ts_running : list running }.

Inductive trace_step : trace_state → trace_state → Prop :=
| step_start h p pool1 pk pool2 run :
    trace_step {| ts_heap := h; ts_plan := p; ts_pool := pool1 ++ pk :: pool2; ts_running := run |}
               {| ts_heap := h; ts_plan := p; ts_pool := pool1 ++ pool2; ts_running := start_packet pk :: run |}
| step_slot h p pool run1 weak s todo next run2 h' p' next' flushed :
    process_slot weak s h p next = Val (h', p', next', flushed) →
    trace_step {| ts_heap := h; ts_plan := p; ts_pool := pool; ts_running := run1 ++ {| ru_todo := (weak, s) :: todo; ru_next := next |} :: run2 |}
               {| ts_heap := h'; ts_plan := p'; ts_pool := pool ++ flushed; ts_running := run1 ++ {| ru_todo := todo; ru_next := next' |} :: run2 |}
| step_swap h p pool run1 s next run2 :
    trace_step {| ts_heap := h; ts_plan := p; ts_pool := pool; ts_running := run1 ++ {| ru_todo := []; ru_next := s :: next |} :: run2 |}
               {| ts_heap := h; ts_plan := p; ts_pool := pool; ts_running := run1 ++ {| ru_todo := pair false <$> (s :: next); ru_next := [] |} :: run2 |}
| step_finish h p pool run1 run2 :
    trace_step {| ts_heap := h; ts_plan := p; ts_pool := pool; ts_running := run1 ++ {| ru_todo := []; ru_next := [] |} :: run2 |}
               {| ts_heap := h; ts_plan := p; ts_pool := pool; ts_running := run1 ++ run2 |}.

Definition drained (st : trace_state) : Prop := ts_pool st = [] ∧ ts_running st = [].

(** One worker is one of the schedules. *)
Lemma run_packet_steps fuel r h p pool run h' p' pool' :
  run_packet fuel r h p pool = Val (h', p', pool') →
  rtc trace_step {| ts_heap := h; ts_plan := p; ts_pool := pool; ts_running := r :: run |}
                 {| ts_heap := h'; ts_plan := p'; ts_pool := pool'; ts_running := run |}.
Proof.
  revert r h p pool. induction fuel as [|fuel IH]; intros [[|[weak s] todo] [|s' next]] h p pool E; cbn [run_packet ru_todo ru_next] in E; try done.
  - injection E as -> -> ->. eapply rtc_l; [apply (step_finish _ _ _ [])|done].
  - injection E as -> -> ->. eapply rtc_l; [apply (step_finish _ _ _ [])|done].
  - eapply rtc_l; [apply (step_swap _ _ _ [])|]. by apply IH.
  - apply bind_Val in E as ([[[h1 p1] next1] flushed] & E1 & E2). eapply rtc_l; [by apply (step_slot _ _ _ [])|]. by apply IH.
  - apply bind_Val in E as ([[[h1 p1] next1] flushed] & E1 & E2). eapply rtc_l; [by apply (step_slot _ _ _ [])|]. by apply IH.
Qed.
Lemma run_pool_steps fuel h p pool h' p' :
  run_pool fuel h p pool = Val (h', p') →
  rtc trace_step {| ts_heap := h; ts_plan := p; ts_pool := pool; ts_running := [] |}
                 {| ts_heap := h'; ts_plan := p'; ts_pool := []; ts_running := [] |}.
Proof.
  revert h p pool. induction fuel as [|fuel IH]; intros h p [|pk pool] E; cbn [run_pool] in E; try done; [by injection E as -> ->..|].
  apply bind_Val in E as ([[h1 p1] pool1] & E1 & E2). eapply rtc_l; [apply (step_start _ _ [])|].
  etrans; [by eapply run_packet_steps|]. by apply IH.
Qed.
End tracing.

(** ** What a plan promises *)

(** [o'] in [h'] is [o] in [h]: the object itself, or a new copy with new slots. *)
Inductive copied (h : heap) (o : Z) (h' : heap) (o' : Z) : Prop :=
| copied_same : h' = h → o' = o → copied h o h' o'
| copied_new fs fs' :
    h_fields h !! o = Some fs → h_fields h !! o' = None → h_fields h' = <[o' := fs']> (h_fields h) →
    length fs' = length fs → NoDup fs' → (∀ s, s ∈ fs' → h_slots h !! s = None) →
    (∀ s, s ∉ fs' → h_slots h' !! s = h_slots h !! s) →
    (∀ i s s', fs !! i = Some s → fs' !! i = Some s' → h_slots h' !! s' = h_slots h !! s) → copied h o h' o'.

Class TraceLaws (P : Type) `{PlanTrace P} : Type := {
  (** The state of the plan during the trace. *)
  tr_inv : heap → P → Prop;
  (** Where an object is that has been visited or is not collected. *)
  fw : P → Z → option Z;
  tr_store h p s o : tr_inv h p → is_Some (h_slots h !! s) → tr_inv (slot_store h s o) p;
  tr_idem h p o o' : tr_inv h p → is_Some (h_fields h !! o) → fw p o = Some o' → fw p o' = Some o';
  tr_still p o o' : may_move_objects = false → fw p o = Some o' → o' = o;
  tr_visited h p o o' : tr_inv h p → fw p o = Some o' → trace_object h p o = Val (h, p, o', None);
  tr_first h p o : tr_inv h p → is_Some (h_fields h !! o) → fw p o = None →
    ∃ h' p' o', trace_object h p o = Val (h', p', o', Some o') ∧ copied h o h' o' ∧ tr_inv h' (post_scan_object p' o') ∧
      ∀ x, fw (post_scan_object p' o') x = if decide (x = o ∨ x = o') then Some o' else fw p x
}.
