(* ===== verification/TracingInv.v ===== *)
(** * The invariant of tracing

    Every slot of a visited object corresponds to a slot of the object graph at the start.
    It holds what that slot held and waits in a packet, or it holds the new address of the
    object; an object that was not visited is as it was. *)

From stdpp Require Import gmap.
From S2P Require Import Prelude Tracing.

(** A sum that changes at one place. *)
Lemma cost_less (f g : Z → nat) (v : Z) (d : nat) l :
  NoDup l → v ∈ l → f v = (g v + d)%nat → (∀ o, o ∈ l → o ≠ v → f o = g o) → sum_list_with f l = (sum_list_with g l + d)%nat.
Proof.
  intros Hnd Hv Hd Hs. induction Hnd as [|x l Hx Hnd IH]; [by apply elem_of_nil in Hv|]. cbn [sum_list_with].
  apply elem_of_cons in Hv as [<- |Hv].
  - assert (sum_list_with f l = sum_list_with g l) as ->; [|lia].
    clear IH. induction l as [|y l IH2]; [done|]. cbn [sum_list_with]. apply not_elem_of_cons in Hx as [? ?]. apply NoDup_cons in Hnd as [? ?].
    rewrite IH2, (Hs y); [done|set_solver..|]. intros o ? ?. apply Hs; set_solver.
  - rewrite IH; [|done|intros o ? ?; apply Hs; set_solver]. rewrite (Hs x); [lia|set_solver|]. by intros ->.
Qed.

Section inv.
Context {P : Type} `{TL : TraceLaws P}.
(** The heap, the plan and the slots of the packets at the start. *)
Context (h0 : heap) (p0 : P) (roots : list Z).

(** ** The object graph *)

(** The objects that the trace can reach. *)
Inductive reach : Z → Prop :=
| reach_root s o : s ∈ roots → slot_load h0 s = Some o → reach o
| reach_field o s o' : reach o → fw p0 o = None → s ∈ fields h0 o → slot_load h0 s = Some o' → reach o'.

(** References lead to objects, objects do not share slots, and what counts as visited at the
    start does not move.  A root may be a slot of an object. *)
Record graph_ok : Prop := {
  go_roots s : s ∈ roots → is_Some (h_slots h0 !! s);
  go_objects o : reach o → is_Some (h_fields h0 !! o);
  go_fields o s : reach o → fw p0 o = None → s ∈ fields h0 o → is_Some (h_slots h0 !! s);
  go_nodup o : reach o → fw p0 o = None → NoDup (fields h0 o);
  go_disjoint o1 o2 s : reach o1 → reach o2 → fw p0 o1 = None → fw p0 o2 = None → s ∈ fields h0 o1 → s ∈ fields h0 o2 → o1 = o2;
  go_fixed o o' : is_Some (h_fields h0 !! o) → fw p0 o = Some o' → o' = o
}.
Context (G : graph_ok).

(** ** The invariant *)

Inductive corr (h : heap) (p : P) : Z → Z → Prop :=
| corr_root s : s ∈ roots → corr h p s s
| corr_field o o' i s s' : reach o → fw p0 o = None → fw p o = Some o' → fields h0 o !! i = Some s → fields h o' !! i = Some s' → corr h p s s'.

Definition slot_done (h : heap) (p : P) (s s' : Z) : Prop :=
  match slot_load h0 s with
  | None => slot_load h s' = None
  | Some v => ∃ v', fw p v = Some v' ∧ slot_load h s' = Some v'
  end.
Definition slot_ok (h : heap) (p : P) (Pd : Z → Prop) (s s' : Z) : Prop :=
  slot_done h p s s' ∨ (slot_load h s' = slot_load h0 s ∧ Pd s').

(** [Pd] are the slots that wait, [K] the slots in packets. *)
Record inv (h : heap) (p : P) (Pd K : Z → Prop) : Prop := {
  ti_plan : tr_inv h p;
  ti_mono o o' : is_Some (h_fields h0 !! o) → fw p0 o = Some o' → fw p o = Some o';
  ti_new o o' : is_Some (h_fields h0 !! o) → fw p o = Some o' → fw p0 o = Some o' ∨ reach o;
  ti_same o : is_Some (h_fields h0 !! o) → h_fields h !! o = h_fields h0 !! o;
  ti_fresh s : is_Some (h_slots h0 !! s) → is_Some (h_slots h !! s);
  ti_img o o' : is_Some (h_fields h0 !! o) → fw p o = Some o' → is_Some (h_fields h !! o');
  ti_len o o' : reach o → fw p0 o = None → fw p o = Some o' → length (fields h o') = length (fields h0 o);
  ti_unique o1 o2 o' : is_Some (h_fields h0 !! o1) → is_Some (h_fields h0 !! o2) → fw p o1 = Some o' → fw p o2 = Some o' → o1 = o2;
  ti_unvisited o s : reach o → fw p o = None → s ∈ fields h0 o →
    (slot_load h s = slot_load h0 s ∨ slot_done h p s s) ∧ ∀ t, corr h p t s → t = s;
  ti_target s s' : corr h p s s' → s = s' ∨ h_slots h0 !! s' = None;
  ti_frame s : is_Some (h_slots h0 !! s) → (∀ t, ¬ corr h p t s) → h_slots h !! s = h_slots h0 !! s;
  ti_corr s s' : corr h p s s' → is_Some (h_slots h !! s') ∧ slot_ok h p Pd s s';
  ti_inj s1 s2 s' : corr h p s1 s' → corr h p s2 s' → s1 = s2;
  ti_known s' : K s' → ∃ s, corr h p s s'
}.

Lemma ti_dom h p Pd K o : inv h p Pd K → is_Some (h_fields h0 !! o) → is_Some (h_fields h !! o).
Proof. intros HI Ho. by rewrite (ti_same _ _ _ _ HI o Ho). Qed.

Lemma inv_weaken h p (Pd K Pd' K' : Z → Prop) : inv h p Pd K → (∀ s, Pd s → Pd' s) → (∀ s, K' s → K s) → inv h p Pd' K'.
Proof.
  intros [] Hp Hk. split; try done; [|by eauto].
  intros s s' Hc. destruct (ti_corr0 s s' Hc) as [? [?|[? ?]]]; split; [done|by left|done|right; auto].
Qed.

(** At the start. *)
Lemma inv_start : tr_inv h0 p0 → inv h0 p0 (λ s, s ∈ roots) (λ s, s ∈ roots).
Proof.
  intros Hp. assert (∀ s s', corr h0 p0 s s' → s = s' ∧ s ∈ roots) as Hc by (intros s s' [?|o o' ? ? ? ? E E' ? ?]; [done|congruence]).
  split; try done; try by eauto.
  - intros o o' Ho E. by rewrite (go_fixed G o o' Ho E).
  - intros o o' _ E E'. congruence.
  - intros o1 o2 o' H1 H2 E1 E2. by rewrite <-(go_fixed G o1 o' H1 E1), <-(go_fixed G o2 o' H2 E2).
  - intros o s Ho E Hs. split; [by left|]. by intros t [<- _]%Hc.
  - intros s s' [<- _]%Hc. by left.
  - intros s s' [<- Hs]%Hc. split; [by apply (go_roots G)|]. by right.
  - intros s1 s2 s' [<- _]%Hc [<- _]%Hc. done.
  - intros s Hs. exists s. by constructor.
Qed.

(** What a slot that corresponds to one of the graph leads to is in the graph. *)
Lemma corr_reach h p s s' v : corr h p s s' → slot_load h0 s = Some v → reach v.
Proof.
  intros [s0 Hs|o o' i s0 s1 Ho E _ Hi _] Hv; [by eapply reach_root|].
  eapply reach_field; [done|done| |done]. by eapply list_elem_of_lookup_2.
Qed.

Lemma fields_lookup h o fs : h_fields h !! o = Some fs → fields h o = fs.
Proof. intros E. unfold fields. by rewrite E. Qed.
Lemma slot_load_store h s o s' : slot_load (slot_store h s o) s' = if decide (s' = s) then Some o else slot_load h s'.
Proof.
  unfold slot_load, slot_store. cbn [h_slots]. case_decide as E; [subst; by rewrite lookup_insert_eq|].
  by rewrite lookup_insert_ne.
Qed.

(** ** Storing the new address *)

Lemma corr_store h p s o t t' : corr (slot_store h s o) p t t' ↔ corr h p t t'.
Proof. split; (intros [?|????? ? ? ? ? ?]; [by constructor|by eapply corr_field]). Qed.

(** A slot that holds the new address already, or gets it, is done. *)
Lemma inv_store h p Pd K s s' v v' :
  inv h p Pd K → corr h p s s' → slot_load h0 s = Some v → fw p v = Some v' → inv (slot_store h s' v') p (λ x, Pd x ∧ x ≠ s') K.
Proof.
  intros HI Hc Hv Hf. pose proof (ti_corr _ _ _ _ HI _ _ Hc) as [Hs' _].
  assert (∀ x, is_Some (h_slots h !! x) → is_Some (h_slots (slot_store h s' v') !! x)) as Hdom.
  { intros x Hx. cbn [slot_store h_slots]. destruct (decide (x = s')) as [-> |]; [by rewrite lookup_insert_eq|by rewrite lookup_insert_ne]. }
  split; try apply HI.
  - by apply tr_store; [apply HI|].
  - intros x Hx. by apply Hdom, (ti_fresh _ _ _ _ HI).
  - intros o x Ho E Hx. destruct (ti_unvisited _ _ _ _ HI o x Ho E Hx) as [E1 E2]. split; [|intros t; rewrite corr_store; apply E2].
    unfold slot_done in *. rewrite slot_load_store. case_decide as Ex; [|done]. subst x. right. rewrite <-(E2 s Hc), Hv. by exists v'.
  - intros t t' Ht%corr_store. by apply (ti_target _ _ _ _ HI).
  - intros x Hx Hn. assert (∀ t, ¬ corr h p t x) as Hn' by (intros t Ht; by apply (Hn t), corr_store). cbn [slot_store h_slots].
    rewrite lookup_insert_ne; [by apply (ti_frame _ _ _ _ HI)|]. intros ->. by apply (Hn' s).
  - intros t t' Ht%corr_store. destruct (ti_corr _ _ _ _ HI t t' Ht) as [Hx Hok]. split; [by apply Hdom|].
    unfold slot_ok, slot_done in *. rewrite slot_load_store. case_decide as E.
    + subst t'. rewrite (ti_inj _ _ _ _ HI _ _ _ Ht Hc) in *. rewrite Hv. left. by exists v'.
    + destruct Hok as [?|[? ?]]; [by left|right; done].
  - intros s1 s2 x H1%corr_store H2%corr_store. by eapply (ti_inj _ _ _ _ HI).
  - intros x Hx. destruct (ti_known _ _ _ _ HI x Hx) as [t Ht]. exists t. by apply corr_store.
Qed.

(** The same when nothing is stored. *)
Lemma inv_settle h p Pd K s s' :
  inv h p Pd K → corr h p s s' → slot_done h p s s' → inv h p (λ x, Pd x ∧ x ≠ s') K.
Proof.
  intros HI Hc Hd. split; try apply HI. intros t t' Ht. destruct (ti_corr _ _ _ _ HI t t' Ht) as [Hx Hok]. split; [done|].
  destruct (decide (t' = s')) as [-> |Hne].
  - rewrite (ti_inj _ _ _ _ HI _ _ _ Ht Hc). by left.
  - destruct Hok as [?|[? ?]]; [by left|by right].
Qed.

(** ** The first visit of an object *)

(** What copying changes, or marking in place. *)
Record visits (h : heap) (p : P) (v : Z) (h1 : heap) (p1 : P) (o' : Z) : Prop := {
  vi_fw x : fw p1 x = if decide (x = v ∨ x = o') then Some o' else fw p x;
  vi_len : length (fields h1 o') = length (fields h0 v);
  vi_fields x : is_Some (h_fields h !! x) → h_fields h1 !! x = h_fields h !! x;
  vi_object : is_Some (h_fields h1 !! o');
  vi_slots s : is_Some (h_slots h !! s) → h_slots h1 !! s = h_slots h !! s;
  vi_copy i s s' : fields h0 v !! i = Some s → fields h1 o' !! i = Some s' → h_slots h1 !! s' = h_slots h !! s;
  vi_nodup : NoDup (fields h1 o');
  vi_own s : s ∈ fields h1 o' → (∀ t, corr h p t s → t = s) ∧ ∀ o, reach o → fw p o = None → s ∈ fields h0 o → o = v;
  vi_target i s s' : fields h0 v !! i = Some s → fields h1 o' !! i = Some s' → s = s' ∨ h_slots h !! s' = None;
  vi_old : is_Some (h_fields h0 !! o') → o' = v;
  vi_only o : is_Some (h_fields h0 !! o) → fw p o ≠ Some o'
}.

Lemma unvisited_start h p Pd K v : inv h p Pd K → reach v → fw p v = None → fw p0 v = None.
Proof. intros HI Hr Hf. destruct (fw p0 v) as [o|] eqn:E; [|done]. by rewrite (ti_mono _ _ _ _ HI v o (go_objects G v Hr) E) in Hf. Qed.

Lemma copied_visits h p Pd K v h1 p1 o' :
  inv h p Pd K → reach v → fw p v = None → copied h v h1 o' → (∀ x, fw p1 x = if decide (x = v ∨ x = o') then Some o' else fw p x) →
  visits h p v h1 p1 o'.
Proof.
  intros HI Hr Hf Hc Hfw. pose proof (go_objects G v Hr) as [fs0 E0]. pose proof (unvisited_start _ _ _ _ _ HI Hr Hf) as Hf0.
  pose proof (ti_same _ _ _ _ HI v (go_objects G v Hr)) as Eh. rewrite E0 in Eh. pose proof (fields_lookup _ _ _ E0) as F0. pose proof (fields_lookup _ _ _ Eh) as Fh.
  destruct Hc as [-> ->|fs fs' Ef Hn E1 Hlen Hnd Hfr Hsame Hcopy].
  - split; try done.
    + by rewrite Fh, F0.
    + intros i s s' H1 H2. rewrite Fh in H2. rewrite F0 in H1. by assert (s = s') as <- by congruence.
    + rewrite Fh, <-F0. by apply (go_nodup G).
    + intros s Hs. rewrite Fh, <-F0 in Hs. split; [by apply (ti_unvisited _ _ _ _ HI v s)|]. intros o Ho Ho2 Hs2. symmetry. apply (go_disjoint G v o s); try done. by eapply unvisited_start.
    + intros i s s' H1 H2. left. rewrite Fh in H2. rewrite F0 in H1. congruence.
    + intros o Ho E. by rewrite (tr_idem _ _ _ _ (ti_plan _ _ _ _ HI) (ti_dom _ _ _ _ _ HI Ho) E) in Hf.
  - rewrite Eh in Ef. injection Ef as <-. assert (fields h1 o' = fs') as F1 by (apply fields_lookup; rewrite E1; apply lookup_insert_eq). rewrite <-F1 in *.
    split; try done.
    + by rewrite Hlen, F0.
    + intros x Hx. rewrite E1, lookup_insert_ne; [done|]. intros <-. rewrite Hn in Hx. by destruct Hx.
    + rewrite E1, lookup_insert_eq. done.
    + intros s Hs. apply Hsame. intros Hs2. rewrite (Hfr s Hs2) in Hs. by destruct Hs.
    + intros i s s' H1 H2. rewrite F0 in H1. by rewrite (Hcopy i s s' H1 H2).
    + intros s Hs. split.
      * intros t Ht. destruct (ti_corr _ _ _ _ HI t s Ht) as [[? E] _]. by rewrite (Hfr s Hs) in E.
      * intros o Ho Ho2 Hs2. pose proof (go_fields G o s Ho (unvisited_start _ _ _ _ _ HI Ho Ho2) Hs2) as Hx.
        apply (ti_fresh _ _ _ _ HI) in Hx. rewrite (Hfr s Hs) in Hx. by destruct Hx.
    + intros i s s' _ H2. right. apply Hfr. by eapply list_elem_of_lookup_2.
    + intros Hx%(ti_dom _ _ _ _ _ HI). rewrite Hn in Hx. by destruct Hx.
    + intros o Ho Hx%(ti_img _ _ _ _ HI); [|done]. rewrite Hn in Hx. by destruct Hx.
Qed.

Section visit.
Context (h : heap) (p : P) (Pd K : Z → Prop) (v : Z) (h1 : heap) (p1 : P) (o' : Z).
Context (HI : inv h p Pd K) (Hr : reach v) (Hf : fw p v = None) (V : visits h p v h1 p1 o').

Lemma visit_fw x : is_Some (h_fields h0 !! x) → fw p1 x = if decide (x = v) then Some o' else fw p x.
Proof. intros Hx. rewrite (vi_fw _ _ _ _ _ _ V). destruct (decide (x = v)) as [-> |]; [by rewrite decide_True by auto|]. rewrite decide_False; [done|]. intros [?| ->]; [done|]. by apply (vi_old _ _ _ _ _ _ V) in Hx. Qed.

Lemma visit_corr t t' : corr h1 p1 t t' ↔ corr h p t t' ∨ ∃ i, fields h0 v !! i = Some t ∧ fields h1 o' !! i = Some t'.
Proof.
  assert (∀ o x, is_Some (h_fields h0 !! o) → fw p o = Some x → fields h1 x = fields h x) as Hsame.
  { intros o x Ho E. unfold fields. by rewrite (vi_fields _ _ _ _ _ _ V) by (by eapply (ti_img _ _ _ _ HI)). }
  split.
  - intros [s Hs|o x i s s' Ho E0 E Hi Hi']; [left; by constructor|]. pose proof (go_objects G o Ho) as Hd. rewrite visit_fw in E by done. case_decide as Hx.
    + subst o. injection E as <-. right. by exists i.
    + left. rewrite (Hsame o x Hd E) in Hi'. by eapply corr_field.
  - intros [[s Hs|o x i s s' Ho E0 E Hi Hi']|(i & Hi & Hi')]; [by constructor| |].
    + pose proof (go_objects G o Ho) as Hd. eapply (corr_field _ _ o x i); try done; [|by rewrite (Hsame o x Hd E)].
      rewrite visit_fw, decide_False; [done|congruence|done].
    + eapply (corr_field _ _ v o' i); try done; [by eapply unvisited_start|]. rewrite visit_fw, decide_True; [done..|by apply (go_objects G)].
Qed.

Lemma visit_done t t' : slot_done h p t t' → is_Some (h_slots h !! t') → (∀ x, slot_load h0 t = Some x → reach x) → slot_done h1 p1 t t'.
Proof.
  intros Hd Hs Hx. unfold slot_done, slot_load in *. rewrite (vi_slots _ _ _ _ _ _ V) by done. destruct (mjoin (h_slots h0 !! t)) as [x|]; [|done].
  destruct Hd as (x' & E & ?). exists x'. split; [|done]. rewrite visit_fw by (by apply (go_objects G), Hx). rewrite decide_False; [done|]. intros ->. congruence.
Qed.

Lemma visit_inj i s1 s2 s' : corr h p s1 s' → fields h0 v !! i = Some s2 → fields h1 o' !! i = Some s' → s1 = s2.
Proof.
  intros H1 Hi Hi'. destruct (vi_own _ _ _ _ _ _ V s') as [Hn _]; [by eapply list_elem_of_lookup_2|]. rewrite (Hn s1 H1).
  destruct (vi_target _ _ _ _ _ _ V i s2 s' Hi Hi') as [?|En]; [done|]. destruct (ti_corr _ _ _ _ HI _ _ H1) as [Hs _]. rewrite En in Hs. by destruct Hs.
Qed.

Lemma inv_visit : tr_inv h1 p1 →
  let new s := s ∈ fields h1 o' ∧ is_Some (slot_load h1 s) in inv h1 p1 (λ s, Pd s ∨ new s) (λ s, K s ∨ s ∈ fields h1 o').
Proof.
  intros Htr new. pose proof (unvisited_start _ _ _ _ _ HI Hr Hf) as Hf0. pose proof (go_objects G v Hr) as Hv.
  assert (∀ x, is_Some (h_slots h !! x) → is_Some (h_slots h1 !! x)) as Hsd by (intros x Hx; by rewrite (vi_slots _ _ _ _ _ _ V)).
  assert (∀ x, is_Some (h_fields h !! x) → is_Some (h_fields h1 !! x)) as Hfd by (intros x Hx; by rewrite (vi_fields _ _ _ _ _ _ V)).
  split; [done|..].
  - intros o x Ho E. rewrite visit_fw by done. case_decide; [congruence|]. by apply (ti_mono _ _ _ _ HI).
  - intros o x Ho E. rewrite visit_fw in E by done. case_decide; [subst; by right|]. by apply (ti_new _ _ _ _ HI).
  - intros o Ho. rewrite <-(ti_same _ _ _ _ HI o Ho). apply (vi_fields _ _ _ _ _ _ V). by eapply ti_dom.
  - intros s Hs. by apply Hsd, (ti_fresh _ _ _ _ HI).
  - intros o x Ho E. rewrite visit_fw in E by done. case_decide; [injection E as <-; apply V|]. by eapply Hfd, (ti_img _ _ _ _ HI).
  - intros o x Ho E0 E. pose proof (go_objects G o Ho) as Hd. rewrite visit_fw in E by done. case_decide; [subst; injection E as <-; apply V|].
    transitivity (length (fields h x)); [|by apply (ti_len _ _ _ _ HI)]. unfold fields. by rewrite (vi_fields _ _ _ _ _ _ V) by (by eapply (ti_img _ _ _ _ HI)).
  - intros o1 o2 x H1 H2. rewrite !visit_fw by done. pose proof (vi_only _ _ _ _ _ _ V) as Ho.
    destruct (decide (o1 = v)), (decide (o2 = v)); intros E1 E2; [congruence| | |by eapply (ti_unique _ _ _ _ HI)].
    + injection E1 as <-. by destruct (Ho o2).
    + injection E2 as <-. by destruct (Ho o1).
  - intros o s Ho E Hs. pose proof (go_objects G o Ho) as Hd. rewrite visit_fw in E by done. case_decide as Hne; [done|].
    pose proof (unvisited_start _ _ _ _ _ HI Ho E) as E0. assert (is_Some (h_slots h !! s)) as Hx by (by eapply (ti_fresh _ _ _ _ HI), (go_fields G o s)).
    destruct (ti_unvisited _ _ _ _ HI o s Ho E Hs) as [Hl Hnc]. split.
    + destruct Hl as [Hl|Hl]; [left; unfold slot_load in *; by rewrite (vi_slots _ _ _ _ _ _ V)|]. right. apply visit_done; try done. intros x Ex. by eapply reach_field.
    + intros t [Ht|(i & _ & Hi)]%visit_corr; [by apply Hnc|]. destruct (vi_own _ _ _ _ _ _ V s) as [_ Hown]; [by eapply list_elem_of_lookup_2|].
      by destruct Hne; apply Hown.
  - intros t t' [Ht|(i & Hi & Hi')]%visit_corr; [by apply (ti_target _ _ _ _ HI)|]. destruct (vi_target _ _ _ _ _ _ V i t t' Hi Hi') as [?|En]; [by left|].
    right. apply eq_None_not_Some. intros Hs%(ti_fresh _ _ _ _ HI). rewrite En in Hs. by destruct Hs.
  - intros s Hs Hn. rewrite (vi_slots _ _ _ _ _ _ V) by (by apply (ti_fresh _ _ _ _ HI)). apply (ti_frame _ _ _ _ HI s Hs). intros t Ht. apply (Hn t), visit_corr. by left.
  - intros t t' [Ht|(i & Hi & Hi')]%visit_corr.
    + destruct (ti_corr _ _ _ _ HI t t' Ht) as [Hs [Hd|[E Hp]]]; (split; [by apply Hsd|]).
      * left. apply visit_done; try done. intros x Hx. by eapply corr_reach.
      * right. split; [|by left]. unfold slot_load in *. by rewrite (vi_slots _ _ _ _ _ _ V).
    + pose proof (vi_copy _ _ _ _ _ _ V i t t' Hi Hi') as Ec.
      pose proof (go_fields G v t Hr Hf0 ltac:(by eapply list_elem_of_lookup_2)) as Hs. rewrite Ec. split; [by apply (ti_fresh _ _ _ _ HI)|].
      assert (slot_load h1 t' = slot_load h t) as El by (unfold slot_load; by rewrite Ec). unfold slot_ok.
      destruct (ti_unvisited _ _ _ _ HI v t Hr Hf) as [[E0|Hd] _]; [by eapply list_elem_of_lookup_2| |].
      * unfold slot_done. rewrite E0 in El. destruct (slot_load h0 t) as [x|] eqn:Ex; [right|left; done]. split; [done|]. right. split; [by eapply list_elem_of_lookup_2|by rewrite El].
      * left. unfold slot_done in *. rewrite El. destruct (slot_load h0 t) as [x|] eqn:Ex; [|done]. destruct Hd as (x' & E1 & E2). exists x'. split; [|done].
        rewrite visit_fw, decide_False; [done|congruence|]. eapply (go_objects G), reach_field; [done|done|by eapply list_elem_of_lookup_2|done].
  - intros s1 s2 s' [H1|(i & Hi & Hi')]%visit_corr [H2|(j & Hj & Hj')]%visit_corr.
    + by eapply (ti_inj _ _ _ _ HI).
    + by eapply visit_inj.
    + symmetry. by eapply visit_inj.
    + assert (i = j) as <- by (eapply NoDup_lookup; [apply V|done..]). congruence.
  - intros s [Hs|Hs].
    + destruct (ti_known _ _ _ _ HI s Hs) as [t Ht]. exists t. apply visit_corr. by left.
    + apply list_elem_of_lookup_1 in Hs as [i Hi]. destruct (lookup_lt_is_Some_2 (fields h0 v) i) as [t Ht].
      { rewrite <-(vi_len _ _ _ _ _ _ V). by eapply lookup_lt_Some. }
      exists t. apply visit_corr. right. by exists i.
Qed.
End visit.
(** ** Work that is left *)

(** The work for objects that were not visited, [f] for an object by its number of slots. *)
Definition unvisited_cost (f : nat → nat) (p : P) : nat :=
  sum_list_with (λ o, match fw p o with Some _ => 0 | None => f (length (fields h0 o)) end)%nat (elements (dom (h_fields h0))).

Lemma unvisited_less f h p v h1 p1 o' :
  reach v → fw p v = None → visits h p v h1 p1 o' →
  unvisited_cost f p = (unvisited_cost f p1 + f (length (fields h1 o')))%nat.
Proof.
  intros Hr Hf V. unfold unvisited_cost. apply (cost_less _ _ v); [apply NoDup_elements|apply elem_of_elements, elem_of_dom, (go_objects G v Hr)| |].
  - rewrite Hf, (visit_fw _ _ _ _ _ _ V), decide_True; [|done|by apply (go_objects G)]. by rewrite (vi_len _ _ _ _ _ _ V).
  - intros o Ho%elem_of_elements%elem_of_dom Hne. rewrite (visit_fw _ _ _ _ _ _ V) by done. by rewrite decide_False.
Qed.

(** ** One slot *)

(** Tracing the object of a slot that is known and storing its new address: the slots of an
    object that is queued wait, the slot itself does not. *)
Definition queued_slots (h : heap) (queued : option Z) (x : Z) : Prop := match queued with Some o => x ∈ fields h o | None => False end.
Definition scanned (p : P) (queued : option Z) : P := match queued with Some o => post_scan_object p o | None => p end.
Definition updated (h : heap) (s object new_object : Z) : heap :=
  if may_move_objects && negb (new_object =? object) then slot_store h s new_object else h.
Record traced (h : heap) (p : P) (Pd K : Z → Prop) (s object : Z) (h1 : heap) (p1 : P) (o' : Z) (queued : option Z) : Prop := {
  td_object : is_Some (h_fields h !! object);
  td_call : trace_object h p object = Val (h1, p1, o', queued);
  td_inv : inv (updated h1 s object o') (scanned p1 queued) (λ x, (Pd x ∨ (queued_slots h1 queued x ∧ is_Some (slot_load h1 x))) ∧ x ≠ s)
             (λ x, K x ∨ queued_slots h1 queued x);
  td_cost f : unvisited_cost f p = (unvisited_cost f (scanned p1 queued) + from_option (λ o, f (length (fields h1 o))) 0 queued)%nat;
  td_fields x : is_Some (h_fields h !! x) → h_fields h1 !! x = h_fields h !! x;
  td_queued o : queued = Some o → is_Some (h_fields h1 !! o);
  td_new : is_Some (h_fields h1 !! o') ∧ fw (scanned p1 queued) o' = Some o'
}.

(** The slot is done when it has the new address. *)
Lemma inv_updated h p Pd K t s object v v' :
  inv h p Pd K → corr h p t s → slot_load h0 t = Some v → slot_load h s = Some object → fw p v = Some v' → fw p object = Some v' →
  inv (updated h s object v') p (λ x, Pd x ∧ x ≠ s) K.
Proof.
  intros HI Ht Ev El Ef Eo. unfold updated. destruct (may_move_objects && _) eqn:Em; [by eapply inv_store|]. eapply inv_settle; [done..|]. unfold slot_done. rewrite Ev.
  exists v'. split; [done|]. rewrite El. f_equal. apply andb_false_iff in Em as [Em|Em]; [symmetry; by eapply tr_still|]. by apply negb_false_iff, Z.eqb_eq in Em.
Qed.

Lemma trace_visited h p Pd K t s object v v' :
  inv h p Pd K → corr h p t s → slot_load h0 t = Some v → slot_load h s = Some object → fw p v = Some v' → fw p object = Some v' →
  is_Some (h_fields h !! object) → traced h p Pd K s object h p v' None.
Proof.
  intros HI Ht Ev El Ef Eo Hob. pose proof (go_objects G v (corr_reach _ _ _ _ _ Ht Ev)) as Hv. split; cbn [scanned queued_slots from_option]; try done.
  - by apply tr_visited, Eo; apply HI.
  - eapply inv_weaken; [by eapply inv_updated|naive_solver..].
  - split; [by eapply (ti_img _ _ _ _ HI)|]. eapply tr_idem; [by apply HI|by eapply ti_dom|done].
Qed.
Lemma trace_first h p Pd K t s v :
  inv h p Pd K → corr h p t s → slot_load h0 t = Some v → slot_load h s = Some v → fw p v = None →
  ∃ h1 p1 o', traced h p Pd K s v h1 p1 o' (Some o').
Proof.
  intros HI Ht Ev El Eo. pose proof (corr_reach _ _ _ _ _ Ht Ev) as Hr. pose proof (ti_corr _ _ _ _ HI t s Ht) as [Hs _].
  destruct (tr_first h p v (ti_plan _ _ _ _ HI)) as (h1 & p1 & o' & Ec & Hc & Htr & Hfw); [by eapply ti_dom, (go_objects G)|done|].
  pose proof (copied_visits _ _ _ _ _ _ _ _ HI Hr Eo Hc Hfw) as V. exists h1, p1, o'.
  pose proof (inv_visit _ _ _ _ _ _ _ _ HI Hr Eo V Htr) as HI1. cbv zeta in HI1.
  assert (∀ x, x = v ∨ x = o' → fw (post_scan_object p1 o') x = Some o') as Ev' by (intros x Hx; by rewrite Hfw, decide_True).
  split; cbn [scanned queued_slots from_option]; try done.
  - by eapply ti_dom, (go_objects G).
  - eapply (inv_updated _ _ _ _ t s v v); try done; [|unfold slot_load in *; by rewrite (vi_slots _ _ _ _ _ _ V)|apply Ev'; by left|apply Ev'; by left].
    apply (visit_corr _ _ _ _ _ _ _ _ HI Hr Eo V). by left.
  - intros f. by apply (unvisited_less f _ _ _ _ _ _ Hr Eo V).
  - apply V.
  - intros o [= <-]. apply V.
  - split; [apply V|]. apply Ev'. by right.
Qed.

Lemma trace_slot h p Pd K s object :
  inv h p Pd K → K s → slot_load h s = Some object → ∃ h1 p1 o' queued, traced h p Pd K s object h1 p1 o' queued.
Proof.
  intros HI Hk El. destruct (ti_known _ _ _ _ HI s Hk) as [t Ht]. pose proof (ti_corr _ _ _ _ HI t s Ht) as [Hs [Hd|[E _]]].
  - unfold slot_done in Hd. destruct (slot_load h0 t) as [v|] eqn:Ev; [|congruence]. rewrite El in Hd. destruct Hd as (w & Ew & [= <-]).
    assert (is_Some (h_fields h0 !! v)) as Hv by (by eapply (go_objects G), corr_reach).
    eexists _, _, _, _. eapply trace_visited; try done; [|by eapply (ti_img _ _ _ _ HI)]. eapply tr_idem; [apply HI|by eapply ti_dom|done].
  - rewrite El in E. symmetry in E. destruct (fw p object) as [v'|] eqn:Eo; [eexists _, _, _, _; eapply trace_visited; try done; by eapply ti_dom, (go_objects G), corr_reach|].
    destruct (trace_first _ _ _ _ _ _ _ HI Ht E El Eo) as (h1 & p1 & o' & HT). by exists h1, p1, o', (Some o').
Qed.
Lemma empty_slot h p Pd K s : inv h p Pd K → K s → slot_load h s = None → inv h p (λ x, Pd x ∧ x ≠ s) K.
Proof.
  intros HI Hk El. destruct (ti_known _ _ _ _ HI s Hk) as [t Ht]. eapply inv_settle; [done..|].
  destruct (ti_corr _ _ _ _ HI t s Ht) as [_ [?|[E ?]]]; [done|]. unfold slot_done. by rewrite <-E, El.
Qed.

(** Changes of the plan that tracing does not see. *)
Lemma inv_plan h p p' Pd K : inv h p Pd K → tr_inv h p' → (∀ x, fw p' x = fw p x) → inv h p' Pd K.
Proof.
  intros HI Hp Hf. assert (∀ t t', corr h p' t t' ↔ corr h p t t') as Hc.
  { intros t t'. split; (intros [?|????? ? ? E ? ?]; [by constructor|]); (eapply corr_field; [done|done| |done|done]); [by rewrite <-Hf|by rewrite Hf]. }
  assert (∀ t t', slot_done h p' t t' ↔ slot_done h p t t') as Hd by (intros t t'; unfold slot_done; destruct (slot_load h0 t); [by setoid_rewrite Hf|done]).
  destruct HI. split; try setoid_rewrite Hf; try setoid_rewrite Hc; try setoid_rewrite Hd; try done.
  intros t t' Ht. unfold slot_ok. rewrite Hd. by apply ti_corr0.
Qed.

(** ** The end *)

(** The objects of the graph are where [fw] says, one object in one place, and every slot
    refers to the place of what it referred to. *)
Record preserved (h : heap) (p : P) : Prop := {
  pr_plan : tr_inv h p;
  pr_visited o : reach o → is_Some (fw p o);
  pr_only o o' : is_Some (h_fields h0 !! o) → fw p o = Some o' → fw p0 o = Some o' ∨ reach o;
  pr_unique o1 o2 o' : is_Some (h_fields h0 !! o1) → is_Some (h_fields h0 !! o2) → fw p o1 = Some o' → fw p o2 = Some o' → o1 = o2;
  pr_roots s : s ∈ roots → is_Some (h_slots h !! s) ∧ slot_done h p s s;
  pr_fields o o' : reach o → fw p0 o = None → fw p o = Some o' → Forall2 (slot_done h p) (fields h0 o) (fields h o');
  pr_same o : is_Some (h_fields h0 !! o) → h_fields h !! o = h_fields h0 !! o;
  pr_objects o o' : reach o → fw p o = Some o' → is_Some (h_fields h !! o');
  pr_slots o o' i s : reach o → fw p0 o = None → fw p o = Some o' → fields h o' !! i = Some s → is_Some (h_slots h !! s) ∧ (s ∈ roots → s ∈ fields h0 o);
  pr_own o1 o2 o1' o2' i j s : reach o1 → reach o2 → fw p0 o1 = None → fw p0 o2 = None → fw p o1 = Some o1' → fw p o2 = Some o2' →
    fields h o1' !! i = Some s → fields h o2' !! j = Some s → o1 = o2 ∧ i = j;
  pr_frame s : is_Some (h_slots h0 !! s) → s ∉ roots → (∀ o, reach o → fw p0 o = None → s ∉ fields h0 o) → h_slots h !! s = h_slots h0 !! s;
  pr_mono o o' : is_Some (h_fields h0 !! o) → fw p0 o = Some o' → fw p o = Some o';
  pr_dom s : is_Some (h_slots h0 !! s) → is_Some (h_slots h !! s);
  pr_target o o' s : reach o → fw p0 o = None → fw p o = Some o' → s ∈ fields h o' → is_Some (h_slots h0 !! s) → s ∈ fields h0 o
}.

Lemma inv_preserved h p K : inv h p (λ _, False) K → preserved h p.
Proof.
  intros HI.
  assert (∀ s s', corr h p s s' → slot_done h p s s') as Hd.
  { intros s s' Hc. destruct (ti_corr _ _ _ _ HI s s' Hc) as [_ [?|[_ []]]]. done. }
  assert (∀ s s' v, corr h p s s' → slot_load h0 s = Some v → is_Some (fw p v)) as Hv.
  { intros s s' v Hc Ev. apply Hd in Hc. unfold slot_done in Hc. rewrite Ev in Hc. destruct Hc as (v' & ? & _). by exists v'. }
  assert (∀ o, reach o → is_Some (fw p o)) as Hvis.
  { intros o Ho. induction Ho as [s o Hs Ev|o s o' Ho IH E0 Hs Ev]; [eapply Hv; [by constructor|done]|]. destruct IH as [x Ex].
    apply list_elem_of_lookup_1 in Hs as [i Hi]. destruct (lookup_lt_is_Some_2 (fields h x) i) as [s' Hi'].
    { rewrite (ti_len _ _ _ _ HI o x Ho E0 Ex). by eapply lookup_lt_Some. }
    eapply Hv; [by eapply (corr_field _ _ o x i)|done]. }
  assert (∀ o o' i s, reach o → fw p0 o = None → fw p o = Some o' → fields h o' !! i = Some s → ∃ t, fields h0 o !! i = Some t ∧ corr h p t s) as Hco.
  { intros o o' i s Ho E0 E Hi. destruct (lookup_lt_is_Some_2 (fields h0 o) i) as [t Ht].
    { rewrite <-(ti_len _ _ _ _ HI o o' Ho E0 E). by eapply lookup_lt_Some. }
    exists t. split; [done|]. by eapply corr_field. }
  split; [apply HI|done|apply HI|apply HI| | |apply HI|intros o o' Ho; apply (ti_img _ _ _ _ HI), (go_objects G _ Ho)| | | |apply HI|apply HI|].
  - intros s Hs. split; [by apply (ti_corr _ _ _ _ HI s s); constructor|]. apply Hd. by constructor.
  - intros o o' Ho E0 E. apply Forall2_same_length_lookup. split; [symmetry; by apply (ti_len _ _ _ _ HI)|].
    intros i s s' Hi Hi'. apply Hd. by eapply corr_field.
  - intros o o' i s Ho E0 E Hi. destruct (Hco o o' i s Ho E0 E Hi) as (t & Ht & Hc). split; [by apply (ti_corr _ _ _ _ HI t s Hc)|].
    intros Hs. assert (t = s) as -> by (eapply (ti_inj _ _ _ _ HI); [done|by constructor]). by eapply list_elem_of_lookup_2.
  - intros o1 o2 o1' o2' i j s H1 H2 E01 E02 E1 E2 Hi Hj. destruct (Hco _ _ _ _ H1 E01 E1 Hi) as (t1 & T1 & C1), (Hco _ _ _ _ H2 E02 E2 Hj) as (t2 & T2 & C2).
    assert (t1 = t2) as <- by (by eapply (ti_inj _ _ _ _ HI)).
    assert (o1 = o2) as <- by (eapply (go_disjoint G); [done..|by eapply list_elem_of_lookup_2|by eapply list_elem_of_lookup_2]).
    split; [done|]. eapply NoDup_lookup; [by apply (go_nodup G o1)|done..].
  - intros s Hs Hn Hf. apply (ti_frame _ _ _ _ HI s Hs). intros t Hc. pose proof (ti_target _ _ _ _ HI t s Hc) as [<- |En]; [|rewrite En in Hs; by destruct Hs].
    inversion Hc as [|o o' i ? ? Ho E0 E Hi Hi']; subst; [done|]. apply (Hf o Ho E0). by eapply list_elem_of_lookup_2.
  - intros o o' s Ho E0 E [i Hi]%list_elem_of_lookup_1 Hs. destruct (Hco o o' i s Ho E0 E Hi) as (t & Ht & Hc).
    destruct (ti_target _ _ _ _ HI t s Hc) as [<- |En]; [by eapply list_elem_of_lookup_2|rewrite En in Hs; by destruct Hs].
Qed.

End inv.
