(* ===== verification/TracingTheorems.v ===== *)
(** * Tracing preserves the object graph

    For any plan that keeps the promises of [TraceLaws]: every schedule of the workers ends,
    and when no packet is left the objects reached from the roots are visited, each one in one
    place, with references to the places of the others. *)

From stdpp Require Import gmap.
From S2P Require Import Prelude Tracing TracingInv.

(** The slots of buffers. *)
Definition slots_in (next : list Z) (flushed : list packet) (s : Z) : Prop := s ∈ next ∨ ∃ pk, pk ∈ flushed ∧ s ∈ pe_slots pk.

(** Steps that a packet still takes: its slots are processed twice. *)
Definition packet_cost (pk : packet) : nat := 2 * length (pe_slots pk) + 2.
Definition running_cost (r : running) : nat := length (ru_todo r) + 4 * length (ru_next r) + 1.

Lemma BUFFER_SIZE_pos buf : 0 < BUFFER_SIZE buf.
Proof. unfold BUFFER_SIZE. by repeat case_match. Qed.

Lemma slots_in_push next flushed x s : slots_in (next ++ [x]) flushed s ↔ s = x ∨ slots_in next flushed s.
Proof. unfold slots_in. rewrite elem_of_app, list_elem_of_singleton. naive_solver. Qed.
Lemma slots_in_flush next flushed s : slots_in [] (flushed ++ [new_packet next]) s ↔ slots_in next flushed s.
Proof.
  unfold slots_in. rewrite elem_of_nil. split.
  - intros [[]|(pk & [?| ->%list_elem_of_singleton]%elem_of_app & ?)]; [right; by exists pk|by left].
  - intros [?|(pk & ? & ?)]; right; [exists (new_packet next)|exists pk]; (split; [|done]); apply elem_of_app; [right; by apply list_elem_of_singleton|by left].
Qed.

Lemma slots_in_none next s : slots_in next [] s ↔ s ∈ next.
Proof. unfold slots_in. split; [|by left]. by intros [?|(pk & []%elem_of_nil & _)]. Qed.

(** Exactly the slots that hold something are added. *)
Lemma enqueue_slots_spec buf h slots next flushed next' flushed' :
  enqueue_slots buf h slots next flushed = (next', flushed') →
  (∀ s, slots_in next' flushed' s ↔ slots_in next flushed s ∨ (s ∈ slots ∧ is_Some (slot_load h s))) ∧
  (4 * length next' + sum_list_with packet_cost flushed' ≤ 4 * length next + sum_list_with packet_cost flushed + 4 * length slots)%nat.
Proof.
  revert next flushed. induction slots as [|x slots IH]; intros next flushed E; cbn [enqueue_slots] in E.
  { injection E as -> ->. split; [|cbn; lia]. intros s. rewrite elem_of_nil. tauto. }
  pose proof (BUFFER_SIZE_pos buf). destruct (slot_load h x) as [o|] eqn:El.
  - case_match eqn:Eb; apply IH in E as [E1 E2].
    + rewrite sum_list_with_app in E2. cbn [sum_list_with] in E2. unfold packet_cost at 3 in E2. cbn [pe_slots new_packet] in E2.
      rewrite length_app in *. cbn [length] in *. split; [|lia]. intros s. rewrite E1, slots_in_flush, slots_in_push, elem_of_cons.
      split; [|naive_solver]. intros [[-> |?]|[? ?]]; [right; rewrite El; by eauto|by left|right; by auto].
    + rewrite length_app in *. cbn [length] in *. split; [|lia]. intros s. rewrite E1, slots_in_push, elem_of_cons.
      split; [|naive_solver]. intros [[-> |?]|[? ?]]; [right; rewrite El; by eauto|by left|right; by auto].
  - apply IH in E as [E1 E2]. split; [|cbn [length]; lia]. intros s. rewrite E1, elem_of_cons. split; [naive_solver|].
    intros [?|[[-> |?] Hs]]; [by left|rewrite El in Hs; by destruct Hs|right; done].
Qed.

Section closure.
Context {P : Type} `{TL : TraceLaws P}.
Context (buf : buffer_features) (ix : bool) (is_defrag_source : P → Z → bool).
Context (h0 : heap) (p0 : P) (pool0 : list packet).
Definition root_slots : list Z := pool0 ≫= pe_slots.
Context (G : graph_ok h0 p0 root_slots).
Abbreviation inv := (inv h0 p0 root_slots).
Abbreviation reach := (reach h0 p0 root_slots).
Abbreviation corr := (corr h0 p0 root_slots).
Abbreviation unvisited_cost := (unvisited_cost h0 (λ n, 4 * n)%nat).
Abbreviation preserved := (preserved h0 p0 root_slots).

(** ** One slot *)

(** What processing slot [s] guarantees, with [new] the slots it adds. *)
Definition processed (s : Z) (gone : bool) (p : P) (next : list Z) (Pd K : Z → Prop) (m : res (heap * P * list Z * list packet)) : Prop :=
  ∃ h' p' next' flushed (new : Z → Prop), m = Val (h', p', next', flushed) ∧
    (∀ x, slots_in next' flushed x ↔ x ∈ next ∨ new x) ∧
    inv h' p' (λ x, (Pd x ∧ (gone = true → x ≠ s)) ∨ new x) (λ x, K x ∨ new x) ∧
    (unvisited_cost p' + 4 * length next' + sum_list_with packet_cost flushed ≤ unvisited_cost p + 4 * length next)%nat.

Lemma processed_none s gone p h' next Pd K :
  inv h' p (λ x, Pd x ∧ (gone = true → x ≠ s)) K → processed s gone p next Pd K (Val (h', p, next, [])).
Proof.
  intros HI. exists h', p, next, [], (λ _, False). split; [done|]. split; [intros x; rewrite slots_in_none; tauto|]. split; [|cbn; lia].
  eapply inv_weaken; [exact HI|naive_solver..].
Qed.

Lemma processed_gone s gone p h' next Pd K :
  inv h' p (λ x, Pd x ∧ x ≠ s) K → processed s gone p next Pd K (Val (h', p, next, [])).
Proof. intros HI. apply processed_none. eapply inv_weaken; [exact HI|naive_solver..]. Qed.

Lemma process_object_inv s object h p next (Pd K : Z → Prop) :
  inv h p Pd K → K s → slot_load h s = Some object → processed s true p next Pd K (process_object buf s object h p next).
Proof.
  intros HI Hk El. destruct (trace_slot _ _ _ G _ _ _ _ _ _ HI Hk El) as (h1 & p1 & o' & queued & [_ Ec HI1 Hcost _ _ _]). unfold process_object. rewrite Ec. cbn [mbind res_bind].
  specialize (Hcost (λ n, 4 * n)%nat). fold (updated h1 s object o'). destruct queued as [o|]; cbn [scanned queued_slots from_option] in *.
  - destruct (enqueue_slots buf h1 (fields h1 o) next []) as [next' flushed] eqn:Een. apply enqueue_slots_spec in Een as [Hin Hc].
    eexists _, _, next', flushed, (λ x, x ∈ fields h1 o ∧ is_Some (slot_load h1 x)). split; [reflexivity|]. split; [intros x; by rewrite Hin, slots_in_none|].
    split; [|cbn in Hc; lia]. eapply inv_weaken; [exact HI1|naive_solver..].
  - eexists _, _, next, [], (λ _, False). split; [reflexivity|]. split; [intros x; rewrite slots_in_none; tauto|]. split; [|cbn [sum_list_with]; lia].
    eapply inv_weaken; [exact HI1|naive_solver..].
Qed.

Lemma process_slot_inv weak s h p next (Pd K : Z → Prop) :
  inv h p Pd K → K s → processed s (negb weak) p next Pd K (process_slot buf ix is_defrag_source weak s h p next).
Proof.
  intros HI Hk. unfold process_slot. destruct (slot_load h s) as [object|] eqn:El; [|by eapply processed_gone, empty_slot]. case_match eqn:Esk.
  { destruct weak; [|by rewrite andb_false_r in Esk]. apply processed_none. eapply inv_weaken; [exact HI|naive_solver..]. }
  destruct (process_object_inv s object h p next _ _ HI Hk El) as (h' & p' & next' & fl & new & E & E1 & E2 & E3).
  exists h', p', next', fl, new. split_and!; try done. eapply inv_weaken; [exact E2|naive_solver|done].
Qed.

(** ** Schedules *)

(** The slots that a packet will process as strong roots, and all its slots. *)
Definition waiting (r : running) : list Z := omap (λ '(w, s), if w : bool then None else Some s) (ru_todo r) ++ ru_next r.
Definition run_slots (r : running) : list Z := (ru_todo r).*2 ++ ru_next r.
Definition pending (pool : list packet) (run : list running) (s : Z) : Prop := s ∈ (pool ≫= pe_slots) ∨ s ∈ (run ≫= waiting).
Definition in_packets (pool : list packet) (run : list running) (s : Z) : Prop := s ∈ (pool ≫= pe_slots) ∨ s ∈ (run ≫= run_slots).
Definition state_inv (st : trace_state) : Prop :=
  inv (ts_heap st) (ts_plan st) (pending (ts_pool st) (ts_running st)) (in_packets (ts_pool st) (ts_running st)).
Definition cost (st : trace_state) : nat :=
  unvisited_cost (ts_plan st) + sum_list_with packet_cost (ts_pool st) + sum_list_with running_cost (ts_running st).

Lemma omap_pair (w : bool) (l : list Z) : omap (λ '(w, s), if w : bool then None else Some s) (pair w <$> l) = if w then [] else l.
Proof. induction l as [|s l IH]; [by destruct w|]. destruct w; cbn in *; [done|by rewrite IH]. Qed.
Lemma snd_pair (w : bool) (l : list Z) : (pair w <$> l).*2 = l.
Proof. rewrite <-list_fmap_compose. by apply list_fmap_id. Qed.
Lemma slots_in_elem next flushed s : slots_in next flushed s ↔ s ∈ next ∨ s ∈ (flushed ≫= pe_slots).
Proof. unfold slots_in. rewrite list_elem_of_bind. naive_solver. Qed.

Lemma step_inv st st' : trace_step buf ix is_defrag_source st st' → state_inv st → state_inv st' ∧ (cost st' < cost st)%nat.
Proof.
  intros Hst HI. destruct Hst as [h p pool1 pk pool2 run|h p pool run1 weak s todo next run2 h' p' next' flushed E|h p pool run1 s next run2|h p pool run1 run2];
    unfold state_inv, cost in *; cbn [ts_heap ts_plan ts_pool ts_running] in *.
  - assert (waiting (start_packet pk) = (if pe_roots pk && bool_decide (pe_root_kind pk = Some Weak) then [] else pe_slots pk) ++ pe_slots pk) as Ew
      by (unfold waiting, start_packet; cbn [ru_todo ru_next]; by rewrite omap_app, !omap_pair, app_nil_r).
    assert (run_slots (start_packet pk) = pe_slots pk ++ pe_slots pk) as Er
      by (unfold run_slots, start_packet; cbn [ru_todo ru_next]; by rewrite fmap_app, !snd_pair, app_nil_r).
    split.
    + eapply inv_weaken; [exact HI| |]; intros x; unfold pending, in_packets; rewrite !bind_cons, ?Ew, ?Er, !bind_app, !elem_of_app, !bind_cons, !elem_of_app; tauto.
    + rewrite !sum_list_with_app. cbn [sum_list_with]. unfold start_packet, running_cost, packet_cost. cbn [ru_todo ru_next].
      rewrite length_app, !length_fmap. cbn [length]. lia.
  - destruct (process_slot_inv weak s h p next _ _ HI) as (h1 & p1 & next1 & fl1 & new & E1 & Hin & HI1 & Hc).
    { right. rewrite bind_app, elem_of_app, bind_cons, elem_of_app. right. left. by left. }
    rewrite E in E1. injection E1 as <- <- <- <-. setoid_rewrite slots_in_elem in Hin. split.
    + eapply inv_weaken; [exact HI1| |]; intros x; unfold pending, in_packets; specialize (Hin x);
        rewrite !bind_app, !elem_of_app, !bind_cons, !elem_of_app; unfold waiting, run_slots; cbn [ru_todo ru_next]; rewrite !elem_of_app.
      * destruct weak; cbn [omap list_omap negb]; rewrite ?elem_of_cons; tauto.
      * rewrite fmap_cons, elem_of_cons. tauto.
    + rewrite !sum_list_with_app. cbn [sum_list_with]. unfold running_cost. cbn [ru_todo ru_next length]. lia.
  - split.
    + eapply inv_weaken; [exact HI| |]; intros x; unfold pending, in_packets;
        rewrite !bind_app, !elem_of_app, !bind_cons, !elem_of_app; unfold waiting, run_slots; cbn [ru_todo ru_next];
        rewrite ?omap_pair, ?snd_pair, !elem_of_app; cbn [omap list_omap fmap list_fmap]; rewrite ?elem_of_nil; tauto.
    + rewrite !sum_list_with_app. cbn [sum_list_with]. unfold running_cost. cbn [ru_todo ru_next]. rewrite length_fmap. cbn [length]. lia.
  - split.
    + eapply inv_weaken; [exact HI| |]; intros x; unfold pending, in_packets;
        rewrite !bind_app, !elem_of_app, !bind_cons, !elem_of_app; unfold waiting, run_slots; cbn [ru_todo ru_next omap list_omap fmap list_fmap app]; rewrite ?elem_of_nil; tauto.
    + rewrite !sum_list_with_app. cbn [sum_list_with]. unfold running_cost. cbn [ru_todo ru_next length]. lia.
Qed.

(** A worker always has something to do while packets are left. *)
Lemma step_exists st : state_inv st → drained st ∨ ∃ st', trace_step buf ix is_defrag_source st st'.
Proof.
  intros HI. destruct st as [h p [|pk pool] [|[[|[weak s] todo] [|s' next]] run]]; try by left.
  all: right; try by eexists; apply (step_start _ _ _ _ _ [] pk pool).
  - eexists. apply (step_finish _ _ _ _ _ _ []).
  - eexists. apply (step_swap _ _ _ _ _ _ []).
  - destruct (process_slot_inv weak s h p [] _ _ HI) as (h' & p' & next' & fl & _ & E & _); [right; by left|]. eexists. by apply (step_slot _ _ _ _ _ _ []).
  - destruct (process_slot_inv weak s h p (s' :: next) _ _ HI) as (h' & p' & next' & fl & _ & E & _); [right; by left|]. eexists. by apply (step_slot _ _ _ _ _ _ []).
Qed.

Definition start : trace_state := {| ts_heap := h0; ts_plan := p0; ts_pool := pool0; ts_running := [] |}.
Lemma start_inv : tr_inv h0 p0 → state_inv start.
Proof.
  intros Hp. unfold state_inv, start. cbn [ts_heap ts_plan ts_pool ts_running].
  eapply inv_weaken; [by apply (inv_start _ _ _ G)| |]; intros s; unfold pending, in_packets; [by left|]. by intros [?|?%elem_of_nil].
Qed.

(** ** The end *)

Lemma drained_preserved st : state_inv st → drained st → preserved (ts_heap st) (ts_plan st).
Proof.
  destruct st as [h p pool run]. intros HI [Hp Hr]. cbn [ts_heap ts_plan ts_pool ts_running] in *. subst pool run. eapply (inv_preserved _ _ _ G), inv_weaken; [exact HI| |done].
  cbn [ts_pool ts_running]. by intros s [Hx|Hx]; apply elem_of_nil in Hx.
Qed.

(** One worker alone. *)
Lemma run_packet_total fuel r h p pool :
  let st := {| ts_heap := h; ts_plan := p; ts_pool := pool; ts_running := [r] |} in
  state_inv st → (cost st ≤ fuel)%nat →
  ∃ h' p' pool', run_packet buf ix is_defrag_source fuel r h p pool = Val (h', p', pool') ∧
    let st' := {| ts_heap := h'; ts_plan := p'; ts_pool := pool'; ts_running := [] |} in state_inv st' ∧ (cost st' < cost st)%nat.
Proof.
  cbv zeta. revert r h p pool. induction fuel as [|fuel IH]; intros r h p pool HI Hc.
  { unfold cost in Hc. cbn [ts_running sum_list_with] in Hc. unfold running_cost in Hc. lia. }
  destruct r as [[|[weak s] todo] [|s' next]]; cbn [run_packet ru_todo ru_next].
  - exists h, p, pool. split; [done|]. by apply (step_inv _ _ (step_finish _ _ _ _ _ _ [] [])).
  - destruct (step_inv _ _ (step_swap buf ix is_defrag_source h p pool [] s' next []) HI) as [HI1 Hc1]. cbn [app] in *.
    destruct (IH _ h p pool HI1) as (h' & p' & pool' & E & HI' & Hc'); [lia|]. exists h', p', pool'. split; [done|]. split; [done|lia].
  - destruct (process_slot_inv weak s h p [] _ _ HI) as (h1 & p1 & next1 & fl & _ & E & _); [right; by left|]. rewrite E. cbn [mbind res_bind].
    destruct (step_inv _ _ (step_slot _ _ _ _ _ _ [] _ _ todo _ [] _ _ _ _ E) HI) as [HI1 Hc1]. cbn [app] in *.
    destruct (IH _ h1 p1 (pool ++ fl) HI1) as (h' & p' & pool' & E' & HI' & Hc'); [lia|]. exists h', p', pool'. split; [done|]. split; [done|lia].
  - destruct (process_slot_inv weak s h p (s' :: next) _ _ HI) as (h1 & p1 & next1 & fl & _ & E & _); [right; by left|]. rewrite E. cbn [mbind res_bind].
    destruct (step_inv _ _ (step_slot _ _ _ _ _ _ [] _ _ todo _ [] _ _ _ _ E) HI) as [HI1 Hc1]. cbn [app] in *.
    destruct (IH _ h1 p1 (pool ++ fl) HI1) as (h' & p' & pool' & E' & HI' & Hc'); [lia|]. exists h', p', pool'. split; [done|]. split; [done|lia].
Qed.
Lemma run_pool_total fuel h p pool :
  let st := {| ts_heap := h; ts_plan := p; ts_pool := pool; ts_running := [] |} in
  state_inv st → (cost st ≤ fuel)%nat → ∃ h' p', run_pool buf ix is_defrag_source fuel h p pool = Val (h', p') ∧ preserved h' p'.
Proof.
  cbv zeta. revert h p pool. induction fuel as [|fuel IH]; intros h p [|pk pool] HI Hc; cbn [run_pool].
  1,3: exists h, p; split; [done|]; by apply (drained_preserved _ HI).
  { unfold cost in Hc. cbn [ts_pool sum_list_with] in Hc. unfold packet_cost in Hc. lia. }
  destruct (step_inv _ _ (step_start _ _ _ h p [] pk pool []) HI) as [HI1 Hc1]. cbn [app] in *.
  destruct (run_packet_total fuel _ _ _ _ HI1) as (h' & p' & pool' & -> & HI' & Hc'); [lia|]. cbn [mbind res_bind]. apply IH; [done|lia].
Qed.

Lemma preserved_graph (n : nat) (st : trace_state) :
  tr_inv h0 p0 → nsteps (trace_step buf ix is_defrag_source) n start st →
  (n ≤ cost start)%nat ∧ (drained st ∨ ∃ st', trace_step buf ix is_defrag_source st st') ∧ (drained st → preserved (ts_heap st) (ts_plan st)).
Proof.
  intros Hp Hn. assert (state_inv st ∧ (n + cost st ≤ cost start)%nat) as [HI Hc].
  { revert st Hn. induction n as [|n IH]; intros st Hn; [inversion Hn; subst; split; [by apply start_inv|lia]|].
    apply nsteps_inv_r in Hn as (st1 & Hn & Hst). destruct (IH st1 Hn) as [HI1 Hc1].
    destruct (step_inv _ _ Hst HI1). split; [done|lia]. }
  split; [lia|]. split; [by apply step_exists|]. by apply drained_preserved.
Qed.

(** C4: tracing preserves the object graph.  For a plan that keeps its promises and any number
    of workers, no schedule of the packets takes more than [cost start] steps or gets stuck,
    and when the packets are gone every object reached from the roots has been visited, none
    other has, no two of them are in one place, and the roots and the slots of visited objects
    refer to the new places of what they referred to. *)
Theorem tracing_preserves_graph (n : nat) (st : trace_state) :
  tr_inv h0 p0 → nsteps (trace_step buf ix is_defrag_source) n start st →
  (n ≤ cost start)%nat ∧ (drained st ∨ ∃ st', trace_step buf ix is_defrag_source st st') ∧ (drained st → preserved (ts_heap st) (ts_plan st)).
Proof. apply preserved_graph. Qed.
End closure.

(** ** Whole heaps *)

(** What the roots lead to, whatever the plan. *)
Inductive reachable (h : heap) (roots : list Z) : Z → Prop :=
| reachable_root s o : s ∈ roots → slot_load h s = Some o → reachable h roots o
| reachable_field o s o' : reachable h roots o → s ∈ fields h o → slot_load h s = Some o' → reachable h roots o'.

Record heap_ok (h : heap) (roots : list Z) : Prop := {
  ho_roots s : s ∈ roots → is_Some (h_slots h !! s);
  ho_objects o : reachable h roots o → is_Some (h_fields h !! o);
  ho_fields o s : reachable h roots o → s ∈ fields h o → is_Some (h_slots h !! s) ∧ s ∉ roots;
  ho_nodup o : reachable h roots o → NoDup (fields h o);
  ho_disjoint o1 o2 s : reachable h roots o1 → reachable h roots o2 → s ∈ fields h o1 → s ∈ fields h o2 → o1 = o2
}.

(** A placement of the reachable objects that keeps their references. *)
Lemma image_reachable h h' roots (place : Z → option Z) :
  (∀ s, s ∈ roots → slot_load h' s = slot_load h s ≫= place) →
  (∀ o, reachable h roots o → ∃ o', place o = Some o' ∧ Forall2 (λ s s', slot_load h' s' = slot_load h s ≫= place) (fields h o) (fields h' o')) →
  ∀ x, reachable h' roots x ↔ ∃ o, reachable h roots o ∧ place o = Some x.
Proof.
  intros Hroot Hpl x. split.
  - induction 1 as [s x Hs Hx|x s y _ (o & Ho & E) Hs Hx].
    + rewrite Hroot in Hx by done. destruct (slot_load h s) as [o|] eqn:Eo; [|done]. exists o. split; [by econstructor|done].
    + destruct (Hpl o Ho) as (x' & E' & HF). assert (x' = x) as -> by congruence. apply list_elem_of_lookup_1 in Hs as [i Hi].
      destruct (Forall2_lookup_r _ _ _ _ _ HF Hi) as (t & Ht & Hd). rewrite Hx in Hd. symmetry in Hd. destruct (slot_load h t) as [o2|] eqn:Eo; [|done].
      exists o2. split; [|done]. eapply reachable_field; [done| |done]. by eapply list_elem_of_lookup_2.
  - intros (o & Ho & E). revert x E. induction Ho as [s o Hs Ho|o s o2 Ho IH Hs Hx]; intros x E.
    + eapply reachable_root; [done|]. rewrite Hroot by done. by rewrite Ho.
    + destruct (Hpl o Ho) as (y & Ey & HF). apply list_elem_of_lookup_1 in Hs as [i Hi]. destruct (Forall2_lookup_l _ _ _ _ _ HF Hi) as (t & Ht & Hd).
      eapply (reachable_field _ _ y t); [by apply IH|by eapply list_elem_of_lookup_2|]. by rewrite Hd, Hx.
Qed.

Section whole.
Context {P : Type} `{TL : TraceLaws P}.

Lemma slot_done_load h0 h (p : P) s s' : slot_done h0 h p s s' → slot_load h s' = slot_load h0 s ≫= fw p.
Proof. unfold slot_done. destruct (slot_load h0 s) as [v|]; [|done]. intros (v' & E1 & E2). cbn in *. by rewrite E1, E2. Qed.

Lemma heap_graph h p roots :
  heap_ok h roots → (∀ o, reachable h roots o → fw p o = None) → (∀ o o', is_Some (h_fields h !! o) → fw p o = Some o' → o' = o) →
  graph_ok h p roots ∧ ∀ o, reach h p roots o ↔ reachable h roots o.
Proof.
  intros HO Hn Hf. assert (∀ o, reach h p roots o ↔ reachable h roots o) as Hr.
  { intros o. split; (induction 1; [by econstructor|]); [by econstructor|]. eapply reach_field; try done. by apply Hn. }
  split; [|done]. split; try done.
  - apply HO.
  - intros o Ho%Hr. by apply HO.
  - intros o s Ho%Hr _ Hs. by destruct (ho_fields _ _ HO o s Ho Hs).
  - intros o Ho%Hr _. by apply HO.
  - intros o1 o2 s H1%Hr H2%Hr _ _. by apply (ho_disjoint _ _ HO).
Qed.

(** The heap after the trace, with the objects that are kept. *)
Lemma heap_preserved h0 p0 roots h p (kept : Z → Prop) `{!∀ o, Decision (kept o)} :
  heap_ok h0 roots → (∀ o, reachable h0 roots o → fw p0 o = None) →
  (∀ o, reach h0 p0 roots o ↔ reachable h0 roots o) → preserved h0 p0 roots h p →
  (∀ o o', reachable h0 roots o → fw p o = Some o' → kept o') →
  let h' := {| h_slots := h_slots h; h_fields := filter (λ x, kept x.1) (h_fields h) |} in
  heap_ok h' roots ∧ ∀ o', reachable h' roots o' ↔ ∃ o, reachable h0 roots o ∧ fw p o = Some o'.
Proof.
  intros HO Hn Hr HP Hk h'.
  assert (∀ o o', reachable h0 roots o → fw p o = Some o' → fields h' o' = fields h o' ∧ is_Some (h_fields h' !! o')) as Hfields.
  { intros o o' Ho E. destruct (pr_objects _ _ _ _ _ HP o o' (proj2 (Hr o) Ho) E) as [fs Efs]. assert (h_fields h' !! o' = Some fs) as E'.
    { cbn [h' h_fields]. apply map_lookup_filter_Some. split; [done|]. by apply (Hk o). }
    unfold fields. by rewrite E', Efs. }
  assert (∀ o o', reachable h0 roots o → fw p o = Some o' → Forall2 (slot_done h0 h p) (fields h0 o) (fields h' o')) as Hdone.
  { intros o o' Ho E. rewrite (proj1 (Hfields o o' Ho E)). apply (pr_fields _ _ _ _ _ HP); [by apply Hr|by apply Hn|done]. }
  assert (∀ o', reachable h' roots o' ↔ ∃ o, reachable h0 roots o ∧ fw p o = Some o') as Himg.
  { apply image_reachable.
    - intros s Hs. destruct (pr_roots _ _ _ _ _ HP s Hs) as [_ Hd]. by apply slot_done_load in Hd.
    - intros o Ho. destruct (pr_visited _ _ _ _ _ HP o (proj2 (Hr o) Ho)) as [x Ex]. exists x. split; [done|]. eapply Forall2_impl; [by apply Hdone|].
      intros s s' Hd. by apply slot_done_load in Hd. }
  assert (∀ s, slot_load h' s = slot_load h s) as Hl by done.
  split; [|done]. split.
  - intros s Hs. by destruct (pr_roots _ _ _ _ _ HP s Hs).
  - intros x (o & Ho & E)%Himg. by apply (Hfields o).
  - intros x s (o & Ho & E)%Himg [i Hi]%list_elem_of_lookup_1. rewrite (proj1 (Hfields o x Ho E)) in Hi.
    destruct (pr_slots _ _ _ _ _ HP o x i s) as [Hs Hf]; try done; [by apply Hr|by apply Hn|]. split; [done|].
    intros Hx. by destruct (ho_fields _ _ HO o s Ho (Hf Hx)).
  - intros x (o & Ho & E)%Himg. rewrite (proj1 (Hfields o x Ho E)). apply NoDup_alt. intros i j s Hi Hj.
    eapply (pr_own _ _ _ _ _ HP o o x x); try done; try (by apply Hr); by apply Hn.
  - intros x y s (o1 & H1 & E1)%Himg (o2 & H2 & E2)%Himg [i Hi]%list_elem_of_lookup_1 [j Hj]%list_elem_of_lookup_1.
    rewrite (proj1 (Hfields o1 x H1 E1)) in Hi. rewrite (proj1 (Hfields o2 y H2 E2)) in Hj.
    destruct (pr_own _ _ _ _ _ HP o1 o2 x y i j s) as [<- _]; try done; try (by apply Hr); try (by apply Hn). congruence.
Qed.
End whole.
