(* ===== verification/ScanTracing.v ===== *)
(** * Tracing by scanning objects
    ([ProcessEdgesWork], [ScanObjectsWork] of src/src/scheduler/gc_work.rs, [ObjectsClosure] of
    src/src/plan/tracing.rs, the packets of src/src/plan/generational/gc_work.rs)

    A packet processes slots and queues the objects that it visits first; then it scans them,
    and their slots become new packets.  The packets of a remembered set unlog the recorded
    objects and scan them, or process recorded slices.  The binding supports slot enqueuing for
    every object, the default of [Scanning::support_slot_enqueuing]. *)

From stdpp Require Import gmap.
From S2P Require Import Prelude Tracing TracingInv.

(** ** Packets *)

Inductive gc_packet : Type :=
| ProcessEdges (slots : list Z)
| ProcessModBuf (modbuf : list Z)
| ProcessRegionModBuf (modbuf : list (list Z)).

(** A packet that a worker runs: in [process_slots], with the slots to process and the objects
    queued; in the loop that unlogs the objects of [modbuf]; in [do_work_common], with the
    objects to scan and the buffer of the closure, for [PlanScanObjects] or [ScanObjects]. *)
Inductive gc_running : Type :=
| RSlots (slots nodes : list Z)
| RUnlog (todo modbuf : list Z)
| RScan (plan_scan : bool) (objects buffer : list Z).

(** What a generational plan adds. *)
Class GenTrace (P : Type) : Type := {
  is_current_gc_nursery : P → bool;
  is_object_in_nursery : P → Z → bool;
  (** The unlog bit of an object is set. *)
  unlog : P → Z → P
}.

Section scanning.
Context {P : Type} `{PlanTrace P} `{GenTrace P}.
Context (buf : buffer_features).

(** ** [ObjectsClosure] *)

Definition closure_flush (buffer : list Z) : list gc_packet := if bool_decide (buffer = []) then [] else [ProcessEdges buffer].
Fixpoint visit_slots (slots buffer : list Z) (flushed : list gc_packet) : list Z * list gc_packet :=
  match slots with
  | [] => (buffer, flushed)
  | s :: slots =>
    let buffer := buffer ++ [s] in
    if BUFFER_SIZE buf <=? Z.of_nat (length buffer)
    then visit_slots slots [] (flushed ++ closure_flush buffer)
    else visit_slots slots buffer flushed
  end.

(** ** [GenNurseryProcessEdges::process_slot] *)

Definition gen_process_slot (s : Z) (h : heap) (p : P) (nodes : list Z) : res (heap * P * list Z) :=
  match slot_load h s with
  | None => Val (h, p, nodes)
  | Some object =>
    '(h, p, new_object, queued) ← trace_object h p object;
    _ ← rust_assert (negb (is_object_in_nursery p new_object));
    let h := if negb (new_object =? object) then slot_store h s new_object else h in
    Val (h, p, nodes ++ option_list queued)
  end.

(** ** [do_work] *)

(** The remembered sets are of use in nursery collections only. *)
Definition gc_start (p : P) (pk : gc_packet) : gc_running :=
  match pk with
  | ProcessEdges slots => RSlots slots []
  | ProcessModBuf modbuf => if is_current_gc_nursery p then RUnlog modbuf modbuf else RSlots [] []
  | ProcessRegionModBuf modbuf => if is_current_gc_nursery p then RSlots (concat modbuf) [] else RSlots [] []
  end.
(** One slot is processed, one object unlogged or scanned; at the end the closure is dropped.
    The objects that were queued are scanned at once. *)
Definition run_step (h : heap) (p : P) (r : gc_running) : res (heap * P * option gc_running * list gc_packet) :=
  match r with
  | RSlots (s :: slots) nodes => '(h, p, nodes) ← gen_process_slot s h p nodes; Val (h, p, Some (RSlots slots nodes), [])
  | RSlots [] nodes => Val (h, p, if bool_decide (nodes = []) then None else Some (RScan true nodes []), [])
  | RUnlog (o :: todo) modbuf =>
    _ ← rust_assert (negb (is_object_in_nursery p o));
    Val (h, unlog p o, Some (RUnlog todo modbuf), [])
  | RUnlog [] modbuf => Val (h, p, Some (RScan false modbuf []), [])
  | RScan plan_scan (o :: objects) buffer =>
    let '(buffer, flushed) := visit_slots (fields h o) buffer [] in
    Val (h, (if plan_scan then post_scan_object p o else p), Some (RScan plan_scan objects buffer), flushed)
  | RScan _ [] buffer => Val (h, p, None, closure_flush buffer)
  end.

(** ** One worker and several *)

Fixpoint gc_pool (fuel : nat) (cur : option gc_running) (h : heap) (p : P) (pool : list gc_packet) : res (heap * P) :=
  match cur, pool with
  | None, [] => Val (h, p)
  | None, pk :: pool => match fuel with O => NoFuel | S fuel => gc_pool fuel (Some (gc_start p pk)) h p pool end
  | Some r, _ =>
    match fuel with
    | O => NoFuel
    | S fuel => '(h, p, cur, flushed) ← run_step h p r; gc_pool fuel cur h p (pool ++ flushed)
    end
  end.

Record gc_state : Type := { gs_heap : heap; gs_plan : P; gs_pool : list gc_packet; gs_running : list gc_running }.

Inductive gc_step : gc_state → gc_state → Prop :=
| gstep_start h p pool1 pk pool2 run :
    gc_step {| gs_heap := h; gs_plan := p; gs_pool := pool1 ++ pk :: pool2; gs_running := run |}
            {| gs_heap := h; gs_plan := p; gs_pool := pool1 ++ pool2; gs_running := gc_start p pk :: run |}
| gstep_run h p pool run1 r run2 h' p' r' flushed :
    run_step h p r = Val (h', p', r', flushed) →
    gc_step {| gs_heap := h; gs_plan := p; gs_pool := pool; gs_running := run1 ++ r :: run2 |}
            {| gs_heap := h'; gs_plan := p'; gs_pool := pool ++ flushed; gs_running := run1 ++ option_list r' ++ run2 |}.

Definition gc_drained (st : gc_state) : Prop := gs_pool st = [] ∧ gs_running st = [].
End scanning.

(** ** What a generational plan promises *)

Class GenLaws (P : Type) `{TraceLaws P} `{GenTrace P} : Type := {
  (** The objects that are not logged. *)
  unlogged : P → Z → Prop;
  gl_nursery h p : tr_inv h p → is_current_gc_nursery p = true;
  gl_moves : may_move_objects = true;
  gl_scan p o : post_scan_object p o = p;
  gl_placed h p o : tr_inv h p → is_Some (h_fields h !! o) → fw p o = Some o → is_object_in_nursery p o = false;
  gl_unlog h p o : tr_inv h p → fw p o = Some o → tr_inv h (unlog p o) ∧ (∀ x, fw (unlog p o) x = fw p x) ∧ ∀ x, x = o ∨ unlogged p x → unlogged (unlog p o) x;
  gl_trace h p o h' p' o' queued x : tr_inv h p → is_Some (h_fields h !! o) → trace_object h p o = Val (h', p', o', queued) →
    is_Some (h_fields h !! x) → unlogged p x → unlogged p' x
}.
