(* ===== verification/ScanTheorems.v ===== *)
(** * Tracing by scanning preserves the object graph

    The roots are the slots of the packets and the slots of the objects and slices in the
    remembered sets. *)

From stdpp Require Import gmap.
From S2P Require Import Prelude Tracing TracingInv TracingTheorems ScanTracing.

(** ** Slots, objects and costs of packets *)

Definition packet_slots (h : heap) (pk : gc_packet) : list Z :=
  match pk with ProcessEdges slots => slots | ProcessModBuf modbuf => modbuf ≫= fields h | ProcessRegionModBuf modbuf => concat modbuf end.
Definition packet_modbuf (pk : gc_packet) : list Z := match pk with ProcessModBuf modbuf => modbuf | _ => [] end.
Definition running_slots (h : heap) (r : gc_running) : list Z :=
  match r with
  | RSlots slots nodes => slots ++ (nodes ≫= fields h)
  | RUnlog _ modbuf => modbuf ≫= fields h
  | RScan _ objects buffer => (objects ≫= fields h) ++ buffer
  end.
Definition running_objects (r : gc_running) : list Z := match r with RSlots _ nodes => nodes | RUnlog _ modbuf => modbuf | RScan _ objects _ => objects end.
Definition running_unlog (r : gc_running) : list Z := match r with RUnlog todo _ => todo | _ => [] end.

(** Scanning an object, and then five steps for each of its slots. *)
Definition slots_cost (n : nat) : nat := 1 + 5 * n.
Definition objects_cost (h : heap) (l : list Z) : nat := sum_list_with (λ o, slots_cost (length (fields h o))) l.
Definition gc_packet_cost (h : heap) (pk : gc_packet) : nat :=
  match pk with
  | ProcessEdges slots => length slots + 3
  | ProcessModBuf modbuf => length modbuf + objects_cost h modbuf + 3
  | ProcessRegionModBuf modbuf => length (concat modbuf) + 3
  end.
Definition gc_running_cost (h : heap) (r : gc_running) : nat :=
  match r with
  | RSlots slots nodes => length slots + objects_cost h nodes + 2
  | RUnlog todo modbuf => length todo + objects_cost h modbuf + 2
  | RScan _ objects buffer => objects_cost h objects + 5 * length buffer + 1
  end.

Lemma bind_empty {A} (f : A → list Z) x : x ∈ ([] ≫= f) ↔ False.
Proof. apply elem_of_nil. Qed.

(** Scanning. *)
Lemma closure_flush_spec h buffer :
  (∀ s, s ∈ (closure_flush buffer ≫= packet_slots h) ↔ s ∈ buffer) ∧ (sum_list_with (gc_packet_cost h) (closure_flush buffer) ≤ 5 * length buffer)%nat ∧
  (∀ pk, pk ∈ closure_flush buffer → packet_modbuf pk = []).
Proof.
  unfold closure_flush. case_bool_decide as E; [subst; split_and!; [done|done|by intros pk ?%elem_of_nil]|]. split_and!.
  - intros s. by rewrite bind_cons, app_nil_r.
  - cbn. destruct buffer; [done|cbn; lia].
  - by intros pk ->%list_elem_of_singleton.
Qed.
Lemma visit_slots_spec buf h slots buffer flushed buffer' flushed' :
  visit_slots buf slots buffer flushed = (buffer', flushed') → (∀ pk, pk ∈ flushed → packet_modbuf pk = []) →
  (∀ s, (s ∈ buffer' ∨ s ∈ (flushed' ≫= packet_slots h)) ↔ (s ∈ buffer ∨ s ∈ (flushed ≫= packet_slots h)) ∨ s ∈ slots) ∧
  (5 * length buffer' + sum_list_with (gc_packet_cost h) flushed' ≤ 5 * length buffer + sum_list_with (gc_packet_cost h) flushed + 5 * length slots)%nat ∧
  (∀ pk, pk ∈ flushed' → packet_modbuf pk = []).
Proof.
  revert buffer flushed. induction slots as [|x slots IH]; intros buffer flushed E Hm; cbn [visit_slots] in E.
  { injection E as -> ->. split_and!; [|cbn; lia|done]. intros s. rewrite elem_of_nil. tauto. }
  destruct (closure_flush_spec h (buffer ++ [x])) as (F1 & F2 & F3). rewrite length_app in F2. cbn [length] in *. case_match eqn:Eb.
  - apply IH in E as (E1 & E2 & E3); [|intros pk [?|?]%elem_of_app; auto]. rewrite sum_list_with_app in E2. cbn [length] in E2. split_and!; [|lia|done].
    intros s. rewrite E1, bind_app, elem_of_app, F1, elem_of_app, elem_of_nil, list_elem_of_singleton, elem_of_cons. tauto.
  - apply IH in E as (E1 & E2 & E3); [|done]. rewrite length_app in E2. cbn [length] in E2. split_and!; [|lia|done].
    intros s. rewrite E1, elem_of_app, list_elem_of_singleton, elem_of_cons. tauto.
Qed.

(** Objects keep their slots. *)
Definition same_fields (h h' : heap) : Prop := ∀ o, is_Some (h_fields h !! o) → h_fields h' !! o = h_fields h !! o.
Lemma same_fields_eq h h' o : same_fields h h' → is_Some (h_fields h !! o) → fields h' o = fields h o.
Proof. intros Hs Ho. unfold fields. by rewrite Hs. Qed.
Lemma fields_bind h h' l : same_fields h h' → (∀ o, o ∈ l → is_Some (h_fields h !! o)) → (l ≫= fields h') = (l ≫= fields h).
Proof.
  intros Hs Hl. induction l as [|o l IH]; [done|]. rewrite !bind_cons, IH by (intros x Hx; apply Hl; by right). f_equal. apply same_fields_eq; [done|]. apply Hl. by left.
Qed.
Lemma objects_cost_same h h' l : same_fields h h' → (∀ o, o ∈ l → is_Some (h_fields h !! o)) → objects_cost h' l = objects_cost h l.
Proof.
  intros Hs Hl. unfold objects_cost. induction l as [|o l IH]; [done|]. cbn [sum_list_with]. rewrite IH by (intros x Hx; apply Hl; by right).
  rewrite (same_fields_eq h h' o Hs); [done|]. apply Hl. by left.
Qed.
Lemma packet_same h h' pk :
  same_fields h h' → (∀ o, o ∈ packet_modbuf pk → is_Some (h_fields h !! o)) → packet_slots h' pk = packet_slots h pk ∧ gc_packet_cost h' pk = gc_packet_cost h pk.
Proof. intros Hs Hl. destruct pk; cbn in *; [done|by rewrite (fields_bind h h'), (objects_cost_same h h')|done]. Qed.
Lemma running_same h h' r :
  same_fields h h' → (∀ o, o ∈ running_objects r → is_Some (h_fields h !! o)) → running_slots h' r = running_slots h r ∧ gc_running_cost h' r = gc_running_cost h r.
Proof. intros Hs Hl. destruct r; cbn in *; by rewrite (fields_bind h h'), (objects_cost_same h h'). Qed.
(** The same of a list. *)
Lemma list_same {A} (slots : heap → A → list Z) (cost : heap → A → nat) (objects : A → list Z) h h' (l : list A) :
  (∀ x, (∀ o, o ∈ objects x → is_Some (h_fields h !! o)) → slots h' x = slots h x ∧ cost h' x = cost h x) →
  (∀ o, o ∈ (l ≫= objects) → is_Some (h_fields h !! o)) → (l ≫= slots h') = (l ≫= slots h) ∧ sum_list_with (cost h') l = sum_list_with (cost h) l.
Proof.
  intros Hx. induction l as [|x l IH]; [done|]. rewrite !bind_cons. intros Hl. cbn [sum_list_with].
  destruct IH as [-> ->]; [intros o Ho; apply Hl, elem_of_app; by right|]. destruct (Hx x) as [-> ->]; [|done]. intros o Ho. apply Hl, elem_of_app. by left.
Qed.

Section closure.
Context {P : Type} `{GL : GenLaws P}.
Context (buf : buffer_features).
Context (h0 : heap) (p0 : P) (pool0 : list gc_packet).
Definition gc_roots : list Z := pool0 ≫= packet_slots h0.
Definition gc_modbuf : list Z := pool0 ≫= packet_modbuf.
Context (G : graph_ok h0 p0 gc_roots).
(** Remembered objects are not collected. *)
Context (Hmod : ∀ o, o ∈ gc_modbuf → is_Some (h_fields h0 !! o) ∧ fw p0 o = Some o).
Abbreviation inv := (inv h0 p0 gc_roots).
Abbreviation unvisited_cost := (unvisited_cost h0 slots_cost).

(** ** One step of a packet *)

(** The slots that wait elsewhere are [W]. *)
Definition run_inv (h : heap) (p : P) (W : Z → Prop) (r : option gc_running) (flushed : list gc_packet) : Prop :=
  let known s := W s ∨ s ∈ (from_option (running_slots h) [] r) ∨ s ∈ (flushed ≫= packet_slots h) in
  inv h p known known ∧ (∀ o, o ∈ (from_option running_objects [] r) → is_Some (h_fields h !! o)) ∧
  (∀ o, o ∈ (from_option running_unlog [] r) → o ∈ gc_modbuf) ∧ ∀ pk, pk ∈ flushed → packet_modbuf pk = [].
Record run_ok (h : heap) (p : P) (W : Z → Prop) (r : gc_running) (h' : heap) (p' : P) (r' : option gc_running) (flushed : list gc_packet) : Prop := {
  rk_call : run_step buf h p r = Val (h', p', r', flushed);
  rk_inv : run_inv h' p' W r' flushed;
  rk_fields : same_fields h h';
  rk_unlogged o : is_Some (h_fields h0 !! o) → unlogged p o → unlogged p' o;
  rk_unlog o : o ∈ running_unlog r → o ∈ (from_option running_unlog [] r') ∨ unlogged p' o;
  rk_cost : (unvisited_cost p' + from_option (gc_running_cost h') 0 r' + sum_list_with (gc_packet_cost h') flushed < unvisited_cost p + gc_running_cost h r)%nat
}.

Lemma run_slot_ok h p W s slots nodes :
  run_inv h p W (Some (RSlots (s :: slots) nodes)) [] → ∃ h' p' r' flushed, run_ok h p W (RSlots (s :: slots) nodes) h' p' r' flushed.
Proof.
  intros (HI & Hob & _ & _). cbn [from_option running_slots running_objects] in HI, Hob.
  destruct (slot_load h s) as [object|] eqn:El.
  - destruct (trace_slot _ _ _ G _ _ _ _ s object HI) as (h1 & p1 & o' & queued & [Hx Ec HI1 Hcost Hf Hq [Hn1 Hn2]]); [right; left; by left|done|].
    assert (scanned p1 queued = p1) as Esc by (destruct queued; [apply gl_scan|done]). rewrite Esc in *. specialize (Hcost slots_cost).
    assert (updated h1 s object o' = if negb (o' =? object) then slot_store h1 s o' else h1) as Eu by (unfold updated; by rewrite gl_moves). rewrite Eu in HI1. set (h2 := if negb _ then _ else h1) in *.
    assert (h_fields h2 = h_fields h1) as Ef2 by (unfold h2; by destruct (negb _)).
    assert (same_fields h h2) as Hsf by (intros o Ho; rewrite Ef2; by apply Hf).
    assert (∀ o, o ∈ nodes ++ option_list queued → is_Some (h_fields h2 !! o)) as Hob2.
    { intros o [Ho|Ho]%elem_of_app; [rewrite Hsf by (by apply Hob); by apply Hob|]. rewrite Ef2. destruct queued as [q|]; [|by apply elem_of_nil in Ho].
      apply list_elem_of_singleton in Ho as ->. by apply Hq. }
    assert (∀ x, x ∈ ((nodes ++ option_list queued) ≫= fields h2) ↔ x ∈ (nodes ≫= fields h) ∨ queued_slots h1 queued x) as Hsl.
    { intros x. rewrite bind_app, elem_of_app, (fields_bind h h2) by done. apply or_iff_compat_l. destruct queued as [q|]; cbn [option_list option_rect queued_slots]; [|by rewrite elem_of_nil].
      rewrite bind_cons, app_nil_r. unfold fields. by rewrite Ef2. }
    exists h2, p1, (Some (RSlots slots (nodes ++ option_list queued))), []. split; [| |done| |by intros o ?%elem_of_nil|].
    + cbn [run_step]. unfold gen_process_slot. rewrite El, Ec. cbn [mbind res_bind].
      rewrite (gl_placed h2 p1 o'); [done|by apply (ti_plan _ _ _ _ _ _ _ HI1)|by rewrite Ef2|done].
    + split_and!; cbn [from_option]; [|done|by intros o ?%elem_of_nil|by intros pk ?%elem_of_nil].
      eapply inv_weaken; [exact HI1| |]; intros x; cbn [running_slots]; rewrite !elem_of_app, Hsl, elem_of_cons, ?elem_of_nil; tauto.
    + intros o Ho Hu. eapply gl_trace; [apply (ti_plan _ _ _ _ _ _ _ HI)|done|done|by eapply ti_dom|done].
    + cbn [from_option sum_list_with gc_running_cost length]. unfold objects_cost at 1. rewrite sum_list_with_app. fold (objects_cost h2 nodes). rewrite (objects_cost_same h h2 nodes) by done.
      destruct queued as [q|]; cbn [option_list option_rect sum_list_with from_option] in *; [|lia]. unfold fields at 1. rewrite Ef2. fold (fields h1 q). lia.
  - exists h, p, (Some (RSlots slots nodes)), []. split; [by cbn [run_step]; unfold gen_process_slot; rewrite El| |done|done|by intros o ?%elem_of_nil|cbn; lia].
    split_and!; cbn [from_option]; [|done|by intros o ?%elem_of_nil|by intros pk ?%elem_of_nil].
    eapply inv_weaken; [apply (empty_slot _ _ _ _ _ _ _ s HI); [right; left; by left|done]| |]; intros x; cbn [running_slots]; rewrite ?elem_of_app, ?elem_of_cons, ?elem_of_nil; tauto.
Qed.

Lemma run_unlog_ok h p W o todo modbuf :
  run_inv h p W (Some (RUnlog (o :: todo) modbuf)) [] → ∃ h' p' r' flushed, run_ok h p W (RUnlog (o :: todo) modbuf) h' p' r' flushed.
Proof.
  intros (HI & Hob & Hun & _). cbn [from_option running_slots running_objects running_unlog] in HI, Hob, Hun.
  destruct (Hmod o (Hun o ltac:(by left))) as [Ho E0]. pose proof (ti_mono _ _ _ _ _ _ _ HI o o Ho E0) as Eo. pose proof (ti_plan _ _ _ _ _ _ _ HI) as Hp.
  destruct (gl_unlog h p o Hp Eo) as (Hp' & Hfw & Hu). exists h, (unlog p o), (Some (RUnlog todo modbuf)), []. split; try done.
  - cbn [run_step]. rewrite (gl_placed h p o Hp); [done|by eapply ti_dom|done].
  - split_and!; cbn [from_option running_objects running_unlog]; [|done| |by intros pk ?%elem_of_nil]; [|intros x Hx; apply Hun; by right].
    eapply inv_plan; [|done|done]. eapply inv_weaken; [exact HI|done..].
  - intros x _ Hx. apply Hu. by right.
  - intros x [-> |Hx]%elem_of_cons; [right; apply Hu; by left|by left].
  - cbn [from_option gc_running_cost sum_list_with length]. assert (unvisited_cost (unlog p o) = unvisited_cost p) as ->; [|lia].
    unfold TracingInv.unvisited_cost. induction (elements _) as [|x l IH]; [done|]. cbn [sum_list_with]. by rewrite IH, Hfw.
Qed.
Lemma run_scan_ok h p W plan_scan o objects buffer :
  run_inv h p W (Some (RScan plan_scan (o :: objects) buffer)) [] → ∃ h' p' r' flushed, run_ok h p W (RScan plan_scan (o :: objects) buffer) h' p' r' flushed.
Proof.
  intros (HI & Hob & _ & _). cbn [from_option running_slots running_objects] in HI, Hob.
  destruct (visit_slots buf (fields h o) buffer []) as [buffer' flushed] eqn:Ev.
  destruct (visit_slots_spec _ h _ _ _ _ _ Ev) as (E1 & E2 & E3); [by intros pk ?%elem_of_nil|]. exists h, p, (Some (RScan plan_scan objects buffer')), flushed. split; try done.
  - cbn [run_step]. rewrite Ev. by destruct plan_scan; rewrite ?gl_scan.
  - split_and!; cbn [from_option running_objects running_unlog]; [|intros x Hx; apply Hob; by right|by intros x ?%elem_of_nil|done].
    eapply inv_weaken; [exact HI| |]; intros x; cbn [running_slots]; specialize (E1 x);
      rewrite bind_empty in E1 |- *; rewrite bind_cons, !elem_of_app; tauto.
  - by intros x ?%elem_of_nil.
  - cbn [from_option gc_running_cost sum_list_with] in *. assert (objects_cost h (o :: objects) = 1 + 5 * length (fields h o) + objects_cost h objects)%nat as -> by done. lia.
Qed.

Lemma run_step_ok h p W r : run_inv h p W (Some r) [] → ∃ h' p' r' flushed, run_ok h p W r h' p' r' flushed.
Proof.
  intros HR. destruct r as [[|s slots] nodes|[|o todo] modbuf|plan_scan [|o objects] buffer];
    [|by apply run_slot_ok| |by apply run_unlog_ok| |by apply run_scan_ok]; destruct HR as (HI & Hob & _ & _); cbn [from_option running_slots running_objects] in HI, Hob.
  - destruct (decide (nodes = [])) as [-> |Hn].
    + exists h, p, None, []. split; try done; [|by intros o ?%elem_of_nil|cbn; lia]. split_and!; try done; try by intros x ?%elem_of_nil.
    + exists h, p, (Some (RScan true nodes [])), []. split; try done; [cbn [run_step]; by rewrite bool_decide_false| |by intros o ?%elem_of_nil|cbn; lia].
      split_and!; try done; try by intros x ?%elem_of_nil. eapply inv_weaken; [exact HI| |]; intros x; cbn [from_option running_slots]; rewrite !elem_of_app; tauto.
  - exists h, p, (Some (RScan false modbuf [])), []. split; try done; [|by intros o ?%elem_of_nil|cbn; lia].
    split_and!; try done; try by intros x ?%elem_of_nil. eapply inv_weaken; [exact HI| |]; intros x; cbn [from_option running_slots]; rewrite !elem_of_app, ?elem_of_nil; tauto.
  - destruct (closure_flush_spec h buffer) as (F1 & F2 & F3). exists h, p, None, (closure_flush buffer). split; try done; [|by intros o ?%elem_of_nil|].
    + split_and!; try done; try by intros x ?%elem_of_nil. eapply inv_weaken; [exact HI| |]; intros x; specialize (F1 x);
        cbn [from_option running_slots]; rewrite ?bind_empty, ?elem_of_app, ?elem_of_nil; tauto.
    + cbn [from_option gc_running_cost]. lia.
Qed.

(** ** Schedules *)

Definition known (h : heap) (pool : list gc_packet) (run : list gc_running) (s : Z) : Prop := s ∈ (pool ≫= packet_slots h) ∨ s ∈ (run ≫= running_slots h).
(** The objects that will be unlogged. *)
Definition to_unlog (pool : list gc_packet) (run : list gc_running) (o : Z) : Prop := o ∈ (pool ≫= packet_modbuf) ∨ o ∈ (run ≫= running_unlog).
Record gc_inv (st : gc_state) : Prop := {
  gi_inv : inv (gs_heap st) (gs_plan st) (known (gs_heap st) (gs_pool st) (gs_running st)) (known (gs_heap st) (gs_pool st) (gs_running st));
  gi_objects o : o ∈ (gs_running st ≫= running_objects) → is_Some (h_fields (gs_heap st) !! o);
  gi_modbuf o : to_unlog (gs_pool st) (gs_running st) o → o ∈ gc_modbuf;
  gi_unlogged o : o ∈ gc_modbuf → to_unlog (gs_pool st) (gs_running st) o ∨ unlogged (gs_plan st) o
}.
Definition gc_cost (st : gc_state) : nat :=
  unvisited_cost (gs_plan st) + sum_list_with (gc_packet_cost (gs_heap st)) (gs_pool st) + sum_list_with (gc_running_cost (gs_heap st)) (gs_running st).

Lemma start_inv_gc st h p pool1 pk pool2 run :
  st = {| gs_heap := h; gs_plan := p; gs_pool := pool1 ++ pk :: pool2; gs_running := run |} → gc_inv st →
  let st' := {| gs_heap := h; gs_plan := p; gs_pool := pool1 ++ pool2; gs_running := gc_start p pk :: run |} in gc_inv st' ∧ (gc_cost st' < gc_cost st)%nat.
Proof.
  intros -> [HI Hob Hm Hu]. cbn [gs_heap gs_plan gs_pool gs_running] in *. pose proof (gl_nursery _ _ (ti_plan _ _ _ _ _ _ _ HI)) as Hn.
  assert (running_slots h (gc_start p pk) = packet_slots h pk ∧ running_unlog (gc_start p pk) = packet_modbuf pk ∧
    running_objects (gc_start p pk) = packet_modbuf pk ∧ gc_running_cost h (gc_start p pk) < gc_packet_cost h pk)%nat as (E1 & E2 & E3 & E4).
  { destruct pk; cbn [gc_start]; rewrite ?Hn; cbn; rewrite ?app_nil_r; split_and!; try done; lia. }
  split; [split|]; cbn [gs_heap gs_plan gs_pool gs_running].
  - eapply inv_weaken; [exact HI| |]; intros x; unfold known; rewrite !bind_app, !elem_of_app, !bind_cons, !elem_of_app, E1; tauto.
  - intros o. rewrite bind_cons, elem_of_app, E3. intros [Ho|Ho]; [|by apply Hob]. destruct (Hmod o) as [Hd _]; [|by eapply ti_dom].
    apply Hm. left. rewrite bind_app, elem_of_app, bind_cons, elem_of_app. auto.
  - intros o Ho. apply Hm. revert Ho. unfold to_unlog. rewrite !bind_app, !elem_of_app, !bind_cons, !elem_of_app, E2. tauto.
  - intros o Ho. destruct (Hu o Ho) as [Hx|?]; [left|by right]. revert Hx. unfold to_unlog. rewrite !bind_app, !elem_of_app, !bind_cons, !elem_of_app, E2. tauto.
  - unfold gc_cost. cbn [gs_heap gs_plan gs_pool gs_running]. rewrite !sum_list_with_app. cbn [sum_list_with]. lia.
Qed.

Lemma run_inv_gc h p pool run1 r run2 :
  let st := {| gs_heap := h; gs_plan := p; gs_pool := pool; gs_running := run1 ++ r :: run2 |} in
  gc_inv st → ∃ h' p' r' flushed, run_step buf h p r = Val (h', p', r', flushed) ∧
    let st' := {| gs_heap := h'; gs_plan := p'; gs_pool := pool ++ flushed; gs_running := run1 ++ option_list r' ++ run2 |} in gc_inv st' ∧ (gc_cost st' < gc_cost st)%nat.
Proof.
  intros st [HI Hob Hm Hu]. cbn [st gs_heap gs_plan gs_pool gs_running] in *.
  set (W := λ s, s ∈ (pool ≫= packet_slots h) ∨ s ∈ (run1 ≫= running_slots h) ∨ s ∈ (run2 ≫= running_slots h)).
  destruct (run_step_ok h p W r) as (h' & p' & r' & flushed & [Ec (HI' & Hob' & Hun' & Hfl) Hsf Hlog Htodo Hcost]).
  { split_and!; cbn [from_option]; [|intros o Ho; apply Hob|intros o Ho; apply Hm; right|by intros pk ?%elem_of_nil]; [|rewrite bind_app, bind_cons, !elem_of_app; auto..].
    eapply inv_weaken; [exact HI| |]; intros x; unfold W, known; rewrite bind_empty, bind_app, bind_cons, !elem_of_app; tauto. }
  exists h', p', r', flushed. split; [done|].
  assert (∀ o, o ∈ (pool ≫= packet_modbuf) → is_Some (h_fields h !! o)) as Hpm by (intros o Ho; eapply ti_dom; [done|]; apply Hmod, Hm; by left).
  destruct (list_same packet_slots gc_packet_cost packet_modbuf h h' pool) as [Ep Ecp]; [intros; by apply packet_same|done|].
  destruct (list_same running_slots gc_running_cost running_objects h h' run1) as [E1 Ec1]; [intros; by apply running_same|intros o Ho; apply Hob; rewrite bind_app, elem_of_app; by left|].
  destruct (list_same running_slots gc_running_cost running_objects h h' run2) as [E2 Ec2];
    [intros; by apply running_same|intros o Ho; apply Hob; rewrite bind_app, bind_cons, !elem_of_app; auto|].
  assert (∀ (f : gc_running → list Z) o, o ∈ (option_list r' ≫= f) ↔ o ∈ from_option f [] r') as Hopt.
  { intros f o. destruct r' as [r'|]; cbn [option_list option_rect from_option]; [by rewrite bind_cons, app_nil_r|done]. }
  assert (∀ o, o ∈ (flushed ≫= packet_modbuf) → False) as Hnof by (intros o (pk & Ho & Hpk)%list_elem_of_bind; rewrite Hfl in Ho by done; by apply elem_of_nil in Ho).
  split; [split|]; cbn [gs_heap gs_plan gs_pool gs_running].
  - eapply inv_weaken; [exact HI'| |]; intros x; unfold known, W; rewrite !bind_app, !elem_of_app, Hopt, Ep, E1, E2; tauto.
  - intros o. rewrite !bind_app, !elem_of_app, Hopt. intros [Ho|[Ho|Ho]]; [|by apply Hob'|];
      (assert (is_Some (h_fields h !! o)) as Hd by (apply Hob; rewrite bind_app, bind_cons, !elem_of_app; auto)); by rewrite Hsf.
  - intros o. unfold to_unlog. rewrite !bind_app, !elem_of_app, Hopt. intros [[Ho|Ho]|[Ho|[Ho|Ho]]]; [apply Hm; by left|by destruct (Hnof o)| |by apply Hun'|];
      apply Hm; right; rewrite bind_app, bind_cons, !elem_of_app; auto.
  - intros o Ho. unfold to_unlog. rewrite !bind_app, !elem_of_app, Hopt. destruct (Hu o Ho) as [[Hx|Hx]|Hx]; [auto| |right; apply Hlog; [by apply Hmod|done]].
    rewrite bind_app, bind_cons, !elem_of_app in Hx. destruct Hx as [Hx|[Hx|Hx]]; [auto| |auto]. destruct (Htodo o Hx); auto.
  - unfold gc_cost. cbn [gs_heap gs_plan gs_pool gs_running st]. rewrite !sum_list_with_app. cbn [sum_list_with]. rewrite Ecp, Ec1, Ec2.
    assert (sum_list_with (gc_running_cost h') (option_list r') = from_option (gc_running_cost h') 0%nat r') as -> by (destruct r'; cbn; lia). lia.
Qed.

Lemma gc_step_inv st st' : gc_step buf st st' → gc_inv st → gc_inv st' ∧ (gc_cost st' < gc_cost st)%nat.
Proof.
  intros [h p pool1 pk pool2 run|h p pool run1 r run2 h' p' r' flushed E] HI; [by eapply start_inv_gc|].
  destruct (run_inv_gc _ _ _ _ _ _ HI) as (h2 & p2 & r2 & f2 & E2 & HI2). rewrite E in E2. by injection E2 as <- <- <- <-.
Qed.
Lemma gc_step_exists st : gc_inv st → gc_drained st ∨ ∃ st', gc_step buf st st'.
Proof.
  intros HI. destruct st as [h p [|pk pool] [|r run]]; [by left|right..].
  - destruct (run_inv_gc h p [] [] r run HI) as (h' & p' & r' & f' & E & _). eexists. by apply (gstep_run _ _ _ _ []).
  - eexists. apply (gstep_start _ _ _ []).
  - eexists. apply (gstep_start _ _ _ []).
Qed.

Definition gc_start_state : gc_state := {| gs_heap := h0; gs_plan := p0; gs_pool := pool0; gs_running := [] |}.
Lemma gc_start_inv : tr_inv h0 p0 → gc_inv gc_start_state.
Proof.
  intros Hp. split; cbn [gc_start_state gs_heap gs_plan gs_pool gs_running].
  - eapply inv_weaken; [by apply (inv_start _ _ _ G)| |]; intros s; unfold known; rewrite bind_empty; [by left|]. by intros [?|[]].
  - by intros o ?%elem_of_nil.
  - intros o [?|?%elem_of_nil]; done.
  - intros o Ho. left. by left.
Qed.

(** The graph is preserved, and the objects of the remembered sets are not logged. *)
Lemma gc_drained_preserved st : gc_inv st → gc_drained st →
  preserved h0 p0 gc_roots (gs_heap st) (gs_plan st) ∧ ∀ o, o ∈ gc_modbuf → unlogged (gs_plan st) o.
Proof.
  destruct st as [h p pool run]. intros [HI _ _ Hu] [Hp Hr]. cbn [gs_heap gs_plan gs_pool gs_running] in *. subst pool run. split.
  - eapply (inv_preserved _ _ _ G), inv_weaken; [exact HI| |done]. unfold known. intros s. rewrite !bind_empty. by intros [].
  - intros o Ho. destruct (Hu o Ho) as [[?%elem_of_nil|?%elem_of_nil]|?]; done.
Qed.

Lemma gc_schedule (n : nat) (st : gc_state) :
  tr_inv h0 p0 → nsteps (gc_step buf) n gc_start_state st → gc_inv st ∧ (n + gc_cost st ≤ gc_cost gc_start_state)%nat.
Proof.
  intros Hp. revert st. induction n as [|n IH]; intros st Hn; [inversion Hn; subst; split; [by apply gc_start_inv|lia]|].
  apply nsteps_inv_r in Hn as (st1 & Hn & Hst). destruct (IH st1 Hn) as [HI1 Hc1]. destruct (gc_step_inv _ _ Hst HI1). split; [done|lia].
Qed.

(** One worker alone. *)
Lemma gc_pool_total fuel cur h p pool :
  let st := {| gs_heap := h; gs_plan := p; gs_pool := pool; gs_running := option_list cur |} in
  gc_inv st → (gc_cost st ≤ fuel)%nat → ∃ h' p', gc_pool buf fuel cur h p pool = Val (h', p') ∧
    rtc (gc_step buf) st {| gs_heap := h'; gs_plan := p'; gs_pool := []; gs_running := [] |}.
Proof.
  cbv zeta. revert cur h p pool. induction fuel as [|fuel IH]; intros [r|] h p pool HI Hc; cbn [option_list option_rect] in *.
  - destruct (run_inv_gc h p pool [] r [] HI) as (h1 & p1 & r1 & f1 & E & HI1 & Hc1). cbn [app] in *. lia.
  - destruct pool as [|pk pool]; [by exists h, p|]. destruct (start_inv_gc _ _ _ [] pk pool _ eq_refl HI) as [HI1 Hc1]. cbn [app] in *. lia.
  - destruct (run_inv_gc h p pool [] r [] HI) as (h1 & p1 & r1 & f1 & E & HI1 & Hc1). cbn [app] in *. rewrite app_nil_r in HI1, Hc1.
    destruct (IH r1 h1 p1 (pool ++ f1) HI1) as (h' & p' & E' & Hs); [lia|]. exists h', p'. cbn [gc_pool]. rewrite E. cbn [mbind res_bind]. split; [done|].
    eapply rtc_l; [|exact Hs]. rewrite <-(app_nil_r (option_list r1)). by apply (gstep_run _ _ _ _ []).
  - destruct pool as [|pk pool]; [by exists h, p|]. destruct (start_inv_gc _ _ _ [] pk pool _ eq_refl HI) as [HI1 Hc1]. cbn [app] in *.
    destruct (IH (Some (gc_start p pk)) h p pool HI1) as (h' & p' & E' & Hs); [cbn [option_list option_rect]; lia|]. exists h', p'. cbn [gc_pool]. split; [done|].
    eapply rtc_l; [|exact Hs]. apply (gstep_start _ _ _ []).
Qed.
End closure.
