(* ===== verification/Spaces.v ===== *)
(** * Spaces (src/src/policy/copyspace.rs, src/src/policy/immortalspace.rs and
    src/src/util/metadata/mark_bit.rs)

    Metadata is by object: the values that the tables and headers hold for it.  A debug
    assertion is a panic. *)

From stdpp Require Import gmap.
From S2P Require Import Prelude Tracing.

(** ** Metadata of objects *)

(** What the binding says: where metadata is, and about objects. *)
Record object_model : Type := {
  mark_in_header : bool; forwarding_in_header : bool; los_bits_on_side : bool; COMPRESSED_PTR_ENABLED : bool; get_size : Z → Z; to_object_start : Z → Z
}.
(** The forwarding pointers of forwarded objects, the mark bits, the mark and nursery bits of
    large objects and the unlog bits. *)
Record metadata : Type := {
  md_forward : gmap Z Z; md_mark : Z → Z; md_los : Z → Z; md_unlog : Z → Z; md_field_unlog : Z → Z
}.
Definition set_forward (md : metadata) (f : gmap Z Z) : metadata :=
  {| md_forward := f; md_mark := md_mark md; md_los := md_los md; md_unlog := md_unlog md; md_field_unlog := md_field_unlog md |}.
Definition set_mark (md : metadata) (f : Z → Z) : metadata :=
  {| md_forward := md_forward md; md_mark := f; md_los := md_los md; md_unlog := md_unlog md; md_field_unlog := md_field_unlog md |}.
Definition set_los (md : metadata) (f : Z → Z) : metadata :=
  {| md_forward := md_forward md; md_mark := md_mark md; md_los := f; md_unlog := md_unlog md; md_field_unlog := md_field_unlog md |}.
Definition set_unlog (md : metadata) (f : Z → Z) : metadata :=
  {| md_forward := md_forward md; md_mark := md_mark md; md_los := md_los md; md_unlog := f; md_field_unlog := md_field_unlog md |}.
Definition set_field_unlog (md : metadata) (f : Z → Z) : metadata :=
  {| md_forward := md_forward md; md_mark := md_mark md; md_los := md_los md; md_unlog := md_unlog md; md_field_unlog := f |}.

(** [bzero_metadata] on the values of a region. *)
Definition in_region (r : Z * Z) (x : Z) : bool := (r.1 <=? x) && (x <? r.1 + r.2).
Definition bzero (f : Z → Z) (r : Z * Z) : Z → Z := λ x, if in_region r x then 0 else f x.

(** ** [VMGlobalLogBitSpec] *)

(** The bit 1 means unlogged. *)
Definition mark_as_unlogged (md : metadata) (o : Z) : metadata := set_unlog md (<[o := 1]> (md_unlog md)).
Definition clear_log (md : metadata) (o : Z) : metadata := set_unlog md (<[o := 0]> (md_unlog md)).
(** A byte of the side table has the bits of 64 bytes. *)
Definition mark_byte_as_unlogged (log_in_header : bool) (md : metadata) (o : Z) : metadata :=
  if log_in_header then mark_as_unlogged md o
  else set_unlog md (λ x, if x / 64 =? o / 64 then 1 else md_unlog md x).
Definition is_unlogged (md : metadata) (o : Z) : bool := md_unlog md o =? 1.

(** What all spaces have of the constraints of their plan. *)
Record CommonSpace : Type := { needs_log_bit : bool; needs_field_log_bit : bool }.

Section spaces.
Context (OM : object_model).

(** ** [MarkState] *)

Definition MarkState_new : Z := 1.
Definition unmarked_state (state : Z) : Z := Z.lxor state 1.
Definition is_marked_state (state : Z) (md : metadata) (o : Z) : bool := md_mark md o =? state.
Definition test_and_mark_state (state : Z) (md : metadata) (o : Z) : bool * metadata :=
  if md_mark md o =? state then (false, md) else (true, set_mark md (<[o := state]> (md_mark md))).
Definition on_object_metadata_initialization (state : Z) (md : metadata) (o : Z) : metadata :=
  if mark_in_header OM then set_mark md (<[o := unmarked_state state]> (md_mark md)) else md.
Definition on_block_reset (md : metadata) (r : Z * Z) : metadata :=
  if mark_in_header OM then md else set_mark md (bzero (md_mark md) r).
Definition on_global_release (state : Z) : Z := if mark_in_header OM then unmarked_state state else state.

(** ** [ImmortalSpace] *)

Record ImmortalSpace : Type := {
  im_mark_state : Z; im_common : CommonSpace; im_vm_space : bool;
  (** The space itself, and the regions that its page resource has allocated. *)
  im_extent : Z * Z; im_regions : list (Z * Z)
}.
Definition immortal_prepare (sp : ImmortalSpace) (md : metadata) : metadata :=
  if im_vm_space sp then on_block_reset md (im_extent sp) else foldl on_block_reset md (im_regions sp).
Definition immortal_release (sp : ImmortalSpace) : ImmortalSpace :=
  {| im_mark_state := on_global_release (im_mark_state sp); im_common := im_common sp; im_vm_space := im_vm_space sp;
     im_extent := im_extent sp; im_regions := im_regions sp |}.
Definition immortal_trace_object (sp : ImmortalSpace) (md : metadata) (o : Z) : metadata * Z * option Z :=
  let '(marked, md) := test_and_mark_state (im_mark_state sp) md o in
  if marked
  then ((if needs_log_bit (im_common sp) then mark_as_unlogged md o else md), o, Some o)
  else (md, o, None).
Definition immortal_is_live (sp : ImmortalSpace) (md : metadata) (o : Z) : bool := true.
Definition immortal_is_reachable (sp : ImmortalSpace) (md : metadata) (o : Z) : bool := is_marked_state (im_mark_state sp) md o.

(** ** [CopySpace] *)

Inductive CopySemantics : Type := DefaultCopy | Nursery | PromoteToMature | Mature.
Definition is_mature (semantics : CopySemantics) : bool := match semantics with PromoteToMature | Mature => true | _ => false end.
Record CopySpace : Type := {
  cs_common : CommonSpace; cs_from_space : bool; cs_copy : option CopySemantics;
  (** The regions that its page resource has allocated. *)
  cs_regions : list (Z * Z)
}.
Definition with_regions (cs : CopySpace) (regions : list (Z * Z)) : CopySpace :=
  {| cs_common := cs_common cs; cs_from_space := cs_from_space cs; cs_copy := cs_copy cs; cs_regions := regions |}.
Definition copyspace_prepare (cs : CopySpace) (from_space : bool) : CopySpace :=
  {| cs_common := cs_common cs; cs_from_space := from_space; cs_copy := cs_copy cs; cs_regions := cs_regions cs |}.
Definition set_copy_for_sft_trace (cs : CopySpace) (semantics : option CopySemantics) : CopySpace :=
  {| cs_common := cs_common cs; cs_from_space := cs_from_space cs; cs_copy := semantics; cs_regions := cs_regions cs |}.
(** Side metadata of the regions is cleared. *)
Definition clear_region (cs : CopySpace) (log_in_header : bool) (md : metadata) (r : Z * Z) : metadata :=
  let md := if forwarding_in_header OM then md else set_forward md (filter (λ x, in_region r x.1 = false) (md_forward md)) in
  if needs_log_bit (cs_common cs) && negb log_in_header then set_unlog md (bzero (md_unlog md) r) else md.
Definition copyspace_release (cs : CopySpace) (log_in_header : bool) (md : metadata) : CopySpace * metadata :=
  ({| cs_common := cs_common cs; cs_from_space := false; cs_copy := cs_copy cs; cs_regions := [] |},
   foldl (clear_region cs log_in_header) md (cs_regions cs)).
Definition copyspace_is_live (cs : CopySpace) (md : metadata) (o : Z) : bool :=
  negb (cs_from_space cs) || bool_decide (is_Some (md_forward md !! o)).
Definition get_forwarded_object (cs : CopySpace) (md : metadata) (o : Z) : option Z :=
  if negb (cs_from_space cs) then None else md_forward md !! o.

(** [ObjectModel::copy] of the binding: the new heap, the regions of the space that is copied
    to, and the copy. *)
Context (vm_copy : heap → list (Z * Z) → Z → heap * list (Z * Z) * Z).

(** [GCWorkerCopyContext::post_copy]: forwarding bits in the header of the copy are cleared,
    and a copy in a mature space is unlogged. *)
Definition post_copy (c : CommonSpace) (log_in_header : bool) (semantics : CopySemantics) (md : metadata) (o : Z) : res metadata :=
  md ← (if forwarding_in_header OM then Val (set_forward md (delete o (md_forward md)))
        else _ ← rust_assert (bool_decide (md_forward md !! o = None)); Val md);
  if is_mature semantics && needs_log_bit c && negb (needs_field_log_bit c) then Val (mark_byte_as_unlogged log_in_header md o) else Val md.
Definition copyspace_trace_object (cs : CopySpace) (log_in_header : bool) (semantics : option CopySemantics) (h : heap) (md : metadata) (tospace : list (Z * Z)) (o : Z)
    : res (heap * metadata * list (Z * Z) * Z * option Z) :=
  if negb (cs_from_space cs) then Val (h, md, tospace, o, None)
  else
    match md_forward md !! o with
    | Some new_object => Val (h, md, tospace, new_object, None)
    | None =>
      semantics ← unwrap semantics;
      let '(h, tospace, new_object) := vm_copy h tospace o in
      md ← post_copy (cs_common cs) log_in_header semantics md new_object;
      Val (h, set_forward md (<[o := new_object]> (md_forward md)), tospace, new_object, Some new_object)
    end.
End spaces.

(** ** Lemmas on the spaces *)

(** An address in one of the regions. *)
Definition covered (regions : list (Z * Z)) (x : Z) : Prop := ∃ r, r ∈ regions ∧ in_region r x = true.
(** The regions whose mark bits are cleared. *)
Definition mark_regions (sp : ImmortalSpace) : list (Z * Z) := if im_vm_space sp then [im_extent sp] else im_regions sp.

Lemma flipped_state s : unmarked_state s ≠ s.
Proof. unfold unmarked_state. intros E. apply (f_equal (Z.lxor s)) in E. rewrite <-Z.lxor_assoc, Z.lxor_nilpotent in E. done. Qed.

Section spaces.
Context (OM : object_model) (log_in_header : bool).

(** The copy has no forwarding pointer; a mature one is unlogged, and only bits of its byte
    change. *)
Lemma post_copy_ok c semantics md o :
  (forwarding_in_header OM = false → md_forward md !! o = None) →
  ∃ md', post_copy OM c log_in_header semantics md o = Val md' ∧ md_forward md' = delete o (md_forward md) ∧ md_mark md' = md_mark md ∧ md_los md' = md_los md ∧
    (∀ x, md_unlog md' x = md_unlog md x ∨ md_unlog md' x = 1 ∧ x / 64 = o / 64) ∧
    (is_mature semantics && needs_log_bit c && negb (needs_field_log_bit c) = true → md_unlog md' o = 1).
Proof.
  intros Hn. unfold post_copy.
  assert (∃ md1, (if forwarding_in_header OM then Val (set_forward md (delete o (md_forward md)))
    else _ ← rust_assert (bool_decide (md_forward md !! o = None)); Val md) = Val md1 ∧ md_forward md1 = delete o (md_forward md) ∧
    md_mark md1 = md_mark md ∧ md_los md1 = md_los md ∧ md_unlog md1 = md_unlog md) as (md1 & -> & E1 & E2 & E3 & E4).
  { destruct (forwarding_in_header OM); [by eexists|]. exists md. specialize (Hn eq_refl). rewrite bool_decide_true by done. split_and!; try done.
    symmetry. by apply delete_id. }
  cbn [mbind res_bind]. destruct (_ && _ && _); (eexists; split; [reflexivity|]); [|rewrite E4; split_and!; try done; by left].
  unfold mark_byte_as_unlogged, mark_as_unlogged. destruct log_in_header; cbn [set_unlog md_forward md_mark md_los md_unlog]; rewrite E4; split_and!; try done.
  - intros x. destruct (decide (x = o)) as [-> |]; [right; by rewrite fn_lookup_insert|left; by rewrite fn_lookup_insert_ne].
  - intros _. by rewrite fn_lookup_insert.
  - intros x. destruct (Z.eqb_spec (x / 64) (o / 64)); [by right|by left].
  - intros _. by rewrite Z.eqb_refl.
Qed.

(** Side metadata of regions. *)
Lemma block_resets md regions :
  let md' := foldl (on_block_reset OM) md regions in
  md_forward md' = md_forward md ∧ md_los md' = md_los md ∧ (mark_in_header OM = true → md' = md) ∧
  (mark_in_header OM = false → ∀ x, md_mark md' x = md_mark md x ∧ ¬ covered regions x ∨ md_mark md' x = 0).
Proof.
  cbv zeta. revert md. induction regions as [|r regions IH]; intros md; cbn [foldl].
  { split_and!; try done. intros _ x. left. split; [done|]. by intros (r & []%elem_of_nil & _). }
  destruct (IH (on_block_reset OM md r)) as (E1 & E2 & E3 & E4). unfold on_block_reset in *. destruct (mark_in_header OM); [by split_and!|].
  rewrite E1, E2. split_and!; try done. intros _ x. destruct (E4 eq_refl x) as [[-> Hn]|?]; [|by right]. cbn [set_mark md_mark]. unfold bzero.
  destruct (in_region r x) eqn:Er; [by right|]. left. split; [done|]. intros (r' & [-> |Hr]%elem_of_cons & Hx); [congruence|]. apply Hn. by exists r'.
Qed.
Lemma immortal_prepare_regions sp md : immortal_prepare OM sp md = foldl (on_block_reset OM) md (mark_regions sp).
Proof. unfold immortal_prepare, mark_regions. by destruct (im_vm_space sp). Qed.

Lemma clear_regions cs regions md :
  let md' := foldl (clear_region OM cs log_in_header) md regions in
  md_mark md' = md_mark md ∧ md_los md' = md_los md ∧ (forwarding_in_header OM = true → md_forward md' = md_forward md) ∧
  (forwarding_in_header OM = false → ∀ x, is_Some (md_forward md' !! x) → is_Some (md_forward md !! x) ∧ ¬ covered regions x).
Proof.
  cbv zeta. revert md. induction regions as [|r regions IH]; intros md; cbn [foldl].
  { split_and!; try done. intros _ x Hx. split; [done|]. by intros (r & []%elem_of_nil & _). }
  destruct (IH (clear_region OM cs log_in_header md r)) as (E1 & E2 & E3 & E4).
  assert (md_mark (clear_region OM cs log_in_header md r) = md_mark md ∧ md_los (clear_region OM cs log_in_header md r) = md_los md ∧
    md_forward (clear_region OM cs log_in_header md r) =
      if forwarding_in_header OM then md_forward md else filter (λ x, in_region r x.1 = false) (md_forward md)) as (C1 & C2 & C3).
  { unfold clear_region. destruct (forwarding_in_header OM), (_ && _); done. }
  rewrite E1, E2, C1, C2. split_and!; try done.
  - intros Hh. rewrite E3, C3, Hh; done.
  - intros Hh x Hx. destruct (E4 Hh x Hx) as [[y Hy] Hn]. rewrite C3, Hh in Hy. apply map_lookup_filter_Some in Hy as [Hy Hr]. cbn [fst] in Hr.
    split; [by rewrite Hy|]. intros (r' & [-> |Hr']%elem_of_cons & Hx'); [congruence|]. apply Hn. by exists r'.
Qed.
(** Unlog bits: marks are cleared without them, a copy space clears those of its regions. *)
Lemma block_resets_unlog md regions : md_unlog (foldl (on_block_reset OM) md regions) = md_unlog md.
Proof. revert md. induction regions as [|r regions IH]; intros md; [done|]. cbn [foldl]. rewrite IH. unfold on_block_reset. by destruct (mark_in_header OM). Qed.
Lemma clear_regions_unlog cs regions md x :
  let md' := foldl (clear_region OM cs log_in_header) md regions in md_unlog md' x = md_unlog md x ∨ covered regions x ∧ md_unlog md' x = 0.
Proof.
  cbv zeta. revert md. induction regions as [|r regions IH]; intros md; [by left|]. cbn [foldl].
  destruct (IH (clear_region OM cs log_in_header md r)) as [-> |[(r' & ? & ?) ->]]; [|right; split; [|done]; exists r'; split; [by right|done]].
  unfold clear_region. destruct (needs_log_bit (cs_common cs) && negb log_in_header); [|left; by destruct (forwarding_in_header OM)].
  cbn [set_unlog md_unlog]. unfold bzero. destruct (in_region r x) eqn:Er; [|left; by destruct (forwarding_in_header OM)]. right. split; [|done]. exists r. split; [by left|done].
Qed.
End spaces.
