(* ===== verification/LargeObjects.v ===== *)
(** * Large objects (src/src/policy/largeobjectspace.rs and src/src/util/treadmill.rs)

    The treadmill holds the large objects in four sets; marking an object moves it, and what
    is left in the old sets at the end of a collection is swept. *)

From stdpp Require Import gmap.
From S2P Require Import Prelude Tracing Spaces.

(** ** [TreadMill] *)

Record TreadMill : Type := { tm_from_space : gset Z; tm_to_space : gset Z; tm_collect_nursery : gset Z; tm_alloc_nursery : gset Z }.
Definition TreadMill_new : TreadMill := {| tm_from_space := ∅; tm_to_space := ∅; tm_collect_nursery := ∅; tm_alloc_nursery := ∅ |}.
Definition add_to_treadmill (t : TreadMill) (object : Z) (nursery : bool) : TreadMill :=
  if nursery
  then {| tm_from_space := tm_from_space t; tm_to_space := tm_to_space t; tm_collect_nursery := tm_collect_nursery t;
          tm_alloc_nursery := {[object]} ∪ tm_alloc_nursery t |}
  else {| tm_from_space := tm_from_space t; tm_to_space := {[object]} ∪ tm_to_space t; tm_collect_nursery := tm_collect_nursery t;
          tm_alloc_nursery := tm_alloc_nursery t |}.
Definition collect_nursery (t : TreadMill) : list Z * TreadMill :=
  (elements (tm_collect_nursery t),
   {| tm_from_space := tm_from_space t; tm_to_space := tm_to_space t; tm_collect_nursery := ∅; tm_alloc_nursery := tm_alloc_nursery t |}).
Definition collect (t : TreadMill) : list Z * TreadMill :=
  (elements (tm_from_space t),
   {| tm_from_space := ∅; tm_to_space := tm_to_space t; tm_collect_nursery := tm_collect_nursery t; tm_alloc_nursery := tm_alloc_nursery t |}).
Definition tm_copy (t : TreadMill) (object : Z) (is_in_nursery : bool) : res TreadMill :=
  if is_in_nursery
  then
    _ ← rust_assert (bool_decide (object ∈ tm_collect_nursery t));
    Val {| tm_from_space := tm_from_space t; tm_to_space := {[object]} ∪ tm_to_space t;
           tm_collect_nursery := tm_collect_nursery t ∖ {[object]}; tm_alloc_nursery := tm_alloc_nursery t |}
  else
    _ ← rust_assert (bool_decide (object ∈ tm_from_space t));
    Val {| tm_from_space := tm_from_space t ∖ {[object]}; tm_to_space := {[object]} ∪ tm_to_space t;
           tm_collect_nursery := tm_collect_nursery t; tm_alloc_nursery := tm_alloc_nursery t |}.
Definition is_from_space_empty (t : TreadMill) : bool := bool_decide (tm_from_space t = ∅).
Definition is_nursery_empty (t : TreadMill) : bool := bool_decide (tm_collect_nursery t = ∅).
Definition flip (t : TreadMill) (full_heap : bool) : TreadMill :=
  {| tm_from_space := if full_heap then tm_to_space t else tm_from_space t;
     tm_to_space := if full_heap then tm_from_space t else tm_to_space t;
     tm_collect_nursery := tm_alloc_nursery t; tm_alloc_nursery := tm_collect_nursery t |}.
Definition tm_enumerate_objects (t : TreadMill) : list Z := elements (tm_alloc_nursery t) ++ elements (tm_to_space t).

(** ** [LargeObjectSpace] *)

Definition MARK_BIT : Z := 1.
Definition NURSERY_BIT : Z := 2.
Definition LOS_BIT_MASK : Z := 3.

Record LargeObjectSpace : Type := {
  los_common : CommonSpace; los_mark_state : Z; los_in_nursery_gc : bool; los_treadmill : TreadMill; los_trace_in_progress : bool;
  los_rc_enabled : bool; los_end_of_satb_or_full_gc : bool;
  (** Objects of plans with reference counts. *)
  los_rc_nursery : list Z; los_rc_mature : gmap Z Z;
  (** The addresses given back to the page resource. *)
  los_released : list Z
}.

(** The features [barrier_measurement] and [barrier_measurement_no_slow]. *)
Record measurement : Type := { BARRIER_MEASUREMENT : bool; BARRIER_MEASUREMENT_NO_SLOW : bool }.

Section los.
Context (OM : object_model) (bm : measurement) (rc_count : Z → Z).

Definition with_treadmill (sp : LargeObjectSpace) (t : TreadMill) : LargeObjectSpace :=
  {| los_common := los_common sp; los_mark_state := los_mark_state sp; los_in_nursery_gc := los_in_nursery_gc sp; los_treadmill := t;
     los_trace_in_progress := los_trace_in_progress sp; los_rc_enabled := los_rc_enabled sp;
     los_end_of_satb_or_full_gc := los_end_of_satb_or_full_gc sp; los_rc_nursery := los_rc_nursery sp; los_rc_mature := los_rc_mature sp;
     los_released := los_released sp |}.
Definition with_rc (sp : LargeObjectSpace) (nursery : list Z) (mature : gmap Z Z) : LargeObjectSpace :=
  {| los_common := los_common sp; los_mark_state := los_mark_state sp; los_in_nursery_gc := los_in_nursery_gc sp; los_treadmill := los_treadmill sp;
     los_trace_in_progress := los_trace_in_progress sp; los_rc_enabled := los_rc_enabled sp;
     los_end_of_satb_or_full_gc := los_end_of_satb_or_full_gc sp; los_rc_nursery := nursery; los_rc_mature := mature; los_released := los_released sp |}.
(** [release_object]: what it clears besides is of plans with field logging. *)
Definition release_object (sp : LargeObjectSpace) (start : Z) : LargeObjectSpace :=
  {| los_common := los_common sp; los_mark_state := los_mark_state sp; los_in_nursery_gc := los_in_nursery_gc sp; los_treadmill := los_treadmill sp;
     los_trace_in_progress := los_trace_in_progress sp; los_rc_enabled := los_rc_enabled sp;
     los_end_of_satb_or_full_gc := los_end_of_satb_or_full_gc sp; los_rc_nursery := los_rc_nursery sp; los_rc_mature := los_rc_mature sp;
     los_released := los_released sp ++ [start] |}.

Definition test_mark_bit (md : metadata) (object value : Z) : bool := Z.land (md_los md object) MARK_BIT =? value.
Definition los_is_marked (sp : LargeObjectSpace) (md : metadata) (object : Z) : bool := test_mark_bit md object (los_mark_state sp).
Definition is_in_nursery (md : metadata) (object : Z) : bool := Z.land (md_los md object) NURSERY_BIT =? NURSERY_BIT.
(** [extract_side_spec], which panics for a specification in the header, and
    [fetch_update_atomic] with the closure of the source. *)
Definition test_and_mark (sp : LargeObjectSpace) (md : metadata) (object value : Z) : res (bool * metadata) :=
  let mask := if los_rc_enabled sp then MARK_BIT else if los_in_nursery_gc sp then LOS_BIT_MASK else MARK_BIT in
  _ ← rust_assert (los_bits_on_side OM);
  let old_value := md_los md object in
  Val (if Z.land old_value mask =? value then (false, md)
  else (true, set_los md (<[object := Z.lor (Z.land old_value (unot 8 LOS_BIT_MASK)) value]> (md_los md)))).
(** [test_and_mark] of addresses one after the other. *)
Fixpoint mark_addresses (sp : LargeObjectSpace) (md : metadata) (addresses : list Z) : res metadata :=
  match addresses with
  | [] => Val md
  | a :: addresses => '(_, md) ← test_and_mark sp md a (los_mark_state sp); mark_addresses sp md addresses
  end.

Definition los_is_live (sp : LargeObjectSpace) (md : metadata) (object : Z) : bool :=
  if los_rc_enabled sp
  then if los_end_of_satb_or_full_gc sp then los_is_marked sp md object && (0 <? rc_count object) else 0 <? rc_count object
  else if los_trace_in_progress sp then true
  else test_mark_bit md object (los_mark_state sp).

(** The addresses of a range that are [step] apart. *)
Definition step_by (start size step : Z) : list Z := (λ i, start + i * step) <$> seqZ 0 ((size + step - 1) `div` step).

Definition los_initialize_object_metadata (sp : LargeObjectSpace) (md : metadata) (object bytes : Z) (alloc : bool) : res (LargeObjectSpace * metadata) :=
  if los_rc_enabled sp
  then
    _ ← rust_assert alloc;
    let sp := with_rc sp (los_rc_nursery sp ++ [object]) (los_rc_mature sp) in
    md ← mark_addresses sp md (object :: step_by object bytes 4096);
    Val (sp, md)
  else
    let new_value := Z.lor (Z.land (md_los md object) (unot 8 LOS_BIT_MASK)) (los_mark_state sp) in
    let new_value := if alloc then Z.lor new_value NURSERY_BIT else new_value in
    let md := set_los md (<[object := new_value]> (md_los md)) in
    let md := if negb alloc && needs_log_bit (los_common sp) then set_unlog md (<[object := 1]> (md_unlog md)) else md in
    Val (with_treadmill sp (add_to_treadmill (los_treadmill sp) object alloc), md).

(** ** The phases of a collection *)

(** Dead nursery objects of plans with reference counts are released, the others promoted. *)
Fixpoint release_rc_nursery_loop (nursery : list Z) (sp : LargeObjectSpace) : LargeObjectSpace :=
  match nursery with
  | [] => with_rc sp [] (los_rc_mature sp)
  | o :: nursery =>
    if rc_count o =? 0 then release_rc_nursery_loop nursery (release_object sp o)
    else release_rc_nursery_loop nursery (with_rc sp (los_rc_nursery sp) (<[o := get_size OM o]> (los_rc_mature sp)))
  end.
Definition release_rc_nursery_objects (sp : LargeObjectSpace) : LargeObjectSpace := release_rc_nursery_loop (los_rc_nursery sp) sp.
Definition rc_free (sp : LargeObjectSpace) (o : Z) : LargeObjectSpace :=
  match los_rc_mature sp !! o with
  | Some _ => release_object (with_rc sp (los_rc_nursery sp) (delete o (los_rc_mature sp))) o
  | None => sp
  end.

Definition los_prepare (sp : LargeObjectSpace) (full_heap : bool) : res LargeObjectSpace :=
  _ ← rust_assert (negb full_heap || is_from_space_empty (los_treadmill sp));
  let sp :=
    {| los_common := los_common sp; los_mark_state := if full_heap then MARK_BIT - los_mark_state sp else los_mark_state sp;
       los_in_nursery_gc := los_in_nursery_gc sp; los_treadmill := los_treadmill sp;
       los_trace_in_progress := true; los_rc_enabled := los_rc_enabled sp; los_end_of_satb_or_full_gc := los_end_of_satb_or_full_gc sp;
       los_rc_nursery := los_rc_nursery sp; los_rc_mature := los_rc_mature sp; los_released := los_released sp |} in
  if los_rc_enabled sp then Val sp
  else Val
    {| los_common := los_common sp; los_mark_state := los_mark_state sp; los_in_nursery_gc := negb full_heap;
       los_treadmill := flip (los_treadmill sp) full_heap;
       los_trace_in_progress := los_trace_in_progress sp; los_rc_enabled := los_rc_enabled sp;
       los_end_of_satb_or_full_gc := los_end_of_satb_or_full_gc sp;
       los_rc_nursery := los_rc_nursery sp; los_rc_mature := los_rc_mature sp; los_released := los_released sp |}.

(** Marking an object moves it out of the nursery: it becomes unlogged. *)
Definition unlog_object (sp : LargeObjectSpace) (md : metadata) (object : Z) : metadata :=
  if negb (los_rc_enabled sp) && needs_log_bit (los_common sp) && negb (BARRIER_MEASUREMENT_NO_SLOW bm)
  then if needs_field_log_bit (los_common sp)
       then set_field_unlog md (foldl (λ f a, <[a := 1]> f) (md_field_unlog md)
              (step_by object (get_size OM object) (if COMPRESSED_PTR_ENABLED OM then 4 else 8)))
       else set_unlog md (<[object := 1]> (md_unlog md))
  else md.
Definition los_trace_object (sp : LargeObjectSpace) (md : metadata) (object : Z) : res (LargeObjectSpace * metadata * Z * option Z) :=
  if los_rc_enabled sp
  then '(marked, md) ← test_and_mark sp md object (los_mark_state sp); Val (sp, md, object, if (marked : bool) then Some object else None)
  else
    let nursery_object := is_in_nursery md object in
    if negb (los_in_nursery_gc sp) || nursery_object
    then
      '(marked, md) ← test_and_mark sp md object (los_mark_state sp);
      if (marked : bool)
      then
        t ← tm_copy (los_treadmill sp) object nursery_object;
        Val (with_treadmill sp t, unlog_object sp md object, object, Some object)
      else Val (sp, md, object, None)
    else Val (sp, md, object, None).

Definition get_super_page (cell : Z) : Z := cell / 4096 * 4096.
(** The closure [sweep]: with log bits it ends in [unreachable!]. *)
Definition sweep_object (object : Z) (sp : LargeObjectSpace) : res LargeObjectSpace :=
  if needs_log_bit (los_common sp) then Panic else Val (release_object sp (get_super_page (to_object_start OM object))).
Fixpoint sweep_objects (objects : list Z) (sp : LargeObjectSpace) : res LargeObjectSpace :=
  match objects with
  | [] => Val sp
  | o :: objects => sp ← sweep_object o sp; sweep_objects objects sp
  end.
Definition sweep_large_pages (sp : LargeObjectSpace) (sweep_nursery : bool) : res LargeObjectSpace :=
  let '(objects, t) := if sweep_nursery then collect_nursery (los_treadmill sp) else collect (los_treadmill sp) in
  sweep_objects objects (with_treadmill sp t).
Definition los_release (sp : LargeObjectSpace) (full_heap : bool) : res LargeObjectSpace :=
  let sp :=
    {| los_common := los_common sp; los_mark_state := los_mark_state sp; los_in_nursery_gc := los_in_nursery_gc sp; los_treadmill := los_treadmill sp;
       los_trace_in_progress := false; los_rc_enabled := los_rc_enabled sp;
       los_end_of_satb_or_full_gc := los_end_of_satb_or_full_gc sp; los_rc_nursery := los_rc_nursery sp; los_rc_mature := los_rc_mature sp;
       los_released := los_released sp |} in
  if los_rc_enabled sp then Val (release_rc_nursery_objects sp)
  else
    sp ← sweep_large_pages sp true;
    _ ← rust_assert (is_nursery_empty (los_treadmill sp));
    if full_heap then sweep_large_pages sp false else Val sp.
End los.
