(* ===== verification/LargeObjectsTheorems.v ===== *)
(** * A collection of the large object space

    The sets of the treadmill and the bits of the objects agree from one collection to the
    next, so that a collection gives back the pages of exactly the objects that were not
    traced. *)

From stdpp Require Import gmap.
From S2P Require Import Prelude Tracing Spaces LargeObjects.

(** Whether tracing an object would do nothing. *)
Definition los_visited (sp : LargeObjectSpace) (md : metadata) (o : Z) : bool :=
  if los_in_nursery_gc sp then negb (is_in_nursery md o) || (Z.land (md_los md o) LOS_BIT_MASK =? los_mark_state sp)
  else test_mark_bit md o (los_mark_state sp).

(** ** The invariants *)

(** [O] are the objects of the space.  Between collections an object has the mark, and the
    nursery bit if it is in the nursery. *)
Record los_idle (O : gset Z) (sp : LargeObjectSpace) (md : metadata) : Prop := {
  li_rc : los_rc_enabled sp = false;
  li_state : los_mark_state sp = 0 ∨ los_mark_state sp = 1;
  li_from : tm_from_space (los_treadmill sp) = ∅;
  li_collect : tm_collect_nursery (los_treadmill sp) = ∅;
  li_to o : o ∈ tm_to_space (los_treadmill sp) ↔ o ∈ O ∧ md_los md o = los_mark_state sp;
  li_alloc o : o ∈ tm_alloc_nursery (los_treadmill sp) ↔ o ∈ O ∧ md_los md o = los_mark_state sp + NURSERY_BIT;
  li_all o : o ∈ O → md_los md o = los_mark_state sp ∨ md_los md o = los_mark_state sp + NURSERY_BIT
}.
(** During a collection an object that was not visited waits in its old set. *)
Record los_tracing (O : gset Z) (sp : LargeObjectSpace) (md : metadata) : Prop := {
  lt_rc : los_rc_enabled sp = false;
  lt_state : los_mark_state sp = 0 ∨ los_mark_state sp = 1;
  lt_bits o : o ∈ O → 0 ≤ md_los md o ≤ 3;
  lt_collect o : o ∈ tm_collect_nursery (los_treadmill sp) ↔ o ∈ O ∧ los_visited sp md o = false ∧ is_in_nursery md o = true;
  lt_from o : o ∈ tm_from_space (los_treadmill sp) ↔ o ∈ O ∧ los_visited sp md o = false ∧ is_in_nursery md o = false;
  lt_to o : o ∈ tm_to_space (los_treadmill sp) ↔ o ∈ O ∧ los_visited sp md o = true;
  lt_clean o : o ∈ O → los_visited sp md o = true → md_los md o = los_mark_state sp;
  lt_alloc : tm_alloc_nursery (los_treadmill sp) = ∅
}.

Section los.
Context (OM : object_model) (bm : measurement).
Context (Hside : los_bits_on_side OM = true).
Implicit Types (O : gset Z) (sp : LargeObjectSpace) (md : metadata).

(** ** The phases *)

Lemma los_prepare_ok O sp md full_heap :
  los_idle O sp md → ∃ sp', los_prepare sp full_heap = Val sp' ∧ los_tracing O sp' md ∧ los_in_nursery_gc sp' = negb full_heap ∧
    los_common sp' = los_common sp ∧ los_released sp' = los_released sp ∧
    ∀ o, o ∈ O → los_visited sp' md o = negb full_heap && (md_los md o =? los_mark_state sp).
Proof.
  intros [Hrc Hst Hfrom Hcol Hto Hal Hall]. unfold los_prepare, is_from_space_empty. rewrite bool_decide_true by done. rewrite orb_true_r. cbn [rust_assert mbind res_bind los_rc_enabled]. rewrite Hrc.
  eexists. split; [reflexivity|]. cbn [los_treadmill los_in_nursery_gc los_common los_released flip tm_from_space tm_to_space tm_collect_nursery tm_alloc_nursery los_mark_state los_rc_enabled].
  assert (∀ o, o ∈ O → (negb full_heap = true → (is_in_nursery md o = true ↔ md_los md o = los_mark_state sp + NURSERY_BIT)) ) as Hn.
  { intros o Ho _. unfold is_in_nursery. destruct (Hall o Ho) as [E|E], Hst as [Es|Es]; rewrite E, Es; by vm_compute. }
  match goal with |- los_tracing _ ?s _ ∧ _ => assert (∀ o, o ∈ O → los_visited s md o = negb full_heap && (md_los md o =? los_mark_state sp)) as Hv end.
  { intros o Ho. unfold los_visited, test_mark_bit, is_in_nursery. cbn [los_in_nursery_gc los_mark_state].
    destruct full_heap, (Hall o Ho) as [E|E], Hst as [Es|Es]; rewrite E, Es; by vm_compute. }
  split; [|by split_and!].
  assert (∀ o, o ∈ O → is_in_nursery md o = negb (md_los md o =? los_mark_state sp)) as Hi.
  { intros o Ho. unfold is_in_nursery. destruct (Hall o Ho) as [E|E], Hst as [Es|Es]; rewrite E, Es; by vm_compute. }
  split; cbn [los_treadmill los_in_nursery_gc los_common los_released flip tm_from_space tm_to_space tm_collect_nursery tm_alloc_nursery los_mark_state los_rc_enabled]; try done.
  - destruct full_heap; [destruct Hst as [Es|Es]; rewrite Es; by vm_compute; auto|done].
  - intros o Ho. destruct (Hall o Ho) as [E|E], Hst as [Es|Es]; rewrite E, Es; by vm_compute.
  - intros o. rewrite Hal. split; [intros [Ho E]|intros (Ho & E1 & E2)]; (split; [done|]).
    + rewrite Hv, Hi by done. rewrite E. destruct (Z.eqb_spec (los_mark_state sp + NURSERY_BIT) (los_mark_state sp)) as [Ex|]; [unfold NURSERY_BIT in Ex; lia|].
      by rewrite andb_false_r.
    + rewrite Hi in E2 by done. apply negb_true_iff, Z.eqb_neq in E2. by destruct (Hall o Ho).
  - intros o. destruct full_heap; [rewrite Hto|rewrite Hfrom].
    + split; [intros [Ho E]|intros (Ho & E1 & E2)]; (split; [done|]); [rewrite Hv, Hi by done; by rewrite E, Z.eqb_refl|].
      rewrite Hi in E2 by done. by apply negb_false_iff, Z.eqb_eq in E2.
    + split; [by intros ?%elem_of_empty|]. intros (Ho & E1 & E2). rewrite Hv in E1 by done. rewrite Hi in E2 by done. cbn in E1. by rewrite E1 in E2.
  - intros o. destruct full_heap; [rewrite Hfrom|rewrite Hto].
    + split; [by intros ?%elem_of_empty|]. intros [Ho E]. by rewrite Hv in E.
    + split; [intros [Ho E]|intros (Ho & E)]; (split; [done|]); [rewrite Hv by done; by rewrite E, Z.eqb_refl|]. rewrite Hv in E by done. by apply Z.eqb_eq in E.
  - intros o Ho E. rewrite Hv in E by done. destruct full_heap; [done|]. by apply Z.eqb_eq in E.
Qed.

Lemma los_trace_visited O sp md o :
  los_tracing O sp md → los_visited sp md o = true → los_trace_object OM bm sp md o = Val (sp, md, o, None).
Proof.
  intros HT Hv. unfold los_trace_object. rewrite (lt_rc _ _ _ HT). unfold los_visited in Hv. unfold test_and_mark. rewrite Hside, (lt_rc _ _ _ HT). cbn [rust_assert mbind res_bind].
  destruct (los_in_nursery_gc sp); cbn [negb orb] in *.
  - destruct (is_in_nursery md o); [|done]. cbn [negb orb] in Hv. by rewrite Hv.
  - unfold test_mark_bit in Hv. by rewrite Hv.
Qed.

(** The value that marking stores. *)
Lemma marked_value b ms : 0 ≤ b ≤ 3 → ms = 0 ∨ ms = 1 → Z.lor (Z.land b (unot 8 LOS_BIT_MASK)) ms = ms.
Proof. intros Hb Hms. assert (b = 0 ∨ b = 1 ∨ b = 2 ∨ b = 3) as [-> |[-> |[-> | ->]]] by lia; destruct Hms as [-> | ->]; by vm_compute. Qed.

(** Moving an object to the to-space. *)
Lemma tm_copy_ok O sp md o :
  los_tracing O sp md → o ∈ O → los_visited sp md o = false →
  ∃ t, tm_copy (los_treadmill sp) o (is_in_nursery md o) = Val t ∧ tm_alloc_nursery t = tm_alloc_nursery (los_treadmill sp) ∧
    (∀ x, x ∈ tm_collect_nursery t ↔ x ∈ tm_collect_nursery (los_treadmill sp) ∧ x ≠ o) ∧
    (∀ x, x ∈ tm_from_space t ↔ x ∈ tm_from_space (los_treadmill sp) ∧ x ≠ o) ∧
    (∀ x, x ∈ tm_to_space t ↔ x = o ∨ x ∈ tm_to_space (los_treadmill sp)).
Proof.
  intros HT Ho Hv. pose proof (lt_collect _ _ _ HT o) as Hc. pose proof (lt_from _ _ _ HT o) as Hf. unfold tm_copy. destruct (is_in_nursery md o).
  - rewrite bool_decide_true by tauto. eexists. split; [reflexivity|]. split; [done|]. cbn [tm_collect_nursery tm_from_space tm_to_space].
    split; [set_solver|]. split; [|set_solver]. intros x. split; [|tauto]. intros Hx. split; [done|]. intros ->. naive_solver.
  - rewrite bool_decide_true by tauto. eexists. split; [reflexivity|]. split; [done|]. cbn [tm_collect_nursery tm_from_space tm_to_space].
    split; [|set_solver]. intros x. split; [|tauto]. intros Hx. split; [done|]. intros ->. naive_solver.
Qed.
Lemma unlog_same sp md o :
  md_los (unlog_object OM bm sp md o) = md_los md ∧ md_forward (unlog_object OM bm sp md o) = md_forward md ∧ md_mark (unlog_object OM bm sp md o) = md_mark md.
Proof. unfold unlog_object. by repeat case_match. Qed.

(** Visits depend on the bits of the object only. *)
Lemma visited_same sp sp' md md' o :
  los_in_nursery_gc sp' = los_in_nursery_gc sp → los_mark_state sp' = los_mark_state sp → md_los md' o = md_los md o → los_visited sp' md' o = los_visited sp md o.
Proof. intros E1 E2 E3. unfold los_visited, is_in_nursery, test_mark_bit. by rewrite E1, E2, E3. Qed.
Lemma visited_clean sp md o : los_mark_state sp = 0 ∨ los_mark_state sp = 1 → md_los md o = los_mark_state sp → los_visited sp md o = true ∧ is_in_nursery md o = false.
Proof. intros Hms E. unfold los_visited, is_in_nursery, test_mark_bit. rewrite E. destruct (los_in_nursery_gc sp), Hms as [-> | ->]; by vm_compute. Qed.

Lemma los_trace_first O sp md o :
  los_tracing O sp md → o ∈ O → los_visited sp md o = false →
  ∃ sp' md', los_trace_object OM bm sp md o = Val (sp', md', o, Some o) ∧ los_tracing O sp' md' ∧
    los_in_nursery_gc sp' = los_in_nursery_gc sp ∧ los_common sp' = los_common sp ∧ los_released sp' = los_released sp ∧
    md_forward md' = md_forward md ∧ md_mark md' = md_mark md ∧
    ∀ x, los_visited sp' md' x = bool_decide (x = o) || los_visited sp md x.
Proof.
  intros HT Ho Hv. pose proof (lt_bits _ _ _ HT o Ho) as Hb. pose proof (lt_state _ _ _ HT) as Hms.
  unfold los_trace_object. rewrite (lt_rc _ _ _ HT). unfold test_and_mark. rewrite Hside, (lt_rc _ _ _ HT). cbn [rust_assert mbind res_bind].
  assert (negb (los_in_nursery_gc sp) || is_in_nursery md o = true ∧
    (Z.land (md_los md o) (if los_in_nursery_gc sp then LOS_BIT_MASK else MARK_BIT) =? los_mark_state sp) = false) as [-> ->].
  { unfold los_visited in Hv. destruct (los_in_nursery_gc sp); [|done]. apply orb_false_iff in Hv as [Hn Hv]. by apply negb_false_iff in Hn as ->. }
  rewrite (marked_value _ _ Hb Hms). destruct (tm_copy_ok O sp md o HT Ho Hv) as (t & -> & Ha & Hc & Hf & Ht). cbn [mbind res_bind].
  set (md1 := set_los md _). destruct (unlog_same sp md1 o) as (E1 & E2 & E3). eexists _, _. split; [reflexivity|].
  set (sp' := with_treadmill sp t). set (md' := unlog_object OM bm sp md1 o) in *.
  assert (md_los md' o = los_mark_state sp') as Eo by (rewrite E1; cbn; by rewrite fn_lookup_insert).
  assert (∀ x, x ≠ o → md_los md' x = md_los md x) as Ene by (intros x Hx; rewrite E1; cbn; by rewrite fn_lookup_insert_ne).
  destruct (visited_clean sp' md' o Hms Eo) as [Vo No].
  assert (∀ x, x ≠ o → los_visited sp' md' x = los_visited sp md x ∧ is_in_nursery md' x = is_in_nursery md x) as Vne.
  { intros x Hx. split; [by apply visited_same; [..|apply Ene]|]. unfold is_in_nursery. by rewrite Ene. }
  split; [|split_and!; try done; intros x; case_bool_decide as Hx; [by subst|by destruct (Vne x Hx) as [-> _]]].
  split; cbn [sp' with_treadmill los_rc_enabled los_mark_state los_treadmill]; try done.
  - apply HT.
  - intros x Hx. destruct (decide (x = o)) as [-> |Hne]; [rewrite Eo; cbn; destruct Hms as [-> | ->]; lia|]. rewrite Ene by done. by apply (lt_bits _ _ _ HT).
  - intros x. rewrite Hc, (lt_collect _ _ _ HT). destruct (decide (x = o)) as [-> |Hne]; [|destruct (Vne x Hne) as [-> ->]; tauto]. split; [tauto|]. intros (_ & ? & _). congruence.
  - intros x. rewrite Hf, (lt_from _ _ _ HT). destruct (decide (x = o)) as [-> |Hne]; [|destruct (Vne x Hne) as [-> ->]; tauto]. split; [tauto|]. intros (_ & ? & _). congruence.
  - intros x. rewrite Ht, (lt_to _ _ _ HT). destruct (decide (x = o)) as [-> |Hne]; [tauto|]. destruct (Vne x Hne) as [-> _]. tauto.
  - intros x Hx. destruct (decide (x = o)) as [-> |Hne]; [done|]. destruct (Vne x Hne) as [-> _]. rewrite Ene by done. by apply (lt_clean _ _ _ HT).
  - rewrite Ha. apply HT.
Qed.

(** ** Sweeping *)

Definition object_pages (o : Z) : Z := get_super_page (to_object_start OM o).
Lemma sweep_objects_ok objects sp :
  needs_log_bit (los_common sp) = false ∨ objects = [] →
  ∃ sp', sweep_objects OM objects sp = Val sp' ∧ los_released sp' = los_released sp ++ (object_pages <$> objects) ∧
    los_treadmill sp' = los_treadmill sp ∧ los_mark_state sp' = los_mark_state sp ∧ los_rc_enabled sp' = los_rc_enabled sp ∧ los_common sp' = los_common sp ∧
    los_in_nursery_gc sp' = los_in_nursery_gc sp.
Proof.
  revert sp. induction objects as [|o objects IH]; intros sp Hn; cbn [sweep_objects]; [exists sp; by rewrite app_nil_r|]. destruct Hn as [Hn|]; [|done].
  unfold sweep_object. rewrite Hn. cbn [mbind res_bind]. destruct (IH (release_object sp (object_pages o)) (or_introl Hn)) as (sp' & E & Er & Et & Em & Ec & Eco & Eg).
  exists sp'. split; [done|]. split_and!; [|done..]. rewrite Er. cbn [release_object los_released]. by rewrite fmap_cons, <-app_assoc.
Qed.
(** A dead object in a space with log bits. *)
Lemma sweep_objects_panics o objects sp : needs_log_bit (los_common sp) = true → sweep_objects OM (o :: objects) sp = Panic.
Proof. intros Hn. cbn [sweep_objects]. unfold sweep_object. by rewrite Hn. Qed.

Lemma los_release_ok O sp md full_heap :
  los_tracing O sp md → needs_log_bit (los_common sp) = false ∨ (∀ o, o ∈ O → los_visited sp md o = true) → los_in_nursery_gc sp = negb full_heap →
  ∃ sp', los_release OM (λ _, 0) sp full_heap = Val sp' ∧ los_idle (filter (λ o, los_visited sp md o = true) O) sp' md ∧ los_common sp' = los_common sp ∧
    ∃ swept, los_released sp' = los_released sp ++ (object_pages <$> swept) ∧ swept ≡ₚ elements (filter (λ o, los_visited sp md o = false) O).
Proof.
  intros HT Hn Hg. pose proof (lt_state _ _ _ HT) as Hms. unfold los_release. cbn [los_rc_enabled]. rewrite (lt_rc _ _ _ HT).
  unfold sweep_large_pages at 2. cbn [los_treadmill collect_nursery]. pose proof (lt_rc _ _ _ HT) as Hrc.
  assert (∀ X : gset Z, (∀ o, o ∈ X → o ∈ O ∧ los_visited sp md o = false) → needs_log_bit (los_common sp) = false ∨ elements X = []) as Hnone.
  { intros X HX. destruct Hn as [?|Hn]; [by left|right]. apply elements_empty_iff. intros o. split; [|by intros ?%elem_of_empty]. intros Ho.
    destruct (HX o Ho) as [Hx Hv]. by rewrite Hn in Hv. }
  assert (needs_log_bit (los_common sp) = false ∨ elements (tm_collect_nursery (los_treadmill sp)) = []) as Hn1 by (apply Hnone; intros o (? & ? & _)%(lt_collect _ _ _ HT); done).
  match goal with |- context [sweep_objects OM ?l ?s] => destruct (sweep_objects_ok l s Hn1) as (sp1 & -> & Er & Et & Em & Ec & Eco & Eg) end.
  cbn [los_released los_treadmill with_treadmill los_mark_state los_rc_enabled los_common] in *. cbn [mbind res_bind]. rewrite Et. unfold is_nursery_empty. cbn [tm_collect_nursery]. rewrite bool_decide_true by done.
  cbn [rust_assert mbind res_bind].
  assert (∀ sp' mid, los_treadmill sp' = {| tm_from_space := ∅; tm_to_space := tm_to_space (los_treadmill sp); tm_collect_nursery := ∅; tm_alloc_nursery := tm_alloc_nursery (los_treadmill sp) |} →
    los_mark_state sp' = los_mark_state sp → los_rc_enabled sp' = los_rc_enabled sp → los_common sp' = los_common sp → los_released sp' = los_released sp ++ (object_pages <$> mid) →
    mid = elements (tm_collect_nursery (los_treadmill sp)) ++ elements (tm_from_space (los_treadmill sp)) →
    los_idle (filter (λ o, los_visited sp md o = true) O) sp' md ∧ los_common sp' = los_common sp ∧
    ∃ swept, los_released sp' = los_released sp ++ (object_pages <$> swept) ∧ swept ≡ₚ elements (filter (λ o, los_visited sp md o = false) O)) as Hfin.
  { intros sp' mid Ft Fm Frc Fc Fr ->. split; [|split; [done|]].
    - split; rewrite ?Ft, ?Fm; cbn [tm_from_space tm_to_space tm_collect_nursery tm_alloc_nursery]; try done.
      + rewrite Frc. apply HT.
      + intros o. rewrite (lt_to _ _ _ HT), elem_of_filter. split; [|tauto]. intros [Ho Hv]. split; [done|]. by apply (lt_clean _ _ _ HT).
      + intros o. rewrite (lt_alloc _ _ _ HT), elem_of_filter. split; [by intros ?%elem_of_empty|]. intros [[Hv Ho] E].
        rewrite (lt_clean _ _ _ HT o Ho Hv) in E. unfold NURSERY_BIT in E. lia.
      + intros o [Hv Ho]%elem_of_filter. left. by apply (lt_clean _ _ _ HT).
    - eexists. split; [done|]. apply NoDup_Permutation; [|apply NoDup_elements|].
      + apply NoDup_app. split_and!; [apply NoDup_elements| |apply NoDup_elements]. intros o Ho Ho2. apply elem_of_elements in Ho, Ho2.
        apply (lt_collect _ _ _ HT) in Ho as (_ & _ & ?). apply (lt_from _ _ _ HT) in Ho2 as (_ & _ & ?). congruence.
      + intros o. rewrite elem_of_app, !elem_of_elements, elem_of_filter, (lt_collect _ _ _ HT), (lt_from _ _ _ HT). destruct (is_in_nursery md o); naive_solver. }
  destruct full_heap.
  - unfold sweep_large_pages. rewrite Et. cbn [collect tm_from_space tm_to_space tm_collect_nursery tm_alloc_nursery].
    match goal with |- context [sweep_objects OM ?l ?s] => destruct (sweep_objects_ok l s) as (sp2 & -> & Er2 & Et2 & Em2 & Ec2 & Eco2 & Eg2); [cbn; rewrite Eco; apply Hnone; by intros o (? & ? & _)%(lt_from _ _ _ HT)|] end.
    cbn [los_released los_treadmill with_treadmill los_mark_state los_rc_enabled los_common] in *.
    exists sp2. split; [done|]. eapply Hfin; try done; [congruence..|]. rewrite Er2, Er, <-app_assoc. f_equal. by rewrite fmap_app.
  - exists sp1. split; [done|]. assert (tm_from_space (los_treadmill sp) = ∅) as Hfe.
    { apply set_eq. intros o. rewrite (lt_from _ _ _ HT). split; [|by intros ?%elem_of_empty]. intros (Ho & Hv & Hnu). exfalso.
      unfold los_visited in Hv. rewrite Hg in Hv. cbn in Hv. by rewrite Hnu in Hv. }
    eapply Hfin; try done; [by rewrite Et, Hfe|congruence|]. by rewrite Hfe, elements_empty, app_nil_r.
Qed.
(** With log bits a dead object is the end of the program. *)
Lemma los_release_panics O sp md full_heap o :
  los_tracing O sp md → needs_log_bit (los_common sp) = true → los_in_nursery_gc sp = negb full_heap → o ∈ O → los_visited sp md o = false →
  los_release OM (λ _, 0) sp full_heap = Panic.
Proof.
  intros HT Hn Hg Ho Hv. unfold los_release. cbn [los_rc_enabled]. rewrite (lt_rc _ _ _ HT). unfold sweep_large_pages at 2. cbn [los_treadmill collect_nursery].
  destruct (elements (tm_collect_nursery (los_treadmill sp))) as [|x l] eqn:Ex; [|by rewrite sweep_objects_panics].
  assert (is_in_nursery md o = false) as Hnu.
  { apply not_true_iff_false. intros Hnu. assert (o ∈ tm_collect_nursery (los_treadmill sp)) as Hx by (by apply (lt_collect _ _ _ HT)).
    apply elem_of_elements in Hx. rewrite Ex in Hx. by apply elem_of_nil in Hx. }
  destruct full_heap; [|by unfold los_visited in Hv; rewrite Hg, Hnu in Hv]. cbn [sweep_objects mbind res_bind]. unfold is_nursery_empty. cbn [los_treadmill with_treadmill tm_collect_nursery].
  rewrite bool_decide_true by done. cbn [rust_assert mbind res_bind]. unfold sweep_large_pages. cbn [los_treadmill with_treadmill collect tm_from_space].
  destruct (elements (tm_from_space (los_treadmill sp))) as [|x l] eqn:Ey; [|by rewrite sweep_objects_panics].
  assert (o ∈ tm_from_space (los_treadmill sp)) as Hx by (by apply (lt_from _ _ _ HT)). apply elem_of_elements in Hx. rewrite Ey in Hx. by apply elem_of_nil in Hx.
Qed.
End los.

(** With the mark and nursery bits in the header, where they are documented to be in general,
    [trace_object] panics at every object that it has to test. *)
Lemma los_header_panics OM bm sp md o :
  los_bits_on_side OM = false → los_rc_enabled sp = true ∨ los_in_nursery_gc sp = false ∨ is_in_nursery md o = true → los_trace_object OM bm sp md o = Panic.
Proof.
  intros Hh Hc. unfold los_trace_object, test_and_mark. rewrite Hh. destruct (los_rc_enabled sp); [done|].
  destruct Hc as [?|[-> | ->]]; [done|done|]. by rewrite orb_true_r.
Qed.

(** A new object is in the nursery. *)
Lemma los_alloc_ok OM O sp md o bytes :
  los_idle O sp md → o ∉ O → md_los md o = 0 →
  ∃ sp' md', los_initialize_object_metadata OM sp md o bytes true = Val (sp', md') ∧ los_idle ({[o]} ∪ O) sp' md' ∧ los_common sp' = los_common sp ∧
    is_in_nursery md' o = true ∧ md_forward md' = md_forward md ∧ md_unlog md' = md_unlog md ∧ ∀ x, x ≠ o → md_los md' x = md_los md x.
Proof.
  intros [Hrc Hst Hfrom Hcol Hto Hal Hall] Ho Ez. unfold los_initialize_object_metadata. rewrite Hrc, Ez. cbn [negb andb]. eexists _, _. split; [reflexivity|].
  set (md' := set_los _ _). assert (md_los md' o = los_mark_state sp + NURSERY_BIT) as Eo by (cbn; rewrite fn_lookup_insert; destruct Hst as [-> | ->]; done).
  assert (∀ x, x ≠ o → md_los md' x = md_los md x) as Ex by (intros x ?; cbn; by rewrite fn_lookup_insert_ne).
  split; [|split_and!; try done; unfold is_in_nursery; rewrite Eo; by destruct Hst as [-> | ->]].
  split; cbn [with_treadmill add_to_treadmill los_treadmill los_rc_enabled los_mark_state tm_from_space tm_to_space tm_collect_nursery tm_alloc_nursery]; try done; intros x.
  - rewrite Hto, elem_of_union, elem_of_singleton. destruct (decide (x = o)) as [-> |Hx]; [|rewrite Ex by done; naive_solver]. rewrite Eo. unfold NURSERY_BIT. split; [tauto|lia].
  - rewrite elem_of_union, Hal, elem_of_union, elem_of_singleton. destruct (decide (x = o)) as [-> |Hx]; [rewrite Eo; naive_solver|rewrite Ex by done; naive_solver].
  - rewrite elem_of_union, elem_of_singleton. destruct (decide (x = o)) as [-> |Hx]; [by right|rewrite Ex by done]. intros [?|?]; [done|auto].
Qed.
