(* ===== verification/SemiSpace.v ===== *)
(** * The semi-space plan (src/src/plan/semispace/global.rs, the common spaces of
    src/src/plan/global.rs, and [PlanTraceObject] as
    src/macros/src/plan_trace_object_impl.rs derives it)

    Two copy spaces take turns; large, immortal and non-moving objects stay in place.  The
    features have no code, read-only or VM space. *)

From stdpp Require Import gmap.
From S2P Require Import Prelude Tracing Spaces LargeObjects.

(** ** The plan *)

Inductive ss_space : Type := Copy0 | Copy1 | Immortal | Los | NonMoving.
#[export] Instance ss_space_eq_dec : EqDecision ss_space.
Proof. solve_decision. Defined.

Record CommonPlan : Type := { cp_immortal : ImmortalSpace; cp_los : LargeObjectSpace; cp_nonmoving : ImmortalSpace }.
Record SemiSpace : Type := {
  ss_hi : bool; copyspace0 : CopySpace; copyspace1 : CopySpace; ss_common : CommonPlan;
  (** The metadata of objects, in tables and headers. *)
  ss_md : metadata
}.

(** What is outside the plan: the object model, the features, the address ranges of the
    spaces, and [ObjectModel::copy], which copies into the to-space that [hi] selects. *)
Record ss_config : Type := {
  ss_om : object_model; ss_bm : measurement; ss_log_in_header : bool;
  ss_in_space : ss_space → Z → bool;
  ss_copy : bool → heap → list (Z * Z) → Z → heap * list (Z * Z) * Z
}.

Definition tospace (p : SemiSpace) : CopySpace := if ss_hi p then copyspace1 p else copyspace0 p.
Definition fromspace (p : SemiSpace) : CopySpace := if ss_hi p then copyspace0 p else copyspace1 p.
(** [tospace_mut] and [fromspace_mut]. *)
Definition set_tospace (p : SemiSpace) (cs : CopySpace) : SemiSpace :=
  {| ss_hi := ss_hi p; copyspace0 := if ss_hi p then copyspace0 p else cs; copyspace1 := if ss_hi p then cs else copyspace1 p;
     ss_common := ss_common p; ss_md := ss_md p |}.
Definition set_fromspace (p : SemiSpace) (cs : CopySpace) : SemiSpace :=
  {| ss_hi := ss_hi p; copyspace0 := if ss_hi p then cs else copyspace0 p; copyspace1 := if ss_hi p then copyspace1 p else cs;
     ss_common := ss_common p; ss_md := ss_md p |}.
Definition with_common (p : SemiSpace) (cp : CommonPlan) (md : metadata) : SemiSpace :=
  {| ss_hi := ss_hi p; copyspace0 := copyspace0 p; copyspace1 := copyspace1 p; ss_common := cp; ss_md := md |}.

(** ** The common spaces *)

Section common.
Context (OM : object_model).
Definition common_prepare (cp : CommonPlan) (md : metadata) (full_heap : bool) : res (CommonPlan * metadata) :=
  let md := immortal_prepare OM (cp_immortal cp) md in
  los ← los_prepare (cp_los cp) full_heap;
  let md := immortal_prepare OM (cp_nonmoving cp) md in
  Val ({| cp_immortal := cp_immortal cp; cp_los := los; cp_nonmoving := cp_nonmoving cp |}, md).
Definition common_release (cp : CommonPlan) (full_heap : bool) : res CommonPlan :=
  let immortal := immortal_release OM (cp_immortal cp) in
  los ← los_release OM (λ _, 0) (cp_los cp) full_heap;
  let nonmoving := immortal_release OM (cp_nonmoving cp) in
  Val {| cp_immortal := immortal; cp_los := los; cp_nonmoving := nonmoving |}.
End common.

Section plan.
Context (C : ss_config).
Abbreviation OM := (ss_om C).

(** ** Phases *)

Definition ss_prepare (p : SemiSpace) : res SemiSpace :=
  '(cp, md) ← common_prepare OM (ss_common p) (ss_md p) true;
  let hi := negb (ss_hi p) in
  let p := {| ss_hi := hi; copyspace0 := copyspace_prepare (copyspace0 p) hi; copyspace1 := copyspace_prepare (copyspace1 p) (negb hi);
              ss_common := cp; ss_md := md |} in
  let p := set_fromspace p (set_copy_for_sft_trace (fromspace p) (Some DefaultCopy)) in
  Val (set_tospace p (set_copy_for_sft_trace (tospace p) None)).
Definition ss_release (p : SemiSpace) : res SemiSpace :=
  cp ← common_release OM (ss_common p) true;
  let '(cs, md) := copyspace_release OM (fromspace p) (ss_log_in_header C) (ss_md p) in
  Val (with_common (set_fromspace p cs) cp md).

(** ** [PlanTraceObject] *)

(** The object goes to the first space that it is in; [vm_trace_object] panics. *)
Definition common_trace_object (cp : CommonPlan) (md : metadata) (o : Z) : res (CommonPlan * metadata * Z * option Z) :=
  if ss_in_space C Immortal o then
    let '(md, o', queued) := immortal_trace_object (cp_immortal cp) md o in Val (cp, md, o', queued)
  else if ss_in_space C Los o then
    '(los, md, o', queued) ← los_trace_object OM (ss_bm C) (cp_los cp) md o;
    Val ({| cp_immortal := cp_immortal cp; cp_los := los; cp_nonmoving := cp_nonmoving cp |}, md, o', queued)
  else if ss_in_space C NonMoving o then
    let '(md, o', queued) := immortal_trace_object (cp_nonmoving cp) md o in Val (cp, md, o', queued)
  else Panic.
Definition trace_in_copyspace (cs : CopySpace) (h : heap) (p : SemiSpace) (o : Z) : res (heap * SemiSpace * Z * option Z) :=
  '(h, md, regions, o', queued) ← copyspace_trace_object OM (ss_copy C (ss_hi p)) cs (ss_log_in_header C) (Some DefaultCopy) h (ss_md p) (cs_regions (tospace p)) o;
  Val (h, with_common (set_tospace p (with_regions (tospace p) regions)) (ss_common p) md, o', queued).
Definition ss_trace_object (h : heap) (p : SemiSpace) (o : Z) : res (heap * SemiSpace * Z * option Z) :=
  if ss_in_space C Copy0 o then trace_in_copyspace (copyspace0 p) h p o
  else if ss_in_space C Copy1 o then trace_in_copyspace (copyspace1 p) h p o
  else '(cp, md, o', queued) ← common_trace_object (ss_common p) (ss_md p) o; Val (h, with_common p cp md, o', queued).

Definition ss_trace : PlanTrace SemiSpace := {|
  trace_object := ss_trace_object;
  post_scan_object := λ p _, p;
  may_move_objects := true
|}.

(** A collection by one worker. *)
Definition ss_collect (buf : buffer_features) (fuel : nat) (h : heap) (p : SemiSpace) (pool : list packet) : res (heap * SemiSpace) :=
  p ← ss_prepare p;
  '(h, p) ← @run_pool SemiSpace ss_trace buf false (λ _ _, false) fuel h p pool;
  p ← ss_release p;
  Val (h, p).
End plan.
