(* ===== verification/SemiSpaceInv.v ===== *)
(** * The semi-space plan keeps the promises of tracing *)

From stdpp Require Import gmap.
From S2P Require Import Prelude Tracing TracingInv TracingTheorems Spaces LargeObjects LargeObjectsTheorems SemiSpace.

Section semispace.
Context (C : ss_config).
Abbreviation OM := (ss_om C).
#[local] Hint Extern 0 (PlanTrace SemiSpace) => exact (ss_trace C) : typeclass_instances.

(** ** Spaces of objects *)

Definition space_of (o : Z) : option ss_space :=
  if ss_in_space C Copy0 o then Some Copy0 else if ss_in_space C Copy1 o then Some Copy1 else if ss_in_space C Immortal o then Some Immortal
  else if ss_in_space C Los o then Some Los else if ss_in_space C NonMoving o then Some NonMoving else None.
Definition to_of (hi : bool) : ss_space := if hi then Copy1 else Copy0.
Definition from_of (hi : bool) : ss_space := if hi then Copy0 else Copy1.

Definition objects_in (k : ss_space) (h : heap) : gset Z := filter (λ o, space_of o = Some k) (dom (h_fields h)).

(** What [ObjectModel::copy] is documented to do: the copy is a new object in the to-space,
    in memory that the copy allocator got from the page resource.  The plan reserves room for
    as many copies as there are objects to copy. *)
Definition copy_ok : Prop := ∀ hi h regions o, is_Some (h_fields h !! o) →
  (size (objects_in (to_of hi) h) < size (objects_in (from_of hi) h))%nat →
  let '(h', regions', o') := ss_copy C hi h regions o in
  copied h o h' o' ∧ h_fields h !! o' = None ∧ space_of o' = Some (to_of hi) ∧ covered regions' o' ∧ ∀ x, covered regions x → covered regions' x.
(** The mark and nursery bits of large objects are side metadata. *)
Context (Hcopy : copy_ok) (Hloside : los_bits_on_side OM = true).

(** ** Where an object is *)

Definition ss_fw (p : SemiSpace) (o : Z) : option Z :=
  match space_of o with
  | Some Copy0 => if cs_from_space (copyspace0 p) then md_forward (ss_md p) !! o else Some o
  | Some Copy1 => if cs_from_space (copyspace1 p) then md_forward (ss_md p) !! o else Some o
  | Some Immortal => if is_marked_state (im_mark_state (cp_immortal (ss_common p))) (ss_md p) o then Some o else None
  | Some NonMoving => if is_marked_state (im_mark_state (cp_nonmoving (ss_common p))) (ss_md p) o then Some o else None
  | Some Los => if los_visited (cp_los (ss_common p)) (ss_md p) o then Some o else None
  | None => None
  end.
(** The large objects of a heap, and the objects that were copied. *)
Definition large_objects (h : heap) : gset Z := objects_in Los h.
Definition forwarded (h : heap) (p : SemiSpace) : gset Z :=
  filter (λ o, is_Some (md_forward (ss_md p) !! o)) (objects_in (from_of (ss_hi p)) h).

(** Mark bits on the side are cleared for the regions of a space, which hold its objects. *)
Definition side_marks (h : heap) (k : ss_space) (sp : ImmortalSpace) : Prop :=
  mark_in_header OM = false → im_mark_state sp = 1 ∧ ∀ o, is_Some (h_fields h !! o) → space_of o = Some k → covered (mark_regions sp) o.

Record ss_inv (h : heap) (p : SemiSpace) : Prop := {
  si_flag0 : cs_from_space (copyspace0 p) = ss_hi p;
  si_flag1 : cs_from_space (copyspace1 p) = negb (ss_hi p);
  si_spaces o : is_Some (h_fields h !! o) → is_Some (space_of o);
  si_forward o o' : is_Some (h_fields h !! o) → space_of o = Some (from_of (ss_hi p)) → md_forward (ss_md p) !! o = Some o' → space_of o' = Some (to_of (ss_hi p));
  si_others o : is_Some (h_fields h !! o) → space_of o ≠ Some (from_of (ss_hi p)) → md_forward (ss_md p) !! o = None;
  si_side o : forwarding_in_header OM = false → is_Some (md_forward (ss_md p) !! o) → covered (cs_regions (fromspace p)) o;
  si_side_to o : forwarding_in_header OM = false → space_of o = Some (to_of (ss_hi p)) → md_forward (ss_md p) !! o = None;
  si_from_regions o : is_Some (h_fields h !! o) → space_of o = Some (from_of (ss_hi p)) → covered (cs_regions (fromspace p)) o;
  si_to_regions o : is_Some (h_fields h !! o) → space_of o = Some (to_of (ss_hi p)) → covered (cs_regions (tospace p)) o;
  si_room : (size (objects_in (to_of (ss_hi p)) h) ≤ size (forwarded h p))%nat;
  si_los : los_tracing (large_objects h) (cp_los (ss_common p)) (ss_md p);
  si_full : los_in_nursery_gc (cp_los (ss_common p)) = false;
  si_log : needs_log_bit (los_common (cp_los (ss_common p))) = false;
  si_immortal : side_marks h Immortal (cp_immortal (ss_common p));
  si_nonmoving : side_marks h NonMoving (cp_nonmoving (ss_common p))
}.

Lemma objects_elem k h o : o ∈ objects_in k h ↔ is_Some (h_fields h !! o) ∧ space_of o = Some k.
Proof. unfold objects_in. rewrite elem_of_filter, elem_of_dom. tauto. Qed.
Lemma large_elem h o : o ∈ large_objects h ↔ is_Some (h_fields h !! o) ∧ space_of o = Some Los.
Proof. apply objects_elem. Qed.

Lemma with_common_same p : with_common p (ss_common p) (ss_md p) = p.
Proof. by destruct p. Qed.
Lemma set_tospace_same p : with_common (set_tospace p (with_regions (tospace p) (cs_regions (tospace p)))) (ss_common p) (ss_md p) = p.
Proof. destruct p as [hi [] [] cp md]. by destruct hi. Qed.

(** The copy space that an object is in. *)
Lemma from_or_to hi k : k = Copy0 ∨ k = Copy1 → k = from_of hi ∨ k = to_of hi.
Proof. destruct hi; intros [-> | ->]; auto. Qed.
Lemma fw_copy h p o k :
  ss_inv h p → space_of o = Some k → (k = Copy0 ∨ k = Copy1) →
  ss_fw p o = if bool_decide (k = from_of (ss_hi p)) then md_forward (ss_md p) !! o else Some o.
Proof.
  intros HI Ek Hk. unfold ss_fw. rewrite Ek. destruct Hk as [-> | ->]; [rewrite (si_flag0 _ _ HI)|rewrite (si_flag1 _ _ HI)]; by destruct (ss_hi p).
Qed.

(** ** The laws *)

Lemma ss_idem h p o o' : ss_inv h p → is_Some (h_fields h !! o) → ss_fw p o = Some o' → ss_fw p o' = Some o'.
Proof.
  intros HI Ho E. destruct (space_of o) as [k|] eqn:Ek; [|by unfold ss_fw in E; rewrite Ek in E].
  destruct (decide (k = Copy0 ∨ k = Copy1)) as [Hk|Hk].
  - rewrite (fw_copy h p o k HI Ek Hk) in E. case_bool_decide as Hf; [|by injection E as <-; rewrite (fw_copy h p o k HI Ek Hk), bool_decide_false].
    subst k. pose proof (si_forward _ _ HI o o' Ho Ek E) as Et. rewrite (fw_copy h p o' _ HI Et) by (destruct (ss_hi p); auto).
    by rewrite bool_decide_false by (by destruct (ss_hi p)).
  - assert (o' = o) as ->; [|done]. unfold ss_fw in E. rewrite Ek in E. destruct k; try tauto; by repeat case_match; simplify_eq.
Qed.

Lemma ss_visited h p o o' : ss_inv h p → ss_fw p o = Some o' → ss_trace_object C h p o = Val (h, p, o', None).
Proof.
  intros HI E. unfold ss_trace_object, trace_in_copyspace, copyspace_trace_object. unfold ss_fw, space_of in E.
  destruct (ss_in_space C Copy0 o); [|destruct (ss_in_space C Copy1 o)].
  - destruct (cs_from_space (copyspace0 p)); [rewrite E|injection E as <-]; cbn [mbind res_bind negb]; by rewrite set_tospace_same.
  - destruct (cs_from_space (copyspace1 p)); [rewrite E|injection E as <-]; cbn [mbind res_bind negb]; by rewrite set_tospace_same.
  - unfold common_trace_object, immortal_trace_object, test_and_mark_state. destruct (ss_in_space C Immortal o); [|destruct (ss_in_space C Los o)].
    + unfold is_marked_state in E. destruct (_ =? _); [|done]. injection E as <-. cbn [mbind res_bind]. by rewrite with_common_same.
    + destruct (los_visited _ _ o) eqn:Ev; [|done]. injection E as <-. rewrite (los_trace_visited _ _ Hloside _ _ _ _ (si_los _ _ HI) Ev). cbn [mbind res_bind].
      replace {| cp_immortal := _ |} with (ss_common p) by (by destruct (ss_common p)). by rewrite with_common_same.
    + destruct (ss_in_space C NonMoving o); [|done]. unfold is_marked_state in E. destruct (_ =? _); [|done]. injection E as <-. cbn [mbind res_bind].
      by rewrite with_common_same.
Qed.

Lemma los_visited_ext sp md md' o : md_los md' = md_los md → los_visited sp md' o = los_visited sp md o.
Proof. intros E. unfold los_visited, is_in_nursery, test_mark_bit. by rewrite E. Qed.
Lemma los_tracing_ext O sp md md' : md_los md' = md_los md → los_tracing O sp md → los_tracing O sp md'.
Proof.
  intros E HT. assert (∀ o, los_visited sp md' o = los_visited sp md o) as Ev by (intros o; by apply los_visited_ext).
  assert (∀ o, is_in_nursery md' o = is_in_nursery md o) as En by (intros o; unfold is_in_nursery; by rewrite E).
  split; intros; rewrite ?E, ?Ev, ?En in *; by apply HT.
Qed.

(** What the trace leaves alone. *)
Definition ss_same (h : heap) (p : SemiSpace) (h' : heap) (p' : SemiSpace) : Prop :=
  ss_hi p' = ss_hi p ∧ los_released (cp_los (ss_common p')) = los_released (cp_los (ss_common p)) ∧ large_objects h' = large_objects h.

(** Copying. *)
Lemma ss_first_copy h p o k cs :
  ss_inv h p → is_Some (h_fields h !! o) → space_of o = Some k → k = from_of (ss_hi p) → cs_from_space cs = true → md_forward (ss_md p) !! o = None →
  ∃ h' p' o', trace_in_copyspace C cs h p o = Val (h', p', o', Some o') ∧ copied h o h' o' ∧ ss_inv h' p' ∧ ss_same h p h' p' ∧
    ∀ x, ss_fw p' x = if decide (x = o ∨ x = o') then Some o' else ss_fw p x.
Proof.
  intros HI Ho Ek Hk Hcs Hn. unfold trace_in_copyspace, copyspace_trace_object. rewrite Hcs, Hn. cbn [negb unwrap mbind res_bind].
  assert (size (forwarded h p) < size (objects_in (from_of (ss_hi p)) h))%nat as Hroom.
  { apply subset_size. split; [unfold forwarded; set_solver|]. intros Hsub. specialize (Hsub o). rewrite objects_elem in Hsub. unfold forwarded in Hsub. rewrite elem_of_filter, Hn in Hsub.
    destruct Hsub as [[? ?] _]; [by rewrite Ek, Hk|done]. }
  pose proof (si_room _ _ HI) as Hle. pose proof (Hcopy (ss_hi p) h (cs_regions (tospace p)) o Ho ltac:(lia)) as HC. destruct (ss_copy C (ss_hi p) h (cs_regions (tospace p)) o) as [[h' regions'] o'].
  destruct HC as (Hc & Hn' & Eto & Hcov & Hmore). 
  destruct (post_copy_ok OM (ss_log_in_header C) (cs_common cs) DefaultCopy (ss_md p) o') as (md1 & -> & Efo & Emark1 & Elos1 & _); [intros Hfh; by apply (si_side_to _ _ HI)|].
  cbn [mbind res_bind]. eexists h', _, o'. split; [reflexivity|]. split; [done|].
  assert (o ≠ o') as Hne by (intros <-; rewrite Hn' in Ho; by destruct Ho).
  assert (∃ fs', h_fields h' = <[o' := fs']> (h_fields h)) as [fs' Ef] by (destruct Hc as [? ->|? fs' ? ? ? ?]; [done|by exists fs']).
  set (md' := set_forward md1 _). set (p' := with_common _ _ _).
  assert (md_forward md' !! o = Some o') as Emo by apply lookup_insert_eq.
  assert (∀ x, x ≠ o → x ≠ o' → md_forward md' !! x = md_forward (ss_md p) !! x) as Emd.
  { intros x Hx Hx'. cbn [md' md_forward set_forward]. rewrite lookup_insert_ne, Efo by done. by apply lookup_delete_ne. }
  assert (md_los md' = md_los (ss_md p) ∧ md_mark md' = md_mark (ss_md p)) as [Elos Emark] by done.
  assert (md_forward md' !! o' = None) as Emt by (cbn [md' md_forward set_forward]; rewrite lookup_insert_ne, Efo by done; apply lookup_delete_eq).
  assert (∀ x, is_Some (h_fields h' !! x) ↔ x = o' ∨ is_Some (h_fields h !! x)) as Hdom.
  { intros x. rewrite Ef. destruct (decide (x = o')) as [-> |]; [rewrite lookup_insert_eq; naive_solver|]. rewrite lookup_insert_ne by done. naive_solver. }
  assert (∀ k, objects_in k h' = if decide (k = to_of (ss_hi p)) then {[o']} ∪ objects_in k h else objects_in k h) as Hobj.
  { intros k0. apply set_eq. intros x. case_decide as Hk0; rewrite ?elem_of_union, ?elem_of_singleton, !objects_elem, Hdom; [naive_solver|].
    split; [|naive_solver]. intros [[-> |?] Ex]; [congruence|done]. }
  assert (from_of (ss_hi p) ≠ to_of (ss_hi p)) as Hft by (by destruct (ss_hi p)).
  assert (cs_from_space (copyspace0 p') = cs_from_space (copyspace0 p) ∧ cs_from_space (copyspace1 p') = cs_from_space (copyspace1 p)) as [F0 F1].
  { unfold p', set_tospace, tospace. cbn [with_common copyspace0 copyspace1]. by destruct (ss_hi p). }
  assert (fromspace p' = fromspace p ∧ cs_regions (tospace p') = regions') as [Rf Rt] by (unfold p', set_tospace, tospace, fromspace; cbn; by destruct (ss_hi p)).
  assert (ss_hi p' = ss_hi p ∧ ss_md p' = md' ∧ ss_common p' = ss_common p) as (Ehi & Emd' & Ecp) by done.
  assert (large_objects h' = large_objects h) as Elarge.
  { unfold large_objects. rewrite Hobj, decide_False; [done|by destruct (ss_hi p)]. }
  split; [|split; [done|]].
  - split; rewrite ?Ehi, ?Emd', ?Ecp, ?F0, ?F1, ?Rf, ?Rt; try by apply HI.
    + intros x [-> |Hx]%Hdom; [by rewrite Eto|]. by apply (si_spaces _ _ HI).
    + intros x x' Hx Ex E. destruct (decide (x = o)) as [-> |Hxo]; [congruence|]. destruct (proj1 (Hdom x) Hx) as [-> |Hx']; [congruence|].
      rewrite Emd in E; [by apply (si_forward _ _ HI x)|done|]. by intros ->; congruence.
    + intros x Hx Ex. assert (x ≠ o) by congruence. destruct (proj1 (Hdom x) Hx) as [-> |Hx'].
      * done.
      * rewrite Emd; [by apply (si_others _ _ HI)|done|]. intros ->. rewrite Hn' in Hx'. by destruct Hx'.
    + intros x Hfh. destruct (decide (x = o)) as [-> |Hxo]; [intros _; apply (si_from_regions _ _ HI); congruence|].
      destruct (decide (x = o')) as [-> |?]; [rewrite Emt; by intros []|]. rewrite Emd by auto. by apply (si_side _ _ HI).
    + intros x Hfh Ex. destruct (decide (x = o')) as [-> |?]; [done|]. rewrite Emd by congruence. by apply (si_side_to _ _ HI).
    + intros x Hx Ex. destruct (proj1 (Hdom x) Hx) as [-> |Hx']; [congruence|]. by apply (si_from_regions _ _ HI).
    + intros x Hx Ex. destruct (proj1 (Hdom x) Hx) as [-> |Hx']; [done|]. by apply Hmore, (si_to_regions _ _ HI).
    + assert (forwarded h' p' = {[o]} ∪ forwarded h p) as ->.
      { unfold forwarded. rewrite Ehi, Emd', Hobj, decide_False by done. apply set_eq. intros x. rewrite elem_of_union, elem_of_singleton, !elem_of_filter.
        destruct (decide (x = o)) as [-> |Hx]; [rewrite Emo, objects_elem; naive_solver|]. split; [|intros [?|[Hs Hx']]; [done|]]; rewrite objects_elem in *.
        - intros [Hs [Hd Ex]]. right. rewrite Emd in Hs; [done|done|]. intros ->. congruence.
        - destruct Hx' as [Hd Ex]. rewrite Emd; [done|done|]. intros ->. congruence. }
      rewrite Hobj, decide_True by done. rewrite !size_union, !size_singleton; [lia|..].
      * unfold forwarded. rewrite disjoint_singleton_l, elem_of_filter, Hn. intros [[? ?] _]. done.
      * rewrite disjoint_singleton_l, objects_elem, Hn'. intros [[? ?] _]. done.
    + rewrite Elarge. by eapply los_tracing_ext, (si_los _ _ HI).
    + intros Hm. destruct (si_immortal _ _ HI Hm) as [? Hcv]. split; [done|]. intros x [-> |?]%Hdom Ex; [destruct (ss_hi p); cbn in Eto; congruence|by apply Hcv].
    + intros Hm. destruct (si_nonmoving _ _ HI Hm) as [? Hcv]. split; [done|]. intros x [-> |?]%Hdom Ex; [destruct (ss_hi p); cbn in Eto; congruence|by apply Hcv].
  - intros x. unfold ss_fw. rewrite F0, F1, Ecp, Emd', (si_flag0 _ _ HI), (si_flag1 _ _ HI). unfold is_marked_state. rewrite Emark, (los_visited_ext _ (ss_md p) md') by done.
    destruct (decide (x = o ∨ x = o')) as [[-> | ->]|Hx]; [rewrite Ek, Hk, Emo; by destruct (ss_hi p)|rewrite Eto; by destruct (ss_hi p)|].
    rewrite Emd by tauto. done.
Qed.

(** Marking in place. *)
Lemma ss_inv_marked h p cp md' :
  ss_inv h p → md_forward md' = md_forward (ss_md p) → los_tracing (large_objects h) (cp_los cp) md' → los_in_nursery_gc (cp_los cp) = false →
  los_common (cp_los cp) = los_common (cp_los (ss_common p)) → cp_immortal cp = cp_immortal (ss_common p) → cp_nonmoving cp = cp_nonmoving (ss_common p) →
  ss_inv h (with_common p cp md').
Proof. intros HI Ef Hl Hf Hc E1 E2. split; unfold forwarded; cbn [with_common ss_md ss_common ss_hi copyspace0 copyspace1]; rewrite ?Ef, ?Hc, ?E1, ?E2; try done; apply HI. Qed.

Lemma immortal_first sp md o :
  is_marked_state (im_mark_state sp) md o = false →
  ∃ md', immortal_trace_object sp md o = (md', o, Some o) ∧ md_mark md' = <[o := im_mark_state sp]> (md_mark md) ∧ md_forward md' = md_forward md ∧ md_los md' = md_los md.
Proof.
  intros E. unfold immortal_trace_object, test_and_mark_state. unfold is_marked_state in E. rewrite E. eexists. split; [reflexivity|]. by destruct (needs_log_bit _).
Qed.

Lemma ss_first h p o :
  ss_inv h p → is_Some (h_fields h !! o) → ss_fw p o = None →
  ∃ h' p' o', ss_trace_object C h p o = Val (h', p', o', Some o') ∧ copied h o h' o' ∧ ss_inv h' p' ∧ ss_same h p h' p' ∧
    ∀ x, ss_fw p' x = if decide (x = o ∨ x = o') then Some o' else ss_fw p x.
Proof.
  intros HI Ho En. destruct (si_spaces _ _ HI o Ho) as [k Ek]. pose proof Ek as Ek'. unfold space_of in Ek'. unfold ss_trace_object.
  assert (∀ sp md', md_mark md' = <[o := im_mark_state sp]> (md_mark (ss_md p)) → md_forward md' = md_forward (ss_md p) → md_los md' = md_los (ss_md p) →
    (k = Immortal ∧ sp = cp_immortal (ss_common p) ∨ k = NonMoving ∧ sp = cp_nonmoving (ss_common p)) →
    ∃ h' p' o', Val (h, with_common p (ss_common p) md', o, Some o) = Val (h', p', o', Some o') ∧ copied h o h' o' ∧ ss_inv h' p' ∧ ss_same h p h' p' ∧
    ∀ x, ss_fw p' x = if decide (x = o ∨ x = o') then Some o' else ss_fw p x) as Hmark.
  { intros sp md' Em Ef El Hk. eexists _, _, _. split; [reflexivity|]. split; [by apply copied_same|]. split; [|split; [done|]].
    - apply ss_inv_marked; try done; [|apply HI]. by eapply los_tracing_ext, (si_los _ _ HI).
    - intros x. unfold ss_fw. cbn [with_common copyspace0 copyspace1 ss_md ss_common]. rewrite Ef, (los_visited_ext _ (ss_md p) md') by done. unfold is_marked_state. rewrite Em.
      destruct (decide (x = o ∨ x = o)) as [Hx|Hx].
      + assert (x = o) as -> by tauto. rewrite Ek, !fn_lookup_insert. destruct Hk as [[-> ->]|[-> ->]]; by rewrite Z.eqb_refl.
      + rewrite !fn_lookup_insert_ne by (intros ?; subst; tauto). done. }
  unfold ss_fw in En. rewrite Ek in En.
  destruct (ss_in_space C Copy0 o); [|destruct (ss_in_space C Copy1 o)].
  - injection Ek' as <-. destruct (cs_from_space (copyspace0 p)) eqn:Ec; [|done]. eapply ss_first_copy; try done. rewrite (si_flag0 _ _ HI) in Ec. by rewrite Ec.
  - injection Ek' as <-. destruct (cs_from_space (copyspace1 p)) eqn:Ec; [|done]. eapply ss_first_copy; try done. rewrite (si_flag1 _ _ HI) in Ec. by destruct (ss_hi p).
  - unfold common_trace_object. destruct (ss_in_space C Immortal o); [|destruct (ss_in_space C Los o); [|destruct (ss_in_space C NonMoving o); [|done]]]; injection Ek' as <-.
    + destruct (is_marked_state _ _ o) eqn:Em; [done|]. destruct (immortal_first _ _ _ Em) as (md' & -> & E1 & E2 & E3). cbn [mbind res_bind]. by eapply Hmark; auto.
    + destruct (los_visited _ _ o) eqn:Em; [done|]. pose proof (proj2 (large_elem h o) (conj Ho Ek)) as Hl.
      destruct (los_trace_first OM (ss_bm C) Hloside _ _ _ _ (si_los _ _ HI) Hl Em) as (sp' & md' & -> & HT & Eg & Eco & Er & Ef & Ema & Hv). cbn [mbind res_bind].
      eexists _, _, _. split; [reflexivity|]. split; [by apply copied_same|]. split; [apply ss_inv_marked; try done; cbn; rewrite Eg; apply HI|]. split; [done|].
      intros x. unfold ss_fw. cbn [with_common copyspace0 copyspace1 ss_md ss_common cp_immortal cp_los cp_nonmoving]. rewrite Ef, Hv. unfold is_marked_state. rewrite Ema.
      destruct (decide (x = o ∨ x = o)) as [Hx|Hx]; [assert (x = o) as -> by tauto; by rewrite Ek, bool_decide_true|]. by rewrite bool_decide_false by tauto.
    + destruct (is_marked_state _ _ o) eqn:Em; [done|]. destruct (immortal_first _ _ _ Em) as (md' & -> & E1 & E2 & E3). cbn [mbind res_bind]. by eapply Hmark; auto.
Qed.

(** The laws, with what stays the same during one trace. *)
Definition ss_laws (h0 : heap) (p0 : SemiSpace) : TraceLaws SemiSpace.
Proof.
  refine {| tr_inv := λ h p, ss_inv h p ∧ ss_same h0 p0 h p; fw := ss_fw |}.
  - intros h p s o [HI Hs] _. split; [|done]. split; apply HI.
  - intros h p o o' [HI _]. by apply ss_idem.
  - done.
  - intros h p o o' [HI _]. by apply ss_visited.
  - intros h p o [HI Hs] Ho E. destruct (ss_first h p o HI Ho E) as (h' & p' & o' & E' & Hc & HI' & Hs' & Hf). exists h', p', o'. split_and!; try done.
    change (ss_same h0 p0 h' p'). destruct Hs as (? & ? & ?), Hs' as (? & ? & ?). split_and!; congruence.
Defined.
End semispace.
