(* ===== verification/SemiSpaceTheorems.v ===== *)
(** * A semi-space collection

    [prepare], the trace by any number of workers and [release], from one heap that is ready to
    be collected to the next. *)

From stdpp Require Import gmap.
From S2P Require Import Prelude Tracing TracingInv TracingTheorems Spaces LargeObjects LargeObjectsTheorems SemiSpace SemiSpaceInv.

Section collection.
Context (C : ss_config) (Hcopy : copy_ok C) (Hloside : los_bits_on_side (ss_om C) = true) (buf : buffer_features).
Abbreviation OM := (ss_om C).
#[local] Hint Extern 0 (PlanTrace SemiSpace) => exact (ss_trace C) : typeclass_instances.
Abbreviation space_of := (space_of C).
Abbreviation large_objects := (large_objects C).

(** ** Between collections *)

(** Reachable objects are unmarked, or their marks will be cleared. *)
Definition marks_ready (h : heap) (roots : list Z) (k : ss_space) (sp : ImmortalSpace) (md : metadata) : Prop :=
  side_marks C h k sp ∧
  (mark_in_header OM = true → ∀ o, reachable h roots o → space_of o = Some k → md_mark md o ≠ im_mark_state sp).

Record ss_ready (h : heap) (p : SemiSpace) (roots : list Z) : Prop := {
  sr_heap : heap_ok h roots;
  sr_spaces o : is_Some (h_fields h !! o) → is_Some (space_of o);
  sr_copies o : is_Some (h_fields h !! o) → space_of o ≠ Some (from_of (ss_hi p));
  sr_forward o : (forwarding_in_header OM = true → is_Some (h_fields h !! o)) → md_forward (ss_md p) !! o = None;
  sr_regions o : is_Some (h_fields h !! o) → space_of o = Some (to_of (ss_hi p)) → covered (cs_regions (tospace p)) o;
  sr_immortal : marks_ready h roots Immortal (cp_immortal (ss_common p)) (ss_md p);
  sr_nonmoving : marks_ready h roots NonMoving (cp_nonmoving (ss_common p)) (ss_md p);
  sr_los : los_idle (large_objects h) (cp_los (ss_common p)) (ss_md p);
  sr_log : needs_log_bit (los_common (cp_los (ss_common p))) = false
}.

(** ** Prepare *)

Lemma marks_cleared h roots k sp md md' o :
  marks_ready h roots k sp md → heap_ok h roots → reachable h roots o → space_of o = Some k → (mark_in_header OM = true → md_mark md' o = md_mark md o) →
  (mark_in_header OM = false → covered (mark_regions sp) o → md_mark md' o = 0) → is_marked_state (im_mark_state sp) md' o = false.
Proof.
  intros [Hs Hh] HO Hr Ek E1 E2. unfold is_marked_state. apply Z.eqb_neq. destruct (mark_in_header OM) eqn:Em; [rewrite E1 by done; by apply Hh|].
  destruct (Hs Em) as [-> Hc]. rewrite E2; [done..|]. apply Hc; [|done]. by apply (ho_objects _ _ HO).
Qed.

Lemma prepare_ok h p roots :
  ss_ready h p roots →
  ∃ p1, ss_prepare C p = Val p1 ∧ ss_inv C h p1 ∧ (∀ o, reachable h roots o → ss_fw C p1 o = None) ∧
    (∀ o o', is_Some (h_fields h !! o) → ss_fw C p1 o = Some o' → o' = o) ∧ ss_hi p1 = negb (ss_hi p) ∧
    (∀ o, o ∈ large_objects h → ss_fw C p1 o = None) ∧ los_released (cp_los (ss_common p1)) = los_released (cp_los (ss_common p)).
Proof.
  intros HR. unfold ss_prepare, common_prepare. rewrite !immortal_prepare_regions.
  destruct (block_resets OM (ss_md p) (mark_regions (cp_immortal (ss_common p)))) as (F1 & L1 & H1 & S1).
  set (md1 := foldl _ _ (mark_regions (cp_immortal _))) in *. destruct (block_resets OM md1 (mark_regions (cp_nonmoving (ss_common p)))) as (F2 & L2 & H2 & S2).
  set (md2 := foldl _ md1 _) in *.
  destruct (los_prepare_ok _ _ _ true (sr_los _ _ _ HR)) as (los & -> & HT & Hg & Hc & Hrel & Hv). cbn [mbind res_bind].
  eexists. split; [reflexivity|]. set (p1 := set_tospace _ _).
  assert (ss_hi p1 = negb (ss_hi p) ∧ ss_md p1 = md2 ∧ cp_los (ss_common p1) = los ∧ cp_immortal (ss_common p1) = cp_immortal (ss_common p) ∧
    cp_nonmoving (ss_common p1) = cp_nonmoving (ss_common p)) as (Ehi & Emd & El & Ei & En) by done.
  assert (cs_from_space (copyspace0 p1) = ss_hi p1 ∧ cs_from_space (copyspace1 p1) = negb (ss_hi p1)) as [F0 F0'].
  { unfold p1, set_tospace, set_fromspace, tospace, fromspace. cbn. by destruct (ss_hi p). }
  assert (cs_regions (fromspace p1) = cs_regions (tospace p)) as Rf by (unfold p1, set_tospace, set_fromspace, tospace, fromspace; cbn; by destruct (ss_hi p)).
  assert (∀ o, (forwarding_in_header OM = true → is_Some (h_fields h !! o)) → md_forward md2 !! o = None) as Hfwd by (intros o Ho; rewrite F2, F1; by apply (sr_forward _ _ _ HR)).
  assert (to_of (ss_hi p) = from_of (ss_hi p1) ∧ from_of (ss_hi p) = to_of (ss_hi p1)) as [Tf Ft] by (rewrite Ehi; by destruct (ss_hi p)).
  assert (md_los md2 = md_los (ss_md p)) as Elos by (by rewrite L2, L1).
  assert (ss_inv C h p1) as HI.
  { split; rewrite ?Emd, ?El, ?Ei, ?En; try done.
    - apply HR.
    - intros o o' Ho _. rewrite Hfwd; done.
    - intros o Ho _. by apply Hfwd.
    - intros o Hfh. rewrite Hfwd; [by intros []|congruence].
    - intros o Hfh _. apply Hfwd. congruence.
    - intros o Ho Ek. rewrite Rf. apply (sr_regions _ _ _ HR o Ho). congruence.
    - intros o Ho Ek. rewrite <-Ft in Ek. by apply (sr_copies _ _ _ HR) in Ek.
    - replace (objects_in C (to_of (ss_hi p1)) h) with (∅ : gset Z); [by rewrite size_empty; lia|]. symmetry. apply set_eq. intros o. rewrite objects_elem.
      split; [|by intros ?%elem_of_empty]. intros [Ho Ek]. rewrite <-Ft in Ek. by apply (sr_copies _ _ _ HR) in Ek.
    - by eapply los_tracing_ext.
    - by rewrite Hc, (sr_log _ _ _ HR).
    - apply (sr_immortal _ _ _ HR).
    - apply (sr_nonmoving _ _ _ HR). }
  assert (∀ o, o ∈ large_objects h → ss_fw C p1 o = None) as Hlos.
  { intros o Ho. unfold ss_fw. rewrite (proj2 (proj1 (large_elem C h o) Ho)), El, Emd, (los_visited_ext _ (ss_md p)) by done. by rewrite Hv. }
  assert (∀ o k, is_Some (h_fields h !! o) → space_of o = Some k → k = Copy0 ∨ k = Copy1 → ss_fw C p1 o = None) as Hcp.
  { intros o k Ho Ek Hk. rewrite (fw_copy C h p1 o k HI Ek Hk). destruct (from_or_to (ss_hi p1) k Hk) as [-> | ->].
    - rewrite bool_decide_true by done. rewrite Emd. by apply Hfwd.
    - rewrite <-Ft in Ek. by apply (sr_copies _ _ _ HR) in Ek. }
  split; [done|]. split; [|split; [|split; [done|split; [done|by rewrite El]]]].
  - intros o Hr. pose proof (ho_objects _ _ (sr_heap _ _ _ HR) o Hr) as Ho. destruct (sr_spaces _ _ _ HR o Ho) as [k Ek].
    destruct k; [apply (Hcp o Copy0); auto|apply (Hcp o Copy1); auto| |by apply Hlos, large_elem|]; unfold ss_fw; rewrite Ek, ?Ei, ?En, Emd.
    + rewrite (marks_cleared h roots Immortal _ (ss_md p) md2 o (sr_immortal _ _ _ HR) (sr_heap _ _ _ HR)); try done.
      * intros Hm. by rewrite H2, H1.
      * intros Hm Hcov. destruct (S2 Hm o) as [[-> _]|?]; [|done]. by destruct (S1 Hm o) as [[_ ?]|?].
    + rewrite (marks_cleared h roots NonMoving _ (ss_md p) md2 o (sr_nonmoving _ _ _ HR) (sr_heap _ _ _ HR)); try done.
      * intros Hm. by rewrite H2, H1.
      * intros Hm Hcov. by destruct (S2 Hm o) as [[_ ?]|?].
  - intros o o' Ho E. destruct (sr_spaces _ _ _ HR o Ho) as [k Ek].
    destruct (decide (k = Copy0 ∨ k = Copy1)) as [Hk|Hk]; [by rewrite (Hcp o k Ho Ek Hk) in E|].
    unfold ss_fw in E. rewrite Ek in E. destruct k; try tauto; by repeat case_match; simplify_eq.
Qed.

(** ** Release *)

(** The heap without what was swept. *)
Definition survives (p : SemiSpace) (o : Z) : Prop :=
  space_of o ≠ Some (from_of (ss_hi p)) ∧ (space_of o = Some Los → los_visited (cp_los (ss_common p)) (ss_md p) o = true).
#[local] Instance survives_dec p o : Decision (survives p o) := _.
Definition survivors (h : heap) (p : SemiSpace) : heap := {| h_slots := h_slots h; h_fields := filter (λ x, survives p x.1) (h_fields h) |}.

Lemma survivors_elem h p o : is_Some (h_fields (survivors h p) !! o) ↔ is_Some (h_fields h !! o) ∧ survives p o.
Proof.
  unfold survivors, is_Some. cbn [h_fields]. setoid_rewrite map_lookup_filter_Some. cbn [fst]. naive_solver.
Qed.

Lemma release_ok h p roots :
  ss_inv C h p → heap_ok (survivors h p) roots → (∀ o, reachable (survivors h p) roots o → ss_fw C p o = Some o) →
  ∃ p', ss_release C p = Val p' ∧ ss_ready (survivors h p) p' roots ∧ ss_hi p' = ss_hi p ∧
    ∃ swept, los_released (cp_los (ss_common p')) = los_released (cp_los (ss_common p)) ++ (object_pages OM <$> swept) ∧
      swept ≡ₚ elements (filter (λ o, los_visited (cp_los (ss_common p)) (ss_md p) o = false) (large_objects h)).
Proof.
  intros HI HO Hm. unfold ss_release, common_release.
  destruct (los_release_ok OM _ _ _ true (si_los _ _ _ HI) (or_introl (si_log _ _ _ HI)) (si_full _ _ _ HI)) as (los & -> & Hidle & Hco & Hsw). cbn [mbind res_bind].
  unfold copyspace_release. destruct (clear_regions OM (ss_log_in_header C) (fromspace p) (cs_regions (fromspace p)) (ss_md p)) as (E1 & E2 & E3 & E4). set (md' := foldl _ _ _) in *.
  eexists. split; [reflexivity|]. set (p' := with_common _ _ _). split; [|done].
  assert (ss_hi p' = ss_hi p ∧ ss_md p' = md' ∧ cp_los (ss_common p') = los) as (Ehi & Emd & El) by done.
  assert (tospace p' = tospace p) as Et by (unfold p', tospace, set_fromspace; cbn; by destruct (ss_hi p)).
  assert (∀ k sp, side_marks C h k sp → side_marks C (survivors h p) k (immortal_release OM sp)) as Hside.
  { intros k sp Hs Hmh. destruct (Hs Hmh) as [Es Hc]. cbn [immortal_release im_mark_state]. unfold on_global_release. rewrite Hmh. split; [done|].
    intros o [Ho _]%survivors_elem. by apply Hc. }
  assert (∀ o k sp, reachable (survivors h p) roots o → space_of o = Some k → ss_fw C p o = (if is_marked_state (im_mark_state sp) (ss_md p) o then Some o else None) →
    mark_in_header OM = true → md_mark md' o ≠ im_mark_state (immortal_release OM sp)) as Hhead.
  { intros o k sp Hr Ek Efw Hmh. rewrite Hm in Efw by done. unfold is_marked_state in Efw. destruct (Z.eqb_spec (md_mark (ss_md p) o) (im_mark_state sp)) as [Es|]; [|done].
    cbn [immortal_release im_mark_state]. unfold on_global_release. rewrite Hmh, E1, Es. apply not_eq_sym, flipped_state. }
  split; rewrite ?Ehi, ?Emd, ?El, ?Et.
  - done.
  - intros o [Ho _]%survivors_elem. by apply (si_spaces _ _ _ HI).
  - intros o [_ [Hn _]]%survivors_elem. done.
  - intros o Ho. destruct (forwarding_in_header OM) eqn:Hh.
    + rewrite (E3 eq_refl). destruct (proj1 (survivors_elem h p o) (Ho eq_refl)) as [Hd [Hn _]]. by apply (si_others _ _ _ HI).
    + destruct (md_forward md' !! o) as [x|] eqn:Ex; [|done]. destruct (E4 eq_refl o) as [Hx Hn]; [by rewrite Ex|]. by destruct Hn; apply (si_side _ _ _ HI).
  - intros o [Ho _]%survivors_elem. by apply (si_to_regions _ _ _ HI).
  - split; [apply Hside, (si_immortal _ _ _ HI)|]. intros Hmh o Hr Ek. apply (Hhead o Immortal); try done. unfold ss_fw. by rewrite Ek.
  - split; [apply Hside, (si_nonmoving _ _ _ HI)|]. intros Hmh o Hr Ek. apply (Hhead o NonMoving); try done. unfold ss_fw. by rewrite Ek.
  - replace (large_objects (survivors h p)) with (filter (λ o, los_visited (cp_los (ss_common p)) (ss_md p) o = true) (large_objects h)).
    + destruct Hidle. split; rewrite ?E2; done.
    + apply set_eq. intros o. rewrite elem_of_filter, !large_elem, survivors_elem. unfold survives. split; [|naive_solver].
      intros (Hv & Ho & Ek). split_and!; try done. rewrite Ek. by destruct (ss_hi p).
  - by rewrite Hco, (si_log _ _ _ HI).
Qed.

(** ** The theorem *)

(** [place] says where the reachable objects of [h] are in [h']: objects of the copied space
    in the other one, others where they were. *)
Record ss_collected (h : heap) (p : SemiSpace) (roots : list Z) (h' : heap) (p' : SemiSpace) (place : Z → option Z) : Prop := {
  sc_flipped : ss_hi p' = negb (ss_hi p);
  sc_placed o : reachable h roots o → is_Some (place o);
  sc_image o' : reachable h' roots o' ↔ ∃ o, reachable h roots o ∧ place o = Some o';
  sc_unique o1 o2 o' : reachable h roots o1 → reachable h roots o2 → place o1 = Some o' → place o2 = Some o' → o1 = o2;
  sc_space o o' : reachable h roots o → place o = Some o' →
    if decide (space_of o = Some (to_of (ss_hi p))) then space_of o' = Some (to_of (ss_hi p')) else o' = o;
  sc_roots s : s ∈ roots → slot_load h' s = slot_load h s ≫= place;
  sc_fields o o' : reachable h roots o → place o = Some o' → Forall2 (λ s s', slot_load h' s' = slot_load h s ≫= place) (fields h o) (fields h' o');
  sc_swept : ∃ swept, los_released (cp_los (ss_common p')) = los_released (cp_los (ss_common p)) ++ (object_pages OM <$> swept) ∧
    NoDup swept ∧ ∀ o, o ∈ swept ↔ o ∈ large_objects h ∧ ¬ reachable h roots o;
  sc_ready : ss_ready h' p' roots
}.

Section trace.
Context (h : heap) (p p1 : SemiSpace) (pool : list packet).
#[local] Hint Extern 0 (TraceLaws SemiSpace) => exact (ss_laws C Hcopy Hloside h p1) : typeclass_instances.

Lemma trace_release (h1 : heap) (p2 : SemiSpace) :
  let roots := root_slots pool in
  ss_ready h p roots → (∀ o, reachable h roots o → ss_fw C p1 o = None) → (∀ o, reach h p1 roots o ↔ reachable h roots o) → ss_hi p1 = negb (ss_hi p) →
  (∀ o, o ∈ large_objects h → ss_fw C p1 o = None) → los_released (cp_los (ss_common p1)) = los_released (cp_los (ss_common p)) →
  preserved h p1 roots h1 p2 →
  ∃ p3, ss_release C p2 = Val p3 ∧ ss_collected h p roots (survivors h1 p2) p3 (ss_fw C p2).
Proof.
  cbv zeta. set (roots := root_slots pool). intros HR Hn Hrr Ehi Hln Hrel HP.
  destruct (pr_plan _ _ _ _ _ HP : ss_inv C h1 p2 ∧ ss_same C h p1 h1 p2) as [HI2 (Ehi2 & Erel & Elarge)]. pose proof (sr_heap _ _ _ HR) as HO.
  assert (from_of (ss_hi p2) = to_of (ss_hi p) ∧ to_of (ss_hi p2) = from_of (ss_hi p)) as [Ff Ft] by (rewrite Ehi2, Ehi; by destruct (ss_hi p)).
  assert (∀ o, reachable h roots o → is_Some (h_fields h1 !! o)) as Hdom by (intros o Ho; rewrite (pr_same _ _ _ _ _ HP); by apply (ho_objects _ _ HO)).
  assert (∀ o o', reachable h roots o → ss_fw C p2 o = Some o' →
    if decide (space_of o = Some (to_of (ss_hi p))) then space_of o' = Some (to_of (ss_hi p2)) else o' = o) as Hspace.
  { intros o o' Ho E. case_decide as Ek; [rewrite <-Ff in Ek|].
    - rewrite (fw_copy C h1 p2 o _ HI2 Ek) in E by (destruct (ss_hi p2); auto). rewrite bool_decide_true in E by done. by apply (si_forward _ _ _ HI2 o o' (Hdom o Ho)).
    - destruct (si_spaces _ _ _ HI2 o (Hdom o Ho)) as [k Ek']. destruct (decide (k = Copy0 ∨ k = Copy1)) as [Hk|Hk].
      + rewrite (fw_copy C h1 p2 o k HI2 Ek' Hk) in E. rewrite bool_decide_false in E by congruence. congruence.
      + unfold ss_fw in E. rewrite Ek' in E. destruct k; try tauto; by repeat case_match; simplify_eq. }
  assert (∀ o o', reachable h roots o → ss_fw C p2 o = Some o' → survives p2 o') as Hsv.
  { intros o o' Ho E. pose proof (Hspace o o' Ho E) as Hs. case_decide as Ek.
    - split; rewrite Hs; [by destruct (ss_hi p2)|by destruct (ss_hi p2)].
    - subst o'. split; [by rewrite Ff|]. intros El. unfold ss_fw in E. rewrite El in E. by destruct (los_visited _ _ o). }
  destruct (heap_preserved (TL := ss_laws C Hcopy Hloside h p1) h p1 roots h1 p2 (survives p2) HO Hn Hrr HP Hsv) as [HO' Himg].
  destruct (release_ok h1 p2 roots HI2 HO') as (p3 & E & HR' & Ehi3 & swept & Esw & Hsw).
  { intros x (o & Ho & Eo)%Himg. by apply (ss_idem C h1 p2 o x HI2 (Hdom o Ho)). }
  exists p3. split; [done|]. split.
  - by rewrite Ehi3, Ehi2.
  - intros o Ho. apply (pr_visited _ _ _ _ _ HP). by apply Hrr.
  - exact Himg.
  - intros o1 o2 o' H1 H2. apply (pr_unique _ _ _ _ _ HP); by apply (ho_objects _ _ HO).
  - intros o o' Ho Eo. rewrite Ehi3. by apply Hspace.
  - intros s Hs. destruct (pr_roots _ _ _ _ _ HP s Hs) as [_ Hd]. by apply slot_done_load in Hd.
  - intros o o' Ho Eo. assert (fields (survivors h1 p2) o' = fields h1 o') as ->.
    { unfold fields, survivors. cbn [h_fields]. destruct (pr_objects _ _ _ _ _ HP o o') as [fs Efs]; [by apply Hrr|done|]. rewrite Efs.
      rewrite (proj2 (map_lookup_filter_Some _ _ _ fs)); [done|]. split; [done|]. by apply (Hsv o). }
    eapply Forall2_impl; [apply (pr_fields _ _ _ _ _ HP o o'); [by apply Hrr|by apply Hn|done]|]. intros s s' Hd. by apply slot_done_load in Hd.
  - exists swept. rewrite Esw, Erel, Hrel. split; [done|]. split; [rewrite Hsw; apply NoDup_elements|]. intros o. rewrite Hsw, elem_of_elements, elem_of_filter, Elarge.
    assert (o ∈ large_objects h → (los_visited (cp_los (ss_common p2)) (ss_md p2) o = true ↔ reachable h roots o)) as Hv.
    { intros Ho. assert (ss_fw C p2 o = Some o ↔ los_visited (cp_los (ss_common p2)) (ss_md p2) o = true) as Hfw.
      { unfold ss_fw. rewrite (proj2 (proj1 (large_elem C h o) Ho)). by destruct (los_visited _ _ o). }
      rewrite <-Hfw. split.
      - intros Eo. destruct (pr_only _ _ _ _ _ HP o o) as [Ex|?]; [by apply (large_elem C h o)|done| |by apply Hrr]. cbn in Ex. by rewrite (Hln o Ho) in Ex.
      - intros Hr. destruct (pr_visited _ _ _ _ _ HP o) as [x Ex]; [by apply Hrr|]. cbn in Ex. rewrite Ex. pose proof (Hspace o x Hr Ex) as Hs. case_decide as Ek; [|congruence].
        rewrite (proj2 (proj1 (large_elem C h o) Ho)) in Ek. by destruct (ss_hi p). }
    split; [intros [Hx Ho]|intros [Ho Hx]; split; [|done]].
    + split; [done|]. intros Hr%Hv; [congruence|done].
    + apply not_true_iff_false. by rewrite Hv.
  - done.
Qed.
End trace.

(** C3: a semi-space collection of a plan whose large object space has its bits on the side, with
    a binding that copies an object to a fresh place of the other space.  For a heap that is
    ready, [prepare] does not panic, and no schedule of the workers takes more than [cost] steps
    or gets stuck.  Once the packets are gone [release] does not panic: the objects that the roots reach are in the heap, each once, with
    the same shape; those of the copied space are in the other space and the others in place;
    the large objects that were swept are exactly those that the roots do not reach; and the
    heap is ready for the next collection. *)
Theorem semispace_collects (h : heap) (p : SemiSpace) (pool : list packet) :
  ss_ready h p (root_slots pool) →
  ∃ p1, ss_prepare C p = Val p1 ∧
    let start := {| ts_heap := h; ts_plan := p1; ts_pool := pool; ts_running := [] |} in
    ∀ n st, nsteps (trace_step buf false (λ _ _, false)) n start st →
    (n ≤ cost (TL := ss_laws C Hcopy Hloside h p1) h start)%nat ∧ (drained st ∨ ∃ st', trace_step buf false (λ _ _, false) st st') ∧
    (drained st → ∃ p2, ss_release C (ts_plan st) = Val p2 ∧
      ss_collected h p (root_slots pool) (survivors (ts_heap st) (ts_plan st)) p2 (ss_fw C (ts_plan st))).
Proof.
  intros HR. destruct (prepare_ok h p _ HR) as (p1 & E & HI & Hn & Hf & Ehi & Hln & Hrel). exists p1. split; [done|]. intros start n st Hst.
  destruct (heap_graph (TL := ss_laws C Hcopy Hloside h p1) h p1 (root_slots pool) (sr_heap _ _ _ HR) Hn Hf) as [HG Hrr].
  destruct (preserved_graph (TL := ss_laws C Hcopy Hloside h p1) buf false (λ _ _, false) h p1 pool HG n st) as (Hc & Hp & Hd); [by split|done|].
  split; [done|]. split; [done|]. intros Hdr. by eapply trace_release, Hd.
Qed.

(** One worker: the collection as a function ends. *)
Lemma ss_collect_total (h : heap) (p : SemiSpace) (pool : list packet) :
  ss_ready h p (root_slots pool) →
  ∃ fuel0, ∀ fuel, (fuel0 ≤ fuel)%nat → ∃ h1 p2 p3, ss_collect C buf fuel h p pool = Val (h1, p3) ∧
    ss_collected h p (root_slots pool) (survivors h1 p2) p3 (ss_fw C p2).
Proof.
  intros HR. destruct (prepare_ok h p _ HR) as (p1 & E & HI & Hn & Hf & Ehi & Hln & Hrel). unfold ss_collect. rewrite E. cbn [mbind res_bind].
  destruct (heap_graph (TL := ss_laws C Hcopy Hloside h p1) h p1 (root_slots pool) (sr_heap _ _ _ HR) Hn Hf) as [HG Hrr].
  eexists. intros fuel Hfu.
  destruct (run_pool_total (TL := ss_laws C Hcopy Hloside h p1) buf false (λ _ _, false) h p1 pool HG fuel h p1 pool) as (h1 & p2 & E2 & HP); [|exact Hfu|].
  { apply (start_inv (TL := ss_laws C Hcopy Hloside h p1) h p1 pool HG). by split. }
  rewrite E2. cbn [mbind res_bind]. destruct (trace_release h p p1 pool h1 p2 HR Hn Hrr Ehi Hln Hrel HP) as (p3 & -> & HC). by exists h1, p2, p3.
Qed.
End collection.
