(* ===== verification/SemiSpaceExample.v ===== *)
(** * A heap for the semi-space plan

    A binding whose [copy] takes new addresses above all others, a heap with a cycle through
    every space, and a collection of it. *)

From stdpp Require Import gmap.
From S2P Require Import Prelude Tracing TracingInv TracingTheorems Spaces LargeObjects LargeObjectsTheorems SemiSpace SemiSpaceInv SemiSpaceTheorems.

(** ** Copying *)

(** The space of an address is its remainder. *)
Definition sample_in_space (k : ss_space) (o : Z) : bool :=
  o `mod` 5 =? match k with Copy0 => 0 | Copy1 => 1 | Immortal => 2 | Los => 3 | NonMoving => 4 end.
Definition max_key {A} (m : gmap Z A) : Z := foldr Z.max 0 (elements (dom m)).
Definition sample_top (h : heap) : Z := 1 + Z.max (max_key (h_slots h)) (max_key (h_fields h)).
Definition copy_slots (m : gmap Z (option Z)) (l : list (Z * Z)) : gmap Z (option Z) :=
  foldr (λ x, partial_alter (λ _, m !! x.1) x.2) m l.
(** A copy at an address with remainder [r] modulo [m]. *)
Definition copy_at (m r : Z) (h : heap) (regions : list (Z * Z)) (o : Z) : heap * list (Z * Z) * Z :=
  let top := sample_top h in
  let o' := m * top + r in
  let fs := fields h o in
  let fs' := (λ i, top + i) <$> seqZ 0 (Z.of_nat (length fs)) in
  ({| h_slots := copy_slots (h_slots h) (zip fs fs'); h_fields := <[o' := fs']> (h_fields h) |}, (o', 1) :: regions, o').
Definition sample_copy (hi : bool) : heap → list (Z * Z) → Z → heap * list (Z * Z) * Z := copy_at 5 (if hi then 1 else 0).
Definition sample_om : object_model :=
  {| mark_in_header := false; forwarding_in_header := false; los_bits_on_side := true; COMPRESSED_PTR_ENABLED := false; get_size := λ _, 16; to_object_start := λ o, o |}.
Definition sample_config : ss_config :=
  {| ss_om := sample_om; ss_bm := {| BARRIER_MEASUREMENT := false; BARRIER_MEASUREMENT_NO_SLOW := false |}; ss_log_in_header := false;
     ss_in_space := sample_in_space; ss_copy := sample_copy |}.

Lemma max_key_le {A} (m : gmap Z A) k : is_Some (m !! k) → k ≤ max_key m.
Proof.
  intros Hk. unfold max_key. assert (k ∈ elements (dom m)) as Hin by (by apply elem_of_elements, elem_of_dom).
  induction (elements (dom m)) as [|x l IH]; [by apply elem_of_nil in Hin|]. cbn [foldr]. apply elem_of_cons in Hin as [-> |Hin]; [lia|]. apply IH in Hin. lia.
Qed.
Lemma max_key_nonneg {A} (m : gmap Z A) : 0 ≤ max_key m.
Proof. unfold max_key. induction (elements (dom m)); cbn [foldr]; lia. Qed.
Lemma top_fresh h x : sample_top h ≤ x → h_slots h !! x = None ∧ h_fields h !! x = None.
Proof.
  intros Hx. unfold sample_top in Hx.
  split; apply eq_None_not_Some; intros Hs%max_key_le; lia.
Qed.

Lemma copy_slots_other m l x : x ∉ l.*2 → copy_slots m l !! x = m !! x.
Proof.
  induction l as [|[s s'] l IH]; intros Hx; [done|]. cbn [copy_slots foldr fst snd fmap list_fmap] in *. apply not_elem_of_cons in Hx as [? ?].
  rewrite lookup_partial_alter_ne by done. by apply IH.
Qed.
Lemma copy_slots_copied m fs fs' i s s' :
  NoDup fs' → fs !! i = Some s → fs' !! i = Some s' → copy_slots m (zip fs fs') !! s' = m !! s.
Proof.
  revert fs i. induction fs' as [|x' fs' IH]; intros [|x fs] i Hnd Hi Hi'; [done..|]. cbn [zip zip_with copy_slots foldr fst snd]. apply NoDup_cons in Hnd as [Hx Hnd].
  destruct i as [|i]; cbn in Hi, Hi'; [injection Hi as ->; injection Hi' as ->; by rewrite lookup_partial_alter_eq|].
  rewrite lookup_partial_alter_ne; [by apply (IH fs i)|]. intros ->. apply Hx. by eapply list_elem_of_lookup_2.
Qed.

Lemma copy_at_ok m r h regions o :
  0 ≤ r < m → is_Some (h_fields h !! o) →
  let '(h', regions', o') := copy_at m r h regions o in
  copied h o h' o' ∧ h_fields h !! o' = None ∧ o' `mod` m = r ∧ covered regions' o' ∧ ∀ x, covered regions x → covered regions' x.
Proof.
  intros Hr [fs Efs]. unfold copy_at. rewrite (fields_lookup _ _ _ Efs).
  set (top := sample_top h). set (fs' := (λ i, top + i) <$> seqZ 0 (Z.of_nat (length fs))). set (o' := m * top + _).
  assert (1 ≤ top) as Htop by (unfold top, sample_top; pose proof (max_key_nonneg (h_slots h)); lia).
  assert (top ≤ o') as Ho' by (unfold o'; nia). destruct (top_fresh h o' Ho') as [_ Hn].
  assert (length fs' = length fs) as Hlen by (unfold fs'; rewrite length_fmap, length_seqZ; lia).
  assert (NoDup fs') as Hnd by (apply NoDup_fmap_2; [intros x y; lia|apply NoDup_seqZ]).
  assert (∀ s, s ∈ fs' → top ≤ s) as Hge by (intros s (i & -> & Hi)%list_elem_of_fmap; apply elem_of_seqZ in Hi; lia).
  assert ((zip fs fs').*2 = fs') as Ez by (apply snd_zip; lia).
  split; [|split; [done|split; [|split]]].
  - eapply (copied_new _ _ _ _ fs fs'); try done.
    + intros s Hs. by apply top_fresh, Hge.
    + intros s Hs. apply copy_slots_other. by rewrite Ez.
    + intros i s s'. by apply copy_slots_copied.
  - unfold o'. rewrite Z.add_comm, Z.mul_comm, Z.mod_add by lia. by apply Z.mod_small.
  - exists (o', 1). split; [by left|]. unfold in_region. cbn [fst snd]. apply andb_true_iff. split; [by apply Z.leb_le|apply Z.ltb_lt; lia].
  - intros x (r' & Hr' & Hx). exists r'. split; [by right|done].
Qed.
Lemma sample_ss_copy_ok : copy_ok sample_config.
Proof.
  intros hi h regions o Ho _. cbn [ss_copy sample_config]. unfold sample_copy. pose proof (copy_at_ok 5 (if hi then 1 else 0) h regions o) as Hc.
  destruct (copy_at _ _ _ _ _) as [[h' regions'] o']. destruct Hc as (? & ? & Em & ? & ?); [by destruct hi|done|]. split_and!; try done.
  unfold space_of. cbn [ss_in_space sample_config]. unfold sample_in_space. rewrite Em. by destruct hi.
Qed.

(** ** The heap *)

(** Object 5 refers to 13 (large), 7 (immortal) and itself, 13 to 5, 7 to 9 (non-moving) and
    9 to 5; 10 and 18 (large) refer to each other and nothing refers to them.  The roots are
    the slots 1, which holds 5, and 2, which is empty. *)
Definition sample_graph : heap :=
  {| h_slots := list_to_map [(1, Some 5); (2, None); (51, Some 13); (52, Some 7); (53, Some 5); (131, Some 5); (71, Some 9); (72, None); (91, Some 5);
                             (101, Some 18); (181, Some 10)];
     h_fields := list_to_map [(5, [51; 52; 53]); (13, [131]); (7, [71; 72]); (9, [91]); (10, [101]); (18, [181])] |}.
Definition sample_common : CommonSpace := {| needs_log_bit := false; needs_field_log_bit := false |}.
Definition sample_immortal : ImmortalSpace :=
  {| im_mark_state := MarkState_new; im_common := sample_common; im_vm_space := false; im_extent := (0, 0); im_regions := [(0, 100)] |}.
Definition sample_los : LargeObjectSpace :=
  {| los_common := sample_common; los_mark_state := 0; los_in_nursery_gc := false;
     los_treadmill := {| tm_from_space := ∅; tm_to_space := {[ 18 ]}; tm_collect_nursery := ∅; tm_alloc_nursery := {[ 13 ]} |};
     los_trace_in_progress := false; los_rc_enabled := false; los_end_of_satb_or_full_gc := false; los_rc_nursery := []; los_rc_mature := ∅; los_released := [] |}.
Definition sample_copyspace (from_space : bool) (regions : list (Z * Z)) : CopySpace :=
  {| cs_common := sample_common; cs_from_space := from_space; cs_copy := None; cs_regions := regions |}.
Definition sample_plan : SemiSpace :=
  {| ss_hi := false; copyspace0 := sample_copyspace false [(0, 100)]; copyspace1 := sample_copyspace true [];
     ss_common := {| cp_immortal := sample_immortal; cp_los := sample_los; cp_nonmoving := sample_immortal |};
     ss_md := {| md_forward := ∅; md_mark := λ o, if o =? 7 then 1 else 0; md_los := λ o, if o =? 13 then 2 else 0; md_unlog := λ _, 0; md_field_unlog := λ _, 0 |} |}.
Definition sample_pool : list packet := [{| pe_slots := [1; 2]; pe_roots := true; pe_root_kind := Some Strong |}].
Definition small_buffers : buffer_features := {| lxr_buf_2048 := false; lxr_buf_1024 := false; lxr_buf_512 := false; lxr_buf_256 := true |}.

(** Its collection: 5 has moved, 7, 9 and 13 are where they were, 18 was swept. *)
Lemma sample_collection :
  match ss_collect sample_config small_buffers 100 sample_graph sample_plan sample_pool with
  | Val (h, p) =>
    let o := default 0 (slot_load h 1) in
    ss_hi p = true ∧ space_of sample_config o = Some Copy1 ∧ slot_load h 2 = None ∧
    (slot_load h <$> fields h o) = [Some 13; Some 7; Some o] ∧ slot_load h 131 = Some o ∧ slot_load h 71 = Some 9 ∧ slot_load h 91 = Some o ∧
    los_released (cp_los (ss_common p)) = [get_super_page 18] ∧ elements (tm_to_space (los_treadmill (cp_los (ss_common p)))) = [13]
  | _ => False
  end.
Proof. by vm_compute. Qed.

Lemma sample_values s o : slot_load sample_graph s = Some o → is_Some (h_fields sample_graph !! o).
Proof.
  intros Hs. unfold slot_load in Hs. destruct (h_slots sample_graph !! s) as [v|] eqn:Es; [|done]. cbn in Hs. subst v.
  assert (map_Forall (λ _ v, match v with Some o => bool_decide (is_Some (h_fields sample_graph !! o)) | None => true end = true) (h_slots sample_graph)) as HF
    by (apply (bool_decide_unpack _); by vm_compute).
  by apply (bool_decide_unpack _), Is_true_eq_left, (HF s (Some o) Es).
Qed.
Lemma sample_fields_ok :
  map_Forall (λ o fs, NoDup fs ∧ Forall (λ s, is_Some (h_slots sample_graph !! s) ∧ s ∉ root_slots sample_pool) fs ∧
    map_Forall (λ o' fs', o = o' ∨ Forall (λ s, s ∉ fs') fs) (h_fields sample_graph)) (h_fields sample_graph).
Proof. apply (bool_decide_unpack _). by vm_compute. Qed.
Lemma sample_heap_ok : heap_ok sample_graph (root_slots sample_pool).
Proof.
  assert (∀ o, reachable sample_graph (root_slots sample_pool) o → is_Some (h_fields sample_graph !! o)) as Hr by (intros o Ho; destruct Ho; by eapply sample_values).
  assert (∀ o fs, h_fields sample_graph !! o = Some fs → fields sample_graph o = fs) as Hf by (intros o fs; apply fields_lookup).
  split; [|done|..].
  - intros s Hs. assert (Forall (λ s, is_Some (h_slots sample_graph !! s)) (root_slots sample_pool)) as HF by (apply (bool_decide_unpack _); by vm_compute).
    rewrite Forall_forall in HF. by apply HF.
  - intros o s [fs E]%Hr. rewrite (Hf o fs E). intros Hs. destruct (sample_fields_ok o fs E) as (_ & HF & _). rewrite Forall_forall in HF. by apply HF.
  - intros o [fs E]%Hr. rewrite (Hf o fs E). by destruct (sample_fields_ok o fs E).
  - intros o1 o2 s [fs1 E1]%Hr [fs2 E2]%Hr. rewrite (Hf o1 fs1 E1), (Hf o2 fs2 E2). intros H1 H2. destruct (sample_fields_ok o1 fs1 E1) as (_ & _ & HF).
    destruct (HF o2 fs2 E2) as [?|HF2]; [done|]. rewrite Forall_forall in HF2. by destruct (HF2 s H1).
Qed.

Lemma sample_objects (Q : Z → Prop) `{!∀ o, Decision (Q o)} :
  bool_decide (map_Forall (λ o (_ : list Z), Q o) (h_fields sample_graph)) = true → ∀ o, is_Some (h_fields sample_graph !! o) → Q o.
Proof. intros HF%bool_decide_eq_true o [fs E]. by apply (HF o fs). Qed.
Lemma sample_covered o : is_Some (h_fields sample_graph !! o) → covered [(0, 100)] o.
Proof. intros Ho. exists (0, 100). split; [by left|]. revert o Ho. by apply (sample_objects (λ o, in_region (0, 100) o = true)); vm_compute. Qed.
Lemma sample_marks_ready k : marks_ready sample_config sample_graph (root_slots sample_pool) k sample_immortal (ss_md sample_plan).
Proof. split; [|done]. intros _. split; [done|]. intros o Ho _. by apply sample_covered. Qed.

Lemma sample_large : large_objects sample_config sample_graph = {[ 13; 18 ]}.
Proof. apply (bool_decide_unpack _). by vm_compute. Qed.
Lemma sample_ready : ss_ready sample_config sample_graph sample_plan (root_slots sample_pool).
Proof.
  split; [apply sample_heap_ok|..].
  - by apply (sample_objects (λ o, is_Some (space_of sample_config o))); vm_compute.
  - by apply (sample_objects (λ o, space_of sample_config o ≠ Some Copy1)); vm_compute.
  - intros o _. apply lookup_empty.
  - intros o Ho _. by apply sample_covered.
  - apply sample_marks_ready.
  - apply sample_marks_ready.
  - rewrite sample_large. split; try done; cbn [ss_md sample_plan md_los ss_common cp_los sample_los los_mark_state los_treadmill tm_to_space tm_alloc_nursery];
      unfold NURSERY_BIT; [by left|intros o..]; rewrite ?elem_of_union, ?elem_of_singleton; destruct (Z.eqb_spec o 13); lia.
  - done.
Qed.

(** A collection of it with any number of workers. *)
Definition sample_collected (p1 : SemiSpace) : Prop :=
  let start := {| ts_heap := sample_graph; ts_plan := p1; ts_pool := sample_pool; ts_running := [] |} in
  let step := trace_step (H := ss_trace sample_config) small_buffers false (λ _ _, false) in
  ∀ n st, nsteps step n start st →
    (n ≤ cost (TL := ss_laws sample_config sample_ss_copy_ok eq_refl sample_graph p1) sample_graph start)%nat ∧ (drained st ∨ ∃ st', step st st') ∧
    (drained st → ∃ p2, ss_release sample_config (ts_plan st) = Val p2 ∧
      ss_collected sample_config sample_graph sample_plan (root_slots sample_pool) (survivors sample_config (ts_heap st) (ts_plan st)) p2 (ss_fw sample_config (ts_plan st))).
Lemma semispace_collects_witness : ∃ p1, ss_prepare sample_config sample_plan = Val p1 ∧ sample_collected p1.
Proof. apply (semispace_collects sample_config sample_ss_copy_ok eq_refl small_buffers sample_graph sample_plan sample_pool). exact sample_ready. Defined.

(** The trace alone, after [prepare]. *)
Definition sample_traced (p1 : SemiSpace) : Prop :=
  let step := trace_step (H := ss_trace sample_config) small_buffers false (λ _ _, false) in
  ∀ n st, nsteps step n (start sample_graph p1 sample_pool) st →
    (n ≤ cost (TL := ss_laws sample_config sample_ss_copy_ok eq_refl sample_graph p1) sample_graph (start sample_graph p1 sample_pool))%nat ∧ (drained st ∨ ∃ st', step st st') ∧
    (drained st → preserved (TL := ss_laws sample_config sample_ss_copy_ok eq_refl sample_graph p1) sample_graph p1 (root_slots sample_pool) (ts_heap st) (ts_plan st)).
Lemma tracing_preserves_graph_witness : ∃ p1, ss_prepare sample_config sample_plan = Val p1 ∧ sample_traced p1.
Proof.
  destruct (prepare_ok sample_config _ _ _ sample_ready) as (p1 & E & HI & Hn & Hf & _). exists p1. split; [exact E|].
  destruct (heap_graph (TL := ss_laws sample_config sample_ss_copy_ok eq_refl sample_graph p1) sample_graph p1 (root_slots sample_pool) sample_heap_ok Hn Hf) as [HG _].
  intros n st. apply (tracing_preserves_graph (TL := ss_laws sample_config sample_ss_copy_ok eq_refl sample_graph p1) small_buffers false (λ _ _, false) sample_graph p1 sample_pool HG n st).
  by split.
Defined.
