(* ===== verification/FreeListUnits.v ===== *)
(** * A free list as a set of blocks

    What a client of a free list that merges freely needs: the allocated blocks, as a map
    from first unit to size, and the number of units that are free.  Allocation fails only
    when no run of units of that length is free. *)

From S2P Require Import Prelude FreeList FreeListModel FreeListSpec FreeListInv FreeListRefine FreeListClient.

Definition no_uc : Z → bool := λ _, false.

(** The units in free blocks. *)
Definition free_units (ss : list seg) : Z := foldr (λ x n, if s_free x then s_size x + n else n) 0 ss.
(** No two free blocks meet. *)
Definition merged (ss : list seg) : Prop := ∀ A x y B, ss = A ++ x :: y :: B → ¬ (s_free x = true ∧ s_free y = true).

Lemma free_units_app A B : free_units (A ++ B) = free_units A + free_units B.
Proof. induction A as [|x A IH]; cbn [app free_units foldr] in *; [done|]. unfold free_units in *. rewrite IH. destruct (s_free x); lia. Qed.
Lemma free_units_cons x B : free_units (x :: B) = (if s_free x then s_size x else 0) + free_units B.
Proof. unfold free_units. cbn [foldr]. destruct (s_free x); lia. Qed.
Lemma free_units_range a b ss : tiles a b ss → 0 ≤ free_units ss ≤ b - a.
Proof.
  revert a. induction ss as [|[u s f] ss IH]; intros a; cbn [tiles]; [intros ->; cbn; lia|].
  intros (-> & Hs & Ht%IH). rewrite free_units_cons. cbn [s_free s_size]. destruct f; lia.
Qed.

(** Every unit is in a block. *)
Lemma tiles_cover a b ss c : tiles a b ss → a ≤ c < b → ∃ x, x ∈ ss ∧ s_start x ≤ c < s_start x + s_size x.
Proof.
  revert a. induction ss as [|[u s f] ss IH]; intros a; cbn [tiles]; [lia|].
  intros (-> & Hs & Ht) Hc. destruct (decide (c < a + s)) as [?|?].
  - exists (Seg a s f). split; [constructor|cbn; lia].
  - destruct (IH _ Ht) as (x & Hx & ?); [lia|]. exists x. split; [by constructor|done].
Qed.

Lemma merged_app A B : merged (A ++ B) ↔ merged A ∧ merged B ∧ ∀ A' x y B', A = A' ++ [x] → B = y :: B' → ¬ (s_free x = true ∧ s_free y = true).
Proof.
  split.
  - intros Hm. split_and!.
    + intros A1 x y A2 ->. apply (Hm A1 x y (A2 ++ B)). by rewrite <-app_assoc.
    + intros B1 x y B2 ->. apply (Hm (A ++ B1) x y B2). by rewrite <-app_assoc.
    + intros A' x y B' -> ->. apply (Hm A' x y B'). by rewrite <-app_assoc.
  - intros (HA & HB & Hj) A1 x y B1 E. destruct (decide (length A1 < length A)%nat) as [Hl|Hl].
    + destruct (decide (S (length A1) < length A)%nat) as [Hl2|Hl2].
      * assert (A = A1 ++ x :: y :: drop (S (S (length A1))) A) as E2.
        { rewrite <-(take_drop (S (S (length A1))) A) at 1. apply (f_equal (take (S (S (length A1))))) in E.
          rewrite take_app_le in E by lia. rewrite E. replace (S (S (length A1))) with (length A1 + 2)%nat by lia.
          rewrite take_app_add. cbn [take]. by rewrite <-app_assoc. }
        by apply (HA _ _ _ _ E2).
      * assert (length A = S (length A1)) as Hl3 by lia. replace (A1 ++ x :: y :: B1) with ((A1 ++ [x]) ++ y :: B1) in E by (by rewrite <-app_assoc).
        apply app_inj_1 in E as [-> ->]; [|rewrite length_app; cbn; lia]. by eapply Hj.
    + apply (HB (drop (length A) A1) x y B1). apply (f_equal (drop (length A))) in E. rewrite drop_app_length in E. rewrite E.
      by rewrite drop_app_le by lia.
Qed.

Section blocks.
Context {T : Type} `{!FreeList T} `{!FreeListLaws T}.
Context (h H n : Z).
Implicit Types (t : T) (ss : list seg) (l : list Z) (live : gmap Z Z).
Abbreviation R t ss l := (fl_rel t h H n no_uc ss l).

Definition blocks_in ss live : Prop := ∀ u s, Seg u s false ∈ ss ↔ live !! u = Some s.
Definition fl_blocks t live (avail : Z) : Prop := ∃ ss l, R t ss l ∧ blocks_in ss live ∧ free_units ss = avail ∧ merged ss.

(** No unit of the run is in a block. *)
Definition unused live (c size : Z) : Prop := ∀ u s, live !! u = Some s → u + s ≤ c ∨ c + size ≤ u.

Lemma unit_blocks_bounds t live avail : fl_blocks t live avail → 0 ≤ avail ≤ n ∧ 0 ≤ n ≤ MAX_UNITS.
Proof.
  intros (ss & l & HR & _ & <- & _). pose proof (rel_tiles _ _ _ _ _ _ _ HR) as Ht. pose proof (free_units_range _ _ _ Ht).
  split; [lia|]. by eapply rel_bounds.
Qed.
Lemma blocks_block t live avail u s : fl_blocks t live avail → live !! u = Some s → 0 ≤ u ∧ 1 ≤ s ∧ u + s ≤ n.
Proof.
  intros (ss & l & HR & Hin & _) E%Hin. pose proof (tiles_elem _ _ _ _ (rel_tiles _ _ _ _ _ _ _ HR) E). cbn in *. lia.
Qed.
Lemma blocks_disjoint t live avail u s v r :
  fl_blocks t live avail → live !! u = Some s → live !! v = Some r → u = v ∨ u + s ≤ v ∨ v + r ≤ u.
Proof.
  intros (ss & l & HR & Hin & _) Eu%Hin Ev%Hin. destruct (tiles_disjoint _ _ _ _ _ (rel_tiles _ _ _ _ _ _ _ HR) Eu Ev) as [[=]|?]; [by left|by right].
Qed.
Lemma blocks_size t live avail u s : fl_blocks t live avail → live !! u = Some s → size t u = Val s.
Proof. intros (ss & l & HR & Hin & _) E%Hin. by eapply rel_size. Qed.

(** ** Allocation *)

Lemma carve_pieces t A B u s size l :
  R t (A ++ Seg u s true :: B) l →
  carve (A ++ Seg u s true :: B) u size = A ++ (if size <? s then [Seg u size false; Seg (u + size) (s - size) true] else [Seg u s false]) ++ B.
Proof. intros HR. apply carve_split. intros y Hy. destruct HR as (m & _ & Hi & _). eapply inv_ne_start; [done|set_solver]. Qed.

Lemma blocks_carve t t' ss l l' live u size :
  R t ss l → blocks_in ss live → merged ss → u ∈ l → 1 ≤ size ≤ seg_size_at ss u → R t' (carve ss u size) l' →
  0 ≤ u ∧ u + size ≤ n ∧ unused live u size ∧ size ≤ free_units ss ∧ fl_blocks t' (<[u := size]> live) (free_units ss - size).
Proof.
  intros HR Hin Hm Hu Hs HR'. destruct (rel_listed_split _ _ _ _ _ _ _ _ _ HR Hu) as (A & B & E). set (s := seg_size_at ss u) in *. clearbody s. subst ss.
  pose proof (carve_pieces _ _ _ _ _ size _ HR) as Ec. pose proof (rel_tiles _ _ _ _ _ _ _ HR) as Ht. pose proof (rel_tiles _ _ _ _ _ _ _ HR') as Ht'.
  assert (Seg u s true ∈ A ++ Seg u s true :: B) as Hus by set_solver. pose proof (tiles_elem _ _ _ _ Ht Hus) as Hb. cbn [s_start s_size] in Hb.
  assert (∀ x, x ∈ A ++ B → s_start x ≠ u) as Hne.
  { intros x Hx Ex. assert (x ∈ A ++ Seg u s true :: B) as Hx' by set_solver. pose proof (tiles_start_inj _ _ _ _ _ Ht Hx' Hus Ex) as ->.
    apply tiles_nodup in Ht. apply NoDup_app in Ht as (_ & H1 & [H2 _]%NoDup_cons). apply elem_of_app in Hx as [Hx|Hx]; [|done]. by apply (H1 _ Hx); constructor. }
  assert (free_units (A ++ Seg u s true :: B) = free_units A + (s + free_units B)) as Ef by (by rewrite free_units_app, free_units_cons).
  apply tiles_app in Ht as (c & HA & (-> & _ & HB)). pose proof (free_units_range _ _ _ HA). pose proof (free_units_range _ _ _ HB).
  split; [lia|]. split; [lia|]. split; [|split; [lia|]].
  - intros v r Ev%Hin. assert (Seg v r false ∈ A ++ B) as [Hv|Hv]%elem_of_app by set_solver.
    + apply (tiles_elem _ _ _ _ HA) in Hv. cbn in *. lia.
    + apply (tiles_elem _ _ _ _ HB) in Hv. cbn in *. lia.
  - eexists _, _. split; [exact HR'|]. rewrite Ec in *. split_and!.
    + intros v r. destruct (decide (v = c)) as [-> |Hv].
      * rewrite lookup_insert_eq. split; [|intros [= ->]; destruct (Z.ltb_spec r s); [set_solver|]; assert (s = r) as -> by lia; set_solver].
        destruct (Z.ltb_spec size s).
        -- intros Hx. assert (Seg c r false ∈ A ++ B ∨ r = size) as [Hx'| ->] by set_solver; [by apply Hne in Hx'|done].
        -- intros Hx. assert (Seg c r false ∈ A ++ B ∨ r = s) as [Hx'| ->] by set_solver; [by apply Hne in Hx'|]. f_equal. lia.
      * rewrite lookup_insert_ne by done. rewrite <-(Hin v r). destruct (size <? s); set_solver.
    + rewrite !free_units_app, free_units_cons. destruct (Z.ltb_spec size s); rewrite ?free_units_cons; cbn [s_free s_size free_units foldr]; lia.
    + apply merged_app in Hm as (HmA & HmB & Hj). apply (merged_app [Seg c s true] B) in HmB as (_ & HmB & Hj2).
      destruct (Z.ltb_spec size s).
      * apply merged_app. split; [done|]. split; [|intros A' x y B' _ [= <- _] [_ [=]]].
        apply (merged_app [_; _] B). split_and!; [|done|].
        -- intros [|? [|? [|? ?]]] x y B' [=]; simplify_eq; intros [[=] _].
        -- intros [|? [|? [|? ?]]] x y B' [=] ->; simplify_eq. intros [_ Hy]. by apply (Hj2 [] (Seg c s true) y B').
      * apply merged_app. split; [done|]. split; [|intros A' x y B' _ [= <- _] [_ [=]]].
        apply (merged_app [_] B). split_and!; [|done|].
        -- by intros [|? [|? ?]] x y B' [=].
        -- intros [|? [|? ?]] x y B' [=] ->; simplify_eq. intros [[=] _].
Qed.

(** A run of free units lies in one free block, when free blocks do not meet. *)
Lemma merged_run ss live a b c size :
  tiles a b ss → merged ss → blocks_in ss live → a ≤ c → 1 ≤ size → c + size ≤ b → unused live c size →
  ∃ u s, Seg u s true ∈ ss ∧ u ≤ c ∧ c + size ≤ u + s.
Proof.
  intros Ht Hm Hin Hc Hs Hb Hun. destruct (tiles_cover _ _ _ c Ht) as ([u s f] & Hx & Hr); [lia|]. cbn [s_start s_size] in Hr. destruct f.
  2:{ apply Hin in Hx. apply Hun in Hx. lia. }
  exists u, s. split; [done|]. split; [lia|]. destruct (decide (c + size ≤ u + s)) as [?|Hlt]; [done|exfalso].
  apply list_elem_of_split in Hx as (A & B & ->). pose proof (Hm A (Seg u s true)) as Hmm. apply tiles_app in Ht as (d & _ & (-> & _ & HB)).
  destruct B as [|[v r g] B]; cbn [tiles] in HB; [lia|]. destruct HB as (-> & Hr1 & _). destruct g; [by eapply Hmm|].
  assert (live !! (d + s) = Some r) as E by (apply Hin; set_solver). apply Hun in E. lia.
Qed.

Definition alloc_blocks t live avail (size : Z) (out : Z * T) : Prop :=
  (out = (FAILURE, t) ∧ ∀ c, 0 ≤ c → c + size ≤ n → ¬ unused live c size) ∨
  (0 ≤ out.1 ∧ out.1 + size ≤ n ∧ unused live out.1 size ∧ size ≤ avail ∧ fl_blocks out.2 (<[out.1 := size]> live) (avail - size)).

Lemma alloc_post_blocks t ss l live size choice out :
  R t ss l → blocks_in ss live → merged ss → 1 ≤ size → best_choice ss l size choice ∨ first_fit ss l size = choice →
  alloc_post h H n no_uc ss l size choice t out → alloc_blocks t live (free_units ss) size out.
Proof.
  intros HR Hin Hm Hs Hc Hp. destruct choice as [u|]; cbn in Hp.
  - destruct Hp as [Eu HR']. right. rewrite Eu. assert (u ∈ l ∧ size ≤ seg_size_at ss u) as [Hu Hfit].
    { destruct Hc as [(? & ? & _)|Hc]; [done|by apply first_fit_Some]. }
    eapply blocks_carve; try done.
  - left. split; [done|]. intros c Hc0 Hcn Hun. assert (∀ v, v ∈ l → seg_size_at ss v < size) as Hsmall.
    { destruct Hc as [Hc|Hc]; [done|]. unfold first_fit in Hc. apply fmap_None, list_find_None in Hc. rewrite Forall_forall in Hc.
      intros v Hv%Hc. lia. }
    pose proof (rel_tiles _ _ _ _ _ _ _ HR) as Ht. destruct (merged_run ss live 0 n c size) as (u & s & Hus & ? & ?); try done.
    assert (u ∈ l) as Hu by (destruct HR as (m & _ & Hi & _); apply (inv_free Hi); by exists s).
    apply Hsmall in Hu. rewrite (seg_size_at_elem _ _ _ _ _ _ Ht Hus) in Hu. lia.
Qed.
Lemma blocks_alloc t live avail size bf fuel :
  fl_blocks t live avail → 1 ≤ size → (Z.to_nat n < fuel)%nat → wp (alloc bf fuel t size) (alloc_blocks t live avail size).
Proof.
  intros (ss & l & HR & Hin & <- & Hm) Hs Hf. pose proof (rel_length _ _ _ _ _ _ _ HR). unfold alloc. destruct bf.
  - eapply wp_mono; [apply (alloc_best_fit_refines h H n no_uc t ss l); [done|done|lia]|]. intros out (choice & Hc & Hp).
    eapply alloc_post_blocks; try done. by left.
  - eapply wp_mono; [apply (alloc_first_fit_refines h H n no_uc t ss l); [done|done|lia]|]. intros out Hp.
    eapply alloc_post_blocks; try done. by right.
Qed.

(** ** Freeing *)

Lemma blocks_free t live avail u s :
  fl_blocks t live avail → live !! u = Some s →
  wp (free t u false) (λ out, out.1 = s ∧ fl_blocks out.2 (delete u live) (avail + s)).
Proof.
  intros (ss & l & HR & Hin & <- & Hm) Eu. pose proof (proj2 (Hin u s) Eu) as Hus. pose proof (rel_tiles _ _ _ _ _ _ _ HR) as Ht.
  eapply wp_mono; [by apply (free_refines_elem h H n no_uc t ss l u s)|]. intros out (start & tot & _ & _ & _ & E1 & HR').
  rewrite (seg_size_at_elem _ _ _ _ _ _ Ht Hus) in E1. split; [done|]. eexists _, _. split; [exact HR'|]. clear HR' E1.
  apply list_elem_of_split in Hus as (A & B & ->).
  destruct (free_segs_split h H n no_uc t A B u s l HR) as (A' & Ml & Mr & B' & -> & -> & HMl & HMr & Il & Ir & [Hst He] & ->).
  set (st := default u _) in *. set (e := default (u + s) _) in *.
  assert (∀ x, x ∈ A' ++ B' → s_start x ≠ u) as Hne.
  { intros x Hx Ex. rewrite <-!app_assoc in Ht. assert (x = Seg u s false) as ->.
    { eapply tiles_start_inj; [exact Ht|set_solver|set_solver|done]. }
    apply tiles_nodup in Ht. rewrite !app_assoc in Ht. apply NoDup_app in Ht as (_ & H1 & [H2 _]%NoDup_cons).
    apply elem_of_app in Hx as [Hx|Hx]; [|set_solver]. apply (H1 (Seg u s false)); [set_solver|constructor]. }
  assert (∀ x, x ∈ Ml ++ Mr → s_free x = true) as HM.
  { intros x [Hx|Hx]%elem_of_app; [destruct HMl as [->|(? & ? & ->)]|destruct HMr as [->|(? & ? & ->)]]; set_solver. }
  split_and!.
  - intros v r. destruct (decide (v = u)) as [-> |Hv].
    + rewrite lookup_delete_eq. split; [|done]. intros Hx. assert (Seg u r false ∈ A' ++ B') as Hx' by set_solver. by apply Hne in Hx'.
    + rewrite lookup_delete_ne by done. rewrite <-(Hin v r). split; [set_solver|]. intros Hx.
      assert (Seg v r false ∉ Ml ++ Mr) by (intros Hy%HM; done). set_solver.
  - rewrite !free_units_app, !free_units_cons, !free_units_app. cbn [s_free s_size].
    rewrite <-!app_assoc in Ht. apply tiles_app in Ht as (c & HA & Ht). apply tiles_app in Ht as (d & HL & Ht).
    destruct Ht as (-> & Hs & Ht). apply tiles_app in Ht as (f & HRt & HB).
    assert (st + free_units Ml = d) as E1.
    { destruct HMl as [->|(v & r & ->)]; cbn; [lia|]. destruct HL as (-> & ? & HL). cbn in *. lia. }
    assert (e = d + s + free_units Mr) as E2.
    { destruct HMr as [->|(v & r & ->)]; cbn; [lia|]. destruct HRt as (-> & ? & HRt). cbn in *. lia. }
    lia.
  - apply merged_app in Hm as (HmA & HmB & _). apply merged_app in HmA as (HmA' & _ & HjA). apply (merged_app [_] (Mr ++ B')) in HmB as (_ & HmB & _).
    apply merged_app in HmB as (_ & HmB' & HjB). apply merged_app. split; [done|]. split; [apply (merged_app [_] B'); split_and!|].
    + by intros [|? [|? ?]] x y L [=].
    + done.
    + intros X x y L _ -> [_ Hy]. destruct HMr as [->|(v & r & ->)]; [|by apply (HjB [] (Seg v r true) y L)].
      pose proof (proj1 Ir eq_refl) as Hir. cbn in Hir. by rewrite Hy in Hir.
    + intros X x y L -> [= <- _] [Hx _]. destruct HMl as [->|(v & r & ->)]; [|by apply (HjA X x (Seg v r true) [])].
      pose proof (proj1 Il eq_refl) as Hil. rewrite app_nil_r, last_snoc in Hil. cbn in Hil. by rewrite Hx in Hil.
Qed.
End blocks.

(** ** Lists that are allocated from the front *)

Section prefix.
Context {T : Type} `{!FreeList T} `{!FreeListLaws T}.
Context (h H n : Z).
Implicit Types (t : T) (uc : Z → bool) (A : list seg).

(** The blocks [A] are allocated, and the units from [k] on are one free block. *)
Definition rest (k : Z) : list seg := if k <? n then [Seg k (n - k) true] else [].
Definition fl_prefix t uc A (k : Z) : Prop := Forall (λ x, s_free x = false) A ∧ fl_rel t h H n uc (A ++ rest k) (if k <? n then [k] else []).

Lemma prefix_tiles t uc A k : fl_prefix t uc A k → k ≤ n → tiles 0 k A.
Proof.
  intros [_ HR] Hk. apply rel_tiles in HR. apply tiles_app in HR as (c & HA & Hr). unfold rest in Hr. destruct (Z.ltb_spec k n); cbn in Hr.
  - by destruct Hr as [-> _].
  - assert (c = k) as -> by lia. done.
Qed.

Lemma prefix_alloc t uc A k size fuel :
  fl_prefix t uc A k → 1 ≤ size → k + size ≤ n → (1 < fuel)%nat →
  wp (alloc_first_fit fuel t size) (λ out, out.1 = k ∧ fl_prefix out.2 uc (A ++ [Seg k size false]) (k + size)).
Proof.
  intros HP Hs Hk Hf. pose proof (prefix_tiles _ _ _ _ HP ltac:(lia)) as HtA. destruct HP as [HA HR]. unfold rest in HR. destruct (Z.ltb_spec k n) as [Hkn|]; [|lia].
  pose proof (rel_tiles _ _ _ _ _ _ _ HR) as Ht.
  eapply wp_mono; [by eapply alloc_first_fit_refines|]. intros out Hp.
  assert (seg_size_at (A ++ [Seg k (n - k) true]) k = n - k) as Es by (apply (seg_size_at_elem _ _ _ _ _ true Ht); set_solver).
  unfold first_fit in Hp. cbn [list_find] in Hp. rewrite Es in Hp. rewrite decide_True in Hp by lia. cbn in Hp. destruct Hp as [E HR']. split; [done|].
  rewrite Es in HR'. rewrite carve_split in HR'.
  2:{ intros x Hx. apply (tiles_elem _ _ _ _ HtA) in Hx. lia. }
  rewrite app_nil_r in HR'. unfold carve_order in HR'. split; [apply Forall_app; split; [done|by constructor]|].
  unfold rest. destruct (Z.ltb_spec size (n - k)), (Z.ltb_spec (k + size) n); try lia.
  - rewrite <-app_assoc. replace (n - (k + size)) with (n - k - size) by lia. unfold drop_unit in HR'. rewrite filter_cons_True, filter_cons_False in HR' by lia. done.
  - assert (n - k = size) as Eq by lia. rewrite app_nil_r. rewrite Eq in HR'. unfold drop_unit in HR'. rewrite filter_cons_False in HR' by lia. done.
Qed.

(** Marking a unit does not change the blocks. *)
Lemma rel_unco t uc ss l u :
  fl_rel t h H n uc ss l → inb H n u → wp (set_uncoalescable t u) (λ t', fl_rel t' h H n (<[u := true]> uc) ss l).
Proof.
  intros (m & Hr & Hi & Hu) Hb. eapply wp_mono; [by apply set_uncoalescable_ok|]. intros t' Hr'. exists (upd_unco m u true).
  split; [done|]. split; [|intros v Hv; cbn; destruct (decide (v = u)) as [-> |Hne]; [by rewrite !fn_lookup_insert|rewrite !fn_lookup_insert_ne by done; by apply Hu]].
  destruct Hi as [Hh Hn Hb0 Ht Hs Hf Hl Hnd Hfr Htp Hbt]. split; try done. by apply (linked_ring h Hh m).
Qed.
Lemma rel_uc_ext t uc uc' ss l : fl_rel t h H n uc ss l → (∀ v, inb H n v → uc' v = uc v) → fl_rel t h H n uc' ss l.
Proof. intros (m & Hr & Hi & Hu) E. exists m. split; [done|]. split; [done|]. intros v Hv. by rewrite E, Hu. Qed.

Definition live_of A : gmap Z Z := list_to_map ((λ x, (s_start x, s_size x)) <$> A).
Lemma live_of_spec A k : tiles 0 k A → Forall (λ x, s_free x = false) A → ∀ u s, Seg u s false ∈ A ↔ live_of A !! u = Some s.
Proof.
  intros Ht Hf u s. unfold live_of. rewrite <-elem_of_list_to_map.
  - rewrite list_elem_of_fmap. split; [intros Hx; by exists (Seg u s false)|]. intros ([u' s' f'] & [= -> ->] & Hx).
    rewrite Forall_forall in Hf. pose proof (Hf _ Hx) as E. cbn in E. by subst f'.
  - rewrite <-list_fmap_compose. apply NoDup_fmap_2_strong; [|by eapply tiles_nodup]. intros x y Hx Hy E. by eapply tiles_start_inj.
Qed.
Lemma free_units_none A : Forall (λ x, s_free x = false) A → free_units A = 0.
Proof. induction 1 as [|x A E _ IH]; [done|]. rewrite free_units_cons, E, IH. done. Qed.
Lemma merged_none A B : Forall (λ x, s_free x = false) A → (length B ≤ 1)%nat → merged (A ++ B).
Proof.
  intros HA HB. assert (∀ L, Forall (λ x, s_free x = false) L → merged L) as Hm.
  { intros L HL A1 x y B1 ->. apply Forall_app in HL as [_ [Hx _]%Forall_cons]. intros [? _]. congruence. }
  apply merged_app. split; [by apply Hm|]. split; [destruct B as [|x [|? ?]]; cbn in HB; [by apply Hm|by intros [|? [|? ?]] ? ? ? [=]|lia]|].
  intros A' x y B' -> _ [Hx _]. apply Forall_app in HA as [_ [? _]%Forall_cons]. congruence.
Qed.
Lemma prefix_blocks t A k : fl_prefix t no_uc A k → 0 ≤ k ≤ n → fl_blocks h H n t (live_of A) (n - k).
Proof.
  intros HP Hk. pose proof (prefix_tiles _ _ _ _ HP ltac:(lia)) as Ht. destruct HP as [HA HR]. eexists _, _. split; [exact HR|].
  pose proof (live_of_spec _ _ Ht HA) as Hs. split_and!.
  - intros u s. rewrite <-Hs. unfold rest. destruct (k <? n); set_solver.
  - rewrite free_units_app, free_units_none by done. unfold rest. destruct (Z.ltb_spec k n); cbn; lia.
  - apply merged_none; [done|]. unfold rest. destruct (k <? n); cbn; lia.
Qed.
End prefix.
