(* ===== verification/Map32.v ===== *)
(** * The chunk map of discontiguous spaces (src/src/util/heap/layout/map32.rs)

    Two free lists over the chunks of the heap hand out regions: single chunks come from
    [region_map], longer regions from [large_region_map].  The regions of a space form a
    doubly-linked list in two arrays, and [descriptor_map] says which space has a chunk.
    The wrap-around of [usize] is written out and debug assertions are panics. *)

From S2P Require Import Prelude Conversions SpaceDescriptor FreeList IntArrayFreeList.

Definition NO_SPACE : Z := 0.
Definition SMALL_SPACE : Z := 1.
Definition LARGE_SPACE : Z := 2.
Definition MAX_SPACES : Z := Z.shiftl 1 LOG_MAX_SPACES.

Record Map32 : Type := {
  prev_link : list Z; next_link : list Z; chunk_space : list Z;
  region_map : iafl_ref; large_region_map : iafl_ref; global_page_map : iafl_ref;
  shared_discontig_fl_count : Z; total_available : Z; total_available_large : Z;
  map_finalized : bool; descriptor_map : list Z; cumulative_committed_pages : Z; map_out_of_virtual_space : bool;
  (** The chunks that were cleared in the table of space functions. *)
  sft_cleared : list Z
}.

(** Assignments to fields. *)
Definition set_links (m : Map32) (prev next : list Z) : Map32 :=
  {| prev_link := prev; next_link := next; chunk_space := chunk_space m; region_map := region_map m; large_region_map := large_region_map m;
     global_page_map := global_page_map m; shared_discontig_fl_count := shared_discontig_fl_count m; total_available := total_available m;
     total_available_large := total_available_large m; map_finalized := map_finalized m; descriptor_map := descriptor_map m;
     cumulative_committed_pages := cumulative_committed_pages m; map_out_of_virtual_space := map_out_of_virtual_space m; sft_cleared := sft_cleared m |}.
Definition set_chunk_space (m : Map32) (cs : list Z) : Map32 :=
  {| prev_link := prev_link m; next_link := next_link m; chunk_space := cs; region_map := region_map m; large_region_map := large_region_map m;
     global_page_map := global_page_map m; shared_discontig_fl_count := shared_discontig_fl_count m; total_available := total_available m;
     total_available_large := total_available_large m; map_finalized := map_finalized m; descriptor_map := descriptor_map m;
     cumulative_committed_pages := cumulative_committed_pages m; map_out_of_virtual_space := map_out_of_virtual_space m; sft_cleared := sft_cleared m |}.
Definition set_region_map (m : Map32) (large : bool) (r : iafl_ref) : Map32 :=
  {| prev_link := prev_link m; next_link := next_link m; chunk_space := chunk_space m;
     region_map := if large then region_map m else r; large_region_map := if large then r else large_region_map m;
     global_page_map := global_page_map m; shared_discontig_fl_count := shared_discontig_fl_count m; total_available := total_available m;
     total_available_large := total_available_large m; map_finalized := map_finalized m; descriptor_map := descriptor_map m;
     cumulative_committed_pages := cumulative_committed_pages m; map_out_of_virtual_space := map_out_of_virtual_space m; sft_cleared := sft_cleared m |}.
Definition set_global_page_map (m : Map32) (r : iafl_ref) (count : Z) : Map32 :=
  {| prev_link := prev_link m; next_link := next_link m; chunk_space := chunk_space m; region_map := region_map m; large_region_map := large_region_map m;
     global_page_map := r; shared_discontig_fl_count := count; total_available := total_available m;
     total_available_large := total_available_large m; map_finalized := map_finalized m; descriptor_map := descriptor_map m;
     cumulative_committed_pages := cumulative_committed_pages m; map_out_of_virtual_space := map_out_of_virtual_space m; sft_cleared := sft_cleared m |}.
Definition set_available (m : Map32) (total large : Z) : Map32 :=
  {| prev_link := prev_link m; next_link := next_link m; chunk_space := chunk_space m; region_map := region_map m; large_region_map := large_region_map m;
     global_page_map := global_page_map m; shared_discontig_fl_count := shared_discontig_fl_count m; total_available := total;
     total_available_large := large; map_finalized := map_finalized m; descriptor_map := descriptor_map m;
     cumulative_committed_pages := cumulative_committed_pages m; map_out_of_virtual_space := map_out_of_virtual_space m; sft_cleared := sft_cleared m |}.
Definition set_descriptors (m : Map32) (d : list Z) (cleared : list Z) : Map32 :=
  {| prev_link := prev_link m; next_link := next_link m; chunk_space := chunk_space m; region_map := region_map m; large_region_map := large_region_map m;
     global_page_map := global_page_map m; shared_discontig_fl_count := shared_discontig_fl_count m; total_available := total_available m;
     total_available_large := total_available_large m; map_finalized := map_finalized m; descriptor_map := d;
     cumulative_committed_pages := cumulative_committed_pages m; map_out_of_virtual_space := map_out_of_virtual_space m; sft_cleared := cleared |}.
Definition set_flags (m : Map32) (finalized out : bool) (pages : Z) : Map32 :=
  {| prev_link := prev_link m; next_link := next_link m; chunk_space := chunk_space m; region_map := region_map m; large_region_map := large_region_map m;
     global_page_map := global_page_map m; shared_discontig_fl_count := shared_discontig_fl_count m; total_available := total_available m;
     total_available_large := total_available_large m; map_finalized := finalized; descriptor_map := descriptor_map m;
     cumulative_committed_pages := pages; map_out_of_virtual_space := out; sft_cleared := sft_cleared m |}.

Definition region_map_of (m : Map32) (large : bool) : iafl_ref := if large then large_region_map m else region_map m.

(** [munmap] and [madv_dontneed], and whether giving the memory of freed chunks back to the
    system succeeds: [madvise(start, bytes)], and [ensure_unmapped(start, pages)] of the mapper,
    which [Mmapper.ensure_unmapped] models over the mapper's own state.  It is false where the
    mapper returns an error or panics, because a chunk of the range is not mapped; both are a
    panic of the caller. *)
Record unmap_features : Type := { f_munmap : bool; f_madv_dontneed : bool; ensure_unmapped : Z → Z → bool; madvise : Z → Z → bool }.

Section map32.
(** The layout, the number of chunks that it has, and whether free lists allocate by best
    fit. *)
Context (vm : VMLayout) (max : Z) (bf : bool) (fuel : nat).

Definition m32_new (σ : store) : res Map32 :=
  region ← new fuel σ max (i32 max) 1;
  large ← new fuel σ max (i32 max) 1;
  global ← new fuel σ 1 1 MAX_SPACES;
  let k := Z.to_nat max in
  Val {| prev_link := replicate k (-1); next_link := replicate k (-1); chunk_space := replicate k NO_SPACE;
         region_map := region; large_region_map := large; global_page_map := global;
         shared_discontig_fl_count := 0; total_available := 0; total_available_large := 0;
         map_finalized := false; descriptor_map := replicate k UNINITIALIZED; cumulative_committed_pages := 0;
         map_out_of_virtual_space := false; sft_cleared := [] |}.

Definition is_large_chunk_allocation (chunks : Z) : bool := 1 <? chunks.

(** The float [size * (1 / 32)] is exact for the sizes of address spaces. *)
Definition MIN_LARGE_CHUNK_RESERVE : Z := Z.shiftl 512 20.
Definition next_power_of_two (n : Z) : Z := if n <=? 1 then 1 else 2 ^ Z.log2_up n.
Definition get_large_chunk_reserve_boundary : Z :=
  match small_chunk_space_size vm with
  | Some size => align_up (heap_start vm +u size) BYTES_IN_CHUNK
  | None =>
    let virtual_space_size := Conversions.get_extent (heap_end vm) (heap_start vm) in
    let bytes := Z.max MIN_LARGE_CHUNK_RESERVE ((virtual_space_size + 31) `div` 32) in
    let chunks := next_power_of_two (Z.shiftr bytes LOG_BYTES_IN_CHUNK) in
    heap_end vm -u ushl 64 chunks LOG_BYTES_IN_CHUNK
  end.

(** ** Descriptors *)

(** The offsets of the [while] loop of [insert]. *)
Definition chunk_offsets (extent : Z) : list Z := (λ i, i * BYTES_IN_CHUNK) <$> seqZ 0 ((extent + BYTES_IN_CHUNK - 1) `div` BYTES_IN_CHUNK).
Definition m32_insert (m : Map32) (start extent descriptor : Z) : res Map32 :=
  for_each (λ m e,
    let index := address_to_chunk_index vm (start +u e) in
    d ← vec_get (descriptor_map m) index;
    _ ← rust_assert (is_empty d);
    ds ← vec_set (descriptor_map m) index descriptor;
    Val (set_descriptors m ds (sft_cleared m))) (chunk_offsets extent) m.
Definition m32_get_descriptor_for_address (m : Map32) (a : Z) : Z :=
  default UNINITIALIZED (descriptor_map m !! Z.to_nat (address_to_chunk_index vm a)).

(** ** Free lists for page resources *)

Definition m32_create_freelist (m : Map32) : Map32 * iafl_ref :=
  let count := shared_discontig_fl_count m +u 1 in
  let child := from_parent (global_page_map m) (i32 count) in
  (set_global_page_map m (child.1, (global_page_map m).2) count, child).
Definition m32_create_parent_freelist (σ : store) (units grain : Z) : res iafl_ref := new fuel σ units grain 1.

(** ** Regions *)

Definition m32_allocate_contiguous_chunks (m : Map32) (descriptor chunks head : Z) : res (Z * Map32) :=
  let large := is_large_chunk_allocation chunks in
  '(chunk, r) ← alloc bf fuel (region_map_of m large) (i32 chunks);
  let m := set_region_map m large r in
  if chunk =? -1 then Val (0, set_flags m (map_finalized m) true (cumulative_committed_pages m))
  else
    let m := set_available m (total_available m -u chunks)
               (if large then total_available_large m -u chunks else total_available_large m) in
    cs ← vec_set (chunk_space m) chunk (if large then LARGE_SPACE else SMALL_SPACE);
    let m := set_chunk_space m cs in
    let rtn := chunk_index_to_address vm chunk in
    m ← m32_insert m rtn (ushl 64 chunks LOG_BYTES_IN_CHUNK) descriptor;
    m ← (if is_zero head
         then next ← vec_get (next_link m) chunk; _ ← rust_assert (next =? -1); Val m
         else
           next ← vec_set (next_link m) chunk (i32 (address_to_chunk_index vm head));
           prev ← vec_set (prev_link m) (address_to_chunk_index vm head) chunk;
           Val (set_links m prev next));
    p ← vec_get (prev_link m) chunk;
    _ ← rust_assert (p =? -1);
    Val (rtn, m).

Definition m32_get_next_contiguous_region (m : Map32) (start : Z) : res Z :=
  if is_zero start then Val 0
  else
    _ ← rust_assert (start =? chunk_align_down start);
    a ← vec_get (next_link m) (address_to_chunk_index vm start);
    if a =? -1 then Val 0 else Val (chunk_index_to_address vm a).
Definition m32_get_contiguous_region_chunks (m : Map32) (start : Z) : res Z :=
  _ ← rust_assert (start =? chunk_align_down start);
  let chunk := address_to_chunk_index vm start in
  s ← vec_get (chunk_space m) chunk;
  size (region_map_of m (negb (s =? SMALL_SPACE))) (i32 chunk).
Definition m32_get_contiguous_region_size (m : Map32) (start : Z) : res Z :=
  n ← m32_get_contiguous_region_chunks m start; Val (ushl 64 n LOG_BYTES_IN_CHUNK).

(** Loops over the chunks of a region. *)
Definition clear_chunk_space (m : Map32) (chunk chunks : Z) : res Map32 :=
  for_each (λ m c, cs ← vec_set (chunk_space m) c NO_SPACE; Val (set_chunk_space m cs)) (seqZ chunk chunks) m.
Definition clear_descriptors (m : Map32) (chunk chunks : Z) : res Map32 :=
  for_each (λ m offset,
    let index := chunk + offset in
    ds ← vec_set (descriptor_map m) index UNINITIALIZED;
    Val (set_descriptors m ds (sft_cleared m ++ [chunk_index_to_address vm index]))) (seqZ 0 chunks) m.
Definition m32_free_contiguous_chunks_no_lock (m : Map32) (chunk : Z) : res (Z * Map32) :=
  s ← vec_get (chunk_space m) chunk;
  let large := negb (s =? SMALL_SPACE) in
  '(chunks, r) ← free (region_map_of m large) chunk false;
  let m := set_region_map m large r in
  let m := set_available m (total_available m +u chunks) (total_available_large m) in
  m ← clear_chunk_space m chunk chunks;
  let m := set_available m (total_available m) (if large then total_available_large m +u chunks else total_available_large m) in
  next ← vec_get (next_link m) chunk;
  prev ← vec_get (prev_link m) chunk;
  pl ← (if next =? -1 then Val (prev_link m) else vec_set (prev_link m) next prev);
  nl ← (if prev =? -1 then Val (next_link m) else vec_set (next_link m) prev next);
  pl ← vec_set pl chunk (-1);
  nl ← vec_set nl chunk (-1);
  m ← clear_descriptors (set_links m pl nl) chunk chunks;
  Val (chunks, m).

(** The [while] loops of [free_all_chunks]: over next links, then over previous ones. *)
Fixpoint free_linked (fuel : nat) (forward : bool) (m : Map32) (chunk : Z) : res Map32 :=
  x ← vec_get (if forward then next_link m else prev_link m) chunk;
  if x =? -1 then Val m
  else match fuel with
    | O => NoFuel
    | S fuel => '(_, m) ← m32_free_contiguous_chunks_no_lock m x; free_linked fuel forward m chunk
    end.
Definition m32_free_all_chunks (m : Map32) (any_chunk : Z) : res Map32 :=
  _ ← rust_assert (any_chunk =? chunk_align_down any_chunk);
  if is_zero any_chunk then Val m
  else
    let chunk := address_to_chunk_index vm any_chunk in
    m ← free_linked fuel true m chunk;
    m ← free_linked fuel false m chunk;
    '(_, m) ← m32_free_contiguous_chunks_no_lock m (i32 chunk);
    Val m.
Definition m32_free_contiguous_chunks (f : unmap_features) (m : Map32) (start : Z) : res (Z * Map32) :=
  _ ← rust_assert (start =? chunk_align_down start);
  '(freed, m) ← m32_free_contiguous_chunks_no_lock m (i32 (address_to_chunk_index vm start));
  _ ← rust_assert (if f_munmap f then ensure_unmapped f start (ushl 64 freed (LOG_BYTES_IN_CHUNK - LOG_BYTES_IN_PAGE))
                   else if f_madv_dontneed f then madvise f start (ushl 64 freed LOG_BYTES_IN_CHUNK) else true);
  Val (freed, m).

(** ** The static map *)

Definition alloc_units (r : iafl_ref) (sizes : list Z) : res iafl_ref :=
  for_each (λ r s, '(_, r) ← alloc_first_fit fuel r s; Val r) sizes r.
(** A region map before chunks are freed: all of them are allocated. *)
Definition block_out (r : iafl_ref) (first last : Z) : res iafl_ref :=
  r ← (if first =? 0 then Val r else '(_, r) ← alloc_first_fit fuel r (i32 first); Val r);
  alloc_units r (replicate (Z.to_nat (last + 1 - first)) 1).
Definition block_trailing (r : iafl_ref) (last : Z) : res iafl_ref :=
  let trailing := max -u (last +u 1) in
  if trailing =? 0 then Val r
  else
    '(a, r) ← alloc_first_fit fuel r (i32 trailing);
    _ ← rust_assert (a =? i32 (last +u 1));
    Val r.
Definition place_chunk (boundary : Z) (st : Map32 * Z) (chunk : Z) : res (Map32 * Z) :=
  let '(m, first_page) := st in
  let large := boundary <=? chunk_index_to_address vm chunk in
  let m := set_available m (total_available m +u 1) (if large then total_available_large m +u 1 else total_available_large m) in
  '(_, r) ← free (region_map_of m large) (i32 chunk) false;
  let m := set_region_map m large r in
  g ← set_uncoalescable (global_page_map m) first_page;
  '(p, g) ← alloc_first_fit fuel g PAGES_IN_CHUNK;
  _ ← rust_assert (p =? first_page);
  Val (set_global_page_map m g (shared_discontig_fl_count m), i32 (first_page + PAGES_IN_CHUNK)).
Definition m32_finalize_static_space_map (m : Map32) (from to_ : Z) : res Map32 :=
  let first := address_to_chunk_index vm from in
  let last := address_to_chunk_index vm to_ in
  let pages := (1 +u last -u first) *u PAGES_IN_CHUNK in
  g ← resize_freelist fuel (global_page_map m) pages (i32 pages);
  let m := set_global_page_map m g (shared_discontig_fl_count m) in
  r ← block_out (region_map m) first last;
  lr ← block_out (large_region_map m) first last;
  r ← block_trailing r last;
  lr ← block_trailing lr last;
  let m := set_region_map (set_region_map m false r) true lr in
  '(m, _) ← for_each (place_chunk get_large_chunk_reserve_boundary) (seqZ first (last + 1 - first)) (m, 0);
  Val (set_flags m true (map_out_of_virtual_space m) (cumulative_committed_pages m)).
End map32.

(** ** Counters and flags *)

Definition m32_get_available_discontiguous_chunks (m : Map32) : Z := total_available m.
Definition m32_get_chunk_consumer_count (m : Map32) : Z := shared_discontig_fl_count m.
Definition m32_add_to_cumulative_committed_pages (m : Map32) (pages : Z) : Map32 :=
  set_flags m (map_finalized m) (map_out_of_virtual_space m) (cumulative_committed_pages m +u pages).
Definition m32_reset_out_of_virtual_space (m : Map32) : Map32 := set_flags m (map_finalized m) false (cumulative_committed_pages m).
