(* ===== verification/Map32Inv.v ===== *)
(** * The regions of [Map32]

    The abstract state is a list of lists of regions: the linked lists of the spaces.
    [m32_inv] ties the free lists, the arrays of links, the descriptors and the counters to
    it. *)

From S2P Require Import Prelude Conversions SpaceDescriptor FreeList FreeListModel FreeListSpec FreeListRefine FreeListUnits IntArrayFreeList Map32.

(** ** Arrays *)

Definition vw (v : list Z) (i : Z) : Z := default 0 (v !! Z.to_nat i).
Lemma vec_get_vw v i : 0 ≤ i < Z.of_nat (length v) → vec_get v i = Val (vw v i).
Proof.
  intros Hi. unfold vec_get, vw. destruct (Z.leb_spec 0 i); [|lia]. destruct (lookup_lt_is_Some_2 v (Z.to_nat i)) as [x E]; [lia|]. by rewrite E.
Qed.
Lemma vec_set_vw v i x : 0 ≤ i < Z.of_nat (length v) → vec_set v i x = Val (<[Z.to_nat i := x]> v).
Proof. intros Hi. unfold vec_set. destruct (Z.leb_spec 0 i); [|lia]. by destruct (Z.ltb_spec i (Z.of_nat (length v))); [|lia]. Qed.
Lemma vw_insert v i j x : 0 ≤ i < Z.of_nat (length v) → 0 ≤ j → vw (<[Z.to_nat i := x]> v) j = if decide (j = i) then x else vw v j.
Proof.
  intros Hi Hj. unfold vw. case_decide as E; [subst; by rewrite list_lookup_insert_eq by lia|]. by rewrite list_lookup_insert_ne by lia.
Qed.

(** ** Regions *)

Record region : Type := { rg_start : Z; rg_chunks : Z; rg_space : Z }.
#[export] Instance region_eq_dec : EqDecision region.
Proof. solve_decision. Defined.
Definition rg_large (r : region) : bool := is_large_chunk_allocation (rg_chunks r).
Definition in_rg (r : region) (c : Z) : Prop := rg_start r ≤ c < rg_start r + rg_chunks r.
#[export] Instance in_rg_dec r c : Decision (in_rg r c) := _.
Definition chunks_of (b : bool) (rs : list region) : Z := foldr (λ r n, if eqb (rg_large r) b then rg_chunks r + n else n) 0 rs.

Lemma chunks_of_cons b r rs : chunks_of b (r :: rs) = (if eqb (rg_large r) b then rg_chunks r else 0) + chunks_of b rs.
Proof. unfold chunks_of. cbn [foldr]. destruct (eqb _ _); lia. Qed.
Lemma chunks_of_app b rs rs' : chunks_of b (rs ++ rs') = chunks_of b rs + chunks_of b rs'.
Proof. induction rs as [|r rs IH]; [done|]. rewrite <-app_comm_cons, !chunks_of_cons, IH. lia. Qed.

(** The links of a list of regions between [p] and [q]. *)
Definition first_or (q : Z) (l : list region) : Z := default q (rg_start <$> list.head l).
Definition last_or (p : Z) (l : list region) : Z := default p (rg_start <$> last l).
Fixpoint chain (prev next : Z → Z) (p : Z) (l : list region) (q : Z) : Prop :=
  match l with
  | [] => True
  | r :: l => prev (rg_start r) = p ∧ next (rg_start r) = first_or q l ∧ chain prev next (rg_start r) l q
  end.

Lemma last_or_cons p r l : last_or p (r :: l) = last_or (rg_start r) l.
Proof. unfold last_or. destruct l as [|x l]; [done|]. rewrite last_cons_cons. by destruct (last (x :: l)) eqn:E; [|apply last_None in E]. Qed.
Lemma chain_ext prev next prev' next' p l q :
  (∀ r, r ∈ l → prev' (rg_start r) = prev (rg_start r) ∧ next' (rg_start r) = next (rg_start r)) → chain prev next p l q → chain prev' next' p l q.
Proof.
  revert p. induction l as [|r l IH]; intros p He; cbn [chain]; [done|]. intros (E1 & E2 & Hc). destruct (He r) as [-> ->]; [constructor|].
  split_and!; [done..|]. apply IH; [|done]. intros x Hx. apply He. by constructor.
Qed.
Lemma region_chain_app prev next p A B q : chain prev next p (A ++ B) q ↔ chain prev next p A (first_or q B) ∧ chain prev next (last_or p A) B q.
Proof.
  revert p. induction A as [|r A IH]; intros p; cbn [app chain]; [unfold last_or; cbn; tauto|]. rewrite IH, last_or_cons.
  assert (first_or q (A ++ B) = first_or (first_or q B) A) as -> by (by destruct A). tauto.
Qed.
(** The end of a list is linked to something else. *)
Lemma chain_end prev next next' p A q q' :
  chain prev next p A q → (∀ r, r ∈ A → next' (rg_start r) = if decide (last_or (-1) A = rg_start r) then q' else next (rg_start r)) →
  NoDup (rg_start <$> A) → chain prev next' p A q'.
Proof.
  destruct A as [|r A _] using rev_ind; [done|]. intros Hc Hn Hnd. apply region_chain_app in Hc as [Hc (E1 & E2 & _)]. unfold last_or in Hn. rewrite last_snoc in Hn. cbn in Hn.
  rewrite fmap_app in Hnd. apply NoDup_app in Hnd as (_ & Hd & _).
  apply region_chain_app. split.
  - eapply chain_ext; [|exact Hc]. intros x Hx. split; [done|]. rewrite Hn by set_solver. rewrite decide_False; [done|].
    intros E. apply (Hd (rg_start x)); [by apply list_elem_of_fmap_2|]. rewrite <-E. constructor.
  - cbn [chain first_or]. split_and!; [done| |done]. rewrite Hn by set_solver. by rewrite decide_True.
Qed.
Lemma chain_begin prev prev' next p p' B q :
  chain prev next p B q → (∀ r, r ∈ B → prev' (rg_start r) = if decide (first_or (-1) B = rg_start r) then p' else prev (rg_start r)) →
  NoDup (rg_start <$> B) → chain prev' next p' B q.
Proof.
  destruct B as [|r B]; [done|]. intros (E1 & E2 & Hc) Hn Hnd. cbn [first_or hd_error fmap option_fmap option_map default] in Hn.
  apply NoDup_cons in Hnd as [Hr _]. cbn [chain]. split_and!; [|done|].
  - rewrite Hn by constructor. by rewrite decide_True.
  - eapply chain_ext; [|exact Hc]. intros x Hx. split; [|done]. rewrite Hn by (by constructor). rewrite decide_False; [done|].
    intros E. unfold first_or in E. cbn in E. apply Hr. rewrite E. by apply list_elem_of_fmap_2.
Qed.

(** ** The invariant *)

Section inv.
Context (vm : VMLayout) (max first bd lim : Z) (static : Z → Z).

(** The chunks for discontiguous spaces are [first] to [lim], those from [bd] on for large
    regions. *)
Definition play (b : bool) (c : Z) : Prop := if b then bd ≤ c < lim else first ≤ c < bd.
#[export] Instance play_dec b c : Decision (play b c).
Proof. unfold play. destruct b; apply _. Defined.

Record map_agrees (b : bool) (live : gmap Z Z) (rs : list region) : Prop := {
  ma_region r : r ∈ rs → rg_large r = b → live !! rg_start r = Some (rg_chunks r);
  ma_block u s : live !! u = Some s →
    (∃ r, r ∈ rs ∧ rg_large r = b ∧ rg_start r = u ∧ rg_chunks r = s) ∨ (∀ c, u ≤ c < u + s → ¬ play b c);
  ma_rest c : 0 ≤ c < max → ¬ play b c → ∃ u s, live !! u = Some s ∧ u ≤ c < u + s
}.
Definition regions (L : list (list region)) : list region := mjoin L.

Record m32_inv (m : Map32) (L : list (list region)) (live : bool → gmap Z Z) (avail : bool → Z) : Prop := {
  mi_lens : length (prev_link m) = Z.to_nat max ∧ length (next_link m) = Z.to_nat max ∧
            length (chunk_space m) = Z.to_nat max ∧ length (descriptor_map m) = Z.to_nat max;
  mi_maps b : fl_blocks (-1) 1 max (region_map_of m b) (live b) (avail b);
  mi_agrees b : map_agrees b (live b) (regions L);
  mi_inside r c : r ∈ regions L → in_rg r c → play (rg_large r) c;
  mi_nodup : NoDup (rg_start <$> regions L);
  mi_total : total_available m = avail false + avail true ∧ total_available_large m = avail true;
  mi_count b : avail b + chunks_of b (regions L) = if b then lim - bd else bd - first;
  mi_space r : r ∈ regions L → vw (chunk_space m) (rg_start r) = if rg_large r then LARGE_SPACE else SMALL_SPACE;
  mi_no_space c : 0 ≤ c < max → (∀ r, r ∈ regions L → rg_start r ≠ c) → vw (chunk_space m) c = NO_SPACE;
  mi_descr r c : r ∈ regions L → in_rg r c → vw (descriptor_map m) c = rg_space r;
  mi_no_descr c : 0 ≤ c < max → (∀ r, r ∈ regions L → ¬ in_rg r c) →
    vw (descriptor_map m) c = if decide (first ≤ c < lim) then UNINITIALIZED else static c;
  mi_chains l : l ∈ L → chain (vw (prev_link m)) (vw (next_link m)) (-1) l (-1);
  mi_unlinked c : 0 ≤ c < max → (∀ r, r ∈ regions L → rg_start r ≠ c) → vw (prev_link m) c = -1 ∧ vw (next_link m) c = -1
}.

(** ** Facts *)

Context (bf : bool) (fuel : nat).
Record map_ok : Prop := {
  mo_start : 0 < heap_start vm;
  mo_aligned : (BYTES_IN_CHUNK | heap_start vm);
  mo_end : heap_start vm + max * BYTES_IN_CHUNK < 2 ^ 64;
  mo_bounds : 0 ≤ first ≤ bd ∧ bd ≤ lim ≤ max ∧ max ≤ MAX_UNITS;
  mo_fuel : (Z.to_nat max < fuel)%nat
}.
Context (Hok : map_ok).
Abbreviation addr := (chunk_index_to_address vm).
Abbreviation inv := (m32_inv).

Lemma max_small : max ≤ 2 ^ 30.
Proof. destruct (mo_bounds Hok) as (_ & _ & ?). destruct bounds_eqs. lia. Qed.
Lemma addr_eq c : 0 ≤ c < max → addr c = heap_start vm + c * BYTES_IN_CHUNK ∧ addr c ≠ 0 ∧ chunk_align_down (addr c) = addr c.
Proof.
  intros Hc. pose proof (mo_start Hok). pose proof (mo_end Hok) as He. pose proof max_small. destruct (mo_aligned Hok) as [k Hk].
  unfold chunk_index_to_address. change BYTES_IN_CHUNK with (2 ^ 22) in *. change LOG_BYTES_IN_CHUNK with 22.
  rewrite ushl_id by lia. rewrite uadd_id by lia. split; [done|]. split; [lia|].
  unfold chunk_align_down. change BYTES_IN_CHUNK with (2 ^ 22). rewrite align_down_eq by (unfold is_u; lia).
  rewrite Hk. replace (k * 2 ^ 22 + c * 2 ^ 22) with ((k + c) * 2 ^ 22) by lia. rewrite Z.div_mul by lia. lia.
Qed.
Lemma index_off c i : 0 ≤ c → 0 ≤ i → c + i < max → address_to_chunk_index vm (addr c +u i * BYTES_IN_CHUNK) = c + i.
Proof.
  intros Hc Hi Hm. destruct (addr_eq c) as [-> _]; [lia|]. pose proof (mo_start Hok). pose proof (mo_end Hok). pose proof max_small.
  unfold address_to_chunk_index. change BYTES_IN_CHUNK with (2 ^ 22) in *. change LOG_BYTES_IN_CHUNK with 22. rewrite uadd_id by lia. rewrite usub_id by lia.
  rewrite shiftr_div by lia. replace (heap_start vm + c * 2 ^ 22 + i * 2 ^ 22 - heap_start vm) with ((c + i) * 2 ^ 22) by lia. by rewrite Z.div_mul by lia.
Qed.
Lemma index_addr c : 0 ≤ c < max → address_to_chunk_index vm (addr c) = c.
Proof.
  intros Hc. pose proof (index_off c 0 ltac:(lia) ltac:(lia) ltac:(lia)) as E. destruct (addr_eq c Hc) as (Ea & _ & _). pose proof (mo_end Hok). pose proof (mo_start Hok).
  rewrite Z.mul_0_l, uadd_id in E; [by rewrite !Z.add_0_r in E|]. rewrite Ea. change BYTES_IN_CHUNK with (2 ^ 22) in *. lia.
Qed.

(** ** Loops over the chunks of a region *)

Definition filled (v : list Z) (c k x : Z) (v' : list Z) : Prop :=
  length v' = length v ∧ ∀ j, 0 ≤ j → vw v' j = if decide (c ≤ j < c + k) then x else vw v j.
Lemma filled_nil v c x : filled v c 0 x v.
Proof. split; [done|]. intros j Hj. by rewrite decide_False by lia. Qed.
Lemma filled_snoc v c k x v' : 0 ≤ c → 0 ≤ k → c + k < Z.of_nat (length v) → filled v c k x v' → filled v c (k + 1) x (<[Z.to_nat (c + k) := x]> v').
Proof.
  intros Hc Hk Hl [El Hv]. split; [by rewrite length_insert|]. intros j Hj. rewrite vw_insert by lia. rewrite Hv by done.
  repeat case_decide; lia || done.
Qed.
Lemma seqZ_prefix c k l1 a l2 : seqZ c k = l1 ++ a :: l2 → a = c + Z.of_nat (length l1) ∧ Z.of_nat (length l1) < k.
Proof.
  intros E. assert (seqZ c k !! length l1 = Some a) as Ea by (rewrite E; by apply list_lookup_middle). apply lookup_seqZ in Ea. lia.
Qed.

Lemma insert_ok m c k d :
  0 ≤ c → 0 ≤ k → c + k ≤ max → length (descriptor_map m) = Z.to_nat max → (∀ j, c ≤ j < c + k → vw (descriptor_map m) j = UNINITIALIZED) →
  wp (m32_insert vm m (addr c) (ushl 64 k LOG_BYTES_IN_CHUNK) d) (λ m', ∃ ds, m' = set_descriptors m ds (sft_cleared m) ∧ filled (descriptor_map m) c k d ds).
Proof.
  intros Hc Hk Hm Hl Hempty. pose proof max_small. unfold m32_insert, chunk_offsets.
  replace (ushl 64 k LOG_BYTES_IN_CHUNK) with (k * BYTES_IN_CHUNK) by (change LOG_BYTES_IN_CHUNK with 22; rewrite ushl_id by lia; done).
  replace ((k * BYTES_IN_CHUNK + BYTES_IN_CHUNK - 1) `div` BYTES_IN_CHUNK) with k.
  2:{ change BYTES_IN_CHUNK with (2 ^ 22). apply Z.div_unique with (2 ^ 22 - 1); lia. }
  eapply wp_mono; [apply (wp_for_each _ (λ done m', ∃ ds, m' = set_descriptors m ds (sft_cleared m) ∧ filled (descriptor_map m) c (Z.of_nat (length done)) d ds))|].
  - exists (descriptor_map m). split; [by destruct m|]. apply filled_nil.
  - intros l1 a l2 m' E (ds & -> & Hf). assert (a = Z.of_nat (length l1) * BYTES_IN_CHUNK ∧ Z.of_nat (length l1) < k) as [-> Hlt].
    { assert (((λ i, i * BYTES_IN_CHUNK) <$> seqZ 0 k) !! length l1 = Some a) as Ea by (rewrite E; by apply list_lookup_middle).
      rewrite list_lookup_fmap in Ea. apply fmap_Some in Ea as (x & Ex%lookup_seqZ & ->). split; [f_equal|]; lia. }
    rewrite index_off by lia. cbn [set_descriptors descriptor_map sft_cleared]. pose proof (proj1 Hf) as El.
    rewrite vec_get_vw by lia. cbn [mbind res_bind]. rewrite (proj2 Hf) by lia. rewrite decide_False by lia. rewrite Hempty by lia. cbn [is_empty UNINITIALIZED Z.eqb rust_assert mbind res_bind].
    rewrite vec_set_vw by lia. cbn [mbind res_bind]. eexists. split; [done|]. rewrite length_app. cbn [length].
    replace (Z.of_nat (length l1 + 1)) with (Z.of_nat (length l1) + 1) by lia. apply filled_snoc; (lia || done).
  - intros m' (ds & -> & Hf). exists ds. split; [done|]. rewrite length_fmap, length_seqZ in Hf. by rewrite Z2Nat.id in Hf by lia.
Qed.
Lemma clear_space_ok m c k :
  0 ≤ c → 0 ≤ k → c + k ≤ max → length (chunk_space m) = Z.to_nat max →
  wp (clear_chunk_space m c k) (λ m', ∃ cs, m' = set_chunk_space m cs ∧ filled (chunk_space m) c k NO_SPACE cs).
Proof.
  intros Hc Hk Hm Hl. unfold clear_chunk_space.
  eapply wp_mono; [apply (wp_for_each _ (λ done m', ∃ cs, m' = set_chunk_space m cs ∧ filled (chunk_space m) c (Z.of_nat (length done)) NO_SPACE cs))|].
  - exists (chunk_space m). split; [by destruct m|]. apply filled_nil.
  - intros l1 a l2 m' [-> Hlt]%seqZ_prefix (cs & -> & Hf). cbn [set_chunk_space chunk_space]. pose proof (proj1 Hf) as El. rewrite vec_set_vw by lia. cbn [mbind res_bind].
    eexists. split; [done|]. rewrite length_app. cbn [length]. replace (Z.of_nat (length l1 + 1)) with (Z.of_nat (length l1) + 1) by lia. apply filled_snoc; (lia || done).
  - intros m' (cs & -> & Hf). exists cs. split; [done|]. rewrite length_seqZ in Hf. by rewrite Z2Nat.id in Hf by lia.
Qed.
Lemma clear_descriptors_ok m c k :
  0 ≤ c → 0 ≤ k → c + k ≤ max → length (descriptor_map m) = Z.to_nat max →
  wp (clear_descriptors vm m c k) (λ m', ∃ ds cl, m' = set_descriptors m ds cl ∧ filled (descriptor_map m) c k UNINITIALIZED ds).
Proof.
  intros Hc Hk Hm Hl. unfold clear_descriptors.
  eapply wp_mono; [apply (wp_for_each _ (λ done m', ∃ ds cl, m' = set_descriptors m ds cl ∧ filled (descriptor_map m) c (Z.of_nat (length done)) UNINITIALIZED ds))|].
  - exists (descriptor_map m), (sft_cleared m). split; [by destruct m|]. apply filled_nil.
  - intros l1 a l2 m' [-> Hlt]%seqZ_prefix (ds & cl & -> & Hf). cbn [set_descriptors descriptor_map sft_cleared]. pose proof (proj1 Hf) as El. rewrite Z.add_0_l.
    rewrite vec_set_vw by lia. cbn [mbind res_bind].
    eexists _, _. split; [done|]. rewrite length_app. cbn [length]. replace (Z.of_nat (length l1 + 1)) with (Z.of_nat (length l1) + 1) by lia. apply filled_snoc; (lia || done).
  - intros m' (ds & cl & -> & Hf). exists ds, cl. split; [done|]. rewrite length_seqZ in Hf. by rewrite Z2Nat.id in Hf by lia.
Qed.

(** ** Regions *)

Section state.
Context (m : Map32) (L : list (list region)) (live : bool → gmap Z Z) (avail : bool → Z) (HI : inv m L live avail).

Lemma region_bounds r : r ∈ regions L → 0 ≤ rg_start r ∧ 1 ≤ rg_chunks r ∧ rg_start r + rg_chunks r ≤ max.
Proof. intros Hr. eapply blocks_block; [exact (mi_maps _ _ _ _ HI (rg_large r))|]. by apply (ma_region _ _ _ (mi_agrees _ _ _ _ HI (rg_large r))). Qed.
Lemma region_start_in r : r ∈ regions L → in_rg r (rg_start r).
Proof. intros Hr%region_bounds. unfold in_rg. lia. Qed.
Lemma region_inj r1 r2 : r1 ∈ regions L → r2 ∈ regions L → rg_start r1 = rg_start r2 → r1 = r2.
Proof.
  intros [i Hi]%list_elem_of_lookup_1 [j Hj]%list_elem_of_lookup_1 E. assert (i = j) as ->; [|congruence].
  eapply NoDup_lookup; [exact (mi_nodup _ _ _ _ HI)|rewrite list_lookup_fmap, Hi; done|rewrite list_lookup_fmap, Hj; cbn; by rewrite E].
Qed.
Lemma play_unique b b' c : play b c → play b' c → b = b'.
Proof. unfold play. destruct b, b'; try done; lia. Qed.
Lemma regions_disjoint r1 r2 c : r1 ∈ regions L → r2 ∈ regions L → in_rg r1 c → in_rg r2 c → r1 = r2.
Proof.
  intros H1 H2 C1 C2. assert (rg_large r1 = rg_large r2) as Eb by (eapply play_unique; by eapply (mi_inside _ _ _ _ HI)).
  pose proof (ma_region _ _ _ (mi_agrees _ _ _ _ HI (rg_large r1)) r1 H1 eq_refl) as E1.
  pose proof (ma_region _ _ _ (mi_agrees _ _ _ _ HI (rg_large r1)) r2 H2 (eq_sym Eb)) as E2.
  destruct (blocks_disjoint _ _ _ _ _ _ _ _ _ _ (mi_maps _ _ _ _ HI (rg_large r1)) E1 E2) as [E|Hd]; [by apply region_inj|unfold in_rg in *; lia].
Qed.
Lemma play_range b c : play b c → first ≤ c < lim.
Proof. destruct (mo_bounds Hok) as (? & ? & ?). unfold play. destruct b; lia. Qed.

(** A run of chunks that the free list has for large or small regions. *)
Lemma unused_run b c k :
  unused (live b) c k → 0 ≤ c → c + k ≤ max → ∀ i, c ≤ i < c + k → play b i ∧ (∀ r, r ∈ regions L → ¬ in_rg r i) ∧ vw (descriptor_map m) i = UNINITIALIZED.
Proof.
  intros Hun Hc Hk i Hi. assert (play b i) as Hp.
  { destruct (decide (play b i)) as [|Hn]; [done|]. destruct (ma_rest _ _ _ (mi_agrees _ _ _ _ HI b) i) as (u & s & E & ?); [lia|done|]. apply Hun in E. lia. }
  assert (∀ r, r ∈ regions L → ¬ in_rg r i) as Hr.
  { intros r Hr Hin. assert (rg_large r = b) as Eb by (eapply play_unique; [by eapply (mi_inside _ _ _ _ HI)|done]).
    apply (ma_region _ _ _ (mi_agrees _ _ _ _ HI b)) in Hr; [|done]. apply Hun in Hr. unfold in_rg in Hin. lia. }
  split; [done|]. split; [done|]. rewrite (mi_no_descr _ _ _ _ HI) by (lia || done). by rewrite decide_True by (by eapply play_range).
Qed.
End state.

Lemma regions_mid L1 l L2 : regions (L1 ++ l :: L2) = regions L1 ++ l ++ regions L2.
Proof. unfold regions. by rewrite join_app. Qed.
Lemma regions_perm L1 r l L2 : regions (L1 ++ (r :: l) :: L2) ≡ₚ r :: regions (L1 ++ l :: L2).
Proof. rewrite !regions_mid. symmetry. apply Permutation_middle. Qed.
#[export] Instance chunks_of_perm b : Proper ((≡ₚ) ==> (=)) (chunks_of b).
Proof. induction 1; rewrite ?chunks_of_cons in *; lia. Qed.

(** The first region of a list, as an address. *)
Definition head_addr (l : list region) : Z := match l with [] => 0 | r :: _ => addr (rg_start r) end.

(** Regions of different lists. *)
Lemma other_region L1 l L2 l' x y :
  NoDup (rg_start <$> regions (L1 ++ l :: L2)) → l' ∈ L1 ++ L2 → x ∈ l' → y ∈ l → rg_start x ≠ rg_start y.
Proof.
  intros Hnd Hl' Hx Hy E. rewrite regions_mid, !fmap_app in Hnd. apply NoDup_app in Hnd as (_ & H1 & Hnd). apply NoDup_app in Hnd as (_ & H2 & _).
  assert (rg_start y ∈ rg_start <$> l) as Hys by (by apply list_elem_of_fmap_2). apply elem_of_app in Hl' as [Hl'|Hl'].
  - apply (H1 (rg_start x)); [apply list_elem_of_fmap_2, list_elem_of_join; by exists l'|]. rewrite E. set_solver.
  - apply (H2 (rg_start y) Hys). rewrite <-E. apply list_elem_of_fmap_2, list_elem_of_join. by exists l'.
Qed.

(** A new region [r] in front of the list [l]. *)
Record added (m m' : Map32) (r : region) (l : list region) : Prop := {
  ad_prev : length (prev_link m') = length (prev_link m) ∧ ∀ c, 0 ≤ c → vw (prev_link m') c = if decide (c = first_or (-1) l) then rg_start r else vw (prev_link m) c;
  ad_next : length (next_link m') = length (next_link m) ∧ ∀ c, 0 ≤ c → vw (next_link m') c = if decide (c = rg_start r) then first_or (-1) l else vw (next_link m) c;
  ad_space : filled (chunk_space m) (rg_start r) 1 (if rg_large r then LARGE_SPACE else SMALL_SPACE) (chunk_space m');
  ad_descr : filled (descriptor_map m) (rg_start r) (rg_chunks r) (rg_space r) (descriptor_map m');
  ad_total : total_available m' = total_available m - rg_chunks r ∧
             total_available_large m' = total_available_large m - (if rg_large r then rg_chunks r else 0);
  ad_other : region_map_of m' (negb (rg_large r)) = region_map_of m (negb (rg_large r))
}.

Lemma added_inv m m' L1 l L2 live avail r :
  inv m (L1 ++ l :: L2) live avail → unused (live (rg_large r)) (rg_start r) (rg_chunks r) → 0 ≤ rg_start r → 1 ≤ rg_chunks r → rg_start r + rg_chunks r ≤ max →
  fl_blocks (-1) 1 max (region_map_of m' (rg_large r)) (<[rg_start r := rg_chunks r]> (live (rg_large r))) (avail (rg_large r) - rg_chunks r) →
  added m m' r l →
  inv m' (L1 ++ (r :: l) :: L2) (λ b, if eqb b (rg_large r) then <[rg_start r := rg_chunks r]> (live b) else live b)
    (λ b, if eqb b (rg_large r) then avail b - rg_chunks r else avail b).
Proof.
  intros HI Hun Hs Hc Hm Hb [[Hpl Hp] [Hnl Hn] [Hcl Hcs] [Hdl Hds] [Ht1 Ht2] Ho]. set (L := L1 ++ l :: L2) in *. set (L' := L1 ++ (r :: l) :: L2).
  assert (∀ x, x ∈ regions L' ↔ x = r ∨ x ∈ regions L) as Hin by (intros x; unfold L', L; rewrite regions_perm, elem_of_cons; done).
  pose proof (unused_run m L live avail HI _ _ _ Hun Hs Hm) as Hrun.
  assert (∀ x, x ∈ regions L → rg_start x ≠ rg_start r) as Hnew.
  { intros x Hx E. destruct (Hrun (rg_start r)) as (_ & Hno & _); [lia|]. apply (Hno x Hx). unfold in_rg. pose proof (region_bounds _ _ _ _ HI x Hx). lia. }
  assert (∀ x, x ∈ regions L → ∀ c, in_rg x c → ¬ (rg_start r ≤ c < rg_start r + rg_chunks r)) as Hapart.
  { intros x Hx c Hxc Hrc. destruct (Hrun c Hrc) as (_ & Hno & _). by apply (Hno x). }
  destruct (mi_lens _ _ _ _ HI) as (Ll1 & Ll2 & Ll3 & Ll4). split.
  - rewrite Hpl, Hnl, Hcl, Hdl. done.
  - intros b. destruct (eqb_spec b (rg_large r)) as [-> |Hne]; [done|]. replace b with (negb (rg_large r)) by (by destruct b, (rg_large r)). rewrite Ho. apply (mi_maps _ _ _ _ HI).
  - intros b. destruct (mi_agrees _ _ _ _ HI b) as [A1 A2 A3]. destruct (eqb_spec b (rg_large r)) as [-> |Hne]; split.
    + intros x [-> |Hx]%Hin Ex; [by rewrite lookup_insert_eq|]. rewrite lookup_insert_ne by (apply not_eq_sym; by apply Hnew). by apply A1.
    + intros u s. destruct (decide (u = rg_start r)) as [-> |Hu]; [rewrite lookup_insert_eq; intros [= <-]; left; exists r; split; [apply Hin; by left|done]|].
      rewrite lookup_insert_ne by done. intros [(x & Hx & Ex)|?]%A2; [left; exists x; split; [apply Hin; by right|done]|by right].
    + intros c Hc0 Hnp. destruct (A3 c Hc0 Hnp) as (u & s & E & ?). exists u, s. split; [|done]. rewrite lookup_insert_ne; [done|].
      intros <-. apply Hun in E. pose proof (blocks_block _ _ _ _ _ _ _ _ Hb (lookup_insert_eq _ _ _)). lia.
    + intros x [-> |Hx]%Hin Ex; [done|]. by apply A1.
    + intros u s [(x & Hx & Ex)|?]%A2; [left; exists x; split; [apply Hin; by right|done]|by right].
    + done.
  - intros x c [-> |Hx]%Hin Hxc; [by apply Hrun|by eapply (mi_inside _ _ _ _ HI)].
  - unfold L'. rewrite regions_perm. cbn. apply NoDup_cons. split; [|exact (mi_nodup _ _ _ _ HI)]. intros (x & E & Hx)%list_elem_of_fmap. symmetry in E. by apply (Hnew x).
  - destruct (mi_total _ _ _ _ HI). rewrite Ht1, Ht2. destruct (rg_large r); cbn; lia.
  - intros b. unfold L'. rewrite regions_perm, chunks_of_cons. pose proof (mi_count _ _ _ _ HI b) as Hcnt. fold L. destruct b, (rg_large r); cbn [eqb] in *; lia.
  - intros x [-> |Hx]%Hin; rewrite Hcs; [by rewrite decide_True by lia|done| |by apply (region_bounds _ _ _ _ HI)].
    rewrite decide_False; [by apply (mi_space _ _ _ _ HI)|]. pose proof (Hnew x Hx). lia.
  - intros c Hc0 Hno. assert (rg_start r ≠ c) by (apply Hno, Hin; by left). rewrite Hcs by lia. rewrite decide_False by lia. apply (mi_no_space _ _ _ _ HI); [done|].
    intros x Hx. apply Hno, Hin. by right.
  - intros x c [-> |Hx]%Hin Hxc; rewrite Hds; [by rewrite decide_True|unfold in_rg in Hxc; lia| |]. 
    + rewrite decide_False by (by eapply Hapart). by apply (mi_descr _ _ _ _ HI).
    + pose proof (region_bounds _ _ _ _ HI x Hx). unfold in_rg in Hxc. lia.
  - intros c Hc0 Hno. assert (¬ in_rg r c) as Hnr by (apply Hno, Hin; by left). rewrite Hds by lia. rewrite decide_False by done. apply (mi_no_descr _ _ _ _ HI); [done|].
    intros x Hx. apply Hno, Hin. by right.
  - intros l' Hl'. assert (∀ x, x ∈ regions L → 0 ≤ rg_start x) as Hx0 by (intros x Hx; by apply (region_bounds _ _ _ _ HI)).
    assert (∀ l2, l2 ∈ L → ∀ x, x ∈ l2 → x ∈ regions L) as Hsub by (intros l2 Hl2 x Hx; apply list_elem_of_join; by exists l2).
    assert (l ∈ L) as HlL by (unfold L; set_solver).
    destruct (decide (l' = r :: l)) as [-> |Hne].
    + assert (rg_start r ≠ first_or (-1) l) as Hrl.
      { destruct l as [|y l]; unfold first_or; cbn; [lia|]. apply not_eq_sym, Hnew, (Hsub (y :: l)); [done|constructor]. }
      cbn [chain]. rewrite Hp, decide_False, Hn, decide_True by (done || lia).
      split; [apply (mi_unlinked _ _ _ _ HI); [lia|by apply Hnew]|]. split; [done|].
      eapply (chain_begin (vw (prev_link m))); [eapply chain_ext; [|exact (mi_chains _ _ _ _ HI l HlL)]| |].
      * intros x Hx. split; [done|]. apply (Hsub l HlL) in Hx. rewrite Hn by (by apply Hx0). by rewrite decide_False by (by apply Hnew).
      * intros x Hx. apply (Hsub l HlL) in Hx. rewrite Hp by (by apply Hx0). by destruct (decide (rg_start x = _)), (decide (_ = rg_start x)); try congruence.
      * pose proof (mi_nodup _ _ _ _ HI) as Hnd. unfold L in Hnd. rewrite regions_mid, !fmap_app in Hnd. apply NoDup_app in Hnd as (_ & _ & Hnd). by apply NoDup_app in Hnd as (? & _).
    + assert (l' ∈ L1 ++ L2) as Hl2 by (unfold L' in Hl'; set_solver). assert (l' ∈ L) as HL by (unfold L; set_solver).
      eapply chain_ext; [|exact (mi_chains _ _ _ _ HI l' HL)]. intros x Hx. pose proof (Hsub l' HL x Hx) as Hxr. rewrite Hp, Hn by (by apply Hx0).
      rewrite !decide_False; [done|by apply Hnew|]. destruct l as [|y l]; [cbn; specialize (Hx0 x Hxr); lia|].
      apply (other_region L1 (y :: l) L2 l'); [exact (mi_nodup _ _ _ _ HI)|done|done|constructor].
  - intros c Hc0 Hno. rewrite Hp, Hn by lia. rewrite !decide_False.
    + apply (mi_unlinked _ _ _ _ HI); [done|]. intros x Hx. apply Hno, Hin. by right.
    + apply not_eq_sym, Hno, Hin. by left.
    + destruct l as [|y l]; [cbn; lia|]. apply not_eq_sym, Hno, Hin. right. unfold L. rewrite regions_mid. set_solver.
Qed.

(** ** Allocation *)

Definition with_region (live : bool → gmap Z Z) (r : region) : bool → gmap Z Z := λ b, if eqb b (rg_large r) then <[rg_start r := rg_chunks r]> (live b) else live b.
Definition less_region (avail : bool → Z) (r : region) : bool → Z := λ b, if eqb b (rg_large r) then avail b - rg_chunks r else avail b.
Lemma flags_inv m L live avail f o p : inv m L live avail → inv (set_flags m f o p) L live avail.
Proof. by intros []. Qed.

(** Either a new region is in front of the list, or no run of chunks is free. *)
Definition alloc_region (m : Map32) (L1 : list (list region)) (l : list region) (L2 : list (list region)) live avail (d chunks : Z) (out : Z * Map32) : Prop :=
  let b := is_large_chunk_allocation chunks in
  (out.1 = 0 ∧ inv out.2 (L1 ++ l :: L2) live avail ∧ map_out_of_virtual_space out.2 = true ∧
   ∀ c, (∀ i, c ≤ i < c + chunks → play b i) → ∃ r i, r ∈ regions (L1 ++ l :: L2) ∧ c ≤ i < c + chunks ∧ in_rg r i) ∨
  (∃ c, let r := {| rg_start := c; rg_chunks := chunks; rg_space := d |} in
    0 ≤ c < max ∧ out.1 = addr c ∧ inv out.2 (L1 ++ (r :: l) :: L2) (with_region live r) (less_region avail r)).

Lemma alloc_none m L live avail b chunks :
  inv m L live avail → 1 ≤ chunks → (∀ c, 0 ≤ c → c + chunks ≤ max → ¬ unused (live b) c chunks) →
  ∀ c, (∀ i, c ≤ i < c + chunks → play b i) → ∃ r i, r ∈ regions L ∧ c ≤ i < c + chunks ∧ in_rg r i.
Proof.
  intros HI Hc Hno c Hp. pose proof (play_range b c (Hp c ltac:(lia))). pose proof (play_range b (c + chunks - 1) (Hp (c + chunks - 1) ltac:(lia))).
  destruct (mo_bounds Hok) as (? & ? & ?).
  destruct (decide (Exists (λ r, Exists (λ i, in_rg r i) (seqZ c chunks)) (regions L))) as [Hex|Hnex].
  { apply Exists_exists in Hex as (r & Hr & (i & Hi%elem_of_seqZ & ?)%Exists_exists). exists r, i. split; [done|]. split; [lia|done]. }
  destruct (Hno c ltac:(lia) ltac:(lia)). intros u s E. destruct (decide (u + s ≤ c ∨ c + chunks ≤ u)) as [|Hover]; [done|exfalso].
  pose proof (blocks_block _ _ _ _ _ _ _ _ (mi_maps _ _ _ _ HI b) E) as Hb. set (i := Z.max u c).
  destruct (ma_block _ _ _ (mi_agrees _ _ _ _ HI b) u s E) as [(r & Hr & _ & <- & <-)|Hout].
  - apply Hnex, Exists_exists. exists r. split; [done|]. apply Exists_exists. exists i. rewrite elem_of_seqZ. unfold in_rg. lia.
  - apply (Hout i); [lia|]. apply Hp. lia.
Qed.

Lemma alloc_inv m L1 l L2 live avail d chunks :
  inv m (L1 ++ l :: L2) live avail → 1 ≤ chunks < 2 ^ 31 →
  wp (m32_allocate_contiguous_chunks vm bf fuel m d chunks (head_addr l)) (alloc_region m L1 l L2 live avail d chunks).
Proof.
  intros HI Hc. set (L := L1 ++ l :: L2) in *. unfold m32_allocate_contiguous_chunks. set (b := is_large_chunk_allocation chunks).
  rewrite (i32_id chunks) by (unfold is_i32; lia). pose proof max_small as Hmx.
  apply wp_bind. eapply wp_mono; [apply (blocks_alloc _ _ _ _ _ _ _ bf fuel (mi_maps _ _ _ _ HI b)); [lia|apply Hok]|].
  intros [chunk rm] Hal. unfold alloc_blocks in Hal. cbn [fst snd] in Hal. destruct Hal as [[[= -> ->] Hno]|(Hc0 & Hcm & Hun & Hav & Hb)].
  { cbn. left. split; [done|]. assert (set_region_map m b (region_map_of m b) = m) as -> by (by destruct m, b).
    split; [by apply flags_inv|]. split; [done|]. apply (alloc_none m L live avail); [done|lia|done]. }
  destruct (Z.eqb_spec chunk (-1)) as [|_]; [lia|]. set (r := {| rg_start := chunk; rg_chunks := chunks; rg_space := d |}).
  destruct (mi_lens _ _ _ _ HI) as (Ll1 & Ll2 & Ll3 & Ll4). destruct (mi_total _ _ _ _ HI) as [Et El].
  assert (∀ b', 0 ≤ avail b' ≤ max) as Havb by (intros b'; apply (unit_blocks_bounds _ _ _ _ _ _ (mi_maps _ _ _ _ HI b'))).
  pose proof (Havb true). pose proof (Havb false).
  assert (chunks ≤ (if b then total_available_large m else total_available m) ∧ chunks ≤ total_available m) as [Hle1 Hle2].
  { unfold b in *. destruct (is_large_chunk_allocation chunks); lia. }
  pose proof (unused_run m L live avail HI _ _ _ Hun Hc0 Hcm) as Hrun.
  cbn [set_region_map set_available chunk_space]. rewrite vec_set_vw by lia. cbn [mbind res_bind].
  apply wp_bind. eapply wp_mono.
  { apply insert_ok; [lia|lia|lia|done|]. intros j Hj. by apply Hrun. }
  intros m1 (ds & Em1 & Hds). cbn [set_descriptors set_chunk_space set_available set_region_map descriptor_map sft_cleared] in Em1, Hds.
  assert (∀ x, x ∈ regions L → rg_start x ≠ chunk) as Hnew.
  { intros x Hx E. destruct (Hrun chunk) as (_ & Hno & _); [lia|]. apply (Hno x Hx). unfold in_rg. pose proof (region_bounds _ _ _ _ HI x Hx). lia. }
  destruct (mi_unlinked _ _ _ _ HI chunk ltac:(lia) Hnew) as [Up Un].
  assert (∀ pl nl, added m (set_links m1 pl nl) r l →
      inv (set_links m1 pl nl)
        (L1 ++ (r :: l) :: L2) (with_region live r) (less_region avail r)) as Hfin.
  { intros pl nl Ha. eapply added_inv; try done; [cbn; lia|]. change (rg_large r) with b. cbn [rg_start rg_chunks r]. rewrite Em1. by destruct b. }
  assert (∀ pl nl, length pl = length (prev_link m) → length nl = length (next_link m) →
    (∀ c, 0 ≤ c → vw pl c = if decide (c = first_or (-1) l) then chunk else vw (prev_link m) c) →
    (∀ c, 0 ≤ c → vw nl c = if decide (c = chunk) then first_or (-1) l else vw (next_link m) c) →
    added m (set_links m1 pl nl) r l) as Hadd.
  { intros pl nl E1 E2 Hpl Hnl. rewrite Em1. split; cbn [set_links set_descriptors set_chunk_space set_available set_region_map prev_link next_link chunk_space descriptor_map total_available total_available_large].
    - done.
    - done.
    - change (rg_large r) with b. cbn [rg_start r]. pose proof (filled_snoc (chunk_space m) chunk 0 (if b then LARGE_SPACE else SMALL_SPACE) (chunk_space m)) as Hf.
      rewrite Z.add_0_r in Hf. apply Hf; [lia|lia|lia|]. apply filled_nil.
    - done.
    - change (rg_large r) with b. cbn [rg_chunks r]. rewrite usub_id by lia. split; [done|]. destruct b; [by rewrite usub_id by lia|lia].
    - change (rg_large r) with b. by destruct b. }
  assert (prev_link m1 = prev_link m ∧ next_link m1 = next_link m) as [Ep1 En1] by (by rewrite Em1).
  assert (∀ pl nl m2, length pl = length (prev_link m) → length nl = length (next_link m) →
    (∀ c, 0 ≤ c → vw pl c = if decide (c = first_or (-1) l) then chunk else vw (prev_link m) c) →
    (∀ c, 0 ≤ c → vw nl c = if decide (c = chunk) then first_or (-1) l else vw (next_link m) c) →
    m2 = set_links m1 pl nl → wp (p ← vec_get (prev_link m2) chunk; _ ← rust_assert (p =? -1); Val (addr chunk, m2)) (alloc_region m L1 l L2 live avail d chunks)) as Hend.
  { intros pl nl m2 E1 E2 Hpl Hnl ->. cbn [set_links prev_link]. rewrite vec_get_vw by lia. cbn [mbind res_bind]. rewrite Hpl by lia.
    rewrite decide_False, Up; [|destruct l as [|y l]; unfold first_or; cbn; [lia|]; apply not_eq_sym, Hnew; unfold L; rewrite regions_mid; set_solver].
    cbn. right. exists chunk. split; [lia|]. split; [done|]. apply Hfin, Hadd; done. }
  destruct l as [|y l]; cbn [head_addr].
  - cbn [is_zero Z.eqb]. rewrite En1, vec_get_vw by lia. cbn [mbind res_bind]. rewrite Un. cbn [Z.eqb rust_assert mbind res_bind].
    apply (Hend (prev_link m) (next_link m)); try done; [| |by rewrite Em1].
    + intros c Hc1. by rewrite decide_False by (cbn; lia).
    + intros c Hc1. case_decide as E; [by subst|done].
  - assert (y ∈ regions L) as Hy by (unfold L; rewrite regions_mid; set_solver). pose proof (region_bounds _ _ _ _ HI y Hy) as Hyb.
    unfold is_zero. destruct (Z.eqb_spec (addr (rg_start y)) 0) as [E|_]; [by destruct (addr_eq (rg_start y)) as (_ & ? & _); [lia|]|].
    rewrite index_addr by lia. rewrite i32_id by (unfold is_i32; lia). rewrite En1, Ep1. rewrite vec_set_vw by lia. cbn [mbind res_bind]. rewrite vec_set_vw by lia. cbn [mbind res_bind].
    eapply Hend; [| | | |reflexivity]; cbn [prev_link next_link]; rewrite ?length_insert; try done.
    + intros c Hc1. rewrite vw_insert by lia. done.
    + intros c Hc1. rewrite vw_insert by lia. done.
Qed.

(** ** Freeing *)

Definition without_region (live : bool → gmap Z Z) (r : region) : bool → gmap Z Z := λ b, if eqb b (rg_large r) then delete (rg_start r) (live b) else live b.
Definition more_region (avail : bool → Z) (r : region) : bool → Z := λ b, if eqb b (rg_large r) then avail b + rg_chunks r else avail b.

(** The region [r] between [A] and [B] is unlinked. *)
Record removed (m m' : Map32) (A : list region) (r : region) (B : list region) : Prop := {
  rm_prev : length (prev_link m') = length (prev_link m) ∧
    ∀ c, 0 ≤ c → vw (prev_link m') c = if decide (c = rg_start r) then -1 else if decide (c = first_or (-1) B) then last_or (-1) A else vw (prev_link m) c;
  rm_next : length (next_link m') = length (next_link m) ∧
    ∀ c, 0 ≤ c → vw (next_link m') c = if decide (c = rg_start r) then -1 else if decide (c = last_or (-1) A) then first_or (-1) B else vw (next_link m) c;
  rm_space : filled (chunk_space m) (rg_start r) (rg_chunks r) NO_SPACE (chunk_space m');
  rm_descr : filled (descriptor_map m) (rg_start r) (rg_chunks r) UNINITIALIZED (descriptor_map m');
  rm_total : total_available m' = total_available m + rg_chunks r ∧
             total_available_large m' = total_available_large m + (if rg_large r then rg_chunks r else 0);
  rm_other : region_map_of m' (negb (rg_large r)) = region_map_of m (negb (rg_large r))
}.

Lemma removed_inv m m' L1 A r B L2 live avail :
  inv m (L1 ++ (A ++ r :: B) :: L2) live avail →
  fl_blocks (-1) 1 max (region_map_of m' (rg_large r)) (delete (rg_start r) (live (rg_large r))) (avail (rg_large r) + rg_chunks r) →
  removed m m' A r B → inv m' (L1 ++ (A ++ B) :: L2) (without_region live r) (more_region avail r).
Proof.
  intros HI Hb [[Hpl Hp] [Hnl Hn] [Hcl Hcs] [Hdl Hds] [Ht1 Ht2] Ho]. set (L := L1 ++ (A ++ r :: B) :: L2) in *. set (L' := L1 ++ (A ++ B) :: L2).
  assert (regions L ≡ₚ r :: regions L') as HP.
  { unfold L, L'. rewrite !regions_mid, <-(Permutation_middle A B r). symmetry. apply Permutation_middle. }
  assert (r ∈ regions L) as Hr by (rewrite HP; constructor). pose proof (region_bounds _ _ _ _ HI r Hr) as Hrb.
  pose proof (mi_nodup _ _ _ _ HI) as Hnd. assert (NoDup (rg_start <$> r :: regions L')) as Hnd' by (by rewrite <-HP). rewrite fmap_cons in Hnd'. apply NoDup_cons in Hnd' as [Hnr Hnd'].
  assert (∀ x, x ∈ regions L' → x ∈ regions L ∧ rg_start x ≠ rg_start r) as Hin.
  { intros x Hx. split; [rewrite HP; by constructor|]. intros E. apply Hnr. rewrite <-E. by apply list_elem_of_fmap_2. }
  assert (∀ x, x ∈ regions L → x = r ∨ x ∈ regions L') as Hin2 by (intros x; rewrite HP, elem_of_cons; done).
  assert (∀ x c, x ∈ regions L' → in_rg x c → ¬ (rg_start r ≤ c < rg_start r + rg_chunks r)) as Hapart.
  { intros x c Hx Hxc Hrc. destruct (Hin x Hx) as [HxL Hne]. apply Hne. by rewrite (regions_disjoint _ _ _ _ HI x r c HxL Hr Hxc Hrc). }
  assert (∀ x, x ∈ regions L' → 0 ≤ rg_start x < max) as Hx0 by (intros x [Hx _]%Hin; pose proof (region_bounds _ _ _ _ HI x Hx); lia).
  destruct (mi_lens _ _ _ _ HI) as (Ll1 & Ll2 & Ll3 & Ll4). split.
  - rewrite Hpl, Hnl, Hcl, Hdl. done.
  - intros b. unfold without_region, more_region. destruct (eqb_spec b (rg_large r)) as [-> |Hne]; [done|].
    replace b with (negb (rg_large r)) by (by destruct b, (rg_large r)). rewrite Ho. apply (mi_maps _ _ _ _ HI).
  - intros b. destruct (mi_agrees _ _ _ _ HI b) as [A1 A2 A3]. unfold without_region. destruct (eqb_spec b (rg_large r)) as [-> |Hne]; split.
    + intros x [Hx Hne]%Hin Ex. rewrite lookup_delete_ne by done. by apply A1.
    + intros u s [Hu E]%lookup_delete_Some. destruct (A2 u s E) as [(x & [-> |Hx]%Hin2 & Ex)|?]; [by destruct Ex as (_ & ? & _)|left; by exists x|by right].
    + intros c Hc0 Hnp. destruct (A3 c Hc0 Hnp) as (u & s & E & ?). exists u, s. split; [|done]. rewrite lookup_delete_ne; [done|]. intros <-.
      pose proof (A1 r Hr eq_refl) as Er. apply Hnp, (mi_inside _ _ _ _ HI r c Hr). unfold in_rg. assert (s = rg_chunks r) by congruence. lia.
    + intros x [Hx Hnx]%Hin Ex. by apply A1.
    + intros u s E. destruct (A2 u s E) as [(x & [-> |Hx]%Hin2 & Ex)|?]; [by destruct Ex as [Ex _]|left; by exists x|by right].
    + done.
  - intros x c [Hx _]%Hin. by apply (mi_inside _ _ _ _ HI).
  - done.
  - destruct (mi_total _ _ _ _ HI). rewrite Ht1, Ht2. unfold more_region. destruct (rg_large r); cbn; lia.
  - intros b. pose proof (mi_count _ _ _ _ HI b) as Hcnt. rewrite HP, chunks_of_cons in Hcnt. unfold more_region. destruct b, (rg_large r); cbn [eqb] in *; lia.
  - intros x Hx. destruct (Hin x Hx) as [HxL Hne]. specialize (Hx0 x Hx). rewrite Hcs by lia. rewrite decide_False; [by apply (mi_space _ _ _ _ HI)|].
    eapply Hapart; [done|]. by apply (region_start_in _ _ _ _ HI).
  - intros c Hc0 Hno. rewrite Hcs by lia. case_decide as Hd; [done|]. apply (mi_no_space _ _ _ _ HI); [done|].
    intros x [-> |Hx]%Hin2; [lia|by apply Hno].
  - intros x c Hx Hxc. rewrite Hds by (specialize (Hx0 x Hx); unfold in_rg in Hxc; lia). rewrite decide_False by (by eapply Hapart). apply (mi_descr _ _ _ _ HI); [by apply Hin|done].
  - intros c Hc0 Hno. rewrite Hds by lia. case_decide as Hd.
    + by rewrite decide_True by (eapply play_range, (mi_inside _ _ _ _ HI r c Hr), Hd).
    + apply (mi_no_descr _ _ _ _ HI); [done|]. intros x [-> |Hx]%Hin2; [done|by apply Hno].
  - intros l' Hl'. destruct (decide (l' = A ++ B)) as [-> |Hne].
    + pose proof (mi_chains _ _ _ _ HI (A ++ r :: B) ltac:(unfold L; set_solver)) as Hc. apply region_chain_app in Hc as [HA (_ & _ & HB)].
      assert (∀ x, x ∈ A ++ B → 0 ≤ rg_start x ∧ rg_start x ≠ rg_start r) as HAB.
      { intros x Hx. assert (x ∈ regions L') as Hx' by (unfold L'; rewrite regions_mid; set_solver). split; [by apply Hx0|by apply Hin]. }
      assert (NoDup (rg_start <$> A ++ B)) as HndAB.
      { unfold L' in Hnd'. rewrite regions_mid, !fmap_app in Hnd'. apply NoDup_app in Hnd' as (_ & _ & Hnd'). apply NoDup_app in Hnd' as (Hnd' & _). by rewrite fmap_app. }
      rewrite fmap_app in HndAB. apply NoDup_app in HndAB as (HndA & HdAB & HndB).
      assert (∀ x y, x ∈ A → y ∈ B → rg_start x ≠ rg_start y) as Hd2.
      { intros x y Hx Hy E. apply (HdAB (rg_start x)); [by apply list_elem_of_fmap_2|]. rewrite E. by apply list_elem_of_fmap_2. }
      assert (∀ x, x ∈ A → rg_start x ≠ first_or (-1) B) as HfB.
      { intros x Hx. destruct B as [|y B]; [cbn; destruct (HAB x ltac:(set_solver)); lia|]. apply Hd2; [done|constructor]. }
      assert (∀ x, x ∈ B → rg_start x ≠ last_or (-1) A) as HlA.
      { intros x Hx. destruct A as [|y A'' _] using rev_ind; [cbn; destruct (HAB x ltac:(set_solver)); lia|]. unfold last_or. rewrite last_snoc. cbn. apply not_eq_sym, Hd2; set_solver. }
      apply region_chain_app. split.
      * eapply chain_end; [eapply chain_ext; [|exact HA]| |done].
        -- intros x Hx. destruct (HAB x ltac:(set_solver)). split; [|reflexivity]. rewrite Hp by done. by rewrite !decide_False by (done || by apply HfB).
        -- intros x Hx. destruct (HAB x ltac:(set_solver)). rewrite Hn by done. rewrite decide_False by done. by destruct (decide (rg_start x = _)), (decide (_ = rg_start x)); try congruence.
      * eapply chain_begin; [eapply chain_ext; [|exact HB]| |done].
        -- intros x Hx. destruct (HAB x ltac:(set_solver)). split; [reflexivity|]. rewrite Hn by done. by rewrite !decide_False by (done || by apply HlA).
        -- intros x Hx. destruct (HAB x ltac:(set_solver)). rewrite Hp by done. rewrite decide_False by done. by destruct (decide (rg_start x = _)), (decide (_ = rg_start x)); try congruence.
    + assert (l' ∈ L1 ++ L2) as Hl2 by (unfold L' in Hl'; set_solver). assert (l' ∈ L) as HL by (unfold L; set_solver).
      eapply chain_ext; [|exact (mi_chains _ _ _ _ HI l' HL)]. intros x Hx.
      assert (x ∈ regions L') as Hx' by (apply list_elem_of_join; exists l'; split; [done|unfold L'; set_solver]).
      assert (∀ y, y ∈ A ++ r :: B → rg_start x ≠ rg_start y) as Hoth by (intros y Hy; by apply (other_region L1 (A ++ r :: B) L2 l')).
      specialize (Hx0 x Hx'). rewrite Hp, Hn by lia. rewrite !decide_False; [done|..].
      * destruct A as [|y A'' _] using rev_ind; [cbn; lia|]. unfold last_or. rewrite last_snoc. cbn. apply Hoth. set_solver.
      * apply Hoth. set_solver.
      * destruct B as [|y B]; [cbn; lia|]. apply Hoth. set_solver.
      * apply Hoth. set_solver.
  - intros c Hc0 Hno. rewrite Hp, Hn by lia. destruct (decide (c = rg_start r)) as [-> |Hcr]; [done|]. rewrite !decide_False.
    + apply (mi_unlinked _ _ _ _ HI); [done|]. intros x [-> |Hx]%Hin2; [by apply not_eq_sym|by apply Hno].
    + destruct A as [|y A'' _] using rev_ind; [cbn; lia|]. unfold last_or. rewrite last_snoc. cbn. apply not_eq_sym, Hno. unfold L'. rewrite regions_mid. set_solver.
    + destruct B as [|y B]; [cbn; lia|]. apply not_eq_sym, Hno. unfold L'. rewrite regions_mid. set_solver.
Qed.

(** The links of the region. *)
Lemma region_links m L1 A r B L2 live avail :
  inv m (L1 ++ (A ++ r :: B) :: L2) live avail → vw (prev_link m) (rg_start r) = last_or (-1) A ∧ vw (next_link m) (rg_start r) = first_or (-1) B.
Proof. intros HI. pose proof (mi_chains _ _ _ _ HI (A ++ r :: B) ltac:(set_solver)) as Hc. apply region_chain_app in Hc as [_ (E1 & E2 & _)]. done. Qed.
Lemma region_link_bound m L1 A r B L2 live avail (p := last_or (-1) A) (n := first_or (-1) B) :
  inv m (L1 ++ (A ++ r :: B) :: L2) live avail → (p = -1 ∨ 0 ≤ p < max ∧ p ≠ rg_start r) ∧ (n = -1 ∨ 0 ≤ n < max ∧ n ≠ rg_start r).
Proof.
  intros HI. assert (∀ x, x ∈ A ++ B → 0 ≤ rg_start x < max ∧ rg_start x ≠ rg_start r) as Hx.
  { intros x Hx. assert (x ∈ regions (L1 ++ (A ++ r :: B) :: L2)) as Hxr by (rewrite regions_mid; set_solver).
    pose proof (region_bounds _ _ _ _ HI x Hxr). split; [lia|]. intros E. pose proof (mi_nodup _ _ _ _ HI) as Hnd.
    rewrite regions_mid, !fmap_app, fmap_cons in Hnd. apply NoDup_app in Hnd as (_ & _ & Hnd). apply NoDup_app in Hnd as (Hnd & _ & _).
    apply NoDup_app in Hnd as (_ & Hd & [Hn _]%NoDup_cons). apply elem_of_app in Hx as [Hx|Hx].
    - apply (Hd (rg_start x)); [by apply list_elem_of_fmap_2|]. rewrite E. constructor.
    - apply Hn. rewrite <-E. by apply list_elem_of_fmap_2. }
  subst p n. split.
  - destruct A as [|y A _] using rev_ind; [by left|]. right. unfold last_or. rewrite last_snoc. cbn. apply Hx. set_solver.
  - destruct B as [|y B]; [by left|]. right. unfold first_or. cbn. apply Hx. set_solver.
Qed.

Definition freed_region (L1 : list (list region)) A r B (L2 : list (list region)) live avail (out : Z * Map32) : Prop :=
  out.1 = rg_chunks r ∧ inv out.2 (L1 ++ (A ++ B) :: L2) (without_region live r) (more_region avail r).

Lemma free_inv m L1 A r B L2 live avail :
  inv m (L1 ++ (A ++ r :: B) :: L2) live avail →
  wp (m32_free_contiguous_chunks_no_lock vm m (rg_start r)) (freed_region L1 A r B L2 live avail).
Proof.
  intros HI. set (L := L1 ++ (A ++ r :: B) :: L2) in *. assert (r ∈ regions L) as Hr by (unfold L; rewrite regions_mid; set_solver).
  pose proof (region_bounds _ _ _ _ HI r Hr) as Hrb. destruct (mi_lens _ _ _ _ HI) as (Ll1 & Ll2 & Ll3 & Ll4). destruct (mi_total _ _ _ _ HI) as [Et El].
  destruct (region_links _ _ _ _ _ _ _ _ HI) as [Ep En]. destruct (region_link_bound _ _ _ _ _ _ _ _ HI) as [Bp Bn].
  pose proof max_small as Hmx. assert (∀ b', 0 ≤ avail b' ≤ max) as Havb by (intros b'; apply (unit_blocks_bounds _ _ _ _ _ _ (mi_maps _ _ _ _ HI b'))).
  pose proof (Havb true). pose proof (Havb false).
  unfold m32_free_contiguous_chunks_no_lock. rewrite vec_get_vw by lia. cbn [mbind res_bind]. rewrite (mi_space _ _ _ _ HI r Hr).
  replace (negb ((if rg_large r then LARGE_SPACE else SMALL_SPACE) =? SMALL_SPACE)) with (rg_large r) by (by destruct (rg_large r)). set (b := rg_large r).
  apply wp_bind. eapply wp_mono; [apply (blocks_free _ _ _ _ _ _ (rg_start r) (rg_chunks r) (mi_maps _ _ _ _ HI b)), (ma_region _ _ _ (mi_agrees _ _ _ _ HI b) r Hr eq_refl)|].
  intros [k rm] [Ek Hb]. cbn [fst snd] in Ek, Hb. subst k. cbn [set_region_map set_available total_available total_available_large].
  apply wp_bind. eapply wp_mono; [apply clear_space_ok; [lia|lia|lia|done]|]. intros m1 (cs & -> & Hcs).
  cbn [set_region_map set_available set_chunk_space total_available total_available_large next_link prev_link chunk_space] in *.
  rewrite vec_get_vw by lia. cbn [mbind res_bind]. rewrite vec_get_vw by lia. cbn [mbind res_bind]. rewrite En, Ep.
  set (p := last_or (-1) A) in *. set (n := first_or (-1) B) in *.
  assert ((if n =? -1 then Val (prev_link m) else vec_set (prev_link m) n p) = Val (if n =? -1 then prev_link m else <[Z.to_nat n := p]> (prev_link m))) as ->.
  { destruct (Z.eqb_spec n (-1)); [done|]. apply vec_set_vw. lia. }
  assert ((if p =? -1 then Val (next_link m) else vec_set (next_link m) p n) = Val (if p =? -1 then next_link m else <[Z.to_nat p := n]> (next_link m))) as ->.
  { destruct (Z.eqb_spec p (-1)); [done|]. apply vec_set_vw. lia. }
  cbn [mbind res_bind]. set (pl := if n =? -1 then _ else _). set (nl := if p =? -1 then _ else _).
  assert (length pl = length (prev_link m) ∧ ∀ c, 0 ≤ c → vw pl c = if decide (c = n) then p else vw (prev_link m) c) as [Lpl Hpl].
  { unfold pl. destruct (Z.eqb_spec n (-1)); [split; [done|]; intros c Hc; by rewrite decide_False by lia|]. rewrite length_insert. split; [done|]. intros c Hc. rewrite vw_insert by lia. done. }
  assert (length nl = length (next_link m) ∧ ∀ c, 0 ≤ c → vw nl c = if decide (c = p) then n else vw (next_link m) c) as [Lnl Hnl].
  { unfold nl. destruct (Z.eqb_spec p (-1)); [split; [done|]; intros c Hc; by rewrite decide_False by lia|]. rewrite length_insert. split; [done|]. intros c Hc. rewrite vw_insert by lia. done. }
  clearbody pl nl. rewrite vec_set_vw by lia. cbn [mbind res_bind]. rewrite vec_set_vw by lia. cbn [mbind res_bind].
  apply wp_bind. eapply wp_mono; [apply clear_descriptors_ok; [lia|lia|lia|done]|]. intros m2 (ds & cl & -> & Hds).
  split; [done|]. apply removed_inv with m; [done| |].
  { cbn [snd region_map_of large_region_map region_map set_descriptors set_links]. fold b. by destruct b. }
  cbn [snd]. split; cbn [set_links set_descriptors set_chunk_space set_available set_region_map prev_link next_link chunk_space descriptor_map total_available total_available_large].
  - rewrite length_insert. split; [done|]. intros c Hc. rewrite vw_insert by lia. case_decide; [done|]. by apply Hpl.
  - rewrite length_insert. split; [done|]. intros c Hc. rewrite vw_insert by lia. case_decide; [done|]. by apply Hnl.
  - done.
  - done.
  - fold b. rewrite uadd_id by lia. split; [done|]. destruct b; [by rewrite uadd_id by lia|lia].
  - fold b. by destruct b.
Qed.

(** ** Freeing a list *)

Definition map_inv (m : Map32) (L : list (list region)) : Prop := ∃ live avail, inv m L live avail.

Lemma free_linked_fwd m L1 A r B L2 f :
  map_inv m (L1 ++ (A ++ r :: B) :: L2) → (length B ≤ f)%nat → wp (free_linked vm f true m (rg_start r)) (λ m', map_inv m' (L1 ++ (A ++ [r]) :: L2)).
Proof.
  revert m B. induction f as [|f IH]; intros m B (live & avail & HI) Hf; cbn [free_linked];
    (assert (r ∈ regions (L1 ++ (A ++ r :: B) :: L2)) as Hr by (rewrite regions_mid; set_solver));
    pose proof (region_bounds _ _ _ _ HI r Hr); destruct (mi_lens _ _ _ _ HI) as (Ll1 & Ll2 & _); destruct (region_links _ _ _ _ _ _ _ _ HI) as [_ En];
    rewrite vec_get_vw by lia; cbn [mbind res_bind]; rewrite En; destruct B as [|y B]; cbn [length] in Hf; try lia.
  - cbn. by exists live, avail.
  - cbn. by exists live, avail.
  - assert (y ∈ regions (L1 ++ (A ++ r :: y :: B) :: L2)) as Hy by (rewrite regions_mid; set_solver). pose proof (region_bounds _ _ _ _ HI y Hy).
    change (first_or (-1) (y :: B)) with (rg_start y). destruct (Z.eqb_spec (rg_start y) (-1)); [lia|]. apply wp_bind. replace (A ++ r :: y :: B) with ((A ++ [r]) ++ y :: B) in HI by (by rewrite <-app_assoc).
    eapply wp_mono; [by apply free_inv|]. intros [k m'] [_ HI']. apply (IH m' B); [|lia]. rewrite <-app_assoc in HI'. by eexists _, _.
Qed.
Lemma free_linked_bwd m L1 A r B L2 f :
  map_inv m (L1 ++ (A ++ r :: B) :: L2) → (length A ≤ f)%nat → wp (free_linked vm f false m (rg_start r)) (λ m', map_inv m' (L1 ++ (r :: B) :: L2)).
Proof.
  revert m A. induction f as [|f IH]; intros m A (live & avail & HI) Hf; cbn [free_linked];
    (assert (r ∈ regions (L1 ++ (A ++ r :: B) :: L2)) as Hr by (rewrite regions_mid; set_solver));
    pose proof (region_bounds _ _ _ _ HI r Hr); destruct (mi_lens _ _ _ _ HI) as (Ll1 & Ll2 & _); destruct (region_links _ _ _ _ _ _ _ _ HI) as [Ep _];
    rewrite vec_get_vw by lia; cbn [mbind res_bind]; rewrite Ep; destruct A as [|y A _] using rev_ind; rewrite ?length_app in Hf; cbn [length] in Hf; try lia.
  - cbn. by exists live, avail.
  - cbn. by exists live, avail.
  - assert (y ∈ regions (L1 ++ ((A ++ [y]) ++ r :: B) :: L2)) as Hy by (rewrite regions_mid; set_solver). pose proof (region_bounds _ _ _ _ HI y Hy).
    replace (last_or (-1) (A ++ [y])) with (rg_start y) by (unfold last_or; by rewrite last_snoc). destruct (Z.eqb_spec (rg_start y) (-1)); [lia|]. apply wp_bind. rewrite <-app_assoc in HI. cbn [app] in HI.
    eapply wp_mono; [by apply free_inv|]. intros [k m'] [_ HI']. apply (IH m' A); [|lia]. by eexists _, _.
Qed.

(** There are at most [max] regions. *)
Lemma regions_length m L : map_inv m L → (length (regions L) ≤ Z.to_nat max)%nat.
Proof.
  intros (live & avail & HI). rewrite <-(length_fmap rg_start). assert (length (seqZ 0 max) = Z.to_nat max) as <- by apply length_seqZ.
  apply submseteq_length, NoDup_submseteq; [exact (mi_nodup _ _ _ _ HI)|]. intros c (r & -> & Hr)%list_elem_of_fmap. apply elem_of_seqZ.
  pose proof (region_bounds _ _ _ _ HI r Hr). lia.
Qed.

Lemma free_all_inv m L1 l L2 :
  map_inv m (L1 ++ l :: L2) → wp (m32_free_all_chunks vm fuel m (head_addr l)) (λ m', map_inv m' (L1 ++ [] :: L2)).
Proof.
  intros HI. pose proof (regions_length _ _ HI) as Hlen. rewrite regions_mid, !length_app in Hlen. pose proof (mo_fuel Hok) as Hf.
  unfold m32_free_all_chunks. destruct l as [|r l]; cbn [head_addr].
  { cbn. done. }
  assert (0 ≤ rg_start r < max) as Hr.
  { destruct HI as (live & avail & HI). pose proof (region_bounds _ _ _ _ HI r ltac:(rewrite regions_mid; set_solver)). lia. }
  destruct (addr_eq (rg_start r) Hr) as (_ & Hz & Ha). rewrite Ha, Z.eqb_refl. cbn [rust_assert mbind res_bind]. unfold is_zero.
  destruct (Z.eqb_spec (addr (rg_start r)) 0); [done|]. rewrite index_addr by done. cbn [length] in Hlen.
  apply wp_bind. eapply wp_mono; [apply (free_linked_fwd m L1 [] r l L2); [done|lia]|]. intros m1 HI1.
  apply wp_bind. eapply wp_mono; [apply (free_linked_bwd m1 L1 [] r [] L2); [done|cbn; lia]|]. intros m2 (live & avail & HI2).
  pose proof max_small. rewrite i32_id by (unfold is_i32; lia). apply wp_bind. eapply wp_mono; [by apply (free_inv m2 L1 [] r [] L2)|].
  intros [k m3] [_ HI3]. by eexists _, _.
Qed.

(** ** Walking a list *)

Lemma next_region m L1 A r B L2 :
  map_inv m (L1 ++ (A ++ r :: B) :: L2) → m32_get_next_contiguous_region vm m (addr (rg_start r)) = Val (head_addr B).
Proof.
  intros (live & avail & HI). assert (0 ≤ rg_start r < max) as Hr by (pose proof (region_bounds _ _ _ _ HI r ltac:(rewrite regions_mid; set_solver)); lia).
  destruct (addr_eq (rg_start r) Hr) as (_ & Hz & Ha). unfold m32_get_next_contiguous_region, is_zero. destruct (Z.eqb_spec (addr (rg_start r)) 0); [done|].
  rewrite Ha, Z.eqb_refl. cbn [rust_assert mbind res_bind]. rewrite index_addr by done. destruct (mi_lens _ _ _ _ HI) as (_ & Ll2 & _). rewrite vec_get_vw by lia. cbn [mbind res_bind].
  destruct (region_links _ _ _ _ _ _ _ _ HI) as [_ ->]. destruct B as [|y B]; [done|]. cbn [head_addr]. change (first_or (-1) (y :: B)) with (rg_start y).
  pose proof (region_bounds _ _ _ _ HI y ltac:(rewrite regions_mid; set_solver)). by destruct (Z.eqb_spec (rg_start y) (-1)); [lia|].
Qed.
Lemma region_chunks m L r : map_inv m L → r ∈ regions L → m32_get_contiguous_region_chunks vm m (addr (rg_start r)) = Val (rg_chunks r).
Proof.
  intros (live & avail & HI) Hr. pose proof (region_bounds _ _ _ _ HI r Hr). destruct (addr_eq (rg_start r)) as (_ & _ & Ha); [lia|].
  unfold m32_get_contiguous_region_chunks. rewrite Ha, Z.eqb_refl. cbn [rust_assert mbind res_bind]. rewrite index_addr by lia. destruct (mi_lens _ _ _ _ HI) as (_ & _ & Ll3 & _).
  rewrite vec_get_vw by lia. cbn [mbind res_bind]. rewrite (mi_space _ _ _ _ HI r Hr). pose proof max_small. rewrite i32_id by (unfold is_i32; lia).
  replace (negb ((if rg_large r then LARGE_SPACE else SMALL_SPACE) =? SMALL_SPACE)) with (rg_large r) by (by destruct (rg_large r)).
  eapply blocks_size; [exact (mi_maps _ _ _ _ HI (rg_large r))|]. by apply (ma_region _ _ _ (mi_agrees _ _ _ _ HI (rg_large r))).
Qed.
End inv.
