(* ===== verification/Map32Boot.v ===== *)
(** * Booting [Map32]

    A new map has one free block per region map.  Contiguous spaces enter their descriptors
    and page resources get their free lists; then [finalize_static_space_map] makes every
    chunk between [first] and [lim] available, in the region map of its kind. *)

From S2P Require Import Prelude Conversions SpaceDescriptor FreeList FreeListModel FreeListSpec FreeListInv FreeListRefine FreeListUnits IntArrayFreeList Map32 Map32Inv.

Section boot.
Context (vm : VMLayout) (max : Z) (fuel : nat).

(** Before the map is finalized; [static] is the descriptor of each chunk. *)
Record m32_boot (m : Map32) (static : Z → Z) : Prop := {
  mb_links : prev_link m = replicate (Z.to_nat max) (-1) ∧ next_link m = replicate (Z.to_nat max) (-1) ∧ chunk_space m = replicate (Z.to_nat max) NO_SPACE;
  mb_descr : length (descriptor_map m) = Z.to_nat max ∧ ∀ c, 0 ≤ c < max → vw (descriptor_map m) c = static c;
  mb_maps b : fl_prefix (-1) 1 max (region_map_of m b) no_uc [] 0;
  mb_total : total_available m = 0 ∧ total_available_large m = 0;
  mb_pages : iafl_wf (global_page_map m) ∧ head (global_page_map m) = -1 ∧ heads (global_page_map m) = MAX_SPACES
}.

Lemma init_one n : 1 ≤ n → init_segs n n = [Seg 0 n true].
Proof. intros Hn. unfold init_segs, grains. rewrite Z.div_same, Z.mod_same by lia. done. Qed.
Lemma rel_wf r h H n uc ss l : fl_rel (T := iafl_ref) r h H n uc ss l → iafl_wf r ∧ head r = h ∧ heads r = H.
Proof. by intros (m & [? ? ?] & _). Qed.

Lemma new_boot σ : 1 ≤ max ≤ MAX_UNITS → (1 < fuel)%nat → wp (m32_new max fuel σ) (λ m, m32_boot m (λ _, UNINITIALIZED)).
Proof.
  intros Hm Hf. destruct bounds_eqs as [E1 E2]. unfold m32_new. rewrite i32_id by (unfold is_i32; lia).
  assert (Z.to_nat (max `div` max) < fuel)%nat as Hd by (rewrite Z.div_same by lia; lia).
  assert (∀ σ, wp (new fuel σ max max 1) (λ r, fl_prefix (-1) 1 max r no_uc [] 0)) as Hnew.
  { intros σ'. eapply wp_mono; [apply new_rel; (done || lia)|]. intros r Hr. rewrite init_one in Hr by lia. split; [done|].
    unfold rest. destruct (Z.ltb_spec 0 max); [|lia]. rewrite Z.sub_0_r. exact Hr. }
  wp_seq r1 H1 by (apply Hnew). wp_seq r2 H2 by (apply Hnew). 
  apply wp_bind. eapply wp_mono; [apply new_rel; [vm_compute; done|vm_compute; done|lia|vm_compute; lia]|]. intros g Hg%rel_wf.
  split; cbn.
  - done.
  - rewrite length_replicate. split; [done|]. intros c Hc. unfold vw. rewrite lookup_replicate_2 by lia. done.
  - by intros [].
  - done.
  - done.
Qed.

Lemma boot_insert m static c k d :
  m32_boot m static → 0 < heap_start vm → (BYTES_IN_CHUNK | heap_start vm) → heap_start vm + max * BYTES_IN_CHUNK < 2 ^ 64 → max ≤ MAX_UNITS → (Z.to_nat max < fuel)%nat →
  0 ≤ c → 0 ≤ k → c + k ≤ max → (∀ j, c ≤ j < c + k → static j = UNINITIALIZED) →
  wp (m32_insert vm m (chunk_index_to_address vm c) (ushl 64 k LOG_BYTES_IN_CHUNK) d) (λ m', m32_boot m' (λ j, if decide (c ≤ j < c + k) then d else static j)).
Proof.
  intros [Hl [Hdl Hd] Hm Ht Hp] H1 H2 H3 H4 H5 Hc Hk Hck Hs.
  eapply wp_mono; [apply (insert_ok vm max 0 0 0 fuel); [split; (done || lia)|lia|lia|lia|done|]|].
  { intros j Hj. rewrite Hd by lia. by apply Hs. }
  intros m' (ds & -> & Hf). split; cbn; try done. destruct Hf as [El Hf]. rewrite El. split; [done|]. intros j Hj. rewrite Hf by lia. case_decide; [done|by apply Hd].
Qed.

Lemma boot_create m static : m32_boot m static → m32_boot (m32_create_freelist m).1 static.
Proof.
  intros [Hl Hd Hm Ht (Hwf & Hh & HH)]. split; try done. cbn [m32_create_freelist fst set_global_page_map global_page_map].
  set (k := i32 _). destruct (from_parent_shares (global_page_map m) k Hwf) as (Hsh & (p & o & v & Hp & Ho & Hv & Hpar & Hi) & _).
  assert (fresh (dom (global_page_map m).1) ≠ (global_page_map m).2) as Hne.
  { intros E. pose proof (is_fresh (dom (global_page_map m).1)) as Hfr. rewrite E in Hfr. apply not_elem_of_dom in Hfr.
    destruct Hwf as (q & _ & _ & Hq & _). cbn [table_owner] in Hq. by rewrite Hfr in Hq. }
  split.
  - destruct Hsh as (x & Hx1 & Hx2). exists p, o, v. cbn [fst snd]. assert (x = p) as <- by congruence. done.
  - cbn. rewrite lookup_insert_ne by done. done.
Qed.

(** ** Blocking out the region maps *)

Section finalize.
Context (first bd lim : Z).
Context (Hb : 0 ≤ first ≤ bd ∧ bd ≤ lim ≤ max ∧ max ≤ MAX_UNITS) (Hne : first < lim) (Hfuel : (Z.to_nat max < fuel)%nat).

Definition bottom : list seg := if first =? 0 then [] else [Seg 0 first false].
Definition singles (c : Z) : list seg := (λ i, Seg i 1 false) <$> seqZ first (c - first).
Definition top : list seg := if max =? lim then [] else [Seg lim (max - lim) false].

Lemma fuel_big : (1 < fuel)%nat.
Proof. lia. Qed.
Lemma max_i32 : max < 2 ^ 30.
Proof. destruct bounds_eqs. lia. Qed.

Lemma singles_snoc c : first ≤ c → singles (c + 1) = singles c ++ [Seg c 1 false].
Proof.
  intros Hc. unfold singles. replace (c + 1 - first) with (c - first + 1) by lia. rewrite seqZ_app by lia. rewrite fmap_app. by replace (first + (c - first)) with c by lia.
Qed.
Lemma alloc_singles r k :
  fl_prefix (-1) 1 max r no_uc (bottom ++ singles first) first → first + Z.of_nat k ≤ lim →
  wp (alloc_units fuel r (replicate k 1)) (λ r', fl_prefix (-1) 1 max r' no_uc (bottom ++ singles (first + Z.of_nat k)) (first + Z.of_nat k)).
Proof.
  intros HP Hk. unfold alloc_units.
  eapply wp_mono; [apply (wp_for_each _ (λ done r', fl_prefix (-1) 1 max r' no_uc (bottom ++ singles (first + Z.of_nat (length done))) (first + Z.of_nat (length done))))|].
  - cbn [length]. by rewrite Z.add_0_r.
  - intros l1 a l2 r' E HP'. assert (a ∈ replicate k 1) as [-> _]%elem_of_replicate by (rewrite E; set_solver).
    assert (length l1 < k)%nat as Hlt by (apply (f_equal length) in E; rewrite length_replicate, length_app in E; cbn in E; lia).
    apply wp_bind. eapply wp_mono; [apply (prefix_alloc _ _ _ _ _ _ _ 1 fuel HP'); (lia || apply fuel_big)|]. intros [u r''] [_ HP'']. cbn in *.
    rewrite length_app. cbn [length]. replace (first + Z.of_nat (length l1 + 1)) with (first + Z.of_nat (length l1) + 1) by lia.
    rewrite singles_snoc by lia. by rewrite app_assoc.
  - intros r'. by rewrite length_replicate.
Qed.
Lemma block_out_ok r :
  fl_prefix (-1) 1 max r no_uc [] 0 → wp (block_out fuel r first (lim - 1)) (λ r', fl_prefix (-1) 1 max r' no_uc (bottom ++ singles lim) lim).
Proof.
  intros HP. pose proof max_i32. unfold block_out.
  assert (wp (if first =? 0 then Val r else '(_, r) ← alloc_first_fit fuel r (i32 first); Val r) (λ r', fl_prefix (-1) 1 max r' no_uc (bottom ++ singles first) first)) as H1.
  { unfold bottom, singles. rewrite Z.sub_diag. cbn [seqZ fmap list_fmap]. rewrite app_nil_r. destruct (Z.eqb_spec first 0) as [-> |Hf]; [done|].
    rewrite i32_id by (unfold is_i32; lia). apply wp_bind. eapply wp_mono; [apply (prefix_alloc _ _ _ _ _ _ _ first fuel HP); (lia || apply fuel_big)|].
    intros [u r'] [_ HP']. exact HP'. }
  wp_seq r1 HP1 by (exact H1). replace (Z.to_nat (lim - 1 + 1 - first)) with (Z.to_nat (lim - first)) by lia.
  pose proof (alloc_singles r1 (Z.to_nat (lim - first)) HP1) as H2. rewrite Z2Nat.id in H2 by lia. replace (first + (lim - first)) with lim in H2 by lia. apply H2. lia.
Qed.
Lemma block_trailing_ok r :
  fl_prefix (-1) 1 max r no_uc (bottom ++ singles lim) lim →
  wp (block_trailing max fuel r (lim - 1)) (λ r', fl_prefix (-1) 1 max r' no_uc (bottom ++ singles lim ++ top) max).
Proof.
  intros HP. pose proof max_i32. unfold block_trailing, top. rewrite uadd_id by lia. replace (lim - 1 + 1) with lim by lia. rewrite usub_id by lia.
  destruct (Z.eqb_spec (max - lim) 0) as [E|E].
  { assert (lim = max) as -> by lia. rewrite Z.eqb_refl, app_nil_r. exact HP. }
  destruct (Z.eqb_spec max lim); [lia|]. rewrite !i32_id by (unfold is_i32; lia).
  apply wp_bind. eapply wp_mono; [apply (prefix_alloc _ _ _ _ _ _ _ (max - lim) fuel HP); (lia || apply fuel_big)|]. intros [u r'] [Eu HP']. cbn [fst snd] in *. subst u.
  rewrite Z.eqb_refl. cbn. replace (lim + (max - lim)) with max in HP' by lia. by rewrite <-app_assoc in HP'.
Qed.

(** ** Placing the chunks *)

Definition base_segs : list seg := bottom ++ singles lim ++ top.
Definition pages : Z := (lim - first) * PAGES_IN_CHUNK.
Definition page_segs (c : Z) : list seg := (λ i, Seg (i * PAGES_IN_CHUNK) PAGES_IN_CHUNK false) <$> seqZ 0 (c - first).
(** Pages are not merged over the boundaries of chunks. *)
Definition page_uc (c v : Z) : bool := bool_decide (0 ≤ v < (c - first) * PAGES_IN_CHUNK ∧ v `mod` PAGES_IN_CHUNK = 0).
Definition placed (b : bool) (c u : Z) : Prop := first ≤ u < c ∧ (bd <=? u) = b.
Definition placed_count (b : bool) (c : Z) : Z := if b then Z.max 0 (c - bd) else Z.min c bd - first.

Record placing (m : Map32) (c : Z) (st : Map32 * Z) : Prop := {
  pl_same : prev_link st.1 = prev_link m ∧ next_link st.1 = next_link m ∧ chunk_space st.1 = chunk_space m ∧ descriptor_map st.1 = descriptor_map m;
  pl_page : st.2 = (c - first) * PAGES_IN_CHUNK;
  pl_total : total_available st.1 = placed_count false c + placed_count true c ∧ total_available_large st.1 = placed_count true c;
  pl_maps b : ∃ live, fl_blocks (-1) 1 max (region_map_of st.1 b) live (placed_count b c) ∧
    ∀ u s, live !! u = Some s ↔ Seg u s false ∈ base_segs ∧ ¬ placed b c u;
  pl_pages : fl_prefix (-1) MAX_SPACES pages (global_page_map st.1) (page_uc c) (page_segs c) ((c - first) * PAGES_IN_CHUNK)
}.

Context (boundary : Z) (Hbd : ∀ c, first ≤ c < lim → (boundary <=? chunk_index_to_address vm c) = (bd <=? c)) (Hpages : pages ≤ MAX_UNITS).

Lemma page_segs_snoc c : first ≤ c → page_segs (c + 1) = page_segs c ++ [Seg ((c - first) * PAGES_IN_CHUNK) PAGES_IN_CHUNK false].
Proof. intros Hc. unfold page_segs. replace (c + 1 - first) with (c - first + 1) by lia. rewrite seqZ_app by lia. by rewrite fmap_app. Qed.
Lemma single_base c : first ≤ c < lim → Seg c 1 false ∈ base_segs.
Proof. intros Hc. unfold base_segs. rewrite !elem_of_app. right. left. unfold singles. apply list_elem_of_fmap. exists c. rewrite elem_of_seqZ. split; [done|lia]. Qed.

(** The page map of one more chunk. *)
Lemma place_pages g c :
  fl_prefix (-1) MAX_SPACES pages g (page_uc c) (page_segs c) ((c - first) * PAGES_IN_CHUNK) → first ≤ c < lim →
  wp (g ← set_uncoalescable g ((c - first) * PAGES_IN_CHUNK); alloc_first_fit fuel g PAGES_IN_CHUNK)
    (λ out, out.1 = (c - first) * PAGES_IN_CHUNK ∧
       fl_prefix (-1) MAX_SPACES pages out.2 (page_uc (c + 1)) (page_segs (c + 1)) ((c + 1 - first) * PAGES_IN_CHUNK)).
Proof.
  intros [HA HR] Hc. unfold pages in *. change PAGES_IN_CHUNK with 1024 in *. apply wp_bind.
  eapply wp_mono; [apply (rel_unco _ _ _ _ _ _ _ _ HR); unfold inb, MAX_SPACES; change (Z.shiftl 1 LOG_MAX_SPACES) with 16; lia|]. intros g' HR'.
  assert (fl_prefix (-1) MAX_SPACES ((lim - first) * 1024) g' (page_uc (c + 1)) (page_segs c) ((c - first) * 1024)) as HP.
  { split; [done|]. eapply rel_uc_ext; [exact HR'|]. intros v Hv. unfold page_uc. change PAGES_IN_CHUNK with 1024.
    destruct (decide (v = (c - first) * 1024)) as [-> |Hv2].
    - rewrite fn_lookup_insert. apply bool_decide_eq_true. split; [lia|]. by apply Z.mod_mul.
    - rewrite fn_lookup_insert_ne by done. apply bool_decide_ext. split; [|intros [? ?]; split; [lia|done]]. intros [Hr Hq]. split; [|done]. apply Z.mod_divide in Hq as [q Hq]; [|done]. lia. }
  eapply wp_mono; [apply (prefix_alloc _ _ _ _ _ _ _ 1024 fuel HP); (lia || apply fuel_big)|]. intros [u g2] [Eu HP2]. cbn [fst snd] in *. split; [done|].
  rewrite page_segs_snoc by lia. change PAGES_IN_CHUNK with 1024. by replace ((c + 1 - first) * 1024) with ((c - first) * 1024 + 1024) by lia.
Qed.

Lemma place_chunk_ok m c st : placing m c st → first ≤ c < lim → wp (place_chunk vm fuel boundary st c) (placing m (c + 1)).
Proof.
  destruct st as [m' fp]. intros [(S1 & S2 & S3 & S4) Ep [T1 T2] Hmaps Hpg] Hc. cbn [fst snd] in *. subst fp. pose proof max_i32. pose proof bounds_eqs as [_ EM]. unfold place_chunk.
  rewrite Hbd by done. set (b := bd <=? c). rewrite (i32_id c) by (unfold is_i32; lia).
  destruct (Hmaps b) as (live & Hbl & Hlive). assert (live !! c = Some 1) as Ec.
  { apply Hlive. split; [by apply single_base|]. unfold placed. lia. }
  replace (region_map_of (set_available m' _ _) b) with (region_map_of m' b) by (by destruct b).
  apply wp_bind. eapply wp_mono; [by apply (blocks_free _ _ _ _ _ _ c 1 Hbl)|]. intros [k r] [_ Hbl']. cbn [fst snd] in Hbl'.
  cbn [set_region_map set_available global_page_map]. pose proof (place_pages _ _ Hpg Hc) as Hpp. apply wp_assoc.
  apply wp_bind. eapply wp_mono; [exact Hpp|]. intros [p g] [Eu HP2]. cbn [fst snd] in *. subst p. rewrite Z.eqb_refl. cbn [rust_assert mbind res_bind].
  assert (∀ b', placed_count b' (c + 1) = placed_count b' c + (if eqb b' b then 1 else 0)) as Hcnt.
  { intros b'. unfold placed_count, b. destruct b'; destruct (Z.leb_spec bd c); cbn [eqb]; lia. }
  assert (∀ b', 0 ≤ placed_count b' c ≤ max) as Hcb by (intros b'; unfold placed_count; destruct b'; lia).
  pose proof (Hcb true). pose proof (Hcb false).
  split; cbn [fst snd set_global_page_map set_region_map set_available prev_link next_link chunk_space descriptor_map total_available total_available_large global_page_map].
  - done.
  - unfold pages in Hpages. change PAGES_IN_CHUNK with 1024 in *. rewrite i32_id by (unfold is_i32; lia). lia.
  - rewrite T1, T2, !Hcnt, uadd_id by lia. destruct b; cbn [eqb]; [rewrite uadd_id by lia|]; lia.
  - intros b'. destruct (decide (b' = b)) as [-> |Hb'].
    + exists (delete c live). split; [rewrite Hcnt, eqb_reflx; by destruct b|]. intros u s. rewrite lookup_delete_Some, Hlive. unfold placed.
      split; [intros (Hne' & Hs & Hnp); split; [done|]; intros [? ?]; apply Hnp; split; [lia|done]|]. intros [Hs Hnp]. split; [intros <-; apply Hnp; split; [lia|done]|].
      split; [done|]. intros [? ?]. apply Hnp. split; [lia|done].
    + destruct (Hmaps b') as (live' & Hb1 & Hl1). exists live'. split; [rewrite Hcnt; replace (eqb b' b) with false by (by destruct b', b); rewrite Z.add_0_r; by destruct b', b|].
      intros u s. rewrite Hl1. unfold placed. split; intros [Hs Hnp]; (split; [done|]); intros [? E]; apply Hnp; (split; [|done]); [|lia].
      destruct (decide (u = c)) as [-> |]; [by destruct (Hb' (eq_sym E))|lia].
  - done.
Qed.

Lemma base_tiles : tiles 0 max base_segs.
Proof.
  unfold base_segs. apply tiles_app. exists first. split; [unfold bottom; destruct (Z.eqb_spec first 0); cbn; lia|]. apply tiles_app. exists lim. split.
  - unfold singles. assert (∀ k c, tiles c (c + Z.of_nat k) ((λ i, Seg i 1 false) <$> seqZ c (Z.of_nat k))) as Ht.
    { induction k as [|k IH]; intros c; [change (c = c + 0); lia|]. rewrite seqZ_cons by lia. rewrite fmap_cons. cbn [tiles]. split_and!; [done|lia|]. replace (Z.pred (Z.of_nat (S k))) with (Z.of_nat k) by lia.
      replace (c + Z.of_nat (S k)) with (c + 1 + Z.of_nat k) by lia. apply (IH (c + 1)). }
    specialize (Ht (Z.to_nat (lim - first)) first). rewrite Z2Nat.id in Ht by lia. by replace (first + (lim - first)) with lim in Ht by lia.
  - unfold top. destruct (Z.eqb_spec max lim); cbn; lia.
Qed.
Lemma base_cover c : 0 ≤ c < max → ∃ u s, Seg u s false ∈ base_segs ∧ u ≤ c < u + s.
Proof.
  intros Hc. destruct (tiles_cover _ _ _ c base_tiles Hc) as ([u s f] & Hx & Hr). cbn in Hr. exists u, s. split; [|done].
  assert (Forall (λ x, s_free x = false) base_segs) as Hf.
  { unfold base_segs, bottom, singles, top. repeat case_match; rewrite ?Forall_app, ?Forall_fmap; split_and?; try (by constructor); apply Forall_true; done. }
  rewrite Forall_forall in Hf. pose proof (Hf _ Hx) as E. cbn in E. by subst f.
Qed.
(** A block of the base that meets the chunks in between is a single chunk. *)
Lemma base_single u s c : Seg u s false ∈ base_segs → u ≤ c < u + s → first ≤ c < lim → u = c ∧ s = 1.
Proof.
  intros Hu Hc Hr. pose proof (tiles_disjoint _ _ _ _ _ base_tiles Hu (single_base c Hr)) as [[=]|Hd]; [done|]. cbn in Hd. lia.
Qed.

(** The state of the map once all chunks are placed. *)
Lemma placed_inv m static st :
  m32_boot m static → (∀ c, first ≤ c < lim → static c = UNINITIALIZED) → placing m lim st → map_inv max first bd lim static st.1 [].
Proof.
  intros [(L1 & L2 & L3) [Ld Hd] _ _ _] Hst [(S1 & S2 & S3 & S4) _ [T1 T2] Hmaps _].
  destruct (Hmaps false) as (live0 & B0 & Hl0). destruct (Hmaps true) as (live1 & B1 & Hl1).
  exists (λ b : bool, if b then live1 else live0), (λ b, placed_count b lim). split; rewrite ?S1, ?S2, ?S3, ?S4, ?L1, ?L2, ?L3.
  - by rewrite !length_replicate.
  - by intros [].
  - intros b. assert (∀ u s, (if b then live1 else live0) !! u = Some s ↔ Seg u s false ∈ base_segs ∧ ¬ placed b lim u) as Hl by (by destruct b).
    split.
    + by intros r Hr%elem_of_nil.
    + intros u s [Hs Hnp]%Hl. right. intros c Hc Hp. assert (first ≤ c < lim) as Hr by (unfold play in Hp; destruct b; lia). destruct (base_single u s c Hs Hc Hr) as [-> _].
      apply Hnp. split; [done|]. unfold play in Hp. destruct b; [apply Z.leb_le|apply Z.leb_gt]; lia.
    + intros c Hc Hnp. destruct (base_cover c Hc) as (u & s & Hs & Hr). exists u, s. split; [|done]. apply Hl. split; [done|]. intros [Hu Eu].
      destruct (base_single u s u Hs ltac:(lia) Hu) as [_ ->]. assert (u = c) as -> by lia. apply Hnp. unfold play. destruct b; [apply Z.leb_le in Eu|apply Z.leb_gt in Eu]; lia.
  - by intros r c Hr%elem_of_nil.
  - constructor.
  - done.
  - intros b. unfold placed_count. destruct b; cbn; lia.
  - by intros r Hr%elem_of_nil.
  - intros c Hc _. unfold vw. by rewrite lookup_replicate_2 by lia.
  - by intros r c Hr%elem_of_nil.
  - intros c Hc _. rewrite Hd by done. case_decide; [by apply Hst|done].
  - by intros l Hl%elem_of_nil.
  - intros c Hc _. unfold vw. by rewrite lookup_replicate_2 by lia.
Qed.

Lemma finalize_inv m static from to_ :
  m32_boot m static → (∀ c, first ≤ c < lim → static c = UNINITIALIZED) → boundary = get_large_chunk_reserve_boundary vm →
  address_to_chunk_index vm from = first → address_to_chunk_index vm to_ = lim - 1 →
  wp (m32_finalize_static_space_map vm max fuel m from to_) (λ m', map_inv max first bd lim static m' [] ∧ map_finalized m' = true ∧
    fl_rel (global_page_map m') (-1) MAX_SPACES pages (page_uc lim) (page_segs lim) []).
Proof.
  intros HB Hst Ebd Ef El. pose proof bounds_eqs as [_ EM]. pose proof max_i32. unfold m32_finalize_static_space_map. rewrite Ef, El, <-Ebd.
  assert ((1 +u (lim - 1) -u first) *u PAGES_IN_CHUNK = pages) as ->.
  { unfold pages in *. change PAGES_IN_CHUNK with 1024 in *. rewrite uadd_id by lia. rewrite usub_id by lia. unfold umul. rewrite uwrap_id by lia. lia. }
  assert (1 ≤ pages) by (unfold pages; change PAGES_IN_CHUNK with 1024; lia). rewrite (i32_id pages) by (unfold is_i32; lia).
  destruct (mb_pages _ _ HB) as (Hwf & Hh & HH).
  apply wp_bind. eapply wp_mono; [apply (resize_rel fuel (global_page_map m) (-1) MAX_SPACES pages pages); [done|done|done|lia|by vm_compute|by vm_compute|lia|rewrite Z.div_same by lia; lia]|].
  intros g Hg. rewrite init_one in Hg by lia. cbn [set_global_page_map region_map large_region_map].
  wp_seq r1 P1 by (apply block_out_ok, (mb_maps _ _ HB false)). wp_seq r2 P2 by (apply block_out_ok, (mb_maps _ _ HB true)).
  wp_seq r3 P3 by (by apply block_trailing_ok). wp_seq r4 P4 by (by apply block_trailing_ok). replace (lim - 1 + 1 - first) with (lim - first) by lia.
  set (m1 := set_region_map _ true r4).
  apply wp_bind. eapply wp_mono; [apply (wp_for_each _ (λ done, placing m (first + Z.of_nat (length done))))|].
  - cbn [length]. rewrite Z.add_0_r. split; cbn [fst snd m1 set_region_map set_global_page_map prev_link next_link chunk_space descriptor_map total_available total_available_large global_page_map].
    + done.
    + rewrite Z.sub_diag. done.
    + destruct (mb_total _ _ HB) as [-> ->]. unfold placed_count. lia.
    + intros b. assert (fl_prefix (-1) 1 max (region_map_of m1 b) no_uc base_segs max) as HP by (by destruct b). pose proof (prefix_blocks _ _ _ _ _ _ HP ltac:(lia)) as Hbk.
      exists (live_of base_segs). split; [replace (placed_count b first) with (max - max) by (unfold placed_count; destruct b; lia); exact Hbk|].
      intros u s. rewrite <-(live_of_spec _ _ base_tiles (proj1 HP)). unfold placed. split; [intros Hs; split; [done|lia]|by intros [? _]].
    + rewrite Z.sub_diag, Z.mul_0_l. unfold page_segs. rewrite Z.sub_diag. split; [constructor|]. unfold rest. destruct (Z.ltb_spec 0 pages); [|lia]. rewrite Z.sub_0_r.
      eapply rel_uc_ext; [exact Hg|]. intros v Hv. unfold page_uc. apply bool_decide_eq_false. rewrite Z.sub_diag. lia.
  - intros l1 a l2 st [-> Hlt]%seqZ_prefix HP. rewrite length_app. cbn [length]. replace (first + Z.of_nat (length l1 + 1)) with (first + Z.of_nat (length l1) + 1) by lia.
    apply place_chunk_ok; [done|lia].
  - intros [m' fp] HP. rewrite length_seqZ, Z2Nat.id in HP by lia. replace (first + (lim - first)) with lim in HP by lia. cbn.
    split; [|split; [done|]].
    + destruct (placed_inv m static (m', fp) HB Hst HP) as (live & avail & HI). exists live, avail. by apply flags_inv.
    + destruct (pl_pages _ _ _ HP) as [_ HR]. cbn [fst] in HR. unfold rest in HR. destruct (Z.ltb_spec ((lim - first) * PAGES_IN_CHUNK) pages) as [Hl|_]; [unfold pages in Hl; lia|].
      by rewrite app_nil_r in HR.
Qed.
End finalize.
End boot.
