(* ===== verification/PageResource.v ===== *)
(** * Page resources (src/src/util/heap/pageresource.rs, accounting.rs and
    monotonepageresource.rs, and [acquire] of src/src/policy/space.rs)

    A space asks its page resource for pages.  A monotone resource bumps a cursor; when the
    space is discontiguous it gets regions from [Map32], its newest region first.  [debug] is
    whether debug assertions are checked.  Mapping memory is outside: whether it succeeds is a
    parameter, and the chunks that were mapped are recorded. *)

From S2P Require Import Prelude Conversions SpaceDescriptor FreeList IntArrayFreeList Map32.

(** ** [PageAccounting] *)

Record PageAccounting : Type := { pa_reserved : Z; pa_committed : Z }.
Definition accounting_new : PageAccounting := {| pa_reserved := 0; pa_committed := 0 |}.
Definition reserve_and_commit (a : PageAccounting) (pages : Z) : PageAccounting :=
  {| pa_reserved := pa_reserved a +u pages; pa_committed := pa_committed a +u pages |}.
Definition reserve (a : PageAccounting) (pages : Z) : PageAccounting := {| pa_reserved := pa_reserved a +u pages; pa_committed := pa_committed a |}.
Definition commit (a : PageAccounting) (pages : Z) : PageAccounting := {| pa_reserved := pa_reserved a; pa_committed := pa_committed a +u pages |}.

Section accounting.
Context (debug : bool).
Definition debug_assert (b : bool) : res unit := rust_assert (negb debug || b).
Definition clear_reserved (a : PageAccounting) (pages : Z) : res PageAccounting :=
  _ ← debug_assert (pages <=? pa_reserved a);
  Val {| pa_reserved := pa_reserved a -u pages; pa_committed := pa_committed a |}.
Definition accounting_release (a : PageAccounting) (pages : Z) : res PageAccounting :=
  _ ← debug_assert (pages <=? pa_reserved a);
  _ ← debug_assert (pages <=? pa_committed a);
  Val {| pa_reserved := pa_reserved a -u pages; pa_committed := pa_committed a -u pages |}.
End accounting.

(** ** [CommonPageResource] *)

Record CommonPageResource : Type := { accounting : PageAccounting; contiguous : bool; growable : bool; head_discontiguous_region : Z }.
Definition common_new (contiguous growable : bool) : CommonPageResource :=
  {| accounting := accounting_new; contiguous := contiguous; growable := growable; head_discontiguous_region := 0 |}.
Definition set_accounting (pr : CommonPageResource) (a : PageAccounting) : CommonPageResource :=
  {| accounting := a; contiguous := contiguous pr; growable := growable pr; head_discontiguous_region := head_discontiguous_region pr |}.
Definition set_head (pr : CommonPageResource) (head : Z) : CommonPageResource :=
  {| accounting := accounting pr; contiguous := contiguous pr; growable := growable pr; head_discontiguous_region := head |}.
(** [commit_pages]: the difference is added to what was reserved. *)
Definition commit_pages (pr : CommonPageResource) (m : Map32) (reserved_pages actual_pages : Z) (is_mutator : bool) : CommonPageResource * Map32 :=
  (set_accounting pr (commit (reserve (accounting pr) (actual_pages -u reserved_pages)) actual_pages),
   if is_mutator then m32_add_to_cumulative_committed_pages m actual_pages else m).

Section resources.
Context (vm : VMLayout) (bf : bool) (fuel : nat) (F : unmap_features) (debug : bool).

Definition grow_discontiguous_space (pr : CommonPageResource) (m : Map32) (descriptor chunks : Z) : res (Z * CommonPageResource * Map32) :=
  '(new_head, m) ← m32_allocate_contiguous_chunks vm bf fuel m descriptor chunks (head_discontiguous_region pr);
  if is_zero new_head then Val (0, pr, m) else Val (new_head, set_head pr new_head, m).
Definition release_discontiguous_chunks (pr : CommonPageResource) (m : Map32) (chunk : Z) : res (CommonPageResource * Map32) :=
  _ ← debug_assert debug (chunk =? chunk_align_down chunk);
  pr ← (if chunk =? head_discontiguous_region pr
        then head ← m32_get_next_contiguous_region vm m chunk; Val (set_head pr head)
        else Val pr);
  '(_, m) ← m32_free_contiguous_chunks vm F m chunk;
  Val (pr, m).
Definition release_all_chunks (pr : CommonPageResource) (m : Map32) : res (CommonPageResource * Map32) :=
  m ← m32_free_all_chunks vm fuel m (head_discontiguous_region pr);
  Val (set_head pr 0, m).

(** ** [MonotonePageResource] *)

Record Monotone : Type := {
  mp_common : CommonPageResource; mp_cursor : Z; mp_sentinel : Z; mp_current_chunk : Z;
  mp_contiguous_start_chunk : Z; mp_start : Z
}.
Definition monotone_contiguous (start bytes : Z) : Monotone :=
  {| mp_common := common_new true true; mp_cursor := start; mp_sentinel := start +u bytes; mp_current_chunk := 0;
     mp_contiguous_start_chunk := chunk_align_down start; mp_start := start |}.
Definition monotone_discontiguous : Monotone :=
  {| mp_common := common_new false true; mp_cursor := 0; mp_sentinel := 0; mp_current_chunk := 0; mp_contiguous_start_chunk := 0; mp_start := 0 |}.
Definition set_cursor (mp : Monotone) (cursor sentinel current_chunk : Z) : Monotone :=
  {| mp_common := mp_common mp; mp_cursor := cursor; mp_sentinel := sentinel; mp_current_chunk := current_chunk;
     mp_contiguous_start_chunk := mp_contiguous_start_chunk mp; mp_start := mp_start mp |}.
Definition set_common (mp : Monotone) (pr : CommonPageResource) : Monotone :=
  {| mp_common := pr; mp_cursor := mp_cursor mp; mp_sentinel := mp_sentinel mp; mp_current_chunk := mp_current_chunk mp;
     mp_contiguous_start_chunk := mp_contiguous_start_chunk mp; mp_start := mp_start mp |}.

Definition required_chunks (pages : Z) : Z := Z.shiftr (raw_align_up (pages_to_bytes pages) BYTES_IN_CHUNK) LOG_BYTES_IN_CHUNK.

(** Whether mapping memory and its metadata succeeds; a failure does not return. *)
Context (ensure_mapped : Z → Z → bool).
(** The state: the map and the chunks that were mapped, as address and number. *)
Record page_state : Type := { ps_map : Map32; ps_mapped : list (Z * Z) }.

Definition check_cursor (mp : Monotone) : res unit :=
  _ ← debug_assert debug (mp_current_chunk mp <=? mp_cursor mp);
  debug_assert debug ((mp_cursor mp =? 0) || (chunk_align_down (mp_cursor mp) =? mp_current_chunk mp) ||
                      (chunk_align_down (mp_cursor mp) =? mp_current_chunk mp +u BYTES_IN_CHUNK)).
(** The current chunk of a contiguous space moves with the cursor: the chunks grown. *)
Definition move_current_chunk (mp : Monotone) : res (Monotone * option Z) :=
  let cursor := mp_cursor mp in
  let down := chunk_align_down cursor in
  let new_current_chunk := if down =? cursor then down -u BYTES_IN_CHUNK else down in
  if contiguous (mp_common mp) && negb (new_current_chunk =? mp_current_chunk mp)
  then
    _ ← debug_assert debug (mp_current_chunk mp <? down);
    let growed :=
      if is_zero (mp_current_chunk mp) then 1 +u Z.shiftr (new_current_chunk -u mp_contiguous_start_chunk mp) LOG_BYTES_IN_CHUNK
      else Z.shiftr (new_current_chunk -u mp_current_chunk mp) LOG_BYTES_IN_CHUNK in
    Val (set_cursor mp cursor (mp_sentinel mp) new_current_chunk, Some growed)
  else Val (mp, None).
Definition alloc_pages (mp : Monotone) (st : page_state) (descriptor reserved_pages required_pages : Z) (is_mutator : bool)
    : res (option (Z * Z * bool) * Monotone * page_state) :=
  _ ← check_cursor mp;
  let bytes := pages_to_bytes required_pages in
  '(mp, m, growed) ←
    (if negb (contiguous (mp_common mp)) && (mp_sentinel mp <? mp_cursor mp +u bytes)
     then
       let chunks := required_chunks required_pages in
       '(current, pr, m) ← grow_discontiguous_space (mp_common mp) (ps_map st) descriptor chunks;
       let sentinel := current +u (if is_zero current then 0 else ushl 64 chunks LOG_BYTES_IN_CHUNK) in
       Val (set_cursor (set_common mp pr) current sentinel current, m, Some chunks)
     else Val (mp, ps_map st, None));
  let rtn := mp_cursor mp in
  let tmp := rtn +u bytes in
  _ ← debug_assert debug ((mp_cursor mp <=? rtn) && (rtn <? mp_cursor mp +u bytes));
  if mp_sentinel mp <? tmp then Val (None, mp, {| ps_map := m; ps_mapped := ps_mapped st |})
  else
    '(mp, moved) ← move_current_chunk (set_cursor mp tmp (mp_sentinel mp) (mp_current_chunk mp));
    let growed := match moved with Some g => Some g | None => growed end in
    let '(pr, m) := commit_pages (mp_common mp) m reserved_pages required_pages is_mutator in
    let mp := set_common mp pr in
    match growed with
    | None => Val (Some (rtn, required_pages, false), mp, {| ps_map := m; ps_mapped := ps_mapped st |})
    | Some g =>
      let start := align_up rtn BYTES_IN_CHUNK in
      _ ← rust_assert (ensure_mapped start (ushl 64 g (LOG_BYTES_IN_CHUNK - LOG_BYTES_IN_PAGE)));
      Val (Some (rtn, required_pages, true), mp, {| ps_map := m; ps_mapped := ps_mapped st ++ [(start, g)] |})
    end.

(** *** Releasing *)

Definition release_pages_extent (bytes : Z) : res unit := debug_assert debug (bytes =? pages_to_bytes (bytes_to_pages_up bytes)).
(** [move_to_next_chunk] in the [while] loop of [release_pages]. *)
Fixpoint release_regions (fuel : nat) (m : Map32) (current : Z) : res unit :=
  current ← m32_get_next_contiguous_region vm m current;
  if is_zero current then Val ()
  else
    size ← m32_get_contiguous_region_size vm m current;
    _ ← release_pages_extent (current +u size -u current);
    match fuel with O => NoFuel | S fuel => release_regions fuel m current end.
Definition release_pages (mp : Monotone) (m : Map32) : res (Monotone * Map32) :=
  if contiguous (mp_common mp) then Val (set_cursor mp (mp_start mp) (mp_sentinel mp) 0, m)
  else if is_zero (mp_cursor mp) then Val (mp, m)
  else
    _ ← release_pages_extent (mp_cursor mp -u mp_current_chunk mp);
    _ ← release_regions fuel m (mp_current_chunk mp);
    '(pr, m) ← release_all_chunks (mp_common mp) m;
    Val (set_cursor (set_common mp pr) 0 0 0, m).
Definition monotone_reset (mp : Monotone) (m : Map32) : res (Monotone * Map32) :=
  release_pages (set_common mp (set_accounting (mp_common mp) accounting_new)) m.

(** The regions in use, as start and size: the region of the cursor only up to the cursor. *)
Fixpoint allocated_regions (fuel : nat) (m : Map32) (cursor discontiguous_start : Z) : res (list (Z * Z)) :=
  if is_zero discontiguous_start then Val []
  else match fuel with
  | O => NoFuel
  | S fuel =>
    let start := discontiguous_start in
    next ← m32_get_next_contiguous_region vm m start;
    contiguous_region_size ← m32_get_contiguous_region_size vm m start;
    let size := if (start <? cursor) && (cursor <? start +u contiguous_region_size) then cursor -u start else contiguous_region_size in
    rest ← allocated_regions fuel m cursor next;
    Val ((start, size) :: rest)
  end.
Definition iterate_allocated_regions (mp : Monotone) (m : Map32) : res (list (Z * Z)) :=
  if contiguous (mp_common mp) then Val [(mp_start mp, align_up (mp_cursor mp) BYTES_IN_CHUNK -u mp_start mp)]
  else allocated_regions fuel m (mp_cursor mp) (head_discontiguous_region (mp_common mp)).

(** ** [Space::acquire] *)

(** What the caller's thread and the trigger say: whether the thread is a mutator, whether
    collection is enabled and initialized, what the two polls answer, and the largest size the
    trigger lets the heap have. *)
Record acquire_env : Type := { ae_mutator : bool; ae_enabled : bool; ae_initialized : bool; ae_poll : bool; ae_forced : bool; ae_max_heap_pages : Z }.
(** [will_oom_on_acquire]; reporting it to the binding is not modelled. *)
Definition will_oom_on_acquire (E : acquire_env) (size : Z) : bool := ae_max_heap_pages E <? Z.shiftr size LOG_BYTES_IN_PAGE.
(** The address, zero if a collection is needed, and the pages reported as pending. *)
Definition acquire (E : acquire_env) (meta_pages : Z → Z) (mp : Monotone) (st : page_state) (descriptor pages : Z) : res (Z * option Z * Monotone * page_state) :=
  _ ← debug_assert debug (negb (will_oom_on_acquire E (ushl 64 pages LOG_BYTES_IN_PAGE)));
  let should_poll := ae_mutator E && ae_enabled E in
  let allow_gc := should_poll && ae_initialized E in
  let clear mp := a ← clear_reserved debug (accounting (mp_common mp)) pages; Val (set_common mp (set_accounting (mp_common mp) a)) in
  let mp := set_common mp (set_accounting (mp_common mp) (reserve (accounting (mp_common mp)) pages)) in
  if should_poll && ae_poll E then
    _ ← rust_assert allow_gc;
    mp ← clear mp;
    Val (0, Some (pages +u meta_pages pages), mp, st)
  else
    '(r, mp, st) ← alloc_pages mp st descriptor pages pages (ae_mutator E);
    match r with
    | Some (start, _, _) => Val (start, None, mp, st)
    | None =>
      _ ← rust_assert allow_gc;
      _ ← debug_assert debug (ae_forced E);
      mp ← clear mp;
      Val (0, Some pages, mp, st)
    end.
End resources.
