(* ===== verification/Map32Theorems.v ===== *)
(** * The regions of discontiguous spaces

    Page resources take regions from the map and give them back, in any order.  No call
    panics; the regions never overlap; walking from the head of a resource visits exactly its
    regions; the descriptor of a chunk is that of the space that has it; and what is available
    is what no space has. *)

From S2P Require Import Prelude Conversions SpaceDescriptor FreeList FreeListModel IntArrayFreeList FreeListUnits Map32 Map32Inv Map32Boot PageResource.

(** ** Booting *)

(** Contiguous spaces, as first chunk, chunks and descriptor. *)
Record static_space : Type := { sp_start : Z; sp_chunks : Z; sp_descriptor : Z }.
Definition in_static (s : static_space) (c : Z) : Prop := sp_start s ≤ c < sp_start s + sp_chunks s.
Definition m32_start (vm : VMLayout) (max : Z) (fuel : nat) (spaces : list static_space) (from to_ : Z) : res Map32 :=
  m ← m32_new max fuel ∅;
  m ← for_each (λ m s, m32_insert vm m (chunk_index_to_address vm (sp_start s)) (ushl 64 (sp_chunks s) LOG_BYTES_IN_CHUNK) (sp_descriptor s)) spaces m;
  m32_finalize_static_space_map vm max fuel m from to_.
(** The descriptor of a chunk outside the discontiguous range. *)
Definition static_descr (spaces : list static_space) (c : Z) : Z :=
  match list_find (λ s, sp_start s ≤ c < sp_start s + sp_chunks s) spaces with Some (_, s) => sp_descriptor s | None => UNINITIALIZED end.

(** The first chunk for large regions. *)
Definition large_from (vm : VMLayout) (first lim : Z) : Z :=
  Z.max first (Z.min lim ((get_large_chunk_reserve_boundary vm - heap_start vm + BYTES_IN_CHUNK - 1) `div` BYTES_IN_CHUNK)).

Record start_ok (vm : VMLayout) (max : Z) (fuel : nat) (spaces : list static_space) (from to_ first lim : Z) : Prop := {
  so_start : 0 < heap_start vm ∧ (BYTES_IN_CHUNK | heap_start vm) ∧ heap_start vm + max * BYTES_IN_CHUNK < 2 ^ 64;
  so_range : address_to_chunk_index vm from = first ∧ address_to_chunk_index vm to_ = lim - 1;
  so_bounds : 0 ≤ first < lim ∧ lim ≤ max ∧ max ≤ MAX_UNITS ∧ (lim - first) * PAGES_IN_CHUNK ≤ MAX_UNITS;
  so_fuel : (Z.to_nat max < fuel)%nat;
  so_spaces s : s ∈ spaces → 0 ≤ sp_start s ∧ 0 ≤ sp_chunks s ∧ sp_start s + sp_chunks s ≤ max ∧ ∀ c, in_static s c → ¬ (first ≤ c < lim);
  so_apart i j s t c : spaces !! i = Some s → spaces !! j = Some t → in_static s c → in_static t c → i = j
}.

Section start.
Context (vm : VMLayout) (max : Z) (fuel : nat) (spaces : list static_space) (from to_ first lim : Z).
Context (Hs : start_ok vm max fuel spaces from to_ first lim).
Abbreviation bd := (large_from vm first lim).
Abbreviation static := (static_descr spaces).

Lemma start_map_ok : map_ok vm max first bd lim fuel.
Proof. destruct Hs as [(? & ? & ?) _ (? & ? & ? & ?) ? _ _]. split; try done. unfold large_from. lia. Qed.

Lemma boundary_ok c : first ≤ c < lim → (get_large_chunk_reserve_boundary vm <=? chunk_index_to_address vm c) = (bd <=? c).
Proof.
  intros Hc. destruct Hs as [_ _ (? & ? & ? & ?) _ _ _]. destruct (addr_eq _ _ _ _ _ _ start_map_ok c) as [-> _]; [lia|].
  unfold large_from. change BYTES_IN_CHUNK with (2 ^ 22). set (B := get_large_chunk_reserve_boundary vm). pose proof (Z.div_mod (B - heap_start vm + 2 ^ 22 - 1) (2 ^ 22) ltac:(lia)).
  pose proof (Z.mod_pos_bound (B - heap_start vm + 2 ^ 22 - 1) (2 ^ 22) ltac:(lia)). set (q := (B - heap_start vm + 2 ^ 22 - 1) `div` 2 ^ 22) in *.
  destruct (Z.leb_spec B (heap_start vm + c * 2 ^ 22)), (Z.leb_spec (Z.max first (Z.min lim q)) c); try done; exfalso; lia.
Qed.

Lemma static_snoc l s c :
  (∀ t, t ∈ l → in_static t c → ¬ in_static s c) →
  static_descr (l ++ [s]) c = if decide (sp_start s ≤ c < sp_start s + sp_chunks s) then sp_descriptor s else static_descr l c.
Proof.
  intros Hn. unfold static_descr. destruct (list_find _ l) as [[i t]|] eqn:E.
  - rewrite (list_find_app_l _ _ _ _ _ E). rewrite decide_False; [done|]. apply list_find_Some in E as (Ei & Et & _). apply (Hn t); [by eapply list_elem_of_lookup_2|done].
  - rewrite list_find_app_r by done. cbn [list_find]. by case_decide.
Qed.
Lemma map_start_inv : wp (m32_start vm max fuel spaces from to_) (λ m, map_inv max first bd lim static m [] ∧ map_finalized m = true).
Proof.
  destruct Hs as [(S1 & S2 & S3) [R1 R2] (B1 & B2 & B3 & B4) Hf Hsp Hap]. unfold m32_start.
  apply wp_bind. eapply wp_mono; [apply new_boot; lia|]. intros m Hm.
  apply wp_bind. eapply wp_mono; [apply (wp_for_each _ (λ done m, m32_boot max m (static_descr done)))|].
  - done.
  - intros l1 s l2 m1 E Hm1. destruct (Hsp s) as (? & ? & ? & ?); [rewrite E; set_solver|]. assert (spaces !! length l1 = Some s) as Es by (rewrite E; by apply list_lookup_middle).
    assert (∀ c t, t ∈ l1 → in_static t c → ¬ in_static s c) as Hn.
    { intros c t [i Ei]%list_elem_of_lookup_1 Ht Hsc. assert (spaces !! i = Some t) as Et by (rewrite E; by apply lookup_app_l_Some).
      pose proof (Hap i (length l1) t s c Et Es Ht Hsc). apply lookup_lt_Some in Ei. lia. }
    eapply wp_mono; [apply (boot_insert vm max fuel m1 (static_descr l1)); try done|].
    + intros j Hj. unfold static_descr. destruct (list_find _ l1) as [[i t]|] eqn:Ef; [|done]. apply list_find_Some in Ef as (Ei & Et & _).
      by destruct (Hn j t (list_elem_of_lookup_2 _ _ _ Ei) Et).
    + intros m2 [Hl [Hdl Hd] Hmp Ht Hp]. split; try done. split; [done|]. intros c Hc. rewrite Hd by done. by rewrite static_snoc by apply Hn.
  - intros m1 Hm1. eapply wp_mono; [apply (finalize_inv vm max fuel first bd lim ltac:(unfold large_from; lia) ltac:(lia) Hf _ boundary_ok B4 m1 (static_descr spaces)); try done|].
    + intros c Hc. unfold static_descr. destruct (list_find _ spaces) as [[i t]|] eqn:Ef; [|done]. apply list_find_Some in Ef as (Ei & Et & _).
      destruct (Hsp t) as (_ & _ & _ & Hno); [by eapply list_elem_of_lookup_2|]. by destruct (Hno c Et).
    + intros m2 (HI & Hfin & _). done.
Qed.
End start.

(** ** Clients *)

Inductive region_call : Type :=
| RGrow (i : nat) (chunks : Z)
| RRelease (i k : nat)
| RReleaseAll (i : nat).

(** What the enabled feature does to freed chunks succeeds: with [munmap], they were mapped. *)
Definition unmap_succeeds (F : unmap_features) : Prop :=
  ∀ a n, (f_munmap F = true → ensure_unmapped F a n = true) ∧ (f_madv_dontneed F = true → madvise F a n = true).

Section clients.
Context (vm : VMLayout) (bf : bool) (fuel : nat) (F : unmap_features) (debug : bool).

(** The [k]-th region after address [a], zero when there is none. *)
Fixpoint nth_region (m : Map32) (a : Z) (k : nat) : res Z :=
  match k with
  | O => Val a
  | S k => if is_zero a then Val 0 else a ← m32_get_next_contiguous_region vm m a; nth_region m a k
  end.
(** The regions from address [a] on, with their chunks. *)
Fixpoint region_list (fuel : nat) (m : Map32) (a : Z) : res (list (Z * Z)) :=
  if is_zero a then Val []
  else match fuel with
    | O => NoFuel
    | S fuel =>
      n ← m32_get_contiguous_region_chunks vm m a;
      next ← m32_get_next_contiguous_region vm m a;
      l ← region_list fuel m next;
      Val ((a, n) :: l)
    end.

(** One call of a page resource; resources have the descriptors of their spaces. *)
Definition do_region_call (st : list (CommonPageResource * Z) * Map32) (c : region_call) : res (list (CommonPageResource * Z) * Map32) :=
  let '(prs, m) := st in
  match c with
  | RGrow i chunks =>
    match prs !! i with
    | Some (pr, d) => '(_, pr, m) ← grow_discontiguous_space vm bf fuel pr m d chunks; Val (<[i := (pr, d)]> prs, m)
    | None => Val st
    end
  | RRelease i k =>
    match prs !! i with
    | Some (pr, d) =>
      a ← nth_region m (head_discontiguous_region pr) k;
      if is_zero a then Val st else '(pr, m) ← release_discontiguous_chunks vm F debug pr m a; Val (<[i := (pr, d)]> prs, m)
    | None => Val st
    end
  | RReleaseAll i =>
    match prs !! i with
    | Some (pr, d) => '(pr, m) ← release_all_chunks vm fuel pr m; Val (<[i := (pr, d)]> prs, m)
    | None => Val st
    end
  end.
Definition region_call_ok (c : region_call) : Prop := match c with RGrow _ chunks => 1 ≤ chunks < 2 ^ 31 | _ => True end.

Context (max first bd lim : Z) (static : Z → Z) (Hok : map_ok vm max first bd lim fuel).
Context (HF : unmap_succeeds F).
Abbreviation addr := (chunk_index_to_address vm).
Abbreviation map_inv := (map_inv max first bd lim static).
Abbreviation head_addr := (head_addr vm).

Definition has_regions (pd : CommonPageResource * Z) (l : list region) : Prop :=
  head_discontiguous_region pd.1 = head_addr l ∧ Forall (λ r, rg_space r = pd.2) l.
Definition clients_ok (st : list (CommonPageResource * Z) * Map32) (L : list (list region)) : Prop := map_inv st.2 L ∧ Forall2 has_regions st.1 L.

(** The list of one resource, and putting another one in its place. *)
Lemma client_split prs m L i pr d :
  clients_ok (prs, m) L → prs !! i = Some (pr, d) →
  ∃ L1 l L2, L = L1 ++ l :: L2 ∧ has_regions (pr, d) l ∧
    ∀ pr' m' l', map_inv m' (L1 ++ l' :: L2) → has_regions (pr', d) l' → clients_ok (<[i := (pr', d)]> prs, m') (L1 ++ l' :: L2).
Proof.
  intros [HI H2] Ei. cbn [fst snd] in *. destruct (Forall2_lookup_l _ _ _ _ _ H2 Ei) as (l & El & Hl). exists (take i L), l, (drop (S i) L).
  rewrite (take_drop_middle _ _ _ El). split; [done|]. split; [done|]. intros pr' m' l' HI' Hr'. split; [done|]. cbn [fst].
  rewrite <-(insert_take_drop L i l') by (by eapply lookup_lt_Some). by apply Forall2_insert.
Qed.

Lemma grow_ok prs m L i pr d chunks :
  clients_ok (prs, m) L → prs !! i = Some (pr, d) → 1 ≤ chunks < 2 ^ 31 →
  wp (grow_discontiguous_space vm bf fuel pr m d chunks) (λ out, ∃ L', clients_ok (<[i := (out.1.2, d)]> prs, out.2) L').
Proof.
  intros HC Ei Hc. destruct (client_split _ _ _ _ _ _ HC Ei) as (L1 & l & L2 & -> & [Eh Hd] & Hput). destruct (proj1 HC) as (live & avail & HI). cbn [fst snd] in *.
  unfold grow_discontiguous_space. rewrite Eh. apply wp_bind. eapply wp_mono; [by apply (alloc_inv vm max first bd lim static bf fuel Hok)|].
  intros [a m'] [(Ea & HI' & _)|(c & Hcm & Ea & HI')]; cbn [fst snd] in *; subst a.
  - cbn. exists (L1 ++ l :: L2). apply Hput; [by eexists _, _|done].
  - unfold is_zero. destruct (Z.eqb_spec (addr c) 0) as [E|_]; [by destruct (addr_eq _ _ _ _ _ _ Hok c Hcm) as (_ & ? & _)|]. cbn.
    eexists. apply Hput; [by eexists _, _|]. split; [done|]. by constructor.
Qed.

Lemma nth_region_ok m L1 l L2 A B k :
  map_inv m (L1 ++ l :: L2) → l = A ++ B → nth_region m (head_addr B) k = Val (head_addr (drop k B)).
Proof.
  intros HI. revert A B. induction k as [|k IH]; intros A B ->; [done|]. cbn [nth_region]. destruct B as [|r B]; [done|]. cbn [drop Map32Inv.head_addr].
  assert (0 ≤ rg_start r < max) as Hr.
  { destruct HI as (live & avail & HI). pose proof (region_bounds _ _ _ _ _ _ _ _ _ HI r ltac:(rewrite regions_mid; set_solver)). lia. }
  unfold is_zero. destruct (Z.eqb_spec (addr (rg_start r)) 0) as [E|_]; [by destruct (addr_eq _ _ _ _ _ _ Hok _ Hr) as (_ & ? & _)|].
  rewrite (next_region _ _ _ _ _ _ _ Hok _ _ _ _ _ _ HI). cbn [mbind res_bind]. apply (IH (A ++ [r])). by rewrite <-app_assoc.
Qed.

Lemma release_region_ok prs m L i pr d k :
  clients_ok (prs, m) L → prs !! i = Some (pr, d) →
  wp (a ← nth_region m (head_discontiguous_region pr) k;
      if is_zero a then Val (prs, m) else '(pr, m) ← release_discontiguous_chunks vm F debug pr m a; Val (<[i := (pr, d)]> prs, m)) (λ st, ∃ L', clients_ok st L').
Proof.
  intros HC Ei. destruct (client_split _ _ _ _ _ _ HC Ei) as (L1 & l & L2 & -> & [Eh Hd] & Hput). pose proof (proj1 HC) as HI. cbn [fst snd] in *.
  rewrite Eh, (nth_region_ok m L1 l L2 [] l k HI eq_refl). cbn [mbind res_bind].
  destruct (drop k l) as [|r B] eqn:Edr; cbn [Map32Inv.head_addr]; [cbn; by exists (L1 ++ l :: L2)|].
  assert (l = take k l ++ r :: B) as El by (rewrite <-(take_drop k l) at 1; by rewrite Edr). set (A := take k l) in *. clearbody A. subst l.
  destruct HI as (live & avail & HI). assert (0 ≤ rg_start r < max) as Hr by (pose proof (region_bounds _ _ _ _ _ _ _ _ _ HI r ltac:(rewrite regions_mid; set_solver)); lia).
  destruct (addr_eq _ _ _ _ _ _ Hok _ Hr) as (_ & Hz & Hal). unfold is_zero. destruct (Z.eqb_spec (addr (rg_start r)) 0); [done|].
  unfold release_discontiguous_chunks. rewrite Hal, Z.eqb_refl. unfold debug_assert. rewrite orb_true_r. cbn [rust_assert mbind res_bind].
  assert (∃ pr', (if addr (rg_start r) =? head_discontiguous_region pr then head ← m32_get_next_contiguous_region vm m (addr (rg_start r)); Val (set_head pr head) else Val pr) = Val pr' ∧
    head_discontiguous_region pr' = head_addr (A ++ B)) as (pr' & -> & Eh').
  { rewrite Eh. destruct A as [|y A]; cbn [app Map32Inv.head_addr].
    - rewrite Z.eqb_refl, (next_region _ _ _ _ _ _ _ Hok _ _ [] _ _ _ (ex_intro _ live (ex_intro _ avail HI))). by eexists.
    - destruct (Z.eqb_spec (addr (rg_start r)) (addr (rg_start y))) as [E|_]; [|by eexists]. exfalso.
      assert (0 ≤ rg_start y < max) as Hy by (pose proof (region_bounds _ _ _ _ _ _ _ _ _ HI y ltac:(rewrite regions_mid; set_solver)); lia).
      apply (f_equal (address_to_chunk_index vm)) in E. rewrite !(index_addr _ _ _ _ _ _ Hok) in E by done.
      pose proof (mi_nodup _ _ _ _ _ _ _ _ _ HI) as Hnd. rewrite regions_mid, !fmap_app, fmap_cons in Hnd. apply NoDup_app in Hnd as (_ & _ & Hnd).
      apply NoDup_app in Hnd as ([Hn _]%NoDup_cons & _ & _). apply Hn. rewrite <-E. apply elem_of_app. right. constructor. }
  cbn [mbind res_bind]. unfold m32_free_contiguous_chunks. rewrite Hal, Z.eqb_refl. cbn [rust_assert mbind res_bind].
  rewrite (index_addr _ _ _ _ _ _ Hok) by done. pose proof (max_small _ _ _ _ _ _ Hok). rewrite i32_id by (unfold is_i32; lia).
  apply wp_bind, wp_bind, wp_bind. eapply wp_mono; [by eapply (free_inv vm max first bd lim static fuel Hok)|]. intros [nc m'] [En HI']. cbn [fst snd] in *.
  assert (∀ a n k, (if f_munmap F then ensure_unmapped F a n else if f_madv_dontneed F then madvise F a k else true) = true) as Hif.
  { intros a ? ?. destruct (f_munmap F) eqn:Eu; [by apply HF|]. destruct (f_madv_dontneed F) eqn:Ed; [by apply HF|done]. }
  rewrite Hif. cbn. eexists. apply Hput; [by eexists _, _|]. split; [done|]. apply Forall_app in Hd as [HdA HdB]. apply Forall_app. by inversion_clear HdB.
Qed.

Lemma release_all_ok prs m L i pr d :
  clients_ok (prs, m) L → prs !! i = Some (pr, d) →
  wp (release_all_chunks vm fuel pr m) (λ out, ∃ L', clients_ok (<[i := (out.1, d)]> prs, out.2) L').
Proof.
  intros HC Ei. destruct (client_split _ _ _ _ _ _ HC Ei) as (L1 & l & L2 & -> & [Eh Hd] & Hput). pose proof (proj1 HC) as HI. cbn [fst snd] in *.
  unfold release_all_chunks. rewrite Eh. apply wp_bind. eapply wp_mono; [by apply (free_all_inv vm max first bd lim static fuel Hok)|]. intros m' HI'. cbn.
  eexists. apply Hput; [exact HI'|]. split; [done|constructor].
Qed.

Lemma region_calls_ok calls st L :
  clients_ok st L → Forall region_call_ok calls → wp (for_each do_region_call calls st) (λ st', ∃ L', clients_ok st' L').
Proof.
  intros HC Hcs. rewrite Forall_forall in Hcs. apply (wp_for_each _ (λ _ st', ∃ L', clients_ok st' L')); [by exists L|].
  intros l1 c l2 [prs m] -> (L' & HC'). assert (region_call_ok c) as Hc by (apply Hcs; set_solver). destruct c as [i chunks|i k|i]; cbn [do_region_call];
    (destruct (prs !! i) as [[pr d]|] eqn:Ei; [|by exists L']).
  - apply wp_bind. eapply wp_mono; [by apply (grow_ok prs m L' i)|]. by intros [[a pr'] m'].
  - by apply release_region_ok with L'.
  - apply wp_bind. eapply wp_mono; [by apply (release_all_ok prs m L' i)|]. by intros [pr' m'].
Qed.

(** ** What a client can rely on *)

Record regions_ok (prs : list (CommonPageResource * Z)) (m : Map32) (L : list (list region)) : Prop := {
  ro_lists : length L = length prs;
  (** Walking from the head of a resource visits its regions. *)
  ro_walk i pr d l : prs !! i = Some (pr, d) → L !! i = Some l →
    region_list fuel m (head_discontiguous_region pr) = Val ((λ r, (addr (rg_start r), rg_chunks r)) <$> l);
  (** Regions are not empty and lie in the range of their kind. *)
  ro_range r : r ∈ regions L → 1 ≤ rg_chunks r ∧ (if rg_large r then bd ≤ rg_start r ∧ rg_start r + rg_chunks r ≤ lim else first ≤ rg_start r ∧ rg_start r + rg_chunks r ≤ bd);
  (** No two of them have a chunk in common. *)
  ro_disjoint i j r1 r2 c : regions L !! i = Some r1 → regions L !! j = Some r2 → in_rg r1 c → in_rg r2 c → i = j;
  (** The descriptor of an address is that of the space that has its chunk. *)
  ro_descr i pr d l r c : prs !! i = Some (pr, d) → L !! i = Some l → r ∈ l → in_rg r c → m32_get_descriptor_for_address vm m (addr c) = d;
  ro_no_descr c : 0 ≤ c < max → (∀ r, r ∈ regions L → ¬ in_rg r c) →
    m32_get_descriptor_for_address vm m (addr c) = if decide (first ≤ c < lim) then UNINITIALIZED else static c;
  (** What no region has is available. *)
  ro_available : m32_get_available_discontiguous_chunks m = lim - first - (chunks_of false (regions L) + chunks_of true (regions L));
  (** A request for which there is a run of free chunks of its kind succeeds. *)
  ro_found i pr d chunks c : prs !! i = Some (pr, d) → 1 ≤ chunks < 2 ^ 31 →
    (∀ j, c ≤ j < c + chunks → play first bd lim (is_large_chunk_allocation chunks) j ∧ ∀ r, r ∈ regions L → ¬ in_rg r j) →
    ∃ out, grow_discontiguous_space vm bf fuel pr m d chunks = Val out ∧ out.1.1 ≠ 0
}.

Lemma region_list_ok m L1 A B L2 f :
  map_inv m (L1 ++ (A ++ B) :: L2) → (length B ≤ f)%nat → region_list f m (head_addr B) = Val ((λ r, (addr (rg_start r), rg_chunks r)) <$> B).
Proof.
  intros HI. revert A B HI. induction f as [|f IH]; intros A [|r B] HI Hf; cbn [length] in Hf; try lia; try done.
  assert (r ∈ regions (L1 ++ (A ++ r :: B) :: L2)) as Hin by (rewrite regions_mid; set_solver).
  assert (0 ≤ rg_start r < max) as Hr by (destruct HI as (live & avail & HI); pose proof (region_bounds _ _ _ _ _ _ _ _ _ HI r Hin); lia).
  destruct (addr_eq _ _ _ _ _ _ Hok _ Hr) as (_ & Hz & _). cbn [region_list Map32Inv.head_addr]. unfold is_zero. destruct (Z.eqb_spec (addr (rg_start r)) 0); [done|].
  rewrite (region_chunks _ _ _ _ _ _ _ Hok _ _ _ HI Hin). cbn [mbind res_bind]. rewrite (next_region _ _ _ _ _ _ _ Hok _ _ _ _ _ _ HI). cbn [mbind res_bind].
  rewrite (IH (A ++ [r]) B); [done|by rewrite <-app_assoc|lia].
Qed.

Lemma clients_regions prs m L : clients_ok (prs, m) L → regions_ok prs m L.
Proof.
  intros [HI H2]. cbn [fst snd] in *. pose proof (regions_length _ _ _ _ _ _ _ HI) as Hlen. pose proof HI as (live & avail & HM).
  assert (∀ r, r ∈ regions L → 0 ≤ rg_start r ∧ 1 ≤ rg_chunks r ∧ rg_start r + rg_chunks r ≤ max) as Hb by (intros r; apply (region_bounds _ _ _ _ _ _ _ _ _ HM)).
  assert (∀ i l, L !! i = Some l → ∃ L1 L2, L = L1 ++ l :: L2) as Hsp by (intros i l El; exists (take i L), (drop (S i) L); by rewrite (take_drop_middle _ _ _ El)).
  assert (∀ c, 0 ≤ c < max → m32_get_descriptor_for_address vm m (addr c) = vw (descriptor_map m) c) as Hdescr.
  { intros c Hc. unfold m32_get_descriptor_for_address. by rewrite (index_addr _ _ _ _ _ _ Hok). }
  split.
  - symmetry. by eapply Forall2_length.
  - intros i pr d l Ei El. destruct (Forall2_lookup_lr _ _ _ _ _ _ H2 Ei El) as [Eh _]. cbn [fst] in Eh. rewrite Eh. destruct (Hsp i l El) as (L1 & L2 & ->).
    apply (region_list_ok m L1 [] l L2 fuel HI). rewrite regions_mid, !length_app in Hlen. pose proof (mo_fuel _ _ _ _ _ _ Hok). lia.
  - intros r Hr. pose proof (Hb r Hr) as Hrb. split; [lia|]. pose proof (mi_inside _ _ _ _ _ _ _ _ _ HM r (rg_start r) Hr ltac:(unfold in_rg; lia)) as H3.
    pose proof (mi_inside _ _ _ _ _ _ _ _ _ HM r (rg_start r + rg_chunks r - 1) Hr ltac:(unfold in_rg; lia)) as H4. unfold play in *. destruct (rg_large r); lia.
  - intros i j r1 r2 c E1 E2 C1 C2. assert (r1 = r2) as <-.
    { eapply (regions_disjoint _ _ _ _ _ _ _ _ _ HM); [by eapply list_elem_of_lookup_2|by eapply list_elem_of_lookup_2|done|done]. }
    eapply NoDup_lookup; [exact (mi_nodup _ _ _ _ _ _ _ _ _ HM)|rewrite list_lookup_fmap, E1; done|rewrite list_lookup_fmap, E2; done].
  - intros i pr d l r c Ei El Hr Hc. destruct (Forall2_lookup_lr _ _ _ _ _ _ H2 Ei El) as [_ Hd]. destruct (Hsp i l El) as (L1 & L2 & ->).
    assert (r ∈ regions (L1 ++ l :: L2)) as Hr' by (rewrite regions_mid; set_solver). pose proof (Hb r Hr') as Hrb.
    rewrite Hdescr by (unfold in_rg in Hc; lia). rewrite (mi_descr _ _ _ _ _ _ _ _ _ HM r c Hr' Hc). rewrite Forall_forall in Hd. by apply Hd.
  - intros c Hc Hno. rewrite Hdescr by done. by apply (mi_no_descr _ _ _ _ _ _ _ _ _ HM).
  - unfold m32_get_available_discontiguous_chunks. destruct (mi_total _ _ _ _ _ _ _ _ _ HM) as [-> _]. pose proof (mi_count _ _ _ _ _ _ _ _ _ HM false). pose proof (mi_count _ _ _ _ _ _ _ _ _ HM true). cbn in *. lia.
  - intros i pr d chunks c Ei Hc Hrun. destruct (Forall2_lookup_l _ _ _ _ _ H2 Ei) as (l & El & Eh & _). cbn [fst] in Eh. destruct (Hsp i l El) as (L1 & L2 & ->).
    unfold grow_discontiguous_space. rewrite Eh.
    destruct (wp_elim _ _ (alloc_inv vm max first bd lim static bf fuel Hok m L1 l L2 live avail d chunks HM Hc)) as ([a m'] & -> & [(_ & _ & _ & Hno)|(c' & Hcm & Ea & _)]).
    + destruct (Hno c) as (r & j & Hr & Hj & Hrj); [intros j Hj; by apply Hrun|]. by destruct (Hrun j Hj) as [_ Hn]; destruct (Hn r Hr).
    + cbn [fst snd mbind res_bind] in *. destruct (addr_eq _ _ _ _ _ _ Hok c' Hcm) as (_ & Hz & _). subst a. unfold is_zero. destruct (Z.eqb_spec (addr c') 0); [done|]. by eexists.
Qed.
End clients.

(** Resources that have no regions yet. *)
Lemma no_regions vm max first bd lim static m (ds : list Z) :
  map_inv max first bd lim static m [] → clients_ok vm max first bd lim static ((λ d, (common_new false true, d)) <$> ds, m) (replicate (length ds) []).
Proof.
  intros (live & avail & HI). assert (regions (replicate (length ds) []) = []) as E by (unfold regions; induction ds as [|d ds IH]; [done|exact IH]). split; cbn [fst snd].
  - exists live, avail. destruct HI. split; rewrite ?E; try done. intros l [-> _]%elem_of_replicate. exact I.
  - apply Forall2_replicate_r; [by rewrite length_fmap|]. apply Forall_fmap, Forall_true. intros d. split; [done|constructor].
Qed.

(** C6: the chunk map.  From the boot on, whatever regions page resources take and give back,
    every call returns, and [regions_ok] holds, if with [munmap] or [madv_dontneed] the memory of
    freed chunks can be given back: a walk from the head of a resource visits its
    regions, no two regions overlap and each lies in the range of its kind, the descriptor of a
    chunk is that of the space that has it and otherwise the static one, what no region has is
    available, and a request for which there is a run of free chunks succeeds. *)
Theorem chunk_map_regions (vm : VMLayout) (max : Z) (bf : bool) (fuel : nat) (F : unmap_features) (debug : bool) (spaces : list static_space)
    (from to_ first lim : Z) (ds : list Z) (calls : list region_call) :
  start_ok vm max fuel spaces from to_ first lim → unmap_succeeds F → Forall region_call_ok calls →
  ∃ m prs' m' L, m32_start vm max fuel spaces from to_ = Val m ∧
    for_each (do_region_call vm bf fuel F debug) calls ((λ d, (common_new false true, d)) <$> ds, m) = Val (prs', m') ∧
    regions_ok vm bf fuel max first (large_from vm first lim) lim (static_descr spaces) prs' m' L.
Proof.
  intros Hs HF Hc. destruct (wp_elim _ _ (map_start_inv _ _ _ _ _ _ _ _ Hs)) as (m & Em & HI & _). pose proof (start_map_ok _ _ _ _ _ _ _ _ Hs) as Hok.
  destruct (wp_elim _ _ (region_calls_ok _ bf _ F debug _ _ _ _ _ Hok HF calls _ _ (no_regions _ _ _ _ _ _ m ds HI) Hc)) as ([prs' m'] & Ec & L & HC).
  exists m, prs', m', L. split; [done|]. split; [done|]. by eapply clients_regions.
Qed.

(** ** Example *)

Definition map_layout : VMLayout :=
  {| log_address_space := 47; heap_start := 0x80000000; heap_end := 0x80000000 + 16 * 2 ^ 22; log_space_extent := 31;
     force_use_contiguous_spaces := false; small_chunk_space_size := Some (8 * 2 ^ 22) |}.
Definition no_unmap : unmap_features := {| f_munmap := false; f_madv_dontneed := false; ensure_unmapped := λ _ _, true; madvise := λ _ _, true |}.
Definition sample_statics : list static_space := [{| sp_start := 0; sp_chunks := 2; sp_descriptor := 5 |}].
Definition sample_region_calls : list region_call := [RGrow 0 1; RGrow 0 3; RGrow 1 1; RGrow 0 1; RRelease 0 1; RGrow 1 2; RReleaseAll 0; RGrow 1 5].
Lemma map_layout_ok : start_ok map_layout 20 30 sample_statics (0x80000000 + 2 * 2 ^ 22) (0x80000000 + 16 * 2 ^ 22 - 1) 2 16.
Proof.
  split; try (by vm_compute).
  - split_and!; [done| |done]. by exists 512.
  - change MAX_UNITS with (2 ^ 30 - 130). change PAGES_IN_CHUNK with 1024. lia.
  - intros s ->%list_elem_of_singleton. cbn. split_and!; [lia..|]. unfold in_static. cbn. lia.
  - by intros [|i] [|j] s t c Ei Ej.
Qed.
Lemma chunk_map_regions_witness :
  ∃ m prs' m' L, m32_start map_layout 20 30 sample_statics (0x80000000 + 2 * 2 ^ 22) (0x80000000 + 16 * 2 ^ 22 - 1) = Val m ∧
    for_each (do_region_call map_layout false 30 no_unmap true) sample_region_calls ((λ d, (common_new false true, d)) <$> [4; 8], m) = Val (prs', m') ∧
    regions_ok map_layout false 30 20 2 (large_from map_layout 2 16) 16 (static_descr sample_statics) prs' m' L.
Proof.
  apply (chunk_map_regions map_layout 20 false 30 no_unmap true sample_statics _ _ 2 16 [4; 8] sample_region_calls map_layout_ok); [done|].
  repeat (apply Forall_cons; split; [cbn; lia || done|]). by apply Forall_nil.
Defined.
