(* ===== verification/PageResourceTheorems.v ===== *)
(** * Pages of monotone resources

    Several discontiguous spaces acquire pages and reset their resources, in any order.  The
    pages that are in use never overlap, lie in regions of their own space, and were mapped;
    and the accounting of a resource is the number of its pages in use. *)

From S2P Require Import Prelude Conversions SpaceDescriptor FreeList FreeListModel IntArrayFreeList FreeListUnits Map32 Map32Inv Map32Boot PageResource Map32Theorems.

(** Pages in use: the resource, the address and the number of pages. *)
Record extent : Type := { ex_owner : nat; ex_start : Z; ex_pages : Z }.
Definition ex_end (x : extent) : Z := ex_start x + ex_pages x * BYTES_IN_PAGE.
Definition pages_of (i : nat) (xs : list extent) : Z := foldr (λ x n, if bool_decide (ex_owner x = i) then ex_pages x + n else n) 0 xs.
Definition all_pages (xs : list extent) : Z := foldr (λ x n, ex_pages x + n) 0 xs.

Inductive page_call : Type :=
| PAcquire (i : nat) (pages : Z) (E : acquire_env)
| PReset (i : nat).

Section pages.
Context (vm : VMLayout) (bf : bool) (fuel : nat) (debug : bool) (ensure_mapped : Z → Z → bool) (meta_pages : Z → Z).

(** One call; the pages in use are kept beside the state. *)
Definition do_page_call (st : list (Monotone * Z) * page_state * list extent) (c : page_call) : res (list (Monotone * Z) * page_state * list extent) :=
  let '(mps, ps, xs) := st in
  match c with
  | PAcquire i pages E =>
    match mps !! i with
    | Some (mp, d) =>
      '(a, _, mp, ps) ← acquire vm bf fuel debug ensure_mapped E meta_pages mp ps d pages;
      Val (<[i := (mp, d)]> mps, ps, if is_zero a then xs else {| ex_owner := i; ex_start := a; ex_pages := pages |} :: xs)
    | None => Val st
    end
  | PReset i =>
    match mps !! i with
    | Some (mp, d) =>
      '(mp, m) ← monotone_reset vm fuel debug mp (ps_map ps);
      Val (<[i := (mp, d)]> mps, {| ps_map := m; ps_mapped := ps_mapped ps |}, filter (λ x, ex_owner x ≠ i) xs)
    | None => Val st
    end
  end.
(** A request that the page resource serves or answers with a collection: from 1 to 2^30 pages,
    by a mutator while collection is enabled and initialized, where a forced poll starts a
    collection; with debug assertions it must also fit one chunk and the largest heap. *)
Definition page_call_ok (c : page_call) : Prop :=
  match c with
  | PAcquire _ pages E => 1 ≤ pages ≤ 2 ^ 30 ∧ (debug = true → pages ≤ PAGES_IN_CHUNK ∧ pages ≤ ae_max_heap_pages E) ∧
    ae_mutator E = true ∧ ae_enabled E = true ∧ ae_initialized E = true ∧ ae_forced E = true
  | PReset _ => True
  end.
Definition call_pages (c : page_call) : Z := match c with PAcquire _ pages _ => pages | PReset _ => 0 end.

Context (max first bd lim : Z) (static : Z → Z) (Hok : map_ok vm max first bd lim fuel) (Hmap : ∀ a n, ensure_mapped a n = true).
Abbreviation addr := (chunk_index_to_address vm).
Abbreviation map_inv := (map_inv max first bd lim static).
Abbreviation head_addr := (head_addr vm).

(** ** The invariant *)

Definition region_end (r : region) : Z := addr (rg_start r) + rg_chunks r * BYTES_IN_CHUNK.
(** [x] lies in the region [r], which was mapped. *)
Definition ex_in (x : extent) (r : region) (mapped : list (Z * Z)) : Prop :=
  addr (rg_start r) ≤ ex_start x ∧ ex_end x ≤ region_end r ∧ (addr (rg_start r), rg_chunks r) ∈ mapped.

Record bumping (mp : Monotone) (r : region) (mapped : list (Z * Z)) : Prop := {
  bu_current : mp_current_chunk mp = addr (rg_start r);
  bu_sentinel : mp_sentinel mp = region_end r;
  bu_cursor : addr (rg_start r) < mp_cursor mp ≤ region_end r ∧ (BYTES_IN_PAGE | mp_cursor mp);
  bu_mapped : (addr (rg_start r), rg_chunks r) ∈ mapped;
  bu_debug : debug = true → rg_chunks r = 1
}.
Record mono_ok (i : nat) (mp : Monotone) (d : Z) (l : list region) (mapped : list (Z * Z)) (xs : list extent) : Prop := {
  mk_kind : contiguous (mp_common mp) = false;
  mk_head : head_discontiguous_region (mp_common mp) = head_addr l;
  mk_space : Forall (λ r, rg_space r = d) l;
  mk_accounting : accounting (mp_common mp) = {| pa_reserved := pages_of i xs; pa_committed := pages_of i xs |};
  mk_cursor : (mp_cursor mp = 0 ∧ mp_sentinel mp = 0 ∧ mp_current_chunk mp = 0) ∨ ∃ r l', l = r :: l' ∧ bumping mp r mapped;
  mk_extents x : x ∈ xs → ex_owner x = i →
    ∃ r, r ∈ l ∧ ex_in x r mapped ∧ (mp_current_chunk mp = addr (rg_start r) → ex_end x ≤ mp_cursor mp)
}.
Definition apart_ex (x y : extent) : Prop := ex_end x ≤ ex_start y ∨ ex_end y ≤ ex_start x.
Record page_inv (mps : list (Monotone * Z)) (ps : page_state) (xs : list extent) (L : list (list region)) : Prop := {
  pi_map : map_inv (ps_map ps) L;
  pi_length : length L = length mps;
  pi_mono i mp d l : mps !! i = Some (mp, d) → L !! i = Some l → mono_ok i mp d l (ps_mapped ps) xs;
  pi_owner x : x ∈ xs → (ex_owner x < length mps)%nat ∧ 1 ≤ ex_pages x;
  pi_apart : ∀ i j x y, xs !! i = Some x → xs !! j = Some y → i ≠ j → apart_ex x y
}.

(** ** Facts *)

Lemma pages_of_cons i x xs : pages_of i (x :: xs) = (if bool_decide (ex_owner x = i) then ex_pages x else 0) + pages_of i xs.
Proof. unfold pages_of. cbn [foldr]. destruct (bool_decide _); lia. Qed.
Lemma pages_of_filter i j xs : pages_of i (filter (λ x, ex_owner x ≠ j) xs) = if decide (i = j) then 0 else pages_of i xs.
Proof.
  induction xs as [|x xs IH]; [by case_decide|]. destruct (decide (ex_owner x = j)) as [E|E].
  - rewrite filter_cons_False by (by intros []). rewrite IH, pages_of_cons. repeat (case_bool_decide || case_decide); subst; try done; lia.
  - rewrite filter_cons_True, !pages_of_cons, IH by done. repeat (case_bool_decide || case_decide); subst; try done; lia.
Qed.
Lemma pages_of_all i xs : (∀ x, x ∈ xs → 1 ≤ ex_pages x) → 0 ≤ pages_of i xs ≤ all_pages xs.
Proof.
  induction xs as [|x xs IH]; intros Hx; [done|]. rewrite pages_of_cons. cbn [all_pages foldr]. fold (all_pages xs). specialize (IH ltac:(intros y Hy; apply Hx; by constructor)).
  specialize (Hx x ltac:(constructor)). destruct (bool_decide _); lia.
Qed.
Lemma all_pages_filter j xs : (∀ x, x ∈ xs → 1 ≤ ex_pages x) → all_pages (filter (λ x, ex_owner x ≠ j) xs) ≤ all_pages xs.
Proof.
  induction xs as [|x xs IH]; intros Hx; [done|]. rewrite filter_cons. specialize (IH ltac:(intros y Hy; apply Hx; by constructor)). specialize (Hx x ltac:(constructor)).
  cbn [all_pages foldr]. fold (all_pages xs). case_decide; cbn [all_pages foldr]; [fold (all_pages (filter (λ x, ex_owner x ≠ j) xs))|]; lia.
Qed.
Lemma required_chunks_ok pages : 1 ≤ pages ≤ 2 ^ 30 →
  1 ≤ required_chunks pages < 2 ^ 31 ∧ pages * BYTES_IN_PAGE ≤ required_chunks pages * BYTES_IN_CHUNK ∧ (pages ≤ PAGES_IN_CHUNK → required_chunks pages = 1) ∧
  pages_to_bytes pages = pages * BYTES_IN_PAGE.
Proof.
  intros Hp. assert (pages_to_bytes pages = pages * BYTES_IN_PAGE) as E by (unfold pages_to_bytes; change LOG_BYTES_IN_PAGE with 12; rewrite ushl_id by lia; done).
  unfold required_chunks. rewrite E. change BYTES_IN_CHUNK with (2 ^ 22). change BYTES_IN_PAGE with (2 ^ 12). change LOG_BYTES_IN_CHUNK with 22. change PAGES_IN_CHUNK with 1024.
  rewrite (align_up_eq _ 22) by lia.
  pose proof (Z.div_mod (pages * 2 ^ 12 + 2 ^ 22 - 1) (2 ^ 22) ltac:(lia)). pose proof (Z.mod_pos_bound (pages * 2 ^ 12 + 2 ^ 22 - 1) (2 ^ 22) ltac:(lia)). set (q := (pages * 2 ^ 12 + 2 ^ 22 - 1) `div` 2 ^ 22) in *.
  rewrite shiftr_div by lia. rewrite Z.div_mul by lia. split_and!; lia.
Qed.

Lemma mono_weaken i mp d l mapped mapped' xs xs' :
  mono_ok i mp d l mapped xs → mapped ⊆ mapped' → (∀ x, x ∈ xs' → ex_owner x = i → x ∈ xs) → pages_of i xs' = pages_of i xs → mono_ok i mp d l mapped' xs'.
Proof.
  intros [K1 K2 K3 K4 K5 K6] Hm Hx Hp. split; try done.
  - by rewrite K4, Hp.
  - destruct K5 as [?|(r & l' & ? & [B1 B2 B3 B4 B5])]; [by left|]. right. exists r, l'. split; [done|]. split; try done. by apply Hm.
  - intros x Hxs Ho. destruct (K6 x (Hx x Hxs Ho) Ho) as (r & Hr & (E1 & E2 & E3) & Hc). exists r. split; [done|]. split; [|done]. split_and!; [done..|by apply Hm].
Qed.

(** One resource and its list are replaced. *)
Lemma page_split mps ps xs L i mp d :
  page_inv mps ps xs L → mps !! i = Some (mp, d) →
  ∃ L1 l L2, L = L1 ++ l :: L2 ∧ length L1 = i ∧ mono_ok i mp d l (ps_mapped ps) xs ∧
    ∀ mp' l' m' mapped' xs', map_inv m' (L1 ++ l' :: L2) → ps_mapped ps ⊆ mapped' → mono_ok i mp' d l' mapped' xs' →
      (∀ j, j ≠ i → pages_of j xs' = pages_of j xs) → (∀ x, x ∈ xs' → ex_owner x ≠ i → x ∈ xs) →
      (∀ x, x ∈ xs' → (ex_owner x < length mps)%nat ∧ 1 ≤ ex_pages x) → (∀ a b x y, xs' !! a = Some x → xs' !! b = Some y → a ≠ b → apart_ex x y) →
      page_inv (<[i := (mp', d)]> mps) {| ps_map := m'; ps_mapped := mapped' |} xs' (L1 ++ l' :: L2).
Proof.
  intros [P1 P2 P3 P4 P5] Ei. assert (i < length L)%nat as Hi by (rewrite P2; by eapply lookup_lt_Some). destruct (lookup_lt_is_Some_2 L i Hi) as [l El].
  exists (take i L), l, (drop (S i) L). rewrite (take_drop_middle _ _ _ El). split; [done|]. split; [rewrite length_take; lia|]. split; [by apply (P3 i)|].
  intros mp' l' m' mapped' xs' HI Hsub Hk Hpg Hin Hown Hap. rewrite <-(insert_take_drop L i l') in HI |- * by done. split; cbn [ps_map ps_mapped].
  - done.
  - by rewrite !length_insert.
  - intros j mpj dj lj Ej Elj. destruct (decide (j = i)) as [-> |Hne].
    + rewrite list_lookup_insert_eq in Ej by lia. rewrite list_lookup_insert_eq in Elj by lia. by simplify_eq.
    + rewrite list_lookup_insert_ne in Ej by done. rewrite list_lookup_insert_ne in Elj by done. eapply mono_weaken; [by apply (P3 j)|done| |by apply Hpg].
      intros x Hx Ho. apply Hin; [done|]. by rewrite Ho.
  - intros x Hx. rewrite length_insert. by apply Hown.
  - done.
Qed.

(** Extents in different regions. *)
Lemma regions_ranges m L r1 r2 : map_inv m L → r1 ∈ regions L → r2 ∈ regions L → r1 ≠ r2 → region_end r1 ≤ addr (rg_start r2) ∨ region_end r2 ≤ addr (rg_start r1).
Proof.
  intros (live & avail & HI) H1 H2 Hne. pose proof (region_bounds _ _ _ _ _ _ _ _ _ HI r1 H1) as B1. pose proof (region_bounds _ _ _ _ _ _ _ _ _ HI r2 H2) as B2.
  unfold region_end. destruct (addr_eq _ _ _ _ _ _ Hok (rg_start r1)) as [-> _]; [lia|]. destruct (addr_eq _ _ _ _ _ _ Hok (rg_start r2)) as [-> _]; [lia|]. change BYTES_IN_CHUNK with (2 ^ 22).
  assert (rg_start r1 + rg_chunks r1 ≤ rg_start r2 ∨ rg_start r2 + rg_chunks r2 ≤ rg_start r1) as [?|?]; [|left; lia|right; lia].
  destruct (decide (rg_start r1 + rg_chunks r1 ≤ rg_start r2 ∨ rg_start r2 + rg_chunks r2 ≤ rg_start r1)) as [|Hn]; [done|]. destruct Hne.
  apply (regions_disjoint _ _ _ _ _ _ _ _ _ HI r1 r2 (Z.max (rg_start r1) (rg_start r2)) H1 H2); unfold in_rg; lia.
Qed.
Lemma addr_aligned c : 0 ≤ c < max → (BYTES_IN_PAGE | addr c) ∧ (BYTES_IN_CHUNK | addr c).
Proof.
  intros Hc. destruct (addr_eq _ _ _ _ _ _ Hok c Hc) as [-> _]. destruct (mo_aligned _ _ _ _ _ _ Hok) as [k ->]. change BYTES_IN_CHUNK with (2 ^ 22). change BYTES_IN_PAGE with (2 ^ 12).
  split; [exists ((k + c) * 2 ^ 10)|exists (k + c)]; lia.
Qed.

(** A new extent, that no other one meets. *)
Lemma apart_cons x xs :
  (∀ a b y z, xs !! a = Some y → xs !! b = Some z → a ≠ b → apart_ex y z) → (∀ y, y ∈ xs → apart_ex x y) →
  ∀ a b y z, (x :: xs) !! a = Some y → (x :: xs) !! b = Some z → a ≠ b → apart_ex y z.
Proof.
  intros Hxs Hx [|a] [|b] y z Ey Ez Hab; cbn in *; simplify_eq.
  - by apply Hx, (list_elem_of_lookup_2 _ b).
  - destruct (Hx y) as [?|?]; [by apply (list_elem_of_lookup_2 _ a)|by right|by left].
  - apply (Hxs a b); naive_solver.
Qed.

Lemma extent_region mps ps xs L y :
  page_inv mps ps xs L → y ∈ xs →
  ∃ mp d l r, mps !! ex_owner y = Some (mp, d) ∧ L !! ex_owner y = Some l ∧ r ∈ l ∧ ex_in y r (ps_mapped ps) ∧ (mp_current_chunk mp = addr (rg_start r) → ex_end y ≤ mp_cursor mp).
Proof.
  intros [P1 P2 P3 P4 P5] Hy. destruct (P4 y Hy) as [Ho _]. destruct (lookup_lt_is_Some_2 mps _ Ho) as [[mp d] Em]. destruct (lookup_lt_is_Some_2 L (ex_owner y) ltac:(lia)) as [l El].
  destruct (mk_extents _ _ _ _ _ _ (P3 _ _ _ _ Em El) y Hy eq_refl) as (r & Hr & Hin & Hc). by exists mp, d, l, r.
Qed.
(** The pages from the cursor on are not in use. *)
Lemma bump_apart mps ps L1 l L2 xs i mp d r l' x :
  page_inv mps ps xs (L1 ++ l :: L2) → length L1 = i → mps !! i = Some (mp, d) → l = r :: l' → bumping mp r (ps_mapped ps) →
  ex_start x = mp_cursor mp → ex_end x ≤ region_end r → ∀ y, y ∈ xs → apart_ex x y.
Proof.
  intros HP Hi Em -> HB Hs He y Hy. destruct (extent_region _ _ _ _ _ HP Hy) as (mpy & dy & ly & ry & Emy & Ely & Hry & (I1 & I2 & _) & Hc).
  pose proof (pi_map _ _ _ _ HP) as HI. destruct (bu_cursor _ _ _ HB) as [Hcur _]. unfold apart_ex. destruct (decide (ry = r)) as [-> |Hne].
  - right. assert (ex_owner y = i) as Eo.
    { destruct (decide (ex_owner y = i)) as [|Hn]; [done|exfalso]. pose proof HI as (live & avail & HM). assert (ly ∈ L1 ++ L2) as Hly.
      { destruct (decide (ex_owner y < i)%nat) as [Hlt|Hge]; apply elem_of_app.
        - left. rewrite lookup_app_l in Ely by lia. by eapply list_elem_of_lookup_2.
        - right. rewrite lookup_app_r in Ely by lia. rewrite Hi in Ely. destruct (ex_owner y - i)%nat as [|k] eqn:Ek; [lia|]. cbn in Ely. by eapply list_elem_of_lookup_2. }
      by eapply (other_region vm max first bd lim static fuel Hok L1 (r :: l') L2 ly r r (mi_nodup _ _ _ _ _ _ _ _ _ HM) Hly Hry); [constructor|]. }
    rewrite Eo, Em in Emy. injection Emy as <- <-. rewrite Hs. apply Hc. apply (bu_current _ _ _ HB).
  - assert (r ∈ regions (L1 ++ (r :: l') :: L2)) as Hr1 by (rewrite regions_mid; set_solver).
    assert (ry ∈ regions (L1 ++ (r :: l') :: L2)) as Hr2 by (apply list_elem_of_join; exists ly; split; [done|by eapply list_elem_of_lookup_2]).
    destruct (regions_ranges _ _ ry r HI Hr2 Hr1 Hne); [right|left]; lia.
Qed.
(** The pages of a new region are not in use. *)
Lemma grow_apart mps ps xs L1 l L2 r m' x :
  page_inv mps ps xs (L1 ++ l :: L2) → map_inv m' (L1 ++ (r :: l) :: L2) → addr (rg_start r) ≤ ex_start x → ex_end x ≤ region_end r → ∀ y, y ∈ xs → apart_ex x y.
Proof.
  intros HP HI Hs He y Hy. destruct (extent_region _ _ _ _ _ HP Hy) as (mpy & dy & ly & ry & Emy & Ely & Hry & (I1 & I2 & _) & Hc).
  assert (ry ∈ regions (L1 ++ l :: L2)) as Hr2 by (apply list_elem_of_join; exists ly; split; [done|by eapply list_elem_of_lookup_2]). pose proof (regions_perm L1 r l L2) as Hperm.
  assert (ry ≠ r) as Hne.
  { intros ->. destruct HI as (live & avail & HM). pose proof (mi_nodup _ _ _ _ _ _ _ _ _ HM) as Hnd. rewrite Hperm, fmap_cons in Hnd. apply NoDup_cons in Hnd as [Hn _].
    apply Hn. by apply list_elem_of_fmap_2. }
  assert (r ∈ regions (L1 ++ (r :: l) :: L2)) as Hr1 by (rewrite Hperm; constructor). assert (ry ∈ regions (L1 ++ (r :: l) :: L2)) as Hr3 by (rewrite Hperm; by constructor).
  unfold apart_ex. destruct (regions_ranges _ _ ry r HI Hr3 Hr1 Hne); [right|left]; lia.
Qed.

Context (Hroom : heap_start vm + max * BYTES_IN_CHUNK + 2 ^ 43 ≤ 2 ^ 64).

Lemma check_cursor_ok i mp d l mapped xs m L1 L2 pages : mono_ok i mp d l mapped xs → map_inv m (L1 ++ l :: L2) →
  check_cursor debug (set_common mp (set_accounting (mp_common mp) (reserve (accounting (mp_common mp)) pages))) = Val ().
Proof.
  intros HK (live & avail & HM). change (check_cursor debug mp = Val ()). unfold check_cursor, debug_assert. destruct debug eqn:Ed; [|done]. cbn [negb orb]. destruct (mk_cursor _ _ _ _ _ _ HK) as [(-> & _ & ->)|(r & l' & -> & [B1 B2 [B3 _] B4 B5])]; [done|].
  pose proof (region_bounds _ _ _ _ _ _ _ _ _ HM r ltac:(rewrite regions_mid; set_solver)) as Hb. rewrite B1. unfold region_end in B3. rewrite B5 in B3 by done. rewrite Z.mul_1_l in B3.
  destruct (addr_eq _ _ _ _ _ _ Hok (rg_start r)) as [Ea _]; [lia|]. destruct (addr_aligned (rg_start r)) as [_ [k Hk]]; [lia|]. pose proof (mo_start _ _ _ _ _ _ Hok).
  change BYTES_IN_CHUNK with (2 ^ 22) in *. destruct (Z.leb_spec (addr (rg_start r)) (mp_cursor mp)); [|lia]. cbn [rust_assert mbind res_bind].
  rewrite uadd_id by lia. unfold chunk_align_down. change BYTES_IN_CHUNK with (2 ^ 22). rewrite align_down_eq by (unfold is_u; lia).
  assert (mp_cursor mp `div` 2 ^ 22 * 2 ^ 22 = addr (rg_start r) ∨ mp_cursor mp `div` 2 ^ 22 * 2 ^ 22 = addr (rg_start r) + 2 ^ 22) as Hd.
  { rewrite Hk in *. destruct (decide (mp_cursor mp = k * 2 ^ 22 + 2 ^ 22)) as [-> |Hn]; [right|left].
    - replace (k * 2 ^ 22 + 2 ^ 22) with ((k + 1) * 2 ^ 22) by lia. by rewrite Z.div_mul by lia.
    - f_equal. symmetry. apply Z.div_unique with (mp_cursor mp - k * 2 ^ 22); lia. }
  destruct Hd as [-> | ->]; rewrite Z.eqb_refl, ?orb_true_r; done.
Qed.

(** ** Allocation *)

(** The resource once the pages are reserved. *)
Definition reserved_mp (mp : Monotone) (pages : Z) : Monotone := set_common mp (set_accounting (mp_common mp) (reserve (accounting (mp_common mp)) pages)).
Definition new_extent (i : nat) (a pages : Z) : extent := {| ex_owner := i; ex_start := a; ex_pages := pages |}.
Definition alloc_result (mps : list (Monotone * Z)) (i : nat) (d : Z) (xs : list extent) (pages : Z) (out : option (Z * Z * bool) * Monotone * page_state) : Prop :=
  match out.1.1 with
  | Some (a, _, _) => a ≠ 0 ∧ ∃ L', page_inv (<[i := (out.1.2, d)]> mps) out.2 (new_extent i a pages :: xs) L'
  | None => ∃ mp' L', out.1.2 = reserved_mp mp' pages ∧ page_inv (<[i := (mp', d)]> mps) out.2 xs L'
  end.

Lemma committed pages p : 0 ≤ p → 1 ≤ pages → p + pages < 2 ^ 64 →
  commit (reserve (reserve {| pa_reserved := p; pa_committed := p |} pages) (pages -u pages)) pages = {| pa_reserved := pages + p; pa_committed := pages + p |}.
Proof.
  intros Hp Hpg Hlt. unfold commit, reserve. cbn [pa_reserved pa_committed]. rewrite usub_id, Z.sub_diag by lia. rewrite (uadd_id p pages) by lia. rewrite uadd_id by lia. f_equal; lia.
Qed.

(** The state after the pages [a] of the region [r], the first of the list, are committed. *)
Lemma commit_inv mps ps xs L1 l L2 i mp d m' l' r mapped' mp' pages a :
  page_inv mps ps xs (L1 ++ l :: L2) → length L1 = i → mps !! i = Some (mp, d) → mono_ok i mp d l (ps_mapped ps) xs →
  (∀ mp' l' m' mapped' xs', map_inv m' (L1 ++ l' :: L2) → ps_mapped ps ⊆ mapped' → mono_ok i mp' d l' mapped' xs' →
      (∀ j, j ≠ i → pages_of j xs' = pages_of j xs) → (∀ x, x ∈ xs' → ex_owner x ≠ i → x ∈ xs) →
      (∀ x, x ∈ xs' → (ex_owner x < length mps)%nat ∧ 1 ≤ ex_pages x) → (∀ a b x y, xs' !! a = Some x → xs' !! b = Some y → a ≠ b → apart_ex x y) →
      page_inv (<[i := (mp', d)]> mps) {| ps_map := m'; ps_mapped := mapped' |} xs' (L1 ++ l' :: L2)) →
  1 ≤ pages → map_inv m' (L1 ++ l' :: L2) → ps_mapped ps ⊆ mapped' → list.head l' = Some r → l ⊆ l' → Forall (λ r, rg_space r = d) l' →
  contiguous (mp_common mp') = false → head_discontiguous_region (mp_common mp') = head_addr l' →
  accounting (mp_common mp') = {| pa_reserved := pages + pages_of i xs; pa_committed := pages + pages_of i xs |} →
  bumping mp' r mapped' → mp_cursor mp' = a + pages * BYTES_IN_PAGE → addr (rg_start r) ≤ a →
  (∀ y, y ∈ xs → apart_ex (new_extent i a pages) y) →
  (∀ y ry, y ∈ xs → ex_owner y = i → ry ∈ l → ex_in y ry (ps_mapped ps) → (mp_current_chunk mp = addr (rg_start ry) → ex_end y ≤ mp_cursor mp) →
     mp_current_chunk mp' = addr (rg_start ry) → ex_end y ≤ mp_cursor mp') →
  page_inv (<[i := (mp', d)]> mps) {| ps_map := m'; ps_mapped := mapped' |} (new_extent i a pages :: xs) (L1 ++ l' :: L2).
Proof.
  intros HP Hi Em HK Hput Hpg HI Hsub Hr Hl Hd Hco Hh Hac HB Hcur Ha Hap Hold. destruct l' as [|r' l']; [done|]. injection Hr as ->. destruct (bu_cursor _ _ _ HB) as [Hc1 _].
  apply Hput; try done.
  - split; try done.
    + rewrite pages_of_cons. cbn [ex_owner new_extent ex_pages]. by rewrite bool_decide_true.
    + right. by exists r, l'.
    + intros x [-> |Hx]%elem_of_cons Ho.
      * exists r. split; [constructor|]. split; [|intros _; unfold ex_end; cbn; lia]. split; [done|]. split; [unfold ex_end; cbn; lia|by apply (bu_mapped _ _ _ HB)].
      * destruct (mk_extents _ _ _ _ _ _ HK x Hx Ho) as (ry & Hry & Hin & Hc). exists ry. split; [by apply Hl|]. split; [|by apply (Hold x ry)].
        destruct Hin as (? & ? & ?). split_and!; [done..|by apply Hsub].
  - intros j Hj. rewrite pages_of_cons. cbn [ex_owner new_extent]. by rewrite bool_decide_false.
  - intros x [-> |Hx]%elem_of_cons Ho; [by destruct Ho|done].
  - intros x [-> |Hx]%elem_of_cons; [|by apply (pi_owner _ _ _ _ HP)]. cbn. split; [by eapply lookup_lt_Some|done].
  - apply apart_cons; [apply (pi_apart _ _ _ _ HP)|done].
Qed.

Lemma region_end_bound m L r : map_inv m L → r ∈ regions L → 0 < addr (rg_start r) ∧ addr (rg_start r) < region_end r ∧ region_end r + 2 ^ 43 ≤ 2 ^ 64 ∧ 0 ≤ rg_start r < max ∧ 1 ≤ rg_chunks r ≤ max.
Proof.
  intros (live & avail & HM) Hr. pose proof (region_bounds _ _ _ _ _ _ _ _ _ HM r Hr) as Hb. unfold region_end. destruct (addr_eq _ _ _ _ _ _ Hok (rg_start r)) as [-> _]; [lia|].
  pose proof (mo_start _ _ _ _ _ _ Hok). change BYTES_IN_CHUNK with (2 ^ 22) in *. lia.
Qed.
Lemma no_move mp : contiguous (mp_common mp) = false → move_current_chunk debug mp = Val (mp, None).
Proof. intros E. unfold move_current_chunk. by rewrite E. Qed.
Lemma rtn_assert a bytes : 0 ≤ a → 1 ≤ bytes → a + bytes < 2 ^ 64 → debug_assert debug ((a <=? a) && (a <? a +u bytes)) = Val ().
Proof.
  intros Ha Hb Hlt. unfold debug_assert. rewrite uadd_id by lia. rewrite Z.leb_refl. destruct (Z.ltb_spec a (a + bytes)); [|lia]. by rewrite orb_true_r.
Qed.

(** Projections of updated resources. *)
Ltac mp_simpl := cbn [mbind res_bind reserved_mp set_common set_cursor set_accounting set_head mp_common mp_cursor mp_sentinel mp_current_chunk mp_contiguous_start_chunk mp_start
  accounting contiguous growable head_discontiguous_region commit_pages negb andb fst snd].

(** The pages fit in the current region. *)
Lemma alloc_bump mps ps xs L1 l L2 i mp d pages r l' :
  page_inv mps ps xs (L1 ++ l :: L2) → length L1 = i → mps !! i = Some (mp, d) → l = r :: l' → bumping mp r (ps_mapped ps) →
  1 ≤ pages ≤ 2 ^ 30 → pages_of i xs + pages < 2 ^ 64 → mp_cursor mp + pages * BYTES_IN_PAGE ≤ region_end r →
  wp (alloc_pages vm bf fuel debug ensure_mapped (reserved_mp mp pages) ps d pages pages true) (alloc_result mps i d xs pages).
Proof.
  intros HP Hi Em El HB Hpg Hsum Hfit. destruct (page_split _ _ _ _ _ _ _ HP Em) as (L1' & l0 & L2' & EL & Hi' & HK & Hput).
  apply app_inj_1 in EL as [<- [= <- <-]]; [|lia]. pose proof (pi_map _ _ _ _ HP) as HI.
  assert (r ∈ regions (L1 ++ l :: L2)) as Hr by (rewrite El, regions_mid; set_solver). destruct (region_end_bound _ _ _ HI Hr) as (R1 & R2 & R3 & R4 & R5).
  destruct (required_chunks_ok pages Hpg) as (_ & _ & _ & Ebytes). destruct (bu_cursor _ _ _ HB) as [Hc Hca]. change BYTES_IN_PAGE with (2 ^ 12) in *.
  assert (0 ≤ pages_of i xs) as Hpos by (apply (pages_of_all i xs); intros x Hx; by apply (pi_owner _ _ _ _ HP)).
  unfold alloc_pages, reserved_mp. rewrite (check_cursor_ok _ _ _ _ _ _ _ _ _ pages HK HI).
  cbn [mbind res_bind]. rewrite Ebytes. cbn [reserved_mp set_common mp_common set_accounting contiguous mp_sentinel mp_cursor]. rewrite (mk_kind _ _ _ _ _ _ HK). cbn [negb andb].
  rewrite uadd_id by lia. rewrite (bu_sentinel _ _ _ HB). destruct (Z.ltb_spec (region_end r) (mp_cursor mp + pages * 2 ^ 12)); [lia|]. mp_simpl.
  rewrite rtn_assert by lia. mp_simpl. rewrite uadd_id by lia. rewrite (bu_sentinel _ _ _ HB). destruct (Z.ltb_spec (region_end r) (mp_cursor mp + pages * 2 ^ 12)); [lia|].
  rewrite no_move by (cbn; apply (mk_kind _ _ _ _ _ _ HK)). cbn [mbind res_bind]. mp_simpl. rewrite (mk_accounting _ _ _ _ _ _ HK), committed by lia.
  split; cbn [fst snd]; [lia|]. eexists. subst l. eapply (commit_inv mps ps xs L1 (r :: l') L2 i mp d _ (r :: l') r); try done; try lia.
  - destruct HI as (live & avail & HM). exists live, avail. by apply flags_inv.
  - apply (mk_space _ _ _ _ _ _ HK).
  - cbn. apply (mk_kind _ _ _ _ _ _ HK).
  - cbn. apply (mk_head _ _ _ _ _ _ HK).
  - destruct HB as [B1 B2 B3 B4 B5]. split; cbn; try done. split; [lia|]. destruct Hca as [q ->]. exists (q + pages). change BYTES_IN_PAGE with 4096. lia.
  - eapply bump_apart; try done.
  - intros y ry Hy Ho Hry Hin Hc1 Hc2. cbn in *. specialize (Hc1 Hc2). lia.
Qed.

(** The resource after a region could not be had. *)
Definition idle_mp (mp : Monotone) : Monotone := set_cursor mp 0 0 0.
Lemma idle_ok i mp d l mapped xs m L1 L2 : mono_ok i mp d l mapped xs → map_inv m (L1 ++ l :: L2) → mono_ok i (idle_mp mp) d l mapped xs.
Proof.
  intros [K1 K2 K3 K4 K5 K6] HI. split; try done; [by left|]. intros x Hx Ho. destruct (K6 x Hx Ho) as (r & Hr & Hin & _). exists r. split; [done|]. split; [done|].
  intros E. cbn in E. destruct (region_end_bound m _ r HI) as (R1 & _); [rewrite regions_mid; set_solver|lia].
Qed.

Lemma new_region_addr m L1 r l L2 ry : map_inv m (L1 ++ (r :: l) :: L2) → ry ∈ l → addr (rg_start r) ≠ addr (rg_start ry).
Proof.
  intros HI Hry E. destruct (region_end_bound _ _ r HI) as (_ & _ & _ & B1 & _); [rewrite regions_mid; set_solver|].
  destruct (region_end_bound _ _ ry HI) as (_ & _ & _ & B2 & _); [rewrite regions_mid; set_solver|].
  apply (f_equal (address_to_chunk_index vm)) in E. rewrite !(index_addr _ _ _ _ _ _ Hok) in E by done.
  destruct HI as (live & avail & HM). pose proof (mi_nodup _ _ _ _ _ _ _ _ _ HM) as Hnd. rewrite regions_mid, !fmap_app, fmap_cons in Hnd.
  apply NoDup_app in Hnd as (_ & _ & Hnd). apply NoDup_app in Hnd as ([Hn _]%NoDup_cons & _ & _). apply Hn. rewrite E. by apply list_elem_of_fmap_2.
Qed.

(** The pages need a new region. *)
Lemma alloc_grow mps ps xs L1 l L2 i mp d pages :
  page_inv mps ps xs (L1 ++ l :: L2) → length L1 = i → mps !! i = Some (mp, d) →
  1 ≤ pages ≤ 2 ^ 30 → (debug = true → pages ≤ PAGES_IN_CHUNK) → pages_of i xs + pages < 2 ^ 64 → mp_sentinel mp < mp_cursor mp +u pages * BYTES_IN_PAGE →
  wp (alloc_pages vm bf fuel debug ensure_mapped (reserved_mp mp pages) ps d pages pages true) (alloc_result mps i d xs pages).
Proof.
  intros HP Hi Em Hpg Hdb Hsum Hfull. destruct (page_split _ _ _ _ _ _ _ HP Em) as (L1' & l0 & L2' & EL & Hi' & HK & Hput).
  apply app_inj_1 in EL as [<- [= <- <-]]; [|lia]. pose proof (pi_map _ _ _ _ HP) as HI.
  destruct (required_chunks_ok pages Hpg) as (Hrc & Hrb & Hrd & Ebytes). change BYTES_IN_PAGE with (2 ^ 12) in *.
  assert (0 ≤ pages_of i xs) as Hpos by (apply (pages_of_all i xs); intros x Hx; by apply (pi_owner _ _ _ _ HP)).
  unfold alloc_pages, reserved_mp. rewrite (check_cursor_ok _ _ _ _ _ _ _ _ _ pages HK HI).
  cbn [mbind res_bind]. rewrite Ebytes. cbn [set_common mp_common set_accounting contiguous mp_sentinel mp_cursor]. rewrite (mk_kind _ _ _ _ _ _ HK). cbn [negb andb].
  destruct (Z.ltb_spec (mp_sentinel mp) (mp_cursor mp +u pages * 2 ^ 12)); [|lia]. unfold grow_discontiguous_space. mp_simpl. rewrite (mk_head _ _ _ _ _ _ HK).
  destruct HI as (live & avail & HM). apply wp_bind, wp_bind, wp_bind. eapply wp_mono; [by apply (alloc_inv vm max first bd lim static bf fuel Hok)|].
  intros [a m'] [(Ea & HI' & _)|(c & Hcm & Ea & HI')]; cbn [fst snd] in *; subst a.
  - cbn [is_zero Z.eqb mbind res_bind wp]. mp_simpl. change (0 +u 0) with 0. rewrite rtn_assert by lia. mp_simpl. rewrite uadd_id by lia.
    destruct (Z.ltb_spec 0 (0 + pages * 2 ^ 12)); [|lia]. cbn. exists (idle_mp mp), (L1 ++ l :: L2). split; [done|].
    apply Hput; [by eexists _, _|done|eapply idle_ok; [done|by eexists _, _]|done|done|apply HP|apply HP].
  - set (r := {| rg_start := c; rg_chunks := required_chunks pages; rg_space := d |}) in *. assert (map_inv m' (L1 ++ (r :: l) :: L2)) as HI2 by (by eexists _, _).
    destruct (region_end_bound _ _ r HI2) as (R1 & R2 & R3 & R4 & R5); [rewrite regions_mid; set_solver|]. change (addr (rg_start r)) with (addr c) in *.
    assert (region_end r = addr c + required_chunks pages * 2 ^ 22) as Ere by done.
    unfold is_zero. destruct (Z.eqb_spec (addr c) 0); [lia|]. cbn [mbind res_bind wp]. mp_simpl. change LOG_BYTES_IN_CHUNK with 22 in *. change BYTES_IN_CHUNK with (2 ^ 22) in *.
    destruct (Z.eqb_spec (addr c) 0); [lia|]. rewrite ushl_id by lia. rewrite rtn_assert by lia. mp_simpl. rewrite !uadd_id by lia.
    destruct (Z.ltb_spec (addr c + required_chunks pages * 2 ^ 22) (addr c + pages * 2 ^ 12)); [lia|].
    rewrite no_move by (cbn; apply (mk_kind _ _ _ _ _ _ HK)). cbn [mbind res_bind]. mp_simpl. rewrite (mk_accounting _ _ _ _ _ _ HK), committed by lia.
    rewrite Hmap. cbn [rust_assert mbind res_bind wp]. unfold alloc_result. mp_simpl. split; [lia|]. eexists.
    destruct (addr_aligned c R4) as [[q1 A1] A2]. assert (align_up (addr c) (2 ^ 22) = addr c) as Eal.
    { unfold align_up. rewrite align_up_eq by lia. destruct A2 as [q2 A2]. change BYTES_IN_CHUNK with (2 ^ 22) in A2. rewrite A2. rewrite <-(Z.div_unique (q2 * 2 ^ 22 + 2 ^ 22 - 1) (2 ^ 22) q2 (2 ^ 22 - 1)); lia. }
    rewrite Eal. eapply (commit_inv mps ps xs L1 l L2 i mp d _ (r :: l) r); try done; try lia.
    + destruct HI2 as (live' & avail' & HM'). exists live', avail'. by apply flags_inv.
    + set_solver.
    + set_solver.
    + constructor; [done|]. apply (mk_space _ _ _ _ _ _ HK).
    + cbn. apply (mk_kind _ _ _ _ _ _ HK).
    + split; cbn [set_common set_cursor mp_current_chunk mp_sentinel mp_cursor rg_start rg_chunks r].
      * done.
      * done.
      * split; [lia|]. rewrite A1. change BYTES_IN_PAGE with 4096. exists (q1 + pages). lia.
      * set_solver.
      * intros Hd. by apply Hrd, Hdb.
    + eapply grow_apart; try done.
    + intros y ry Hy Ho Hry Hin _ Hc2. exfalso. by apply (new_region_addr m' L1 r l L2 ry HI2 Hry).
Qed.

Lemma alloc_ok mps ps xs L i mp d pages :
  page_inv mps ps xs L → mps !! i = Some (mp, d) → 1 ≤ pages ≤ 2 ^ 30 → (debug = true → pages ≤ PAGES_IN_CHUNK) → pages_of i xs + pages < 2 ^ 64 →
  wp (alloc_pages vm bf fuel debug ensure_mapped (reserved_mp mp pages) ps d pages pages true) (alloc_result mps i d xs pages).
Proof.
  intros HP Em Hpg Hdb Hsum. destruct (page_split _ _ _ _ _ _ _ HP Em) as (L1 & l & L2 & -> & Hi & HK & _).
  destruct (decide (mp_sentinel mp < mp_cursor mp +u pages * BYTES_IN_PAGE)) as [Hlt|Hge]; [by eapply alloc_grow|].
  change BYTES_IN_PAGE with (2 ^ 12) in *. destruct (mk_cursor _ _ _ _ _ _ HK) as [(E1 & E2 & _)|(r & l' & El & HB)].
  { rewrite E1, E2, uadd_id in Hge by lia. lia. }
  destruct (region_end_bound _ _ r (pi_map _ _ _ _ HP)) as (R1 & _ & R3 & _); [rewrite El, regions_mid; set_solver|]. destruct (bu_cursor _ _ _ HB) as [Hc _].
  rewrite uadd_id, (bu_sentinel _ _ _ HB) in Hge by lia. eapply alloc_bump; try done. change BYTES_IN_PAGE with (2 ^ 12). lia.
Qed.

(** ** Calls *)

Lemma clear_reserved_ok mp p pages : accounting (mp_common mp) = {| pa_reserved := p; pa_committed := p |} → 0 ≤ p → 1 ≤ pages → p + pages < 2 ^ 64 →
  clear_reserved debug (accounting (mp_common (reserved_mp mp pages))) pages = Val (accounting (mp_common mp)).
Proof.
  intros E Hp Hpg Hlt. unfold clear_reserved, reserved_mp. mp_simpl. rewrite E. unfold reserve. cbn [pa_reserved pa_committed]. rewrite uadd_id by lia.
  unfold debug_assert. destruct (Z.leb_spec pages (p + pages)); [|lia]. rewrite orb_true_r. cbn. rewrite usub_id by lia. do 2 f_equal. lia.
Qed.
Lemma unreserve mp pages : set_common (reserved_mp mp pages) (set_accounting (mp_common (reserved_mp mp pages)) (accounting (mp_common mp))) = mp.
Proof. by destruct mp as [[]]. Qed.

Lemma acquire_ok mps ps xs L i mp d pages E :
  page_inv mps ps xs L → mps !! i = Some (mp, d) → page_call_ok (PAcquire i pages E) → pages_of i xs + pages < 2 ^ 64 →
  wp (acquire vm bf fuel debug ensure_mapped E meta_pages mp ps d pages)
    (λ out, ∃ L', page_inv (<[i := (out.1.2, d)]> mps) out.2 (if is_zero out.1.1.1 then xs else new_extent i out.1.1.1 pages :: xs) L').
Proof.
  intros HP Em (Hpg & Hdb & E1 & E2 & E3 & E4) Hsum. assert (debug = true → pages ≤ PAGES_IN_CHUNK) as Hch by (intros H; by apply Hdb). destruct (page_split _ _ _ _ _ _ _ HP Em) as (L1 & l & L2 & -> & Hi & HK & _).
  assert (0 ≤ pages_of i xs) as Hpos by (apply (pages_of_all i xs); intros x Hx; by apply (pi_owner _ _ _ _ HP)).
  unfold acquire. assert (debug_assert debug (negb (will_oom_on_acquire E (ushl 64 pages LOG_BYTES_IN_PAGE))) = Val ()) as ->.
  { unfold debug_assert, will_oom_on_acquire. change LOG_BYTES_IN_PAGE with 12. rewrite ushl_id, shiftr_div, Z.div_mul by lia. destruct debug; [|done]. destruct (Hdb eq_refl) as [_ Hmx].
    by rewrite (proj2 (Z.ltb_ge _ _) Hmx). }
  cbn [mbind res_bind]. rewrite E1, E2, E3. cbn [andb]. destruct (ae_poll E).
  - cbn [rust_assert mbind res_bind]. fold (reserved_mp mp pages). rewrite (clear_reserved_ok mp (pages_of i xs)) by (apply HK || lia). cbn [mbind res_bind wp]. rewrite unreserve. cbn.
    exists (L1 ++ l :: L2). rewrite list_insert_id by done. by destruct ps.
  - fold (reserved_mp mp pages). apply wp_bind. eapply wp_mono; [by eapply alloc_ok|]. intros [[[[[a p] n]|] mp1] ps1]; cbn [alloc_result fst snd].
    + intros [Ha HP1]. cbn. unfold is_zero. by destruct (Z.eqb_spec a 0).
    + intros (mp2 & L' & -> & HP2). cbn [rust_assert mbind res_bind]. rewrite E4. unfold debug_assert. rewrite orb_true_r. cbn [rust_assert mbind res_bind].
      destruct (page_split _ _ _ _ i mp2 d HP2) as (L1' & l' & L2' & -> & _ & HK2 & _); [apply list_lookup_insert_eq; by eapply lookup_lt_Some|].
      rewrite (clear_reserved_ok mp2 (pages_of i xs)) by (apply HK2 || lia). cbn [mbind res_bind wp]. rewrite unreserve. cbn. by eexists.
Qed.
Lemma release_extent_ok bytes : 0 ≤ bytes → bytes + 2 ^ 12 ≤ 2 ^ 64 → (BYTES_IN_PAGE | bytes) → release_pages_extent debug bytes = Val ().
Proof.
  intros H0 Hlt [q Hq]. unfold release_pages_extent, debug_assert, bytes_to_pages_up, pages_to_bytes. change BYTES_IN_PAGE with (2 ^ 12) in *. change LOG_BYTES_IN_PAGE with 12.
  rewrite align_up_eq by lia. rewrite <-(Z.div_unique (bytes + 2 ^ 12 - 1) (2 ^ 12) q (2 ^ 12 - 1)) by lia. rewrite shiftr_div by lia. rewrite Z.div_mul by lia. rewrite ushl_id by lia.
  rewrite Hq, Z.eqb_refl. by rewrite orb_true_r.
Qed.
Lemma release_regions_ok m L1 A r B L2 f : map_inv m (L1 ++ (A ++ r :: B) :: L2) → (length B ≤ f)%nat → release_regions vm debug f m (addr (rg_start r)) = Val ().
Proof.
  intros HI. revert A r B HI. induction f as [|f IH]; intros A r B HI Hf; cbn [release_regions]; rewrite (next_region _ _ _ _ _ _ _ Hok _ _ _ _ _ _ HI); cbn [mbind res_bind];
    (destruct B as [|r' B]; [done|]); cbn [length] in Hf; [lia|]. cbn [Map32Inv.head_addr].
  assert (r' ∈ regions (L1 ++ (A ++ r :: r' :: B) :: L2)) as Hin by (rewrite regions_mid; set_solver). destruct (region_end_bound _ _ _ HI Hin) as (R1 & R2 & R3 & R4 & R5).
  unfold is_zero. destruct (Z.eqb_spec (addr (rg_start r')) 0); [lia|]. unfold m32_get_contiguous_region_size. rewrite (region_chunks _ _ _ _ _ _ _ Hok _ _ _ HI Hin). cbn [mbind res_bind].
  unfold region_end in *. change BYTES_IN_CHUNK with (2 ^ 22) in *. change LOG_BYTES_IN_CHUNK with 22 in *. rewrite ushl_id by lia. rewrite uadd_id by lia. rewrite usub_id by lia.
  rewrite release_extent_ok; [|lia|lia|exists (rg_chunks r' * 2 ^ 10); change BYTES_IN_PAGE with (2 ^ 12); lia]. cbn [mbind res_bind]. apply (IH (A ++ [r]) r' B); [by rewrite <-app_assoc|lia].
Qed.

Lemma filter_apart i (xs : list extent) :
  (∀ a b x y, xs !! a = Some x → xs !! b = Some y → a ≠ b → apart_ex x y) →
  ∀ a b x y, filter (λ x, ex_owner x ≠ i) xs !! a = Some x → filter (λ x, ex_owner x ≠ i) xs !! b = Some y → a ≠ b → apart_ex x y.
Proof.
  induction xs as [|z xs IH]; intros Hap; [by intros [|a]|]. rewrite filter_cons. case_decide.
  - apply apart_cons.
    + apply IH. intros a b x y Ex Ey Hab. apply (Hap (S a) (S b)); naive_solver.
    + intros y [_ [a Ea]%list_elem_of_lookup_1]%list_elem_of_filter. by apply (Hap 0%nat (S a)).
  - apply IH. intros a b x y Ex Ey Hab. apply (Hap (S a) (S b)); naive_solver.
Qed.

Lemma reset_ok mps ps xs L i mp d :
  page_inv mps ps xs L → mps !! i = Some (mp, d) →
  wp (monotone_reset vm fuel debug mp (ps_map ps))
    (λ out, ∃ L', page_inv (<[i := (out.1, d)]> mps) {| ps_map := out.2; ps_mapped := ps_mapped ps |} (filter (λ x, ex_owner x ≠ i) xs) L').
Proof.
  intros HP Em. destruct (page_split _ _ _ _ _ _ _ HP Em) as (L1 & l & L2 & -> & Hi & HK & Hput). pose proof (pi_map _ _ _ _ HP) as HI.
  assert (∀ mp' l' m', map_inv m' (L1 ++ l' :: L2) → mono_ok i mp' d l' (ps_mapped ps) (filter (λ x, ex_owner x ≠ i) xs) →
    page_inv (<[i := (mp', d)]> mps) {| ps_map := m'; ps_mapped := ps_mapped ps |} (filter (λ x, ex_owner x ≠ i) xs) (L1 ++ l' :: L2)) as Hput'.
  { intros mp' l' m' HI' HK'. apply Hput; try done.
    - intros j Hj. rewrite pages_of_filter. by case_decide.
    - intros x [_ Hx]%list_elem_of_filter _. done.
    - intros x [_ Hx]%list_elem_of_filter. by apply (pi_owner _ _ _ _ HP).
    - apply filter_apart, (pi_apart _ _ _ _ HP). }
  assert (∀ mp' l', contiguous (mp_common mp') = false → head_discontiguous_region (mp_common mp') = head_addr l' → Forall (λ r, rg_space r = d) l' → accounting (mp_common mp') = accounting_new →
    mp_cursor mp' = 0 → mp_sentinel mp' = 0 → mp_current_chunk mp' = 0 → mono_ok i mp' d l' (ps_mapped ps) (filter (λ x, ex_owner x ≠ i) xs)) as Hidle.
  { intros mp' l' C1 C2 C3 C4 C5 C6 C7. split; try done; [|by left|].
    - rewrite pages_of_filter, decide_True by done. done.
    - intros x [Ho _]%list_elem_of_filter. done. }
  unfold monotone_reset, release_pages. mp_simpl. rewrite (mk_kind _ _ _ _ _ _ HK). destruct (mk_cursor _ _ _ _ _ _ HK) as [(E1 & E2 & E3)|(r & l' & El & HB)].
  - rewrite E1. cbn. exists (L1 ++ l :: L2). apply Hput'; [done|]. apply Hidle; try done; apply HK.
  - subst l. destruct (region_end_bound _ _ r HI) as (R1 & R2 & R3 & R4 & R5); [rewrite regions_mid; set_solver|]. destruct (bu_cursor _ _ _ HB) as [Hc [q Hq]].
    unfold is_zero. destruct (Z.eqb_spec (mp_cursor mp) 0); [lia|]. rewrite (bu_current _ _ _ HB). rewrite usub_id by lia.
    destruct (addr_aligned _ R4) as [[q1 A1] _]. rewrite release_extent_ok; [|lia|lia|exists (q - q1); lia]. cbn [mbind res_bind].
    pose proof (regions_length _ _ _ _ _ _ _ HI) as Hlen. rewrite regions_mid, !length_app in Hlen. cbn [length] in Hlen. pose proof (mo_fuel _ _ _ _ _ _ Hok).
    rewrite (release_regions_ok _ L1 [] r l' L2) by (done || lia). cbn [mbind res_bind]. unfold release_all_chunks. mp_simpl. rewrite (mk_head _ _ _ _ _ _ HK).
    apply wp_bind, wp_bind. eapply wp_mono; [by apply (free_all_inv vm max first bd lim static fuel Hok)|]. intros m' HI'. cbn.
    eexists. apply Hput'; [exact HI'|]. apply Hidle; try done. apply (mk_kind _ _ _ _ _ _ HK).
Qed.

Lemma page_calls_ok calls mps ps xs L :
  page_inv mps ps xs L → Forall page_call_ok calls → all_pages xs + foldr (λ c n, call_pages c + n) 0 calls < 2 ^ 64 →
  wp (for_each do_page_call calls (mps, ps, xs)) (λ st, ∃ L', page_inv st.1.1 st.1.2 st.2 L' ∧ (snd <$> st.1.1) = (snd <$> mps)).
Proof.
  intros HP Hcs. revert mps ps xs L HP. induction Hcs as [|c calls Hc Hcs IH]; intros mps ps xs L HP Hsum; [cbn; by exists L|]. cbn [foldr] in Hsum.
  assert (∀ x, x ∈ xs → 1 ≤ ex_pages x) as Hx1 by (intros x Hx; by apply (pi_owner _ _ _ _ HP)).
  assert (∀ l, Forall page_call_ok l → 0 ≤ foldr (λ c n, call_pages c + n) 0 l) as Hpos by (induction 1 as [|[] ? []]; cbn in *; lia). specialize (Hpos _ Hcs).
  assert (∀ i mp mp' d, mps !! i = Some (mp, d) → snd <$> <[i := (mp', d)]> mps = snd <$> mps) as Hsnd.
  { intros i mp mp' d Em. rewrite list_fmap_insert. apply list_insert_id. by rewrite list_lookup_fmap, Em. }
  cbn [for_each]. apply wp_bind. destruct c as [i pages E|i]; cbn [do_page_call]; (destruct (mps !! i) as [[mp d]|] eqn:Em; [|apply (IH _ _ _ L HP); cbn in Hsum, Hc; lia]).
  - cbn [call_pages] in Hsum. pose proof (pages_of_all i xs Hx1). apply wp_bind. eapply wp_mono; [apply (acquire_ok _ _ _ _ _ _ _ _ _ HP Em Hc); lia|].
    intros [[[a p] mp'] ps'] (L' & HP'). cbn [fst snd wp] in *. rewrite <-(Hsnd i mp mp' d Em). apply (IH _ _ _ L' HP'). destruct (is_zero a); cbn in Hc |- *; [lia|]. fold (all_pages xs). lia.
  - apply wp_bind. eapply wp_mono; [by apply (reset_ok _ _ _ _ _ _ _ HP Em)|]. intros [mp' m'] (L' & HP'). cbn [fst snd wp] in *. rewrite <-(Hsnd i mp mp' d Em). apply (IH _ _ _ L' HP').
    pose proof (all_pages_filter i xs Hx1). cbn in Hsum. lia.
Qed.

(** ** What a space can rely on *)

Record pages_ok (mps : list (Monotone * Z)) (ps : page_state) (xs : list extent) (L : list (list region)) : Prop := {
  (** The map and the resources agree on the regions. *)
  po_regions : regions_ok vm bf fuel max first bd lim static ((λ md, (mp_common md.1, md.2)) <$> mps) (ps_map ps) L;
  (** No page is used twice. *)
  po_apart i j x y : xs !! i = Some x → xs !! j = Some y → i ≠ j → apart_ex x y;
  (** The pages of a space are in one of its regions, have its descriptor, and are mapped. *)
  po_inside x : x ∈ xs → ∃ mp d l r, mps !! ex_owner x = Some (mp, d) ∧ L !! ex_owner x = Some l ∧ r ∈ l ∧ addr (rg_start r) ≤ ex_start x ∧ ex_end x ≤ region_end r;
  po_descr x mp d a : x ∈ xs → mps !! ex_owner x = Some (mp, d) → ex_start x ≤ a < ex_end x → m32_get_descriptor_for_address vm (ps_map ps) a = d;
  po_mapped x a : x ∈ xs → ex_start x ≤ a < ex_end x → ∃ s n, (s, n) ∈ ps_mapped ps ∧ s ≤ a < s + n * BYTES_IN_CHUNK;
  (** Iterating over the regions of its resource covers them. *)
  po_iterated x mp d : x ∈ xs → mps !! ex_owner x = Some (mp, d) →
    ∃ rs s n, iterate_allocated_regions vm fuel mp (ps_map ps) = Val rs ∧ (s, n) ∈ rs ∧ s ≤ ex_start x ∧ ex_end x ≤ s + n;
  (** The accounting is the number of pages in use. *)
  po_accounting i mp d : mps !! i = Some (mp, d) → accounting (mp_common mp) = {| pa_reserved := pages_of i xs; pa_committed := pages_of i xs |}
}.

Lemma index_inside m L r a : map_inv m L → r ∈ regions L → addr (rg_start r) ≤ a < region_end r → in_rg r (address_to_chunk_index vm a).
Proof.
  intros HI Hr. destruct (region_end_bound _ _ _ HI Hr) as (_ & _ & _ & R4 & R5). unfold region_end. destruct (addr_eq _ _ _ _ _ _ Hok _ R4) as [-> _]. intros Ha.
  pose proof (mo_start _ _ _ _ _ _ Hok). pose proof (region_end_bound _ _ _ HI Hr) as (_ & _ & R3 & _). unfold region_end in R3. rewrite (proj1 (addr_eq _ _ _ _ _ _ Hok _ R4)) in R3.
  unfold in_rg, address_to_chunk_index. change BYTES_IN_CHUNK with (2 ^ 22) in *. change LOG_BYTES_IN_CHUNK with 22. rewrite usub_id by lia. rewrite shiftr_div by lia. split.
  - apply Z.div_le_lower_bound; lia.
  - apply Z.div_lt_upper_bound; lia.
Qed.
Lemma allocated_regions_ok m cursor L1 A B L2 f :
  map_inv m (L1 ++ (A ++ B) :: L2) → (length B ≤ f)%nat → 0 ≤ cursor < 2 ^ 64 →
  allocated_regions vm f m cursor (head_addr B) =
    Val ((λ r, (addr (rg_start r), if (addr (rg_start r) <? cursor) && (cursor <? region_end r) then cursor - addr (rg_start r) else rg_chunks r * BYTES_IN_CHUNK)) <$> B).
Proof.
  intros HI Hf Hc. revert A B HI Hf. induction f as [|f IH]; intros A [|r B] HI Hf; cbn [length] in Hf; try lia; try done.
  assert (r ∈ regions (L1 ++ (A ++ r :: B) :: L2)) as Hin by (rewrite regions_mid; set_solver). destruct (region_end_bound _ _ _ HI Hin) as (R1 & R2 & R3 & R4 & R5).
  cbn [allocated_regions Map32Inv.head_addr]. unfold is_zero. destruct (Z.eqb_spec (addr (rg_start r)) 0); [lia|]. unfold m32_get_contiguous_region_size.
  rewrite (region_chunks _ _ _ _ _ _ _ Hok _ _ _ HI Hin). cbn [mbind res_bind]. rewrite (next_region _ _ _ _ _ _ _ Hok _ _ _ _ _ _ HI). cbn [mbind res_bind].
  rewrite (IH (A ++ [r]) B); [|by rewrite <-app_assoc|lia]. cbn [mbind res_bind]. rewrite fmap_cons. unfold region_end in *. change BYTES_IN_CHUNK with (2 ^ 22) in *. change LOG_BYTES_IN_CHUNK with 22.
  rewrite ushl_id by lia. rewrite uadd_id by lia. destruct (Z.ltb_spec (addr (rg_start r)) cursor); cbn [andb]; [|done]. by rewrite usub_id by lia.
Qed.
Lemma iterated_ok mps ps xs L x mp d : page_inv mps ps xs L → x ∈ xs → mps !! ex_owner x = Some (mp, d) →
  ∃ rs s n, iterate_allocated_regions vm fuel mp (ps_map ps) = Val rs ∧ (s, n) ∈ rs ∧ s ≤ ex_start x ∧ ex_end x ≤ s + n.
Proof.
  intros HP Hx Em. destruct (extent_region _ _ _ _ _ HP Hx) as (mp' & d' & l & r & Em' & El & Hr & (I1 & I2 & _) & Hc). rewrite Em in Em'. injection Em' as <- <-.
  destruct (page_split _ _ _ _ _ _ _ HP Em) as (L1 & l0 & L2 & -> & Hi & HK & _). rewrite lookup_app_r, Hi, Nat.sub_diag in El by lia. injection El as <-. pose proof (pi_map _ _ _ _ HP) as HI.
  pose proof (regions_length _ _ _ _ _ _ _ HI) as Hlen. rewrite regions_mid, !length_app in Hlen. pose proof (mo_fuel _ _ _ _ _ _ Hok).
  assert (∀ y, y ∈ l0 → y ∈ regions (L1 ++ l0 :: L2)) as Hmid by (intros y Hy; rewrite regions_mid; set_solver). destruct (region_end_bound _ _ _ HI (Hmid r Hr)) as (R1 & R2 & R3 & R4 & R5).
  assert (0 ≤ mp_cursor mp < 2 ^ 64) as Hcur.
  { destruct (mk_cursor _ _ _ _ _ _ HK) as [(-> & _ & _)|(r' & l' & -> & HB)]; [lia|]. pose proof (bu_cursor _ _ _ HB). destruct (region_end_bound _ _ _ HI (Hmid r' ltac:(constructor))) as (? & ? & ? & ? & ?). lia. }
  unfold iterate_allocated_regions. rewrite (mk_kind _ _ _ _ _ _ HK), (mk_head _ _ _ _ _ _ HK), (allocated_regions_ok _ _ L1 [] l0 L2 fuel HI) by lia. eexists _, _, _.
  split; [done|]. split; [apply list_elem_of_fmap; exists r; by split|]. split; [done|]. destruct (Z.ltb_spec (addr (rg_start r)) (mp_cursor mp)); cbn [andb]; [|unfold region_end in I2; lia].
  destruct (Z.ltb_spec (mp_cursor mp) (region_end r)); [|unfold region_end in I2; lia]. enough (ex_end x ≤ mp_cursor mp) by lia. apply Hc.
  destruct (mk_cursor _ _ _ _ _ _ HK) as [(E0 & _ & _)|(r' & l' & -> & HB)]; [lia|]. rewrite (bu_current _ _ _ HB). destruct (bu_cursor _ _ _ HB) as [Hb _].
  destruct (decide (r = r')) as [-> |Hne]; [done|]. destruct (regions_ranges _ _ r r' HI (Hmid r Hr) (Hmid r' ltac:(constructor)) Hne); lia.
Qed.
Lemma page_inv_ok mps ps xs L : page_inv mps ps xs L → pages_ok mps ps xs L.
Proof.
  intros HP. pose proof (pi_map _ _ _ _ HP) as HI. pose proof (pi_length _ _ _ _ HP) as Hlen. split.
  - eapply (clients_regions vm bf fuel no_unmap max first bd lim static Hok); [done|]. split; [done|]. apply Forall2_same_length_lookup_2; [cbn [fst]; by rewrite length_fmap|].
    intros i [pr d] l Ei El. cbn [fst] in Ei. rewrite list_lookup_fmap in Ei. destruct (mps !! i) as [[mp d']|] eqn:Em; [|done]. injection Ei as <- <-.
    destruct (pi_mono _ _ _ _ HP i mp d' l Em El). done.
  - intros i j x y. apply (pi_apart _ _ _ _ HP).
  - intros x Hx. destruct (extent_region _ _ _ _ _ HP Hx) as (mp & d & l & r & Em & El & Hr & (I1 & I2 & _) & _). by exists mp, d, l, r.
  - intros x mp d a Hx Em Ha. destruct (extent_region _ _ _ _ _ HP Hx) as (mp' & d' & l & r & Em' & El & Hr & (I1 & I2 & _) & _). rewrite Em in Em'. injection Em' as <- <-.
    assert (r ∈ regions L) as Hr' by (apply list_elem_of_join; exists l; split; [done|by eapply list_elem_of_lookup_2]).
    pose proof (index_inside _ _ r a HI Hr' ltac:(lia)) as Hin. change (m32_get_descriptor_for_address vm (ps_map ps) a) with (vw (descriptor_map (ps_map ps)) (address_to_chunk_index vm a)).
    destruct HI as (live & avail & HM). rewrite (mi_descr _ _ _ _ _ _ _ _ _ HM r _ Hr' Hin). pose proof (mk_space _ _ _ _ _ _ (pi_mono _ _ _ _ HP _ _ _ _ Em El)) as Hd. rewrite Forall_forall in Hd. by apply Hd.
  - intros x a Hx Ha. destruct (extent_region _ _ _ _ _ HP Hx) as (mp' & d' & l & r & Em' & El & Hr & (I1 & I2 & I3) & _). exists (addr (rg_start r)), (rg_chunks r). split; [done|]. unfold region_end in I2. lia.
  - intros x mp d Hx Em. by eapply iterated_ok.
  - intros i mp d Em. destruct (lookup_lt_is_Some_2 L i) as [l El]; [rewrite Hlen; by eapply lookup_lt_Some|]. by apply (mk_accounting _ _ _ _ _ _ (pi_mono _ _ _ _ HP _ _ _ _ Em El)).
Qed.
Lemma fresh_pages_inv m (ds : list Z) : map_inv m [] → page_inv ((λ d, (monotone_discontiguous, d)) <$> ds) {| ps_map := m; ps_mapped := [] |} [] (replicate (length ds) []).
Proof.
  intros HI. split.
  - by apply (no_regions vm _ _ _ _ _ _ ds HI).
  - by rewrite length_replicate, length_fmap.
  - intros i mp d l Em [-> _]%lookup_replicate_1. rewrite list_lookup_fmap in Em. destruct (ds !! i); [|done]. injection Em as <- <-. split; try done; [by left|]. intros x Hx. by apply not_elem_of_nil in Hx.
  - intros x Hx. by apply not_elem_of_nil in Hx.
  - done.
Qed.
End pages.

(** C5: pages of monotone resources.  From the boot of a chunk map with discontiguous memory on,
    the discontiguous spaces acquire pages and reset their resources in any order.  Mutators
    acquire from 1 to 2^30 pages while collection is enabled and initialized and mapping memory
    succeeds; in a build with debug assertions, a request fits one chunk and the largest heap.
    Then every call returns; the pages in use never overlap, lie in regions of their own space
    and have its descriptor, were mapped, and are covered by the iteration over the regions of
    their resource; and the accounting of each resource is the number of its pages in use. *)
Theorem monotone_pages_safe (vm : VMLayout) (max : Z) (bf : bool) (fuel : nat) (debug : bool) (ensure_mapped : Z → Z → bool) (meta_pages : Z → Z) (spaces : list static_space)
    (from to_ first lim : Z) (ds : list Z) (calls : list page_call) :
  start_ok vm max fuel spaces from to_ first lim → heap_start vm + max * BYTES_IN_CHUNK + 2 ^ 43 ≤ 2 ^ 64 → (∀ a n, ensure_mapped a n = true) →
  Forall (page_call_ok debug) calls → foldr (λ c n, call_pages c + n) 0 calls < 2 ^ 64 →
  ∃ m mps ps xs L, m32_start vm max fuel spaces from to_ = Val m ∧
    for_each (do_page_call vm bf fuel debug ensure_mapped meta_pages) calls ((λ d, (monotone_discontiguous, d)) <$> ds, {| ps_map := m; ps_mapped := [] |}, []) = Val (mps, ps, xs) ∧
    (snd <$> mps) = ds ∧ pages_ok vm bf fuel max first (large_from vm first lim) lim (static_descr spaces) mps ps xs L.
Proof.
  intros Hs Hroom Hmap Hcs Hsum. destruct (wp_elim _ _ (map_start_inv _ _ _ _ _ _ _ _ Hs)) as (m & Em & HI & _). pose proof (start_map_ok _ _ _ _ _ _ _ _ Hs) as Hok.
  pose proof (fresh_pages_inv vm debug _ _ _ _ _ m ds HI) as HP.
  destruct (wp_elim _ _ (page_calls_ok vm bf fuel debug ensure_mapped meta_pages max first _ lim _ Hok Hmap Hroom calls _ _ _ _ HP Hcs Hsum)) as ([[mps ps] xs] & Ec & L & HP' & Hd).
  exists m, mps, ps, xs, L. split; [done|]. split; [done|]. split; [|by eapply page_inv_ok]. cbn in Hd. rewrite Hd, <-list_fmap_compose. apply list_fmap_id.
Qed.

(** ** Examples *)

Definition can_collect : acquire_env := {| ae_mutator := true; ae_enabled := true; ae_initialized := true; ae_poll := false; ae_forced := true; ae_max_heap_pages := 4096 |}.
Definition sample_page_calls : list page_call :=
  [PAcquire 0 3 can_collect; PAcquire 1 1024 can_collect; PAcquire 0 1020 can_collect; PAcquire 0 2 can_collect; PReset 1; PAcquire 1 7 can_collect].
Lemma monotone_pages_safe_witness :
  ∃ m mps ps xs L, m32_start map_layout 20 30 sample_statics (0x80000000 + 2 * 2 ^ 22) (0x80000000 + 16 * 2 ^ 22 - 1) = Val m ∧
    for_each (do_page_call map_layout false 30 true (λ _ _, true) (λ _, 0)) sample_page_calls ((λ d, (monotone_discontiguous, d)) <$> [4; 8], {| ps_map := m; ps_mapped := [] |}, []) = Val (mps, ps, xs) ∧
    (snd <$> mps) = [4; 8] ∧ pages_ok map_layout false 30 20 2 (large_from map_layout 2 16) 16 (static_descr sample_statics) mps ps xs L.
Proof.
  apply (monotone_pages_safe map_layout 20 false 30 true (λ _ _, true) (λ _, 0) sample_statics _ _ 2 16 [4; 8] sample_page_calls map_layout_ok); [done|done| |done].
  change PAGES_IN_CHUNK with 1024. repeat (apply Forall_cons; split; [unfold page_call_ok; try done; split_and!; (done || (change PAGES_IN_CHUNK with 1024; lia))|]). by apply Forall_nil.
Defined.

(** The calls of [cs] on one resource, from the boot on: the chunks available afterwards. *)
Definition chunks_after (debug : bool) (cs : list page_call) : res Z :=
  m ← m32_start map_layout 20 30 sample_statics (0x80000000 + 2 * 2 ^ 22) (0x80000000 + 16 * 2 ^ 22 - 1);
  '(_, ps, _) ← for_each (do_page_call map_layout false 30 debug (λ _ _, true) (λ _, 0)) cs ([(monotone_discontiguous, 4)], {| ps_map := m; ps_mapped := [] |}, []);
  Val (m32_get_available_discontiguous_chunks (ps_map ps)).

(** After an allocation failed the cursor is zero, and a reset does not give the regions of the
    resource back: 13 of the 14 chunks are available, where a reset before the failure gives
    all of them back. *)
Lemma reset_after_failure_keeps_regions :
  chunks_after false [PAcquire 0 3 can_collect; PReset 0] = Val 14 ∧
  chunks_after false [PAcquire 0 3 can_collect; PAcquire 0 100000 can_collect; PReset 0] = Val 13.
Proof. by vm_compute. Qed.
(** An allocation after one that filled two chunks fails the debug assertion on the cursor. *)
Lemma second_chunk_assertion :
  chunks_after true [PAcquire 0 2048 can_collect; PAcquire 0 1 can_collect] = Panic ∧
  chunks_after false [PAcquire 0 2048 can_collect; PAcquire 0 1 can_collect] = Val 11.
Proof. by vm_compute. Qed.
