(* ===== verification/RustStd.v ===== *)
(** * Strings and numbers of the Rust library that the options use

    Strings are ASCII.  [split], [split_ascii_whitespace], [replace] of a character,
    [to_lowercase], [strip_prefix], [starts_with], and [parse] of the integer types: an optional
    sign, then at least one digit and only digits, and a value of the type.  [show] prints
    numbers, for the theorems that what is printed is read back.

    [f64] is IEEE 754 binary64 as specified by the standard library, with the conversions from
    and to [usize] ([as] truncates and saturates, and turns a NaN into zero), and [parse], whose
    result is the number of the text rounded once. *)

From Stdlib Require Import Ascii SpecFloat.
From S2P Require Import Prelude.
#[local] Open Scope string_scope.
#[local] Open Scope Z_scope.

(** ** Splitting *)

Fixpoint split (c : ascii) (s : string) : list string :=
  match s with
  | EmptyString => [""]
  | String a s =>
    if bool_decide (a = c) then "" :: split c s
    else match split c s with x :: xs => String a x :: xs | [] => [] end
  end.
(** Words between white space, none of them empty. *)
Definition is_ascii_whitespace (a : ascii) : bool := let n := Z.of_N (Ascii.N_of_ascii a) in (n =? 32) || (n =? 9) || (n =? 10) || (n =? 12) || (n =? 13).
Fixpoint words_from (cur : string) (s : string) : list string :=
  let word := if String.eqb cur "" then [] else [cur] in
  match s with
  | EmptyString => word
  | String a s => if is_ascii_whitespace a then app word (words_from "" s) else words_from (cur +:+ String a "") s
  end.
Definition split_ascii_whitespace (s : string) : list string := words_from "" s.

Fixpoint replace_char (c d : ascii) (s : string) : string :=
  match s with EmptyString => "" | String a s => String (if bool_decide (a = c) then d else a) (replace_char c d s) end.
Definition lowercase (a : ascii) : ascii := let n := Ascii.N_of_ascii a in if ((65 <=? n) && (n <=? 90))%N then Ascii.ascii_of_N (n + 32) else a.
Fixpoint to_lowercase (s : string) : string := match s with EmptyString => "" | String a s => String (lowercase a) (to_lowercase s) end.
Fixpoint strip_prefix (p s : string) : option string :=
  match p, s with
  | EmptyString, _ => Some s
  | String a p, String b s => if bool_decide (a = b) then strip_prefix p s else None
  | String _ _, EmptyString => None
  end.
Definition starts_with (p s : string) : bool := bool_decide (is_Some (strip_prefix p s)).
Fixpoint contains (c : ascii) (s : string) : bool := match s with EmptyString => false | String a s => bool_decide (a = c) || contains c s end.

(** ** Numbers *)

Definition digit (a : ascii) : option Z := let n := Z.of_N (Ascii.N_of_ascii a) in if (48 <=? n) && (n <=? 57) then Some (n - 48) else None.
(** Digits, with [checked_mul] and [checked_add] at a type whose largest value is [max]. *)
Fixpoint parse_digits (max acc : Z) (s : string) : option Z :=
  match s with
  | EmptyString => Some acc
  | String a s => d ← digit a; if (acc * 10 <=? max) && (acc * 10 + d <=? max) then parse_digits max (acc * 10 + d) s else None
  end.
Definition parse_unsigned (bits : Z) (s : string) : option Z :=
  match s with
  | EmptyString => None
  | String a s' =>
    if bool_decide (a = "+"%char) then (if String.eqb s' "" then None else parse_digits (2 ^ bits - 1) 0 s')
    else parse_digits (2 ^ bits - 1) 0 s
  end.
Definition parse_signed (bits : Z) (s : string) : option Z :=
  match s with
  | EmptyString => None
  | String a s' =>
    if bool_decide (a = "+"%char) then (if String.eqb s' "" then None else parse_digits (2 ^ (bits - 1) - 1) 0 s')
    else if bool_decide (a = "-"%char) then (if String.eqb s' "" then None else Z.opp <$> parse_digits (2 ^ (bits - 1)) 0 s')
    else parse_digits (2 ^ (bits - 1) - 1) 0 s
  end.

(** ** Printing *)

Definition digit_char (d : Z) : ascii := Ascii.ascii_of_N (Z.to_N (48 + d)).
Fixpoint show_digits (fuel : nat) (n : Z) : string :=
  match fuel with
  | O => ""
  | S fuel => (if n <? 10 then "" else show_digits fuel (n `div` 10)) +:+ String (digit_char (n `mod` 10)) ""
  end.
(** Twenty digits are enough for 64 bits. *)
Definition show (n : Z) : string := show_digits 20 n.
Definition show_signed (n : Z) : string := if n <? 0 then String "-" (show (- n)) else show n.
Fixpoint join (c : ascii) (xs : list string) : string :=
  match xs with [] => "" | [x] => x | x :: xs => x +:+ String c (join c xs) end.

(** ** Facts *)

Lemma str_app_nil t : "" +:+ t = t.
Proof. reflexivity. Qed.
Lemma str_app_cons a s t : String a s +:+ t = String a (s +:+ t).
Proof. reflexivity. Qed.
Lemma str_app_assoc (s t u : string) : s +:+ (t +:+ u) = (s +:+ t) +:+ u.
Proof. induction s as [|a s IH]; [done|]. by rewrite !str_app_cons, IH. Qed.
Lemma contains_app c s t : contains c (s +:+ t) = contains c s || contains c t.
Proof. induction s as [|a s IH]; [done|]. rewrite str_app_cons. cbn. by rewrite IH, orb_assoc. Qed.
Lemma split_ne c s : split c s ≠ [].
Proof. induction s as [|a s IH]; [done|]. cbn. case_bool_decide; [done|]. by destruct (split c s). Qed.
Lemma split_none c s : contains c s = false → split c s = [s].
Proof. induction s as [|a s IH]; [done|]. cbn. intros [Ha Hs]%orb_false_iff. rewrite Ha. by rewrite (IH Hs). Qed.
Lemma split_app c s t : contains c s = false → split c (s +:+ String c t) = s :: split c t.
Proof.
  induction s as [|a s IH]; [rewrite str_app_nil; cbn; by rewrite bool_decide_true|]. rewrite str_app_cons. cbn. intros [Ha Hs]%orb_false_iff. rewrite Ha. by rewrite (IH Hs).
Qed.
Lemma str_join_cons c x y xs : join c (x :: y :: xs) = x +:+ String c (join c (y :: xs)).
Proof. reflexivity. Qed.
Lemma split_join c xs : xs ≠ [] → Forall (λ x, contains c x = false) xs → split c (join c xs) = xs.
Proof.
  intros Hne Hxs. induction Hxs as [|x xs Hx Hxs IH]; [done|]. destruct xs as [|y xs]; [by apply split_none|]. rewrite str_join_cons, split_app by done. by rewrite IH.
Qed.
Lemma str_join_split c s : join c (split c s) = s.
Proof.
  induction s as [|a s IH]; [done|]. cbn. pose proof (split_ne c s) as Hne. destruct (split c s) as [|x xs]; [done|]. case_bool_decide as Ha.
  - by rewrite Ha, str_join_cons, str_app_nil, IH.
  - destruct xs as [|y xs]; [by rewrite <-IH|]. by rewrite str_join_cons, str_app_cons, <-str_join_cons, IH.
Qed.
Lemma split_no_sep c s : Forall (λ x, contains c x = false) (split c s).
Proof.
  induction s as [|a s IH]; cbn; [by constructor|]. case_bool_decide as Ha; [by constructor|]. destruct (split c s) as [|x xs]; [constructor|]. inversion_clear IH as [|? ? Hx Hxs].
  constructor; [|done]. cbn. by rewrite bool_decide_false.
Qed.

Lemma digit_range a d : digit a = Some d → 0 ≤ d ≤ 9.
Proof. unfold digit. destruct (Z.leb_spec 48 (Z.of_N (Ascii.N_of_ascii a))), (Z.leb_spec (Z.of_N (Ascii.N_of_ascii a)) 57); cbn; try done. intros [= <-]. lia. Qed.
Lemma digit_char_ok d : 0 ≤ d ≤ 9 → digit (digit_char d) = Some d.
Proof.
  intros Hd. unfold digit, digit_char. rewrite Ascii.N_ascii_embedding by lia. rewrite Z2N.id by lia.
  destruct (Z.leb_spec 48 (48 + d)); [|lia]. destruct (Z.leb_spec (48 + d) 57); [|lia]. cbn. f_equal. lia.
Qed.
Lemma parse_digits_app max acc s t : parse_digits max acc (s +:+ t) = (n ← parse_digits max acc s; parse_digits max n t).
Proof. revert acc. induction s as [|a s IH]; intros acc; [done|]. rewrite str_app_cons. cbn. destruct (digit a) as [d|]; [|done]. cbn. destruct (_ && _); [|done]. apply IH. Qed.
Lemma parse_digits_range max acc s n : 0 ≤ acc ≤ max → parse_digits max acc s = Some n → acc ≤ n ≤ max.
Proof.
  revert acc. induction s as [|a s IH]; intros acc Ha; cbn; [intros [= <-]; lia|]. destruct (digit a) as [d|] eqn:Ed; [|done]. cbn. apply digit_range in Ed.
  destruct (Z.leb_spec (acc * 10) max), (Z.leb_spec (acc * 10 + d) max); cbn; try done. intros Hn. apply IH in Hn; lia.
Qed.
Lemma parse_digits_one max acc d : 0 ≤ d ≤ 9 → acc * 10 + d ≤ max → parse_digits max acc (String (digit_char d) "") = Some (acc * 10 + d).
Proof.
  intros Hd Hle. cbn [parse_digits]. rewrite digit_char_ok by done. cbn [mbind option_bind].
  destruct (Z.leb_spec (acc * 10) max); [|lia]. destruct (Z.leb_spec (acc * 10 + d) max); [done|lia].
Qed.
Lemma parse_show_digits max fuel n : 0 ≤ n ≤ max → n < 10 ^ Z.of_nat fuel → (0 < fuel)%nat → parse_digits max 0 (show_digits fuel n) = Some n.
Proof.
  revert n. induction fuel as [|fuel IH]; intros n Hn Hlt Hf; [lia|]. cbn [show_digits]. rewrite parse_digits_app.
  pose proof (Z.div_mod n 10 ltac:(lia)). pose proof (Z.mod_pos_bound n 10 ltac:(lia)).
  assert ((if n <? 10 then Some 0 else Some (n `div` 10)) = parse_digits max 0 (if n <? 10 then "" else show_digits fuel (n `div` 10))) as <-.
  { destruct (Z.ltb_spec n 10) as [|Hge]; [done|]. rewrite IH; [done|lia| |].
    - replace (Z.of_nat (S fuel)) with (Z.succ (Z.of_nat fuel)) in Hlt by lia. rewrite Z.pow_succ_r in Hlt by lia. lia.
    - destruct fuel; [|lia]. cbn in Hlt. lia. }
  destruct (Z.ltb_spec n 10) as [Hlt10|Hge]; cbn [mbind option_bind]; rewrite parse_digits_one by lia; f_equal; [rewrite Z.mod_small by lia; lia|lia].
Qed.
(** What a printed number starts with and does not contain. *)
Definition is_digits (s : string) : Prop := ∀ c, digit c = None → contains c s = false.
Lemma show_is_digits fuel n : 0 ≤ n → is_digits (show_digits fuel n).
Proof.
  intros Hn c Hc. revert n Hn. induction fuel as [|fuel IH]; intros n Hn; [done|]. cbn [show_digits]. rewrite contains_app. pose proof (Z.mod_pos_bound n 10 ltac:(lia)).
  assert (contains c (if n <? 10 then "" else show_digits fuel (n `div` 10)) = false) as ->.
  { destruct (n <? 10); [done|]. apply IH. apply Z.div_pos; lia. }
  cbn. rewrite orb_false_r. apply bool_decide_false. intros <-. rewrite digit_char_ok in Hc by lia. done.
Qed.
Lemma show_cons n : ∃ d s, show n = String (digit_char d) s ∧ (0 ≤ n → 0 ≤ d ≤ 9).
Proof.
  assert (∀ fuel m, 0 ≤ m → ∃ d s, show_digits (S fuel) m = String (digit_char d) s ∧ 0 ≤ d ≤ 9) as Hgen.
  { induction fuel as [|fuel IH]; intros m Hm; cbn [show_digits]; pose proof (Z.mod_pos_bound m 10 ltac:(lia)).
    - exists (m `mod` 10), "". destruct (m <? 10); split; [done|lia|done|lia].
    - destruct (m <? 10); [exists (m `mod` 10), ""; split; [done|lia]|]. destruct (IH (m `div` 10)) as (d & s & E & Hd); [apply Z.div_pos; lia|]. cbn [show_digits] in E. rewrite E. cbn. by eexists d, _. }
  destruct (decide (0 ≤ n)) as [Hn|Hn]; [destruct (Hgen 19%nat n Hn) as (d & s & E & Hd); by exists d, s|].
  unfold show. cbn [show_digits]. destruct (Z.ltb_spec n 10); [|lia]. cbn. by eexists _, _.
Qed.
Lemma show_not_char n c : 0 ≤ n → digit c = None → ∃ a s, show n = String a s ∧ a ≠ c.
Proof.
  intros Hn Hc. destruct (show_cons n) as (d & s & E & Hd). exists (digit_char d), s. split; [done|]. intros <-. rewrite digit_char_ok in Hc by auto. done.
Qed.
Lemma parse_unsigned_show bits n : 0 ≤ bits ≤ 64 → 0 ≤ n < 2 ^ bits → parse_unsigned bits (show n) = Some n.
Proof.
  intros Hb Hn. destruct (show_not_char n "+"%char) as (a & s & E & Ha); [lia|done|]. unfold parse_unsigned. rewrite E. rewrite bool_decide_false by done. rewrite <-E. unfold show.
  pose proof (Z.pow_le_mono_r 2 bits 64 ltac:(lia) ltac:(lia)). apply parse_show_digits; [lia| |lia]. change (10 ^ Z.of_nat 20) with 100000000000000000000. lia.
Qed.
Lemma parse_signed_show bits n : 1 ≤ bits ≤ 64 → - 2 ^ (bits - 1) ≤ n < 2 ^ (bits - 1) → parse_signed bits (show_signed n) = Some n.
Proof.
  intros Hb Hn. pose proof (Z.pow_le_mono_r 2 (bits - 1) 63 ltac:(lia) ltac:(lia)). unfold show_signed, parse_signed. destruct (Z.ltb_spec n 0) as [Hneg|Hpos].
  - rewrite bool_decide_false, bool_decide_true by done. destruct (show_cons (- n)) as (d & s & E & _). rewrite E. cbn [String.eqb]. rewrite <-E. unfold show.
    rewrite parse_show_digits; [cbn; f_equal; lia|lia| |lia]. change (10 ^ Z.of_nat 20) with 100000000000000000000. lia.
  - destruct (show_not_char n "+"%char) as (a & s & E & Ha); [lia|done|]. destruct (show_not_char n "-"%char) as (a' & s' & E' & Ha'); [lia|done|]. rewrite E. rewrite E in E'. injection E' as <- <-.
    rewrite !bool_decide_false by done. rewrite <-E. unfold show. apply parse_show_digits; [lia| |lia]. change (10 ^ Z.of_nat 20) with 100000000000000000000. lia.
Qed.
Lemma parse_unsigned_range bits s n : 0 ≤ bits → parse_unsigned bits s = Some n → 0 ≤ n < 2 ^ bits.
Proof.
  intros Hb. pose proof (Z.pow_pos_nonneg 2 bits ltac:(lia) Hb). unfold parse_unsigned. destruct s as [|a s]; [done|]. repeat case_match; try done; intros Hn%parse_digits_range; lia.
Qed.
Lemma parse_signed_range bits s n : 1 ≤ bits → parse_signed bits s = Some n → - 2 ^ (bits - 1) ≤ n < 2 ^ (bits - 1).
Proof.
  intros Hb. pose proof (Z.pow_pos_nonneg 2 (bits - 1) ltac:(lia) ltac:(lia)). unfold parse_signed. destruct s as [|a s]; [done|].
  case_bool_decide; [case_match; [done|]; intros Hn%parse_digits_range; lia|]. case_bool_decide; [case_match; [done|]|intros Hn%parse_digits_range; lia].
  intros (m & Em & ->)%fmap_Some. change (parse_digits (2 ^ (bits - 1)) 0 s = Some m) in Em. apply parse_digits_range in Em; lia.
Qed.

(** * 64-bit floating point *)

#[local] Open Scope string_scope.
#[local] Open Scope Z_scope.

Definition f64 : Type := spec_float.
Definition f64_add : f64 → f64 → f64 := SFadd 53 1024.
Definition f64_sub : f64 → f64 → f64 := SFsub 53 1024.
Definition f64_mul : f64 → f64 → f64 := SFmul 53 1024.
Definition f64_div : f64 → f64 → f64 := SFdiv 53 1024.
Definition f64_sqrt : f64 → f64 := SFsqrt 53 1024.
Definition f64_lt : f64 → f64 → bool := SFltb.
Definition f64_le : f64 → f64 → bool := SFleb.
Definition f64_eq : f64 → f64 → bool := SFeqb.

(** [n as f64] for an integer, and [x as usize]. *)
Definition f64_of (n : Z) : f64 := binary_normalize 53 1024 n 0 false.
Definition f64_to_usize (x : f64) : Z :=
  match x with
  | S754_nan | S754_zero _ | S754_infinity true | S754_finite true _ _ => 0
  | S754_infinity false => 2 ^ 64 - 1
  | S754_finite false m e => Z.min (2 ^ 64 - 1) (Z.shiftl (Z.pos m) e)
  end.

(** [m * 10 ^ e], rounded. *)
Definition f64_decimal (neg : bool) (m e : Z) : f64 :=
  match m with
  | Z.pos p =>
    if 0 <=? e then binary_round 53 1024 neg (Z.to_pos (m * 10 ^ e)) 0
    else f64_div (S754_finite neg p 0) (S754_finite false (Z.to_pos (10 ^ (- e))) 0)
  | _ => S754_zero neg
  end.
(** Digits from the front: the number they continue, how many they are, and the rest. *)
Fixpoint take_digits (acc count : Z) (s : string) : Z * Z * string :=
  match s with
  | String a s' => match digit a with Some d => take_digits (acc * 10 + d) (count + 1) s' | None => (acc, count, s) end
  | EmptyString => (acc, count, s)
  end.
Definition parse_exponent (s : string) : option Z :=
  match s with
  | EmptyString => Some 0
  | String c s =>
    if bool_decide (lowercase c = "e"%char) then
      let '(neg, s) := match s with
        | String a s' => if bool_decide (a = "-"%char) then (true, s') else if bool_decide (a = "+"%char) then (false, s') else (false, s)
        | EmptyString => (false, s)
        end in
      let '(n, count, rest) := take_digits 0 0 s in
      if (count =? 0) || negb (String.eqb rest "") then None else Some (if neg : bool then - n else n)
    else None
  end.
Definition parse_decimal (neg : bool) (s : string) : option f64 :=
  let '(m, n1, rest) := take_digits 0 0 s in
  let '(m, n2, rest) := match rest with
    | String a rest' => if bool_decide (a = "."%char) then take_digits m 0 rest' else (m, 0, rest)
    | EmptyString => (m, 0, rest)
    end in
  if n1 + n2 =? 0 then None else e ← parse_exponent rest; Some (f64_decimal neg m (e - n2)).
Definition parse_inf_nan (neg : bool) (s : string) : option f64 :=
  let s := to_lowercase s in
  if String.eqb s "nan" then Some S754_nan else if String.eqb s "inf" || String.eqb s "infinity" then Some (S754_infinity neg) else None.
Definition parse_f64 (s : string) : option f64 :=
  let '(neg, s) := match s with
    | String a s' => if bool_decide (a = "-"%char) then (true, s') else if bool_decide (a = "+"%char) then (false, s') else (false, s)
    | EmptyString => (false, s)
    end in
  match parse_decimal neg s with Some x => Some x | None => parse_inf_nan neg s end.

Lemma f64_to_usize_range x : 0 ≤ f64_to_usize x < 2 ^ 64.
Proof. destruct x as [|[]| |[] m e]; cbn; try lia. assert (0 ≤ Z.shiftl (Z.pos m) e) by (by apply Z.shiftl_nonneg). lia. Qed.

(** Literals of the source and of its tests. *)
Lemma f64_examples :
  parse_f64 "0.25" = Some (S754_finite false 4503599627370496 (-54)) ∧ parse_f64 "1" = parse_f64 "1.0" ∧
  parse_f64 "0.1" = Some (S754_finite false 7205759403792794 (-56)) ∧ parse_f64 "8e-1" = parse_f64 ".8" ∧
  parse_f64 "-INF" = Some (S754_infinity true) ∧ parse_f64 "." = None ∧ parse_f64 "1e" = None ∧ parse_f64 "1e400" = Some (S754_infinity false) ∧
  f64_to_usize (f64_sqrt (f64_of (10 * 4096))) = 202.
Proof. by vm_compute. Qed.
