(* ===== verification/Options.v ===== *)
(** * Options (src/src/util/options.rs)

    The options of MMTk with their types, defaults and validators, how their values are read
    from text, and how they are set from the command line and from environment variables.
    [None] is the [Err] of [from_str]; the text of an error is left out.  The derived parsers of
    enumerations and the two regular expressions are code of other crates, and are parameters in
    [build], with the facts of the machine. *)

From Stdlib Require Import Ascii.
From S2P Require Import Prelude Conversions RustStd.
#[local] Open Scope string_scope.
#[local] Open Scope Z_scope.

Definition DEFAULT_STRESS_FACTOR : Z := 2 ^ 64 - 1.
Definition LOG_BYTES_IN_MBYTE : Z := 20.
Definition DEFAULT_MIN_NURSERY : Z := ushl 64 2 LOG_BYTES_IN_MBYTE.
Definition DEFAULT_MAX_NURSERY : Z := ushl 64 (ushl 64 1 20) LOG_BYTES_IN_MBYTE.
Definition DEFAULT_PROPORTIONAL_MIN_NURSERY : f64 := f64_decimal false 25 (-2).
Definition DEFAULT_PROPORTIONAL_MAX_NURSERY : f64 := f64_decimal false 1 0.

(** ** Types of options *)

Inductive NurseryZeroingOptions : Type := Temporal | Nontemporal | Concurrent | Adaptive.
Inductive PlanSelector : Type := NoGC | SemiSpace | GenCopy | GenImmix | MarkSweep | PageProtect | Immix | MarkCompact | StickyImmix | LXR.
(** Event name, process and core. *)
Definition PerfEventOptions : Type := list (string * Z * Z).
Inductive AffinityKind : Type := OsDefault | RoundRobin (cpuset : list Z).
Inductive NurserySize : Type := Bounded (min max : Z) | ProportionalBounded (min max : f64) | Fixed (size : Z).
Inductive GCTriggerSelector : Type := FixedHeapSize (size : Z) | DynamicHeapSize (min max : Z) | Delegated.

Record build : Type := {
  f_regex : bool; f_perf_counter : bool; f_work_packet_stats : bool; target_linux : bool;
  num_cpus : Z; linux_num_cpus : Z; system_total_memory : Z;
  plan_from_str : string → option PlanSelector;
  zeroing_from_str : string → option NurseryZeroingOptions;
  fixed_heap_captures : string → option string;
  dynamic_heap_captures : string → option (string * string)
}.

(** *** [PerfEventOptions] *)

Definition parse_perf_event (e : string) : option (string * Z * Z) :=
  match split "," e with
  | [event_name; pid; cpu] => pid ← parse_signed 32 pid; cpu ← parse_signed 32 cpu; Some (event_name, pid, cpu)
  | _ => None
  end.
Definition parse_perf_events (events : string) : option PerfEventOptions :=
  mapM parse_perf_event (filter (λ e, e ≠ "") (split ";" events)).

(** *** [AffinityKind] *)

(** [Vec::dedup]: equal neighbours become one. *)
Fixpoint dedup (l : list Z) : list Z :=
  match l with
  | x :: l' => match l' with y :: _ => if x =? y then dedup l' else x :: dedup l' | [] => [x] end
  | [] => []
  end.
Definition push_core (cpuset : list Z) (core : Z) : list Z := dedup (merge_sort Z.le (app cpuset [core])).
(** One item of the list: the cores with it, or [None] for an error. *)
Definition parse_cores (cpuset : list Z) (item : string) : option (list Z) :=
  if negb (contains "-" item)
  then if String.eqb item "" then None else core ← parse_unsigned 16 item; Some (push_core cpuset core)
  else match split "-" item with
  | [s; e] =>
    start ← parse_unsigned 16 s;
    end_ ← parse_unsigned 16 e;
    if end_ <=? start then None else Some (foldl push_core cpuset (seqZ start (end_ - start + 1)))
  | _ => None
  end.
Fixpoint parse_core_list (cpuset : list Z) (items : list string) : option (list Z) :=
  match items with [] => Some cpuset | item :: items => cpuset ← parse_cores cpuset item; parse_core_list cpuset items end.
Definition parse_cpulist (cpulist : string) : option AffinityKind :=
  if String.eqb cpulist "" then Some OsDefault else RoundRobin <$> parse_core_list [] (split "," cpulist).

(** *** [NurserySize] *)

Definition default_or_parse {T} (parse : string → option T) (val : string) (default_value : T) : option T :=
  if String.eqb val "_" then Some default_value else parse val.
Definition nursery_from_str (s : string) : option NurserySize :=
  match split ":" s with
  | [variant; values] =>
    let values := split "," values in
    if String.eqb variant "Bounded" then
      match values with
      | [a; b] => min ← default_or_parse (parse_unsigned 64) a DEFAULT_MIN_NURSERY; max ← default_or_parse (parse_unsigned 64) b DEFAULT_MAX_NURSERY; Some (Bounded min max)
      | _ => None
      end
    else if String.eqb variant "ProportionalBounded" then
      match values with
      | [a; b] => min ← default_or_parse parse_f64 a DEFAULT_PROPORTIONAL_MIN_NURSERY; max ← default_or_parse parse_f64 b DEFAULT_PROPORTIONAL_MAX_NURSERY; Some (ProportionalBounded min max)
      | _ => None
      end
    else if String.eqb variant "Fixed" then
      match values with [a] => Fixed <$> parse_unsigned 64 a | _ => None end
    else None
  | _ => None
  end.
Definition nursery_validate (v : NurserySize) : bool :=
  match v with
  | Bounded min max => min <=? max
  | ProportionalBounded min max => f64_lt (f64_of 0) min && f64_le min max && f64_le max (f64_of 1)
  | Fixed _ => true
  end.

(** *** [GCTriggerSelector] *)

Definition K : Z := 1024.
Definition M : Z := 1024 * K.
Definition G : Z := 1024 * M.
Definition T : Z := 1024 * G.
Definition is_alphabetic (a : ascii) : bool := let n := N_of_ascii (lowercase a) in ((97 <=? n) && (n <=? 122))%N.
(** The last character and what is before it. *)
Fixpoint unsnoc (s : string) : option (string * ascii) :=
  match s with
  | EmptyString => None
  | String a s => match unsnoc s with Some (s', c) => Some (String a s', c) | None => Some ("", a) end
  end.
Definition checked_mul (a b : Z) : option Z := if a * b <? 2 ^ 64 then Some (a * b) else None.
Definition parse_size (s : string) : option Z :=
  let s := to_lowercase s in
  match unsnoc s with
  | Some (init, c) =>
    if is_alphabetic c then
      num ← parse_unsigned 64 init;
      if bool_decide (c = "k"%char) then checked_mul num K else if bool_decide (c = "m"%char) then checked_mul num M
      else if bool_decide (c = "g"%char) then checked_mul num G else if bool_decide (c = "t"%char) then checked_mul num T
      else None
    else parse_unsigned 64 s
  | None => parse_unsigned 64 s
  end.
Definition trigger_validate (t : GCTriggerSelector) : bool :=
  match t with FixedHeapSize size => 0 <? size | DynamicHeapSize min max => min <=? max | Delegated => true end.
Definition max_heap_size (t : GCTriggerSelector) : res Z :=
  match t with FixedHeapSize s => Val s | DynamicHeapSize _ s => Val s | Delegated => Panic end.

Section options.
Context (B : build).

Definition trigger_from_str (s : string) : res (option GCTriggerSelector) :=
  if String.eqb s "" then Val None
  else if f_regex B then
    match fixed_heap_captures B s with
    | Some size => Val (FixedHeapSize <$> parse_size size)
    | None =>
      match dynamic_heap_captures B s with
      | Some (min, max) => Val (min ← parse_size min; max ← parse_size max; Some (DynamicHeapSize min max))
      | None => Val (if starts_with "Delegated" s then Some Delegated else None)
      end
    end
  else if starts_with "FixedHeapSize" s || starts_with "DynamicHeapSize" s then Panic
  else Val (if starts_with "Delegated" s then Some Delegated else None).
Definition get_total_num_cpus : res Z := if target_linux B then Val (linux_num_cpus B) else Panic.
Definition affinity_validate (v : AffinityKind) : res bool :=
  num_cpu ← get_total_num_cpus;
  Val (match v with RoundRobin cpuset => forallb (λ cpu, negb (num_cpu <=? cpu)) cpuset | OsDefault => true end).

(** ** [MMTKOption] *)

Record MMTKOption (T : Type) : Type := { value : T; validator : T → res bool; from_env_var : bool; from_command_line : bool }.
#[global] Arguments value {T}.
#[global] Arguments validator {T}.
#[global] Arguments from_env_var {T}.
#[global] Arguments from_command_line {T}.
Definition option_new {T} (v : T) (valid : T → res bool) (env command : bool) : MMTKOption T :=
  {| value := v; validator := valid; from_env_var := env; from_command_line := command |}.
Definition option_set {T} (o : MMTKOption T) (v : T) : res (bool * MMTKOption T) :=
  ok ← validator o v;
  if (ok : bool) then Val (true, {| value := v; validator := validator o; from_env_var := from_env_var o; from_command_line := from_command_line o |})
  else Val (false, o).

(** ** The options *)

Inductive key : Type :=
| plan | threads | conc_threads | use_short_stack_scans | use_return_barrier | eager_complete_sweep | ignore_system_gc | nursery
| full_heap_system_gc | no_finalizer | no_reference_types | nursery_zeroing | stress_factor | analysis_factor | precise_stress
| vm_space_start | vm_space_size | work_perf_events | phase_perf_events | perf_exclude_kernel | thread_affinity | verbose
| gc_trigger | transparent_hugepages | count_live_bytes_in_gc.
#[global] Instance key_eq_dec : EqDecision key.
Proof. solve_decision. Defined.
Definition keys : list key :=
  [plan; threads; conc_threads; use_short_stack_scans; use_return_barrier; eager_complete_sweep; ignore_system_gc; nursery;
   full_heap_system_gc; no_finalizer; no_reference_types; nursery_zeroing; stress_factor; analysis_factor; precise_stress;
   vm_space_start; vm_space_size; work_perf_events; phase_perf_events; perf_exclude_kernel; thread_affinity; verbose;
   gc_trigger; transparent_hugepages; count_live_bytes_in_gc].
Definition key_name (k : key) : string :=
  match k with
  | plan => "plan" | threads => "threads" | conc_threads => "conc_threads" | use_short_stack_scans => "use_short_stack_scans"
  | use_return_barrier => "use_return_barrier" | eager_complete_sweep => "eager_complete_sweep" | ignore_system_gc => "ignore_system_gc"
  | nursery => "nursery" | full_heap_system_gc => "full_heap_system_gc" | no_finalizer => "no_finalizer"
  | no_reference_types => "no_reference_types" | nursery_zeroing => "nursery_zeroing" | stress_factor => "stress_factor"
  | analysis_factor => "analysis_factor" | precise_stress => "precise_stress" | vm_space_start => "vm_space_start"
  | vm_space_size => "vm_space_size" | work_perf_events => "work_perf_events" | phase_perf_events => "phase_perf_events"
  | perf_exclude_kernel => "perf_exclude_kernel" | thread_affinity => "thread_affinity" | verbose => "verbose"
  | gc_trigger => "gc_trigger" | transparent_hugepages => "transparent_hugepages" | count_live_bytes_in_gc => "count_live_bytes_in_gc"
  end.
(** The arm of a [match] on the name. *)
Definition key_of (s : string) : option key := list.head (filter (λ k, key_name k = s) keys).

Definition opt_type (k : key) : Type :=
  match k with
  | plan => PlanSelector
  | threads | conc_threads | stress_factor | analysis_factor | vm_space_start | vm_space_size | verbose => Z
  | nursery => NurserySize
  | nursery_zeroing => NurseryZeroingOptions
  | work_perf_events | phase_perf_events => PerfEventOptions
  | thread_affinity => AffinityKind
  | gc_trigger => GCTriggerSelector
  | _ => bool
  end.
Definition bool_from_str (s : string) : option bool := if String.eqb s "true" then Some true else if String.eqb s "false" then Some false else None.
Definition opt_from_str (k : key) : string → res (option (opt_type k)) :=
  match k return string → res (option (opt_type k)) with
  | plan => λ s, Val (plan_from_str B s)
  | threads | conc_threads | stress_factor | analysis_factor | vm_space_start | vm_space_size | verbose => λ s, Val (parse_unsigned 64 s)
  | nursery => λ s, Val (nursery_from_str s)
  | nursery_zeroing => λ s, Val (zeroing_from_str B s)
  | work_perf_events | phase_perf_events => λ s, Val (parse_perf_events s)
  | thread_affinity => λ s, Val (parse_cpulist s)
  | gc_trigger => trigger_from_str
  | _ => λ s, Val (bool_from_str s)
  end.
Definition opt_default (k : key) : opt_type k :=
  match k return opt_type k with
  | plan => GenImmix
  | threads | conc_threads => num_cpus B
  | nursery => ProportionalBounded DEFAULT_PROPORTIONAL_MIN_NURSERY DEFAULT_PROPORTIONAL_MAX_NURSERY
  | nursery_zeroing => Temporal
  | stress_factor | analysis_factor => DEFAULT_STRESS_FACTOR
  | precise_stress => true
  | vm_space_start => 0
  | vm_space_size => 0xdc00000
  | work_perf_events | phase_perf_events => []
  | thread_affinity => OsDefault
  | verbose => 0
  | gc_trigger => FixedHeapSize (f64_to_usize (f64_mul (f64_of (system_total_memory B)) (f64_decimal false 5 (-1))))
  | _ => false
  end.
Definition opt_valid (k : key) : opt_type k → res bool :=
  match k return opt_type k → res bool with
  | threads | conc_threads | vm_space_size => λ v, Val (0 <? v)
  | nursery => λ v, Val (nursery_validate v)
  | work_perf_events => λ _, Val (f_perf_counter B && f_work_packet_stats B)
  | phase_perf_events => λ _, Val (f_perf_counter B)
  | perf_exclude_kernel => λ _, Val (f_perf_counter B)
  | thread_affinity => affinity_validate
  | verbose => λ v, Val (v <=? 10)
  | gc_trigger => λ v, Val (trigger_validate v)
  | transparent_hugepages => λ v, Val (negb v || target_linux B)
  | _ => λ _, Val true
  end.

Definition Options : Type := ∀ k, MMTKOption (opt_type k).
Definition with_option (o : Options) (k : key) (x : MMTKOption (opt_type k)) : Options := λ k',
  match decide (k = k') with left e => eq_rect k (λ k, MMTKOption (opt_type k)) x k' e | right _ => o k' end.
Definition options_new : Options := λ k, option_new (opt_default k) (opt_valid k) true true.
Definition is_stress_test_gc_enabled (o : Options) : bool :=
  negb (value (o stress_factor) =? DEFAULT_STRESS_FACTOR) || negb (value (o analysis_factor) =? DEFAULT_STRESS_FACTOR).

(** *** Setting options *)

Definition verify_set_from (o : Options) (s : string) (field : ∀ k, MMTKOption (opt_type k) → bool) : res unit :=
  match key_of s with Some k => rust_assert (field k (o k)) | None => Panic end.
Definition set_inner (o : Options) (s val : string) : res (bool * Options) :=
  match key_of s with
  | Some k =>
    r ← opt_from_str k val;
    match r with
    | Some typed_val => '(is_set, x) ← option_set (o k) typed_val; Val (is_set, with_option o k x)
    | None => Val (false, o)
    end
  | None => Panic
  end.
Definition set_from_env_var (o : Options) (s val : string) : res (bool * Options) :=
  _ ← verify_set_from o s (λ k, from_env_var); set_inner o s val.
Definition set_from_command_line (o : Options) (s val : string) : res (bool * Options) :=
  _ ← verify_set_from o s (λ k, from_command_line); set_inner o s val.
Fixpoint set_each (o : Options) (opts : list string) : res (bool * Options) :=
  match opts with
  | [] => Val (true, o)
  | opt :: opts =>
    match split "=" opt with
    | [k; val] => '(is_set, o) ← set_from_command_line o k val; if (is_set : bool) then set_each o opts else Val (false, o)
    | _ => Val (false, o)
    end
  end.
Definition set_bulk_from_command_line (o : Options) (options : string) : res (bool * Options) :=
  set_each o (split_ascii_whitespace (replace_char "," " " options)).
(** The environment is a list of names and values. *)
Definition read_env_var_settings (o : Options) (vars : list (string * string)) : res Options :=
  for_each (λ o '(k, val),
    match strip_prefix "MMTK_" k with
    | Some rest_of_key =>
      let lowercase := to_lowercase rest_of_key in
      match key_of lowercase with Some _ => '(_, o) ← set_from_env_var o lowercase val; Val o | None => Val o end
    | None => Val o
    end) vars o.
End options.
#[global] Arguments option_new {T}.
#[global] Arguments option_set {T}.
