(* ===== verification/OptionsTheorems.v ===== *)
(** * Options are read back, stay valid, and are set as they are told *)

From Stdlib Require Import Ascii.
From S2P Require Import Prelude Conversions RustStd Options.
#[local] Open Scope string_scope.
#[local] Open Scope Z_scope.

(** ** Lists of cores *)

Lemma dedup_cons x y l : dedup (x :: y :: l) = if x =? y then dedup (y :: l) else x :: dedup (y :: l).
Proof. reflexivity. Qed.
Lemma dedup_elem l c : c ∈ dedup l ↔ c ∈ l.
Proof.
  induction l as [|x l IH]; [done|]. destruct l as [|y l]; [done|]. rewrite dedup_cons. destruct (Z.eqb_spec x y) as [-> |]; rewrite ?elem_of_cons, IH, ?elem_of_cons; naive_solver.
Qed.
Lemma dedup_sorted l : StronglySorted Z.le l → StronglySorted Z.lt (dedup l).
Proof.
  induction l as [|x l IH]; [constructor|]. intros Hs. inversion_clear Hs as [|? ? Hl Hx]. specialize (IH Hl). destruct l as [|y l]; [by repeat constructor|].
  rewrite dedup_cons. destruct (Z.eqb_spec x y) as [-> |Hne]; [done|]. constructor; [done|]. rewrite Forall_forall in Hx |- *. intros z Hz. rewrite dedup_elem in Hz.
  assert (x ≤ y) by (apply Hx; constructor). inversion_clear Hl as [|? ? _ Hy]. rewrite Forall_forall in Hy. apply elem_of_cons in Hz as [-> |Hz]; [lia|]. specialize (Hy z Hz). lia.
Qed.
Lemma push_core_elem l c x : x ∈ push_core l c ↔ x = c ∨ x ∈ l.
Proof. unfold push_core. rewrite dedup_elem, merge_sort_Permutation, elem_of_app, list_elem_of_singleton. tauto. Qed.
Lemma push_core_sorted l c : StronglySorted Z.lt (push_core l c).
Proof. apply dedup_sorted, (StronglySorted_merge_sort Z.le). Qed.
Lemma push_cores_elem cs l x : x ∈ foldl push_core l cs ↔ x ∈ cs ∨ x ∈ l.
Proof. revert l. induction cs as [|c cs IH]; intros l; cbn; [set_solver|]. rewrite IH, push_core_elem. set_solver. Qed.
Lemma push_cores_sorted cs l : StronglySorted Z.lt l → StronglySorted Z.lt (foldl push_core l cs).
Proof. revert l. induction cs as [|c cs IH]; intros l Hl; cbn; [done|]. apply IH, push_core_sorted. Qed.

(** The cores an item names. *)
Definition cores_of (item : string) : option (list Z) :=
  match split "-" item with
  | [c] => (λ core, [core]) <$> parse_unsigned 16 c
  | [s; e] => a ← parse_unsigned 16 s; b ← parse_unsigned 16 e; if a <? b then Some (seqZ a (b - a + 1)) else None
  | _ => None
  end.
Lemma parse_cores_of l item : parse_cores l item = foldl push_core l <$> cores_of item.
Proof.
  unfold parse_cores, cores_of. destruct (contains "-" item) eqn:Ec; cbn [negb].
  - destruct (split "-" item) as [|s [|e [|]]] eqn:Es; try done.
    + exfalso. pose proof (split_no_sep "-" item) as Hns. pose proof (str_join_split "-" item) as Hj. rewrite Es in Hj, Hns. cbn in Hj. subst s. inversion_clear Hns. congruence.
    + destruct (parse_unsigned 16 s) as [a|]; [|done]. cbn. destruct (parse_unsigned 16 e) as [b|]; [|done]. cbn. destruct (Z.leb_spec b a), (Z.ltb_spec a b); (done || lia).
  - rewrite split_none by done. destruct (String.eqb_spec item "") as [-> |]; [done|]. by destruct (parse_unsigned 16 item).
Qed.
Lemma cores_of_range item cs c : cores_of item = Some cs → c ∈ cs → 0 ≤ c < 2 ^ 16.
Proof.
  unfold cores_of. destruct (split "-" item) as [|s [|e [|]]]; try done.
  - destruct (parse_unsigned 16 s) as [a|] eqn:Ea; [|done]. intros [= <-] ->%list_elem_of_singleton. by apply parse_unsigned_range in Ea.
  - destruct (parse_unsigned 16 s) as [a|] eqn:Ea; [|done]. cbn. destruct (parse_unsigned 16 e) as [b|] eqn:Eb; [|done]. cbn. destruct (a <? b); [|done]. intros [= <-] Hc%elem_of_seqZ.
    apply parse_unsigned_range in Ea, Eb; lia.
Qed.
(** What a list of items gives, when [l] was given before. *)
Definition cores_result (l : list Z) (items : list string) (r : option (list Z)) : Prop :=
  match r with
  | Some l' => StronglySorted Z.lt l' ∧ Forall (λ item, is_Some (cores_of item)) items ∧
    ∀ c, c ∈ l' ↔ c ∈ l ∨ ∃ item cs, item ∈ items ∧ cores_of item = Some cs ∧ c ∈ cs
  | None => ∃ item, item ∈ items ∧ cores_of item = None
  end.
Lemma parse_core_list_ok items l : StronglySorted Z.lt l → cores_result l items (parse_core_list l items).
Proof.
  revert l. induction items as [|item items IH]; intros l Hl; cbn [parse_core_list].
  { split; [done|]. split; [constructor|]. intros c. split; [by left|]. intros [|(? & ? & Hn & _)]; [done|]. by apply not_elem_of_nil in Hn. }
  rewrite parse_cores_of. destruct (cores_of item) as [cs|] eqn:Ec; cbn; [|exists item; split; [constructor|done]].
  specialize (IH (foldl push_core l cs) (push_cores_sorted cs l Hl)). destruct (parse_core_list (foldl push_core l cs) items) as [l'|]; cbn in IH |- *.
  - destruct IH as (Hs & Hi & He). split; [done|]. split; [by constructor|]. intros c. rewrite He, push_cores_elem. split.
    + intros [[Hc|Hc]|(i & cs' & Hin & Hcs & Hc)]; [right; exists item, cs; split; [constructor|done]|by left|right; exists i, cs'; split; [by constructor|done]].
    + intros [Hc|(i & cs' & [-> |Hin]%elem_of_cons & Hcs & Hc)]; [by left; right|left; left; by simplify_eq|right; by exists i, cs'].
  - destruct IH as (i & Hin & Hi). exists i. split; [by constructor|done].
Qed.

(** C38: lists of cores.  A text that is not empty is read as the cores its items name, in order
    and each once; it is an error exactly if one of its items is not a core or a range of
    cores. *)
Theorem cpulist_exact (s : string) : s ≠ "" →
  match parse_cpulist s with
  | Some (RoundRobin l) => StronglySorted Z.lt l ∧ Forall (λ c, 0 ≤ c < 2 ^ 16) l ∧ Forall (λ item, is_Some (cores_of item)) (split "," s) ∧
    ∀ c, c ∈ l ↔ ∃ item cs, item ∈ split "," s ∧ cores_of item = Some cs ∧ c ∈ cs
  | Some OsDefault => False
  | None => ∃ item, item ∈ split "," s ∧ cores_of item = None
  end.
Proof.
  intros Hs. unfold parse_cpulist. destruct (String.eqb_spec s "") as [|_]; [done|]. pose proof (parse_core_list_ok (split "," s) [] ltac:(constructor)) as Hr.
  destruct (parse_core_list [] (split "," s)) as [l|]; cbn in Hr |- *; [|done]. destruct Hr as (Hso & Hi & He).
  assert (∀ c, c ∈ l ↔ ∃ item cs, item ∈ split "," s ∧ cores_of item = Some cs ∧ c ∈ cs) as He'.
  { intros c. rewrite He. split; [intros [Hn|]; [by apply not_elem_of_nil in Hn|done]|by right]. }
  split; [done|]. split; [|done]. apply Forall_forall. intros c (item & cs & _ & Hcs & Hc)%He'. by eapply cores_of_range.
Qed.
Lemma cpulist_exact_witness : ∃ l, parse_cpulist "0,5,8-11" = Some (RoundRobin l) ∧ StronglySorted Z.lt l ∧ l = [0; 5; 8; 9; 10; 11].
Proof. pose proof (cpulist_exact "0,5,8-11" ltac:(done)) as Hc. exists [0; 5; 8; 9; 10; 11]. split; [by vm_compute|]. split; [|done]. exact (proj1 Hc). Defined.

(** ** The options *)

Lemma with_option_eq o k x : with_option o k x k = x.
Proof. unfold with_option. destruct (decide (k = k)) as [e|]; [|done]. by rewrite (proof_irrel e eq_refl). Qed.
Lemma with_option_ne o k x k' : k' ≠ k → with_option o k x k' = o k'.
Proof. intros Hne. unfold with_option. destruct (decide (k = k')) as [e|]; [by destruct Hne|done]. Qed.
Lemma key_of_name k : key_of (key_name k) = Some k.
Proof. by destruct k. Qed.
Lemma key_of_inv s k : key_of s = Some k → s = key_name k.
Proof.
  unfold key_of. intros Hh. destruct (filter (λ k, key_name k = s) keys) as [|k' l] eqn:Ef; [done|]. injection Hh as ->. assert (k ∈ filter (λ k, key_name k = s) keys) as Hk by (rewrite Ef; constructor).
  by apply list_elem_of_filter in Hk as [<- _].
Qed.

(** Values of the width of their type; cores in order, each once. *)
Definition is_usize (v : Z) : Prop := 0 ≤ v < 2 ^ 64.
Definition nursery_typed (v : NurserySize) : Prop := match v with Bounded a b => is_usize a ∧ is_usize b | ProportionalBounded _ _ => True | Fixed a => is_usize a end.
Definition trigger_typed (v : GCTriggerSelector) : Prop := match v with FixedHeapSize a => is_usize a | DynamicHeapSize a b => is_usize a ∧ is_usize b | Delegated => True end.
Definition affinity_typed (v : AffinityKind) : Prop := match v with RoundRobin l => StronglySorted Z.lt l ∧ Forall (λ c, 0 ≤ c < 2 ^ 16) l | OsDefault => True end.
Definition perf_typed (v : PerfEventOptions) : Prop := Forall (λ e, - 2 ^ 31 ≤ e.1.2 < 2 ^ 31 ∧ - 2 ^ 31 ≤ e.2 < 2 ^ 31) v.
Definition opt_typed (k : key) : opt_type k → Prop :=
  match k return opt_type k → Prop with
  | threads | conc_threads | stress_factor | analysis_factor | vm_space_start | vm_space_size | verbose => is_usize
  | nursery => nursery_typed
  | work_perf_events | phase_perf_events => perf_typed
  | thread_affinity => affinity_typed
  | gc_trigger => trigger_typed
  | _ => λ _, True
  end.

Lemma parse_size_range s n : parse_size s = Some n → is_usize n.
Proof.
  assert (∀ t m, parse_unsigned 64 t = Some m → is_usize m) as Hp by (intros t m Hm; by apply parse_unsigned_range in Hm).
  assert (∀ a b, 0 ≤ a → 0 ≤ b → checked_mul a b = Some n → is_usize n) as Hmul.
  { intros a b Ha Hb. unfold checked_mul, is_usize. destruct (Z.ltb_spec (a * b) (2 ^ 64)); [|done]. intros [= <-]. split; [by apply Z.mul_nonneg_nonneg|done]. }
  unfold parse_size. destruct (unsnoc (to_lowercase s)) as [[init c]|]; [|by apply Hp]. destruct (is_alphabetic c); [|by apply Hp].
  destruct (parse_unsigned 64 init) as [m|] eqn:Em; [|done]. apply Hp in Em. unfold is_usize in Em. cbn [mbind option_bind]. change K with 1024. change M with 1048576. change G with 1073741824. change T with 1099511627776.
  repeat case_bool_decide; try done; apply Hmul; lia.
Qed.
Lemma parse_cpulist_typed s v : parse_cpulist s = Some v → affinity_typed v.
Proof.
  unfold parse_cpulist. destruct (String.eqb s ""); [by intros [= <-]|]. pose proof (parse_core_list_ok (split "," s) [] ltac:(constructor)) as Hr.
  destruct (parse_core_list [] (split "," s)) as [l|]; [|done]. intros [= <-]. destruct Hr as (Hso & _ & He). split; [done|]. apply Forall_forall. intros c Hc.
  apply He in Hc as [Hn|(item & cs & _ & Hcs & Hc)]; [by apply not_elem_of_nil in Hn|]. by eapply cores_of_range.
Qed.
Lemma parse_perf_typed s v : parse_perf_events s = Some v → perf_typed v.
Proof.
  unfold parse_perf_events. intros Hm%mapM_Some. unfold perf_typed. induction Hm as [|e ev es evs He Hm IH]; constructor; [|done].
  unfold parse_perf_event in He. destruct (split "," e) as [|a [|b [|c []]]]; try done. destruct (parse_signed 32 b) as [pid|] eqn:Ep; [|done]. destruct (parse_signed 32 c) as [cpu|] eqn:Ec; [|done].
  injection He as <-. apply parse_signed_range in Ep; [|lia]. apply parse_signed_range in Ec; [|lia]. done.
Qed.
Lemma nursery_from_str_typed s v : nursery_from_str s = Some v → nursery_typed v.
Proof.
  assert (∀ t m, parse_unsigned 64 t = Some m → is_usize m) as Hp by (intros t m Hm; by apply parse_unsigned_range in Hm).
  assert (∀ d a m, is_usize d → default_or_parse (parse_unsigned 64) a d = Some m → is_usize m) as Hd.
  { intros d a m Hu. unfold default_or_parse. destruct (String.eqb a "_"); [by intros [= <-]|apply Hp]. }
  unfold nursery_from_str. destruct (split ":" s) as [|variant [|values []]]; try done. destruct (String.eqb variant "Bounded").
  - destruct (split "," values) as [|a [|b []]]; try done. intros (m & Em & (m' & Em' & [= <-])%bind_Some)%bind_Some. split; [apply (Hd DEFAULT_MIN_NURSERY a)|apply (Hd DEFAULT_MAX_NURSERY b)]; (done || by vm_compute).
  - destruct (String.eqb variant "ProportionalBounded").
    + destruct (split "," values) as [|a [|b []]]; try done. by intros (m & Em & (m' & Em' & [= <-])%bind_Some)%bind_Some.
    + destruct (String.eqb variant "Fixed"); [|done]. destruct (split "," values) as [|a []]; try done. intros (m & Em & ->)%fmap_Some. by eapply Hp.
Qed.

Section options.
Context (B : build).

Lemma from_str_typed k s v : opt_from_str B k s = Val (Some v) → opt_typed k v.
Proof.
  assert (∀ t m, Val (parse_unsigned 64 t) = Val (Some m) → is_usize m) as Hp by (intros t m [= Hm]; by apply parse_unsigned_range in Hm).
  destruct k; cbn [opt_from_str opt_typed]; try done; try (by apply Hp).
  - intros [= Hv]. by eapply nursery_from_str_typed.
  - intros [= Hv]. by eapply parse_perf_typed.
  - intros [= Hv]. by eapply parse_perf_typed.
  - intros [= Hv]. by eapply parse_cpulist_typed.
  - unfold trigger_from_str. destruct (String.eqb s ""); [done|]. destruct (f_regex B).
    + destruct (fixed_heap_captures B s) as [size|].
      { intros [= (m & Em & ->)%fmap_Some]. by eapply parse_size_range. }
      destruct (dynamic_heap_captures B s) as [[a b]|]; [|by case_match; intros [= <-]]. intros [= (m & Em & (m' & Em' & [= <-])%bind_Some)%bind_Some].
      split; by eapply parse_size_range.
    + case_match; [done|]. by case_match; intros [= <-].
Qed.

Record options_ok (o : Options) : Prop := {
  ok_flags k : validator (o k) = opt_valid B k ∧ from_env_var (o k) = true ∧ from_command_line (o k) = true;
  ok_typed k : opt_typed k (value (o k));
  ok_value k : value (o k) = opt_default B k ∨ opt_valid B k (value (o k)) = Val true
}.
(** The number of cores is a size. *)
Definition build_ok : Prop := is_usize (num_cpus B).
(** What the build does not implement: the affinity of threads is validated only on Linux, and
    sizes of the heap are parsed only with the feature [regex]. *)
Definition checks_supported (k : key) : bool := match k with thread_affinity => target_linux B | _ => true end.
Definition parse_supported (k : key) (val : string) : bool :=
  match k with gc_trigger => f_regex B || negb (starts_with "FixedHeapSize" val || starts_with "DynamicHeapSize" val) | _ => true end.
Definition text_supported (k : key) (val : string) : Prop := checks_supported k = true ∧ parse_supported k val = true.

Lemma from_str_returns k s : parse_supported k s = true → ∃ r, opt_from_str B k s = Val r.
Proof.
  destruct k; cbn [opt_from_str parse_supported]; try (by eexists). unfold trigger_from_str. intros Hs. destruct (String.eqb s ""); [by eexists|].
  destruct (f_regex B); cbn [orb] in Hs; [|apply negb_true_iff in Hs as ->]; repeat case_match; by eexists.
Qed.
Lemma valid_returns k v : checks_supported k = true → ∃ b, opt_valid B k v = Val b.
Proof. destruct k; cbn [opt_valid checks_supported]; try (by eexists). unfold affinity_validate, get_total_num_cpus. intros ->. by eexists. Qed.
Lemma options_new_ok : build_ok → options_ok (options_new B).
Proof.
  intros HB. split; [done| |by left]. intros k. destruct k; cbn [options_new option_new value opt_default opt_typed]; try done; try (by apply HB).
  - constructor.
  - constructor.
  - apply f64_to_usize_range.
Qed.

(** What setting the option [k] from the text [val] does. *)
Record setting (o : Options) (k : key) (val : string) (out : bool * Options) : Prop := {
  se_ok : options_ok out.2;
  se_other k' : k' ≠ k → out.2 k' = o k';
  se_true : out.1 = true → ∃ v, opt_from_str B k val = Val (Some v) ∧ opt_valid B k v = Val true ∧ value (out.2 k) = v;
  se_false : out.1 = false → out.2 k = o k ∧ ∀ v, opt_from_str B k val = Val (Some v) → opt_valid B k v = Val false
}.
Lemma option_set_ok o k v : options_ok o → opt_typed k v → checks_supported k = true →
  wp (option_set (o k) v) (λ out, options_ok (with_option o k out.2) ∧ opt_valid B k v = Val out.1 ∧ if out.1 then value out.2 = v else out.2 = o k).
Proof.
  intros Ho Hv Hk. destruct (ok_flags _ Ho k) as (Ev & Ee & Ec). unfold option_set. rewrite Ev. destruct (valid_returns k v Hk) as [[] Eb]; rewrite Eb; cbn.
  - split; [|done]. split; intros k'; (destruct (decide (k' = k)) as [-> |Hne]; [rewrite with_option_eq; cbn|rewrite with_option_ne by done; by apply Ho]); [done|done|by right].
  - split; [|done]. split; intros k'; (destruct (decide (k' = k)) as [-> |Hne]; [rewrite with_option_eq|rewrite with_option_ne by done]); by apply Ho.
Qed.
Lemma set_inner_ok o s k val : options_ok o → key_of s = Some k → text_supported k val → wp (set_inner B o s val) (setting o k val).
Proof.
  intros Ho Hk [Hc Hp]. unfold set_inner. rewrite Hk. destruct (from_str_returns k val Hp) as [[v|] Er]; rewrite Er; cbn [mbind res_bind].
  - apply wp_bind. eapply wp_mono; [apply (option_set_ok o k v Ho); [by eapply from_str_typed|done]|]. intros [b x] (Hx & Hb & Hxv). cbn in *. split; cbn [fst snd].
    + done.
    + intros k' Hne. by rewrite with_option_ne.
    + intros ->. exists v. by rewrite with_option_eq.
    + intros ->. rewrite with_option_eq. split; [done|]. intros v' Ev'. rewrite Er in Ev'. by injection Ev' as <-.
  - cbn. split; cbn; try done. intros _. split; [done|]. intros v Ev. by rewrite Er in Ev.
Qed.
Lemma set_from_ok o s k val : options_ok o → key_of s = Some k → text_supported k val → wp (set_from_command_line B o s val) (setting o k val) ∧ wp (set_from_env_var B o s val) (setting o k val).
Proof.
  intros Ho Hk Ht. unfold set_from_command_line, set_from_env_var, verify_set_from. rewrite Hk. destruct (ok_flags _ Ho k) as (_ & -> & ->). cbn. split; by apply set_inner_ok.
Qed.

(** ** Calls *)

Inductive opt_call : Type :=
| CEnv (s val : string)
| CCommand (s val : string)
| CBulk (s : string)
| CReadEnv (vars : list (string * string))
| CSet (k : key) (v : opt_type k).
Definition do_opt_call (o : Options) (c : opt_call) : res Options :=
  match c with
  | CEnv s val => snd <$> set_from_env_var B o s val
  | CCommand s val => snd <$> set_from_command_line B o s val
  | CBulk s => snd <$> set_bulk_from_command_line B o s
  | CReadEnv vars => read_env_var_settings B o vars
  | CSet k v => '(_, x) ← option_set (o k) v; Val (with_option o k x)
  end.
(** Keys are names of options, and the build supports what is set; a value that is set directly
    has the width of its type. *)
Definition text_ok (s val : string) : Prop := ∃ k, key_of s = Some k ∧ text_supported k val.
Definition opt_call_ok (c : opt_call) : Prop :=
  match c with
  | CEnv s val | CCommand s val => text_ok s val
  | CBulk s => ∀ opt k val, opt ∈ split_ascii_whitespace (replace_char "," " " s) → split "=" opt = [k; val] → text_ok k val
  | CReadEnv vars => ∀ name rest k val, (name, val) ∈ vars → strip_prefix "MMTK_" name = Some rest → key_of (to_lowercase rest) = Some k → text_supported k val
  | CSet k v => opt_typed k v ∧ checks_supported k = true
  end.
Lemma set_each_ok opts o : options_ok o → (∀ opt k val, opt ∈ opts → split "=" opt = [k; val] → text_ok k val) →
  wp (set_each B o opts) (λ out, options_ok out.2).
Proof.
  intros Ho Hk. revert o Ho. induction opts as [|opt opts IH]; intros o Ho; cbn [set_each]; [done|]. destruct (split "=" opt) as [|k [|val []]] eqn:Es; try done.
  destruct (Hk opt k val ltac:(constructor) Es) as (key & Ekey & Hsup). apply wp_bind. eapply wp_mono; [by apply (set_from_ok o k key val Ho Ekey)|].
  intros [[] o'] Hset; [|by apply (se_ok _ _ _ _ Hset)]. apply IH; [|by apply (se_ok _ _ _ _ Hset)]. intros opt' k' val' Hin. apply Hk. by constructor.
Qed.
Lemma read_env_ok vars o : options_ok o → opt_call_ok (CReadEnv vars) → wp (read_env_var_settings B o vars) options_ok.
Proof.
  intros Ho Hvars. apply (wp_for_each _ (λ _, options_ok)); [done|]. intros l1 [k val] l2 o1 El Ho1. destruct (strip_prefix "MMTK_" k) as [rest|] eqn:Er; [|done].
  cbv zeta. destruct (key_of (to_lowercase rest)) as [key|] eqn:Ek; [|done]. apply wp_bind. eapply wp_mono; [apply (set_from_ok o1 _ key val Ho1 Ek); apply (Hvars k rest); [rewrite El; set_solver|done..]|]. intros [b o2] Hset. apply (se_ok _ _ _ _ Hset).
Qed.
Lemma wp_fmap {A C} (f : A → C) (m : res A) (Q : C → Prop) : wp m (λ a, Q (f a)) → wp (f <$> m) Q.
Proof. by destruct m. Qed.
Lemma opt_call_preserves o c : options_ok o → opt_call_ok c → wp (do_opt_call o c) options_ok.
Proof.
  intros Ho Hc. destruct c as [s val|s val|s|vars|k v]; cbn [do_opt_call opt_call_ok] in *.
  - destruct Hc as (k & Hk & Ht). apply wp_fmap. eapply wp_mono; [by apply (set_from_ok o s k val Ho Hk)|]. intros out Hs. apply (se_ok _ _ _ _ Hs).
  - destruct Hc as (k & Hk & Ht). apply wp_fmap. eapply wp_mono; [by apply (set_from_ok o s k val Ho Hk)|]. intros out Hs. apply (se_ok _ _ _ _ Hs).
  - apply wp_fmap. by apply set_each_ok.
  - by apply read_env_ok.
  - destruct Hc as [Hv Hk]. apply wp_bind. eapply wp_mono; [by apply option_set_ok|]. intros [b x] (Hx & _). done.
Qed.
(** What the build does not support panics. *)
Lemma unsupported_panics o k val : options_ok o →
  parse_supported k val = false ∨ checks_supported k = false ∧ (∃ v, opt_from_str B k val = Val (Some v)) → do_opt_call o (CCommand (key_name k) val) = Panic.
Proof.
  intros Ho Hu. cbn [do_opt_call]. unfold set_from_command_line, verify_set_from, set_inner. rewrite key_of_name. destruct (ok_flags _ Ho k) as (Ev & _ & ->). cbn [rust_assert mbind res_bind].
  destruct Hu as [Hp|[Hk [v Er]]].
  - destruct k; try done. cbn [parse_supported opt_from_str] in *. apply orb_false_iff in Hp as [Hr Hp]. apply negb_false_iff in Hp. unfold trigger_from_str. rewrite Hr, Hp.
    destruct (String.eqb_spec val "") as [-> |]; [|done]. by vm_compute in Hp.
  - rewrite Er. destruct k; try done. cbn [checks_supported] in Hk. cbn [mbind res_bind]. unfold option_set. rewrite Ev. cbn [opt_valid]. unfold affinity_validate, get_total_num_cpus. by rewrite Hk.
Qed.
End options.

(** C36: options stay well-typed and valid.  Whatever is set from the command line, in bulk, from
    the environment or directly, no call panics if its keys are names of options and the build
    supports the setting: [thread_affinity] only on Linux, and sizes of the heap in [gc_trigger]
    only with the feature [regex].  Every value has the width of its type and either is the
    default or was accepted by the validator of the option.  A [gc_trigger] with a size panics in
    a build without [regex], and setting [thread_affinity] to what parses panics elsewhere than
    on Linux. *)
Theorem options_stay_valid (B : build) (calls : list opt_call) : build_ok B → Forall (opt_call_ok B) calls →
  ∃ o, for_each (do_opt_call B) calls (options_new B) = Val o ∧ options_ok B o ∧
    ∀ k val, (parse_supported B k val = false ∨ checks_supported B k = false ∧ (∃ v, opt_from_str B k val = Val (Some v))) → do_opt_call B o (CCommand (key_name k) val) = Panic.
Proof.
  intros HB Hc. rewrite Forall_forall in Hc. destruct (wp_elim _ _ (wp_for_each (do_opt_call B) (λ _, options_ok B) calls (options_new B) (options_new_ok B HB)
    ltac:(intros l1 c l2 o -> Ho; apply opt_call_preserves; [done|]; apply Hc; set_solver))) as (o & E & Ho).
  exists o. split; [done|]. split; [done|]. intros k val. by apply unsupported_panics.
Qed.
