(* ===== verification/OptionsShow.v ===== *)
(** * Values of options that are printed and read back *)

From Stdlib Require Import Ascii.
From S2P Require Import Prelude Conversions RustStd Options OptionsTheorems.
#[local] Open Scope string_scope.
#[local] Open Scope Z_scope.

(** ** Sizes *)

Lemma is_digits_cons a s : is_digits (String a s) → (∃ d, digit a = Some d) ∧ is_digits s.
Proof.
  intros Hd. split.
  - destruct (digit a) as [d|] eqn:Ea; [by exists d|]. specialize (Hd a Ea). cbn in Hd. by rewrite bool_decide_true in Hd.
  - intros c Hc. specialize (Hd c Hc). cbn in Hd. by apply orb_false_iff in Hd as [_ ?].
Qed.
Lemma show_digits_ok n : 0 ≤ n → is_digits (show n).
Proof. intros Hn. by apply show_is_digits. Qed.
Lemma digit_code a d : digit a = Some d → Z.of_N (N_of_ascii a) = 48 + d ∧ 0 ≤ d ≤ 9.
Proof.
  unfold digit. destruct (Z.leb_spec 48 (Z.of_N (N_of_ascii a))), (Z.leb_spec (Z.of_N (N_of_ascii a)) 57); cbn; try done. intros [= <-]. lia.
Qed.
Lemma digit_lowercase a d : digit a = Some d → lowercase a = a.
Proof.
  intros [Ha Hd]%digit_code. unfold lowercase. destruct (N.leb_spec 65 (N_of_ascii a)); [lia|done].
Qed.
Lemma digit_not_letter a d : digit a = Some d → is_alphabetic a = false.
Proof.
  intros Ha. unfold is_alphabetic. rewrite (digit_lowercase a d Ha). apply digit_code in Ha as [Ha Hd]. destruct (N.leb_spec 97 (N_of_ascii a)); [lia|done].
Qed.
Lemma lowercase_digits s : is_digits s → to_lowercase s = s.
Proof.
  induction s as [|a s IH]; [done|]. intros [[d Ha] Hs]%is_digits_cons. cbn. by rewrite (digit_lowercase a d Ha), IH.
Qed.
Lemma lowercase_app s t : to_lowercase (s +:+ t) = to_lowercase s +:+ to_lowercase t.
Proof. induction s as [|a s IH]; [done|]. rewrite str_app_cons. cbn. by rewrite IH. Qed.
Lemma unsnoc_app s c : unsnoc (s +:+ String c "") = Some (s, c).
Proof. induction s as [|a s IH]; [done|]. rewrite str_app_cons. cbn. by rewrite IH. Qed.
Lemma unsnoc_digits s : is_digits s → match unsnoc s with Some (_, c) => is_alphabetic c = false | None => True end.
Proof.
  induction s as [|a s IH]; [done|]. intros [[d Ha] Hs]%is_digits_cons. cbn. specialize (IH Hs). destruct (unsnoc s) as [[s' c]|]; [done|]. by eapply digit_not_letter.
Qed.
Lemma parse_size_show n : is_usize n → parse_size (show n) = Some n.
Proof.
  intros Hn. pose proof (show_digits_ok n ltac:(apply Hn)) as Hd. unfold parse_size. rewrite lowercase_digits by done. pose proof (unsnoc_digits _ Hd) as Hu.
  assert (parse_unsigned 64 (show n) = Some n) as Hp by (apply parse_unsigned_show; [lia|done]). destruct (unsnoc (show n)) as [[s c]|]; [by rewrite Hu|done].
Qed.

(** The unit that a letter stands for. *)
Definition unit_of (c : ascii) : option Z :=
  if bool_decide (c = "k"%char ∨ c = "K"%char) then Some (2 ^ 10) else if bool_decide (c = "m"%char ∨ c = "M"%char) then Some (2 ^ 20)
  else if bool_decide (c = "g"%char ∨ c = "G"%char) then Some (2 ^ 30) else if bool_decide (c = "t"%char ∨ c = "T"%char) then Some (2 ^ 40) else None.

Lemma unit_lowercase c : unit_of c =
  if bool_decide (lowercase c = "k"%char) then Some K else if bool_decide (lowercase c = "m"%char) then Some M
  else if bool_decide (lowercase c = "g"%char) then Some G else if bool_decide (lowercase c = "t"%char) then Some T else None.
Proof. destruct c as [[] [] [] [] [] [] [] []]; reflexivity. Qed.
Lemma alphabetic_lowercase c : is_alphabetic (lowercase c) = is_alphabetic c.
Proof. destruct c as [[] [] [] [] [] [] [] []]; reflexivity. Qed.

(** C39: sizes.  A number is read as that many bytes; with the letter of a unit after it, in
    either case, as that many units, and as an error if this does not fit 64 bits; with any
    other letter as an error. *)
Theorem parse_size_units (n : Z) (c : ascii) : is_usize n → is_alphabetic c = true →
  parse_size (show n) = Some n ∧
  parse_size (show n +:+ String c "") = (u ← unit_of c; if n * u <? 2 ^ 64 then Some (n * u) else None).
Proof.
  intros Hn Hc. split; [by apply parse_size_show|]. unfold parse_size. rewrite lowercase_app, (lowercase_digits (show n)) by (apply show_digits_ok; apply Hn).
  cbn [to_lowercase]. rewrite unsnoc_app, alphabetic_lowercase, Hc. rewrite parse_unsigned_show by (lia || done). cbn [mbind option_bind]. rewrite unit_lowercase. unfold checked_mul.
  repeat case_bool_decide; reflexivity.
Qed.
Lemma parse_size_units_witness :
  parse_size (show 3) = Some 3 ∧ parse_size (show 3 +:+ String "G" "") = (u ← unit_of "G"; if 3 * u <? 2 ^ 64 then Some (3 * u) else None).
Proof. apply parse_size_units; [by vm_compute|by vm_compute]. Defined.

(** ** Printing values *)

Definition plan_name (p : PlanSelector) : string :=
  match p with
  | NoGC => "NoGC" | SemiSpace => "SemiSpace" | GenCopy => "GenCopy" | GenImmix => "GenImmix" | MarkSweep => "MarkSweep" | PageProtect => "PageProtect"
  | Immix => "Immix" | MarkCompact => "MarkCompact" | StickyImmix => "StickyImmix" | LXR => "LXR"
  end.
Definition zeroing_name (z : NurseryZeroingOptions) : string :=
  match z with Temporal => "Temporal" | Nontemporal => "Nontemporal" | Concurrent => "Concurrent" | Adaptive => "Adaptive" end.
Definition show_bool (b : bool) : string := if b then "true" else "false".
Definition show_nursery (v : NurserySize) : string :=
  match v with
  | Bounded a b => "Bounded:" +:+ (show a +:+ String "," (show b))
  | ProportionalBounded _ _ => ""
  | Fixed a => "Fixed:" +:+ show a
  end.
Definition show_trigger (v : GCTriggerSelector) : string :=
  match v with
  | FixedHeapSize a => "FixedHeapSize:" +:+ show a
  | DynamicHeapSize a b => "DynamicHeapSize:" +:+ (show a +:+ String "," (show b))
  | Delegated => "Delegated"
  end.
Definition show_affinity (v : AffinityKind) : string := match v with OsDefault => "" | RoundRobin l => join "," (show <$> l) end.
Definition show_event (e : string * Z * Z) : string := join "," [e.1.1; show_signed e.1.2; show_signed e.2].
Definition show_perf (v : PerfEventOptions) : string := join ";" (show_event <$> v).
Definition show_opt (k : key) : opt_type k → string :=
  match k return opt_type k → string with
  | plan => plan_name
  | threads | conc_threads | stress_factor | analysis_factor | vm_space_start | vm_space_size | verbose => show
  | nursery => show_nursery
  | nursery_zeroing => zeroing_name
  | work_perf_events | phase_perf_events => show_perf
  | thread_affinity => show_affinity
  | gc_trigger => show_trigger
  | _ => show_bool
  end.
(** Values that have a text: not a pair of floating-point numbers, not an empty list of cores,
    no event whose name has a separator. *)
Definition printable (k : key) : opt_type k → Prop :=
  match k return opt_type k → Prop with
  | nursery => λ v, match v with ProportionalBounded _ _ => False | _ => True end
  | work_perf_events | phase_perf_events => Forall (λ e, contains "," e.1.1 = false ∧ contains ";" e.1.1 = false)
  | thread_affinity => λ v, v ≠ RoundRobin []
  | _ => λ _, True
  end.

(** What the crates promise: a derived parser reads the name of a variant, and the expressions
    capture what their patterns say. *)
Definition size_text (s : string) : Prop :=
  ∃ ds suffix, s = ds +:+ suffix ∧ ds ≠ "" ∧ is_digits ds ∧ (suffix = "" ∨ ∃ c, suffix = String c "" ∧ is_Some (unit_of c)).
Record crates_ok (B : build) : Prop := {
  co_plan p : plan_from_str B (plan_name p) = Some p;
  co_zeroing z : zeroing_from_str B (zeroing_name z) = Some z;
  co_fixed s size : fixed_heap_captures B s = Some size ↔ s = "FixedHeapSize:" +:+ size ∧ size_text size;
  co_dynamic s min max : dynamic_heap_captures B s = Some (min, max) ↔ s = "DynamicHeapSize:" +:+ (min +:+ String "," max) ∧ size_text min ∧ size_text max
}.

Lemma show_size_text n : 0 ≤ n → size_text (show n).
Proof.
  intros Hn. exists (show n), "". split; [|split; [|split; [by apply show_digits_ok|by left]]].
  - generalize (show n). intros s. induction s as [|a s IH]; [done|]. by rewrite str_app_cons, <-IH.
  - destruct (show_cons n) as (d & s & -> & _). done.
Qed.
Lemma show_no c n : 0 ≤ n → digit c = None → contains c (show n) = false.
Proof. intros Hn. by apply show_digits_ok. Qed.
Lemma show_signed_no c n : c ≠ "-"%char → digit c = None → contains c (show_signed n) = false.
Proof.
  intros Hc Hd. unfold show_signed. destruct (Z.ltb_spec n 0); [|by apply show_no; [lia|]]. cbn. rewrite bool_decide_false by done. apply show_no; [lia|done].
Qed.
Lemma cores_of_show c : 0 ≤ c < 2 ^ 16 → cores_of (show c) = Some [c].
Proof. intros Hc. unfold cores_of. rewrite split_none by (by apply show_no; [lia|]). by rewrite parse_unsigned_show by lia. Qed.

Lemma sorted_lt_nodup l : StronglySorted Z.lt l → NoDup l.
Proof.
  induction 1 as [|x l Hs IH Hx]; constructor; [|done]. intros Hin. rewrite Forall_forall in Hx. specialize (Hx x Hin). lia.
Qed.
Lemma sorted_unique (l1 l2 : list Z) : StronglySorted Z.lt l1 → StronglySorted Z.lt l2 → (∀ c, c ∈ l1 ↔ c ∈ l2) → l1 = l2.
Proof.
  intros H1 H2 He. assert (∀ l, StronglySorted Z.lt l → StronglySorted Z.le l) as Hle.
  { intros l Hl. induction Hl as [|x l Hl IH Hx]; constructor; [done|]. eapply Forall_impl; [exact Hx|]. intros y Hy. cbn in *. lia. }
  apply (StronglySorted_unique Z.le); [by apply Hle|by apply Hle|]. apply NoDup_Permutation; [by apply sorted_lt_nodup|by apply sorted_lt_nodup|done].
Qed.
Lemma cpulist_show l : StronglySorted Z.lt l → Forall (λ c, 0 ≤ c < 2 ^ 16) l → l ≠ [] → parse_cpulist (join "," (show <$> l)) = Some (RoundRobin l).
Proof.
  intros Hs Hr Hne. rewrite Forall_forall in Hr. assert (split "," (join "," (show <$> l)) = show <$> l) as Esp.
  { apply split_join; [by destruct l|]. apply Forall_forall. intros x (c & -> & Hc)%list_elem_of_fmap. apply show_no; [by apply Hr|done]. }
  unfold parse_cpulist. destruct (String.eqb_spec (join "," (show <$> l)) "") as [E|_].
  { exfalso. rewrite E in Esp. destruct l as [|c l]; [done|]. rewrite fmap_cons in Esp. injection Esp as Ec _. destruct (show_cons c) as (d & t & Et & _). by rewrite Et in Ec. }
  rewrite Esp. pose proof (parse_core_list_ok (show <$> l) [] ltac:(constructor)) as Hok. destruct (parse_core_list [] (show <$> l)) as [l'|]; cbn in Hok |- *.
  - destruct Hok as (Hs' & _ & He). do 2 f_equal. apply sorted_unique; [done|done|]. intros c. rewrite He. split.
    + intros [Hn|(item & cs & (c' & -> & Hc')%list_elem_of_fmap & Ecs & Hc)]; [by apply not_elem_of_nil in Hn|]. rewrite cores_of_show in Ecs by (by apply Hr). injection Ecs as <-. by apply list_elem_of_singleton in Hc as ->.
    + intros Hc. right. exists (show c), [c]. split; [by apply list_elem_of_fmap_2|]. split; [apply cores_of_show; by apply Hr|constructor].
  - destruct Hok as (item & (c & -> & Hc)%list_elem_of_fmap & En). by rewrite cores_of_show in En by (by apply Hr).
Qed.
Lemma filter_nonempty (l : list string) : Forall (λ e, e ≠ "") l → filter (λ e, e ≠ "") l = l.
Proof. induction 1 as [|e l He Hl IH]; [done|]. by rewrite filter_cons_True, IH. Qed.
Lemma event_show e : contains "," e.1.1 = false → - 2 ^ 31 ≤ e.1.2 < 2 ^ 31 → - 2 ^ 31 ≤ e.2 < 2 ^ 31 → parse_perf_event (show_event e) = Some e.
Proof.
  intros Hn H1 H2. destruct e as [[name pid] cpu]. cbn [fst snd] in *. unfold parse_perf_event, show_event. cbn [fst snd]. rewrite split_join; [|done|by repeat constructor; try apply show_signed_no].
  rewrite !parse_signed_show by (cbn; lia). done.
Qed.
Lemma perf_show v : perf_typed v → Forall (λ e, contains "," e.1.1 = false ∧ contains ";" e.1.1 = false) v → parse_perf_events (show_perf v) = Some v.
Proof.
  intros Ht Hn. unfold parse_perf_events, show_perf. destruct v as [|e0 v0]; [done|]. set (v := e0 :: v0) in *. unfold perf_typed in Ht. rewrite Forall_forall in Ht, Hn.
  rewrite split_join; [|done|].
  - rewrite filter_nonempty.
    + apply mapM_Some. apply Forall2_fmap_l, Forall_Forall2_diag, Forall_forall. intros e He. destruct (Ht e He), (Hn e He). by apply event_show.
    + apply Forall_forall. intros x (e & -> & He)%list_elem_of_fmap. unfold show_event. rewrite str_join_cons. intros E. by destruct e.1.1.
  - apply Forall_forall. intros x (e & -> & He)%list_elem_of_fmap. unfold show_event. rewrite !str_join_cons, contains_app. destruct (Hn e He) as [_ ->]. cbn [orb contains join].
    rewrite bool_decide_false by done. rewrite contains_app. cbn [contains orb]. rewrite bool_decide_false by done. cbn [orb]. rewrite !show_signed_no by done. done.
Qed.
Lemma show_pair_no c a b : 0 ≤ a → 0 ≤ b → digit c = None → c ≠ ","%char → contains c (show a +:+ String "," (show b)) = false.
Proof. intros Ha Hb Hd Hc. rewrite contains_app. cbn [contains]. rewrite bool_decide_false by (intros E; by destruct Hc). by rewrite !show_no. Qed.
Lemma split_pair a b : 0 ≤ a → split "," (show a +:+ String "," (show b)) = show a :: split "," (show b).
Proof. intros Ha. apply split_app. by apply show_no. Qed.
Lemma default_or_show a d : is_usize a → default_or_parse (parse_unsigned 64) (show a) d = Some a.
Proof.
  intros Ha. unfold default_or_parse. destruct (String.eqb_spec (show a) "_") as [E|_]; [|apply parse_unsigned_show; [lia|done]].
  destruct (show_not_char a "_"%char) as (c & s & Es & Hc); [apply Ha|done|]. rewrite E in Es. injection Es as <- _. done.
Qed.
Lemma nursery_show v : nursery_typed v → (match v with ProportionalBounded _ _ => False | _ => True end) → nursery_from_str (show_nursery v) = Some v.
Proof.
  destruct v as [a b|a b|a]; cbn [nursery_typed show_nursery]; [intros [Ha Hb] _|done|intros Ha _].
  - change ("Bounded:" +:+ (show a +:+ String "," (show b))) with ("Bounded" +:+ String ":" (show a +:+ String "," (show b))). unfold nursery_from_str. rewrite split_app by done.
    rewrite split_none by (apply show_pair_no; (apply Ha || apply Hb || done)). rewrite split_pair, split_none by (apply Ha || (apply show_no; [apply Hb|done])). cbn [String.eqb Ascii.eqb Bool.eqb].
    by rewrite !default_or_show by done.
  - change ("Fixed:" +:+ show a) with ("Fixed" +:+ String ":" (show a)). unfold nursery_from_str. rewrite split_app by done. rewrite split_none by (apply show_no; [apply Ha|done]).
    rewrite split_none by (apply show_no; [apply Ha|done]). cbn [String.eqb Ascii.eqb Bool.eqb]. rewrite parse_unsigned_show by (lia || done). done.
Qed.
Lemma trigger_show B v : crates_ok B → f_regex B = true → trigger_typed v → trigger_from_str B (show_trigger v) = Val (Some v).
Proof.
  intros [_ _ Hf Hd] Hr Hv. unfold trigger_from_str. rewrite Hr. destruct v as [a|a b|]; cbn [trigger_typed show_trigger] in *.
  - destruct (String.eqb_spec ("FixedHeapSize:" +:+ show a) ""); [done|]. rewrite (proj2 (Hf _ (show a))) by (split; [done|apply show_size_text; apply Hv]). by rewrite parse_size_show.
  - destruct Hv as [Ha Hb]. set (s := "DynamicHeapSize:" +:+ (show a +:+ String "," (show b))). destruct (String.eqb_spec s ""); [done|].
    destruct (fixed_heap_captures B s) as [x|] eqn:E; [by apply Hf in E as [E _]|]. rewrite (proj2 (Hd _ (show a) (show b))) by (split; [done|split; apply show_size_text; (apply Ha || apply Hb)]).
    by rewrite !parse_size_show.
  - cbn [String.eqb]. destruct (fixed_heap_captures B "Delegated") as [x|] eqn:E; [by apply Hf in E as [E _]|].
    destruct (dynamic_heap_captures B "Delegated") as [[x y]|] eqn:E'; [by apply Hd in E' as [E' _]|]. done.
Qed.
Lemma opt_show B k v : crates_ok B → f_regex B = true → opt_typed k v → printable k v → opt_from_str B k (show_opt k v) = Val (Some v).
Proof.
  intros HC Hr. assert (∀ n, is_usize n → Val (parse_unsigned 64 (show n)) = Val (Some n)) as Hu by (intros n Hn; by rewrite parse_unsigned_show by (lia || done)).
  assert (∀ b, Val (bool_from_str (show_bool b)) = Val (Some b)) as Hb by (by intros []).
  destruct k; cbn [opt_from_str show_opt opt_typed printable]; intros Ht Hp; try (by apply Hu); try (by apply Hb).
  - by rewrite (co_plan _ HC).
  - by rewrite nursery_show.
  - by rewrite (co_zeroing _ HC).
  - by rewrite perf_show.
  - by rewrite perf_show.
  - destruct v as [|l]; [done|]. destruct Ht as [Hs Hl]. cbn [show_affinity]. rewrite cpulist_show; [done|done|done|]. intros ->. done.
  - by apply trigger_show.
Qed.

(** ** Options in bulk *)

(** No separator, white space or equals sign, and not empty. *)
Fixpoint plain (s : string) : bool :=
  match s with EmptyString => true | String a s => negb (is_ascii_whitespace a) && negb (bool_decide (a = ","%char)) && negb (bool_decide (a = "="%char)) && plain s end.
Definition show_setting (kv : {k : key & opt_type k}) : string := key_name (projT1 kv) +:+ String "=" (show_opt (projT1 kv) (projT2 kv)).
(** The options with the values of the settings. *)
Definition with_setting (o : Options) (kv : {k : key & opt_type k}) : Options :=
  with_option o (projT1 kv) {| value := projT2 kv; validator := validator (o (projT1 kv)); from_env_var := from_env_var (o (projT1 kv)); from_command_line := from_command_line (o (projT1 kv)) |}.
Record setting_ok (B : build) (kv : {k : key & opt_type k}) : Prop := {
  st_typed : opt_typed (projT1 kv) (projT2 kv);
  st_printable : printable (projT1 kv) (projT2 kv);
  st_plain : plain (show_opt (projT1 kv) (projT2 kv)) = true;
  st_valid : opt_valid B (projT1 kv) (projT2 kv) = Val true
}.

Lemma plain_no c s : plain s = true → is_ascii_whitespace c = true ∨ c = ","%char ∨ c = "="%char → contains c s = false.
Proof.
  intros Hp Hc. induction s as [|a s IH]; [done|]. cbn in Hp |- *. apply andb_true_iff in Hp as [[[Hw H1]%andb_true_iff H2]%andb_true_iff Hp]. apply negb_true_iff in Hw, H1, H2. apply bool_decide_eq_false in H1, H2.
  rewrite (IH Hp), orb_false_r. apply bool_decide_false. intros ->. destruct Hc as [Hc|[Hc|Hc]]; congruence.
Qed.
Lemma plain_app s t : plain (s +:+ t) = plain s && plain t.
Proof. induction s as [|a s IH]; [done|]. rewrite str_app_cons. cbn. rewrite IH. by rewrite !andb_assoc. Qed.
Lemma name_plain k : plain (key_name k) = true ∧ key_name k ≠ "".
Proof. by destruct k. Qed.
(** A word is what white space and commas do not cut. *)
Definition word (s : string) : Prop := s ≠ "" ∧ ∀ c, is_ascii_whitespace c = true ∨ c = ","%char → contains c s = false.
Lemma setting_word B kv : setting_ok B kv → word (show_setting kv).
Proof.
  intros [_ _ Hp _]. destruct kv as [k v]. unfold show_setting. cbn [projT1 projT2] in *. destruct (name_plain k) as [Hn Hne]. split.
  - by destruct (key_name k).
  - intros c Hc. rewrite contains_app. cbn [contains]. rewrite !plain_no by (done || tauto). rewrite orb_false_r. apply bool_decide_false. intros <-. by destruct Hc.
Qed.
Lemma words_from_word cur s t : (∀ c, is_ascii_whitespace c = true → contains c s = false) → words_from cur (s +:+ t) = words_from (cur +:+ s) t.
Proof.
  revert cur. induction s as [|a s IH]; intros cur Hs; [rewrite str_app_nil; f_equal; symmetry; induction cur as [|x cur IHc]; [done|by rewrite str_app_cons, IHc]|].
  rewrite str_app_cons. cbn [words_from]. destruct (is_ascii_whitespace a) eqn:Ea; [specialize (Hs a Ea); cbn in Hs; by rewrite bool_decide_true in Hs|].
  rewrite IH; [by rewrite <-str_app_assoc|]. intros c Hc. specialize (Hs c Hc). cbn in Hs. by apply orb_false_iff in Hs as [_ ?].
Qed.
Lemma replace_none c d s : contains c s = false → replace_char c d s = s.
Proof. induction s as [|a s IH]; [done|]. cbn. intros [Ha Hs]%orb_false_iff. rewrite Ha. by rewrite IH. Qed.
Lemma replace_app c d s t : replace_char c d (s +:+ t) = replace_char c d s +:+ replace_char c d t.
Proof. induction s as [|a s IH]; [done|]. rewrite !str_app_cons. cbn. by rewrite IH. Qed.
Lemma str_app_nil_r s : s +:+ "" = s.
Proof. induction s as [|a s IH]; [done|]. by rewrite str_app_cons, IH. Qed.
Lemma bulk_words sep ws : sep = " "%char ∨ sep = ","%char → Forall word ws → split_ascii_whitespace (replace_char "," " " (join sep ws)) = ws.
Proof.
  intros Hsep Hws. unfold split_ascii_whitespace. induction Hws as [|w ws [Hne Hw] Hws IH]; [done|]. assert (replace_char "," " " w = w) as Er by (apply replace_none, Hw; by right).
  assert (String.eqb w "" = false) as Ew by (by destruct (String.eqb_spec w "")). assert (∀ c, is_ascii_whitespace c = true → contains c w = false) as Hww by (intros c Hc; apply Hw; by left).
  destruct ws as [|w' ws].
  - cbn [join]. rewrite Er, <-(str_app_nil_r w), words_from_word, str_app_nil by (by rewrite ?str_app_nil_r). rewrite str_app_nil_r. cbn [words_from]. by rewrite Ew.
  - rewrite str_join_cons, replace_app, Er, words_from_word, str_app_nil by done. cbn [replace_char]. replace (if bool_decide (sep = ","%char) then " "%char else sep) with " "%char by (by destruct Hsep as [-> | ->]).
    cbn [words_from]. change (is_ascii_whitespace " ") with true. cbn iota. rewrite Ew. cbn [app]. by rewrite IH.
Qed.
Lemma set_one B o kv : f_regex B = true → crates_ok B → options_ok B o → setting_ok B kv →
  set_from_command_line B o (key_name (projT1 kv)) (show_opt (projT1 kv) (projT2 kv)) = Val (true, with_setting o kv).
Proof.
  intros HB HC Ho [Ht Hp _ Hv]. destruct kv as [k v]. cbn [projT1 projT2] in *. unfold set_from_command_line, verify_set_from, set_inner. rewrite key_of_name.
  destruct (ok_flags _ _ Ho k) as (Ev & _ & Ec). rewrite Ec. cbn [rust_assert mbind res_bind]. rewrite opt_show by done. cbn [mbind res_bind]. unfold option_set. rewrite Ev, Hv. cbn [mbind res_bind].
  unfold with_setting. cbn [projT1 projT2]. by rewrite Ev.
Qed.
Lemma with_setting_ok B o kv : options_ok B o → opt_typed (projT1 kv) (projT2 kv) → opt_valid B (projT1 kv) (projT2 kv) = Val true → options_ok B (with_setting o kv).
Proof.
  intros Ho Ht Hv. destruct kv as [k v]. cbn [projT1 projT2] in *.
  split; intros k'; unfold with_setting; cbn [projT1 projT2]; (destruct (decide (k' = k)) as [-> |Hne]; [rewrite with_option_eq; cbn|rewrite with_option_ne by done]); try (by apply Ho); [done|by right].
Qed.

(** C37: options in bulk.  In a build with the feature [regex], settings that are valid and whose
    printed values have no comma, white space or equals sign, separated by spaces or by commas,
    are read back: each option gets its value, in order, and no other option changes.  (Values
    with a comma are cut: [bulk_cuts_values].) *)
Theorem bulk_settings (B : build) (sep : ascii) (o : Options) (settings : list {k : key & opt_type k}) :
  f_regex B = true → crates_ok B → options_ok B o → sep = " "%char ∨ sep = ","%char → Forall (setting_ok B) settings →
  set_bulk_from_command_line B o (join sep (show_setting <$> settings)) = Val (true, foldl with_setting o settings).
Proof.
  intros HB HC Ho Hsep Hs. unfold set_bulk_from_command_line. rewrite bulk_words; [|done|apply Forall_fmap; eapply Forall_impl; [exact Hs|]; intros kv; apply setting_word].
  revert o Ho. induction Hs as [|kv settings Hkv Hs IH]; intros o Ho; [done|]. rewrite fmap_cons. cbn [set_each foldl]. unfold show_setting at 1.
  destruct (name_plain (projT1 kv)) as [Hn _]. rewrite split_app by (by apply plain_no; [done|tauto]). rewrite split_none by (apply plain_no; [apply Hkv|tauto]).
  rewrite set_one by done. cbn [mbind res_bind]. apply IH. apply with_setting_ok; [done|apply Hkv|apply Hkv].
Qed.

(** ** Examples *)

(** Expressions that capture what the patterns say. *)
Fixpoint all_digits (s : string) : bool := match s with EmptyString => true | String a s => bool_decide (is_Some (digit a)) && all_digits s end.
Definition some_digits (s : string) : bool := negb (String.eqb s "") && all_digits s.
Definition size_textb (s : string) : bool :=
  some_digits s || match unsnoc s with Some (init, c) => bool_decide (is_Some (unit_of c)) && some_digits init | None => false end.
Definition capture_fixed (s : string) : option string :=
  size ← strip_prefix "FixedHeapSize:" s; if size_textb size then Some size else None.
Definition capture_dynamic (s : string) : option (string * string) :=
  sizes ← strip_prefix "DynamicHeapSize:" s;
  match split "," sizes with [a; b] => if size_textb a && size_textb b then Some (a, b) else None | _ => None end.
Definition lookup_name {A} (name : A → string) (l : list A) (s : string) : option A := list.head (filter (λ a, name a = s) l).
Definition sample_build : build :=
  {| f_regex := true; f_perf_counter := false; f_work_packet_stats := false; target_linux := true; num_cpus := 8; linux_num_cpus := 8; system_total_memory := 2 ^ 34;
     plan_from_str := lookup_name plan_name [NoGC; SemiSpace; GenCopy; GenImmix; MarkSweep; PageProtect; Immix; MarkCompact; StickyImmix; LXR];
     zeroing_from_str := lookup_name zeroing_name [Temporal; Nontemporal; Concurrent; Adaptive];
     fixed_heap_captures := capture_fixed; dynamic_heap_captures := capture_dynamic |}.

Lemma all_digits_ok s : all_digits s = true ↔ is_digits s.
Proof.
  induction s as [|a s IH]; [done|]. cbn [all_digits]. rewrite andb_true_iff, bool_decide_eq_true, IH. split.
  - intros [[d Ha] Hs] c Hc. cbn. rewrite (Hs c Hc), orb_false_r. apply bool_decide_false. congruence.
  - intros [[d Ha] Hs]%is_digits_cons. split; [by exists d|done].
Qed.
Lemma some_digits_ok s : some_digits s = true ↔ s ≠ "" ∧ is_digits s.
Proof. unfold some_digits. rewrite andb_true_iff, negb_true_iff, all_digits_ok. by destruct (String.eqb_spec s ""); intuition. Qed.
Lemma unsnoc_inv s t c : unsnoc s = Some (t, c) → s = t +:+ String c "".
Proof.
  revert t. induction s as [|a s IH]; intros t; [done|]. cbn. destruct (unsnoc s) as [[s' c']|] eqn:E.
  - intros [= <- ->]. by rewrite str_app_cons, <-(IH s').
  - intros [= <- ->]. destruct s as [|b s]; [done|]. cbn in E. by destruct (unsnoc s) as [[]|].
Qed.
Lemma size_textb_ok s : size_textb s = true ↔ size_text s.
Proof.
  unfold size_textb, size_text. rewrite orb_true_iff, some_digits_ok. split.
  - intros [[Hne Hd]|Hu]; [exists s, ""; rewrite str_app_nil_r; split; [done|]; split; [done|]; split; [done|by left]|]. destruct (unsnoc s) as [[t c]|] eqn:E; [|done]. apply unsnoc_inv in E.
    apply andb_true_iff in Hu as [Hc%bool_decide_eq_true [Hne Hd]%some_digits_ok]. exists t, (String c ""). split; [done|]. split; [done|]. split; [done|]. right. by exists c.
  - intros (ds & suffix & -> & Hne & Hd & [-> |(c & -> & Hc)]); [left; by rewrite str_app_nil_r|]. right. rewrite unsnoc_app. apply andb_true_iff. split; [by apply bool_decide_eq_true|by apply some_digits_ok].
Qed.
Lemma size_text_no_comma s : size_text s → contains "," s = false.
Proof.
  intros (ds & suffix & -> & _ & Hd & Hs). rewrite contains_app, (Hd ","%char) by done. destruct Hs as [-> |(c & -> & Hc)]; [done|]. cbn. rewrite orb_false_r. apply bool_decide_false. intros ->. by destruct Hc.
Qed.
Lemma strip_prefix_ok p s r : strip_prefix p s = Some r ↔ s = p +:+ r.
Proof.
  revert s. induction p as [|a p IH]; intros s; [cbn; rewrite str_app_nil; naive_solver|]. rewrite str_app_cons. destruct s as [|b s]; [done|]. cbn. case_bool_decide as E; [rewrite IH; naive_solver|naive_solver].
Qed.
Lemma sample_crates_ok : crates_ok sample_build.
Proof.
  split.
  - by intros [].
  - by intros [].
  - intros s size. change (capture_fixed s = Some size ↔ s = "FixedHeapSize:" +:+ size ∧ size_text size). unfold capture_fixed. rewrite <-strip_prefix_ok, <-size_textb_ok.
    destruct (strip_prefix "FixedHeapSize:" s) as [r|]; cbn; [|naive_solver]. split; [by destruct (size_textb r) eqn:Er; [intros [= <-]|]|by intros [[= ->] ->]].
  - intros s a b. change (capture_dynamic s = Some (a, b) ↔ s = "DynamicHeapSize:" +:+ (a +:+ String "," b) ∧ size_text a ∧ size_text b). unfold capture_dynamic. rewrite <-strip_prefix_ok. split.
    + destruct (strip_prefix "DynamicHeapSize:" s) as [r|]; [|done]. cbn. pose proof (str_join_split "," r) as Hj. destruct (split "," r) as [|x [|y []]]; try done. cbn in Hj.
      destruct (size_textb x) eqn:Ex; [|done]. destruct (size_textb y) eqn:Ey; [|done]. intros [= <- <-]. apply size_textb_ok in Ex, Ey. split; [by f_equal|done].
    + intros (-> & Ha & Hb). cbn. rewrite split_app, split_none by (by apply size_text_no_comma). by rewrite (proj2 (size_textb_ok a) Ha), (proj2 (size_textb_ok b) Hb).
Qed.
Lemma sample_build_ok : build_ok sample_build.
Proof. by split. Qed.

Definition sample_settings : list {k : key & opt_type k} := [existT plan Immix; existT threads 4; existT gc_trigger (FixedHeapSize 33554432); existT nursery (Fixed 8192); existT thread_affinity (RoundRobin [3])].
Lemma bulk_settings_witness :
  set_bulk_from_command_line sample_build (options_new sample_build) (join "," (show_setting <$> sample_settings)) = Val (true, foldl with_setting (options_new sample_build) sample_settings).
Proof.
  apply (bulk_settings sample_build); [done|exact sample_crates_ok|apply options_new_ok; exact sample_build_ok|by right|].
  repeat (apply Forall_cons; split; [split; (done || (by vm_compute) || (split; repeat constructor; done))|]). by apply Forall_nil.
Defined.
Definition sample_opt_calls : list opt_call :=
  [CCommand "threads" "0"; CEnv "verbose" "7"; CBulk "plan=SemiSpace stress_factor=42"; CReadEnv [("MMTK_NURSERY", "Fixed:8192"); ("HOME", "x")]; CSet no_finalizer true].
(** The same machine without the feature [regex]. *)
Definition no_regex_build : build :=
  {| f_regex := false; f_perf_counter := false; f_work_packet_stats := false; target_linux := true; num_cpus := 8; linux_num_cpus := 8; system_total_memory := 2 ^ 34;
     plan_from_str := plan_from_str sample_build; zeroing_from_str := zeroing_from_str sample_build; fixed_heap_captures := fixed_heap_captures sample_build;
     dynamic_heap_captures := dynamic_heap_captures sample_build |}.
(** After the calls the options are valid; setting the size of the heap panics. *)
Lemma options_stay_valid_witness : ∃ o, for_each (do_opt_call no_regex_build) sample_opt_calls (options_new no_regex_build) = Val o ∧ options_ok no_regex_build o ∧
  do_opt_call no_regex_build o (CCommand "gc_trigger" "FixedHeapSize:1G") = Panic.
Proof.
  destruct (options_stay_valid no_regex_build sample_opt_calls) as (o & E & Ho & Hp).
  - done.
  - repeat (apply Forall_cons; split; [|]); try (by apply Forall_nil); try (by eexists); try done.
    + intros opt k val Hin Hs. assert (opt = "plan=SemiSpace" ∨ opt = "stress_factor=42") as [-> | ->] by (vm_compute in Hin; set_solver); vm_compute in Hs; injection Hs as <- <-; by eexists.
    + intros name rest k val Hin Hn Hk. assert (name = "MMTK_NURSERY" ∧ val = "Fixed:8192" ∨ name = "HOME") as [[-> ->] | ->] by set_solver; vm_compute in Hn; [|done]. injection Hn as <-.
      vm_compute in Hk. by injection Hk as <-.
  - exists o. split; [exact E|]. split; [exact Ho|]. apply (Hp gc_trigger). by left.
Defined.

(** Options in bulk can not have values with a comma: the value is cut, the first part is set,
    and the rest is an error. *)
Lemma bulk_cuts_values :
  (λ r, (fst r, value (snd r thread_affinity))) <$> set_bulk_from_command_line sample_build (options_new sample_build) "thread_affinity=0,1" = Val (false, RoundRobin [0]).
Proof. by vm_compute. Qed.
(** An unknown key in bulk panics. *)
Lemma bulk_unknown_key : set_bulk_from_command_line sample_build (options_new sample_build) "no_such_option=1" = Panic.
Proof. by vm_compute. Qed.
