(* ===== verification/GCTrigger.v ===== *)
(** * Heap sizes and triggers (src/src/util/heap/gc_trigger.rs)

    The trigger that the options select, its heap size in pages, and the bounds of the nursery.
    The balancer changes the heap size at the end of collections, from what the plan reports and
    from times.  Instants are nanoseconds.  A trigger that is delegated belongs to the binding
    and is not modelled.  Whatever happens the heap size stays within its bounds. *)

From S2P Require Import Prelude Conversions RustStd Options OptionsTheorems OptionsShow.

(** What the plan reports when it is asked. *)
Record plan_stats : Type := {
  ps_generational : bool; ps_nursery_gc : bool; ps_mature_reserved : Z; ps_reserved : Z; ps_collection_reserved : Z
}.
(** [(a - b).as_secs_f64()]. *)
Definition secs_between (a b : Z) : f64 :=
  let ns := Z.max 0 (a - b) in
  f64_add (f64_of (ns `div` 10 ^ 9)) (f64_div (f64_of (ns `mod` 10 ^ 9)) (f64_of (10 ^ 9))).
Definition saturating_sub (a b : Z) : Z := Z.max 0 (a - b).
(** [Ord::clamp]. *)
Definition clamp (v min max : Z) : res Z := _ ← rust_assert (min <=? max); Val (if v <? min then min else if max <? v then max else v).

(** ** [MemBalancerStats] *)

Record MemBalancerStats : Type := {
  allocation_pages_prev : option f64; allocation_time_prev : option f64; collection_pages_prev : option f64; collection_time_prev : option f64;
  allocation_pages : f64; allocation_time : f64; collection_pages : f64; collection_time : f64;
  gc_start_time : Z; gc_end_time : Z; gc_release_live_pages : Z; gc_end_live_pages : Z
}.
Definition stats_default (now : Z) : MemBalancerStats :=
  {| allocation_pages_prev := None; allocation_time_prev := None; collection_pages_prev := None; collection_time_prev := None;
     allocation_pages := f64_of 0; allocation_time := f64_of 0; collection_pages := f64_of 0; collection_time := f64_of 0;
     gc_start_time := now; gc_end_time := now; gc_release_live_pages := 0; gc_end_live_pages := 0 |}.
Definition with_allocation (s : MemBalancerStats) (pages : f64) : MemBalancerStats :=
  {| allocation_pages_prev := allocation_pages_prev s; allocation_time_prev := allocation_time_prev s; collection_pages_prev := collection_pages_prev s; collection_time_prev := collection_time_prev s;
     allocation_pages := pages; allocation_time := allocation_time s; collection_pages := collection_pages s; collection_time := collection_time s;
     gc_start_time := gc_start_time s; gc_end_time := gc_end_time s; gc_release_live_pages := gc_release_live_pages s; gc_end_live_pages := gc_end_live_pages s |}.
Definition with_release_live (s : MemBalancerStats) (pages : Z) : MemBalancerStats :=
  {| allocation_pages_prev := allocation_pages_prev s; allocation_time_prev := allocation_time_prev s; collection_pages_prev := collection_pages_prev s; collection_time_prev := collection_time_prev s;
     allocation_pages := allocation_pages s; allocation_time := allocation_time s; collection_pages := collection_pages s; collection_time := collection_time s;
     gc_start_time := gc_start_time s; gc_end_time := gc_end_time s; gc_release_live_pages := pages; gc_end_live_pages := gc_end_live_pages s |}.
Definition with_end_live (s : MemBalancerStats) (pages : Z) : MemBalancerStats :=
  {| allocation_pages_prev := allocation_pages_prev s; allocation_time_prev := allocation_time_prev s; collection_pages_prev := collection_pages_prev s; collection_time_prev := collection_time_prev s;
     allocation_pages := allocation_pages s; allocation_time := allocation_time s; collection_pages := f64_of pages; collection_time := collection_time s;
     gc_start_time := gc_start_time s; gc_end_time := gc_end_time s; gc_release_live_pages := gc_release_live_pages s; gc_end_live_pages := pages |}.
Definition generational_mem_stats_on_gc_release (s : MemBalancerStats) (p : plan_stats) : MemBalancerStats :=
  if negb (ps_nursery_gc p) then
    let s := with_release_live s (ps_mature_reserved p) in
    let promoted := saturating_sub (gc_release_live_pages s) (gc_end_live_pages s) in
    with_allocation s (f64_of promoted)
  else s.
Definition generational_mem_stats_on_gc_end (s : MemBalancerStats) (p : plan_stats) : bool * MemBalancerStats :=
  if negb (ps_nursery_gc p) then (true, with_end_live s (ps_mature_reserved p)) else (false, s).
Definition non_generational_mem_stats_on_gc_start (s : MemBalancerStats) (p : plan_stats) : MemBalancerStats :=
  with_allocation s (f64_of (saturating_sub (ps_reserved p) (gc_end_live_pages s))).
Definition non_generational_mem_stats_on_gc_release (s : MemBalancerStats) (p : plan_stats) : MemBalancerStats := with_release_live s (ps_reserved p).
Definition non_generational_mem_stats_on_gc_end (s : MemBalancerStats) (p : plan_stats) : MemBalancerStats := with_end_live s (ps_reserved p).
Definition start_clock (s : MemBalancerStats) (now : Z) : MemBalancerStats :=
  {| allocation_pages_prev := allocation_pages_prev s; allocation_time_prev := allocation_time_prev s; collection_pages_prev := collection_pages_prev s; collection_time_prev := collection_time_prev s;
     allocation_pages := allocation_pages s; allocation_time := f64_add (allocation_time s) (secs_between now (gc_end_time s)); collection_pages := collection_pages s; collection_time := collection_time s;
     gc_start_time := now; gc_end_time := gc_end_time s; gc_release_live_pages := gc_release_live_pages s; gc_end_live_pages := gc_end_live_pages s |}.
Definition end_clock (s : MemBalancerStats) (now : Z) : MemBalancerStats :=
  {| allocation_pages_prev := allocation_pages_prev s; allocation_time_prev := allocation_time_prev s; collection_pages_prev := collection_pages_prev s; collection_time_prev := collection_time_prev s;
     allocation_pages := allocation_pages s; allocation_time := allocation_time s; collection_pages := collection_pages s; collection_time := f64_add (collection_time s) (secs_between now (gc_start_time s));
     gc_start_time := gc_start_time s; gc_end_time := now; gc_release_live_pages := gc_release_live_pages s; gc_end_live_pages := gc_end_live_pages s |}.

(** ** [MemBalancerTrigger] *)

Record MemBalancerTrigger : Type := { min_heap_pages : Z; max_heap_pages : Z; current_heap_pages : Z; pending_pages : Z; stats : MemBalancerStats }.
Definition balancer_new (now min max : Z) : MemBalancerTrigger :=
  {| min_heap_pages := min; max_heap_pages := max; current_heap_pages := min; pending_pages := 0; stats := stats_default now |}.
Definition with_stats (t : MemBalancerTrigger) (s : MemBalancerStats) : MemBalancerTrigger :=
  {| min_heap_pages := min_heap_pages t; max_heap_pages := max_heap_pages t; current_heap_pages := current_heap_pages t; pending_pages := pending_pages t; stats := s |}.

Definition ALLOCATION_SMOOTH_FACTOR : f64 := f64_decimal false 95 (-2).
Definition COLLECTION_SMOOTH_FACTOR : f64 := f64_decimal false 5 (-1).
Definition TUNING_FACTOR : f64 := f64_decimal false 2 (-1).
Definition smooth (prev : option f64) (cur factor : f64) : f64 :=
  match prev with Some p => f64_add (f64_mul p factor) (f64_mul cur (f64_sub (f64_of 1) factor)) | None => cur end.
(** The square root of the balancer, [e as usize]. *)
Definition extra_pages (s : MemBalancerStats) (live : Z) : Z :=
  let alloc_mem := smooth (allocation_pages_prev s) (allocation_pages s) ALLOCATION_SMOOTH_FACTOR in
  let alloc_time := smooth (allocation_time_prev s) (allocation_time s) ALLOCATION_SMOOTH_FACTOR in
  let gc_mem := smooth (collection_pages_prev s) (collection_pages s) COLLECTION_SMOOTH_FACTOR in
  let gc_time := smooth (collection_time_prev s) (collection_time s) COLLECTION_SMOOTH_FACTOR in
  let nonzero x := negb (f64_eq x (f64_of 0)) in
  let e :=
    if nonzero alloc_mem && nonzero gc_mem && nonzero alloc_time && nonzero gc_time
    then f64_sqrt (f64_div (f64_div (f64_mul (f64_of live) (f64_div alloc_mem alloc_time)) TUNING_FACTOR) (f64_div gc_mem gc_time))
    else f64_sqrt (f64_mul (f64_of live) (f64_of 4096)) in
  f64_to_usize e.
Definition next_stats (s : MemBalancerStats) : MemBalancerStats :=
  {| allocation_pages_prev := Some (allocation_pages s); allocation_time_prev := Some (allocation_time s);
     collection_pages_prev := Some (collection_pages s); collection_time_prev := Some (collection_time s);
     allocation_pages := f64_of 0; allocation_time := f64_of 0; collection_pages := f64_of 0; collection_time := f64_of 0;
     gc_start_time := gc_start_time s; gc_end_time := gc_end_time s; gc_release_live_pages := gc_release_live_pages s; gc_end_live_pages := gc_end_live_pages s |}.
Definition compute_new_heap_limit (t : MemBalancerTrigger) (live extra_reserve : Z) (s : MemBalancerStats) : res MemBalancerTrigger :=
  let optimal_heap := live +u extra_pages s live +u extra_reserve +u pending_pages t in
  new_heap ← clamp optimal_heap (min_heap_pages t) (max_heap_pages t);
  Val {| min_heap_pages := min_heap_pages t; max_heap_pages := max_heap_pages t; current_heap_pages := new_heap; pending_pages := pending_pages t; stats := next_stats s |}.

(** ** Nursery bounds *)

Section nursery.
Context (o : Options).

(** [heap] is the current heap size in pages. *)
Definition get_max_nursery_bytes (heap : Z) (p : plan_stats) : res Z :=
  _ ← rust_assert (ps_generational p);
  match value (o nursery) with
  | Bounded _ max => Val max
  | ProportionalBounded _ max =>
    let heap_size_bytes := pages_to_bytes heap in
    let max_bytes := raw_align_up (f64_to_usize (f64_mul (f64_of heap_size_bytes) max)) BYTES_IN_PAGE in
    Val (if DEFAULT_MAX_NURSERY <? max_bytes then DEFAULT_MAX_NURSERY else max_bytes)
  | Fixed sz => Val sz
  end.
Definition get_min_nursery_bytes (heap : Z) (p : plan_stats) : res Z :=
  _ ← rust_assert (ps_generational p);
  match value (o nursery) with
  | Bounded min _ => Val min
  | ProportionalBounded min _ =>
    let min_bytes := raw_align_up (f64_to_usize (f64_mul (f64_of (pages_to_bytes heap)) min)) BYTES_IN_PAGE in
    Val (if min_bytes <? DEFAULT_MIN_NURSERY then DEFAULT_MIN_NURSERY else min_bytes)
  | Fixed sz => Val sz
  end.
Definition get_max_nursery_pages (heap : Z) (p : plan_stats) : res Z := bytes_to_pages_up <$> get_max_nursery_bytes heap p.
Definition get_min_nursery_pages (heap : Z) (p : plan_stats) : res Z := bytes_to_pages_up <$> get_min_nursery_bytes heap p.
Definition should_do_stress_gc_inner (is_initialized : bool) (allocation_bytes : Z) : bool := is_initialized && (value (o stress_factor) <? allocation_bytes).

(** ** The balancer during a collection *)

Definition on_pending_allocation (t : MemBalancerTrigger) (pages : Z) : MemBalancerTrigger :=
  {| min_heap_pages := min_heap_pages t; max_heap_pages := max_heap_pages t; current_heap_pages := current_heap_pages t; pending_pages := pending_pages t +u pages; stats := stats t |}.
Definition on_gc_start (t : MemBalancerTrigger) (now : Z) (p : plan_stats) : MemBalancerTrigger :=
  let s := start_clock (stats t) now in
  with_stats t (if ps_generational p then s else non_generational_mem_stats_on_gc_start s p).
Definition on_gc_release (t : MemBalancerTrigger) (p : plan_stats) : MemBalancerTrigger :=
  with_stats t (if ps_generational p then generational_mem_stats_on_gc_release (stats t) p else non_generational_mem_stats_on_gc_release (stats t) p).
Definition on_gc_end (t : MemBalancerTrigger) (now : Z) (p : plan_stats) : res MemBalancerTrigger :=
  let s := end_clock (stats t) now in
  t ← (if ps_generational p then
         let '(compute, s) := generational_mem_stats_on_gc_end s p in
         if (compute : bool) then
           min_nursery ← get_min_nursery_pages (current_heap_pages t) p;
           compute_new_heap_limit t (ps_reserved p) (ps_collection_reserved p +u min_nursery) s
         else Val (with_stats t s)
       else
         let s := non_generational_mem_stats_on_gc_end s p in
         compute_new_heap_limit t (ps_reserved p) (ps_collection_reserved p) s);
  Val {| min_heap_pages := min_heap_pages t; max_heap_pages := max_heap_pages t; current_heap_pages := current_heap_pages t; pending_pages := 0; stats := stats t |}.
End nursery.

(** ** [GCTrigger] *)

Inductive trigger_policy : Type := FixedHeapSizeTrigger (total_pages : Z) | BalancerTrigger (t : MemBalancerTrigger).
(** [GCTrigger::new]; [None] is the trigger of the binding. *)
Definition trigger_new (o : Options) (now : Z) : option trigger_policy :=
  match value (o gc_trigger) with
  | FixedHeapSize size => Some (FixedHeapSizeTrigger (bytes_to_pages_up size))
  | DynamicHeapSize min max =>
    let min_pages := bytes_to_pages_up min in
    let max_pages := bytes_to_pages_up max in
    match value (o plan) with NoGC => Some (FixedHeapSizeTrigger max_pages) | _ => Some (BalancerTrigger (balancer_new now min_pages max_pages)) end
  | Delegated => None
  end.
Definition get_current_heap_size_in_pages (t : trigger_policy) : Z := match t with FixedHeapSizeTrigger n => n | BalancerTrigger t => current_heap_pages t end.
Definition get_max_heap_size_in_pages (t : trigger_policy) : Z := match t with FixedHeapSizeTrigger n => n | BalancerTrigger t => max_heap_pages t end.
Definition can_heap_size_grow (t : trigger_policy) : bool := match t with FixedHeapSizeTrigger _ => false | BalancerTrigger t => current_heap_pages t <? max_heap_pages t end.
Definition is_heap_full (t : trigger_policy) (reserved : Z) : bool := get_current_heap_size_in_pages t <? reserved.

(** ** Theorems *)

#[local] Open Scope Z_scope.

(** ** Events *)

Inductive trigger_event : Type :=
| EPending (pages : Z)
| EStart (now : Z) (p : plan_stats)
| ERelease (p : plan_stats)
| EEnd (now : Z) (p : plan_stats).
(** A fixed trigger ignores them. *)
Definition do_event (o : Options) (t : trigger_policy) (e : trigger_event) : res trigger_policy :=
  match t with
  | FixedHeapSizeTrigger _ => Val t
  | BalancerTrigger b =>
    match e with
    | EPending pages => Val (BalancerTrigger (on_pending_allocation b pages))
    | EStart now p => Val (BalancerTrigger (on_gc_start b now p))
    | ERelease p => Val (BalancerTrigger (on_gc_release b p))
    | EEnd now p => BalancerTrigger <$> on_gc_end o b now p
    end
  end.

Definition pages_up (bytes : Z) : Z := (bytes + BYTES_IN_PAGE - 1) `div` BYTES_IN_PAGE.
Lemma pages_up_eq bytes : 0 ≤ bytes → bytes + BYTES_IN_PAGE ≤ 2 ^ 64 → bytes_to_pages_up bytes = pages_up bytes.
Proof.
  intros H0 Hle. unfold bytes_to_pages_up, pages_up. change BYTES_IN_PAGE with (2 ^ 12) in *. rewrite align_up_eq by lia. rewrite shiftr_div by (unfold LOG_BYTES_IN_PAGE; lia).
  change LOG_BYTES_IN_PAGE with 12. by rewrite Z.div_mul by lia.
Qed.
Lemma pages_up_mono a b : a ≤ b → pages_up a ≤ pages_up b.
Proof. intros Hab. unfold pages_up. apply Z.div_le_mono; [done|lia]. Qed.

(** ** Bounds *)

Definition balancer_ok (lo hi : Z) (b : MemBalancerTrigger) : Prop := min_heap_pages b = lo ∧ max_heap_pages b = hi ∧ lo ≤ current_heap_pages b ≤ hi.
Definition heap_in_bounds (sel : GCTriggerSelector) (nogc : bool) (t : trigger_policy) : Prop :=
  match sel, t with
  | FixedHeapSize size, FixedHeapSizeTrigger n => n = pages_up size
  | DynamicHeapSize _ max, FixedHeapSizeTrigger n => nogc = true ∧ n = pages_up max
  | DynamicHeapSize min max, BalancerTrigger b => balancer_ok (pages_up min) (pages_up max) b
  | _, _ => False
  end.
(** Sizes whose last page is addressable. *)
Definition sizes_small (sel : GCTriggerSelector) : Prop :=
  match sel with FixedHeapSize size => size + BYTES_IN_PAGE ≤ 2 ^ 64 | DynamicHeapSize _ max => max + BYTES_IN_PAGE ≤ 2 ^ 64 | Delegated => False end.

Lemma min_nursery_returns o heap p : ps_generational p = true → ∃ n, get_min_nursery_pages o heap p = Val n.
Proof. intros Hg. unfold get_min_nursery_pages, get_min_nursery_bytes. rewrite Hg. cbn [rust_assert mbind res_bind]. destruct (value (o nursery)); eexists; reflexivity. Qed.

(** The extra pages that a collection reserves, and the statistics at its end. *)
Definition end_reserve (o : Options) (b : MemBalancerTrigger) (p : plan_stats) : res Z :=
  if ps_generational p then min_nursery ← get_min_nursery_pages o (current_heap_pages b) p; Val (ps_collection_reserved p +u min_nursery)
  else Val (ps_collection_reserved p).
Definition end_stats (b : MemBalancerTrigger) (now : Z) (p : plan_stats) : MemBalancerStats :=
  with_end_live (end_clock (stats b) now) (if ps_generational p then ps_mature_reserved p else ps_reserved p).
(** The limit covers what is live, reserved and pending, as far as the maximum allows. *)
Definition accommodates (o : Options) (b : MemBalancerTrigger) (now : Z) (p : plan_stats) (b' : MemBalancerTrigger) : Prop :=
  pending_pages b' = 0 ∧
  ∀ reserve, end_reserve o b p = Val reserve → 0 ≤ ps_reserved p → 0 ≤ reserve → 0 ≤ pending_pages b →
    ps_reserved p + extra_pages (end_stats b now p) (ps_reserved p) + reserve + pending_pages b < 2 ^ 64 →
    Z.min (max_heap_pages b) (ps_reserved p + reserve + pending_pages b) ≤ current_heap_pages b'.

Lemma new_limit_ok lo hi b live reserve s : lo ≤ hi → min_heap_pages b = lo → max_heap_pages b = hi →
  wp (compute_new_heap_limit b live reserve s) (λ b', balancer_ok lo hi b' ∧ pending_pages b' = pending_pages b ∧
    (0 ≤ live → 0 ≤ reserve → 0 ≤ pending_pages b → live + extra_pages s live + reserve + pending_pages b < 2 ^ 64 →
     Z.min hi (live + reserve + pending_pages b) ≤ current_heap_pages b')).
Proof.
  intros Hle <- <-. unfold compute_new_heap_limit, clamp. destruct (Z.leb_spec (min_heap_pages b) (max_heap_pages b)); [|lia]. cbn [rust_assert mbind res_bind wp]. unfold balancer_ok.
  cbn [min_heap_pages max_heap_pages current_heap_pages pending_pages]. assert (0 ≤ extra_pages s live) as He by apply f64_to_usize_range.
  set (v := live +u extra_pages s live +u reserve +u pending_pages b). split; [|split; [done|]].
  - destruct (Z.ltb_spec v (min_heap_pages b)), (Z.ltb_spec (max_heap_pages b) v); lia.
  - intros H1 H2 H3 H4. assert (v = live + extra_pages s live + reserve + pending_pages b) as Ev by (unfold v; rewrite (uadd_id live (extra_pages s live)) by lia; rewrite (uadd_id _ reserve) by lia; by rewrite uadd_id by lia).
    destruct (Z.ltb_spec v (min_heap_pages b)), (Z.ltb_spec (max_heap_pages b) v); lia.
Qed.
Lemma gc_end_ok o lo hi b now p : lo ≤ hi → balancer_ok lo hi b →
  wp (on_gc_end o b now p) (λ b', balancer_ok lo hi b' ∧ ((ps_generational p = true → ps_nursery_gc p = false) → accommodates o b now p b')).
Proof.
  intros Hle (E1 & E2 & Hc). unfold on_gc_end, accommodates, end_reserve, end_stats. destruct (ps_generational p) eqn:Eg.
  - destruct (min_nursery_returns o (current_heap_pages b) p Eg) as [n En]. unfold generational_mem_stats_on_gc_end. destruct (ps_nursery_gc p) eqn:Ey; cbn [negb].
    + cbn. split; [done|]. intros Hn. by specialize (Hn eq_refl).
    + rewrite En. cbn [mbind res_bind]. apply wp_bind. eapply wp_mono; [by apply (new_limit_ok lo hi)|]. intros b' ((F1 & F2 & F3) & Fp & Hcov). cbn. split; [done|]. intros _. split; [done|].
      intros reserve [= <-]. rewrite E2. by apply Hcov.
  - apply wp_bind. eapply wp_mono; [by apply (new_limit_ok lo hi)|]. intros b' ((F1 & F2 & F3) & Fp & Hcov). cbn. split; [done|]. intros _. split; [done|]. intros reserve [= <-]. rewrite E2. by apply Hcov.
Qed.
Lemma event_ok o sel nogc t e : trigger_typed sel → (∀ min max, sel = DynamicHeapSize min max → min ≤ max) → heap_in_bounds sel nogc t → wp (do_event o t e) (heap_in_bounds sel nogc).
Proof.
  intros Ht Hv Hb. destruct t as [n|b]; [done|]. destruct sel as [|min max|]; try done. cbn [heap_in_bounds] in Hb. pose proof (pages_up_mono min max (Hv min max eq_refl)) as Hle.
  destruct e as [pages|now p|p|now p]; cbn [do_event]; try exact Hb. destruct (wp_elim _ _ (gc_end_ok o _ _ b now p Hle Hb)) as (b' & -> & Hb' & _). done.
Qed.

(** C40: the heap size.  With options that are valid, a trigger that is not delegated and sizes
    that leave out the last page of the address space, no step of the trigger panics, whatever
    allocations are pending and whatever collections report; a fixed heap has the size of the
    option and a dynamic one stays between its bounds, in pages.  At the end of a collection that
    is not one of the nursery no allocation is pending any more, and the new limit covers what is
    live, reserved and pending as far as the maximum allows, if these pages and the extra pages
    of the balancer add up to less than 2^64.  (A maximum in the last page is valid, but becomes
    zero pages, and the first collection panics: [last_page_overflows].) *)
Theorem heap_size_sound (B : build) (o : Options) (now : Z) (events : list trigger_event) :
  options_ok B o → sizes_small (value (o gc_trigger)) →
  ∃ t0 t, trigger_new o now = Some t0 ∧ for_each (do_event o) events t0 = Val t ∧
    heap_in_bounds (value (o gc_trigger)) (match value (o plan) with NoGC => true | _ => false end) t ∧
    ∀ b now' p, t = BalancerTrigger b → (ps_generational p = true → ps_nursery_gc p = false) →
      ∃ b', on_gc_end o b now' p = Val b' ∧ accommodates o b now' p b'.
Proof.
  intros Ho Hs. pose proof (ok_typed _ _ Ho gc_trigger) as Ht. cbn [opt_typed] in Ht.
  assert (∀ min max, value (o gc_trigger) = DynamicHeapSize min max → min ≤ max) as Hv.
  { intros min max E. destruct (ok_value _ _ Ho gc_trigger) as [E'|E']; rewrite E in E'; [done|]. cbn in E'. destruct (Z.leb_spec min max); [done|by injection E']. }
  assert (∃ t0, trigger_new o now = Some t0 ∧ heap_in_bounds (value (o gc_trigger)) (match value (o plan) with NoGC => true | _ => false end) t0) as (t0 & E0 & H0).
  { unfold trigger_new. destruct (value (o gc_trigger)) as [size|min max|]; cbn [sizes_small trigger_typed] in Hs, Ht; [| |done].
    - eexists. split; [done|]. cbn. apply pages_up_eq; [apply Ht|done].
    - destruct Ht as [[? ?] [? ?]]. specialize (Hv min max eq_refl). rewrite (pages_up_eq max), (pages_up_eq min) by (unfold is_usize in *; lia). pose proof (pages_up_mono min max Hv).
      destruct (value (o plan)); (eexists; split; [done|]; cbn; unfold balancer_ok; cbn; (done || lia)). }
  destruct (wp_elim _ _ (wp_for_each (do_event o) (λ _, heap_in_bounds (value (o gc_trigger)) (match value (o plan) with NoGC => true | _ => false end)) events t0 H0
    ltac:(intros l1 e l2 t _ Hb; by apply event_ok))) as (t & Et & Hb).
  exists t0, t. split; [done|]. split; [done|]. split; [done|]. intros b now' p -> Hn. destruct (value (o gc_trigger)) as [size|min max|] eqn:Esel; try done. cbn [heap_in_bounds] in Hb.
  destruct (wp_elim _ _ (gc_end_ok o _ _ b now' p (pages_up_mono min max (Hv min max eq_refl)) Hb)) as (b' & Eb & _ & Hacc). exists b'. split; [done|]. by apply Hacc.
Qed.

(** ** Examples *)

Definition dynamic_options : Options := with_setting (options_new sample_build) (existT gc_trigger (DynamicHeapSize (2 ^ 20) (2 ^ 24))).
Definition sample_stats (reserved : Z) : plan_stats := {| ps_generational := false; ps_nursery_gc := false; ps_mature_reserved := 0; ps_reserved := reserved; ps_collection_reserved := 16 |}.
Definition sample_events : list trigger_event := [EPending 4; EStart (10 ^ 9) (sample_stats 256); ERelease (sample_stats 300); EEnd (2 * 10 ^ 9) (sample_stats 400)].
Lemma heap_size_sound_witness :
  ∃ t0 t, trigger_new dynamic_options 0 = Some t0 ∧ for_each (do_event dynamic_options) sample_events t0 = Val t ∧
    heap_in_bounds (DynamicHeapSize (2 ^ 20) (2 ^ 24)) false t ∧
    ∀ b now' p, t = BalancerTrigger b → (ps_generational p = true → ps_nursery_gc p = false) → ∃ b', on_gc_end dynamic_options b now' p = Val b' ∧ accommodates dynamic_options b now' p b'.
Proof.
  apply (heap_size_sound sample_build dynamic_options 0 sample_events); [|by vm_compute]. apply with_setting_ok; [apply options_new_ok, sample_build_ok| |by vm_compute]. by vm_compute.
Defined.
(** The limit that the balancer computes in this example, in pages. *)
Lemma sample_limit : (t0 ← Val (default (FixedHeapSizeTrigger 0) (trigger_new dynamic_options 0)); get_current_heap_size_in_pages <$> for_each (do_event dynamic_options) sample_events t0) = Val 455.
Proof. by vm_compute. Qed.
(** A size of the last page of the address space is valid, but becomes zero pages: a fixed heap
    is always full, and the balancer panics at the end of the first collection. *)
Definition large_options : Options := with_setting (options_new sample_build) (existT gc_trigger (DynamicHeapSize (2 ^ 20) (2 ^ 64 - 1))).
Lemma last_page_overflows :
  trigger_validate (DynamicHeapSize (2 ^ 20) (2 ^ 64 - 1)) = true ∧ bytes_to_pages_up (2 ^ 64 - 1) = 0 ∧
  (t0 ← Val (default (FixedHeapSizeTrigger 0) (trigger_new large_options 0)); for_each (do_event large_options) sample_events t0) = Panic.
Proof. by vm_compute. Qed.
(** A heap of one megabyte has a nursery whose lower bound is above its upper bound. *)
Lemma nursery_bounds_cross :
  let p := {| ps_generational := true; ps_nursery_gc := false; ps_mature_reserved := 0; ps_reserved := 0; ps_collection_reserved := 0 |} in
  get_min_nursery_bytes (options_new sample_build) 256 p = Val (2 ^ 21) ∧ get_max_nursery_bytes (options_new sample_build) 256 p = Val (2 ^ 20).
Proof. by vm_compute. Qed.
