(* ===== verification/Generational.v ===== *)
(** * Generational copying (src/src/plan/generational: global.rs, copying/global.rs)

    New objects are in the nursery; a nursery collection copies the live ones to the mature
    space and leaves mature objects alone, a full collection also copies the mature space.  The
    features have no code, read-only or VM space. *)

From stdpp Require Import gmap.
From S2P Require Import Prelude RustStd Tracing ScanTracing Spaces LargeObjects SemiSpace.

(** ** The plan *)

Inductive gen_space : Type := GNursery | GCopy0 | GCopy1 | GImmortal | GLos | GNonMoving.
#[export] Instance gen_space_eq_dec : EqDecision gen_space.
Proof. solve_decision. Defined.

Record CommonGenPlan : Type := {
  gen_nursery : CopySpace; gen_common : CommonPlan; gc_full_heap : bool; next_gc_full_heap : bool;
  full_heap_gc_count : Z
}.
Record GenCopy : Type := {
  gc_gen : CommonGenPlan; gc_hi : bool; gc_copyspace0 : CopySpace; gc_copyspace1 : CopySpace;
  (** The metadata of objects, in tables and headers. *)
  gc_md : metadata
}.

(** What is outside the plan; [ge_copy] copies into the mature space that [hi] selects, which
    has room for [ge_capacity] objects. *)
Record gen_config : Type := {
  ge_om : object_model; ge_bm : measurement; ge_log_in_header : bool;
  ge_in_space : gen_space → Z → bool;
  ge_copy : bool → heap → list (Z * Z) → Z → heap * list (Z * Z) * Z;
  ge_capacity : nat
}.

Definition with_gen (p : GenCopy) (g : CommonGenPlan) (md : metadata) : GenCopy :=
  {| gc_gen := g; gc_hi := gc_hi p; gc_copyspace0 := gc_copyspace0 p; gc_copyspace1 := gc_copyspace1 p; gc_md := md |}.
Definition with_gen_common (g : CommonGenPlan) (cp : CommonPlan) : CommonGenPlan :=
  {| gen_nursery := gen_nursery g; gen_common := cp; gc_full_heap := gc_full_heap g; next_gc_full_heap := next_gc_full_heap g; full_heap_gc_count := full_heap_gc_count g |}.
Definition with_nursery (g : CommonGenPlan) (cs : CopySpace) : CommonGenPlan :=
  {| gen_nursery := cs; gen_common := gen_common g; gc_full_heap := gc_full_heap g; next_gc_full_heap := next_gc_full_heap g; full_heap_gc_count := full_heap_gc_count g |}.

Definition gen_tospace (p : GenCopy) : CopySpace := if gc_hi p then gc_copyspace1 p else gc_copyspace0 p.
Definition gen_fromspace (p : GenCopy) : CopySpace := if gc_hi p then gc_copyspace0 p else gc_copyspace1 p.
(** [tospace_mut] and [fromspace_mut]. *)
Definition set_gen_tospace (p : GenCopy) (cs : CopySpace) : GenCopy :=
  {| gc_gen := gc_gen p; gc_hi := gc_hi p; gc_copyspace0 := if gc_hi p then gc_copyspace0 p else cs; gc_copyspace1 := if gc_hi p then cs else gc_copyspace1 p; gc_md := gc_md p |}.
Definition set_gen_fromspace (p : GenCopy) (cs : CopySpace) : GenCopy :=
  {| gc_gen := gc_gen p; gc_hi := gc_hi p; gc_copyspace0 := if gc_hi p then cs else gc_copyspace0 p; gc_copyspace1 := if gc_hi p then gc_copyspace1 p else cs; gc_md := gc_md p |}.

(** ** When to collect *)

(** What the decisions read: pages, the bounds of the nursery, and the state of the last
    requests. *)
Record gen_stats : Type := {
  gs_nursery_reserved : Z; gs_tospace_reserved : Z; gs_tospace_available : Z; gs_common_used : Z; gs_total_pages : Z; gs_reserved_pages : Z;
  gs_max_nursery : Z; gs_min_nursery : Z; VM_WORST_CASE_COPY_EXPANSION : f64;
  gs_stress_force_gc : bool; gs_heap_full : bool; gs_out_of_virtual_space : bool;
  gs_user_triggered : bool; gs_full_heap_system_gc : bool; gs_collection_attempts : Z
}.

Definition base_collection_required (st : gen_stats) (space_full : bool) : bool :=
  space_full || gs_stress_force_gc st || gs_heap_full st || gs_out_of_virtual_space st.
Definition gen_get_collection_reserved_pages (st : gen_stats) : Z := gs_nursery_reserved st.
Definition gencopy_get_collection_reserved_pages (st : gen_stats) : Z := gen_get_collection_reserved_pages st +u gs_tospace_reserved st.
Definition gen_get_used_pages (st : gen_stats) : Z := gs_nursery_reserved st +u gs_common_used st.
Definition gencopy_get_used_pages (st : gen_stats) : Z := gen_get_used_pages st +u gs_tospace_reserved st.
Definition gencopy_get_available_pages (st : gen_stats) : Z := Z.shiftr (Z.max 0 (gs_total_pages st - gs_reserved_pages st)) 1.
Definition virtual_memory_exhausted (st : gen_stats) : bool :=
  gs_tospace_available st <? f64_to_usize (f64_mul (f64_of (gencopy_get_collection_reserved_pages st)) (VM_WORST_CASE_COPY_EXPANSION st)).

Definition set_next_gc_full_heap (g : CommonGenPlan) (next : bool) : CommonGenPlan :=
  {| gen_nursery := gen_nursery g; gen_common := gen_common g; gc_full_heap := gc_full_heap g; next_gc_full_heap := next; full_heap_gc_count := full_heap_gc_count g |}.
Definition force_full_heap_collection (g : CommonGenPlan) : CommonGenPlan := set_next_gc_full_heap g true.
Definition last_collection_full_heap (g : CommonGenPlan) : bool := gc_full_heap g.
Definition gen_is_current_gc_nursery (g : CommonGenPlan) : bool := negb (gc_full_heap g).

(** [space] is the space that was full, and whether it is the nursery. *)
Definition gen_collection_required (g : CommonGenPlan) (st : gen_stats) (space_full : bool) (space : option bool) : bool * CommonGenPlan :=
  if gs_max_nursery st <=? gs_nursery_reserved st then (true, g)
  else if virtual_memory_exhausted st then (true, g)
  else
    let is_triggered_by_nursery := default false space in
    let g := if space_full && negb is_triggered_by_nursery then set_next_gc_full_heap g true else g in
    (base_collection_required st space_full, g).
Definition requires_full_heap_collection (bm : measurement) (g : CommonGenPlan) (st : gen_stats) : bool * CommonGenPlan :=
  let is_full_heap :=
    if BARRIER_MEASUREMENT bm then true
    else if gs_user_triggered st && gs_full_heap_system_gc st then true
    else if next_gc_full_heap g || (1 <? gs_collection_attempts st) then true
    else if virtual_memory_exhausted st then true
    else false in
  (is_full_heap,
   {| gen_nursery := gen_nursery g; gen_common := gen_common g; gc_full_heap := is_full_heap; next_gc_full_heap := next_gc_full_heap g;
      full_heap_gc_count := full_heap_gc_count g |}).
Definition should_next_gc_be_full_heap (st : gen_stats) : bool := gencopy_get_available_pages st <? gs_min_nursery st.
Definition gencopy_end_of_gc (p : GenCopy) (st : gen_stats) : GenCopy :=
  with_gen p (set_next_gc_full_heap (gc_gen p) (should_next_gc_be_full_heap st)) (gc_md p).

Section plan.
Context (C : gen_config).
Abbreviation OM := (ge_om C).

(** ** Phases *)

Definition gen_prepare (g : CommonGenPlan) (md : metadata) : res (CommonGenPlan * metadata) :=
  let full_heap := negb (gen_is_current_gc_nursery g) in
  let count := if full_heap then full_heap_gc_count g + 1 else full_heap_gc_count g in
  '(cp, md) ← common_prepare OM (gen_common g) md full_heap;
  let nursery := set_copy_for_sft_trace (copyspace_prepare (gen_nursery g) true) (Some PromoteToMature) in
  Val ({| gen_nursery := nursery; gen_common := cp; gc_full_heap := gc_full_heap g; next_gc_full_heap := next_gc_full_heap g; full_heap_gc_count := count |}, md).
Definition gencopy_prepare (p : GenCopy) : res GenCopy :=
  let full_heap := negb (gen_is_current_gc_nursery (gc_gen p)) in
  '(g, md) ← gen_prepare (gc_gen p) (gc_md p);
  let hi := if full_heap then negb (gc_hi p) else gc_hi p in
  let p := {| gc_gen := g; gc_hi := hi; gc_copyspace0 := copyspace_prepare (gc_copyspace0 p) hi; gc_copyspace1 := copyspace_prepare (gc_copyspace1 p) (negb hi); gc_md := md |} in
  let p := set_gen_fromspace p (set_copy_for_sft_trace (gen_fromspace p) (Some Mature)) in
  Val (set_gen_tospace p (set_copy_for_sft_trace (gen_tospace p) None)).

Definition gen_release (g : CommonGenPlan) (md : metadata) : res (CommonGenPlan * metadata) :=
  let full_heap := negb (gen_is_current_gc_nursery g) in
  cp ← common_release OM (gen_common g) full_heap;
  let '(nursery, md) := copyspace_release OM (gen_nursery g) (ge_log_in_header C) md in
  Val (with_nursery (with_gen_common g cp) nursery, md).
Definition gencopy_release (p : GenCopy) : res GenCopy :=
  let full_heap := negb (gen_is_current_gc_nursery (gc_gen p)) in
  '(g, md) ← gen_release (gc_gen p) (gc_md p);
  if full_heap
  then let '(cs, md) := copyspace_release OM (gen_fromspace p) (ge_log_in_header C) md in Val (with_gen (set_gen_fromspace p cs) g md)
  else Val (with_gen p g md).

(** ** Tracing *)

Definition gen_trace_in_copyspace (cs : CopySpace) (semantics : CopySemantics) (h : heap) (p : GenCopy) (o : Z) : res (heap * GenCopy * Z * option Z) :=
  '(h, md, regions, o', queued) ←
    copyspace_trace_object OM (ge_copy C (gc_hi p)) cs (ge_log_in_header C) (Some semantics) h (gc_md p) (cs_regions (gen_tospace p)) o;
  Val (h, with_gen (set_gen_tospace p (with_regions (gen_tospace p) regions)) (gc_gen p) md, o', queued).
Definition gen_trace_in_los (h : heap) (p : GenCopy) (o : Z) : res (heap * GenCopy * Z * option Z) :=
  let cp := gen_common (gc_gen p) in
  '(los, md, o', queued) ← los_trace_object OM (ge_bm C) (cp_los cp) (gc_md p) o;
  Val (h, with_gen p (with_gen_common (gc_gen p) {| cp_immortal := cp_immortal cp; cp_los := los; cp_nonmoving := cp_nonmoving cp |}) md, o', queued).
Definition gen_trace_in_immortal (sp : ImmortalSpace) (h : heap) (p : GenCopy) (o : Z) : res (heap * GenCopy * Z * option Z) :=
  let '(md, o', queued) := immortal_trace_object sp (gc_md p) o in Val (h, with_gen p (gc_gen p) md, o', queued).

(** [CommonGenPlan::trace_object_nursery]. *)
Definition trace_object_nursery (h : heap) (p : GenCopy) (o : Z) : res (heap * GenCopy * Z * option Z) :=
  if ge_in_space C GNursery o then gen_trace_in_copyspace (gen_nursery (gc_gen p)) PromoteToMature h p o
  else if ge_in_space C GLos o then gen_trace_in_los h p o
  else Val (h, p, o, None).
(** [PlanTraceObject] as it is derived: the spaces of the plan, then those of its parents. *)
Definition gencopy_trace_object (h : heap) (p : GenCopy) (o : Z) : res (heap * GenCopy * Z * option Z) :=
  let cp := gen_common (gc_gen p) in
  if ge_in_space C GCopy0 o then gen_trace_in_copyspace (gc_copyspace0 p) Mature h p o
  else if ge_in_space C GCopy1 o then gen_trace_in_copyspace (gc_copyspace1 p) Mature h p o
  else if ge_in_space C GNursery o then gen_trace_in_copyspace (gen_nursery (gc_gen p)) PromoteToMature h p o
  else if ge_in_space C GImmortal o then gen_trace_in_immortal (cp_immortal cp) h p o
  else if ge_in_space C GLos o then gen_trace_in_los h p o
  else if ge_in_space C GNonMoving o then gen_trace_in_immortal (cp_nonmoving cp) h p o
  else Panic.

(** Nursery collections use [GenNurseryProcessEdges], full ones [PlanProcessEdges]. *)
Definition gen_trace : PlanTrace GenCopy := {|
  trace_object := λ h p o, if gen_is_current_gc_nursery (gc_gen p) then trace_object_nursery h p o else gencopy_trace_object h p o;
  post_scan_object := λ p _, p;
  may_move_objects := true
|}.
Definition gen_unlog (p : GenCopy) (o : Z) : GenCopy := with_gen p (gc_gen p) (mark_as_unlogged (gc_md p) o).
Definition gen_plan : GenTrace GenCopy := {|
  is_current_gc_nursery := λ p, gen_is_current_gc_nursery (gc_gen p);
  is_object_in_nursery := λ _ o, ge_in_space C GNursery o;
  unlog := gen_unlog
|}.

(** ** New objects *)

(** [ImmortalSpace::initialize_object_metadata]. *)
Definition immortal_initialize_object_metadata (sp : ImmortalSpace) (md : metadata) (o bytes : Z) : metadata :=
  let md := on_object_metadata_initialization OM (im_mark_state sp) md o in
  let md := if needs_log_bit (im_common sp) then mark_as_unlogged md o else md in
  if BARRIER_MEASUREMENT (ge_bm C) || (needs_log_bit (im_common sp) && needs_field_log_bit (im_common sp))
  then foldl mark_as_unlogged md (step_by o bytes (if COMPRESSED_PTR_ENABLED OM then 4 else 8))
  else md.
(** [Mutator::post_alloc] in the space of the object; a copy space does nothing. *)
Definition gen_post_alloc (k : gen_space) (p : GenCopy) (o bytes : Z) : res GenCopy :=
  let cp := gen_common (gc_gen p) in
  match k with
  | GNursery => Val p
  | GImmortal => Val (with_gen p (gc_gen p) (immortal_initialize_object_metadata (cp_immortal cp) (gc_md p) o bytes))
  | GNonMoving => Val (with_gen p (gc_gen p) (immortal_initialize_object_metadata (cp_nonmoving cp) (gc_md p) o bytes))
  | GLos =>
    '(los, md) ← los_initialize_object_metadata OM (cp_los cp) (gc_md p) o bytes true;
    Val (with_gen p (with_gen_common (gc_gen p) {| cp_immortal := cp_immortal cp; cp_los := los; cp_nonmoving := cp_nonmoving cp |}) md)
  | GCopy0 | GCopy1 => Panic
  end.

(** A nursery collection by one worker. *)
Definition gen_collect_nursery (buf : buffer_features) (fuel : nat) (h : heap) (p : GenCopy) (pool : list gc_packet) : res (heap * GenCopy) :=
  p ← gencopy_prepare p;
  '(h, p) ← @gc_pool GenCopy gen_trace gen_plan buf fuel None h p pool;
  p ← gencopy_release p;
  Val (h, p).
End plan.
