(* ===== verification/GenInv.v ===== *)
(** * Generational copying keeps the promises of tracing

    One invariant for nursery and full collections: the objects of the collected spaces move
    to the mature space, and whatever was visited is unlogged. *)

From stdpp Require Import gmap.
From S2P Require Import Prelude Tracing TracingInv ScanTracing Spaces LargeObjects LargeObjectsTheorems SemiSpace SemiSpaceInv Generational.

(** Tracing a large object touches its own unlog bit only. *)
Lemma los_trace_unlog OM bm sp md o sp' md' o' queued :
  los_trace_object OM bm sp md o = Val (sp', md', o', queued) →
  (∀ x, md_unlog md' x = md_unlog md x ∨ x = o ∧ md_unlog md' x = 1) ∧
  (los_rc_enabled sp = false → needs_log_bit (los_common sp) = true → needs_field_log_bit (los_common sp) = false → BARRIER_MEASUREMENT_NO_SLOW bm = false →
   is_Some queued → md_unlog md' o = 1).
Proof.
  unfold los_trace_object, test_and_mark. intros E.
  assert (∀ md1 x, md_unlog md1 = md_unlog md → md_unlog (unlog_object OM bm sp md1 o) x = md_unlog md x ∨ x = o ∧ md_unlog (unlog_object OM bm sp md1 o) x = 1) as Hu.
  { intros md1 x E1. unfold unlog_object. destruct (_ && _ && _); [destruct (needs_field_log_bit _)|]; cbn [set_field_unlog set_unlog md_unlog]; rewrite ?E1; [by left| |by left].
    destruct (decide (x = o)) as [-> |]; [right; by rewrite fn_lookup_insert|left; by rewrite fn_lookup_insert_ne]. }
  destruct (los_rc_enabled sp) eqn:Erc; [apply bind_Val in E as ([marked md1] & E0 & E); apply bind_Val in E0 as (u & _ & E0); destruct (_ =? _); injection E0 as <- <-; injection E as <- <- <- <-; (split; [by left|done])|].
  destruct (_ || _); [|injection E as <- <- <- <-; split; [by left|intros ? ? ? ? []; done]].
  apply bind_Val in E as ([marked md1] & E0 & E). apply bind_Val in E0 as (u & _ & E0).
  destruct (_ =? _); injection E0 as <- <-; [injection E as <- <- <- <-; split; [by left|intros ? ? ? ? []; done]|].
  apply bind_Val in E as (t & _ & E). injection E as <- <- <- <-. split; [intros x; by apply Hu|]. intros _ H1 H2 H3 _. unfold unlog_object. rewrite Erc, H1, H2, H3. cbn. by rewrite fn_lookup_insert.
Qed.

Section gen.
Context (C : gen_config).
Abbreviation OM := (ge_om C).
#[local] Hint Extern 0 (PlanTrace GenCopy) => exact (gen_trace C) : typeclass_instances.
#[local] Hint Extern 0 (GenTrace GenCopy) => exact (gen_plan C) : typeclass_instances.

(** ** Spaces of objects *)

Definition gspace_of (o : Z) : option gen_space :=
  if ge_in_space C GNursery o then Some GNursery else if ge_in_space C GCopy0 o then Some GCopy0 else if ge_in_space C GCopy1 o then Some GCopy1
  else if ge_in_space C GImmortal o then Some GImmortal else if ge_in_space C GLos o then Some GLos else if ge_in_space C GNonMoving o then Some GNonMoving else None.
Definition gto_of (hi : bool) : gen_space := if hi then GCopy1 else GCopy0.
Definition gfrom_of (hi : bool) : gen_space := if hi then GCopy0 else GCopy1.
Definition gobjects_in (k : gen_space) (h : heap) : gset Z := filter (λ o, gspace_of o = Some k) (dom (h_fields h)).
Definition glarge_objects (h : heap) : gset Z := gobjects_in GLos h.

(** The address ranges of the spaces are disjoint. *)
Definition spaces_disjoint : Prop := ∀ k k' o, ge_in_space C k o = true → ge_in_space C k' o = true → k = k'.
(** What [ObjectModel::copy] is documented to do while there is room: the copy is a new object
    in the mature space, in memory that the copy allocator got from the page resource. *)
Definition gen_copy_ok : Prop := ∀ hi h regions o, is_Some (h_fields h !! o) → (size (gobjects_in (gto_of hi) h) < ge_capacity C)%nat →
  let '(h', regions', o') := ge_copy C hi h regions o in
  copied h o h' o' ∧ h_fields h !! o' = None ∧ gspace_of o' = Some (gto_of hi) ∧ covered regions' o' ∧ ∀ x, covered regions x → covered regions' x.
(** The mark and nursery bits of large objects are side metadata. *)
Context (Hdisj : spaces_disjoint) (Hcopy : gen_copy_ok) (Hloside : los_bits_on_side OM = true).

Lemma gspace_in o k : gspace_of o = Some k ↔ ge_in_space C k o = true.
Proof.
  unfold gspace_of. split; [repeat case_match; intros E; by simplify_eq|]. intros Hk.
  repeat match goal with |- context [ge_in_space C ?k' o] => destruct (ge_in_space C k' o) eqn:? end; try (f_equal; by eapply Hdisj).
  by destruct k; congruence.
Qed.
Lemma in_space_eq o k k' : gspace_of o = Some k → ge_in_space C k' o = bool_decide (k' = k).
Proof.
  intros E. case_bool_decide as Hk; [subst; by apply gspace_in|]. apply not_true_iff_false. intros E'%gspace_in. congruence.
Qed.
Lemma gobjects_elem k h o : o ∈ gobjects_in k h ↔ is_Some (h_fields h !! o) ∧ gspace_of o = Some k.
Proof. unfold gobjects_in. rewrite elem_of_filter, elem_of_dom. tauto. Qed.

(** ** The invariant *)

Definition full (p : GenCopy) : bool := gc_full_heap (gc_gen p).
(** The spaces that are copied. *)
Definition moves (p : GenCopy) (k : gen_space) : bool := bool_decide (k = GNursery) || (full p && bool_decide (k = gfrom_of (gc_hi p))).
Definition moving (p : GenCopy) (o : Z) : Prop := ∃ k, gspace_of o = Some k ∧ moves p k = true.
#[local] Instance moving_dec p o : Decision (moving p o).
Proof. unfold moving. destruct (gspace_of o) as [k|]; [destruct (moves p k) eqn:E; [left; by exists k|right; intros (? & [= <-] & ?); congruence]|right; by intros (? & ? & _)]. Defined.
Definition moving_regions (p : GenCopy) : list (Z * Z) := cs_regions (gen_nursery (gc_gen p)) ++ if full p then cs_regions (gen_fromspace p) else [].
Definition moving_objects (h : heap) (p : GenCopy) : gset Z := filter (moving p) (dom (h_fields h)).
Definition moved_objects (h : heap) (p : GenCopy) : gset Z := filter (λ o, is_Some (md_forward (gc_md p) !! o)) (moving_objects h p).
Abbreviation los p := (cp_los (gen_common (gc_gen p))).
Abbreviation immortal p := (cp_immortal (gen_common (gc_gen p))).
Abbreviation nonmoving p := (cp_nonmoving (gen_common (gc_gen p))).

Definition gen_fw (p : GenCopy) (o : Z) : option Z :=
  match gspace_of o with
  | Some GNursery => md_forward (gc_md p) !! o
  | Some GLos => if los_visited (los p) (gc_md p) o then Some o else None
  | Some GImmortal => if negb (full p) || is_marked_state (im_mark_state (immortal p)) (gc_md p) o then Some o else None
  | Some GNonMoving => if negb (full p) || is_marked_state (im_mark_state (nonmoving p)) (gc_md p) o then Some o else None
  | Some k => if moves p k then md_forward (gc_md p) !! o else Some o
  | None => if full p then None else Some o
  end.

(** The flags of spaces with an object barrier. *)
Definition logs (c : CommonSpace) : Prop := needs_log_bit c = true ∧ needs_field_log_bit c = false.
Definition gside_marks (h : heap) (k : gen_space) (sp : ImmortalSpace) : Prop :=
  mark_in_header OM = false → im_mark_state sp = 1 ∧ ∀ o, is_Some (h_fields h !! o) → gspace_of o = Some k → covered (mark_regions sp) o.
Record gen_flags (p : GenCopy) : Prop := {
  gf_nursery : logs (cs_common (gen_nursery (gc_gen p)));
  gf_copy0 : logs (cs_common (gc_copyspace0 p));
  gf_copy1 : logs (cs_common (gc_copyspace1 p));
  gf_los : logs (los_common (los p));
  gf_immortal : logs (im_common (immortal p));
  gf_nonmoving : logs (im_common (nonmoving p));
  gf_slow : BARRIER_MEASUREMENT_NO_SLOW (ge_bm C) = false
}.

Record gen_inv (h : heap) (p : GenCopy) : Prop := {
  gn_nursery : cs_from_space (gen_nursery (gc_gen p)) = true;
  gn_flag0 : cs_from_space (gc_copyspace0 p) = gc_hi p;
  gn_flag1 : cs_from_space (gc_copyspace1 p) = negb (gc_hi p);
  gn_spaces o : is_Some (h_fields h !! o) → is_Some (gspace_of o);
  gn_empty o : full p = false → is_Some (h_fields h !! o) → gspace_of o ≠ Some (gfrom_of (gc_hi p));
  gn_forward o o' : is_Some (h_fields h !! o) → moving p o → md_forward (gc_md p) !! o = Some o' → gspace_of o' = Some (gto_of (gc_hi p));
  gn_others o : is_Some (h_fields h !! o) → ¬ moving p o → md_forward (gc_md p) !! o = None;
  gn_side o : forwarding_in_header OM = false → is_Some (md_forward (gc_md p) !! o) → covered (moving_regions p) o;
  gn_side_to o : forwarding_in_header OM = false → gspace_of o = Some (gto_of (gc_hi p)) → md_forward (gc_md p) !! o = None;
  gn_from_regions o : is_Some (h_fields h !! o) → moving p o → covered (moving_regions p) o;
  gn_to_regions o : is_Some (h_fields h !! o) → gspace_of o = Some (gto_of (gc_hi p)) → covered (cs_regions (gen_tospace p)) o;
  gn_room : (size (gobjects_in (gto_of (gc_hi p)) h) + size (moving_objects h p) ≤ ge_capacity C + size (moved_objects h p))%nat;
  gn_los : los_tracing (glarge_objects h) (los p) (gc_md p);
  gn_mode : los_in_nursery_gc (los p) = negb (full p);
  gn_flags : gen_flags p;
  gn_immortal : gside_marks h GImmortal (immortal p);
  gn_nonmoving : gside_marks h GNonMoving (nonmoving p)
}.

Lemma with_gen_same p : with_gen p (gc_gen p) (gc_md p) = p.
Proof. by destruct p. Qed.
Lemma set_gen_tospace_same p : with_gen (set_gen_tospace p (with_regions (gen_tospace p) (cs_regions (gen_tospace p)))) (gc_gen p) (gc_md p) = p.
Proof. destruct p as [g hi [] [] md]. by destruct hi. Qed.
Lemma moves_to p : moves p (gto_of (gc_hi p)) = false.
Proof. unfold moves. by destruct (gc_hi p), (full p). Qed.

(** ** What was visited *)

Lemma gen_fw_moving p o : moving p o → gen_fw p o = md_forward (gc_md p) !! o.
Proof.
  intros (k & Ek & Hm). unfold gen_fw. rewrite Ek. destruct k; rewrite ?Hm; try done;
    unfold moves in Hm; rewrite bool_decide_false in Hm by done; destruct (full p), (gc_hi p); done.
Qed.
Lemma gen_fw_still p o o' : ¬ moving p o → gen_fw p o = Some o' → o' = o.
Proof.
  intros Hm E. unfold gen_fw in E. destruct (gspace_of o) as [k|] eqn:Ek; [|by destruct (full p); simplify_eq].
  assert (moves p k = false) as Hk by (apply not_true_iff_false; intros Hk; apply Hm; by exists k). destruct k; try done; try (by repeat case_match; simplify_eq).
Qed.
Lemma to_not_moving p o : gspace_of o = Some (gto_of (gc_hi p)) → ¬ moving p o ∧ gen_fw p o = Some o.
Proof.
  intros Ek. split; [intros (k & Ek' & Hm); rewrite Ek in Ek'; injection Ek' as <-; by rewrite moves_to in Hm|].
  unfold gen_fw. rewrite Ek. pose proof (moves_to p) as Hm. by destruct (gc_hi p); cbn in *; rewrite Hm.
Qed.

Lemma gen_idem h p o o' : gen_inv h p → is_Some (h_fields h !! o) → gen_fw p o = Some o' → gen_fw p o' = Some o'.
Proof.
  intros HI Ho E. destruct (decide (moving p o)) as [Hm|Hm]; [|pose proof (gen_fw_still p o o' Hm E); by subst].
  rewrite gen_fw_moving in E by done. by apply to_not_moving, (gn_forward _ _ HI o).
Qed.
Lemma gen_los_same p : with_gen p (with_gen_common (gc_gen p) {| cp_immortal := immortal p; cp_los := los p; cp_nonmoving := nonmoving p |}) (gc_md p) = p.
Proof. by destruct p as [[? []] ? ? ? ?]. Qed.

Lemma gen_copyspace_visited h p o o' cs semantics :
  md_forward (gc_md p) !! o = Some o' ∧ cs_from_space cs = true ∨ o' = o ∧ cs_from_space cs = false →
  gen_trace_in_copyspace C cs semantics h p o = Val (h, p, o', None).
Proof.
  intros Hcs. unfold gen_trace_in_copyspace, copyspace_trace_object.
  destruct Hcs as [[-> ->]|[-> ->]]; cbn [negb mbind res_bind]; by rewrite set_gen_tospace_same.
Qed.
Lemma gen_visited h p o o' : gen_inv h p → gen_fw p o = Some o' → trace_object h p o = Val (h, p, o', None).
Proof.
  intros HI E. cbn [trace_object gen_trace]. unfold gen_is_current_gc_nursery. change (gc_full_heap (gc_gen p)) with (full p).
  unfold gen_fw in E. unfold trace_object_nursery, gencopy_trace_object, gen_trace_in_immortal, gen_trace_in_los, immortal_trace_object, test_and_mark_state.
  assert (∀ k, gspace_of o = Some k → k = GCopy0 ∨ k = GCopy1 → full p = true → (if moves p k then md_forward (gc_md p) !! o else Some o) = Some o' →
    gen_trace_in_copyspace C (if bool_decide (k = GCopy0) then gc_copyspace0 p else gc_copyspace1 p) Mature h p o = Val (h, p, o', None)) as Hc.
  { intros k Ek Hk Hf Em. apply gen_copyspace_visited. unfold moves in Em. rewrite Hf in Em. destruct Hk as [-> | ->]; [rewrite (bool_decide_true (GCopy0 = GCopy0)) by done|rewrite (bool_decide_false (GCopy1 = GCopy0)) by done].
    - rewrite (gn_flag0 _ _ HI). destruct (gc_hi p); cbn in *; [by left|right; naive_solver].
    - rewrite (gn_flag1 _ _ HI). destruct (gc_hi p); cbn in *; [right; naive_solver|by left]. }
  destruct (gspace_of o) as [k|] eqn:Ek.
  - rewrite !(in_space_eq o k) by done. destruct (full p) eqn:Ef; cbn [negb] in *.
    + destruct k; cbn [bool_decide] in *.
      * rewrite !bool_decide_false, bool_decide_true by done. apply gen_copyspace_visited. left. split; [done|]. apply HI.
      * rewrite bool_decide_true by done. specialize (Hc GCopy0 eq_refl). rewrite bool_decide_true in Hc by done. apply Hc; auto.
      * rewrite bool_decide_false, bool_decide_true by done. specialize (Hc GCopy1 eq_refl). rewrite bool_decide_false in Hc by done. apply Hc; auto.
      * rewrite !bool_decide_false, bool_decide_true by done. cbn in E. unfold is_marked_state in E. destruct (_ =? _); [|done]. injection E as <-. by rewrite with_gen_same.
      * rewrite !bool_decide_false, bool_decide_true by done. destruct (los_visited _ _ o) eqn:Ev; [|done]. injection E as <-.
        rewrite (los_trace_visited _ _ Hloside _ _ _ _ (gn_los _ _ HI) Ev). cbn [mbind res_bind]. by rewrite gen_los_same.
      * rewrite !bool_decide_false, bool_decide_true by done. cbn in E. unfold is_marked_state in E. destruct (_ =? _); [|done]. injection E as <-. by rewrite with_gen_same.
    + assert (∀ k', k' ≠ GNursery → moves p k' = false) as Hmv by (intros k' ?; unfold moves; rewrite Ef; by rewrite bool_decide_false).
      destruct (decide (k = GNursery)) as [-> |Hk]; [rewrite bool_decide_true by done; apply gen_copyspace_visited; left; split; [done|]; apply HI|].
      rewrite (bool_decide_false (GNursery = k)) by done. destruct (decide (k = GLos)) as [-> |Hk2]; [rewrite bool_decide_true by done|rewrite bool_decide_false by done].
      * destruct (los_visited _ _ o) eqn:Ev; [|done]. injection E as <-. rewrite (los_trace_visited _ _ Hloside _ _ _ _ (gn_los _ _ HI) Ev). cbn [mbind res_bind]. by rewrite gen_los_same.
      * destruct k; try done; rewrite ?Hmv in E by done; by injection E as <-.
  - assert (∀ k, ge_in_space C k o = false) as Hn by (intros k; apply not_true_iff_false; intros Hk%gspace_in; congruence). rewrite !Hn.
    destruct (full p); [done|]. by injection E as <-.
Qed.

(** ** The first visit *)

(** What a visit leaves alone, and the unlog bit that it sets. *)
Record gen_kept (h : heap) (p : GenCopy) (h' : heap) (p' : GenCopy) : Prop := {
  gk_hi : gc_hi p' = gc_hi p;
  gk_full : full p' = full p;
  gk_nursery : gen_nursery (gc_gen p') = gen_nursery (gc_gen p);
  gk_released : los_released (los p') = los_released (los p);
  gk_large : glarge_objects h' = glarge_objects h;
  gk_unlog x : md_unlog (gc_md p) x = 1 → md_unlog (gc_md p') x = 1
}.
Definition gen_visits (h : heap) (p : GenCopy) (o : Z) (m : res (heap * GenCopy * Z * option Z)) : Prop :=
  ∃ h' p' o', m = Val (h', p', o', Some o') ∧ copied h o h' o' ∧ gen_inv h' p' ∧ gen_kept h p h' p' ∧ md_unlog (gc_md p') o' = 1 ∧
    ∀ x, gen_fw p' x = if decide (x = o ∨ x = o') then Some o' else gen_fw p x.

Lemma moving_eq p p' o : gc_hi p' = gc_hi p → full p' = full p → moving p' o ↔ moving p o.
Proof. intros E1 E2. unfold moving, moves. by rewrite E1, E2. Qed.

(** Copying. *)
Lemma gen_first_copy h p o cs semantics :
  gen_inv h p → is_Some (h_fields h !! o) → moving p o → md_forward (gc_md p) !! o = None → cs_from_space cs = true → logs (cs_common cs) → is_mature semantics = true →
  gen_visits h p o (gen_trace_in_copyspace C cs semantics h p o).
Proof.
  intros HI Ho Hm Hn Hcs [Hl1 Hl2] Hma. unfold gen_trace_in_copyspace, copyspace_trace_object. rewrite Hcs, Hn. cbn [negb unwrap mbind res_bind].
  assert (size (moved_objects h p) < size (moving_objects h p))%nat as Hroom.
  { apply subset_size. split; [unfold moved_objects; set_solver|]. intros Hsub. specialize (Hsub o). unfold moved_objects, moving_objects in Hsub.
    rewrite !elem_of_filter, Hn, elem_of_dom in Hsub. destruct Hsub as [[? ?] _]; [by split|done]. }
  pose proof (gn_room _ _ HI) as Hle. pose proof (Hcopy (gc_hi p) h (cs_regions (gen_tospace p)) o Ho ltac:(lia)) as HC.
  destruct (ge_copy C (gc_hi p) h (cs_regions (gen_tospace p)) o) as [[h' regions'] o']. destruct HC as (Hc & Hn' & Eto & Hcov & Hmore).
  destruct (post_copy_ok OM (ge_log_in_header C) (cs_common cs) semantics (gc_md p) o') as (md1 & -> & Efo & Emark1 & Elos1 & Hun & Huo); [intros Hfh; by apply (gn_side_to _ _ HI)|].
  rewrite Hma, Hl1, Hl2 in Huo. specialize (Huo eq_refl). cbn [mbind res_bind].
  assert (o ≠ o') as Hne by (intros <-; rewrite Hn' in Ho; by destruct Ho).
  assert (∃ fs', h_fields h' = <[o' := fs']> (h_fields h)) as [fs' Ef] by (destruct Hc as [? ->|? fs' ? ? ? ?]; [done|by exists fs']).
  set (md' := set_forward md1 _). set (p' := with_gen _ _ _). exists h', p', o'. split; [done|]. split; [done|].
  assert (md_forward md' !! o = Some o') as Emo by apply lookup_insert_eq.
  assert (∀ x, x ≠ o → x ≠ o' → md_forward md' !! x = md_forward (gc_md p) !! x) as Emd.
  { intros x Hx Hx'. cbn [md' md_forward set_forward]. rewrite lookup_insert_ne, Efo by done. by apply lookup_delete_ne. }
  assert (md_forward md' !! o' = None) as Emt by (cbn [md' md_forward set_forward]; rewrite lookup_insert_ne, Efo by done; apply lookup_delete_eq).
  assert (∀ x, is_Some (h_fields h' !! x) ↔ x = o' ∨ is_Some (h_fields h !! x)) as Hdom.
  { intros x. rewrite Ef. destruct (decide (x = o')) as [-> |]; [rewrite lookup_insert_eq; naive_solver|]. rewrite lookup_insert_ne by done. naive_solver. }
  assert (gc_hi p' = gc_hi p ∧ gc_md p' = md' ∧ gc_gen p' = gc_gen p) as (Ehi & Emd' & Eg) by done.
  assert (∀ x, moving p' x ↔ moving p x) as Hmv by (intros x; by apply moving_eq).
  destruct (to_not_moving p o' Eto) as [Hnm _].
  assert (∀ k, gobjects_in k h' = if decide (k = gto_of (gc_hi p)) then {[o']} ∪ gobjects_in k h else gobjects_in k h) as Hobj.
  { intros k0. apply set_eq. intros x. case_decide as Hk0; rewrite ?elem_of_union, ?elem_of_singleton, !gobjects_elem, Hdom; [naive_solver|].
    split; [|naive_solver]. intros [[-> |?] Ex]; [congruence|done]. }
  assert (moving_objects h' p' = moving_objects h p) as Emo'.
  { unfold moving_objects. apply set_eq. intros x. rewrite !elem_of_filter, !elem_of_dom, Hdom, Hmv. split; [|naive_solver]. intros [? [-> |?]]; done. }
  assert (moved_objects h' p' = {[o]} ∪ moved_objects h p) as Emoved.
  { unfold moved_objects. rewrite Emo', Emd'. apply set_eq. intros x. rewrite elem_of_union, elem_of_singleton, !elem_of_filter.
    destruct (decide (x = o)) as [-> |Hx]; [rewrite Emo; unfold moving_objects; rewrite elem_of_filter, elem_of_dom; naive_solver|].
    destruct (decide (x = o')) as [-> |Hx']; [|rewrite Emd by done; naive_solver]. unfold moving_objects. rewrite elem_of_filter. tauto. }
  assert (glarge_objects h' = glarge_objects h) as Elarge by (unfold glarge_objects; rewrite Hobj, decide_False; [done|by destruct (gc_hi p)]).
  assert (cs_from_space (gc_copyspace0 p') = cs_from_space (gc_copyspace0 p) ∧ cs_from_space (gc_copyspace1 p') = cs_from_space (gc_copyspace1 p) ∧
    cs_common (gc_copyspace0 p') = cs_common (gc_copyspace0 p) ∧ cs_common (gc_copyspace1 p') = cs_common (gc_copyspace1 p)) as (F0 & F1 & F2 & F3).
  { unfold p', set_gen_tospace, gen_tospace. cbn. by destruct (gc_hi p). }
  assert (gen_fromspace p' = gen_fromspace p ∧ cs_regions (gen_tospace p') = regions') as [Rf Rt] by (unfold p', set_gen_tospace, gen_tospace, gen_fromspace; cbn; by destruct (gc_hi p)).
  assert (moving_regions p' = moving_regions p) as Erg by (unfold moving_regions; by rewrite Rf, Eg).
  assert (full p' = full p) as Eful by done.
  assert (∀ x, md_unlog (gc_md p) x = 1 → md_unlog md' x = 1) as Hmono by (intros x Hx; change (md_unlog md1 x = 1); destruct (Hun x) as [-> |[? _]]; done).
  assert (gen_inv h' p') as HI'.
  { split; rewrite ?Ehi, ?Emd', ?Eg, ?F0, ?F1, ?Rt, ?Erg, ?Eful; try by apply HI.
    - intros x [-> |Hx]%Hdom; [by rewrite Eto|]. by apply (gn_spaces _ _ HI).
    - intros x Hf [-> |Hx]%Hdom; [by rewrite Eto; destruct (gc_hi p)|]. by apply (gn_empty _ _ HI).
    - intros x x' Hx Hxm%Hmv E. destruct (decide (x = o)) as [-> |Hxo]; [congruence|]. destruct (proj1 (Hdom x) Hx) as [-> |Hx']; [congruence|].
      rewrite Emd in E; [by apply (gn_forward _ _ HI x)|done|]. intros ->. congruence.
    - intros x Hx Hxm. rewrite Hmv in Hxm. assert (x ≠ o) by (intros ->; done). destruct (decide (x = o')) as [-> |Hx']; [done|].
      rewrite Emd by done. apply (gn_others _ _ HI); [|done]. by destruct (proj1 (Hdom x) Hx).
    - intros x Hfh Hs. destruct (decide (x = o)) as [-> |Hxo]; [by apply (gn_from_regions _ _ HI)|]. destruct (decide (x = o')) as [-> |?]; [rewrite Emt in Hs; by destruct Hs|].
      rewrite Emd in Hs by done. by apply (gn_side _ _ HI).
    - intros x Hfh Ex. destruct (decide (x = o')) as [-> |?]; [done|]. rewrite Emd; [by apply (gn_side_to _ _ HI)| |done].
      intros ->. by apply (to_not_moving p o).
    - intros x Hx Hxm%Hmv. destruct (proj1 (Hdom x) Hx) as [-> |Hx']; [done|]. by apply (gn_from_regions _ _ HI).
    - intros x Hx Ex. destruct (proj1 (Hdom x) Hx) as [-> |Hx']; [done|]. by apply Hmore, (gn_to_regions _ _ HI).
    - rewrite Emo', Emoved, Hobj, decide_True by done. rewrite !size_union, !size_singleton; [lia|..].
      + rewrite disjoint_singleton_l. unfold moved_objects. rewrite elem_of_filter, Hn. intros [[? ?] _]. done.
      + rewrite disjoint_singleton_l, gobjects_elem, Hn'. intros [[? ?] _]. done.
    - rewrite Elarge. by eapply los_tracing_ext, (gn_los _ _ HI).
    - destruct (gn_flags _ _ HI). split; rewrite ?F2, ?F3, ?Eg; done.
    - intros Hmh. destruct (gn_immortal _ _ HI Hmh) as [? Hcv]. split; [done|]. intros x [-> |?]%Hdom Ex; [destruct (gc_hi p); cbn in Eto; congruence|by apply Hcv].
    - intros Hmh. destruct (gn_nonmoving _ _ HI Hmh) as [? Hcv]. split; [done|]. intros x [-> |?]%Hdom Ex; [destruct (gc_hi p); cbn in Eto; congruence|by apply Hcv]. }
  split; [done|]. split; [by split|]. split; [done|].
  intros x. destruct (decide (x = o ∨ x = o')) as [[-> | ->]|Hx]; [rewrite gen_fw_moving by (by apply Hmv); done|by apply to_not_moving|].
  unfold gen_fw. rewrite Eg, Emd', (los_visited_ext _ (gc_md p) md') by done. unfold is_marked_state. change (md_mark md') with (md_mark md1). rewrite Emark1.
  rewrite Emd by tauto. done.
Qed.

(** Marking in place. *)
Lemma gen_inv_marked h p cp md' :
  gen_inv h p → md_forward md' = md_forward (gc_md p) → los_tracing (glarge_objects h) (cp_los cp) md' → los_in_nursery_gc (cp_los cp) = los_in_nursery_gc (los p) →
  los_common (cp_los cp) = los_common (los p) → cp_immortal cp = immortal p → cp_nonmoving cp = nonmoving p → gen_inv h (with_gen p (with_gen_common (gc_gen p) cp) md').
Proof.
  intros HI Ef Hl Hg Hc E1 E2. assert (moved_objects h (with_gen p (with_gen_common (gc_gen p) cp) md') = moved_objects h p) as Em.
  { unfold moved_objects, moving_objects. cbn [with_gen gc_md]. by rewrite Ef. }
  destruct HI. split; rewrite ?Em; cbn [with_gen with_gen_common gc_gen gc_md gc_hi gc_copyspace0 gc_copyspace1 gen_nursery gen_common full gc_full_heap] in *; rewrite ?Ef, ?E1, ?E2; try done.
  - by rewrite Hg.
  - destruct gn_flags0. split; cbn [with_gen with_gen_common gc_gen gc_copyspace0 gc_copyspace1 gen_nursery gen_common]; rewrite ?Hc, ?E1, ?E2; done.
Qed.
Lemma gen_inv_md h p md' :
  gen_inv h p → md_forward md' = md_forward (gc_md p) → md_los md' = md_los (gc_md p) → gen_inv h (with_gen p (gc_gen p) md').
Proof.
  intros HI Ef El. pose proof (gen_inv_marked h p (gen_common (gc_gen p)) md' HI Ef) as Hm. replace (with_gen_common _ _) with (gc_gen p) in Hm by (by destruct (gc_gen p)).
  apply Hm; try done. by eapply los_tracing_ext, (gn_los _ _ HI).
Qed.

Lemma gen_first_los h p o :
  gen_inv h p → is_Some (h_fields h !! o) → gspace_of o = Some GLos → gen_fw p o = None → gen_visits h p o (gen_trace_in_los C h p o).
Proof.
  intros HI Ho Ek En. unfold gen_fw in En. rewrite Ek in En. destruct (los_visited _ _ o) eqn:Ev; [done|]. pose proof (proj2 (gobjects_elem GLos h o) (conj Ho Ek)) as Hl.
  destruct (los_trace_first OM (ge_bm C) Hloside _ _ _ _ (gn_los _ _ HI) Hl Ev) as (sp' & md' & Ec & HT & Eg & Eco & Er & Ef & Ema & Hv).
  destruct (los_trace_unlog _ _ _ _ _ _ _ _ _ Ec) as [Hu Huo]. unfold gen_trace_in_los. rewrite Ec. cbn [mbind res_bind].
  destruct (gn_flags _ _ HI) as [_ _ _ [L1 L2] _ _ L3]. eexists _, _, o. split; [reflexivity|]. split; [by apply copied_same|].
  split; [by apply gen_inv_marked|]. split; [|split; [apply Huo; try done; apply HI|]].
  - split; try done. intros x Hx. cbn [with_gen gc_md]. destruct (Hu x) as [-> |[_ ?]]; done.
  - intros x. unfold gen_fw, moves, full. cbn [with_gen with_gen_common gc_gen gc_md gen_common cp_los cp_immortal cp_nonmoving gc_full_heap gc_hi]. rewrite Ef, Hv. unfold is_marked_state. rewrite Ema.
    destruct (decide (x = o ∨ x = o)) as [Hx|Hx]; [assert (x = o) as -> by tauto; by rewrite Ek, bool_decide_true|]. by rewrite bool_decide_false by tauto.
Qed.
Lemma gen_first_immortal h p o k sp :
  gen_inv h p → full p = true → gspace_of o = Some k → k = GImmortal ∧ sp = immortal p ∨ k = GNonMoving ∧ sp = nonmoving p → gen_fw p o = None →
  gen_visits h p o (gen_trace_in_immortal sp h p o).
Proof.
  intros HI Hf Ek Hk En. assert (is_marked_state (im_mark_state sp) (gc_md p) o = false ∧ logs (im_common sp)) as [Hm [L1 L2]].
  { unfold gen_fw in En. rewrite Ek, Hf in En. pose proof (gn_flags _ _ HI) as []. destruct Hk as [[-> ->]|[-> ->]]; cbn in En; by destruct (is_marked_state _ _ o). }
  unfold gen_trace_in_immortal, immortal_trace_object, test_and_mark_state. unfold is_marked_state in Hm. rewrite Hm, L1.
  eexists _, _, o. split; [reflexivity|]. split; [by apply copied_same|]. split; [by apply gen_inv_md|]. split; [|split].
  - split; try done. intros x Hx. cbn [with_gen gc_md mark_as_unlogged set_unlog md_unlog]. destruct (decide (x = o)) as [-> |]; [by rewrite fn_lookup_insert|by rewrite fn_lookup_insert_ne].
  - cbn [with_gen gc_md mark_as_unlogged set_unlog md_unlog]. by rewrite fn_lookup_insert.
  - intros x. unfold gen_fw, moves, full. cbn [with_gen gc_gen gc_md mark_as_unlogged set_unlog set_mark md_forward gc_hi].
    rewrite (los_visited_ext _ (gc_md p)) by done. unfold is_marked_state. unfold mark_as_unlogged. cbn [md_mark set_unlog set_mark].
    destruct (decide (x = o ∨ x = o)) as [Hx|Hx].
    + assert (x = o) as -> by tauto. rewrite Ek, !fn_lookup_insert. destruct Hk as [[-> ->]|[-> ->]]; by rewrite Z.eqb_refl, orb_true_r.
    + by rewrite !fn_lookup_insert_ne by (intros ?; subst; tauto).
Qed.

Lemma gen_first h p o :
  gen_inv h p → is_Some (h_fields h !! o) → gen_fw p o = None → gen_visits h p o (trace_object h p o).
Proof.
  intros HI Ho En. destruct (gn_spaces _ _ HI o Ho) as [k Ek]. cbn [trace_object gen_trace]. unfold gen_is_current_gc_nursery. change (gc_full_heap (gc_gen p)) with (full p).
  pose proof (gn_flags _ _ HI) as HF. unfold trace_object_nursery, gencopy_trace_object. rewrite !(in_space_eq o k) by done.
  destruct (decide (k = GNursery)) as [-> |Hkn].
  { assert (moving p o) as Hm by (exists GNursery; split; [done|]; by unfold moves). rewrite gen_fw_moving in En by done.
    rewrite (bool_decide_true (GNursery = GNursery)), (bool_decide_false (GCopy0 = GNursery)), (bool_decide_false (GCopy1 = GNursery)) by done.
    destruct (negb _); apply gen_first_copy; try done; try apply HI; apply HF. }
  destruct (decide (k = GLos)) as [-> |Hkl].
  { rewrite (bool_decide_true (GLos = GLos)), (bool_decide_false (GNursery = GLos)), (bool_decide_false (GCopy0 = GLos)), (bool_decide_false (GCopy1 = GLos)),
      (bool_decide_false (GImmortal = GLos)) by done. destruct (negb _); by apply gen_first_los. }
  assert (full p = true) as Hf.
  { unfold gen_fw in En. rewrite Ek in En. destruct (full p) eqn:Hf; [done|]. assert (moves p k = false) as Hmv by (unfold moves; by rewrite Hf, bool_decide_false).
    destruct k; try done; by rewrite Hmv in En. }
  rewrite Hf. cbn [negb]. rewrite (bool_decide_false (GNursery = k)) by done. rewrite (bool_decide_false (GLos = k)) by done.
  destruct k; try done; rewrite ?bool_decide_false by done; rewrite bool_decide_true by done.
  - assert (moving p o) as Hm.
    { exists GCopy0. split; [done|]. apply not_false_iff_true. intros Hmv. unfold gen_fw in En. rewrite Ek, Hmv in En. done. }
    rewrite gen_fw_moving in En by done. apply gen_first_copy; try done; [|apply HF]. rewrite (gn_flag0 _ _ HI). destruct Hm as (k & Ek' & Hm). rewrite Ek in Ek'. injection Ek' as <-.
    unfold moves in Hm. destruct (full p), (gc_hi p); done.
  - assert (moving p o) as Hm.
    { exists GCopy1. split; [done|]. apply not_false_iff_true. intros Hmv. unfold gen_fw in En. rewrite Ek, Hmv in En. done. }
    rewrite gen_fw_moving in En by done. apply gen_first_copy; try done; [|apply HF]. rewrite (gn_flag1 _ _ HI). destruct Hm as (k & Ek' & Hm). rewrite Ek in Ek'. injection Ek' as <-.
    unfold moves in Hm. destruct (full p), (gc_hi p); done.
  - eapply gen_first_immortal; try done. by left.
  - eapply gen_first_immortal; try done. by right.
Qed.

(** ** The laws *)

(** The state of the plan during one collection, that began with [h0] and [p0]. *)
Record gen_during (h0 : heap) (p0 : GenCopy) (h : heap) (p : GenCopy) : Prop := {
  gd_inv : gen_inv h p;
  gd_kept : gen_kept h0 p0 h p;
  gd_unlogged o o' : gen_fw p0 o = None → gen_fw p o = Some o' → md_unlog (gc_md p) o' = 1
}.
Lemma gen_kept_trans h1 p1 h2 p2 h3 p3 : gen_kept h1 p1 h2 p2 → gen_kept h2 p2 h3 p3 → gen_kept h1 p1 h3 p3.
Proof. intros [] []. split; try congruence. eauto. Qed.
Lemma gen_kept_refl h p : gen_kept h p h p.
Proof. by split. Qed.

Definition gen_laws (h0 : heap) (p0 : GenCopy) : TraceLaws GenCopy.
Proof.
  refine {| tr_inv := gen_during h0 p0; fw := gen_fw |}.
  - intros h p s o [HI [] Hu] _. split; [split; apply HI|by split|done].
  - intros h p o o' [HI _ _]. by apply gen_idem.
  - done.
  - intros h p o o' [HI _ _]. by apply gen_visited.
  - intros h p o [HI Hk Hu] Ho E. destruct (gen_first h p o HI Ho E) as (h' & p' & o' & E' & Hc & HI' & Hk' & Hu' & Hf). exists h', p', o'. split_and!; try done.
    change (gen_during h0 p0 h' p'). split; [done|by eapply gen_kept_trans|]. intros x x' E0. rewrite Hf. case_decide; [intros [= <-]; done|].
    intros Ex. by eapply (gk_unlog _ _ _ _ Hk'), Hu.
Defined.

Definition gen_nursery_laws (h0 : heap) (p0 : GenCopy) (Hf : full p0 = false) : @GenLaws GenCopy (gen_trace C) (gen_laws h0 p0) (gen_plan C).
Proof.
  refine {| unlogged := λ p x, md_unlog (gc_md p) x = 1 |}.
  - intros h p HD. cbn. unfold gen_is_current_gc_nursery. change (negb (full p) = true). by rewrite (gk_full _ _ _ _ (gd_kept _ _ _ _ HD)), Hf.
  - done.
  - done.
  - intros h p o HD Ho E. cbn in *. apply not_true_iff_false. intros En%gspace_in. unfold gen_fw in E. rewrite En in E.
    assert (moving p o) as Hm by (exists GNursery; by split). pose proof (gn_forward _ _ (gd_inv _ _ _ _ HD) o o Ho Hm E) as Et. rewrite En in Et. by destruct (gc_hi p).
  - intros h p o [HI Hk Hu] _. cbn [unlog gen_plan fw gen_laws].
    assert (∀ x, x = o ∨ md_unlog (gc_md p) x = 1 → md_unlog (gc_md (gen_unlog p o)) x = 1) as Hx.
    { intros x [-> |Hx]; cbn; [by rewrite fn_lookup_insert|]. destruct (decide (x = o)) as [-> |]; [by rewrite fn_lookup_insert|by rewrite fn_lookup_insert_ne]. }
    split; [|done]. split; [by apply gen_inv_md| |].
    + eapply gen_kept_trans; [done|]. split; try done. auto.
    + intros y y' E0 E. apply Hx. right. by apply (Hu y).
  - intros h p o h' p' o' queued x [HI _ _] Ho E _ Hx. destruct (gen_fw p o) as [v|] eqn:Ev.
    + rewrite (gen_visited h p o v HI Ev) in E. by injection E as <- <- <- <-.
    + destruct (gen_first h p o HI Ho Ev) as (h1 & p1 & o1 & E1 & _ & _ & Hk & _). rewrite E in E1. injection E1 as <- <- _ _. by apply (gk_unlog _ _ _ _ Hk).
Defined.
End gen.
