(* ===== verification/GenTheorems.v ===== *)
(** * A nursery collection

    [prepare], the trace from the roots and the remembered sets by any number of workers and
    [release]: the whole object graph is preserved although mature objects are not traced. *)

From stdpp Require Import gmap.
From S2P Require Import Prelude Tracing TracingInv TracingTheorems ScanTracing ScanTheorems Spaces LargeObjects LargeObjectsTheorems SemiSpace SemiSpaceInv SemiSpaceTheorems Generational GenInv.

(** ** Remembered sets *)

(** The slots of root packets and the slices of a pool. *)
Definition pool_roots (pool : list gc_packet) : list Z := pool ≫= λ pk, match pk with ProcessEdges slots => slots | _ => [] end.
Definition pool_regions (pool : list gc_packet) : list Z := pool ≫= λ pk, match pk with ProcessRegionModBuf modbuf => concat modbuf | _ => [] end.
Lemma gc_roots_elem h pool s :
  s ∈ gc_roots h pool ↔ s ∈ pool_roots pool ∨ (∃ o, o ∈ gc_modbuf pool ∧ s ∈ fields h o) ∨ s ∈ pool_regions pool.
Proof.
  unfold gc_roots, gc_modbuf, pool_roots, pool_regions. induction pool as [|pk pool IH].
  { split; [by intros ?%elem_of_nil|]. by intros [?%elem_of_nil|[(o & ?%elem_of_nil & _)|?%elem_of_nil]]. }
  rewrite !bind_cons, !elem_of_app, IH. set (M := pool ≫= packet_modbuf). destruct pk as [l|l|l]; cbn [packet_slots packet_modbuf]; rewrite ?elem_of_nil.
  - naive_solver.
  - rewrite list_elem_of_bind. setoid_rewrite elem_of_app. naive_solver.
  - naive_solver.
Qed.

(** What the roots and the remembered sets lead to, and the remembered objects. *)
Definition glive (h : heap) (pool : list gc_packet) (o : Z) : Prop := reachable h (gc_roots h pool) o ∨ o ∈ gc_modbuf pool.

Record gen_heap_ok (h : heap) (pool : list gc_packet) : Prop := {
  gh_roots s : s ∈ pool_roots pool ∨ s ∈ pool_regions pool → is_Some (h_slots h !! s);
  gh_objects o : glive h pool o → is_Some (h_fields h !! o);
  gh_fields o s : glive h pool o → s ∈ fields h o → is_Some (h_slots h !! s) ∧ s ∉ pool_roots pool;
  gh_nodup o : glive h pool o → NoDup (fields h o);
  gh_disjoint o1 o2 s : glive h pool o1 → glive h pool o2 → s ∈ fields h o1 → s ∈ fields h o2 → o1 = o2
}.

Section nursery.
Context (C : gen_config) (Hdisj : spaces_disjoint C) (Hcopy : gen_copy_ok C) (Hloside : los_bits_on_side (ge_om C) = true) (buf : buffer_features).
Abbreviation OM := (ge_om C).
#[local] Hint Extern 0 (PlanTrace GenCopy) => exact (gen_trace C) : typeclass_instances.
#[local] Hint Extern 0 (GenTrace GenCopy) => exact (gen_plan C) : typeclass_instances.
Abbreviation gspace_of := (gspace_of C).
Abbreviation los p := (cp_los (gen_common (gc_gen p))).

(** Objects that a nursery collection traces. *)
Definition young (md : metadata) (o : Z) : Prop := gspace_of o = Some GNursery ∨ gspace_of o = Some GLos ∧ is_in_nursery md o = true.
#[local] Instance young_dec md o : Decision (young md o) := _.

(** ** Between collections *)

(** The spaces and the metadata of objects; young objects are logged. *)
Record gen_plan_ok (h : heap) (p : GenCopy) : Prop := {
  gr_spaces o : is_Some (h_fields h !! o) → is_Some (gspace_of o);
  gr_empty o : is_Some (h_fields h !! o) → gspace_of o ≠ Some (gfrom_of (gc_hi p));
  gr_forward o : (forwarding_in_header OM = true → is_Some (h_fields h !! o)) → md_forward (gc_md p) !! o = None;
  gr_to_regions o : is_Some (h_fields h !! o) → gspace_of o = Some (gto_of (gc_hi p)) → covered (cs_regions (gen_tospace p)) o;
  gr_nursery_regions o : is_Some (h_fields h !! o) → gspace_of o = Some GNursery → covered (cs_regions (gen_nursery (gc_gen p))) o;
  gr_nursery_extent o : covered (cs_regions (gen_nursery (gc_gen p))) o → gspace_of o = Some GNursery;
  gr_los : los_idle (glarge_objects C h) (los p) (gc_md p);
  gr_flags : gen_flags C p;
  gr_immortal : gside_marks C h GImmortal (cp_immortal (gen_common (gc_gen p)));
  gr_nonmoving : gside_marks C h GNonMoving (cp_nonmoving (gen_common (gc_gen p)));
  gr_logged o : is_Some (h_fields h !! o) → young (gc_md p) o → md_unlog (gc_md p) o = 0
}.
(** Mature objects are unlogged or remembered, and a reference from a mature object to a young
    one is remembered. *)
Record gen_ready (h : heap) (p : GenCopy) (pool : list gc_packet) : Prop := {
  gr_heap : gen_heap_ok h pool;
  gr_plan : gen_plan_ok h p;
  gr_unlog o : glive h pool o → ¬ young (gc_md p) o → md_unlog (gc_md p) o = 1 ∨ o ∈ gc_modbuf pool;
  gr_modbuf o : o ∈ gc_modbuf pool → ¬ young (gc_md p) o;
  gr_remembered o s v : glive h pool o → ¬ young (gc_md p) o → s ∈ fields h o → slot_load h s = Some v → young (gc_md p) v →
    o ∈ gc_modbuf pool ∨ s ∈ pool_regions pool
}.
(** There is room in the mature space for all of the nursery. *)
Definition gen_room (h : heap) (p : GenCopy) : Prop := (size (gobjects_in C (gto_of (gc_hi p)) h) + size (gobjects_in C GNursery h) ≤ ge_capacity C)%nat.

(** ** Prepare *)

Lemma nursery_moving p o : full p = false → moving C p o ↔ gspace_of o = Some GNursery.
Proof.
  intros Hf. unfold moving, moves. rewrite Hf. split.
  - intros (k & -> & Hk). rewrite orb_false_r in Hk. by apply bool_decide_eq_true in Hk as ->.
  - intros Ek. exists GNursery. by rewrite bool_decide_true.
Qed.

Lemma gen_prepare_ok h p pool :
  gen_ready h p pool → full p = false → gen_room h p →
  ∃ p1, gencopy_prepare C p = Val p1 ∧ gen_inv C h p1 ∧ gc_hi p1 = gc_hi p ∧ full p1 = false ∧ md_los (gc_md p1) = md_los (gc_md p) ∧ md_unlog (gc_md p1) = md_unlog (gc_md p) ∧
    los_released (los p1) = los_released (los p) ∧
    cs_regions (gen_nursery (gc_gen p1)) = cs_regions (gen_nursery (gc_gen p)) ∧ (∀ o, is_Some (h_fields h !! o) → gen_fw C p1 o = if decide (young (gc_md p) o) then None else Some o).
Proof.
  intros HR Hf Hroom. unfold gencopy_prepare, gen_prepare, gen_is_current_gc_nursery, common_prepare. unfold full in Hf. rewrite Hf. cbn [negb]. rewrite !immortal_prepare_regions.
  destruct (block_resets OM (gc_md p) (mark_regions (cp_immortal (gen_common (gc_gen p))))) as (F1 & L1 & _ & _).
  pose proof (block_resets_unlog OM (gc_md p) (mark_regions (cp_immortal (gen_common (gc_gen p))))) as U1.
  set (md1 := foldl _ _ (mark_regions (cp_immortal _))) in *. destruct (block_resets OM md1 (mark_regions (cp_nonmoving (gen_common (gc_gen p))))) as (F2 & L2 & _ & _).
  pose proof (block_resets_unlog OM md1 (mark_regions (cp_nonmoving (gen_common (gc_gen p))))) as U2. set (md2 := foldl _ md1 _) in *.
  destruct (los_prepare_ok _ _ _ false (gr_los _ _ (gr_plan _ _ _ HR))) as (sp & -> & HT & Hg & Hc & Hrel & Hv). cbn [mbind res_bind].
  eexists. split; [reflexivity|]. set (p1 := set_gen_tospace _ _).
  assert (gc_hi p1 = gc_hi p ∧ gc_md p1 = md2 ∧ los p1 = sp ∧ full p1 = false ∧ cp_immortal (gen_common (gc_gen p1)) = cp_immortal (gen_common (gc_gen p)) ∧
    cp_nonmoving (gen_common (gc_gen p1)) = cp_nonmoving (gen_common (gc_gen p))) as (Ehi & Emd & El & Ef & Ei & En) by done.
  assert (cs_from_space (gc_copyspace0 p1) = gc_hi p1 ∧ cs_from_space (gc_copyspace1 p1) = negb (gc_hi p1) ∧ cs_regions (gen_tospace p1) = cs_regions (gen_tospace p) ∧
    cs_common (gc_copyspace0 p1) = cs_common (gc_copyspace0 p) ∧ cs_common (gc_copyspace1 p1) = cs_common (gc_copyspace1 p)) as (Fl0 & Fl1 & Rt & C0 & C1).
  { unfold p1, set_gen_tospace, set_gen_fromspace, gen_tospace, gen_fromspace. cbn. by destruct (gc_hi p). }
  assert (cs_regions (gen_nursery (gc_gen p1)) = cs_regions (gen_nursery (gc_gen p))) as Rn by done.
  assert (∀ o, (forwarding_in_header OM = true → is_Some (h_fields h !! o)) → md_forward md2 !! o = None) as Hfwd by (intros o Ho; rewrite F2, F1; by apply (gr_forward _ _ (gr_plan _ _ _ HR))).
  assert (∀ o, moving C p1 o ↔ gspace_of o = Some GNursery) as Hmv by (intros o; by apply nursery_moving).
  assert (moving_regions p1 = cs_regions (gen_nursery (gc_gen p))) as Rm by (unfold moving_regions; rewrite Ef, Rn; apply app_nil_r).
  assert (moving_objects C h p1 = gobjects_in C GNursery h) as Emo.
  { unfold moving_objects, gobjects_in. apply set_eq. intros o. by rewrite !elem_of_filter, Hmv. }
  assert (gen_inv C h p1) as HI.
  { split; rewrite ?Emd, ?El, ?Ei, ?En, ?Rm, ?Emo, ?Ehi, ?Rt; try done; try apply (gr_plan _ _ _ HR).
    - intros o _ Ho. by apply (gr_empty _ _ (gr_plan _ _ _ HR)).
    - intros o o' Ho _. by rewrite Hfwd.
    - intros o Ho _. by apply Hfwd.
    - intros o Hfh. rewrite Hfwd; [by intros []|congruence].
    - intros o Hfh _. apply Hfwd. congruence.
    - intros o Ho Hm%Hmv. by apply (gr_nursery_regions _ _ (gr_plan _ _ _ HR)).
    - unfold gen_room in Hroom. lia.
    - by eapply los_tracing_ext, HT; rewrite L2, L1.
    - pose proof (gr_flags _ _ (gr_plan _ _ _ HR)) as []. split; rewrite ?C0, ?C1, ?El, ?Hc, ?Ei, ?En; done. }
  split; [done|]. split; [done|]. split; [done|]. split; [by rewrite Emd, L2, L1|]. split; [by rewrite Emd, U2, U1|]. split; [by rewrite El|]. split; [done|].
  intros o Ho. destruct (gr_spaces _ _ (gr_plan _ _ _ HR) o Ho) as [k Ek]. unfold gen_fw. rewrite Ek, Emd, El, Ef. cbn [negb orb].
  assert (∀ k', k' ≠ GNursery → moves p1 k' = false) as Hm by (intros k' ?; unfold moves; rewrite Ef; by rewrite bool_decide_false).
  destruct k; rewrite ?Hm by done; try (rewrite decide_False by (unfold young; rewrite Ek; naive_solver); done).
  - rewrite decide_True by (by left). by apply Hfwd.
  - assert (o ∈ glarge_objects C h) as Hl by (by apply gobjects_elem).
    rewrite (los_visited_ext _ (gc_md p)) by (by rewrite L2, L1). rewrite Hv by done. cbn [negb andb].
    pose proof (li_all _ _ _ (gr_los _ _ (gr_plan _ _ _ HR)) o Hl) as Ha. pose proof (li_state _ _ _ (gr_los _ _ (gr_plan _ _ _ HR))) as Hs.
    destruct (Z.eqb_spec (md_los (gc_md p) o) (los_mark_state (los p))) as [E|E]; [rewrite decide_False|rewrite decide_True]; try done.
    + unfold young. rewrite Ek. intros [?|[_ Hb]]; [done|]. unfold is_in_nursery in Hb. rewrite E in Hb. destruct Hs as [Hs|Hs]; rewrite Hs in Hb; done.
    + right. split; [done|]. destruct Ha as [?|Ha]; [done|]. unfold is_in_nursery. rewrite Ha. destruct Hs as [Hs|Hs]; by rewrite Hs.
Qed.

(** ** The graph of a nursery collection *)

(** The laws of this collection. *)
Section collection.
Context (h : heap) (p p1 : GenCopy) (pool : list gc_packet).
Context (HR : gen_ready h p pool) (Hf1 : full p1 = false) (Hfw : ∀ o, is_Some (h_fields h !! o) → gen_fw C p1 o = if decide (young (gc_md p) o) then None else Some o).
#[local] Hint Extern 0 (TraceLaws GenCopy) => exact (gen_laws C Hdisj Hcopy Hloside h p1) : typeclass_instances.
#[local] Hint Extern 0 (GenLaws GenCopy) => exact (gen_nursery_laws C Hdisj Hcopy Hloside h p1 Hf1) : typeclass_instances.
Abbreviation greach := (reach h p1 (gc_roots h pool)).
Abbreviation roots := (pool_roots pool).

Lemma live_fw o : glive h pool o → gen_fw C p1 o = if decide (young (gc_md p) o) then None else Some o.
Proof. intros Ho. by apply Hfw, (gh_objects _ _ (gr_heap _ _ _ HR)). Qed.
Lemma reach_live o : greach o → reachable h (gc_roots h pool) o.
Proof. induction 1; by econstructor. Qed.
Lemma live_field o s v : glive h pool o → s ∈ fields h o → slot_load h s = Some v → glive h pool v.
Proof.
  intros [Ho|Ho] Hs Hv; left; [by eapply reachable_field|]. eapply reachable_root; [|done]. apply gc_roots_elem. right. left. by exists o.
Qed.
(** A slot of a mature object that holds a young one is a root. *)
Lemma remembered_root o s v : glive h pool o → ¬ young (gc_md p) o → s ∈ fields h o → slot_load h s = Some v → young (gc_md p) v → s ∈ gc_roots h pool.
Proof. intros Ho Hy Hs Hv Hyv. apply gc_roots_elem. destruct (gr_remembered _ _ _ HR o s v Ho Hy Hs Hv Hyv) as [?|?]; [right; left; by exists o|auto]. Qed.
Lemma young_reached o : reachable h (gc_roots h pool) o → young (gc_md p) o → greach o.
Proof.
  induction 1 as [s o Hs Ho|o s o' Ho IH Hs Hx]; intros Hy; [by eapply reach_root|]. destruct (decide (young (gc_md p) o)) as [Hyo|Hyo].
  - eapply reach_field; [by apply IH| |done|done]. cbn. rewrite live_fw by (by left). by rewrite decide_True.
  - eapply reach_root; [|done]. by eapply (remembered_root o); [left|..].
Qed.

Lemma gen_graph : graph_ok h p1 (gc_roots h pool).
Proof.
  pose proof (gr_heap _ _ _ HR) as HO. split.
  - intros s [?|[(o & Ho & Hs)|?]]%gc_roots_elem; [by apply (gh_roots _ _ HO); left| |by apply (gh_roots _ _ HO); right].
    by destruct (gh_fields _ _ HO o s (or_intror Ho) Hs).
  - intros o Ho%reach_live. apply (gh_objects _ _ HO). by left.
  - intros o s Ho%reach_live _ Hs. by destruct (gh_fields _ _ HO o s (or_introl Ho) Hs).
  - intros o Ho%reach_live _. apply (gh_nodup _ _ HO). by left.
  - intros o1 o2 s H1%reach_live H2%reach_live _ _. apply (gh_disjoint _ _ HO); by left.
  - intros o o' Ho E. cbn in E. rewrite Hfw in E by done. by case_decide; simplify_eq.
Qed.
Lemma gen_modbuf_ok o : o ∈ gc_modbuf pool → is_Some (h_fields h !! o) ∧ gen_fw C p1 o = Some o.
Proof.
  intros Ho. assert (is_Some (h_fields h !! o)) as Hd by (apply (gh_objects _ _ (gr_heap _ _ _ HR)); by right). split; [done|]. rewrite Hfw by done.
  by rewrite decide_False by (by apply (gr_modbuf _ _ _ HR)).
Qed.

(** ** After the trace *)

Context (h1 : heap) (p2 : GenCopy) (HP : preserved h p1 (gc_roots h pool) h1 p2).
Context (Hun : ∀ o, o ∈ gc_modbuf pool → md_unlog (gc_md p2) o = 1).
Abbreviation place := (gen_fw C p2).

Lemma live_placed o : glive h pool o → ∃ o', place o = Some o' ∧ if decide (young (gc_md p) o) then greach o ∧ gen_fw C p1 o = None else o' = o.
Proof.
  intros Ho. pose proof (live_fw o Ho) as E. case_decide as Hy.
  - assert (greach o) as Hg by (destruct Ho as [Ho|Ho]; [by apply young_reached|by apply (gr_modbuf _ _ _ HR) in Ho]).
    destruct (pr_visited _ _ _ _ _ HP o Hg) as [o' Eo]. by exists o'.
  - exists o. split; [|done]. apply (pr_mono _ _ _ _ _ HP); [|done]. by apply (gh_objects _ _ (gr_heap _ _ _ HR)).
Qed.
Lemma root_updated s : s ∈ gc_roots h pool → slot_load h1 s = slot_load h s ≫= place.
Proof. intros Hs. destruct (pr_roots _ _ _ _ _ HP s Hs) as [_ Hd]. by apply slot_done_load in Hd. Qed.
(** The slots of mature objects: those that are not remembered did not need to change. *)
Lemma mature_slot o s : glive h pool o → ¬ young (gc_md p) o → s ∈ fields h o → slot_load h1 s = slot_load h s ≫= place.
Proof.
  intros Ho Hy Hs. destruct (decide (s ∈ gc_roots h pool)) as [Hr|Hr]; [by apply root_updated|]. pose proof (gr_heap _ _ _ HR) as HO.
  assert (slot_load h1 s = slot_load h s) as ->.
  { unfold slot_load. rewrite (pr_frame _ _ _ _ _ HP); [done|by apply (gh_fields _ _ HO o s)|done|]. intros o2 H2 E2 Hs2. cbn in E2.
    assert (o = o2) as <- by (eapply (gh_disjoint _ _ HO); [done|left; by apply reach_live|done|done]). rewrite live_fw in E2 by done. by rewrite decide_False in E2. }
  destruct (slot_load h s) as [v|] eqn:Ev; [|done]. cbn. pose proof (live_field o s v Ho Hs Ev) as Hv. destruct (live_placed v Hv) as (v' & -> & Hx).
  case_decide as Hyv; [|by subst]. destruct Hr. by apply (remembered_root o s v).
Qed.
Lemma live_fields o o' : glive h pool o → place o = Some o' → Forall2 (λ s s', slot_load h1 s' = slot_load h s ≫= place) (fields h o) (fields h1 o').
Proof.
  intros Ho E. destruct (live_placed o Ho) as (x & E' & Hx). assert (x = o') as -> by congruence. case_decide as Hy.
  - destruct Hx as [Hg E1]. eapply Forall2_impl; [by apply (pr_fields _ _ _ _ _ HP o o')|]. intros s s' Hd. by apply slot_done_load in Hd.
  - subst o'. assert (fields h1 o = fields h o) as -> by (unfold fields; rewrite (pr_same _ _ _ _ _ HP); [done|]; by apply (gh_objects _ _ (gr_heap _ _ _ HR))).
    apply Forall_Forall2_diag, Forall_forall. intros s Hs. by eapply mature_slot.
Qed.

(** ** The heap that is left *)

Definition not_nursery (o : Z) : Prop := gspace_of o ≠ Some GNursery.
#[local] Instance not_nursery_dec o : Decision (not_nursery o) := _.
Definition gen_survivors (h1 : heap) : heap := {| h_slots := h_slots h1; h_fields := filter (λ x, not_nursery x.1) (h_fields h1) |}.
Abbreviation h2 := (gen_survivors h1).
(** The packets of the next collection when nothing is remembered. *)
Definition root_pool (roots : list Z) : list gc_packet := [ProcessEdges roots].

Lemma survivors_dom o : is_Some (h_fields h2 !! o) ↔ is_Some (h_fields h1 !! o) ∧ not_nursery o.
Proof. unfold gen_survivors, is_Some. cbn [h_fields]. setoid_rewrite map_lookup_filter_Some. cbn [fst]. naive_solver. Qed.

Lemma placed_object o o' : glive h pool o → place o = Some o' → is_Some (h_fields h1 !! o') ∧ not_nursery o' ∧ fields h2 o' = fields h1 o' ∧
  if decide (gspace_of o = Some GNursery) then gspace_of o' = Some (gto_of (gc_hi p2)) else o' = o.
Proof.
  intros Ho E. pose proof (gd_inv _ _ _ _ _ (pr_plan _ _ _ _ _ HP)) as HI. pose proof (gh_objects _ _ (gr_heap _ _ _ HR) o Ho) as Hd.
  assert (full p2 = false) as Hf2 by (by rewrite (gk_full _ _ _ _ _ (gd_kept _ _ _ _ _ (pr_plan _ _ _ _ _ HP)))).
  assert (is_Some (h_fields h1 !! o)) as Hd1 by (by rewrite (pr_same _ _ _ _ _ HP)).
  assert (is_Some (h_fields h1 !! o')) as Hd'.
  { destruct (live_placed o Ho) as (x & E' & Hx). assert (x = o') as -> by congruence. case_decide; [destruct Hx; by apply (pr_objects _ _ _ _ _ HP o)|by subst]. }
  assert (if decide (gspace_of o = Some GNursery) then gspace_of o' = Some (gto_of (gc_hi p2)) else o' = o) as Hsp.
  { case_decide as Ek.
    - apply (gn_forward _ _ _ HI o o' Hd1); [by apply nursery_moving|]. rewrite <-E. symmetry. apply gen_fw_moving. by apply nursery_moving.
    - eapply gen_fw_still; [|done]. by rewrite nursery_moving. }
  assert (not_nursery o') as Hn by (unfold not_nursery; case_decide; [rewrite Hsp; by destruct (gc_hi p2)|by subst]).
  split_and!; try done. unfold fields, gen_survivors. cbn [h_fields]. destruct Hd' as [fs Efs]. rewrite Efs. by rewrite (proj2 (map_lookup_filter_Some _ _ _ fs)).
Qed.

Lemma roots_live o : reachable h roots o → glive h pool o.
Proof.
  intros Ho. left. induction Ho as [s o Hs Ho|]; [|by econstructor]. eapply reachable_root; [|done]. apply gc_roots_elem. by left.
Qed.
Lemma gen_image x : reachable h2 roots x ↔ ∃ o, reachable h roots o ∧ place o = Some x.
Proof.
  apply image_reachable.
  - intros s Hs. apply root_updated, gc_roots_elem. by left.
  - intros o Ho%roots_live. destruct (live_placed o Ho) as (o' & E & _). exists o'. split; [done|]. destruct (placed_object o o' Ho E) as (_ & _ & -> & _). by apply live_fields.
Qed.

(** Objects in different places have different slots. *)
Lemma placed_slots o o' s : glive h pool o → place o = Some o' → s ∈ fields h1 o' → is_Some (h_slots h1 !! s) ∧ s ∉ roots.
Proof.
  intros Ho E Hs. pose proof (gr_heap _ _ _ HR) as HO. destruct (live_placed o Ho) as (x & E' & Hx). assert (x = o') as -> by congruence. case_decide as Hy.
  - destruct Hx as [Hg E1]. apply list_elem_of_lookup_1 in Hs as [i Hi]. destruct (pr_slots _ _ _ _ _ HP o o' i s Hg E1 E Hi) as [Hd Hf]. split; [done|].
    intros Hr. destruct (gh_fields _ _ HO o s Ho) as [_ ?]; [|done]. apply Hf, gc_roots_elem. by left.
  - subst o'. assert (s ∈ fields h o) as Hs0 by (unfold fields in *; by rewrite (pr_same _ _ _ _ _ HP) in Hs by (by apply (gh_objects _ _ HO))).
    destruct (gh_fields _ _ HO o s Ho Hs0) as [? ?]. split; [by apply (pr_dom _ _ _ _ _ HP)|done].
Qed.
Lemma placed_old o o' s : glive h pool o → place o = Some o' → s ∈ fields h1 o' → is_Some (h_slots h !! s) → s ∈ fields h o.
Proof.
  intros Ho E Hs Hd. destruct (live_placed o Ho) as (x & E' & Hx). assert (x = o') as -> by congruence. case_decide as Hy.
  - destruct Hx as [Hg E1]. by apply (pr_target _ _ _ _ _ HP o o').
  - subst o'. unfold fields in *. by rewrite (pr_same _ _ _ _ _ HP) in Hs by (by apply (gh_objects _ _ (gr_heap _ _ _ HR))).
Qed.
Lemma placed_disjoint o1 o2 x1 x2 i j s :
  glive h pool o1 → glive h pool o2 → place o1 = Some x1 → place o2 = Some x2 → fields h1 x1 !! i = Some s → fields h1 x2 !! j = Some s → o1 = o2 ∧ i = j.
Proof.
  intros H1 H2 E1 E2 Hi Hj. pose proof (gr_heap _ _ _ HR) as HO. destruct (live_placed o1 H1) as (y1 & F1 & X1), (live_placed o2 H2) as (y2 & F2 & X2).
  assert (y1 = x1) as -> by congruence. assert (y2 = x2) as -> by congruence.
  assert (∀ o, glive h pool o → fields h1 o = fields h o) as Hsame by (intros o Ho; unfold fields; by rewrite (pr_same _ _ _ _ _ HP) by (by apply (gh_objects _ _ HO))).
  assert (∀ o o' x x' k k', glive h pool o → glive h pool o' → ¬ young (gc_md p) o → x = o → place o' = Some x' → fields h1 x !! k = Some s → fields h1 x' !! k' = Some s → o = o') as Hmix.
  { intros o o' x x' k k' Ho Ho' Hy -> E Hk Hk'. rewrite Hsame in Hk by done. assert (s ∈ fields h o) as Hs by (by eapply list_elem_of_lookup_2).
    eapply (gh_disjoint _ _ HO); [done|done|done|]. eapply placed_old; [done..|by eapply list_elem_of_lookup_2|by apply (gh_fields _ _ HO o s)]. }
  destruct (decide (young (gc_md p) o1)) as [Y1|Y1].
  - destruct (decide (young (gc_md p) o2)) as [Y2|Y2]; [destruct X1, X2; by eapply (pr_own _ _ _ _ _ HP)|].
    assert (o2 = o1) as -> by (by eapply Hmix). done.
  - assert (o1 = o2) as <- by (by eapply Hmix). split; [done|]. subst x1. assert (x2 = o1) as -> by congruence. rewrite Hsame in Hi, Hj by done.
    eapply NoDup_lookup; [by apply (gh_nodup _ _ HO o1)|done..].
Qed.
Lemma gen_heap_left : gen_heap_ok h2 (root_pool roots).
Proof.
  assert (∀ x, glive h2 (root_pool roots) x → ∃ o, glive h pool o ∧ reachable h roots o ∧ place o = Some x) as Himg.
  { intros x [Hx|Hx%elem_of_nil]; [|done]. unfold gc_roots, root_pool in Hx. rewrite bind_cons, app_nil_r in Hx. apply gen_image in Hx as (o & Ho & E). exists o. by split; [apply roots_live|]. }
  assert (pool_roots (root_pool roots) = roots ∧ pool_regions (root_pool roots) = []) as [Er Eg] by (unfold pool_roots, pool_regions, root_pool; by rewrite !bind_cons, app_nil_r).
  split; rewrite ?Er, ?Eg.
  - intros s [Hs|?%elem_of_nil]; [|done]. apply (pr_dom _ _ _ _ _ HP), (gh_roots _ _ (gr_heap _ _ _ HR)). by left.
  - intros x (o & Ho & _ & E)%Himg. destruct (placed_object o x Ho E) as (? & ? & _). by apply survivors_dom.
  - intros x s (o & Ho & _ & E)%Himg. destruct (placed_object o x Ho E) as (_ & _ & -> & _). by apply (placed_slots o).
  - intros x (o & Ho & _ & E)%Himg. destruct (placed_object o x Ho E) as (_ & _ & -> & _). apply NoDup_alt. intros i j s Hi Hj. by eapply (placed_disjoint o o).
  - intros x y s (o1 & H1 & _ & E1)%Himg (o2 & H2 & _ & E2)%Himg. destruct (placed_object o1 x H1 E1) as (_ & _ & -> & _), (placed_object o2 y H2 E2) as (_ & _ & -> & _).
    intros [i Hi]%list_elem_of_lookup_1 [j Hj]%list_elem_of_lookup_1. destruct (placed_disjoint o1 o2 x y i j s) as [<- _]; try done. congruence.
Qed.

(** ** Release *)

Context (Hhi : gc_hi p1 = gc_hi p) (Hmd : md_unlog (gc_md p1) = md_unlog (gc_md p)) (Hreg : cs_regions (gen_nursery (gc_gen p1)) = cs_regions (gen_nursery (gc_gen p))).
Lemma large_kept : glarge_objects C h1 = glarge_objects C h.
Proof. apply (gk_large _ _ _ _ _ (gd_kept _ _ _ _ _ (pr_plan _ _ _ _ _ HP))). Qed.
Lemma large_visited o : o ∈ glarge_objects C h → los_visited (los p2) (gc_md p2) o = true ↔ (young (gc_md p) o → reachable h (gc_roots h pool) o).
Proof.
  intros [Ho Ek]%gobjects_elem. assert (place o = Some o ↔ los_visited (los p2) (gc_md p2) o = true) as <-.
  { unfold gen_fw. rewrite Ek. by destruct (los_visited _ _ o). }
  split.
  - intros E Hy. destruct (pr_only _ _ _ _ _ HP o o Ho E) as [E1|?]; [|by apply reach_live]. cbn in E1. rewrite Hfw in E1 by done. by rewrite decide_True in E1.
  - intros Hr. destruct (decide (young (gc_md p) o)) as [Hy|Hy].
    + destruct (live_placed o) as (o' & E & _); [left; by apply Hr|]. destruct (placed_object o o') as (_ & _ & _ & Hx); [left; by apply Hr|done|].
      rewrite decide_False in Hx by congruence. by subst.
    + apply (pr_mono _ _ _ _ _ HP); [done|]. cbn. rewrite Hfw by done. by rewrite decide_False.
Qed.

Lemma gen_release_ok :
  (∀ o, o ∈ glarge_objects C h → young (gc_md p) o → reachable h (gc_roots h pool) o) →
  ∃ p3, gencopy_release C p2 = Val p3 ∧ gen_ready h2 p3 (root_pool roots) ∧ gc_hi p3 = gc_hi p ∧ los_released (los p3) = los_released (los p1) ∧
    ∀ o, reachable h2 roots o → ¬ young (gc_md p3) o ∧ md_unlog (gc_md p3) o = 1.
Proof.
  intros Hl. destruct (pr_plan _ _ _ _ _ HP : gen_during C h p1 h1 p2) as [HI Hk Hu]. pose proof (gk_full _ _ _ _ _ Hk) as Hf2. rewrite Hf1 in Hf2.
  assert (∀ o, o ∈ glarge_objects C h1 → los_visited (los p2) (gc_md p2) o = true) as Hvis by (intros o Ho; rewrite large_kept in Ho; apply large_visited; auto).
  unfold gencopy_release, gen_release, common_release, gen_is_current_gc_nursery. change (gc_full_heap (gc_gen p2)) with (full p2). rewrite Hf2. cbn [negb].
  destruct (los_release_ok OM _ _ _ false (gn_los _ _ _ HI) (or_intror Hvis)) as (sp & -> & Hidle & Hco & swept & Er & Hsw); [by rewrite (gn_mode _ _ _ HI), Hf2|]. cbn [mbind res_bind].
  unfold copyspace_release. destruct (clear_regions OM (ge_log_in_header C) (gen_nursery (gc_gen p2)) (cs_regions (gen_nursery (gc_gen p2))) (gc_md p2)) as (E1 & E2 & E3 & E4).
  pose proof (clear_regions_unlog OM (ge_log_in_header C) (gen_nursery (gc_gen p2)) (cs_regions (gen_nursery (gc_gen p2))) (gc_md p2)) as Eu.
  set (md' := foldl _ _ _) in *. eexists. split; [reflexivity|]. set (p3 := with_gen _ _ _).
  assert (gc_hi p3 = gc_hi p2 ∧ gc_md p3 = md' ∧ los p3 = sp ∧ gen_tospace p3 = gen_tospace p2 ∧ cs_regions (gen_nursery (gc_gen p3)) = []) as (Ehi & Emd & El & Et & Eng) by done.
  assert (los_released sp = los_released (los p1)) as Erel.
  { rewrite Er, <-(gk_released _ _ _ _ _ Hk). assert (swept = []) as ->; [|by rewrite app_nil_r]. apply Permutation_nil_r. rewrite Hsw.
    replace (filter _ _) with (∅ : gset Z); [by rewrite elements_empty|]. symmetry. apply set_eq. intros o. rewrite elem_of_filter. split; [|by intros ?%elem_of_empty].
    intros [Hx Ho]. by rewrite Hvis in Hx. }
  assert (∀ o, is_Some (h_fields h2 !! o) → ¬ young md' o) as Hold.
  { intros o [Ho Hn]%survivors_dom [Ek|[Ek Hy]]; [by apply Hn|]. assert (o ∈ glarge_objects C h1) as Hlo by (by apply gobjects_elem).
    unfold is_in_nursery in Hy. rewrite E2, (lt_clean _ _ _ (gn_los _ _ _ HI) o Hlo (Hvis o Hlo)) in Hy. by destruct (lt_state _ _ _ (gn_los _ _ _ HI)) as [Hs|Hs]; rewrite Hs in Hy. }
  assert (∀ x, glive h2 (root_pool roots) x → ∃ o, glive h pool o ∧ place o = Some x) as Himg.
  { intros x [Hx|Hx%elem_of_nil]; [|done]. unfold gc_roots, root_pool in Hx. rewrite bind_cons, app_nil_r in Hx. apply gen_image in Hx as (o & Ho & E). exists o. by split; [apply roots_live|]. }
  assert (∀ x, glive h2 (root_pool roots) x → md_unlog md' x = 1) as Hlog.
  { intros x (o & Ho & E)%Himg. destruct (placed_object o x Ho E) as (_ & Hn & _ & _).
    assert (md_unlog (gc_md p2) x = 1) as Hx.
    { destruct (live_placed o Ho) as (x' & E' & Hx). assert (x' = x) as -> by congruence. case_decide as Hy; [destruct Hx; by apply (Hu o)|]. subst x.
      destruct (gr_unlog _ _ _ HR o Ho Hy) as [?|?]; [apply (gk_unlog _ _ _ _ _ Hk); by rewrite Hmd|by apply Hun]. }
    destruct (Eu x) as [-> |[Hc _]]; [done|]. exfalso. apply Hn, (gr_nursery_extent _ _ (gr_plan _ _ _ HR)). by rewrite <-Hreg, <-(gk_nursery _ _ _ _ _ Hk). }
  assert (moving_regions p2 = cs_regions (gen_nursery (gc_gen p2))) as Rm by (unfold moving_regions; rewrite Hf2; apply app_nil_r).
  assert (∀ k sp, gside_marks C h1 k sp → gside_marks C h2 k (immortal_release OM sp)) as Hmarks.
  { intros k sp0 Hs Hmh. destruct (Hs Hmh) as [Es Hc]. cbn [immortal_release im_mark_state]. unfold on_global_release. rewrite Hmh. split; [done|].
    intros o [Ho _]%survivors_dom. by apply Hc. }
  pose proof gen_heap_left as Hleft.
  split; [|split; [by rewrite Ehi, (gk_hi _ _ _ _ _ Hk)|split; [by rewrite El|]]].
  - split; [done| |rewrite ?Emd..].
    { split; rewrite ?Ehi, ?Emd, ?El, ?Et, ?Eng; try done.
      + intros o [Ho _]%survivors_dom. by apply (gn_spaces _ _ _ HI).
      + intros o [Ho _]%survivors_dom. by apply (gn_empty _ _ _ HI).
      + intros o Ho. destruct (forwarding_in_header OM) eqn:Hh.
        * rewrite (E3 eq_refl). destruct (proj1 (survivors_dom o) (Ho eq_refl)) as [Hd Hn]. apply (gn_others _ _ _ HI); [done|]. by rewrite nursery_moving.
        * destruct (md_forward md' !! o) as [x|] eqn:Ex; [|done]. destruct (E4 eq_refl o) as [Hx Hn]; [by rewrite Ex|]. destruct Hn. rewrite <-Rm. by apply (gn_side _ _ _ HI).
      + intros o [Ho _]%survivors_dom. by apply (gn_to_regions _ _ _ HI).
      + intros o [_ Hn]%survivors_dom Ek. by destruct Hn.
      + by intros o (r & ?%elem_of_nil & _).
      + replace (glarge_objects C h2) with (filter (λ o, los_visited (los p2) (gc_md p2) o = true) (glarge_objects C h1)); [destruct Hidle; split; rewrite ?E2; done|].
        apply set_eq. intros o. rewrite elem_of_filter. unfold glarge_objects. rewrite !gobjects_elem, survivors_dom. split; [|intros [[? ?] ?]; split; [apply Hvis, gobjects_elem|]; done].
        intros (_ & ? & Ek). split; [|done]. split; [done|]. unfold not_nursery. by rewrite Ek.
      + pose proof (gn_flags _ _ _ HI) as []. split; rewrite ?El, ?Hco; done.
      + apply Hmarks, (gn_immortal _ _ _ HI).
      + apply Hmarks, (gn_nonmoving _ _ _ HI).
      + intros o Ho Hy. by destruct (Hold o Ho). }
    + intros o Ho _. left. by apply Hlog.
    + by intros o ?%elem_of_nil.
    + intros o s v Ho _ Hs Hv Hy. destruct (Hold v); [|done]. apply (gh_objects _ _ Hleft). destruct Ho as [Ho|Ho%elem_of_nil]; [left; by eapply reachable_field|done].
  - intros o Ho. assert (glive h2 (root_pool roots) o) as Hg by (left; unfold gc_roots, root_pool; by rewrite bind_cons, app_nil_r). rewrite Emd. split; [|by apply Hlog].
    by apply Hold, (gh_objects _ _ Hleft).
Qed.

(** A dead large object in the nursery. *)
Lemma gen_release_panics o : o ∈ glarge_objects C h → young (gc_md p) o → ¬ reachable h (gc_roots h pool) o → gencopy_release C p2 = Panic.
Proof.
  intros Ho Hy Hr. destruct (pr_plan _ _ _ _ _ HP : gen_during C h p1 h1 p2) as [HI Hk _]. pose proof (gk_full _ _ _ _ _ Hk) as Hf2. rewrite Hf1 in Hf2.
  unfold gencopy_release, gen_release, common_release, gen_is_current_gc_nursery. change (gc_full_heap (gc_gen p2)) with (full p2). rewrite Hf2. cbn [negb].
  rewrite (los_release_panics OM _ _ _ false o (gn_los _ _ _ HI)); [done| | |by rewrite large_kept|].
  - apply (gn_flags _ _ _ HI).
  - by rewrite (gn_mode _ _ _ HI), Hf2.
  - apply not_true_iff_false. rewrite large_visited by done. auto.
Qed.
End collection.

(** ** The theorem *)

(** [place] says where the reachable objects of [h] are in [h']: those of the nursery in the
    mature space, others where they were. *)
Record gen_collected (h : heap) (p : GenCopy) (roots : list Z) (h' : heap) (p' : GenCopy) (place : Z → option Z) : Prop := {
  gc_same_side : gc_hi p' = gc_hi p;
  gc_placed o : reachable h roots o → is_Some (place o);
  gc_image x : reachable h' roots x ↔ ∃ o, reachable h roots o ∧ place o = Some x;
  gc_unique o1 o2 x : reachable h roots o1 → reachable h roots o2 → place o1 = Some x → place o2 = Some x → o1 = o2;
  gc_spaces o x : reachable h roots o → place o = Some x → if decide (gspace_of o = Some GNursery) then gspace_of x = Some (gto_of (gc_hi p')) else x = o;
  gc_root_slots s : s ∈ roots → slot_load h' s = slot_load h s ≫= place;
  gc_field_slots o x : reachable h roots o → place o = Some x → Forall2 (λ s s', slot_load h' s' = slot_load h s ≫= place) (fields h o) (fields h' x);
  gc_promoted x : reachable h' roots x → ¬ young (gc_md p') x ∧ md_unlog (gc_md p') x = 1;
  gc_large : los_released (los p') = los_released (los p);
  gc_next : gen_ready h' p' (root_pool roots)
}.

(** C1: a nursery collection of a generational plan whose large object space has its bits on the
    side.  For a heap that is ready, where every reference from a mature object to a young one
    is remembered, and a mature space with room for the nursery, [prepare] does not panic, and
    no schedule of the workers takes more than [gc_cost] steps or gets stuck.  Once the packets
    are gone, [release] panics if a large object of the nursery is not reached from the roots
    and the remembered objects and slots.  If there is none, every object that the roots reach,
    through mature objects too, is in the heap once, with the same shape and references to the
    new places; objects of the nursery are in the mature space and the others where they were;
    no object that the roots reach is young, each is unlogged, and the heap is ready for the next
    nursery collection with empty remembered sets.  (It need not be ready for a full one:
    [nursery_flips_marks].) *)
Theorem nursery_collects (h : heap) (p : GenCopy) (pool : list gc_packet) :
  gen_ready h p pool → full p = false → gen_room h p →
  ∃ p1, gencopy_prepare C p = Val p1 ∧
    let start := {| gs_heap := h; gs_plan := p1; gs_pool := pool; gs_running := [] |} in
    ∀ n st, nsteps (gc_step buf) n start st →
    (n ≤ gc_cost (H0 := gen_laws C Hdisj Hcopy Hloside h p1) h start)%nat ∧ (gc_drained st ∨ ∃ st', gc_step buf st st') ∧
    (gc_drained st →
      ((∃ o, o ∈ glarge_objects C h ∧ young (gc_md p) o ∧ ¬ reachable h (gc_roots h pool) o) → gencopy_release C (gs_plan st) = Panic) ∧
      ((∀ o, o ∈ glarge_objects C h → young (gc_md p) o → reachable h (gc_roots h pool) o) →
        ∃ p2, gencopy_release C (gs_plan st) = Val p2 ∧
          gen_collected h p (pool_roots pool) (gen_survivors (gs_heap st)) p2 (gen_fw C (gs_plan st)))).
Proof.
  intros HR Hf Hroom. destruct (gen_prepare_ok h p pool HR Hf Hroom) as (p1 & E & HI & Hhi & Hf1 & Hlos & Hun & Hrel & Hreg & Hfw). exists p1. split; [done|]. intros start n st Hst.
  pose proof (gen_graph h p p1 pool HR Hfw) as HG. pose proof (gen_modbuf_ok h p p1 pool HR Hfw) as HM.
  assert (gen_during C h p1 h p1) as HD by (split; [done|apply gen_kept_refl|congruence]).
  destruct (gc_schedule (GL := gen_nursery_laws C Hdisj Hcopy Hloside h p1 Hf1) buf h p1 pool HG HM n st HD Hst) as [HI' Hc].
  split; [unfold start; unfold gc_start_state in Hc; lia|]. split; [by apply (gc_step_exists (GL := gen_nursery_laws C Hdisj Hcopy Hloside h p1 Hf1) buf h p1 pool HG HM)|]. intros Hdr.
  destruct (gc_drained_preserved (GL := gen_nursery_laws C Hdisj Hcopy Hloside h p1 Hf1) h p1 pool HG st HI' Hdr) as [HP Hul]. split.
  { intros (o & Ho & Hy & Hr). by eapply (gen_release_panics h p p1 pool HR Hf1 Hfw). }
  intros Hl. destruct (gen_release_ok h p p1 pool HR Hf1 Hfw _ _ HP Hul Hhi Hun Hreg Hl) as (p2 & E2 & HR2 & Hhi2 & Hrel2 & Hpr). exists p2. split; [done|].
  assert (∀ o, reachable h (pool_roots pool) o → glive h pool o) as Hgl by apply roots_live.
  assert (gc_hi (gs_plan st) = gc_hi p) as Hhi3 by (rewrite (gk_hi _ _ _ _ _ (gd_kept _ _ _ _ _ (pr_plan _ _ _ _ _ HP))); done).
  split; try done.
  - intros o Ho. destruct (live_placed h p p1 pool HR Hfw _ _ HP o (Hgl o Ho)) as (x & -> & _). done.
  - by apply (gen_image h p p1 pool).
  - intros o1 o2 x H1 H2. apply (pr_unique _ _ _ _ _ HP); by apply (gh_objects _ _ (gr_heap _ _ _ HR)), Hgl.
  - intros o x Ho Ex. rewrite Hhi2, <-Hhi3. by apply (placed_object h p p1 pool HR Hf1 Hfw _ _ HP o x (Hgl o Ho)).
  - intros s Hs. apply (root_updated h p1 pool _ _ HP), gc_roots_elem. by left.
  - intros o x Ho Ex. destruct (placed_object h p p1 pool HR Hf1 Hfw _ _ HP o x (Hgl o Ho) Ex) as (_ & _ & -> & _). by apply (live_fields h p p1 pool HR Hfw _ _ HP o x (Hgl o Ho)).
  - by rewrite Hrel2, Hrel.
Qed.
End nursery.
