(* ===== verification/Barrier.v ===== *)
(** * The write barrier of generational plans
    (src/src/plan/barriers.rs: [ObjectBarrier]; src/src/plan/generational/barrier.rs)

    Mutators store references and copy arrays through the barrier.  The steps are the accesses
    to shared memory: the store, the test of the unlog bit, the load and the compare-exchange
    of [log_object], and the push into the buffer of the mutator.  A collection happens when no
    mutator is in a barrier. *)

From stdpp Require Import gmap.
From S2P Require Import Prelude Tracing TracingTheorems ScanTracing Spaces LargeObjects SemiSpace Generational GenInv.

(** ** Mutators *)

(** A slice of an array: the object it belongs to, if it is known, its address and slots. *)
Record memory_slice : Type := { sl_object : option Z; sl_start : Z; sl_slots : list Z }.

(** Where a mutator is: after the store of [object_reference_write], in [log_object] before its
    load or its compare-exchange, before the slow path of the semantics; after the copy of
    [memory_region_copy]; after [object_probable_write], when it may write to the object. *)
Inductive barrier_pc : Type :=
| Idle
| Stored (src : Z)
| LogLoad (src : Z)
| LogCas (src : Z)
| Logged (src : Z)
| Copied (dst : memory_slice)
| Writing (obj : Z).

(** The buffers of [GenObjectBarrierSemantics]. *)
Record mutator : Type := { mu_modbuf : list Z; mu_regions : list (list Z); mu_pc : barrier_pc }.

Section barrier.
Context (C : gen_config) (buf : buffer_features).

(** ** [GenObjectBarrierSemantics] *)

Definition is_full {A} (l : list A) : bool := BUFFER_SIZE buf <=? Z.of_nat (length l).
Definition flush_modbuf (m : mutator) : mutator * list gc_packet :=
  ({| mu_modbuf := []; mu_regions := mu_regions m; mu_pc := mu_pc m |}, if bool_decide (mu_modbuf m = []) then [] else [ProcessModBuf (mu_modbuf m)]).
Definition flush_region_modbuf (m : mutator) : mutator * list gc_packet :=
  ({| mu_modbuf := mu_modbuf m; mu_regions := []; mu_pc := mu_pc m |}, if bool_decide (mu_regions m = []) then [] else [ProcessRegionModBuf (mu_regions m)]).
Definition barrier_flush (m : mutator) : mutator * list gc_packet :=
  let '(m, modbuf) := flush_modbuf m in
  let '(m, regions) := flush_region_modbuf m in
  (m, modbuf ++ regions).
Definition push_modbuf (m : mutator) (obj : Z) : mutator * list gc_packet :=
  let m := {| mu_modbuf := mu_modbuf m ++ [obj]; mu_regions := mu_regions m; mu_pc := mu_pc m |} in
  if is_full (mu_modbuf m) then flush_modbuf m else (m, []).
Definition object_reference_write_slow (m : mutator) (src : option Z) : mutator * list gc_packet :=
  match src with None => (m, []) | Some src => push_modbuf m src end.
Definition object_probable_write_slow (m : mutator) (obj : Z) : mutator * list gc_packet := push_modbuf m obj.
Definition dst_in_nursery (dst : memory_slice) : bool :=
  match sl_object dst with
  | Some obj => ge_in_space C GNursery obj
  | None => ge_in_space C GNursery (sl_start dst)
  end.
(** [memory_region_copy_slow]; its debug assertion that [dst.bytes()] is a multiple of four is
    about the binding's slices, which are whole slots here. *)
Definition memory_region_copy_slow (m : mutator) (dst : memory_slice) : mutator * list gc_packet :=
  if negb (dst_in_nursery dst)
  then
    let m := {| mu_modbuf := mu_modbuf m; mu_regions := mu_regions m ++ [sl_slots dst]; mu_pc := mu_pc m |} in
    if is_full (mu_regions m) then flush_region_modbuf m else (m, [])
  else (m, []).

(** ** [ObjectBarrier] *)

Definition object_is_unlogged (md : metadata) (o : Z) : bool := negb (md_unlog md o =? 0).
Definition set_pc (m : mutator) (pc : barrier_pc) : mutator := {| mu_modbuf := mu_modbuf m; mu_regions := mu_regions m; mu_pc := pc |}.
(** The next step of a mutator in a barrier: the unlog bits, the mutator, and the packets that
    go to the closure bucket. *)
Definition barrier_step (md : metadata) (m : mutator) : option (metadata * mutator * list gc_packet) :=
  match mu_pc m with
  | Idle | Writing _ => None
  | Stored src => Some (md, set_pc m (if object_is_unlogged md src then LogLoad src else Idle), [])
  | LogLoad src => Some (md, set_pc m (if md_unlog md src =? 0 then Idle else LogCas src), [])
  | LogCas src =>
    if md_unlog md src =? 1 then Some (clear_log md src, set_pc m (Logged src), [])
    else Some (md, set_pc m (LogLoad src), [])
  | Logged src => let '(m, flushed) := object_reference_write_slow m (Some src) in Some (md, set_pc m Idle, flushed)
  | Copied dst => let '(m, flushed) := memory_region_copy_slow m dst in Some (md, set_pc m Idle, flushed)
  end.
(** [object_probable_write], up to the writes. *)
Definition object_probable_write (md : metadata) (m : mutator) (obj : Z) : mutator * list gc_packet :=
  let '(m, flushed) := if object_is_unlogged md obj then object_probable_write_slow m obj else (m, []) in
  (set_pc m (Writing obj), flushed).

(** ** The heap of the mutators *)

Definition slot_write (h : heap) (s : Z) (v : option Z) : heap := {| h_slots := <[s := v]> (h_slots h); h_fields := h_fields h |}.
(** [MemorySlice::copy] reads all slots before it writes. *)
Definition slice_copy (h : heap) (src dst : list Z) : heap :=
  {| h_slots := foldr (λ x m, <[x.2 := slot_load h x.1]> m) (h_slots h) (zip src dst); h_fields := h_fields h |}.
(** A new object with empty slots. *)
Definition new_object (h : heap) (o : Z) (fs : list Z) : heap :=
  {| h_slots := foldr (λ s m, <[s := None]> m) (h_slots h) fs; h_fields := <[o := fs]> (h_fields h) |}.
(** The regions of the space of a new object, as its page resource has them. *)
Definition with_space_regions (k : gen_space) (p : GenCopy) (regions : list (Z * Z)) : GenCopy :=
  let g := gc_gen p in
  let cp := gen_common g in
  let grown sp := {| im_mark_state := im_mark_state sp; im_common := im_common sp; im_vm_space := im_vm_space sp; im_extent := im_extent sp; im_regions := regions |} in
  match k with
  | GNursery => with_gen p (with_nursery g (with_regions (gen_nursery g) regions)) (gc_md p)
  | GImmortal => with_gen p (with_gen_common g {| cp_immortal := grown (cp_immortal cp); cp_los := cp_los cp; cp_nonmoving := cp_nonmoving cp |}) (gc_md p)
  | GNonMoving => with_gen p (with_gen_common g {| cp_immortal := cp_immortal cp; cp_los := cp_los cp; cp_nonmoving := grown (cp_nonmoving cp) |}) (gc_md p)
  | _ => p
  end.
Definition space_regions (k : gen_space) (p : GenCopy) : list (Z * Z) :=
  match k with
  | GNursery => cs_regions (gen_nursery (gc_gen p))
  | GImmortal => mark_regions (cp_immortal (gen_common (gc_gen p)))
  | GNonMoving => mark_regions (cp_nonmoving (gen_common (gc_gen p)))
  | _ => []
  end.

(** ** Mutators at work *)

Record mut_state : Type := { ms_heap : heap; ms_plan : GenCopy; ms_mutators : list mutator; ms_bucket : list gc_packet }.

(** A mutator stores what it can reach. *)
Definition loadable (h : heap) (roots : list Z) (v : option Z) : Prop := from_option (reachable h roots) True v.
(** The memory of a new object of the space [k]: no object uses it, the page resource of the
    space has it and its metadata is zero. *)
Record new_memory (k : gen_space) (h : heap) (p : GenCopy) (roots : list Z) (o : Z) (fs : list Z) (regions : list (Z * Z)) : Prop := {
  nm_space : gspace_of C o = Some k;
  nm_object : h_fields h !! o = None;
  nm_nodup : NoDup fs;
  nm_slots s : s ∈ fs → (s ∉ roots) ∧ (∀ x, is_Some (h_fields h !! x) → s ∉ fields h x);
  nm_covered : k = GLos ∨ covered (space_regions k (with_space_regions k p regions)) o;
  nm_more x : covered (space_regions k p) x → covered (space_regions k (with_space_regions k p regions)) x;
  nm_extent x : k = GNursery → covered regions x → gspace_of C x = Some GNursery;
  nm_forward : md_forward (gc_md p) !! o = None;
  nm_unlog : md_unlog (gc_md p) o = 0;
  nm_los : md_los (gc_md p) o = 0
}.

(** The steps between two collections: of barriers; a store into an object and into a root;
    the copy of a slice into an object; the call of [object_probable_write], the writes after
    it and the end of those; and an allocation, whose object is stored in a root. *)
Inductive mut_step (roots : list Z) : mut_state → mut_state → Prop :=
| step_barrier h p ms1 m ms2 b md' m' flushed :
  barrier_step (gc_md p) m = Some (md', m', flushed) →
  mut_step roots {| ms_heap := h; ms_plan := p; ms_mutators := ms1 ++ m :: ms2; ms_bucket := b |}
                 {| ms_heap := h; ms_plan := with_gen p (gc_gen p) md'; ms_mutators := ms1 ++ m' :: ms2; ms_bucket := b ++ flushed |}
| step_write h p ms1 m ms2 b src s v :
  mu_pc m = Idle → reachable h roots src → s ∈ fields h src → loadable h roots v →
  mut_step roots {| ms_heap := h; ms_plan := p; ms_mutators := ms1 ++ m :: ms2; ms_bucket := b |}
                 {| ms_heap := slot_write h s v; ms_plan := p; ms_mutators := ms1 ++ set_pc m (Stored src) :: ms2; ms_bucket := b |}
| step_root h p ms b s v :
  s ∈ roots → loadable h roots v →
  mut_step roots {| ms_heap := h; ms_plan := p; ms_mutators := ms; ms_bucket := b |}
                 {| ms_heap := slot_write h s v; ms_plan := p; ms_mutators := ms; ms_bucket := b |}
| step_copy h p ms1 m ms2 b src dst o :
  mu_pc m = Idle → reachable h roots o → (∀ s, s ∈ sl_slots dst → s ∈ fields h o) → length src = length (sl_slots dst) →
  (∀ s, s ∈ src → loadable h roots (slot_load h s)) →
  sl_object dst = Some o ∨ sl_object dst = None ∧ ge_in_space C GNursery (sl_start dst) = ge_in_space C GNursery o →
  mut_step roots {| ms_heap := h; ms_plan := p; ms_mutators := ms1 ++ m :: ms2; ms_bucket := b |}
                 {| ms_heap := slice_copy h src (sl_slots dst); ms_plan := p; ms_mutators := ms1 ++ set_pc m (Copied dst) :: ms2; ms_bucket := b |}
| step_probable h p ms1 m ms2 b obj m' flushed :
  mu_pc m = Idle → reachable h roots obj → object_probable_write (gc_md p) m obj = (m', flushed) →
  mut_step roots {| ms_heap := h; ms_plan := p; ms_mutators := ms1 ++ m :: ms2; ms_bucket := b |}
                 {| ms_heap := h; ms_plan := p; ms_mutators := ms1 ++ m' :: ms2; ms_bucket := b ++ flushed |}
| step_writing h p ms1 m ms2 b obj s v :
  mu_pc m = Writing obj → s ∈ fields h obj → loadable h roots v →
  mut_step roots {| ms_heap := h; ms_plan := p; ms_mutators := ms1 ++ m :: ms2; ms_bucket := b |}
                 {| ms_heap := slot_write h s v; ms_plan := p; ms_mutators := ms1 ++ m :: ms2; ms_bucket := b |}
| step_written h p ms1 m ms2 b obj :
  mu_pc m = Writing obj →
  mut_step roots {| ms_heap := h; ms_plan := p; ms_mutators := ms1 ++ m :: ms2; ms_bucket := b |}
                 {| ms_heap := h; ms_plan := p; ms_mutators := ms1 ++ set_pc m Idle :: ms2; ms_bucket := b |}
| step_alloc h p ms b k o fs bytes regions s p' :
  new_memory k h p roots o fs regions → gen_post_alloc C k (with_space_regions k p regions) o bytes = Val p' → s ∈ roots →
  mut_step roots {| ms_heap := h; ms_plan := p; ms_mutators := ms; ms_bucket := b |}
                 {| ms_heap := slot_write (new_object h o fs) s (Some o); ms_plan := p'; ms_mutators := ms; ms_bucket := b |}.

(** All mutators stop and flush their buffers. *)
Fixpoint flush_all (ms : list mutator) : list gc_packet :=
  match ms with
  | [] => []
  | m :: ms => (barrier_flush m).2 ++ flush_all ms
  end.
Definition mut_start (h : heap) (p : GenCopy) (n : nat) : mut_state :=
  {| ms_heap := h; ms_plan := p; ms_mutators := replicate n {| mu_modbuf := []; mu_regions := []; mu_pc := Idle |}; ms_bucket := [] |}.
Definition all_idle (st : mut_state) : Prop := ∀ m, m ∈ ms_mutators st → mu_pc m = Idle.
End barrier.
