(* ===== verification/BarrierTheorems.v ===== *)
(** * The write barrier remembers

    Whatever the mutators do, in whatever order their barriers run: when they stop, every
    reference from a mature object to a young one is in their buffers. *)

From stdpp Require Import gmap.
From S2P Require Import Prelude Tracing TracingInv TracingTheorems ScanTracing ScanTheorems Spaces LargeObjects LargeObjectsTheorems SemiSpace SemiSpaceInv SemiSpaceTheorems Generational GenInv GenTheorems Barrier.

Section remember.
Context (C : gen_config) (Hdisj : spaces_disjoint C) (buf : buffer_features).
Abbreviation OM := (ge_om C).
Abbreviation gspace_of := (gspace_of C).
Abbreviation young := (young C).
Abbreviation los p := (cp_los (gen_common (gc_gen p))).

(** ** The heap *)

(** [K] has the objects that mutators can have reached. *)
Record closed_heap (roots : list Z) (K : Z → Prop) (h : heap) : Prop := {
  ch_roots s : s ∈ roots → is_Some (h_slots h !! s) ∧ from_option K True (slot_load h s);
  ch_objects o : K o → is_Some (h_fields h !! o);
  ch_fields o s : K o → s ∈ fields h o → is_Some (h_slots h !! s) ∧ (s ∉ roots) ∧ from_option K True (slot_load h s);
  ch_nodup o : K o → NoDup (fields h o);
  ch_disjoint o1 o2 s : K o1 → K o2 → s ∈ fields h o1 → s ∈ fields h o2 → o1 = o2
}.
Lemma closed_reachable roots K h o : closed_heap roots K h → reachable h roots o → K o.
Proof.
  intros HC. induction 1 as [s o Hs E|o s o' _ IH Hs E].
  - destruct (ch_roots _ _ _ HC s Hs) as [_ Hk]. by rewrite E in Hk.
  - destruct (ch_fields _ _ _ HC o s IH Hs) as (_ & _ & Hk). by rewrite E in Hk.
Qed.
Lemma closed_loadable roots K h v : closed_heap roots K h → loadable h roots v → from_option K True v.
Proof. intros HC. destruct v; [by apply closed_reachable|done]. Qed.

(** The slots of [D] get new values. *)
Record slots_written (K : Z → Prop) (D : list Z) (h h' : heap) : Prop := {
  sw_fields : h_fields h' = h_fields h;
  sw_other s : s ∉ D → h_slots h' !! s = h_slots h !! s;
  sw_written s : s ∈ D → ∃ v, h_slots h' !! s = Some v ∧ from_option K True v
}.
Lemma written_fields K D h h' o : slots_written K D h h' → fields h' o = fields h o.
Proof. intros HW. unfold fields. by rewrite (sw_fields _ _ _ _ HW). Qed.
Lemma written_load K D h h' s : slots_written K D h h' → s ∉ D → slot_load h' s = slot_load h s.
Proof. intros HW Hs. unfold slot_load. by rewrite (sw_other _ _ _ _ HW). Qed.
Lemma written_slot K D h h' s :
  slots_written K D h h' → is_Some (h_slots h !! s) → from_option K True (slot_load h s) → is_Some (h_slots h' !! s) ∧ from_option K True (slot_load h' s).
Proof.
  intros HW Hs Hv. destruct (decide (s ∈ D)) as [Hd|Hd]; [|by rewrite (written_load K D h h'), (sw_other _ _ _ _ HW)].
  unfold slot_load. by destruct (sw_written _ _ _ _ HW s Hd) as (v & -> & ?).
Qed.
Lemma closed_written roots K D h h' : closed_heap roots K h → slots_written K D h h' → closed_heap roots K h'.
Proof.
  intros HC HW. assert (∀ o, fields h' o = fields h o) as Ef by (intros o; by eapply written_fields). split; intros; rewrite ?Ef in *.
  - eapply written_slot; [done|by apply (ch_roots _ _ _ HC)..].
  - rewrite (sw_fields _ _ _ _ HW). by apply (ch_objects _ _ _ HC).
  - destruct (ch_fields _ _ _ HC o s) as (? & ? & ?); [done..|]. edestruct written_slot; [done..|]. done.
  - by apply (ch_nodup _ _ _ HC).
  - by eapply (ch_disjoint _ _ _ HC).
Qed.
Lemma slot_write_written K h s v : from_option K True v → slots_written K [s] h (slot_write h s v).
Proof.
  intros Hv. split; [done|..]; cbn [slot_write h_slots].
  - intros x Hx%not_elem_of_cons. by rewrite lookup_insert_ne by naive_solver.
  - intros x ->%list_elem_of_singleton. exists v. by rewrite lookup_insert_eq.
Qed.
Lemma slice_copy_written K h src dst :
  length src = length dst → (∀ s, s ∈ src → from_option K True (slot_load h s)) → slots_written K dst h (slice_copy h src dst).
Proof.
  intros Hl Hk. split; [done|..]; cbn [slice_copy h_slots]; revert src Hl Hk; induction dst as [|x dst IH]; intros [|y src] Hl Hk s Hs; try done; try by apply elem_of_nil in Hs.
  all: cbn [zip zip_with foldr fst snd]; destruct (decide (s = x)) as [-> |Hx].
  - by destruct Hs; left.
  - rewrite lookup_insert_ne by done. apply IH; [by injection Hl| |set_solver]. intros. apply Hk. by right.
  - exists (slot_load h y). rewrite lookup_insert_eq. split; [done|]. apply Hk. by left.
  - rewrite lookup_insert_ne by done. apply IH; [by injection Hl| |set_solver]. intros. apply Hk. by right.
Qed.

(** ** Remembered or about to be *)

Definition pc_object (pc : barrier_pc) : option Z :=
  match pc with
  | Stored o | LogLoad o | LogCas o | Logged o | Writing o => Some o
  | Idle | Copied _ => None
  end.
(** The mutator will remember the slot [s] of [o], or find that another one does. *)
Definition keeps (pc : barrier_pc) (o s : Z) : Prop :=
  match pc with
  | Stored x | LogLoad x | LogCas x | Logged x => x = o
  | Copied dst => s ∈ sl_slots dst
  | Idle | Writing _ => False
  end.
Definition logged (mods : list Z) (pcs : list barrier_pc) (o : Z) : Prop := o ∈ mods ∨ Logged o ∈ pcs.
Definition kept (mods regs : list Z) (pcs : list barrier_pc) (o s : Z) : Prop := o ∈ mods ∨ s ∈ regs ∨ ∃ pc, pc ∈ pcs ∧ keeps pc o s.
Definition pc_ok (K : Z → Prop) (h : heap) (md : metadata) (mods : list Z) (pcs : list barrier_pc) (pc : barrier_pc) : Prop :=
  from_option K True (pc_object pc) ∧
  match pc with
  | Logged o => ¬ young md o
  | Copied dst => ∃ o, K o ∧ (∀ s, s ∈ sl_slots dst → s ∈ fields h o) ∧ (dst_in_nursery C dst = true → young md o)
  | Writing o => young md o ∨ logged mods pcs o
  | _ => True
  end.
Record remembering (K : Z → Prop) (h : heap) (md : metadata) (mods regs : list Z) (pcs : list barrier_pc) : Prop := {
  rm_pcs pc : pc ∈ pcs → pc_ok K h md mods pcs pc;
  rm_mods o : o ∈ mods → K o ∧ ¬ young md o;
  rm_regs s : s ∈ regs → ∃ o, K o ∧ s ∈ fields h o;
  rm_unlog o : K o → ¬ young md o → md_unlog md o = 1 ∨ logged mods pcs o;
  rm_remembered o s v : K o → ¬ young md o → s ∈ fields h o → slot_load h s = Some v → young md v → kept mods regs pcs o s
}.

Lemma young_ext md md' o : md_los md' = md_los md → young md' o ↔ young md o.
Proof. intros E. unfold GenTheorems.young, is_in_nursery. by rewrite E. Qed.
(** A step of one mutator, from [pc] to [pc']. *)
Lemma remembering_move K h h' D md md' mods mods' regs regs' pcs pcs' pc pc' :
  remembering K h md mods regs pcs → slots_written K D h h' → md_los md' = md_los md →
  (∀ x, x ∈ pcs → x ∈ pcs' ∨ x = pc) → (∀ x, x ∈ pcs' → x ∈ pcs ∨ x = pc') →
  (∀ o, o ∈ mods → o ∈ mods') → (∀ o, o ∈ mods' → o ∈ mods ∨ K o ∧ ¬ young md o) →
  (∀ s, s ∈ regs → s ∈ regs') → (∀ s, s ∈ regs' → s ∈ regs ∨ ∃ o, K o ∧ s ∈ fields h o) →
  pc_ok K h md mods' pcs' pc' →
  (∀ o, pc = Logged o → logged mods' pcs' o) →
  (∀ o s, keeps pc o s ∨ s ∈ D → K o → ¬ young md o → s ∈ fields h o → kept mods' regs' pcs' o s) →
  (∀ o, K o → ¬ young md o → md_unlog md o = 1 → md_unlog md' o = 1 ∨ logged mods' pcs' o) →
  remembering K h' md' mods' regs' pcs'.
Proof.
  intros HR HW El Hp Hp' Hm Hm' Hr Hr' Hok Hlog Hkeep Hun. assert (∀ o, young md' o ↔ young md o) as Ey by (intros o; by apply young_ext).
  assert (∀ o, fields h' o = fields h o) as Ef by (intros o; by eapply written_fields).
  assert (∀ o, logged mods pcs o → logged mods' pcs' o) as Hlo.
  { intros o [?|Ho]; [left; auto|]. destruct (Hp _ Ho) as [?|E]; [by right|by apply Hlog]. }
  assert (∀ x, pc_ok K h md mods' pcs' x → pc_ok K h' md' mods' pcs' x) as Hext.
  { intros x [? Hx]. split; [done|]. destruct x; rewrite ?Ey in *; try done. destruct Hx as (o & ? & ? & ?). exists o. by rewrite Ey, Ef. }
  split.
  - intros x [Hx| ->]%Hp'; apply Hext; [|done]. destruct (rm_pcs _ _ _ _ _ _ HR x Hx) as [? Hok']. split; [done|]. destruct x; try done. destruct Hok' as [?|?]; [by left|right; auto].
  - intros o [Ho|[? ?]]%Hm'; rewrite Ey; [by apply (rm_mods _ _ _ _ _ _ HR)|done].
  - intros s [Hs|(o & ? & ?)]%Hr'; [destruct (rm_regs _ _ _ _ _ _ HR s Hs) as (o & ? & ?)|]; exists o; by rewrite Ef.
  - intros o Ho Hy. rewrite Ey in Hy. destruct (rm_unlog _ _ _ _ _ _ HR o Ho Hy) as [?|?]; [by apply Hun|right; auto].
  - intros o s v Ho Hy Hs Hv Hyv. rewrite Ey in Hy, Hyv. rewrite Ef in Hs. destruct (decide (s ∈ D)) as [Hd|Hd]; [apply Hkeep; auto|].
    rewrite (written_load K D h h') in Hv by done. destruct (rm_remembered _ _ _ _ _ _ HR o s v Ho Hy Hs Hv Hyv) as [?|[?|(x & Hx & Hk)]]; [left; auto|right; left; auto|].
    destruct (Hp x Hx) as [?| ->]; [right; right; by exists x|apply Hkeep; auto].
Qed.

(** ** Buffers *)

(** [m] has become [m'] and has flushed packets: what was pushed is in one or the other. *)
Record buffers (m m' : mutator) (flushed : list gc_packet) (mods regs : list Z) : Prop := {
  bf_mods o : o ∈ mu_modbuf m' ∨ o ∈ gc_modbuf flushed ↔ o ∈ mu_modbuf m ∨ o ∈ mods;
  bf_regs s : s ∈ concat (mu_regions m') ∨ s ∈ pool_regions flushed ↔ s ∈ concat (mu_regions m) ∨ s ∈ regs;
  bf_roots : pool_roots flushed = []
}.
Lemma buffers_pc m m' flushed mods regs pc : buffers m m' flushed mods regs → buffers m (set_pc m' pc) flushed mods regs.
Proof. by intros []. Qed.
Lemma buffers_same m : buffers m m [] [] [].
Proof. split; [intros o; by rewrite !elem_of_nil..|done]. Qed.
Lemma modbuf_packet l : gc_modbuf [ProcessModBuf l] = l ∧ gc_modbuf [] = [] ∧ pool_regions [ProcessModBuf l] = [].
Proof. split_and!; [apply app_nil_r|done..]. Qed.
Lemma region_packet l : pool_regions [ProcessRegionModBuf l] = concat l ∧ pool_regions [] = [] ∧ gc_modbuf [ProcessRegionModBuf l] = [].
Proof. split_and!; [apply app_nil_r|done..]. Qed.
Lemma flush_modbuf_buffers m m' flushed : flush_modbuf m = (m', flushed) → buffers m m' flushed [] [].
Proof.
  unfold flush_modbuf. intros [= <- <-]. destruct (modbuf_packet (mu_modbuf m)) as (E1 & E2 & E3).
  case_bool_decide as E; (split; [intros o; cbn [mu_modbuf]|intros s; cbn [mu_regions]|done]); rewrite ?E1, ?E2, ?E3, ?E, ?elem_of_nil; tauto.
Qed.
Lemma flush_region_buffers m m' flushed : flush_region_modbuf m = (m', flushed) → buffers m m' flushed [] [].
Proof.
  unfold flush_region_modbuf. intros [= <- <-]. destruct (region_packet (mu_regions m)) as (E1 & E2 & E3).
  case_bool_decide as E; (split; [intros o; cbn [mu_modbuf]|intros s; cbn [mu_regions]|done]); rewrite ?E1, ?E2, ?E3, ?E; cbn [concat]; rewrite ?elem_of_nil; tauto.
Qed.
Lemma buffers_after m m1 m' flushed mods regs mods1 regs1 :
  buffers m1 m' flushed [] [] → (∀ o, o ∈ mu_modbuf m1 ↔ o ∈ mu_modbuf m ∨ o ∈ mods) → (∀ s, s ∈ concat (mu_regions m1) ↔ s ∈ concat (mu_regions m) ∨ s ∈ regs) →
  mods1 = mods → regs1 = regs → buffers m m' flushed mods1 regs1.
Proof. intros [H1 H2 H3] Hm Hr -> ->. split; [intros o; rewrite H1, Hm, elem_of_nil; tauto|intros s; rewrite H2, Hr, elem_of_nil; tauto|done]. Qed.
Lemma push_modbuf_buffers m o m' flushed : push_modbuf buf m o = (m', flushed) → buffers m m' flushed [o] [].
Proof.
  unfold push_modbuf. set (m1 := {| mu_modbuf := _ |}). intros E. eapply (buffers_after m m1 m' flushed [o] []); try done.
  - destruct (is_full _ _); [by apply flush_modbuf_buffers|]. injection E as <- <-. apply buffers_same.
  - intros x. unfold m1. cbn [mu_modbuf]. by rewrite elem_of_app, ?list_elem_of_singleton.
  - intros s. rewrite elem_of_nil. unfold m1; cbn [mu_regions]. tauto.
Qed.
Lemma region_copy_buffers m dst m' flushed :
  memory_region_copy_slow C buf m dst = (m', flushed) → buffers m m' flushed [] (if dst_in_nursery C dst then [] else sl_slots dst).
Proof.
  unfold memory_region_copy_slow. destruct (dst_in_nursery C dst); cbn [negb]; [intros [= <- <-]; apply buffers_same|].
  set (m1 := {| mu_modbuf := _ |}). intros E. eapply (buffers_after m m1 m' flushed [] (sl_slots dst)); try done.
  - destruct (is_full _ _); [by apply flush_region_buffers|]. injection E as <- <-. apply buffers_same.
  - intros x. rewrite elem_of_nil. unfold m1; cbn [mu_modbuf]. tauto.
  - intros s. unfold m1; cbn [mu_regions]. rewrite concat_app, elem_of_app. cbn [concat]. by rewrite app_nil_r.
Qed.

(** All buffers and the packets in the bucket. *)
Definition all_mods (st : mut_state) : list Z := gc_modbuf (ms_bucket st ++ flush_all (ms_mutators st)).
Definition all_regs (st : mut_state) : list Z := pool_regions (ms_bucket st ++ flush_all (ms_mutators st)).
Lemma flushed_all ms o s :
  (o ∈ gc_modbuf (flush_all ms) ↔ ∃ m, m ∈ ms ∧ o ∈ mu_modbuf m) ∧ (s ∈ pool_regions (flush_all ms) ↔ ∃ m, m ∈ ms ∧ s ∈ concat (mu_regions m)) ∧ pool_roots (flush_all ms) = [].
Proof.
  induction ms as [|m ms (IH1 & IH2 & IH3)]; [split_and!; [split; [by intros ?%elem_of_nil|by intros (m & ?%elem_of_nil & _)]..|done]|].
  cbn [flush_all]. unfold barrier_flush. destruct (flush_modbuf m) as [m1 f1] eqn:E1. destruct (flush_region_modbuf m1) as [m2 f2] eqn:E2. cbn [snd].
  assert (mu_modbuf m2 = [] ∧ mu_regions m2 = []) as [N1 N2] by (injection E1 as <- _; injection E2 as <- _; done).
  destruct (flush_modbuf_buffers _ _ _ E1) as [A1 A2 A3], (flush_region_buffers _ _ _ E2) as [B1 B2 B3]. specialize (A1 o). specialize (A2 s). specialize (B1 o). specialize (B2 s).
  rewrite N1 in B1. rewrite N2 in B2. cbn [concat] in B2. rewrite ?elem_of_nil in *. unfold gc_modbuf, pool_regions, pool_roots in *. rewrite !bind_app, !elem_of_app, IH1, IH2, IH3, A3, B3.
  setoid_rewrite elem_of_cons. split_and!; [naive_solver..|done].
Qed.

(** ** The invariant *)

Abbreviation pcs st := (mu_pc <$> ms_mutators st).
Record mut_inv (roots : list Z) (K : Z → Prop) (st : mut_state) : Prop := {
  mi_heap : closed_heap roots K (ms_heap st);
  mi_plan : gen_plan_ok C (ms_heap st) (ms_plan st);
  mi_remembering : remembering K (ms_heap st) (gc_md (ms_plan st)) (all_mods st) (all_regs st) (pcs st);
  mi_bucket : pool_roots (ms_bucket st) = []
}.

Lemma gen_plan_fields h h' p : h_fields h' = h_fields h → gen_plan_ok C h p → gen_plan_ok C h' p.
Proof.
  intros E []. unfold gside_marks, glarge_objects, gobjects_in in *. split; unfold gside_marks, glarge_objects, gobjects_in; by rewrite ?E.
Qed.
Lemma gen_plan_md h p md' :
  gen_plan_ok C h p → md_forward md' = md_forward (gc_md p) → md_los md' = md_los (gc_md p) → (∀ o, md_unlog (gc_md p) o = 0 → md_unlog md' o = 0) →
  gen_plan_ok C h (with_gen p (gc_gen p) md').
Proof.
  intros HP Ef El Hu. split; cbn [with_gen gc_md gc_gen gc_hi]; rewrite ?Ef; try by apply HP.
  - destruct (gr_los _ _ _ HP). by split; rewrite ?El.
  - pose proof (gr_flags _ _ _ HP) as []. by split.
  - intros o Ho Hy. rewrite (young_ext (gc_md p)) in Hy by done. by apply Hu, (gr_logged _ _ _ HP).
Qed.

Lemma pcs_replace ms1 (m m' : mutator) ms2 :
  let l := mu_pc <$> ms1 ++ m :: ms2 in let l' := mu_pc <$> ms1 ++ m' :: ms2 in
  (∀ x, x ∈ l → x ∈ l' ∨ x = mu_pc m) ∧ (∀ x, x ∈ l' → x ∈ l ∨ x = mu_pc m') ∧ mu_pc m ∈ l ∧ mu_pc m' ∈ l'.
Proof. cbn. rewrite !fmap_app, !fmap_cons. set_solver. Qed.
Lemma buffers_all h p h' p' ms1 m m' ms2 b flushed mods regs :
  buffers m m' flushed mods regs →
  let st := {| ms_heap := h; ms_plan := p; ms_mutators := ms1 ++ m :: ms2; ms_bucket := b |} in
  let st' := {| ms_heap := h'; ms_plan := p'; ms_mutators := ms1 ++ m' :: ms2; ms_bucket := b ++ flushed |} in
  (∀ o, o ∈ all_mods st' ↔ o ∈ all_mods st ∨ o ∈ mods) ∧ (∀ s, s ∈ all_regs st' ↔ s ∈ all_regs st ∨ s ∈ regs).
Proof.
  intros [H1 H2 _]. unfold all_mods, all_regs. cbn [ms_bucket ms_mutators]. split.
  - intros o. specialize (H1 o). unfold gc_modbuf in *. rewrite !bind_app, !elem_of_app.
    destruct (flushed_all (ms1 ++ m :: ms2) o 0) as [E1 _], (flushed_all (ms1 ++ m' :: ms2) o 0) as [E2 _]. unfold gc_modbuf in *. rewrite E1, E2.
    setoid_rewrite elem_of_app. setoid_rewrite elem_of_cons. clear E1 E2. naive_solver.
  - intros s. specialize (H2 s). unfold pool_regions in *. rewrite !bind_app, !elem_of_app.
    destruct (flushed_all (ms1 ++ m :: ms2) 0 s) as (_ & E1 & _), (flushed_all (ms1 ++ m' :: ms2) 0 s) as (_ & E2 & _). unfold pool_regions in *. rewrite E1, E2.
    setoid_rewrite elem_of_app. setoid_rewrite elem_of_cons. clear E1 E2. naive_solver.
Qed.

Lemma inv_move roots K h h' D p p' ms1 m m' ms2 b flushed mods regs :
  let st := {| ms_heap := h; ms_plan := p; ms_mutators := ms1 ++ m :: ms2; ms_bucket := b |} in
  let st' := {| ms_heap := h'; ms_plan := p'; ms_mutators := ms1 ++ m' :: ms2; ms_bucket := b ++ flushed |} in
  mut_inv roots K st → slots_written K D h h' → gen_plan_ok C h p' → md_los (gc_md p') = md_los (gc_md p) → buffers m m' flushed mods regs →
  (∀ o, o ∈ mods → K o ∧ ¬ young (gc_md p) o) → (∀ s, s ∈ regs → ∃ o, K o ∧ s ∈ fields h o) →
  pc_ok K h (gc_md p) (all_mods st') (pcs st') (mu_pc m') →
  (∀ o, mu_pc m = Logged o → logged (all_mods st') (pcs st') o) →
  (∀ o s, keeps (mu_pc m) o s ∨ s ∈ D → K o → ¬ young (gc_md p) o → s ∈ fields h o → kept (all_mods st') (all_regs st') (pcs st') o s) →
  (∀ o, K o → ¬ young (gc_md p) o → md_unlog (gc_md p) o = 1 → md_unlog (gc_md p') o = 1 ∨ logged (all_mods st') (pcs st') o) →
  mut_inv roots K st'.
Proof.
  intros st st' HI HW HP El HB Hmods Hregs Hok Hlog Hkeep Hun. destruct (buffers_all h p h' p' ms1 m m' ms2 b flushed mods regs HB) as [Em Er].
  destruct (pcs_replace ms1 m m' ms2) as (Hp & Hp' & _ & _). split.
  - eapply closed_written, HW. apply (mi_heap _ _ _ HI).
  - eapply gen_plan_fields, HP. apply (sw_fields _ _ _ _ HW).
  - eapply (remembering_move K h h' D (gc_md p) (gc_md p') (all_mods st) _ (all_regs st)); [exact (mi_remembering _ _ _ HI)|done|done|exact Hp|exact Hp'|..]; try done.
    + intros o Ho. apply Em. by left.
    + intros o [?|?]%Em; auto.
    + intros s Hs. apply Er. by left.
    + intros s [?|?]%Er; auto.
  - unfold st', pool_roots. cbn [ms_bucket]. rewrite bind_app. pose proof (mi_bucket _ _ _ HI) as E. pose proof (bf_roots _ _ _ _ _ HB) as E'. unfold pool_roots in *. cbn in E.
    by rewrite E, E'.
Qed.

(** ** Steps *)

Lemma logged_kept mods regs l o s : logged mods l o → kept mods regs l o s.
Proof. intros [?|?]; [by left|]. right. right. by exists (Logged o). Qed.
Lemma logged_replace mods mods' ms1 m m' ms2 o :
  (∀ x, x ∈ mods → x ∈ mods') → mu_pc m ≠ Logged o → logged mods (mu_pc <$> ms1 ++ m :: ms2) o → logged mods' (mu_pc <$> ms1 ++ m' :: ms2) o.
Proof. intros Hm Hn [?|Ho]; [left; auto|]. right. destruct (pcs_replace ms1 m m' ms2) as (Hp & _). destruct (Hp _ Ho) as [?|?]; congruence. Qed.
Lemma same_written K h : slots_written K [] h h.
Proof. split; [done..|]. by intros s ?%elem_of_nil. Qed.
#[local] Hint Resolve same_written : core.

(** In [object_reference_write_post] or [log_object]. *)
Definition logging (pc : barrier_pc) (o : Z) : Prop := pc = Stored o ∨ pc = LogLoad o ∨ pc = LogCas o.
Section step.
Context (roots : list Z) (K : Z → Prop) (h : heap) (p : GenCopy) (ms1 : list mutator) (m : mutator) (ms2 : list mutator) (b : list gc_packet).
Context (HI : mut_inv roots K {| ms_heap := h; ms_plan := p; ms_mutators := ms1 ++ m :: ms2; ms_bucket := b |}).
Abbreviation after h' p' m' flushed := {| ms_heap := h'; ms_plan := p'; ms_mutators := ms1 ++ m' :: ms2; ms_bucket := b ++ flushed |}.

Lemma inv_pc : pc_ok K h (gc_md p) (all_mods {| ms_heap := h; ms_plan := p; ms_mutators := ms1 ++ m :: ms2; ms_bucket := b |}) (mu_pc <$> ms1 ++ m :: ms2) (mu_pc m).
Proof. apply (rm_pcs _ _ _ _ _ _ (mi_remembering _ _ _ HI)). apply (pcs_replace ms1 m m ms2). Qed.
Lemma logging_object o : logging (mu_pc m) o → K o.
Proof. pose proof inv_pc as [HK _]. by intros [E|[E|E]]; rewrite E in HK. Qed.
Lemma logging_not x o : logging x o → ∀ o', x ≠ Logged o'.
Proof. by intros [-> |[-> | ->]]. Qed.
Lemma logging_keeps x o o' s : logging x o → keeps x o' s ↔ o = o'.
Proof. by intros [-> |[-> | ->]]. Qed.
Lemma plan_holds : gen_plan_ok C h p.
Proof. exact (mi_plan _ _ _ HI). Qed.
Lemma plan_same : with_gen p (gc_gen p) (gc_md p) = p.
Proof. by destruct p. Qed.

Lemma step_advance o pc : logging (mu_pc m) o → logging pc o → mut_inv roots K (after h p (set_pc m pc) []).
Proof.
  intros Ho Hpc. destruct (pcs_replace ms1 m (set_pc m pc) ms2) as (_ & _ & _ & Hin). eapply inv_move; [exact HI|done|apply plan_holds|done|apply buffers_pc, buffers_same|..].
  - by intros ? ?%elem_of_nil.
  - by intros ? ?%elem_of_nil.
  - pose proof (logging_object o Ho). split; destruct Hpc as [-> |[-> | ->]]; done.
  - intros o' E. by destruct (logging_not _ _ Ho o').
  - intros o' s [Hk|?%elem_of_nil] _ _ _; [|done]. rewrite (logging_keeps _ _ _ _ Ho) in Hk. right. right. exists pc. split; [exact Hin|]. by rewrite (logging_keeps _ _ _ _ Hpc).
  - auto.
Qed.
Lemma step_skip o : logging (mu_pc m) o → md_unlog (gc_md p) o = 0 → mut_inv roots K (after h p (set_pc m Idle) []).
Proof.
  intros Ho E0. pose proof (buffers_pc _ _ _ _ _ Idle (buffers_same m)) as HB. eapply inv_move; [exact HI|done|apply plan_holds|done|exact HB|..].
  - by intros ? ?%elem_of_nil.
  - by intros ? ?%elem_of_nil.
  - by split.
  - intros o' E. by destruct (logging_not _ _ Ho o').
  - intros o' s [Hk|?%elem_of_nil] HK Hy _; [|done]. rewrite (logging_keeps _ _ _ _ Ho) in Hk. subst o'. apply logged_kept.
    destruct (rm_unlog _ _ _ _ _ _ (mi_remembering _ _ _ HI) o HK Hy) as [E1|Hl]; [cbn in E1; lia|].
    eapply logged_replace; [|by apply (logging_not _ o)|exact Hl]. intros x Hx. apply (buffers_all h p h p ms1 m _ ms2 b _ _ _ HB). by left.
  - auto.
Qed.
Lemma step_cas o : mu_pc m = LogCas o → md_unlog (gc_md p) o = 1 → mut_inv roots K (after h (with_gen p (gc_gen p) (clear_log (gc_md p) o)) (set_pc m (Logged o)) []).
Proof.
  intros Em E1. assert (logging (mu_pc m) o) as Ho by (right; by right). destruct (pcs_replace ms1 m (set_pc m (Logged o)) ms2) as (_ & _ & _ & Hin). pose proof (logging_object o Ho) as HK.
  assert (¬ young (gc_md p) o) as Hy.
  { intros Hy. rewrite (gr_logged _ _ _ plan_holds) in E1; [lia| |done]. by apply (ch_objects _ _ _ (mi_heap _ _ _ HI)). }
  eapply inv_move; [exact HI|done| |done|apply buffers_pc, buffers_same|..].
  - apply gen_plan_md; [apply plan_holds|done..|]. intros x Hx. cbn. destruct (decide (x = o)) as [-> |]; [by rewrite fn_lookup_insert|by rewrite fn_lookup_insert_ne].
  - by intros ? ?%elem_of_nil.
  - by intros ? ?%elem_of_nil.
  - by split.
  - intros o' E. by destruct (logging_not _ _ Ho o').
  - intros o' s [Hk|?%elem_of_nil] _ _ _; [|done]. rewrite (logging_keeps _ _ _ _ Ho) in Hk. subst o'. apply logged_kept. right. exact Hin.
  - intros x _ _ Hx. destruct (decide (x = o)) as [-> |Hne]; [right; right; exact Hin|left]. cbn. by rewrite fn_lookup_insert_ne.
Qed.
Lemma step_push o m' flushed : mu_pc m = Logged o → push_modbuf buf m o = (m', flushed) → mut_inv roots K (after h p (set_pc m' Idle) flushed).
Proof.
  intros Em E. pose proof inv_pc as [HK Hy]. rewrite Em in HK, Hy. pose proof (buffers_pc _ _ _ _ _ Idle (push_modbuf_buffers _ _ _ _ E)) as HB.
  destruct (buffers_all h p h p ms1 m _ ms2 b _ _ _ HB) as [Hm _]. assert (o ∈ all_mods (after h p (set_pc m' Idle) flushed)) as Hin by (apply Hm; right; by left).
  eapply inv_move; [exact HI|done|apply plan_holds|done|exact HB|..].
  - intros ? ->%list_elem_of_singleton. done.
  - by intros ? ?%elem_of_nil.
  - by split.
  - rewrite Em. intros o' [= <-]. by left.
  - rewrite Em. intros o' s [Hk|?%elem_of_nil] _ _ _; [|done]. cbn in Hk. subst o'. by left.
  - auto.
Qed.
Lemma step_region dst m' flushed : mu_pc m = Copied dst → memory_region_copy_slow C buf m dst = (m', flushed) → mut_inv roots K (after h p (set_pc m' Idle) flushed).
Proof.
  intros Em E. pose proof inv_pc as [_ Hd]. rewrite Em in Hd. destruct Hd as (o & Ho & Hs & Hy). pose proof (buffers_pc _ _ _ _ _ Idle (region_copy_buffers _ _ _ _ E)) as HB.
  destruct (buffers_all h p h p ms1 m _ ms2 b _ _ _ HB) as [_ Hr]. eapply inv_move; [exact HI|done|apply plan_holds|done|exact HB|..].
  - by intros ? ?%elem_of_nil.
  - intros s Hx. destruct (dst_in_nursery _ _); [by apply elem_of_nil in Hx|]. exists o. auto.
  - by split.
  - by rewrite Em.
  - rewrite Em. intros o' s [Hk|?%elem_of_nil] HK Hn Hf; [|done]. cbn in Hk. right. left. apply Hr. right. destruct (dst_in_nursery _ _); [|done].
    destruct Hn. rewrite <-(ch_disjoint _ _ _ (mi_heap _ _ _ HI) o o' s); auto.
  - auto.
Qed.

Lemma barrier_step_inv md' m' flushed :
  barrier_step C buf (gc_md p) m = Some (md', m', flushed) → mut_inv roots K (after h (with_gen p (gc_gen p) md') m' flushed).
Proof.
  unfold barrier_step, object_is_unlogged. intros E. destruct (mu_pc m) as [|o|o|o|o|dst|o] eqn:Em; [done|..|done].
  - injection E as <- <- <-. rewrite plan_same. destruct (Z.eqb_spec (md_unlog (gc_md p) o) 0); cbn [negb].
    + apply (step_skip o); [by left|done].
    + apply (step_advance o); [by left|right; by left].
  - injection E as <- <- <-. rewrite plan_same. destruct (Z.eqb_spec (md_unlog (gc_md p) o) 0).
    + apply (step_skip o); [right; by left|done].
    + apply (step_advance o); [right; by left|right; by right].
  - destruct (Z.eqb_spec (md_unlog (gc_md p) o) 1); injection E as <- <- <-; [by apply step_cas|]. rewrite plan_same. apply (step_advance o); [right; by right|right; by left].
  - unfold object_reference_write_slow in E. destruct (push_modbuf buf m o) as [m1 fl] eqn:Ep. injection E as <- <- <-. rewrite plan_same. by eapply step_push.
  - destruct (memory_region_copy_slow C buf m dst) as [m1 fl] eqn:Ep. injection E as <- <- <-. rewrite plan_same. by eapply step_region.
Qed.

(** The stores of mutators. *)
Lemma step_write_inv src s v :
  mu_pc m = Idle → K src → s ∈ fields h src → from_option K True v → mut_inv roots K (after (slot_write h s v) p (set_pc m (Stored src)) []).
Proof.
  intros Em Hsrc Hs Hv. destruct (pcs_replace ms1 m (set_pc m (Stored src)) ms2) as (_ & _ & _ & Hin).
  eapply inv_move; [exact HI|by apply slot_write_written|apply plan_holds|done|apply buffers_pc, buffers_same|..]; rewrite ?Em.
  - by intros ? ?%elem_of_nil.
  - by intros ? ?%elem_of_nil.
  - by split.
  - done.
  - intros o s' [[]| ->%list_elem_of_singleton] HK _ Hf. right. right. exists (Stored src). split; [exact Hin|]. by apply (ch_disjoint _ _ _ (mi_heap _ _ _ HI) src o s).
  - auto.
Qed.
Lemma step_copy_inv src dst o :
  mu_pc m = Idle → K o → (∀ s, s ∈ sl_slots dst → s ∈ fields h o) → length src = length (sl_slots dst) → (∀ s, s ∈ src → from_option K True (slot_load h s)) →
  sl_object dst = Some o ∨ sl_object dst = None ∧ ge_in_space C GNursery (sl_start dst) = ge_in_space C GNursery o →
  mut_inv roots K (after (slice_copy h src (sl_slots dst)) p (set_pc m (Copied dst)) []).
Proof.
  intros Em Ho Hd Hl Hsrc Hn. destruct (pcs_replace ms1 m (set_pc m (Copied dst)) ms2) as (_ & _ & _ & Hin).
  eapply inv_move; [exact HI|by apply slice_copy_written|apply plan_holds|done|apply buffers_pc, buffers_same|..]; rewrite ?Em.
  - by intros ? ?%elem_of_nil.
  - by intros ? ?%elem_of_nil.
  - split; [done|]. exists o. split; [done|]. split; [done|]. unfold dst_in_nursery. intros E. left. apply (gspace_in C Hdisj). destruct Hn as [En|[En En']]; rewrite En in E; congruence.
  - done.
  - intros o' s [[]|Hs] _ _ _. right. right. exists (Copied dst). by split; [exact Hin|].
  - auto.
Qed.
Lemma step_probable_inv obj m' flushed :
  mu_pc m = Idle → K obj → object_probable_write buf (gc_md p) m obj = (m', flushed) → mut_inv roots K (after h p m' flushed).
Proof.
  intros Em Ho E. unfold object_probable_write, object_is_unlogged, object_probable_write_slow in E. pose proof (ch_objects _ _ _ (mi_heap _ _ _ HI) obj Ho) as Hd. cbn [ms_heap] in Hd.
  set (m1 := if negb _ then _ else _) in E. destruct m1 as [m2 fl] eqn:Em1. injection E as <- <-.
  assert (∃ mods, buffers m (set_pc m2 (Writing obj)) fl mods [] ∧ (∀ x, x ∈ mods → K x ∧ ¬ young (gc_md p) x) ∧ (md_unlog (gc_md p) obj ≠ 0 → obj ∈ mods)) as (mods & HB & Hm & Hin).
  { unfold m1 in Em1. destruct (Z.eqb_spec (md_unlog (gc_md p) obj) 0) as [E0|E0]; cbn [negb] in Em1.
    - injection Em1 as <- <-. exists []. split; [apply buffers_pc, buffers_same|]. by split; [intros ? ?%elem_of_nil|].
    - exists [obj]. split; [by apply buffers_pc, push_modbuf_buffers|]. split; [|by left]. intros x ->%list_elem_of_singleton. split; [done|].
      intros Hy. by rewrite (gr_logged _ _ _ plan_holds obj Hd Hy) in E0. }
  destruct (buffers_all h p h p ms1 m _ ms2 b _ _ _ HB) as [Hall _]. eapply inv_move; [exact HI|done|apply plan_holds|done|exact HB|done|..]; rewrite ?Em.
  - by intros ? ?%elem_of_nil.
  - split; [done|]. cbn [mu_pc set_pc]. destruct (decide (young (gc_md p) obj)) as [Hy|Hy]; [by left|right]. destruct (decide (md_unlog (gc_md p) obj = 0)) as [E0|E0]; [|left; apply Hall; right; auto].
    destruct (rm_unlog _ _ _ _ _ _ (mi_remembering _ _ _ HI) obj Ho Hy) as [E1|Hl]; [cbn in E1; lia|]. eapply logged_replace; [|by rewrite Em|exact Hl]. intros x Hx. apply Hall. by left.
  - done.
  - by intros o s [[]|?%elem_of_nil].
  - auto.
Qed.
Lemma step_written_inv obj : mu_pc m = Writing obj → mut_inv roots K (after h p (set_pc m Idle) []).
Proof.
  intros Em. eapply inv_move; [exact HI|done|apply plan_holds|done|apply buffers_pc, buffers_same|..]; rewrite ?Em.
  - by intros ? ?%elem_of_nil.
  - by intros ? ?%elem_of_nil.
  - by split.
  - done.
  - by intros o s [[]|?%elem_of_nil].
  - auto.
Qed.
End step.

(** A store that no mutator has to remember. *)
Lemma step_store_inv roots K h p ms b s v :
  let st := {| ms_heap := h; ms_plan := p; ms_mutators := ms; ms_bucket := b |} in
  mut_inv roots K st → from_option K True v → (∀ o, K o → ¬ young (gc_md p) o → s ∈ fields h o → kept (all_mods st) (all_regs st) (pcs st) o s) →
  mut_inv roots K {| ms_heap := slot_write h s v; ms_plan := p; ms_mutators := ms; ms_bucket := b |}.
Proof.
  intros st HI Hv Hk. pose proof (slot_write_written K h s v Hv) as HW. split.
  - eapply closed_written, HW. apply (mi_heap _ _ _ HI).
  - eapply gen_plan_fields, (mi_plan _ _ _ HI). done.
  - eapply (remembering_move K h _ [s] (gc_md p) (gc_md p) (all_mods st) _ (all_regs st) _ (pcs st) _ Idle Idle); [exact (mi_remembering _ _ _ HI)|done|done|by left|by left|auto..]; try done.
    intros o s' [[]| ->%list_elem_of_singleton]; auto.
  - apply HI.
Qed.

(** ** Allocation *)

Context (Hbm : BARRIER_MEASUREMENT (ge_bm C) = false).
Section alloc.
Context (roots : list Z) (h : heap) (p : GenCopy) (k : gen_space) (o : Z) (fs : list Z) (regions : list (Z * Z)).
Context (HN : new_memory C k h p roots o fs regions) (HP : gen_plan_ok C h p).
Abbreviation h1 := (new_object h o fs).
Abbreviation p1 := (with_space_regions k p regions).

Lemma new_fields x : fields h1 x = if decide (x = o) then fs else fields h x.
Proof. unfold fields, new_object. cbn [h_fields]. case_decide as Hx; [subst; by rewrite lookup_insert_eq|by rewrite lookup_insert_ne]. Qed.
Lemma new_dom x : is_Some (h_fields h1 !! x) ↔ x = o ∨ is_Some (h_fields h !! x).
Proof. unfold new_object. cbn [h_fields]. destruct (decide (x = o)) as [-> |Hx]; [rewrite lookup_insert_eq; naive_solver|rewrite lookup_insert_ne by done; naive_solver]. Qed.
Lemma new_slots s : h_slots h1 !! s = if decide (s ∈ fs) then Some None else h_slots h !! s.
Proof.
  clear HN. cbn [new_object h_slots]. induction fs as [|x l IH]; [done|]. cbn [foldr]. destruct (decide (s = x)) as [-> |Hx].
  { rewrite lookup_insert_eq, decide_True; [done|by left]. }
  rewrite lookup_insert_ne, IH by done. destruct (decide (s ∈ l)) as [Hl|Hl]; [rewrite (decide_True (P := s ∈ x :: l)); [done|by right]|].
  rewrite (decide_False (P := s ∈ x :: l)); [done|]. by intros [?|?]%elem_of_cons.
Qed.
Lemma new_load s : s ∉ fs → slot_load h1 s = slot_load h s.
Proof. intros Hs. unfold slot_load. by rewrite new_slots, decide_False. Qed.
Lemma new_large : glarge_objects C h1 = if decide (k = GLos) then {[o]} ∪ glarge_objects C h else glarge_objects C h.
Proof.
  apply set_eq. intros x. unfold glarge_objects. pose proof (nm_space _ _ _ _ _ _ _ _ HN) as Ek.
  case_decide as Hk; rewrite ?elem_of_union, ?elem_of_singleton, !gobjects_elem, new_dom; [naive_solver|]. split; [|naive_solver]. intros [[-> |?] E]; [congruence|done].
Qed.

(** What [post_alloc] leaves, [md] being the metadata of the others. *)
Record alloc_ok (p' : GenCopy) : Prop := {
  al_hi : gc_hi p' = gc_hi p;
  al_tospace : gen_tospace p' = gen_tospace p;
  al_flags : gen_flags C p';
  al_forward : md_forward (gc_md p') = md_forward (gc_md p);
  al_metadata x : x ≠ o → md_los (gc_md p') x = md_los (gc_md p) x ∧ md_unlog (gc_md p') x = md_unlog (gc_md p) x;
  al_nursery : cs_regions (gen_nursery (gc_gen p')) = cs_regions (gen_nursery (gc_gen p1));
  al_immortal : gside_marks C h1 GImmortal (cp_immortal (gen_common (gc_gen p')));
  al_nonmoving : gside_marks C h1 GNonMoving (cp_nonmoving (gen_common (gc_gen p')));
  al_los : los_idle (glarge_objects C h1) (los p') (gc_md p');
  al_logged : young (gc_md p') o → md_unlog (gc_md p') o = 0;
  al_unlogged : ¬ young (gc_md p') o → md_unlog (gc_md p') o = 1
}.
Lemma alloc_young p' x : alloc_ok p' → x ≠ o → young (gc_md p') x ↔ young (gc_md p) x.
Proof. intros HA Hx. unfold GenTheorems.young, is_in_nursery. by destruct (al_metadata _ HA x Hx) as [-> _]. Qed.
Lemma alloc_plan_ok p' : k ≠ GCopy0 → k ≠ GCopy1 → alloc_ok p' → gen_plan_ok C h1 p'.
Proof.
  intros H0 H1 HA. pose proof (nm_space _ _ _ _ _ _ _ _ HN) as Ek. split; rewrite ?(al_hi _ HA), ?(al_tospace _ HA), ?(al_forward _ HA), ?(al_nursery _ HA); try by apply HA.
  - intros x [-> |?]%new_dom; [rewrite Ek; by eexists|by apply (gr_spaces _ _ _ HP)].
  - intros x [-> |?]%new_dom; [rewrite Ek; by destruct k, (gc_hi p)|by apply (gr_empty _ _ _ HP)].
  - intros x Hx. destruct (decide (x = o)) as [-> |Hxo]; [apply HN|]. apply (gr_forward _ _ _ HP). intros Hf. by destruct (proj1 (new_dom x) (Hx Hf)).
  - intros x [-> |?]%new_dom; [rewrite Ek; by destruct k, (gc_hi p)|by apply (gr_to_regions _ _ _ HP)].
  - intros x [-> |Hx]%new_dom E.
    + rewrite Ek in E. injection E as ->. by destruct (nm_covered _ _ _ _ _ _ _ _ HN).
    + pose proof (gr_nursery_regions _ _ _ HP x Hx E) as Hc. destruct k; try done. by apply (nm_more _ _ _ _ _ _ _ _ HN).
  - intros x Hc. destruct k; try by apply (gr_nursery_extent _ _ _ HP). by apply (nm_extent _ _ _ _ _ _ _ _ HN).
  - intros x [-> |Hx]%new_dom Hy; [by apply (al_logged _ HA)|]. destruct (decide (x = o)) as [-> |Hxo]; [by apply (al_logged _ HA)|]. rewrite (alloc_young p' x HA Hxo) in Hy.
    destruct (al_metadata _ HA x Hxo) as [_ ->]. by apply (gr_logged _ _ _ HP).
Qed.

(** The sides of the mark bits of immortal spaces that did not change, and of those that grew. *)
Lemma side_other k' sp : k' ≠ k → gside_marks C h k' sp → gside_marks C h1 k' sp.
Proof.
  intros Hk Hs Hm. destruct (Hs Hm) as [? Hc]. split; [done|]. intros x [-> |?]%new_dom E; [|by apply Hc]. rewrite (nm_space _ _ _ _ _ _ _ _ HN) in E. congruence.
Qed.
Lemma side_grown sp sp' : gside_marks C h k sp → im_mark_state sp' = im_mark_state sp → covered (mark_regions sp') o → (∀ x, covered (mark_regions sp) x → covered (mark_regions sp') x) →
  gside_marks C h1 k sp'.
Proof. intros Hs Es Ho Hc Hm. destruct (Hs Hm) as [? Hx]. split; [by rewrite Es|]. intros x [-> |?]%new_dom E; [done|]. by apply Hc, Hx. Qed.
Lemma immortal_unlogs sp md bytes :
  logs (im_common sp) → let md' := immortal_initialize_object_metadata C sp md o bytes in
  md_forward md' = md_forward md ∧ md_los md' = md_los md ∧ md_unlog md' o = 1 ∧ ∀ x, x ≠ o → md_unlog md' x = md_unlog md x.
Proof.
  intros [L1 L2]. unfold immortal_initialize_object_metadata, on_object_metadata_initialization. rewrite Hbm, L1, L2. cbn [orb andb].
  destruct (mark_in_header OM); cbn; (split_and!; [done..|by rewrite fn_lookup_insert|]); intros x Hx; by rewrite fn_lookup_insert_ne.
Qed.

Lemma alloc_nursery : k = GNursery → alloc_ok p1.
Proof.
  intros Hk. pose proof (gr_flags _ _ _ HP) as HF. pose proof (nm_space _ _ _ _ _ _ _ _ HN) as Ek. rewrite Hk in Ek.
  assert (gc_hi p1 = gc_hi p ∧ gen_tospace p1 = gen_tospace p ∧ gc_md p1 = gc_md p ∧ gen_common (gc_gen p1) = gen_common (gc_gen p)) as (E1 & E2 & E3 & E4) by (rewrite Hk; done).
  split; rewrite ?E3, ?E4; try done.
  - rewrite Hk. destruct HF. by split.
  - apply side_other; [congruence|apply HP].
  - apply side_other; [congruence|apply HP].
  - rewrite new_large, Hk. apply HP.
  - intros _. apply (nm_unlog _ _ _ _ _ _ _ _ HN).
  - intros Hy. destruct Hy. by left.
Qed.
Lemma alloc_los bytes p' : k = GLos → gen_post_alloc C k p1 o bytes = Val p' → alloc_ok p'.
Proof.
  intros Hk. pose proof (gr_flags _ _ _ HP) as HF. pose proof (nm_space _ _ _ _ _ _ _ _ HN) as Ek. assert (o ∉ glarge_objects C h) as Ho.
  { unfold glarge_objects. rewrite gobjects_elem, (nm_object _ _ _ _ _ _ _ _ HN). by intros [[? ?] _]. }
  destruct (los_alloc_ok (ge_om C) _ _ _ _ bytes (gr_los _ _ _ HP) Ho (nm_los _ _ _ _ _ _ _ _ HN)) as (sp' & md' & E & HL' & Hco & Hy & Ef & Eu & Ex).
  assert (p1 = p) as -> by (by rewrite Hk). rewrite Hk. cbn [gen_post_alloc]. rewrite E. cbn [mbind res_bind]. intros [= <-]. rewrite Hk in Ek.
  split; cbn [with_gen with_gen_common gc_md gc_gen gc_hi gen_common cp_los cp_immortal cp_nonmoving]; try done.
  - destruct HF. split; cbn [with_gen with_gen_common gc_gen gen_common cp_los cp_immortal cp_nonmoving]; rewrite ?Hco; done.
  - intros x Hx. rewrite Eu. auto.
  - by rewrite Hk.
  - apply side_other; [congruence|apply HP].
  - apply side_other; [congruence|apply HP].
  - by rewrite new_large, Hk.
  - rewrite Eu. intros _. apply (nm_unlog _ _ _ _ _ _ _ _ HN).
  - intros Hny. destruct Hny. by right.
Qed.
Lemma alloc_immortal bytes p' : k = GImmortal ∨ k = GNonMoving → gen_post_alloc C k p1 o bytes = Val p' → alloc_ok p'.
Proof.
  intros Hk. pose proof (gr_flags _ _ _ HP) as HF. pose proof (nm_space _ _ _ _ _ _ _ _ HN) as Ek.
  assert (∃ sp sp', gen_post_alloc C k p1 o bytes = Val (with_gen p1 (gc_gen p1) (immortal_initialize_object_metadata C sp (gc_md p) o bytes)) ∧ logs (im_common sp) ∧
    gside_marks C h1 k sp' ∧ sp' = if decide (k = GImmortal) then cp_immortal (gen_common (gc_gen p1)) else cp_nonmoving (gen_common (gc_gen p1))) as (sp & sp' & -> & Hlogs & Hside & Esp).
  { pose proof (nm_covered _ _ _ _ _ _ _ _ HN) as Hc. pose proof (nm_more _ _ _ _ _ _ _ _ HN) as Hmo. destruct Hk as [Hk|Hk]; rewrite Hk in Hc, Hmo |- *; destruct Hc as [?|Hc]; try done.
    - eexists _, (cp_immortal (gen_common (gc_gen (with_space_regions GImmortal p regions)))). split; [reflexivity|]. split; [apply HF|]. split; [|done].
      rewrite <-Hk. eapply side_grown; [rewrite Hk; apply HP|rewrite Hk; done|rewrite Hk; exact Hc|rewrite Hk; exact Hmo].
    - eexists _, (cp_nonmoving (gen_common (gc_gen (with_space_regions GNonMoving p regions)))). split; [reflexivity|]. split; [apply HF|]. split; [|done].
      rewrite <-Hk. eapply side_grown; [rewrite Hk; apply HP|rewrite Hk; done|rewrite Hk; exact Hc|rewrite Hk; exact Hmo]. }
  intros [= <-]. destruct (immortal_unlogs sp (gc_md p) bytes Hlogs) as (U1 & U2 & U3 & U4).
  assert (gc_hi p1 = gc_hi p ∧ gen_tospace p1 = gen_tospace p ∧ los p1 = los p) as (E1 & E2 & E3) by (by destruct Hk as [Hk|Hk]; rewrite Hk).
  split; cbn [with_gen gc_md gc_gen gc_hi]; try done.
  - destruct HF. destruct Hk as [Hk|Hk]; rewrite Hk; by split.
  - intros x Hx. rewrite U2. auto.
  - destruct Hk as [Hk|Hk]; rewrite Hk in Esp, Hside; [rewrite decide_True in Esp by done; rewrite Hk; by rewrite Esp in Hside|].
    rewrite Hk. apply side_other; [by rewrite Hk|apply HP].
  - destruct Hk as [Hk|Hk]; rewrite Hk in Esp, Hside; [|rewrite decide_False in Esp by done; rewrite Hk; by rewrite Esp in Hside].
    rewrite Hk. apply side_other; [by rewrite Hk|apply HP].
  - rewrite new_large, E3, decide_False by (by destruct Hk as [Hk|Hk]; rewrite Hk). destruct (gr_los _ _ _ HP). by split; rewrite ?U2.
  - intros [E|[E _]]; destruct Hk; congruence.
Qed.
Lemma post_alloc_ok bytes p' : gen_post_alloc C k p1 o bytes = Val p' → k ≠ GCopy0 ∧ k ≠ GCopy1 ∧ alloc_ok p'.
Proof.
  intros E. assert (k = GNursery ∨ k = GLos ∨ (k = GImmortal ∨ k = GNonMoving) ∨ k = GCopy0 ∨ k = GCopy1) as Hk by (clear; destruct k; auto 6).
  destruct Hk as [Hk|[Hk|[Hk|Hk]]].
  - split; [congruence|]. split; [congruence|]. assert (p1 = p') as <- by (rewrite Hk in E |- *; by injection E). by apply alloc_nursery.
  - split; [congruence|]. split; [congruence|]. by eapply alloc_los.
  - split; [destruct Hk; congruence|]. split; [destruct Hk; congruence|]. by eapply alloc_immortal.
  - by destruct Hk as [Hk|Hk]; rewrite Hk in E.
Qed.
End alloc.

Section new.
Context (roots : list Z) (K : Z → Prop) (h : heap) (p : GenCopy) (ms : list mutator) (b : list gc_packet).
Context (k : gen_space) (o : Z) (fs : list Z) (regions : list (Z * Z)) (p' : GenCopy).
Context (HI : mut_inv roots K {| ms_heap := h; ms_plan := p; ms_mutators := ms; ms_bucket := b |}).
Context (HN : new_memory C k h p roots o fs regions) (HA : alloc_ok h p k o fs regions p').
Abbreviation K' := (λ x, x = o ∨ K x).

Lemma new_not_old x : K x → x ≠ o.
Proof. intros Hx ->. pose proof (ch_objects _ _ _ (mi_heap _ _ _ HI) o Hx) as Ho. cbn in Ho. rewrite (nm_object _ _ _ _ _ _ _ _ HN) in Ho. by destruct Ho. Qed.
Lemma old_fields x : K x → fields (new_object h o fs) x = fields h x.
Proof. intros Hx. rewrite new_fields. by rewrite decide_False by (by apply new_not_old). Qed.
Lemma old_slot x s : K x → s ∈ fields h x → s ∉ fs.
Proof. intros Hx Hs Hf. destruct (nm_slots _ _ _ _ _ _ _ _ HN s Hf) as [_ Hn]. apply (Hn x); [|done]. by apply (ch_objects _ _ _ (mi_heap _ _ _ HI)). Qed.
Lemma old_value v : from_option K True v → from_option K' True v.
Proof. destruct v; [by right|done]. Qed.

Lemma new_closed : closed_heap roots K' (new_object h o fs).
Proof.
  pose proof (mi_heap _ _ _ HI) as HC. cbn [ms_heap] in HC. assert (fields (new_object h o fs) o = fs) as Ef by (by rewrite new_fields, decide_True). split.
  - intros s Hs. assert (s ∉ fs) as Hf by (intros Hf; by destruct (nm_slots _ _ _ _ _ _ _ _ HN s Hf)). rewrite new_load, new_slots, decide_False by done.
    destruct (ch_roots _ _ _ HC s Hs). split; [done|by apply old_value].
  - intros x Hx. apply new_dom. destruct Hx as [?|?]; [by left|right; by apply (ch_objects _ _ _ HC)].
  - intros x s Hx Hs. destruct Hx as [-> |Hx].
    + rewrite Ef in Hs. unfold slot_load. rewrite new_slots, decide_True by done. split_and!; [by eexists|by apply (nm_slots _ _ _ _ _ _ _ _ HN)|done].
    + rewrite old_fields in Hs by done. pose proof (old_slot x s Hx Hs). rewrite new_load, new_slots, decide_False by done. destruct (ch_fields _ _ _ HC x s Hx Hs) as (? & ? & ?).
      split_and!; [done|done|by apply old_value].
  - intros x [-> |Hx]; [rewrite Ef; apply HN|]. rewrite old_fields by done. by apply (ch_nodup _ _ _ HC).
  - intros x y s [-> |Hx] [-> |Hy] Hsx Hsy; [done|..].
    + rewrite Ef in Hsx. rewrite old_fields in Hsy by done. by destruct (old_slot y s).
    + rewrite Ef in Hsy. rewrite old_fields in Hsx by done. by destruct (old_slot x s).
    + rewrite old_fields in Hsx, Hsy by done. by apply (ch_disjoint _ _ _ HC x y s).
Qed.
Lemma new_remembering mods regs l : remembering K h (gc_md p) mods regs l → remembering K' (new_object h o fs) (gc_md p') mods regs l.
Proof.
  intros HR. pose proof (mi_heap _ _ _ HI) as HC. cbn [ms_heap] in HC. assert (∀ x, K x → young (gc_md p') x ↔ young (gc_md p) x) as Ey by (intros x Hx; by eapply alloc_young, new_not_old).
  split.
  - intros pc Hpc. destruct (rm_pcs _ _ _ _ _ _ HR pc Hpc) as [Hk Hok]. split; [by apply old_value|]. destruct pc as [|x|x|x|x|dst|x]; cbn in Hk; rewrite ?Ey by done; try done.
    destruct Hok as (x & Hx & Hs & Hy). exists x. rewrite old_fields, Ey by done. by split; [right|].
  - intros x Hx. destruct (rm_mods _ _ _ _ _ _ HR x Hx). rewrite Ey by done. by split; [right|].
  - intros s Hs. destruct (rm_regs _ _ _ _ _ _ HR s Hs) as (x & Hx & ?). exists x. rewrite old_fields by done. by split; [right|].
  - intros x [-> |Hx] Hy; [left; by apply (al_unlogged _ _ _ _ _ _ _ HA)|]. rewrite Ey in Hy by done. destruct (al_metadata _ _ _ _ _ _ _ HA x (new_not_old x Hx)) as [_ ->].
    by apply (rm_unlog _ _ _ _ _ _ HR).
  - intros x s v [-> |Hx] Hy Hs Hv Hyv.
    + rewrite new_fields, decide_True in Hs by done. unfold slot_load in Hv. by rewrite new_slots, decide_True in Hv.
    + rewrite old_fields in Hs by done. rewrite new_load in Hv by (by apply (old_slot x)). rewrite Ey in Hy by done. destruct (ch_fields _ _ _ HC x s Hx Hs) as (_ & _ & Hk). rewrite Hv in Hk.
      cbn in Hk. rewrite Ey in Hyv by done. by apply (rm_remembered _ _ _ _ _ _ HR x s v).
Qed.
Lemma step_alloc_inv s : k ≠ GCopy0 → k ≠ GCopy1 → s ∈ roots →
  mut_inv roots K' {| ms_heap := slot_write (new_object h o fs) s (Some o); ms_plan := p'; ms_mutators := ms; ms_bucket := b |}.
Proof.
  intros H0 H1 Hs. apply step_store_inv; [|by left|].
  - split; [apply new_closed|eapply alloc_plan_ok; [done|exact (mi_plan _ _ _ HI)|done..]|apply new_remembering, (mi_remembering _ _ _ HI)|apply HI].
  - intros x Hx _ Hf. exfalso. by destruct (ch_fields _ _ _ new_closed x s Hx Hf) as (_ & Hn & _).
Qed.
End new.

(** ** Between two collections *)

Lemma mut_step_inv roots K st st' : mut_inv roots K st → mut_step C buf roots st st' → ∃ K', mut_inv roots K' st'.
Proof.
  intros HI Hs. pose proof (mi_heap _ _ _ HI) as HC. destruct Hs; cbn [ms_heap] in HC.
  - exists K. by eapply (barrier_step_inv roots K h p).
  - exists K. rewrite <-(app_nil_r b). eapply step_write_inv; try done; [by eapply closed_reachable|by eapply closed_loadable].
  - exists K. apply step_store_inv; [done|by eapply closed_loadable|]. intros o Ho _ Hf. exfalso. by destruct (ch_fields _ _ _ HC o s Ho Hf) as (_ & Hn & _).
  - exists K. rewrite <-(app_nil_r b). eapply step_copy_inv; try done; [by eapply closed_reachable|]. intros x Hx. eapply closed_loadable; [done|auto].
  - exists K. eapply step_probable_inv; try done. by eapply closed_reachable.
  - exists K. apply step_store_inv; [done|by eapply closed_loadable|]. intros o Ho Hy Hf. destruct (inv_pc _ _ _ _ _ _ _ _ HI) as [Hk Hok].
    rewrite H in Hk, Hok. assert (obj = o) as <- by (by eapply (ch_disjoint _ _ _ HC obj o s)). destruct Hok as [?|?]; [done|]. by apply logged_kept.
  - exists K. rewrite <-(app_nil_r b). by eapply step_written_inv.
  - pose proof (mi_plan _ _ _ HI) as HP. cbn in HP. edestruct (post_alloc_ok roots h p k o fs regions) as (? & ? & HA); [done..|]. eexists. by eapply step_alloc_inv.
Qed.

Lemma mut_start_inv roots h p n : gen_ready C h p (root_pool roots) → mut_inv roots (reachable h roots) (mut_start h p n).
Proof.
  intros HR. pose proof (gr_heap _ _ _ _ HR) as HH.
  assert (pool_roots (root_pool roots) = roots ∧ gc_roots h (root_pool roots) = roots ∧ pool_regions (root_pool roots) = []) as (E1 & E2 & E3) by (split_and!; [apply app_nil_r..|done]).
  assert (∀ o, glive h (root_pool roots) o ↔ reachable h roots o) as Hl.
  { intros o. unfold glive. rewrite E2. split; [intros [?|?%elem_of_nil]; done|by left]. }
  assert (flush_all (replicate n {| mu_modbuf := []; mu_regions := []; mu_pc := Idle |}) = []) as Ef by (induction n; done).
  split; cbn [mut_start ms_heap ms_plan]; [|apply HR| |done].
  - split.
    + intros s Hs. split; [apply (gh_roots _ _ HH); left; by rewrite E1|]. destruct (slot_load h s) eqn:E; [by eapply reachable_root|done].
    + intros o Ho. by apply (gh_objects _ _ HH), Hl.
    + intros o s Ho Hs. destruct (gh_fields _ _ HH o s) as [? Hn]; [by apply Hl|done|]. rewrite E1 in Hn. split_and!; [done|done|]. destruct (slot_load h s) eqn:E; [by eapply reachable_field|done].
    + intros o Ho. by apply (gh_nodup _ _ HH), Hl.
    + intros o1 o2 s H1 H2. by apply (gh_disjoint _ _ HH); apply Hl.
  - assert (all_mods (mut_start h p n) = [] ∧ all_regs (mut_start h p n) = []) as [-> ->] by (unfold all_mods, all_regs; cbn [mut_start ms_bucket ms_mutators]; by rewrite Ef).
    split; [|by intros o ?%elem_of_nil|by intros o ?%elem_of_nil|..].
    + intros pc (m & -> & [-> _]%elem_of_replicate)%list_elem_of_fmap. by split.
    + intros o Ho Hy. destruct (gr_unlog _ _ _ _ HR o) as [?|?%elem_of_nil]; [by apply Hl|done|by left|done].
    + intros o s v Ho Hy Hs Hv Hyv. destruct (gr_remembered _ _ _ _ HR o s v) as [?%elem_of_nil|Hr]; [by apply Hl|done..|]. rewrite E3 in Hr. by apply elem_of_nil in Hr.
Qed.

Lemma mut_stop_ready roots K st :
  mut_inv roots K st → all_idle st → gen_ready C (ms_heap st) (ms_plan st) (root_pool roots ++ ms_bucket st ++ flush_all (ms_mutators st)).
Proof.
  intros [HC HP HR Hb] Hidle. set (pool := root_pool roots ++ _). assert (pool_roots pool = roots) as E1.
  { unfold pool, pool_roots in *. rewrite !bind_app, Hb. destruct (flushed_all (ms_mutators st) 0 0) as (_ & _ & E). unfold pool_roots in E. rewrite E. cbn. by rewrite !app_nil_r. }
  assert (gc_modbuf pool = all_mods st ∧ pool_regions pool = all_regs st) as [E2 E3] by done.
  assert (∀ pc, pc ∈ pcs st → pc = Idle) as Hpc by (intros pc (m & -> & Hm)%list_elem_of_fmap; auto).
  assert (∀ o, logged (all_mods st) (pcs st) o → o ∈ all_mods st) as Hlog by (intros o [?|Ho]; [done|by apply Hpc in Ho]).
  assert (∀ o, glive (ms_heap st) pool o → K o) as Hl.
  { intros o [Ho|Ho]; [|rewrite E2 in Ho; by apply (rm_mods _ _ _ _ _ _ HR)]. induction Ho as [s o Hs E|o s o' _ IH Hs E].
    - assert (from_option K True (slot_load (ms_heap st) s)) as Hk; [|by rewrite E in Hk]. apply gc_roots_elem in Hs as [Hs|[(x & Hx & Hs)|Hs]].
      + apply (ch_roots _ _ _ HC). by rewrite <-E1.
      + rewrite E2 in Hx. apply (rm_mods _ _ _ _ _ _ HR) in Hx as [Hx _]. by apply (ch_fields _ _ _ HC x).
      + rewrite E3 in Hs. apply (rm_regs _ _ _ _ _ _ HR) in Hs as (x & Hx & Hs). by apply (ch_fields _ _ _ HC x).
    - destruct (ch_fields _ _ _ HC o s IH Hs) as (_ & _ & Hk). by rewrite E in Hk. }
  split; [|done|rewrite ?E2, ?E3..].
  - split; rewrite ?E1, ?E3.
    + intros s [Hs|Hs]; [by apply (ch_roots _ _ _ HC)|]. apply (rm_regs _ _ _ _ _ _ HR) in Hs as (x & Hx & Hs). by apply (ch_fields _ _ _ HC x).
    + intros o Ho. by apply (ch_objects _ _ _ HC), Hl.
    + intros o s Ho Hs. by destruct (ch_fields _ _ _ HC o s (Hl o Ho) Hs) as (? & ? & _).
    + intros o Ho. by apply (ch_nodup _ _ _ HC), Hl.
    + intros o1 o2 s H1 H2. by apply (ch_disjoint _ _ _ HC); apply Hl.
  - intros o Ho Hy. destruct (rm_unlog _ _ _ _ _ _ HR o (Hl o Ho) Hy); [by left|right; auto].
  - intros o Ho. by apply (rm_mods _ _ _ _ _ _ HR).
  - intros o s v Ho Hy Hs Hv Hyv. destruct (rm_remembered _ _ _ _ _ _ HR o s v (Hl o Ho) Hy Hs Hv Hyv) as [?|[?|(pc & Hp & Hk)]]; [by left|by right|].
    by rewrite (Hpc pc Hp) in Hk.
Qed.

(** C2: the object barrier.  Any number of mutators start after a collection and allocate,
    store references, copy slices and write to objects after [object_probable_write], and the
    accesses of their barriers to the unlog bits interleave in any order.  When none of them is
    in a barrier and they flush their buffers, the heap is ready for a nursery collection:
    every mature object is unlogged or recorded once more, and every slot of a mature object
    that holds a young one is recorded, by its object or by its slice. *)
Theorem barrier_remembers (roots : list Z) (h : heap) (p : GenCopy) (n : nat) (st : mut_state) :
  gen_ready C h p (root_pool roots) → rtc (mut_step C buf roots) (mut_start h p n) st → all_idle st →
  gen_ready C (ms_heap st) (ms_plan st) (root_pool roots ++ ms_bucket st ++ flush_all (ms_mutators st)).
Proof.
  intros HR Hst Hidle. assert (∃ K, mut_inv roots K st) as [K HI].
  { assert (∃ K, mut_inv roots K (mut_start h p n)) as H0 by (eexists; by apply mut_start_inv).
    revert H0. clear HR Hidle. induction Hst as [|x y z Hxy _ IH]; [done|]. intros [K HK]. apply IH. by eapply mut_step_inv. }
  by eapply mut_stop_ready.
Qed.
End remember.
