(* ===== verification/GenExample.v ===== *)
(** * A heap for the generational plan

    A nursery collection of a heap with a remembered object, a remembered slice and objects in
    every space; what it does to mark bits in headers; and a race of two mutators that store a
    new object into the same mature object and log it. *)

From stdpp Require Import gmap.
From S2P Require Import Prelude Tracing TracingInv TracingTheorems ScanTracing ScanTheorems Spaces LargeObjects LargeObjectsTheorems SemiSpace SemiSpaceInv SemiSpaceTheorems SemiSpaceExample Generational GenInv GenTheorems Barrier BarrierTheorems.

(** ** The configuration *)

(** The space of an address is its remainder. *)
Definition gen_residue (k : gen_space) : Z := match k with GNursery => 0 | GCopy0 => 1 | GCopy1 => 2 | GImmortal => 3 | GLos => 4 | GNonMoving => 5 end.
Definition sample_gen_config (header_marks : bool) : gen_config :=
  {| ge_om := {| mark_in_header := header_marks; forwarding_in_header := false; los_bits_on_side := true; COMPRESSED_PTR_ENABLED := false; get_size := λ _, 16; to_object_start := λ o, o |};
     ge_bm := ss_bm sample_config; ge_log_in_header := false; ge_in_space := λ k o, o `mod` 6 =? gen_residue k;
     ge_copy := λ hi, copy_at 6 (gen_residue (gto_of hi)); ge_capacity := 100 |}.

Lemma sample_disjoint b : spaces_disjoint (sample_gen_config b).
Proof. intros k k' o Ek%Z.eqb_eq Ek'%Z.eqb_eq. rewrite Ek in Ek'. by destruct k, k'. Qed.
Lemma sample_gen_copy_ok b : gen_copy_ok (sample_gen_config b).
Proof.
  intros hi h regions o Ho _. cbn [ge_copy sample_gen_config]. pose proof (copy_at_ok 6 (gen_residue (gto_of hi)) h regions o) as Hc.
  destruct (copy_at _ _ _ _ _) as [[h' regions'] o']. destruct Hc as (? & ? & Em & ? & ?); [by destruct hi|done|]. split_and!; try done.
  unfold gspace_of. cbn [ge_in_space sample_gen_config]. rewrite Em. by destruct hi.
Qed.

(** ** The heap *)

(** Roots 1 and 2 hold 7 (mature) and 10 (large, new).  7 is remembered and refers to 6 (new)
    and 9 (immortal); the slot 91 of 9 is remembered and holds 12 (new); 6 refers to 7, 12 to
    10 and 10 to 12.  Nothing refers to 18 (new), 16 (large, old) and 11 (non-moving). *)
Definition sample_gen_heap : heap :=
  {| h_slots := list_to_map [(1, Some 7); (2, Some 10); (71, Some 6); (72, Some 9); (91, Some 12); (61, Some 7); (121, Some 10); (101, Some 12);
                             (181, Some 16); (161, Some 11); (111, None)];
     h_fields := list_to_map [(7, [71; 72]); (9, [91]); (6, [61]); (12, [121]); (10, [101]); (18, [181]); (16, [161]); (11, [111])] |}.
Definition logged_common : CommonSpace := {| needs_log_bit := true; needs_field_log_bit := false |}.
Definition sample_gen_immortal : ImmortalSpace :=
  {| im_mark_state := MarkState_new; im_common := logged_common; im_vm_space := false; im_extent := (0, 0); im_regions := [(0, 100)] |}.
Definition sample_gen_los : LargeObjectSpace :=
  {| los_common := logged_common; los_mark_state := 0; los_in_nursery_gc := false;
     los_treadmill := {| tm_from_space := ∅; tm_to_space := {[ 16 ]}; tm_collect_nursery := ∅; tm_alloc_nursery := {[ 10 ]} |};
     los_trace_in_progress := false; los_rc_enabled := false; los_end_of_satb_or_full_gc := false; los_rc_nursery := []; los_rc_mature := ∅; los_released := [] |}.
Definition sample_gen_copyspace (regions : list (Z * Z)) : CopySpace :=
  {| cs_common := logged_common; cs_from_space := false; cs_copy := None; cs_regions := regions |}.
Definition sample_gen_plan (full_heap : bool) : GenCopy :=
  {| gc_gen := {| gen_nursery := sample_gen_copyspace [(6, 1); (12, 1); (18, 1)];
                  gen_common := {| cp_immortal := sample_gen_immortal; cp_los := sample_gen_los; cp_nonmoving := sample_gen_immortal |};
                  gc_full_heap := full_heap; next_gc_full_heap := false; full_heap_gc_count := 0 |};
     gc_hi := false; gc_copyspace0 := sample_gen_copyspace [(7, 1)]; gc_copyspace1 := sample_gen_copyspace [];
     gc_md := {| md_forward := ∅; md_mark := λ _, 0; md_los := λ o, if o =? 10 then 2 else 0;
                 md_unlog := λ o, if bool_decide (o ∈ [9; 16; 11]) then 1 else 0; md_field_unlog := λ _, 0 |} |}.
Definition sample_gen_pool : list gc_packet := [ProcessModBuf [7]; ProcessRegionModBuf [[91]]; ProcessEdges [1; 2]].

(** Its nursery collection: 6 and 12 have moved to the mature space, the references from 7, 9
    and 10 are updated, 7 and 10 are unlogged, and 10 is not in the nursery any more. *)
Lemma sample_nursery_collection :
  match gen_collect_nursery (sample_gen_config false) small_buffers 100 sample_gen_heap (sample_gen_plan false) sample_gen_pool with
  | Val (h, p) =>
    let o6 := default 0 (slot_load h 71) in
    let o12 := default 0 (slot_load h 91) in
    gspace_of (sample_gen_config false) o6 = Some GCopy0 ∧ gspace_of (sample_gen_config false) o12 = Some GCopy0 ∧
    (slot_load h <$> [1; 2; 72; 101]) = [Some 7; Some 10; Some 9; Some o12] ∧
    (slot_load h <$> fields h o6) = [Some 7] ∧ (slot_load h <$> fields h o12) = [Some 10] ∧
    (md_unlog (gc_md p) <$> [7; 9; 10; o6; o12]) = [1; 1; 1; 1; 1] ∧
    elements (tm_to_space (los_treadmill (cp_los (gen_common (gc_gen p))))) ≡ₚ [10; 16] ∧ cs_regions (gen_nursery (gc_gen p)) = []
  | _ => False
  end.
Proof. vm_compute. by split_and!. Qed.

(** With the marks in headers the mark state of an immortal space flips in a nursery collection
    too, where its objects are not traced: the next full collection takes the immortal object 9,
    which it has not visited, for visited, and does not scan it. *)
Lemma nursery_flips_marks :
  let C := sample_gen_config true in
  match gen_collect_nursery C small_buffers 100 sample_gen_heap (sample_gen_plan false) sample_gen_pool with
  | Val (h, p) =>
    let p := with_gen p {| gen_nursery := gen_nursery (gc_gen p); gen_common := gen_common (gc_gen p); gc_full_heap := true; next_gc_full_heap := false; full_heap_gc_count := 0 |} (gc_md p) in
    match gencopy_prepare C p with
    | Val p => match trace_object (PlanTrace := gen_trace C) h p 9 with Val (_, _, o, queued) => (o, queued) = (9, None) | _ => False end
    | _ => False
    end
  | _ => False
  end.
Proof. by vm_compute. Qed.
(** In the first full collection it is queued. *)
Lemma full_marks_immortal :
  match gencopy_prepare (sample_gen_config true) (sample_gen_plan true) with
  | Val p => match trace_object (PlanTrace := gen_trace (sample_gen_config true)) sample_gen_heap p 9 with Val (_, _, o, queued) => (o, queued) = (9, Some 9) | _ => False end
  | _ => False
  end.
Proof. by vm_compute. Qed.

(** ** The heap is ready *)

Section ready.
Abbreviation C := (sample_gen_config false).
Abbreviation h := sample_gen_heap.
Abbreviation p := (sample_gen_plan false).
Abbreviation pool := sample_gen_pool.

Lemma gen_objects (Q : Z → Prop) `{!∀ o, Decision (Q o)} :
  bool_decide (map_Forall (λ o (_ : list Z), Q o) (h_fields h)) = true → ∀ o, is_Some (h_fields h !! o) → Q o.
Proof. intros HF%bool_decide_eq_true o [fs E]. by apply (HF o fs). Qed.
#[local] Instance young_dec md o : Decision (young C md o) := _.

Lemma sample_gen_values s o : slot_load h s = Some o → is_Some (h_fields h !! o).
Proof.
  intros Hs. unfold slot_load in Hs. destruct (h_slots h !! s) as [v|] eqn:Es; [|done]. cbn in Hs. subst v.
  assert (map_Forall (λ _ v, match v with Some o => bool_decide (is_Some (h_fields h !! o)) | None => true end = true) (h_slots h)) as HF
    by (apply (bool_decide_unpack _); by vm_compute).
  by apply (bool_decide_unpack _), Is_true_eq_left, (HF s (Some o) Es).
Qed.
Lemma sample_gen_live o : glive h pool o → is_Some (h_fields h !! o).
Proof. intros [Ho|Ho%list_elem_of_singleton]; [destruct Ho; by eapply sample_gen_values|subst; by eexists]. Qed.
Lemma sample_gen_fields_ok :
  map_Forall (λ o fs, NoDup fs ∧ Forall (λ s, is_Some (h_slots h !! s) ∧ s ∉ pool_roots pool) fs ∧
    map_Forall (λ o' fs', o = o' ∨ Forall (λ s, s ∉ fs') fs) (h_fields h)) (h_fields h).
Proof. apply (bool_decide_unpack _). by vm_compute. Qed.
Lemma sample_gen_heap_ok : gen_heap_ok h pool.
Proof.
  assert (∀ o fs, h_fields h !! o = Some fs → fields h o = fs) as Hf by (intros o fs; apply fields_lookup).
  split; [|apply sample_gen_live|..].
  - intros s Hs. assert (Forall (λ s, is_Some (h_slots h !! s)) (pool_roots pool ++ pool_regions pool)) as HF by (apply (bool_decide_unpack _); by vm_compute).
    rewrite Forall_forall in HF. apply HF. by rewrite elem_of_app.
  - intros o s [fs E]%sample_gen_live. rewrite (Hf o fs E). intros Hs. destruct (sample_gen_fields_ok o fs E) as (_ & HF & _). rewrite Forall_forall in HF. by apply HF.
  - intros o [fs E]%sample_gen_live. rewrite (Hf o fs E). by destruct (sample_gen_fields_ok o fs E).
  - intros o1 o2 s [fs1 E1]%sample_gen_live [fs2 E2]%sample_gen_live. rewrite (Hf o1 fs1 E1), (Hf o2 fs2 E2). intros H1 H2. destruct (sample_gen_fields_ok o1 fs1 E1) as (_ & _ & HF).
    destruct (HF o2 fs2 E2) as [?|HF2]; [done|]. rewrite Forall_forall in HF2. by destruct (HF2 s H1).
Qed.

Lemma sample_gen_large : glarge_objects C h = {[ 10; 16 ]}.
Proof. apply (bool_decide_unpack _). by vm_compute. Qed.
Lemma nursery_regions_covered o : covered [(6, 1); (12, 1); (18, 1)] o ↔ o = 6 ∨ o = 12 ∨ o = 18.
Proof.
  unfold covered. setoid_rewrite elem_of_cons. setoid_rewrite elem_of_cons. setoid_rewrite list_elem_of_singleton. unfold in_region. split.
  - intros (r & [-> |[-> | ->]] & Hr); cbn [fst snd] in Hr; apply andb_true_iff in Hr as [?%Z.leb_le ?%Z.ltb_lt]; lia.
  - intros [-> |[-> | ->]]; [exists (6, 1)|exists (12, 1)|exists (18, 1)]; auto.
Qed.
Lemma sample_gen_covered o : is_Some (h_fields h !! o) → covered [(0, 100)] o.
Proof. intros Ho. exists (0, 100). split; [by left|]. revert o Ho. by apply (gen_objects (λ o, in_region (0, 100) o = true)); vm_compute. Qed.
Lemma sample_gen_plan_ok : gen_plan_ok C h p.
Proof.
  split.
  - by apply (gen_objects (λ o, is_Some (gspace_of C o))); vm_compute.
  - by apply (gen_objects (λ o, gspace_of C o ≠ Some GCopy1)); vm_compute.
  - intros o _. apply lookup_empty.
  - intros o Ho Ek. assert (o = 7) as -> by (revert o Ho Ek; by apply (gen_objects (λ o, gspace_of C o = Some GCopy0 → o = 7)); vm_compute). exists (7, 1). split; [by left|done].
  - intros o Ho Ek. apply nursery_regions_covered. revert o Ho Ek. by apply (gen_objects (λ o, gspace_of C o = Some GNursery → o = 6 ∨ o = 12 ∨ o = 18)); vm_compute.
  - by intros o [-> |[-> | ->]]%nursery_regions_covered.
  - rewrite sample_gen_large. split; try done; cbn [gc_md sample_gen_plan md_los gc_gen gen_common cp_los sample_gen_los los_mark_state los_treadmill tm_to_space tm_alloc_nursery];
      unfold NURSERY_BIT; [by left|intros o..]; rewrite ?elem_of_union, ?elem_of_singleton; destruct (Z.eqb_spec o 10); lia.
  - by split.
  - intros _. split; [done|]. intros o Ho _. by apply sample_gen_covered.
  - intros _. split; [done|]. intros o Ho _. by apply sample_gen_covered.
  - by apply (gen_objects (λ o, young C (gc_md p) o → md_unlog (gc_md p) o = 0)); vm_compute.
Qed.
Lemma sample_remembered :
  map_Forall (λ o fs, young C (gc_md p) o ∨ o ∈ gc_modbuf pool ∨
    md_unlog (gc_md p) o = 1 ∧ Forall (λ s, s ∈ pool_regions pool ∨ from_option (λ v, bool_decide (¬ young C (gc_md p) v)) true (slot_load h s) = true) fs) (h_fields h).
Proof. apply (bool_decide_unpack _). by vm_compute. Qed.
Lemma sample_gen_ready : gen_ready C h p pool.
Proof.
  split; [apply sample_gen_heap_ok|apply sample_gen_plan_ok|..].
  - intros o [fs E]%sample_gen_live Hy. destruct (sample_remembered o fs E) as [?|[?|[? _]]]; [done|by right|by left].
  - intros o ->%list_elem_of_singleton. apply (bool_decide_unpack _). by vm_compute.
  - intros o s v [fs E]%sample_gen_live Hy Hs Hv Hyv. rewrite (fields_lookup _ _ _ E) in Hs. destruct (sample_remembered o fs E) as [?|[?|[_ HF]]]; [done|by left|].
    rewrite Forall_forall in HF. destruct (HF s Hs) as [?|Hn]; [by right|]. rewrite Hv in Hn. by apply bool_decide_eq_true in Hn.
Qed.
Lemma sample_gen_room : gen_room C h p.
Proof. unfold gen_room. apply (bool_decide_unpack _). by vm_compute. Qed.

(** Its collection by any number of workers. *)
Definition sample_gen_collected (p1 : GenCopy) : Prop :=
  let start := {| gs_heap := h; gs_plan := p1; gs_pool := pool; gs_running := [] |} in
  let step := gc_step (H := gen_trace C) (H0 := gen_plan C) small_buffers in
  ∀ n st, nsteps step n start st →
    (n ≤ gc_cost (H0 := gen_laws C (sample_disjoint false) (sample_gen_copy_ok false) eq_refl h p1) h start)%nat ∧ (gc_drained st ∨ ∃ st', step st st') ∧
    (gc_drained st →
      ((∃ o, o ∈ glarge_objects C h ∧ young C (gc_md p) o ∧ ¬ reachable h (gc_roots h pool) o) → gencopy_release C (gs_plan st) = Panic) ∧
      ((∀ o, o ∈ glarge_objects C h → young C (gc_md p) o → reachable h (gc_roots h pool) o) →
        ∃ p2, gencopy_release C (gs_plan st) = Val p2 ∧
          gen_collected C h p (pool_roots pool) (gen_survivors C (gs_heap st)) p2 (gen_fw C (gs_plan st)))).
Lemma nursery_collects_witness :
  (∃ p1, gencopy_prepare C p = Val p1 ∧ sample_gen_collected p1) ∧ ∀ o, o ∈ glarge_objects C h → young C (gc_md p) o → reachable h (gc_roots h pool) o.
Proof.
  split.
  - exact (nursery_collects C (sample_disjoint false) (sample_gen_copy_ok false) eq_refl small_buffers h p pool sample_gen_ready eq_refl sample_gen_room).
  - intros o Ho Hy. rewrite sample_gen_large in Ho. apply elem_of_union in Ho as [->%elem_of_singleton| ->%elem_of_singleton].
    + eapply (reachable_root _ _ 2); [|done]. apply gc_roots_elem. left. by right; left.
    + exfalso. revert Hy. apply (bool_decide_unpack _). by vm_compute.
Defined.
End ready.

(** * A race of two write barriers *)

Section race.
Abbreviation C := (sample_gen_config false).
Abbreviation roots := [1; 2].

(** After a collection: root 1 holds 7 (mature), whose slot 71 is empty, as is root 2. *)
Definition race_heap : heap := {| h_slots := list_to_map [(1, Some 7); (2, None); (71, None)]; h_fields := list_to_map [(7, [71])] |}.
Definition race_los : LargeObjectSpace :=
  {| los_common := logged_common; los_mark_state := 0; los_in_nursery_gc := false; los_treadmill := TreadMill_new; los_trace_in_progress := false;
     los_rc_enabled := false; los_end_of_satb_or_full_gc := false; los_rc_nursery := []; los_rc_mature := ∅; los_released := [] |}.
Definition race_plan : GenCopy :=
  {| gc_gen := {| gen_nursery := sample_gen_copyspace [];
                  gen_common := {| cp_immortal := sample_gen_immortal; cp_los := race_los; cp_nonmoving := sample_gen_immortal |};
                  gc_full_heap := false; next_gc_full_heap := false; full_heap_gc_count := 0 |};
     gc_hi := false; gc_copyspace0 := sample_gen_copyspace [(7, 1)]; gc_copyspace1 := sample_gen_copyspace [];
     gc_md := {| md_forward := ∅; md_mark := λ _, 0; md_los := λ _, 0; md_unlog := λ o, if o =? 7 then 1 else 0; md_field_unlog := λ _, 0 |} |}.

Lemma race_object o : is_Some (h_fields race_heap !! o) → o = 7.
Proof.
  intros [fs E]. assert (map_Forall (λ o (_ : list Z), o = 7) (h_fields race_heap)) as HF by (apply (bool_decide_unpack _); by vm_compute). by apply (HF o fs).
Qed.
Lemma race_value s v : slot_load race_heap s = Some v → v = 7.
Proof.
  unfold slot_load. intros E. destruct (h_slots race_heap !! s) as [x|] eqn:Es; [|done]. cbn in E. subst x.
  assert (map_Forall (λ _ v, v = None ∨ v = Some 7) (h_slots race_heap)) as HF by (apply (bool_decide_unpack _); by vm_compute). destruct (HF s (Some v) Es); congruence.
Qed.
Lemma race_live o : glive race_heap (root_pool roots) o → o = 7.
Proof. intros [Ho|?%elem_of_nil]; [|done]. destruct Ho; by eapply race_value. Qed.
Lemma race_not_young : ¬ young C (gc_md race_plan) 7.
Proof. apply (bool_decide_unpack _). by vm_compute. Qed.
Lemma race_ready : gen_ready C race_heap race_plan (root_pool roots).
Proof.
  assert (fields race_heap 7 = [71]) as Ef by done. assert (glarge_objects C race_heap = ∅) as El by (apply (bool_decide_unpack _); by vm_compute). split.
  - split.
    + intros s [Hs|?%elem_of_nil]; [|done]. assert (Forall (λ s, is_Some (h_slots race_heap !! s)) roots) as HF by (apply (bool_decide_unpack _); by vm_compute).
      rewrite Forall_forall in HF. by apply HF.
    + intros o ->%race_live. by eexists.
    + intros o s ->%race_live. rewrite Ef. intros ->%list_elem_of_singleton. split; [by eexists|]. apply (bool_decide_unpack _). by vm_compute.
    + intros o ->%race_live. rewrite Ef. apply NoDup_singleton.
    + by intros o1 o2 s ->%race_live ->%race_live.
  - split.
    + intros o ->%race_object. by exists GCopy0.
    + by intros o ->%race_object.
    + intros o _. apply lookup_empty.
    + intros o ->%race_object _. exists (7, 1). split; [by left|done].
    + by intros o ->%race_object.
    + by intros o (r & ?%elem_of_nil & _).
    + rewrite El. split; try done; [by left|..]; intros o; cbn; rewrite ?elem_of_empty; tauto.
    + by split.
    + intros _. split; [done|]. by intros o ->%race_object.
    + intros _. split; [done|]. by intros o ->%race_object.
    + intros o ->%race_object Hy. by destruct race_not_young.
  - intros o ->%race_live _. by left.
  - by intros o ?%elem_of_nil.
  - intros o s v _ _ _ ->%race_value Hy. by destruct race_not_young.
Qed.

(** ** The race *)

Definition racer (modbuf : list Z) (pc : barrier_pc) : mutator := {| mu_modbuf := modbuf; mu_regions := []; mu_pc := pc |}.
(** The heap with the new object 6, before and after it is in the slot 71. *)
Definition race_alloc : heap := slot_write (new_object race_heap 6 [61]) 2 (Some 6).
Definition race_stored : heap := slot_write race_alloc 71 (Some 6).
Definition race_alloc_plan : GenCopy := with_space_regions GNursery race_plan [(6, 1)].
Definition race_logged_plan : GenCopy := with_gen race_alloc_plan (gc_gen race_alloc_plan) (clear_log (gc_md race_alloc_plan) 7).
Definition race_end : mut_state :=
  {| ms_heap := slot_write race_stored 71 (Some 6); ms_plan := race_logged_plan; ms_mutators := [racer [7] Idle; racer [] Idle]; ms_bucket := [] |}.

Lemma race_covered : covered [(6, 1)] 6 ∧ ∀ o, covered [(6, 1)] o → o = 6.
Proof.
  split; [exists (6, 1); split; [by left|done]|]. intros o (r & ->%list_elem_of_singleton & Hr). unfold in_region in Hr. cbn [fst snd] in Hr. apply andb_true_iff in Hr as [?%Z.leb_le ?%Z.ltb_lt]. lia.
Qed.
Lemma race_memory : new_memory C GNursery race_heap race_plan roots 6 [61] [(6, 1)].
Proof.
  split; try done.
  - apply NoDup_singleton.
  - intros s ->%list_elem_of_singleton. split; [apply (bool_decide_unpack _); by vm_compute|]. intros x ->%race_object. apply (bool_decide_unpack _). by vm_compute.
  - right. apply race_covered.
  - by intros x (r & ?%elem_of_nil & _).
  - by intros x _ ->%race_covered.
Qed.
Lemma race_reaches h : slot_load h 1 = Some 7 → slot_load h 2 = Some 6 → reachable h roots 7 ∧ reachable h roots 6.
Proof. intros E1 E2. split; [eapply (reachable_root _ _ 1); [by left|done]|eapply (reachable_root _ _ 2); [by right; left|done]]. Qed.
Lemma race_stores h : h = race_alloc ∨ h = race_stored → reachable h roots 7 ∧ 71 ∈ fields h 7 ∧ loadable h roots (Some 6).
Proof.
  intros Hh. assert (slot_load h 1 = Some 7 ∧ slot_load h 2 = Some 6 ∧ fields h 7 = [71]) as (E1 & E2 & E3) by (destruct Hh as [-> | ->]; by vm_compute).
  destruct (race_reaches h E1 E2). rewrite E3. split_and!; [done|by left|done].
Qed.

(** The second mutator loads the unlog bit before the first has cleared it and fails its
    compare-exchange. *)
Ltac race1 := eapply rtc_l; [eapply (step_barrier _ _ _ _ _ [] _ [_]); vm_compute; reflexivity|]; cbn [app].
Ltac race2 := eapply rtc_l; [eapply (step_barrier _ _ _ _ _ [_] _ []); vm_compute; reflexivity|]; cbn [app].
Lemma race_steps : rtc (mut_step C small_buffers roots) (mut_start race_heap race_plan 2) race_end.
Proof.
  destruct (race_stores race_alloc) as (? & ? & ?); [by left|]. destruct (race_stores race_stored) as (? & ? & ?); [by right|].
  eapply rtc_l; [by eapply (step_alloc _ _ _ _ _ _ _ GNursery 6 [61] 16 [(6, 1)] 2); [apply race_memory|reflexivity|right; left]|].
  eapply rtc_l; [by eapply (step_write _ _ _ race_alloc _ [] _ [_] _ 7 71 (Some 6))|]. cbn [app].
  eapply rtc_l; [by eapply (step_write _ _ _ race_stored _ [_] _ [] _ 7 71 (Some 6))|]. cbn [app].
  race1. race2. race1. race2. race1. race2. race2. race1.
  apply rtc_refl.
Qed.

(** 7 was recorded once. *)
Definition race_pool : list gc_packet := root_pool roots ++ ms_bucket race_end ++ flush_all (ms_mutators race_end).
Lemma race_pool_value : race_pool = [ProcessEdges roots; ProcessModBuf [7]].
Proof. reflexivity. Qed.
Lemma barrier_remembers_witness : gen_ready C (ms_heap race_end) (ms_plan race_end) race_pool.
Proof.
  apply (barrier_remembers C (sample_disjoint false) small_buffers eq_refl roots race_heap race_plan 2 race_end race_ready race_steps).
  intros m Hm. apply elem_of_cons in Hm as [-> |Hm]; [reflexivity|]. apply list_elem_of_singleton in Hm as ->. reflexivity.
Defined.

(** The collection after it moves 6 and updates the slot of 7 and the root. *)
Lemma race_collection :
  match gen_collect_nursery C small_buffers 100 (ms_heap race_end) (ms_plan race_end) race_pool with
  | Val (h, p) =>
    let o := default 0 (slot_load h 71) in
    gspace_of C o = Some GCopy0 ∧ slot_load h 2 = Some o ∧ slot_load h 1 = Some 7 ∧ (slot_load h <$> fields h o) = [None] ∧ (md_unlog (gc_md p) <$> [7; o]) = [1; 1]
  | _ => False
  end.
Proof. by vm_compute. Qed.
End race.
