(* ===== verification/Mmapper.v ===== *)
(** * Mapping memory (src/src/util/heap/layout/mmapper.rs and fragmented_mapper.rs, and the
    grouping of src/src/util/rust_util/rev_group.rs)

    The mapper knows for every chunk of 4 MB whether it is mapped.  The states of 256 chunks are
    a slab; a hash table with linear probing finds the slab of an address.  Whether a call of
    the operating system succeeds is a parameter.  An operation takes the lock for every chunk,
    and is one step here. *)

From S2P Require Import Prelude Conversions.

(** ** [MapState] *)

Inductive MapState : Type := Unmapped | Quarantined | Mapped | Protected.
#[export] Instance MapState_eq_dec : EqDecision MapState.
Proof. solve_decision. Defined.

Inductive os_call : Type :=
| dzmmap_noreplace (start size : Z)
| dzmmap (start size : Z)
| mmap_noreserve (start size : Z)
| mprotect (start size : Z)
| munprotect (start size : Z)
| munmap (start size : Z).

Section mapper.
Context (os : os_call → bool).

(** A transition returns whether it is [Ok], and the new state. *)
Definition transition_to_mapped (state : MapState) (mmap_start : Z) : res (bool * MapState) :=
  let ok := match state with
            | Unmapped => os (dzmmap_noreplace mmap_start MMAP_CHUNK_BYTES)
            | Protected => os (munprotect mmap_start MMAP_CHUNK_BYTES)
            | Quarantined => os (dzmmap mmap_start MMAP_CHUNK_BYTES)
            | Mapped => true
            end in
  Val (ok, if ok then Mapped else state).
Definition transition_to_unmapped (state : MapState) (mmap_start : Z) : res (bool * MapState) :=
  match state with
  | Mapped => if os (munmap mmap_start MMAP_CHUNK_BYTES) then Val (true, Unmapped) else Panic
  | _ => Panic
  end.
Definition transition_to_quarantined (state : MapState) (mmap_start : Z) : res (bool * MapState) :=
  match state with
  | Unmapped => let ok := os (mmap_noreserve mmap_start MMAP_CHUNK_BYTES) in Val (ok, if ok then Quarantined else Unmapped)
  | Quarantined => Val (true, Quarantined)
  | Mapped => Val (true, Mapped)
  | Protected => Panic
  end.
Definition transition_to_protected (state : MapState) (mmap_start : Z) : res (bool * MapState) :=
  match state with
  | Mapped => if os (mprotect mmap_start MMAP_CHUNK_BYTES) then Val (true, Protected) else Panic
  | Protected => Val (true, Protected)
  | _ => Panic
  end.

(** ** Quarantine in bulk *)

(** [revisitable_group_by]: adjacent equal states, with the size of each group; [key] and
    [size] are of the group that is being counted. *)
Fixpoint group_from (key : MapState) (size : Z) (states : list MapState) : list (MapState * Z) :=
  match states with
  | [] => [(key, size)]
  | s :: states => if bool_decide (s = key) then group_from key (size + 1) states else (key, size) :: group_from s 1 states
  end.
Definition revisitable_group_by (states : list MapState) : list (MapState * Z) :=
  match states with [] => [] | s :: states => group_from s 1 states end.

(** The new states of the chunks of the groups, from [start_index] on. *)
Fixpoint bulk_groups (groups : list (MapState * Z)) (mmap_start start_index : Z) : res (bool * list MapState) :=
  match groups with
  | [] => Val (true, [])
  | (key, len) :: groups =>
    let end_index := start_index + len in
    let start_addr := mmap_start +u (MMAP_CHUNK_BYTES *u start_index) in
    let end_addr := mmap_start +u (MMAP_CHUNK_BYTES *u end_index) in
    let same key := replicate (Z.to_nat len) key in
    let rest := λ key, '(ok, states) ← bulk_groups groups mmap_start end_index; Val (ok, same key ++ states) in
    match key with
    | Unmapped =>
      if os (mmap_noreserve start_addr (end_addr -u start_addr)) then rest Quarantined
      else Val (false, same Unmapped ++ (groups ≫= λ g, replicate (Z.to_nat g.2) g.1))
    | Quarantined => rest Quarantined
    | Mapped => rest Mapped
    | Protected => Panic
    end
  end.
Definition bulk_transition_to_quarantined (states : list MapState) (mmap_start : Z) : res (bool * list MapState) :=
  bulk_groups (revisitable_group_by states) mmap_start 0.

(** ** [FragmentedMapper] *)

Definition MMAP_NUM_CHUNKS : Z := Z.shiftl 1 (33 - LOG_MMAP_CHUNK_BYTES).
Definition LOG_MAPPABLE_BYTES : Z := 40.
Definition LOG_MMAP_CHUNKS_PER_SLAB : Z := 8.
Definition LOG_MMAP_SLAB_BYTES : Z := LOG_MMAP_CHUNKS_PER_SLAB + LOG_MMAP_CHUNK_BYTES.
Definition MMAP_SLAB_EXTENT : Z := Z.shiftl 1 LOG_MMAP_SLAB_BYTES.
Definition MMAP_SLAB_MASK : Z := Z.shiftl 1 LOG_MMAP_SLAB_BYTES - 1.
Definition LOG_MAX_SLABS : Z := LOG_MAPPABLE_BYTES - LOG_MMAP_CHUNK_BYTES - LOG_MMAP_CHUNKS_PER_SLAB.
Definition MAX_SLABS : Z := Z.shiftl 1 LOG_MAX_SLABS.
Definition LOG_SLAB_TABLE_SIZE : Z := 1 + LOG_MAX_SLABS.
Definition HASH_MASK : Z := Z.shiftl 1 LOG_SLAB_TABLE_SIZE - 1.
Definition SLAB_TABLE_SIZE : Z := Z.shiftl 1 LOG_SLAB_TABLE_SIZE.
Definition SENTINEL : Z := 2 ^ 64 - 1.

(** The slabs of the table and their addresses, by index; an index that is absent has no slab,
    and [SENTINEL] in [slab_map].  The slabs from [free_slab_index] on are free and unmapped. *)
Record FragmentedMapper : Type := { free_slab_index : Z; slab_table : gmap Z (list MapState); slab_map : gmap Z Z }.
Definition new_slab : list MapState := replicate (Z.to_nat MMAP_NUM_CHUNKS) Unmapped.
Definition FragmentedMapper_new : FragmentedMapper := {| free_slab_index := 0; slab_table := ∅; slab_map := ∅ |}.

(** The loop of [hash] ends when nothing is left of the address, which has 64 bits. *)
Fixpoint hash_loop (fuel : nat) (initial hash : Z) : res Z :=
  match fuel with
  | O => NoFuel
  | S fuel => if initial =? 0 then Val hash else hash_loop fuel (Z.shiftr initial LOG_SLAB_TABLE_SIZE) (Z.lxor hash (Z.land initial HASH_MASK))
  end.
Definition slab_align_down (addr : Z) : Z := Z.land addr (unot 64 MMAP_SLAB_MASK).
Definition slab_hash (addr : Z) : res Z := hash_loop 7 (Z.shiftr (slab_align_down addr) LOG_MMAP_SLAB_BYTES) 0.
Definition slab_limit (addr : Z) : Z := slab_align_down addr +u MMAP_SLAB_EXTENT.
Definition chunk_index (slab addr : Z) : Z := Z.shiftr (addr -u slab) LOG_MMAP_CHUNK_BYTES.
Definition chunk_index_to_address (base chunk : Z) : Z := base +u ushl 64 chunk LOG_MMAP_CHUNK_BYTES.

(** [self.slab_map[index]]. *)
Definition slab_map_at (m : FragmentedMapper) (index : Z) : res Z :=
  _ ← rust_assert ((0 <=? index) && (index <? SLAB_TABLE_SIZE)); Val (default SENTINEL (slab_map m !! index)).
(** [slab_table_for] with its debug assertion; a slab is known by its index. *)
Definition slab_table_for (m : FragmentedMapper) (index : Z) : res Z :=
  _ ← rust_assert (bool_decide (is_Some (slab_table m !! index))); Val index.
Fixpoint get_slab_loop (fuel : nat) (m : FragmentedMapper) (base index : Z) : res (option Z) :=
  match fuel with
  | O => NoFuel
  | S fuel =>
    entry ← slab_map_at m index;
    if base =? entry then i ← slab_table_for m index; Val (Some i)
    else if entry =? SENTINEL then Val None
    else get_slab_loop fuel m base (Z.land (index +u 1) (SLAB_TABLE_SIZE - 1))
  end.
Definition get_slab_table (fuel : nat) (m : FragmentedMapper) (addr : Z) : res (option Z) :=
  if addr =? SENTINEL then Val None
  else hash ← slab_hash (slab_align_down addr); get_slab_loop fuel m (slab_align_down addr) hash.
Definition commit_free_slab (m : FragmentedMapper) (index : Z) : res FragmentedMapper :=
  _ ← rust_assert (free_slab_index m <? MAX_SLABS);
  _ ← rust_assert (bool_decide (slab_table m !! index = None));
  Val {| free_slab_index := free_slab_index m + 1; slab_table := <[index := new_slab]> (slab_table m); slab_map := slab_map m |}.
Fixpoint allocate_slab_loop (fuel : nat) (m : FragmentedMapper) (base hash index : Z) : res (FragmentedMapper * Z) :=
  match fuel with
  | O => NoFuel
  | S fuel =>
    entry ← slab_map_at m index;
    if base =? entry then i ← slab_table_for m index; Val (m, i)
    else if entry =? SENTINEL
    then
      m ← commit_free_slab m index;
      let m := {| free_slab_index := free_slab_index m; slab_table := slab_table m; slab_map := <[index := base]> (slab_map m) |} in
      i ← slab_table_for m index; Val (m, i)
    else
      let index := (index +u 1) mod SLAB_TABLE_SIZE in
      _ ← rust_assert (negb (index =? hash));
      allocate_slab_loop fuel m base hash index
  end.
Definition get_or_allocate_slab_table (fuel : nat) (m : FragmentedMapper) (addr : Z) : res (FragmentedMapper * Z) :=
  _ ← rust_assert (negb (addr =? SENTINEL));
  hash ← slab_hash (slab_align_down addr);
  allocate_slab_loop fuel m (slab_align_down addr) hash hash.

(** ** Ranges of chunks *)

(** [mapped.iter().enumerate().take(end_chunk).skip(start_chunk)] with a transition of each
    entry, until one fails. *)
Fixpoint chunk_loop (f : MapState → Z → res (bool * MapState)) (n : nat) (chunk base : Z) (slab : list MapState) : res (bool * list MapState) :=
  match n with
  | O => Val (true, slab)
  | S n =>
    match slab !! Z.to_nat chunk with
    | None => Val (true, slab)
    | Some state =>
      '(ok, state') ← f state (chunk_index_to_address base chunk);
      let slab := <[Z.to_nat chunk := state']> slab in
      if (ok : bool) then chunk_loop f n (chunk + 1) base slab else Val (false, slab)
    end
  end.
(** The part of the range from [start] to [end_] that is in the slab of [start]. *)
Definition slab_high (start end_ : Z) : Z :=
  if (slab_limit start <? end_) && negb (slab_limit start =? 0) then slab_limit start else end_.
Definition slab_chunks (start end_ : Z) : Z * Z :=
  let slab := slab_align_down start in
  (chunk_index slab start, chunk_index slab (mmap_chunk_align_up (slab_high start end_))).
Definition set_slab (m : FragmentedMapper) (index : Z) (slab : list MapState) : FragmentedMapper :=
  {| free_slab_index := free_slab_index m; slab_table := <[index := slab]> (slab_table m); slab_map := slab_map m |}.
(** The loop over the slabs that [mark_as_mapped], [ensure_mapped], [ensure_unmapped] and
    [protect] share. *)
Fixpoint slab_loop (f : MapState → Z → res (bool * MapState)) (tf fuel : nat) (m : FragmentedMapper) (start end_ : Z) : res (bool * FragmentedMapper) :=
  if start <? end_ then
    match fuel with
    | O => NoFuel
    | S fuel =>
      let '(start_chunk, end_chunk) := slab_chunks start end_ in
      '(m, index) ← get_or_allocate_slab_table tf m start;
      slab ← unwrap (slab_table m !! index);
      '(ok, slab) ← chunk_loop f (Z.to_nat (end_chunk - start_chunk)) start_chunk (slab_align_down start) slab;
      let m := set_slab m index slab in
      if (ok : bool) then slab_loop f tf fuel m (slab_high start end_) end_ else Val (false, m)
    end
  else Val (true, m).

Definition mark_as_mapped (tf fuel : nat) (m : FragmentedMapper) (start bytes : Z) : res (bool * FragmentedMapper) :=
  slab_loop (λ _ _, Val (true, Mapped)) tf fuel m start (start +u bytes).
Definition ensure_mapped (tf fuel : nat) (m : FragmentedMapper) (start pages : Z) : res (bool * FragmentedMapper) :=
  slab_loop (λ state a, if bool_decide (state = Mapped) then Val (true, Mapped) else transition_to_mapped state a) tf fuel m start (start +u pages_to_bytes pages).
Definition ensure_unmapped (tf fuel : nat) (m : FragmentedMapper) (start pages : Z) : res (bool * FragmentedMapper) :=
  slab_loop transition_to_unmapped tf fuel m start (start +u pages_to_bytes pages).
Definition protect (tf fuel : nat) (m : FragmentedMapper) (start pages : Z) : res (bool * FragmentedMapper) :=
  slab_loop transition_to_protected tf fuel m start (start +u pages_to_bytes pages).

(** [quarantine_address_range]: the slices are collected, and their states changed in bulk. *)
Fixpoint collect_slices (tf fuel : nat) (m : FragmentedMapper) (start end_ : Z) : res (FragmentedMapper * list (Z * Z * Z)) :=
  if start <? end_ then
    match fuel with
    | O => NoFuel
    | S fuel =>
      let '(start_chunk, end_chunk) := slab_chunks start end_ in
      '(m, index) ← get_or_allocate_slab_table tf m start;
      _ ← rust_assert ((start_chunk <=? end_chunk) && (end_chunk <=? MMAP_NUM_CHUNKS));
      '(m, slices) ← collect_slices tf fuel m (slab_high start end_) end_;
      Val (m, (index, start_chunk, end_chunk) :: slices)
    end
  else Val (m, []).
Definition slice_states (m : FragmentedMapper) (s : Z * Z * Z) : list MapState :=
  let '(index, start_chunk, end_chunk) := s in
  take (Z.to_nat (end_chunk - start_chunk)) (drop (Z.to_nat start_chunk) (default [] (slab_table m !! index))).
(** The new states go back to the slices. *)
Fixpoint store_slices (m : FragmentedMapper) (slices : list (Z * Z * Z)) (states : list MapState) : FragmentedMapper :=
  match slices with
  | [] => m
  | (index, start_chunk, end_chunk) :: slices =>
    let n := Z.to_nat (end_chunk - start_chunk) in
    let slab := default [] (slab_table m !! index) in
    let m := set_slab m index (take (Z.to_nat start_chunk) slab ++ take n states ++ drop (Z.to_nat end_chunk) slab) in
    store_slices m slices (drop n states)
  end.
Definition quarantine_address_range (tf fuel : nat) (m : FragmentedMapper) (start pages : Z) : res (bool * FragmentedMapper) :=
  _ ← rust_assert (is_aligned_to start BYTES_IN_PAGE);
  let end_ := start +u pages_to_bytes pages in
  let mmap_start := mmap_chunk_align_down start in
  '(m, slices) ← collect_slices tf fuel m start end_;
  let states := slices ≫= slice_states m in
  _ ← rust_assert (mmap_start +u (BYTES_IN_CHUNK *u Z.of_nat (length states)) =? mmap_chunk_align_up end_);
  '(ok, states) ← bulk_transition_to_quarantined states mmap_start;
  Val (ok, store_slices m slices states).

Definition is_mapped_address (tf : nat) (m : FragmentedMapper) (addr : Z) : res bool :=
  index ← get_slab_table tf m addr;
  match index with
  | None => Val false
  | Some index =>
    slab ← unwrap (slab_table m !! index);
    state ← unwrap (slab !! Z.to_nat (chunk_index (slab_align_down addr) addr));
    Val (bool_decide (state = Mapped))
  end.
End mapper.
