(* ===== verification/MmapperTheorems.v ===== *)
(** * The mapper is a map from chunks to states

    The specification has one state per chunk, and an operation on a range changes the states
    of its chunks one after the other; quarantine asks the operating system once for each run of
    unmapped chunks.  The slabs, the hash table and the bulk quarantine refine it, whatever the
    operating system answers. *)

From S2P Require Import Prelude Conversions Mmapper.

(** ** The specification *)

Abbreviation CHUNK := (2 ^ 22).
Definition chunks (start end_ : Z) : list Z :=
  if start <? end_ then seqZ (start `div` CHUNK) ((end_ + CHUNK - 1) `div` CHUNK - start `div` CHUNK) else [].
Fixpoint run_chunks (f : MapState → Z → res (bool * MapState)) (l : list Z) (A : Z → MapState) : res (bool * (Z → MapState)) :=
  match l with
  | [] => Val (true, A)
  | c :: l => '(ok, state) ← f (A c) (c * CHUNK); if (ok : bool) then run_chunks f l (<[c := state]> A) else Val (false, <[c := state]> A)
  end.

(** The code returns what the specification does, up to [R], and panics when it does. *)
Definition refines {X Y} (R : X → Y → Prop) (code : res X) (spec : res Y) : Prop :=
  match spec with
  | Val y => ∃ x, code = Val x ∧ R x y
  | Panic => code = Panic
  | NoFuel => code = NoFuel
  end.
Lemma refines_bind {X Y X' Y'} (R : X → Y → Prop) (R' : X' → Y' → Prop) code spec (k : X → res X') (k' : Y → res Y') :
  refines R code spec → (∀ x y, R x y → refines R' (k x) (k' y)) → refines R' (x ← code; k x) (y ← spec; k' y).
Proof. destruct spec as [y| |]; cbn; [intros (x & -> & HR) Hk; cbn; by apply Hk|intros -> _; done..]. Qed.
Lemma run_chunks_app f l1 l2 A :
  run_chunks f (l1 ++ l2) A = ('(ok, A) ← run_chunks f l1 A; if (ok : bool) then run_chunks f l2 A else Val (false, A)).
Proof.
  revert A. induction l1 as [|c l1 IH]; intros A; [done|]. cbn [app run_chunks]. destruct (f (A c) (c * CHUNK)) as [[[] s]| |]; cbn [mbind res_bind]; [apply IH|done..].
Qed.

(** A transition changes only the chunks of the list. *)
Lemma run_chunks_other f l A ok A' c : run_chunks f l A = Val (ok, A') → c ∉ l → A' c = A c.
Proof.
  revert A. induction l as [|x l IH]; intros A E Hc; [by injection E as _ <-|]. apply not_elem_of_cons in Hc as [Hx Hc]. cbn [run_chunks] in E.
  destruct (f (A x) (x * CHUNK)) as [[[] s]| |]; cbn in E; try done; [rewrite (IH _ E Hc)|injection E as _ <-]; by apply fn_lookup_insert_ne.
Qed.
(** Chunks that all change to [s]. *)
Lemma run_chunks_all f l A s : NoDup l → (∀ c, c ∈ l → f (A c) (c * CHUNK) = Val (true, s)) →
  ∃ A', run_chunks f l A = Val (true, A') ∧ ∀ c, A' c = if decide (c ∈ l) then s else A c.
Proof.
  revert A. induction l as [|x l IH]; intros A Hnd Hf; [exists A; split; [done|intros c; by rewrite decide_False by apply not_elem_of_nil]|].
  apply NoDup_cons in Hnd as [Hx Hnd]. cbn [run_chunks]. rewrite Hf by set_solver. cbn [mbind res_bind]. destruct (IH (<[x := s]> A) Hnd) as (A' & -> & HA).
  { intros c Hc. rewrite fn_lookup_insert_ne by (intros ->; done). apply Hf. set_solver. }
  exists A'. split; [done|]. intros c. rewrite HA. destruct (decide (c ∈ l)); [by rewrite decide_True by set_solver|].
  destruct (decide (c = x)) as [-> |]; [rewrite decide_True by set_solver; apply fn_lookup_insert|]. rewrite decide_False by set_solver. by apply fn_lookup_insert_ne.
Qed.
Lemma chunks_NoDup start end_ : NoDup (chunks start end_).
Proof. unfold chunks. destruct (_ <? _); [apply NoDup_seqZ|constructor]. Qed.

(** ** Addresses *)

Abbreviation SLAB := (2 ^ 30).
Definition slab_base (a : Z) : Z := a `div` SLAB * SLAB.
Lemma slab_align_eq a : 0 ≤ a < 2 ^ 64 → slab_align_down a = slab_base a.
Proof. intros Ha. unfold slab_align_down. change MMAP_SLAB_MASK with (2 ^ 30 -u 1). by apply land_align. Qed.
Lemma slab_base_bounds a : slab_base a ≤ a < slab_base a + SLAB.
Proof. unfold slab_base. pose proof (Z.div_mod a SLAB). pose proof (Z.mod_pos_bound a SLAB). lia. Qed.
Lemma slab_limit_eq a : 0 ≤ a < 2 ^ 63 → slab_limit a = slab_base a + SLAB.
Proof.
  intros Ha. unfold slab_limit. rewrite slab_align_eq by lia. pose proof (slab_base_bounds a). assert (0 ≤ slab_base a) by (unfold slab_base; apply Z.mul_nonneg_nonneg; [apply Z.div_pos|]; lia).
  change MMAP_SLAB_EXTENT with SLAB. apply uadd_id. lia.
Qed.
Lemma slab_high_eq start end_ : 0 ≤ start < end_ → end_ ≤ 2 ^ 63 → slab_high start end_ = Z.min (slab_base start + SLAB) end_.
Proof.
  intros Hs He. unfold slab_high. rewrite slab_limit_eq by lia. pose proof (slab_base_bounds start). destruct (Z.ltb_spec (slab_base start + SLAB) end_); cbn [andb]; [|lia].
  destruct (Z.eqb_spec (slab_base start + SLAB) 0); cbn [negb]; lia.
Qed.
Lemma chunk_align_up_eq a : 0 ≤ a → a ≤ 2 ^ 63 → mmap_chunk_align_up a = (a + CHUNK - 1) `div` CHUNK * CHUNK.
Proof. intros. unfold mmap_chunk_align_up, align_up. change MMAP_CHUNK_BYTES with CHUNK. apply align_up_eq; lia. Qed.
(** The chunks of a slab are numbered from its base. *)
Lemma chunk_index_eq b a : (SLAB | b) → 0 ≤ b ≤ a → a < 2 ^ 64 → chunk_index b a = a `div` CHUNK - b `div` CHUNK.
Proof.
  intros [n ->] Hb Ha. unfold chunk_index. rewrite usub_id, shiftr_div by (change LOG_MMAP_CHUNK_BYTES with 22; lia). change LOG_MMAP_CHUNK_BYTES with 22.
  replace (n * SLAB) with (n * 2 ^ 8 * CHUNK) by lia. rewrite Z.div_mul by lia. replace (a - n * 2 ^ 8 * CHUNK) with (a + (- (n * 2 ^ 8)) * CHUNK) by lia. rewrite Z.div_add by lia. lia.
Qed.
Lemma slab_base_div a : (SLAB | slab_base a) ∧ slab_base a `div` CHUNK = a `div` SLAB * 2 ^ 8.
Proof. unfold slab_base. split; [by exists (a `div` SLAB)|]. replace (a `div` SLAB * SLAB) with (a `div` SLAB * 2 ^ 8 * CHUNK) by lia. by rewrite Z.div_mul by lia. Qed.
Lemma slab_chunk a : a `div` SLAB = (a `div` CHUNK) `div` 2 ^ 8.
Proof. rewrite Z.div_div by lia. done. Qed.

(** What a step of the loop over slabs does: the chunks from [start] to the end of the slab. *)
Lemma slab_chunks_ok start end_ :
  0 ≤ start < end_ → end_ ≤ 2 ^ 63 →
  let '(sc, ec) := slab_chunks start end_ in let b := slab_base start in
  (0 ≤ sc < ec) ∧ ec ≤ 2 ^ 8 ∧ chunks start end_ = seqZ (b `div` CHUNK + sc) (ec - sc) ++ chunks (slab_high start end_) end_ ∧ sc = start `div` CHUNK - b `div` CHUNK.
Proof.
  intros Hs He. unfold slab_chunks. rewrite slab_align_eq, slab_high_eq by lia. destruct (slab_base_div start) as [Hd Eb]. pose proof (slab_base_bounds start) as Hb.
  set (b := slab_base start) in *. set (high := Z.min (b + SLAB) end_). assert (0 ≤ b) as H0 by (unfold b, slab_base; apply Z.mul_nonneg_nonneg; [apply Z.div_pos|]; lia).
  assert (start < high ≤ end_) as Hh by lia. rewrite chunk_align_up_eq by lia. set (u := (high + CHUNK - 1) `div` CHUNK).
  assert (start `div` CHUNK < u) as Hu.
  { unfold u. pose proof (Z.div_le_mono (start + CHUNK) (high + CHUNK - 1) CHUNK). replace (start + CHUNK) with (start + 1 * CHUNK) in * by lia. rewrite Z.div_add in H by lia. lia. }
  assert (u * CHUNK < high + CHUNK) as Hu2 by (unfold u; pose proof (Z.mul_div_le (high + CHUNK - 1) CHUNK); lia). assert (0 ≤ start `div` CHUNK) by (apply Z.div_pos; lia).
  assert (high ≤ u * CHUNK) as Hu4 by (unfold u; pose proof (Z.div_mod (high + CHUNK - 1) CHUNK); pose proof (Z.mod_pos_bound (high + CHUNK - 1) CHUNK); lia).
  rewrite (chunk_index_eq b start), (chunk_index_eq b (u * CHUNK)) by (done || lia). rewrite Z.div_mul by lia.
  assert (b `div` CHUNK ≤ start `div` CHUNK) as Hbs by (apply Z.div_le_mono; lia). assert (u ≤ b `div` CHUNK + 2 ^ 8) as Hu3.
  { unfold u. rewrite Eb in *. assert (high ≤ b + SLAB) as Hx by lia. pose proof (Z.div_le_mono (high + CHUNK - 1) (b + SLAB + (CHUNK - 1)) CHUNK) as Hm. unfold b, slab_base in Hm.
    replace (start `div` SLAB * SLAB + SLAB + (CHUNK - 1)) with (CHUNK - 1 + (start `div` SLAB * 2 ^ 8 + 2 ^ 8) * CHUNK) in Hm by lia. rewrite Z.div_add in Hm by lia.
    rewrite (Z.div_small (CHUNK - 1)) in Hm by lia. unfold b, slab_base in Hx. lia. }
  split; [lia|]. split; [lia|]. split; [|lia]. unfold chunks. rewrite (proj2 (Z.ltb_lt start end_)) by lia. replace (b `div` CHUNK + (start `div` CHUNK - b `div` CHUNK)) with (start `div` CHUNK) by lia.
  replace (u - b `div` CHUNK - (start `div` CHUNK - b `div` CHUNK)) with (u - start `div` CHUNK) by lia. set (v := (end_ + CHUNK - 1) `div` CHUNK).
  destruct (Z.ltb_spec high end_) as [Hlt|Hge].
  - assert (high = b + SLAB) as Eh by lia. assert (u = high `div` CHUNK) as Eu.
    { unfold u. rewrite Eh. destruct Hd as [n En]. rewrite En. replace (n * SLAB + SLAB + CHUNK - 1) with (CHUNK - 1 + (n * 2 ^ 8 + 2 ^ 8) * CHUNK) by lia. replace (n * SLAB + SLAB) with ((n * 2 ^ 8 + 2 ^ 8) * CHUNK) by lia.
      rewrite Z.div_add, Z.div_mul by lia. by rewrite Z.div_small by lia. }
    assert (u ≤ v) as Huv by (apply Z.div_le_mono; lia).
    rewrite <-Eu. replace (v - start `div` CHUNK) with ((u - start `div` CHUNK) + (v - u)) by lia. rewrite seqZ_app by lia. do 2 f_equal. lia.
  - assert (high = end_) as Eh by lia. unfold u. rewrite Eh. by rewrite app_nil_r.
Qed.

(** ** The hash table *)

Abbreviation N := (2 ^ 11).
Lemma hash_loop_ok n fuel x hash :
  0 ≤ n → 0 ≤ x < 2 ^ (11 * n) → (Z.to_nat n < fuel)%nat → 0 ≤ hash < N → ∃ r, hash_loop fuel x hash = Val r ∧ 0 ≤ r < N.
Proof.
  intros Hn. revert fuel x hash. pattern n. apply natlike_ind; [|clear n Hn; intros n Hn IH|done].
  - intros [|fuel] x hash Hx Hf Hh; [lia|]. assert (x = 0) as -> by (cbn in Hx; lia). by exists hash.
  - intros [|fuel] x hash Hx Hf Hh; [lia|]. cbn [hash_loop]. destruct (Z.eqb_spec x 0) as [|Hx0]; [by exists hash|]. apply IH; [|lia|].
    + change LOG_SLAB_TABLE_SIZE with 11. rewrite Z.shiftr_div_pow2 by lia. split; [apply Z.div_pos; lia|]. apply Z.div_lt_upper_bound; [lia|]. replace (11 * Z.succ n) with (11 + 11 * n) in Hx by lia.
      rewrite Z.pow_add_r in Hx by lia. lia.
    + change HASH_MASK with (Z.ones 11). rewrite Z.land_ones by lia. pose proof (Z.mod_pos_bound x N). pose proof (Z.lxor_nonneg hash (x mod N)) as Hp. split; [apply Hp; lia|].
      destruct (Z.eq_dec (Z.lxor hash (x mod N)) 0) as [-> |Hne]; [lia|]. apply Z.log2_lt_pow2; [lia|].
      assert (∀ y, 0 ≤ y < N → Z.log2 y < 11) as Hl by (intros y Hy; destruct (Z.eq_dec y 0) as [-> |]; [done|apply Z.log2_lt_pow2; lia]).
      eapply Z.le_lt_trans; [apply Z.log2_lxor; lia|]. apply Z.max_lub_lt; apply Hl; lia.
Qed.
Definition hash_of (b : Z) : Z := match slab_hash b with Val h => h | _ => 0 end.
Lemma slab_hash_ok b : 0 ≤ b < 2 ^ 63 → slab_hash b = Val (hash_of b) ∧ 0 ≤ hash_of b < N.
Proof.
  intros Hb. pose proof (slab_base_bounds b) as Hbb. assert (0 ≤ slab_base b) by (unfold slab_base; apply Z.mul_nonneg_nonneg; [apply Z.div_pos|]; lia).
  destruct (hash_loop_ok 6 7 (Z.shiftr (slab_align_down b) LOG_MMAP_SLAB_BYTES) 0) as (r & E & Hr); [lia| |lia|lia|].
  - rewrite slab_align_eq by lia. change LOG_MMAP_SLAB_BYTES with 30. rewrite Z.shiftr_div_pow2 by lia. split; [apply Z.div_pos; lia|]. apply Z.div_lt_upper_bound; lia.
  - unfold hash_of, slab_hash. by rewrite E.
Qed.

(** The addresses that slabs may have. *)
Definition slab_bases (B : gset Z) : Prop := Z.of_nat (size B) ≤ MAX_SLABS ∧ ∀ b, b ∈ B → (SLAB | b) ∧ 0 ≤ b < 2 ^ 63.
Definition probe (h k : Z) : Z := (h + k) mod N.
Record table_ok (B : gset Z) (m : FragmentedMapper) : Prop := {
  tk_index i b : slab_map m !! i = Some b → 0 ≤ i < N ∧ b ∈ B;
  tk_unique i j b : slab_map m !! i = Some b → slab_map m !! j = Some b → i = j;
  tk_probe i b k : slab_map m !! i = Some b → 0 ≤ k < (i - hash_of b) mod N → is_Some (slab_map m !! probe (hash_of b) k);
  tk_dom i : is_Some (slab_table m !! i) ↔ is_Some (slab_map m !! i);
  tk_length i slab : slab_table m !! i = Some slab → length slab = Z.to_nat MMAP_NUM_CHUNKS;
  tk_count : free_slab_index m = Z.of_nat (size (slab_map m))
}.

Section table.
Context (B : gset Z) (HB : slab_bases B).

Lemma probe_inj h k k' : 0 ≤ k < N → 0 ≤ k' < N → probe h k = probe h k' → k = k'.
Proof.
  intros Hk Hk' E. unfold probe in E. assert ((h + k - (h + k')) mod N = 0) as Ed by (rewrite Zminus_mod, E, Z.sub_diag; done). replace (h + k - (h + k')) with (k - k') in Ed by lia.
  apply Z.mod_divide in Ed as [q Eq]; [|lia]. nia.
Qed.
(** Occupied positions in a row are at most as many as slabs. *)
Lemma occupied m h k : table_ok B m → 0 ≤ k ≤ N → (∀ k', 0 ≤ k' < k → is_Some (slab_map m !! probe h k')) → k ≤ Z.of_nat (size (slab_map m)).
Proof.
  intros HT Hk Ho. rewrite <-size_dom. set (l := probe h <$> seqZ 0 k). assert (NoDup l) as Hnd.
  { apply NoDup_fmap_2_strong; [|apply NoDup_seqZ]. intros x y Hx%elem_of_seqZ Hy%elem_of_seqZ. apply probe_inj; lia. }
  assert (list_to_set l ⊆ dom (slab_map m)) as Hs.
  { intros x Hx. apply elem_of_list_to_set, list_elem_of_fmap in Hx as (k' & -> & Hk'%elem_of_seqZ). apply elem_of_dom, Ho. lia. }
  apply subseteq_size in Hs. rewrite size_list_to_set in Hs by done. unfold l in Hs. rewrite length_fmap, length_seqZ in Hs. lia.
Qed.
Lemma slabs_used m : table_ok B m → (size (slab_map m) ≤ size B)%nat.
Proof.
  intros HT. set (l := (map_to_list (slab_map m)).*2). assert (NoDup l) as Hnd.
  { apply NoDup_fmap_2_strong; [|apply NoDup_map_to_list]. intros [i b] [j b'] Hi%elem_of_map_to_list Hj%elem_of_map_to_list E. cbn in E. subst b'. f_equal. by eapply (tk_unique _ _ HT). }
  assert (list_to_set l ⊆ B) as Hs.
  { intros x Hx. apply elem_of_list_to_set, list_elem_of_fmap in Hx as ([i b] & -> & Hi%elem_of_map_to_list). by apply (tk_index _ _ HT i). }
  apply subseteq_size in Hs. rewrite size_list_to_set in Hs by done. unfold l in Hs. by rewrite length_fmap, length_map_to_list in Hs.
Qed.
Lemma base_not_sentinel b : b ∈ B → b ≠ SENTINEL.
Proof. intros Hb. destruct HB as [_ H]. destruct (H b Hb) as [_ ?]. unfold SENTINEL. lia. Qed.
Lemma map_at m i : 0 ≤ i < N → slab_map_at m i = Val (default SENTINEL (slab_map m !! i)).
Proof. intros Hi. unfold slab_map_at. change SLAB_TABLE_SIZE with N. rewrite (proj2 (Z.leb_le 0 i)), (proj2 (Z.ltb_lt i N)) by lia. done. Qed.
Lemma table_for m i b : table_ok B m → slab_map m !! i = Some b → slab_table_for m i = Val i.
Proof. intros HT Hi. unfold slab_table_for. rewrite bool_decide_true; [done|]. apply (tk_dom _ _ HT). by exists b. Qed.
Lemma probe_range h k : 0 ≤ probe h k < N.
Proof. apply Z.mod_pos_bound. lia. Qed.
Lemma probe_index h i : 0 ≤ h < N → 0 ≤ i < N → probe h ((i - h) mod N) = i.
Proof. intros Hh Hi. unfold probe. rewrite Zplus_mod_idemp_r. replace (h + (i - h)) with i by lia. by apply Z.mod_small. Qed.

(** At the first free position the address is not in the table. *)
Lemma first_free m b k :
  table_ok B m → b ∈ B → 0 ≤ k → slab_map m !! probe (hash_of b) k = None → (∀ k', 0 ≤ k' < k → slab_map m !! probe (hash_of b) k' ≠ Some b) → ∀ i, slab_map m !! i ≠ Some b.
Proof.
  intros HT Hb Hk Hn Hne i Hi. destruct (proj2 HB b Hb) as [_ Hr]. destruct (slab_hash_ok b Hr) as [_ Hh]. destruct (tk_index _ _ HT i b Hi) as [Hir _]. pose proof (Z.mod_pos_bound (i - hash_of b) N) as Hm.
  set (k1 := (i - hash_of b) mod N) in *. pose proof (probe_index (hash_of b) i Hh Hir) as Ei. fold k1 in Ei. destruct (Z.lt_trichotomy k1 k) as [Hlt|[Heq|Hgt]].
  - apply (Hne k1); [lia|]. by rewrite Ei.
  - subst k. rewrite Ei in Hn. congruence.
  - destruct (tk_probe _ _ HT i b k Hi) as [x Hx]; [fold k1; lia|]. congruence.
Qed.
Lemma new_slab_table m b k :
  table_ok B m → b ∈ B → 0 ≤ k < N → slab_map m !! probe (hash_of b) k = None → (∀ k', 0 ≤ k' < k → ∃ x, slab_map m !! probe (hash_of b) k' = Some x ∧ x ≠ b) →
  table_ok B {| free_slab_index := free_slab_index m + 1; slab_table := <[probe (hash_of b) k := new_slab]> (slab_table m); slab_map := <[probe (hash_of b) k := b]> (slab_map m) |}.
Proof.
  intros HT Hb Hk Hn Hocc. set (i0 := probe (hash_of b) k) in *. assert (∀ i, slab_map m !! i ≠ Some b) as Hnew.
  { apply (first_free m b k HT Hb); [lia|done|]. intros k' Hk'. destruct (Hocc k' Hk') as (x & -> & ?). congruence. }
  destruct (proj2 HB b Hb) as [_ Hr]. destruct (slab_hash_ok b Hr) as [_ Hh]. split; cbn [slab_map slab_table free_slab_index].
  - intros i x. destruct (decide (i = i0)) as [-> |Hi]; [rewrite lookup_insert_eq; intros [= <-]; split; [apply probe_range|done]|]. rewrite lookup_insert_ne by done. apply (tk_index _ _ HT).
  - intros i j x. destruct (decide (i = i0)) as [-> |Hi], (decide (j = i0)) as [-> |Hj]; rewrite ?lookup_insert_eq, ?lookup_insert_ne by done; [done|..].
    + intros [= <-] Hx. by destruct (Hnew j).
    + intros Hx [= <-]. by destruct (Hnew i).
    + by apply (tk_unique _ _ HT).
  - intros i x k' Hx Hk'. destruct (decide (probe (hash_of x) k' = i0)) as [-> |Hp]; [rewrite lookup_insert_eq; by eexists|]. rewrite lookup_insert_ne by done.
    destruct (decide (i = i0)) as [-> |Hi]; [|rewrite lookup_insert_ne in Hx by done; by apply (tk_probe _ _ HT i)]. rewrite lookup_insert_eq in Hx. injection Hx as <-.
    unfold i0, probe in Hk'. rewrite Zminus_mod_idemp_l in Hk'. replace (hash_of b + k - hash_of b) with k in Hk' by lia. rewrite Z.mod_small in Hk' by lia.
    destruct (Hocc k') as (x & -> & _); [lia|]. by eexists.
  - intros i. destruct (decide (i = i0)) as [-> |Hi]; [rewrite !lookup_insert_eq; split; by eexists|]. rewrite !lookup_insert_ne by done. apply (tk_dom _ _ HT).
  - intros i slab. destruct (decide (i = i0)) as [-> |Hi]; [rewrite lookup_insert_eq; intros [= <-]; apply length_replicate|]. rewrite lookup_insert_ne by done. apply (tk_length _ _ HT).
  - rewrite map_size_insert_None by done. rewrite (tk_count _ _ HT). lia.
Qed.

Lemma next_probe h k : 0 ≤ h < N → (probe h k +u 1) mod N = probe h (k + 1) ∧ Z.land (probe h k +u 1) (N - 1) = probe h (k + 1).
Proof.
  intros Hh. pose proof (probe_range h k) as Hr. rewrite uadd_id by lia. change (N - 1) with (Z.ones 11). rewrite Z.land_ones by lia.
  unfold probe. rewrite Zplus_mod_idemp_l. split; f_equal; lia.
Qed.
Lemma probe_free m b k : table_ok B m → 0 ≤ k → (∀ k', 0 ≤ k' < k → is_Some (slab_map m !! probe (hash_of b) k')) → k ≤ N → k ≤ 2 ^ 10.
Proof.
  intros HT Hk Ho HkN. pose proof (occupied m (hash_of b) k HT (conj Hk HkN) Ho). pose proof (slabs_used m HT). destruct HB as [Hs _]. change MAX_SLABS with (2 ^ 10) in Hs. lia.
Qed.
Lemma get_loop_ok m b k fuel :
  table_ok B m → b ∈ B → 0 ≤ k ≤ 2 ^ 10 → 2 ^ 10 < k + Z.of_nat fuel → (∀ k', 0 ≤ k' < k → ∃ x, slab_map m !! probe (hash_of b) k' = Some x ∧ x ≠ b) →
  ∃ r, get_slab_loop fuel m b (probe (hash_of b) k) = Val r ∧ match r with Some i => slab_map m !! i = Some b | None => ∀ i, slab_map m !! i ≠ Some b end.
Proof.
  intros HT Hb. revert k. induction fuel as [|fuel IH]; intros k Hk Hf Hocc; [lia|]. cbn [get_slab_loop]. destruct (slab_hash_ok b (proj2 (proj2 HB b Hb))) as [_ Hh].
  rewrite map_at by apply probe_range. cbn [mbind res_bind]. destruct (slab_map m !! probe (hash_of b) k) as [x|] eqn:Ex; cbn [default from_option id].
  - destruct (Z.eqb_spec b x) as [<-|Hx]; [rewrite (table_for m _ b HT Ex); cbn [mbind res_bind]; eexists; split; [reflexivity|exact Ex]|]. destruct (Z.eqb_spec x SENTINEL) as [-> |_]; [by destruct (base_not_sentinel SENTINEL); [apply (tk_index _ _ HT _ _ Ex)|]|].
    change SLAB_TABLE_SIZE with N. rewrite (proj2 (next_probe (hash_of b) k Hh)). assert (∀ k', 0 ≤ k' < k + 1 → ∃ x, slab_map m !! probe (hash_of b) k' = Some x ∧ x ≠ b) as Hocc'.
    { intros k' Hk'. destruct (Z.eq_dec k' k) as [-> |]; [by exists x|apply Hocc; lia]. }
    apply IH; [|lia|done]. split; [lia|]. apply (probe_free m b); [done|lia| |lia]. intros k' Hk'. destruct (Hocc' k' Hk') as (y & -> & _). by eexists.
  - destruct (Z.eqb_spec b SENTINEL) as [-> |_]; [by destruct (base_not_sentinel SENTINEL)|]. rewrite Z.eqb_refl. exists None. split; [done|].
    apply (first_free m b k); try done; [lia|]. intros k' Hk'. destruct (Hocc k' Hk') as (y & -> & ?). congruence.
Qed.
Lemma allocate_loop_ok m b k fuel :
  table_ok B m → b ∈ B → 0 ≤ k ≤ 2 ^ 10 → 2 ^ 10 < k + Z.of_nat fuel → (∀ k', 0 ≤ k' < k → ∃ x, slab_map m !! probe (hash_of b) k' = Some x ∧ x ≠ b) →
  ∃ m' i, allocate_slab_loop fuel m b (hash_of b) (probe (hash_of b) k) = Val (m', i) ∧ table_ok B m' ∧ slab_map m' !! i = Some b ∧
    (m' = m ∨ (∀ j, slab_map m !! j ≠ Some b) ∧ slab_map m !! i = None ∧ slab_map m' = <[i := b]> (slab_map m) ∧ slab_table m' = <[i := new_slab]> (slab_table m)).
Proof.
  intros HT Hb. revert k. induction fuel as [|fuel IH]; intros k Hk Hf Hocc; [lia|]. cbn [allocate_slab_loop]. destruct (slab_hash_ok b (proj2 (proj2 HB b Hb))) as [_ Hh].
  rewrite map_at by apply probe_range. cbn [mbind res_bind]. destruct (slab_map m !! probe (hash_of b) k) as [x|] eqn:Ex; cbn [default from_option id].
  - destruct (Z.eqb_spec b x) as [<-|Hx]; [rewrite (table_for m _ b HT Ex); cbn; eexists m, _; split; [done|]; by split_and!; [..|left]|].
    destruct (Z.eqb_spec x SENTINEL) as [-> |_]; [by destruct (base_not_sentinel SENTINEL); [apply (tk_index _ _ HT _ _ Ex)|]|].
    change SLAB_TABLE_SIZE with N. rewrite (proj1 (next_probe (hash_of b) k Hh)). assert (∀ k', 0 ≤ k' < k + 1 → ∃ x, slab_map m !! probe (hash_of b) k' = Some x ∧ x ≠ b) as Hocc'.
    { intros k' Hk'. destruct (Z.eq_dec k' k) as [-> |]; [by exists x|apply Hocc; lia]. }
    assert (k + 1 ≤ 2 ^ 10) as Hk1 by (apply (probe_free m b); [done|lia| |lia]; intros k' Hk'; destruct (Hocc' k' Hk') as (y & -> & _); by eexists).
    destruct (Z.eqb_spec (probe (hash_of b) (k + 1)) (hash_of b)) as [E|_]; [|cbn; apply IH; [lia|lia|done]].
    assert (k + 1 = 0); [|lia]. apply (probe_inj (hash_of b)); [lia|lia|]. rewrite E. unfold probe. rewrite Z.add_0_r. symmetry. by apply Z.mod_small.
  - destruct (Z.eqb_spec b SENTINEL) as [-> |_]; [by destruct (base_not_sentinel SENTINEL)|]. rewrite Z.eqb_refl. assert (∀ j, slab_map m !! j ≠ Some b) as Hnew.
    { apply (first_free m b k); try done; [lia|]. intros k' Hk'. destruct (Hocc k' Hk') as (y & -> & ?). congruence. }
    assert (free_slab_index m < MAX_SLABS) as Hfree.
    { rewrite (tk_count _ _ HT). destruct HB as [Hs _]. eapply Z.lt_le_trans; [|exact Hs]. apply inj_lt.
      pose proof (slabs_used {| free_slab_index := free_slab_index m + 1; slab_table := <[probe (hash_of b) k := new_slab]> (slab_table m); slab_map := <[probe (hash_of b) k := b]> (slab_map m) |}) as Hu.
      cbn [slab_map] in Hu. rewrite map_size_insert_None in Hu by done. apply Hu, new_slab_table; try done; lia. }
    unfold commit_free_slab. rewrite (proj2 (Z.ltb_lt _ _) Hfree). assert (slab_table m !! probe (hash_of b) k = None) as Et.
    { apply eq_None_not_Some. intros [y Hy]%(tk_dom _ _ HT). congruence. }
    rewrite bool_decide_true by done. cbn [rust_assert mbind res_bind free_slab_index slab_table slab_map]. set (m' := {| free_slab_index := _ |}).
    assert (table_ok B m') as HT' by (apply new_slab_table; try done; lia). assert (slab_map m' !! probe (hash_of b) k = Some b) as Eb by apply lookup_insert_eq.
    rewrite (table_for m' _ b HT' Eb). cbn [mbind res_bind]. exists m', (probe (hash_of b) k). split; [done|]. split_and!; try done. right. by split_and!.
Qed.

(** ** Slabs and the specification *)

Record mapper_rel (m : FragmentedMapper) (A : Z → MapState) : Prop := {
  mr_table : table_ok B m;
  mr_states i b slab j : slab_map m !! i = Some b → slab_table m !! i = Some slab → 0 ≤ j < 2 ^ 8 → slab !! Z.to_nat j = Some (A (b `div` CHUNK + j));
  mr_absent c : 0 ≤ c → (∀ i, slab_map m !! i ≠ Some (c `div` 2 ^ 8 * SLAB)) → A c = Unmapped
}.
Lemma mapper_rel_ext m A A' : mapper_rel m A → (∀ c, A' c = A c) → mapper_rel m A'.
Proof. intros [HT Hs Ha] E. split; [done|..]; intros; rewrite E; eauto. Qed.
Lemma base_chunk b j : (SLAB | b) → 0 ≤ j < 2 ^ 8 → (b `div` CHUNK + j) `div` 2 ^ 8 * SLAB = b.
Proof.
  intros [n ->] Hj. replace (n * SLAB) with (n * 2 ^ 8 * CHUNK) at 1 by lia. rewrite Z.div_mul by lia. rewrite Z.add_comm, Z.div_add by lia. rewrite Z.div_small by lia. lia.
Qed.
Lemma get_or_allocate_ok tf m A addr :
  mapper_rel m A → slab_base addr ∈ B → 0 ≤ addr < 2 ^ 63 → (2 ^ 10 < Z.of_nat tf) →
  ∃ m' i slab, get_or_allocate_slab_table tf m addr = Val (m', i) ∧ mapper_rel m' A ∧ slab_map m' !! i = Some (slab_base addr) ∧ slab_table m' !! i = Some slab ∧ slab_map m ⊆ slab_map m'.
Proof.
  intros HR Hb Ha Hf. unfold get_or_allocate_slab_table. rewrite slab_align_eq by lia. destruct (Z.eqb_spec addr SENTINEL) as [-> |_]; [unfold SENTINEL in Ha; lia|]. cbn [negb rust_assert mbind res_bind].
  destruct (proj2 HB _ Hb) as [Hd Hr]. destruct (slab_hash_ok _ Hr) as [-> Hh]. cbn [mbind res_bind]. pose proof (mr_table _ _ HR) as HT.
  destruct (allocate_loop_ok m (slab_base addr) 0 tf HT Hb) as (m' & i & E & HT' & Hi & Hc); [lia|lia|intros; lia|]. unfold probe in E. rewrite Z.add_0_r, Z.mod_small in E by lia.
  destruct (proj2 (tk_dom _ _ HT' i)) as [slab Hs]; [by eexists|]. exists m', i, slab. split; [done|]. destruct Hc as [-> |(Hnew & Hni & Em & Et)]; [by split_and!|].
  split; [|split_and!; try done; rewrite Em; by apply insert_subseteq]. split; [done|..]; rewrite ?Em, ?Et.
  - intros i' b slab' j. destruct (decide (i' = i)) as [-> |Hne]; [|rewrite !lookup_insert_ne by done; apply (mr_states _ _ HR)]. rewrite !lookup_insert_eq. intros [= <-] [= <-] Hj.
    rewrite (mr_absent _ _ HR).
    + unfold new_slab. apply lookup_replicate_2. change MMAP_NUM_CHUNKS with (2 ^ 11). lia.
    + pose proof (Z.div_pos (slab_base addr) CHUNK). lia.
    + rewrite base_chunk by done. done.
  - intros c Hc Hn. apply (mr_absent _ _ HR); [done|]. intros j Hj. destruct (decide (j = i)) as [-> |Hne]; [congruence|]. apply (Hn j). by rewrite lookup_insert_ne.
Qed.

(** ** One slab *)

(** The states that the slab at [b] has. *)
Definition slab_rel (b : Z) (slab : list MapState) (A : Z → MapState) : Prop :=
  length slab = Z.to_nat MMAP_NUM_CHUNKS ∧ ∀ j, 0 ≤ j < 2 ^ 8 → slab !! Z.to_nat j = Some (A (b `div` CHUNK + j)).
Lemma chunk_address b j : (SLAB | b) → 0 ≤ b < 2 ^ 63 → 0 ≤ j < 2 ^ 8 → chunk_index_to_address b j = (b `div` CHUNK + j) * CHUNK.
Proof.
  intros [n ->] Hb Hj. unfold chunk_index_to_address. change LOG_MMAP_CHUNK_BYTES with 22. rewrite ushl_id by lia. rewrite uadd_id by lia.
  replace (n * SLAB) with (n * 2 ^ 8 * CHUNK) by lia. rewrite Z.div_mul by lia. lia.
Qed.
Lemma slab_rel_insert b slab A j s :
  slab_rel b slab A → 0 ≤ j < 2 ^ 8 → slab_rel b (<[Z.to_nat j := s]> slab) (<[b `div` CHUNK + j := s]> A).
Proof.
  intros [Hl Hs] Hj. split; [by rewrite length_insert|]. intros j' Hj'. destruct (decide (j' = j)) as [-> |Hne].
  - rewrite list_lookup_insert_eq by (rewrite Hl; change MMAP_NUM_CHUNKS with (2 ^ 11); lia). by rewrite fn_lookup_insert.
  - rewrite list_lookup_insert_ne by lia. rewrite fn_lookup_insert_ne by lia. by apply Hs.
Qed.
Lemma chunk_loop_ok f n b j slab A :
  (SLAB | b) → 0 ≤ b < 2 ^ 63 → 0 ≤ j → j + Z.of_nat n ≤ 2 ^ 8 → slab_rel b slab A →
  refines (λ x y, x.1 = y.1 ∧ slab_rel b x.2 y.2 ∧ ∀ c, c < b `div` CHUNK ∨ b `div` CHUNK + 2 ^ 8 ≤ c → y.2 c = A c)
    (chunk_loop f n j b slab) (run_chunks f (seqZ (b `div` CHUNK + j) (Z.of_nat n)) A).
Proof.
  intros Hd Hb. revert j slab A. induction n as [|n IH]; intros j slab A Hj Hn HS; [cbn; by eexists|]. rewrite seqZ_cons by lia. cbn [chunk_loop run_chunks].
  rewrite (proj2 HS j) by lia. rewrite chunk_address by (done || lia). destruct (f _ _) as [[[] s]| |]; cbn [mbind res_bind]; [| |done..].
  - replace (Z.succ (b `div` CHUNK + j)) with (b `div` CHUNK + (j + 1)) by lia. replace (Z.pred (Z.of_nat (S n))) with (Z.of_nat n) by lia.
    specialize (IH (j + 1) (<[Z.to_nat j := s]> slab) (<[b `div` CHUNK + j := s]> A)). destruct (run_chunks f (seqZ _ _) _) as [[ok A']| |]; cbn in IH |- *.
    + destruct IH as (x & E & H1 & H2 & H3); [lia|lia|by apply slab_rel_insert; [|lia]|]. exists x. split; [done|]. split_and!; [done..|]. intros c Hc. rewrite H3 by done. by rewrite fn_lookup_insert_ne by lia.
    + apply IH; [lia|lia|by apply slab_rel_insert; [|lia]].
    + apply IH; [lia|lia|by apply slab_rel_insert; [|lia]].
  - cbn. eexists. split; [done|]. split_and!; [done|by apply slab_rel_insert; [|lia]|]. intros c Hc. cbn [snd]. by rewrite fn_lookup_insert_ne by lia.
Qed.
Lemma slab_rel_of m A i b slab : mapper_rel m A → slab_map m !! i = Some b → slab_table m !! i = Some slab → slab_rel b slab A.
Proof. intros HR Hi Hs. split; [by apply (tk_length _ _ (mr_table _ _ HR) i)|]. intros j Hj. by apply (mr_states _ _ HR i). Qed.
Lemma set_slab_rel m A A' i b slab' :
  mapper_rel m A → slab_map m !! i = Some b → slab_rel b slab' A' → (∀ c, c < b `div` CHUNK ∨ b `div` CHUNK + 2 ^ 8 ≤ c → A' c = A c) → mapper_rel (set_slab m i slab') A'.
Proof.
  intros HR Hi HS Ho. pose proof (mr_table _ _ HR) as HT. assert (∀ b', (SLAB | b') → b' ≠ b → ∀ j, 0 ≤ j < 2 ^ 8 → A' (b' `div` CHUNK + j) = A (b' `div` CHUNK + j)) as Hother.
  { intros b' [n' ->] Hne j Hj. destruct (tk_index _ _ HT i b Hi) as [_ Hb]. destruct (proj2 HB b Hb) as [[n ->] _]. apply Ho.
    replace (n' * SLAB) with (n' * 2 ^ 8 * CHUNK) by lia. replace (n * SLAB) with (n * 2 ^ 8 * CHUNK) by lia. rewrite !Z.div_mul by lia. assert (n' ≠ n) by congruence. lia. }
  split; cbn [set_slab slab_map slab_table].
  - destruct HT. split; cbn [set_slab slab_map slab_table free_slab_index]; try done.
    + intros j. destruct (decide (j = i)) as [-> |]; [rewrite lookup_insert_eq; split; by eexists|by rewrite lookup_insert_ne].
    + intros j slab. destruct (decide (j = i)) as [-> |]; [rewrite lookup_insert_eq; intros [= <-]; apply HS|rewrite lookup_insert_ne by done; apply tk_length0].
  - intros i' b' slab j Hi' Hs Hj. destruct (decide (i' = i)) as [-> |Hne].
    + rewrite lookup_insert_eq in Hs. injection Hs as <-. assert (b' = b) as -> by congruence. by apply HS.
    + rewrite lookup_insert_ne in Hs by done. rewrite (mr_states _ _ HR i' b' slab j Hi' Hs Hj). f_equal. symmetry. apply Hother; [|intros ->; by destruct Hne; eapply (tk_unique _ _ HT)|done].
      apply HB. by apply (tk_index _ _ HT i').
  - intros c Hc Hn. assert (c `div` 2 ^ 8 * SLAB ≠ b) as Hne by (intros E; apply (Hn i); by rewrite E). pose proof (Z.div_mod c (2 ^ 8)). pose proof (Z.mod_pos_bound c (2 ^ 8)).
    rewrite <-(mr_absent _ _ HR c Hc Hn).
    assert ((c `div` 2 ^ 8 * SLAB) `div` CHUNK = c `div` 2 ^ 8 * 2 ^ 8) as Ed by (replace (c `div` 2 ^ 8 * SLAB) with (c `div` 2 ^ 8 * 2 ^ 8 * CHUNK) by lia; by rewrite Z.div_mul by lia).
    pose proof (Hother (c `div` 2 ^ 8 * SLAB) (ex_intro _ _ eq_refl) Hne (c mod 2 ^ 8)) as Hx. rewrite Ed in Hx.
    replace (c `div` 2 ^ 8 * 2 ^ 8 + c mod 2 ^ 8) with c in Hx by lia. apply Hx. lia.
Qed.

(** ** Ranges *)

Definition in_slabs (start end_ : Z) : Prop := 0 ≤ start ∧ end_ ≤ 2 ^ 63 ∧ ∀ a, start ≤ a < end_ → slab_base a ∈ B.
Lemma slab_high_next start end_ : 0 ≤ start < end_ → end_ ≤ 2 ^ 63 →
  start < slab_high start end_ ≤ end_ ∧ (slab_high start end_ < end_ → slab_high start end_ `div` SLAB = start `div` SLAB + 1).
Proof.
  intros Hs He. rewrite slab_high_eq by done. pose proof (slab_base_bounds start). split; [lia|]. intros Hlt. rewrite Z.min_l by lia. unfold slab_base.
  replace (start `div` SLAB * SLAB + SLAB) with ((start `div` SLAB + 1) * SLAB) by lia. by rewrite Z.div_mul by lia.
Qed.
Lemma slab_loop_ok f tf fuel m A start end_ :
  mapper_rel m A → in_slabs start end_ → 2 ^ 10 < Z.of_nat tf → (start < end_ → end_ `div` SLAB - start `div` SLAB < Z.of_nat fuel) →
  refines (λ x y, x.1 = y.1 ∧ mapper_rel x.2 y.2) (slab_loop f tf fuel m start end_) (run_chunks f (chunks start end_) A).
Proof.
  intros HR HS Htf. revert m A start HR HS. induction fuel as [|fuel IH]; intros m A start HR HS Hf; destruct HS as (H0 & He & HS).
  { unfold slab_loop, chunks. destruct (Z.ltb_spec start end_); [|by eexists]. specialize (Hf H). pose proof (Z.div_le_mono start end_ SLAB). lia. }
  cbn [slab_loop]. destruct (Z.ltb_spec start end_) as [Hlt|Hge]; [|unfold chunks; rewrite (proj2 (Z.ltb_ge start end_)) by done; by eexists].
  pose proof (slab_chunks_ok start end_ (conj H0 Hlt) He) as HC. destruct (slab_chunks start end_) as [sc ec]. destruct HC as (Hsc & Hec & -> & Esc). rewrite run_chunks_app.
  destruct (get_or_allocate_ok tf m A start HR) as (m' & i & slab & -> & HR' & Hi & Hs & _); [apply HS; lia|lia|done|]. cbn [mbind res_bind]. rewrite Hs. cbn [unwrap mbind res_bind].
  rewrite slab_align_eq by lia. destruct (proj2 HB (slab_base start)) as [Hd Hb]; [apply HS; lia|].
  pose proof (chunk_loop_ok f (Z.to_nat (ec - sc)) (slab_base start) sc slab A Hd Hb) as HCL. rewrite Z2Nat.id in HCL by lia.
  eapply refines_bind; [apply HCL; [lia|lia|by eapply slab_rel_of]|]. intros [ok slab'] [ok' A'] (E & HS' & Ho). cbn in E, HS', Ho. subst ok'.
  pose proof (set_slab_rel m' A A' i _ slab' HR' Hi HS' Ho) as HR2. destruct ok; [|by eexists]. destruct (slab_high_next start end_ (conj H0 Hlt) He) as [Hh Hn].
  apply IH; [done|split_and!; [lia|done|intros a Ha; apply HS; lia]|]. intros Hlt'. rewrite Hn by done. specialize (Hf Hlt). lia.
Qed.
Lemma is_mapped_ok tf m A addr : mapper_rel m A → slab_base addr ∈ B → 0 ≤ addr < 2 ^ 63 → 2 ^ 10 < Z.of_nat tf →
  is_mapped_address tf m addr = Val (bool_decide (A (addr `div` CHUNK) = Mapped)).
Proof.
  intros HR Hb Ha Htf. unfold is_mapped_address, get_slab_table. rewrite slab_align_eq by lia. destruct (Z.eqb_spec addr SENTINEL) as [-> |_]; [unfold SENTINEL in Ha; lia|].
  destruct (proj2 HB _ Hb) as [Hd Hr]. destruct (slab_hash_ok _ Hr) as [-> Hh]. cbn [mbind res_bind]. pose proof (mr_table _ _ HR) as HT. pose proof (slab_base_bounds addr) as Hbb.
  destruct (get_loop_ok m (slab_base addr) 0 tf HT Hb) as (r & E & Hi); [lia|lia|intros; lia|]. unfold probe in E. rewrite Z.add_0_r, Z.mod_small in E by lia. rewrite E. cbn [mbind res_bind].
  destruct (slab_base_div addr) as [_ Ed]. destruct r as [i|].
  - destruct (proj2 (tk_dom _ _ HT i)) as [slab Hs]; [by eexists|]. rewrite Hs. cbn [unwrap mbind res_bind]. rewrite chunk_index_eq by (done || lia).
    pose proof (slab_chunk addr) as Esc. pose proof (Z.div_mod (addr `div` CHUNK) (2 ^ 8)). pose proof (Z.mod_pos_bound (addr `div` CHUNK) (2 ^ 8)).
    rewrite (mr_states _ _ HR i _ slab _ Hi Hs) by lia. cbn [unwrap mbind res_bind].
    by replace (slab_base addr `div` CHUNK + (addr `div` CHUNK - slab_base addr `div` CHUNK)) with (addr `div` CHUNK) by lia.
  - rewrite (mr_absent _ _ HR); [done|apply Z.div_pos; lia|]. intros i. rewrite <-slab_chunk. apply Hi.
Qed.

(** ** Quarantine *)

(** Quarantine asks the operating system once for a run of unmapped chunks: the first chunk of
    the run of [c], at most [k] chunks before it, and the end of the run. *)
Fixpoint run_first (A : Z → MapState) (k : nat) (c : Z) : Z :=
  match k with O => c | S k => if bool_decide (A (c - 1) = Unmapped) then run_first A k (c - 1) else c end.
Fixpoint run_end (A : Z → MapState) (k : nat) (c : Z) : Z :=
  match k with O => c | S k => if bool_decide (A c = Unmapped) then run_end A k (c + 1) else c end.
Lemma run_first_eq A x c k : x ≤ c → c - x ≤ Z.of_nat k → (∀ z, x ≤ z < c → A z = Unmapped) → c - x = Z.of_nat k ∨ A (x - 1) ≠ Unmapped → run_first A k c = x.
Proof.
  revert c. induction k as [|k IH]; intros c Hx Hk Hin Hout; [cbn; lia|]. cbn [run_first]. destruct (decide (c = x)) as [-> |Hne].
  - rewrite bool_decide_false; [done|]. by destruct Hout as [?|?]; [lia|].
  - rewrite bool_decide_true by (apply Hin; lia). apply IH; [lia|lia|intros; apply Hin; lia|]. destruct Hout as [?|?]; [left; lia|by right].
Qed.
Lemma run_end_eq A y c k : c ≤ y → y - c ≤ Z.of_nat k → (∀ z, c ≤ z < y → A z = Unmapped) → y - c = Z.of_nat k ∨ A y ≠ Unmapped → run_end A k c = y.
Proof.
  revert c. induction k as [|k IH]; intros c Hx Hk Hin Hout; [cbn; lia|]. cbn [run_end]. destruct (decide (c = y)) as [-> |Hne].
  - rewrite bool_decide_false; [done|]. by destruct Hout as [?|?]; [lia|].
  - rewrite bool_decide_true by (apply Hin; lia). apply IH; [lia|lia|intros; apply Hin; lia|]. destruct Hout as [?|?]; [left; lia|by right].
Qed.

(** The chunks from [lo] to [hi] one after the other, with the states [A] at first: an unmapped
    chunk is quarantined if its whole run can be reserved. *)
Definition quarantine_chunk (os : os_call → bool) (A : Z → MapState) (lo hi : Z) (state : MapState) (a : Z) : res (bool * MapState) :=
  match state with
  | Unmapped =>
    let c := a `div` CHUNK in
    let x := run_first A (Z.to_nat (c - lo)) c in
    let y := run_end A (Z.to_nat (hi - c)) c in
    let ok := os (mmap_noreserve (x * CHUNK) ((y - x) * CHUNK)) in
    Val (ok, if ok then Quarantined else Unmapped)
  | Quarantined => Val (true, Quarantined)
  | Mapped => Val (true, Mapped)
  | Protected => Panic
  end.

Section quarantine.
Context (os : os_call → bool).

(** The groups are the states; they are not empty, and neighbours differ. *)
Definition ungroup (groups : list (MapState * Z)) : list MapState := groups ≫= λ g, replicate (Z.to_nat g.2) g.1.
Fixpoint alternating (prev : option MapState) (groups : list (MapState * Z)) : Prop :=
  match groups with [] => True | (key, n) :: groups => prev ≠ Some key ∧ 0 < n ∧ alternating (Some key) groups end.
Lemma group_from_ok prev key size states : 0 < size → prev ≠ Some key →
  ungroup (group_from key size states) = replicate (Z.to_nat size) key ++ states ∧ alternating prev (group_from key size states).
Proof.
  revert prev key size. induction states as [|s states IH]; intros prev key size Hs Hp; cbn [group_from]; [done|]. case_bool_decide as E.
  - subst s. destruct (IH prev key (size + 1)) as [-> ?]; [lia|done|]. split; [|done]. rewrite Z2Nat.inj_add, replicate_add by lia. by rewrite <-app_assoc.
  - destruct (IH (Some key) s 1) as [Eg ?]; [lia|congruence|]. split; [|done]. unfold ungroup in *. rewrite bind_cons, Eg. done.
Qed.

Section runs.
Context (A : Z → MapState) (lo hi : Z) (Hlo : 0 ≤ lo) (Hhi : hi * CHUNK ≤ 2 ^ 63).
Abbreviation F := (quarantine_chunk os A lo hi).

(** The run of the chunks of a group. *)
Lemma group_run x y c : lo ≤ x ≤ c → c < y ≤ hi → (∀ z, x ≤ z < y → A z = Unmapped) → x = lo ∨ A (x - 1) ≠ Unmapped → y = hi ∨ A y ≠ Unmapped →
  F Unmapped (c * CHUNK) = let ok := os (mmap_noreserve (x * CHUNK) ((y - x) * CHUNK)) in Val (ok, if ok then Quarantined else Unmapped).
Proof.
  intros Hx Hy Hin H1 H2. unfold quarantine_chunk. rewrite Z.div_mul by lia. rewrite (run_first_eq A x), (run_end_eq A y); [done|lia|lia|intros; apply Hin; lia| |lia|lia|intros; apply Hin; lia|].
  - destruct H2; [left; lia|by right].
  - destruct H1; [left; lia|by right].
Qed.
Lemma bulk_groups_ok groups prev i (A1 : Z → MapState) :
  0 ≤ i ≤ hi - lo → alternating prev groups → ungroup groups = A <$> seqZ (lo + i) (hi - lo - i) → i = 0 ∨ prev = Some (A (lo + i - 1)) →
  (∀ c, lo + i ≤ c < hi → A1 c = A c) →
  bulk_groups os groups (lo * CHUNK) i = ('(ok, A') ← run_chunks F (seqZ (lo + i) (hi - lo - i)) A1; Val (ok, A' <$> seqZ (lo + i) (hi - lo - i))).
Proof.
  revert prev i A1. induction groups as [|[key n] groups IH]; intros prev i A1 Hi Halt Hu Hprev HA1.
  { assert (seqZ (lo + i) (hi - lo - i) = []) as ->; [|done]. apply length_zero_iff_nil. rewrite <-(length_fmap A), <-Hu. done. }
  destruct Halt as (Hp & Hn & Halt). unfold ungroup in Hu. rewrite bind_cons in Hu. fold (ungroup groups) in Hu. cbn [fst snd] in Hu.
  assert (n ≤ hi - lo - i) as Hle. { apply (f_equal length) in Hu. rewrite length_app, length_replicate, length_fmap, length_seqZ in Hu. lia. }
  replace (hi - lo - i) with (n + (hi - lo - (i + n))) in Hu |- * by lia. rewrite seqZ_app in Hu |- * by lia. replace (lo + i + n) with (lo + (i + n)) in Hu |- * by lia.
  rewrite fmap_app in Hu. apply app_inj_1 in Hu as [Hg Hu]; [|by rewrite length_replicate, length_fmap, length_seqZ].
  assert (∀ c, lo + i ≤ c < lo + (i + n) → A c = key) as Hkey.
  { intros c Hc. assert (A c ∈ replicate (Z.to_nat n) key) as [? _]%elem_of_replicate; [|done]. rewrite Hg. apply list_elem_of_fmap. exists c. split; [done|]. apply elem_of_seqZ. lia. }
  assert (i + n = hi - lo ∨ A (lo + (i + n)) ≠ key) as Hnext.
  { destruct groups as [|[key' n'] groups]; [left|right].
    - apply (f_equal length) in Hu. rewrite length_fmap, length_seqZ in Hu. cbn in Hu. lia.
    - destruct Halt as (Hne & Hn' & _). assert (A (lo + (i + n)) = key') as ->; [|congruence].
      apply (f_equal head) in Hu. unfold ungroup in Hu. rewrite bind_cons in Hu. cbn [fst snd] in Hu. destruct (Z.to_nat n') as [|k] eqn:Ek; [lia|]. cbn [replicate app head] in Hu.
      destruct (Z.to_nat (hi - lo - (i + n))) as [|j] eqn:Ej; unfold seqZ in Hu; rewrite Ej in Hu; cbn in Hu; [done|]. injection Hu as Hu. rewrite Hu. f_equal. }
  assert (∀ s, key ≠ Protected → (∀ c, lo + i ≤ c < lo + (i + n) → F key (c * CHUNK) = Val (true, s)) →
    ('(ok, states) ← bulk_groups os groups (lo * CHUNK) (i + n); Val (ok, replicate (Z.to_nat n) s ++ states)) =
    ('(ok, A') ← run_chunks F (seqZ (lo + i) n ++ seqZ (lo + (i + n)) (hi - lo - (i + n))) A1; Val (ok, A' <$> seqZ (lo + i) n ++ seqZ (lo + (i + n)) (hi - lo - (i + n))))) as Hok.
  { intros s _ HF. rewrite run_chunks_app. destruct (run_chunks_all F (seqZ (lo + i) n) A1 s) as (A2 & -> & HA2); [apply NoDup_seqZ|intros c Hc%elem_of_seqZ; rewrite HA1, Hkey by lia; apply HF; lia|].
    cbn [mbind res_bind]. rewrite (IH (Some key) (i + n) A2); [|lia|done|done|right; f_equal; symmetry; apply Hkey; lia|].
    - destruct (run_chunks F (seqZ (lo + (i + n)) _) A2) as [[ok A3]| |] eqn:E3; cbn [mbind res_bind]; [|done..]. do 2 f_equal. rewrite fmap_app. f_equal.
      apply list_eq. intros j. rewrite list_lookup_fmap. destruct (decide (Z.of_nat j < n)) as [Hj|Hj].
      + rewrite lookup_replicate_2, lookup_seqZ_lt by lia. cbn. f_equal. rewrite (run_chunks_other _ _ _ _ _ _ E3) by (rewrite elem_of_seqZ; lia). rewrite HA2, decide_True by (rewrite elem_of_seqZ; lia). done.
      + rewrite lookup_seqZ_ge by lia. apply lookup_replicate_None. lia.
    - intros c Hc. rewrite HA2, decide_False by (rewrite elem_of_seqZ; lia). apply HA1. lia. }
  assert (∀ j, 0 ≤ j ≤ hi - lo → lo * CHUNK +u (MMAP_CHUNK_BYTES *u j) = (lo + j) * CHUNK) as Haddr.
  { intros j Hj. change MMAP_CHUNK_BYTES with CHUNK. unfold umul. rewrite uwrap_id, uadd_id by lia. lia. }
  cbn [bulk_groups]. rewrite !Haddr by lia. destruct key; [|by apply Hok..|].
  - rewrite usub_id by lia. replace ((lo + (i + n)) * CHUNK - (lo + i) * CHUNK) with ((lo + (i + n) - (lo + i)) * CHUNK) by lia.
    assert (∀ c, lo + i ≤ c < lo + (i + n) → F Unmapped (c * CHUNK) = let ok := os (mmap_noreserve ((lo + i) * CHUNK) ((lo + (i + n) - (lo + i)) * CHUNK)) in Val (ok, if ok then Quarantined else Unmapped)) as HF.
    { intros c Hc. apply group_run; [lia|lia|intros; apply Hkey; lia|destruct Hprev as [-> | ->]; [left; lia|right; congruence]|destruct Hnext; [left; lia|by right]]. }
    destruct (os _) eqn:Eos; cbn zeta in HF; [by apply Hok|].
    assert (run_chunks F (seqZ (lo + i) n ++ seqZ (lo + (i + n)) (hi - lo - (i + n))) A1 = Val (false, <[lo + i := Unmapped]> A1)) as ->.
    { rewrite (seqZ_cons (lo + i) n) by lia. cbn [app run_chunks]. rewrite HA1, Hkey by lia. by rewrite HF by lia. }
    cbn [mbind res_bind]. fold (ungroup groups). rewrite Hg, Hu, <-fmap_app. do 2 f_equal. apply list_fmap_ext. intros j c Hc%list_elem_of_lookup_2.
    assert (lo + i ≤ c < hi) by (apply elem_of_app in Hc as [Hc%elem_of_seqZ|Hc%elem_of_seqZ]; lia). destruct (decide (c = lo + i)) as [-> |]; [rewrite fn_lookup_insert; apply Hkey; lia|].
    rewrite fn_lookup_insert_ne by done. symmetry. by apply HA1.
  - rewrite (seqZ_cons (lo + i) n) by lia. cbn [app run_chunks]. by rewrite HA1, Hkey by lia.
Qed.
(** Changing the states in bulk is changing them one by one, with one request for each run. *)
Lemma bulk_ok : lo ≤ hi → bulk_transition_to_quarantined os (A <$> seqZ lo (hi - lo)) (lo * CHUNK) =
  ('(ok, A') ← run_chunks F (seqZ lo (hi - lo)) A; Val (ok, A' <$> seqZ lo (hi - lo))).
Proof.
  intros Hle. unfold bulk_transition_to_quarantined. pose proof (bulk_groups_ok (revisitable_group_by (A <$> seqZ lo (hi - lo))) None 0 A) as H. rewrite !Z.add_0_r, !Z.sub_0_r in H. apply H; [lia| | |by left|done];
    unfold revisitable_group_by; destruct (A <$> seqZ lo (hi - lo)) as [|s states]; try done; by apply (group_from_ok None s 1 states).
Qed.
End runs.

(** [A] with new states for the chunks of [l]. *)
Fixpoint with_states (A : Z → MapState) (l : list Z) (states : list MapState) : Z → MapState :=
  match l, states with
  | c :: l, s :: states => with_states (<[c := s]> A) l states
  | _, _ => A
  end.
Lemma with_states_other A l states c : c ∉ l → with_states A l states c = A c.
Proof.
  revert A states. induction l as [|x l IH]; intros A [|s states] Hc; try done. cbn [with_states]. apply not_elem_of_cons in Hc as [? ?]. rewrite IH by done. by apply fn_lookup_insert_ne.
Qed.
Lemma with_states_at A l states i c s : NoDup l → l !! i = Some c → states !! i = Some s → with_states A l states c = s.
Proof.
  revert A states i. induction l as [|x l IH]; intros A [|y states] i Hnd Hi Hs; try done. apply NoDup_cons in Hnd as [Hx Hnd]. cbn [with_states]. destruct i as [|i]; cbn in Hi, Hs; [|by eapply IH].
  injection Hi as ->. injection Hs as ->. rewrite with_states_other by done. apply fn_lookup_insert.
Qed.
Lemma with_states_app A l1 l2 s1 s2 : length l1 = length s1 → with_states A (l1 ++ l2) (s1 ++ s2) = with_states (with_states A l1 s1) l2 s2.
Proof. revert A s1. induction l1 as [|c l1 IH]; intros A [|x s1] Hl; try done. cbn [app with_states]. apply IH. by injection Hl. Qed.
Lemma with_states_map A A' l c : NoDup l → (∀ c, c ∉ l → A' c = A c) → with_states A l (A' <$> l) c = A' c.
Proof.
  intros Hnd Hout. destruct (decide (c ∈ l)) as [[i Hi]%list_elem_of_lookup_1|Hc]; [|rewrite with_states_other by done; symmetry; by apply Hout].
  eapply with_states_at; [done|done|]. by rewrite list_lookup_fmap, Hi.
Qed.

(** The slices of a range. *)
Definition slice_chunks (m : FragmentedMapper) (s : Z * Z * Z) : list Z :=
  let '(i, sc, ec) := s in seqZ (default 0 (slab_map m !! i) `div` CHUNK + sc) (ec - sc).
Definition slice_ok (m : FragmentedMapper) (s : Z * Z * Z) : Prop := let '(i, sc, ec) := s in is_Some (slab_map m !! i) ∧ 0 ≤ sc ≤ ec ∧ ec ≤ 2 ^ 8.
Lemma slice_mono m m' s : slab_map m ⊆ slab_map m' → slice_ok m s → slice_ok m' s ∧ slice_chunks m' s = slice_chunks m s.
Proof. destruct s as [[i sc] ec]. intros Hm ([b Hi] & ? & ?). unfold slice_ok, slice_chunks. pose proof (lookup_weaken _ _ _ _ Hi Hm) as Hi'. rewrite Hi, Hi'. split; [split; [by eexists|done]|done]. Qed.
Lemma collect_slices_ok tf fuel m A start end_ :
  mapper_rel m A → in_slabs start end_ → 2 ^ 10 < Z.of_nat tf → (start < end_ → end_ `div` SLAB - start `div` SLAB < Z.of_nat fuel) →
  ∃ m' slices, collect_slices tf fuel m start end_ = Val (m', slices) ∧ mapper_rel m' A ∧ slab_map m ⊆ slab_map m' ∧ Forall (slice_ok m') slices ∧
    (slices ≫= slice_chunks m') = chunks start end_.
Proof.
  intros HR HS Htf. revert m start HR HS. induction fuel as [|fuel IH]; intros m start HR HS Hf; destruct HS as (H0 & He & HS).
  { unfold collect_slices, chunks. destruct (Z.ltb_spec start end_); [|by eexists m, []]. specialize (Hf H). pose proof (Z.div_le_mono start end_ SLAB). lia. }
  cbn [collect_slices]. destruct (Z.ltb_spec start end_) as [Hlt|Hge]; [|unfold chunks; rewrite (proj2 (Z.ltb_ge start end_)) by done; by eexists m, []].
  pose proof (slab_chunks_ok start end_ (conj H0 Hlt) He) as HC. destruct (slab_chunks start end_) as [sc ec]. destruct HC as (Hsc & Hec & -> & Esc).
  destruct (get_or_allocate_ok tf m A start HR) as (m1 & i & slab & -> & HR1 & Hi & Hs & Hm1); [apply HS; lia|lia|done|]. cbn [mbind res_bind].
  rewrite (proj2 (Z.leb_le sc ec)), (proj2 (Z.leb_le ec MMAP_NUM_CHUNKS)) by (change MMAP_NUM_CHUNKS with (2 ^ 11); lia). cbn [andb rust_assert mbind res_bind].
  destruct (slab_high_next start end_ (conj H0 Hlt) He) as [Hh Hn].
  destruct (IH m1 (slab_high start end_) HR1) as (m2 & slices & -> & HR2 & Hm2 & HF & Hc); [split_and!; [lia|done|intros a Ha; apply HS; lia]|intros Hlt'; rewrite Hn by done; specialize (Hf Hlt); lia|].
  cbn [mbind res_bind]. eexists m2, _. split; [done|]. split; [done|]. split; [by transitivity (slab_map m1)|].
  destruct (slice_mono m1 m2 (i, sc, ec) Hm2) as [Hok Ec]; [split; [by eexists|lia]|]. split; [by constructor|]. rewrite bind_cons, Hc, Ec. unfold slice_chunks. by rewrite Hi.
Qed.

Lemma slice_states_ok m A s : mapper_rel m A → slice_ok m s → slice_states m s = A <$> slice_chunks m s.
Proof.
  destruct s as [[i sc] ec]. intros HR ([b Hi] & Hsc & Hec). pose proof (mr_table _ _ HR) as HT. destruct (proj2 (tk_dom _ _ HT i)) as [slab Hs]; [by eexists|].
  unfold slice_states, slice_chunks. rewrite Hi, Hs. cbn [default from_option id]. apply list_eq. intros j. rewrite list_lookup_fmap.
  destruct (decide (Z.of_nat j < ec - sc)) as [Hj|Hj].
  - rewrite lookup_take_lt, lookup_drop by lia. replace (Z.to_nat sc + j)%nat with (Z.to_nat (sc + Z.of_nat j)) by lia. rewrite (mr_states _ _ HR i b slab) by (done || lia).
    rewrite lookup_seqZ_lt by lia. cbn. do 2 f_equal. lia.
  - rewrite lookup_take_ge, lookup_seqZ_ge by lia. done.
Qed.
(** New states for one slice. *)
Lemma set_slice_rel m A i sc ec states :
  mapper_rel m A → slice_ok m (i, sc, ec) → length states = Z.to_nat (ec - sc) →
  let slab := default [] (slab_table m !! i) in
  mapper_rel (set_slab m i (take (Z.to_nat sc) slab ++ states ++ drop (Z.to_nat ec) slab)) (with_states A (slice_chunks m (i, sc, ec)) states).
Proof.
  intros HR ([b Hi] & Hsc & Hec) Hl. pose proof (mr_table _ _ HR) as HT. destruct (proj2 (tk_dom _ _ HT i)) as [slab Hs]; [by eexists|]. cbn zeta. rewrite Hs. cbn [default from_option id].
  destruct (slab_rel_of m A i b slab HR Hi Hs) as [Hlen Hst]. change MMAP_NUM_CHUNKS with (2 ^ 11) in Hlen. unfold slice_chunks. rewrite Hi. cbn [default from_option id].
  eapply (set_slab_rel m A _ i b); [done..| |].
  - split; [rewrite !length_app, length_take, length_drop, Hlen, Hl; change MMAP_NUM_CHUNKS with (2 ^ 11); lia|]. intros j Hj. destruct (decide (j < sc)) as [H1|H1]; [|destruct (decide (j < ec)) as [H2|H2]].
    + rewrite lookup_app_l by (rewrite length_take; lia). rewrite lookup_take_lt, Hst by lia. f_equal. symmetry. apply with_states_other. rewrite elem_of_seqZ. lia.
    + rewrite lookup_app_r by (rewrite length_take; lia). rewrite length_take, lookup_app_l by lia. destruct (lookup_lt_is_Some_2 states (Z.to_nat j - (Z.to_nat sc `min` length slab))) as [s Es]; [lia|].
      rewrite Es. f_equal. symmetry. eapply (with_states_at _ _ _ (Z.to_nat (j - sc))); [apply NoDup_seqZ|rewrite lookup_seqZ_lt by lia; f_equal; lia|]. rewrite <-Es. f_equal. lia.
    + rewrite lookup_app_r by (rewrite length_take; lia). rewrite length_take, lookup_app_r by lia. rewrite lookup_drop. replace (_ + _)%nat with (Z.to_nat j) by lia. rewrite Hst by lia.
      f_equal. symmetry. apply with_states_other. rewrite elem_of_seqZ. lia.
  - intros c Hc. apply with_states_other. rewrite elem_of_seqZ. lia.
Qed.
Lemma store_slices_ok m A slices states :
  mapper_rel m A → Forall (slice_ok m) slices → length states = length (slices ≫= slice_chunks m) →
  mapper_rel (store_slices m slices states) (with_states A (slices ≫= slice_chunks m) states).
Proof.
  revert m A states. induction slices as [|[[i sc] ec] slices IH]; intros m A states HR HF Hl; [done|]. apply Forall_cons in HF as [Hok HF]. cbn [store_slices]. rewrite bind_cons in Hl |- *.
  set (n := Z.to_nat (ec - sc)). assert (length (slice_chunks m (i, sc, ec)) = n) as En by (unfold slice_chunks; apply length_seqZ). rewrite length_app, En in Hl.
  assert (length (take n states) = n) as Et by (rewrite length_take; lia). pose proof (set_slice_rel m A i sc ec (take n states) HR Hok Et) as HR'. cbn zeta in HR'.
  set (m' := set_slab _ _ _) in *. rewrite <-(take_drop n states) at 2. rewrite with_states_app by congruence.
  apply (IH m' _ (drop n states)); [exact HR'|exact HF|]. rewrite length_drop. change (slices ≫= slice_chunks m') with (slices ≫= slice_chunks m). lia.
Qed.

(** [quarantine_address_range] with its assertions: an empty range must start at a chunk. *)
Definition quarantine_spec (A : Z → MapState) (start pages : Z) : res (bool * (Z → MapState)) :=
  _ ← rust_assert ((start mod 2 ^ 12 =? 0) && ((0 <? pages) || (start mod CHUNK =? 0)));
  let end_ := start + pages * 2 ^ 12 in
  run_chunks (quarantine_chunk os A (start `div` CHUNK) ((end_ + CHUNK - 1) `div` CHUNK)) (chunks start end_) A.
Lemma quarantine_ok tf fuel m A start pages :
  mapper_rel m A → 0 ≤ pages → in_slabs start (start + pages * 2 ^ 12) → 2 ^ 10 < Z.of_nat tf → start < 2 ^ 63 →
  (start + pages * 2 ^ 12) `div` SLAB - start `div` SLAB < Z.of_nat fuel →
  refines (λ x y, x.1 = y.1 ∧ mapper_rel x.2 y.2) (quarantine_address_range os tf fuel m start pages) (quarantine_spec A start pages).
Proof.
  intros HR Hp HS Htf H63 Hf. pose proof HS as (H0 & He & _). unfold quarantine_spec. set (end_ := start + pages * 2 ^ 12) in *.
  unfold quarantine_address_range. assert (start +u pages_to_bytes pages = end_) as ->.
  { unfold pages_to_bytes. change LOG_BYTES_IN_PAGE with 12. rewrite ushl_id, uadd_id by lia. done. }
  unfold is_aligned_to. change BYTES_IN_PAGE with (2 ^ 12). rewrite is_aligned_mod by lia. destruct (Z.eqb_spec (start mod 2 ^ 12) 0) as [Ha|Ha]; [|done]. cbn [andb rust_assert mbind res_bind].
  destruct (collect_slices_ok tf fuel m A start end_ HR) as (m' & slices & -> & HR' & _ & HF & Hc); [done|done|done|]. cbn [mbind res_bind].
  assert ((slices ≫= slice_states m') = A <$> chunks start end_) as Es.
  { rewrite <-Hc. clear Hc. induction HF as [|s slices Hs HF IH]; [done|]. rewrite !bind_cons, fmap_app, IH. by rewrite (slice_states_ok m' A). }
  rewrite Es, length_fmap. set (lo := start `div` CHUNK). set (hi := (end_ + CHUNK - 1) `div` CHUNK).
  pose proof (div_mul_bounds start CHUNK ltac:(lia)) as Hd1. fold lo in Hd1. pose proof (div_mul_bounds (end_ + CHUNK - 1) CHUNK ltac:(lia)) as Hd2. fold hi in Hd2.
  assert (mmap_chunk_align_down start = lo * CHUNK) as ->.
  { unfold mmap_chunk_align_down, align_down. change MMAP_CHUNK_BYTES with CHUNK. rewrite align_down_eq by (unfold is_u; lia). done. }
  rewrite chunk_align_up_eq by lia. fold hi. change BYTES_IN_CHUNK with CHUNK. destruct (decide (0 < pages)) as [Hpos|Hpos].
  - assert (start < end_) as Hlt by lia. rewrite (proj2 (Z.ltb_lt 0 pages) Hpos). cbn [orb rust_assert mbind res_bind]. assert (chunks start end_ = seqZ lo (hi - lo)) as Ec by (unfold chunks; by rewrite (proj2 (Z.ltb_lt start end_) Hlt)).
    rewrite Ec in *. rewrite length_seqZ, Z2Nat.id by lia. unfold umul. rewrite uwrap_id, uadd_id by lia. replace (lo * CHUNK + CHUNK * (hi - lo)) with (hi * CHUNK) by lia. rewrite Z.eqb_refl.
    cbn [rust_assert mbind res_bind]. rewrite bulk_ok by lia. destruct (run_chunks _ _ A) as [[ok A']| |] eqn:E; cbn; [|done..]. eexists. split; [done|]. split; [done|]. cbn [snd].
    eapply mapper_rel_ext; [rewrite <-Hc; apply store_slices_ok; [done|done|by rewrite Hc, length_fmap]|]. intros c. symmetry. rewrite Hc. apply with_states_map; [apply NoDup_seqZ|]. intros c' Hc'. by eapply run_chunks_other.
  - assert (end_ = start) as Ee by lia. rewrite Ee in *. assert (chunks start start = []) as Ech by (unfold chunks; by rewrite Z.ltb_irrefl). rewrite Ech in *. cbn [length fmap list_fmap run_chunks].
    rewrite (proj2 (Z.ltb_ge 0 pages)) by lia. cbn [orb]. change (CHUNK *u Z.of_nat 0) with 0. rewrite uadd_id by (clear Hd2; lia).
    assert ((lo * CHUNK + 0 =? hi * CHUNK) = (start mod CHUNK =? 0)) as ->.
    { apply Bool.eq_iff_eq_true. rewrite !Z.eqb_eq. pose proof (Z.div_mod start CHUNK ltac:(lia)) as Hm. pose proof (Z.mod_pos_bound start CHUNK ltac:(lia)). fold lo in Hm. split; intros; nia. }
    destruct (_ =? 0); [|done]. cbn. eexists. split; [done|]. split; [done|]. cbn [snd]. destruct slices as [|s0 slices]; [done|].
    eapply mapper_rel_ext; [apply (store_slices_ok m' A (s0 :: slices) []); [done|done|by rewrite Hc]|]. rewrite Hc. done.
Qed.
End quarantine.
End table.

(** ** Sequences of operations *)

Inductive mmap_call : Type :=
| MarkAsMapped (start bytes : Z)
| EnsureMapped (start pages : Z)
| EnsureUnmapped (start pages : Z)
| Protect (start pages : Z)
| Quarantine (start pages : Z).

Section calls.
Context (os : os_call → bool) (tf fuel : nat).

Definition mmap_exec (m : FragmentedMapper) (c : mmap_call) : res (bool * FragmentedMapper) :=
  match c with
  | MarkAsMapped start bytes => mark_as_mapped tf fuel m start bytes
  | EnsureMapped start pages => ensure_mapped os tf fuel m start pages
  | EnsureUnmapped start pages => ensure_unmapped os tf fuel m start pages
  | Protect start pages => protect os tf fuel m start pages
  | Quarantine start pages => quarantine_address_range os tf fuel m start pages
  end.
Fixpoint mmap_run (m : FragmentedMapper) (l : list mmap_call) : res (list bool * FragmentedMapper) :=
  match l with
  | [] => Val ([], m)
  | c :: l => '(ok, m) ← mmap_exec m c; '(oks, m) ← mmap_run m l; Val (ok :: oks, m)
  end.

Definition call_start (c : mmap_call) : Z := match c with MarkAsMapped s _ | EnsureMapped s _ | EnsureUnmapped s _ | Protect s _ | Quarantine s _ => s end.
Definition call_size (c : mmap_call) : Z := match c with MarkAsMapped _ n => n | EnsureMapped _ n | EnsureUnmapped _ n | Protect _ n | Quarantine _ n => n * 2 ^ 12 end.
(** What the other operations do to each chunk, and quarantine if memory can be reserved. *)
Definition chunk_transition (c : mmap_call) (state : MapState) (a : Z) : res (bool * MapState) :=
  match c with
  | MarkAsMapped _ _ => Val (true, Mapped)
  | EnsureMapped _ _ => transition_to_mapped os state a
  | EnsureUnmapped _ _ => transition_to_unmapped os state a
  | Protect _ _ => transition_to_protected os state a
  | Quarantine _ _ => transition_to_quarantined os state a
  end.
Definition chunk_exec (A : Z → MapState) (c : mmap_call) : res (bool * (Z → MapState)) :=
  match c with
  | Quarantine start pages => quarantine_spec os A start pages
  | _ => run_chunks (chunk_transition c) (chunks (call_start c) (call_start c + call_size c)) A
  end.
Fixpoint chunk_run (A : Z → MapState) (l : list mmap_call) : res (list bool * (Z → MapState)) :=
  match l with
  | [] => Val ([], A)
  | c :: l => '(ok, A) ← chunk_exec A c; '(oks, A) ← chunk_run A l; Val (ok :: oks, A)
  end.

(** The range is in the slabs of [B], and the fuel is more than the slabs that it spans. *)
Definition call_ok (B : gset Z) (c : mmap_call) : Prop :=
  in_slabs B (call_start c) (call_start c + call_size c) ∧ 0 ≤ call_size c ∧ (call_start c + call_size c) `div` SLAB - call_start c `div` SLAB < Z.of_nat fuel ∧ call_start c < 2 ^ 63.

Lemma run_chunks_ext f g l A : (∀ s a, f s a = g s a) → run_chunks f l A = run_chunks g l A.
Proof. intros E. revert A. induction l as [|c l IH]; intros A; [done|]. cbn [run_chunks]. rewrite E. destruct (g (A c) (c * CHUNK)) as [[[] s]| |]; cbn; by rewrite ?IH. Qed.
Lemma exec_ok B m A c :
  slab_bases B → 2 ^ 10 < Z.of_nat tf → mapper_rel B m A → call_ok B c →
  refines (λ x y, x.1 = y.1 ∧ mapper_rel B x.2 y.2) (mmap_exec m c) (chunk_exec A c).
Proof.
  intros HB Htf HR (HS & Hn & Hf & H63). pose proof HS as (H0 & He & _).
  assert (∀ pages, 0 ≤ pages * 2 ^ 12 → call_size c = pages * 2 ^ 12 → call_start c +u pages_to_bytes pages = call_start c + pages * 2 ^ 12) as Hp.
  { intros pages Hpp E. unfold pages_to_bytes. change LOG_BYTES_IN_PAGE with 12. rewrite ushl_id, uadd_id by lia. done. }
  destruct c as [s n|s n|s n|s n|s n]; cbn [call_start call_size] in *; cbn [mmap_exec chunk_exec call_start call_size].
  - unfold mark_as_mapped. rewrite uadd_id by lia. by apply slab_loop_ok.
  - unfold ensure_mapped. rewrite Hp by done. erewrite (run_chunks_ext (chunk_transition _)); [by apply slab_loop_ok|]. intros st a. cbn [chunk_transition]. case_bool_decide; [by subst|done].
  - unfold ensure_unmapped. rewrite Hp by done. by apply slab_loop_ok.
  - unfold protect. rewrite Hp by done. by apply slab_loop_ok.
  - apply quarantine_ok; (done || lia).
Qed.

(** [ensure_mapped] maps the chunks of its range and changes no other. *)
Lemma ensure_maps start pages A A' :
  chunk_exec A (EnsureMapped start pages) = Val (true, A') → ∀ c, A' c = if decide (c ∈ chunks start (start + pages * 2 ^ 12)) then Mapped else A c.
Proof.
  unfold chunk_exec. cbn [call_start call_size]. generalize (chunks start (start + pages * 2 ^ 12)) as l. intros l. revert A. induction l as [|x l IH]; intros A E c; [by injection E as <-|].
  cbn [run_chunks] in E. assert (∃ ok : bool, transition_to_mapped os (A x) (x * CHUNK) = Val (ok, if ok then Mapped else A x)) as [ok Hx] by (eexists; reflexivity).
  change (chunk_transition (EnsureMapped start pages)) with (transition_to_mapped os) in E; rewrite Hx in E. destruct ok; [|done]. cbn in E.
  rewrite (IH _ E c). destruct (decide (c ∈ l)) as [Hl|Hl]; [by rewrite decide_True by (by right)|]. destruct (decide (c = x)) as [-> |Hcx]; [rewrite decide_True by (by left); apply fn_lookup_insert|].
  rewrite decide_False by (by intros [?|?]%elem_of_cons). by apply fn_lookup_insert_ne.
Qed.

(** [ensure_unmapped] of chunks that are all mapped unmaps them, if the operating system does;
    this is what giving back freed chunks relies on. *)
Lemma ensure_unmaps start pages A : (∀ a n, os (munmap a n) = true) → (∀ c, c ∈ chunks start (start + pages * 2 ^ 12) → A c = Mapped) →
  ∃ A', chunk_exec A (EnsureUnmapped start pages) = Val (true, A') ∧ ∀ c, A' c = if decide (c ∈ chunks start (start + pages * 2 ^ 12)) then Unmapped else A c.
Proof.
  intros Hos Hm. cbn [chunk_exec call_start call_size]. apply run_chunks_all; [apply chunks_NoDup|]. intros c Hc. rewrite Hm by done. cbn. by rewrite Hos.
Qed.

Lemma run_chunks_total f l A : (∀ s a, f s a ≠ NoFuel) → run_chunks f l A ≠ NoFuel.
Proof. intros Hf. revert A. induction l as [|c l IH]; intros A; [done|]. cbn [run_chunks]. specialize (Hf (A c) (c * CHUNK)). destruct (f (A c) (c * CHUNK)) as [[[] s]| |]; cbn; [apply IH|done..]. Qed.
Lemma chunk_exec_total A c : chunk_exec A c ≠ NoFuel.
Proof.
  destruct c; cbn [chunk_exec]; [apply run_chunks_total; intros [] a; cbn; by repeat case_match..|].
  unfold quarantine_spec. destruct (_ && _); cbn [rust_assert mbind res_bind]; [|done]. apply run_chunks_total. by intros [] a.
Qed.
Lemma chunk_run_total calls A : chunk_run A calls ≠ NoFuel.
Proof.
  revert A. induction calls as [|c calls IH]; intros A; [done|]. cbn [chunk_run]. pose proof (chunk_exec_total A c) as H.
  destruct (chunk_exec A c) as [[ok A']| |]; cbn; [|done..]. specialize (IH A'). by destruct (chunk_run A' calls) as [[]| |].
Qed.
(** If the operating system always reserves what it is asked for, quarantine is a transition of
    every chunk of the range, as the comment of [bulk_transition_to_quarantined] says. *)
Lemma quarantine_chunk_by_chunk A start pages : (∀ a n, os (mmap_noreserve a n) = true) → (2 ^ 12 | start) → 0 < pages →
  chunk_exec A (Quarantine start pages) = run_chunks (transition_to_quarantined os) (chunks start (start + pages * 2 ^ 12)) A.
Proof.
  intros Hos [q ->] Hp. cbn [chunk_exec]. unfold quarantine_spec. rewrite Z.mod_mul by lia. rewrite (proj2 (Z.ltb_lt 0 pages) Hp). cbn [Z.eqb andb orb rust_assert mbind res_bind].
  apply run_chunks_ext. intros [] a; cbn; by rewrite ?Hos.
Qed.

(** C7: the fragmented mapper.  A new mapper behaves as one state per chunk, whatever ranges of
    addresses below 2^63, in at most [MAX_SLABS] slabs, are marked, mapped, unmapped, protected
    and quarantined and whatever the operating system answers.  Every operation ends; marking,
    mapping, unmapping and protecting change the range chunk by chunk up to the first failure;
    quarantining does, too, but a chunk that is not mapped is quarantined only if the whole run
    of unmapped chunks around it in the range can be reserved at once.  The results are the
    same, the operation panics exactly when a transition does or when quarantine is given a
    start that is not a page's, or an empty range that does not start at a chunk, and
    [is_mapped_address] tells whether the chunk of an address is mapped. *)
Theorem mapper_refines (B : gset Z) (calls : list mmap_call) :
  slab_bases B → 2 ^ 10 < Z.of_nat tf → Forall (call_ok B) calls →
  chunk_run (λ _, Unmapped) calls ≠ NoFuel ∧
  refines (λ x y, x.1 = y.1 ∧ ∀ addr, slab_base addr ∈ B → 0 ≤ addr < 2 ^ 63 → is_mapped_address tf x.2 addr = Val (bool_decide (y.2 (addr `div` CHUNK) = Mapped)))
    (mmap_run FragmentedMapper_new calls) (chunk_run (λ _, Unmapped) calls).
Proof.
  intros HB Htf HF. split; [apply chunk_run_total|]. assert (mapper_rel B FragmentedMapper_new (λ _, Unmapped)) as HR.
  { split; [split|..]; cbn [FragmentedMapper_new slab_map slab_table free_slab_index]; intros; rewrite ?lookup_empty in *; try done. }
  revert HR. generalize FragmentedMapper_new as m. generalize (λ _ : Z, Unmapped) as A. induction HF as [|c calls Hc HF IH]; intros A m HR.
  { cbn. eexists. split; [done|]. split; [done|]. intros. by eapply is_mapped_ok. }
  cbn [mmap_run chunk_run]. eapply refines_bind; [by eapply exec_ok|]. intros [ok m'] [ok' A'] [E HR']. cbn in E, HR'. subst ok'.
  eapply refines_bind; [by apply IH|]. intros [oks m2] [oks' A2] [E Hm]. cbn in E, Hm. subst oks'. cbn. by eexists.
Qed.
End calls.

(** ** An example *)

(** The last chunk of a slab and the first of the next are quarantined and mapped; then the
    first is unmapped, and quarantined again with one more. *)
Definition example_calls : list mmap_call :=
  [Quarantine (2 ^ 30 - 2 ^ 22) 2048; EnsureMapped (2 ^ 30 - 2 ^ 22) 2048; Protect (2 ^ 30) 1; EnsureMapped (2 ^ 30) 1; EnsureUnmapped (2 ^ 30 - 2 ^ 22) 1; Quarantine (2 ^ 30 - 2 ^ 23) 4096].
Definition example_slabs : gset Z := {[0; 2 ^ 30]}.
Lemma example_range start size : 0 ≤ start → start + size ≤ 2 ^ 31 → in_slabs example_slabs start (start + size).
Proof.
  intros H0 H1. split; [done|]. split; [lia|]. intros a Ha. unfold slab_base. assert (a `div` SLAB = 0 ∨ a `div` SLAB = 1) as [-> | ->] by (pose proof (Z.div_mod a SLAB); pose proof (Z.mod_pos_bound a SLAB); lia); set_solver.
Qed.
(** Protecting a chunk that is not mapped panics. *)
Example protect_unmapped : mmap_run (λ _, true) 2000 3 FragmentedMapper_new [Protect (2 ^ 30) 1] = Panic.
Proof. vm_compute. reflexivity. Qed.
(** Where the second of two chunks cannot be reserved, quarantining them in bulk reserves
    neither; a transition of each would have reserved the first. *)
Definition second_taken (c : os_call) : bool := match c with mmap_noreserve start size => start + size <=? 2 ^ 22 | _ => true end.
Lemma bulk_quarantine_differs :
  (∃ A, chunk_exec second_taken (λ _, Unmapped) (Quarantine 0 2048) = Val (false, A) ∧ A 0 = Unmapped) ∧
  (∃ A, run_chunks (transition_to_quarantined second_taken) (chunks 0 (2048 * 2 ^ 12)) (λ _, Unmapped) = Val (false, A) ∧ A 0 = Quarantined).
Proof. split; by eexists. Qed.
(** An empty range that does not start at a chunk fails the debug assertion of quarantine. *)
Example quarantine_nothing : mmap_run (λ _, true) 2000 3 FragmentedMapper_new [Quarantine (2 ^ 12) 0] = Panic.
Proof. vm_compute. reflexivity. Qed.
Lemma mapper_refines_witness :
  ∃ m, mmap_run (λ _, true) 2000 3 FragmentedMapper_new example_calls = Val ([true; true; true; true; true; true], m) ∧
       is_mapped_address 2000 m (2 ^ 30) = Val true ∧ is_mapped_address 2000 m (2 ^ 30 - 2 ^ 22) = Val false.
Proof.
  destruct (mapper_refines (λ _, true) 2000 3 example_slabs example_calls) as [_ H].
  - split; [vm_compute; discriminate|]. intros b Hb. assert (b = 0 ∨ b = 2 ^ 30) as [-> | ->] by (unfold example_slabs in Hb; set_solver); (split; [|lia]); [by exists 0|by exists 1].
  - lia.
  - unfold example_calls. by repeat (apply Forall_cons_2; [split; [apply example_range; cbn; lia|split; [cbn; lia|split; by vm_compute]]|]).
  - remember (chunk_run (λ _, true) (λ _, Unmapped) example_calls) as spec eqn:E. vm_compute in E. subst spec. destruct H as ([oks m] & Hrun & Hoks & Hm). cbn in Hoks. subst oks.
    exists m. split; [done|]. split; (rewrite Hm; [vm_compute; reflexivity|unfold example_slabs; vm_compute slab_base; set_solver|lia]).
Defined.
